(* ===== verification/_CoqProject ===== *)
-Q . S2P
Prelude.v
GoLib.v
Json.v
JsonFacts.v
Sha256.v
Merkle.v
Incremental.v
Recursion.v
HashFold.v
Attest.v
Byzantine.v
Conformal.v
Pool.v
Hitl.v
Quorum.v
Tenant.v
Siwe.v
Guard.v
Llm.v
Judge.v
Evidence.v
Engine.v
Complexity.v
Dag.v
Worker.v
Webhooks.v
Pq.v
Keyring.v
Keystore.v
FileStore.v
Receipts.v
Resilience.v
AuditLog.v
BigInt.v
Circuits.v
ZkRegistry.v
Sha512.v
Curve.v
Vrf.v
RangeProof.v
PedersenFold.v
Verifier.v
ModelReg.v
Anchor.v
Stark.v
PgStore.v
Kyc.v
Inference.v
Seed.v
Persist.v
ProofApi.v
BatchApi.v
ChainApi.v
TenantApi.v
Groth16Sim.v
ZkApi.v
KeyApi.v
WebhookApi.v
AggApi.v
QuorumApi.v
SiweApi.v
JudgeApi.v
AuditApi.v
ReceiptExport.v
ReceiptApi.v
DecisionApi.v
Contracts.v
Casper.v
AnchorPath.v
VaultKeys.v
RemoteKeys.v
Expo.v
Metrics.v
Obs.v
Tracing.v
Routes.v
OpenApi.v
Sdk.v
Mcp.v
