(* ===== verification/Prelude.v ===== *)
(** * CasperProver: a verification development for the proof engine

    CasperProver ([src/]) attests decisions of AI systems: an inference or a
    policy decision is hashed, attested by evaluators, judged by language
    models, proved by Merkle commitments, signed, receipted and anchored on a
    chain. The program is the Go module [engine/] (about thirty thousand lines),
    the shared package [pkg/phase2] and the Go client [sdk/]. This development
    models its algorithms, its HTTP handlers with the router and the middleware in
    front of them, its storage and submission, and the contracts that the
    submissions call, and proves them correct.

    ** The program's parts and the files that model them

    Under every heading: the file of the development and the Go files, below
    [engine/internal/] unless a full path is given.

    Shared ground.
    - Prelude: notations, automation, lists, counting, [sort_slice], [result].
    - GoLib: what the code uses of Go's library: bytes, hexadecimal, big-endian
      integers, [strings], [strconv], [float64], wrap-around integers, [time].
    - BigInt ([math/big] as the handlers use it), Expo (text of numbers and
      labels, sorted maps, cells of the metrics).
    - Sha256, Sha512: the two hashes, executable.
    - Json, JsonFacts: [encoding/json] text, the canonical text of
      [judge/equivocation/proof.go] and [judge/hitl], and its unique readability.

    Proving.
    - Merkle ([prover/merkle.go]), Incremental ([prover/incremental.go]): batch
      tree and append-only accumulator.
    - Engine ([prover/proof.go], [hasher/hasher.go]), Complexity
      ([prover/complexity.go]): proofs, their life cycle and their cost.
    - Recursion, HashFold, PedersenFold, Stark ([aggregator/]): the aggregators.
    - Verifier ([verifier/local.go]): local verification of Engine's proofs over
      Merkle's paths.
    - Dag ([pkg/phase2/proof_chain.go], [proof_dag.go]): chains of proofs.
    - Worker ([worker/distributed.go]): the pool that proof tasks are given to.
    - Circuits, ZkRegistry ([zkverifier/gnarkzk]), Groth16Sim
      ([zkverifier/groth16.go]): the circuits, the registry with its key files, and
      the hash-based stand-in.
    - Kyc ([kyc/]), Inference ([inference/service.go]), Seed (demo data).

    Deciding.
    - Attest ([decision/attest/decision.go], [gate.go], [equivocation.go],
      [util.go]), Byzantine ([byzantine.go]), Conformal ([conformal.go]), Pool
      ([provider.go], [adapter.go], [pool.go]): verdicts, their aggregation, the
      gate, and the providers that deliver them.
    - Quorum ([quorum/]): the signer registry and the BLS quorum.
    - Hitl ([hitl/hitl.go]): tickets for human review.
    - Llm ([llm/]), Judge ([judge/facet_judge.go], [types.go]), Evidence
      ([judge/equivocation], [judge/hitl]): models that are polled, the verdict
      over their votes, and the evidence of a disagreement or an abstention.
    - AuditLog ([decision/audit.go]), ModelReg ([model/registry.go]): the audit
      log and the registry of models.

    Signing and recording.
    - Pq, Keyring ([crypto/pq.go], [keyring.go]), Keystore, FileStore, VaultKeys,
      RemoteKeys ([crypto/keystore]): signatures, key life cycle, the keystore in
      memory, on disk, in Vault and behind a gateway.
    - Receipts, ReceiptExport ([receipts/]): receipts and their exports.
    - Curve, Vrf, RangeProof ([crypto/vrf.go], [rangeproof.go]).
    - PgStore ([store/pg.go]), Persist: the tables and what survives a restart.

    The chain.
    - Resilience ([submitter/resilience.go]), Casper ([submitter/casper.go]),
      Anchor ([chainadapter/]): queries, transactions and their retries, simulated
      chains.
    - Contracts ([contracts/], in Rust): the verdict recorder, the proof registry
      and the entry point of the model registry that the engine calls.
    - AnchorPath: the anchoring handler, the submitter and the contract together.

    Serving.
    - Guard: the middleware chain; Routes: the route table of [Server.Start], the
      router, and the whole server on one request; OpenApi ([api/openapi.go]).
    - Tenant ([api/tenant]), Siwe ([api/siwe]), Webhooks ([api/webhooks.go]).
    - ProofApi, BatchApi, ChainApi, ZkApi ([api/server.go]), TenantApi, KeyApi,
      WebhookApi, AggApi, QuorumApi, SiweApi, JudgeApi, AuditApi, ReceiptApi,
      DecisionApi ([api/*_handlers.go]): every handler as a function of its state
      and its decoded request, over the components above.
    - Metrics ([observability/metrics.go]), Obs ([obs/]), Tracing
      ([observability/trace.go], [obs/tracing.go]): the two registries with their
      middleware, and traces.
    - Sdk, Mcp ([sdk/], a path of its own): the Go client, its requests against
      Routes and its receipts against Engine, and the MCP server over it.

    ** How state and operations correspond to the code

    A Go struct is a record with the source's field names, a method is one
    definition with the source's name, which takes the receiver and returns the
    new one with its result. An [error] is [Err] of [result] (or the second
    component of the result where the code returns a value beside the error);
    [None] is a panic of the code or exhausted fuel. A method that holds the
    mutex from its first to its last line is one atomic step, and interleavings
    are sequences of such steps; Resilience, where a call takes the lock twice,
    has a step relation over the calls in flight, Guard separates the
    admission of a request from its completion, and Obs the start of a request
    from its end. The reachable states are
    inductive predicates, and invariants go by induction over them. A handler is
    one step on its decoded request, which is [None] where the body does not
    decode, and answers a status and a body.

    What the code reads from outside is an argument: the clock ([now]), random
    bytes, generated identifiers, the iteration order of a map ([iter], any
    permutation of the entries), the order in which goroutines deliver
    ([arrive]), whether a database or a file system takes a write, answers of
    remote services. A theorem quantifies over them.
    [sort.Slice] is the stable sort [sort_slice]; Go's is not stable, and
    the theorems say so where equal keys can be observed.

    Third-party code is a class of operations and a class of laws that states
    what its documentation promises: [Curve] and [CurveLaws] of Quorum
    (BLS12-381 pairing) and of Curve (edwards25519), the group of
    PedersenFold, [Primitives] of Pq (Ed25519, ML-DSA-65) and its driver
    [PqDriver], gnark's wires, Groth16 and its proof encoding (Circuits,
    ZkRegistry, ZkApi), sealing and key derivation (FileStore), the answers of
    Vault and of the gateway (VaultKeys, RemoteKeys), the node (Casper,
    AnchorPath). Each has a concrete
    instance at which the witnesses evaluate. SHA-256 and SHA-512 are computed;
    theorems of binding reduce to a collision and exhibit it: they conclude that
    two inputs are equal or that two different byte strings have one digest.

    The interfaces of the program are classes too: the ticket store (Hitl), the
    keystore (Keystore, which Receipts is proved against and the memory backend
    implements, and the full one of KeyApi).

    ** What the theorems show

    - Binding: a Merkle path, a receipt's canonical hash, a decision's commit
      digest, an evidence document, an audit record, a batch's inclusion proof
      determine what they commit to, up to a collision of the hash.
    - Refinement and equivalence: the accumulator computes the batch root;
      the audit ring buffer is the suffix of its history; the depth-first search
      of a proof chain decides acyclicity; snapshots restore the key ring; the
      tables of a server restore it; circuits are the arithmetic they stand for.
    - Safety of decisions: at most [F] Byzantine voters cannot force or block a
      verdict; two quorums share an honest signer; the judges fail
      closed; abstention keeps its calibrated risk.
    - State machines: workers and tasks, tickets, keys, proofs, models, circuit
      breakers, webhook deliveries, tenants, contracts: invariants of every
      reachable state, and conservation (no event or task is lost).
    - End to end over HTTP: what a handler answers is checked with the components'
      theorems (a signature answered verifies, a submission is served, an
      escalation can be resolved once), a request reaches exactly the handler of
      its route, and an anchored verdict is one that was verified.
    - Cryptographic protocols: completeness of signing, of the range proof, the
      random function and the folders; special soundness and uniqueness, stated
      over two answers of the challenge function.
    - Durability: acknowledged keys, key generations and stored proofs survive
      crashes and restarts.
    - Errors and bounds: rate limits admit exactly what their budget allows,
      retry delays, puts and queues are bounded, every error branch has its value.

    ** Fuel

    Loops that are not structural take fuel, and a theorem shows that the
    fuel the definitions pass is enough. The levels of a Merkle tree
    ([build_loop] of Merkle, the level loops of Recursion): the number of
    leaves, since a level with [n > 1] nodes is followed by [(n + 1) / 2].
    Depth-first search of Dag and the depth of a chain (ChainApi): one step per
    node, respectively per step of an accepted chain. The lineage walk of Receipts:
    the number of stored receipts. Key selection and the attempts of Llm,
    Resilience and Casper: the number of keys or attempts ([maxAttempts - 1] after
    the first). Euclid's algorithm of Curve: its second argument's size. Base 58
    digits of Anchor: two digits per byte. Binary search of Expo: the length of the
    list. Reading labels back (Expo): their number.
    [hash_to_curve] tries the code's own bound of counters.

    ** Not modelled

    The HTTP clients of the language models (a request to a vendor and the decoding
    of its answer); the ceremony (orchestration of gnark's mpcsetup); SLH-DSA (one
    call of circl); the stubs of hardware attestation; reading configuration files
    and the environment beyond the switches the handlers look at; the cache of the
    on-chain manifest, the admin summary, health and preflight; the injection list
    and the prompt-injection corpus (tables of strings); the JSON reader (handlers
    take decoded requests); header writing, logging, listening and percent-escapes
    in paths; the command-line tools, which wire and print; the Python and
    TypeScript clients and the frontend, which are not Go; the
    contracts that the engine does not call. Arithmetic of the third-party curves
    and of the language's scheduler is assumed through the classes and arguments
    above. These parts are calls into code outside [src/], tables or glue; what
    they hand to the modelled operations is an argument there. *)

From stdpp Require Export base tactics option list list_numbers gmap strings sorting.
From Stdlib Require Export ZArith Lia ZifyNat Bool.
From Stdlib Require Strings.Byte.

#[global] Set Default Goal Selector "!".

(** ** Notations and automation of the development *)

Declare Scope casper_scope.
Delimit Scope casper_scope with casper.

(** A Go [[]byte]; a Go [string] is a [String.string], which is a sequence of
    8-bit characters as well. *)
Notation bytes := (list Byte.byte).

Create HintDb casper.
Create HintDb casper_rw.

(** Case analysis on the innermost [match]/[if] scrutinee of the goal or of a
    hypothesis, remembering the equation. *)
Ltac case_step :=
  match goal with
  | H : context [match ?x with _ => _ end] |- _ =>
      lazymatch x with context [match _ with _ => _ end] => fail | _ => destruct x eqn:? end
  | |- context [match ?x with _ => _ end] =>
      lazymatch x with context [match _ with _ => _ end] => fail | _ => destruct x eqn:? end
  end.

Ltac case_all := repeat (case_step; simplify_eq/=).

(** Turn the boolean tests of the code into propositions. *)
Ltac bool_to_prop :=
  repeat match goal with
  | H : (_ && _)%bool = true |- _ => apply andb_prop in H as [? ?]
  | H : (_ || _)%bool = false |- _ => apply orb_false_elim in H as [? ?]
  | H : negb _ = true |- _ => apply negb_true_iff in H
  | H : negb _ = false |- _ => apply negb_false_iff in H
  | H : bool_decide _ = true |- _ => apply bool_decide_eq_true in H
  | H : bool_decide _ = false |- _ => apply bool_decide_eq_false in H
  | H : (_ <? _)%Z = true |- _ => apply Z.ltb_lt in H
  | H : (_ <? _)%Z = false |- _ => apply Z.ltb_ge in H
  | H : (_ <=? _)%Z = true |- _ => apply Z.leb_le in H
  | H : (_ <=? _)%Z = false |- _ => apply Z.leb_gt in H
  | H : (_ =? _)%Z = true |- _ => apply Z.eqb_eq in H
  | H : (_ =? _)%Z = false |- _ => apply Z.eqb_neq in H
  end.

(** Linear arithmetic with divisions and remainders, on [Z] and [nat]. *)
Ltac lia_div := zify; Z.to_euclidean_division_equations; lia.

(** ** Results: a Go pair [(value, error)] of which exactly one is meaningful *)

Inductive result (E A : Type) : Type :=
| Ok (a : A)
| Err (e : E).
Arguments Ok {E A} a.
Arguments Err {E A} e.

Definition result_bind {E A B} (m : result E A) (k : A → result E B) : result E B :=
  match m with Ok a => k a | Err e => Err e end.

Notation "'let!' x ':=' m 'in' k" := (result_bind m (λ x, k))
  (at level 200, x pattern, m at level 100, k at level 200, right associativity)
  : casper_scope.
Open Scope casper_scope.

Definition is_ok {E A} (r : result E A) : bool := match r with Ok _ => true | Err _ => false end.

(** The value of a result that is known to succeed. *)
Definition the_ok {E A} (d : A) (m : result E A) : A := match m with Ok a => a | Err _ => d end.

Lemma is_ok_the {E A} (d : A) (m : result E A) : is_ok m = true → m = Ok (the_ok d m).
Proof. by destruct m. Qed.

Lemma ok_inj {E A} (a b : A) : Ok (E := E) a = Ok b → a = b.
Proof. congruence. Qed.

Lemma result_bind_ok {E A B} (m : result E A) (k : A → result E B) b :
  result_bind m k = Ok b ↔ ∃ a, m = Ok a ∧ k a = Ok b.
Proof. destruct m as [a|e]; simpl; split; naive_solver. Qed.

(** [mapM] in the error type: Go's [for] loop that appends one value per
    element and returns at the first error. *)
Fixpoint try_map {E A B} (f : A → result E B) (l : list A) : result E (list B) :=
  match l with
  | [] => Ok []
  | a :: l' => let! b := f a in let! bs := try_map f l' in Ok (b :: bs)
  end.

Lemma try_map_ok {E A B} (f : A → result E B) l k :
  try_map f l = Ok k ↔ Forall2 (λ a b, f a = Ok b) l k.
Proof.
  revert k. induction l as [|a l IH]; intros k; simpl.
  - split; [intros [= <-]; constructor | by inversion 1].
  - rewrite result_bind_ok. setoid_rewrite result_bind_ok. setoid_rewrite IH.
    split; [naive_solver|]. inversion 1; subst; eauto 10.
Qed.

(** ** Stable sorting by a [less] function, as [sort.SliceStable] *)

Section sort.
Context {A : Type} (less : A → A → bool).

Fixpoint insert_sorted (x : A) (l : list A) : list A :=
  match l with
  | [] => [x]
  | y :: l' => if less y x then y :: insert_sorted x l' else x :: y :: l'
  end.

Definition sort_slice (l : list A) : list A := foldr insert_sorted [] l.

Lemma insert_sorted_perm x l : insert_sorted x l ≡ₚ x :: l.
Proof.
  induction l as [|y l IH]; simpl; [done|]. destruct (less y x); [|done].
  rewrite IH. apply Permutation_swap.
Qed.

Lemma sort_slice_perm l : sort_slice l ≡ₚ l.
Proof. induction l as [|x l IH]; simpl; [done|]. by rewrite insert_sorted_perm, IH. Qed.

Lemma elem_of_sort_slice x l : x ∈ sort_slice l ↔ x ∈ l.
Proof. by rewrite sort_slice_perm. Qed.

Lemma length_sort_slice l : length (sort_slice l) = length l.
Proof. by rewrite sort_slice_perm. Qed.

(** What [sort] documents of a [less] function: a strict weak order. *)
Class StrictWeakOrder : Prop := {
  swo_asym x y : less x y = true → less y x = false;
  swo_negtrans x y z : less x y = false → less y z = false → less x z = false;
}.

Context `{!StrictWeakOrder}.

Definition not_after (x y : A) : Prop := less y x = false.

#[export] Instance not_after_trans : Transitive not_after.
Proof. intros x y z Hxy Hyz. exact (swo_negtrans _ _ _ Hyz Hxy). Qed.

Lemma insert_sorted_sorted x l :
  StronglySorted not_after l → StronglySorted not_after (insert_sorted x l).
Proof.
  induction 1 as [|y l Hs IH Hy]; simpl; [by repeat constructor|].
  destruct (less y x) eqn:E.
  - constructor; [done|]. rewrite insert_sorted_perm. constructor; [|done].
    by apply swo_asym.
  - constructor; [by constructor|]. constructor; [done|].
    eapply Forall_impl; [exact Hy|]. intros z Hz. by transitivity y.
Qed.

Lemma sort_slice_sorted l : StronglySorted not_after (sort_slice l).
Proof. induction l; simpl; [constructor|]. by apply insert_sorted_sorted. Qed.

(** Equal-key elements that are equal make the sorted slice unique, so the
    iteration order that filled the slice does not matter. *)
Lemma sorted_perm_unique l1 l2 :
  (∀ x y, x ∈ l1 → y ∈ l1 → not_after x y → not_after y x → x = y) →
  StronglySorted not_after l1 → StronglySorted not_after l2 → l1 ≡ₚ l2 → l1 = l2.
Proof.
  intros Hanti H1. revert l2 Hanti. induction H1 as [|x l1 H1 IH Hx]; intros l2 Hanti H2 Hp.
  - by apply Permutation_nil_l in Hp.
  - destruct H2 as [|y l2 H2 Hy]; [by apply Permutation_nil_r in Hp|].
    assert (x = y) as ->.
    { assert (Hy1 : y ∈ x :: l1) by (rewrite Hp; left).
      assert (Hx2 : x ∈ y :: l2) by (rewrite <- Hp; left).
      apply elem_of_cons in Hy1 as [->|Hy1]; [done|].
      apply elem_of_cons in Hx2 as [->|Hx2]; [done|].
      rewrite Forall_forall in Hx, Hy. apply Hanti; [left|by right|by apply Hx|by apply Hy]. }
    f_equal. apply IH; [|done|by apply Permutation_cons_inv in Hp].
    intros a b Ha Hb. apply Hanti; by right.
Qed.

Lemma sort_slice_unique l1 l2 :
  (∀ x y, x ∈ l1 → y ∈ l1 → not_after x y → not_after y x → x = y) →
  l1 ≡ₚ l2 → sort_slice l1 = sort_slice l2.
Proof.
  intros Hanti Hp. apply sorted_perm_unique; auto using sort_slice_sorted.
  - intros x y. rewrite !elem_of_sort_slice. apply Hanti.
  - by rewrite !sort_slice_perm.
Qed.
End sort.

#[export] Hint Resolve sort_slice_perm sort_slice_sorted : casper.
#[export] Hint Rewrite @elem_of_sort_slice @length_sort_slice : casper_rw.

(** Orders by a key: increasing and decreasing integers, increasing strings. *)
#[export] Instance swo_Z_desc {A} (key : A → Z) :
  StrictWeakOrder (λ x y, (key y <? key x)%Z).
Proof. split; intros; bool_to_prop; apply Z.ltb_ge; lia. Qed.

#[export] Instance swo_Z_asc {A} (key : A → Z) :
  StrictWeakOrder (λ x y, (key x <? key y)%Z).
Proof. split; intros; bool_to_prop; apply Z.ltb_ge; lia. Qed.

(** Go compares strings byte by byte; so does [String.compare]. *)
Definition string_ltb (a b : string) : bool := String.ltb a b.

Lemma string_compare_trans_lt a b c :
  String.compare a b = Lt → String.compare b c = Lt → String.compare a c = Lt.
Proof.
  revert b c. induction a as [|x a IH]; intros [|y b] [|z c]; simpl; try done.
  unfold Ascii.compare. destruct (N.compare_spec (Ascii.N_of_ascii x) (Ascii.N_of_ascii y)) as [E|E|E];
    destruct (N.compare_spec (Ascii.N_of_ascii y) (Ascii.N_of_ascii z)) as [F|F|F]; try done; intros.
  - rewrite E, F, N.compare_refl. eauto.
  - rewrite E. by apply N.compare_lt_iff in F as ->.
  - rewrite <- F. by apply N.compare_lt_iff in E as ->.
  - assert (N.lt (Ascii.N_of_ascii x) (Ascii.N_of_ascii z)) as G by (etransitivity; eauto).
    by apply N.compare_lt_iff in G as ->.
Qed.

Lemma string_compare_antisym a b : String.compare a b = CompOpp (String.compare b a).
Proof. apply String.compare_antisym. Qed.

Lemma string_compare_refl a : String.compare a a = Eq.
Proof.
  pose proof (string_compare_antisym a a) as H. by destruct (String.compare a a).
Qed.

Lemma string_ltb_spec a b : string_ltb a b = true ↔ String.compare a b = Lt.
Proof. unfold string_ltb, String.ltb. destruct (String.compare a b); naive_solver. Qed.

Lemma string_ltb_false a b :
  string_ltb a b = false ↔ a = b ∨ String.compare b a = Lt.
Proof.
  unfold string_ltb, String.ltb. rewrite (string_compare_antisym b a).
  destruct (String.compare a b) eqn:E; simpl.
  - apply String.compare_eq_iff in E. naive_solver.
  - split; [done|]. intros [->|?]; [|done].
    by rewrite string_compare_refl in E.
  - naive_solver.
Qed.

#[export] Instance swo_string {A} (key : A → string) :
  StrictWeakOrder (λ x y, string_ltb (key x) (key y)).
Proof.
  split.
  - intros x y. rewrite string_ltb_spec, string_ltb_false. auto.
  - intros x y z. rewrite !string_ltb_false.
    intros [E|E] [F|F].
    + left. congruence.
    + right. by rewrite E.
    + right. by rewrite <- F.
    + eauto using string_compare_trans_lt.
Qed.

Lemma string_not_after_antisym a b :
  string_ltb a b = false → string_ltb b a = false → a = b.
Proof.
  rewrite !string_ltb_false. intros [?|H1] [?|H2]; [done..|].
  by rewrite string_compare_antisym, H2 in H1.
Qed.

(** ** Lists *)

(** [injection] would also compare the heads by computing them. *)
Lemma cons_inv {A} (x y : A) l k : x :: l = y :: k → x = y ∧ l = k.
Proof. by intros [= -> ->]. Qed.


(** Update the first element satisfying [p]; Go's [for i := range l] with a
    [break]. *)
Fixpoint find_index {A} (p : A → bool) (l : list A) : option nat :=
  match l with
  | [] => None
  | x :: l' => if p x then Some 0 else S <$> find_index p l'
  end.

Lemma find_index_some {A} (p : A → bool) l i :
  find_index p l = Some i → ∃ x, l !! i = Some x ∧ p x = true.
Proof.
  revert i. induction l as [|x l IH]; intros i; simpl; [done|].
  destruct (p x) eqn:E; [intros [= <-]; eauto|].
  intros (j & ? & ->)%fmap_Some. by apply IH.
Qed.

Lemma find_index_none {A} (p : A → bool) l :
  find_index p l = None ↔ ∀ x, x ∈ l → p x = false.
Proof.
  induction l as [|x l IH]; simpl; [split; [intros _ y ?%elem_of_nil; done|done]|].
  destruct (p x) eqn:E.
  - split; [done|]. intros H. rewrite (H x) in E; [done|left].
  - rewrite fmap_None, IH. setoid_rewrite elem_of_cons. naive_solver.
Qed.

(** [append(l[:i], l[i+1:]...)]: delete one position. *)
Definition remove_at {A} (i : nat) (l : list A) : list A := take i l ++ drop (S i) l.

Lemma elem_of_remove_at {A} i (l : list A) x : x ∈ remove_at i l → x ∈ l.
Proof.
  unfold remove_at. rewrite elem_of_app. intros [H|H].
  - by apply list_elem_of_lookup in H as (j & [? _]%lookup_take_Some); apply list_elem_of_lookup; eauto.
  - apply list_elem_of_lookup in H as (j & Hj). rewrite lookup_drop in Hj.
    apply list_elem_of_lookup; eauto.
Qed.

(** The last [n] elements, [l[len(l)-n:]], all of them when [l] is shorter. *)
Definition last_n {A} (n : nat) (l : list A) : list A := drop (length l - n) l.

Lemma length_last_n {A} n (l : list A) : length (last_n n l) = min n (length l).
Proof. unfold last_n. rewrite length_drop. lia. Qed.

(** How many elements satisfy [p]; Go's counting loops. *)
Definition count {A} (p : A → bool) (l : list A) : Z := Z.of_nat (length (List.filter p l)).

Lemma count_nil {A} (p : A → bool) : count p [] = 0%Z.
Proof. done. Qed.

Lemma count_cons {A} (p : A → bool) x l : count p (x :: l) = ((if p x then 1 else 0) + count p l)%Z.
Proof. unfold count. cbn. destruct (p x); cbn; lia. Qed.

Lemma count_app {A} (p : A → bool) l k : count p (l ++ k) = (count p l + count p k)%Z.
Proof. unfold count. rewrite List.filter_app, length_app. lia. Qed.

Lemma count_range {A} (p : A → bool) l : (0 <= count p l <= Z.of_nat (length l))%Z.
Proof. unfold count. induction l as [|x l IH]; cbn; [lia|]. destruct (p x); cbn; lia. Qed.

Lemma count_mono {A} (p q : A → bool) l : (∀ x, p x = true → q x = true) → (count p l <= count q l)%Z.
Proof.
  intros H. induction l as [|x l IH]; rewrite ?count_cons; [done|].
  destruct (p x) eqn:E; [rewrite (H _ E); lia|]. destruct (q x); lia.
Qed.

Lemma count_ext {A} (p q : A → bool) l : (∀ x, x ∈ l → p x = q x) → count p l = count q l.
Proof.
  induction l as [|x l IH]; intros H; [done|]. rewrite !count_cons, (H x), IH by (by left || (intros; apply H; by right)).
  done.
Qed.

#[export] Instance count_perm {A} (p : A → bool) : Proper ((≡ₚ) ==> eq) (count p).
Proof. intros l k. induction 1; rewrite ?count_cons; lia. Qed.

(** Sorting only looks at comparisons between elements of the list. *)
Lemma sort_slice_ext {A} (less less' : A → A → bool) l :
  (∀ x y, x ∈ l → y ∈ l → less x y = less' x y) → sort_slice less l = sort_slice less' l.
Proof.
  intros H. induction l as [|x l IH]; cbn; [done|].
  change (foldr (insert_sorted less) [] l) with (sort_slice less l).
  change (foldr (insert_sorted less') [] l) with (sort_slice less' l).
  rewrite IH by (intros; apply H; by right).
  assert (∀ y, y ∈ sort_slice less' l → less y x = less' y x) as Hx.
  { intros y Hy%elem_of_sort_slice. apply H; [by right|left]. }
  clear IH. induction (sort_slice less' l) as [|y k IHk]; cbn; [done|].
  rewrite (Hx y) by left. rewrite IHk; [done|]. intros z Hz. apply Hx. by right.
Qed.

(** How many values of a map satisfy [p]; Go's counting loops over a map, whose
    result does not depend on the iteration order. *)
Definition map_count {K A} `{Countable K} (p : A → bool) (m : gmap K A) : Z :=
  count p (snd <$> map_to_list m).

Section map_count.
Context {K A : Type} `{Countable K} (p : A → bool).

Lemma map_count_empty : map_count p (∅ : gmap K A) = 0%Z.
Proof. unfold map_count. by rewrite map_to_list_empty. Qed.

Lemma map_count_insert_new (m : gmap K A) i x :
  m !! i = None → map_count p (<[i := x]> m) = ((if p x then 1 else 0) + map_count p m)%Z.
Proof. intros Hi. unfold map_count. rewrite map_to_list_insert by done. by rewrite fmap_cons, count_cons. Qed.

Lemma map_count_delete (m : gmap K A) i x :
  m !! i = Some x → map_count p m = ((if p x then 1 else 0) + map_count p (delete i m))%Z.
Proof.
  intros Hi. rewrite <- (insert_id m i x) at 1 by done. rewrite <- insert_delete_eq.
  apply map_count_insert_new, lookup_delete_eq.
Qed.

Lemma map_count_insert (m : gmap K A) i x y :
  m !! i = Some x →
  map_count p (<[i := y]> m) = (map_count p m - (if p x then 1 else 0) + (if p y then 1 else 0))%Z.
Proof.
  intros Hi. rewrite <- insert_delete_eq, map_count_insert_new by apply lookup_delete_eq.
  rewrite (map_count_delete m i x Hi). lia.
Qed.

Lemma map_count_nonneg (m : gmap K A) : (0 <= map_count p m)%Z.
Proof. apply count_range. Qed.

Lemma map_count_none (m : gmap K A) :
  (∀ i x, m !! i = Some x → p x = false) → map_count p m = 0%Z.
Proof.
  intros Hp. unfold map_count. rewrite (count_ext _ (λ _, false)).
  - induction (snd <$> map_to_list m) as [|x l IH]; rewrite ?count_cons; [done|]. lia.
  - intros x ([i y] & -> & Hy%elem_of_map_to_list)%list_elem_of_fmap. by eapply Hp.
Qed.
End map_count.

(** ** Filling a map from a list, as [for _, x := range l { m[k(x)] = v(x) }] *)

Section fill.
Context {K A B : Type} `{Countable K} (k : A → K) (v : A → B).

Definition fill_map (m : gmap K B) (l : list A) : gmap K B := foldl (λ m x, <[k x := v x]> m) m l.

Lemma fill_map_lookup l i y :
  NoDup (k <$> l) → fill_map ∅ l !! i = Some y ↔ ∃ x, x ∈ l ∧ k x = i ∧ v x = y.
Proof.
  unfold fill_map. induction l as [|q l IH] using rev_ind; intros Hnd.
  - cbn. rewrite lookup_empty. split; [done|]. intros (x & Hx & _). by apply elem_of_nil in Hx.
  - rewrite foldl_app. cbn [foldl]. rewrite fmap_app in Hnd. apply NoDup_app in Hnd as (Hnd & Hdisj & _).
    specialize (IH Hnd). setoid_rewrite elem_of_app. setoid_rewrite list_elem_of_singleton.
    destruct (decide (k q = i)) as [<-|Hne].
    + rewrite lookup_insert_eq. split; [intros [= <-]; exists q; auto|]. intros (x & [Hin| ->] & Hk & <-); [|done].
      exfalso. apply (Hdisj (k x)); [by apply list_elem_of_fmap_2|]. rewrite Hk. by left.
    + rewrite lookup_insert_ne by done. rewrite IH. split; [naive_solver|].
      intros (x & [Hin| ->] & Hk & <-); [by exists x|congruence].
Qed.

(** A map filled from the entries of a map, in any order, by the entries' keys. *)
Lemma fill_map_entries (t : gmap K A) l :
  (∀ i x, t !! i = Some x → k x = i) → l ≡ₚ snd <$> map_to_list t → fill_map ∅ l = v <$> t.
Proof.
  intros Hk Hl. assert (NoDup (k <$> l)) as Hnd.
  { rewrite Hl, <- list_fmap_compose. assert (k ∘ snd <$> map_to_list t = fst <$> map_to_list t) as ->; [|apply NoDup_fst_map_to_list].
    apply list_fmap_ext. intros n [i x] Hi. cbn. apply Hk, elem_of_map_to_list. by eapply list_elem_of_lookup_2. }
  apply map_eq. intros i. apply option_eq. intros y. rewrite fill_map_lookup by done. rewrite lookup_fmap, fmap_Some. split.
  - intros (x & Hx & <- & <-). rewrite Hl in Hx. apply list_elem_of_fmap in Hx as ([j x'] & -> & Hx).
    cbn. apply elem_of_map_to_list in Hx. exists x'. by rewrite (Hk _ _ Hx).
  - intros (x & Hx & ->). exists x. split; [|split; [by apply Hk|done]]. rewrite Hl. apply list_elem_of_fmap.
    exists (i, x). split; [done|]. by apply elem_of_map_to_list.
Qed.
End fill.
