(* ===== verification/GoLib.v ===== *)
(** * The parts of Go's standard library the program computes with

    Bytes and their integers, [encoding/hex], [encoding/binary], [strconv],
    the functions of [strings] on byte strings, IEEE-754 [float64] (through the
    executable [spec_float] of the Rocq library, at precision 53 and exponent
    bound 1024), [fmt]'s [%d] and [%.Nf], wrap-around of [int64], and [time]
    (instants are nanoseconds since the Unix epoch). *)

From S2P Require Import Prelude.
From stdpp Require Export pretty.
From Stdlib Require Export SpecFloat.

Local Open Scope Z_scope.

(** ** Bytes *)

Definition byte_to_Z (b : Byte.byte) : Z := Z.of_N (Byte.to_N b).

Definition byte_of_Z (z : Z) : Byte.byte :=
  match Byte.of_N (Z.to_N (z mod 256)) with Some b => b | None => Byte.x00 end.

Lemma byte_to_Z_range b : 0 <= byte_to_Z b < 256.
Proof. unfold byte_to_Z. pose proof (Byte.to_N_bounded b). lia. Qed.

Lemma byte_of_to_Z b : byte_of_Z (byte_to_Z b) = b.
Proof.
  unfold byte_of_Z. rewrite Z.mod_small by apply byte_to_Z_range.
  unfold byte_to_Z. by rewrite N2Z.id, Byte.of_to_N.
Qed.

Lemma byte_to_of_Z z : byte_to_Z (byte_of_Z z) = z mod 256.
Proof.
  unfold byte_of_Z. pose proof (Z.mod_pos_bound z 256 ltac:(lia)) as H.
  destruct (Byte.of_N (Z.to_N (z mod 256))) as [b|] eqn:E.
  - apply Byte.to_of_N in E. unfold byte_to_Z. rewrite E. lia.
  - apply Byte.of_N_None_iff in E. lia.
Qed.

#[export] Instance byte_eq_dec : EqDecision Byte.byte := Byte.byte_eq_dec.

(** [[]byte(s)] and [string(b)]. *)
Definition bytes_of (s : string) : bytes := String.list_byte_of_string s.
Definition string_of (b : bytes) : string := String.string_of_list_byte b.

Lemma string_of_bytes_of s : string_of (bytes_of s) = s.
Proof. apply String.string_of_list_byte_of_string. Qed.

Lemma bytes_of_string_of b : bytes_of (string_of b) = b.
Proof. apply String.list_byte_of_string_of_list_byte. Qed.

Lemma bytes_of_inj s t : bytes_of s = bytes_of t → s = t.
Proof. intros H. by rewrite <- (string_of_bytes_of s), H, string_of_bytes_of. Qed.

(** ** [encoding/hex] *)

Definition hex_digit (n : Z) : Ascii.ascii :=
  Ascii.ascii_of_N (Z.to_N (if n <? 10 then 48 + n else 87 + n)).

(** [hex.EncodeToString] *)
Fixpoint hex_encode (b : bytes) : string :=
  match b with
  | [] => EmptyString
  | x :: b' =>
      String (hex_digit (byte_to_Z x / 16)) (String (hex_digit (byte_to_Z x mod 16)) (hex_encode b'))
  end.

Definition from_hex_char (c : Ascii.ascii) : option Z :=
  let n := Z.of_N (Ascii.N_of_ascii c) in
  if (48 <=? n) && (n <=? 57) then Some (n - 48)
  else if (97 <=? n) && (n <=? 102) then Some (n - 87)
  else if (65 <=? n) && (n <=? 70) then Some (n - 55)
  else None.

(** [hex.DecodeString]: an odd length or a character outside [0-9a-fA-F] is an
    error. *)
Fixpoint hex_decode (s : string) : option bytes :=
  match s with
  | EmptyString => Some []
  | String c (String d s') =>
      match from_hex_char c, from_hex_char d with
      | Some hi, Some lo => (λ b, byte_of_Z (16 * hi + lo) :: b) <$> hex_decode s'
      | _, _ => None
      end
  | String _ EmptyString => None
  end.

Lemma from_hex_digit n : 0 <= n < 16 → from_hex_char (hex_digit n) = Some n.
Proof.
  intros H. assert (n = 0 ∨ n = 1 ∨ n = 2 ∨ n = 3 ∨ n = 4 ∨ n = 5 ∨ n = 6 ∨ n = 7 ∨ n = 8 ∨ n = 9
    ∨ n = 10 ∨ n = 11 ∨ n = 12 ∨ n = 13 ∨ n = 14 ∨ n = 15) by lia.
  by repeat (destruct_or!; subst).
Qed.

Lemma hex_decode_encode b : hex_decode (hex_encode b) = Some b.
Proof.
  induction b as [|x b IH]; cbn [hex_encode hex_decode]; [done|].
  pose proof (byte_to_Z_range x) as Hx.
  rewrite (from_hex_digit (byte_to_Z x / 16)) by (lia_div).
  rewrite (from_hex_digit (byte_to_Z x mod 16)) by (apply Z.mod_pos_bound; lia).
  assert (byte_of_Z (16 * (byte_to_Z x / 16) + byte_to_Z x mod 16) = x) as E.
  { rewrite <- Z.div_mod by done. apply byte_of_to_Z. }
  rewrite IH. cbv beta iota delta [fmap option_fmap option_map]. by rewrite E.
Qed.

Lemma hex_encode_inj b c : hex_encode b = hex_encode c → b = c.
Proof. intros H. apply (f_equal hex_decode) in H. rewrite !hex_decode_encode in H. congruence. Qed.

Lemma hex_encode_nonempty b : b ≠ [] → hex_encode b ≠ EmptyString.
Proof. by destruct b. Qed.

Lemma hex_encode_app b c : hex_encode (b ++ c) = (hex_encode b +:+ hex_encode c)%string.
Proof. induction b as [|x b IH]; simpl; [done|]. by rewrite IH. Qed.

#[export] Hint Rewrite hex_decode_encode : casper_rw.
#[global] Arguments hex_encode : simpl never.
#[global] Arguments hex_decode : simpl never.

(** ** [encoding/binary], big endian *)

Definition be_uint32 (v : Z) : bytes :=
  [byte_of_Z (v / 2^24); byte_of_Z (v / 2^16); byte_of_Z (v / 2^8); byte_of_Z v].

Definition be_uint64 (v : Z) : bytes := be_uint32 (v / 2^32) ++ be_uint32 v.

Lemma byte_of_Z_inj_mod x y : byte_of_Z x = byte_of_Z y → x mod 256 = y mod 256.
Proof. intros H. apply (f_equal byte_to_Z) in H. by rewrite !byte_to_of_Z in H. Qed.

Lemma be_uint32_mod x y : be_uint32 x = be_uint32 y → x mod 4294967296 = y mod 4294967296.
Proof.
  intros [= H1 H2 H3 H4]. apply byte_of_Z_inj_mod in H1, H2, H3, H4.
  change (2^24) with 16777216 in *. change (2^16) with 65536 in *. change (2^8) with 256 in *.
  Z.to_euclidean_division_equations. lia.
Qed.

Lemma be_uint32_inj x y : 0 <= x < 2^32 → 0 <= y < 2^32 → be_uint32 x = be_uint32 y → x = y.
Proof.
  change (2^32) with 4294967296. intros Hx Hy H%be_uint32_mod.
  by rewrite !Z.mod_small in H.
Qed.

Lemma be_uint64_inj x y : 0 <= x < 2^64 → 0 <= y < 2^64 → be_uint64 x = be_uint64 y → x = y.
Proof.
  intros Hx Hy H. unfold be_uint64 in H. apply app_inj_1 in H as [H1 H2]; [|done].
  apply be_uint32_mod in H1, H2.
  change (2^32) with 4294967296 in *. change (2^64) with (4294967296 * 4294967296) in *.
  rewrite (Z.mod_small (x / _)), (Z.mod_small (y / _)) in H1
    by (split; [apply Z.div_pos|apply Z.div_lt_upper_bound]; lia).
  rewrite (Z.div_mod x 4294967296), (Z.div_mod y 4294967296) by done. congruence.
Qed.

(** ** Machine integers *)

Definition int64_min : Z := - 2^63.
Definition int64_max : Z := 2^63 - 1.

(** The value an [int64] (or a 64-bit [int]) holds after a computation whose
    exact result is [z]. *)
Definition wrap64 (z : Z) : Z := (z + 2^63) mod 2^64 - 2^63.

Lemma wrap64_id z : int64_min <= z <= int64_max → wrap64 z = z.
Proof. unfold wrap64, int64_min, int64_max. intros. rewrite Z.mod_small; lia. Qed.

Lemma wrap64_range z : int64_min <= wrap64 z <= int64_max.
Proof.
  unfold wrap64, int64_min, int64_max. pose proof (Z.mod_pos_bound (z + 2^63) (2^64)). lia.
Qed.

(** ** [strings] and [strconv] *)

(** [strconv.Itoa], [%d] *)
Definition itoa (z : Z) : string := pretty z.

Definition has_prefix (s p : string) : bool := String.prefix p s.

Fixpoint string_rev_app (s acc : string) : string :=
  match s with EmptyString => acc | String c s' => string_rev_app s' (String c acc) end.

Definition string_rev (s : string) : string := string_rev_app s EmptyString.

Definition has_suffix (s p : string) : bool := String.prefix (string_rev p) (string_rev s).

(** [strings.TrimSuffix] *)
Definition trim_suffix (s p : string) : string :=
  if has_suffix s p then String.substring 0 (String.length s - String.length p) s else s.

(** [strings.Contains] *)
Fixpoint contains (s p : string) : bool :=
  String.prefix p s || match s with EmptyString => false | String _ s' => contains s' p end.

Fixpoint string_map (f : Ascii.ascii → Ascii.ascii) (s : string) : string :=
  match s with EmptyString => EmptyString | String c s' => String (f c) (string_map f s') end.

Fixpoint string_forall (f : Ascii.ascii → bool) (s : string) : bool :=
  match s with EmptyString => true | String c s' => f c && string_forall f s' end.

Definition ascii_in (lo hi : N) (c : Ascii.ascii) : bool :=
  (lo <=? Ascii.N_of_ascii c)%N && (Ascii.N_of_ascii c <=? hi)%N.

(** [strings.ToLower] / [ToUpper] on the ASCII letters; other bytes are kept
    (the case mapping of non-ASCII runes is not modelled). *)
Definition to_lower (s : string) : string :=
  string_map (λ c, if ascii_in 65 90 c then Ascii.ascii_of_N (Ascii.N_of_ascii c + 32) else c) s.
Definition to_upper (s : string) : string :=
  string_map (λ c, if ascii_in 97 122 c then Ascii.ascii_of_N (Ascii.N_of_ascii c - 32) else c) s.

(** [strings.TrimSpace] on ASCII white space, [strings.Trim] with a cutset. *)
Fixpoint trim_left (cut : Ascii.ascii → bool) (s : string) : string :=
  match s with
  | EmptyString => EmptyString
  | String c s' => if cut c then trim_left cut s' else s
  end.
Definition trim (cut : Ascii.ascii → bool) (s : string) : string :=
  string_rev (trim_left cut (string_rev (trim_left cut s))).
Definition is_space (c : Ascii.ascii) : bool :=
  ascii_in 9 13 c || bool_decide (Ascii.N_of_ascii c = 32%N).
Definition trim_space (s : string) : string := trim is_space s.

(** [s[:n]]; the slice expression panics when the string is shorter. *)
Definition slice_to (n : nat) (s : string) : option string :=
  if (n <=? String.length s)%nat then Some (String.substring 0 n s) else None.

(** [strings.Split] with a one-byte separator, and the parts around its first
    occurrence ([strings.IndexByte]). *)
Fixpoint split_on (c : Ascii.ascii) (s : string) : list string :=
  match s with
  | EmptyString => [EmptyString]
  | String d s' =>
      if bool_decide (d = c) then EmptyString :: split_on c s'
      else match split_on c s' with h :: t => String d h :: t | [] => [] end
  end.
Fixpoint cut_at (c : Ascii.ascii) (s : string) : option (string * string) :=
  match s with
  | EmptyString => None
  | String d s' =>
      if bool_decide (d = c) then Some (EmptyString, s')
      else (λ ab : string * string, (String d ab.1, ab.2)) <$> cut_at c s'
  end.

Fixpoint string_concat (l : list string) : string :=
  match l with [] => EmptyString | s :: l' => (s +:+ string_concat l')%string end.

(** [%q], [strconv.Quote]: ASCII escapes; the bytes of non-ASCII characters are
    kept (they are printable in every message the program quotes). *)
Definition chr (n : N) : Ascii.ascii := Ascii.ascii_of_N n.
Definition quote_char (c : Ascii.ascii) : string :=
  let n := Ascii.N_of_ascii c in
  let esc (d : N) : string := String (chr 92) (String (chr d) EmptyString) in
  if (n =? 34)%N || (n =? 92)%N then esc n
  else if (n =? 7)%N then esc 97%N
  else if (n =? 8)%N then esc 98%N
  else if (n =? 12)%N then esc 102%N
  else if (n =? 10)%N then esc 110%N
  else if (n =? 13)%N then esc 114%N
  else if (n =? 9)%N then esc 116%N
  else if (n =? 11)%N then esc 118%N
  else if (n <? 32)%N || (n =? 127)%N
  then (esc 120%N +:+ String (hex_digit (Z.of_N n / 16)) (String (hex_digit (Z.of_N n mod 16)) EmptyString))%string
  else String c EmptyString.
Fixpoint quote_body (s : string) : string :=
  match s with EmptyString => EmptyString | String c s' => (quote_char c +:+ quote_body s')%string end.
Definition quote (s : string) : string :=
  String (chr 34) (quote_body s +:+ String (chr 34) EmptyString).

(** [strings.Join] *)
Definition string_join (sep : string) (l : list string) : string := String.concat sep l.

(** ** [float64] *)

Definition float64 : Type := spec_float.
Definition f_add : float64 → float64 → float64 := SFadd 53 1024.
Definition f_sub : float64 → float64 → float64 := SFsub 53 1024.
Definition f_mul : float64 → float64 → float64 := SFmul 53 1024.
Definition f_div : float64 → float64 → float64 := SFdiv 53 1024.
(** [x < y] and [x <= y]: false as soon as one operand is NaN. *)
Definition f_ltb : float64 → float64 → bool := SFltb.
Definition f_leb : float64 → float64 → bool := SFleb.
Definition f_eqb : float64 → float64 → bool := SFeqb.
(** [float64(n)] for an integer [n], rounded to nearest even. *)
Definition f_of_Z (z : Z) : float64 := binary_normalize 53 1024 z 0 false.
Definition f_zero : float64 := S754_zero false.
Definition f_one : float64 := f_of_Z 1.
(** A decimal literal [n / 10^k], correctly rounded. *)
Definition f_dec (n k : Z) : float64 := f_div (f_of_Z n) (f_of_Z (10 ^ k)).

Lemma f_dec_06 : f_dec 6 1 = S754_finite false 5404319552844595 (-53).
Proof. reflexivity. Qed.

(** [SFcompare] is a total order outside NaN. *)
Definition is_nan (x : float64) : bool := match x with S754_nan => true | _ => false end.

Lemma SFcompare_nan x y : SFcompare x y = None ↔ is_nan x = true ∨ is_nan y = true.
Proof. destruct x as [[]|[]| |[]], y as [[]|[]| |[]]; simpl; naive_solver. Qed.

(** The order of [SFcompare]: by sign class, then exponent, then significand. *)
Definition float_key (x : float64) : Z * Z * Z :=
  match x with
  | S754_nan => (-3, 0, 0)
  | S754_infinity true => (-2, 0, 0)
  | S754_finite true m e => (-1, - e, - Zpos m)
  | S754_zero _ => (0, 0, 0)
  | S754_finite false m e => (1, e, Zpos m)
  | S754_infinity false => (2, 0, 0)
  end.

Definition key_lt (a b : Z * Z * Z) : Prop :=
  let '(x, y, z) := a in let '(x', y', z') := b in x < x' ∨ (x = x' ∧ (y < y' ∨ (y = y' ∧ z < z'))).

Lemma SFcompare_key x y :
  is_nan x = false → is_nan y = false →
  match SFcompare x y with
  | Some Lt => key_lt (float_key x) (float_key y)
  | Some Gt => key_lt (float_key y) (float_key x)
  | Some Eq => float_key x = float_key y
  | None => False
  end.
Proof.
  intros Hx Hy. destruct x as [sx|[]| |[] mx ex], y as [sy|[]| |[] my ey]; cbn in *; try done; try lia.
  all: try (destruct sx; cbn; lia). all: destruct (Z.compare_spec ex ey); cbn; try lia.
  all: try (rewrite (Z.opp_inj_wd ex ey); cbn; lia). all: subst.
  all: change (Pos.compare_cont Eq mx my) with (mx ?= my)%positive; destruct (Pos.compare_spec mx my); cbn.
  all: subst; try done; try lia.
Qed.

Lemma key_lt_neg a b : ¬ key_lt a b ↔ key_lt b a ∨ a = b.
Proof.
  destruct a as [[x y] z], b as [[x' y'] z']. cbn. split.
  - intros H. destruct (decide (x = x')) as [->|]; [|left; lia]. destruct (decide (y = y')) as [->|]; [|left; lia].
    destruct (decide (z = z')) as [->|]; [by right|left; lia].
  - intros [H|[= -> -> ->]]; lia.
Qed.

Lemma key_lt_trans a b c : key_lt a b → key_lt b c → key_lt a c.
Proof. destruct a as [[x y] z], b as [[x' y'] z'], c as [[x'' y''] z'']. cbn. lia. Qed.

Lemma key_lt_irrefl a : ¬ key_lt a a.
Proof. destruct a as [[x y] z]. cbn. lia. Qed.

Lemma f_ltb_key x y :
  is_nan x = false → is_nan y = false → f_ltb x y = true ↔ key_lt (float_key x) (float_key y).
Proof.
  intros Hx Hy. pose proof (SFcompare_key x y Hx Hy) as H. unfold f_ltb, SFltb.
  destruct (SFcompare x y) as [[]|]; [|naive_solver| |done]; (split; [done|]).
  - rewrite H. by intros ?%key_lt_irrefl.
  - intros H'. by destruct (key_lt_irrefl _ (key_lt_trans _ _ _ H H')).
Qed.

Lemma f_leb_key x y :
  is_nan x = false → is_nan y = false → f_leb x y = true ↔ ¬ key_lt (float_key y) (float_key x).
Proof.
  intros Hx Hy. pose proof (SFcompare_key x y Hx Hy) as H. unfold f_leb, SFleb. rewrite key_lt_neg.
  destruct (SFcompare x y) as [[]|]; [naive_solver..| |done]. split; [done|]. intros [H'|H'].
  - by destruct (key_lt_irrefl _ (key_lt_trans _ _ _ H H')).
  - rewrite H' in H. by apply key_lt_irrefl in H.
Qed.

Lemma f_eqb_key x y :
  is_nan x = false → is_nan y = false → f_eqb x y = true ↔ float_key x = float_key y.
Proof.
  intros Hx Hy. pose proof (SFcompare_key x y Hx Hy) as H. unfold f_eqb, SFeqb.
  destruct (SFcompare x y) as [[]|]; [naive_solver| | |done]; (split; [done|]); intros E; rewrite E in H;
    by apply key_lt_irrefl in H.
Qed.

(** Comparisons with NaN are false. *)
Lemma f_ltb_nan x y : f_ltb x y = true → is_nan x = false ∧ is_nan y = false.
Proof. destruct x as [[]|[]| |[]], y as [[]|[]| |[]]; done. Qed.

Lemma f_leb_nan x y : f_leb x y = true → is_nan x = false ∧ is_nan y = false.
Proof. destruct x as [[]|[]| |[]], y as [[]|[]| |[]]; done. Qed.

(** [sort.Float64s]: NaN sorts first. *)
Definition float_less (a b : float64) : bool := f_ltb a b || (is_nan a && negb (is_nan b)).

Lemma float_less_key x y : float_less x y = true ↔ key_lt (float_key x) (float_key y).
Proof.
  unfold float_less. destruct (is_nan x) eqn:Ex, (is_nan y) eqn:Ey.
  - destruct x, y; try done. split; [done|]. by intros ?%key_lt_irrefl.
  - destruct x; try done. rewrite orb_true_r. split; [|done]. intros _. destruct y as [[]|[]| |[]]; cbn; lia || done.
  - rewrite andb_false_r, orb_false_r. split; [intros [? ?]%f_ltb_nan; congruence|].
    destruct y; try done. destruct x as [[]|[]| |[]]; cbn; lia || done.
  - rewrite orb_false_r. by apply f_ltb_key.
Qed.

#[export] Instance swo_float {A} (key : A → float64) :
  StrictWeakOrder (λ x y, float_less (key x) (key y)).
Proof.
  assert (∀ a b, float_less a b = false ↔ key_lt (float_key b) (float_key a) ∨ float_key a = float_key b) as Hf.
  { intros a b. rewrite <- key_lt_neg, <- float_less_key. by destruct (float_less a b). }
  split.
  - intros x y. rewrite Hf, float_less_key. auto.
  - intros x y z. rewrite !Hf. intros [H|H] [H'|H'].
    + left. by eapply key_lt_trans.
    + left. by rewrite <- H'.
    + left. by rewrite H.
    + right. congruence.
Qed.

(** [%.Nf]: the exact binary value rounded half to even at [n] decimals. *)
Definition div_half_even (a b : Z) : Z :=
  let q := a / b in let r := a mod b in
  if 2 * r <? b then q else if b <? 2 * r then q + 1 else if Z.even q then q else q + 1.

Definition pad_left (n : nat) (s : string) : string :=
  string_concat (replicate (n - String.length s) "0"%string) +:+ s.

Definition fmt_fixed (n : nat) (x : float64) : string :=
  let render (neg : bool) (scaled : Z) : string :=
    let p := 10 ^ Z.of_nat n in
    ((if neg then "-" else "") +:+ itoa (scaled / p)
      +:+ (if (n =? 0)%nat then "" else "." +:+ pad_left n (itoa (scaled mod p))))%string in
  match x with
  | S754_nan => "NaN"
  | S754_infinity s => if s then "-Inf" else "+Inf"
  | S754_zero s => render s 0
  | S754_finite s m e =>
      let p := 10 ^ Z.of_nat n in
      render s (if 0 <=? e then Zpos m * 2 ^ e * p else div_half_even (Zpos m * p) (2 ^ (- e)))
  end.

Example fmt_fixed_06 : fmt_fixed 2 (f_dec 6 1) = "0.60"%string.
Proof. reflexivity. Qed.
Example fmt_fixed_third : fmt_fixed 4 (f_div f_one (f_of_Z 3)) = "0.3333"%string.
Proof. reflexivity. Qed.

(** ** [time] *)

(** An instant: nanoseconds since 1970-01-01T00:00:00Z. *)
Definition time : Type := Z.
Bind Scope Z_scope with time.
Definition second : Z := 1000000000.
Definition minute : Z := 60 * second.
Definition hour : Z := 60 * minute.

(** The zero [time.Time], 0001-01-01T00:00:00Z. *)
Definition time_zero : time := -62135596800 * second.

(** [Time.Sub], which saturates. *)
Definition time_sub (t u : time) : Z := Z.max int64_min (Z.min int64_max (t - u)).

(** [Duration.Seconds]: whole seconds and the remaining nanoseconds apart. *)
Definition duration_seconds (d : Z) : float64 :=
  f_add (f_of_Z (Z.quot d second)) (f_div (f_of_Z (Z.rem d second)) (f_of_Z second)).

(** [Time.Unix]: the seconds, rounded down. *)
Definition unix (t : time) : Z := t / second.
(** [Time.UnixMilli] *)
Definition unix_milli (t : time) : Z := t / 1000000.
(** [Time.Truncate(time.Second)] for the instants after the zero time. *)
Definition truncate_second (t : time) : time := t / second * second.

(** Year, month and day (UTC) of a day number counted from 1970-01-01, in the
    proleptic Gregorian calendar, by 400-year eras from March 1. *)
Definition civil (days : Z) : Z * Z * Z :=
  let z := days + 719468 in
  let era := z / 146097 in
  let doe := z mod 146097 in
  let yoe := (doe - doe / 1460 + doe / 36524 - doe / 146096) / 365 in
  let doy := doe - (365 * yoe + yoe / 4 - yoe / 100) in
  let mp := (5 * doy + 2) / 153 in
  let d := doy - (153 * mp + 2) / 5 + 1 in
  let m := if mp <? 10 then mp + 3 else mp - 9 in
  (yoe + era * 400 + (if m <=? 2 then 1 else 0), m, d).

Definition time_year (t : time) : Z := let '(y, _, _) := civil (t / second / 86400) in y.
Definition time_month (t : time) : Z := let '(_, m, _) := civil (t / second / 86400) in m.

(** [t.UTC().Format(time.RFC3339)], for years 0 to 9999. *)
Definition format_rfc3339 (t : time) : string :=
  let s := t / second in
  let '(y, m, d) := civil (s / 86400) in
  let sod := s mod 86400 in
  (pad_left 4 (itoa y) +:+ "-" +:+ pad_left 2 (itoa m) +:+ "-" +:+ pad_left 2 (itoa d) +:+ "T"
   +:+ pad_left 2 (itoa (sod / 3600)) +:+ ":" +:+ pad_left 2 (itoa (sod / 60 mod 60)) +:+ ":"
   +:+ pad_left 2 (itoa (sod mod 60)) +:+ "Z")%string.

Example format_epoch : format_rfc3339 0 = "1970-01-01T00:00:00Z"%string.
Proof. reflexivity. Qed.
Example format_sample : format_rfc3339 (1785000000 * second) = "2026-07-25T17:20:00Z"%string.
Proof. reflexivity. Qed.
Example time_zero_year : (time_year time_zero, time_month time_zero) = (1, 1).
Proof. reflexivity. Qed.

(** The [.999999999] of [time.RFC3339Nano]: nine digits without trailing zeros,
    nothing for a whole second. *)
Fixpoint drop_zeros (s : string) : string :=
  match s with
  | String c s' => match drop_zeros s' with
                   | EmptyString => if bool_decide (c = chr 48) then EmptyString else String c EmptyString
                   | r => String c r
                   end
  | EmptyString => EmptyString
  end.

(** [t.UTC().Format(time.RFC3339Nano)], for years 0 to 9999. *)
Definition format_rfc3339_nano (t : time) : string :=
  let frac := drop_zeros (pad_left 9 (itoa (t mod second))) in
  let whole := trim_suffix (format_rfc3339 t) "Z" in
  (whole +:+ (if bool_decide (frac = "") then "" else "." +:+ frac) +:+ "Z")%string.

Example format_nano : format_rfc3339_nano (1785000000 * second + 120) = "2026-07-25T17:20:00.00000012Z"%string.
Proof. reflexivity. Qed.

(** [strconv.Atoi]: an optional sign, one digit or more, an [int64]. *)
Fixpoint atoi_digits (acc : Z) (s : string) : option Z :=
  match s with
  | EmptyString => Some acc
  | String c s' => if ascii_in 48 57 c then atoi_digits (acc * 10 + Z.of_N (Ascii.N_of_ascii c - 48)) s' else None
  end.

Definition parse_integer (s : string) : option Z :=
  let number s := match s with EmptyString => None | _ => atoi_digits 0 s end in
  match s with
  | String c s' => if bool_decide (c = chr 45) then Z.opp <$> number s'
                   else if bool_decide (c = chr 43) then number s'
                   else number s
  | EmptyString => None
  end.

Definition atoi (s : string) : option Z :=
  n ← parse_integer s; if (int64_min <=? n) && (n <=? int64_max) then Some n else None.

(** The value that [strconv.ParseInt] returns, also next to an error: the nearest
    bound for a number out of range, zero for anything else. Digits are read as
    long as the number fits in 64 bits, so what follows a longer one is not seen. *)
Fixpoint uint_value (acc : Z) (s : string) : option Z :=
  match s with
  | EmptyString => Some acc
  | String c s' =>
      if ascii_in 48 57 c then
        let n := acc * 10 + Z.of_N (Ascii.N_of_ascii c - 48) in
        if 2 ^ 64 <=? n then Some n else uint_value n s'
      else None
  end.

Definition parse_int_value (s : string) : Z :=
  let number s := match s with EmptyString => None | _ => uint_value 0 s end in
  let value := match s with
               | String c s' => if bool_decide (c = chr 45) then Z.opp <$> number s'
                                else if bool_decide (c = chr 43) then number s'
                                else number s
               | EmptyString => None
               end in
  match value with Some n => Z.max int64_min (Z.min int64_max n) | None => 0 end.

Example parse_int_samples :
  (parse_int_value "-12", parse_int_value "12x", parse_int_value "9223372036854775808",
   parse_int_value "99999999999999999999x", parse_int_value "-9223372036854775809")
  = (-12, 0, int64_max, int64_max, int64_min).
Proof. reflexivity. Qed.

Example atoi_samples :
  (atoi "-120", atoi "+7", atoi "", atoi "-", atoi "1x", atoi "9223372036854775808")
  = (Some (-120), Some 7, None, None, None, None).
Proof. reflexivity. Qed.

(** The characters [hex_encode] writes. *)
Definition lower_hex (c : Ascii.ascii) : bool := ascii_in 48 57 c || ascii_in 97 102 c.

Lemma hex_digit_lower n : 0 <= n < 16 → lower_hex (hex_digit n) = true.
Proof.
  intros H. assert (n = 0 ∨ n = 1 ∨ n = 2 ∨ n = 3 ∨ n = 4 ∨ n = 5 ∨ n = 6 ∨ n = 7 ∨ n = 8 ∨ n = 9
    ∨ n = 10 ∨ n = 11 ∨ n = 12 ∨ n = 13 ∨ n = 14 ∨ n = 15) by lia. by repeat (destruct_or!; subst).
Qed.

Lemma hex_encode_lower_hex b : string_forall lower_hex (hex_encode b) = true.
Proof.
  unfold hex_encode. induction b as [|x b IH]; [done|]. cbn [string_forall]. rewrite IH.
  pose proof (byte_to_Z_range x). rewrite !hex_digit_lower; [done| |]; [apply Z.mod_pos_bound; lia|].
  split; [apply Z.div_pos; lia|apply Z.div_lt_upper_bound; lia].
Qed.

(** ** Strings split at a separator *)

Definition no_char (c : Ascii.ascii) (s : string) : bool := string_forall (λ d, negb (bool_decide (d = c))) s.

Lemma split_at_sep c s s' t t' :
  no_char c s = true → no_char c s' = true →
  (s +:+ String c t)%string = (s' +:+ String c t')%string → s = s' ∧ t = t'.
Proof.
  revert s'. induction s as [|d s IH]; intros [|d' s']; cbn; intros Hs Hs' E; bool_to_prop; simplify_eq/=; try done.
  destruct (IH s') as [-> ->]; auto.
Qed.

(** Splitting around a separator that the parts do not contain. *)
Lemma split_on_app c a s : no_char c a = true → split_on c (a +:+ String c s)%string = a :: split_on c s.
Proof.
  unfold no_char. induction a as [|d a IH]; cbn [string_forall].
  - intros _. change (("" +:+ String c s)%string) with (String c s). cbn [split_on]. by rewrite bool_decide_true.
  - intros [Hd Ha]%andb_prop. change ((String d a +:+ String c s)%string) with (String d (a +:+ String c s)%string).
    cbn [split_on]. rewrite (IH Ha). by destruct (bool_decide (d = c)).
Qed.

Lemma split_last c s : no_char c s = true → split_on c s = [s].
Proof.
  induction s as [|d s IH]; intros H; [done|]. cbn [split_on].
  unfold no_char in H. cbn [string_forall] in H. apply andb_prop in H as [Hd H]. fold (no_char c s) in H.
  apply negb_true_iff in Hd. by rewrite Hd, IH.
Qed.

Lemma split_no_sep c s x : x ∈ split_on c s → no_char c x = true.
Proof.
  revert x. induction s as [|d s IH]; intros x; cbn [split_on]; [by intros ->%list_elem_of_singleton|].
  case_bool_decide as Hd; [intros [->|?]%elem_of_cons; [done|auto]|].
  destruct (split_on c s) as [|h t] eqn:E; [by intros ?%elem_of_nil|].
  intros [->|Hx]%elem_of_cons; [|apply IH; by apply elem_of_cons; right].
  unfold no_char. cbn [string_forall]. rewrite bool_decide_false by done. apply IH. apply elem_of_cons. by left.
Qed.

Lemma no_char_pretty_go c x s :
  no_char c "0123456789" = true → no_char c s = true → no_char c (pretty_N_go x s) = true.
Proof.
  intros Hc. revert s. induction (N.lt_wf_0 x) as [x _ IH]. intros s Hs.
  destruct (decide (x = 0%N)) as [->|Hx]; [by rewrite pretty_N_go_0|].
  rewrite pretty_N_go_step by lia. apply IH; [apply N.div_lt; lia|]. cbn.
  apply andb_true_intro. split; [|done]. unfold no_char in Hc. cbn in Hc. bool_to_prop.
  apply negb_true_iff, bool_decide_eq_false. unfold pretty_N_char. by repeat case_match.
Qed.

Lemma no_char_pretty_N c (x : N) : no_char c "0123456789" = true → no_char c (pretty x) = true.
Proof.
  intros Hc. unfold pretty, pretty_N. case_decide; [|by apply no_char_pretty_go].
  unfold no_char in *. cbn in *. by bool_to_prop; rewrite bool_decide_false by done.
Qed.

Lemma no_char_itoa c n : no_char c "-0123456789" = true → no_char c (itoa n) = true.
Proof.
  intros Hc. assert (no_char c "0123456789" = true ∧ no_char c "-" = true) as (H1 & H2).
  { unfold no_char in *. cbn in *. destruct (bool_decide _); done. }
  destruct n as [|p|p]; [apply (no_char_pretty_N c 0 H1)|apply (no_char_pretty_N c (N.pos p) H1)|].
  pose proof (no_char_pretty_N c (N.pos p) H1) as H3. unfold no_char in *.
  change (itoa (Z.neg p)) with ("-" +:+ pretty (N.pos p))%string. cbn [string_forall String.app] in *. cbn.
  cbn in H2. bool_to_prop. apply andb_true_intro. split; [|exact H3]. by apply negb_true_iff, bool_decide_eq_false.
Qed.

(** [math.Float64bits]; every NaN has the bits of Go's [math.NaN]. *)
Definition float_bits (x : float64) : Z :=
  let sign (s : bool) := if s then 2 ^ 63 else 0 in
  match x with
  | S754_zero s => sign s
  | S754_infinity s => sign s + 2047 * 2 ^ 52
  | S754_nan => 9221120237041090561
  | S754_finite s m e =>
      if Zpos m <? 2 ^ 52 then sign s + Zpos m else sign s + (e + 1075) * 2 ^ 52 + (Zpos m - 2 ^ 52)
  end.

Example float_bits_samples :
  (float_bits f_one, float_bits (f_of_Z (-2)), float_bits (f_dec 1 1))
  = (4607182418800017408, 13835058055282163712, 4591870180066957722).
Proof. reflexivity. Qed.

(** [Format("2006-01-02T15:04:05.000000000Z")] of a time in UTC. *)
Definition format_nanos (t : time) : string :=
  (trim_suffix (format_rfc3339 t) "Z" +:+ "." +:+ pad_left 9 (itoa (t mod second)) +:+ "Z")%string.

Example format_nanos_sample : format_nanos (1785000000 * second + 120) = "2026-07-25T17:20:00.000000120Z"%string.
Proof. reflexivity. Qed.

(** ** [encoding/base64], [StdEncoding] *)

Definition b64_char (v : Z) : Ascii.ascii :=
  Ascii.ascii_of_N (Z.to_N (if v <? 26 then 65 + v else if v <? 52 then 71 + v else if v <? 62 then v - 4
                            else if v =? 62 then 43 else 47)).

Definition b64_val (c : Ascii.ascii) : option Z :=
  let n := Z.of_N (Ascii.N_of_ascii c) in
  if (65 <=? n) && (n <=? 90) then Some (n - 65)
  else if (97 <=? n) && (n <=? 122) then Some (n - 71)
  else if (48 <=? n) && (n <=? 57) then Some (n + 4)
  else if n =? 43 then Some 62 else if n =? 47 then Some 63 else None.

Definition b64_pad : Ascii.ascii := chr 61.

Fixpoint base64_encode (b : bytes) : string :=
  match b with
  | [] => EmptyString
  | [x] => let x := byte_to_Z x in
      String (b64_char (x / 4)) (String (b64_char (x mod 4 * 16)) (String b64_pad (String b64_pad EmptyString)))
  | [x; y] => let x := byte_to_Z x in let y := byte_to_Z y in
      String (b64_char (x / 4)) (String (b64_char (x mod 4 * 16 + y / 16))
        (String (b64_char (y mod 16 * 4)) (String b64_pad EmptyString)))
  | x :: y :: z :: r => let x := byte_to_Z x in let y := byte_to_Z y in let z := byte_to_Z z in
      String (b64_char (x / 4)) (String (b64_char (x mod 4 * 16 + y / 16))
        (String (b64_char (y mod 16 * 4 + z / 64)) (String (b64_char (z mod 64)) (base64_encode r))))
  end.

(** The quanta of four characters, padding only in the last one; the unused
    bits of a padded quantum are not checked. *)
Fixpoint base64_quanta (s : string) : option bytes :=
  match s with
  | EmptyString => Some []
  | String a (String b (String c (String d r))) =>
      va ← b64_val a;
      vb ← b64_val b;
      let x := byte_of_Z (va * 4 + vb / 16) in
      if bool_decide (c = b64_pad) then
        if bool_decide (d = b64_pad) && bool_decide (r = EmptyString) then Some [x] else None
      else
        vc ← b64_val c;
        let y := byte_of_Z (vb mod 16 * 16 + vc / 4) in
        if bool_decide (d = b64_pad) then
          if bool_decide (r = EmptyString) then Some [x; y] else None
        else
          vd ← b64_val d;
          rest ← base64_quanta r;
          Some (x :: y :: byte_of_Z (vc mod 4 * 64 + vd) :: rest)
  | _ => None
  end.

(** Line breaks are skipped. *)
Fixpoint skip_newlines (s : string) : string :=
  match s with
  | EmptyString => EmptyString
  | String c s' => if bool_decide (c = chr 10) || bool_decide (c = chr 13) then skip_newlines s'
                   else String c (skip_newlines s')
  end.

Definition base64_decode (s : string) : option bytes := base64_quanta (skip_newlines s).

Example base64_sample :
  (base64_encode (bytes_of "hello"), base64_decode "aGVsbG8=") = ("aGVsbG8="%string, Some (bytes_of "hello")).
Proof. reflexivity. Qed.

Definition b64_char_ok (v : Z) : bool :=
  bool_decide (b64_val (b64_char v) = Some v) && negb (bool_decide (b64_char v = b64_pad)) &&
  negb (bool_decide (b64_char v = chr 10)) && negb (bool_decide (b64_char v = chr 13)).

Lemma b64_char_spec v :
  0 <= v < 64 → b64_val (b64_char v) = Some v ∧ b64_char v ≠ b64_pad ∧ b64_char v ≠ chr 10 ∧ b64_char v ≠ chr 13.
Proof.
  intros Hv. assert (forallb (λ n, b64_char_ok (Z.of_nat n)) (seq 0 64) = true) as H by reflexivity.
  rewrite forallb_forall in H. specialize (H (Z.to_nat v) (proj2 (in_seq 64 0 (Z.to_nat v)) ltac:(lia))).
  rewrite Z2Nat.id in H by lia. unfold b64_char_ok in H. bool_to_prop. done.
Qed.

Lemma bytes_ind3 (P : bytes → Prop) :
  P [] → (∀ x, P [x]) → (∀ x y, P [x; y]) → (∀ x y z r, P r → P (x :: y :: z :: r)) → ∀ b, P b.
Proof.
  intros H0 H1 H2 H3. fix IH 1. intros [|x [|y [|z r]]]; [exact H0|apply H1|apply H2|apply H3, IH].
Qed.

Lemma byte_parts x :
  let v := byte_to_Z x in
  0 <= v / 4 < 64 ∧ 0 <= v mod 4 < 4 ∧ 0 <= v / 16 < 16 ∧ 0 <= v mod 16 < 16 ∧ 0 <= v / 64 < 4 ∧ 0 <= v mod 64 < 64.
Proof. cbv zeta. pose proof (byte_to_Z_range x). split_and!; lia_div. Qed.

Lemma byte_of_parts x a b n :
  0 < n → a = byte_to_Z x / n → b = byte_to_Z x mod n → byte_of_Z (a * n + b) = x.
Proof.
  intros Hn -> ->. rewrite (Z.mul_comm (_ / n)), <- Z.div_mod by lia. apply byte_of_to_Z.
Qed.

Lemma skip_b64 v s :
  0 <= v < 64 → skip_newlines (String (b64_char v) s) = String (b64_char v) (skip_newlines s).
Proof.
  intros Hv. destruct (b64_char_spec v Hv) as (_ & _ & H1 & H2). cbn [skip_newlines].
  by rewrite !bool_decide_false.
Qed.

Lemma base64_quantum va vb vc vd r :
  0 <= va < 64 → 0 <= vb < 64 → 0 <= vc < 64 → 0 <= vd < 64 →
  base64_quanta (String (b64_char va) (String (b64_char vb) (String (b64_char vc) (String (b64_char vd) r)))) =
  (rest ← base64_quanta r;
   Some (byte_of_Z (va * 4 + vb / 16) :: byte_of_Z (vb mod 16 * 16 + vc / 4) :: byte_of_Z (vc mod 4 * 64 + vd) :: rest)).
Proof.
  intros Ha Hb Hc Hd. destruct (b64_char_spec va Ha) as (Ea & _ & _), (b64_char_spec vb Hb) as (Eb & _ & _),
    (b64_char_spec vc Hc) as (Ec & Nc & _), (b64_char_spec vd Hd) as (Ed & Nd & _).
  cbn [base64_quanta]. rewrite Ea, Eb, Ec, Ed. cbn [mbind option_bind]. rewrite !bool_decide_false by done. done.
Qed.

Lemma base64_decode_encode b : base64_decode (base64_encode b) = Some b.
Proof.
  unfold base64_decode. induction b as [|x|x y|x y z r IH] using bytes_ind3; cbn [base64_encode]; [done|..].
  - destruct (byte_parts x) as (Hx1 & Hx2 & _). rewrite !skip_b64 by lia. cbn [skip_newlines].
    rewrite !bool_decide_false by done. cbn [orb base64_quanta].
    destruct (b64_char_spec (byte_to_Z x / 4) Hx1) as (-> & _).
    destruct (b64_char_spec (byte_to_Z x mod 4 * 16) ltac:(lia)) as (-> & _). cbn [mbind option_bind].
    rewrite !bool_decide_true by done. cbn [andb]. do 2 f_equal. apply byte_of_parts; lia_div.
  - destruct (byte_parts x) as (Hx1 & Hx2 & _), (byte_parts y) as (_ & _ & Hy1 & Hy2 & _).
    rewrite !skip_b64 by lia. cbn [skip_newlines].
    rewrite !(bool_decide_false (b64_pad = _)) by done. cbn [orb base64_quanta].
    destruct (b64_char_spec (byte_to_Z x / 4) Hx1) as (-> & _).
    destruct (b64_char_spec (byte_to_Z x mod 4 * 16 + byte_to_Z y / 16) ltac:(lia)) as (-> & _).
    destruct (b64_char_spec (byte_to_Z y mod 16 * 4) ltac:(lia)) as (-> & Hn & _).
    cbn [mbind option_bind]. rewrite (bool_decide_false (_ = b64_pad)) by done. rewrite !bool_decide_true by done.
    do 2 f_equal; [apply byte_of_parts; lia_div|f_equal; apply byte_of_parts; lia_div].
  - destruct (byte_parts x) as (Hx1 & Hx2 & _), (byte_parts y) as (_ & _ & Hy1 & Hy2 & _),
      (byte_parts z) as (_ & _ & _ & _ & Hz1 & Hz2).
    rewrite !skip_b64 by lia. rewrite base64_quantum by lia. rewrite IH. cbn [mbind option_bind]. f_equal.
    f_equal; [|f_equal; [|f_equal]]; apply byte_of_parts; lia_div.
Qed.
