(* ===== verification/Json.v ===== *)
(** * JSON text ([encoding/json])

    The values, the text of [json.Marshal] and the canonical text of the
    evidence packages ([judge/equivocation/proof.go], [judge/hitl/hitl.go]:
    [canonicalEncode], [canonicalizeValue]). A struct is an object whose members
    come in the order of its fields. Strings are escaped as [json.Marshal] does,
    with UTF-8 decoded; numbers are binary64 values in the shortest form. *)

From S2P Require Import Prelude GoLib.
From Stdlib Require Import Floats.SpecFloat.

Local Open Scope Z_scope.

(** ** Strings *)

(** [utf8.DecodeRune]: the encoded runes of a string, with a mark for a byte that
    starts none. *)
Inductive rune := ValidRune (enc : string) | InvalidByte.

Definition str2 (c d : Ascii.ascii) : string := String c (String d EmptyString).
Definition str3 (c d e : Ascii.ascii) : string := String c (str2 d e).
Definition str4 (c d e f : Ascii.ascii) : string := String c (str3 d e f).

(** The second byte allowed after a first byte of a three- or four-byte rune. *)
Definition second_ok (c d : Ascii.ascii) : bool :=
  let n := Ascii.N_of_ascii c in
  if (n =? 224)%N then ascii_in 160 191 d
  else if (n =? 237)%N then ascii_in 128 159 d
  else if (n =? 240)%N then ascii_in 144 191 d
  else if (n =? 244)%N then ascii_in 128 143 d
  else ascii_in 128 191 d.

Fixpoint utf8 (s : string) : list rune :=
  match s with
  | EmptyString => []
  | String c s1 =>
      if ascii_in 0 127 c then ValidRune (String c EmptyString) :: utf8 s1
      else match s1 with
           | EmptyString => [InvalidByte]
           | String d s2 =>
               if ascii_in 194 223 c && ascii_in 128 191 d then ValidRune (str2 c d) :: utf8 s2
               else match s2 with
                    | EmptyString => InvalidByte :: utf8 s1
                    | String e s3 =>
                        if ascii_in 224 239 c && second_ok c d && ascii_in 128 191 e
                        then ValidRune (str3 c d e) :: utf8 s3
                        else match s3 with
                             | EmptyString => InvalidByte :: utf8 s1
                             | String f s4 =>
                                 if ascii_in 240 244 c && second_ok c d && ascii_in 128 191 e && ascii_in 128 191 f
                                 then ValidRune (str4 c d e f) :: utf8 s4
                                 else InvalidByte :: utf8 s1
                             end
                    end
           end
  end.

(** U+FFFD, U+2028 and U+2029 in UTF-8. *)
Definition replacement : string := str3 (chr 239) (chr 191) (chr 189).
Definition line_separator : string := str3 (chr 226) (chr 128) (chr 168).
Definition paragraph_separator : string := str3 (chr 226) (chr 128) (chr 169).

(** What a string is after a round trip through JSON. *)
Definition sanitize (s : string) : string :=
  string_concat ((λ r, match r with ValidRune e => e | InvalidByte => replacement end) <$> utf8 s).

(** The escape of one ASCII character; quotes, the backslash, control characters
    and the HTML characters are escaped. *)
Definition json_ascii (c : Ascii.ascii) : string :=
  let n := Ascii.N_of_ascii c in
  let esc (d : N) : string := str2 (chr 92) (chr d) in
  if (n =? 34)%N || (n =? 92)%N then esc n
  else if (n =? 8)%N then esc 98%N
  else if (n =? 12)%N then esc 102%N
  else if (n =? 10)%N then esc 110%N
  else if (n =? 13)%N then esc 114%N
  else if (n =? 9)%N then esc 116%N
  else if (n <? 32)%N || (n =? 60)%N || (n =? 62)%N || (n =? 38)%N
  then (esc 117%N +:+ "00" +:+ str2 (hex_digit (Z.of_N n / 16)) (hex_digit (Z.of_N n mod 16)))%string
  else String c EmptyString.

Definition json_rune (r : rune) : string :=
  match r with
  | InvalidByte => "\ufffd"
  | ValidRune (String c EmptyString) => json_ascii c
  | ValidRune e =>
      if bool_decide (e = line_separator) then "\u2028"
      else if bool_decide (e = paragraph_separator) then "\u2029" else e
  end.

Definition json_string (s : string) : string :=
  let q := String (chr 34) EmptyString in
  (q +:+ string_concat (json_rune <$> utf8 s) +:+ q)%string.

(** ** Numbers *)

(** The decimal exponent: [10^k <= n/d < 10^(k+1)]. *)
Definition pow10 (k : Z) : Z * Z := if 0 <=? k then (10 ^ k, 1) else (1, 10 ^ (- k)).
Definition below_pow10 (n d k : Z) : bool := let '(a, b) := pow10 k in n * b <? a * d.
Definition dec_exp (n d : Z) : Z :=
  let k0 := (Z.log2 n - Z.log2 d) * 30103 / 100000 - 2 in
  default k0 (head (List.filter (λ k, below_pow10 n d (k + 1)) [k0; k0 + 1; k0 + 2; k0 + 3; k0 + 4])).

(** The [len] leading digits of [n/d] rounded half to even, as the integer to be
    scaled by [10 ^ (k - len + 1)]. *)
Definition round_digits (n d k len : Z) : Z :=
  let '(a, b) := pow10 (len - 1 - k) in div_half_even (n * a) (d * b).

(** Is [q * 10^s] read back as the value whose rounding interval is
    [lo/d, hi/d]? *)
Definition reads_back (q s lo hi d : Z) (incl : bool) : bool :=
  let '(a, b) := pow10 s in
  let v := q * a * d in
  if incl then (lo * b <=? v) && (v <=? hi * b) else (lo * b <? v) && (v <? hi * b).

(** The shortest digits of a finite value: [(q, s)] stands for [q * 10^s]. *)
Definition shortest (m e : Z) : Z * Z :=
  let '(n, d) := if 2 <=? e then (m * 2 ^ e, 1) else (m * 4, 2 ^ (2 - e)) in
  let unit := if 2 <=? e then 2 ^ (e - 2) else 1 in
  let hi := n + 2 * unit in
  let lo := n - (if (m =? 2 ^ 52) && (-1074 <? e) then 1 else 2) * unit in
  let k := dec_exp n d in
  let try_ (len : Z) : Z * Z := (round_digits n d k len, k - len + 1) in
  default (try_ 17)
    (head (List.filter (λ qs : Z * Z, reads_back (fst qs) (snd qs) lo hi d (Z.even m))
             (try_ <$> [1; 2; 3; 4; 5; 6; 7; 8; 9; 10; 11; 12; 13; 14; 15; 16; 17]))).

Definition drop_trailing (s : string) : string := drop_zeros s.

Definition fixed_text (q s : Z) : string :=
  if 0 <=? s then itoa (q * 10 ^ s)
  else (itoa (q / 10 ^ (- s)) +:+ "." +:+ pad_left (Z.to_nat (- s)) (itoa (q mod 10 ^ (- s))))%string.

(** [d.ddde+XX]; the exponent has two digits at least, except that [e-0X] is
    cleaned to [e-X]. *)
Definition scientific_text (q s : Z) : string :=
  let ds := itoa q in
  let x := s + Z.of_nat (String.length ds) - 1 in
  let frac := drop_trailing (String.substring 1 (String.length ds - 1) ds) in
  (String.substring 0 1 ds +:+ (if bool_decide (frac = ""%string) then "" else "." +:+ frac)
   +:+ (if (x <? 0)%Z then "e-" +:+ itoa (- x) else "e+" +:+ pad_left 2 (itoa x)))%string.

(** [floatEncoder]: NaN and the infinities are errors. *)
Definition json_float (x : float64) : option string :=
  match x with
  | S754_nan | S754_infinity _ => None
  | S754_zero neg => Some (if neg then "-0" else "0")%string
  | S754_finite neg m e =>
      let '(q, s) := shortest (Zpos m) e in
      let tiny := if 0 <=? e then false else Zpos m * 10 ^ 6 <? 2 ^ (- e) in
      let huge := if 0 <=? e then 10 ^ 21 <=? Zpos m * 2 ^ e else false in
      Some ((if neg then "-" else "") +:+ (if tiny || huge then scientific_text q s else fixed_text q s))%string
  end.

Example json_float_samples :
  json_float <$> [f_of_Z 1; f_div (f_of_Z 2) (f_of_Z 3); f_div f_one (f_of_Z 2); f_of_Z 1753;
                  f_dec 66 2; f_div f_one (f_of_Z 3); f_dec 1 1; f_of_Z (10 ^ 21); f_dec 15 9; f_of_Z 120000]
  = [Some "1"; Some "0.6666666666666666"; Some "0.5"; Some "1753"; Some "0.66"; Some "0.3333333333333333";
     Some "0.1"; Some "1e+21"; Some "1.5e-8"; Some "120000"]%string.
Proof. vm_compute. reflexivity. Qed.

Example json_string_sample :
  json_string "a<b>&c\" = (String (chr 34) "a\u003cb\u003e\u0026c\\" +:+ String (chr 34) EmptyString)%string.
Proof. vm_compute. reflexivity. Qed.

(** ** Values and texts *)

Inductive json :=
| JNull
| JBool (b : bool)
| JInt (z : Z)
| JNum (x : float64)
| JStr (s : string)
| JArr (l : list json)
| JObj (m : list (string * json)).

(** A string member with the [omitempty] option. *)
Definition omit_empty (k s : string) : list (string * json) :=
  if bool_decide (s = ""%string) then [] else [(k, JStr s)].

(** A Go map given by a literal: its members in the order of their keys. *)
Definition gomap (l : list (string * json)) : json := JObj (sort_slice (λ a b, string_ltb (fst a) (fst b)) l).

Definition brackets (open close : string) (items : list string) : string :=
  (open +:+ string_join "," items +:+ close)%string.

Definition member (kt : string * string) : string := (json_string (fst kt) +:+ ":" +:+ snd kt)%string.

(** [json.Marshal]; fails on NaN and the infinities only. *)
Fixpoint marshal (v : json) : option string :=
  match v with
  | JNull => Some "null"%string
  | JBool b => Some (if b then "true" else "false")%string
  | JInt z => Some (itoa z)
  | JNum x => json_float x
  | JStr s => Some (json_string s)
  | JArr l => brackets "[" "]" <$> mapM marshal l
  | JObj m =>
      (λ l, brackets "{" "}" (member <$> l)) <$>
      mapM (λ kv, match kv with (k, v) => pair k <$> marshal v end) m
  end.

(** What [json.Unmarshal] into [any] reads back from the text: numbers are
    [float64], strings are valid UTF-8. *)
Fixpoint as_any (v : json) : json :=
  match v with
  | JInt z => JNum (f_of_Z z)
  | JStr s => JStr (sanitize s)
  | JArr l => JArr (as_any <$> l)
  | JObj m => JObj ((λ kv, match kv with (k, v) => (sanitize k, as_any v) end) <$> m)
  | v => v
  end.

Definition key_less (a b : string * string) : bool := string_ltb (fst a) (fst b).

(** [canonicalEncode]: the members of every object in the order of their keys. *)
Fixpoint canonicalEncode (v : json) : option string :=
  match v with
  | JArr l => brackets "[" "]" <$> mapM canonicalEncode l
  | JObj m =>
      (λ l, brackets "{" "}" (member <$> sort_slice key_less l)) <$>
      mapM (λ kv, match kv with (k, v) => pair k <$> canonicalEncode v end) m
  | v => marshal v
  end.

(** [MarshalCanonical], [canonicalize]: marshal, read back, encode. *)
Definition canonicalize (v : json) : option string :=
  match marshal v with Some _ => canonicalEncode (as_any v) | None => None end.

(** The order of the members does not matter. *)
Lemma canonical_object_perm m m' :
  NoDup (fst <$> m) → m ≡ₚ m' → canonicalEncode (JObj m) = canonicalEncode (JObj m').
Proof.
  intros Hnd Hp. cbn [canonicalEncode].
  set (f := λ kv : string * json, _).
  assert (∀ l k : list (string * json), l ≡ₚ k → ∀ l', mapM f l = Some l' → ∃ k', mapM f k = Some k' ∧ l' ≡ₚ k') as Hmap.
  { intros l k Hlk l' Hl. apply mapM_Some in Hl.
    destruct (Permutation_Forall2 Hlk Hl) as (k' & Hk & Hf).
    exists k'. split; [by apply mapM_Some|done]. }
  destruct (mapM f m) as [l|] eqn:E.
  - destruct (Hmap _ _ Hp _ E) as (l' & -> & Hl). cbn. do 2 f_equal. f_equal.
    apply (sort_slice_unique key_less); [|done].
    assert (NoDup (fst <$> l)) as Hl'.
    { apply mapM_Some in E. replace (fst <$> l) with (fst <$> m); [done|].
      clear -E. induction E as [|[k v] y ? ? H ? IH]; [done|]. cbn in *. destruct (canonicalEncode v); [|done].
      injection H as <-. cbn. by rewrite IH. }
    intros [k t] [k' t'] Hx Hy H1 H2. cbn in H1, H2.
    assert (k = k') as -> by (by apply string_not_after_antisym).
    f_equal. apply list_elem_of_lookup in Hx as [i Hi], Hy as [j Hj].
    assert (i = j) as ->.
    { eapply (NoDup_lookup (fst <$> l)); [done| |]; rewrite list_lookup_fmap; [rewrite Hi | rewrite Hj]; done. }
    congruence.
  - destruct (mapM f m') as [l'|] eqn:E'; [|done].
    destruct (Hmap _ _ (symmetry Hp) _ E') as (l & Hl & _). congruence.
Qed.
