(* ===== verification/JsonFacts.v ===== *)
(** * Unique readability of canonical JSON

    The text of [canonicalEncode] ([Json.v]) determines its value up to the order
    of members and the binary64 value behind a number's text: [norm] keeps exactly
    that, and two values with one text have one [norm]. The digests of evidence
    documents ([Evidence.v]) bind their content through it. *)

From S2P Require Import Prelude GoLib Json.

Local Open Scope Z_scope.

(** ** Strings of characters *)

Lemma str_app_assoc a b c : (a +:+ (b +:+ c) = (a +:+ b) +:+ c)%string.
Proof. induction a as [|x a IH]; [done|]. exact (f_equal (String x) IH). Qed.

Lemma str_app_nil a : (a +:+ "" = a)%string.
Proof. induction a as [|x a IH]; [done|]. exact (f_equal (String x) IH). Qed.

Lemma str_app_cancel p x y : (p +:+ x = p +:+ y)%string → x = y.
Proof. induction p as [|c p IH]; [done|]. intros H. apply IH. injection H as H. exact H. Qed.

(** Of two strings with a common extension one is a prefix of the other. *)
Lemma str_app_split a b x y :
  (a +:+ x = b +:+ y)%string → (∃ c, b = (a +:+ c)%string) ∨ (∃ c, a = (b +:+ c)%string).
Proof.
  revert b. induction a as [|c a IH]; intros b; [left; by exists b|].
  destruct b as [|d b]; [right; by exists (String c a)|]. intros H. injection H as <- H.
  destruct (IH b H) as [[e ->]|[e ->]]; [left|right]; by exists e.
Qed.

Lemma prefix_app a c : String.prefix a (a +:+ c)%string = true.
Proof.
  induction a as [|x a IH]; [by destruct c|].
  change (String.prefix (String x a) (String x (a +:+ c)) = true). cbn [String.prefix]. destruct (Ascii.ascii_dec x x); [exact IH|done].
Qed.

Definition head_char (s : string) : option Ascii.ascii := match s with EmptyString => None | String c _ => Some c end.

Lemma head_char_app a x : a ≠ ""%string → head_char (a +:+ x)%string = head_char a.
Proof. by destruct a. Qed.

(** ** Runes *)

Definition ascii_char (c : Ascii.ascii) : bool := ascii_in 0 127 c.

Definition wf_enc (e : string) : bool :=
  match e with
  | String c EmptyString => ascii_char c
  | String c (String d EmptyString) => ascii_in 194 223 c && ascii_in 128 191 d
  | String c (String d (String x EmptyString)) => ascii_in 224 239 c && second_ok c d && ascii_in 128 191 x
  | String c (String d (String x (String y EmptyString))) =>
      ascii_in 240 244 c && second_ok c d && ascii_in 128 191 x && ascii_in 128 191 y
  | _ => false
  end.

Definition wf_rune (r : rune) : bool := match r with ValidRune e => wf_enc e | InvalidByte => false end.

(** Every character below 128 passes a test that the first 128 pass. *)
Definition all_ascii (p : Ascii.ascii → bool) : bool := forallb (λ n, p (Ascii.ascii_of_nat n)) (seq 0 128).

Lemma all_ascii_spec p c : all_ascii p = true → ascii_char c = true → p c = true.
Proof.
  intros H Hc. unfold all_ascii in H. rewrite forallb_forall in H.
  specialize (H (Ascii.nat_of_ascii c)). rewrite Ascii.ascii_nat_embedding in H. apply H.
  rewrite in_seq. unfold ascii_char, ascii_in in Hc. apply andb_prop in Hc as [_ Hc]. apply N.leb_le in Hc.
  unfold Ascii.nat_of_ascii. lia.
Qed.

(** Codes of ASCII characters: none is a prefix of another one, of the escapes of
    the separators, or starts with a quote or a byte of a longer rune. *)
Definition code_ok (c d : Ascii.ascii) : bool :=
  bool_decide (c = d) || negb (String.prefix (json_ascii c) (json_ascii d)).

Lemma codes_prefix_free : all_ascii (λ c, all_ascii (code_ok c)) = true.
Proof. vm_compute. reflexivity. Qed.

Definition code_head_ok (c : Ascii.ascii) : bool :=
  match head_char (json_ascii c) with
  | Some h => ascii_char h && negb (bool_decide (h = chr 34))
  | None => false
  end
  && negb (String.prefix (json_ascii c) "\u2028") && negb (String.prefix (json_ascii c) "\u2029")
  && negb (String.prefix "\u2028" (json_ascii c)) && negb (String.prefix "\u2029" (json_ascii c)).

Lemma codes_head : all_ascii code_head_ok = true.
Proof. vm_compute. reflexivity. Qed.

Lemma json_ascii_app_inj c d x y :
  ascii_char c = true → ascii_char d = true → (json_ascii c +:+ x = json_ascii d +:+ y)%string → c = d ∧ x = y.
Proof.
  intros Hc Hd E. assert (∀ a b, ascii_char a = true → ascii_char b = true → code_ok a b = true) as Hok.
  { intros a b Ha Hb. eapply all_ascii_spec; [|exact Hb].
    eapply (all_ascii_spec (λ a, all_ascii (code_ok a))); [exact codes_prefix_free|exact Ha]. }
  assert (c = d) as ->.
  { destruct (str_app_split _ _ _ _ E) as [[e He]|[e He]].
    - specialize (Hok c d Hc Hd). unfold code_ok in Hok. rewrite He, prefix_app in Hok. cbn in Hok.
      rewrite orb_false_r in Hok. by bool_to_prop.
    - specialize (Hok d c Hd Hc). unfold code_ok in Hok. rewrite He, prefix_app in Hok. cbn in Hok.
      rewrite orb_false_r in Hok. by bool_to_prop. }
  split; [done|]. by eapply str_app_cancel.
Qed.

(** The three shapes of a rune's text. *)
Inductive code_of : rune → string → Prop :=
| code_ascii c : ascii_char c = true → code_of (ValidRune (String c EmptyString)) (json_ascii c)
| code_ls : code_of (ValidRune line_separator) "\u2028"
| code_ps : code_of (ValidRune paragraph_separator) "\u2029"
| code_raw2 c d : ascii_in 194 223 c = true → code_of (ValidRune (str2 c d)) (str2 c d)
| code_raw3 c d x : ascii_in 224 239 c = true → code_of (ValidRune (str3 c d x)) (str3 c d x)
| code_raw4 c d x y : ascii_in 240 244 c = true → code_of (ValidRune (str4 c d x y)) (str4 c d x y).

Lemma json_rune_code r : wf_rune r = true → code_of r (json_rune r).
Proof.
  destruct r as [e|]; [|done]. cbn [wf_rune]. intros H.
  destruct e as [|c e]; [done|]. destruct e as [|d e]; [by constructor|].
  change (json_rune (ValidRune (String c (String d e)))) with
    (if bool_decide (String c (String d e) = line_separator) then "\u2028"
     else if bool_decide (String c (String d e) = paragraph_separator) then "\u2029" else String c (String d e))%string.
  case_bool_decide as E1; [rewrite E1; constructor|]. case_bool_decide as E2; [rewrite E2; constructor|].
  destruct e as [|x e]; [|destruct e as [|y e]; [|destruct e; [|done]]]; cbn [wf_enc] in H.
  - apply andb_prop in H as [H _]. by constructor.
  - apply andb_prop in H as [[H _]%andb_prop _]. by constructor.
  - apply andb_prop in H as [[[H _]%andb_prop _]%andb_prop _]. by constructor.
Qed.

Lemma ascii_in_disjoint a b c d x :
  (b < c)%N → ascii_in a b x = true → ascii_in c d x = true → False.
Proof.
  unfold ascii_in. intros H [_ H1]%andb_prop [H2 _]%andb_prop. apply N.leb_le in H1, H2. lia.
Qed.

Lemma code_head c : ascii_char c = true → code_head_ok c = true.
Proof. apply all_ascii_spec, codes_head. Qed.

(** An ASCII code against another text that follows on it. *)
Lemma ascii_code_vs c t x y :
  ascii_char c = true → (json_ascii c +:+ x = t +:+ y)%string →
  (t = "\u2028"%string ∨ t = "\u2029"%string ∨ ∃ h s, t = String h s ∧ ascii_in 194 244 h = true) → False.
Proof.
  intros Hc E Ht. pose proof (code_head c Hc) as H. unfold code_head_ok in H.
  apply andb_prop in H as [H H4]. apply andb_prop in H as [H H3]. apply andb_prop in H as [H H2].
  apply andb_prop in H as [H H1]. destruct Ht as [->|[->|(h & s & -> & Hh)]].
  - destruct (str_app_split _ _ _ _ E) as [[e He]|[e He]]; rewrite He, prefix_app in *; done.
  - destruct (str_app_split _ _ _ _ E) as [[e He]|[e He]]; rewrite He, prefix_app in *; done.
  - destruct (json_ascii c) as [|k s']; [done|]. apply (f_equal head_char) in E.
    rewrite !head_char_app in E by done. cbn in E, H. injection E as ->. apply andb_prop in H as [H _].
    by eapply (ascii_in_disjoint 0 127 194 244 h).
Qed.

Lemma raw_head r t : code_of r t →
  (∃ c, r = ValidRune (String c EmptyString) ∧ ascii_char c = true ∧ t = json_ascii c)
  ∨ (t = "\u2028"%string ∨ t = "\u2029"%string ∨ ∃ h s, t = String h s ∧ ascii_in 194 244 h = true).
Proof.
  assert (∀ a b h, (194 <= a)%N → (b <= 244)%N → ascii_in a b h = true → ascii_in 194 244 h = true) as Hin.
  { unfold ascii_in. intros a b h Ha Hb [H1 H2]%andb_prop. apply N.leb_le in H1, H2.
    apply andb_true_intro. split; apply N.leb_le; lia. }
  destruct 1 as [c Hc| | |c d Hc|c d x Hc|c d x y Hc]; [left; eauto|right..]; [auto|auto|right; right..];
    eexists _, _; (split; [reflexivity|]); (eapply Hin; [| |exact Hc]); done.
Qed.

Lemma json_rune_app_inj r1 r2 x y :
  wf_rune r1 = true → wf_rune r2 = true → (json_rune r1 +:+ x = json_rune r2 +:+ y)%string → r1 = r2 ∧ x = y.
Proof.
  intros H1%json_rune_code H2%json_rune_code E.
  destruct (raw_head _ _ H1) as [(c & -> & Hc & Ec)|Hr1].
  { destruct (raw_head _ _ H2) as [(d & -> & Hd & Ed)|Hr2].
    - rewrite Ec, Ed in E. apply json_ascii_app_inj in E as [-> ->]; done.
    - rewrite Ec in E. exfalso. by eapply ascii_code_vs. }
  destruct (raw_head _ _ H2) as [(d & -> & Hd & Ed)|_].
  { rewrite Ed in E. exfalso. symmetry in E. by eapply ascii_code_vs. }
  revert E. generalize (json_rune r1) (json_rune r2) H1 H2 Hr1. clear. intros t1 t2 H1 H2 Hr1 E.
  assert (∀ c, ascii_in 194 223 c = true ∨ ascii_in 224 239 c = true ∨ ascii_in 240 244 c = true → c ≠ chr 92) as H92.
  { intros c H ->. vm_compute in H. destruct H as [|[|]]; done. }
  destruct H1 as [c Hc| | |c d Hc|c d u Hc|c d u v Hc].
  { exfalso. eapply (ascii_code_vs c (json_ascii c) "" ""); done. }
  all: destruct H2 as [c' Hc'| | |c' d' Hc'|c' d' u' Hc'|c' d' u' v' Hc'];
    try (exfalso; eapply (ascii_code_vs c' _ y x Hc'); [symmetry; exact E|]; first [by auto|by right; right; eauto]).
  all: cbv [str2 str3 str4 String.append] in E; injection E; intros; subst; try (split; [done|congruence]);
    try (exfalso; eapply H92; [|reflexivity]; tauto);
    exfalso; first [by eapply (ascii_in_disjoint 194 223 224 239)|by eapply (ascii_in_disjoint 194 223 240 244)
                   |by eapply (ascii_in_disjoint 224 239 240 244)].
Qed.

(** ** Strings *)

Definition dquote : string := String (chr 34) EmptyString.

Lemma json_rune_head r : wf_rune r = true → ∃ h s, json_rune r = String h s ∧ h ≠ chr 34.
Proof.
  intros H%json_rune_code. destruct (raw_head _ _ H) as [(c & -> & Hc & ->)|[->|[->|(h & s & -> & Hh)]]]; [| | |].
  - pose proof (code_head c Hc) as Hk. unfold code_head_ok in Hk.
    destruct (json_ascii c) as [|h s]; [done|]. cbn [head_char] in Hk. exists h, s. split; [done|].
    intros ->. done.
  - eexists _, _. split; [reflexivity|]. done.
  - eexists _, _. split; [reflexivity|]. done.
  - exists h, s. split; [done|]. intros ->. done.
Qed.

Lemma runes_app_inj rs1 rs2 x y :
  forallb wf_rune rs1 = true → forallb wf_rune rs2 = true →
  (string_concat (json_rune <$> rs1) +:+ (dquote +:+ x) = string_concat (json_rune <$> rs2) +:+ (dquote +:+ y))%string →
  rs1 = rs2 ∧ x = y.
Proof.
  revert rs2. induction rs1 as [|r1 rs1 IH]; intros [|r2 rs2] H1 H2 E.
  - by apply str_app_cancel, str_app_cancel in E.
  - apply andb_prop in H2 as [H2 _]. destruct (json_rune_head r2 H2) as (h & s & Hr & Hh).
    rewrite fmap_cons in E. cbn [string_concat] in E. rewrite Hr in E. apply (f_equal head_char) in E.
    change (Some (chr 34) = Some h) in E. congruence.
  - apply andb_prop in H1 as [H1 _]. destruct (json_rune_head r1 H1) as (h & s & Hr & Hh).
    rewrite fmap_cons in E. cbn [string_concat] in E. rewrite Hr in E. apply (f_equal head_char) in E.
    change (Some h = Some (chr 34)) in E. congruence.
  - apply andb_prop in H1 as [Hr1 H1], H2 as [Hr2 H2]. rewrite !fmap_cons in E. cbn [string_concat] in E.
    rewrite <- !str_app_assoc in E. apply json_rune_app_inj in E as [-> E]; [|done..].
    destruct (IH rs2 H1 H2 E) as [-> ->]. done.
Qed.

(** A string that is valid UTF-8. *)
Definition valid_utf8 (s : string) : bool := forallb wf_rune (utf8 s).

Lemma json_string_app_inj s t x y :
  valid_utf8 s = true → valid_utf8 t = true →
  (json_string s +:+ x = json_string t +:+ y)%string → utf8 s = utf8 t ∧ x = y.
Proof.
  unfold json_string. cbv zeta. intros Hs Ht E. rewrite <- !str_app_assoc in E.
  apply str_app_cancel in E. by apply runes_app_inj in E.
Qed.

(** Decoding the text of a rune. *)
Lemma utf8_rune e s : wf_enc e = true → utf8 (e +:+ s)%string = ValidRune e :: utf8 s.
Proof.
  intros H. destruct e as [|c e]; [done|]. destruct e as [|d e].
  { cbn in H. change ((String c "" +:+ s)%string) with (String c s). cbn [utf8]. unfold ascii_char in H. by rewrite H. }
  assert (∀ a b, (127 < a)%N → ascii_in a b c = true → ascii_in 0 127 c = false) as Hna.
  { intros a b Ha Hc. destruct (ascii_in 0 127 c) eqn:E; [|done]. exfalso. by eapply (ascii_in_disjoint 0 127 a b). }
  assert (∀ a b, (223 < a)%N → ascii_in a b c = true → ascii_in 194 223 c = false) as Hn2.
  { intros a b Ha Hc. destruct (ascii_in 194 223 c) eqn:E; [|done]. exfalso. by eapply (ascii_in_disjoint 194 223 a b). }
  assert (∀ a b, (239 < a)%N → ascii_in a b c = true → ascii_in 224 239 c = false) as Hn3.
  { intros a b Ha Hc. destruct (ascii_in 224 239 c) eqn:E; [|done]. exfalso. by eapply (ascii_in_disjoint 224 239 a b). }
  destruct e as [|x e]; [|destruct e as [|y e]; [|destruct e; [|done]]]; cbn [wf_enc] in H.
  - pose proof H as [H1 H2]%andb_prop. change ((String c (String d "") +:+ s)%string) with (String c (String d s)).
    cbn [utf8]. by rewrite (Hna 194%N 223%N), H.
  - pose proof H as [[H1 H2]%andb_prop H3]%andb_prop.
    change ((String c (String d (String x "")) +:+ s)%string) with (String c (String d (String x s))).
    cbn [utf8]. rewrite (Hna 224%N 239%N), (Hn2 224%N 239%N), H by done. done.
  - pose proof H as [[[H1 H2]%andb_prop H3]%andb_prop H4]%andb_prop.
    change ((String c (String d (String x (String y ""))) +:+ s)%string) with (String c (String d (String x (String y s)))).
    cbn [utf8]. rewrite (Hna 240%N 244%N), (Hn2 240%N 244%N), (Hn3 240%N 244%N), H by done. done.
Qed.

Definition rune_text (r : rune) : string := match r with ValidRune e => e | InvalidByte => replacement end.

Lemma utf8_texts rs : forallb wf_rune rs = true → utf8 (string_concat (rune_text <$> rs)) = rs.
Proof.
  induction rs as [|[e|] rs IH]; [done| |done]. intros [H1 H2]%andb_prop. cbn [wf_rune] in H1.
  rewrite fmap_cons. cbn [string_concat rune_text]. by rewrite utf8_rune, IH.
Qed.

(** The cases of a decoding step: a byte that starts no rune, or a rune. *)
Lemma utf8_step s :
  s = ""%string
  ∨ (∃ c s', s = String c s' ∧ utf8 s = InvalidByte :: utf8 s')
  ∨ (∃ e s', s = (e +:+ s')%string ∧ wf_enc e = true ∧ utf8 s = ValidRune e :: utf8 s').
Proof.
  destruct s as [|c s1]; [by left|right]. cbn [utf8]. destruct (ascii_in 0 127 c) eqn:E1.
  { right. exists (String c ""), s1. split_and!; done. }
  destruct s1 as [|d s2]; [left; by exists c, ""%string|].
  destruct (ascii_in 194 223 c && ascii_in 128 191 d) eqn:E2.
  { right. exists (str2 c d), s2. split_and!; done. }
  destruct s2 as [|x s3]; [left; by eexists _, _|].
  destruct (ascii_in 224 239 c && second_ok c d && ascii_in 128 191 x) eqn:E3.
  { right. exists (str3 c d x), s3. split_and!; done. }
  destruct s3 as [|y s4]; [left; by eexists _, _|].
  destruct (ascii_in 240 244 c && second_ok c d && ascii_in 128 191 x && ascii_in 128 191 y) eqn:E4.
  { right. exists (str4 c d x y), s4. split_and!; done. }
  left. by eexists _, _.
Qed.

Lemma str_length_app a b : String.length (a +:+ b)%string = (String.length a + String.length b)%nat.
Proof. induction a as [|c a IH]; [done|]. exact (f_equal S IH). Qed.

Lemma wf_enc_nonempty e : wf_enc e = true → (0 < String.length e)%nat.
Proof. destruct e; cbn; [done|lia]. Qed.

(** Induction along the decoding. *)
Lemma utf8_ind (P : string → Prop) :
  P ""%string →
  (∀ c s, utf8 (String c s) = InvalidByte :: utf8 s → P s → P (String c s)) →
  (∀ e s, wf_enc e = true → utf8 (e +:+ s)%string = ValidRune e :: utf8 s → P s → P (e +:+ s)%string) →
  ∀ s, P s.
Proof.
  intros H0 H1 H2 s. remember (String.length s) as n eqn:Hn. revert s Hn.
  induction (lt_wf n) as [n _ IH]. intros s ->.
  destruct (utf8_step s) as [->|[(c & s' & -> & E)|(e & s' & -> & He & E)]]; [done|..].
  - apply H1; [done|]. eapply IH; [|done]. cbn. lia.
  - apply H2; [done..|]. eapply IH; [|done]. rewrite str_length_app. apply wf_enc_nonempty in He. lia.
Qed.

Definition fix_rune (r : rune) : rune := match r with ValidRune e => ValidRune e | InvalidByte => ValidRune replacement end.

Lemma utf8_fixed s : forallb wf_rune (fix_rune <$> utf8 s) = true.
Proof.
  induction s as [|c s E IH|e s He E IH] using utf8_ind; [done|..]; rewrite E, fmap_cons; cbn [forallb fix_rune wf_rune];
    by rewrite ?He, IH.
Qed.

Lemma sanitize_texts s : sanitize s = string_concat (rune_text <$> (fix_rune <$> utf8 s)).
Proof. unfold sanitize. induction (utf8 s) as [|[e|] rs IH]; [done|..]; cbn; by rewrite IH. Qed.

(** What was read back from JSON is valid. *)
Lemma sanitize_valid s : valid_utf8 (sanitize s) = true.
Proof. unfold valid_utf8. rewrite sanitize_texts, utf8_texts; apply utf8_fixed. Qed.

(** A valid string is its runes, and reading it back changes nothing. *)
Lemma valid_texts s : valid_utf8 s = true → string_concat (rune_text <$> utf8 s) = s.
Proof.
  unfold valid_utf8. induction s as [|c s E IH|e s He E IH] using utf8_ind; [done|..]; rewrite E; cbn [forallb wf_rune].
  - done.
  - intros [_ H]%andb_prop. rewrite fmap_cons. cbn [string_concat rune_text]. by rewrite IH.
Qed.

Lemma sanitize_id s : valid_utf8 s = true → sanitize s = s.
Proof.
  intros H. rewrite sanitize_texts. rewrite <- (valid_texts s H) at 2. do 2 f_equal. unfold valid_utf8 in H.
  induction (utf8 s) as [|[e|] rs IH]; [done| |done].
  apply andb_prop in H as [_ H]. rewrite fmap_cons. cbn [fix_rune]. by rewrite IH.
Qed.

Lemma utf8_inj s t : valid_utf8 s = true → valid_utf8 t = true → utf8 s = utf8 t → s = t.
Proof. intros Hs Ht E. by rewrite <- (valid_texts s Hs), <- (valid_texts t Ht), E. Qed.

(** ** Trees: values as their canonical text shows them *)

Inductive tree :=
| TAtom (text : string)
| TStr (s : string)
| TArr (l : list tree)
| TObj (m : list (string * tree)).

Fixpoint render (t : tree) : string :=
  match t with
  | TAtom a => a
  | TStr s => json_string s
  | TArr l => brackets "[" "]" (render <$> l)
  | TObj m => brackets "{" "}" ((λ kt, match kt with (k, t) => member (k, render t) end) <$> m)
  end.

Definition tree_less (a b : string * tree) : bool := string_ltb (fst a) (fst b).

(** The tree of a value: the members by key, a number as its text. *)
Fixpoint norm (v : json) : option tree :=
  match v with
  | JNull => Some (TAtom "null")
  | JBool b => Some (TAtom (if b then "true" else "false"))
  | JInt z => Some (TAtom (itoa z))
  | JNum x => TAtom <$> json_float x
  | JStr s => Some (TStr s)
  | JArr l => TArr <$> mapM norm l
  | JObj m => (λ l, TObj (sort_slice tree_less l)) <$> mapM (λ kv, match kv with (k, v) => pair k <$> norm v end) m
  end.

Section json_ind.
Context (P : json → Prop).
Context (Hnull : P JNull) (Hbool : ∀ b, P (JBool b)) (Hint : ∀ z, P (JInt z)) (Hnum : ∀ x, P (JNum x))
        (Hstr : ∀ s, P (JStr s)) (Harr : ∀ l, Forall P l → P (JArr l))
        (Hobj : ∀ m, Forall (λ kv, P (snd kv)) m → P (JObj m)).

Fixpoint json_ind' (v : json) : P v :=
  match v with
  | JNull => Hnull
  | JBool b => Hbool b
  | JInt z => Hint z
  | JNum x => Hnum x
  | JStr s => Hstr s
  | JArr l => Harr l ((fix go l := match l return Forall P l with
                                   | [] => List.Forall_nil _
                                   | v :: l => List.Forall_cons _ _ _ (json_ind' v) (go l) end) l)
  | JObj m => Hobj m ((fix go m := match m return Forall (λ kv, P (snd kv)) m with
                                   | [] => List.Forall_nil _
                                   | (k, v) :: m => List.Forall_cons _ (k, v) _ (json_ind' v) (go m) end) m)
  end.
End json_ind.

Lemma sort_slice_map {A B} (f : A → B) (less : A → A → bool) (less' : B → B → bool) l :
  (∀ x y, less' (f x) (f y) = less x y) → sort_slice less' (f <$> l) = f <$> sort_slice less l.
Proof.
  intros H. assert (∀ x l, insert_sorted less' (f x) (f <$> l) = f <$> insert_sorted less x l) as Hi.
  { intros x k. induction k as [|y k IH]; [done|]. rewrite fmap_cons. cbn [insert_sorted]. rewrite H.
    destruct (less y x); rewrite !fmap_cons, ?IH; done. }
  unfold sort_slice. induction l as [|x l IH]; [done|]. rewrite fmap_cons. cbn [foldr]. by rewrite IH, Hi.
Qed.

Lemma mapM_fmap_option {A B C} (f : A → option B) (g : A → option C) (h : C → B) l :
  Forall (λ x, f x = h <$> g x) l → mapM f l = fmap h <$> mapM g l.
Proof.
  induction 1 as [|x l Hx _ IH]; [done|]. cbn. rewrite Hx, IH. destruct (g x); [|done]. cbn. by destruct (mapM g l).
Qed.

(** The canonical text of a value is the text of its tree. *)
Lemma canonicalEncode_norm v : canonicalEncode v = render <$> norm v.
Proof.
  induction v as [|b|z|x|s|l IH|m IH] using json_ind'; cbn [canonicalEncode norm marshal]; try done.
  - by destruct (json_float x).
  - rewrite (mapM_fmap_option _ norm render) by done. by destruct (mapM norm l).
  - rewrite (mapM_fmap_option _ (λ kv, match kv with (k, v) => pair k <$> norm v end) (λ kt, (fst kt, render (snd kt)))).
    + destruct (mapM _ m) as [l|]; [|done]. cbn. f_equal. unfold brackets. do 3 f_equal.
      rewrite (sort_slice_map _ tree_less) by done.
      rewrite <- list_fmap_compose. apply list_fmap_ext. by intros i [k t] _.
    + eapply Forall_impl; [exact IH|]. intros [k v] Hv. cbn in *. rewrite Hv. by destruct (norm v).
Qed.

(** Atoms have no delimiter in them and do not start a string, array or object. *)
Definition atom_char (c : Ascii.ascii) : bool :=
  negb (bool_decide (Ascii.N_of_ascii c ∈ [10; 34; 44; 58; 91; 93; 123; 125]%N)).
Definition atom_ok (a : string) : bool := negb (bool_decide (a = ""%string)) && string_forall atom_char a.

Fixpoint tree_ok (t : tree) : bool :=
  match t with
  | TAtom a => atom_ok a
  | TStr s => valid_utf8 s
  | TArr l => forallb tree_ok l
  | TObj m => forallb (λ kt, match kt with (k, t) => valid_utf8 k && tree_ok t end) m
  end.

(** What follows a value: nothing, or a delimiter. *)
Definition stop (s : string) : bool :=
  match s with EmptyString => true | String c _ => bool_decide (Ascii.N_of_ascii c ∈ [44; 93; 125]%N) end.

Lemma stop_atom c s : stop (String c s) = true → atom_char c = false.
Proof.
  unfold stop, atom_char. intros H%bool_decide_eq_true. apply negb_false_iff, bool_decide_eq_true.
  set_solver.
Qed.

Lemma atoms_app_inj a b x y :
  string_forall atom_char a = true → string_forall atom_char b = true → stop x = true → stop y = true →
  (a +:+ x = b +:+ y)%string → a = b ∧ x = y.
Proof.
  revert b. induction a as [|c a IH]; intros [|d b] Ha Hb Hx Hy E; cbn [string_forall] in *.
  - done.
  - change (x = String d (b +:+ y)) in E. rewrite E in Hx. apply stop_atom in Hx. rewrite Hx in Hb. done.
  - change (String c (a +:+ x) = y)%string in E. rewrite <- E in Hy. apply stop_atom in Hy. rewrite Hy in Ha. done.
  - apply andb_prop in Ha as [_ Ha], Hb as [_ Hb].
    change (String c (a +:+ x) = String d (b +:+ y))%string in E. injection E as -> E.
    destruct (IH b Ha Hb Hx Hy E) as [-> ->]. done.
Qed.

(** ** Lists of items between brackets *)

Section items.
Context {X : Type} (r : X → string) (ok : X → bool) (close : Ascii.ascii).
Context (Hclose : stop (String close EmptyString) = true) (Hcomma : close ≠ chr 44).
Context (Hhead : ∀ a, ok a = true → ∃ h s, r a = String h s ∧ h ≠ close).

(** An item is told from any other by its text and what follows. *)
Definition readable (a : X) : Prop :=
  ∀ b x y, ok a = true → ok b = true → stop x = true → stop y = true →
    (r a +:+ x = r b +:+ y)%string → a = b ∧ x = y.

Fixpoint join_tail (l : list X) : string :=
  match l with [] => EmptyString | a :: l => String (chr 44) (r a +:+ join_tail l) end.

Lemma join_cons a l : string_join "," (r <$> a :: l) = (r a +:+ join_tail l)%string.
Proof.
  revert a. induction l as [|b l IH]; intros a; [symmetry; apply str_app_nil|].
  change (string_join "," (r <$> a :: b :: l)) with (r a +:+ ("," +:+ string_join "," (r <$> b :: l)))%string.
  by rewrite IH.
Qed.

Lemma stop_tail l x : stop (join_tail l +:+ String close x)%string = true.
Proof. destruct l; [exact Hclose|done]. Qed.

Lemma join_tail_inj l1 l2 x y :
  Forall readable l1 → forallb ok l1 = true → forallb ok l2 = true →
  (join_tail l1 +:+ String close x = join_tail l2 +:+ String close y)%string → l1 = l2 ∧ x = y.
Proof.
  intros Hr. revert l2. induction Hr as [|a l1 Ha _ IH]; intros [|b l2] H1 H2 E.
  - injection E as E. done.
  - apply (f_equal head_char) in E. injection E as E. by destruct Hcomma.
  - apply (f_equal head_char) in E. injection E as E. by destruct Hcomma.
  - apply andb_prop in H1 as [Ha1 H1], H2 as [Hb H2].
    change (String (chr 44) ((r a +:+ join_tail l1) +:+ String close x)
            = String (chr 44) ((r b +:+ join_tail l2) +:+ String close y))%string in E.
    injection E as E. rewrite <- !str_app_assoc in E.
    apply Ha in E as [-> E]; [|done|done|apply stop_tail..]. destruct (IH l2 H1 H2 E) as [-> ->]. done.
Qed.

Lemma join_inj l1 l2 x y :
  Forall readable l1 → forallb ok l1 = true → forallb ok l2 = true →
  (string_join "," (r <$> l1) +:+ String close x = string_join "," (r <$> l2) +:+ String close y)%string →
  l1 = l2 ∧ x = y.
Proof.
  intros Hr H1 H2 E.
  destruct l1 as [|a l1], l2 as [|b l2]; rewrite ?join_cons in E.
  - injection E as E. done.
  - apply andb_prop in H2 as [H2 _]. destruct (Hhead b H2) as (h & s & Hb & Hh).
    rewrite Hb in E. apply (f_equal head_char) in E. injection E as E. congruence.
  - apply andb_prop in H1 as [H1 _]. destruct (Hhead a H1) as (h & s & Ha & Hh).
    rewrite Ha in E. apply (f_equal head_char) in E. injection E as E. congruence.
  - apply (join_tail_inj (a :: l1) (b :: l2)); [done..|]. exact (f_equal (String (chr 44)) E).
Qed.
End items.

Section tree_ind.
Context (P : tree → Prop).
Context (Hatom : ∀ a, P (TAtom a)) (Hstr : ∀ s, P (TStr s)) (Harr : ∀ l, Forall P l → P (TArr l))
        (Hobj : ∀ m, Forall (λ kv, P (snd kv)) m → P (TObj m)).

Fixpoint tree_ind' (v : tree) : P v :=
  match v with
  | TAtom a => Hatom a
  | TStr s => Hstr s
  | TArr l => Harr l ((fix go l := match l return Forall P l with
                                   | [] => List.Forall_nil _
                                   | v :: l => List.Forall_cons _ _ _ (tree_ind' v) (go l) end) l)
  | TObj m => Hobj m ((fix go m := match m return Forall (λ kv, P (snd kv)) m with
                                   | [] => List.Forall_nil _
                                   | (k, v) :: m => List.Forall_cons _ (k, v) _ (tree_ind' v) (go m) end) m)
  end.
End tree_ind.

(** The first character of a value's text. *)
Definition first_ok (t : tree) (h : Ascii.ascii) : bool :=
  match t with
  | TAtom _ => atom_char h
  | TStr _ => bool_decide (h = chr 34)
  | TArr _ => bool_decide (h = chr 91)
  | TObj _ => bool_decide (h = chr 123)
  end.

Lemma render_head t : tree_ok t = true → ∃ h s, render t = String h s ∧ first_ok t h = true.
Proof.
  destruct t as [a|s|l|m]; cbn [tree_ok render first_ok].
  - unfold atom_ok. intros [H1 H2]%andb_prop. destruct a as [|c a]; [done|]. cbn in H2. apply andb_prop in H2 as [H2 _].
    by exists c, a.
  - intros _. eexists _, _. split; [reflexivity|done].
  - intros _. eexists _, _. split; [reflexivity|done].
  - intros _. eexists _, _. split; [reflexivity|done].
Qed.

Definition member_text (kt : string * tree) : string := match kt with (k, t) => member (k, render t) end.
Definition member_ok (kt : string * tree) : bool := match kt with (k, t) => valid_utf8 k && tree_ok t end.

Lemma brackets_app o c l x :
  (brackets o c l +:+ x = o +:+ (string_join "," l +:+ (c +:+ x)))%string.
Proof. unfold brackets. by rewrite <- !str_app_assoc. Qed.

(** A text determines its tree. *)
Lemma render_app_inj t1 : readable render tree_ok t1.
Proof.
  assert (∀ t, tree_ok t = true → ∃ h s, render t = String h s ∧ h ≠ chr 93) as Hhead.
  { intros t Ht. destruct (render_head t Ht) as (h & s & Hr & Hf). exists h, s. split; [done|]. intros ->.
    destruct t; by vm_compute in Hf. }
  induction t1 as [a|s|l IH|m IH] using tree_ind'; intros t2 x y H1 H2 Hx Hy E;
    destruct (render_head _ H1) as (h1 & s1 & E1 & F1), (render_head _ H2) as (h2 & s2 & E2 & F2);
    assert (h1 = h2) as <- by (rewrite E1, E2 in E; apply (f_equal head_char) in E; by injection E);
    clear E1 E2; destruct t2 as [a'|s'|l'|m']; cbn [first_ok] in F1, F2; bool_to_prop; subst; try done.
  - cbn [tree_ok render] in *. unfold atom_ok in *. apply andb_prop in H1 as [_ H1], H2 as [_ H2].
    apply atoms_app_inj in E as [-> ->]; done.
  - cbn [tree_ok render] in *. apply json_string_app_inj in E as [E ->]; [|done..]. split; [|done].
    f_equal. by apply utf8_inj.
  - cbn [tree_ok render] in *. rewrite !brackets_app in E. apply str_app_cancel in E.
    apply (join_inj render tree_ok (chr 93)) in E as [-> ->]; done.
  - cbn [tree_ok render] in *. rewrite !brackets_app in E. apply str_app_cancel in E.
    apply (join_inj member_text member_ok (chr 125)) in E as [-> ->]; try done.
    + intros [k t] _. eexists _, _. split; [reflexivity|done].
    + eapply Forall_impl; [exact IH|]. intros [k t] Ht [k' t'] x' y' H1' H2' Hx' Hy' E'.
      cbn [snd] in Ht. unfold member_text, member in E'. cbn [fst snd] in E'. rewrite <- !str_app_assoc in E'.
      apply andb_prop in H1' as [Hk Ht1], H2' as [Hk' Ht2].
      apply json_string_app_inj in E' as [Ek E']; [|done..]. apply utf8_inj in Ek as ->; [|done..].
      apply str_app_cancel in E'. apply Ht in E' as [-> ->]; done.
Qed.

Lemma render_inj t1 t2 : tree_ok t1 = true → tree_ok t2 = true → render t1 = render t2 → t1 = t2.
Proof.
  intros H1 H2 E. apply (render_app_inj t1 t2 "" "" H1 H2); [done..|]. by rewrite E.
Qed.

(** ** Numbers are atoms *)

Definition atom_text (s : string) : bool := string_forall atom_char s.

Lemma atom_text_app a b : atom_text (a +:+ b)%string = atom_text a && atom_text b.
Proof. unfold atom_text. induction a as [|c a IH]; [done|]. cbn [string_forall]. rewrite <- andb_assoc, <- IH. done. Qed.

Lemma atom_text_no_char s :
  forallb (λ n, no_char (chr n) s) [10; 34; 44; 58; 91; 93; 123; 125]%N = true → atom_text s = true.
Proof.
  unfold atom_text, no_char. induction s as [|c s IH]; [done|]. cbn [string_forall forallb]. intros H.
  repeat (apply andb_prop in H as [?H H]). rewrite IH; [|cbn [forallb string_forall]; rewrite ?andb_true_r;
    repeat match goal with H : (_ && _) = true |- _ => apply andb_prop in H as [? ?] end;
    repeat (apply andb_true_intro; split); done].
  rewrite andb_true_r. unfold atom_char. apply negb_true_iff, bool_decide_eq_false. intros Hin.
  assert (c = chr (Ascii.N_of_ascii c)) as Hc by (unfold chr; by rewrite Ascii.ascii_N_embedding).
  repeat match goal with H : (_ && _) = true |- _ => apply andb_prop in H as [? ?] end.
  repeat (apply elem_of_cons in Hin as [Hn|Hin]; [rewrite Hn in Hc; subst c; bool_to_prop; done|]).
  by apply elem_of_nil in Hin.
Qed.

Lemma atom_itoa z : atom_text (itoa z) = true.
Proof. apply atom_text_no_char. cbn [forallb]. rewrite !no_char_itoa by done. done. Qed.

Lemma pretty_go_nonempty x s : s ≠ ""%string → pretty_N_go x s ≠ ""%string.
Proof.
  revert s. induction (N.lt_wf_0 x) as [x _ IH]. intros s Hs.
  assert (x = 0 ∨ 0 < x)%N as [->|Hx] by lia; [by rewrite pretty_N_go_0|].
  rewrite pretty_N_go_step by done. apply IH; [|done]. apply N.div_lt; lia.
Qed.

Lemma pretty_N_nonempty (x : N) : pretty x ≠ ""%string.
Proof.
  unfold pretty, pretty_N. destruct (decide (x = 0)%N); [done|].
  rewrite pretty_N_go_step by lia. by apply pretty_go_nonempty.
Qed.

Lemma itoa_nonempty z : itoa z ≠ ""%string.
Proof. unfold itoa, pretty, pretty_Z. destruct z as [|p|p]; [done|apply pretty_N_nonempty|done]. Qed.

Lemma atom_substring n m s : atom_text s = true → atom_text (String.substring n m s) = true.
Proof.
  unfold atom_text. revert n m. induction s as [|c s IH]; intros [|n] [|m]; cbn; try done;
    intros [Hc H]%andb_prop; rewrite ?Hc; cbn [andb]; by apply IH.
Qed.

Lemma atom_drop_zeros s : atom_text s = true → atom_text (drop_zeros s) = true.
Proof.
  unfold atom_text. induction s as [|c s IH]; [done|]. cbn [drop_zeros string_forall]. intros [Hc H]%andb_prop.
  specialize (IH H). destruct (drop_zeros s) as [|d r]; [case_bool_decide; [done|]|]; cbn [string_forall] in *;
    by rewrite Hc, ?IH.
Qed.

Lemma atom_pad_left n s : atom_text s = true → atom_text (pad_left n s) = true.
Proof.
  intros H. unfold pad_left. rewrite atom_text_app, H, andb_true_r.
  induction (n - String.length s)%nat as [|k IH]; [done|]. cbn [replicate string_concat]. by rewrite atom_text_app, IH.
Qed.

Lemma fixed_text_ok q s : atom_text (fixed_text q s) = true ∧ fixed_text q s ≠ ""%string.
Proof.
  unfold fixed_text. destruct (0 <=? s); [split; [apply atom_itoa|apply itoa_nonempty]|]. split.
  - rewrite !atom_text_app, atom_itoa, atom_pad_left by apply atom_itoa. done.
  - pose proof (itoa_nonempty (q / 10 ^ (- s))) as Hn. by destruct (itoa (q / 10 ^ (- s))).
Qed.

Lemma scientific_text_ok q s : atom_text (scientific_text q s) = true ∧ scientific_text q s ≠ ""%string.
Proof.
  unfold scientific_text. cbv zeta. set (ds := itoa q).
  assert (atom_text ds = true) as Hd by apply atom_itoa. set (x := _ - 1). set (frac := drop_trailing _).
  assert (atom_text frac = true) as Hf by (apply atom_drop_zeros, atom_substring, Hd). split.
  - rewrite !atom_text_app, atom_substring by done. cbn [andb]. apply andb_true_intro. split.
    + case_bool_decide; [done|]. by rewrite atom_text_app, Hf.
    + destruct (x <? 0); rewrite atom_text_app; [by rewrite atom_itoa|]. by rewrite atom_pad_left by apply atom_itoa.
  - pose proof (itoa_nonempty q) as Hn. fold ds in Hn. by destruct ds.
Qed.

Lemma atom_ok_intro a : atom_text a = true → a ≠ ""%string → atom_ok a = true.
Proof. intros H1 H2. unfold atom_ok. by rewrite bool_decide_false. Qed.

Lemma json_float_atom x t : json_float x = Some t → atom_ok t = true.
Proof.
  destruct x as [neg|neg| |neg m e]; cbn [json_float]; try done.
  - intros [= <-]. by destruct neg.
  - destruct (shortest _ _) as [q s]. intros [= <-].
    assert (∀ b, atom_text (if b : bool then scientific_text q s else fixed_text q s) = true
                 ∧ (if b then scientific_text q s else fixed_text q s) ≠ ""%string) as H.
    { intros [|]; [apply scientific_text_ok|apply fixed_text_ok]. }
    match goal with |- atom_ok (_ +:+ (if ?b then _ else _))%string = true => destruct (H b) as [H1 H2] end.
    apply atom_ok_intro; [by rewrite atom_text_app, H1; destruct neg|]. by destruct neg.
Qed.

(** ** The canonical text binds the value *)

(** Values read back from JSON. *)
Fixpoint read_back (v : json) : bool :=
  match v with
  | JInt _ => false
  | JStr s => valid_utf8 s
  | JArr l => forallb read_back l
  | JObj m => forallb (λ kv, match kv with (k, v) => valid_utf8 k && read_back v end) m
  | _ => true
  end.

Lemma as_any_read_back v : read_back (as_any v) = true.
Proof.
  induction v as [|b|z|x|s|l IH|m IH] using json_ind'; cbn [as_any read_back]; try done.
  - apply sanitize_valid.
  - induction IH as [|v l Hv _ IHl]; [done|]. cbn. by rewrite Hv, IHl.
  - induction IH as [|[k v] m Hv _ IHm]; [done|]. cbn [fmap list_fmap forallb] in *. cbn in Hv. by rewrite sanitize_valid, Hv, IHm.
Qed.

Lemma sort_forallb {A} (less : A → A → bool) (p : A → bool) l : forallb p l = true → forallb p (sort_slice less l) = true.
Proof.
  rewrite !forallb_forall. intros H x Hx. apply H. apply list_elem_of_In. apply list_elem_of_In in Hx.
  by apply (elem_of_sort_slice less).
Qed.

Lemma mapM_forallb {A B} (f : A → option B) (p : A → bool) (q : B → bool) l k :
  Forall (λ a, ∀ b, p a = true → f a = Some b → q b = true) l → forallb p l = true → mapM f l = Some k →
  forallb q k = true.
Proof.
  intros H. revert k. induction H as [|a l Ha _ IH]; intros k Hp; cbn; [by intros [= <-]|].
  apply andb_prop in Hp as [Hpa Hp]. destruct (f a) as [b|] eqn:E; [|done]. cbn. destruct (mapM f l) as [k'|]; [|done].
  intros [= <-]. cbn. by rewrite (Ha b), IH.
Qed.

Lemma norm_ok v t : read_back v = true → norm v = Some t → tree_ok t = true.
Proof.
  revert t. induction v as [|b|z|x|s|l IH|m IH] using json_ind'; intros t; cbn [read_back norm].
  - by intros _ [= <-].
  - intros _ [= <-]. by destruct b.
  - done.
  - intros _. destruct (json_float x) as [a|] eqn:E; [|done]. intros [= <-]. by eapply json_float_atom.
  - by intros H [= <-].
  - intros H. destruct (mapM norm l) as [k|] eqn:E; [|done]. intros [= <-]. cbn [tree_ok].
    eapply mapM_forallb; [|exact H|exact E]. eapply Forall_impl; [exact IH|]. cbn. eauto.
  - intros H. destruct (mapM _ m) as [k|] eqn:E; [|done]. intros [= <-]. cbn [tree_ok]. apply sort_forallb.
    eapply mapM_forallb; [|exact H|exact E]. eapply Forall_impl; [exact IH|]. intros [k' v] Hv kt Hp. cbn in *.
    apply andb_prop in Hp as [Hk Hp]. destruct (norm v) as [t|]; [|done]. intros [= <-]. by rewrite Hk, (Hv t).
Qed.

(** Two values with one canonical text have one tree: the same strings, the same
    members under the same keys, the same numbers as texts. *)
Lemma canonicalize_inj v w a :
  canonicalize v = Some a → canonicalize w = Some a → ∃ t, norm (as_any v) = Some t ∧ norm (as_any w) = Some t.
Proof.
  unfold canonicalize. destruct (marshal v); [|done]. destruct (marshal w); [|done].
  rewrite !canonicalEncode_norm. destruct (norm (as_any v)) as [t|] eqn:Et; [|done].
  destruct (norm (as_any w)) as [u|] eqn:Eu; [|done]. intros [= E1] [= E2]. exists t. split; [done|]. f_equal.
  apply render_inj; [eapply norm_ok, Eu; apply as_any_read_back|eapply norm_ok, Et; apply as_any_read_back|congruence].
Qed.

(** ** Marshalling fails on NaN and the infinities only *)

Definition finite (x : float64) : bool := match x with S754_nan | S754_infinity _ => false | _ => true end.

Fixpoint finite_json (v : json) : bool :=
  match v with
  | JNum x => finite x
  | JArr l => forallb finite_json l
  | JObj m => forallb (λ kv, match kv with (_, v) => finite_json v end) m
  | _ => true
  end.

Lemma json_float_finite x : finite x = true → is_Some (json_float x).
Proof. destruct x; try done. cbn. destruct (shortest _ _). eauto. Qed.

Lemma mapM_total {A B} (f : A → option B) (p : A → bool) l :
  Forall (λ a, p a = true → is_Some (f a)) l → forallb p l = true → is_Some (mapM f l).
Proof.
  induction 1 as [|a l Ha _ IH]; [eauto|]. cbn. intros [Hp H]%andb_prop. destruct (Ha Hp) as [b ->]. destruct (IH H) as [k ->].
  cbn. eauto.
Qed.

Lemma marshal_total v : finite_json v = true → is_Some (marshal v).
Proof.
  induction v as [|b|z|x|s|l IH|m IH] using json_ind'; cbn [finite_json marshal]; eauto using json_float_finite; intros H.
  - destruct (mapM_total marshal finite_json l IH H) as [k ->]. cbn. eauto.
  - destruct (mapM_total (λ kv, match kv with (k, v) => pair k <$> marshal v end)
                (λ kv, match kv with (_, v) => finite_json v end) m) as [k ->]; [|exact H|cbn; eauto].
    eapply Forall_impl; [exact IH|]. intros [k v] Hv Hf. cbn in *. destruct (Hv Hf) as [t ->]. cbn. eauto.
Qed.

Lemma canonicalEncode_total v : finite_json v = true → is_Some (canonicalEncode v).
Proof.
  induction v as [|b|z|x|s|l IH|m IH] using json_ind'; cbn [finite_json canonicalEncode marshal];
    eauto using json_float_finite; intros H.
  - destruct (mapM_total canonicalEncode finite_json l IH H) as [k ->]. cbn. eauto.
  - destruct (mapM_total (λ kv, match kv with (k, v) => pair k <$> canonicalEncode v end)
                (λ kv, match kv with (_, v) => finite_json v end) m) as [k ->]; [|exact H|cbn; eauto].
    eapply Forall_impl; [exact IH|]. intros [k v] Hv Hf. cbn in *. destruct (Hv Hf) as [t ->]. cbn. eauto.
Qed.

(** Integers below [2^53] are finite as binary64 values. *)
Lemma digits_shift k p : Z.pos (digits2_pos (Pos.iter xO p k)) = Z.pos (digits2_pos p) + Z.pos k.
Proof.
  induction k as [|k IH] using Pos.peano_ind; [cbn; lia|].
  rewrite Pos.iter_succ. cbn [digits2_pos]. lia.
Qed.

Lemma digits_bound p n : 0 <= n → Z.pos p < 2 ^ n → Z.pos (digits2_pos p) <= n.
Proof.
  revert n. induction p as [p IH|p IH|]; intros n Hn Hp; cbn [digits2_pos].
  - destruct (Z.eq_dec n 0) as [->|]; [cbn in Hp; lia|]. specialize (IH (n - 1) ltac:(lia)).
    replace (2 ^ n) with (2 * 2 ^ (n - 1)) in Hp by (rewrite <- Z.pow_succ_r by lia; f_equal; lia). lia.
  - destruct (Z.eq_dec n 0) as [->|]; [cbn in Hp; lia|]. specialize (IH (n - 1) ltac:(lia)).
    replace (2 ^ n) with (2 * 2 ^ (n - 1)) in Hp by (rewrite <- Z.pow_succ_r by lia; f_equal; lia). lia.
  - destruct (Z.eq_dec n 0) as [->|]; [cbn in Hp; lia|lia].
Qed.

Lemma round_aux_exact sx m e :
  e <= 0 → -1074 <= e → Z.pos (digits2_pos m) = 53 → finite (binary_round_aux 53 1024 sx (Z.pos m) e loc_Exact) = true.
Proof.
  intros He1 He2 Hd. unfold binary_round_aux.
  assert (∀ mz, mz = Z.pos m → shr_fexp 53 1024 mz e loc_Exact = (Build_shr_record (Z.pos m) false false, e)) as Hshr.
  { intros mz ->. unfold shr_fexp, shr_record_of_loc, shr. cbn [Zdigits2]. rewrite Hd. unfold fexp, SpecFloat.emin.
    replace (Z.max (53 + e - 53) (3 - 1024 - 53) - e) with 0 by lia. done. }
  rewrite Hshr by done. cbn [shr_m loc_of_shr_record round_nearest_even]. rewrite Hshr by done. cbn [shr_m].
  destruct (e <=? 1024 - 53) eqn:E; [done|]. apply Z.leb_gt in E. lia.
Qed.

Lemma round_small sx p : Z.pos p < 2 ^ 53 → finite (binary_round 53 1024 sx p 0) = true.
Proof.
  intros Hp. pose proof (digits_bound p 53 ltac:(lia) Hp) as Hd. unfold binary_round, shl_align.
  unfold fexp, SpecFloat.emin. set (d := Z.pos (digits2_pos p)) in *.
  replace (Z.max (d + 0 - 53) (3 - 1024 - 53) - 0) with (d - 53) by (pose proof (Pos2Z.is_pos (digits2_pos p)); lia).
  pose proof (Pos2Z.is_pos (digits2_pos p)).
  destruct (d - 53) as [|k|k] eqn:E.
  - apply round_aux_exact; [lia|lia|]. fold d. lia.
  - lia.
  - apply round_aux_exact; [lia|lia|]. rewrite digits_shift. fold d. lia.
Qed.

Lemma f_of_Z_finite z : - 2 ^ 53 < z < 2 ^ 53 → finite (f_of_Z z) = true.
Proof.
  intros Hz. unfold f_of_Z, binary_normalize. destruct z as [|p|p]; [done|apply round_small; lia|apply round_small; lia].
Qed.

(** ** The text of [json.Marshal] binds values with valid strings *)

(** The tree of a value, its members in the order they are written. *)
Fixpoint tree_of (v : json) : option tree :=
  match v with
  | JArr l => TArr <$> mapM tree_of l
  | JObj m => TObj <$> mapM (λ kv, match kv with (k, v) => pair k <$> tree_of v end) m
  | v => norm v
  end.

Lemma marshal_tree v : marshal v = render <$> tree_of v.
Proof.
  induction v as [|b|z|x|s|l IH|m IH] using json_ind'; cbn [marshal tree_of norm]; try done.
  - by destruct (json_float x).
  - rewrite (mapM_fmap_option _ tree_of render) by done. by destruct (mapM tree_of l).
  - rewrite (mapM_fmap_option _ (λ kv, match kv with (k, v) => pair k <$> tree_of v end) (λ kt, (fst kt, render (snd kt)))).
    + destruct (mapM _ m) as [l|]; [|done]. cbn. f_equal. unfold brackets. do 3 f_equal.
      rewrite <- list_fmap_compose. apply list_fmap_ext. by intros i [k t] _.
    + eapply Forall_impl; [exact IH|]. intros [k v] Hv. cbn in *. rewrite Hv. by destruct (tree_of v).
Qed.

Fixpoint valid_strings (v : json) : bool :=
  match v with
  | JStr s => valid_utf8 s
  | JArr l => forallb valid_strings l
  | JObj m => forallb (λ kv, match kv with (k, v) => valid_utf8 k && valid_strings v end) m
  | _ => true
  end.

Lemma tree_of_ok v t : valid_strings v = true → tree_of v = Some t → tree_ok t = true.
Proof.
  revert t. induction v as [|b|z|x|s|l IH|m IH] using json_ind'; intros t; cbn [valid_strings tree_of norm].
  - by intros _ [= <-].
  - intros _ [= <-]. by destruct b.
  - intros _ [= <-]. apply atom_ok_intro; [apply atom_itoa|apply itoa_nonempty].
  - intros _. destruct (json_float x) as [a|] eqn:E; [|done]. intros [= <-]. by eapply json_float_atom.
  - by intros H [= <-].
  - intros H. destruct (mapM tree_of l) as [k|] eqn:E; [|done]. intros [= <-]. cbn [tree_ok].
    eapply mapM_forallb; [|exact H|exact E]. eapply Forall_impl; [exact IH|]. cbn. eauto.
  - intros H. destruct (mapM _ m) as [k|] eqn:E; [|done]. intros [= <-]. cbn [tree_ok].
    eapply mapM_forallb; [|exact H|exact E]. eapply Forall_impl; [exact IH|]. intros [k' v] Hv kt Hp. cbn in *.
    apply andb_prop in Hp as [Hk Hp]. destruct (tree_of v) as [t|]; [|done]. intros [= <-]. by rewrite Hk, (Hv t).
Qed.

Lemma marshal_inj v w a :
  valid_strings v = true → valid_strings w = true → marshal v = Some a → marshal w = Some a →
  ∃ t, tree_of v = Some t ∧ tree_of w = Some t.
Proof.
  rewrite !marshal_tree. intros Hv Hw. destruct (tree_of v) as [t|] eqn:Et; [|done].
  destruct (tree_of w) as [u|] eqn:Eu; [|done]. intros [= E1] [= E2]. exists t. split; [done|]. f_equal.
  apply render_inj; [eapply tree_of_ok, Eu; done|eapply tree_of_ok, Et; done|congruence].
Qed.

(** The member of an object under a key, the first one. *)
Fixpoint assoc {A} (k : string) (m : list (string * A)) : option A :=
  match m with [] => None | (k', v) :: m => if bool_decide (k' = k) then Some v else assoc k m end.

Lemma mapM_assoc (m : list (string * json)) l k :
  mapM (λ kv, match kv with (k, v) => pair k <$> tree_of v end) m = Some l →
  assoc k l = (assoc k m) ≫= tree_of.
Proof.
  revert l. induction m as [|[k' v] m IH]; intros l; cbn; [by intros [= <-]|].
  destruct (tree_of v) as [t|] eqn:Et; [|done]. cbn. destruct (mapM _ m) as [l'|]; [|done]. intros [= <-]. cbn.
  destruct (bool_decide (k' = k)); [done|]. by apply IH.
Qed.

(** Objects with one text agree on every member. *)
Lemma tree_of_member m m' t k :
  tree_of (JObj m) = Some t → tree_of (JObj m') = Some t →
  (assoc k m ≫= tree_of) = (assoc k m' ≫= tree_of).
Proof.
  cbn [tree_of]. destruct (mapM _ m) as [l|] eqn:E; [|done]. destruct (mapM _ m') as [l'|] eqn:E'; [|done].
  intros [= <-] [= Hl]. rewrite <- (mapM_assoc _ _ k E), <- (mapM_assoc _ _ k E'). congruence.
Qed.

Lemma assoc_app {A} k (m m' : list (string * A)) :
  assoc k (m ++ m') = match assoc k m with Some v => Some v | None => assoc k m' end.
Proof. induction m as [|[k' v] m IH]; cbn; [done|]. by case_bool_decide. Qed.
