(* ===== verification/Sha256.v ===== *)
(** * SHA-256 ([crypto/sha256]), FIPS 180-4, executable on byte lists

    Words are integers below [2^32] with the wrap-around written out. The proofs
    of the other files use only that the digest has 32 bytes
    ([length_sha256]); the function is transparent so that concrete inputs
    can be evaluated. *)

From S2P Require Import Prelude GoLib.

Local Open Scope Z_scope.

Definition w32 (z : Z) : Z := Z.land z 4294967295.
Definition rotr (n x : Z) : Z := Z.lor (Z.shiftr x n) (w32 (Z.shiftl x (32 - n))).
Definition lnot32 (x : Z) : Z := Z.lxor x 4294967295.

Definition sha_ch (x y z : Z) : Z := Z.lxor (Z.land x y) (Z.land (lnot32 x) z).
Definition sha_maj (x y z : Z) : Z := Z.lxor (Z.lxor (Z.land x y) (Z.land x z)) (Z.land y z).
Definition big_sigma0 (x : Z) : Z := Z.lxor (Z.lxor (rotr 2 x) (rotr 13 x)) (rotr 22 x).
Definition big_sigma1 (x : Z) : Z := Z.lxor (Z.lxor (rotr 6 x) (rotr 11 x)) (rotr 25 x).
Definition small_sigma0 (x : Z) : Z := Z.lxor (Z.lxor (rotr 7 x) (rotr 18 x)) (Z.shiftr x 3).
Definition small_sigma1 (x : Z) : Z := Z.lxor (Z.lxor (rotr 17 x) (rotr 19 x)) (Z.shiftr x 10).

(** The round constants are the first 32 bits of the fractional parts of the cube
    roots of the first 64 primes; they are computed from that definition. *)
Definition sha_prime (n : nat) : bool :=
  forallb (λ d, negb (n mod d =? 0)%nat) (seq 2 (n - 2)).

(** The integer cube root of [n], one bit at a time from bit [k] down. *)
Fixpoint cube_root (k : nat) (n r : Z) : Z :=
  match k with
  | O => r
  | S k' => let r' := r + 2 ^ Z.of_nat k' in cube_root k' n (if r' * r' * r' <=? n then r' else r)
  end.

Definition sha_k : list Z := Eval vm_compute in
  (λ p, w32 (cube_root 36 (Z.of_nat p * 2 ^ 96) 0)) <$> List.filter sha_prime (seq 2 310).

(** The eight working variables / the hash state. *)
Record sha_state := ShaState { sa : Z; sb : Z; sc : Z; sd : Z; se : Z; sf : Z; sg : Z; sh : Z }.

Definition sha_init : sha_state :=
  ShaState 0x6a09e667 0xbb67ae85 0x3c6ef372 0xa54ff53a 0x510e527f 0x9b05688c 0x1f83d9ab 0x5be0cd19.

Definition sha_round (s : sha_state) (kw : Z * Z) : sha_state :=
  let t1 := w32 (sh s + big_sigma1 (se s) + sha_ch (se s) (sf s) (sg s) + kw.1 + kw.2) in
  let t2 := w32 (big_sigma0 (sa s) + sha_maj (sa s) (sb s) (sc s)) in
  ShaState (w32 (t1 + t2)) (sa s) (sb s) (sc s) (w32 (sd s + t1)) (se s) (sf s) (sg s).

(** The message schedule, as the window of its last sixteen words: [n] more
    words follow the window [w]. *)
Fixpoint sha_schedule (n : nat) (w : list Z) : list Z :=
  match n, w with
  | S n', w0 :: w' =>
      let x := w32 (small_sigma1 (nth 13 w' 0) + nth 8 w' 0 + small_sigma0 (nth 0 w' 0) + w0) in
      w0 :: sha_schedule n' (w' ++ [x])
  | _, _ => w
  end.

Definition sha_block (s : sha_state) (w : list Z) : sha_state :=
  let r := foldl sha_round s (zip sha_k (sha_schedule 48 w)) in
  ShaState (w32 (sa s + sa r)) (w32 (sb s + sb r)) (w32 (sc s + sc r)) (w32 (sd s + sd r))
           (w32 (se s + se r)) (w32 (sf s + sf r)) (w32 (sg s + sg r)) (w32 (sh s + sh r)).

Definition sha_pad (m : bytes) : bytes :=
  let n := Z.of_nat (length m) in
  m ++ [Byte.x80] ++ replicate (Z.to_nat ((55 - n) mod 64)) Byte.x00 ++ be_uint64 (8 * n).

Fixpoint to_words (b : bytes) : list Z :=
  match b with
  | b0 :: b1 :: b2 :: b3 :: b' =>
      (((byte_to_Z b0 * 256 + byte_to_Z b1) * 256 + byte_to_Z b2) * 256 + byte_to_Z b3) :: to_words b'
  | _ => []
  end.

(** Sixteen words per block; [fuel] bounds the number of blocks. *)
Fixpoint sha_blocks (fuel : nat) (s : sha_state) (w : list Z) : sha_state :=
  match fuel, w with
  | S fuel', _ :: _ => sha_blocks fuel' (sha_block s (take 16 w)) (drop 16 w)
  | _, _ => s
  end.

Definition sha_digest (s : sha_state) : bytes :=
  be_uint32 (sa s) ++ be_uint32 (sb s) ++ be_uint32 (sc s) ++ be_uint32 (sd s) ++
  be_uint32 (se s) ++ be_uint32 (sf s) ++ be_uint32 (sg s) ++ be_uint32 (sh s).

(** [sha256.Sum256]. The number of words bounds the number of blocks. *)
Definition sha256 (m : bytes) : bytes :=
  let w := to_words (sha_pad m) in sha_digest (sha_blocks (length w) sha_init w).

Lemma length_sha256 m : length (sha256 m) = 32%nat.
Proof. reflexivity. Qed.

Lemma sha256_nonempty m : sha256 m ≠ [].
Proof. intros H. by apply (f_equal length) in H. Qed.

#[export] Hint Rewrite length_sha256 : casper_rw.

Example sha256_abc :
  hex_encode (sha256 (bytes_of "abc"))
  = "ba7816bf8f01cfea414140de5dae2223b00361a396177a9cb410ff61f20015ad"%string.
Proof. vm_compute. reflexivity. Qed.

(** The digest must not unfold during proofs; [vm_compute] still evaluates it. *)
#[global] Opaque sha256.
#[global] Arguments sha256 : simpl never.

(** A collision is named by its two preimages, so that the binding theorems
    are reductions: they compute the colliding pair, they do not merely assert
    that one exists. *)
Definition is_collision (xy : bytes * bytes) : Prop :=
  xy.1 ≠ xy.2 ∧ sha256 xy.1 = sha256 xy.2.

(** ** HMAC-SHA256 ([crypto/hmac]) *)

Definition hmac_key (key : bytes) : bytes :=
  let k := if (64 <? length key)%nat then sha256 key else key in k ++ replicate (64 - length k) Byte.x00.

Definition xor_byte (v : Z) (b : Byte.byte) : Byte.byte := byte_of_Z (Z.lxor v (byte_to_Z b)).

Definition hmac_sha256 (key m : bytes) : bytes :=
  let k := hmac_key key in
  sha256 ((xor_byte 92 <$> k) ++ sha256 ((xor_byte 54 <$> k) ++ m)).

Example hmac_sample :
  hex_encode (hmac_sha256 (bytes_of "key") (bytes_of "The quick brown fox jumps over the lazy dog"))
  = "f7bc83f430538424b13298e6aa6fb143ef4d59a14946175997479dbc2d1a3cd8"%string.
Proof. vm_compute. reflexivity. Qed.

Lemma length_hmac_sha256 key m : length (hmac_sha256 key m) = 32%nat.
Proof. apply length_sha256. Qed.

#[global] Opaque hmac_sha256.
#[global] Arguments hmac_sha256 : simpl never.
