(* ===== verification/Merkle.v ===== *)
(** * Merkle trees of the prover ([engine/internal/prover/merkle.go])

    [BuildTree], [Root], [GetPath] and [VerifyPath], over the concrete SHA-256.
    [None] as the outer result of [BuildTree] and [Root] is a Go panic (an index
    out of range) or exhausted fuel; [BuildTree_total] shows that neither
    happens. Completeness, the position-binding reduction to a SHA-256
    collision, and the consequences of duplicate-last padding follow. *)

From S2P Require Import Prelude GoLib Sha256.

(** ** Data and operations *)

Inductive MerkleNode : Type :=
| Node (Hash : bytes) (Left Right : option MerkleNode).

Definition Hash (n : MerkleNode) : bytes := match n with Node h _ _ => h end.

(** [if len(x)%2 != 0 { x = append(x, x[len(x)-1]) }] *)
Definition pad_odd {A} (l : list A) : list A :=
  if Nat.odd (length l) then l ++ option_list (last l) else l.

(** The same, guarded by [len(next) > 1]. *)
Definition pad_next {A} (l : list A) : list A :=
  if (1 <? length l)%nat then pad_odd l else l.

(** One level of [BuildTree]; [nodes[i+1]] panics past the end. *)
Fixpoint combine_nodes (nodes : list MerkleNode) : option (list MerkleNode) :=
  match nodes with
  | [] => Some []
  | [_] => None
  | l :: r :: rest =>
      (λ next, Node (sha256 (Hash l ++ Hash r)) (Some l) (Some r) :: next) <$> combine_nodes rest
  end.

Fixpoint build_loop (fuel : nat) (nodes : list MerkleNode) : option MerkleNode :=
  match nodes, fuel with
  | [n], _ => Some n
  | [], _ => None
  | _, O => None
  | _, S fuel' => next ← combine_nodes nodes; build_loop fuel' (pad_next next)
  end.

Definition leaf_node (lf : bytes) : MerkleNode := Node (sha256 lf) None None.

(** Outer [None]: panic; inner [None]: the nil tree of an empty leaf list. *)
Definition BuildTree (leaves : list bytes) : option (option MerkleNode) :=
  match leaves with
  | [] => Some None
  | _ =>
      let nodes := pad_odd (leaf_node <$> leaves) in
      Some <$> build_loop (length nodes) nodes
  end.

Definition Root (leaves : list bytes) : option string :=
  tree ← BuildTree leaves;
  Some match tree with None => EmptyString | Some t => hex_encode (Hash t) end.

(** One level of [GetPath]; its guard keeps an unpaired last hash. *)
Fixpoint combine_hashes (hashes : list bytes) : list bytes :=
  match hashes with
  | [] => []
  | [h] => [h]
  | l :: r :: rest => sha256 (l ++ r) :: combine_hashes rest
  end.

Definition sibling_of (pos : Z) : Z :=
  if (Z.rem pos 2 =? 0)%Z then (pos + 1)%Z else (pos - 1)%Z.

Fixpoint path_loop (fuel : nat) (hashes : list bytes) (pos : Z) : list string :=
  match fuel with
  | O => []
  | S fuel' =>
      if (1 <? length hashes)%nat then
        let sibling := sibling_of pos in
        let here :=
          if (0 <=? sibling)%Z && (sibling <? Z.of_nat (length hashes))%Z
          then option_list (hex_encode <$> hashes !! Z.to_nat sibling) else [] in
        here ++ path_loop fuel' (pad_next (combine_hashes hashes)) (Z.quot pos 2)
      else []
  end.

Definition GetPath (leaves : list bytes) (idx : Z) : list string :=
  if (idx <? 0)%Z || (Z.of_nat (length leaves) <=? idx)%Z then []
  else
    let padded := pad_odd leaves in
    path_loop (length padded) (sha256 <$> padded) idx.

(** The concatenation order at a position. *)
Definition join_at (pos : Z) (h sib : bytes) : bytes :=
  if (Z.rem pos 2 =? 0)%Z then h ++ sib else sib ++ h.

Fixpoint verify_loop (h : bytes) (pos : Z) (path : list string) (root : string) : bool :=
  match path with
  | [] => bool_decide (hex_encode h = root)
  | sib :: path' =>
      match hex_decode sib with
      | None => false
      | Some sibBytes =>
          if (length sibBytes =? 32)%nat
          then verify_loop (sha256 (join_at pos h sibBytes)) (Z.quot pos 2) path' root
          else false
      end
  end.

Definition VerifyPath (leaf : bytes) (path : list string) (root : string) (idx : Z) : bool :=
  verify_loop (sha256 leaf) idx path root.

(** ** Rows of hashes *)

Lemma length_pad_odd {A} (l : list A) : Nat.even (length (pad_odd l)) = true.
Proof.
  unfold pad_odd. destruct (Nat.odd (length l)) eqn:E.
  - destruct (last l) as [x|] eqn:F.
    + rewrite length_app, Nat.even_add. unfold Nat.odd in E. by destruct (Nat.even _).
    + apply last_None in F as ->. done.
  - unfold Nat.odd in E. by apply negb_false_iff in E.
Qed.

Lemma pad_odd_even {A} (l : list A) : Nat.even (length l) = true → pad_odd l = l.
Proof. unfold pad_odd, Nat.odd. by intros ->. Qed.

Lemma pad_odd_fmap {A B} (f : A → B) l : f <$> pad_odd l = pad_odd (f <$> l).
Proof.
  unfold pad_odd. rewrite length_fmap. destruct (Nat.odd (length l)); [|done].
  rewrite fmap_app, fmap_last. by destruct (last l).
Qed.

Lemma pad_next_fmap {A B} (f : A → B) l : f <$> pad_next l = pad_next (f <$> l).
Proof. unfold pad_next. rewrite length_fmap. case_match; [apply pad_odd_fmap|done]. Qed.

Lemma pad_odd_prefix {A} (l : list A) i x : l !! i = Some x → pad_odd l !! i = Some x.
Proof. intros H. unfold pad_odd. case_match; [by apply lookup_app_l_Some|done]. Qed.

Lemma pad_next_prefix {A} (l : list A) i x : l !! i = Some x → pad_next l !! i = Some x.
Proof. intros H. unfold pad_next. case_match; [by apply pad_odd_prefix|done]. Qed.

(** Induction two elements at a time. *)
Lemma list_pair_ind {A} (P : list A → Prop) :
  P [] → (∀ x, P [x]) → (∀ x y l, P l → P (x :: y :: l)) → ∀ l, P l.
Proof.
  intros H0 H1 H2 l. cut (P l ∧ ∀ x, P (x :: l)); [by intros []|].
  induction l as [|y l [IH1 IH2]]; auto.
Qed.

Lemma length_combine_hashes hs :
  Nat.even (length hs) = true → length hs = (2 * length (combine_hashes hs))%nat.
Proof.
  induction hs as [| |x y l IH] using list_pair_ind; simpl; [done..|].
  intros H. rewrite IH by done. lia.
Qed.

(** A row of the computation: one hash, or an even number of them. *)
Definition row_ok {A} (l : list A) : Prop := length l = 1%nat ∨ Nat.even (length l) = true ∧ l ≠ [].

Lemma pad_next_ok {A} (l : list A) : l ≠ [] → row_ok (pad_next l).
Proof.
  intros Hl. unfold pad_next. destruct (Nat.ltb_spec 1 (length l)).
  - right. split; [apply length_pad_odd|]. unfold pad_odd. case_match; [|done].
    intros ?%app_nil. tauto.
  - left. destruct l; simpl in *; [done|lia].
Qed.

Lemma pad_odd_ok {A} (l : list A) : l ≠ [] → row_ok (pad_odd l).
Proof.
  intros Hl. right. split; [apply length_pad_odd|]. unfold pad_odd. case_match; [|done].
  intros ?%app_nil. tauto.
Qed.

Lemma next_row_shorter hs :
  Nat.even (length hs) = true → hs ≠ [] →
  combine_hashes hs ≠ [] ∧ (length (pad_next (combine_hashes hs)) < length hs)%nat.
Proof.
  intros He Hn. pose proof (length_combine_hashes hs He) as Hl.
  assert (0 < length hs)%nat by (destruct hs; simpl; [done|lia]).
  split; [intros E; rewrite E in Hl; simpl in Hl; lia|].
  unfold pad_next, pad_odd. destruct (Nat.ltb_spec 1 (length (combine_hashes hs))); [|lia].
  destruct (Nat.odd (length (combine_hashes hs))) eqn:Ho; [|lia].
  rewrite length_app. assert (length (combine_hashes hs) ≠ 2)%nat by (intros E; by rewrite E in Ho).
  destruct (last (combine_hashes hs)); simpl; lia.
Qed.

(** The parent of a position combines the hash with its sibling's. *)
Lemma combine_hashes_parent hs pos h :
  Nat.even (length hs) = true → (0 ≤ pos)%Z → hs !! Z.to_nat pos = Some h →
  ∃ sib, (0 ≤ sibling_of pos < Z.of_nat (length hs))%Z ∧
    hs !! Z.to_nat (sibling_of pos) = Some sib ∧
    combine_hashes hs !! Z.to_nat (Z.quot pos 2) = Some (sha256 (join_at pos h sib)).
Proof.
  revert pos. induction hs as [| |x y l IH] using list_pair_ind; intros pos He Hp Hh; [done..|].
  destruct (decide (pos = 0%Z)) as [->|].
  { simpl in Hh. simplify_eq. exists y. unfold sibling_of. simpl. split; [lia|]. done. }
  destruct (decide (pos = 1%Z)) as [->|].
  { simpl in Hh. simplify_eq. exists x. unfold sibling_of. simpl. split; [lia|]. done. }
  assert (pos = (pos - 2) + 2)%Z as E by lia. set (q := (pos - 2)%Z) in *. clearbody q. subst pos.
  assert (0 ≤ q)%Z by lia.
  replace (Z.to_nat (q + 2)) with (S (S (Z.to_nat q))) in Hh by lia. simpl in Hh.
  destruct (IH q) as (sib & Hs & Hl & Hc); [done..|].
  assert (Z.rem (q + 2) 2 = Z.rem q 2) as Er by (lia_div).
  assert (Z.quot (q + 2) 2 = Z.quot q 2 + 1)%Z as Eq by (lia_div).
  assert (sibling_of (q + 2) = sibling_of q + 2)%Z as Es.
  { unfold sibling_of. rewrite Er. case_match; lia. }
  exists sib. unfold join_at. rewrite Er, Es, Eq. simpl length. split; [lia|]. split.
  - by replace (Z.to_nat (sibling_of q + 2)) with (S (S (Z.to_nat (sibling_of q)))) by lia.
  - replace (Z.to_nat (Z.quot q 2 + 1)) with (S (Z.to_nat (Z.quot q 2)))
      by (lia_div).
    exact Hc.
Qed.

(** ** The tree and the rows *)

Lemma combine_nodes_hashes nodes :
  Nat.even (length nodes) = true →
  ∃ next, combine_nodes nodes = Some next ∧ Hash <$> next = combine_hashes (Hash <$> nodes).
Proof.
  induction nodes as [| |l r rest IH] using list_pair_ind; simpl; intros He; [by eexists|done|].
  destruct (IH He) as (next & -> & Hn). eexists. split; [done|]. exact (f_equal (cons _) Hn).
Qed.

(** The root of a row, without the tree around it. *)
Fixpoint row_root (fuel : nat) (hashes : list bytes) : option bytes :=
  match hashes, fuel with
  | [h], _ => Some h
  | [], _ | _, O => None
  | _, S fuel' => row_root fuel' (pad_next (combine_hashes hashes))
  end.

Lemma build_loop_root fuel nodes :
  row_ok nodes → Hash <$> build_loop fuel nodes = row_root fuel (Hash <$> nodes).
Proof.
  revert nodes. induction fuel as [|fuel IH]; intros [|n [|n' nodes]]; try done.
  intros [H|[He Hn]]; [done|]. cbn [build_loop].
  destruct (combine_nodes_hashes (n :: n' :: nodes) He) as (next & -> & Hnext).
  cbn [mbind option_bind]. rewrite IH.
  - rewrite pad_next_fmap, Hnext. done.
  - apply pad_next_ok. destruct (next_row_shorter (Hash <$> (n :: n' :: nodes))) as [Hne _].
    + by rewrite length_fmap.
    + done.
    + by intros ->.
Qed.

Lemma row_root_total fuel hs : row_ok hs → (length hs ≤ fuel)%nat → is_Some (row_root fuel hs).
Proof.
  revert hs. induction fuel as [|fuel IH]; intros [|h [|h' hs]] Hok Hf; try done; simpl in Hf; try lia.
  - destruct Hok as [|[]]; done.
  - destruct Hok as [|[]]; done.
  - destruct Hok as [|[He Hn]]; [done|].
    destruct (next_row_shorter _ He Hn) as [Hne Hlt].
    change (is_Some (row_root fuel (pad_next (combine_hashes (h :: h' :: hs))))).
    apply IH; [by apply pad_next_ok|]. simpl length in Hlt at 2. lia.
Qed.

Definition digest (h : bytes) : Prop := length h = 32%nat.

Lemma combine_hashes_digests hs : Forall digest hs → Forall digest (combine_hashes hs).
Proof.
  induction hs as [| |x y l IH] using list_pair_ind; intros H; [done..|]. simpl.
  constructor; [apply length_sha256|]. apply IH. by do 2 apply Forall_inv_tail in H.
Qed.

(** Every hash of an even row's parent row is a digest, whatever the row. *)
Lemma combine_hashes_digests_even hs :
  Nat.even (length hs) = true → Forall digest (combine_hashes hs).
Proof.
  induction hs as [| |x y l IH] using list_pair_ind; intros H; [done..|]. simpl.
  constructor; [apply length_sha256|auto].
Qed.

Lemma pad_odd_Forall {A} (P : A → Prop) l : Forall P l → Forall P (pad_odd l).
Proof.
  intros H. unfold pad_odd. case_match; [|done]. apply Forall_app_2; [done|].
  destruct (last l) as [y|] eqn:E; simpl; [|done]. constructor; [|done].
  rewrite Forall_forall in H. by apply H, last_Some_elem_of.
Qed.

Lemma pad_next_Forall {A} (P : A → Prop) l : Forall P l → Forall P (pad_next l).
Proof. intros H. unfold pad_next. case_match; [by apply pad_odd_Forall|done]. Qed.

(** The loop of [GetPath] produces what the loop of [VerifyPath] consumes. *)
Lemma path_verify_loop fuel hs pos h root :
  row_ok hs → (length hs ≤ fuel)%nat → (0 ≤ pos)%Z → hs !! Z.to_nat pos = Some h →
  Forall digest hs → row_root fuel hs = Some root →
  verify_loop h pos (path_loop fuel hs pos) (hex_encode root) = true.
Proof.
  revert hs pos h. induction fuel as [|fuel IH]; intros hs pos h Hok Hf Hp Hh H32 Hr.
  { destruct hs; [done|simpl in Hf; lia]. }
  cbn [path_loop]. destruct (Nat.ltb_spec 1 (length hs)) as [Hlen|Hlen].
  - destruct Hok as [|[He Hn]]; [lia|].
    destruct (next_row_shorter _ He Hn) as [Hne Hlt].
    destruct (combine_hashes_parent hs pos h He Hp Hh) as (sib & Hrange & Hsib & Hpar).
    rewrite Hsib. destruct (Z.leb_spec 0 (sibling_of pos)); [|lia].
    destruct (Z.ltb_spec (sibling_of pos) (Z.of_nat (length hs))); [|lia].
    change (verify_loop h pos (hex_encode sib ::
      path_loop fuel (pad_next (combine_hashes hs)) (Z.quot pos 2)) (hex_encode root) = true).
    cbn [verify_loop].
    assert (length sib = 32%nat) as Hs32.
    { rewrite Forall_forall in H32. eapply H32, list_elem_of_lookup. eauto. }
    rewrite hex_decode_encode, Hs32, Nat.eqb_refl.
    apply IH.
    + by apply pad_next_ok.
    + lia.
    + apply Z.quot_pos; lia.
    + by apply pad_next_prefix.
    + by apply pad_next_Forall, combine_hashes_digests.
    + destruct hs as [|? [|? ?]]; simpl in Hlen; [lia..|]. done.
  - destruct hs as [|x [|]]; simpl in Hlen; [by rewrite lookup_nil in Hh| |lia].
    assert (Z.to_nat pos = 0%nat) as E.
    { destruct (Z.to_nat pos); [done|]. by rewrite lookup_cons, lookup_nil in Hh. }
    rewrite E in Hh. simpl in Hh, Hr. simplify_eq. simpl. by apply bool_decide_eq_true.
Qed.

Lemma leaf_hashes leaves : Hash <$> pad_odd (leaf_node <$> leaves) = sha256 <$> pad_odd leaves.
Proof. rewrite pad_odd_fmap, <- list_fmap_compose, <- pad_odd_fmap. done. Qed.

Lemma leaf_digests leaves : Forall digest (sha256 <$> leaves).
Proof. apply Forall_fmap, Forall_true. intros. apply length_sha256. Qed.

Lemma leaves_row_ok leaves : leaves ≠ [] → row_ok (sha256 <$> pad_odd leaves).
Proof. intros. rewrite pad_odd_fmap. apply pad_odd_ok. by destruct leaves. Qed.

Lemma Root_nonempty leaves :
  leaves ≠ [] →
  ∃ r, Root leaves = Some (hex_encode r) ∧
       row_root (length (pad_odd leaves)) (sha256 <$> pad_odd leaves) = Some r.
Proof.
  intros Hl. unfold Root, BuildTree. destruct leaves as [|x l]; [done|].
  set (leaves := x :: l) in *.
  pose proof (build_loop_root (length (pad_odd (leaf_node <$> leaves))) (pad_odd (leaf_node <$> leaves))) as H.
  rewrite leaf_hashes in H.
  assert (length (pad_odd (leaf_node <$> leaves)) = length (pad_odd leaves)) as Hlen
    by (by rewrite <- pad_odd_fmap, length_fmap).
  rewrite Hlen in *.
  destruct (row_root_total (length (pad_odd leaves)) (sha256 <$> pad_odd leaves)) as [r Hr].
  { by apply leaves_row_ok. }
  { by rewrite length_fmap. }
  rewrite Hr in H. destruct (build_loop _ _) as [t|]; [|by ospecialize (H _); [apply pad_odd_ok|]].
  exists r. split; [|done]. simpl. do 2 f_equal.
  ospecialize (H _); [by apply pad_odd_ok|]. by simplify_eq/=.
Qed.

(** ** Properties *)

(** [BuildTree] always returns: for every list of leaves neither an index
    out of range (a Go panic) nor the loop bound is ever reached, and the tree
    is nil exactly for the empty list. *)
Theorem BuildTree_total leaves :
  ∃ t, BuildTree leaves = Some t ∧ (t = None ↔ leaves = []).
Proof.
  destruct leaves as [|x l]; [by exists None|].
  destruct (Root_nonempty (x :: l)) as (r & Hr & _); [done|]. unfold Root in Hr.
  destruct (BuildTree (x :: l)) as [t|] eqn:E; [|done]. exists t. split; [done|].
  split; [|done]. intros ->. unfold BuildTree in E. by destruct (build_loop _ _).
Qed.

(** Completeness of Merkle proofs: for every leaf list and every index in
    range, the path [GetPath] returns for that index verifies against [Root]
    of the list. *)
Theorem VerifyPath_GetPath leaves idx leaf root :
  (0 ≤ idx)%Z → leaves !! Z.to_nat idx = Some leaf → Root leaves = Some root →
  VerifyPath leaf (GetPath leaves idx) root idx = true.
Proof.
  intros Hi Hl Hr. assert (leaves ≠ []) as Hne by (by intros ->).
  destruct (Root_nonempty leaves Hne) as (r & Hr' & Hrow). simplify_eq.
  pose proof (lookup_lt_Some _ _ _ Hl). unfold VerifyPath, GetPath.
  destruct (Z.ltb_spec idx 0), (Z.leb_spec (Z.of_nat (length leaves)) idx); try lia. simpl orb. cbv iota.
  apply path_verify_loop; [by apply leaves_row_ok|by rewrite length_fmap|done| |
    apply leaf_digests|done].
  rewrite list_lookup_fmap. by rewrite (pad_odd_prefix _ _ _ Hl).
Qed.

Lemma VerifyPath_GetPath_witness :
  VerifyPath (bytes_of "gamma") (GetPath [bytes_of "alpha"; bytes_of "beta"; bytes_of "gamma"] 2)
    (default EmptyString (Root [bytes_of "alpha"; bytes_of "beta"; bytes_of "gamma"])) 2 = true.
Proof.
  apply (VerifyPath_GetPath [bytes_of "alpha"; bytes_of "beta"; bytes_of "gamma"]); [lia|done|].
  destruct (Root_nonempty [bytes_of "alpha"; bytes_of "beta"; bytes_of "gamma"]) as (r & Hr & _); [done|].
  by rewrite Hr.
Defined.

(** The colliding pair two accepting paths of one root and one index contain:
    the first level, bottom-up, where the two chains of hashes meet. *)
Fixpoint chain_collision (h h' : bytes) (pos : Z) (path path' : list string) : bytes * bytes :=
  match path, path' with
  | sib :: p, sib' :: p' =>
      let c := join_at pos h (default [] (hex_decode sib)) in
      let c' := join_at pos h' (default [] (hex_decode sib')) in
      if decide (sha256 c = sha256 c') then (c, c')
      else chain_collision (sha256 c) (sha256 c') (Z.quot pos 2) p p'
  | _, _ => ([], [])
  end.

Definition path_collision (leaf leaf' : bytes) (path path' : list string) (idx : Z) : bytes * bytes :=
  if decide (sha256 leaf = sha256 leaf') then (leaf, leaf')
  else chain_collision (sha256 leaf) (sha256 leaf') idx path path'.

Lemma join_at_inj pos h h' s s' :
  length h = length h' → length s = length s' → join_at pos h s = join_at pos h' s' → h = h' ∧ s = s'.
Proof.
  unfold join_at. intros Hh Hs. case_match; intros E.
  - by apply app_inj_1 in E.
  - apply app_inj_1 in E; [|done]. tauto.
Qed.

Lemma chain_collision_spec path path' h h' pos root :
  h ≠ h' → digest h → digest h' → length path = length path' →
  verify_loop h pos path root = true → verify_loop h' pos path' root = true →
  is_collision (chain_collision h h' pos path path').
Proof.
  revert path' h h' pos. induction path as [|s p IH]; intros [|s' p'] h h' pos Hne Hh Hh' Hlen;
    [|done..|]; cbn [verify_loop chain_collision].
  - intros H H'. bool_to_prop. subst. by apply hex_encode_inj in H'.
  - destruct (hex_decode s) as [b|]; [|done]. destruct (hex_decode s') as [b'|]; [|done].
    destruct (length b =? 32)%nat eqn:Eb; [|done]. destruct (length b' =? 32)%nat eqn:Eb'; [|done].
    apply Nat.eqb_eq in Eb, Eb'. intros H H'. simpl. case_decide as E.
    + split; simpl; [|done]. intros J. apply join_at_inj in J; [tauto|unfold digest in *; lia|lia].
    + simpl in Hlen. injection Hlen as Hlen. eapply IH; eauto; apply length_sha256.
Qed.

(** C1. Binding of Merkle proofs: when two leaves are both accepted at the same
    index under the same root with paths of the same length, they are the same
    leaf, or the two accepting paths contain a SHA-256 collision, which
    [path_collision] computes from them. *)
Theorem VerifyPath_binding leaf leaf' path path' root idx :
  length path = length path' →
  VerifyPath leaf path root idx = true → VerifyPath leaf' path' root idx = true →
  leaf = leaf' ∨ is_collision (path_collision leaf leaf' path path' idx).
Proof.
  intros Hlen H H'. destruct (decide (leaf = leaf')) as [|Hne]; [by left|right].
  unfold path_collision. case_decide as E; [by split|].
  eapply chain_collision_spec; eauto; apply length_sha256.
Qed.

Definition h_b : string := hex_encode (sha256 (bytes_of "b")).

Lemma VerifyPath_binding_witness :
  let root := hex_encode (sha256 (sha256 (bytes_of "a") ++ sha256 (bytes_of "b"))) in
  VerifyPath (bytes_of "a") [h_b] root 0 = true ∧
  (bytes_of "a" = bytes_of "a" ∨ is_collision (path_collision (bytes_of "a") (bytes_of "a") [h_b] [h_b] 0)).
Proof.
  intros root. assert (VerifyPath (bytes_of "a") [h_b] root 0 = true) as H by (vm_compute; reflexivity).
  split; [exact H|]. exact (VerifyPath_binding _ _ _ _ root 0 eq_refl H H).
Defined.

(** Malformed paths are refused before any hash comparison. *)
Lemma VerifyPath_malformed leaf path root idx sib :
  sib ∈ path → (∀ b, hex_decode sib = Some b → length b ≠ 32%nat) →
  VerifyPath leaf path root idx = false.
Proof.
  unfold VerifyPath. generalize (sha256 leaf) as h. intros h Hin Hbad. revert h idx.
  induction Hin as [x p|x s p Hin IH]; intros h idx; simpl.
  - destruct (hex_decode x) as [b|]; [|done]. specialize (Hbad b eq_refl).
    by apply Nat.eqb_neq in Hbad as ->.
  - destruct (hex_decode s); [|done]. case_match; auto.
Qed.

(** The documented consequence of duplicate-last padding: repeating the
    last leaf of an odd-length list leaves the root unchanged, so the root alone
    does not determine the number of leaves. *)
Theorem Root_duplicate_last leaves x :
  Nat.odd (length (leaves ++ [x])) = true → Root (leaves ++ [x]) = Root (leaves ++ [x; x]).
Proof.
  intros Ho. unfold Root, BuildTree.
  assert (pad_odd (leaf_node <$> leaves ++ [x]) = pad_odd (leaf_node <$> leaves ++ [x; x])) as E.
  { rewrite <- !pad_odd_fmap. f_equal. rewrite (pad_odd_even (_ ++ [x; x])).
    - unfold pad_odd. rewrite Ho, last_snoc. simpl. by rewrite <- app_assoc.
    - rewrite !length_app in *. simpl in *. rewrite Nat.add_succ_r, Nat.even_succ. done. }
  destruct (leaves ++ [x]) as [|a l] eqn:El; [by destruct leaves|].
  destruct (leaves ++ [x; x]) as [|a' l'] eqn:El'; [by destruct leaves|].
  by rewrite E.
Qed.

Lemma Root_duplicate_last_witness :
  Root [bytes_of "a"; bytes_of "b"; bytes_of "c"]
  = Root [bytes_of "a"; bytes_of "b"; bytes_of "c"; bytes_of "c"].
Proof. by apply (Root_duplicate_last [bytes_of "a"; bytes_of "b"] (bytes_of "c")). Defined.
