(* ===== verification/Incremental.v ===== *)
(** * The append-only Merkle accumulator ([engine/internal/prover/incremental.go])

    The accumulator keeps one pending hash per level. [Append] is a binary
    increment, [RootI] folds the pending hashes with duplicate-last padding.
    The main theorem is that it computes the same root as [Merkle.Root] on the
    whole leaf list; batches and their receipts follow. [None] stands for a Go
    panic or exhausted fuel; the theorems show that it does not occur. *)

From S2P Require Import Prelude GoLib Sha256 Merkle.

(** ** Data and operations *)

Record IncrementalMerkle := {
  frontier : list bytes;
  occupied : list bool;
  size : Z;
}.

Definition NewIncrementalMerkle : IncrementalMerkle := {| frontier := []; occupied := []; size := 0 |}.

Definition Size (m : IncrementalMerkle) : Z := size m.

(** The zero value of [[32]byte]. *)
Definition zero32 : bytes := replicate 32 Byte.x00.

(** The loop of [foldIn] from [level]. *)
Fixpoint fold_loop (fuel level : nat) (cur : bytes) (m : IncrementalMerkle) : option IncrementalMerkle :=
  match fuel with
  | O => None
  | S fuel' =>
      if (length (frontier m) <=? level)%nat then
        Some {| frontier := frontier m ++ [cur]; occupied := occupied m ++ [true]; size := size m |}
      else
        occ ← occupied m !! level;
        if negb occ then
          Some {| frontier := <[level := cur]> (frontier m);
                  occupied := <[level := true]> (occupied m); size := size m |}
        else
          pending ← frontier m !! level;
          fold_loop fuel' (S level) (sha256 (pending ++ cur))
            {| frontier := <[level := zero32]> (frontier m);
               occupied := <[level := false]> (occupied m); size := size m |}
  end.

Definition foldIn (m : IncrementalMerkle) (h : bytes) : option IncrementalMerkle :=
  fold_loop (S (length (frontier m))) 0 h m.

Definition bump_size (m : IncrementalMerkle) : IncrementalMerkle :=
  {| frontier := frontier m; occupied := occupied m; size := size m + 1 |}.

(** Returns the accumulator and the leaf hash. *)
Definition Append (m : IncrementalMerkle) (leaf : bytes) : option (IncrementalMerkle * bytes) :=
  let h := sha256 leaf in
  m' ← foldIn m h; Some (bump_size m', h).

(** [for v > 0 { v >>= 1; l++ }]; [v] iterations are enough since [v] at least
    halves. *)
Fixpoint shift_loop (fuel : nat) (v l : Z) : Z :=
  match fuel with
  | O => l
  | S fuel' => if (0 <? v)%Z then shift_loop fuel' (Z.shiftr v 1) (l + 1) else l
  end.

Definition ceilLog2 (n : Z) : Z :=
  if (n <=? 1)%Z then 0%Z else shift_loop (Z.to_nat (n - 1)) (n - 1) 0.

(** [combined := append(carry[:], carry[:]...); carry = sha256.Sum256(combined)] *)
Definition dup (h : bytes) : bytes := sha256 (h ++ h).

(** The carry and its level; [None] while [hasCarry] is false. *)
Definition advance (lvl : nat) (carry : option (bytes * nat)) : option (bytes * nat) :=
  (λ '(c, cl), (Nat.iter (lvl - cl) dup c, Nat.max cl lvl)) <$> carry.

(** The body of the level loop of [Root]. *)
Definition root_step (m : IncrementalMerkle) (carry : option (bytes * nat)) (lvl : nat)
    : option (option (bytes * nat)) :=
  let carry := advance lvl carry in
  occ ← occupied m !! lvl;
  if negb occ then Some carry
  else
    pending ← frontier m !! lvl;
    Some (Some match carry with
               | Some (c, _) => (sha256 (pending ++ c), S lvl)
               | None => (pending, lvl)
               end).

Fixpoint root_loop (m : IncrementalMerkle) (carry : option (bytes * nat)) (lvls : list nat)
    : option (option (bytes * nat)) :=
  match lvls with
  | [] => Some carry
  | lvl :: lvls' => carry' ← root_step m carry lvl; root_loop m carry' lvls'
  end.

Definition RootI (m : IncrementalMerkle) : option string :=
  if (size m =? 0)%Z then Some EmptyString
  else
    let targetLvl := if (ceilLog2 (size m) =? 0)%Z then 1%Z else ceilLog2 (size m) in
    carry ← root_loop m None (seq 0 (length (frontier m)));
    Some match advance (Z.to_nat targetLvl) carry with
         | None => EmptyString
         | Some (c, _) => hex_encode c
         end.

Record BatchReceipt := {
  PrevRoot : string;
  NewRoot : string;
  StartIndex : Z;
  Leaves : list string;
  BatchSize : Z;
}.

Inductive MerkleError :=
| ErrEmptyBatch
| ErrRootFailed (n : nat)
| ErrNilReceipt
| ErrBatchSizeMismatch (header leaves : Z)
| ErrPrevRootMismatch (accum receipt : string)
| ErrInvalidLeafHash (leaf : string)
| MerklePanic.

Fixpoint append_all (m : IncrementalMerkle) (leaves : list bytes) : option (IncrementalMerkle * list string) :=
  match leaves with
  | [] => Some (m, [])
  | lf :: leaves' =>
      '(m1, hh) ← Append m lf;
      '(m2, hexes) ← append_all m1 leaves';
      Some (m2, hex_encode hh :: hexes)
  end.

(** The accumulator after the call, and the receipt or the error. *)
Definition AppendBatch (m : IncrementalMerkle) (leaves : list bytes)
    : IncrementalMerkle * result MerkleError BatchReceipt :=
  match leaves with
  | [] => (m, Err ErrEmptyBatch)
  | _ =>
      match (prevRoot ← RootI m; '(m', leafHexes) ← append_all m leaves;
             newRoot ← RootI m'; Some (prevRoot, m', leafHexes, newRoot)) with
      | None => (m, Err MerklePanic)
      | Some (prevRoot, m', leafHexes, newRoot) =>
          if bool_decide (newRoot = EmptyString)
          then ({| frontier := frontier m; occupied := occupied m; size := size m |},
                Err (ErrRootFailed (length leaves)))
          else (m', Ok {| PrevRoot := prevRoot; NewRoot := newRoot; StartIndex := size m;
                          Leaves := leafHexes; BatchSize := Z.of_nat (length leaves) |})
      end
  end.

Definition Clone (m : IncrementalMerkle) : IncrementalMerkle :=
  {| frontier := frontier m; occupied := occupied m; size := size m |}.

Fixpoint replay (clone : IncrementalMerkle) (leaves : list string) : result MerkleError IncrementalMerkle :=
  match leaves with
  | [] => Ok clone
  | lfHex :: leaves' =>
      match hex_decode lfHex with
      | None => Err (ErrInvalidLeafHash lfHex)
      | Some raw =>
          if (length raw =? 32)%nat then
            match foldIn clone raw with
            | None => Err MerklePanic
            | Some clone' => replay (bump_size clone') leaves'
            end
          else Err (ErrInvalidLeafHash lfHex)
      end
  end.

Definition VerifyReceiptTransition (prevAccum : IncrementalMerkle) (rc : option BatchReceipt)
    : result MerkleError bool :=
  match rc with
  | None => Err ErrNilReceipt
  | Some rc =>
      if negb (BatchSize rc =? Z.of_nat (length (Leaves rc)))%Z
      then Err (ErrBatchSizeMismatch (BatchSize rc) (Z.of_nat (length (Leaves rc))))
      else
        match RootI prevAccum with
        | None => Err MerklePanic
        | Some r =>
            if negb (bool_decide (r = PrevRoot rc)) then Err (ErrPrevRootMismatch r (PrevRoot rc))
            else
              let! clone := replay (Clone prevAccum) (Leaves rc) in
              match RootI clone with
              | None => Err MerklePanic
              | Some r' => Ok (bool_decide (r' = NewRoot rc))
              end
        end
  end.

(** ** The accumulator as a list of optional pending hashes *)

Definition slots (m : IncrementalMerkle) : list (option bytes) :=
  zip_with (λ f (o : bool), if o then Some f else None) (frontier m) (occupied m).

Fixpoint increment (cur : bytes) (s : list (option bytes)) : list (option bytes) :=
  match s with
  | [] => [Some cur]
  | None :: s' => Some cur :: s'
  | Some f :: s' => None :: increment (sha256 (f ++ cur)) s'
  end.

Definition same_length (m : IncrementalMerkle) : Prop := length (frontier m) = length (occupied m).

Lemma length_slots m : same_length m → length (slots m) = length (frontier m).
Proof. unfold same_length, slots. intros. rewrite length_zip_with. lia. Qed.

Lemma slots_lookup m lvl o :
  slots m !! lvl = Some o ↔
  ∃ f b, frontier m !! lvl = Some f ∧ occupied m !! lvl = Some b ∧ o = if b : bool then Some f else None.
Proof. unfold slots. rewrite lookup_zip_with_Some. naive_solver. Qed.

Lemma slots_insert m lvl f b :
  slots {| frontier := <[lvl := f]> (frontier m); occupied := <[lvl := b]> (occupied m); size := size m |}
  = <[lvl := if b : bool then Some f else None]> (slots m).
Proof. unfold slots; simpl. symmetry. apply (insert_zip_with (λ f (o : bool), if o then Some f else None)). Qed.

Lemma insert_at_length {A} (pre suf : list A) x y : <[length pre := y]> (pre ++ x :: suf) = pre ++ y :: suf.
Proof. rewrite insert_app_r_alt by lia. by rewrite Nat.sub_diag. Qed.

Lemma fold_loop_increment fuel level cur m pre suf :
  same_length m → slots m = pre ++ suf → length pre = level → (length suf < fuel)%nat →
  ∃ m', fold_loop fuel level cur m = Some m' ∧ slots m' = pre ++ increment cur suf ∧
        same_length m' ∧ size m' = size m.
Proof.
  revert level cur m pre suf. induction fuel as [|fuel IH]; intros level cur m pre suf Hl Hs Hp Hf; [lia|].
  cbn [fold_loop]. pose proof (length_slots m Hl) as Hlen. rewrite Hs, length_app in Hlen.
  destruct suf as [|o suf].
  - destruct (Nat.leb_spec (length (frontier m)) level); [|simpl in Hlen; lia].
    eexists. split; [done|]. unfold slots, same_length in *. simpl.
    rewrite zip_with_app by done. rewrite Hs, app_nil_r. rewrite !length_app. auto with lia.
  - simpl in Hlen. destruct (Nat.leb_spec (length (frontier m)) level); [lia|].
    assert (slots m !! level = Some o) as Ho by (rewrite Hs; apply list_lookup_middle; done).
    pose proof Ho as (f & b & Hfr & Hoc & ->)%slots_lookup. rewrite Hoc. simpl.
    destruct b; simpl.
    + rewrite Hfr. simpl.
      destruct (IH (S level) (sha256 (f ++ cur))
        {| frontier := <[level := zero32]> (frontier m); occupied := <[level := false]> (occupied m); size := size m |}
        (pre ++ [None]) suf) as (m' & -> & Hs' & Hl' & Hz).
      * unfold same_length in *. simpl. by rewrite !length_insert.
      * rewrite slots_insert, Hs, <- Hp, insert_at_length. by rewrite <- app_assoc.
      * rewrite length_app. simpl. lia.
      * simpl in Hf. lia.
      * exists m'. rewrite Hs', <- app_assoc. auto.
    + eexists. split; [done|]. rewrite slots_insert, Hs. unfold same_length in *. simpl.
      rewrite !length_insert, <- Hp, insert_at_length. done.
Qed.

Lemma foldIn_increment m h :
  same_length m →
  ∃ m', foldIn m h = Some m' ∧ slots m' = increment h (slots m) ∧ same_length m' ∧ size m' = size m.
Proof.
  intros Hl. destruct (fold_loop_increment (S (length (frontier m))) 0 h m [] (slots m)) as (m' & ?);
    [done..| |eauto]. rewrite length_slots; [lia|done].
Qed.

(** ** Rows of the duplicate-last tree *)

Definition up (hs : list bytes) : list bytes := combine_hashes (pad_odd hs).
Definition up_iter (k : nat) (hs : list bytes) : list bytes := Nat.iter k up hs.

Lemma up_iter_S k hs : up_iter (S k) hs = up_iter k (up hs).
Proof. unfold up_iter. apply Nat.iter_succ_r. Qed.

Lemma length_up hs : length (up hs) = ((length hs + 1) / 2)%nat.
Proof.
  unfold up. pose proof (length_combine_hashes (pad_odd hs) (length_pad_odd hs)) as H.
  assert (length (pad_odd hs) = length hs + Nat.b2n (Nat.odd (length hs)))%nat as E.
  { unfold pad_odd. destruct (Nat.odd (length hs)) eqn:Ho; [|simpl; lia].
    rewrite length_app. destruct (last hs) eqn:El; [done|]. by apply last_None in El as ->. }
  pose proof (Nat.div2_odd (length hs)). rewrite E in H.
  destruct (Nat.odd (length hs)); cbn [Nat.b2n] in *; lia_div.
Qed.

Lemma length_up_iter k hs : (length (up_iter k hs) <= 1)%nat ↔ (length hs <= 2 ^ k)%nat.
Proof.
  revert hs. induction k as [|k IH]; intros hs; [done|].
  rewrite up_iter_S, IH, length_up, Nat.pow_succ_r'.
  split; intros; lia_div.
Qed.

Lemma up_iter_nonempty k hs : hs ≠ [] → up_iter k hs ≠ [].
Proof.
  revert hs. induction k as [|k IH]; intros hs Hn; [done|]. rewrite up_iter_S. apply IH.
  intros E. apply (f_equal length) in E. rewrite length_up in E.
  assert (length hs ≠ 0%nat) by (by destruct hs). change (length (@nil bytes)) with 0%nat in E. lia_div.
Qed.

Lemma up_iter_singleton k hs : hs ≠ [] → (length hs <= 2 ^ k)%nat → ∃ r, up_iter k hs = [r].
Proof.
  intros Hn Hl%length_up_iter. pose proof (up_iter_nonempty k hs Hn).
  destruct (up_iter k hs) as [|r [|]]; simpl in Hl; [done|eauto|lia].
Qed.

Lemma up_singleton h : up [h] = [dup h].
Proof. done. Qed.

Lemma up_iter_dup k h : up_iter k [h] = [Nat.iter k dup h].
Proof.
  induction k as [|k IH]; [done|]. change (up (up_iter k [h]) = [dup (Nat.iter k dup h)]). by rewrite IH.
Qed.

Lemma up_iter_add j k hs : up_iter (j + k) hs = up_iter j (up_iter k hs).
Proof. unfold up_iter. apply Nat.iter_add. Qed.

(** The loop of [BuildTree] reaches the first singleton row. *)
Lemma pad_odd_nonempty (hs : list bytes) : hs ≠ [] → pad_odd hs ≠ [].
Proof. intros Hne. unfold pad_odd. case_match; [|done]. by intros [? _]%app_nil. Qed.

Lemma row_root_step fuel hs :
  hs ≠ [] → (length (pad_odd hs) <= S fuel)%nat →
  row_root (S fuel) (pad_odd hs) = row_root fuel (pad_next (up hs)) ∧
  (length (pad_next (up hs)) <= fuel)%nat.
Proof.
  intros Hne Hf. pose proof (length_pad_odd hs) as He.
  pose proof (pad_odd_nonempty hs Hne) as Hp.
  destruct (next_row_shorter _ He Hp) as [_ Hlt]. fold (up hs) in Hlt. split; [|lia].
  unfold up. by destruct (pad_odd hs) as [|a [|b l]].
Qed.

Lemma row_root_up T fuel hs r :
  hs ≠ [] → up_iter (S T) hs = [r] → (T = 0%nat ∨ (2 ^ T < length hs)%nat) →
  (length (pad_odd hs) <= fuel)%nat → row_root fuel (pad_odd hs) = Some r.
Proof.
  revert fuel hs. induction T as [|T IH]; intros fuel hs Hne Hup HT Hf.
  all: assert (1 <= length (pad_odd hs))%nat
    by (pose proof (pad_odd_nonempty hs Hne); destruct (pad_odd hs); simpl; [done|lia]).
  all: destruct fuel as [|fuel]; [lia|]; destruct (row_root_step fuel hs Hne Hf) as [-> Hf'].
  - rewrite up_iter_S in Hup. change (up hs = [r]) in Hup. rewrite Hup. by destruct fuel.
  - rewrite up_iter_S in Hup. destruct HT as [|HT]; [done|].
    assert (2 ^ T < length (up hs))%nat as Hl.
    { rewrite length_up. rewrite Nat.pow_succ_r' in HT. lia_div. }
    pose proof (Nat.pow_nonzero 2 T). unfold pad_next in *.
    destruct (Nat.ltb_spec 1 (length (up hs))); [|lia].
    apply IH; [by apply (up_iter_nonempty 1)|done|by right|done].
Qed.

(** The first singleton row does not depend on how it was found. *)
Lemma first_singleton_unique T T' hs r r' :
  up_iter (S T) hs = [r] → (T = 0%nat ∨ (2 ^ T < length hs)%nat) →
  up_iter (S T') hs = [r'] → (T' = 0%nat ∨ (2 ^ T' < length hs)%nat) → r = r'.
Proof.
  intros H1 HT H2 HT'. assert (length hs <= 2 ^ S T ∧ length hs <= 2 ^ S T')%nat as [L L'].
  { split; apply length_up_iter; [rewrite H1|rewrite H2]; simpl; lia. }
  assert (∀ a b : nat, (length hs <= 2 ^ S a)%nat → (b = 0%nat ∨ (2 ^ b < length hs)%nat) → (b <= a)%nat) as Hle.
  { intros a b Ha [->|Hb]; [lia|]. apply Nat.nlt_ge. intros ?.
    assert (2 ^ S a <= 2 ^ b)%nat by (by apply Nat.pow_le_mono_r). lia. }
  assert (T = T') as -> by (apply Nat.le_antisymm; eauto). congruence.
Qed.

(** ** What the pending hashes represent *)

Definition body (hs : list bytes) : list bytes := if Nat.odd (length hs) then removelast hs else hs.

(** [represents s hs]: [s] is the accumulator after the hashes [hs]; bottom-up,
    an odd row has its last hash pending, the rest is paired. *)
Fixpoint represents (s : list (option bytes)) (hs : list bytes) : Prop :=
  match s with
  | [] => hs = []
  | o :: s' => o = (if Nat.odd (length hs) then last hs else None) ∧ hs ≠ [] ∧
      represents s' (combine_hashes (body hs))
  end.

Lemma body_even hs : Nat.even (length (body hs)) = true.
Proof.
  unfold body. destruct (Nat.odd (length hs)) eqn:E.
  - destruct hs as [|x l] using rev_ind; [done|]. rewrite removelast_last.
    rewrite length_app, Nat.add_1_r, Nat.odd_succ in E. done.
  - unfold Nat.odd in E. by apply negb_false_iff in E.
Qed.

Lemma body_spec hs : hs = body hs ++ option_list (if Nat.odd (length hs) then last hs else None).
Proof.
  unfold body. destruct (Nat.odd (length hs)); [|by rewrite app_nil_r].
  destruct hs as [|x l _] using rev_ind; [done|]. by rewrite removelast_last, last_snoc.
Qed.

Lemma combine_hashes_app hs ks :
  Nat.even (length hs) = true → combine_hashes (hs ++ ks) = combine_hashes hs ++ combine_hashes ks.
Proof.
  induction hs as [| |x y l IH] using list_pair_ind; intros H; [done..|]. simpl. by rewrite IH.
Qed.

Lemma odd_body_snoc b o :
  Nat.even (length b) = true →
  Nat.odd (length (b ++ option_list o)) = (if o : option bytes then true else false) ∧ body (b ++ option_list o) = b.
Proof.
  intros He. unfold body. destruct o as [f|]; simpl.
  - rewrite length_app, Nat.add_1_r, Nat.odd_succ, He, removelast_last. done.
  - rewrite app_nil_r. unfold Nat.odd. by rewrite He.
Qed.

Lemma increment_represents s hs h : represents s hs → represents (increment h s) (hs ++ [h]).
Proof.
  revert hs h. induction s as [|o s IH]; intros hs h; simpl; [by intros ->|].
  intros (Ho & Hne & Hr). pose proof (body_spec hs) as Hb. rewrite <- Ho in Hb.
  set (b := body hs) in *. assert (Nat.even (length b) = true) as He by apply body_even.
  assert (∀ k : list bytes, hs ++ h :: k ≠ []) as Hnn by (by destruct hs).
  destruct o as [f|]; rewrite Hb; simpl; cbn [represents].
  - rewrite <- app_assoc. simpl.
    assert (Nat.even (length (b ++ [f; h])) = true) as He2.
    { rewrite length_app, Nat.even_add, He. done. }
    unfold body, Nat.odd. rewrite He2. simpl. split; [done|]. split; [by destruct b|].
    rewrite combine_hashes_app by done. simpl. by apply IH.
  - rewrite app_nil_r. destruct (odd_body_snoc b (Some h) He) as [E1 E2]. simpl in E1, E2.
    rewrite E1, E2, last_snoc. split; [done|]. split; [by destruct b|]. done.
Qed.

(** Every pending list ends with an occupied level, so it has the length of the
    binary representation of the number of hashes. *)
Lemma represents_length s hs :
  represents s hs → s ≠ [] → (2 ^ (length s - 1) <= length hs)%nat.
Proof.
  revert hs. induction s as [|o s IH]; intros hs Hr Hne; [done|]. destruct Hr as (Ho & Hh & Hr).
  destruct s as [|o' s]; [destruct hs; simpl; [done|lia]|].
  specialize (IH _ Hr ltac:(done)).
  pose proof (length_combine_hashes _ (body_even hs)) as Hl.
  assert (length (body hs) <= length hs)%nat.
  { rewrite (body_spec hs) at 2. rewrite length_app. lia. }
  simpl length in *. replace (S (S (length s)) - 1)%nat with (S (S (length s) - 1)) by lia.
  rewrite Nat.pow_succ_r'. lia.
Qed.

Definition carry_at (lvl : nat) (carry : option (bytes * nat)) : option bytes := fst <$> advance lvl carry.

Lemma carry_at_S lvl carry c cl :
  advance lvl carry = Some (c, cl) → (∀ x y, carry = Some (x, y) → (y <= lvl)%nat) →
  carry_at (S lvl) (Some (c, cl)) = Some (dup c).
Proof.
  unfold carry_at, advance. destruct carry as [[x y]|]; [|done]. intros [= <- <-] Hy.
  specialize (Hy x y eq_refl). simpl. rewrite Nat.max_r by lia.
  by replace (S lvl - lvl)%nat with 1%nat by lia.
Qed.

(** One level of [Root] on a row and its carry is one level of the tree. *)
Lemma up_with_carry row carry :
  up (row ++ option_list carry) =
    combine_hashes (body row) ++
    option_list match (if Nat.odd (length row) then last row else None), carry with
                | Some f, Some c => Some (sha256 (f ++ c))
                | Some x, None | None, Some x => Some (dup x)
                | None, None => None
                end.
Proof.
  pose proof (body_spec row) as Hb. set (o := if Nat.odd (length row) then last row else None) in *.
  assert (Nat.even (length (body row)) = true) as He by apply body_even.
  set (b := body row) in *. rewrite Hb at 1. unfold up, pad_odd.
  destruct o as [f|], carry as [c|]; simpl; rewrite ?app_nil_r, <- ?app_assoc; simpl.
  - unfold Nat.odd. rewrite length_app, Nat.even_add, He. simpl. by rewrite combine_hashes_app.
  - rewrite length_app, Nat.add_1_r, Nat.odd_succ, He, last_snoc. simpl.
    by rewrite <- ?app_assoc, combine_hashes_app.
  - rewrite length_app, Nat.add_1_r, Nat.odd_succ, He, last_snoc. simpl.
    by rewrite <- ?app_assoc, combine_hashes_app.
  - unfold Nat.odd. by rewrite He.
Qed.

(** The carry after level [lvl], given the carry before it and the slot. *)
Definition next_carry (lvl : nat) (carry : option (bytes * nat)) (o : option bytes) : option (bytes * nat) :=
  match advance lvl carry, o with
  | a, None => a
  | Some (c, _), Some f => Some (sha256 (f ++ c), S lvl)
  | None, Some f => Some (f, lvl)
  end.

Definition carry_below (lvl : nat) (carry : option (bytes * nat)) : Prop :=
  ∀ c cl, carry = Some (c, cl) → (cl <= lvl)%nat.

Lemma root_step_next m carry lvl o :
  slots m !! lvl = Some o → root_step m carry lvl = Some (next_carry lvl carry o).
Proof.
  intros (f & b & Hfr & Hoc & ->)%slots_lookup. unfold root_step, next_carry. rewrite Hoc. simpl.
  destruct b; simpl; [|by case_all]. rewrite Hfr. by destruct (advance _ carry) as [[]|].
Qed.

Lemma next_carry_below lvl carry o : carry_below lvl carry → carry_below (S lvl) (next_carry lvl carry o).
Proof.
  intros Hc c cl. unfold next_carry, advance. destruct carry as [[x y]|], o; simpl; intros; simplify_eq; try lia.
  specialize (Hc _ _ eq_refl). lia.
Qed.

Lemma next_carry_up hs lvl carry row o :
  carry_below lvl carry → o = (if Nat.odd (length row) then last row else None) →
  up_iter lvl hs = row ++ option_list (carry_at lvl carry) →
  up_iter (S lvl) hs =
    combine_hashes (body row) ++ option_list (carry_at (S lvl) (next_carry lvl carry o)).
Proof.
  intros Hc Ho Hup. change (up_iter (S lvl) hs) with (up (up_iter lvl hs)).
  rewrite Hup, up_with_carry, <- Ho. f_equal. f_equal. unfold next_carry, carry_at, advance.
  destruct carry as [[x y]|], o; simpl; rewrite ?Nat.sub_diag; try done.
  - specialize (Hc _ _ eq_refl). rewrite Nat.max_r by lia.
    by replace (S lvl - lvl)%nat with 1%nat by lia.
  - by replace (S lvl - lvl)%nat with 1%nat by lia.
Qed.

(** The topmost pending hash: its row is that hash alone. *)
Lemma represents_top o row : represents [o] row → ∃ g, o = Some g ∧ row = [g].
Proof.
  intros (Ho & Hrow & Hr). simpl in Hr.
  pose proof (length_combine_hashes _ (body_even row)) as Hlen. rewrite Hr in Hlen.
  assert (body row = []) as Hb by (by destruct (body row)).
  pose proof (body_spec row) as E. rewrite <- Ho, Hb in E. destruct o as [g|]; simpl in E; [eauto|done].
Qed.

(** The level loop of [Root], run on pending hashes that represent [row] at level
    [lvl] of the tree over [hs]: it ends with a carry that is a whole row of the
    tree, at the top level or one below it. *)
Lemma root_loop_carry m hs pre suf row carry :
  slots m = pre ++ suf → suf ≠ [] → represents suf row → carry_below (length pre) carry →
  up_iter (length pre) hs = row ++ option_list (carry_at (length pre) carry) →
  ∃ c cl, root_loop m carry (seq (length pre) (length suf)) = Some (Some (c, cl)) ∧
    up_iter cl hs = [c] ∧
    (cl = (length pre + length suf - 1)%nat ∨
     cl = (length pre + length suf)%nat ∧ (1 < length (up_iter (cl - 1) hs))%nat).
Proof.
  revert pre row carry. induction suf as [|o suf IH]; intros pre row carry Hs Hne Hr Hc Hup; [done|].
  assert (slots m !! length pre = Some o) as Hlk by (rewrite Hs; by apply list_lookup_middle).
  cbn [length seq root_loop]. rewrite (root_step_next _ _ _ _ Hlk). cbn [mbind option_bind].
  destruct suf as [|o' suf].
  - apply represents_top in Hr as (g & -> & ->). simpl. unfold next_carry, carry_at in *.
    destruct (advance (length pre) carry) as [[c cl]|] eqn:Ea; simpl in Hup.
    + exists (sha256 (g ++ c)), (S (length pre)). split; [done|].
      change (up_iter (S (length pre)) hs) with (up (up_iter (length pre) hs)).
      rewrite Nat.sub_succ, Nat.sub_0_r, Hup. split; [done|]. right. simpl. lia.
    + exists g, (length pre). split; [done|]. split; [done|]. left. lia.
  - destruct Hr as (Ho & Hrow & Hr).
    destruct (IH (pre ++ [o]) (combine_hashes (body row)) (next_carry (length pre) carry o))
      as (c & cl & Hloop & Hcl & Hdis); rewrite ?length_app, ?Nat.add_1_r; auto using next_carry_below, next_carry_up.
    + by rewrite Hs, <- app_assoc.
    + rewrite length_app, Nat.add_1_r in *. exists c, cl. split; [exact Hloop|].
      split; [done|]. simpl length in *. destruct Hdis as [->|[-> ?]]; [left; lia|right; split; [lia|done]].
Qed.

(** ** [ceilLog2] *)

Lemma shift_loop_spec fuel v l :
  (0 <= v <= Z.of_nat fuel)%Z →
  ∃ k, (0 <= k)%Z ∧ shift_loop fuel v l = (l + k)%Z ∧ (v < 2 ^ k)%Z ∧ (k = 0 ∨ 2 ^ (k - 1) <= v)%Z.
Proof.
  revert v l. induction fuel as [|fuel IH]; intros v l Hv; cbn [shift_loop].
  - exists 0%Z. simpl. lia.
  - destruct (Z.ltb_spec 0 v); [|exists 0%Z; simpl; lia].
    assert (Z.shiftr v 1 = v / 2)%Z as E by (by rewrite Z.shiftr_div_pow2).
    rewrite E. destruct (IH (v / 2)%Z (l + 1)%Z) as (k & Hk & -> & Hlt & Hge); [lia_div|].
    exists (k + 1)%Z. rewrite Z.pow_add_r by lia. rewrite Z.add_simpl_r. split; [lia|]. split; [lia|].
    split; [lia_div|]. right.
    destruct (decide (k = 0)%Z) as [->|Hk0]; [simpl; lia|]. destruct Hge as [->|Hge]; [done|].
    replace k with (k - 1 + 1)%Z by lia. rewrite Z.pow_add_r by lia. lia_div.
Qed.

(** [ceilLog2 n] is the least [k] with [n <= 2^k]. *)
Lemma ceilLog2_spec n :
  (1 <= n)%Z → ∃ k : nat, ceilLog2 n = Z.of_nat k ∧ (n <= 2 ^ Z.of_nat k)%Z ∧
    (k = 0%nat ∨ 2 ^ (Z.of_nat k - 1) < n)%Z.
Proof.
  intros Hn. unfold ceilLog2. destruct (Z.leb_spec n 1); [exists 0%nat; simpl; lia|].
  destruct (shift_loop_spec (Z.to_nat (n - 1)) (n - 1) 0) as (k & Hk & -> & Hlt & Hge); [lia|].
  exists (Z.to_nat k). rewrite Z2Nat.id by lia. split; [lia|]. split; [lia|]. right.
  destruct Hge as [->|]; [simpl in Hlt; lia|lia].
Qed.

(** ** Correctness of the accumulator *)

Record accumulates (m : IncrementalMerkle) (hs : list bytes) : Prop := {
  acc_same_length : same_length m;
  acc_represents : represents (slots m) hs;
  acc_size : size m = Z.of_nat (length hs);
}.

Lemma accumulates_new : accumulates NewIncrementalMerkle [].
Proof. by constructor. Qed.

Lemma foldIn_accumulates m hs h :
  accumulates m hs → ∃ m', foldIn m h = Some m' ∧ accumulates (bump_size m') (hs ++ [h]).
Proof.
  intros [Hl Hr Hz]. destruct (foldIn_increment m h Hl) as (m' & Hm & Hs & Hl' & Hz').
  exists m'. split; [done|]. constructor; [done| |].
  - change (slots (bump_size m')) with (slots m'). rewrite Hs. by apply increment_represents.
  - simpl. rewrite Hz', Hz, length_app. simpl. lia.
Qed.

Lemma pow2_nat_Z k : Z.of_nat (2 ^ k) = (2 ^ Z.of_nat k)%Z.
Proof. by rewrite Nat2Z.inj_pow. Qed.

(** The root of a non-empty accumulator is the row reached at the target level,
    the least positive level whose row is a singleton. *)
Lemma RootI_up m hs :
  accumulates m hs → hs ≠ [] →
  ∃ T r, RootI m = Some (hex_encode r) ∧ up_iter (S T) hs = [r] ∧ (T = 0 ∨ 2 ^ T < length hs)%nat.
Proof.
  intros [Hl Hr Hz] Hne. unfold RootI. rewrite Hz.
  assert (0 < length hs)%nat by (destruct hs; simpl; [done|lia]).
  destruct (Z.eqb_spec (Z.of_nat (length hs)) 0); [lia|].
  assert (slots m ≠ []) as Hsn by (intros E; rewrite E in Hr; by simpl in Hr).
  destruct (root_loop_carry m hs [] (slots m) hs None) as (c & cl & Hloop & Hcl & Hdis); [done..| |].
  { by rewrite app_nil_r. }
  rewrite length_slots in Hloop by done. simpl in Hloop. rewrite Hloop. cbn [mbind option_bind].
  pose proof (represents_length _ _ Hr Hsn) as Hlow.
  destruct (ceilLog2_spec (Z.of_nat (length hs))) as (k & -> & Hk1 & Hk2); [lia|].
  rewrite <- pow2_nat_Z in Hk1. apply Nat2Z.inj_le in Hk1.
  set (T := (Nat.max 1 k - 1)%nat).
  assert (Z.to_nat (if (Z.of_nat k =? 0)%Z then 1%Z else Z.of_nat k) = S T) as ->.
  { unfold T. destruct (Z.eqb_spec (Z.of_nat k) 0); lia. }
  assert (cl <= S T)%nat as Hcl'.
  { assert (∀ j, (2 ^ j < length hs)%nat → (j < k)%nat) as Hj.
    { intros j Hj. apply Nat.nle_gt. intros ?. assert (2 ^ k <= 2 ^ j)%nat by (by apply Nat.pow_le_mono_r). lia. }
    destruct Hdis as [->|[-> Hup]]; unfold T in *.
    - destruct (decide (length (slots m) <= 1)%nat); [simpl; lia|].
      assert (2 ^ (length (slots m) - 2) < length hs)%nat as Hp%Hj; [|simpl; lia].
      eapply Nat.lt_le_trans; [|exact Hlow]. apply Nat.pow_lt_mono_r; lia.
    - assert (¬ length (up_iter (0 + length (slots m) - 1) hs) <= 1)%nat as Hn by (simpl in *; lia).
      rewrite length_up_iter in Hn. apply Nat.nle_gt, Hj in Hn. simpl in *. lia. }
  exists T, (Nat.iter (S T - cl) dup c). split; [done|]. split.
  - replace (S T) with (S T - cl + cl)%nat at 1 by lia. by rewrite up_iter_add, Hcl, up_iter_dup.
  - unfold T. destruct k as [|[|k]]; [by left..|right]. destruct Hk2 as [|Hk2]; [lia|].
    replace (Z.of_nat (S (S k)) - 1)%Z with (Z.of_nat (S k)) in Hk2 by lia.
    rewrite <- pow2_nat_Z in Hk2. simpl Nat.max. rewrite Nat.sub_succ, Nat.sub_0_r. lia.
Qed.

Lemma RootI_Root m leaves :
  accumulates m (sha256 <$> leaves) → RootI m = Root leaves.
Proof.
  intros Hm. destruct (decide (leaves = [])) as [->|Hne].
  - destruct Hm as [_ _ Hz]. unfold RootI. by rewrite Hz.
  - destruct (RootI_up m _ Hm) as (T & r & Hroot & Hup & HT); [by destruct leaves|].
    destruct (Root_nonempty leaves Hne) as (r' & Hroot' & Hrow).
    rewrite pad_odd_fmap in Hrow. rewrite (row_root_up T _ _ r) in Hrow; [|by destruct leaves|done|done|].
    + simplify_eq. by rewrite Hroot, Hroot'.
    + by rewrite <- pad_odd_fmap, length_fmap.
Qed.

Lemma append_all_accumulates m leaves hs :
  accumulates m hs →
  ∃ m', append_all m leaves = Some (m', hex_encode <$> (sha256 <$> leaves)) ∧
        accumulates m' (hs ++ (sha256 <$> leaves)).
Proof.
  revert m hs. induction leaves as [|lf leaves IH]; intros m hs Hm; simpl.
  - exists m. by rewrite app_nil_r.
  - unfold Append. destruct (foldIn_accumulates m hs (sha256 lf) Hm) as (m1 & -> & H1). simpl.
    destruct (IH _ _ H1) as (m2 & -> & H2). simpl. exists m2. split; [done|].
    by rewrite <- app_assoc in H2.
Qed.

Lemma replay_accumulates m digests hs :
  accumulates m hs → Forall digest digests →
  ∃ m', replay m (hex_encode <$> digests) = Ok m' ∧ accumulates m' (hs ++ digests).
Proof.
  intros Hm Hd. revert m hs Hm. induction Hd as [|d ds Hd _ IH]; intros m hs Hm; simpl.
  - exists m. by rewrite app_nil_r.
  - rewrite hex_decode_encode, Hd. simpl. destruct (foldIn_accumulates m hs d Hm) as (m1 & -> & H1).
    destruct (IH _ _ H1) as (m2 & ? & H2). exists m2. by rewrite <- app_assoc in H2.
Qed.

(** ** Properties *)

(** C2. The accumulator agrees with the batch tree: after appending any list of
    leaves to an empty accumulator, [Root] of the accumulator is [Root] of the
    whole list computed by [BuildTree], and no step panics. *)
Theorem incremental_root_eq leaves :
  ∃ m hexes, append_all NewIncrementalMerkle leaves = Some (m, hexes) ∧
    RootI m = Root leaves ∧ Size m = Z.of_nat (length leaves).
Proof.
  destruct (append_all_accumulates _ leaves _ accumulates_new) as (m & Happ & Hm).
  exists m, (hex_encode <$> (sha256 <$> leaves)). split; [done|]. simpl in Hm.
  split; [by apply RootI_Root|]. unfold Size. destruct Hm as [_ _ ->]. by rewrite length_fmap.
Qed.

Lemma RootI_defined m hs : accumulates m hs → is_Some (RootI m).
Proof.
  intros Hm. destruct (decide (hs = [])) as [->|Hne].
  - destruct Hm as [_ _ Hz]. unfold RootI. by rewrite Hz.
  - destruct (RootI_up m hs Hm Hne) as (T & r & -> & _). eauto.
Qed.

(** What a successful [AppendBatch] does. *)
Lemma AppendBatch_ok m hs leaves :
  accumulates m hs → leaves ≠ [] →
  ∃ m' prev new, AppendBatch m leaves =
    (m', Ok {| PrevRoot := prev; NewRoot := new; StartIndex := size m;
               Leaves := hex_encode <$> (sha256 <$> leaves); BatchSize := Z.of_nat (length leaves) |}) ∧
    accumulates m' (hs ++ (sha256 <$> leaves)) ∧ RootI m = Some prev ∧ RootI m' = Some new.
Proof.
  intros Hm Hne. destruct (RootI_defined m hs Hm) as [prev Hprev].
  destruct (append_all_accumulates m leaves hs Hm) as (m' & Happ & Hm').
  assert (sha256 <$> leaves ≠ []) as Hn by (by destruct leaves).
  destruct (RootI_up m' _ Hm') as (T & r & Hnew & Hup & _); [by intros [_ ?]%app_nil|].
  exists m', prev, (hex_encode r). unfold AppendBatch.
  rewrite Hprev. cbn [mbind option_bind]. rewrite Happ. cbn [mbind option_bind]. rewrite Hnew. cbn [mbind option_bind].
  rewrite bool_decide_eq_false_2; [by destruct leaves|].
  apply hex_encode_nonempty. intros ->.
  assert (digest []) as Hd; [|done].
  assert (Forall digest (up_iter (S T) (hs ++ (sha256 <$> leaves)))) as HF.
  { change (Forall digest (combine_hashes (pad_odd (up_iter T (hs ++ (sha256 <$> leaves)))))).
    apply combine_hashes_digests_even, length_pad_odd. }
  rewrite Hup in HF. by apply Forall_inv in HF.
Qed.

(** A batch receipt round-trips: on any reachable accumulator (one that
    holds the leaf hashes [hs]) a non-empty batch is accepted, and the receipt
    it returns is accepted by [VerifyReceiptTransition] against the accumulator
    as it was before the batch. *)
Theorem AppendBatch_receipt_verifies m hs leaves :
  accumulates m hs → leaves ≠ [] →
  ∃ m' rc, AppendBatch m leaves = (m', Ok rc) ∧ VerifyReceiptTransition m (Some rc) = Ok true ∧
    accumulates m' (hs ++ (sha256 <$> leaves)).
Proof.
  intros Hm Hne. destruct (AppendBatch_ok m hs leaves Hm Hne) as (m' & prev & new & -> & Hm' & Hprev & Hnew).
  eexists m', _. split; [done|]. split; [|done]. simpl. rewrite !length_fmap, Z.eqb_refl, Hprev. simpl.
  rewrite bool_decide_eq_true_2 by done. simpl.
  destruct (replay_accumulates (Clone m) (sha256 <$> leaves) hs) as (m2 & -> & H2).
  { destruct Hm. by constructor. }
  { apply leaf_digests. }
  simpl. destruct (RootI_defined _ _ H2) as [r2 Hr2]. rewrite Hr2.
  assert (RootI m2 = RootI m') as E.
  { destruct (RootI_up _ _ H2) as (T & r & -> & Hup & HT); [by destruct leaves, hs|].
    destruct (RootI_up _ _ Hm') as (T' & r' & -> & Hup' & HT'); [by destruct leaves, hs|].
    do 2 f_equal. eapply first_singleton_unique; eauto. }
  rewrite Hr2, Hnew in E. simplify_eq. by rewrite bool_decide_eq_true_2.
Qed.

Lemma AppendBatch_receipt_verifies_witness :
  ∃ m' rc, AppendBatch NewIncrementalMerkle [bytes_of "alpha"; bytes_of "beta"; bytes_of "gamma"] = (m', Ok rc) ∧
    VerifyReceiptTransition NewIncrementalMerkle (Some rc) = Ok true ∧
    accumulates m' ([] ++ (sha256 <$> [bytes_of "alpha"; bytes_of "beta"; bytes_of "gamma"])).
Proof. apply AppendBatch_receipt_verifies; [constructor; done|done]. Defined.

(** An empty batch is refused and leaves the accumulator as it was. *)
Lemma AppendBatch_empty m : AppendBatch m [] = (m, Err ErrEmptyBatch).
Proof. done. Qed.
