(* ===== verification/Recursion.v ===== *)
(** * Merkle recursion of proof commitments
      ([engine/internal/aggregator/merkle_recursion.go])

    The domain-separated Merkle tree over proof commitments: aggregation,
    inclusion proofs and their verification. [fuel] bounds the level loops by
    the number of leaves, which every level at least halves (rounding up). *)

From S2P Require Import Prelude GoLib Sha256 Merkle.

(** ** Data *)

Definition SchemeMerkleRecursionV1 : string := "merkle-recursion-v1".
Definition merkleLeafTag : bytes := [Byte.x00].
Definition merkleNodeTag : bytes := [Byte.x01].

Record MerkleRecursionProof := {
  Scheme : string;
  Count : Z;
  TreeHeight : Z;
  RootHex : string;
}.

Record MerkleInclusionProof := {
  LeafIndex : Z;
  LeafHex : string;
  Path : list string;
  Positions : list bool;
}.

Inductive RecursionError :=
| ErrEmptyLeafList
| ErrEmptyLeaf (i : nat)
| ErrLeafIndexRange (i count : Z)
| ErrUnsupportedScheme (s : string)
| ErrPathHeight (path : nat) (height : Z)
| ErrPositionsLength (path positions : nat)
| ErrLeafHexFormat
| ErrPathFormat (i : nat)
| ErrRootMismatch
| RecursionPanic.

(** ** Operations *)

(** The leaf loop: the first empty leaf is an error naming its position. *)
Fixpoint hash_leaves (i : nat) (leaves : list bytes) : result RecursionError (list bytes) :=
  match leaves with
  | [] => Ok []
  | leaf :: leaves' =>
      match leaf with
      | [] => Err (ErrEmptyLeaf i)
      | _ => let! level := hash_leaves (S i) leaves' in Ok (sha256 (merkleLeafTag ++ leaf) :: level)
      end
  end.

Definition node_preimage (l r : bytes) : bytes := merkleNodeTag ++ l ++ r.

(** [next[i] = H(tag || level[2*i] || level[2*i+1])] for [i < len(level)/2] *)
Fixpoint next_level (level : list bytes) : list bytes :=
  match level with
  | l :: r :: rest => sha256 (node_preimage l r) :: next_level rest
  | _ => []
  end.

(** The level loop of [AggregateMerkleRecursion]: the root and the height. *)
Fixpoint aggregate_loop (fuel : nat) (level : list bytes) (height : Z) : option (bytes * Z) :=
  match level, fuel with
  | [r], _ => Some (r, height)
  | [], _ | _, O => None
  | _, S fuel' => aggregate_loop fuel' (next_level (pad_odd level)) (height + 1)
  end.

Definition AggregateMerkleRecursion (leaves : list bytes) : result RecursionError MerkleRecursionProof :=
  match leaves with
  | [] => Err ErrEmptyLeafList
  | _ =>
      let! level := hash_leaves 0 leaves in
      match aggregate_loop (length level) level 0 with
      | None => Err RecursionPanic
      | Some (root, height) =>
          Ok {| Scheme := SchemeMerkleRecursionV1; Count := Z.of_nat (length leaves);
                TreeHeight := height; RootHex := hex_encode root |}
      end
  end.

(** The level loop of [BuildInclusionProof]: path and positions, bottom-up. *)
Fixpoint inclusion_loop (fuel : nat) (level : list bytes) (cursor : nat) : option (list string * list bool) :=
  match fuel with
  | O => if (1 <? length level)%nat then None else Some ([], [])
  | S fuel' =>
      if (1 <? length level)%nat then
        let level := pad_odd level in
        let isRight := (cursor mod 2 =? 1)%nat in
        let siblingIdx := if isRight then (cursor - 1)%nat else (cursor + 1)%nat in
        sib ← level !! siblingIdx;
        '(path, positions) ← inclusion_loop fuel' (next_level level) (cursor / 2);
        Some (hex_encode sib :: path, isRight :: positions)
      else Some ([], [])
  end.

Definition BuildInclusionProof (leaves : list bytes) (leafIndex : Z)
    : result RecursionError MerkleInclusionProof :=
  if (leafIndex <? 0)%Z || (Z.of_nat (length leaves) <=? leafIndex)%Z
  then Err (ErrLeafIndexRange leafIndex (Z.of_nat (length leaves)))
  else
    let! level := hash_leaves 0 leaves in
    match level !! Z.to_nat leafIndex, inclusion_loop (length level) level (Z.to_nat leafIndex) with
    | Some leafHash, Some (path, positions) =>
        Ok {| LeafIndex := leafIndex; LeafHex := hex_encode leafHash; Path := path; Positions := positions |}
    | _, _ => Err RecursionPanic
    end.

Definition child_preimage (isRight : bool) (acc sib : bytes) : bytes :=
  if isRight then node_preimage sib acc else node_preimage acc sib.

(** The path loop of [VerifyMerkleInclusion]. *)
Fixpoint inclusion_check (i : nat) (acc : bytes) (path : list string) (positions : list bool)
    : result RecursionError bytes :=
  match path with
  | [] => Ok acc
  | sibHex :: path' =>
      match hex_decode sibHex with
      | None => Err (ErrPathFormat i)
      | Some sib =>
          if negb (length sib =? 32)%nat then Err (ErrPathFormat i)
          else
            match positions with
            | [] => Err RecursionPanic
            | isRight :: positions' =>
                inclusion_check (S i) (sha256 (child_preimage isRight acc sib)) path' positions'
            end
      end
  end.

Definition VerifyMerkleInclusion (agg : MerkleRecursionProof) (proof : MerkleInclusionProof)
    : result RecursionError bool :=
  if negb (bool_decide (Scheme agg = SchemeMerkleRecursionV1)) then Err (ErrUnsupportedScheme (Scheme agg))
  else if negb (TreeHeight agg =? Z.of_nat (length (Path proof)))%Z
  then Err (ErrPathHeight (length (Path proof)) (TreeHeight agg))
  else if negb (length (Path proof) =? length (Positions proof))%nat
  then Err (ErrPositionsLength (length (Path proof)) (length (Positions proof)))
  else if (LeafIndex proof <? 0)%Z || (Count agg <=? LeafIndex proof)%Z
  then Err (ErrLeafIndexRange (LeafIndex proof) (Count agg))
  else
    match hex_decode (LeafHex proof) with
    | None => Err ErrLeafHexFormat
    | Some leafBytes =>
        if negb (length leafBytes =? 32)%nat then Err ErrLeafHexFormat
        else
          let! acc := inclusion_check 0 leafBytes (Path proof) (Positions proof) in
          if bool_decide (hex_encode acc = RootHex agg) then Ok true else Err ErrRootMismatch
    end.

(** ** Levels *)

Lemma hash_leaves_ok i leaves level :
  hash_leaves i leaves = Ok level ↔
  (∀ x, x ∈ leaves → x ≠ []) ∧ level = (λ leaf, sha256 (merkleLeafTag ++ leaf)) <$> leaves.
Proof.
  revert i level. induction leaves as [|[|b lf] leaves IH]; intros i level; simpl.
  - split; [intros [= <-]; split; [by intros x ?%elem_of_nil|done]|by intros [_ ->]].
  - split; [done|]. intros [H _]. exfalso. by eapply H; [left|].
  - rewrite result_bind_ok. setoid_rewrite IH. split.
    + intros (l & [H ->] & [= <-]). split; [|done]. intros x [->|?]%elem_of_cons; [done|auto].
    + intros [H ->]. eexists. split; [split; [|done]|done]. intros x Hx. apply H. by right.
Qed.

Lemma length_next_level level :
  Nat.even (length level) = true → length level = (2 * length (next_level level))%nat.
Proof.
  induction level as [| |x y l IH] using list_pair_ind; simpl; [done..|]. intros H. rewrite IH by done. lia.
Qed.

Lemma pad_odd_length {A} (l : list A) :
  length (pad_odd l) = (length l + Nat.b2n (Nat.odd (length l)))%nat.
Proof.
  unfold pad_odd. destruct (Nat.odd (length l)) eqn:Ho; [|simpl; lia].
  rewrite length_app. destruct (last l) eqn:El; [done|]. by apply last_None in El as ->.
Qed.

Lemma elem_of_pad_odd {A} (l : list A) x : x ∈ pad_odd l ↔ x ∈ l.
Proof.
  unfold pad_odd. case_match; [|done]. rewrite elem_of_app. split; [|by left].
  intros [|Hx]; [done|]. destruct (last l) as [y|] eqn:E; [|by apply elem_of_nil in Hx].
  apply list_elem_of_singleton in Hx as ->. by apply last_Some_elem_of.
Qed.

(** The next level is non-empty and, above one node, shorter. *)
Lemma next_level_shorter level :
  (1 < length level)%nat →
  (0 < length (next_level (pad_odd level)) < length level)%nat.
Proof.
  intros Hl. pose proof (length_next_level _ (length_pad_odd level)) as H.
  rewrite pad_odd_length in H. pose proof (Nat.div2_odd (length level)).
  destruct (Nat.odd (length level)); simpl in *; lia.
Qed.

Lemma next_level_digests level : Forall digest (next_level level).
Proof.
  induction level as [| |x y l IH] using list_pair_ind; simpl; [constructor..|].
  constructor; [apply length_sha256|done].
Qed.

(** The parent of position [c]. *)
Lemma next_level_parent level c h :
  Nat.even (length level) = true → level !! c = Some h →
  ∃ sib, level !! (if (c mod 2 =? 1)%nat then (c - 1)%nat else (c + 1)%nat) = Some sib ∧
    next_level level !! (c / 2)%nat = Some (sha256 (child_preimage (c mod 2 =? 1)%nat h sib)).
Proof.
  revert c. induction level as [| |x y l IH] using list_pair_ind; intros c He Hc; [done..|].
  destruct c as [|[|c]]; simpl in Hc.
  - exists y. by simplify_eq.
  - exists x. by simplify_eq.
  - destruct (IH c) as (sib & Hs & Hn); [done..|]. exists sib.
    assert (S (S c) mod 2 = c mod 2)%nat as -> by lia_div.
    assert (S (S c) / 2 = S (c / 2))%nat as -> by lia_div. split; [|exact Hn].
    destruct (Nat.eqb_spec (c mod 2) 1); [|exact Hs].
    replace (S (S c) - 1)%nat with (S (S (c - 1))) by lia_div. exact Hs.
Qed.

(** The path loop re-computes the root that the aggregation loop found. *)
Lemma inclusion_loop_check fuel level cursor h i height root rheight :
  level !! cursor = Some h → Forall digest level →
  aggregate_loop fuel level height = Some (root, rheight) →
  ∃ path positions, inclusion_loop fuel level cursor = Some (path, positions) ∧
    inclusion_check i h path positions = Ok root ∧ length path = length positions ∧
    rheight = (height + Z.of_nat (length path))%Z.
Proof.
  revert level cursor h i height. induction fuel as [|fuel IH]; intros level cursor h i height Hc Hd Hagg.
  - destruct level as [|x [|]]; [done| |done]. destruct cursor; [|done].
    simpl in *. simplify_eq. exists [], []. split; [done|]. simpl. split; [done|]. lia.
  - destruct level as [|x [|y level]]; [done| |].
    { destruct cursor; [|done]. simpl in *. simplify_eq. exists [], []. simpl. split; [done|]. split; [done|]. lia. }
    set (lv := x :: y :: level) in *.
    change (aggregate_loop fuel (next_level (pad_odd lv)) (height + 1) = Some (root, rheight)) in Hagg.
    cbn [inclusion_loop]. change (1 <? length lv)%nat with true. cbv iota.
    destruct (next_level_parent (pad_odd lv) cursor h) as (sib & Hs & Hn);
      [apply length_pad_odd|by apply pad_odd_prefix|]. cbv zeta. rewrite Hs. cbn [mbind option_bind].
    destruct (IH _ _ _ (S i) _ Hn (next_level_digests _) Hagg) as (path & positions & -> & Hchk & Hlen & ->).
    cbn [mbind option_bind]. eexists _, _. split; [done|]. cbn [inclusion_check].
    rewrite hex_decode_encode.
    assert (length sib = 32%nat) as ->.
    { apply (pad_odd_Forall digest) in Hd. rewrite Forall_forall in Hd. eapply Hd, list_elem_of_lookup; eauto. }
    simpl negb. cbv iota. split; [exact Hchk|]. simpl. split; [by f_equal|]. lia.
Qed.

Lemma aggregate_loop_total fuel level height :
  level ≠ [] → (length level <= fuel)%nat → is_Some (aggregate_loop fuel level height).
Proof.
  revert level height. induction fuel as [|fuel IH]; intros [|x [|y level]] height Hn Hf; try done; [simpl in Hf; lia|].
  set (lv := x :: y :: level) in *.
  change (is_Some (aggregate_loop fuel (next_level (pad_odd lv)) (height + 1))).
  pose proof (next_level_shorter lv ltac:(simpl; lia)).
  apply IH; [intros E; rewrite E in *; simpl in *; lia|lia].
Qed.

(** ** Soundness: membership or a collision *)

(** The node preimages of a level, in order. *)
Fixpoint level_preimages (level : list bytes) : list bytes :=
  match level with
  | l :: r :: rest => node_preimage l r :: level_preimages rest
  | _ => []
  end.

Lemma next_level_preimages level : next_level level = sha256 <$> level_preimages level.
Proof. induction level as [| |x y l IH] using list_pair_ind; simpl; [done..|]. by rewrite IH. Qed.

Lemma level_preimages_elem level p :
  p ∈ level_preimages level → ∃ l r, p = node_preimage l r ∧ l ∈ level ∧ r ∈ level.
Proof.
  induction level as [| |x y l IH] using list_pair_ind; simpl; [by intros ?%elem_of_nil..|].
  intros [->|H]%elem_of_cons.
  - exists x, y. split; [done|]. split; [left|by right; left].
  - destruct (IH H) as (a & b & -> & ? & ?). exists a, b. split; [done|]. by split; do 2 right.
Qed.

(** First preimage of a digest in a list of preimages. *)
Fixpoint find_preimage (d : bytes) (ps : list bytes) : option bytes :=
  match ps with
  | [] => None
  | p :: ps' => if decide (sha256 p = d) then Some p else find_preimage d ps'
  end.

Lemma find_preimage_spec d ps :
  match find_preimage d ps with
  | Some p => p ∈ ps ∧ sha256 p = d
  | None => d ∉ (sha256 <$> ps)
  end.
Proof.
  induction ps as [|p ps IH]; simpl; [by intros ?%elem_of_nil|]. case_decide as E.
  - split; [left|done].
  - destruct (find_preimage d ps) as [q|].
    + destruct IH. split; [by right|done].
    + intros [->|?]%elem_of_cons; done.
Qed.

(** Walks an accepted path next to the honest levels and returns the preimages
    of the first node that the honest tree also has but reaches differently. *)
Fixpoint inclusion_collision (level : list bytes) (acc : bytes) (path : list string) (positions : list bool)
    : bytes * bytes :=
  match path, positions with
  | sibHex :: path', isRight :: positions' =>
      let c := child_preimage isRight acc (default [] (hex_decode sibHex)) in
      match find_preimage (sha256 c) (level_preimages (pad_odd level)) with
      | Some p => (p, c)
      | None => inclusion_collision (next_level (pad_odd level)) (sha256 c) path' positions'
      end
  | _, _ => ([], [])
  end.

Lemma node_preimage_inj l r l' r' :
  length l = length l' → node_preimage l r = node_preimage l' r' → l = l' ∧ r = r'.
Proof. intros Hl [= H]. by apply app_inj_1 in H. Qed.

Lemma aggregate_loop_height fuel level height root rheight :
  aggregate_loop fuel level height = Some (root, rheight) → (height <= rheight)%Z.
Proof.
  revert level height. induction fuel as [|fuel IH]; intros [|x [|y level]] height H;
    cbn [aggregate_loop] in H; simplify_eq; try lia. apply IH in H. lia.
Qed.

(** An accepted path that ends in the root starts in the leaf level. *)
Lemma inclusion_check_sound fuel level height acc i path positions root rheight :
  Forall digest level → digest acc → aggregate_loop fuel level height = Some (root, rheight) →
  rheight = (height + Z.of_nat (length path))%Z →
  inclusion_check i acc path positions = Ok root →
  acc ∈ level ∨ is_collision (inclusion_collision level acc path positions).
Proof.
  revert level height acc i path positions.
  induction fuel as [|fuel IH]; intros level height acc i path positions Hd Hacc Hagg Hlen Hchk.
  { destruct level as [|x [|]]; [done| |done]. simpl in Hagg. simplify_eq.
    destruct path; simpl in *; [|lia]. simplify_eq. by left; left. }
  destruct level as [|x [|y level]]; [done| |].
  { simpl in Hagg. simplify_eq. destruct path; simpl in *; [|lia]. simplify_eq. by left; left. }
  set (lv := x :: y :: level) in *.
  change (aggregate_loop fuel (next_level (pad_odd lv)) (height + 1) = Some (root, rheight)) in Hagg.
  pose proof (aggregate_loop_height _ _ _ _ _ Hagg) as Hm.
  destruct path as [|sibHex path]; [simpl in Hlen; lia|].
  simpl in Hchk. destruct (hex_decode sibHex) as [sib|] eqn:Esib; [|done].
  destruct (length sib =? 32)%nat eqn:Els; [|done]. apply Nat.eqb_eq in Els. simpl in Hchk.
  destruct positions as [|isRight positions]; [done|].
  cbn [inclusion_collision]. rewrite Esib. cbn [default from_option].
  set (c := child_preimage isRight acc sib) in *.
  pose proof (find_preimage_spec (sha256 c) (level_preimages (pad_odd lv))) as Hf.
  destruct (find_preimage _ _) as [p|].
  - destruct Hf as [Hin Hp]. destruct (decide (p = c)) as [->|Hne]; [left|by right].
    apply level_preimages_elem in Hin as (l & r & Hc & Hl & Hr).
    rewrite elem_of_pad_odd in Hl, Hr. rewrite Forall_forall in Hd.
    pose proof (Hd _ Hl) as Hl32. unfold digest, c, child_preimage in *.
    destruct isRight; apply node_preimage_inj in Hc as [-> ->]; try done; congruence.
  - assert (rheight = (height + 1) + Z.of_nat (length path))%Z as Hlen' by (simpl in Hlen; lia).
    destruct (IH _ _ _ _ _ _ (next_level_digests _) (length_sha256 c) Hagg Hlen' Hchk)
      as [Hin|]; [|by right].
    by rewrite next_level_preimages in Hin.
Qed.

Lemma Aggregate_ok leaves agg :
  AggregateMerkleRecursion leaves = Ok agg →
  ∃ level root, hash_leaves 0 leaves = Ok level ∧
    aggregate_loop (length level) level 0 = Some (root, TreeHeight agg) ∧
    Scheme agg = SchemeMerkleRecursionV1 ∧ Count agg = Z.of_nat (length leaves) ∧
    RootHex agg = hex_encode root.
Proof.
  unfold AggregateMerkleRecursion. destruct leaves as [|lf leaves]; [done|].
  intros (level & Hl & H)%result_bind_ok. destruct (aggregate_loop _ _ _) as [[root height]|] eqn:E; [|done].
  simplify_eq/=. eauto 10.
Qed.

Lemma leaf_level_digests leaves : Forall digest ((λ leaf, sha256 (merkleLeafTag ++ leaf)) <$> leaves).
Proof. apply Forall_fmap, Forall_true. intros. apply length_sha256. Qed.

Lemma inclusion_Verify_ok agg proof :
  VerifyMerkleInclusion agg proof = Ok true ↔
  Scheme agg = SchemeMerkleRecursionV1 ∧ TreeHeight agg = Z.of_nat (length (Path proof)) ∧
  length (Path proof) = length (Positions proof) ∧ (0 <= LeafIndex proof < Count agg)%Z ∧
  ∃ leaf acc, hex_decode (LeafHex proof) = Some leaf ∧ length leaf = 32%nat ∧
    inclusion_check 0 leaf (Path proof) (Positions proof) = Ok acc ∧ hex_encode acc = RootHex agg.
Proof.
  unfold VerifyMerkleInclusion. split.
  - intros H. repeat case_match; bool_to_prop; try done.
    apply result_bind_ok in H as (acc & ? & ?). case_match; bool_to_prop; [|done].
    repeat match goal with X : (_ =? _)%nat = true |- _ => apply Nat.eqb_eq in X end. eauto 15 with lia.
  - intros (-> & -> & Hlen & [] & leaf & acc & -> & H32 & Hchk & Hr).
    rewrite bool_decide_eq_true_2, Z.eqb_refl by done. rewrite Hlen, !Nat.eqb_refl. simpl.
    destruct (Z.ltb_spec (LeafIndex proof) 0), (Z.leb_spec (Count agg) (LeafIndex proof)); try lia.
    simpl. rewrite H32. simpl. rewrite Hchk. simpl. by rewrite bool_decide_eq_true_2.
Qed.

(** ** An example *)

(** A two-leaf aggregate and the proof of its second leaf. *)
Definition ex_hash (b : Byte.byte) : bytes := sha256 (merkleLeafTag ++ [b]).
Definition ex_agg : MerkleRecursionProof :=
  {| Scheme := SchemeMerkleRecursionV1; Count := 2; TreeHeight := 1;
     RootHex := hex_encode (sha256 (node_preimage (ex_hash Byte.x01) (ex_hash Byte.x02))) |}.
Definition ex_proof : MerkleInclusionProof :=
  {| LeafIndex := 1; LeafHex := hex_encode (ex_hash Byte.x02); Path := [hex_encode (ex_hash Byte.x01)];
     Positions := [true] |}.

Lemma ex_agg_ok : AggregateMerkleRecursion [[Byte.x01]; [Byte.x02]] = Ok ex_agg.
Proof. reflexivity. Qed.

Lemma ex_proof_ok : VerifyMerkleInclusion ex_agg ex_proof = Ok true.
Proof.
  apply inclusion_Verify_ok. split_and!; [done..|]. exists (ex_hash Byte.x02). eexists.
  unfold ex_proof, LeafHex, Path, Positions. rewrite hex_decode_encode.
  split_and!; [done|apply length_sha256| |reflexivity].
  cbn [inclusion_check]. rewrite hex_decode_encode. unfold ex_hash at 1. by rewrite length_sha256.
Qed.

(** ** Properties *)

(** Completeness of recursion proofs: for every aggregate and every index of
    its leaves, [BuildInclusionProof] succeeds, its proof carries the tagged
    hash of that leaf, and [VerifyMerkleInclusion] accepts it. *)
Theorem BuildInclusionProof_verifies leaves agg i x :
  AggregateMerkleRecursion leaves = Ok agg → leaves !! i = Some x →
  ∃ proof, BuildInclusionProof leaves (Z.of_nat i) = Ok proof ∧
    LeafHex proof = hex_encode (sha256 (merkleLeafTag ++ x)) ∧ VerifyMerkleInclusion agg proof = Ok true.
Proof.
  intros (level & root & Hl & Hagg & Hs & Hc & Hr)%Aggregate_ok Hx.
  pose proof (lookup_lt_Some _ _ _ Hx). pose proof (proj1 (hash_leaves_ok _ _ _) Hl) as [_ Hlev].
  assert (level !! i = Some (sha256 (merkleLeafTag ++ x))) as Hi by (by rewrite Hlev, list_lookup_fmap, Hx).
  assert (Forall digest level) as Hd by (rewrite Hlev; apply leaf_level_digests).
  destruct (inclusion_loop_check _ _ _ _ 0 _ _ _ Hi Hd Hagg) as (path & positions & Hp & Hchk & Hlen & Hh).
  unfold BuildInclusionProof.
  destruct (Z.ltb_spec (Z.of_nat i) 0), (Z.leb_spec (Z.of_nat (length leaves)) (Z.of_nat i)); try lia.
  cbn [orb]. rewrite Hl, Nat2Z.id. cbn [result_bind]. rewrite Hi, Hp. eexists. split; [done|]. split; [done|].
  apply inclusion_Verify_ok. cbn. split; [done|]. split; [lia|]. split; [done|]. split; [lia|].
  eexists _, _. rewrite hex_decode_encode. split; [done|]. split; [apply length_sha256|]. done.
Qed.

Lemma BuildInclusionProof_verifies_witness :
  ∃ proof, BuildInclusionProof [[Byte.x01]; [Byte.x02]] 1 = Ok proof ∧
    LeafHex proof = hex_encode (ex_hash Byte.x02) ∧ VerifyMerkleInclusion ex_agg proof = Ok true.
Proof. exact (BuildInclusionProof_verifies [[Byte.x01]; [Byte.x02]] ex_agg 1 [Byte.x02] ex_agg_ok eq_refl). Defined.

(** Soundness of recursion proofs: when [VerifyMerkleInclusion] accepts, for
    the aggregate of [leaves], any proof whose leaf hash is the tagged hash of
    [x], then [x] is one of [leaves] or the proof yields two different
    preimages of one SHA-256 digest, which are computed from it. *)
Theorem VerifyMerkleInclusion_sound leaves agg proof x :
  AggregateMerkleRecursion leaves = Ok agg → VerifyMerkleInclusion agg proof = Ok true →
  LeafHex proof = hex_encode (sha256 (merkleLeafTag ++ x)) →
  x ∈ leaves ∨
  (∃ y, y ∈ leaves ∧ is_collision (merkleLeafTag ++ y, merkleLeafTag ++ x)) ∨
  is_collision (inclusion_collision ((λ leaf, sha256 (merkleLeafTag ++ leaf)) <$> leaves)
                  (sha256 (merkleLeafTag ++ x)) (Path proof) (Positions proof)).
Proof.
  intros (level & root & Hl & Hagg & _ & _ & Hr)%Aggregate_ok Hv Hleaf.
  apply inclusion_Verify_ok in Hv as (_ & Hh & _ & _ & leaf & acc & Hdec & _ & Hchk & Hacc).
  rewrite Hleaf, hex_decode_encode in Hdec. injection Hdec as <-.
  rewrite Hr in Hacc. apply hex_encode_inj in Hacc as ->.
  apply hash_leaves_ok in Hl as [_ ->].
  destruct (inclusion_check_sound _ _ _ _ _ _ _ _ _ (leaf_level_digests leaves) (length_sha256 _) Hagg Hh Hchk)
    as [Hin|]; [|by right; right].
  apply list_elem_of_fmap in Hin as (y & Hy & Hin).
  destruct (decide (x = y)) as [->|Hne]; [by left|right; left].
  exists y. split; [done|]. split; [|done]. cbn. intros [= E]. congruence.
Qed.

Lemma VerifyMerkleInclusion_sound_witness :
  [Byte.x02] ∈ [[Byte.x01]; [Byte.x02]] ∨
  (∃ y, y ∈ [[Byte.x01]; [Byte.x02]] ∧ is_collision (merkleLeafTag ++ y, merkleLeafTag ++ [Byte.x02])) ∨
  is_collision (inclusion_collision ((λ leaf, sha256 (merkleLeafTag ++ leaf)) <$> [[Byte.x01]; [Byte.x02]])
                  (sha256 (merkleLeafTag ++ [Byte.x02])) (Path ex_proof) (Positions ex_proof)).
Proof. exact (VerifyMerkleInclusion_sound _ ex_agg ex_proof [Byte.x02] ex_agg_ok ex_proof_ok eq_refl). Defined.

(** The verifier binds the leaf, not its position: an accepted proof stays
    accepted when its leaf index is replaced by any index below the
    aggregate's count. *)
Theorem VerifyMerkleInclusion_index_free agg proof j :
  (0 <= j < Count agg)%Z → VerifyMerkleInclusion agg proof = Ok true →
  VerifyMerkleInclusion agg {| LeafIndex := j; LeafHex := LeafHex proof; Path := Path proof;
                               Positions := Positions proof |} = Ok true.
Proof. rewrite !inclusion_Verify_ok. cbn. naive_solver. Qed.

Lemma VerifyMerkleInclusion_index_free_witness :
  VerifyMerkleInclusion ex_agg {| LeafIndex := 0; LeafHex := LeafHex ex_proof; Path := Path ex_proof;
                                  Positions := Positions ex_proof |} = Ok true.
Proof. exact (VerifyMerkleInclusion_index_free ex_agg ex_proof 0 ltac:(done) ex_proof_ok). Defined.
