(* ===== verification/HashFold.v ===== *)
(** * The hash-chain folder ([engine/internal/aggregator/nova.go])

    [FoldStep], [AggregateProof] and [HashFolder] with [Fold], [Compress],
    [Verify] and the stateless wrappers [FoldAll] and [VerifyAll]. *)

From S2P Require Import Prelude GoLib Sha256.

(** ** Data *)

Definition SchemeHashFoldV1 : string := "hash-fold-v1".

Record FoldStep := { Instance : bytes; WitnessDigest : bytes }.

Record AggregateProof := {
  Scheme : string;
  Steps : Z;
  Root : string;
  StepHashes : list string;
}.

Record HashFolder := { acc : bytes; stepHashes : list string; initted : bool }.

Inductive FoldError :=
| ErrFolderNotInitialised
| ErrEmptyInstance
| ErrNoSteps
| ErrScheme (s : string)
| ErrStepCount (got : nat) (agg : Z)
| ErrStepHashesLength (got want : nat)
| ErrStepEmptyInstance (i : nat)
| ErrStepHashMismatch (i : nat)
| ErrFoldRootMismatch
| ErrFoldStep (i : nat) (e : FoldError).

(** ** Operations *)

Definition fold_seed : bytes := sha256 (bytes_of SchemeHashFoldV1).

Definition NewHashFolder : HashFolder := {| acc := fold_seed; stepHashes := []; initted := true |}.

Definition step_hash (step : FoldStep) : bytes := sha256 (Instance step ++ WitnessDigest step).

Definition Fold (f : HashFolder) (step : FoldStep) : result FoldError HashFolder :=
  if negb (initted f) then Err ErrFolderNotInitialised
  else if (length (Instance step) =? 0)%nat then Err ErrEmptyInstance
  else
    let stepH := step_hash step in
    Ok {| acc := sha256 (acc f ++ stepH); stepHashes := stepHashes f ++ [hex_encode stepH];
          initted := initted f |}.

Definition Compress (f : HashFolder) : result FoldError AggregateProof :=
  if negb (initted f) then Err ErrFolderNotInitialised
  else if (length (stepHashes f) =? 0)%nat then Err ErrNoSteps
  else Ok {| Scheme := SchemeHashFoldV1; Steps := Z.of_nat (length (stepHashes f));
             Root := hex_encode (acc f); StepHashes := stepHashes f |}.

(** The replay loop of [Verify]; the step-hash list has the length of the steps. *)
Fixpoint verify_steps (i : nat) (acc : bytes) (steps : list FoldStep) (hashes : list string)
    : result FoldError bytes :=
  match steps, hashes with
  | step :: steps', h :: hashes' =>
      if (length (Instance step) =? 0)%nat then Err (ErrStepEmptyInstance i)
      else
        let stepH := step_hash step in
        if negb (bool_decide (hex_encode stepH = h)) then Err (ErrStepHashMismatch i)
        else verify_steps (S i) (sha256 (acc ++ stepH)) steps' hashes'
  | _, _ => Ok acc
  end.

(** [Verify] reads nothing of its receiver. *)
Definition Verify (steps : list FoldStep) (agg : AggregateProof) : result FoldError bool :=
  if negb (bool_decide (Scheme agg = SchemeHashFoldV1)) then Err (ErrScheme (Scheme agg))
  else if negb (Steps agg =? Z.of_nat (length steps))%Z then Err (ErrStepCount (length steps) (Steps agg))
  else if negb (length (StepHashes agg) =? length steps)%nat
  then Err (ErrStepHashesLength (length (StepHashes agg)) (length steps))
  else
    let! acc := verify_steps 0 fold_seed steps (StepHashes agg) in
    if negb (bool_decide (hex_encode acc = Root agg)) then Err ErrFoldRootMismatch else Ok true.

Fixpoint fold_steps (i : nat) (f : HashFolder) (steps : list FoldStep) : result FoldError HashFolder :=
  match steps with
  | [] => Ok f
  | s :: steps' =>
      match Fold f s with
      | Err e => Err (ErrFoldStep i e)
      | Ok f' => fold_steps (S i) f' steps'
      end
  end.

Definition FoldAll (steps : list FoldStep) : result FoldError AggregateProof :=
  let! f := fold_steps 0 NewHashFolder steps in Compress f.

Definition VerifyAll (steps : list FoldStep) (agg : AggregateProof) : result FoldError bool :=
  Verify steps agg.

(** ** The chain the two loops compute *)

Definition chain (a : bytes) (steps : list FoldStep) : bytes :=
  foldl (λ a s, sha256 (a ++ step_hash s)) a steps.

Definition step_hashes (steps : list FoldStep) : list string := (λ s, hex_encode (step_hash s)) <$> steps.

Lemma length_step_hashes steps : length (step_hashes steps) = length steps.
Proof. apply length_fmap. Qed.

Definition instances_ok (steps : list FoldStep) : Prop := Forall (λ s, Instance s ≠ []) steps.

Lemma fold_steps_ok steps i f f' :
  initted f = true →
  fold_steps i f steps = Ok f' ↔
  instances_ok steps ∧
  f' = {| acc := chain (acc f) steps; stepHashes := stepHashes f ++ step_hashes steps; initted := true |}.
Proof.
  revert i f. induction steps as [|s steps IH]; intros i [a hs b] Hb; cbn in Hb; subst b; cbn [fold_steps].
  - cbn. rewrite app_nil_r. split; [intros [= <-]; split; [constructor|done]|by intros [_ ->]].
  - unfold Fold. cbn [initted negb]. unfold instances_ok. rewrite Forall_cons.
    destruct (Instance s) as [|b l] eqn:E; [cbn; naive_solver|].
    cbn [length Nat.eqb]. rewrite IH by done. cbn. rewrite <- app_assoc. naive_solver.
Qed.

Lemma verify_steps_ok i a steps hashes a' :
  length hashes = length steps →
  verify_steps i a steps hashes = Ok a' ↔
  instances_ok steps ∧ hashes = step_hashes steps ∧ a' = chain a steps.
Proof.
  revert i a hashes. induction steps as [|s steps IH]; intros i a [|h hashes] Hl; try done; cbn [verify_steps].
  - split; [intros [= <-]; split; [constructor|done]|by intros (_ & _ & ->)].
  - unfold instances_ok. rewrite Forall_cons. injection Hl as Hl.
    destruct (Instance s) as [|b l] eqn:E; [cbn; naive_solver|].
    cbn [length Nat.eqb]. case_bool_decide as Hh; cbn [negb].
    + rewrite IH by done. cbn. naive_solver.
    + cbn. naive_solver.
Qed.

Lemma FoldAll_ok steps agg :
  FoldAll steps = Ok agg ↔
  steps ≠ [] ∧ instances_ok steps ∧
  agg = {| Scheme := SchemeHashFoldV1; Steps := Z.of_nat (length steps);
           Root := hex_encode (chain fold_seed steps); StepHashes := step_hashes steps |}.
Proof.
  unfold FoldAll. rewrite result_bind_ok. setoid_rewrite fold_steps_ok; [|done]. unfold Compress.
  destruct steps as [|s steps]; [cbn; naive_solver|]. split.
  - intros (f & [Hi ->] & H). cbn in H. injection H as <-. by rewrite length_step_hashes.
  - intros (_ & Hi & ->). eexists. split; [done|]. cbn. by rewrite length_step_hashes.
Qed.

Lemma fold_Verify_ok steps agg :
  Verify steps agg = Ok true ↔
  instances_ok steps ∧
  agg = {| Scheme := SchemeHashFoldV1; Steps := Z.of_nat (length steps);
           Root := hex_encode (chain fold_seed steps); StepHashes := step_hashes steps |}.
Proof.
  unfold Verify. destruct agg as [sch n root hs]. cbn [Scheme Steps Root StepHashes]. split.
  - intros H. case_bool_decide; [|done]. destruct (Z.eqb_spec n (Z.of_nat (length steps))); [|done].
    destruct (Nat.eqb_spec (length hs) (length steps)); [|done]. cbn [negb] in H.
    apply result_bind_ok in H as (a & (Hi & -> & ->)%verify_steps_ok & H); [|done].
    case_bool_decide; [|done]. naive_solver.
  - intros (Hi & [= -> -> -> ->]). rewrite bool_decide_eq_true_2, Z.eqb_refl by done.
    rewrite length_step_hashes, Nat.eqb_refl. cbn [negb].
    replace (verify_steps _ _ _ _) with (Ok (E := FoldError) (chain fold_seed steps)).
    + cbn. by rewrite bool_decide_eq_true_2.
    + symmetry. apply verify_steps_ok; [by rewrite length_step_hashes|done].
Qed.

(** The first step whose hash preimage differs between two sequences. *)
Fixpoint step_collision (steps steps' : list FoldStep) : bytes * bytes :=
  match steps, steps' with
  | s :: t, s' :: t' =>
      let p := Instance s ++ WitnessDigest s in
      let p' := Instance s' ++ WitnessDigest s' in
      if decide (p = p') then step_collision t t' else (p, p')
  | _, _ => ([], [])
  end.

Lemma step_hashes_eq steps steps' :
  step_hashes steps = step_hashes steps' →
  (λ s, Instance s ++ WitnessDigest s) <$> steps = (λ s, Instance s ++ WitnessDigest s) <$> steps' ∨
  is_collision (step_collision steps steps').
Proof.
  revert steps'. induction steps as [|s steps IH]; intros [|s' steps'] H; try done; [by left|].
  apply cons_inv in H as [Hs%hex_encode_inj H]. cbn [step_collision].
  case_decide as E.
  - cbn. rewrite E. destruct (IH _ H) as [->|]; [by left|by right].
  - right. split; [done|]. exact Hs.
Qed.

(** ** Properties *)

(** Verifying is refolding: [VerifyAll] accepts an aggregate for a list of
    steps exactly when it is the aggregate [FoldAll] produces for them; the one
    exception is the empty list, which [FoldAll] refuses and [VerifyAll]
    accepts with the seed as root. *)
Theorem VerifyAll_iff_FoldAll steps agg :
  VerifyAll steps agg = Ok true ↔
  FoldAll steps = Ok agg ∨
  (steps = [] ∧ agg = {| Scheme := SchemeHashFoldV1; Steps := 0; Root := hex_encode fold_seed; StepHashes := [] |}).
Proof.
  unfold VerifyAll. rewrite fold_Verify_ok, FoldAll_ok. destruct steps as [|s steps].
  - cbn. split; [intros [_ ->]; by right|]. intros [(? & _)|[_ ->]]; [done|]. split; [constructor|done].
  - naive_solver.
Qed.

(** Tamper evidence: when an aggregate folded from one step sequence is
    accepted for another, the two sequences have, step by step, the same bytes
    [Instance || WitnessDigest], or they contain a SHA-256 collision. *)
Theorem VerifyAll_tamper_evident steps steps' agg :
  FoldAll steps = Ok agg → VerifyAll steps' agg = Ok true →
  (λ s, Instance s ++ WitnessDigest s) <$> steps = (λ s, Instance s ++ WitnessDigest s) <$> steps' ∨
  is_collision (step_collision steps steps').
Proof. intros (_ & _ & ->)%FoldAll_ok (_ & [= _ _ H])%fold_Verify_ok. by apply step_hashes_eq. Qed.

(** Two sequences that differ only in where an instance ends. *)
Definition ex_steps : list FoldStep := [{| Instance := bytes_of "ab"; WitnessDigest := bytes_of "c" |}].
Definition ex_steps' : list FoldStep := [{| Instance := bytes_of "a"; WitnessDigest := bytes_of "bc" |}].

Lemma VerifyAll_tamper_evident_witness :
  ∃ agg, FoldAll ex_steps = Ok agg ∧ VerifyAll ex_steps' agg = Ok true ∧
  ((λ s, Instance s ++ WitnessDigest s) <$> ex_steps = (λ s, Instance s ++ WitnessDigest s) <$> ex_steps' ∨
   is_collision (step_collision ex_steps ex_steps')).
Proof.
  eexists. assert (FoldAll ex_steps = Ok _) as H1 by reflexivity.
  assert (VerifyAll ex_steps' {| Scheme := SchemeHashFoldV1; Steps := 1;
    Root := hex_encode (chain fold_seed ex_steps); StepHashes := step_hashes ex_steps |} = Ok true) as H2.
  { apply fold_Verify_ok. split; [by repeat constructor|reflexivity]. }
  split; [exact H1|]. split; [exact H2|]. exact (VerifyAll_tamper_evident _ _ _ H1 H2).
Defined.

(** The step hash does not bind the boundary between instance and witness
    digest: any non-empty prefix [p] of the step's bytes is accepted as the
    instance of the same aggregate. *)
Theorem VerifyAll_boundary_free pre p w q w' post agg :
  p ≠ [] → p ++ w = q ++ w' →
  VerifyAll (pre ++ {| Instance := q; WitnessDigest := w' |} :: post) agg = Ok true →
  VerifyAll (pre ++ {| Instance := p; WitnessDigest := w |} :: post) agg = Ok true.
Proof.
  intros Hp Heq. set (s := {| Instance := p; WitnessDigest := w |}).
  set (s' := {| Instance := q; WitnessDigest := w' |}).
  assert (step_hash s = step_hash s') as Hh by (unfold step_hash; cbn; by rewrite Heq).
  unfold VerifyAll. rewrite !fold_Verify_ok. unfold instances_ok, step_hashes, chain.
  rewrite !Forall_app, !Forall_cons, !fmap_app, !foldl_app, !length_app.
  cbn [fmap list_fmap foldl length]. rewrite Hh. intros [(? & _ & ?) ->]. done.
Qed.

Lemma VerifyAll_boundary_free_witness :
  ∃ agg, VerifyAll ex_steps agg = Ok true ∧ VerifyAll ex_steps' agg = Ok true.
Proof.
  exists {| Scheme := SchemeHashFoldV1; Steps := 1;
    Root := hex_encode (chain fold_seed ex_steps); StepHashes := step_hashes ex_steps |}.
  assert (VerifyAll ex_steps {| Scheme := SchemeHashFoldV1; Steps := 1;
    Root := hex_encode (chain fold_seed ex_steps); StepHashes := step_hashes ex_steps |} = Ok true) as H.
  { apply fold_Verify_ok. split; [by repeat constructor|reflexivity]. }
  split; [exact H|].
  exact (VerifyAll_boundary_free [] (bytes_of "a") (bytes_of "bc") (bytes_of "ab") (bytes_of "c") [] _
           ltac:(done) eq_refl H).
Defined.
