(* ===== verification/Attest.v ===== *)
(** * Decision attestation: verdicts, digests, aggregation, gate, equivocation

    [engine/internal/decision/attest]: [decision.go] ([Verdict], [FacetKind],
    [Decision.ID], [DecisionCommit.CommitDigest], [Aggregate]), [util.go]
    ([writeLP], [writeU64]), [gate.go] ([GateEvaluator.Evaluate]) and
    [equivocation.go] ([EquivocationLedger]). The clock is an argument [now].
    [sort.Slice] is the stable [sort_slice]; Go's sort is not stable, which
    only matters for facet verdicts of equal kind. *)

From S2P Require Import Prelude GoLib Sha256.

(** ** Data ([decision.go]) *)

Inductive Verdict := VerdictUnknown | VerdictApprove | VerdictAbstain | VerdictReject.

#[export] Instance Verdict_eq_dec : EqDecision Verdict.
Proof. solve_decision. Defined.

Definition verdict_byte (v : Verdict) : Byte.byte :=
  match v with
  | VerdictUnknown => Byte.x00
  | VerdictApprove => Byte.x01
  | VerdictAbstain => Byte.x02
  | VerdictReject => Byte.x03
  end.

Definition Verdict_String (v : Verdict) : string :=
  match v with
  | VerdictApprove => "APPROVE"
  | VerdictAbstain => "ABSTAIN"
  | VerdictReject => "REJECT"
  | VerdictUnknown => "UNKNOWN"
  end.

Definition FacetSafety : string := "safety".
Definition FacetCorrectness : string := "correctness".
Definition FacetSpecCompliance : string := "spec_compliance".
Definition FacetEquivocation : string := "equivocation".

Definition AllFacetKinds : list string :=
  [FacetSafety; FacetCorrectness; FacetSpecCompliance; FacetEquivocation].

Definition isCritical (k : string) : bool :=
  bool_decide (k = FacetSafety) || bool_decide (k = FacetEquivocation).

Record Decision := {
  Submitter : string;
  SpecID : string;
  Payload : bytes;
  Nonce : Z;
  SubmittedAt : time;
}.

Record FacetVerdict := {
  Kind : string;
  FVerdict : Verdict;
  Confidence : float64;
  Reason : string;
}.

Record DecisionCommit := {
  CDecision : Decision;
  DecisionID : string;
  FacetVerdicts : list FacetVerdict;
  CAggregate : Verdict;
  VetoedBy : string;
  AbstainReason : string;
}.

Record AggregationPolicy := { ApproveThreshold : Z; MinConfidence : float64 }.

Definition DefaultAggregationPolicy : AggregationPolicy :=
  {| ApproveThreshold := 2; MinConfidence := f_dec 6 1 |}.

Inductive AttestError := ErrNoFacetVerdicts | ErrCommitNotJudged.

(** ** Hash inputs ([util.go], [decision.go]) *)

Definition writeLP (b : bytes) : bytes := be_uint64 (Z.of_nat (length b)) ++ b.
Definition writeU64 (v : Z) : bytes := be_uint64 v.

(** The bytes [ID] hashes. *)
Definition decision_bytes (d : Decision) : bytes :=
  writeLP (bytes_of (Submitter d)) ++ writeLP (bytes_of (SpecID d)) ++ writeLP (Payload d) ++ writeU64 (Nonce d).

Definition ID (d : Decision) : string := hex_encode (sha256 (decision_bytes d)).

Definition kind_less (a b : FacetVerdict) : bool := string_ltb (Kind a) (Kind b).

Definition facet_bytes (fv : FacetVerdict) : bytes :=
  writeLP (bytes_of (Kind fv)) ++ [verdict_byte (FVerdict fv)].

(** The bytes [CommitDigest] hashes. *)
Definition commit_bytes (c : DecisionCommit) : bytes :=
  writeLP (bytes_of (DecisionID c)) ++ concat (facet_bytes <$> sort_slice kind_less (FacetVerdicts c))
  ++ [verdict_byte (CAggregate c)] ++ writeLP (bytes_of (VetoedBy c)).

Definition CommitDigest (c : DecisionCommit) : string := hex_encode (sha256 (commit_bytes c)).

(** ** Aggregation ([Aggregate]) *)

Definition is_veto (fv : FacetVerdict) : bool :=
  isCritical (Kind fv) && bool_decide (FVerdict fv = VerdictReject).

Definition is_critical_doubt (fv : FacetVerdict) : bool :=
  isCritical (Kind fv) && negb (bool_decide (FVerdict fv = VerdictApprove)).

(** The quorum pass: the first non-critical REJECT, or the approvals counted. *)
Fixpoint quorum_pass (policy : AggregationPolicy) (verdicts : list FacetVerdict) (approves : Z)
    : FacetVerdict + Z :=
  match verdicts with
  | [] => inr approves
  | fv :: rest =>
      if isCritical (Kind fv) then quorum_pass policy rest approves
      else if bool_decide (FVerdict fv = VerdictReject) then inl fv
      else if bool_decide (FVerdict fv = VerdictApprove) && f_leb (MinConfidence policy) (Confidence fv)
      then quorum_pass policy rest (approves + 1)
      else quorum_pass policy rest approves
  end.

(** The three passes over a non-empty list of verdicts. *)
Definition Aggregate_nonempty (policy : AggregationPolicy) (verdicts : list FacetVerdict)
    : result AttestError (Verdict * string * string) :=
  match List.find is_veto verdicts with
  | Some fv => Ok (VerdictReject, Kind fv, ("critical-veto: " +:+ Reason fv)%string)
  | None =>
      match List.find is_critical_doubt verdicts with
      | Some fv =>
          Ok (VerdictAbstain, ""%string,
              ("critical facet " +:+ Kind fv +:+ " did not approve ("
               +:+ Verdict_String (FVerdict fv) +:+ ")")%string)
      | None =>
          match quorum_pass policy verdicts 0 with
          | inl fv => Ok (VerdictReject, ""%string, ("non-critical reject: " +:+ Reason fv)%string)
          | inr approves =>
              if (ApproveThreshold policy <=? approves)%Z
              then Ok (VerdictApprove, ""%string, ""%string)
              else Ok (VerdictAbstain, ""%string,
                       ("quorum not reached: " +:+ itoa approves +:+ "/" +:+ itoa (ApproveThreshold policy)
                        +:+ " approves at conf ≥ " +:+ fmt_fixed 2 (MinConfidence policy))%string)
          end
      end
  end.

Definition Aggregate (policy : AggregationPolicy) (verdicts : list FacetVerdict)
    : result AttestError (Verdict * string * string) :=
  match verdicts with
  | [] => Err ErrNoFacetVerdicts
  | _ => Aggregate_nonempty policy verdicts
  end.

(** ** The challenge gate ([gate.go]) *)

Inductive GateDecision := GatePending | GateAllowed | GateBlocked | GateAbstained.

Definition GateDecision_String (g : GateDecision) : string :=
  match g with
  | GateAllowed => "ALLOWED"
  | GateBlocked => "BLOCKED"
  | GateAbstained => "ABSTAINED"
  | GatePending => "PENDING"
  end.

Record ChallengeResult := { Successful : bool; ChReason : string; At : time }.

Definition DefaultChallengeWindow : Z := 5 * second.

(** [Evaluate] of an evaluator with challenge window [window] whose clock
    returns [now]. *)
Definition Evaluate (window : Z) (now : time) (commit : DecisionCommit) (ch : option ChallengeResult)
    : result AttestError GateDecision :=
  match CAggregate commit with
  | VerdictUnknown => Err ErrCommitNotJudged
  | VerdictReject => Ok GateBlocked
  | VerdictAbstain => Ok GateAbstained
  | VerdictApprove =>
      let closesAt := (SubmittedAt (CDecision commit) + window)%Z in
      let blocked :=
        match ch with
        | Some ch => negb (closesAt <? At ch)%Z && Successful ch
        | None => false
        end in
      if blocked then Ok GateBlocked
      else if (now <? closesAt)%Z then Ok GatePending else Ok GateAllowed
  end.

(** ** The equivocation ledger ([equivocation.go]) *)

Record ledgerEntry := { LDecisionID : string; LPayload : bytes; LNonce : Z }.

Notation EquivocationLedger := (gmap string ledgerEntry).

Definition NewEquivocationLedger : EquivocationLedger := ∅.

Definition ledger_key (d : Decision) : string := (Submitter d +:+ "|" +:+ SpecID d)%string.

Definition LedgerCheck (l : EquivocationLedger) (d : Decision) : bool * string :=
  match l !! ledger_key d with
  | None => (false, ""%string)
  | Some entry =>
      if bool_decide (LDecisionID entry = ID d) then (false, ""%string) else (true, LDecisionID entry)
  end.

Definition LedgerRecord (l : EquivocationLedger) (d : Decision) : EquivocationLedger * (bool * string) :=
  match l !! ledger_key d with
  | None =>
      (<[ledger_key d := {| LDecisionID := ID d; LPayload := Payload d; LNonce := Nonce d |}]> l,
       (false, ""%string))
  | Some entry =>
      if bool_decide (LDecisionID entry = ID d) then (l, (false, ""%string))
      else (l, (true, LDecisionID entry))
  end.

Definition EquivocationFacet (l : EquivocationLedger) (d : Decision) : FacetVerdict :=
  let '(conflict, prev) := LedgerCheck l d in
  if conflict then
    {| Kind := FacetEquivocation; FVerdict := VerdictReject; Confidence := f_one;
       Reason := ("same signer previously committed conflicting decision " +:+ prev)%string |}
  else
    {| Kind := FacetEquivocation; FVerdict := VerdictApprove; Confidence := f_one;
       Reason := "no prior conflicting commitment" |}.

(** ** Injectivity of the hash inputs *)

(** What every Go slice and string satisfies on real hardware (2^56 bytes). *)
Definition short (b : bytes) : Prop := (Z.of_nat (length b) < 2 ^ 56)%Z.

Lemma writeLP_app_inj b c x y :
  short b → short c → writeLP b ++ x = writeLP c ++ y → b = c ∧ x = y.
Proof.
  unfold short, writeLP. intros Hb Hc H. rewrite <- !app_assoc in H. apply app_inj_1 in H as [Hl H]; [|done].
  apply be_uint64_inj in Hl; [|split; [lia|eapply Z.lt_trans; [done|reflexivity]]..].
  apply app_inj_1 in H; [done|lia].
Qed.

Lemma verdict_byte_inj v w : verdict_byte v = verdict_byte w → v = w.
Proof. by destruct v, w. Qed.

(** A length prefix below 2^56 starts with a zero byte. *)
Lemma writeLP_head b : short b → ∃ t, writeLP b = Byte.x00 :: t.
Proof.
  unfold short, writeLP, be_uint64, be_uint32. intros H. eexists. cbn [app]. f_equal.
  rewrite <- (byte_of_to_Z Byte.x00). f_equal. change (byte_to_Z Byte.x00) with 0%Z.
  rewrite Z.div_div by lia. apply Z.div_small. change (2^32 * 2^24)%Z with (2^56)%Z. lia.
Qed.

Definition facet_short (fv : FacetVerdict) : Prop := short (bytes_of (Kind fv)).

Lemma facets_bytes_cons fv l x :
  concat (facet_bytes <$> fv :: l) ++ x =
  writeLP (bytes_of (Kind fv)) ++ verdict_byte (FVerdict fv) :: concat (facet_bytes <$> l) ++ x.
Proof. rewrite fmap_cons. unfold facet_bytes at 1. cbn [concat]. by rewrite <- !app_assoc. Qed.

Lemma verdict_byte_known b x y a :
  short b → a ≠ VerdictUnknown → writeLP b ++ x ≠ verdict_byte a :: y.
Proof. intros Hb Ha. destruct (writeLP_head _ Hb) as [t ->]. intros [H _]%cons_inv. by destruct a. Qed.

Lemma facets_bytes_inj l l' a a' x y :
  Forall facet_short l → Forall facet_short l' → a ≠ VerdictUnknown → a' ≠ VerdictUnknown →
  concat (facet_bytes <$> l) ++ verdict_byte a :: x = concat (facet_bytes <$> l') ++ verdict_byte a' :: y →
  (λ fv, (Kind fv, FVerdict fv)) <$> l = (λ fv, (Kind fv, FVerdict fv)) <$> l' ∧ a = a' ∧ x = y.
Proof.
  intros Hl Hl' Ha Ha'. revert l' Hl'.
  induction Hl as [|fv l Hfv Hl IH]; intros l' Hl'; destruct Hl' as [|fv' l' Hfv' Hl'];
    rewrite ?facets_bytes_cons; intros H.
  - apply cons_inv in H as [H%verdict_byte_inj ->]. done.
  - by apply symmetry, verdict_byte_known in H.
  - by apply verdict_byte_known in H.
  - apply writeLP_app_inj in H as [Hk%bytes_of_inj H]; [|done..].
    apply cons_inv in H as [Hv%verdict_byte_inj H].
    destruct (IH _ Hl' H) as (E & -> & ->). split; [|done]. rewrite !fmap_cons. congruence.
Qed.

(** The bounds under which an encoding is read back. *)
Definition decision_short (d : Decision) : Prop :=
  short (bytes_of (Submitter d)) ∧ short (bytes_of (SpecID d)) ∧ short (Payload d) ∧ (0 ≤ Nonce d < 2^64)%Z.

Lemma decision_bytes_inj d d' :
  decision_short d → decision_short d' → decision_bytes d = decision_bytes d' →
  (Submitter d, SpecID d, Payload d, Nonce d) = (Submitter d', SpecID d', Payload d', Nonce d').
Proof.
  intros (H1 & H2 & H3 & H4) (H1' & H2' & H3' & H4') H. unfold decision_bytes, writeU64 in H.
  apply writeLP_app_inj in H as [->%bytes_of_inj H]; [|done..].
  apply writeLP_app_inj in H as [->%bytes_of_inj H]; [|done..].
  apply writeLP_app_inj in H as [-> H]; [|done..].
  by apply be_uint64_inj in H as ->.
Qed.

(** ** Aggregation lemmas *)

Lemma find_none_iff {A} (p : A → bool) l : List.find p l = None ↔ ∀ x, x ∈ l → p x = false.
Proof.
  split; [intros H x Hx; eapply List.find_none; [done|by apply list_elem_of_In]|].
  intros H. destruct (List.find p l) as [x|] eqn:E; [|done].
  apply List.find_some in E as [Hin Hp]. apply list_elem_of_In in Hin. rewrite H in Hp; done.
Qed.

Lemma find_some_elem {A} (p : A → bool) l x : List.find p l = Some x → x ∈ l ∧ p x = true.
Proof. intros [Hin ?]%List.find_some. by apply list_elem_of_In in Hin. Qed.

(** A facet verdict the quorum counts. *)
Definition counted (policy : AggregationPolicy) (fv : FacetVerdict) : bool :=
  negb (isCritical (Kind fv)) && bool_decide (FVerdict fv = VerdictApprove)
  && f_leb (MinConfidence policy) (Confidence fv).

Definition noncritical_reject (fv : FacetVerdict) : bool :=
  negb (isCritical (Kind fv)) && bool_decide (FVerdict fv = VerdictReject).

Lemma quorum_pass_spec policy vs n :
  quorum_pass policy vs n =
  match List.find noncritical_reject vs with
  | Some fv => inl fv
  | None => inr (n + Z.of_nat (length (List.filter (counted policy) vs)))%Z
  end.
Proof.
  revert n. induction vs as [|fv vs IH]; intros n; cbn; [f_equal; lia|].
  unfold noncritical_reject at 1, counted at 1. destruct (isCritical (Kind fv)); cbn; [apply IH|].
  case_bool_decide as E; [done|]. case_bool_decide; cbn; [|apply IH].
  destruct (f_leb _ _); [|apply IH]. rewrite IH. cbn. case_match; [done|]. f_equal. lia.
Qed.

Lemma is_veto_spec fv : is_veto fv = true ↔ isCritical (Kind fv) = true ∧ FVerdict fv = VerdictReject.
Proof. unfold is_veto. by rewrite andb_true_iff, bool_decide_eq_true. Qed.

Lemma is_critical_doubt_false fv :
  is_critical_doubt fv = false ↔ (isCritical (Kind fv) = true → FVerdict fv = VerdictApprove).
Proof. unfold is_critical_doubt. destruct (isCritical _); case_bool_decide; naive_solver. Qed.

Definition critical_approve (vs : list FacetVerdict) : Prop :=
  ∀ fv, fv ∈ vs → isCritical (Kind fv) = true → FVerdict fv = VerdictApprove.

Definition approvals (policy : AggregationPolicy) (vs : list FacetVerdict) : Z :=
  Z.of_nat (length (List.filter (counted policy) vs)).

(** The quorum pass, once every critical facet approved. *)
Lemma quorum_pass_cases policy vs :
  critical_approve vs →
  match quorum_pass policy vs 0 with
  | inl fv => fv ∈ vs ∧ isCritical (Kind fv) = false ∧ FVerdict fv = VerdictReject
  | inr n => n = approvals policy vs ∧ ∀ fv, fv ∈ vs → FVerdict fv ≠ VerdictReject
  end.
Proof.
  intros Hc. rewrite quorum_pass_spec. destruct (List.find noncritical_reject vs) as [fv|] eqn:En.
  - apply find_some_elem in En as [Hin Hn]. unfold noncritical_reject in Hn. by bool_to_prop.
  - rewrite find_none_iff in En. split; [done|]. intros fv Hin Hr.
    destruct (isCritical (Kind fv)) eqn:Hk; [by rewrite Hc in Hr|].
    specialize (En _ Hin). unfold noncritical_reject in En. by rewrite Hk, Hr in En.
Qed.

(** The five outcomes on a non-empty list. *)
Lemma Aggregate_cases policy vs :
  vs ≠ [] →
  (∃ fv r, Aggregate policy vs = Ok (VerdictReject, Kind fv, r) ∧
     fv ∈ vs ∧ isCritical (Kind fv) = true ∧ FVerdict fv = VerdictReject) ∨
  (∃ fv r, Aggregate policy vs = Ok (VerdictAbstain, ""%string, r) ∧
     fv ∈ vs ∧ isCritical (Kind fv) = true ∧ FVerdict fv ≠ VerdictApprove ∧
     ∀ fv', fv' ∈ vs → isCritical (Kind fv') = true → FVerdict fv' ≠ VerdictReject) ∨
  critical_approve vs ∧
  ((∃ fv r, Aggregate policy vs = Ok (VerdictReject, ""%string, r) ∧
     fv ∈ vs ∧ isCritical (Kind fv) = false ∧ FVerdict fv = VerdictReject) ∨
   (∀ fv, fv ∈ vs → FVerdict fv ≠ VerdictReject) ∧
   (Aggregate policy vs = Ok (VerdictApprove, ""%string, ""%string) ∧ (ApproveThreshold policy <= approvals policy vs)%Z ∨
    (∃ r, Aggregate policy vs = Ok (VerdictAbstain, ""%string, r)) ∧ (approvals policy vs < ApproveThreshold policy)%Z)).
Proof.
  intros Hne. replace (Aggregate policy vs) with (Aggregate_nonempty policy vs) by (by destruct vs).
  unfold Aggregate_nonempty. destruct (List.find is_veto vs) as [fv|] eqn:Ev.
  { apply find_some_elem in Ev as [Hin [Hc Hr]%is_veto_spec]. left. eauto 10. }
  rewrite find_none_iff in Ev. right. destruct (List.find is_critical_doubt vs) as [fv|] eqn:Ed.
  { apply find_some_elem in Ed as [Hin Hd]. left. unfold is_critical_doubt in Hd. bool_to_prop.
    eexists fv, _. split_and!; [done..|]. intros fv' Hin' Hc Hr. specialize (Ev _ Hin').
    assert (is_veto fv' = true) by (by apply is_veto_spec). congruence. }
  right. rewrite find_none_iff in Ed. setoid_rewrite is_critical_doubt_false in Ed. split; [done|].
  pose proof (quorum_pass_cases policy vs Ed) as Hq. destruct (quorum_pass policy vs 0) as [fv|n].
  - left. naive_solver.
  - destruct Hq as [-> Hno]. right. split; [done|].
    destruct (Z.leb_spec (ApproveThreshold policy) (approvals policy vs)); eauto.
Qed.

(** ** Properties: digests *)

(** Decision identifiers bind the decision: two decisions with the same [ID]
    agree on submitter, spec, payload and nonce, or their two hash inputs are a
    SHA-256 collision (length prefixes make the encoding injective). *)
Theorem ID_binding d d' :
  decision_short d → decision_short d' → ID d = ID d' →
  (Submitter d, SpecID d, Payload d, Nonce d) = (Submitter d', SpecID d', Payload d', Nonce d') ∨
  is_collision (decision_bytes d, decision_bytes d').
Proof.
  intros Hd Hd' H%hex_encode_inj. destruct (decide (decision_bytes d = decision_bytes d')) as [E|E].
  - left. by apply decision_bytes_inj.
  - by right.
Qed.

Definition ex_decision : Decision :=
  {| Submitter := "01ab"; SpecID := "policy/v1"; Payload := bytes_of "pay"; Nonce := 7; SubmittedAt := 0 |}.
Definition ex_decision_late : Decision :=
  {| Submitter := "01ab"; SpecID := "policy/v1"; Payload := bytes_of "pay"; Nonce := 7; SubmittedAt := 99 |}.

Lemma ID_binding_witness :
  (Submitter ex_decision, SpecID ex_decision, Payload ex_decision, Nonce ex_decision)
  = (Submitter ex_decision_late, SpecID ex_decision_late, Payload ex_decision_late, Nonce ex_decision_late) ∨
  is_collision (decision_bytes ex_decision, decision_bytes ex_decision_late).
Proof. apply (ID_binding ex_decision ex_decision_late); [by repeat split|by repeat split|reflexivity]. Defined.

Definition commit_short (c : DecisionCommit) : Prop :=
  short (bytes_of (DecisionID c)) ∧ short (bytes_of (VetoedBy c)) ∧ Forall facet_short (FacetVerdicts c).

(** Commit digests bind the judgement: two judged commits with the same
    digest have the same decision identifier, the same aggregate, the same
    vetoing facet and, up to evaluation order, the same facet verdicts, or
    their hash inputs are a SHA-256 collision. *)
Theorem CommitDigest_binding c c' :
  commit_short c → commit_short c' → CAggregate c ≠ VerdictUnknown → CAggregate c' ≠ VerdictUnknown →
  CommitDigest c = CommitDigest c' →
  (DecisionID c = DecisionID c' ∧ CAggregate c = CAggregate c' ∧ VetoedBy c = VetoedBy c' ∧
   (λ fv, (Kind fv, FVerdict fv)) <$> FacetVerdicts c ≡ₚ (λ fv, (Kind fv, FVerdict fv)) <$> FacetVerdicts c') ∨
  is_collision (commit_bytes c, commit_bytes c').
Proof.
  intros (H1 & H2 & H3) (H1' & H2' & H3') Ha Ha' H%hex_encode_inj.
  destruct (decide (commit_bytes c = commit_bytes c')) as [E|E]; [left|by right].
  unfold commit_bytes in E. apply writeLP_app_inj in E as [Eid%bytes_of_inj E]; [|done..].
  apply facets_bytes_inj in E as (Ef & Eagg & Ev); [|by rewrite sort_slice_perm..|done|done].
  rewrite <- (app_nil_r (writeLP _)), <- (app_nil_r (writeLP (bytes_of (VetoedBy c')))) in Ev.
  apply writeLP_app_inj in Ev as [Ev%bytes_of_inj _]; [|done..].
  split_and!; [done..|]. rewrite <- (sort_slice_perm kind_less (FacetVerdicts c)), Ef. by rewrite sort_slice_perm.
Qed.

Definition ex_fv (k : string) (v : Verdict) (conf : float64) : FacetVerdict :=
  {| Kind := k; FVerdict := v; Confidence := conf; Reason := "r" |}.
Definition ex_commit (vs : list FacetVerdict) (v : Verdict) : DecisionCommit :=
  {| CDecision := ex_decision; DecisionID := ID ex_decision; FacetVerdicts := vs; CAggregate := v;
     VetoedBy := ""; AbstainReason := "" |}.
Definition ex_facets : list FacetVerdict :=
  [ex_fv FacetSafety VerdictApprove f_one; ex_fv FacetCorrectness VerdictApprove f_one;
   ex_fv FacetSpecCompliance VerdictApprove (f_dec 6 1)].

Lemma CommitDigest_binding_witness :
  (λ fv, (Kind fv, FVerdict fv)) <$> ex_facets ≡ₚ (λ fv, (Kind fv, FVerdict fv)) <$> reverse ex_facets ∨
  is_collision (commit_bytes (ex_commit ex_facets VerdictApprove),
                commit_bytes (ex_commit (reverse ex_facets) VerdictApprove)).
Proof.
  destruct (CommitDigest_binding (ex_commit ex_facets VerdictApprove)
              (ex_commit (reverse ex_facets) VerdictApprove)) as [(_ & _ & _ & H)|H];
    [split_and!; [reflexivity|reflexivity|by repeat constructor]..|done|done|reflexivity|left; exact H|by right].
Defined.

(** Commit digests do not depend on evaluation order: permuting the facet
    verdicts of pairwise different kinds leaves the digest unchanged. *)
Theorem CommitDigest_order c c' :
  DecisionID c = DecisionID c' → CAggregate c = CAggregate c' → VetoedBy c = VetoedBy c' →
  NoDup (Kind <$> FacetVerdicts c) → FacetVerdicts c ≡ₚ FacetVerdicts c' →
  CommitDigest c = CommitDigest c'.
Proof.
  intros H1 H2 H3 Hnd Hp. unfold CommitDigest, commit_bytes. rewrite H1, H2, H3.
  rewrite (sort_slice_unique kind_less (FacetVerdicts c) (FacetVerdicts c')); [done| |done].
  intros x y Hx Hy Hxy Hyx. assert (Kind x = Kind y) as E by (by apply string_not_after_antisym).
  apply list_elem_of_lookup in Hx as [i Hi], Hy as [j Hj]. 
  assert (i = j) as ->; [|congruence].
  eapply (NoDup_lookup _ i j (Kind x)); [done| |]; rewrite list_lookup_fmap; [by rewrite Hi|rewrite Hj; cbn; congruence].
Qed.

Lemma CommitDigest_order_witness :
  CommitDigest (ex_commit ex_facets VerdictApprove) = CommitDigest (ex_commit (reverse ex_facets) VerdictApprove).
Proof.
  apply CommitDigest_order; [reflexivity..| |].
  - apply (bool_decide_unpack (NoDup _)). vm_compute. exact I.
  - symmetry. apply reverse_Permutation.
Defined.

(** ** Properties: aggregation *)

(** The decision table of [Aggregate]: it fails exactly on the empty list; it
    rejects exactly when a critical facet rejects (naming one of them), or every
    critical facet approved and a non-critical one rejects; it approves
    exactly when every critical facet approved, no facet rejected and enough
    non-critical approvals reach the minimum confidence. No number of approvals
    outvotes a critical REJECT or doubt. *)
Theorem Aggregate_table policy vs :
  (Aggregate policy vs = Err ErrNoFacetVerdicts ↔ vs = []) ∧
  (∀ v k r, Aggregate policy vs = Ok (v, k, r) →
    (v = VerdictReject ↔
      (∃ fv, fv ∈ vs ∧ isCritical (Kind fv) = true ∧ FVerdict fv = VerdictReject ∧ k = Kind fv) ∨
      (k = ""%string ∧ critical_approve vs ∧
       ∃ fv, fv ∈ vs ∧ isCritical (Kind fv) = false ∧ FVerdict fv = VerdictReject)) ∧
    (v = VerdictApprove ↔
      critical_approve vs ∧ (∀ fv, fv ∈ vs → FVerdict fv ≠ VerdictReject) ∧
      (ApproveThreshold policy <= approvals policy vs)%Z)).
Proof.
  destruct (decide (vs = [])) as [->|Hne]; [split; done|].
  destruct (Aggregate_cases policy vs Hne) as
    [(fv & r' & -> & Hin & Hc & Hr)|[(fv & r' & -> & Hin & Hc & Hd & Hno)|
     (Hca & [(fv & r' & -> & Hin & Hc & Hr)|(Hno & [[-> Hle]|[[r' ->] Hlt]])])]];
    (split; [done|]); intros v k r [= <- <- _].
  - split; [naive_solver|]. split; [done|]. intros (Hca & _). specialize (Hca _ Hin Hc). congruence.
  - split; (split; [done|]); [|naive_solver].
    intros [(fv' & Hin' & Hc' & Hr & _)|(_ & Hca & _)]; exfalso; [by eapply Hno|naive_solver].
  - split; [naive_solver|]. split; [done|]. intros (_ & Hno & _). by apply Hno in Hr.
  - split; (split; [done|]); [|done]. naive_solver.
  - split; (split; [done|]); [naive_solver|]. intros (_ & _ & ?). lia.
Qed.

Lemma Aggregate_table_witness :
  Aggregate DefaultAggregationPolicy (ex_fv FacetSafety VerdictReject f_one :: ex_facets)
    = Ok (VerdictReject, FacetSafety, "critical-veto: r"%string) ∧
  (∃ fv, fv ∈ ex_fv FacetSafety VerdictReject f_one :: ex_facets ∧ isCritical (Kind fv) = true ∧
     FVerdict fv = VerdictReject ∧ FacetSafety = Kind fv).
Proof.
  split; [reflexivity|].
  destruct (proj1 (proj1 (proj2 (Aggregate_table DefaultAggregationPolicy
    (ex_fv FacetSafety VerdictReject f_one :: ex_facets)) _ _ _ eq_refl)) eq_refl) as [H|(H & _)]; [exact H|discriminate].
Defined.

(** ** Properties: gate and ledger *)

(** The gate: an APPROVEd commit is allowed exactly from the moment its
    challenge window closes, provided no successful challenge was filed by
    then; a successful challenge in the window blocks it at any time, a late
    one is ignored; a REJECTed commit is blocked and an ABSTAINed one abstains,
    whatever the clock and the challenge. *)
Theorem Evaluate_table window now commit ch :
  let closesAt := (SubmittedAt (CDecision commit) + window)%Z in
  let challenged := ∃ c, ch = Some c ∧ Successful c = true ∧ (At c <= closesAt)%Z in
  (Evaluate window now commit ch = Ok GateAllowed ↔
     CAggregate commit = VerdictApprove ∧ ¬ challenged ∧ (closesAt <= now)%Z) ∧
  (Evaluate window now commit ch = Ok GateBlocked ↔
     CAggregate commit = VerdictReject ∨ (CAggregate commit = VerdictApprove ∧ challenged)) ∧
  (Evaluate window now commit ch = Ok GatePending ↔
     CAggregate commit = VerdictApprove ∧ ¬ challenged ∧ (now < closesAt)%Z) ∧
  (Evaluate window now commit ch = Ok GateAbstained ↔ CAggregate commit = VerdictAbstain) ∧
  (Evaluate window now commit ch = Err ErrCommitNotJudged ↔ CAggregate commit = VerdictUnknown).
Proof.
  intros closesAt challenged. unfold Evaluate. fold closesAt.
  destruct (CAggregate commit); [split_and!; naive_solver| |split_and!; naive_solver..].
  set (blocked := match ch with Some _ => _ | None => _ end).
  assert (blocked = true ↔ challenged) as Hb.
  { unfold blocked, challenged. destruct ch as [c|]; [|naive_solver].
    rewrite andb_true_iff, negb_true_iff, Z.ltb_ge. naive_solver. }
  destruct blocked.
  - assert challenged by (by apply Hb). split_and!; split; try done; try naive_solver.
  - assert (¬ challenged) by (by rewrite <- Hb).
    destruct (Z.ltb_spec now closesAt); split_and!; split; try done; try (split_and!; (done || lia));
      try (intros (_ & _ & ?); lia); naive_solver.
Qed.

(** The ledger after recording [ds] in order. *)
Definition record_all (l : EquivocationLedger) (ds : list Decision) : EquivocationLedger :=
  foldl (λ l d, fst (LedgerRecord l d)) l ds.

Definition first_at (key : string) (ds : list Decision) : option Decision :=
  List.find (λ d, bool_decide (ledger_key d = key)) ds.

Lemma record_all_lookup ds l key :
  record_all l ds !! key =
  match l !! key with
  | Some e => Some e
  | None => (λ d, {| LDecisionID := ID d; LPayload := Payload d; LNonce := Nonce d |}) <$> first_at key ds
  end.
Proof.
  revert l. induction ds as [|d ds IH]; intros l; cbn; [by destruct (l !! key)|].
  unfold record_all in IH. rewrite IH. unfold LedgerRecord. case_bool_decide as E.
  - subst key. destruct (l !! ledger_key d) as [e|] eqn:El; cbn.
    + case_bool_decide; cbn; by rewrite El.
    + by rewrite lookup_insert_eq.
  - destruct (l !! ledger_key d) as [e|] eqn:El; cbn.
    + case_bool_decide; cbn; by destruct (l !! key).
    + rewrite lookup_insert_ne by done. by destruct (l !! key).
Qed.

(** First commitment wins: after any sequence of [Record] calls, a decision is
    reported as equivocating (by [Check], by [Record] and as a REJECT of the
    critical equivocation facet) exactly when the first decision recorded in
    its slot has another identifier, and that identifier is the one reported. *)
Theorem ledger_first_commitment ds d :
  let l := record_all NewEquivocationLedger ds in
  let verdict :=
    match first_at (ledger_key d) ds with
    | Some d0 => if bool_decide (ID d0 = ID d) then (false, ""%string) else (true, ID d0)
    | None => (false, ""%string)
    end in
  LedgerCheck l d = verdict ∧ snd (LedgerRecord l d) = verdict ∧
  (FVerdict (EquivocationFacet l d) = VerdictReject ↔ fst verdict = true) ∧
  record_all NewEquivocationLedger (ds ++ [d]) = fst (LedgerRecord l d).
Proof.
  intros l verdict. unfold EquivocationFacet.
  assert (LedgerCheck l d = verdict) as Hc.
  { unfold LedgerCheck, l, verdict, NewEquivocationLedger. rewrite record_all_lookup, lookup_empty.
    by destruct (first_at _ _) as [d0|]. }
  split_and!; [done| | |].
  - rewrite <- Hc. unfold LedgerRecord, LedgerCheck. repeat case_match; done.
  - rewrite Hc. destruct verdict as [[] ?]; done.
  - unfold record_all. by rewrite foldl_app.
Qed.
