(* ===== verification/Byzantine.v ===== *)
(** * Byzantine-robust facet aggregation
      ([engine/internal/decision/attest/byzantine.go])

    Several verdicts per facet kind are reduced to one, which [Attest.Aggregate]
    then aggregates. The properties are about voters of which at most [F] per
    kind are Byzantine. *)

From S2P Require Import Prelude GoLib Sha256 Attest.

Local Open Scope Z_scope.

(** ** Definitions *)

Record ByzantinePolicy := { F : Z }.

Definition DefaultByzantinePolicy : ByzantinePolicy := {| F := 1 |}.

Inductive ByzantineError :=
| ErrEmptyByzantineInput
| ErrNegativeBound (f : Z)
| ErrAggregate (e : AttestError).

Definition medianConfidence (vs : list FacetVerdict) : float64 :=
  match vs with
  | [] => f_zero
  | _ =>
      let confs := sort_slice float_less (Confidence <$> vs) in
      let mid := (length confs / 2)%nat in
      if (length confs mod 2 =? 1)%nat then nth mid confs f_zero
      else f_div (f_add (nth (mid - 1) confs f_zero) (nth mid confs f_zero)) (f_of_Z 2)
  end.

(** Highest confidence first, ties by reason. *)
Definition reject_less (a b : FacetVerdict) : bool :=
  if negb (f_eqb (Confidence a) (Confidence b)) then f_ltb (Confidence b) (Confidence a)
  else string_ltb (Reason a) (Reason b).

Definition is_reject (v : FacetVerdict) : bool := bool_decide (FVerdict v = VerdictReject).
Definition is_approve (v : FacetVerdict) : bool := bool_decide (FVerdict v = VerdictApprove).

(** [pick := rejects[0]] exists: the branch needs [f + 1 >= 1] rejects. *)
Definition reducePerKind (kind : string) (voters : list FacetVerdict) (f required : Z) : FacetVerdict :=
  let n := Z.of_nat (length voters) in
  if n <? required then
    {| Kind := kind; FVerdict := VerdictAbstain; Confidence := f_zero;
       Reason := ("insufficient-redundancy: " +:+ itoa n +:+ " voters, need " +:+ itoa required
                  +:+ " (F=" +:+ itoa f +:+ ")")%string |}
  else
    let rejects := List.filter is_reject voters in
    let approves := List.filter is_approve voters in
    let abstains := n - Z.of_nat (length rejects) - Z.of_nat (length approves) in
    if f + 1 <=? Z.of_nat (length rejects) then
      let rejects := sort_slice reject_less rejects in
      let citing := from_option Reason ""%string (head rejects) in
      {| Kind := kind; FVerdict := VerdictReject; Confidence := medianConfidence rejects;
         Reason := ("byzantine-robust reject: " +:+ itoa (Z.of_nat (length rejects)) +:+ "/" +:+ itoa n
                    +:+ " rejects (F=" +:+ itoa f +:+ "), citing " +:+ quote citing)%string |}
    else if n - f <=? Z.of_nat (length approves) then
      {| Kind := kind; FVerdict := VerdictApprove; Confidence := medianConfidence approves;
         Reason := ("byzantine-robust approve: " +:+ itoa (Z.of_nat (length approves)) +:+ "/" +:+ itoa n
                    +:+ " approves (F=" +:+ itoa f +:+ "), median conf")%string |}
    else
      {| Kind := kind; FVerdict := VerdictAbstain; Confidence := f_zero;
         Reason := ("no-honest-quorum: rejects=" +:+ itoa (Z.of_nat (length rejects))
                    +:+ " approves=" +:+ itoa (Z.of_nat (length approves))
                    +:+ " abstains=" +:+ itoa abstains
                    +:+ " (F=" +:+ itoa f +:+ ", N=" +:+ itoa n +:+ ")")%string |}.

(** One round of the grouping loop: [kindOrder] and [byKind]. *)
Definition group_step (st : list string * gmap string (list FacetVerdict)) (v : FacetVerdict)
    : list string * gmap string (list FacetVerdict) :=
  let '(kindOrder, byKind) := st in
  match byKind !! Kind v with
  | None => (kindOrder ++ [Kind v], <[Kind v := [v]]> byKind)
  | Some vs => (kindOrder, <[Kind v := vs ++ [v]]> byKind)
  end.

Definition group (verdicts : list FacetVerdict) : list string * gmap string (list FacetVerdict) :=
  foldl group_step ([], ∅) verdicts.

Definition reduce_all (f : Z) (verdicts : list FacetVerdict) : list FacetVerdict :=
  let '(kindOrder, byKind) := group verdicts in
  (λ kind, reducePerKind kind (default [] (byKind !! kind)) f (2 * f + 1)) <$> kindOrder.

Definition AggregateByzantineRobust (bz : ByzantinePolicy) (policy : AggregationPolicy)
    (verdicts : list FacetVerdict)
    : result ByzantineError (Verdict * string * string * list FacetVerdict) :=
  if (length verdicts =? 0)%nat then Err ErrEmptyByzantineInput
  else if F bz <? 0 then Err (ErrNegativeBound (F bz))
  else
    let reduced := reduce_all (F bz) verdicts in
    match Aggregate policy reduced with
    | Ok (final, vetoKind, reason) => Ok (final, vetoKind, reason, reduced)
    | Err e => Err (ErrAggregate e)
    end.

(** ** Grouping *)

Definition of_kind (k : string) (verdicts : list FacetVerdict) : list FacetVerdict :=
  List.filter (λ v, bool_decide (Kind v = k)) verdicts.

Lemma of_kind_snoc k vs v :
  of_kind k (vs ++ [v]) = of_kind k vs ++ (if bool_decide (Kind v = k) then [v] else []).
Proof. unfold of_kind. rewrite List.filter_app. cbn. by case_bool_decide. Qed.

Lemma of_kind_nil k vs : of_kind k vs = [] ↔ ∀ v, v ∈ vs → Kind v ≠ k.
Proof.
  induction vs as [|v vs IH]; cbn; [split; [intros _ w ?%elem_of_nil; done|done]|].
  case_bool_decide as E.
  - split; [done|]. intros H. exfalso. by apply (H v); [left|].
  - unfold of_kind in IH. rewrite IH. setoid_rewrite elem_of_cons. naive_solver.
Qed.

(** The loop groups the verdicts by kind, in order of first appearance. *)
Lemma group_spec vs :
  (∀ k, k ∈ fst (group vs) ↔ ∃ v, v ∈ vs ∧ Kind v = k) ∧ NoDup (fst (group vs)) ∧
  (∀ k, snd (group vs) !! k = if decide (of_kind k vs = []) then None else Some (of_kind k vs)).
Proof.
  induction vs as [|v vs (IH1 & IH2 & IH3)] using rev_ind.
  { cbn. split_and!; [|constructor|done]. intros k. rewrite elem_of_nil. split; [done|].
    by intros (v & ?%elem_of_nil & _). }
  unfold group in *. rewrite foldl_app. cbn [foldl].
  destruct (foldl group_step ([], ∅) vs) as [ks m]. cbn [fst snd] in *. unfold group_step.
  destruct (m !! Kind v) as [l|] eqn:El; pose proof (IH3 (Kind v)) as E; rewrite El in E;
    (case_decide as Hn; [|]); simplify_eq; cbn [fst snd].
  - split_and!; [|done|].
    + intros k. rewrite IH1. setoid_rewrite elem_of_app. setoid_rewrite list_elem_of_singleton.
      split; [naive_solver|]. intros (w & [?| ->] & <-); [naive_solver|].
      destruct (of_kind (Kind v) vs) as [|u us] eqn:Eu; [done|].
      assert (Hu : u ∈ of_kind (Kind v) vs) by (rewrite Eu; left).
      unfold of_kind in Hu. apply list_elem_of_In, List.filter_In in Hu as [Hu Hk].
      apply list_elem_of_In in Hu. bool_to_prop. eauto.
    + intros k. rewrite of_kind_snoc. case_bool_decide as Ek.
      * subst k. rewrite lookup_insert_eq. case_decide as D; [by destruct (of_kind _ _)|done].
      * rewrite lookup_insert_ne by done. rewrite IH3, app_nil_r. done.
  - split_and!.
    + intros k. rewrite elem_of_app, IH1. setoid_rewrite elem_of_app.
      setoid_rewrite list_elem_of_singleton. naive_solver.
    + apply NoDup_app. split_and!; [done| |apply NoDup_singleton].
      intros k (w & Hw & Hk)%IH1 ->%list_elem_of_singleton. by eapply of_kind_nil.
    + intros k. rewrite of_kind_snoc. case_bool_decide as Ek.
      * subst k. rewrite lookup_insert_eq, Hn. done.
      * rewrite lookup_insert_ne by done. by rewrite IH3, app_nil_r.
Qed.

(** Each kind that occurs is reduced once, from all its verdicts. *)
Lemma elem_of_reduce_all f vs r :
  r ∈ reduce_all f vs ↔
  ∃ k, of_kind k vs ≠ [] ∧ r = reducePerKind k (of_kind k vs) f (2 * f + 1).
Proof.
  unfold reduce_all. destruct (group_spec vs) as (H1 & _ & H3).
  destruct (group vs) as [ks m]. cbn [fst snd] in *. rewrite list_elem_of_fmap. split.
  - intros (k & -> & Hk). exists k. assert (of_kind k vs ≠ []) as Hn.
    { rewrite of_kind_nil. apply H1 in Hk as (v & Hv & Hk). naive_solver. }
    split; [done|]. rewrite H3. by case_decide.
  - intros (k & Hn & ->). exists k. rewrite H3. case_decide; [done|]. split; [done|]. apply H1.
    destruct (of_kind k vs) as [|u us] eqn:Eu; [done|]. assert (Hu : u ∈ of_kind k vs) by (rewrite Eu; left).
    apply list_elem_of_In, List.filter_In in Hu as [Hu Hk]. apply list_elem_of_In in Hu. bool_to_prop. eauto.
Qed.

(** ** Counting honest voters *)

Lemma count_of_kind p k vs : count p (of_kind k vs) = count (λ v, bool_decide (Kind v = k) && p v) vs.
Proof.
  unfold count, of_kind. f_equal. induction vs as [|v vs IH]; cbn; [done|].
  case_bool_decide; cbn; [|done]. destruct (p v); cbn; lia.
Qed.

(** Voters tagged [true] are Byzantine; at most [f] of them per kind. *)
Definition byzantine_bounded (f : Z) (t : list (bool * FacetVerdict)) : Prop :=
  ∀ k, count (λ q : bool * FacetVerdict, fst q && bool_decide (Kind (snd q) = k)) t <= f.

Lemma honest_voter t (p : FacetVerdict → bool) :
  count (λ q : bool * FacetVerdict, fst q && p (snd q)) t < count p (snd <$> t) →
  ∃ v, (false, v) ∈ t ∧ p v = true.
Proof.
  unfold count. induction t as [|[b v] t IH]; cbn; [lia|]. intros H.
  destruct b, (p v) eqn:E; cbn in H;
    try (exists v; split; [left|done]);
    (destruct IH as (w & ? & ?); [lia|exists w; split; [by right|done]]).
Qed.

Lemma honest_of_kind f t k p :
  byzantine_bounded f t → f < count p (of_kind k (snd <$> t)) →
  ∃ v, (false, v) ∈ t ∧ Kind v = k ∧ p v = true.
Proof.
  intros Hb Hc. rewrite count_of_kind in Hc.
  destruct (honest_voter t (λ v, bool_decide (Kind v = k) && p v)) as (v & Hin & Hv).
  - eapply Z.le_lt_trans; [|exact Hc]. etransitivity; [|apply (Hb k)]. apply count_mono.
    intros [[] v]; cbn; [|done]. intros; by bool_to_prop; case_bool_decide.
  - bool_to_prop. eauto.
Qed.

Lemma reducePerKind_cases k vs f :
  let r := reducePerKind k vs f (2 * f + 1) in
  Kind r = k ∧
  (FVerdict r = VerdictReject ↔ 2 * f + 1 <= Z.of_nat (length vs) ∧ f + 1 <= count is_reject vs) ∧
  (FVerdict r = VerdictApprove ↔ 2 * f + 1 <= Z.of_nat (length vs) ∧ count is_reject vs <= f ∧
     Z.of_nat (length vs) - f <= count is_approve vs).
Proof.
  unfold reducePerKind. unfold count. cbv zeta.
  destruct (Z.ltb_spec (Z.of_nat (length vs)) (2 * f + 1)); [cbn; split_and!; [done|..]; split; (done || lia)|].
  destruct (Z.leb_spec (f + 1) (Z.of_nat (length (List.filter is_reject vs))));
    [cbn; split_and!; [done|..]; split; (done || lia)|].
  destruct (Z.leb_spec (Z.of_nat (length vs) - f) (Z.of_nat (length (List.filter is_approve vs))));
    cbn; split_and!; try done; split; (done || lia).
Qed.

Lemma reduced_nonempty f vs : vs ≠ [] → reduce_all f vs ≠ [].
Proof.
  destruct vs as [|v vs]; [done|]. intros _ E.
  assert (reducePerKind (Kind v) (of_kind (Kind v) (v :: vs)) f (2 * f + 1) ∈ reduce_all f (v :: vs)) as H.
  { apply elem_of_reduce_all. exists (Kind v). split; [|done]. rewrite of_kind_nil. intros H. by apply (H v); [left|]. }
  rewrite E in H. by apply elem_of_nil in H.
Qed.

Lemma AggregateByzantineRobust_ok bz policy vs final veto reason reduced :
  AggregateByzantineRobust bz policy vs = Ok (final, veto, reason, reduced) →
  vs ≠ [] ∧ 0 <= F bz ∧ reduced = reduce_all (F bz) vs ∧ Aggregate policy reduced = Ok (final, veto, reason).
Proof.
  unfold AggregateByzantineRobust. destruct vs as [|v vs]; [done|].
  destruct (Z.ltb_spec (F bz) 0); [done|]. set (rs := reduce_all _ _).
  destruct (Aggregate policy rs) as [[[] ?]|] eqn:E; cbn; intros [=]; by subst.
Qed.

(** ** Properties *)


(** Three voters on safety, the first of them Byzantine. *)
Definition ex_votes : list (bool * FacetVerdict) :=
  [(true, ex_fv FacetSafety VerdictReject f_one); (false, ex_fv FacetSafety VerdictApprove f_one);
   (false, ex_fv FacetSafety VerdictApprove f_one); (false, ex_fv FacetCorrectness VerdictApprove f_one);
   (false, ex_fv FacetCorrectness VerdictApprove f_one); (false, ex_fv FacetCorrectness VerdictApprove f_one)].
Definition ex_policy : AggregationPolicy := {| ApproveThreshold := 1; MinConfidence := f_dec 6 1 |}.

Lemma ex_votes_bounded : byzantine_bounded 1 ex_votes.
Proof.
  intros k. transitivity (count fst ex_votes); [|done]. apply count_mono. intros x Hx. by bool_to_prop.
Qed.


(** Byzantine rejection: [F + 1] rejections among the at least [2F + 1] voters
    of one critical kind reject the decision, whatever every other voter says. *)
Theorem byzantine_veto bz policy vs k :
  0 <= F bz → isCritical k = true → 2 * F bz + 1 <= Z.of_nat (length (of_kind k vs)) →
  F bz + 1 <= count is_reject (of_kind k vs) →
  ∃ veto reason reduced,
    AggregateByzantineRobust bz policy vs = Ok (VerdictReject, veto, reason, reduced) ∧ isCritical veto = true.
Proof.
  intros HF Hk Hlen Hrej. assert (of_kind k vs ≠ []) as Hn by (intros E; rewrite E in Hlen; cbn in Hlen; lia).
  assert (vs ≠ []) as Hne by (intros ->; done). unfold AggregateByzantineRobust.
  destruct vs as [|v vs]; [done|]. destruct (Z.ltb_spec (F bz) 0); [lia|]. cbn [length Nat.eqb].
  destruct (reducePerKind_cases k (of_kind k (v :: vs)) (F bz)) as (Hk' & [_ Hr] & _).
  specialize (Hr (conj Hlen Hrej)).
  pose proof (proj2 (elem_of_reduce_all (F bz) (v :: vs) _) (ex_intro _ k (conj Hn eq_refl))) as Hin.
  set (r := reducePerKind _ _ _ _) in *. set (rs := reduce_all _ _) in *.
  destruct (Aggregate_cases policy rs (reduced_nonempty (F bz) _ Hne)) as
    [(fv & r' & -> & _ & Hc & _)|[(fv & r' & _ & _ & _ & _ & Hno)|(Hca & _)]].
  - eauto 10.
  - exfalso. eapply (Hno r); [done|by rewrite Hk'|done].
  - exfalso. assert (FVerdict r = VerdictApprove) by (apply Hca; [done|by rewrite Hk']). congruence.
Qed.

Lemma byzantine_veto_witness :
  ∃ veto reason reduced,
    AggregateByzantineRobust DefaultByzantinePolicy ex_policy
      (snd <$> (true, ex_fv FacetSafety VerdictReject f_zero) :: ex_votes)
    = Ok (VerdictReject, veto, reason, reduced) ∧ isCritical veto = true.
Proof. apply (byzantine_veto _ _ _ FacetSafety); vm_compute; congruence. Defined.

(** ** What the comments promise and the rule does not give *)

(** With three voters and [F = 1] two approvals reduce a kind to APPROVE although
    the third, honest, voter rejected: not every honest voter approved. *)
Example approve_with_honest_reject :
  FVerdict (reducePerKind FacetSafety
    [ex_fv FacetSafety VerdictApprove f_one; ex_fv FacetSafety VerdictApprove f_one;
     ex_fv FacetSafety VerdictReject f_one] 1 3) = VerdictApprove.
Proof. vm_compute. reflexivity. Qed.

(** One Byzantine approval at confidence 1 lifts the median of two approvals
    above a minimum of 0.6 that the honest approval (0.3) misses. *)
Example median_moved_by_one_voter :
  f_leb (f_dec 6 1) (medianConfidence
    [ex_fv FacetCorrectness VerdictApprove f_one; ex_fv FacetCorrectness VerdictApprove (f_dec 3 1)]) = true ∧
  f_leb (f_dec 6 1) (f_dec 3 1) = false.
Proof. vm_compute. done. Qed.
