(* ===== verification/Conformal.v ===== *)
(** * Conformal abstention ([engine/internal/decision/attest/conformal.go])

    Calibration of a confidence threshold on labelled samples, the rewriting of
    verdicts below it and the wrapper around [Attest.Aggregate]. *)

From S2P Require Import Prelude GoLib Sha256 Attest.

Local Open Scope Z_scope.

(** ** Definitions *)

Record CalibrationSample := { SConfidence : float64; Correct : bool; SVerdict : Verdict }.

Inductive ConformalError := ErrCalibrationEmpty | ErrInvalidAlpha | ErrConformalAggregate (e : AttestError).

Definition usable (s : CalibrationSample) : bool := negb (bool_decide (SVerdict s = VerdictAbstain)).

(** [float64(errs) / float64(total)] *)
Definition ratio (e : Z * Z) : float64 := f_div (f_of_Z (fst e)) (f_of_Z (snd e)).

(** [(suffixErr[i], suffixCnt[i])] for the suffix [l] of the sorted samples. *)
Fixpoint suffix_counts (l : list CalibrationSample) : Z * Z :=
  match l with
  | [] => (0, 0)
  | s :: l' =>
      let '(e, c) := suffix_counts l' in
      ((if Correct s then e else e + 1), c + 1)
  end.

(** The sweep: the first sample whose suffix meets the budget. *)
Fixpoint sweep (l : list CalibrationSample) (alpha : float64) : option float64 :=
  match l with
  | [] => None
  | s :: l' =>
      if f_leb (ratio (suffix_counts l)) alpha then Some (SConfidence s) else sweep l' alpha
  end.

Definition sample_less (a b : CalibrationSample) : bool := f_ltb (SConfidence a) (SConfidence b).

Definition CalibrateAbstention (cal : list CalibrationSample) (alpha : float64)
    : result ConformalError float64 :=
  if f_leb alpha f_zero || f_ltb f_one alpha then Err ErrInvalidAlpha
  else
    let filtered := List.filter usable cal in
    if (length filtered =? 0)%nat then Err ErrCalibrationEmpty
    else Ok (default f_one (sweep (sort_slice sample_less filtered) alpha)).

(** [truncate]: the slice [s[:n]] is in range when it is taken. *)
Definition truncate (s : string) (n : nat) : string :=
  if (String.length s <=? n)%nat then s else (String.substring 0 n s +:+ "...")%string.

Definition conformal_rewrite (tau : float64) (v : FacetVerdict) : FacetVerdict :=
  if negb (bool_decide (FVerdict v = VerdictAbstain)) && f_ltb (Confidence v) tau then
    {| Kind := Kind v; FVerdict := VerdictAbstain; Confidence := Confidence v;
       Reason := ("conformal-abstain: conf=" +:+ fmt_fixed 4 (Confidence v) +:+ " < tau=" +:+ fmt_fixed 4 tau
                  +:+ " (was " +:+ Verdict_String (FVerdict v) +:+ ": " +:+ truncate (Reason v) 80 +:+ ")")%string |}
  else v.

Definition ApplyConformalAbstention (verdicts : list FacetVerdict) (tau : float64) : list FacetVerdict :=
  conformal_rewrite tau <$> verdicts.

Definition AggregateWithConformalAbstention (cal : list CalibrationSample) (alpha : float64)
    (policy : AggregationPolicy) (verdicts : list FacetVerdict)
    : result ConformalError (Verdict * string * string * float64) :=
  let! tau := CalibrateAbstention cal alpha in
  let adjusted := ApplyConformalAbstention verdicts tau in
  match Aggregate policy adjusted with
  | Err e => Err (ErrConformalAggregate e)
  | Ok (final, veto, reason) =>
      let prefix := ("[tau=" +:+ fmt_fixed 4 tau +:+ " alpha=" +:+ fmt_fixed 2 alpha +:+ "] ")%string in
      let fullReason :=
        if negb (bool_decide (reason = ""%string)) then (prefix +:+ reason)%string
        else if bool_decide (final = VerdictApprove) then (prefix +:+ "approved")%string
        else reason in
      Ok (final, veto, fullReason, tau)
  end.

(** The counting loop of [EmpiricalRiskAtTau]; NaN for an empty tail. *)
Definition risk_step (tau : float64) (st : Z * Z) (s : CalibrationSample) : Z * Z :=
  let '(errs, tot) := st in
  if bool_decide (SVerdict s = VerdictAbstain) then (errs, tot)
  else if f_leb tau (SConfidence s) then ((if Correct s then errs else errs + 1), tot + 1)
  else (errs, tot).

Definition EmpiricalRiskAtTau (cal : list CalibrationSample) (tau : float64) : float64 * Z :=
  let '(errs, tot) := foldl (risk_step tau) (0, 0) cal in
  if tot =? 0 then (S754_nan, 0) else (ratio (errs, tot), tot).

(** ** The sweep and the tail risk *)

Definition wrong (s : CalibrationSample) : bool := negb (Correct s).
Definition in_tail (tau : float64) (s : CalibrationSample) : bool := f_leb tau (SConfidence s).

Lemma suffix_counts_count l : suffix_counts l = (count wrong l, Z.of_nat (length l)).
Proof.
  induction l as [|s l IH]; cbn [suffix_counts]; [done|]. rewrite IH, count_cons.
  change (wrong s) with (negb (Correct s)). destruct (Correct s); cbn [negb length]; f_equal; lia.
Qed.

Lemma risk_step_eq tau e c s :
  risk_step tau (e, c) s =
  if usable s && in_tail tau s then (e + (if Correct s then 0 else 1), c + 1) else (e, c).
Proof.
  unfold risk_step, usable, in_tail. case_bool_decide; cbn; [done|].
  destruct (f_leb _ _); [|done]. destruct (Correct s); f_equal; lia.
Qed.

Lemma risk_counts cal tau :
  foldl (risk_step tau) (0, 0) cal =
  (count (λ s, in_tail tau s && wrong s) (List.filter usable cal), count (in_tail tau) (List.filter usable cal)).
Proof.
  assert (∀ e c, foldl (risk_step tau) (e, c) cal =
    (e + count (λ s, in_tail tau s && wrong s) (List.filter usable cal),
     c + count (in_tail tau) (List.filter usable cal))) as H; [|by rewrite H].
  induction cal as [|s cal IH]; intros e c; cbn [foldl List.filter]; [rewrite !count_nil; f_equal; lia|].
  rewrite risk_step_eq. destruct (usable s); cbn [andb]; [|apply IH]. rewrite !count_cons.
  change (wrong s) with (negb (Correct s)).
  destruct (in_tail tau s), (Correct s); cbn [negb andb]; rewrite IH; f_equal; lia.
Qed.

(** Confidences that are numbers, no two of them equal. *)
Definition distinct_confidences (l : list CalibrationSample) : Prop :=
  Forall (λ s, is_nan (SConfidence s) = false) l ∧ NoDup ((λ s, float_key (SConfidence s)) <$> l).

Definition strictly_before (s t : CalibrationSample) : Prop :=
  key_lt (float_key (SConfidence s)) (float_key (SConfidence t)).

Lemma sorted_strict l :
  distinct_confidences l →
  StronglySorted strictly_before (sort_slice sample_less l) ∧
  Forall (λ s, is_nan (SConfidence s) = false) (sort_slice sample_less l).
Proof.
  intros [Hnan Hnd]. split; [|by rewrite sort_slice_perm].
  rewrite (sort_slice_ext sample_less (λ x y, float_less (SConfidence x) (SConfidence y))).
  2:{ intros x y Hx Hy. rewrite Forall_forall in Hnan. unfold sample_less, float_less.
      by rewrite (Hnan x), orb_false_r. }
  pose proof (sort_slice_sorted (λ x y, float_less (SConfidence x) (SConfidence y)) l) as Hs.
  assert (NoDup ((λ s, float_key (SConfidence s)) <$>
    sort_slice (λ x y, float_less (SConfidence x) (SConfidence y)) l)) as Hnd' by (by rewrite sort_slice_perm).
  induction Hs as [|x k Hs IH Hx]; [constructor|]. rewrite fmap_cons in Hnd'.
  apply NoDup_cons in Hnd' as [Hnx Hnd']. constructor; [by apply IH|].
  rewrite Forall_forall in Hx |- *. intros y Hy. specialize (Hx y Hy). unfold not_after in Hx.
  assert (¬ key_lt (float_key (SConfidence y)) (float_key (SConfidence x))) as [?|E]%key_lt_neg; [|done|].
  - rewrite <- float_less_key. congruence.
  - exfalso. apply Hnx. rewrite <- E. apply list_elem_of_fmap. eauto.
Qed.

(** In the sorted samples, the tail at a sample's confidence is its suffix. *)
Lemma tail_is_suffix p s l :
  StronglySorted strictly_before (p ++ s :: l) →
  Forall (λ s, is_nan (SConfidence s) = false) (p ++ s :: l) →
  List.filter (in_tail (SConfidence s)) (p ++ s :: l) = s :: l.
Proof.
  intros Hs Hn. apply Forall_app in Hn as [Hnp [Hns Hnl]%Forall_cons]. rewrite List.filter_app.
  assert (∀ t, is_nan (SConfidence t) = false →
    in_tail (SConfidence s) t = true ↔ ¬ strictly_before t s) as Ht by (intros; by apply f_leb_key).
  assert (List.filter (in_tail (SConfidence s)) p = []) as ->.
  { induction p as [|t p IH]; [done|]. cbn in *. inversion Hs as [|? ? Hs' Hall]; subst.
    apply Forall_cons in Hnp as [Hnt Hnp]. rewrite IH by done.
    destruct (in_tail (SConfidence s) t) eqn:E; [|done]. apply Ht in E; [|done]. exfalso. apply E.
    apply Forall_app in Hall as [_ [? _]%Forall_cons]. done. }
  assert (StronglySorted strictly_before (s :: l)) as Hsl.
  { clear -Hs. induction p as [|t p IH]; [done|]. apply IH. by inversion Hs. }
  inversion Hsl as [|? ? _ Hall]; subst. cbn [app List.filter].
  assert (in_tail (SConfidence s) s = true) as -> by (apply Ht; [done|]; apply key_lt_irrefl). f_equal.
  clear -Hall Hnl Ht. induction Hall as [|t l Htl Hall IH]; [done|]. apply Forall_cons in Hnl as [Hnt Hnl].
  cbn. rewrite (proj2 (Ht t Hnt)), IH; [done..|].
  intros Hlt. by apply (key_lt_irrefl (float_key (SConfidence s))), (key_lt_trans _ (float_key (SConfidence t))).
Qed.

Lemma count_filter {A} (p q : A → bool) l : count (λ x, p x && q x) l = count q (List.filter p l).
Proof. induction l as [|x l IH]; cbn; [done|]. rewrite !count_cons. destruct (p x); cbn; rewrite ?count_cons; lia. Qed.

Lemma risk_at_sample cal p s l :
  distinct_confidences (List.filter usable cal) →
  sort_slice sample_less (List.filter usable cal) = p ++ s :: l →
  EmpiricalRiskAtTau cal (SConfidence s) = (ratio (suffix_counts (s :: l)), Z.of_nat (length (s :: l))).
Proof.
  intros Hd Hsort. destruct (sorted_strict _ Hd) as [Hs Hn]. rewrite Hsort in Hs, Hn.
  assert (List.filter usable cal ≡ₚ p ++ s :: l) as Hp by (by rewrite <- Hsort, sort_slice_perm).
  unfold EmpiricalRiskAtTau. rewrite risk_counts, !Hp, count_filter. unfold count.
  rewrite !tail_is_suffix by done. rewrite suffix_counts_count.
  destruct (Z.of_nat (length (s :: l)) =? 0) eqn:E; [apply Z.eqb_eq in E; cbn in E; lia|]. reflexivity.
Qed.

Lemma sweep_cases l alpha :
  match sweep l alpha with
  | Some tau => ∃ p s k, l = p ++ s :: k ∧ tau = SConfidence s ∧ f_leb (ratio (suffix_counts (s :: k))) alpha = true ∧
      ∀ p1 t p2, p = p1 ++ t :: p2 → f_leb (ratio (suffix_counts (t :: p2 ++ s :: k))) alpha = false
  | None => ∀ p1 t p2, l = p1 ++ t :: p2 → f_leb (ratio (suffix_counts (t :: p2))) alpha = false
  end.
Proof.
  induction l as [|s l IH]; cbn [sweep]; [by intros []|].
  destruct (f_leb (ratio (suffix_counts (s :: l))) alpha) eqn:E.
  - exists [], s, l. split_and!; [done..|]. by intros [].
  - destruct (sweep l alpha) as [tau|].
    + destruct IH as (p & t & k & -> & -> & Hle & Hall). exists (s :: p), t, k. split_and!; [done..|].
      intros [|u p1] v p2 [= -> Hp]; [by rewrite <- Hp|]. by apply (Hall p1).
    + intros [|u p1] v p2 [= -> Hp]; [by rewrite <- Hp|]. by apply (IH p1).
Qed.

(** In a strictly sorted list a smaller sample stands before. *)
Lemma split_before p s k q u l :
  p ++ s :: k = q ++ u :: l → StronglySorted strictly_before (p ++ s :: k) → strictly_before u s →
  ∃ p2, p = q ++ u :: p2 ∧ l = p2 ++ s :: k.
Proof.
  revert q. induction p as [|y p IH]; intros [|x q] Hq Hs Hb; apply cons_inv in Hq as [-> Hq].
  - by apply key_lt_irrefl in Hb.
  - cbn in Hs. inversion Hs as [|? ? _ Hall]; subst.
    apply Forall_app in Hall as [_ [Hxu _]%Forall_cons]. by destruct (key_lt_irrefl _ (key_lt_trans _ _ _ Hxu Hb)).
  - by exists p.
  - destruct (IH q Hq) as (p2 & -> & ->); [by inversion Hs|done|by exists p2].
Qed.

(** ** Properties *)

(** C34. The risk budget: on calibration samples with pairwise different
    confidences, the threshold [CalibrateAbstention] returns meets the budget
    on the samples at or above it, and it is the smallest sample confidence
    that does; when it returns 1 without meeting it, no sample confidence
    meets it. *)
Theorem calibration_risk cal alpha tau :
  distinct_confidences (List.filter usable cal) → CalibrateAbstention cal alpha = Ok tau →
  (f_leb (fst (EmpiricalRiskAtTau cal tau)) alpha = true ∧
   ∀ s, s ∈ cal → usable s = true → strictly_before s {| SConfidence := tau; Correct := true; SVerdict := VerdictApprove |} →
     f_leb (fst (EmpiricalRiskAtTau cal (SConfidence s))) alpha = false) ∨
  (tau = f_one ∧ ∀ s, s ∈ cal → usable s = true → f_leb (fst (EmpiricalRiskAtTau cal (SConfidence s))) alpha = false).
Proof.
  intros Hd H. unfold CalibrateAbstention in H. destruct (_ || _); [done|].
  destruct (_ =? _)%nat; [done|]. injection H as H.
  set (L := sort_slice sample_less (List.filter usable cal)) in *.
  destruct (sorted_strict _ Hd) as [Hs Hn]. fold L in Hs, Hn.
  assert (∀ s, s ∈ cal → usable s = true → ∃ p l, L = p ++ s :: l) as Hpos.
  { intros s Hin Hu. apply list_elem_of_split. unfold L. rewrite sort_slice_perm.
    apply list_elem_of_In, List.filter_In. split; [by apply list_elem_of_In|done]. }
  pose proof (sweep_cases L alpha) as Hsw. destruct (sweep L alpha) as [t|]; cbn in H; subst tau.
  - left. destruct Hsw as (p & s & k & HL & -> & Hle & Hall). split; [by rewrite (risk_at_sample _ _ _ _ Hd HL)|].
    intros u Hu Hus Hb. destruct (Hpos u Hu Hus) as (q & l & Hq). rewrite (risk_at_sample _ _ _ _ Hd Hq). cbn [fst].
    rewrite HL in Hq, Hs. destruct (split_before _ _ _ _ _ _ Hq Hs Hb) as (p2 & Hp & ->). by eapply Hall.
  - right. split; [done|]. intros s Hin Hu. destruct (Hpos s Hin Hu) as (p & l & Hp).
    rewrite (risk_at_sample _ _ _ _ Hd Hp). by eapply Hsw.
Qed.

Definition ex_sample (conf : Z) (ok : bool) : CalibrationSample :=
  {| SConfidence := f_dec conf 1; Correct := ok; SVerdict := VerdictApprove |}.
Definition ex_cal : list CalibrationSample :=
  [ex_sample 9 true; ex_sample 3 false; ex_sample 7 true; ex_sample 5 false].

Lemma ex_cal_distinct : distinct_confidences (List.filter usable ex_cal).
Proof. split; [by repeat constructor|]. apply (bool_decide_unpack (NoDup _)). vm_compute. exact I. Qed.

Lemma calibration_risk_witness :
  CalibrateAbstention ex_cal (f_dec 1 1) = Ok (f_dec 7 1) ∧
  f_leb (fst (EmpiricalRiskAtTau ex_cal (f_dec 7 1))) (f_dec 1 1) = true.
Proof.
  assert (CalibrateAbstention ex_cal (f_dec 1 1) = Ok (f_dec 7 1)) as H by (vm_compute; reflexivity).
  split; [exact H|]. destruct (calibration_risk _ _ _ ex_cal_distinct H) as [[Hr _]|[E _]]; [exact Hr|].
  exfalso. vm_compute in E. discriminate E.
Defined.

(** The threshold as a filter on verdicts: after calibration to [tau], the
    wrapper rejects only when a verdict not below [tau] rejects, and it approves
    only when every critical verdict approves without being below [tau] and
    every rejecting verdict is a non-critical one below [tau]. In particular a
    critical REJECT below [tau] no longer vetoes. *)
Theorem conformal_outcome cal alpha policy vs final veto reason tau :
  AggregateWithConformalAbstention cal alpha policy vs = Ok (final, veto, reason, tau) →
  CalibrateAbstention cal alpha = Ok tau ∧
  (final = VerdictReject → ∃ v, v ∈ vs ∧ FVerdict v = VerdictReject ∧ f_ltb (Confidence v) tau = false) ∧
  (final = VerdictApprove →
    (∀ v, v ∈ vs → isCritical (Kind v) = true → FVerdict v = VerdictApprove ∧ f_ltb (Confidence v) tau = false) ∧
    (∀ v, v ∈ vs → FVerdict v = VerdictReject → isCritical (Kind v) = false ∧ f_ltb (Confidence v) tau = true)).
Proof.
  unfold AggregateWithConformalAbstention. intros (t & Ht & H)%result_bind_ok.
  set (adj := ApplyConformalAbstention vs t) in *.
  assert (∀ v, Kind (conformal_rewrite t v) = Kind v ∧
    (FVerdict (conformal_rewrite t v) = FVerdict v ∧ (FVerdict v = VerdictAbstain ∨ f_ltb (Confidence v) t = false) ∨
     FVerdict (conformal_rewrite t v) = VerdictAbstain ∧ f_ltb (Confidence v) t = true)) as Hrw.
  { intros v. unfold conformal_rewrite. case_bool_decide; cbn; [by auto|]. destruct (f_ltb _ _); cbn; by auto. }
  assert (∀ v, v ∈ vs → conformal_rewrite t v ∈ adj) as Hin.
  { intros v Hv. apply list_elem_of_fmap. eauto. }
  assert (∀ w, w ∈ adj → FVerdict w = VerdictReject →
    ∃ v, v ∈ vs ∧ FVerdict v = VerdictReject ∧ f_ltb (Confidence v) t = false) as Hback.
  { intros w (v & -> & Hv)%list_elem_of_fmap Hw. exists v. destruct (Hrw v) as [_ [[E ?]|[E ?]]]; naive_solver congruence. }
  destruct (Aggregate policy adj) as [[[v k] r]|] eqn:Hagg; [|done]. injection H as <- <- _ <-.
  destruct (decide (adj = [])) as [E|Hne]; [by rewrite E in Hagg|]. split; [done|].
  destruct (Aggregate_cases policy adj Hne) as
    [(fv & r' & E & Hfv & Hc & Hr)|[(fv & r' & E & _)|
     (Hca & [(fv & r' & E & Hfv & Hc & Hr)|(Hno & [[E Hle]|[[r' E] Hlt]])])]];
    rewrite E in Hagg; injection Hagg as <- <- _; split; try done; intros _; [by eapply Hback..|].
  assert (∀ v, v ∈ vs → isCritical (Kind v) = true → FVerdict v = VerdictApprove ∧ f_ltb (Confidence v) t = false) as Hcrit.
  { intros v Hv Hk. destruct (Hrw v) as [Hk' Hv']. specialize (Hca _ (Hin v Hv)). rewrite Hk' in Hca.
    specialize (Hca Hk). destruct Hv' as [[E' [?|?]]|[E' _]]; [congruence|split; congruence|congruence]. }
  split; [done|]. intros v Hv Hr. specialize (Hno _ (Hin v Hv)). destruct (Hrw v) as [_ [[E' _]|[_ E']]]; [congruence|].
  split; [|done]. destruct (isCritical (Kind v)) eqn:Hk; [|done]. destruct (Hcrit v Hv Hk). congruence.
Qed.

Lemma conformal_outcome_witness :
  ∃ reason, AggregateWithConformalAbstention ex_cal (f_dec 1 1) {| ApproveThreshold := 1; MinConfidence := f_zero |}
    [ex_fv FacetSafety VerdictApprove f_one; ex_fv FacetCorrectness VerdictReject (f_dec 2 1);
     ex_fv FacetSpecCompliance VerdictApprove f_one] = Ok (VerdictApprove, ""%string, reason, f_dec 7 1) ∧
  isCritical FacetCorrectness = false.
Proof.
  eexists. match goal with |- ?P ∧ _ => assert P as H by (vm_compute; reflexivity) end. split; [exact H|].
  refine (proj1 (proj2 (proj2 (proj2 (conformal_outcome _ _ _ _ _ _ _ _ H)) eq_refl)
    (ex_fv FacetCorrectness VerdictReject (f_dec 2 1)) _ eq_refl)). right. left.
Defined.

(** ** What the comments promise and the code does not do *)

(** A critical REJECT below the threshold is coerced to ABSTAIN: no veto. *)
Example critical_reject_coerced :
  FVerdict (conformal_rewrite (f_dec 7 1) (ex_fv FacetSafety VerdictReject (f_dec 5 1))) = VerdictAbstain.
Proof. reflexivity. Qed.

(** Ties: a wrong and a right sample at confidence 0.9 and a budget of 0.1; the
    sweep stops inside the tie, at 0.9, where the risk is one half. *)
Example tie_breaks_budget :
  CalibrateAbstention [ex_sample 9 false; ex_sample 9 true] (f_dec 1 1) = Ok (f_dec 9 1) ∧
  EmpiricalRiskAtTau [ex_sample 9 false; ex_sample 9 true] (f_dec 9 1) = (f_dec 5 1, 2).
Proof. split; vm_compute; reflexivity. Qed.

(** The fail-closed threshold 1 lets a verdict of confidence 1 through. *)
Example fail_closed_lets_one_through :
  CalibrateAbstention [ex_sample 10 false] (f_dec 1 1) = Ok f_one ∧
  FVerdict (conformal_rewrite f_one (ex_fv FacetSafety VerdictApprove f_one)) = VerdictApprove.
Proof. split; vm_compute; reflexivity. Qed.
