(* ===== verification/Pool.v ===== *)
(** * Verdict providers, the judge, and the provider pool with its router

    [engine/internal/decision/attest]: [provider.go] ([FixtureProvider],
    [Judge.Evaluate], [normaliseVerdicts]), [adapter.go] ([HTTPProviderAdapter],
    whose remote call is the parameter [fetch]) and [pool.go] ([ProviderPool],
    [Router.Route]). A Go [Provider] is the record of its two methods. The order
    in which the router's goroutines deliver their results is the argument
    [arrive]. *)

From S2P Require Import Prelude GoLib Sha256 Attest.

Local Open Scope Z_scope.

(** ** The [Provider] interface and the fixture provider *)

Record Provider := {
  PName : string;
  PEvaluate : Decision → result string (list FacetVerdict);
}.

Record FixtureProvider := {
  name : string;
  verdicts : gmap string (list FacetVerdict);
  fallback : list FacetVerdict;
}.

Definition abstain_verdict (k reason : string) : FacetVerdict :=
  {| Kind := k; FVerdict := VerdictAbstain; Confidence := f_zero; Reason := reason |}.

Definition NewNamedFixtureProvider (n : string) : FixtureProvider :=
  {| name := n; verdicts := ∅; fallback := (λ k, abstain_verdict k "no fixture registered") <$> AllFacetKinds |}.

Definition NewFixtureProvider : FixtureProvider := NewNamedFixtureProvider "fixture".

Definition FixtureRegister (p : FixtureProvider) (decisionID : string) (vs : list FacetVerdict)
    : FixtureProvider :=
  {| name := name p; fallback := fallback p;
     verdicts := if (length vs =? 0)%nat then delete decisionID (verdicts p)
                 else <[decisionID := vs]> (verdicts p) |}.

Definition FixtureEvaluate (p : FixtureProvider) (d : Decision) : result string (list FacetVerdict) :=
  match verdicts p !! ID d with
  | Some v => Ok v
  | None => Ok (fallback p)
  end.

Definition fixture_provider (p : FixtureProvider) : Provider :=
  {| PName := name p; PEvaluate := FixtureEvaluate p |}.

(** ** The HTTP adapter ([adapter.go]) *)

Record evaluateResponseFacet := {
  WKind : string;
  WVerdict : string;
  WConfidence : float64;
  WReason : string;
}.

Definition parseVerdictString (s : string) : option Verdict :=
  let u := to_upper (trim_space s) in
  if bool_decide (u = "APPROVE"%string) then Some VerdictApprove
  else if bool_decide (u = "ABSTAIN"%string) then Some VerdictAbstain
  else if bool_decide (u = "REJECT"%string) then Some VerdictReject
  else None.

Definition verdictWireString (v : Verdict) : string := Verdict_String v.

Definition clamp_confidence (c : float64) : float64 :=
  let c := if f_ltb c f_zero then f_zero else c in
  if f_ltb f_one c then f_one else c.

Record HTTPProviderAdapter := {
  AName : string;
  Endpoint : string;
  Fallback : Provider;
  AllowedFacets : list string;
}.

(** [NewHTTPProviderAdapter]: the defaults of the empty fields. *)
Definition NewHTTPProviderAdapter (n endpoint : string) (fb : option Provider) (allowed : list string)
    : HTTPProviderAdapter :=
  let n := if bool_decide (n = ""%string) then "http-adapter"%string else n in
  {| AName := n; Endpoint := endpoint;
     Fallback := match fb with Some p => p | None => fixture_provider (NewNamedFixtureProvider (n +:+ "-fallback")) end;
     AllowedFacets := allowed |}.

Definition Configured (a : HTTPProviderAdapter) : bool := negb (bool_decide (Endpoint a = ""%string)).

Definition adapt_facet (allowed : list string) (f : evaluateResponseFacet) : option FacetVerdict :=
  if negb (length allowed =? 0)%nat && negb (bool_decide (WKind f ∈ allowed)) then None
  else
    v ← parseVerdictString (WVerdict f);
    Some {| Kind := WKind f; FVerdict := v; Confidence := clamp_confidence (WConfidence f); Reason := WReason f |}.

Section adapter.
(** The remote evaluator: [None] when the request cannot be built or sent, the
    status is not 2xx, or the body is not the expected JSON. *)
Context (fetch : string → Decision → option (list evaluateResponseFacet)).

Definition AdapterEvaluate (a : HTTPProviderAdapter) (d : Decision) : result string (list FacetVerdict) :=
  if negb (Configured a) then PEvaluate (Fallback a) d
  else
    match fetch (Endpoint a) d with
    | None => PEvaluate (Fallback a) d
    | Some parsed => Ok (omap (adapt_facet (AllowedFacets a)) parsed)
    end.

Definition http_provider (a : HTTPProviderAdapter) : Provider :=
  {| PName := AName a; PEvaluate := AdapterEvaluate a |}.
End adapter.

(** ** The judge ([provider.go]) *)

Record Judge := { provider : option Provider; policy : AggregationPolicy }.

Inductive JudgeError :=
| ErrInvalidJudge
| ErrProvider (name err : string)
| ErrJudgeAggregate (e : AttestError).

Definition last_by_kind (vs : list FacetVerdict) : gmap string FacetVerdict :=
  foldl (λ m fv, <[Kind fv := fv]> m) ∅ vs.

Definition extraVerdicts (byKind : gmap string FacetVerdict) : list FacetVerdict :=
  List.filter (λ fv, negb (bool_decide (Kind fv ∈ AllFacetKinds))) (snd <$> map_to_list byKind).

Definition normalised_kind (byKind : gmap string FacetVerdict) (k : string) : FacetVerdict :=
  default (abstain_verdict k "no verdict from provider") (byKind !! k).

Definition normaliseVerdicts (vs : list FacetVerdict) : list FacetVerdict :=
  let byKind := last_by_kind vs in
  (normalised_kind byKind <$> AllFacetKinds) ++ sort_slice kind_less (extraVerdicts byKind).

Definition JudgeEvaluate (j : Judge) (d : Decision) : result JudgeError DecisionCommit :=
  match provider j with
  | None => Err ErrInvalidJudge
  | Some p =>
      if ApproveThreshold (policy j) =? 0 then Err ErrInvalidJudge
      else
        match PEvaluate p d with
        | Err e => Err (ErrProvider (PName p) e)
        | Ok raw =>
            let verdicts := normaliseVerdicts raw in
            match Aggregate (policy j) verdicts with
            | Err e => Err (ErrJudgeAggregate e)
            | Ok (agg, veto, reason) =>
                Ok {| CDecision := d; DecisionID := ID d; FacetVerdicts := verdicts; CAggregate := agg;
                      VetoedBy := veto;
                      AbstainReason := if bool_decide (agg = VerdictAbstain) then reason else ""%string |}
            end
        end
  end.

(** ** The pool and the router ([pool.go]) *)

Inductive TrustLevel := TrustObservational | TrustDelegated | TrustSystem.

#[export] Instance TrustLevel_eq_dec : EqDecision TrustLevel.
Proof. solve_decision. Defined.

Definition TrustLevel_String (t : TrustLevel) : string :=
  match t with
  | TrustSystem => "system"
  | TrustDelegated => "delegated"
  | TrustObservational => "observational"
  end.

Definition facetToCap (k : string) : string :=
  if bool_decide (k = FacetSafety) then "safety"
  else if bool_decide (k = FacetCorrectness) then "correctness"
  else if bool_decide (k = FacetSpecCompliance) then "spec_compliance"
  else if bool_decide (k = FacetEquivocation) then "equivocation"
  else "".

Record PooledProvider := { PProvider : option Provider; Trust : TrustLevel; Capabilities : list string }.

Inductive PoolError :=
| ErrNilProvider
| ErrNoName
| ErrNoCapabilities (n : string)
| ErrAlreadyRegistered (n : string)
| ErrNoProviders
| ErrNoRoutedProviders.

(** The pool stores only entries with a provider. *)
Record pooled := { PoolProvider : Provider; PoolTrust : TrustLevel; PoolCaps : list string }.

Definition PoolRegister (pl : list pooled) (p : PooledProvider) : result PoolError (list pooled) :=
  match PProvider p with
  | None => Err ErrNilProvider
  | Some pr =>
      if bool_decide (PName pr = ""%string) then Err ErrNoName
      else if (length (Capabilities p) =? 0)%nat then Err (ErrNoCapabilities (PName pr))
      else if existsb (λ e, bool_decide (PName (PoolProvider e) = PName pr)) pl
      then Err (ErrAlreadyRegistered (PName pr))
      else Ok (pl ++ [{| PoolProvider := pr; PoolTrust := Trust p; PoolCaps := Capabilities p |}])
  end.

Definition PoolLen (pl : list pooled) : nat := length pl.

Definition PoolNames (pl : list pooled) : list string :=
  sort_slice string_ltb ((λ p, PName (PoolProvider p)) <$> pl).

Record PoolOutcome := {
  Verdicts : list FacetVerdict;
  Providers : list string;
  TrustByProvider : gmap string TrustLevel;
  ErrorsByProvider : gmap string string;
}.

(** One goroutine's message. *)
Record routed := {
  rname : string;
  rtrust : TrustLevel;
  rresult : result string (list FacetVerdict);
}.

Definition sortedByKind (vs : list FacetVerdict) : list FacetVerdict := sort_slice kind_less vs.

Definition downgrade (n : string) (t : TrustLevel) (v : FacetVerdict) : FacetVerdict :=
  if bool_decide (t = TrustObservational) && isCritical (Kind v)
     && negb (bool_decide (FVerdict v = VerdictAbstain))
  then {| Kind := Kind v; FVerdict := VerdictAbstain; Confidence := f_zero;
          Reason := ("trust-downgrade: observational provider " +:+ quote n
                     +:+ " cannot vote on critical facet " +:+ Kind v)%string |}
  else v.

Definition merge_step (o : PoolOutcome) (res : routed) : PoolOutcome :=
  match rresult res with
  | Err e =>
      {| Verdicts := Verdicts o; Providers := Providers o; TrustByProvider := TrustByProvider o;
         ErrorsByProvider := <[rname res := e]> (ErrorsByProvider o) |}
  | Ok vs =>
      {| Verdicts := Verdicts o ++ (downgrade (rname res) (rtrust res) <$> sortedByKind vs);
         Providers := Providers o ++ [rname res];
         TrustByProvider := <[rname res := rtrust res]> (TrustByProvider o);
         ErrorsByProvider := ErrorsByProvider o |}
  end.

Definition name_less (a b : routed) : bool := string_ltb (rname a) (rname b).

Definition select_providers (wanted : list string) (pl : list pooled) : list pooled :=
  List.filter (λ p, existsb (λ c, bool_decide (c ∈ wanted)) (PoolCaps p)) pl.

Definition call_provider (d : Decision) (p : pooled) : routed :=
  {| rname := PName (PoolProvider p); rtrust := PoolTrust p; rresult := PEvaluate (PoolProvider p) d |}.

Definition Route (arrive : list routed → list routed) (pl : list pooled) (d : Decision)
    (wantedFacets : list string) : result PoolError PoolOutcome :=
  if (length pl =? 0)%nat then Err ErrNoProviders
  else
    let wantedFacets := if (length wantedFacets =? 0)%nat then AllFacetKinds else wantedFacets in
    let wanted := facetToCap <$> wantedFacets in
    let selected := select_providers wanted pl in
    if (length selected =? 0)%nat then Err ErrNoRoutedProviders
    else
      let results := arrive (call_provider d <$> selected) in
      Ok (foldl merge_step {| Verdicts := []; Providers := []; TrustByProvider := ∅; ErrorsByProvider := ∅ |}
            (sort_slice name_less results)).

(** ** Lemmas *)

(** The last verdict of a kind. *)
Definition last_of_kind (k : string) (vs : list FacetVerdict) : option FacetVerdict :=
  last (List.filter (λ v, bool_decide (Kind v = k)) vs).

Lemma last_by_kind_lookup vs k : last_by_kind vs !! k = last_of_kind k vs.
Proof.
  unfold last_by_kind, last_of_kind. induction vs as [|v vs IH] using rev_ind; [done|].
  rewrite foldl_app, List.filter_app. cbn. case_bool_decide as E.
  - subst k. by rewrite lookup_insert_eq, last_snoc.
  - by rewrite lookup_insert_ne, app_nil_r.
Qed.

Lemma last_of_kind_some k vs v : last_of_kind k vs = Some v → v ∈ vs ∧ Kind v = k.
Proof.
  intros H%last_Some_elem_of. apply list_elem_of_In, List.filter_In in H as [H ?].
  apply list_elem_of_In in H. by bool_to_prop.
Qed.

Lemma normalise_known k vs :
  k ∈ AllFacetKinds →
  default (abstain_verdict k "no verdict from provider") (last_of_kind k vs) ∈ normaliseVerdicts vs.
Proof.
  intros Hk. unfold normaliseVerdicts. apply elem_of_app. left. apply list_elem_of_fmap. exists k.
  split; [|done]. unfold normalised_kind. by rewrite last_by_kind_lookup.
Qed.

Lemma elem_of_normalise vs v :
  v ∈ normaliseVerdicts vs → (∃ k, last_of_kind k vs = Some v) ∨ FVerdict v = VerdictAbstain.
Proof.
  unfold normaliseVerdicts. rewrite elem_of_app, elem_of_sort_slice, list_elem_of_fmap. intros [(k & -> & _)|Hx].
  - unfold normalised_kind. rewrite last_by_kind_lookup. destruct (last_of_kind k vs) eqn:E; [left; eauto|by right].
  - unfold extraVerdicts in Hx. apply list_elem_of_In, List.filter_In in Hx as [Hx _]. apply list_elem_of_In in Hx.
    apply list_elem_of_fmap in Hx as ([k w] & -> & Hw%elem_of_map_to_list). left. exists k.
    by rewrite <- last_by_kind_lookup.
Qed.

Definition pool_names_unique (pl : list pooled) : Prop := NoDup ((λ p, PName (PoolProvider p)) <$> pl).

Lemma select_names_unique wanted pl : pool_names_unique pl → pool_names_unique (select_providers wanted pl).
Proof.
  unfold pool_names_unique, select_providers. induction pl as [|p pl IH]; cbn; [done|].
  intros [Hp Hnd]%NoDup_cons. destruct (existsb _ _); [|by apply IH]. cbn. apply NoDup_cons. split; [|by apply IH].
  intros (q & Hq & Hin)%list_elem_of_fmap. apply Hp. apply list_elem_of_fmap. exists q. split; [done|].
  apply list_elem_of_In, List.filter_In in Hin as [Hin _]. by apply list_elem_of_In.
Qed.

Lemma merge_verdicts rs o v :
  v ∈ Verdicts (foldl merge_step o rs) →
  v ∈ Verdicts o ∨ ∃ r vs w, r ∈ rs ∧ rresult r = Ok vs ∧ w ∈ vs ∧ v = downgrade (rname r) (rtrust r) w.
Proof.
  revert o. induction rs as [|r rs IH]; intros o; cbn; [by left|]. intros [H|(r' & vs & w & ? & ? & ? & ?)]%IH.
  - unfold merge_step in H. destruct (rresult r) as [vs|e] eqn:E; cbn in H; [|by left].
    apply elem_of_app in H as [H|H]; [by left|right]. apply list_elem_of_fmap in H as (w & -> & Hw).
    unfold sortedByKind in Hw. rewrite elem_of_sort_slice in Hw. exists r, vs, w. split_and!; [left|done..].
  - right. exists r', vs, w. split_and!; [by right|done..].
Qed.

(** ** Properties *)

(** The judge fails closed: an APPROVE commit carries the decision's own
    identifier, and it means that the provider answered, that its last verdict
    on each of the two critical facets is an APPROVE (a missing critical facet
    cannot approve) and that none of its last verdicts is a REJECT. *)
Theorem judge_fail_closed j d c :
  JudgeEvaluate j d = Ok c → CAggregate c = VerdictApprove →
  DecisionID c = ID d ∧
  ∃ p raw, provider j = Some p ∧ PEvaluate p d = Ok raw ∧
    (∀ k, k ∈ [FacetSafety; FacetEquivocation] →
       ∃ v, last_of_kind k raw = Some v ∧ FVerdict v = VerdictApprove) ∧
    (∀ k v, k ∈ AllFacetKinds → last_of_kind k raw = Some v → FVerdict v ≠ VerdictReject).
Proof.
  unfold JudgeEvaluate. destruct (provider j) as [p|]; [|done]. destruct (_ =? 0); [done|].
  destruct (PEvaluate p d) as [raw|] eqn:Eraw; [|done].
  destruct (Aggregate (policy j) (normaliseVerdicts raw)) as [[[agg veto] reason]|] eqn:Hagg; [|done].
  intros [= <-]. cbn. intros ->. split; [done|]. exists p, raw. split_and!; [done..| |].
  all: destruct (Aggregate_cases (policy j) (normaliseVerdicts raw)) as
    [(? & ? & E & _)|[(? & ? & E & _)|(Hca & [(? & ? & E & _)|(Hno & _)])]];
    [by intros E0; rewrite E0 in Hagg|try (rewrite E in Hagg; simplify_eq)..| ].
  - intros k Hk. assert (isCritical k = true ∧ k ∈ AllFacetKinds) as [Hc Hall].
    { unfold AllFacetKinds. set_solver. }
    pose proof (normalise_known k raw Hall) as Hin. destruct (last_of_kind k raw) as [v|] eqn:E; cbn in Hin.
    + exists v. split; [done|]. apply Hca; [done|]. by apply last_of_kind_some in E as [_ ->].
    + specialize (Hca _ Hin Hc). done.
  - intros k v Hk E. apply Hno. pose proof (normalise_known k raw Hk) as Hin. by rewrite E in Hin.
Qed.

Definition ex_provider (n : string) (vs : list FacetVerdict) : Provider :=
  fixture_provider (FixtureRegister (NewNamedFixtureProvider n) (ID ex_decision) vs).
Definition ex_all_approve : list FacetVerdict :=
  (λ k, ex_fv k VerdictApprove f_one) <$> AllFacetKinds.

Lemma judge_fail_closed_witness :
  ∃ c, JudgeEvaluate {| provider := Some (ex_provider "p" ex_all_approve); policy := DefaultAggregationPolicy |}
         ex_decision = Ok c ∧ DecisionID c = ID ex_decision.
Proof.
  eexists. match goal with |- ?P ∧ _ => assert P as H by (vm_compute; reflexivity) end. split; [exact H|].
  exact (proj1 (judge_fail_closed _ _ _ H eq_refl)).
Defined.

(** Pools built by [Register] from the empty pool. *)
Inductive pool_reachable : list pooled → Prop :=
| pool_new : pool_reachable []
| pool_register pl p pl' : pool_reachable pl → PoolRegister pl p = Ok pl' → pool_reachable pl'.

Lemma pool_reachable_unique pl : pool_reachable pl → pool_names_unique pl.
Proof.
  induction 1 as [|pl p pl' _ IH Hr]; [constructor|]. unfold PoolRegister in Hr.
  destruct (PProvider p) as [pr|]; [|done]. case_bool_decide; [done|]. destruct (_ =? _)%nat; [done|].
  destruct (existsb _ pl) eqn:E; [done|]. injection Hr as <-. unfold pool_names_unique. rewrite fmap_app.
  apply NoDup_app. split_and!; [done| |apply NoDup_singleton].
  intros n Hn ->%list_elem_of_singleton. cbn in Hn. apply list_elem_of_fmap in Hn as (e & He & Hin).
  assert (existsb (λ e, bool_decide (PName (PoolProvider e) = PName pr)) pl = true) as E'; [|congruence].
  apply existsb_exists. exists e. split; [by apply list_elem_of_In|]. by apply bool_decide_eq_true.
Qed.

(** Routing is deterministic: in a pool built by [Register], the outcome does
    not depend on the order in which the provider goroutines finish. *)
Theorem Route_deterministic pl d wanted arrive arrive' :
  pool_reachable pl → (∀ rs, arrive rs ≡ₚ rs) → (∀ rs, arrive' rs ≡ₚ rs) →
  Route arrive pl d wanted = Route arrive' pl d wanted.
Proof.
  intros Hpl Ha Ha'. unfold Route. destruct (length pl =? 0)%nat; [done|]. cbv zeta.
  destruct (length (select_providers _ _) =? 0)%nat; [done|].
  set (rs := call_provider d <$> _). do 2 f_equal. apply (sort_slice_unique name_less); [|etransitivity; [apply Ha|symmetry; apply Ha']].
  intros x y Hx Hy Hxy Hyx. rewrite Ha in Hx, Hy.
  assert (rname x = rname y) as E by (by apply string_not_after_antisym).
  pose proof (select_names_unique (facetToCap <$> (if (length wanted =? 0)%nat then AllFacetKinds else wanted)) pl
    (pool_reachable_unique _ Hpl)) as Hnd. unfold pool_names_unique in Hnd.
  apply list_elem_of_lookup in Hx as [i Hi], Hy as [k Hk]. unfold rs in Hi, Hk.
  rewrite list_lookup_fmap in Hi, Hk. apply fmap_Some in Hi as (p & Hp & ->), Hk as (q & Hq & ->).
  assert (i = k) as ->; [|congruence]. cbn in E.
  eapply NoDup_lookup; [exact Hnd|rewrite list_lookup_fmap, Hp; done|rewrite list_lookup_fmap, Hq; cbn; congruence].
Qed.

Definition ex_pooled (n : string) (t : TrustLevel) (caps : list string) (vs : list FacetVerdict) : PooledProvider :=
  {| PProvider := Some (ex_provider n vs); Trust := t; Capabilities := caps |}.
Definition ex_entry (n : string) (t : TrustLevel) (caps : list string) (vs : list FacetVerdict) : pooled :=
  {| PoolProvider := ex_provider n vs; PoolTrust := t; PoolCaps := caps |}.
Definition ex_caps : list string := ["safety"%string].
Definition ex_pool : list pooled :=
  [ex_entry "b" TrustSystem ex_caps ex_all_approve; ex_entry "a" TrustObservational ex_caps ex_all_approve].

Lemma ex_pool_reachable : pool_reachable ex_pool.
Proof.
  apply (pool_register [ex_entry "b" TrustSystem ex_caps ex_all_approve]
           (ex_pooled "a" TrustObservational ex_caps ex_all_approve)); [|reflexivity].
  apply (pool_register [] (ex_pooled "b" TrustSystem ex_caps ex_all_approve)); [constructor|reflexivity].
Qed.

Lemma Route_deterministic_witness :
  Route (λ rs, rs) ex_pool ex_decision [] = Route reverse ex_pool ex_decision [].
Proof. apply (Route_deterministic _ _ _ _ _ ex_pool_reachable); [done|apply reverse_Permutation]. Defined.

(** Trust downgrade: a critical verdict that is not an ABSTAIN reaches the
    outcome only unchanged from a provider of the pool that is not
    observational. *)
Theorem Route_trust arrive pl d wanted o v :
  (∀ rs, arrive rs ≡ₚ rs) → Route arrive pl d wanted = Ok o →
  v ∈ Verdicts o → isCritical (Kind v) = true → FVerdict v ≠ VerdictAbstain →
  ∃ p vs, p ∈ pl ∧ PoolTrust p ≠ TrustObservational ∧ PEvaluate (PoolProvider p) d = Ok vs ∧ v ∈ vs.
Proof.
  intros Ha H Hv Hc Hn. unfold Route in H. destruct (length pl =? 0)%nat; [done|]. cbv zeta in H.
  destruct (length (select_providers _ _) =? 0)%nat; [done|]. injection H as <-.
  apply merge_verdicts in Hv as [Hv|(r & vs & w & Hr & Hok & Hw & ->)]; [by apply elem_of_nil in Hv|].
  rewrite elem_of_sort_slice, Ha, list_elem_of_fmap in Hr. destruct Hr as (p & -> & Hp).
  apply list_elem_of_In, List.filter_In in Hp as [Hp _]. apply list_elem_of_In in Hp.
  exists p, vs. unfold downgrade in *. cbn in *. repeat case_bool_decide; cbn in *; try done.
  all: destruct (isCritical (Kind w)) eqn:Ew; cbn in *; try done; congruence.
Qed.

Lemma Route_trust_witness :
  ∃ o v, Route (λ rs, rs) ex_pool ex_decision [] = Ok o ∧ v ∈ Verdicts o ∧ Kind v = FacetSafety ∧
    ∃ p vs, p ∈ ex_pool ∧ PoolTrust p ≠ TrustObservational ∧ PEvaluate (PoolProvider p) ex_decision = Ok vs ∧ v ∈ vs.
Proof.
  destruct (Route (λ rs, rs) ex_pool ex_decision []) as [o|] eqn:E; [|vm_compute in E; discriminate E].
  exists o, (ex_fv FacetSafety VerdictApprove f_one).
  assert (ex_fv FacetSafety VerdictApprove f_one ∈ Verdicts o) as Hin.
  { vm_compute in E. injection E as <-. vm_compute. do 6 right. left. }
  split; [reflexivity|]. split; [exact Hin|]. split; [reflexivity|].
  exact (Route_trust (λ rs, rs) _ _ _ _ _ (λ rs, Permutation_refl rs) E Hin eq_refl ltac:(done)).
Defined.

(** Capabilities only select providers: one that declares [correctness] alone
    votes on [safety] as well. *)
Example capability_not_enforced :
  ∃ o, Route (λ rs, rs)
    [{| PoolProvider := ex_provider "c" [ex_fv FacetSafety VerdictApprove f_one]; PoolTrust := TrustDelegated;
        PoolCaps := ["correctness"%string] |}] ex_decision [FacetCorrectness] = Ok o ∧
    ex_fv FacetSafety VerdictApprove f_one ∈ Verdicts o.
Proof. eexists. split; [vm_compute; reflexivity|]. vm_compute. left. Qed.
