(* ===== verification/Hitl.v ===== *)
(** * Human-in-the-loop escalation ([engine/internal/hitl/hitl.go])

    The ticket store is an interface (the class [TicketStore] with its laws);
    [InMemoryTicketStore] implements it with a map. The service is proved
    against the interface. The clock and the identifier generator are the
    arguments [now] and [id]. *)

From S2P Require Import Prelude GoLib Sha256 Attest Pool.

Local Open Scope Z_scope.

(** ** Data *)

Inductive Action := ActionPass | ActionEscalate | ActionVeto.

Record Policy := {
  ConfidenceThreshold : float64;
  EscalateOnCriticalAbstain : bool;
  VetoOnCriticalReject : bool;
}.

Definition DefaultPolicy : Policy :=
  {| ConfidenceThreshold := f_dec 6 1; EscalateOnCriticalAbstain := true; VetoOnCriticalReject := true |}.

(** The policy [NewService] applies: a zero policy is replaced. *)
Definition service_policy (p : Policy) : Policy :=
  if f_eqb (ConfidenceThreshold p) f_zero && negb (EscalateOnCriticalAbstain p)
     && negb (VetoOnCriticalReject p)
  then DefaultPolicy else p.

Record Response := { RAction : Action; RReason : string; TicketID : string }.

Record Ticket := {
  TID : string;
  TDecisionID : string;
  TSubmitter : string;
  TSpecID : string;
  OpenedAt : time;
  ResolvedAt : time;
  TReason : string;
  TAggregate : string;
  TVetoedBy : string;
  TState : string;
  Resolver : string;
  ResolutionNote : string;
}.

Record ListFilter := { LState : string; Limit : Z; OpenedAfter : time }.

Inductive HitlError :=
| ErrEmptyTicketID
| ErrTicketExists (id : string)
| ErrTicketNotFound
| ErrAlreadyResolved
| ErrInvalidState.

(** ** The store interface *)

Class TicketStore (S : Type) := {
  Create : S → Ticket → result HitlError S;
  Get : S → string → result HitlError Ticket;
  Resolve : S → time → string → string → string → string → result HitlError (S * Ticket);
  ListTickets : S → ListFilter → list Ticket;
}.

(** What a store promises its clients. *)
Class TicketStoreLaws (S : Type) `{!TicketStore S} : Prop := {
  create_get s t s' : Create s t = Ok s' → Get s' (TID t) = Ok t;
  create_fresh s t s' : Create s t = Ok s' → Get s (TID t) = Err ErrTicketNotFound;
  create_other s t s' id : Create s t = Ok s' → id ≠ TID t → Get s' id = Get s id;
  resolve_get s now id who state note s' t' :
    Resolve s now id who state note = Ok (s', t') →
    Get s' id = Ok t' ∧ TState t' = state ∧ state ≠ "pending"%string ∧
    ∃ t, Get s id = Ok t ∧ TState t = "pending"%string ∧ TDecisionID t' = TDecisionID t;
  resolve_other s now id who state note s' t' id' :
    Resolve s now id who state note = Ok (s', t') → id' ≠ id → Get s' id' = Get s id';
}.

(** ** The in-memory store *)

Notation InMemoryTicketStore := (gmap string Ticket).

Definition mem_Create (s : InMemoryTicketStore) (t : Ticket) : result HitlError InMemoryTicketStore :=
  if bool_decide (TID t = ""%string) then Err ErrEmptyTicketID
  else match s !! TID t with
       | Some _ => Err (ErrTicketExists (TID t))
       | None => Ok (<[TID t := t]> s)
       end.

Definition mem_Get (s : InMemoryTicketStore) (id : string) : result HitlError Ticket :=
  match s !! id with Some t => Ok t | None => Err ErrTicketNotFound end.

Definition validResolutionState (s : string) : bool :=
  bool_decide (s ∈ ["approved"; "rejected"; "stale_escalation"]%string).

Definition mem_Resolve (s : InMemoryTicketStore) (now : time) (id resolver state note : string)
    : result HitlError (InMemoryTicketStore * Ticket) :=
  if negb (validResolutionState state) then Err ErrInvalidState
  else
    match s !! id with
    | None => Err ErrTicketNotFound
    | Some t =>
        if negb (bool_decide (TState t = "pending"%string)) then Err ErrAlreadyResolved
        else
          let t' := {| TID := TID t; TDecisionID := TDecisionID t; TSubmitter := TSubmitter t;
                       TSpecID := TSpecID t; OpenedAt := OpenedAt t; ResolvedAt := now; TReason := TReason t;
                       TAggregate := TAggregate t; TVetoedBy := TVetoedBy t; TState := state;
                       Resolver := resolver; ResolutionNote := note |} in
          Ok (<[id := t']> s, t')
    end.

Definition matches (filter : ListFilter) (t : Ticket) : bool :=
  negb (negb (bool_decide (LState filter = ""%string)) && negb (bool_decide (TState t = LState filter)))
  && negb (negb (OpenedAfter filter =? time_zero) && (OpenedAt t <? OpenedAfter filter)).

(** Newest first, ties by identifier. *)
Definition ticket_less (a b : Ticket) : bool :=
  if negb (OpenedAt a =? OpenedAt b) then OpenedAt b <? OpenedAt a else string_ltb (TID a) (TID b).

Definition mem_List (s : InMemoryTicketStore) (filter : ListFilter) : list Ticket :=
  let out := sort_slice ticket_less (List.filter (matches filter) (snd <$> map_to_list s)) in
  if (0 <? Limit filter) && (Limit filter <? Z.of_nat (length out))
  then take (Z.to_nat (Limit filter)) out else out.

#[export] Instance InMemory_TicketStore : TicketStore InMemoryTicketStore := {|
  Create := mem_Create; Get := mem_Get; Resolve := mem_Resolve; ListTickets := mem_List
|}.

#[export] Instance InMemory_laws : TicketStoreLaws InMemoryTicketStore.
Proof.
  split; cbn; unfold mem_Create, mem_Get, mem_Resolve.
  - intros s t s' H. case_bool_decide; [done|]. destruct (s !! TID t); [done|]. injection H as <-.
    by rewrite lookup_insert_eq.
  - intros s t s' H. case_bool_decide; [done|]. by destruct (s !! TID t).
  - intros s t s' id H Hne. case_bool_decide; [done|]. destruct (s !! TID t); [done|]. injection H as <-.
    by rewrite lookup_insert_ne.
  - intros s now id who state note s' t' H. destruct (validResolutionState state) eqn:Ev; [|done]. cbn in H.
    destruct (s !! id) as [t|]; [|done]. case_bool_decide as Ep; [|done]. cbn in H. injection H as <- <-.
    rewrite lookup_insert_eq. split_and!; [done..| |by eauto].
    intros ->. by vm_compute in Ev.
  - intros s now id who state note s' t' id' H Hne. destruct (validResolutionState state); [|done]. cbn in H.
    destruct (s !! id) as [t|]; [|done]. case_bool_decide; [|done]. cbn in H. injection H as <- <-.
    by rewrite lookup_insert_ne.
Qed.

(** ** The service *)

Definition isCriticalKind (k : string) : bool :=
  bool_decide (k = FacetSafety) || bool_decide (k = FacetEquivocation).

Fixpoint approve_sum (vs : list FacetVerdict) (sum : float64) (n : Z) : float64 * Z :=
  match vs with
  | [] => (sum, n)
  | v :: vs' =>
      if isCriticalKind (Kind v) then approve_sum vs' sum n
      else if negb (bool_decide (FVerdict v = VerdictApprove)) then approve_sum vs' sum n
      else approve_sum vs' (f_add sum (Confidence v)) (n + 1)
  end.

Definition nonCriticalApproveConfidence (vs : list FacetVerdict) : float64 * Z :=
  let '(sum, n) := approve_sum vs f_zero 0 in
  if n =? 0 then (f_zero, 0) else (f_div sum (f_of_Z n), n).

Definition critical_abstain (v : FacetVerdict) : bool :=
  isCriticalKind (Kind v) && bool_decide (FVerdict v = VerdictAbstain).

Section service.
Context {S : Type} `{!TicketStore S}.

Definition openTicket (store : S) (id : string) (now : time) (commit : DecisionCommit) (reason : string)
    : result HitlError (S * Ticket) :=
  let t := {| TID := id; TDecisionID := DecisionID commit; TSubmitter := Submitter (CDecision commit);
              TSpecID := SpecID (CDecision commit); OpenedAt := now; ResolvedAt := time_zero;
              TReason := reason; TAggregate := Verdict_String (CAggregate commit);
              TVetoedBy := VetoedBy commit; TState := "pending"; Resolver := ""; ResolutionNote := "" |} in
  let! store' := Create store t in Ok (store', t).

Definition escalate (store : S) (id : string) (now : time) (commit : DecisionCommit) (reason : string)
    : result HitlError (S * Response) :=
  let! st := openTicket store id now commit reason in
  Ok (fst st, {| RAction := ActionEscalate; RReason := TReason (snd st); TicketID := TID (snd st) |}).

Definition Decide (policy : Policy) (store : S) (id : string) (now : time) (commit : DecisionCommit)
    : result HitlError (S * Response) :=
  if VetoOnCriticalReject policy && bool_decide (CAggregate commit = VerdictReject)
     && negb (bool_decide (VetoedBy commit = ""%string))
  then Ok (store, {| RAction := ActionVeto; TicketID := "";
                     RReason := "critical-veto by " +:+ VetoedBy commit +:+ ": " +:+ AbstainReason commit |})%string
  else
    match (if EscalateOnCriticalAbstain policy then List.find critical_abstain (FacetVerdicts commit) else None) with
    | Some v =>
        escalate store id now commit ("critical facet " +:+ Kind v +:+ " ABSTAINed: " +:+ Reason v)%string
    | None =>
        let '(meanConf, n) := nonCriticalApproveConfidence (FacetVerdicts commit) in
        if (0 <? n) && f_ltb meanConf (ConfidenceThreshold policy) then
          escalate store id now commit
            ("low-confidence: mean approve confidence " +:+ fmt_fixed 3 meanConf +:+ " < "
             +:+ fmt_fixed 3 (ConfidenceThreshold policy) +:+ " threshold")%string
        else Ok (store, {| RAction := ActionPass; RReason := "policy: no escalation trigger"; TicketID := "" |})
    end.
End service.

(** One state change of a store: a ticket is created or resolved. *)
Inductive store_step {S} `{!TicketStore S} : S → S → Prop :=
| step_create s t s' : Create s t = Ok s' → store_step s s'
| step_resolve s now id who state note s' t :
    Resolve s now id who state note = Ok (s', t) → store_step s s'.

(** ** Properties *)

Section interface.
Context {S : Type} `{!TicketStore S, !TicketStoreLaws S}.

Lemma store_step_get s s' id t :
  store_step s s' → Get s id = Ok t →
  ∃ t', Get s' id = Ok t' ∧ TDecisionID t' = TDecisionID t ∧ (TState t ≠ "pending"%string → t' = t).
Proof.
  intros Hs Hg. destruct Hs as [s t0 s' Hc|s now id0 who state note s' t0 Hr].
  - destruct (decide (id = TID t0)) as [->|Hne].
    + apply create_fresh in Hc. congruence.
    + exists t. by rewrite (create_other _ _ _ _ Hc).
  - destruct (decide (id = id0)) as [->|Hne].
    + apply resolve_get in Hr as (Hg' & _ & _ & t1 & Ht1 & Hp & Hd). exists t0.
      assert (t1 = t) as -> by congruence. done.
    + exists t. by rewrite (resolve_other _ _ _ _ _ _ _ _ _ Hr).
Qed.

(** Tickets are durable and resolved once, in every store that keeps the
    interface's laws: along any sequence of creations and resolutions a
    ticket never disappears, stays bound to its decision, and is frozen from
    the moment it is resolved. *)
Theorem ticket_lifecycle s s' id t :
  rtc store_step s s' → Get s id = Ok t →
  ∃ t', Get s' id = Ok t' ∧ TDecisionID t' = TDecisionID t ∧ (TState t ≠ "pending"%string → t' = t).
Proof.
  intros Hs. revert t. induction Hs as [s|s s1 s' Hstep _ IH]; intros t Hg; [by eauto|].
  destruct (store_step_get _ _ _ _ Hstep Hg) as (t1 & Hg1 & Hd1 & Hf1).
  destruct (IH _ Hg1) as (t2 & Hg2 & Hd2 & Hf2). exists t2. split_and!; [done|congruence|].
  intros Hp. pose proof (Hf1 Hp) as ->. by apply Hf2.
Qed.

(** What [Decide] does to any lawful store: an ESCALATE leaves a fresh
    pending ticket for the commit under the returned identifier and touches
    no other; PASS and VETO change nothing; and it passes only when no veto
    applies, no critical facet abstained (if the policy escalates those) and
    the mean confidence of the non-critical approvals is not below the
    threshold. *)
Theorem Decide_effect policy s id now commit s' r :
  Decide policy s id now commit = Ok (s', r) →
  match RAction r with
  | ActionEscalate =>
      TicketID r = id ∧ Get s id = Err ErrTicketNotFound ∧
      (∃ t, Get s' id = Ok t ∧ TState t = "pending"%string ∧ TDecisionID t = DecisionID commit ∧ TReason t = RReason r) ∧
      (∀ id', id' ≠ id → Get s' id' = Get s id')
  | ActionVeto => s' = s ∧ CAggregate commit = VerdictReject ∧ VetoedBy commit ≠ ""%string
  | ActionPass => s' = s ∧
      (VetoOnCriticalReject policy = true → CAggregate commit = VerdictReject → VetoedBy commit = ""%string) ∧
      (EscalateOnCriticalAbstain policy = true → ∀ v, v ∈ FacetVerdicts commit → critical_abstain v = false) ∧
      (let '(mean, n) := nonCriticalApproveConfidence (FacetVerdicts commit) in
       0 < n → f_ltb mean (ConfidenceThreshold policy) = false)
  end.
Proof.
  assert (∀ reason, escalate s id now commit reason = Ok (s', r) →
    RAction r = ActionEscalate ∧ TicketID r = id ∧ Get s id = Err ErrTicketNotFound ∧
    (∃ t, Get s' id = Ok t ∧ TState t = "pending"%string ∧ TDecisionID t = DecisionID commit ∧ TReason t = RReason r) ∧
    (∀ id', id' ≠ id → Get s' id' = Get s id')) as Hesc.
  { intros reason ([s1 t] & (s2 & Hc & [= -> <-])%result_bind_ok & [= <- <-])%result_bind_ok. cbn.
    pose proof (create_get _ _ _ Hc) as Hg. cbn in Hg. split_and!; [done..| | |].
    - exact (create_fresh _ _ _ Hc).
    - eauto 10.
    - intros id' Hne. exact (create_other _ _ _ _ Hc Hne). }
  unfold Decide. destruct (_ && _ && _) eqn:Ev.
  { intros [= <- <-]. cbn. bool_to_prop. done. }
  destruct (if EscalateOnCriticalAbstain policy then _ else _) as [v|] eqn:Ea.
  { intros (-> & H)%Hesc. exact H. }
  destruct (nonCriticalApproveConfidence _) as [mean n].
  destruct (Z.ltb_spec 0 n) as [Hn|Hn]; cbn [andb].
  1: destruct (f_ltb mean _) eqn:Ef; [intros (-> & H)%Hesc; exact H|].
  all: intros [= <- <-]; cbn; split_and!; [done| | |intros; (done || lia)].
  all: try (intros He; rewrite He in Ea; by rewrite <- find_none_iff).
  all: intros H1 H2; rewrite H1, bool_decide_eq_true_2 in Ev by done; cbn in Ev; by bool_to_prop.
Qed.
End interface.

Definition ex_ticket (id state : string) : Ticket :=
  {| TID := id; TDecisionID := "d1"; TSubmitter := "s"; TSpecID := "v1"; OpenedAt := 5; ResolvedAt := 0;
     TReason := "r"; TAggregate := "ABSTAIN"; TVetoedBy := ""; TState := state; Resolver := "";
     ResolutionNote := "" |}.
Definition ex_store : InMemoryTicketStore := <["t1"%string := ex_ticket "t1" "approved"]> ∅.

Lemma ticket_lifecycle_witness :
  ∃ s', Create ex_store (ex_ticket "t2" "pending") = Ok s' ∧
    Resolve ex_store 9 "t1" "bob" "rejected" "" = Err ErrAlreadyResolved ∧
    Get s' "t1" = Ok (ex_ticket "t1" "approved").
Proof.
  set (s' := <["t2"%string := ex_ticket "t2" "pending"]> ex_store). exists s'.
  assert (Create ex_store (ex_ticket "t2" "pending") = Ok s') as Hc by reflexivity.
  split; [exact Hc|]. split; [reflexivity|].
  destruct (ticket_lifecycle ex_store s' "t1" (ex_ticket "t1" "approved") (rtc_once _ _ (step_create _ _ _ Hc)) eq_refl)
    as (t' & Hg & _ & Hf).
  rewrite Hf in Hg; [exact Hg|discriminate].
Defined.

Lemma Decide_effect_witness :
  ∃ s' r, Decide DefaultPolicy (∅ : InMemoryTicketStore) "t1" 3
      (ex_commit [ex_fv FacetSafety VerdictAbstain f_zero] VerdictAbstain) = Ok (s', r) ∧
    ∃ t, Get s' "t1" = Ok t ∧ TState t = "pending"%string ∧ TDecisionID t = ID ex_decision.
Proof.
  eexists _, _. match goal with |- ?P ∧ _ => assert P as H by reflexivity end. split; [exact H|].
  destruct (Decide_effect (S := InMemoryTicketStore) _ _ _ _ _ _ _ H) as (_ & _ & (t & H1 & H2 & H3 & _) & _).
  exists t. split; [exact H1|]. split; [exact H2|exact H3].
Defined.

(** The judge and the escalation service together: on a judged commit the
    default policy vetoes exactly when a critical facet rejected (the documented
    rule, which the code tests through the aggregate), and the reason it gives
    names the facet but never the cause, because a judged REJECT carries no
    reason text. *)
Theorem judged_veto {S} `{!TicketStore S} j d c (s : S) id now :
  JudgeEvaluate j d = Ok c →
  (∃ v, v ∈ FacetVerdicts c ∧ isCritical (Kind v) = true ∧ FVerdict v = VerdictReject) ↔
  Decide DefaultPolicy s id now c =
    Ok (s, {| RAction := ActionVeto; RReason := ("critical-veto by " +:+ VetoedBy c +:+ ": ")%string; TicketID := "" |}).
Proof.
  unfold JudgeEvaluate. destruct (provider j) as [p|]; [|done]. destruct (_ =? 0); [done|].
  destruct (PEvaluate p d) as [raw|]; [|done].
  assert (normaliseVerdicts raw ≠ []) as Hne by done. set (vs := normaliseVerdicts raw) in *.
  assert (∀ k, isCritical k = true → k ≠ ""%string) as Hk by (by intros k Hk ->).
  assert (∀ (s' : S) r c reason, escalate s id now c reason = Ok (s', r) → RAction r = ActionEscalate) as Hesc.
  { intros s' r c' reason (st & _ & [= _ <-])%result_bind_ok. done. }
  assert (∀ c, (CAggregate c ≠ VerdictReject ∨ VetoedBy c = ""%string) → ∀ s' r,
    Decide DefaultPolicy s id now c = Ok (s', r) → RAction r ≠ ActionVeto) as Hnv.
  { intros c' Hc s' r H Hv. unfold Decide in H. cbn [VetoOnCriticalReject EscalateOnCriticalAbstain DefaultPolicy andb] in H.
    replace (_ && negb _) with false in H by (symmetry; apply andb_false_iff; rewrite negb_false_iff,
      bool_decide_eq_false, bool_decide_eq_true; naive_solver).
    destruct (List.find _ _); [apply Hesc in H; congruence|].
    destruct (nonCriticalApproveConfidence _). destruct (_ && _); [apply Hesc in H; congruence|].
    injection H as <- <-. done. }
  destruct (Aggregate_cases (policy j) vs Hne) as
    [(fv & r' & E & Hfv & Hc & Hr)|[(fv & r' & E & Hfv & Hc & _ & Hno)|
     (Hca & [(fv & r' & E & _)|(Hno & [[E _]|[[r' E] _]])])]];
    rewrite E; intros [= <-]; cbn [FacetVerdicts VetoedBy].
  1: { split; [|by eauto]. intros _. unfold Decide. cbn. rewrite (bool_decide_eq_false_2 (Kind fv = ""%string)) by (by apply Hk). done. }
  all: split; [intros (v & Hv & Hvc & Hvr); exfalso|intros H; exfalso; eapply Hnv; [|exact H|done]; cbn; auto].
  - by eapply Hno.
  - specialize (Hca _ Hv Hvc). congruence.
  - by eapply Hno.
  - by eapply Hno.
Qed.

Lemma judged_veto_witness :
  ∃ c, JudgeEvaluate {| provider := Some (ex_provider "p" [ex_fv FacetSafety VerdictReject f_one]);
                        policy := DefaultAggregationPolicy |} ex_decision = Ok c ∧
    Decide (S := InMemoryTicketStore) DefaultPolicy ∅ "t1" 3 c =
      Ok (∅, {| RAction := ActionVeto; RReason := "critical-veto by safety: "; TicketID := "" |}).
Proof.
  eexists. match goal with |- ?P ∧ _ => assert P as H by (vm_compute; reflexivity) end. split; [exact H|].
  refine (proj1 (judged_veto _ _ _ (∅ : InMemoryTicketStore) "t1" 3 H) _).
  exists (ex_fv FacetSafety VerdictReject f_one). split; [left|]. split; reflexivity.
Defined.
