(* ===== verification/Quorum.v ===== *)
(** * The evaluator quorum ([engine/internal/quorum])

    [registry.go] (the signer registry), [bls.go] (aggregation, verification,
    thresholds) and [verifier.go] ([VerifyQuorum], [commitmentHash]). The curve
    BLS12-381 of gnark-crypto is the interface [Curve]; [CurveLaws] states its
    documented algebra. *)

From S2P Require Import Prelude GoLib Sha256.

Local Open Scope Z_scope.

(** ** The curve *)

(** The operations of [bls12381] the package calls: group laws, scalar
    multiplication, hashing to G1, the pairing product check and the compressed
    encodings. *)
Class Curve (G1 G2 : Type) := {
  g1_zero : G1; g1_add : G1 → G1 → G1; g1_neg : G1 → G1; g1_mul : Z → G1 → G1;
  g2_zero : G2; g2_add : G2 → G2 → G2; g2_mul_base : Z → G2;
  HashToG1 : bytes → bytes → option G1;
  PairingCheck : list G1 → list G2 → option bool;
  g1_bytes : G1 → bytes; g1_set_bytes : bytes → option G1;
  g2_bytes : G2 → bytes; g2_set_bytes : bytes → option G2;
}.

(** Scalar multiplication is additive in the scalar, and the two-term pairing
    product [e(-h, k G2) e(s, G2)] is one exactly for [s = k h]. *)
Class CurveLaws (G1 G2 : Type) `{!Curve G1 G2} : Prop := {
  g1_mul_zero h : g1_mul 0 h = g1_zero;
  g1_mul_add a b h : g1_add (g1_mul a h) (g1_mul b h) = g1_mul (a + b) h;
  g2_mul_zero : g2_mul_base 0 = g2_zero;
  g2_mul_add a b : g2_add (g2_mul_base a) (g2_mul_base b) = g2_mul_base (a + b);
  pairing_spec h k : PairingCheck [g1_neg h; g1_mul k h] [g2_mul_base k; g2_mul_base 1] = Some true;
}.

(** ** Data *)

Inductive SignerStatus := StatusActive | StatusSlashed | StatusRemoved.

#[export] Instance SignerStatus_eq_dec : EqDecision SignerStatus.
Proof. solve_decision. Defined.

Definition SignerStatus_String (s : SignerStatus) : string :=
  match s with StatusActive => "active" | StatusSlashed => "slashed" | StatusRemoved => "removed" end.

Inductive QuorumError :=
| ErrEmptyMessage | ErrEmptyBitset | ErrEmptySignatures
| ErrThresholdNotMet (got need active : Z)
| ErrDuplicateSigner (id : string)
| ErrUnknownSigner (id : string)
| ErrPairingCheckFail
| ErrInactiveSigner (id status : string)
| ErrInvalidPubKey (id : string)
| ErrInvalidSignature | ErrEmptyPubKey
| ErrEmptySignerID
| ErrSignerRegistered (id : string)
| ErrSlashedRetire (id : string)
| ErrHashToG1 | ErrPairing
| ErrNilElement (i : nat).

Definition DomainSeparationTag : bytes :=
  bytes_of "BLS_SIG_BLS12381G1_XMD:SHA-256_SSWU_RO_NUL_CP_QUORUM_2026".

Definition SchemeBLS12381G1V1 : string := "bls12-381-g1-agg-v1".

Record QuorumWitness := {
  QScheme : string;
  EvidenceRootHex : string;
  SignerBitset : list string;
  AggregatePubKeyHex : string;
  AggregateSigHex : string;
  Threshold : Z;
  ActiveSigners : Z;
  QVerdict : string;
  VerifiedAt : time;
  WitnessHashHex : string;
}.

(** [⌊2n/3⌋ + 1] clamped to [n]. *)
Definition ByzantineThreshold (n : Z) : Z :=
  if n <=? 0 then 0
  else let t := 2 * n / 3 + 1 in if n <? t then n else t.

Definition SortSignerIDs (ids : list string) : list string := sort_slice string_ltb ids.

(** The hashed serialisation of the witness fields. *)
Definition commitment_bytes (w : QuorumWitness) : bytes :=
  bytes_of (QScheme w) ++ [Byte.x00] ++ bytes_of (EvidenceRootHex w) ++ [Byte.x00]
  ++ concat ((λ id, bytes_of id ++ [Byte.x1e]) <$> SignerBitset w) ++ [Byte.x00]
  ++ bytes_of (AggregatePubKeyHex w) ++ [Byte.x00] ++ bytes_of (AggregateSigHex w) ++ [Byte.x00]
  ++ bytes_of ("t=" +:+ itoa (Threshold w) +:+ ";n=" +:+ itoa (ActiveSigners w) +:+ ";v=" +:+ QVerdict w)%string.

Definition commitmentHash (w : QuorumWitness) : string := hex_encode (sha256 (commitment_bytes w)).

Section curve.
Context {G1 G2 : Type} `{!Curve G1 G2}.

(** *** Signatures ([bls.go]) *)

Definition PublicKey (sk : Z) : G2 := g2_mul_base sk.

Definition Sign (sk : Z) (msg : bytes) : result QuorumError G1 :=
  if (length msg =? 0)%nat then Err ErrEmptyMessage
  else match HashToG1 msg DomainSeparationTag with
       | None => Err ErrHashToG1
       | Some h => Ok (g1_mul sk h)
       end.

Definition VerifySig (pk : option G2) (msg : bytes) (sig : G1) : result QuorumError unit :=
  match pk with
  | None => Err ErrEmptyPubKey
  | Some pk =>
      if (length msg =? 0)%nat then Err ErrEmptyMessage
      else match HashToG1 msg DomainSeparationTag with
           | None => Err ErrHashToG1
           | Some h =>
               match PairingCheck [g1_neg h; sig] [pk; g2_mul_base 1] with
               | None => Err ErrPairing
               | Some false => Err ErrPairingCheckFail
               | Some true => Ok tt
               end
           end
  end.

Fixpoint sum_points {G} (add : G → G → G) (i : nat) (acc : G) (ps : list (option G)) : result QuorumError G :=
  match ps with
  | [] => Ok acc
  | None :: _ => Err (ErrNilElement i)
  | Some p :: ps' => sum_points add (S i) (add acc p) ps'
  end.

Definition Aggregate (sigs : list (option G1)) : result QuorumError G1 :=
  if (length sigs =? 0)%nat then Err ErrEmptySignatures else sum_points g1_add 0 g1_zero sigs.

Definition AggregatePubKeys (pks : list (option G2)) : result QuorumError G2 :=
  if (length pks =? 0)%nat then Err ErrEmptyPubKey else sum_points g2_add 0 g2_zero pks.

Definition PubKeyHex (pk : G2) : string := hex_encode (g2_bytes pk).
Definition SigHex (s : G1) : string := hex_encode (g1_bytes s).

Definition UnmarshalPubKey (b : bytes) : result QuorumError G2 :=
  if (length b =? 0)%nat then Err ErrEmptyPubKey
  else match g2_set_bytes b with Some p => Ok p | None => Err (ErrInvalidPubKey "") end.

Definition UnmarshalSignature (b : bytes) : result QuorumError G1 :=
  if (length b =? 0)%nat then Err ErrInvalidSignature
  else match g1_set_bytes b with Some p => Ok p | None => Err ErrInvalidSignature end.

Definition PubKeyFromHex (s : string) : result QuorumError G2 :=
  if bool_decide (s = ""%string) then Err ErrEmptyPubKey
  else match hex_decode s with None => Err (ErrInvalidPubKey "") | Some b => UnmarshalPubKey b end.

Definition SigFromHex (s : string) : result QuorumError G1 :=
  if bool_decide (s = ""%string) then Err ErrInvalidSignature
  else match hex_decode s with None => Err ErrInvalidSignature | Some b => UnmarshalSignature b end.

(** *** The signer registry ([registry.go]) *)

Record SignerRecord := {
  SID : string;
  PublicKeyHex : string;
  Bond : Z;
  Status : SignerStatus;
  RegisteredAt : time;
  SlashedAt : option time;
  SlashReason : string;
  pk : option G2;
}.

Notation Registry := (gmap string SignerRecord).

Definition Register (r : Registry) (now : time) (id : string) (pk : option G2) (bond : Z)
    : result QuorumError Registry :=
  if bool_decide (id = ""%string) then Err ErrEmptySignerID
  else match pk with
       | None => Err ErrEmptyPubKey
       | Some p =>
           match r !! id with
           | Some _ => Err (ErrSignerRegistered id)
           | None =>
               Ok (<[id := {| SID := id; PublicKeyHex := hex_encode (g2_bytes p); Bond := bond;
                              Status := StatusActive; RegisteredAt := now; SlashedAt := None;
                              SlashReason := ""; pk := Some p |}]> r)
           end
       end.

Definition GetSigner (r : Registry) (id : string) : option SignerRecord := r !! id.

Definition ListSigners (r : Registry) (filter : option SignerStatus) : list SignerRecord :=
  sort_slice (λ a b, string_ltb (SID a) (SID b))
    (List.filter (λ rec, match filter with Some f => bool_decide (Status rec = f) | None => true end)
       (snd <$> map_to_list r)).

Definition set_status (rec : SignerRecord) (st : SignerStatus) (at_ : option time) (reason : string) : SignerRecord :=
  {| SID := SID rec; PublicKeyHex := PublicKeyHex rec; Bond := Bond rec; Status := st;
     RegisteredAt := RegisteredAt rec; SlashedAt := at_; SlashReason := reason; pk := pk rec |}.

Definition Slash (r : Registry) (now : time) (id reason : string) : result QuorumError Registry :=
  match r !! id with
  | None => Err (ErrUnknownSigner id)
  | Some rec =>
      if bool_decide (Status rec = StatusSlashed) then Ok r
      else Ok (<[id := set_status rec StatusSlashed (Some now) reason]> r)
  end.

Definition Retire (r : Registry) (id : string) : result QuorumError Registry :=
  match r !! id with
  | None => Err (ErrUnknownSigner id)
  | Some rec =>
      if bool_decide (Status rec = StatusSlashed) then Err (ErrSlashedRetire id)
      else if bool_decide (Status rec = StatusRemoved) then Ok r
      else Ok (<[id := set_status rec StatusRemoved (SlashedAt rec) (SlashReason rec)]> r)
  end.

Fixpoint activePubKeys_loop (r : Registry) (seen : list string) (ids : list string)
    : result QuorumError (list G2) :=
  match ids with
  | [] => Ok []
  | id :: ids' =>
      if bool_decide (id ∈ seen) then Err (ErrDuplicateSigner id)
      else match r !! id with
           | None => Err (ErrUnknownSigner id)
           | Some rec =>
               if negb (bool_decide (Status rec = StatusActive))
               then Err (ErrInactiveSigner id (SignerStatus_String (Status rec)))
               else match pk rec with
                    | None => Err (ErrInvalidPubKey id)
                    | Some p => let! ps := activePubKeys_loop r (id :: seen) ids' in Ok (p :: ps)
                    end
           end
  end.

Definition activePubKeys (r : Registry) (ids : list string) : result QuorumError (list G2) :=
  activePubKeys_loop r [] ids.

Definition is_active (rec : SignerRecord) : bool := bool_decide (Status rec = StatusActive).

Definition ActiveCount (r : Registry) : Z := count is_active (snd <$> map_to_list r).

(** *** The quorum check ([verifier.go]) *)

Definition effective_threshold (threshold active : Z) : Z :=
  let t := if threshold <=? 0 then ByzantineThreshold active else threshold in
  if t <? 1 then 1 else t.

Definition VerifyQuorum (reg : Registry) (now : time) (evidenceRoot : bytes) (signerBitset : list string)
    (aggSig : option G1) (threshold : Z) : result QuorumError QuorumWitness :=
  if (length evidenceRoot =? 0)%nat then Err ErrEmptyMessage
  else if (length signerBitset =? 0)%nat then Err ErrEmptyBitset
  else match aggSig with
       | None => Err ErrInvalidSignature
       | Some sig =>
           let active := ActiveCount reg in
           let threshold := effective_threshold threshold active in
           if Z.of_nat (length signerBitset) <? threshold
           then Err (ErrThresholdNotMet (Z.of_nat (length signerBitset)) threshold active)
           else
             let sorted := SortSignerIDs signerBitset in
             let! pks := activePubKeys reg sorted in
             let! aggPK := AggregatePubKeys (Some <$> pks) in
             let! _ := VerifySig (Some aggPK) evidenceRoot sig in
             let w hash := {| QScheme := SchemeBLS12381G1V1; EvidenceRootHex := hex_encode evidenceRoot;
                              SignerBitset := sorted; AggregatePubKeyHex := PubKeyHex aggPK;
                              AggregateSigHex := SigHex sig; Threshold := threshold; ActiveSigners := active;
                              QVerdict := "APPROVE"; VerifiedAt := now; WitnessHashHex := hash |} in
             Ok (w (commitmentHash (w ""%string)))
       end.

(** One change of the registry. *)
Inductive registry_step : Registry → Registry → Prop :=
| step_register r now id p bond r' : Register r now id p bond = Ok r' → registry_step r r'
| step_slash r now id reason r' : Slash r now id reason = Ok r' → registry_step r r'
| step_retire r id r' : Retire r id = Ok r' → registry_step r r'.

(** ** Lemmas *)

Lemma activePubKeys_loop_ok r seen ids ps :
  activePubKeys_loop r seen ids = Ok ps ↔
  NoDup ids ∧ (∀ id, id ∈ ids → id ∉ seen) ∧
  Forall2 (λ id p, ∃ rec, r !! id = Some rec ∧ Status rec = StatusActive ∧ pk rec = Some p) ids ps.
Proof.
  revert seen ps. induction ids as [|id ids IH]; intros seen ps; cbn [activePubKeys_loop].
  { split; [intros [= <-]|intros (_ & _ & H)].
    - split_and!; [constructor| |constructor]. intros id Hid. by apply elem_of_nil in Hid.
    - by inversion H. }
  setoid_rewrite NoDup_cons. setoid_rewrite elem_of_cons. case_bool_decide as Es.
  { split; [done|]. intros (_ & H & _). exfalso. eapply H; [by left|done]. }
  destruct (r !! id) as [rec|] eqn:Er.
  2:{ split; [done|]. intros (_ & _ & H). inversion H as [|? ? ? ? (rec & ? & _)]; subst. congruence. }
  case_bool_decide as Ea; cbn [negb].
  2:{ split; [done|]. intros (_ & _ & H). inversion H as [|? ? ? ? (rec' & ? & ? & _)]; subst. congruence. }
  destruct (pk rec) as [p|] eqn:Ep.
  2:{ split; [done|]. intros (_ & _ & H). inversion H as [|? ? ? ? (rec' & ? & _ & ?)]; subst. congruence. }
  rewrite result_bind_ok. setoid_rewrite IH. setoid_rewrite elem_of_cons. split.
  - intros (k & (Hnd & Hs & Hf) & [= <-]). split; [|split]; [naive_solver|naive_solver|]. constructor; eauto.
  - intros ([Hn Hnd] & Hs & Hf). inversion Hf as [|? q ? qs (rec' & Hr' & _ & Hp') Hf']; subst.
    exists qs. split; [|congruence]. split_and!; [done| |done]. naive_solver.
Qed.

Lemma length_active r ids ps :
  activePubKeys r ids = Ok ps →
  NoDup ids ∧ ∀ id, id ∈ ids → ∃ rec, r !! id = Some rec ∧ Status rec = StatusActive.
Proof.
  intros (Hnd & _ & Hf)%activePubKeys_loop_ok. split; [done|]. intros id (i & Hi)%list_elem_of_lookup.
  destruct (Forall2_lookup_l _ _ _ _ _ Hf Hi) as (p & _ & rec & ? & ? & _). eauto.
Qed.

(** The identifiers of the active signers. *)
Definition active_ids (r : Registry) : gset string := dom (filter (λ kv, Status (snd kv) = StatusActive) r).

Lemma elem_of_active_ids r id :
  id ∈ active_ids r ↔ ∃ rec, r !! id = Some rec ∧ Status rec = StatusActive.
Proof. unfold active_ids. rewrite elem_of_dom. unfold is_Some. setoid_rewrite map_lookup_filter_Some. done. Qed.

Lemma ActiveCount_size r : ActiveCount r = Z.of_nat (size (active_ids r)).
Proof.
  unfold ActiveCount, active_ids. rewrite size_dom.
  induction r as [|i x m Hi IH] using map_ind; [done|].
  rewrite map_to_list_insert by done. rewrite fmap_cons, count_cons, IH. cbn [snd].
  rewrite map_filter_insert. unfold is_active. cbn [snd]. case_bool_decide; case_decide; try done.
  - rewrite map_size_insert_None; [lia|]. apply map_lookup_filter_None. left. done.
  - rewrite delete_id by done. lia.
Qed.

Lemma VerifyQuorum_ok reg now root bitset sig threshold w :
  VerifyQuorum reg now root bitset sig threshold = Ok w →
  root ≠ [] ∧ bitset ≠ [] ∧ Threshold w = effective_threshold threshold (ActiveCount reg) ∧
  ActiveSigners w = ActiveCount reg ∧ Threshold w <= Z.of_nat (length bitset) ∧
  SignerBitset w = SortSignerIDs bitset ∧ EvidenceRootHex w = hex_encode root ∧
  (∃ pks aggPK s, activePubKeys reg (SignerBitset w) = Ok pks ∧ AggregatePubKeys (Some <$> pks) = Ok aggPK ∧
    sig = Some s ∧ VerifySig (Some aggPK) root s = Ok tt ∧ AggregatePubKeyHex w = PubKeyHex aggPK) ∧
  WitnessHashHex w = commitmentHash w.
Proof.
  unfold VerifyQuorum. destruct (Nat.eqb_spec (length root) 0); [done|].
  destruct (Nat.eqb_spec (length bitset) 0); [done|]. destruct sig as [s|]; [|done]. cbv zeta.
  destruct (Z.ltb_spec (Z.of_nat (length bitset)) (effective_threshold threshold (ActiveCount reg))); [done|].
  intros (pks & Hp & (aggPK & Ha & ([] & Hv & [= <-])%result_bind_ok)%result_bind_ok)%result_bind_ok. cbn.
  split_and!; try done; [by intros ->|by intros ->|]. eauto 10.
Qed.

Lemma registry_step_lookup r r' id rec :
  registry_step r r' → r !! id = Some rec →
  ∃ rec', r' !! id = Some rec' ∧ pk rec' = pk rec ∧ SID rec' = SID rec ∧
    (Status rec = StatusSlashed → rec' = rec) ∧ (Status rec' = StatusActive → Status rec = StatusActive).
Proof.
  intros Hs Hr. destruct Hs as [r now id0 p bond r' H|r now id0 reason r' H|r id0 r' H].
  - unfold Register in H. case_bool_decide; [done|]. destruct p; [|done].
    destruct (r !! id0) eqn:E; [done|]. injection H as <-. exists rec.
    rewrite lookup_insert_ne by congruence. done.
  - unfold Slash in H. destruct (r !! id0) as [rec0|] eqn:E; [|done].
    case_bool_decide; injection H as <-; [by exists rec|].
    destruct (decide (id = id0)) as [->|]; [|exists rec; by rewrite lookup_insert_ne].
    rewrite lookup_insert_eq. simplify_eq. eexists. split; [done|]. cbn. naive_solver.
  - unfold Retire in H. destruct (r !! id0) as [rec0|] eqn:E; [|done].
    case_bool_decide; [done|]. case_bool_decide; injection H as <-; [by exists rec|].
    destruct (decide (id = id0)) as [->|]; [|exists rec; by rewrite lookup_insert_ne].
    rewrite lookup_insert_eq. simplify_eq. eexists. split; [done|]. cbn. naive_solver.
Qed.

(** Two default thresholds exceed the committee by more than [f]. *)
Lemma default_threshold n : 0 <= n → n + (n - 1) / 3 + 1 <= 2 * effective_threshold 0 n.
Proof.
  intros Hn. unfold effective_threshold, ByzantineThreshold. change (0 <=? 0) with true. cbv iota zeta.
  destruct (Z.leb_spec n 0); [cbn; lia_div|].
  destruct (Z.ltb_spec n (2 * n / 3 + 1)) as [|];
    match goal with |- context [?t <? 1] => destruct (Z.ltb_spec t 1) end; lia_div.
Qed.

(** ** Properties *)

(** The signer life cycle: along any registrations, slashes and retirements
    a signer keeps its key and its identifier, a slashed record never changes
    again, and a signer that stopped being active never becomes active. *)
Theorem registry_lifecycle r r' id rec :
  rtc registry_step r r' → r !! id = Some rec →
  ∃ rec', r' !! id = Some rec' ∧ pk rec' = pk rec ∧ SID rec' = SID rec ∧
    (Status rec = StatusSlashed → rec' = rec) ∧ (Status rec' = StatusActive → Status rec = StatusActive).
Proof.
  intros Hs. revert rec. induction Hs as [r|r r1 r' Hstep _ IH]; intros rec Hr; [by exists rec|].
  destruct (registry_step_lookup _ _ _ _ Hstep Hr) as (r2 & H1 & H2 & H3 & H4 & H5).
  destruct (IH _ H1) as (r3 & K1 & K2 & K3 & K4 & K5). exists r3. split_and!; [done|congruence..| |by auto].
  intros Hsl. pose proof (H4 Hsl) as ->. auto.
Qed.


(** Quorum intersection: two quorums accepted from one registry with the
    default threshold share more than [f = ⌊(n-1)/3⌋] signers, so at least one
    honest signer when at most [f] of the [n] active signers are malicious. *)
Theorem quorum_intersection reg now now' root root' b b' sig sig' w w' :
  VerifyQuorum reg now root b sig 0 = Ok w → VerifyQuorum reg now' root' b' sig' 0 = Ok w' →
  (ActiveCount reg - 1) / 3 <
    Z.of_nat (size (list_to_set (C := gset string) (SignerBitset w) ∩ list_to_set (SignerBitset w'))).
Proof.
  assert (∀ now root b sig w, VerifyQuorum reg now root b sig 0 = Ok w →
    list_to_set (C := gset string) (SignerBitset w) ⊆ active_ids reg ∧
    effective_threshold 0 (ActiveCount reg) <= Z.of_nat (size (list_to_set (C := gset string) (SignerBitset w)))) as Hq.
  { intros n rt bs sg wt (_ & _ & Ht & _ & Hlen & Hb & _ & (pks & _ & _ & Hp & _) & _)%VerifyQuorum_ok.
    destruct (length_active _ _ _ Hp) as [Hnd Hact]. split.
    - intros id. rewrite elem_of_list_to_set, elem_of_active_ids. apply Hact.
    - rewrite size_list_to_set by done. rewrite <- Ht, Hb. unfold SortSignerIDs. by rewrite length_sort_slice. }
  intros [Hs1 Hl1]%Hq [Hs2 Hl2]%Hq. set (X := list_to_set (SignerBitset w)) in *.
  set (Y := list_to_set (SignerBitset w')) in *.
  pose proof (subseteq_size (X ∪ Y) (active_ids reg) ltac:(set_solver)) as Hu.
  rewrite size_union_alt in Hu. pose proof (size_difference_alt Y X) as Hd.
  replace (X ∩ Y) with (Y ∩ X) by set_solver.
  rewrite ActiveCount_size in *.
  match goal with H : effective_threshold 0 ?n <= _ |- _ => assert (0 <= n) as Hn by lia end.
  apply default_threshold in Hn.
  lia.
Qed.

Context `{!CurveLaws G1 G2}.

Definition zsum (l : list Z) : Z := foldr Z.add 0 l.

Lemma zsum_perm l k : l ≡ₚ k → zsum l = zsum k.
Proof. unfold zsum. induction 1; cbn [foldr]; lia. Qed.

Lemma sum_points_mul {G} (add : G → G → G) (mul : Z → G) sks i a :
  (∀ a b, add (mul a) (mul b) = mul (a + b)) →
  sum_points add i (mul a) (Some <$> (mul <$> sks)) = Ok (mul (a + zsum sks)).
Proof.
  intros Hadd. revert i a. induction sks as [|s sks IH]; intros i a; cbn; [by rewrite Z.add_0_r|].
  rewrite Hadd. etransitivity; [apply IH|]. do 2 f_equal.
  fold (zsum sks). lia.
Qed.

Lemma Aggregate_signatures h sks :
  sks ≠ [] → Aggregate (Some <$> ((λ sk, g1_mul sk h) <$> sks)) = Ok (g1_mul (zsum sks) h).
Proof.
  intros Hne. unfold Aggregate. destruct sks as [|s sks]; [done|]. cbn [fmap list_fmap length Nat.eqb].
  rewrite <- (g1_mul_zero h). apply (sum_points_mul g1_add (λ k, g1_mul k h) (s :: sks)). intros. apply g1_mul_add.
Qed.

Lemma AggregatePubKeys_keys sks :
  sks ≠ [] → AggregatePubKeys (Some <$> (PublicKey <$> sks)) = Ok (PublicKey (zsum sks)).
Proof.
  intros Hne. unfold AggregatePubKeys. destruct sks as [|s sks]; [done|]. cbn [fmap list_fmap length Nat.eqb].
  rewrite <- g2_mul_zero. apply (sum_points_mul g2_add g2_mul_base (s :: sks)). intros. apply g2_mul_add.
Qed.

Lemma try_map_Sign h msg sks :
  msg ≠ [] → HashToG1 msg DomainSeparationTag = Some h →
  try_map (λ sk, Sign sk msg) sks = Ok ((λ sk, g1_mul sk h) <$> sks).
Proof.
  intros Hm Hh. apply try_map_ok. induction sks; cbn; constructor; [|done].
  unfold Sign. rewrite Hh. by destruct msg.
Qed.

(** A signer that is registered and active under the key of its secret. *)
Definition enrolled (reg : Registry) (s : string * Z) : Prop :=
  ∃ rec, reg !! s.1 = Some rec ∧ Status rec = StatusActive ∧ pk rec = Some (PublicKey s.2).

(** Completeness of the quorum check: when pairwise different active
    signers, at least as many as the effective threshold, all sign the
    evidence root, the aggregate of their signatures is accepted, in whatever
    order the bitset lists them. *)
Theorem VerifyQuorum_complete reg now root signers bitset threshold sigs agg :
  root ≠ [] → signers ≠ [] → is_Some (HashToG1 root DomainSeparationTag) →
  NoDup (fst <$> signers) → Forall (enrolled reg) signers → bitset ≡ₚ fst <$> signers →
  effective_threshold threshold (ActiveCount reg) <= Z.of_nat (length signers) →
  try_map (λ s, Sign (snd s) root) signers = Ok sigs → Aggregate (Some <$> sigs) = Ok agg →
  is_ok (VerifyQuorum reg now root bitset (Some agg) threshold) = true.
Proof.
  intros Hroot Hne [h Hh] Hnd Henr Hperm Hthr Hsigs Hagg.
  assert (try_map (λ s : string * Z, Sign (snd s) root) signers
    = try_map (λ sk, Sign sk root) (snd <$> signers)) as E.
  { clear. induction signers as [|s l IH]; cbn; [done|]. by rewrite IH. }
  rewrite E, (try_map_Sign h) in Hsigs by done. injection Hsigs as <-.
  rewrite Aggregate_signatures in Hagg by (by destruct signers). injection Hagg as <-.
  assert (SortSignerIDs bitset ≡ₚ fst <$> signers) as Hs by (unfold SortSignerIDs; by rewrite sort_slice_perm).
  apply Permutation_map_inv in Hs as (signers' & Hs & Hp').
  assert (activePubKeys reg (SortSignerIDs bitset) = Ok (PublicKey <$> (snd <$> signers'))) as Hact.
  { apply activePubKeys_loop_ok. rewrite Hs. split_and!.
    - change (map fst signers') with (fst <$> signers'). by rewrite <- Hp'.
    - intros id _ H. by apply elem_of_nil in H.
    - rewrite Hp' in Henr. clear -Henr. induction Henr as [|s l (rec & ? & ? & ?) _ IH]; cbn; constructor; eauto. }
  assert (signers' ≠ []) as Hne' by (intros ->; by apply Permutation_nil_r in Hp').
  unfold VerifyQuorum. destruct (Nat.eqb_spec (length root) 0); [by destruct root|].
  assert (length bitset = length signers) as Hlen by (by rewrite Hperm, length_fmap).
  destruct (Nat.eqb_spec (length bitset) 0); [destruct signers; [done|cbn in Hlen; lia]|]. cbv zeta.
  rewrite Hlen. destruct (Z.ltb_spec (Z.of_nat (length signers)) (effective_threshold threshold (ActiveCount reg))); [lia|].
  rewrite Hact. cbn [result_bind]. rewrite AggregatePubKeys_keys by (by destruct signers'). cbn [result_bind].
  replace (zsum (snd <$> signers')) with (zsum (snd <$> signers)) by (apply zsum_perm; by rewrite Hp').
  unfold VerifySig, PublicKey. rewrite Hh, pairing_spec. by destruct root.
Qed.
End curve.

(** ** Witnesses *)

(** The integers with the product pairing are a (useless but lawful) curve. *)
#[local] Instance toy_curve : Curve Z Z := {|
  g1_zero := 0; g1_add := Z.add; g1_neg := Z.opp; g1_mul := Z.mul;
  g2_zero := 0; g2_add := Z.add; g2_mul_base := λ k, k;
  HashToG1 := λ msg _, Some (1 + Z.of_nat (length msg));
  PairingCheck := λ ps qs, Some (foldr (λ pq acc, pq.1 * pq.2 + acc) 0 (zip ps qs) =? 0);
  g1_bytes := λ _, []; g1_set_bytes := λ _, None; g2_bytes := λ _, []; g2_set_bytes := λ _, None
|}.

#[local] Instance toy_laws : CurveLaws Z Z.
Proof. split; cbn; intros; try lia. f_equal. apply Z.eqb_eq. lia. Qed.

Definition ex_signer (id : string) (sk : Z) : SignerRecord (G2 := Z) :=
  {| SID := id; PublicKeyHex := ""; Bond := 5; Status := StatusActive; RegisteredAt := 1; SlashedAt := None;
     SlashReason := ""; pk := Some sk |}.
Definition ex_registry : gmap string (SignerRecord (G2 := Z)) :=
  <["a"%string := ex_signer "a" 11]> (<["b"%string := ex_signer "b" 12]> (<["c"%string := ex_signer "c" 13]>
  (<["d"%string := ex_signer "d" 14]> ∅))).
Definition ex_root : bytes := bytes_of "root".

(** Three of four signers: the aggregate of [k * 5] over the keys [11, 12, 14]. *)
Lemma ex_quorum_ok ids threshold :
  ids = ["d"; "a"; "b"]%string → effective_threshold threshold 4 <= 3 →
  ∃ w, VerifyQuorum ex_registry 9 ex_root ids (Some 185) threshold = Ok w ∧ SignerBitset w = ["a"; "b"; "d"]%string.
Proof.
  intros -> Ht. unfold VerifyQuorum. cbn [length Nat.eqb ex_root bytes_of String.list_byte_of_string].
  change (ActiveCount ex_registry) with 4. cbv zeta.
  match goal with |- context [(?a <? ?b)%Z] => destruct (Z.ltb_spec a b) as [H|_] end; [cbn in H; lia|].
  eexists. split; reflexivity.
Qed.

Lemma registry_lifecycle_witness :
  ∃ r', Slash (<["a"%string := set_status (ex_signer "a" 11) StatusSlashed (Some 3) "x"]> ex_registry) 7 "b" "y" = Ok r' ∧
    r' !! "a"%string = Some (set_status (ex_signer "a" 11) StatusSlashed (Some 3) "x").
Proof.
  eexists. match goal with |- ?P ∧ _ => assert P as H by reflexivity end. split; [exact H|].
  destruct (registry_lifecycle _ _ "a" (set_status (ex_signer "a" 11) StatusSlashed (Some 3) "x")
    (rtc_once _ _ (step_slash _ _ _ _ _ H)) eq_refl) as (rec' & Hr & _ & _ & Hsl & _).
  rewrite (Hsl eq_refl) in Hr. exact Hr.
Defined.


Lemma quorum_intersection_witness :
  ∃ w, VerifyQuorum ex_registry 9 ex_root ["d"; "a"; "b"]%string (Some 185) 0 = Ok w ∧
    (ActiveCount ex_registry - 1) / 3 <
      Z.of_nat (size (list_to_set (C := gset string) (SignerBitset w) ∩ list_to_set (SignerBitset w))).
Proof.
  destruct (ex_quorum_ok _ 0 eq_refl ltac:(done)) as (w & H & _). exists w. split; [exact H|].
  exact (quorum_intersection _ _ _ _ _ _ _ _ _ _ _ H H).
Defined.

Lemma VerifyQuorum_complete_witness :
  is_ok (VerifyQuorum ex_registry 9 ex_root ["d"; "a"; "b"]%string (Some 185) 0) = true.
Proof.
  apply (VerifyQuorum_complete ex_registry 9 ex_root [("a"%string, 11); ("b"%string, 12); ("d"%string, 14)]
    ["d"; "a"; "b"]%string 0 [55; 60; 70] 185); try done.
  - apply (bool_decide_unpack (NoDup _)). vm_compute. exact I.
  - repeat constructor; eexists; (split; [reflexivity|split; reflexivity]).
  - cbn. apply (Permutation_app_comm ["d"%string] ["a"; "b"]%string).
Defined.

(** A positive threshold below the Byzantine one is honoured: one of four signers
    is a quorum, and the witness says APPROVE. *)
Example threshold_below_byzantine :
  ByzantineThreshold 4 = 3 ∧
  ∃ w, VerifyQuorum ex_registry 9 ex_root ["a"]%string (Some 55) 1 = Ok w ∧ QVerdict w = "APPROVE"%string.
Proof. split; [reflexivity|]. eexists. split; reflexivity. Qed.

(** A removed signer can still be slashed. *)
Example removed_then_slashed :
  ∃ r r', Retire ex_registry "a" = Ok r ∧ Slash r 5 "a" "x" = Ok r' ∧
    (Status <$> r' !! "a"%string) = Some StatusSlashed.
Proof. eexists _, _. split; [reflexivity|]. split; reflexivity. Qed.
