(* ===== verification/Tenant.v ===== *)
(** * Tenants ([engine/internal/api/tenant/tenant.go])

    The tenant store: registration, key resolution, rate windows, the monthly
    quota, key rotation and the audit ring. The clock is the argument [now]; the
    JSON file of [LoadFile] is given parsed. [Add] stores the caller's pointer;
    the model stores its value. The one caller that writes through the pointer
    afterwards is the handler [tenantCreate], whose model (TenantApi) applies the
    write to the store. *)

From S2P Require Import Prelude GoLib Sha256.

Local Open Scope Z_scope.

(** ** Data *)

Record Tenant := {
  TenantID : string;
  DisplayName : string;
  Namespace : string;
  CreatedAt : time;
  KeyHashes : list string;
  RatePerSecond : Z;
  RatePerMinute : Z;
  MonthlyProofQuota : Z;
}.

Definition DefaultTenantID : string := "_default".

Record window := { start : time; wcount : Z }.
Record monthCtr := { myear : Z; mmonth : Z; mcount : Z }.

Inductive AuditKind :=
| AuditCreated | AuditKeyAdded | AuditKeyRevoked | AuditRateBlocked | AuditQuotaBlocked
| AuditAuthAccepted | AuditAuthRejected.

Record AuditEvent := { At : time; ATenantID : string; AKind : AuditKind; Detail : string }.

Record Store := {
  tenants : gmap string Tenant;
  byKey : gmap string string;
  rateSec : gmap string window;
  rateMin : gmap string window;
  quotaMon : gmap string monthCtr;
  audit : list AuditEvent;
  auditCap : nat;
}.

Inductive TenantError :=
| ErrIDRequired | ErrBareIdentifier | ErrNoKeyHash
| ErrTenantExists (id : string)
| ErrKeyTaken (other : string)
| ErrEmptyKey
| ErrTenantNotFound (id : string)
| ErrKeyRegistered
| ErrLoad (id : string).

Record Decision := { Allowed : bool; DReason : string }.
Definition allow : Decision := {| Allowed := true; DReason := "" |}.
Definition deny (reason : string) : Decision := {| Allowed := false; DReason := reason |}.

(** ** Operations *)

Definition NewStore : Store :=
  {| tenants := ∅; byKey := ∅; rateSec := ∅; rateMin := ∅; quotaMon := ∅; audit := []; auditCap := 4096 |}.

Definition HashKey (raw : string) : string := hex_encode (sha256 (bytes_of raw)).

Definition with_registry (s : Store) (ts : gmap string Tenant) (keys : gmap string string) : Store :=
  {| tenants := ts; byKey := keys; rateSec := rateSec s; rateMin := rateMin s; quotaMon := quotaMon s;
     audit := audit s; auditCap := auditCap s |}.

Definition appendAuditLocked (s : Store) (now : time) (ev : AuditEvent) : Store :=
  let ev := if At ev =? time_zero
            then {| At := now; ATenantID := ATenantID ev; AKind := AKind ev; Detail := Detail ev |} else ev in
  let l := audit s ++ [ev] in
  {| tenants := tenants s; byKey := byKey s; rateSec := rateSec s; rateMin := rateMin s;
     quotaMon := quotaMon s; audit := if (auditCap s <? length l)%nat then last_n (auditCap s) l else l;
     auditCap := auditCap s |}.

Definition Log (s : Store) (now : time) (ev : AuditEvent) : Store := appendAuditLocked s now ev.

Definition Audit (s : Store) (tenantID : string) : list AuditEvent :=
  List.filter (λ e, bool_decide (tenantID = ""%string) || bool_decide (ATenantID e = tenantID)) (audit s).

(** The characters a tenant identifier must not contain: space, tab, newline,
    slash and backslash. *)
Definition bare_identifier (id : string) : bool :=
  string_forall (λ c, negb (bool_decide (Ascii.N_of_ascii c ∈ [32; 9; 10; 47; 92]%N))) id.

Definition set_namespace (t : Tenant) : Tenant :=
  if bool_decide (Namespace t = ""%string)
  then {| TenantID := TenantID t; DisplayName := DisplayName t; Namespace := ("ns_" +:+ TenantID t)%string;
          CreatedAt := CreatedAt t; KeyHashes := KeyHashes t; RatePerSecond := RatePerSecond t;
          RatePerMinute := RatePerMinute t; MonthlyProofQuota := MonthlyProofQuota t |}
  else t.

Definition first_taken (keys : gmap string string) (hashes : list string) : option string :=
  head (omap (λ h, keys !! h) hashes).

Definition register_keys (id : string) (hashes : list string) (keys : gmap string string) : gmap string string :=
  foldl (λ m h, <[h := id]> m) keys hashes.

Definition Add (s : Store) (now : time) (t : Tenant) : result TenantError Store :=
  if bool_decide (TenantID t = ""%string) then Err ErrIDRequired
  else if negb (bare_identifier (TenantID t)) then Err ErrBareIdentifier
  else if (length (KeyHashes t) =? 0)%nat then Err ErrNoKeyHash
  else match tenants s !! TenantID t with
       | Some _ => Err (ErrTenantExists (TenantID t))
       | None =>
           match first_taken (byKey s) (KeyHashes t) with
           | Some other => Err (ErrKeyTaken other)
           | None =>
               let t := set_namespace t in
               let s := with_registry s (<[TenantID t := t]> (tenants s))
                          (register_keys (TenantID t) (KeyHashes t) (byKey s)) in
               Ok (appendAuditLocked s now
                     {| At := now; ATenantID := TenantID t; AKind := AuditCreated;
                        Detail := ("namespace=" +:+ Namespace t +:+ " keys="
                                   +:+ itoa (Z.of_nat (length (KeyHashes t))))%string |})
           end
       end.

(** [LoadFile] on the parsed payload: each entry with its raw keys. *)
Fixpoint LoadTenants (s : Store) (now : time) (payload : list (Tenant * list string)) : result TenantError Store :=
  match payload with
  | [] => Ok s
  | (t, keys) :: rest =>
      if bool_decide (TenantID t = ""%string) || (length keys =? 0)%nat then Err (ErrLoad (TenantID t))
      else
        let src := {| TenantID := TenantID t; DisplayName := DisplayName t;
                      Namespace := if bool_decide (Namespace t = ""%string) then ("ns_" +:+ TenantID t)%string
                                   else Namespace t;
                      CreatedAt := if CreatedAt t =? time_zero then now else CreatedAt t;
                      KeyHashes := HashKey <$> keys; RatePerSecond := RatePerSecond t;
                      RatePerMinute := RatePerMinute t; MonthlyProofQuota := MonthlyProofQuota t |} in
        match Add s now src with
        | Ok s' => LoadTenants s' now rest
        | Err _ => Err (ErrLoad (TenantID t))
        end
  end.

Definition default_tenant : Tenant :=
  {| TenantID := DefaultTenantID; DisplayName := ""; Namespace := ("ns_" +:+ DefaultTenantID)%string;
     CreatedAt := time_zero; KeyHashes := []; RatePerSecond := 0; RatePerMinute := 0; MonthlyProofQuota := 0 |}.

Definition Resolve (s : Store) (rawKey : string) : option Tenant :=
  if (size (tenants s) =? 0)%nat then Some default_tenant
  else if bool_decide (rawKey = ""%string) then None
  else id ← byKey s !! HashKey rawKey; tenants s !! id.

Definition strip_keys (t : Tenant) : Tenant :=
  {| TenantID := TenantID t; DisplayName := DisplayName t; Namespace := Namespace t; CreatedAt := CreatedAt t;
     KeyHashes := []; RatePerSecond := RatePerSecond t; RatePerMinute := RatePerMinute t;
     MonthlyProofQuota := MonthlyProofQuota t |}.

Definition ListTenants (s : Store) : list Tenant :=
  sort_slice (λ a b, string_ltb (TenantID a) (TenantID b)) (strip_keys <$> (snd <$> map_to_list (tenants s))).

Definition NamespaceOf (s : Store) (id : string) : string :=
  match tenants s !! id with Some t => Namespace t | None => ("ns_" +:+ DefaultTenantID)%string end.

(** One fixed window of length [len] with ceiling [limit]: the booked windows and
    whether the request fits. No ceiling when [limit <= 0]. *)
Definition check_window (ws : gmap string window) (id : string) (limit len : Z) (now : time)
    : gmap string window * bool :=
  if limit <=? 0 then (ws, true)
  else match ws !! id with
       | Some w =>
           if len <=? now - start w then (<[id := {| start := now; wcount := 1 |}]> ws, true)
           else (<[id := {| start := start w; wcount := wcount w + 1 |}]> ws, wcount w + 1 <=? limit)
       | None => (<[id := {| start := now; wcount := 1 |}]> ws, true)
       end.

Definition with_rates (s : Store) (sec min : gmap string window) : Store :=
  {| tenants := tenants s; byKey := byKey s; rateSec := sec; rateMin := min; quotaMon := quotaMon s;
     audit := audit s; auditCap := auditCap s |}.

Definition CheckRate (s : Store) (now : time) (tenantID : string) : Store * Decision :=
  match tenants s !! tenantID with
  | None => (s, allow)
  | Some t =>
      let '(sec, ok) := check_window (rateSec s) tenantID (RatePerSecond t) second now in
      if negb ok then (with_rates s sec (rateMin s), deny "rate limit per second exceeded")
      else
        let '(min, ok) := check_window (rateMin s) tenantID (RatePerMinute t) minute now in
        (with_rates s sec min, if ok then allow else deny "rate limit per minute exceeded")
  end.

Definition with_quota (s : Store) (q : gmap string monthCtr) : Store :=
  {| tenants := tenants s; byKey := byKey s; rateSec := rateSec s; rateMin := rateMin s; quotaMon := q;
     audit := audit s; auditCap := auditCap s |}.

(** The counter of the month of [now]. *)
Definition current_month (q : gmap string monthCtr) (id : string) (now : time) : monthCtr :=
  match q !! id with
  | Some c =>
      if (myear c =? time_year now) && (mmonth c =? time_month now) then c
      else {| myear := time_year now; mmonth := time_month now; mcount := 0 |}
  | None => {| myear := time_year now; mmonth := time_month now; mcount := 0 |}
  end.

Definition CheckAndConsumeMonthlyQuota (s : Store) (now : time) (tenantID : string) : Store * Decision :=
  match tenants s !! tenantID with
  | None => (s, allow)
  | Some t =>
      if MonthlyProofQuota t <=? 0 then (s, allow)
      else
        let c := current_month (quotaMon s) tenantID now in
        let book n := with_quota s (<[tenantID := {| myear := myear c; mmonth := mmonth c; mcount := n |}]> (quotaMon s)) in
        if MonthlyProofQuota t <? mcount c + 1
        then (book (mcount c), deny "monthly proof quota exceeded")
        else (book (mcount c + 1), allow)
  end.

Definition set_keys (t : Tenant) (hashes : list string) : Tenant :=
  {| TenantID := TenantID t; DisplayName := DisplayName t; Namespace := Namespace t; CreatedAt := CreatedAt t;
     KeyHashes := hashes; RatePerSecond := RatePerSecond t; RatePerMinute := RatePerMinute t;
     MonthlyProofQuota := MonthlyProofQuota t |}.

Definition RotateAddKey (s : Store) (now : time) (tenantID newRawKey : string) : result TenantError Store :=
  if bool_decide (newRawKey = ""%string) then Err ErrEmptyKey
  else
    let h := HashKey newRawKey in
    match tenants s !! tenantID with
    | None => Err (ErrTenantNotFound tenantID)
    | Some t =>
        match byKey s !! h with
        | Some _ => Err ErrKeyRegistered
        | None =>
            let t := set_keys t (KeyHashes t ++ [h]) in
            let s := with_registry s (<[tenantID := t]> (tenants s)) (<[h := tenantID]> (byKey s)) in
            Ok (appendAuditLocked s now
                  {| At := now; ATenantID := tenantID; AKind := AuditKeyAdded;
                     Detail := ("keys_active=" +:+ itoa (Z.of_nat (length (KeyHashes t))))%string |})
        end
    end.

Definition RotateRevokeOldKeys (s : Store) (now : time) (tenantID : string) (keepLast : Z)
    : result TenantError Store :=
  let keepLast := Z.to_nat (if keepLast <? 1 then 1 else keepLast) in
  match tenants s !! tenantID with
  | None => Err (ErrTenantNotFound tenantID)
  | Some t =>
      if (length (KeyHashes t) <=? keepLast)%nat then Ok s
      else
        let drop_ := take (length (KeyHashes t) - keepLast) (KeyHashes t) in
        let keep := last_n keepLast (KeyHashes t) in
        let s := with_registry s (<[tenantID := set_keys t keep]> (tenants s))
                   (foldl (λ m h, delete h m) (byKey s) drop_) in
        Ok (appendAuditLocked s now
              {| At := now; ATenantID := tenantID; AKind := AuditKeyRevoked;
                 Detail := ("dropped=" +:+ itoa (Z.of_nat (length drop_))
                            +:+ " kept=" +:+ itoa (Z.of_nat (length keep)))%string |})
  end.

(** One change of the store. [Add] is given distinct key hashes. *)
Inductive tenant_step : Store → Store → Prop :=
| step_add s now t s' : NoDup (KeyHashes t) → Add s now t = Ok s' → tenant_step s s'
| step_rotate s now id key s' : RotateAddKey s now id key = Ok s' → tenant_step s s'
| step_revoke s now id keep s' : RotateRevokeOldKeys s now id keep = Ok s' → tenant_step s s'
| step_rate s now id : tenant_step s (fst (CheckRate s now id))
| step_quota s now id : tenant_step s (fst (CheckAndConsumeMonthlyQuota s now id))
| step_log s now ev : tenant_step s (Log s now ev).

(** ** The key index *)

(** The index and the tenants' key lists describe the same ownership. *)
Record keys_inv (s : Store) : Prop := {
  inv_index id t h : tenants s !! id = Some t → byKey s !! h = Some id ↔ h ∈ KeyHashes t;
  inv_owner h id : byKey s !! h = Some id → is_Some (tenants s !! id);
  inv_tenant id t : tenants s !! id = Some t → TenantID t = id ∧ KeyHashes t ≠ [] ∧ NoDup (KeyHashes t);
  inv_audit : (length (audit s) <= auditCap s)%nat;
}.

Lemma keys_inv_registry s s' :
  tenants s' = tenants s → byKey s' = byKey s → (length (audit s') <= auditCap s')%nat →
  keys_inv s → keys_inv s'.
Proof. intros Ht Hk Ha [H1 H2 H3 H4]. split; rewrite ?Ht, ?Hk; eauto. Qed.

Lemma append_audit_inv s now ev :
  keys_inv s → keys_inv (appendAuditLocked s now ev).
Proof.
  apply keys_inv_registry; [done..|]. unfold appendAuditLocked. cbn.
  case_match eqn:E; [rewrite length_last_n; lia|by apply Nat.ltb_ge in E].
Qed.

Lemma register_keys_lookup id hs m h :
  register_keys id hs m !! h = if decide (h ∈ hs) then Some id else m !! h.
Proof.
  unfold register_keys. revert m. induction hs as [|x hs IH]; intros m; cbn; [by case_decide as E; [apply elem_of_nil in E|]|].
  rewrite IH. destruct (decide (h ∈ hs)), (decide (h ∈ x :: hs)) as [Hx|Hx]; try done.
  - exfalso. apply Hx. by right.
  - apply elem_of_cons in Hx as [->|]; [|done]. by rewrite lookup_insert_eq.
  - rewrite lookup_insert_ne; [done|]. intros ->. apply Hx. by left.
Qed.

Lemma delete_keys_lookup hs (m : gmap string string) h :
  foldl (λ m h, delete h m) m hs !! h = if decide (h ∈ hs) then None else m !! h.
Proof.
  revert m. induction hs as [|x hs IH]; intros m; cbn; [by case_decide as E; [apply elem_of_nil in E|]|].
  rewrite IH. destruct (decide (h ∈ hs)), (decide (h ∈ x :: hs)) as [Hx|Hx]; try done.
  - exfalso. apply Hx. by right.
  - apply elem_of_cons in Hx as [->|]; [|done]. by rewrite lookup_delete_eq.
  - rewrite lookup_delete_ne; [done|]. intros ->. apply Hx. by left.
Qed.

Lemma first_taken_none m hs : first_taken m hs = None ↔ ∀ h, h ∈ hs → m !! h = None.
Proof.
  unfold first_taken. induction hs as [|x hs IH]; cbn; [split; [intros _ h ?%elem_of_nil; done|done]|].
  setoid_rewrite elem_of_cons. destruct (m !! x) eqn:E; cbn; [split; [done|]; intros H; specialize (H x); naive_solver|].
  rewrite IH. naive_solver.
Qed.

Lemma set_namespace_fields t : TenantID (set_namespace t) = TenantID t ∧ KeyHashes (set_namespace t) = KeyHashes t.
Proof. unfold set_namespace. by case_bool_decide. Qed.

Lemma Add_inv s now t s' : keys_inv s → NoDup (KeyHashes t) → Add s now t = Ok s' → keys_inv s'.
Proof.
  intros [H1 H2 H3 H4] Hnd H. unfold Add in H. case_bool_decide; [done|].
  destruct (bare_identifier _); [|done]. destruct (Nat.eqb_spec (length (KeyHashes t)) 0); [done|]. cbn in H.
  destruct (tenants s !! TenantID t) eqn:Et; [done|]. destruct (first_taken _ _) eqn:Ef; [done|].
  rewrite first_taken_none in Ef. injection H as <-. apply append_audit_inv.
  destruct (set_namespace_fields t) as [Hid Hkh]. split; cbn; rewrite ?Hid, ?Hkh; [| | |exact H4].
  - intros id t0 h. rewrite register_keys_lookup. destruct (decide (id = TenantID t)) as [->|Hne].
    + rewrite lookup_insert_eq. intros [= <-]. rewrite Hkh. case_decide; [done|].
      split; [|done]. intros Hb. apply H2 in Hb as [? ?]. congruence.
    + rewrite lookup_insert_ne by done. intros Ht0. rewrite <- (H1 _ _ h Ht0). case_decide as Hin; [|done].
      rewrite (Ef h Hin). split; [congruence|done].
  - intros h id. rewrite register_keys_lookup. case_decide.
    + intros [= <-]. rewrite lookup_insert_eq. eauto.
    + intros Hb%H2. destruct (decide (id = TenantID t)) as [->|]; [rewrite lookup_insert_eq; eauto|by rewrite lookup_insert_ne].
  - intros id t0. destruct (decide (id = TenantID t)) as [->|]; [|rewrite lookup_insert_ne by done; apply H3].
    rewrite lookup_insert_eq. intros [= <-]. rewrite Hid, Hkh. split_and!; [done| |done]. by intros E; rewrite E in *.
Qed.

Lemma RotateAddKey_inv s now id key s' : keys_inv s → RotateAddKey s now id key = Ok s' → keys_inv s'.
Proof.
  intros [H1 H2 H3 H4] H. unfold RotateAddKey in H. case_bool_decide; [done|].
  destruct (tenants s !! id) as [t|] eqn:Et; [|done]. destruct (byKey s !! HashKey key) eqn:Ek; [done|].
  injection H as <-. apply append_audit_inv. destruct (H3 _ _ Et) as (Hid & Hne & Hnd).
  assert (HashKey key ∉ KeyHashes t) as Hnew by (intros Hin; apply (H1 _ _ _ Et) in Hin; congruence).
  split; cbn; [| | |exact H4].
  - intros id' t0 h. destruct (decide (id' = id)) as [->|Hn].
    + rewrite lookup_insert_eq. intros [= <-]. cbn. rewrite elem_of_app, list_elem_of_singleton, <- (H1 _ _ h Et).
      destruct (decide (h = HashKey key)) as [->|]; [rewrite lookup_insert_eq; naive_solver|].
      rewrite lookup_insert_ne by done. naive_solver.
    + rewrite lookup_insert_ne by done. intros Ht0. rewrite <- (H1 _ _ h Ht0).
      destruct (decide (h = HashKey key)) as [->|]; [|by rewrite lookup_insert_ne].
      rewrite lookup_insert_eq, Ek. split; congruence.
  - intros h id'. destruct (decide (id' = id)) as [->|]; [rewrite lookup_insert_eq; eauto|].
    rewrite (lookup_insert_ne (tenants s)) by done. destruct (decide (h = HashKey key)) as [->|].
    + rewrite lookup_insert_eq. congruence.
    + rewrite lookup_insert_ne by done. apply H2.
  - intros id' t0. destruct (decide (id' = id)) as [->|]; [|rewrite lookup_insert_ne by done; apply H3].
    rewrite lookup_insert_eq. intros [= <-]. cbn. split_and!; [done|by destruct (KeyHashes t)|].
    apply NoDup_app. split_and!; [done| |apply NoDup_singleton]. intros h Hh ->%list_elem_of_singleton. done.
Qed.

Lemma RotateRevoke_inv s now id keep s' : keys_inv s → RotateRevokeOldKeys s now id keep = Ok s' → keys_inv s'.
Proof.
  intros [H1 H2 H3 H4] H. unfold RotateRevokeOldKeys in H. cbv zeta in H.
  set (k := Z.to_nat (if keep <? 1 then 1 else keep)) in *.
  assert (1 <= k)%nat as Hk by (unfold k; destruct (Z.ltb_spec keep 1); lia).
  destruct (tenants s !! id) as [t|] eqn:Et; [|done]. destruct (Nat.leb_spec (length (KeyHashes t)) k); injection H as <-;
    [by split|]. apply append_audit_inv. destruct (H3 _ _ Et) as (Hid & Hne & Hnd).
  assert (take (length (KeyHashes t) - k) (KeyHashes t) ++ last_n k (KeyHashes t) = KeyHashes t) as Hsplit
    by apply take_drop.
  set (dr := take _ _) in *. set (kp := last_n k _) in *. rewrite <- Hsplit in Hnd.
  apply NoDup_app in Hnd as (Hnd1 & Hdisj & Hnd2).
  split; cbn; [| | |exact H4].
  - intros id' t0 h. rewrite delete_keys_lookup. destruct (decide (id' = id)) as [->|Hn].
    + rewrite lookup_insert_eq. intros [= <-]. cbn. pose proof (H1 _ _ h Et) as Hi. rewrite <- Hsplit, elem_of_app in Hi.
      case_decide; naive_solver.
    + rewrite lookup_insert_ne by done. intros Ht0. rewrite <- (H1 _ _ h Ht0). case_decide as Hin; [|done].
      assert (byKey s !! h = Some id) as Hb by (apply (H1 _ _ h Et); rewrite <- Hsplit; apply elem_of_app; by left).
      rewrite Hb. split; congruence.
  - intros h id'. rewrite delete_keys_lookup. case_decide; [done|]. intros Hb%H2.
    destruct (decide (id' = id)) as [->|]; [rewrite lookup_insert_eq; eauto|by rewrite lookup_insert_ne].
  - intros id' t0. destruct (decide (id' = id)) as [->|]; [|rewrite lookup_insert_ne by done; apply H3].
    rewrite lookup_insert_eq. intros [= <-]. cbn. split_and!; [done| |done].
    intros E. apply (f_equal length) in E. unfold kp in E. rewrite length_last_n in E. cbn in E. lia.
Qed.

Lemma CheckRate_keys s now id :
  let s' := fst (CheckRate s now id) in
  tenants s' = tenants s ∧ byKey s' = byKey s ∧ audit s' = audit s ∧ auditCap s' = auditCap s.
Proof. unfold CheckRate. repeat (case_match; try done). Qed.

Lemma Quota_keys s now id :
  let s' := fst (CheckAndConsumeMonthlyQuota s now id) in
  tenants s' = tenants s ∧ byKey s' = byKey s ∧ audit s' = audit s ∧ auditCap s' = auditCap s.
Proof. unfold CheckAndConsumeMonthlyQuota. cbv zeta. repeat (case_match; try done). Qed.

Lemma tenant_step_inv s s' : tenant_step s s' → keys_inv s → keys_inv s'.
Proof.
  intros Hs Hi. destruct Hs.
  - by eapply Add_inv.
  - by eapply RotateAddKey_inv.
  - by eapply RotateRevoke_inv.
  - destruct (CheckRate_keys s now id) as (E1 & E2 & E3 & E4).
    apply (keys_inv_registry s); [done..| |done]. rewrite E3, E4. apply Hi.
  - destruct (Quota_keys s now id) as (E1 & E2 & E3 & E4).
    apply (keys_inv_registry s); [done..| |done]. rewrite E3, E4. apply Hi.
  - by apply append_audit_inv.
Qed.

Lemma NewStore_keys_inv : keys_inv NewStore.
Proof. split; cbn; [by intros| |by intros|lia]. intros h id H. by rewrite lookup_empty in H. Qed.

Lemma reachable_inv s : rtc tenant_step NewStore s → keys_inv s.
Proof.
  intros Hs. assert (∀ s0, rtc tenant_step s0 s → keys_inv s0 → keys_inv s) as H; [|by apply (H NewStore); [|apply NewStore_keys_inv]].
  clear Hs. intros s0. induction 1; eauto using tenant_step_inv.
Qed.

(** ** Rates *)

(** The decisions of successive [CheckRate] calls. *)
Fixpoint rate_run (s : Store) (id : string) (times : list time) : list bool :=
  match times with
  | [] => []
  | now :: times' => let '(s', d) := CheckRate s now id in Allowed d :: rate_run s' id times'
  end.

Definition allowed_count (l : list bool) : Z := count (λ b : bool, b) l.

Lemma allowed_nil : allowed_count [] = 0.
Proof. done. Qed.

Lemma allowed_cons (b : bool) l : allowed_count (b :: l) = (if b then 1 else 0) + allowed_count l.
Proof. apply count_cons. Qed.

Lemma CheckRate_second s now id t :
  tenants s !! id = Some t → 0 < RatePerSecond t →
  let '(s', d) := CheckRate s now id in
  tenants s' = tenants s ∧
  rateSec s' = fst (check_window (rateSec s) id (RatePerSecond t) second now) ∧
  (Allowed d = true → snd (check_window (rateSec s) id (RatePerSecond t) second now) = true).
Proof.
  intros Ht Hr. unfold CheckRate. rewrite Ht. destruct (check_window (rateSec s) _ _ _ _) as [sec []]; cbn; [|done].
  destruct (check_window (rateMin s) _ _ _ _) as [min ok]; by destruct ok.
Qed.

Lemma check_window_cases ws id limit len now :
  0 < limit →
  match ws !! id with
  | Some w =>
      if len <=? now - start w then check_window ws id limit len now = (<[id := {| start := now; wcount := 1 |}]> ws, true)
      else check_window ws id limit len now =
        (<[id := {| start := start w; wcount := wcount w + 1 |}]> ws, wcount w + 1 <=? limit)
  | None => check_window ws id limit len now = (<[id := {| start := now; wcount := 1 |}]> ws, true)
  end.
Proof.
  intros Hl. unfold check_window. destruct (Z.leb_spec limit 0); [lia|]. destruct (ws !! id) as [w|]; [|done].
  by case_match.
Qed.

(** Calls that all fall in the open window. *)
Lemma rate_run_in_window s id t w times :
  tenants s !! id = Some t → 0 < RatePerSecond t → rateSec s !! id = Some w →
  Forall (λ now, now - start w < second) times →
  allowed_count (rate_run s id times) <= Z.max 0 (RatePerSecond t - wcount w).
Proof.
  intros Ht Hr. revert s Ht w. induction times as [|now times IH]; intros s Ht w Hw Hin; [cbn [rate_run]; rewrite allowed_nil; lia|].
  apply Forall_cons in Hin as [Hnow Hin]. cbn [rate_run].
  pose proof (CheckRate_second s now id t Ht Hr) as H.
  pose proof (check_window_cases (rateSec s) id (RatePerSecond t) second now Hr) as Hc.
  destruct (CheckRate s now id) as [s' d]. destruct H as (Ht' & Hsec & Hall). rewrite Hw in Hc.
  destruct (Z.leb_spec second (now - start w)); [lia|]. rewrite Hc in Hsec, Hall. cbn [fst snd] in *.
  assert (rateSec s' !! id = Some {| start := start w; wcount := wcount w + 1 |}) as Hw'
    by (by rewrite Hsec, lookup_insert_eq).
  assert (tenants s' !! id = Some t) as Ht2 by (by rewrite Ht').
  specialize (IH s' Ht2 _ Hw' Hin). rewrite allowed_cons. cbn [wcount] in *.
  destruct (Allowed d); [|lia]. specialize (Hall eq_refl). apply Z.leb_le in Hall. lia.
Qed.

(** From any window: what is left of it, then one fresh window. *)
Lemma rate_run_bound s id t times :
  tenants s !! id = Some t → 0 < RatePerSecond t →
  StronglySorted Z.le times → (∀ a b, a ∈ times → b ∈ times → b - a < second) →
  allowed_count (rate_run s id times) <=
    RatePerSecond t + (match rateSec s !! id with Some w => Z.max 0 (RatePerSecond t - wcount w) | None => 0 end).
Proof.
  intros Ht Hr Hsorted Hspan. revert s Ht.
  induction Hsorted as [|now times Hs IH Hle]; intros s Ht; [cbn [rate_run]; rewrite allowed_nil; case_match; lia|].
  assert (∀ a b, a ∈ times → b ∈ times → b - a < second) as Hspan' by (intros; apply Hspan; by right).
  cbn [rate_run]. pose proof (CheckRate_second s now id t Ht Hr) as H.
  pose proof (check_window_cases (rateSec s) id (RatePerSecond t) second now Hr) as Hc.
  destruct (CheckRate s now id) as [s' d]. destruct H as (Ht' & Hsec & Hall). rewrite allowed_cons.
  assert (tenants s' !! id = Some t) as Ht2 by (by rewrite Ht').
  assert (rateSec s' !! id = Some {| start := now; wcount := 1 |} →
    allowed_count (rate_run s' id times) <= RatePerSecond t - 1) as Hfresh.
  { intros Hw. etransitivity; [eapply (rate_run_in_window _ _ _ _ _ Ht2 Hr Hw)|cbn; lia].
    apply Forall_forall. intros b Hb. cbn. apply Hspan; [left|by right]. }
  destruct (rateSec s !! id) as [w|] eqn:Ew.
  - destruct (Z.leb_spec second (now - start w)); rewrite Hc in Hsec, Hall; cbn [fst snd] in *;
      rewrite Hsec, lookup_insert_eq in Hfresh.
    + specialize (Hfresh eq_refl). destruct (Allowed d); lia.
    + specialize (IH Hspan' s' Ht2). rewrite Hsec, lookup_insert_eq in IH. cbn [wcount] in IH.
      destruct (Allowed d); [|lia]. specialize (Hall eq_refl). apply Z.leb_le in Hall. lia.
  - rewrite Hc in Hsec. cbn [fst] in Hsec. rewrite Hsec, lookup_insert_eq in Hfresh.
    specialize (Hfresh eq_refl). destruct (Allowed d); lia.
Qed.

(** ** Properties *)

(** Key ownership: in every store reached by registrations (with pairwise
    different key hashes), rotations, revocations and checks, a raw key
    resolves to a tenant exactly when its hash is one of that tenant's key
    hashes; so no key opens two tenants, every tenant keeps at least one
    working key, and the audit ring never exceeds its capacity. *)
Theorem tenant_keys s :
  rtc tenant_step NewStore s →
  (∀ key t, tenants s ≠ ∅ → key ≠ ""%string →
     Resolve s key = Some t ↔ tenants s !! TenantID t = Some t ∧ HashKey key ∈ KeyHashes t) ∧
  (∀ id id' t t' h, tenants s !! id = Some t → tenants s !! id' = Some t' →
     h ∈ KeyHashes t → h ∈ KeyHashes t' → id = id') ∧
  (∀ id t, tenants s !! id = Some t → KeyHashes t ≠ []) ∧
  (length (audit s) <= auditCap s)%nat.
Proof.
  intros [H1 H2 H3 H4]%reachable_inv. split_and!; [| | |done].
  - intros key t Hne Hk. unfold Resolve.
    destruct (Nat.eqb_spec (size (tenants s)) 0) as [E|_]; [by apply map_size_empty_inv in E|].
    rewrite bool_decide_eq_false_2 by done. split.
    + destruct (byKey s !! HashKey key) as [id|] eqn:Eb; [|done]. cbn. intros Ht.
      destruct (H3 _ _ Ht) as (-> & _). split; [done|]. by apply (H1 _ _ _ Ht).
    + intros [Ht Hin]. apply (H1 _ _ _ Ht) in Hin. by rewrite Hin.
  - intros id id' t t' h Ht Ht' Hh Hh'. apply (H1 _ _ _ Ht) in Hh. apply (H1 _ _ _ Ht') in Hh'. congruence.
  - intros id t Ht. by destruct (H3 _ _ Ht) as (_ & ? & _).
Qed.

Definition ex_tenant (id : string) (keys : list string) : Tenant :=
  {| TenantID := id; DisplayName := ""; Namespace := ""; CreatedAt := 0; KeyHashes := HashKey <$> keys;
     RatePerSecond := 2; RatePerMinute := 100; MonthlyProofQuota := 3 |}.

Lemma tenant_keys_witness :
  ∃ s, rtc tenant_step NewStore s ∧ Resolve s "k1" = Some (set_namespace (ex_tenant "acme" ["k1"%string])).
Proof.
  destruct (Add NewStore 5 (ex_tenant "acme" ["k1"%string])) as [s|] eqn:E;
    [|unfold Add in E; cbn in E; discriminate E].
  assert (rtc tenant_step NewStore s) as Hr.
  { eapply rtc_once, step_add; [|exact E]. apply NoDup_singleton. }
  exists s. split; [exact Hr|]. destruct (tenant_keys s Hr) as (Hkey & _).
  apply Hkey; [|discriminate|].
  - unfold Add in E. cbn in E. injection E as <-. cbn. apply insert_non_empty.
  - unfold Add in E. cbn in E. injection E as <-. split; [reflexivity|left].
Defined.

(** The rate ceiling: whatever the state of the windows, among requests whose
    times increase and span less than one second at most twice
    [RatePerSecond] are admitted (the burst of a fixed window at its boundary),
    and at most [RatePerSecond] once a fresh window has been opened. *)
Theorem rate_ceiling s id t times :
  tenants s !! id = Some t → 0 < RatePerSecond t →
  (∀ w, rateSec s !! id = Some w → 0 <= wcount w) →
  StronglySorted Z.le times → (∀ a b, a ∈ times → b ∈ times → b - a < second) →
  allowed_count (rate_run s id times) <=
    RatePerSecond t * (match rateSec s !! id with Some _ => 2 | None => 1 end).
Proof.
  intros Ht Hr Hpos Hsorted Hspan. etransitivity; [by eapply rate_run_bound|].
  destruct (rateSec s !! id) as [w|] eqn:E; [specialize (Hpos w eq_refl)|]; lia.
Qed.

(** Three requests in one second against a ceiling of two. *)
Definition ex_rate_store : Store :=
  with_registry NewStore (<["acme"%string := ex_tenant "acme" ["k1"%string]]> ∅) ∅.

Lemma rate_ceiling_witness :
  rate_run ex_rate_store "acme" [10; 20; 30] = [true; true; false] ∧
  allowed_count (rate_run ex_rate_store "acme" [10; 20; 30]) <= 2 * 1.
Proof.
  split; [reflexivity|].
  apply (rate_ceiling ex_rate_store "acme" (ex_tenant "acme" ["k1"%string]) [10; 20; 30]); [reflexivity|done|done| |].
  - repeat first [lia | constructor].
  - intros a b Ha Hb. assert (∀ z, z ∈ [10; 20; 30] → 10 <= z <= 30) as H.
    { intros z Hz. rewrite !elem_of_cons, elem_of_nil in Hz. lia. }
    apply H in Ha, Hb. unfold second. lia.
Defined.

(** ** Quota *)

Fixpoint quota_run (s : Store) (id : string) (times : list time) : list bool :=
  match times with
  | [] => []
  | now :: times' => let '(s', d) := CheckAndConsumeMonthlyQuota s now id in Allowed d :: quota_run s' id times'
  end.

Definition in_month (y m : Z) (now : time) : Prop := time_year now = y ∧ time_month now = m.

Lemma quota_run_count s id t y m n times :
  tenants s !! id = Some t → 0 < MonthlyProofQuota t → 0 <= n <= MonthlyProofQuota t →
  Forall (in_month y m) times →
  (∀ now, in_month y m now → mcount (current_month (quotaMon s) id now) = n) →
  allowed_count (quota_run s id times) = Z.min (Z.of_nat (length times)) (MonthlyProofQuota t - n).
Proof.
  intros Ht Hq Hn Hin. revert s n Ht Hn. induction Hin as [|now times Hnow Hin IH]; intros s n Ht Hn Hc; [cbn [quota_run]; rewrite allowed_nil; cbn [length]; lia|].
  cbn [quota_run]. unfold CheckAndConsumeMonthlyQuota. rewrite Ht.
  destruct (Z.leb_spec (MonthlyProofQuota t) 0); [lia|]. cbv zeta. rewrite (Hc now Hnow).
  assert (myear (current_month (quotaMon s) id now) = y ∧ mmonth (current_month (quotaMon s) id now) = m) as [Hy Hm].
  { destruct Hnow as [<- <-]. unfold current_month. destruct (quotaMon s !! id) as [c|]; [|done].
    case_match eqn:E; [by bool_to_prop|done]. }
  assert (∀ k now', in_month y m now' →
    mcount (current_month (<[id := {| myear := myear (current_month (quotaMon s) id now);
      mmonth := mmonth (current_month (quotaMon s) id now); mcount := k |}]> (quotaMon s)) id now') = k) as Hnext.
  { intros k now' [Hy' Hm']. unfold current_month at 1. rewrite lookup_insert_eq. cbn.
    rewrite Hy, Hm, <- Hy', <- Hm', !Z.eqb_refl. done. }
  destruct (Z.ltb_spec (MonthlyProofQuota t) (n + 1)).
  - rewrite allowed_cons, (IH _ n); [cbn [length Allowed deny allow]; lia|done|done|apply Hnext].
  - rewrite allowed_cons, (IH _ (n + 1)); [cbn [length Allowed deny allow]; lia|done|lia|apply Hnext].
Qed.

(** The monthly quota is exact: of the proof writes a tenant requests within
    one UTC month, starting with no counter of that month, exactly the first
    [MonthlyProofQuota] many are admitted; refused ones book nothing. *)
Theorem quota_exact s id t y m times :
  tenants s !! id = Some t → 0 < MonthlyProofQuota t →
  (∀ c, quotaMon s !! id = Some c → (myear c, mmonth c) ≠ (y, m)) →
  Forall (in_month y m) times →
  allowed_count (quota_run s id times) = Z.min (Z.of_nat (length times)) (MonthlyProofQuota t).
Proof.
  intros Ht Hq Hc Hin. rewrite (quota_run_count s id t y m 0); [f_equal; lia|done|done|lia|done|].
  intros now [<- <-]. unfold current_month. destruct (quotaMon s !! id) as [c|]; [|done].
  case_match eqn:E; [|done]. bool_to_prop. exfalso. apply (Hc c eq_refl). congruence.
Qed.

Lemma quota_exact_witness :
  allowed_count (quota_run ex_rate_store "acme" [10; 20; 30; 40; 50]) = 3.
Proof.
  exact (quota_exact ex_rate_store "acme" (ex_tenant "acme" ["k1"%string]) 1970 1 [10; 20; 30; 40; 50]
    eq_refl ltac:(done) ltac:(done) ltac:(by repeat constructor)).
Defined.

(** A key listed twice: [Add] accepts it, and revoking all but the newest key
    deletes the index entry of the key that is kept. *)
Example duplicate_key_locks_out :
  ∃ s s', Add NewStore 5 (ex_tenant "acme" ["k1"; "k1"]%string) = Ok s ∧
    RotateRevokeOldKeys s 6 "acme" 1 = Ok s' ∧
    (KeyHashes <$> tenants s' !! "acme"%string) = Some [HashKey "k1"] ∧ byKey s' !! HashKey "k1" = None.
Proof.
  eexists _, _. split; [reflexivity|]. split; [reflexivity|]. cbn. split; [reflexivity|].
  apply lookup_delete_eq.
Qed.
