(* ===== verification/Siwe.v ===== *)
(** * Signed challenges ([engine/internal/api/siwe/siwe.go])

    Issue and single-use verification of Ed25519 challenges. The nonce and the
    clock readings are arguments; [ed25519.Verify] is a parameter. *)

From S2P Require Import Prelude GoLib.

Local Open Scope Z_scope.

(** ** Definitions *)

Definition purposePrefix : string := "cp:siwe:v1".
Definition DefaultTTL : Z := 5 * minute.
Definition MaxOutstanding : nat := 1024.
Definition MaxPurposeLength : nat := 64.
Definition PublicKeySize : nat := 32.
Definition SignatureSize : nat := 64.

Inductive SiweError :=
| ErrExpired | ErrPurposeMismatch | ErrPubkeyMismatch | ErrSignatureInvalid | ErrInvalidInput | ErrCapacityExceeded.

Record challenge := {
  pubkey : bytes;
  purpose : string;
  nonce : bytes;
  issuedAt : time;
  expiresAt : time;
}.

Record Store := { ttl : Z; items : gmap string challenge }.

Definition NewStore (t : Z) : Store := {| ttl := if t <=? 0 then DefaultTTL else t; items := ∅ |}.

(** Lower-case letters, digits and [-]; every other character is refused. *)
Definition purpose_char (c : Ascii.ascii) : bool :=
  bool_decide (Ascii.N_of_ascii c = 45%N) || ascii_in 97 122 c || ascii_in 48 57 c.

Definition validatePurpose (p : string) : bool :=
  negb (bool_decide (p = ""%string) || (MaxPurposeLength <? String.length p)%nat) && string_forall purpose_char p.

Definition canonicalMessage (pk : bytes) (p : string) (n : bytes) (issued : time) : string :=
  (purposePrefix +:+ "|" +:+ p +:+ "|" +:+ hex_encode pk +:+ "|" +:+ hex_encode n +:+ "|"
   +:+ format_rfc3339 issued)%string.

(** The constant-time comparison. *)
Definition equalBytes (a b : bytes) : bool :=
  (length a =? length b)%nat &&
  (foldl (λ v ab, Z.lor v (Z.lxor (byte_to_Z ab.1) (byte_to_Z ab.2))) 0 (zip a b) =? 0).

Definition gcLocked (s : Store) (now : time) : Store :=
  {| ttl := ttl s; items := filter (λ kv, ¬ (expiresAt (snd kv) < now)) (items s) |}.

(** [Issue]: [now_gc] and [now] are the two clock readings, [n] the random nonce. *)
Definition Issue (s : Store) (now_gc now : time) (n : bytes) (pk : bytes) (p : string)
    : Store * result SiweError (string * string) :=
  if negb (length pk =? PublicKeySize)%nat then (s, Err ErrInvalidInput)
  else if negb (validatePurpose p) then (s, Err ErrInvalidInput)
  else
    let s := gcLocked s now_gc in
    if (MaxOutstanding <=? size (items s))%nat then (s, Err ErrCapacityExceeded)
    else
      let issued := truncate_second now in
      let msg := canonicalMessage pk p n issued in
      ({| ttl := ttl s;
          items := <[msg := {| pubkey := pk; purpose := p; nonce := n; issuedAt := issued;
                               expiresAt := issued + ttl s |}]> (items s) |},
       Ok (msg, hex_encode n)).

Definition remove (s : Store) (msg : string) : Store := {| ttl := ttl s; items := delete msg (items s) |}.

Definition Outstanding (s : Store) (now : time) : Store * nat :=
  let s := gcLocked s now in (s, size (items s)).

Definition ParsePubkeyHex (s : string) : option bytes :=
  b ← hex_decode (trim_space s); if (length b =? PublicKeySize)%nat then Some b else None.

Definition ParseSignatureHex (s : string) : option bytes :=
  b ← hex_decode (trim_space s); if (length b =? SignatureSize)%nat then Some b else None.

Section verify.
(** [ed25519.Verify(pubkey, message, signature)] *)
Context (ed25519_verify : bytes → bytes → bytes → bool).

Definition Verify (s : Store) (now_gc now : time) (pk : bytes) (p message : string) (signature : bytes)
    : Store * option SiweError :=
  if negb (length pk =? PublicKeySize)%nat || negb (length signature =? SignatureSize)%nat
  then (s, Some ErrInvalidInput)
  else if negb (validatePurpose p) then (s, Some ErrInvalidInput)
  else
    let s := gcLocked s now_gc in
    match items s !! message with
    | None => (s, Some ErrExpired)
    | Some ch =>
        if expiresAt ch <? now then (remove s message, Some ErrExpired)
        else if negb (equalBytes (pubkey ch) pk) then (s, Some ErrPubkeyMismatch)
        else if negb (bool_decide (purpose ch = p)) then (s, Some ErrPurposeMismatch)
        else if negb (ed25519_verify pk (bytes_of message) signature) then (s, Some ErrSignatureInvalid)
        else (remove s message, None)
    end.

(** A trace of calls and what each of them did. *)
Inductive op :=
| OpIssue (now_gc now : time) (n pk : bytes) (p : string)
| OpVerify (now_gc now : time) (pk : bytes) (p message : string) (signature : bytes)
| OpOutstanding (now : time).

Inductive event := Issued (msg : string) (n pk : bytes) (p : string) (issued : time)
                 | Accepted (msg : string) | Nothing.

Definition exec (s : Store) (o : op) : Store * event :=
  match o with
  | OpIssue now_gc now n pk p =>
      let '(s', r) := Issue s now_gc now n pk p in
      (s', match r with Ok (msg, _) => Issued msg n pk p (truncate_second now) | Err _ => Nothing end)
  | OpVerify now_gc now pk p message signature =>
      let '(s', r) := Verify s now_gc now pk p message signature in
      (s', match r with None => Accepted message | Some _ => Nothing end)
  | OpOutstanding now => (fst (Outstanding s now), Nothing)
  end.

Fixpoint run (s : Store) (ops : list op) : Store * list event :=
  match ops with
  | [] => (s, [])
  | o :: ops' => let '(s1, e) := exec s o in let '(s2, es) := run s1 ops' in (s2, e :: es)
  end.

Definition issued_msg (m : string) (e : event) : bool :=
  match e with Issued m' _ _ _ _ => bool_decide (m' = m) | _ => false end.
Definition accepted_msg (m : string) (e : event) : bool :=
  match e with Accepted m' => bool_decide (m' = m) | _ => false end.

(** ** Lemmas *)

Lemma lor_fold_zero l v :
  0 <= v → Forall (λ ab : Byte.byte * Byte.byte, True) l →
  foldl (λ v ab, Z.lor v (Z.lxor (byte_to_Z ab.1) (byte_to_Z ab.2))) v l = 0 ↔
  v = 0 ∧ Forall (λ ab : Byte.byte * Byte.byte, ab.1 = ab.2) l.
Proof.
  revert v. induction l as [|[a b] l IH]; intros v Hv _; cbn; [by split; [intros ->|intros [-> _]]|].
  rewrite IH; [|apply Z.lor_nonneg; split; [done|apply Z.lxor_nonneg; split; intros; apply byte_to_Z_range]|by apply Forall_true].
  rewrite Forall_cons, Z.lor_eq_0_iff, Z.lxor_eq_0_iff. cbn. split; [|naive_solver].
  intros [[-> E] ?]. split_and!; [done| |done]. rewrite <- (byte_of_to_Z a), <- (byte_of_to_Z b). by f_equal.
Qed.

Lemma equalBytes_spec a b : equalBytes a b = true ↔ a = b.
Proof.
  unfold equalBytes. rewrite andb_true_iff, Nat.eqb_eq, Z.eqb_eq, lor_fold_zero by (done || by apply Forall_true).
  split; [|intros ->; split_and!; [done..|]].
  - intros (Hl & _ & Hf). revert b Hl Hf. induction a as [|x a IH]; intros [|y b] Hl Hf; try done.
    cbn in Hf. apply Forall_cons in Hf as [Hxy Hf]. cbn in Hxy. f_equal; [done|]. apply IH; [by injection Hl|done].
  - induction b; cbn; constructor; done.
Qed.

Lemma gc_lookup s now m : items (gcLocked s now) !! m = 
  match items s !! m with Some ch => if decide (expiresAt ch < now) then None else Some ch | None => None end.
Proof.
  cbn. destruct (items s !! m) as [ch|] eqn:E.
  - case_decide; [apply map_lookup_filter_None; right; naive_solver|by apply map_lookup_filter_Some].
  - apply map_lookup_filter_None. by left.
Qed.

Lemma Verify_accept s now_gc now pk p m sg s' :
  Verify s now_gc now pk p m sg = (s', None) →
  s' = remove (gcLocked s now_gc) m ∧
  ∃ ch, items s !! m = Some ch ∧ pubkey ch = pk ∧ purpose ch = p ∧ now <= expiresAt ch ∧
    ed25519_verify pk (bytes_of m) sg = true.
Proof.
  unfold Verify. destruct (_ || _); [done|]. destruct (validatePurpose p); [|done]. cbn [negb]. cbv zeta.
  rewrite gc_lookup. destruct (items s !! m) as [ch|]; [|done]. case_decide; [done|].
  destruct (Z.ltb_spec (expiresAt ch) now); [done|]. destruct (equalBytes (pubkey ch) pk) eqn:Eq; [|done].
  apply equalBytes_spec in Eq. cbn [negb]. case_bool_decide; [|done]. cbn [negb].
  destruct (ed25519_verify pk (bytes_of m) sg) eqn:Ev; [|done]. intros [= <-]. split; [done|]. eauto 10.
Qed.

(** Verification only removes challenges. *)
Lemma Verify_subset s now_gc now pk p m sg : items (fst (Verify s now_gc now pk p m sg)) ⊆ items s.
Proof.
  assert (∀ t, items (gcLocked s t) ⊆ items s) as Hgc by (intros; apply map_filter_subseteq).
  unfold Verify. cbv zeta. repeat (case_match; cbn [fst]; try done; try apply Hgc);
    (etransitivity; [apply delete_subseteq|apply Hgc]).
Qed.

(** ** Invariants of a trace *)

(** Every stored challenge is the one its message names. *)
Definition well_issued (t : Z) (m : string) (ch : challenge) : Prop :=
  m = canonicalMessage (pubkey ch) (purpose ch) (nonce ch) (issuedAt ch) ∧ expiresAt ch = issuedAt ch + t.

Definition store_inv (s : Store) : Prop :=
  map_Forall (well_issued (ttl s)) (items s) ∧ (size (items s) <= MaxOutstanding)%nat.

Lemma store_inv_subset s s' : ttl s' = ttl s → items s' ⊆ items s → store_inv s → store_inv s'.
Proof.
  intros Ht Hsub [H1 H2]. split.
  - rewrite Ht. intros m ch Hm. by eapply H1, lookup_weaken.
  - etransitivity; [by apply map_subseteq_size|done].
Qed.

Lemma Verify_ttl s now_gc now pk p m sg : ttl (fst (Verify s now_gc now pk p m sg)) = ttl s.
Proof. unfold Verify. cbv zeta. repeat case_match; done. Qed.

Lemma exec_inv s o : store_inv s → store_inv (fst (exec s o)).
Proof.
  intros Hi. destruct o as [now_gc now n pk p|now_gc now pk p m sg|now]; cbn.
  - unfold Issue. destruct (negb _); [done|]. destruct (negb _); [done|]. cbv zeta.
    assert (store_inv (gcLocked s now_gc)) as Hgc
      by (apply (store_inv_subset s); [done|apply map_filter_subseteq|done]).
    destruct (Nat.leb_spec MaxOutstanding (size (items (gcLocked s now_gc)))); [done|].
    set (s1 := gcLocked s now_gc) in *. destruct Hgc as [H1 H2]. split; cbn [items ttl fst].
    + apply map_Forall_insert_2; [done|exact H1].
    + rewrite map_size_insert. destruct (items s1 !! _); unfold Datatypes.id; lia.
  - pose proof (Verify_subset s now_gc now pk p m sg) as Hsub.
    pose proof (Verify_ttl s now_gc now pk p m sg) as Ht.
    destruct (Verify s now_gc now pk p m sg) as [s' r]. by eapply store_inv_subset.
  - apply (store_inv_subset s); [done|apply map_filter_subseteq|done].
Qed.

Lemma run_inv s ops : store_inv s → store_inv (fst (run s ops)).
Proof.
  revert s. induction ops as [|o ops IH]; intros s Hi; [done|]. cbn [run].
  pose proof (exec_inv s o Hi) as H1. destruct (exec s o) as [s1 e]. specialize (IH s1 H1).
  by destruct (run s1 ops).
Qed.

Lemma NewStore_store_inv t : store_inv (NewStore t).
Proof. split; cbn; [apply map_Forall_empty|rewrite map_size_empty; lia]. Qed.

Definition held (s : Store) (m : string) : Z := match items s !! m with Some _ => 1 | None => 0 end.

Lemma held_subset s s' m : items s' ⊆ items s → held s' m <= held s m.
Proof.
  intros Hs. unfold held. destruct (items s' !! m) eqn:E; [|destruct (items s !! m); lia].
  rewrite (lookup_weaken _ _ _ _ E Hs). lia.
Qed.

Lemma exec_balance s o m :
  let '(s', e) := exec s o in
  (if accepted_msg m e then 1 else 0) + held s' m <= held s m + (if issued_msg m e then 1 else 0).
Proof.
  destruct o as [now_gc now n pk p|now_gc now pk p m' sg|now]; cbn [exec].
  - unfold Issue. destruct (negb _); [cbn; lia|]. destruct (negb _); [cbn; lia|]. cbv zeta.
    pose proof (held_subset s (gcLocked s now_gc) m (map_filter_subseteq _ _)).
    destruct (_ <=? _)%nat; cbn [accepted_msg issued_msg]; [lia|].
    set (m0 := canonicalMessage _ _ _ _). unfold held at 1. cbn [items]. case_bool_decide as E.
    + subst m0. rewrite E, lookup_insert_eq. unfold held. destruct (items s !! m); lia.
    + rewrite lookup_insert_ne by done. unfold held in H at 1. destruct (items (gcLocked s now_gc) !! m); lia.
  - pose proof (held_subset _ _ m (Verify_subset s now_gc now pk p m' sg)) as Hs.
    destruct (Verify s now_gc now pk p m' sg) as [s' [e|]] eqn:E; cbn [accepted_msg issued_msg fst] in *; [lia|].
    apply Verify_accept in E as (-> & ch & Hch & _). case_bool_decide as Em; [|lia]. subst m'.
    unfold held. rewrite Hch. cbn [remove items]. rewrite lookup_delete_eq. lia.
  - cbn. pose proof (held_subset s (gcLocked s now) m (map_filter_subseteq _ _)). lia.
Qed.

Lemma run_balance s ops m :
  let '(s', es) := run s ops in
  count (accepted_msg m) es + held s' m <= held s m + count (issued_msg m) es.
Proof.
  revert s. induction ops as [|o ops IH]; intros s; cbn [run]; [rewrite !count_nil; lia|].
  pose proof (exec_balance s o m) as H1. destruct (exec s o) as [s1 e]. specialize (IH s1).
  destruct (run s1 ops) as [s2 es]. rewrite !count_cons. lia.
Qed.

(** ** Properties *)

(** C13. Challenges are single-use: in every sequence of issues, verifications
    (successful or not) and expiries, a message is accepted at most as often
    as it was issued, and never more than [MaxOutstanding] challenges are
    held. *)
Theorem siwe_single_use t ops m :
  let '(s, es) := run (NewStore t) ops in
  count (accepted_msg m) es <= count (issued_msg m) es ∧ (size (items s) <= MaxOutstanding)%nat.
Proof.
  pose proof (run_balance (NewStore t) ops m) as Hb.
  pose proof (run_inv (NewStore t) ops (NewStore_store_inv t)) as [_ Hsize].
  destruct (run (NewStore t) ops) as [s es]. cbn [fst] in Hsize. split; [|done].
  unfold held in Hb at 2. cbn in Hb. rewrite lookup_empty in Hb. unfold held in Hb. destruct (items s !! m); lia.
Qed.

(** Acceptance is authentic: a verification that succeeds after any history
    names, in its message, exactly the key and purpose it was called with, the
    challenge is unexpired at the clock reading of the check, and the
    signature over the message verifies under that key. *)
Theorem siwe_authentic t ops now_gc now pk p m sg s' :
  Verify (fst (run (NewStore t) ops)) now_gc now pk p m sg = (s', None) →
  ∃ n issued, m = canonicalMessage pk p n issued ∧
    now <= issued + ttl (fst (run (NewStore t) ops)) ∧
    ed25519_verify pk (bytes_of m) sg = true ∧ items s' !! m = None.
Proof.
  intros (-> & ch & Hch & <- & <- & Hexp & Hv)%Verify_accept.
  destruct (run_inv _ ops (NewStore_store_inv t)) as [H _]. destruct (H _ _ Hch) as [Hm Hx].
  exists (nonce ch), (issuedAt ch). split_and!; [done|lia|done|]. cbn. apply lookup_delete_eq.
Qed.
End verify.

Definition ex_pk : bytes := replicate 32 Byte.x01.
Definition ex_sig : bytes := replicate 64 Byte.x02.
Definition ex_ops : list op := [OpIssue 0 (3 * second) [Byte.x07] ex_pk "revoke-proof"].
Definition ex_msg : string := canonicalMessage ex_pk "revoke-proof" [Byte.x07] (3 * second).

Lemma siwe_authentic_witness :
  ∃ s', Verify (λ _ _ _, true) (fst (run (λ _ _ _, true) (NewStore 0) ex_ops)) (4 * second) (4 * second) ex_pk
      "revoke-proof" ex_msg ex_sig = (s', None) ∧
    items s' !! ex_msg = None.
Proof.
  eexists. match goal with |- ?P ∧ _ => assert P as H by (vm_compute; reflexivity) end. split; [exact H|].
  destruct (siwe_authentic (λ _ _ _, true) 0 ex_ops _ _ _ _ _ _ _ H) as (n & i & _ & _ & _ & Hn). exact Hn.
Defined.
