(* ===== verification/Guard.v ===== *)
(** * Admission of HTTP requests ([engine/internal/api])

    The middleware chain of [server.go] in its order: path aliasing
    ([versioning.go]), version negotiation ([accept_version.go]), the per-address
    limiter ([server.go]), the per-key token bucket ([ratelimit_apikey.go]), CORS
    and authentication ([server.go], with the tenant store of [Tenant.v]), scopes
    ([scopes.go], [scope_middleware.go]) and idempotency ([idempotency.go]).

    A middleware is a function from the server and the request to the server and
    an outcome; [Forwarded] is the call of the next handler. What the chain does
    with one request is [admission]; the answer of the handler comes back later, in
    [idem_finish], so that requests can interleave between the two. The pattern
    [ServeMux] finds for a method and path is the parameter [route]. *)

From S2P Require Import Prelude GoLib Sha256 Tenant.

Local Open Scope Z_scope.

(** ** Requests and outcomes *)

Record Request := {
  Method : string; Path : string; RemoteAddr : string;
  ClientIP : string;   (* the host of RemoteAddr, or RemoteAddr where it has no port *)
  Accept : string; APIKey : string; IdempotencyKey : string;
  Body : bytes;
}.

Definition with_path (r : Request) (p : string) : Request :=
  {| Method := Method r; Path := p; RemoteAddr := RemoteAddr r; ClientIP := ClientIP r; Accept := Accept r; APIKey := APIKey r;
     IdempotencyKey := IdempotencyKey r; Body := Body r |}.

(** What the chain answers: an error, the empty answer to a preflight request, a
    stored response, or the call of the handler with the tenant of the request
    context and the [X-CP-Tenant] tag. *)
Inductive outcome :=
| Rejected (code : Z) (msg : string)
| NoContent
| Replayed (code : Z) (contentType : string) (body : bytes)
| Forwarded (r : Request) (t : option Tenant) (tag : option string).

(** ** Path aliasing ([versioning.go]) *)

Definition v1SunsetDate : string := "2027-01-01".

(** The request the router sees, and the sunset date announced for it. *)
Definition v1Alias (r : Request) : Request * option string :=
  if has_prefix (Path r) "/v1/"
  then (with_path r (String.substring 3 (String.length (Path r) - 3) (Path r)), None)
  else (r, if bool_decide (Path r = "/health"%string) then None else Some v1SunsetDate).

(** ** Version negotiation ([accept_version.go]) *)

Definition cpMediaType : string := "application/vnd.cp+json".
Definition servedVersions : list string := ["1"%string].
Definition defaultVersion : string := default ""%string (last servedVersions).

Definition is_quote (c : Ascii.ascii) : bool := bool_decide (c = chr 34).

Definition media_param (params : gmap string string) (seg : string) : gmap string string :=
  match cut_at (chr 61) (trim_space seg) with
  | Some (k, v) =>
      if bool_decide (k = ""%string) then params
      else <[to_lower (trim_space k) := trim is_quote (trim_space v)]> params
  | None => params
  end.

Definition parseMediaType (s : string) : string * gmap string string :=
  match split_on (chr 59) (trim_space s) with
  | [] => (""%string, ∅)
  | m :: segs => (to_lower (trim_space m), foldl media_param ∅ segs)
  end.

Fixpoint negotiate_parts (parts : list string) (requestedButUnknown : bool) : string * bool :=
  match parts with
  | [] => if requestedButUnknown then (""%string, true) else (defaultVersion, false)
  | part :: parts' =>
      let '(media, params) := parseMediaType part in
      if negb (bool_decide (media = cpMediaType)) then negotiate_parts parts' requestedButUnknown
      else match params !! "version"%string with
           | None => (defaultVersion, true)
           | Some v => if bool_decide (v ∈ servedVersions) then (v, true) else negotiate_parts parts' true
           end
  end.

Definition negotiateVersion (header : string) : string * bool :=
  if bool_decide (trim_space header = ""%string) then (defaultVersion, false)
  else negotiate_parts (split_on (chr 44) header) false.

(** ** The per-address limiter: 60 requests in a fixed minute *)

Record rlEntry := { rlcount : Z; reset : time }.

Definition rateLimit (clients : gmap string rlEntry) (now : time) (ip : string) : gmap string rlEntry * bool :=
  match clients !! ip with
  | Some e =>
      if reset e <? now then (<[ip := {| rlcount := 1; reset := now + minute |}]> clients, true)
      else (<[ip := {| rlcount := rlcount e + 1; reset := reset e |}]> clients, rlcount e + 1 <=? 60)
  | None => (<[ip := {| rlcount := 1; reset := now + minute |}]> clients, true)
  end.

(** ** The per-key token bucket ([ratelimit_apikey.go]) *)

Record keyBucket := { tokens : float64; lastFill : time }.
Record perKeyLimiter := { buckets : gmap string keyBucket; maxTokens : float64; refillRate : float64 }.

Definition newPerKeyLimiter (maxTok refillPerSec : float64) : perKeyLimiter :=
  {| buckets := ∅; maxTokens := maxTok; refillRate := refillPerSec |}.

(** [keyRL]: 120 per minute. *)
Definition keyRL : perKeyLimiter := newPerKeyLimiter (f_of_Z 120) (f_div (f_of_Z 120) (f_of_Z 60)).

Definition with_bucket (l : perKeyLimiter) (key : string) (b : keyBucket) : perKeyLimiter :=
  {| buckets := <[key := b]> (buckets l); maxTokens := maxTokens l; refillRate := refillRate l |}.

Definition refill (l : perKeyLimiter) (now : time) (b : keyBucket) : keyBucket :=
  let elapsed := duration_seconds (time_sub now (lastFill b)) in
  if f_ltb f_zero elapsed then
    let t := f_add (tokens b) (f_mul elapsed (refillRate l)) in
    {| tokens := if f_ltb (maxTokens l) t then maxTokens l else t; lastFill := now |}
  else b.

Definition allow_key (l : perKeyLimiter) (now : time) (key : string) : perKeyLimiter * bool :=
  match buckets l !! key with
  | None => (with_bucket l key {| tokens := f_sub (maxTokens l) f_one; lastFill := now |}, true)
  | Some b =>
      let b := refill l now b in
      if f_ltb (tokens b) f_one then (with_bucket l key b, false)
      else (with_bucket l key {| tokens := f_sub (tokens b) f_one; lastFill := lastFill b |}, true)
  end.

Definition perKeyRateLimit (l : perKeyLimiter) (now : time) (key : string) : perKeyLimiter * bool :=
  if bool_decide (key = ""%string) then (l, true) else allow_key l now key.

(** ** Scoped keys ([scopes.go]) *)

Record scopedKey := { Key : string; ScopeTenant : string; Scopes : list string }.

Notation scopeRegistry := (gmap string scopedKey).

(** [loadFromFile] on the parsed file; on an error the registry stays. *)
Definition loadKeys (r : scopeRegistry) (parsed : list scopedKey) : scopeRegistry * bool :=
  if existsb (λ e, bool_decide (Key e = ""%string)) parsed then (r, false)
  else (foldl (λ m e, <[Key e := e]> m) ∅ parsed, true).

Definition scope_lookup (r : scopeRegistry) (key : string) : option scopedKey :=
  if bool_decide (key = ""%string) then None else r !! key.

Definition scope_covers (required g : string) : bool :=
  bool_decide (g = "*"%string) || bool_decide (g = required) ||
  (has_suffix g ":*" && has_prefix required (trim_suffix g ":*" +:+ ":")%string).

Definition hasScope (granted : list string) (required : string) : bool :=
  bool_decide (required = ""%string) || existsb (scope_covers required) granted.

Definition routeScopes : list (string * string) :=
  [("POST /proofs", "proofs:write"); ("POST /proofs/batch", "proofs:write"); ("POST /verify", "verify");
   ("POST /proofs/{id}/revoke", "proofs:write"); ("GET /proofs", "proofs:read");
   ("GET /proofs/{id}", "proofs:read"); ("GET /proofs/{id}/export", "proofs:read"); ("GET /stats", "stats");
   ("POST /kyc/check", "kyc:read"); ("POST /kyc/grant", "kyc:write");
   ("GET /kyc/whitelist/{user}", "kyc:read"); ("POST /inference/prove", "inference:write");
   ("POST /inference/verify", "inference:read"); ("POST /inference/register-model", "inference:write");
   ("GET /inference/model/{id}", "inference:read"); ("POST /aggregation/create-batch", "aggregation:write");
   ("POST /aggregation/add-proof", "aggregation:write"); ("POST /aggregation/finalize", "aggregation:write");
   ("GET /aggregation/batch/{id}", "aggregation:read");
   ("GET /aggregation/verify-batch/{id}", "aggregation:read"); ("POST /zk/verify-groth16", "zk:read");
   ("POST /zk/batch-verify", "zk:read"); ("POST /zk/groth16-real/prove", "zk:write");
   ("POST /zk/groth16-real/verify", "zk:read"); ("POST /zk/challenge", "zk:write");
   ("GET /zk/challenge/{id}", "zk:read"); ("POST /proof-chain/validate", "proofs:read");
   ("POST /pq/sign-sphincs", "pq:write"); ("POST /pq/verify-sphincs", "pq:read");
   ("POST /pq/hybrid-sign", "pq:write"); ("POST /pq/hybrid-verify", "pq:read");
   ("POST /v1/webhooks", "webhooks:write"); ("GET /v1/webhooks", "webhooks:read");
   ("DELETE /v1/webhooks/{id}", "webhooks:write"); ("GET /v1/webhooks/dead-letters", "webhooks:read");
   ("POST /v1/webhooks/dead-letters/{delivery_id}/replay", "webhooks:write");
   ("GET /v1/admin/summary", "admin:read"); ("GET /v1/circuits", "zk:read");
   ("GET /v1/circuits/{id}", "zk:read"); ("GET /v1/circuits/{id}/vk", "zk:read");
   ("POST /v1/zk/prove", "zk:write"); ("POST /v1/zk/verify", "zk:read");
   ("POST /v1/zk/anchor-verdict", "zk:write"); ("POST /v1/pq/keys", "pq:write");
   ("POST /v1/pq/keys/{algo}/rotate", "pq:write"); ("GET /v1/pq/keys", "pq:read");
   ("GET /v1/pq/keys/{id}", "pq:read"); ("POST /v1/pq/keys/sign", "pq:write");
   ("POST /v1/pq/keys/verify", "pq:read"); ("POST /v1/pq/keys/migrate", "pq:write");
   ("GET /v1/pq/keystore/info", "pq:read"); ("POST /v1/aggregation/fold", "aggregation:write");
   ("POST /v1/aggregation/verify-fold", "aggregation:read"); ("POST /v1/decision/evaluate", "decision:write");
   ("GET /v1/decision/pool", "decision:read"); ("GET /v1/hitl/tickets", "decision:read");
   ("GET /v1/hitl/tickets/{id}", "decision:read"); ("POST /v1/hitl/tickets/{id}/resolve", "decision:write");
   ("POST /v1/receipts/emit", "receipts:write"); ("GET /v1/receipts/{id}", "receipts:read");
   ("GET /v1/receipts/{id}/lineage", "receipts:read"); ("GET /v1/receipts/{id}/w3c-vc", "receipts:read");
   ("GET /v1/receipts/{id}/agent-receipt", "receipts:read")]%string.

(** The scope of a pattern, empty when it has none. *)
Definition required_scope (pat : string) : string :=
  default ""%string (snd <$> List.find (λ e, bool_decide (fst e = pat)) routeScopes).

(** Admission with the [X-CP-Tenant] tag of the key, or the refusal. *)
Definition enforceScope (scopes : option scopeRegistry) (r : Request) (required : string)
    : result string (option string) :=
  match scopes ≫= (λ reg, scope_lookup reg (trim_space (APIKey r))) with
  | None => Ok None
  | Some entry =>
      if hasScope (Scopes entry) required then Ok (Some (ScopeTenant entry))
      else Err ("forbidden: missing scope " +:+ required)%string
  end.

Section scope_middleware.
(** The pattern [ServeMux.Handler] finds; empty when no route matches. *)
Context (route : string → string → string).

Definition scopeMiddleware (scopes : option scopeRegistry) (r : Request) : result string (option string) :=
  match scopes with
  | None => Ok None
  | Some _ =>
      let pat := trim_space (route (Method r) (Path r)) in
      if bool_decide (pat = ""%string) then Ok None
      else
        let required := required_scope pat in
        if bool_decide (required = ""%string) then Ok None else enforceScope scopes r required
  end.

End scope_middleware.

(** ** The opt-in gate of [scope_middleware.go] *)

Record APIKeyRecord := { RecTenant : string; RecScopes : list string }.
Notation ScopeRegistry := (gmap string APIKeyRecord).

Definition NewScopeRegistry : ScopeRegistry := ∅.
Definition Set_ (r : ScopeRegistry) (key : string) (rec : APIKeyRecord) : ScopeRegistry := <[key := rec]> r.
Definition SetMany (r rows : ScopeRegistry) : ScopeRegistry := rows ∪ r.
Definition Lookup (r : ScopeRegistry) (key : string) : option APIKeyRecord := r !! key.
Definition HasScope (rec : APIKeyRecord) (want : string) : bool :=
  existsb (λ s, bool_decide (s = "*"%string) || bool_decide (s = want)) (RecScopes rec).

(** [scopeGate]: the tenant put into the request context, or the refusal. *)
Definition scopeGate (reg : option ScopeRegistry) (required : string) (r : Request) : result string (option string) :=
  match reg with
  | None => Ok None
  | Some reg =>
      if bool_decide (Method r ∈ ["GET"; "HEAD"; "OPTIONS"]%string) then Ok None
      else match Lookup reg (APIKey r) with
           | None => Ok None
           | Some rec =>
               if HasScope rec required then Ok (Some (RecTenant rec))
               else Err ("api key lacks required scope: " +:+ required)%string
           end
  end.

(** ** Authentication ([authMiddleware]) *)

Definition read_only (r : Request) : bool := bool_decide (Method r ∈ ["GET"; "HEAD"]%string).

Definition audit_event (id : string) (k : AuditKind) (detail : string) : AuditEvent :=
  {| At := time_zero; ATenantID := id; AKind := k; Detail := detail |}.

(** Tenant mode: the store after the request, and the tenant or the refusal. *)
Definition auth_tenant (ts : Store) (now : time) (r : Request) : Store * result (Z * string) (option Tenant) :=
  if read_only r then (ts, Ok None)
  else match Resolve ts (APIKey r) with
       | None =>
           (Log ts now (audit_event "" AuditAuthRejected ("path=" +:+ Path r +:+ " remote=" +:+ RemoteAddr r)%string),
            Err (401, "missing or invalid X-API-Key"%string))
       | Some t =>
           let '(ts, d) := CheckRate ts now (TenantID t) in
           if Allowed d
           then (Log ts now (audit_event (TenantID t) AuditAuthAccepted
                               ("method=" +:+ Method r +:+ " path=" +:+ Path r)%string), Ok (Some t))
           else (Log ts now (audit_event (TenantID t) AuditRateBlocked (DReason d +:+ " path=" +:+ Path r)%string),
                 Err (429, DReason d))
       end.

(** The path with the one shared key. *)
Definition auth_legacy (apiKey : string) (r : Request) : bool :=
  bool_decide (apiKey = ""%string) || read_only r
  || (negb (bool_decide (APIKey r = ""%string)) && bool_decide (APIKey r = apiKey)).

Definition authMiddleware (tenants : option Store) (apiKey : string) (now : time) (r : Request)
    : option Store * result (Z * string) (option Tenant) :=
  match tenants with
  | Some ts => let '(ts, res) := auth_tenant ts now r in (Some ts, res)
  | None => (None, if auth_legacy apiKey r then Ok None else Err (401, "missing or invalid X-API-Key"%string))
  end.

(** ** Idempotency ([idempotency.go]) *)

Record idempotencyEntry := {
  status : Z; ebody : bytes; contentType : string; requestHash : string; expiresAt : time;
}.

Notation idempotencyStore := (gmap string idempotencyEntry).

Definition idempotencyTTL : Z := 15 * minute.
Definition idempotencyMax : nat := 4096.
(** [MaxBytesReader] of [rateLimitMiddleware]: one MiB for a POST. *)
Definition max_body : Z := 2 ^ 20.

Definition isMutating (m : string) : bool := bool_decide (m ∈ ["POST"; "PUT"; "PATCH"; "DELETE"]%string).

Definition hash_input (method path : string) (body : bytes) : bytes :=
  bytes_of method ++ [Byte.x00] ++ bytes_of path ++ [Byte.x00] ++ body.

Definition hashReq (method path : string) (body : bytes) : string :=
  hex_encode (sha256 (hash_input method path body)).

Definition sweepExpired (items : idempotencyStore) (now : time) : idempotencyStore :=
  filter (λ kv, ¬ (expiresAt (snd kv) < now)) items.

(** The scan for the entry that expires first, in the iteration order [order]. *)
Definition oldest_of (order : list (string * idempotencyEntry)) : option (string * time) :=
  foldl (λ acc kv,
           match acc with
           | Some (_, t) => if expiresAt (snd kv) <? t then Some (fst kv, expiresAt (snd kv)) else acc
           | None => Some (fst kv, expiresAt (snd kv))
           end) None order.

Definition evictOldest (items : idempotencyStore) (order : list (string * idempotencyEntry)) : idempotencyStore :=
  match oldest_of order with
  | Some (k, _) => if bool_decide (k = ""%string) then items else delete k items
  | None => items
  end.

(** The part before the handler: an answer, or [None] to call the handler. *)
Definition idem_begin (items : idempotencyStore) (now : time) (r : Request)
    : idempotencyStore * option outcome :=
  if negb (isMutating (Method r)) || bool_decide (IdempotencyKey r = ""%string) then (items, None)
  else if bool_decide (Method r = "POST"%string) && (max_body <? Z.of_nat (length (Body r)))
  then (items, Some (Rejected 400 "read body"))
  else
    let items := sweepExpired items now in
    (items,
     match items !! IdempotencyKey r with
     | None => None
     | Some e =>
         Some (if bool_decide (requestHash e = hashReq (Method r) (Path r) (Body r))
               then Replayed (status e) (contentType e) (ebody e)
               else Rejected 409 "idempotency-key reused with different payload")
     end).

(** The part after the handler answered [r] with [code], [ct] and [body]. *)
Definition idem_finish (items : idempotencyStore) (now : time) (order : list (string * idempotencyEntry))
    (r : Request) (code : Z) (ct : string) (body : bytes) : idempotencyStore :=
  if negb (isMutating (Method r)) || bool_decide (IdempotencyKey r = ""%string) then items
  else if (200 <=? code) && (code <? 300)
  then
    let items := if (idempotencyMax <=? size items)%nat then evictOldest items order else items in
    <[IdempotencyKey r := {| status := code; ebody := body; contentType := ct;
                             requestHash := hashReq (Method r) (Path r) (Body r);
                             expiresAt := now + idempotencyTTL |}]> items
  else items.

(** ** The chain *)

Record Server := {
  s_clients : gmap string rlEntry;
  s_keyRL : perKeyLimiter;
  s_tenants : option Store;
  s_apiKey : string;
  s_scopes : option scopeRegistry;
  s_idem : idempotencyStore;
}.

(** The clock as each middleware reads it. *)
Record readings := { at_ip : time; at_key : time; at_auth : time; at_idem : time }.

Definition with_clients (s : Server) (c : gmap string rlEntry) : Server :=
  {| s_clients := c; s_keyRL := s_keyRL s; s_tenants := s_tenants s; s_apiKey := s_apiKey s;
     s_scopes := s_scopes s; s_idem := s_idem s |}.
Definition with_keyRL (s : Server) (l : perKeyLimiter) : Server :=
  {| s_clients := s_clients s; s_keyRL := l; s_tenants := s_tenants s; s_apiKey := s_apiKey s;
     s_scopes := s_scopes s; s_idem := s_idem s |}.
Definition with_tenants (s : Server) (t : option Store) : Server :=
  {| s_clients := s_clients s; s_keyRL := s_keyRL s; s_tenants := t; s_apiKey := s_apiKey s;
     s_scopes := s_scopes s; s_idem := s_idem s |}.
Definition with_idem (s : Server) (i : idempotencyStore) : Server :=
  {| s_clients := s_clients s; s_keyRL := s_keyRL s; s_tenants := s_tenants s; s_apiKey := s_apiKey s;
     s_scopes := s_scopes s; s_idem := i |}.

Section chain.
Context (route : string → string → string).

Definition admission (s : Server) (clock : readings) (r : Request) : Server * outcome :=
  let '(r, _) := v1Alias r in
  if bool_decide (fst (negotiateVersion (Accept r)) = ""%string)
  then (s, Rejected 406 ("unsupported api version — supported: " +:+ string_join ", " servedVersions))
  else
    let '(clients, ok) := rateLimit (s_clients s) (at_ip clock) (ClientIP r) in
    let s := with_clients s clients in
    if negb ok then (s, Rejected 429 "too many requests")
    else
      let '(l, ok) := perKeyRateLimit (s_keyRL s) (at_key clock) (APIKey r) in
      let s := with_keyRL s l in
      if negb ok then (s, Rejected 429 "per-api-key rate limit exceeded")
      else if bool_decide (Method r = "OPTIONS"%string) then (s, NoContent)
      else
        let '(ts, auth) := authMiddleware (s_tenants s) (s_apiKey s) (at_auth clock) r in
        let s := with_tenants s ts in
        match auth with
        | Err (code, msg) => (s, Rejected code msg)
        | Ok t =>
            match scopeMiddleware route (s_scopes s) r with
            | Err msg => (s, Rejected 403 msg)
            | Ok tag =>
                let '(items, answer) := idem_begin (s_idem s) (at_idem clock) r in
                (with_idem s items, default (Forwarded r t tag) answer)
            end
        end.

Definition complete (s : Server) (now : time) (order : list (string * idempotencyEntry)) (r : Request)
    (code : Z) (ct : string) (body : bytes) : Server :=
  with_idem s (idem_finish (s_idem s) now order r code ct body).

End chain.

(** ** What passes the chain *)

Lemma negotiate_parts_served parts u :
  fst (negotiate_parts parts u) = ""%string ∨ fst (negotiate_parts parts u) ∈ servedVersions.
Proof.
  revert u. induction parts as [|part parts IH]; intros u; cbn [negotiate_parts].
  - destruct u; [left | right; apply list_elem_of_singleton]; reflexivity.
  - destruct (parseMediaType part) as [media params].
    destruct (negb _); [apply IH|]. destruct (params !! _) as [v|].
    + case_bool_decide as Hv; [right; exact Hv | apply IH].
    + right. apply list_elem_of_singleton. reflexivity.
Qed.

Lemma negotiate_served h : fst (negotiateVersion h) = ""%string ∨ fst (negotiateVersion h) ∈ servedVersions.
Proof.
  unfold negotiateVersion. case_bool_decide.
  - right. apply list_elem_of_singleton. reflexivity.
  - apply negotiate_parts_served.
Qed.

(** Who may write: a tenant whose key resolves and whose rate allows it, or the
    holder of the shared key, when there is one. *)
Definition authenticated (s : Server) (now : time) (r : Request) (t : option Tenant) : Prop :=
  if read_only r then t = None
  else match s_tenants s with
       | Some ts => ∃ tn, t = Some tn ∧ Resolve ts (APIKey r) = Some tn
                          ∧ Allowed (snd (CheckRate ts now (TenantID tn))) = true
       | None => t = None ∧ (s_apiKey s = ""%string ∨ APIKey r = s_apiKey s)
       end.

(** The key of the request, when it is a scoped one, covers the scope of the
    route. *)
Definition scoped (route : string → string → string) (s : Server) (r : Request) : Prop :=
  ∀ reg e, s_scopes s = Some reg → scope_lookup reg (trim_space (APIKey r)) = Some e →
    hasScope (Scopes e) (required_scope (trim_space (route (Method r) (Path r)))) = true.

Lemma authMiddleware_ok ts key now r ts' t s :
  s_tenants s = ts → s_apiKey s = key →
  authMiddleware ts key now r = (ts', Ok t) → authenticated s now r t.
Proof.
  intros Hts Hkey. unfold authMiddleware, authenticated, auth_legacy. rewrite Hts, Hkey.
  destruct ts as [st|].
  - unfold auth_tenant. destruct (read_only r); [naive_solver|].
    destruct (Resolve st (APIKey r)) as [tn|]; [|naive_solver].
    destruct (CheckRate st now (TenantID tn)) as [st' d] eqn:E.
    destruct (Allowed d) eqn:Hd; intros [= <- <-]. exists tn. rewrite E. done.
  - destruct (read_only r); [rewrite orb_true_r; naive_solver|]. rewrite orb_false_r.
    intros [= <- H]. destruct (bool_decide (key = ""%string)) eqn:E1; bool_to_prop; [naive_solver|].
    cbn in H. destruct (_ && _) eqn:E2; [|done]. bool_to_prop. naive_solver.
Qed.

Lemma required_scope_empty : required_scope "" = ""%string.
Proof. reflexivity. Qed.

Lemma scopeMiddleware_ok route s r tag :
  scopeMiddleware route (s_scopes s) r = Ok tag → scoped route s r.
Proof.
  unfold scopeMiddleware, scoped. intros H reg e Hreg He. rewrite Hreg in H.
  case_bool_decide as H1; [rewrite H1, required_scope_empty; reflexivity|].
  case_bool_decide as H2; [rewrite H2; reflexivity|].
  unfold enforceScope in H. cbn in H. rewrite He in H. destruct (hasScope _ _); done.
Qed.

Lemma idem_begin_answer items now r items' o :
  idem_begin items now r = (items', Some o) → (∃ code msg, o = Rejected code msg) ∨ (∃ c ct b, o = Replayed c ct b).
Proof.
  unfold idem_begin. destruct (_ || _); [done|]. destruct (_ && _).
  - intros [= <- <-]. left. eauto.
  - destruct (_ !! _) as [e|]; [|done]. intros [= <- <-]. case_bool_decide; [right | left]; eauto.
Qed.

(** Everything a request that reaches its handler has passed. *)
Lemma admit_forwarded route s clock r s' r' t tag :
  admission route s clock r = (s', Forwarded r' t tag) →
  r' = fst (v1Alias r)
  ∧ fst (negotiateVersion (Accept r')) ∈ servedVersions
  ∧ snd (rateLimit (s_clients s) (at_ip clock) (ClientIP r')) = true
  ∧ snd (perKeyRateLimit (s_keyRL s) (at_key clock) (APIKey r')) = true
  ∧ Method r' ≠ "OPTIONS"%string
  ∧ authenticated s (at_auth clock) r' t
  ∧ scoped route s r'
  ∧ snd (idem_begin (s_idem s) (at_idem clock) r') = None.
Proof.
  unfold admission. destruct (v1Alias r) as [q sunset]. cbn [fst].
  case_bool_decide as Hv; [done|].
  destruct (rateLimit _ _ _) as [c1 b1] eqn:E1. destruct b1; [cbn [negb]|done].
  cbn [with_clients s_keyRL].
  destruct (perKeyRateLimit _ _ _) as [l b2] eqn:E2. destruct b2; [cbn [negb]|done].
  case_bool_decide as Ho; [done|].
  cbn [with_keyRL with_clients s_tenants s_apiKey s_scopes].
  destruct (authMiddleware _ _ _ _) as [ts auth] eqn:E3. destruct auth as [t'|[code msg]]; [|done].
  cbn [with_tenants with_keyRL with_clients s_scopes s_idem].
  destruct (scopeMiddleware _ _ _) as [tag'|msg] eqn:E4; [|done].
  destruct (idem_begin _ _ _) as [items answer] eqn:E5. intros H.
  destruct answer as [o|].
  - apply idem_begin_answer in E5 as [(? & ? & ->)|(? & ? & ? & ->)]; done.
  - injection H as _ <- <- <-. rewrite E1, E2, E5. split_and!; try done.
    + destruct (negotiate_served (Accept q)); done.
    + eapply authMiddleware_ok; [..|exact E3]; done.
    + eapply scopeMiddleware_ok, E4.
Qed.

(** Reaching a handler means: the aliased path, a served version, both rate
    limiters, no preflight, authentication for everything but GET and HEAD, the
    scope of the route for scoped keys, and no stored answer. *)
Theorem chain_admission route s clock r s' r' t tag :
  admission route s clock r = (s', Forwarded r' t tag) →
  r' = fst (v1Alias r)
  ∧ fst (negotiateVersion (Accept r')) ∈ servedVersions
  ∧ snd (rateLimit (s_clients s) (at_ip clock) (ClientIP r')) = true
  ∧ snd (perKeyRateLimit (s_keyRL s) (at_key clock) (APIKey r')) = true
  ∧ Method r' ≠ "OPTIONS"%string
  ∧ authenticated s (at_auth clock) r' t
  ∧ scoped route s r'
  ∧ snd (idem_begin (s_idem s) (at_idem clock) r') = None.
Proof. apply admit_forwarded. Qed.

(** Two suffixes whose last characters differ exclude each other. *)
Lemma has_suffix_last s p q c d :
  head (String.list_ascii_of_string (string_rev p)) = Some c →
  head (String.list_ascii_of_string (string_rev q)) = Some d →
  has_suffix s p = true → has_suffix s q = true → c = d.
Proof.
  unfold has_suffix. destruct (string_rev p) as [|c' p'], (string_rev q) as [|d' q']; try done.
  cbn. intros [= <-] [= <-]. destruct (string_rev s) as [|e s']; [done|].
  cbn [String.prefix]. repeat (destruct (Ascii.ascii_dec _ _); [|done]). congruence.
Qed.

(** A read grant covers no write scope. *)
Lemma read_grant_no_write g required :
  has_suffix g ":read" = true → has_suffix required ":write" = true → scope_covers required g = false.
Proof.
  intros Hg Hr. unfold scope_covers. apply orb_false_intro; [apply orb_false_intro|].
  - apply bool_decide_eq_false. intros ->. by vm_compute in Hg.
  - apply bool_decide_eq_false. intros ->.
    pose proof (has_suffix_last required ":read" ":write" (chr 100) (chr 101) eq_refl eq_refl Hg Hr). done.
  - apply andb_false_intro1. destruct (has_suffix g ":*") eqn:E; [|done].
    pose proof (has_suffix_last g ":read" ":*" (chr 100) (chr 42) eq_refl eq_refl Hg E). done.
Qed.

(** A scoped key with read grants only never reaches the handler of a route that
    requires a write scope. *)
Theorem read_only_keys route s clock r s' r' t tag reg e :
  s_scopes s = Some reg → scope_lookup reg (trim_space (APIKey r')) = Some e →
  (∀ g, g ∈ Scopes e → has_suffix g ":read" = true) →
  admission route s clock r = (s', Forwarded r' t tag) →
  has_suffix (required_scope (trim_space (route (Method r') (Path r')))) ":write" = false.
Proof.
  intros Hreg He Hg H. apply admit_forwarded in H as (_ & _ & _ & _ & _ & _ & Hs & _).
  specialize (Hs reg e Hreg He). apply not_true_is_false. intros Hw.
  unfold hasScope in Hs. apply orb_prop in Hs as [Hs|Hs].
  - bool_to_prop. rewrite Hs in Hw. by vm_compute in Hw.
  - apply existsb_exists in Hs as (g & Hin & Hc).
    rewrite read_grant_no_write in Hc; [done| |done]. apply Hg, list_elem_of_In, Hin.
Qed.

(** After the alias no request asks for a path under /v1/ unless it asked for
    /v1/v1/: the routes registered with the prefix are not reached by their own
    names. *)
Lemma prefix_split s p : String.prefix p s = true → ∃ t, s = (p +:+ t)%string.
Proof.
  revert s. induction p as [|c p IH]; intros s; [intros; exists s; done|].
  destruct s as [|d s]; cbn [String.prefix]; [done|]. destruct (Ascii.ascii_dec c d) as [->|]; [|done].
  intros H. destruct (IH s H) as [t ->]. exists t. done.
Qed.

Lemma substring_whole s : String.substring 0 (String.length s) s = s.
Proof. induction s as [|c s IH]; cbn; congruence. Qed.

Lemma v1_paths_unreachable r :
  has_prefix (Path (fst (v1Alias r))) "/v1/" = true → has_prefix (Path r) "/v1/v1/" = true.
Proof.
  unfold v1Alias. destruct (has_prefix (Path r) "/v1/") eqn:E; cbn [fst]; [|congruence].
  cbn [with_path Path]. unfold has_prefix in *.
  destruct (prefix_split _ _ E) as [p ->].
  replace (String.substring 3 _ _) with ("/" +:+ p)%string; [done|].
  symmetry. exact (substring_whole ("/" +:+ p)%string).
Qed.

(** ** The limiters *)

(** A run of the per-address limiter over requests [(time, address)]. *)
Fixpoint rate_run (clients : gmap string rlEntry) (evs : list (time * string)) : list (string * bool) :=
  match evs with
  | [] => []
  | (now, ip) :: evs =>
      let '(clients, ok) := rateLimit clients now ip in (ip, ok) :: rate_run clients evs
  end.

(** A run of one key's bucket at one instant. *)
Fixpoint key_run (l : perKeyLimiter) (now : time) (key : string) (n : nat) : list bool :=
  match n with
  | O => []
  | S n => let '(l, ok) := perKeyRateLimit l now key in ok :: key_run l now key n
  end.

Definition admitted_of (ip : string) : list (string * bool) → Z := count (λ o, bool_decide (fst o = ip) && snd o).
Definition requests_of (ip : string) : list (time * string) → Z := count (λ e, bool_decide (snd e = ip)).

Lemma rateLimit_other clients now ip ip' :
  ip ≠ ip' → fst (rateLimit clients now ip') !! ip = clients !! ip.
Proof.
  intros Hne. unfold rateLimit. destruct (clients !! ip') as [e|]; [case_match|]; cbn [fst];
    rewrite lookup_insert_ne; done.
Qed.

(** Within an open window. *)
Lemma rate_run_window ip e evs : ∀ clients,
  clients !! ip = Some e → 1 <= rlcount e → Forall (λ ev, snd ev = ip → fst ev <= reset e) evs →
  admitted_of ip (rate_run clients evs) = Z.max 0 (Z.min (requests_of ip evs) (60 - rlcount e)).
Proof.
  unfold admitted_of, requests_of. revert e. induction evs as [|[now ip'] evs IH]; intros e clients He Hc Hall.
  { cbn. rewrite !count_nil. lia. }
  apply Forall_cons in Hall as [Hev Hall]. cbn [fst snd] in Hev. cbn [rate_run].
  pose proof (rateLimit_other clients now ip ip') as Hother.
  destruct (decide (ip' = ip)) as [->|Hne].
  - unfold rateLimit in *. rewrite He in *. destruct (reset e <? now) eqn:Ht; [bool_to_prop; specialize (Hev eq_refl); lia|].
    rewrite !count_cons. cbn [fst snd]. rewrite !bool_decide_true by done. cbn [andb].
    rewrite (IH {| rlcount := rlcount e + 1; reset := reset e |});
      [|apply lookup_insert_eq|cbn; lia|done].
    cbn [rlcount]. pose proof (count_range (λ e0 : time * string, bool_decide (e0.2 = ip)) evs).
    destruct (rlcount e + 1 <=? 60) eqn:E; bool_to_prop; lia.
  - destruct (rateLimit clients now ip') as [c' ok]. cbn [fst] in Hother.
    rewrite !count_cons. cbn [fst snd]. rewrite !bool_decide_false by congruence. cbn [andb].
    rewrite (IH e); [lia| |done..]. rewrite Hother; congruence.
Qed.

(** Calls of a bucket at one instant as a function of the tokens. *)
Fixpoint drain (tok : float64) (n : nat) : list bool :=
  match n with
  | O => []
  | S n => if f_ltb tok f_one then false :: drain tok n else true :: drain (f_sub tok f_one) n
  end.

Lemma key_run_drain l now key tok n :
  key ≠ ""%string → buckets l !! key = Some {| tokens := tok; lastFill := now |} →
  key_run l now key n = drain tok n.
Proof.
  intros Hk. revert l tok. induction n as [|n IH]; intros l tok Hb; [done|].
  cbn [key_run drain]. unfold perKeyRateLimit. rewrite bool_decide_false by done.
  unfold allow_key. rewrite Hb. unfold refill. cbn [lastFill tokens].
  unfold time_sub. rewrite Z.sub_diag. change (f_ltb f_zero _) with false. cbn iota. cbn [tokens lastFill].
  destruct (f_ltb tok f_one); cbn; f_equal; apply IH, lookup_insert_eq.
Qed.

Lemma drain_prefix tok n m : drain tok n = take n (drain tok (m + n)).
Proof.
  rewrite (Nat.add_comm m). revert tok. induction n as [|n IH]; intros tok; [done|].
  cbn [Nat.add drain take]. destruct (f_ltb tok f_one); cbn [take]; f_equal; apply IH.
Qed.

Lemma drain_low tok n : f_ltb tok f_one = true → drain tok n = replicate n false.
Proof. intros H. induction n as [|n IH]; cbn [drain replicate]; [done|]. rewrite H, IH. done. Qed.

(** [k] tokens taken one by one. *)
Fixpoint spend (k : nat) (tok : float64) : option float64 :=
  match k with
  | O => Some tok
  | S k => if f_ltb tok f_one then None else spend k (f_sub tok f_one)
  end.

Lemma drain_spend k tok t n : spend k tok = Some t → drain tok (k + n) = replicate k true ++ drain t n.
Proof.
  revert tok. induction k as [|k IH]; intros tok; cbn [spend]; [intros [= ->]; done|].
  cbn [Nat.add drain replicate app]. destruct (f_ltb tok f_one); [done|]. intros H. f_equal. apply IH, H.
Qed.

(** 119 tokens are left after the first call of a fresh bucket. *)
Lemma drain_119 n : drain (f_sub (f_of_Z 120) f_one) (119 + n) = replicate 119 true ++ replicate n false.
Proof.
  rewrite (drain_spend 119 _ (S754_zero false)); [|vm_compute; reflexivity].
  f_equal. apply drain_low. reflexivity.
Qed.

Lemma take_pad {A} n m (l : list A) b : (n <= m)%nat → take n (l ++ replicate m b) = take n (l ++ replicate n b).
Proof.
  intros Hm. replace m with (n + (m - n))%nat by lia.
  rewrite replicate_add, app_assoc, take_app_le; [done|]. rewrite length_app, length_replicate. lia.
Qed.

(** Both ceilings, exactly: of the requests of an address in the minute that its
    first one opens, at most sixty pass, and all of the first sixty; of any
    number of simultaneous requests with a fresh key the first 120 pass and no
    other. Requests of other addresses make no difference. *)
Theorem limiters_exact :
  (∀ clients ip now evs,
     (∀ e, clients !! ip = Some e → reset e < now) →
     Forall (λ ev, snd ev = ip → fst ev <= now + minute) evs →
     admitted_of ip (rate_run clients ((now, ip) :: evs)) = Z.min (requests_of ip ((now, ip) :: evs)) 60)
  ∧ (∀ now key n, key ≠ ""%string →
       key_run keyRL now key n = take n (replicate 120 true ++ replicate n false)).
Proof.
  split.
  - intros clients ip now evs Hold Hall. cbn [rate_run].
    assert (rateLimit clients now ip = (<[ip := {| rlcount := 1; reset := now + minute |}]> clients, true)) as ->.
    { unfold rateLimit. destruct (clients !! ip) as [e|] eqn:He; [|done].
      destruct (reset e <? now) eqn:E; [done|]. bool_to_prop. specialize (Hold e eq_refl). lia. }
    pose proof (rate_run_window ip {| rlcount := 1; reset := now + minute |} evs _
                  (lookup_insert_eq clients ip _) (Z.le_refl 1) Hall) as H.
    unfold admitted_of, requests_of in *. rewrite !count_cons, H. cbn [fst snd rlcount].
    rewrite !bool_decide_true by done. cbn [andb].
    pose proof (count_range (λ e0 : time * string, bool_decide (e0.2 = ip)) evs). lia.
  - intros now key n Hk. destruct n as [|n]; [done|]. cbn [key_run]. unfold perKeyRateLimit.
    rewrite bool_decide_false by done. unfold allow_key. cbn [keyRL newPerKeyLimiter buckets]. rewrite lookup_empty.
    change (replicate 120 true) with (true :: replicate 119 true). cbn [app take]. f_equal.
    erewrite key_run_drain; [|done|apply lookup_insert_eq]. rewrite (drain_prefix _ n 119).
    cbn [maxTokens newPerKeyLimiter keyRL]. rewrite drain_119. symmetry. apply take_pad. lia.
Qed.

(** ** Idempotency as a state machine *)

(** A request the store looks at. *)
Definition keyed (r : Request) : bool :=
  isMutating (Method r) && negb (bool_decide (IdempotencyKey r = ""%string)).

Definition body_fits (r : Request) : bool :=
  negb (bool_decide (Method r = "POST"%string) && (max_body <? Z.of_nat (length (Body r)))).

(** The store, the requests whose handlers are running, and the clock. *)
Record idem_state := { store : idempotencyStore; running : list Request; clock : time }.

Inductive idem_step : idem_state → idem_state → Prop :=
| step_begin st now r :
    clock st <= now →
    idem_step st {| store := fst (idem_begin (store st) now r);
                    running := match snd (idem_begin (store st) now r) with
                               | None => r :: running st | Some _ => running st end;
                    clock := now |}
| step_finish st now order l1 r l2 code ct body :
    clock st <= now → running st = l1 ++ r :: l2 → order ≡ₚ map_to_list (store st) →
    idem_step st {| store := idem_finish (store st) now order r code ct body; running := l1 ++ l2; clock := now |}
| step_panic st now l1 r l2 :
    clock st <= now → running st = l1 ++ r :: l2 →
    idem_step st {| store := store st; running := l1 ++ l2; clock := now |}.

Definition idem_init (t : time) : idem_state := {| store := ∅; running := []; clock := t |}.
Definition idem_reachable (st : idem_state) : Prop := ∃ t, rtc idem_step (idem_init t) st.

Lemma keyed_false r :
  negb (isMutating (Method r)) || bool_decide (IdempotencyKey r = ""%string) = negb (keyed r).
Proof. unfold keyed. destruct (isMutating _), (bool_decide _); done. Qed.

(** The two halves by cases. *)
Lemma idem_begin_eq items now r :
  idem_begin items now r =
  if keyed r then
    if body_fits r then
      (sweepExpired items now,
       match sweepExpired items now !! IdempotencyKey r with
       | None => None
       | Some e =>
           Some (if bool_decide (requestHash e = hashReq (Method r) (Path r) (Body r))
                 then Replayed (status e) (contentType e) (ebody e)
                 else Rejected 409 "idempotency-key reused with different payload")
       end)
    else (items, Some (Rejected 400 "read body"))
  else (items, None).
Proof.
  unfold idem_begin, body_fits. rewrite keyed_false. destruct (keyed r); cbn [negb]; [|done].
  destruct (_ && _); done.
Qed.

Lemma lookup_sweep items now k e :
  sweepExpired items now !! k = Some e ↔ items !! k = Some e ∧ now <= expiresAt e.
Proof. unfold sweepExpired. rewrite map_lookup_filter_Some. cbn. naive_solver lia. Qed.

Lemma size_sweep items now : (size (sweepExpired items now) <= size items)%nat.
Proof. apply map_subseteq_size, map_filter_subseteq. Qed.

Lemma begin_lookup items now r k e :
  fst (idem_begin items now r) !! k = Some e → items !! k = Some e.
Proof.
  rewrite idem_begin_eq. repeat case_match; cbn [fst]; rewrite ?lookup_sweep; naive_solver.
Qed.

Lemma begin_keeps items now r k e :
  items !! k = Some e → now <= expiresAt e → fst (idem_begin items now r) !! k = Some e.
Proof. rewrite idem_begin_eq. repeat case_match; cbn [fst]; rewrite ?lookup_sweep; naive_solver. Qed.

Lemma begin_size items now r : (size (fst (idem_begin items now r)) <= size items)%nat.
Proof. rewrite idem_begin_eq. repeat case_match; cbn [fst]; auto using size_sweep. Qed.

Lemma oldest_of_some order k t :
  oldest_of order = Some (k, t) → ∃ e, (k, e) ∈ order.
Proof.
  unfold oldest_of. revert k t. induction order as [|[k' e'] order IH] using rev_ind; [done|]. intros k t.
  rewrite foldl_app. cbn. destruct (foldl _ None order) as [[k0 t0]|] eqn:E.
  - case_match; intros [= <- <-].
    + exists e'. set_solver.
    + destruct (IH k0 t0 eq_refl) as [e He]. exists e. set_solver.
  - intros [= <- <-]. exists e'. set_solver.
Qed.

Lemma oldest_of_none order : oldest_of order = None → order = [].
Proof.
  unfold oldest_of. destruct order as [|[k e] order] using rev_ind; [done|].
  rewrite foldl_app. cbn. repeat case_match; done.
Qed.

(** What a reachable store looks like. *)
Definition entry_ok (now : time) (k : string) (e : idempotencyEntry) : Prop :=
  k ≠ ""%string ∧ 200 <= status e < 300 ∧ expiresAt e <= now + idempotencyTTL.

Definition idem_inv (st : idem_state) : Prop :=
  (size (store st) <= idempotencyMax)%nat ∧ ∀ k e, store st !! k = Some e → entry_ok (clock st) k e.

Lemma entry_ok_mono t u k e : t <= u → entry_ok t k e → entry_ok u k e.
Proof. unfold entry_ok. intros ? (? & ? & ?). split_and!; try done; lia. Qed.

Lemma evict_size items order :
  order ≡ₚ map_to_list items → (∀ k e, items !! k = Some e → k ≠ ""%string) → (0 < size items)%nat →
  S (size (evictOldest items order)) = size items.
Proof.
  intros Ho Hne Hs. unfold evictOldest. destruct (oldest_of order) as [[k t]|] eqn:E.
  - apply oldest_of_some in E as [e He]. rewrite Ho, elem_of_map_to_list in He.
    rewrite bool_decide_false by (eapply Hne, He). rewrite map_size_delete_Some by eauto. lia.
  - apply oldest_of_none in E as ->. apply Permutation_nil, map_to_list_empty_iff in Ho as ->.
    rewrite map_size_empty in Hs. lia.
Qed.

Lemma lookup_evict items order k e : evictOldest items order !! k = Some e → items !! k = Some e.
Proof.
  unfold evictOldest. destruct (oldest_of order) as [[k' t]|]; [|done]. case_bool_decide; [done|].
  rewrite lookup_delete_Some. naive_solver.
Qed.

(** The map that [idem_finish] inserts into. *)
Definition make_room (items : idempotencyStore) (order : list (string * idempotencyEntry)) : idempotencyStore :=
  if (idempotencyMax <=? size items)%nat then evictOldest items order else items.

Lemma idem_finish_eq items now order r code ct body :
  idem_finish items now order r code ct body =
  if keyed r && ((200 <=? code) && (code <? 300)) then
    <[IdempotencyKey r := {| status := code; ebody := body; contentType := ct;
                             requestHash := hashReq (Method r) (Path r) (Body r);
                             expiresAt := now + idempotencyTTL |}]> (make_room items order)
  else items.
Proof. unfold idem_finish. rewrite keyed_false. destruct (keyed r); cbn [negb andb]; done. Qed.

Lemma idem_inv_step st st' : idem_step st st' → idem_inv st → idem_inv st'.
Proof.
  intros H [Hsize Hent]. destruct H as [st now r Ht|st now order l1 r l2 code ct body Ht Hr Ho|st now l1 r l2 Ht Hr];
    unfold idem_inv; cbn [store clock].
  - split; [pose proof (begin_size (store st) now r); lia|].
    intros k e He. eapply entry_ok_mono, Hent, begin_lookup, He. done.
  - rewrite idem_finish_eq. destruct (keyed r) eqn:Hk; cbn [andb].
    2:{ split; [done|]. intros k e He. eapply entry_ok_mono, Hent, He. done. }
    destruct ((200 <=? code) && (code <? 300)) eqn:Hc.
    2:{ split; [done|]. intros k e He. eapply entry_ok_mono, Hent, He. done. }
    bool_to_prop. unfold keyed in Hk. bool_to_prop. split.
    + rewrite map_size_insert. unfold make_room. destruct (_ <=? _)%nat eqn:E.
      * apply Nat.leb_le in E. unfold idempotencyMax in *.
        pose proof (evict_size (store st) order Ho ltac:(intros; edestruct Hent; eauto) ltac:(lia)) as He.
        unfold id; case_match; lia.
      * apply Nat.leb_gt in E. unfold id; case_match; lia.
    + intros k e. rewrite lookup_insert_Some. intros [[<- <-]|[_ He]]; [split_and!; cbn; try done; lia|].
      assert (store st !! k = Some e) as Hs.
      { unfold make_room in He. destruct (_ <=? _)%nat; [eapply lookup_evict|]; eassumption. }
      eapply entry_ok_mono, Hent, Hs. done.
  - split; [done|]. intros k e He. eapply entry_ok_mono, Hent, He. done.
Qed.

(** In every reachable state the store holds at most 4096 entries, each for a
    non-empty key, with a successful answer and an expiry not later than the
    lifetime from now. *)
Theorem idem_bounded st : idem_reachable st → idem_inv st.
Proof.
  intros [t H]. assert (idem_inv (idem_init t)) as H0.
  { split; cbn; [rewrite map_size_empty; unfold idempotencyMax; lia|]. intros k e. rewrite lookup_empty. done. }
  revert H0. induction H as [|? ? ? H ? IH]; [done|]. eauto using idem_inv_step.
Qed.

(** No running request uses the key. *)
Definition quiet (k : string) (rs : list Request) : Prop :=
  ∀ r, r ∈ rs → keyed r = true → IdempotencyKey r ≠ k.

(** A step before [d] that evicts nothing. *)
Definition undisturbed (d : time) (a b : idem_state) : Prop :=
  idem_step a b ∧ clock b <= d ∧ (size (store a) < idempotencyMax)%nat.

Lemma begin_answered items now r k e :
  items !! k = Some e → now <= expiresAt e → keyed r = true → IdempotencyKey r = k →
  snd (idem_begin items now r) ≠ None.
Proof.
  intros He Ht Hk <-. rewrite idem_begin_eq, Hk. destruct (body_fits r); [|done]. cbn [snd].
  assert (sweepExpired items now !! IdempotencyKey r = Some e) as -> by (by apply lookup_sweep). done.
Qed.

Lemma quiet_app k l1 r l2 : quiet k (l1 ++ r :: l2) → quiet k (l1 ++ l2).
Proof. intros H x Hx. apply H. set_solver. Qed.

Lemma undisturbed_keeps d a b k e :
  undisturbed d a b → d <= expiresAt e → store a !! k = Some e → quiet k (running a) →
  store b !! k = Some e ∧ quiet k (running b).
Proof.
  intros (H & Hd & Hs) He Hk Hq.
  destruct H as [st now r Ht|st now order l1 r l2 code ct body Ht Hr Ho|st now l1 r l2 Ht Hr]; cbn [store running clock] in *.
  - split; [apply begin_keeps; [done|lia]|]. destruct (snd _) eqn:E; [done|].
    intros x [->|Hx]%elem_of_cons Hx'; [|by apply Hq]. intros Heq.
    eapply begin_answered; [exact Hk| |exact Hx'|exact Heq|exact E]. lia.
  - rewrite Hr in Hq. split; [|eapply quiet_app, Hq]. rewrite idem_finish_eq. destruct (keyed r) eqn:Hkr; [|done].
    destruct (_ && _)%bool; [|done]. cbn [andb].
    rewrite lookup_insert_ne by (apply Hq; [set_solver|done]). unfold make_room.
    destruct (_ <=? _)%nat eqn:E; [apply Nat.leb_le in E; lia|done].
  - rewrite Hr in Hq. split; [done|eapply quiet_app, Hq].
Qed.

Lemma undisturbed_rtc d a b k e :
  rtc (undisturbed d) a b → d <= expiresAt e → store a !! k = Some e → quiet k (running a) →
  store b !! k = Some e ∧ quiet k (running b).
Proof.
  induction 1 as [|? ? ? H ? IH]; [done|]. intros Hd Hk Hq.
  destruct (undisturbed_keeps _ _ _ _ _ H Hd Hk Hq). by apply IH.
Qed.

(** Requests without a NUL byte in method and path are told apart by the hash. *)
Definition nul_free (r : Request) : Prop :=
  no_char (chr 0) (Method r) = true ∧ no_char (chr 0) (Path r) = true.

Definition same_request (r r' : Request) : Prop :=
  Method r = Method r' ∧ Path r = Path r' ∧ Body r = Body r'.

Definition hash_of (r : Request) : bytes := hash_input (Method r) (Path r) (Body r).

Lemma bytes_at_sep s t b c :
  no_char (chr 0) s = true → no_char (chr 0) t = true →
  bytes_of s ++ Byte.x00 :: b = bytes_of t ++ Byte.x00 :: c → s = t ∧ b = c.
Proof.
  assert (∀ d, Ascii.byte_of_ascii d = Byte.x00 → d = chr 0) as Hz.
  { intros d Hd. rewrite <- (Ascii.ascii_of_byte_of_ascii d), Hd. done. }
  unfold bytes_of. revert t. induction s as [|d s IH]; intros [|d' t]; cbn; intros Hs Ht E; bool_to_prop.
  - injection E as ->. done.
  - injection E as E _. symmetry in E. apply Hz in E. done.
  - injection E as E _. apply Hz in E. done.
  - injection E as E1 E2. apply (f_equal Ascii.ascii_of_byte) in E1. rewrite !Ascii.ascii_of_byte_of_ascii in E1.
    destruct (IH t) as [-> ->]; try done. subst. done.
Qed.

Lemma hash_of_inj r r' : nul_free r → nul_free r' → hash_of r = hash_of r' → same_request r r'.
Proof.
  intros [Hm Hp] [Hm' Hp'] E. unfold hash_of, hash_input in E. cbn [app] in E.
  apply bytes_at_sep in E as [Em E]; [|done..]. apply bytes_at_sep in E as [Ep Eb]; [|done..]. done.
Qed.

Lemma hashReq_cases r r' :
  nul_free r → nul_free r' →
  hashReq (Method r) (Path r) (Body r) = hashReq (Method r') (Path r') (Body r') →
  same_request r r' ∨ is_collision (hash_of r, hash_of r').
Proof.
  intros Hr Hr' E. apply hex_encode_inj in E. destruct (decide (hash_of r = hash_of r')) as [H|H].
  - left. by apply hash_of_inj.
  - right. done.
Qed.


(** ** Samples *)

Definition ex_route (m p : string) : string :=
  if bool_decide (p = "/proofs"%string) then (m +:+ " /proofs")%string else ""%string.

Definition ex_key : scopedKey := {| Key := "sk_ro"; ScopeTenant := "acme"; Scopes := ["proofs:read"; "kyc:read"] |}.
Definition ex_server : Server :=
  {| s_clients := ∅; s_keyRL := keyRL; s_tenants := None; s_apiKey := "";
     s_scopes := Some (fst (loadKeys ∅ [ex_key])); s_idem := ∅ |}.
Definition ex_clock : readings := {| at_ip := 5; at_key := 5; at_auth := 6; at_idem := 6 |}.
Definition ex_request (m p key idem : string) : Request :=
  {| Method := m; Path := p; RemoteAddr := "192.0.2.1:80"; ClientIP := "192.0.2.1"; Accept := "*/*";
     APIKey := key; IdempotencyKey := idem; Body := [] |}.

Lemma ex_forwarded m :
  m ∈ ["GET"; "HEAD"]%string →
  admission ex_route ex_server ex_clock (ex_request m "/v1/proofs" "sk_ro" "") =
    (fst (admission ex_route ex_server ex_clock (ex_request m "/v1/proofs" "sk_ro" "")),
     Forwarded (ex_request m "/proofs" "sk_ro" "") None (if bool_decide (m = "GET"%string) then Some "acme"%string else None)).
Proof.
  intros Hm. rewrite (surjective_pairing (admission _ _ _ _)) at 1. f_equal.
  repeat (apply elem_of_cons in Hm as [->|Hm]; [vm_compute; reflexivity|]). by apply elem_of_nil in Hm.
Qed.

Lemma chain_admission_witness :
  ∃ s', admission ex_route ex_server ex_clock (ex_request "GET" "/v1/proofs" "sk_ro" "")
          = (s', Forwarded (ex_request "GET" "/proofs" "sk_ro" "") None (Some "acme"%string))
        ∧ scoped ex_route ex_server (ex_request "GET" "/proofs" "sk_ro" "").
Proof.
  eexists. split; [apply (ex_forwarded "GET"); apply list_elem_of_here|].
  refine (proj1 (proj2 (proj2 (proj2 (proj2 (proj2 (proj2
    (chain_admission ex_route ex_server ex_clock (ex_request "GET" "/v1/proofs" "sk_ro" "") _ _ None (Some "acme"%string) _)))))))).
  apply (ex_forwarded "GET"); apply list_elem_of_here.
Defined.

(** The same key is refused a write on the same path. *)
Lemma read_only_keys_witness :
  has_suffix (required_scope (trim_space (ex_route "GET" "/proofs"))) ":write" = false
  ∧ snd (admission ex_route ex_server ex_clock (ex_request "POST" "/v1/proofs" "sk_ro" ""))
    = Rejected 403 "forbidden: missing scope proofs:write".
Proof.
  split; [|vm_compute; reflexivity].
  eapply (read_only_keys ex_route ex_server ex_clock (ex_request "GET" "/v1/proofs" "sk_ro" "") _
            (ex_request "GET" "/proofs" "sk_ro" "") None (Some "acme"%string) _ ex_key);
    [reflexivity|vm_compute; reflexivity| |apply (ex_forwarded "GET"); apply list_elem_of_here].
  intros g Hg. repeat (apply elem_of_cons in Hg as [->|Hg]; [reflexivity|]). by apply elem_of_nil in Hg.
Defined.

Definition ex_post : Request := ex_request "POST" "/proofs" "" "k1".

Definition ex_answer : bytes := [Byte.x7b; Byte.x7d].
Definition ex_stored : idempotencyStore := idem_finish ∅ 0 [] ex_post 201 "application/json" ex_answer.


Lemma idem_bounded_witness :
  idem_inv {| store := ex_stored; running := []; clock := 0 |}.
Proof.
  apply idem_bounded. exists 0. eapply rtc_l; [apply (step_begin (idem_init 0) 0 ex_post); done|].
  apply rtc_once. pose proof (step_finish {| store := ∅; running := [ex_post]; clock := 0 |} 0 [] [] ex_post []
    201 "application/json" ex_answer (Z.le_refl 0) eq_refl) as H.
  apply H. cbn [store]. rewrite map_to_list_empty. done.
Defined.

(** Two requests with one key that both begin before either has finished both
    reach the handler. *)
Lemma idem_race :
  let st := idem_init 0 in
  snd (idem_begin (store st) 1 ex_post) = None ∧ snd (idem_begin (fst (idem_begin (store st) 1 ex_post)) 2 ex_post) = None.
Proof. split; vm_compute; reflexivity. Qed.

(** With a shared key set, a scoped key is refused before its scopes are looked
    at, unless it is the shared key itself. *)
Lemma scoped_key_refused apiKey now r :
  apiKey ≠ ""%string → read_only r = false → APIKey r ≠ apiKey →
  authMiddleware None apiKey now r = (None, Err (401, "missing or invalid X-API-Key"%string)).
Proof.
  intros H1 H2 H3. unfold authMiddleware, auth_legacy. rewrite H2, !bool_decide_false by done.
  rewrite (bool_decide_false (APIKey r = apiKey)) by done. by rewrite andb_false_r.
Qed.

(** The wildcard of a resource does not cover the bare resource. *)
Lemma wildcard_not_bare : hasScope ["verify:*"%string] "verify" = false.
Proof. reflexivity. Qed.

(** Routes without an entry ask for no scope. *)
Lemma unscoped_routes :
  Forall (λ p, required_scope p = ""%string)
    ["POST /verify/batch"; "POST /inference/judge"; "POST /decisions/log"; "POST /zk/verify-groth16-sim";
     "POST /zk/batch-verify-sim"; "POST /admin/tenants"]%string.
Proof. repeat constructor. Qed.
