(* ===== verification/Llm.v ===== *)
(** * The model runner ([engine/internal/llm])

    Provider errors ([errors.go]), the key ring with cool-down ([keys.go]), the
    fixture provider ([fixture.go]), configuration ([config.go], [types.go]) and
    the runner ([runner.go]): [Complete] with its three steps and [Poll].

    A provider's call is an [exchange]: its latency and its answer or error. The
    exchanges of a run are arguments: those of the parallel step in the order in
    which they arrive, the others by position. Environment variables are the
    argument [getenv]. *)

From S2P Require Import Prelude GoLib Json.

Local Open Scope Z_scope.

(** ** Errors ([errors.go]) *)

Record ProviderError := {
  EProvider : string; StatusCode : Z; Retryable : bool; EBody : string; Cause : option string;
}.

(** [ProviderError.Error]. *)
Definition provider_error_text (e : ProviderError) : string :=
  match Cause e with
  | Some c => if StatusCode e =? 0 then (EProvider e +:+ ": " +:+ c)%string
              else if 0 <? StatusCode e
                   then (EProvider e +:+ ": http " +:+ itoa (StatusCode e)
                         +:+ (if bool_decide (EBody e = ""%string) then "" else ": " +:+ EBody e))%string
                   else (EProvider e +:+ ": unknown error")%string
  | None => if 0 <? StatusCode e
            then (EProvider e +:+ ": http " +:+ itoa (StatusCode e)
                  +:+ (if bool_decide (EBody e = ""%string) then "" else ": " +:+ EBody e))%string
            else (EProvider e +:+ ": unknown error")%string
  end.

(** An error of a call: a [*ProviderError] or another one. *)
Inductive CallError := PErr (e : ProviderError) | OtherErr (msg : string).

Definition error_text (e : CallError) : string :=
  match e with PErr p => provider_error_text p | OtherErr m => m end.

Definition IsRetryable (err : option CallError) : bool :=
  match err with None => false | Some (PErr p) => Retryable p | Some (OtherErr _) => true end.

Definition isRateLimitStatus (code : Z) : bool := (code =? 429) || (code =? 402).
Definition isAuthFailure (code : Z) : bool := (code =? 401) || (code =? 403).

(** Seconds only, at most 300. *)
Definition parseRetryAfter (v : string) : Z :=
  let v := trim_space v in
  if bool_decide (v = ""%string) then 0
  else match atoi v with
       | None => 0
       | Some secs => if secs <=? 0 then 0 else (if 300 <? secs then 300 else secs) * second
       end.

Definition truncateBody (raw : bytes) : string :=
  let s := string_of raw in
  if (String.length s <=? 512)%nat then s else (String.substring 0 512 s +:+ "...(truncated)")%string.

(** ** The key ring ([keys.go]) *)

Record KeyRing := { keys : list string; next : Z; cooldown : Z; restingUntil : list time }.

Inductive RingError := ErrAllKeysCooling | ErrNoKeys.

Definition NewKeyRing (ks : list string) (cd : Z) : KeyRing :=
  let filtered := List.filter (λ k, negb (bool_decide (k = ""%string))) ks in
  {| keys := filtered; next := 0; cooldown := cd; restingUntil := replicate (length filtered) time_zero |}.

Definition Len (r : KeyRing) : nat := length (keys r).

Definition with_next (r : KeyRing) (n : Z) : KeyRing :=
  {| keys := keys r; next := n; cooldown := cooldown r; restingUntil := restingUntil r |}.

Definition eligible (now : time) (rest : time) : bool := (rest =? time_zero) || (rest <? now).

(** The walk over the slots; the cursor is an unsigned 64-bit integer, the index
    is computed in signed ones. [None]: the index is out of range (a panic). *)
Fixpoint next_loop (fuel : nat) (r : KeyRing) (now : time)
    : option (KeyRing * result RingError (string * Z)) :=
  match fuel with
  | O => Some (r, Err ErrAllKeysCooling)
  | S fuel =>
      let c := (next r + 1) mod 2 ^ 64 in
      let r := with_next r c in
      let idx := Z.rem (wrap64 ((c - 1) mod 2 ^ 64)) (Z.of_nat (Len r)) in
      if idx <? 0 then None
      else match restingUntil r !! Z.to_nat idx, keys r !! Z.to_nat idx with
           | Some rest, Some k => if eligible now rest then Some (r, Ok (k, idx)) else next_loop fuel r now
           | _, _ => None
           end
  end.

Definition Next (r : KeyRing) (now : time) : option (KeyRing * result RingError (string * Z)) :=
  if (Len r =? 0)%nat then Some (r, Err ErrNoKeys) else next_loop (Len r) r now.

Definition Rest (r : KeyRing) (now : time) (index : Z) : KeyRing :=
  if (cooldown r =? 0) || (index <? 0) || (Z.of_nat (length (restingUntil r)) <=? index) then r
  else {| keys := keys r; next := next r; cooldown := cooldown r;
          restingUntil := <[Z.to_nat index := now + cooldown r]> (restingUntil r) |}.

(** [KeyStatus]: resting, and until when. *)
Definition HealthSnapshot (r : KeyRing) (now : time) : list (bool * time) :=
  (λ rest, let resting := negb (rest =? time_zero) && (now <? rest) in
           (resting, if resting then rest else time_zero)) <$> restingUntil r.

(** ** Requests, responses, providers ([types.go]) *)

Record Message := { Role : string; Content : string }.

Record Request := {
  Messages : list Message; ModelHint : string; MaxTokens : Z; Temperature : float64;
  JSONMode : bool; Seed : Z;
}.

Record Response := {
  RContent : string; RProvider : string; Model : string; KeyIndex : Z; LatencyMs : Z;
  PromptTokens : Z; CompletionTokens : Z; FinishReason : string; Fixture : bool; RawJSON : string;
}.

(** [Response.Canonical]; never fails. *)
Definition Canonical (r : Response) : option string :=
  marshal (JObj [("content"%string, JStr (RContent r)); ("provider"%string, JStr (RProvider r));
                 ("model"%string, JStr (Model r)); ("prompt_tokens"%string, JInt (PromptTokens r));
                 ("completion_tokens"%string, JInt (CompletionTokens r));
                 ("finish_reason"%string, JStr (FinishReason r)); ("fixture"%string, JBool (Fixture r))]).

Inductive Tier := TierFast | TierReliability.

Record Provider := { PID : string; PTier : Tier; KeyCount : Z }.

Record Config := {
  PerProviderTimeout : Z; TotalBudget : Z; EnableFixtureFallback : bool; FixtureContent : string;
  forceFixture : bool;
}.

Definition DefaultConfig : Config :=
  {| PerProviderTimeout := 3 * second; TotalBudget := 8 * second; EnableFixtureFallback := true;
     FixtureContent := ""; forceFixture := false |}.

(** ** The fixture ([fixture.go]) *)

Record FixtureProvider := { fid : string; table : gmap string string; canned : string; fmodel : string }.

Definition or_default (s d : string) : string := if bool_decide (s = ""%string) then d else s.

Definition NewFixtureProvider (id : string) (tbl : gmap string string) (can mod_ : string) : FixtureProvider :=
  {| fid := or_default id "fixture"; table := tbl;
     canned := or_default can "ABSTAIN: fixture fallback (no real provider available)";
     fmodel := or_default mod_ "fixture-v1" |}.

Definition newline : string := String (chr 10) EmptyString.

Definition fixtureKey (req : Request) : string :=
  string_concat ((λ m, (Role m +:+ ":" +:+ Content m +:+ newline)%string) <$> Messages req).

(** [ctx]: the reason why the context is done, if it is. *)
Definition fixture_complete (f : FixtureProvider) (ctx : option string) (req : Request) : result CallError Response :=
  match ctx with
  | Some c => Err (PErr {| EProvider := fid f; StatusCode := 0; Retryable := false; EBody := ""; Cause := Some c |})
  | None =>
      let key := fixtureKey req in
      Ok {| RContent := default (canned f) (table f !! key); RProvider := fid f; Model := fmodel f; KeyIndex := 0;
            LatencyMs := 0; PromptTokens := 0; CompletionTokens := 0; FinishReason := "stop"; Fixture := true;
            RawJSON := default ""%string
              (marshal (JObj [("key"%string, JStr key); ("model"%string, JStr (fmodel f));
                              ("provider"%string, JStr (fid f))])) |}
  end.

(** [SortedTableKeys] *)
Definition SortedTableKeys (f : FixtureProvider) : list string :=
  sort_slice string_ltb (fst <$> map_to_list (table f)).

(** ** Configuration ([config.go]) *)

Record EnvSpec := { ProviderID : string; STier : Tier; KeyEnvs : list string; InlineListEnv : string }.

Definition DefaultEnvSpecs : list EnvSpec :=
  [ {| ProviderID := "groq"; STier := TierFast; KeyEnvs := ["GROQ_API_KEY"; "GROQ2_API_KEY"];
       InlineListEnv := "GROQ_API_KEYS" |};
    {| ProviderID := "nvidia"; STier := TierFast; KeyEnvs := ["NVIDIA_API_KEY"];
       InlineListEnv := "NVIDIA_API_KEYS" |};
    {| ProviderID := "openrouter"; STier := TierReliability;
       KeyEnvs := ["OPENROUTER_API_KEY"; "OPENROUTER2_API_KEY"]; InlineListEnv := "OPENROUTER_API_KEYS" |};
    {| ProviderID := "zai"; STier := TierFast; KeyEnvs := ["ZAI_API_KEY"; "ZAI2_API_KEY"];
       InlineListEnv := "ZAI_API_KEYS" |};
    {| ProviderID := "gemini"; STier := TierReliability; KeyEnvs := ["GEMINI_API_KEY"];
       InlineListEnv := "GEMINI_API_KEYS" |} ]%string.

(** [add]: trimmed, not empty, not seen before. *)
Definition add_key (out : list string) (k : string) : list string :=
  let k := trim_space k in
  if bool_decide (k = ""%string) || bool_decide (k ∈ out) then out else out ++ [k].

Section config.
Context (getenv : string → string).

Definition LoadKeys (s : EnvSpec) : list string :=
  let out := foldl add_key [] (getenv <$> KeyEnvs s) in
  if bool_decide (InlineListEnv s = ""%string) then out
  else
    let raw := getenv (InlineListEnv s) in
    if bool_decide (raw = ""%string) then out else foldl add_key out (split_on (chr 44) raw).

(** A positive number of milliseconds, or the default. *)
Definition env_ms (name : string) (d : Z) : Z :=
  match atoi (getenv name) with Some ms => if 0 <? ms then wrap64 (ms * 1000000) else d | None => d end.

Definition LoadConfig : Config :=
  let budget := env_ms "LLM_TOTAL_BUDGET_MS" (TotalBudget DefaultConfig) in
  let per := env_ms "LLM_PROVIDER_TIMEOUT_MS" (PerProviderTimeout DefaultConfig) in
  let v := trim_space (getenv "LLM_FIXTURE_MODE") in
  {| PerProviderTimeout := if budget <? per then budget else per; TotalBudget := budget;
     EnableFixtureFallback := true; FixtureContent := "";
     forceFixture := bool_decide (v = "1"%string) || bool_decide (to_lower v = "true"%string) |}.

End config.

(** ** The runner ([runner.go]) *)

Record Runner := {
  fast : list Provider; reliability : list Provider; fixture : option FixtureProvider; cfg : Config;
}.

Definition positive_or (d v : Z) : Z := if v <=? 0 then d else v.

Definition runner_config (c : Config) : Config :=
  let per := positive_or (PerProviderTimeout DefaultConfig) (PerProviderTimeout c) in
  let total := positive_or (TotalBudget DefaultConfig) (TotalBudget c) in
  {| PerProviderTimeout := if total <? per then total else per; TotalBudget := total;
     EnableFixtureFallback := EnableFixtureFallback c; FixtureContent := FixtureContent c;
     forceFixture := forceFixture c |}.

Definition by_id (a b : Provider) : bool := string_ltb (PID a) (PID b).

Definition is_fast (p : Provider) : bool := match PTier p with TierFast => true | TierReliability => false end.

(** A nil provider and one without keys are dropped. *)
Definition usable (ps : list (option Provider)) : list Provider :=
  List.filter (λ p, negb (KeyCount p =? 0)) (omap id ps).

Definition NewRunner (ps : list (option Provider)) (fx : option FixtureProvider) (c : Config) : Runner :=
  {| fast := sort_slice by_id (List.filter is_fast (usable ps));
     reliability := sort_slice by_id (List.filter (λ p, negb (is_fast p)) (usable ps));
     fixture := fx; cfg := runner_config c |}.

Record providerAttempt := {
  AProvider : string; ALatencyMs : Z; Success : bool; AErr : string; ARetryable : bool; AStatus : Z; AKeyIndex : Z;
}.

Record RunReport := {
  Winner : string; RFixture : bool; Attempts : list providerAttempt; TotalLatencyMs : Z; FastFanOutSize : Z;
}.

(** What one call of a provider took and gave. *)
Record exchange := { x_latency : Z; x_result : result CallError Response }.

Definition callOne (p : Provider) (x : exchange) : option Response * providerAttempt :=
  match x_result x with
  | Err e =>
      (None, {| AProvider := PID p; ALatencyMs := x_latency x; Success := false; AErr := error_text e;
                ARetryable := match e with PErr pe => Retryable pe | _ => false end;
                AStatus := match e with PErr pe => StatusCode pe | _ => 0 end; AKeyIndex := 0 |})
  | Ok resp =>
      (Some resp, {| AProvider := PID p; ALatencyMs := x_latency x; Success := true; AErr := "";
                     ARetryable := false; AStatus := 0; AKeyIndex := KeyIndex resp |})
  end.

(** The collector: the calls in their order of arrival; the first response wins,
    the others only leave their attempts. *)
Fixpoint collect (arrivals : list (Provider * exchange)) (attempts : list providerAttempt)
    : option Response * list providerAttempt :=
  match arrivals with
  | [] => (None, attempts)
  | (p, x) :: rest =>
      let '(resp, att) := callOne p x in
      let attempts := attempts ++ [att] in
      match resp with
      | Some r => (Some r, attempts ++ ((λ px, snd (callOne (fst px) (snd px))) <$> rest))
      | None => collect rest attempts
      end
  end.

Definition fanOutFast (arrivals : list (Provider * exchange)) : option Response * list providerAttempt :=
  collect arrivals [].

(** The fallback, one after the other; each with its exchange and whether the
    budget is exhausted after it. *)
Fixpoint fall_back (calls : list (Provider * exchange * bool)) (attempts : list providerAttempt)
    : option Response * list providerAttempt :=
  match calls with
  | [] => (None, attempts)
  | (p, x, expired) :: rest =>
      let '(resp, att) := callOne p x in
      let attempts := attempts ++ [att] in
      match resp with
      | Some r => (Some r, attempts)
      | None => if expired : bool then (None, attempts) else fall_back rest attempts
      end
  end.

Definition fixture_attempt (r : Response) : providerAttempt :=
  {| AProvider := RProvider r; ALatencyMs := 0; Success := true; AErr := ""; ARetryable := false; AStatus := 0;
     AKeyIndex := 0 |}.

(** The surroundings of one run. *)
Record surroundings := {
  ctx_forced : option string;                       (* the context when the fixture is forced *)
  arrivals : list (Provider * exchange);            (* of the fast tier, in their order of arrival *)
  fallbacks : list (Provider * exchange * bool);    (* of the reliability tier, in order *)
  ctx_fixture : option string;                      (* the fresh context of the last resort *)
  total_ms : Z;
}.

Definition report (r : Runner) (w : surroundings) (winner : string) (fx : bool) (atts : list providerAttempt) : RunReport :=
  {| Winner := winner; RFixture := fx; Attempts := atts; TotalLatencyMs := total_ms w;
     FastFanOutSize := Z.of_nat (length (fast r)) |}.

Inductive RunError := ErrAllProvidersFailed | ErrFixture (e : CallError).

Definition serve_fixture (r : Runner) (w : surroundings) (atts : list providerAttempt) (resp : Response)
    : result RunError Response * RunReport :=
  (Ok resp, report r w (RProvider resp) true (atts ++ [fixture_attempt resp])).

Definition forced (r : Runner) : option FixtureProvider :=
  if forceFixture (cfg r) then fixture r else None.

Definition last_resort (r : Runner) : option FixtureProvider :=
  if EnableFixtureFallback (cfg r) then fixture r else None.

Definition Complete (r : Runner) (w : surroundings) (req : Request) : result RunError Response * RunReport :=
  match forced r with
  | Some f =>
      match fixture_complete f (ctx_forced w) req with
      | Ok resp => serve_fixture r w [] resp
      | Err e => (Err (ErrFixture e), report r w "" false [])
      end
  | None =>
      let '(resp, atts) := fanOutFast (arrivals w) in
      match resp with
      | Some resp => (Ok resp, report r w (RProvider resp) false atts)
      | None =>
          let '(resp, atts) := fall_back (fallbacks w) atts in
          match resp with
          | Some resp => (Ok resp, report r w (RProvider resp) false atts)
          | None =>
              match last_resort r with
              | Some f =>
                  match fixture_complete f (ctx_fixture w) req with
                  | Ok resp => serve_fixture r w atts resp
                  | Err _ => (Err ErrAllProvidersFailed, report r w "" false atts)
                  end
              | None => (Err ErrAllProvidersFailed, report r w "" false atts)
              end
          end
      end
  end.

(** The surroundings of a run of [r]: every fast provider arrives once, the
    reliability tier is asked in order. *)
Definition fits (r : Runner) (w : surroundings) : Prop :=
  fst <$> arrivals w ≡ₚ fast r ∧ (fst ∘ fst) <$> fallbacks w = reliability r.

Record PollResult := { PollProvider : string; Resp : option Response; Attempt : providerAttempt }.

Definition poll_one (px : Provider * exchange) : PollResult :=
  let '(resp, att) := callOne (fst px) (snd px) in {| PollProvider := PID (fst px); Resp := resp; Attempt := att |}.

Definition all_providers (r : Runner) : list Provider := fast r ++ reliability r.

Definition poll_fixture (f : FixtureProvider) (ctx : option string) (req : Request) : PollResult :=
  let att (ok : bool) (e : string) :=
    {| AProvider := fid f; ALatencyMs := 0; Success := ok; AErr := e; ARetryable := false; AStatus := 0;
       AKeyIndex := 0 |} in
  match fixture_complete f ctx req with
  | Ok resp => {| PollProvider := fid f; Resp := Some resp; Attempt := att true ""%string |}
  | Err e => {| PollProvider := fid f; Resp := None; Attempt := att false (error_text e) |}
  end.

Definition answered (p : PollResult) : bool := match Resp p with Some _ => true | None => false end.

(** [xs]: the exchanges of [all_providers] by position; the results are stored by
    position too, so the order of completion does not show. *)
Definition Poll (r : Runner) (ctx1 ctx2 : option string) (xs : list exchange) (req : Request) : list PollResult :=
  match forced r with
  | Some f => [poll_fixture f ctx1 req]
  | None =>
      let results := poll_one <$> zip (all_providers r) xs in
      let liveCount := count answered results in
      match last_resort r with
      | Some f => if liveCount =? 0 then results ++ [poll_fixture f ctx2 req] else results
      | None => results
      end
  end.

(** ** The key ring never hands out a resting key *)

Definition ring_ok (r : KeyRing) : Prop := length (restingUntil r) = length (keys r).

(** The slots in the order in which the walk visits them. *)
Definition slot (r : KeyRing) (c : Z) (j : nat) : nat := Z.to_nat ((c + Z.of_nat j) mod Z.of_nat (Len r)).

Lemma next_loop_spec fuel r now c :
  ring_ok r → (0 < Len r)%nat → next r = c → 0 <= c → c + Z.of_nat fuel < 2 ^ 63 →
  (∃ j rest k, (j < fuel)%nat
     ∧ next_loop fuel r now = Some (with_next r (c + Z.of_nat j + 1), Ok (k, Z.of_nat (slot r c j)))
     ∧ restingUntil r !! slot r c j = Some rest ∧ eligible now rest = true ∧ keys r !! slot r c j = Some k
     ∧ ∀ i rest', (i < j)%nat → restingUntil r !! slot r c i = Some rest' → eligible now rest' = false)
  ∨ (next_loop fuel r now = Some (with_next r (c + Z.of_nat fuel), Err ErrAllKeysCooling)
     ∧ ∀ i rest', (i < fuel)%nat → restingUntil r !! slot r c i = Some rest' → eligible now rest' = false).
Proof.
  revert r c. induction fuel as [|fuel IH]; intros r c Hok Hlen Hc Hc0 Hb.
  { right. split; [|intros; lia]. cbn [next_loop]. rewrite Z.add_0_r, <- Hc. by destruct r. }
  cbn [next_loop]. rewrite Hc.
  rewrite (Z.mod_small (c + 1)) by lia. replace (c + 1 - 1) with c by lia.
  rewrite (Z.mod_small c) by lia. rewrite wrap64_id by (unfold int64_min, int64_max; lia).
  assert (Len (with_next r (c + 1)) = Len r) as -> by done.
  rewrite Z.rem_mod_nonneg by lia.
  pose proof (Z.mod_pos_bound c (Z.of_nat (Len r)) ltac:(lia)) as Hm.
  destruct (c mod Z.of_nat (Len r) <? 0) eqn:E; [bool_to_prop; lia|]. cbn [restingUntil keys with_next].
  assert (slot r c 0 = Z.to_nat (c mod Z.of_nat (Len r))) as Hslot by (unfold slot; f_equal; f_equal; lia).
  rewrite <- Hslot.
  destruct (lookup_lt_is_Some_2 (restingUntil r) (slot r c 0)) as [rest Hrest].
  { rewrite Hslot, Hok. unfold Len in *. lia. }
  destruct (lookup_lt_is_Some_2 (keys r) (slot r c 0)) as [k Hk].
  { rewrite Hslot. unfold Len in *. lia. }
  rewrite Hrest, Hk. destruct (eligible now rest) eqn:He.
  - left. exists 0%nat, rest, k. split_and!; try done; try lia.
    do 2 f_equal; [f_equal; lia|]. do 2 f_equal. rewrite Hslot. lia.
  - assert (∀ j, slot (with_next r (c + 1)) (c + 1) j = slot r c (S j)) as Hs.
    { intros j. unfold slot. f_equal. unfold Len. cbn [keys with_next]. f_equal. lia. }
    destruct (IH (with_next r (c + 1)) (c + 1) Hok Hlen eq_refl ltac:(lia) ltac:(lia))
      as [(j & rest' & k' & Hj & E' & H1 & H2 & H3 & H4)|[E' H4]].
    + left. exists (S j), rest', k'. rewrite Hs in *. split_and!; try done; try lia.
      * rewrite E'. cbn. do 3 f_equal. lia.
      * intros [|i] rest'' Hi; [congruence|]. intros Hr. eapply (H4 i); [lia|]. rewrite Hs. done.
    + right. split.
      * rewrite E'. cbn. do 3 f_equal. lia.
      * intros [|i] rest'' Hi; [congruence|]. intros Hr. eapply (H4 i); [lia|]. rewrite Hs. done.
Qed.

Definition ring_bounds (r : KeyRing) : Prop := 0 <= next r ∧ next r + Z.of_nat (Len r) < 2 ^ 63.

Lemma ring_ok_new ks cd : ring_ok (NewKeyRing ks cd).
Proof. unfold ring_ok, NewKeyRing. cbn. apply length_replicate. Qed.

Lemma ring_ok_rest r now i : ring_ok r → ring_ok (Rest r now i).
Proof. unfold ring_ok, Rest. intros H. destruct (_ || _); [done|]. cbn. by rewrite length_insert. Qed.

Lemma slot_range r c j : (0 < Len r)%nat → (slot r c j < Len r)%nat.
Proof. intros H. unfold slot. pose proof (Z.mod_pos_bound (c + Z.of_nat j) (Z.of_nat (Len r))). lia. Qed.

(** Every slot is visited by a full walk. *)
Lemma slot_surjective r c i : (i < Len r)%nat → ∃ j, (j < Len r)%nat ∧ slot r c j = i.
Proof.
  intros Hi. set (n := Z.of_nat (Len r)).
  pose proof (Z.mod_pos_bound (Z.of_nat i - c) n ltac:(lia)) as Hj.
  exists (Z.to_nat ((Z.of_nat i - c) mod n)). split; [lia|]. unfold slot. fold n.
  rewrite Z2Nat.id by lia. rewrite Z.add_mod_idemp_r by lia.
  replace (c + (Z.of_nat i - c)) with (Z.of_nat i) by lia. rewrite Z.mod_small by lia. lia.
Qed.

(** [Next] is total below the cursor's bound: it returns the first eligible key
    in the ring's order from the cursor, so never one that rests, and reports
    cooling exactly when every key rests. A key put to rest is not handed out
    before its cool-down has passed. *)
Theorem keyring_next r now :
  ring_ok r → (0 < Len r)%nat → ring_bounds r →
  (∃ r' k i, Next r now = Some (r', Ok (k, Z.of_nat i)) ∧ keys r !! i = Some k
     ∧ (∃ rest, restingUntil r !! i = Some rest ∧ eligible now rest = true)
     ∧ (∃ j, i = slot r (next r) j ∧ next r' = next r + Z.of_nat j + 1
             ∧ ∀ j' rest, (j' < j)%nat → restingUntil r !! slot r (next r) j' = Some rest → eligible now rest = false)
     ∧ ∀ t, r = Rest r t (Z.of_nat i) → cooldown r = 0 ∨ now > t + cooldown r ∨ t + cooldown r = time_zero)
  ∨ (∃ r', Next r now = Some (r', Err ErrAllKeysCooling)
     ∧ ∀ i rest, restingUntil r !! i = Some rest → eligible now rest = false).
Proof.
  intros Hok Hlen [Hb1 Hb2]. unfold Next. destruct (Len r =? 0)%nat eqn:E; [apply Nat.eqb_eq in E; lia|].
  destruct (next_loop_spec (Len r) r now (next r) Hok Hlen eq_refl Hb1 Hb2)
    as [(j & rest & k & Hj & E' & H1 & H2 & H3 & H4)|[E' H4]].
  - left. exists (with_next r (next r + Z.of_nat j + 1)), k, (slot r (next r) j). split_and!; try done; eauto 6.
    intros t Ht. pose proof (slot_range r (next r) j Hlen) as Hs. unfold Rest in Ht.
    destruct (_ || _) eqn:Eo.
    + bool_to_prop. rewrite !orb_true_iff in Eo. unfold ring_ok, Len in *. rewrite Hok in Eo.
      destruct Eo as [[Eo|Eo]|Eo]; bool_to_prop; [by left|lia|lia].
    + right. rewrite Ht in H1. cbn in H1. rewrite Nat2Z.id in H1.
      rewrite list_lookup_insert_eq in H1 by (unfold ring_ok, Len in *; lia).
      injection H1 as <-. unfold eligible in H2. apply orb_prop in H2 as [H2|H2]; bool_to_prop; lia.
  - right. eexists. split; [exact E'|]. intros i rest Hi.
    destruct (slot_surjective r (next r) i) as (j & Hj & <-); [|by eapply H4].
    apply lookup_lt_Some in Hi. unfold ring_ok, Len in *. lia.
Qed.

(** ** Which answer [Complete] returns *)

Definition answers (x : exchange) : bool := is_ok (x_result x).
Definition attempt_of (px : Provider * exchange) : providerAttempt := snd (callOne (fst px) (snd px)).

(** The first answer of a list of calls. *)
Definition first_answer (l : list (Provider * exchange)) (resp : Response) : Prop :=
  ∃ l1 p x l2, l = l1 ++ (p, x) :: l2 ∧ x_result x = Ok resp ∧ Forall (λ px, answers (snd px) = false) l1.
Definition no_answer (l : list (Provider * exchange)) : Prop := Forall (λ px, answers (snd px) = false) l.

(** The calls of the fallback that are made. *)
Fixpoint asked (calls : list (Provider * exchange * bool)) : list (Provider * exchange) :=
  match calls with
  | [] => []
  | (p, x, expired) :: rest => (p, x) :: (if answers x || expired then [] else asked rest)
  end.

Definition picks (l : list (Provider * exchange)) (o : option Response) : Prop :=
  match o with Some resp => first_answer l resp | None => no_answer l end.

Lemma picks_here p x resp l : x_result x = Ok resp → picks ((p, x) :: l) (Some resp).
Proof. intros H. exists [], p, x, l. done. Qed.

Lemma picks_later p x l o : answers x = false → picks l o → picks ((p, x) :: l) o.
Proof.
  intros Hx. destruct o as [resp|]; cbn.
  - intros (l1 & q & y & l2 & -> & Hy & Hl). exists ((p, x) :: l1), q, y, l2. split_and!; [done..|]. by constructor.
  - intros Hl. by constructor.
Qed.

Lemma callOne_eq p x :
  callOne p x = (match x_result x with Ok resp => Some resp | Err _ => None end, attempt_of (p, x)).
Proof. unfold attempt_of, callOne. cbn [fst snd]. by destruct (x_result x). Qed.

Lemma collect_spec l atts :
  snd (collect l atts) = atts ++ (attempt_of <$> l) ∧ picks l (fst (collect l atts)).
Proof.
  revert atts. induction l as [|[p x] l IH]; intros atts; cbn [collect].
  { split; [by rewrite app_nil_r | constructor]. }
  rewrite callOne_eq. destruct (x_result x) as [resp|e] eqn:E; cbn [fst snd].
  - split; [|by apply picks_here]. by rewrite <- app_assoc.
  - destruct (IH (atts ++ [attempt_of (p, x)])) as [H1 H2].
    split; [|apply picks_later; [unfold answers; by rewrite E|done]]. by rewrite H1, <- app_assoc.
Qed.

Lemma fall_back_spec l atts :
  snd (fall_back l atts) = atts ++ (attempt_of <$> asked l) ∧ picks (asked l) (fst (fall_back l atts)).
Proof.
  revert atts. induction l as [|[[p x] expired] l IH]; intros atts; cbn [fall_back asked].
  { split; [by rewrite app_nil_r | constructor]. }
  rewrite callOne_eq. unfold answers. destruct (x_result x) as [resp|e] eqn:E; cbn [fst snd is_ok orb].
  - split; [done|by apply picks_here].
  - assert (answers x = false) as Hx by (unfold answers; by rewrite E). destruct expired.
    + split; [done|]. apply picks_later; [done|constructor].
    + edestruct IH as [H1 H2]. split; [|apply picks_later; [done|exact H2]]. by rewrite H1, <- app_assoc.
Qed.

Lemma no_answer_existsb l : no_answer l → existsb (λ px : Provider * exchange, answers (snd px)) l = false.
Proof. induction 1 as [|px l Hx _ IH]; cbn; [done|]. by rewrite Hx. Qed.

Lemma first_answer_existsb l resp : first_answer l resp → existsb (λ px : Provider * exchange, answers (snd px)) l = true.
Proof.
  intros (l1 & p & x & l2 & -> & Hx & _). rewrite existsb_app. cbn. unfold answers at 2. rewrite Hx. cbn.
  by rewrite orb_true_r.
Qed.


(** [Poll] asks every provider once; the fixture joins in exactly when nobody
    answered and it is enabled. *)
Lemma Poll_results r ctx1 ctx2 xs req :
  forced r = None → length xs = length (all_providers r) →
  Poll r ctx1 ctx2 xs req
  = (poll_one <$> zip (all_providers r) xs)
    ++ (if existsb answers xs then []
        else match last_resort r with Some f => [poll_fixture f ctx2 req] | None => [] end).
Proof.
  intros Hf Hlen. unfold Poll. rewrite Hf.
  assert (count answered (poll_one <$> zip (all_providers r) xs) =? 0 = negb (existsb answers xs)) as Hc.
  { revert Hlen. generalize (all_providers r). clear. intros ps. revert xs.
    induction ps as [|p ps IH]; intros [|x xs] Hlen; try done. cbn in Hlen. specialize (IH xs ltac:(lia)).
    cbn. rewrite count_cons. unfold poll_one at 1. rewrite callOne_eq. unfold answered at 1, answers at 1. cbn [Resp fst snd].
    pose proof (count_range answered (poll_one <$> zip ps xs)).
    destruct (x_result x); cbn [is_ok orb]; [cbn; lia|]. rewrite <- IH. cbn. lia. }
  rewrite Hc. by destruct (last_resort r), (existsb answers xs); cbn; rewrite ?app_nil_r.
Qed.

(** ** Samples *)

Definition ex_ring : KeyRing := Rest (NewKeyRing ["k1"; ""; "k2"]%string (10 * second)) 100 0.

Lemma keyring_next_witness :
  ring_ok ex_ring ∧ ring_bounds ex_ring
  ∧ Next ex_ring 200 = Some (with_next ex_ring 2, Ok ("k2"%string, 1))
  ∧ ∃ r' k i, Next ex_ring 200 = Some (r', Ok (k, Z.of_nat i)) ∧ keys ex_ring !! i = Some k.
Proof.
  assert (ring_ok ex_ring) as Hok by (apply ring_ok_rest, ring_ok_new).
  assert (ring_bounds ex_ring) as Hb by (split; vm_compute; done).
  split_and!; [exact Hok|exact Hb|vm_compute; reflexivity|].
  destruct (keyring_next ex_ring 200 Hok ltac:(vm_compute; lia) Hb) as [(r' & k & i & H1 & H2 & _)|(r' & H & _)].
  - exists r', k, i. split; [exact H1|exact H2].
  - exfalso. vm_compute in H. discriminate H.
Defined.

Definition ex_provider (id : string) (t : Tier) : Provider := {| PID := id; PTier := t; KeyCount := 1 |}.
Definition ex_answer (c : string) : Response :=
  {| RContent := c; RProvider := "zai"; Model := "m"; KeyIndex := 0; LatencyMs := 4; PromptTokens := 1; CompletionTokens := 1;
     FinishReason := "stop"; Fixture := false; RawJSON := "" |}.
Definition ex_runner : Runner :=
  NewRunner [Some (ex_provider "zai" TierFast); None; Some (ex_provider "groq" TierFast); Some (ex_provider "gemini" TierReliability)]
    (Some (NewFixtureProvider "" ∅ "" "")) DefaultConfig.
Definition ex_down : exchange := {| x_latency := 9; x_result := Err (OtherErr "down") |}.
Definition ex_world (zai : exchange) : surroundings :=
  {| ctx_forced := None; arrivals := [(ex_provider "groq" TierFast, ex_down); (ex_provider "zai" TierFast, zai)];
     fallbacks := [(ex_provider "gemini" TierReliability, ex_down, false)]; ctx_fixture := None; total_ms := 20 |}.
Definition ex_request : Request :=
  {| Messages := []; ModelHint := ""; MaxTokens := 0; Temperature := f_zero; JSONMode := false; Seed := 0 |}.


(** The provider timeout never exceeds the budget. *)
Lemma runner_config_bounds c :
  0 < PerProviderTimeout (runner_config c) <= TotalBudget (runner_config c).
Proof.
  assert (∀ d v, 0 < d → 0 < positive_or d v) as Hpos.
  { intros d v Hd. unfold positive_or. destruct (v <=? 0) eqn:E; bool_to_prop; lia. }
  pose proof (Hpos (PerProviderTimeout DefaultConfig) (PerProviderTimeout c) ltac:(done)) as Hp.
  pose proof (Hpos (TotalBudget DefaultConfig) (TotalBudget c) ltac:(done)) as Ht.
  unfold runner_config. cbn [PerProviderTimeout TotalBudget] in *.
  match goal with |- context [if ?b then _ else _] => destruct b eqn:E end; bool_to_prop; cbn in *; lia.
Qed.
