(* ===== verification/Judge.v ===== *)
(** * The facet judge ([engine/internal/judge])

    Votes of the providers on one facet, their aggregation and the verdict of a
    task ([facet_judge.go], [types.go]). The iteration order of the tally map is
    the argument [iter]; the poll of the runner ([Llm.v]) is the argument [poll],
    by the position of the facet. *)

From S2P Require Import Prelude GoLib Json Llm.

Local Open Scope Z_scope.

(** ** Data ([types.go]) *)

Record Facet := { FacetID : string; Prompt : string; AllowedValues : list string; Weight : float64 }.

Record Task := {
  TaskID : string; Input : string; SystemMsg : string; Facets : list Facet;
  MinProviders : Z; AgreementThreshold : float64;
}.

Inductive Verdict := VerdictAgree | VerdictDisagree | VerdictAbstain.
#[export] Instance Verdict_eq_decision : EqDecision Verdict.
Proof. solve_decision. Defined.

Definition verdict_string (v : Verdict) : string :=
  match v with VerdictAgree => "AGREE" | VerdictDisagree => "DISAGREE" | VerdictAbstain => "ABSTAIN" end.

Record ProviderVote := { VProvider : string; Value : string; Raw : string; Latency : Z; VErr : string }.

Record FacetResult := {
  RFacetID : string; FVerdict : Verdict; FWinner : string; Votes : list ProviderVote; LiveCount : Z;
  AgreementFraction : float64;
}.

Record TaskResult := {
  RTaskID : string; OverallVerdict : Verdict; RFacets : gmap string FacetResult; StartedAt : time; CompletedAt : time;
}.

(** ** Prompts ([facet_judge.go]) *)

Definition buildFacetMessages (sys user : string) : list Message :=
  [{| Role := "system"; Content := sys |}; {| Role := "user"; Content := user |}].

Definition buildFacetSystemPrompt (userSys : string) (f : Facet) : string :=
  ((if bool_decide (trim_space userSys = ""%string) then "" else userSys +:+ newline +:+ newline)
   +:+ "You are a strict classification oracle. "
   +:+ "You will be asked one question about the input. "
   +:+ "Reply with EXACTLY ONE of these values and nothing else: "
   +:+ string_join ", " (AllowedValues f) +:+ "." +:+ newline
   +:+ "Do not explain. Do not add punctuation. Do not repeat the question. "
   +:+ "If the input is ambiguous, still choose the single best-fit value.")%string.

Definition buildFacetUserPrompt (input : string) (f : Facet) : string :=
  ("Input:" +:+ newline +:+ input +:+ newline +:+ newline +:+ "Question: " +:+ Prompt f)%string.

Definition facet_request (t : Task) (f : Facet) : Request :=
  {| Messages := buildFacetMessages (buildFacetSystemPrompt (SystemMsg t) f) (buildFacetUserPrompt (Input t) f);
     ModelHint := ""; MaxTokens := 64; Temperature := f_zero; JSONMode := false; Seed := 0 |}.

(** Period, exclamation mark, question mark, both quotes and the backtick. *)
Definition vote_cut (c : Ascii.ascii) : bool := bool_decide (Ascii.N_of_ascii c ∈ [46; 33; 63; 34; 39; 96]%N).

Definition normalizeVote (raw : string) (allowed : list string) : string :=
  match allowed with
  | [] => trim_space raw
  | _ =>
      let stripped := to_lower (trim vote_cut (trim_space raw)) in
      match List.find (λ v, bool_decide (to_lower v = stripped)) allowed with
      | Some v => v
      | None =>
          let lowerRaw := (" " +:+ to_lower raw +:+ " ")%string in
          default ""%string (List.find (λ v, contains lowerRaw (" " +:+ to_lower v +:+ " ")) allowed)
      end
  end.

(** ** One facet *)

Definition millisecond : Z := 1000000.

Definition vote_of (f : Facet) (p : PollResult) : ProviderVote :=
  let lat := wrap64 (ALatencyMs (Attempt p) * millisecond) in
  match Resp p with
  | None => {| VProvider := PollProvider p; Value := ""; Raw := ""; Latency := lat;
               VErr := or_default (AErr (Attempt p)) "provider returned no response" |}
  | Some r => {| VProvider := PollProvider p; Value := normalizeVote (RContent r) (AllowedValues f);
                 Raw := RContent r; Latency := lat; VErr := "" |}
  end.

(** The tally of the non-empty values. *)
Definition tally_vote (m : gmap string Z) (v : ProviderVote) : gmap string Z :=
  if bool_decide (Value v = ""%string) then m else <[Value v := default 0 (m !! Value v) + 1]> m.
Definition tally (votes : list ProviderVote) : gmap string Z := foldl tally_vote ∅ votes.

(** The scan for the top value. *)
Definition top_step (acc : string * Z) (vc : string * Z) : string * Z :=
  if snd acc <? snd vc then vc else acc.
Definition top_of (order : list (string * Z)) : string * Z := foldl top_step (""%string, 0) order.

Definition fraction (n live : Z) : float64 := f_div (f_of_Z n) (f_of_Z live).

Section judge.
Context (iter : gmap string Z → list (string * Z)).

Definition decideFacet (f : Facet) (polls : list PollResult) (minProviders : Z) (threshold : float64) : FacetResult :=
  let votes := vote_of f <$> polls in
  let live := count answered polls in
  let fr v w frac := {| RFacetID := FacetID f; FVerdict := v; FWinner := w; Votes := votes; LiveCount := live;
                        AgreementFraction := frac |} in
  if live <? minProviders then fr VerdictAbstain ""%string f_zero
  else
    let '(top, topCount) := top_of (iter (tally votes)) in
    if topCount =? 0 then fr VerdictDisagree ""%string f_zero
    else
      let frac := fraction topCount live in
      if f_leb threshold frac then fr VerdictAgree top frac else fr VerdictDisagree ""%string frac.

(** DISAGREE dominates ABSTAIN dominates AGREE. *)
Definition aggregateOverall (facets : gmap string FacetResult) : Verdict :=
  let has v := existsb (λ kv : string * FacetResult, bool_decide (FVerdict (snd kv) = v)) (map_to_list facets) in
  if has VerdictDisagree then VerdictDisagree else if has VerdictAbstain then VerdictAbstain else VerdictAgree.

Inductive JudgeError := ErrNilTask | ErrZeroFacets | ErrNilRunner.

Definition default_min (n : Z) : Z := if n <=? 0 then 2 else n.
Definition default_threshold (t : float64) : float64 := if f_leb t f_zero then f_dec 66 2 else t.

Section decide.
Context (poll : nat → Request → list PollResult).

(** The facets in order; a result replaces an earlier one of the same identifier. *)
Fixpoint decide_loop (t : Task) (minP : Z) (thr : float64) (i : nat) (fs : list Facet)
    (m : gmap string FacetResult) : gmap string FacetResult :=
  match fs with
  | [] => m
  | f :: fs =>
      decide_loop t minP thr (S i) fs (<[FacetID f := decideFacet f (poll i (facet_request t f)) minP thr]> m)
  end.

Definition Decide (task : option Task) (runner : bool) (t0 t1 : time) : result JudgeError TaskResult :=
  match task with
  | None => Err ErrNilTask
  | Some t =>
      if (length (Facets t) =? 0)%nat then Err ErrZeroFacets
      else if negb runner then Err ErrNilRunner
      else
        let facets := decide_loop t (default_min (MinProviders t)) (default_threshold (AgreementThreshold t)) 0
                        (Facets t) ∅ in
        Ok {| RTaskID := TaskID t; OverallVerdict := aggregateOverall facets; RFacets := facets;
              StartedAt := t0; CompletedAt := t1 |}
  end.

End decide.
End judge.

(** The judge over a runner: the exchanges of the poll for each facet. *)
Definition DecideWith (iter : gmap string Z → list (string * Z)) (r : Runner)
    (xs : nat → list exchange) (t : Task) (t0 t1 : time) : result JudgeError TaskResult :=
  Decide iter (λ i req, Poll r None None (xs i) req) (Some t) true t0 t1.

(** ** Counting votes *)

(** The providers that answered [v]. *)
Definition votes_for (v : string) (votes : list ProviderVote) : Z := count (λ x, bool_decide (Value x = v)) votes.

Lemma tally_foldl votes m v :
  v ≠ ""%string → default 0 (foldl tally_vote m votes !! v) = default 0 (m !! v) + votes_for v votes.
Proof.
  intros Hv. unfold votes_for. revert m. induction votes as [|x votes IH]; intros m; cbn [foldl]; [rewrite count_nil; lia|].
  rewrite IH, count_cons. unfold tally_vote. destruct (decide (Value x = ""%string)) as [E|E].
  - rewrite (bool_decide_true (Value x = ""%string)) by done. rewrite (bool_decide_false (Value x = v)) by congruence. lia.
  - rewrite (bool_decide_false (Value x = ""%string)) by done. destruct (decide (Value x = v)) as [<-|Hne].
    + rewrite (bool_decide_true (Value x = Value x)) by done. rewrite lookup_insert_eq. cbn. lia.
    + rewrite (bool_decide_false (Value x = v)) by done. rewrite lookup_insert_ne by done. lia.
Qed.

Lemma tally_spec votes v : v ≠ ""%string → default 0 (tally votes !! v) = votes_for v votes.
Proof. intros Hv. unfold tally. rewrite tally_foldl by done. rewrite lookup_empty. cbn. lia. Qed.

Lemma tally_foldl_empty votes m : m !! ""%string = None → foldl tally_vote m votes !! ""%string = None.
Proof.
  revert m. induction votes as [|x votes IH]; intros m Hm; cbn [foldl]; [done|]. apply IH.
  unfold tally_vote. case_bool_decide; [done|]. by rewrite lookup_insert_ne.
Qed.

Lemma tally_nonempty votes v c : tally votes !! v = Some c → v ≠ ""%string ∧ c = votes_for v votes.
Proof.
  intros H. assert (v ≠ ""%string) as Hv.
  { intros ->. unfold tally in H. rewrite tally_foldl_empty in H; [done|apply lookup_empty]. }
  split; [done|]. rewrite <- tally_spec, H by done. done.
Qed.

(** An iteration order of a map. *)
Definition iter_ok (iter : gmap string Z → list (string * Z)) : Prop := ∀ m, iter m ≡ₚ map_to_list m.

Lemma top_of_spec order :
  let t := top_of order in
  (t = (""%string, 0) ∧ Forall (λ vc, snd vc <= 0) order)
  ∨ (t ∈ order ∧ 0 < snd t ∧ Forall (λ vc, snd vc <= snd t) order).
Proof.
  unfold top_of. cbn zeta. induction order as [|vc order IH] using rev_ind; [left; split; [done|constructor]|].
  rewrite foldl_app. cbn [foldl]. set (acc := foldl top_step _ order) in *. clearbody acc.
  rewrite !Forall_app, !Forall_singleton. unfold top_step. destruct (snd acc <? snd vc) eqn:E; bool_to_prop.
  - right. assert (0 <= snd acc) by (destruct IH as [[-> _]|(_ & ? & _)]; cbn; lia).
    split_and!; [set_solver|lia| |lia].
    destruct IH as [[-> Hall]|(_ & _ & Hall)]; (eapply Forall_impl; [exact Hall|]); cbn in *; intros; lia.
  - destruct IH as [[-> Hall]|(Hin & Hpos & Hall)]; [left|right]; split_and!; try done. set_solver.
Qed.

(** The top of the tally is a value with the most votes. *)
Lemma top_tally iter votes top n :
  iter_ok iter → top_of (iter (tally votes)) = (top, n) →
  0 <= n ∧ (∀ v, v ≠ ""%string → votes_for v votes <= n)
  ∧ (0 < n → top ≠ ""%string ∧ votes_for top votes = n).
Proof.
  intros Hi E. pose proof (top_of_spec (iter (tally votes))) as H. rewrite E in H. cbn in H.
  assert (∀ (k : Z), 0 <= k → Forall (λ vc : string * Z, snd vc <= k) (iter (tally votes)) → ∀ v, v ≠ ""%string → votes_for v votes <= k) as Hle.
  { intros k Hk Hall v Hv. rewrite <- tally_spec by done. destruct (tally votes !! v) as [c|] eqn:Ev; [|done].
    rewrite Forall_forall in Hall. apply (Hall (v, c)). rewrite (Hi (tally votes)). by apply elem_of_map_to_list. }
  destruct H as [[[= -> ->] Hall]|(Hin & Hpos & Hall)]; [split_and!; [done|by apply Hle|done]|].
  split_and!; [lia|apply Hle; [lia|done]|]. intros _.
  rewrite (Hi (tally votes)), elem_of_map_to_list in Hin. apply tally_nonempty in Hin as [? ->]. done.
Qed.

Lemma answered_value f p : Value (vote_of f p) ≠ ""%string → answered p = true.
Proof. unfold vote_of, answered. by destruct (Resp p). Qed.

(** Votes for different values come from different live providers. *)
Lemma votes_two f polls v w :
  v ≠ ""%string → w ≠ ""%string → v ≠ w →
  votes_for v (vote_of f <$> polls) + votes_for w (vote_of f <$> polls) <= count answered polls.
Proof.
  intros Hv Hw Hne. unfold votes_for. induction polls as [|p polls IH]; [vm_compute; done|].
  rewrite fmap_cons, !count_cons. pose proof (answered_value f p) as Ha.
  destruct (decide (Value (vote_of f p) = v)) as [E|E].
  - rewrite (bool_decide_true (_ = v)) by done. rewrite (bool_decide_false (_ = w)) by congruence.
    rewrite Ha by congruence. lia.
  - rewrite (bool_decide_false (_ = v)) by done. destruct (decide (Value (vote_of f p) = w)) as [E'|E'].
    + rewrite (bool_decide_true (_ = w)) by done. rewrite Ha by congruence. lia.
    + rewrite (bool_decide_false (_ = w)) by done. destruct (answered p); lia.
Qed.

Lemma votes_live f polls v : v ≠ ""%string → votes_for v (vote_of f <$> polls) <= count answered polls.
Proof.
  intros Hv. unfold votes_for. induction polls as [|p polls IH]; [vm_compute; done|].
  rewrite fmap_cons, !count_cons. pose proof (answered_value f p) as Ha.
  destruct (decide (Value (vote_of f p) = v)) as [E|E].
  - rewrite (bool_decide_true (_ = v)) by done. rewrite Ha by congruence. lia.
  - rewrite (bool_decide_false (_ = v)) by done. destruct (answered p); lia.
Qed.

(** ** Fractions *)

Definition half : float64 := f_dec 5 1.

(** Up to 64 providers: at most half of the votes is at most one half. *)
Definition half_ok (live c : nat) : bool :=
  if (2 * c <=? live)%nat then f_leb (fraction (Z.of_nat c) (Z.of_nat live)) half else true.

Lemma half_table : forallb (λ live, forallb (half_ok live) (seq 0 33)) (seq 1 64) = true.
Proof. vm_compute. reflexivity. Qed.

Lemma fraction_half c live : 0 <= c → 2 * c <= live → 0 < live <= 64 → f_leb (fraction c live) half = true.
Proof.
  intros Hc H1 H2. pose proof half_table as Ht. rewrite forallb_forall in Ht.
  specialize (Ht (Z.to_nat live)). rewrite in_seq in Ht. specialize (Ht ltac:(lia)).
  rewrite forallb_forall in Ht. specialize (Ht (Z.to_nat c)). rewrite in_seq in Ht. specialize (Ht ltac:(lia)).
  unfold half_ok in Ht. rewrite !Z2Nat.id in Ht by lia.
  destruct (_ <=? _)%nat eqn:E; [done|]. apply Nat.leb_gt in E. lia.
Qed.

(** A threshold above one half is met by majorities only. *)
Lemma threshold_majority thr c live :
  f_ltb half thr = true → f_leb thr (fraction c live) = true → 0 <= c → 0 < live <= 64 → live < 2 * c.
Proof.
  intros Ht Hc H0 Hl. destruct (Z.lt_ge_cases live (2 * c)) as [|H]; [done|exfalso].
  pose proof (fraction_half c live H0 H Hl) as Hh.
  pose proof (f_ltb_nan _ _ Ht) as [_ Hn1]. pose proof (f_leb_nan _ _ Hc) as [_ Hn2].
  assert (is_nan half = false) as Hn3 by reflexivity.
  rewrite f_ltb_key in Ht by done. rewrite f_leb_key in Hc by done. rewrite f_leb_key in Hh by done.
  apply Hh. destruct (key_lt_neg (float_key (fraction c live)) (float_key thr)) as [Hk _].
  destruct (Hk Hc) as [Hk'|Hk']; [by eapply key_lt_trans|by rewrite Hk'].
Qed.

(** ** The verdict on a facet *)

(** What a facet result says, whatever the iteration order of the tally. *)
Definition facet_spec (f : Facet) (polls : list PollResult) (minP : Z) (thr : float64) (fr : FacetResult) : Prop :=
  let votes := vote_of f <$> polls in
  RFacetID fr = FacetID f ∧ Votes fr = votes ∧ LiveCount fr = count answered polls
  ∧ match FVerdict fr with
    | VerdictAbstain => LiveCount fr < minP ∧ FWinner fr = ""%string ∧ AgreementFraction fr = f_zero
    | VerdictAgree =>
        minP <= LiveCount fr ∧ FWinner fr ≠ ""%string ∧ 0 < votes_for (FWinner fr) votes
        ∧ (∀ v, v ≠ ""%string → votes_for v votes <= votes_for (FWinner fr) votes)
        ∧ AgreementFraction fr = fraction (votes_for (FWinner fr) votes) (LiveCount fr)
        ∧ f_leb thr (AgreementFraction fr) = true
        ∧ (f_ltb half thr = true → LiveCount fr <= 64 → LiveCount fr < 2 * votes_for (FWinner fr) votes)
    | VerdictDisagree =>
        minP <= LiveCount fr ∧ FWinner fr = ""%string
        ∧ ∀ v, v ≠ ""%string → 0 < votes_for v votes → (∀ w, w ≠ ""%string → votes_for w votes <= votes_for v votes) →
            f_leb thr (fraction (votes_for v votes) (LiveCount fr)) = false
    end.

Lemma decideFacet_spec iter f polls minP thr :
  iter_ok iter → facet_spec f polls minP thr (decideFacet iter f polls minP thr).
Proof.
  intros Hi. unfold facet_spec, decideFacet. cbn zeta.
  destruct (_ <? minP) eqn:Hmin; bool_to_prop; [cbn; split_and!; done|].
  destruct (top_of _) as [top n] eqn:Ht. destruct (top_tally _ _ _ _ Hi Ht) as (Hn & Hmax & Htop).
  destruct (n =? 0) eqn:Hz; bool_to_prop.
  - cbn. split_and!; try done. intros v Hv Hpos. specialize (Hmax v Hv). lia.
  - destruct Htop as [Htop <-]; [lia|].
    pose proof (votes_live f polls top Htop) as Hlive.
    destruct (f_leb thr _) eqn:Hthr; cbn; split_and!; try done.
    + lia.
    + intros Hh Hl. eapply threshold_majority; [done|done|lia|lia].
    + intros v Hv Hpos Hvmax. replace (votes_for v _) with (votes_for top (vote_of f <$> polls)); [done|].
      specialize (Hvmax top Htop). specialize (Hmax v Hv). lia.
Qed.

(** The same result for every iteration order: its verdict and fraction always,
    its winner when the threshold is above one half. *)
Lemma facet_spec_unique f polls minP thr fr fr' :
  facet_spec f polls minP thr fr → facet_spec f polls minP thr fr' →
  FVerdict fr = FVerdict fr'
  ∧ (f_ltb half thr = true → LiveCount fr <= 64 → FWinner fr = FWinner fr').
Proof.
  intros (_ & _ & HL & H) (_ & _ & HL' & H'). rewrite HL, HL' in *. clear HL HL'.
  destruct (FVerdict fr), (FVerdict fr'); try (split; [done|]; destruct H as (_ & -> & _), H' as (_ & -> & _); done);
    try (exfalso; destruct H as (H & _), H' as (H' & _); lia).
  - destruct H as (_ & Hw & _ & Hmax & _ & _ & Hmaj), H' as (_ & Hw' & _ & Hmax' & _ & _ & Hmaj').
    split; [done|]. intros Hh Hl. specialize (Hmaj Hh Hl). specialize (Hmaj' Hh Hl).
    destruct (decide (FWinner fr = FWinner fr')) as [|Hne]; [done|exfalso].
    pose proof (votes_two f polls _ _ Hw Hw' Hne). lia.
  - exfalso. destruct H as (_ & Hw & Hp & Hmax & Hf & Ht & _), H' as (_ & _ & Hno).
    rewrite Hf in Ht. rewrite (Hno _ Hw Hp Hmax) in Ht. done.
  - exfalso. destruct H' as (_ & Hw & Hp & Hmax & Hf & Ht & _), H as (_ & _ & Hno).
    rewrite Hf in Ht. rewrite (Hno _ Hw Hp Hmax) in Ht. done.
Qed.

(** ** The verdict on a task *)

Lemma has_verdict (m : gmap string FacetResult) v :
  existsb (λ kv : string * FacetResult, bool_decide (FVerdict (snd kv) = v)) (map_to_list m) = true
  ↔ ∃ k fr, m !! k = Some fr ∧ FVerdict fr = v.
Proof.
  rewrite existsb_exists. split.
  - intros ([k fr] & Hin & Hv). bool_to_prop. exists k, fr. split; [|done].
    by apply list_elem_of_In, elem_of_map_to_list in Hin.
  - intros (k & fr & Hm & Hv). exists (k, fr). rewrite bool_decide_true by done. split; [|done].
    by apply list_elem_of_In, elem_of_map_to_list.
Qed.

Lemma aggregateOverall_spec m :
  match aggregateOverall m with
  | VerdictDisagree => ∃ k fr, m !! k = Some fr ∧ FVerdict fr = VerdictDisagree
  | VerdictAbstain => (∃ k fr, m !! k = Some fr ∧ FVerdict fr = VerdictAbstain)
                      ∧ ∀ k fr, m !! k = Some fr → FVerdict fr ≠ VerdictDisagree
  | VerdictAgree => ∀ k fr, m !! k = Some fr → FVerdict fr = VerdictAgree
  end.
Proof.
  unfold aggregateOverall. cbn zeta.
  pose proof (has_verdict m VerdictDisagree) as Hd. pose proof (has_verdict m VerdictAbstain) as Ha.
  destruct (existsb _ _); [by apply Hd|]. destruct (existsb _ _).
  - split; [by apply Ha|]. intros k fr Hm Hv. destruct Hd as [_ Hd]. discriminate Hd. eauto.
  - intros k fr Hm. destruct (FVerdict fr) eqn:Hv; [done|..].
    + destruct Hd as [_ Hd]. discriminate Hd. eauto.
    + destruct Ha as [_ Ha]. discriminate Ha. eauto.
Qed.

Section task.
Context (iter : gmap string Z → list (string * Z)) (poll : nat → Request → list PollResult).

Lemma decide_loop_other t minP thr i fs m k :
  k ∉ (FacetID <$> fs) → decide_loop iter poll t minP thr i fs m !! k = m !! k.
Proof.
  revert i m. induction fs as [|f fs IH]; intros i m Hk; cbn [decide_loop]; [done|].
  rewrite fmap_cons, not_elem_of_cons in Hk. rewrite IH by tauto. rewrite lookup_insert_ne; [done|naive_solver].
Qed.

(** With different identifiers every facet has its own result. *)
Lemma decide_loop_facet t minP thr i fs m j f :
  NoDup (FacetID <$> fs) → fs !! j = Some f →
  decide_loop iter poll t minP thr i fs m !! FacetID f
  = Some (decideFacet iter f (poll (i + j)%nat (facet_request t f)) minP thr).
Proof.
  revert i m j. induction fs as [|g fs IH]; intros i m j Hnd Hj; [done|].
  rewrite fmap_cons, NoDup_cons in Hnd. destruct Hnd as [Hg Hnd]. cbn [decide_loop]. destruct j as [|j].
  - injection Hj as ->. rewrite decide_loop_other by done. rewrite lookup_insert_eq. by rewrite Nat.add_0_r.
  - rewrite (IH (S i) _ j Hnd Hj). do 2 f_equal. by rewrite Nat.add_succ_r.
Qed.

Lemma decide_loop_inv t minP thr i fs m k fr :
  decide_loop iter poll t minP thr i fs m !! k = Some fr →
  m !! k = Some fr ∨ ∃ j f, fs !! j = Some f ∧ FacetID f = k
                          ∧ fr = decideFacet iter f (poll (i + j)%nat (facet_request t f)) minP thr.
Proof.
  revert i m. induction fs as [|g fs IH]; intros i m; cbn [decide_loop]; [by left|]. intros H.
  apply IH in H as [H|(j & f & Hj & Hf & ->)].
  - rewrite lookup_insert_Some in H. destruct H as [[<- <-]|[_ H]]; [right|by left].
    exists 0%nat, g. rewrite Nat.add_0_r. done.
  - right. exists (S j), f. rewrite Nat.add_succ_r. done.
Qed.

End task.

(** The results and the verdict of a task whose facets have different identifiers. *)
Lemma Decide_spec iter poll t t0 t1 res :
  iter_ok iter → NoDup (FacetID <$> Facets t) → Decide iter poll (Some t) true t0 t1 = Ok res →
  let minP := default_min (MinProviders t) in
  let thr := default_threshold (AgreementThreshold t) in
  (∀ i f, Facets t !! i = Some f → ∃ fr, RFacets res !! FacetID f = Some fr
      ∧ facet_spec f (poll i (facet_request t f)) minP thr fr)
  ∧ (∀ k fr, RFacets res !! k = Some fr → ∃ f, f ∈ Facets t ∧ FacetID f = k)
  ∧ match OverallVerdict res with
    | VerdictAgree => ∀ f, f ∈ Facets t → ∃ fr, RFacets res !! FacetID f = Some fr ∧ FVerdict fr = VerdictAgree
    | VerdictDisagree => ∃ f fr, f ∈ Facets t ∧ RFacets res !! FacetID f = Some fr ∧ FVerdict fr = VerdictDisagree
    | VerdictAbstain =>
        (∃ f fr, f ∈ Facets t ∧ RFacets res !! FacetID f = Some fr ∧ FVerdict fr = VerdictAbstain)
        ∧ ∀ k fr, RFacets res !! k = Some fr → FVerdict fr ≠ VerdictDisagree
    end.
Proof.
  intros Hi Hnd H. cbn zeta. unfold Decide in H. destruct (length (Facets t) =? 0)%nat; [done|]. cbn [negb] in H.
  injection H as <-. cbn [RFacets OverallVerdict].
  set (minP := default_min _). set (thr := default_threshold _). set (m := decide_loop _ _ _ _ _ _ _ _).
  assert (∀ i f, Facets t !! i = Some f → m !! FacetID f = Some (decideFacet iter f (poll i (facet_request t f)) minP thr)) as Hm.
  { intros i f Hf. apply (decide_loop_facet iter poll t minP thr 0 (Facets t) ∅ i f Hnd Hf). }
  assert (∀ k fr, m !! k = Some fr → ∃ f, f ∈ Facets t ∧ FacetID f = k) as Hk.
  { intros k fr Hfr. apply decide_loop_inv in Hfr as [Hfr|(j & f & Hj & <- & _)]; [by rewrite lookup_empty in Hfr|].
    exists f. split; [by eapply list_elem_of_lookup_2|done]. }
  split; [|split; [done|]].
  - intros i f Hf. eexists. split; [by apply Hm|by apply decideFacet_spec].
  - pose proof (aggregateOverall_spec m) as Ho. destruct (aggregateOverall m).
    + intros f Hf. apply list_elem_of_lookup in Hf as [i Hf]. eexists. split; [by apply Hm|]. eapply Ho, Hm, Hf.
    + destruct Ho as (k & fr & Hfr & Hv). destruct (Hk k fr Hfr) as (f & Hf & <-). eauto.
    + destruct Ho as [(k & fr & Hfr & Hv) Hno]. destruct (Hk k fr Hfr) as (f & Hf & <-). eauto 8.
Qed.

(** C11. The verdict of a task whose facets have different identifiers: every facet has
    the result its own votes give, whatever the order of the tally; AGREE means
    that every facet has a winner with the most votes, at the threshold (a strict
    majority of the live providers when the threshold is above one half) and with
    enough of them; DISAGREE that some facet is below the threshold; ABSTAIN that
    some facet has too few live providers and none disagrees. *)
Theorem Decide_sound iter poll t t0 t1 res :
  iter_ok iter → NoDup (FacetID <$> Facets t) → Decide iter poll (Some t) true t0 t1 = Ok res →
  let minP := default_min (MinProviders t) in
  let thr := default_threshold (AgreementThreshold t) in
  (∀ i f, Facets t !! i = Some f → ∃ fr, RFacets res !! FacetID f = Some fr
      ∧ facet_spec f (poll i (facet_request t f)) minP thr fr)
  ∧ (∀ k fr, RFacets res !! k = Some fr → ∃ f, f ∈ Facets t ∧ FacetID f = k)
  ∧ match OverallVerdict res with
    | VerdictAgree => ∀ f, f ∈ Facets t → ∃ fr, RFacets res !! FacetID f = Some fr ∧ FVerdict fr = VerdictAgree
    | VerdictDisagree => ∃ f fr, f ∈ Facets t ∧ RFacets res !! FacetID f = Some fr ∧ FVerdict fr = VerdictDisagree
    | VerdictAbstain =>
        (∃ f fr, f ∈ Facets t ∧ RFacets res !! FacetID f = Some fr ∧ FVerdict fr = VerdictAbstain)
        ∧ ∀ k fr, RFacets res !! k = Some fr → FVerdict fr ≠ VerdictDisagree
    end.
Proof. apply Decide_spec. Qed.

(** Two results of one facet under different iteration orders. *)
Definition same_facet (thr : float64) (fr fr' : FacetResult) : Prop :=
  FVerdict fr = FVerdict fr' ∧ Votes fr = Votes fr' ∧ LiveCount fr = LiveCount fr'
  ∧ (f_ltb half thr = true → LiveCount fr <= 64 → FWinner fr = FWinner fr').

Lemma decideFacet_same iter iter' f polls minP thr :
  iter_ok iter → iter_ok iter' →
  same_facet thr (decideFacet iter f polls minP thr) (decideFacet iter' f polls minP thr).
Proof.
  intros Hi Hi'. pose proof (decideFacet_spec iter f polls minP thr Hi) as H.
  pose proof (decideFacet_spec iter' f polls minP thr Hi') as H'.
  destruct (facet_spec_unique _ _ _ _ _ _ H H') as [Hv Hw].
  destruct H as (_ & Hvo & Hl & _), H' as (_ & Hvo' & Hl' & _). unfold same_facet. split_and!; congruence || done.
Qed.

Lemma decide_loop_same iter iter' poll t minP thr i fs m m' :
  iter_ok iter → iter_ok iter' → map_relation (λ _, same_facet thr) (λ _ _, False) (λ _ _, False) m m' →
  map_relation (λ _, same_facet thr) (λ _ _, False) (λ _ _, False)
    (decide_loop iter poll t minP thr i fs m) (decide_loop iter' poll t minP thr i fs m').
Proof.
  intros Hi Hi'. revert i m m'. induction fs as [|f fs IH]; intros i m m' H; cbn [decide_loop]; [done|].
  apply IH. intros k. destruct (decide (k = FacetID f)) as [->|Hne].
  - rewrite !lookup_insert_eq. by apply decideFacet_same.
  - rewrite !lookup_insert_ne by done. apply H.
Qed.

Lemma aggregateOverall_same thr m m' :
  map_relation (λ _, same_facet thr) (λ _ _, False) (λ _ _, False) m m' → aggregateOverall m = aggregateOverall m'.
Proof.
  intros H. assert (∀ v, (∃ k fr, m !! k = Some fr ∧ FVerdict fr = v) ↔ (∃ k fr, m' !! k = Some fr ∧ FVerdict fr = v)) as Hiff.
  { intros v. split; intros (k & fr & Hk & Hv); specialize (H k); rewrite Hk in H.
    - destruct (m' !! k) as [fr'|] eqn:E; [|done]. exists k, fr'. destruct H as [H _]. split; [done|]. congruence.
    - destruct (m !! k) as [fr'|] eqn:E; [|done]. exists k, fr'. destruct H as [H _]. split; [done|]. congruence. }
  unfold aggregateOverall. cbn zeta.
  assert (∀ v, existsb (λ kv : string * FacetResult, bool_decide (FVerdict (snd kv) = v)) (map_to_list m)
             = existsb (λ kv : string * FacetResult, bool_decide (FVerdict (snd kv) = v)) (map_to_list m')) as Hb.
  { intros v. apply eq_true_iff_eq. by rewrite !has_verdict. }
  by rewrite !Hb.
Qed.

(** The iteration order of the tally cannot change a verdict, nor, with a
    threshold above one half (the default is) and at most 64 live providers, a
    winner. *)
Theorem Decide_deterministic iter iter' poll t t0 t1 res res' :
  iter_ok iter → iter_ok iter' →
  Decide iter poll (Some t) true t0 t1 = Ok res → Decide iter' poll (Some t) true t0 t1 = Ok res' →
  OverallVerdict res = OverallVerdict res'
  ∧ ∀ k, match RFacets res !! k, RFacets res' !! k with
         | Some fr, Some fr' => same_facet (default_threshold (AgreementThreshold t)) fr fr'
         | None, None => True
         | _, _ => False
         end.
Proof.
  intros Hi Hi' H H'. unfold Decide in H, H'. destruct (length (Facets t) =? 0)%nat; [done|]. cbn [negb] in H, H'.
  injection H as <-. injection H' as <-. cbn [RFacets OverallVerdict].
  pose proof (decide_loop_same iter iter' poll t (default_min (MinProviders t))
    (default_threshold (AgreementThreshold t)) 0 (Facets t) ∅ ∅ Hi Hi') as Hs.
  assert (map_relation (λ _, same_facet (default_threshold (AgreementThreshold t))) (λ _ _, False) (λ _ _, False)
            (∅ : gmap string FacetResult) ∅) as H0 by (intros k; by rewrite !lookup_empty).
  specialize (Hs H0). split; [by eapply aggregateOverall_same|]. intros k. specialize (Hs k).
  destruct (_ !! k), (_ !! k); done.
Qed.

(** ** Samples *)

Definition ex_iter (m : gmap string Z) : list (string * Z) := map_to_list m.
Definition ex_facet : Facet := {| FacetID := "toxic"; Prompt := "Is it toxic?"; AllowedValues := ["yes"; "no"]; Weight := f_one |}.
Definition ex_response (c : string) : Response :=
  {| RContent := c; RProvider := "p"; Model := "m"; KeyIndex := 0; LatencyMs := 1; PromptTokens := 1; CompletionTokens := 1;
     FinishReason := "stop"; Fixture := false; RawJSON := "" |}.
Definition ex_poll (id : string) (c : option string) : PollResult :=
  {| PollProvider := id; Resp := ex_response <$> c;
     Attempt := {| AProvider := id; ALatencyMs := 1; Success := bool_decide (is_Some c); AErr := ""; ARetryable := false;
                   AStatus := 0; AKeyIndex := 0 |} |}.
Definition ex_task (fs : list Facet) (minP : Z) (thr : float64) : Task :=
  {| TaskID := "t1"; Input := "hello"; SystemMsg := ""; Facets := fs; MinProviders := minP; AgreementThreshold := thr |}.
Definition ex_polls : list PollResult :=
  [ex_poll "a" (Some " Yes."%string); ex_poll "b" (Some "yes"%string); ex_poll "c" (Some "No"%string); ex_poll "d" None].

Lemma ex_iter_ok : iter_ok ex_iter.
Proof. intros m. reflexivity. Qed.

Definition ex_result : TaskResult :=
  match Decide ex_iter (λ _ _, ex_polls) (Some (ex_task [ex_facet] 0 f_zero)) true 1 2 with
  | Ok res => res
  | Err _ => {| RTaskID := ""; OverallVerdict := VerdictAbstain; RFacets := ∅; StartedAt := 0; CompletedAt := 0 |}
  end.

Lemma Decide_sound_witness :
  OverallVerdict ex_result = VerdictAgree
  ∧ ∃ fr, RFacets ex_result !! "toxic"%string = Some fr ∧ facet_spec ex_facet ex_polls 2 (f_dec 66 2) fr
          ∧ FWinner fr = "yes"%string.
Proof.
  split; [vm_compute; reflexivity|].
  destruct (Decide_sound ex_iter (λ _ _, ex_polls) (ex_task [ex_facet] 0 f_zero) 1 2 ex_result
              ex_iter_ok (NoDup_singleton _) eq_refl) as [H _].
  destruct (H 0%nat ex_facet eq_refl) as (fr & Hl & Hs). exists fr. split_and!; [exact Hl|exact Hs|].
  assert (RFacets ex_result !! "toxic"%string = Some (decideFacet ex_iter ex_facet ex_polls 2 (f_dec 66 2))) as E
    by (vm_compute; reflexivity).
  pose proof (inj Some _ _ (eq_trans (eq_sym Hl) E)) as ->. vm_compute. reflexivity.
Defined.

Definition ex_rev (m : gmap string Z) : list (string * Z) := reverse (map_to_list m).

Lemma Decide_deterministic_witness :
  OverallVerdict ex_result = VerdictAgree
  ∧ ∃ res', Decide ex_rev (λ _ _, ex_polls) (Some (ex_task [ex_facet] 0 f_zero)) true 1 2 = Ok res'
            ∧ OverallVerdict ex_result = OverallVerdict res'.
Proof.
  split; [vm_compute; reflexivity|]. eexists. split; [reflexivity|].
  eapply (Decide_deterministic ex_iter ex_rev (λ _ _, ex_polls) (ex_task [ex_facet] 0 f_zero) 1 2 ex_result);
    [exact ex_iter_ok| |reflexivity|reflexivity].
  intros m. apply reverse_Permutation.
Defined.

(** With a threshold of one half a tie has a winner that depends on the order. *)
Lemma tie_winner :
  let polls := [ex_poll "a" (Some "yes"%string); ex_poll "b" (Some "no"%string)] in
  let d iter := decideFacet iter ex_facet polls 2 half in
  FVerdict (d ex_iter) = VerdictAgree ∧ FWinner (d ex_iter) ≠ FWinner (d ex_rev).
Proof. split; vm_compute; done. Qed.

(** Two facets of one identifier: the second result replaces a disagreement. *)
Lemma duplicate_facet_hides_disagreement :
  let split_votes := [ex_poll "a" (Some "yes"%string); ex_poll "b" (Some "no"%string)] in
  let poll (i : nat) (_ : Request) := match i with O => split_votes | _ => ex_polls end in
  (FVerdict (decideFacet ex_iter ex_facet split_votes 2 (f_dec 66 2)),
   match Decide ex_iter poll (Some (ex_task [ex_facet; ex_facet] 0 f_zero)) true 1 2 with
   | Ok res => Some (OverallVerdict res) | Err _ => None end)
  = (VerdictDisagree, Some VerdictAgree).
Proof. vm_compute. reflexivity. Qed.

(** Two allowed values in one answer: the first of the list counts, in whatever
    order the answer names them. *)
Lemma normalizeVote_first :
  (normalizeVote "it is no , not yes" ["yes"; "no"], normalizeVote "not yes but no" ["yes"; "no"]) = ("yes", "yes")%string.
Proof. reflexivity. Qed.

(** With every real provider down and [MinProviders] 1 the fixture's answer is
    the verdict. *)
Lemma fixture_decides :
  let r := NewRunner [Some {| PID := "groq"; PTier := TierFast; KeyCount := 1 |}]
             (Some (NewFixtureProvider "" ∅ "yes" "")) DefaultConfig in
  let down := [{| x_latency := 3000; x_result := Err (OtherErr "timeout") |}] in
  match DecideWith ex_iter r (λ _, down) (ex_task [ex_facet] 1 f_zero) 1 2 with
  | Ok res => Some (OverallVerdict res) | Err _ => None end = Some VerdictAgree.
Proof. vm_compute. reflexivity. Qed.
