(* ===== verification/Evidence.v ===== *)
(** * Evidence of the judge ([judge/equivocation/proof.go], [judge/hitl])

    The equivocation proof of a DISAGREE result and the escalation event of an
    ABSTAIN result, with their canonical digests, and the delivery of events
    ([MultiSink], [config.go]). Times are UTC; the clock of [BuildEvent] is the
    argument [now]. A sink is its answer to an event; the HTTP exchange of the Slack and Telegram sinks is the
    parameter [post]. *)

From S2P Require Import Prelude GoLib Json JsonFacts Sha256 Llm Judge.

Local Open Scope Z_scope.

(** [Duration.Milliseconds] truncates. *)
Definition milliseconds (d : Z) : Z := Z.quot d millisecond.

(** ** Equivocation proofs *)

Record Vote := { EvProvider : string; EvValue : string; EvRaw : string; EvLatencyMs : Z; EvErr : string }.

Record FacetEvidence := {
  EvFacetID : string; EvVerdict : string; EvWinner : string; EvLiveCount : Z; EvFraction : float64; EvVotes : list Vote;
}.

Record Proof := {
  PVersion : Z; PTaskID : string; PInput : string; PSystemMsg : string; PFacets : list FacetEvidence;
  PStartedAt : string; PCompletedAt : string; POverall : string; DigestHex : string;
}.

Inductive EvidenceError := ErrNilResult | ErrNoTask | ErrVerdict (got : string) | ErrDigest | ErrMismatch | ErrNoDigest.

Definition formatTime (t : time) : string := if t =? time_zero then ""%string else format_rfc3339_nano t.

Definition vote_evidence (v : ProviderVote) : Vote :=
  {| EvProvider := VProvider v; EvValue := Value v; EvRaw := Raw v; EvLatencyMs := milliseconds (Latency v);
     EvErr := VErr v |}.

Definition by_provider (a b : Vote) : bool := string_ltb (EvProvider a) (EvProvider b).

Definition facet_evidence (fr : FacetResult) : FacetEvidence :=
  {| EvFacetID := RFacetID fr; EvVerdict := verdict_string (FVerdict fr); EvWinner := FWinner fr;
     EvLiveCount := LiveCount fr; EvFraction := AgreementFraction fr;
     EvVotes := sort_slice by_provider (vote_evidence <$> Votes fr) |}.

(** The facets in the order of their sorted identifiers. *)
Definition sorted_facets (m : gmap string FacetResult) : list FacetResult :=
  snd <$> sort_slice (λ a b : string * FacetResult, string_ltb (fst a) (fst b)) (map_to_list m).

Definition vote_json (v : Vote) : json :=
  JObj ([("provider_id"%string, JStr (EvProvider v)); ("value"%string, JStr (EvValue v)); ("raw"%string, JStr (EvRaw v));
         ("latency_ms"%string, JInt (EvLatencyMs v))] ++ omit_empty "err" (EvErr v)).

Definition facet_json (f : FacetEvidence) : json :=
  JObj ([("facet_id"%string, JStr (EvFacetID f)); ("verdict"%string, JStr (EvVerdict f))]
        ++ omit_empty "winner" (EvWinner f)
        ++ [("live_count"%string, JInt (EvLiveCount f)); ("agreement_fraction"%string, JNum (EvFraction f));
            ("votes"%string, JArr (vote_json <$> EvVotes f))]).

Definition proof_json (p : Proof) : json :=
  JObj [("version"%string, JInt (PVersion p)); ("task_id"%string, JStr (PTaskID p)); ("input"%string, JStr (PInput p));
        ("system_msg"%string, JStr (PSystemMsg p)); ("facets"%string, JArr (facet_json <$> PFacets p));
        ("started_at"%string, JStr (PStartedAt p)); ("completed_at"%string, JStr (PCompletedAt p));
        ("overall_verdict"%string, JStr (POverall p)); ("digest_hex"%string, JStr (DigestHex p))].

Definition MarshalCanonical (p : Proof) : option string := canonicalize (proof_json p).

Definition with_digest (p : Proof) (d : string) : Proof :=
  {| PVersion := PVersion p; PTaskID := PTaskID p; PInput := PInput p; PSystemMsg := PSystemMsg p; PFacets := PFacets p;
     PStartedAt := PStartedAt p; PCompletedAt := PCompletedAt p; POverall := POverall p; DigestHex := d |}.

Definition sha_hex (s : string) : string := hex_encode (sha256 (bytes_of s)).

Definition digest (p : Proof) : option string := sha_hex <$> MarshalCanonical (with_digest p "").

Definition FromTaskResult (task : option Task) (result_ : option TaskResult) : result EvidenceError Proof :=
  match result_ with
  | None => Err ErrNilResult
  | Some r =>
      match task with
      | None => Err ErrNoTask
      | Some t =>
          if negb (bool_decide (OverallVerdict r = VerdictDisagree)) then Err (ErrVerdict (verdict_string (OverallVerdict r)))
          else
            let p := {| PVersion := 1; PTaskID := TaskID t; PInput := Input t; PSystemMsg := SystemMsg t;
                        PFacets := facet_evidence <$> sorted_facets (RFacets r);
                        PStartedAt := formatTime (StartedAt r); PCompletedAt := formatTime (CompletedAt r);
                        POverall := verdict_string (OverallVerdict r); DigestHex := "" |} in
            match digest p with Some d => Ok (with_digest p d) | None => Err ErrDigest end
      end
  end.

(** [Proof.Verify] *)
Definition VerifyProof (p : Proof) : result EvidenceError unit :=
  match digest p with
  | None => Err ErrDigest
  | Some got => if bool_decide (got = DigestHex p) then Ok () else Err ErrMismatch
  end.

(** ** Escalation events *)

Inductive Severity := SeverityLow | SeverityMedium | SeverityHigh | SeverityCritical.

Definition severity_string (s : Severity) : string :=
  match s with SeverityLow => "low" | SeverityMedium => "medium" | SeverityHigh => "high" | SeverityCritical => "critical" end.

Record VoteSummary := { SmProvider : string; SmValue : string; SmLatencyMs : Z; SmErr : string }.

(** [Votes] is nil for a facet without a result. *)
Record FacetSummary := {
  SFacetID : string; SPrompt : string; SAllowed : list string; SVerdict : Verdict; SWinner : string;
  SLiveCount : Z; SFraction : float64; SVotes : option (list VoteSummary); SHistogram : gmap string Z;
}.

Record EscalationEvent := {
  EVersion : string; ETimestamp : time; ETaskID : string; EInput : string; ESystemMsg : string; EOverall : Verdict;
  ESeverity : Severity; EReason : string; EFacets : list FacetSummary; EDigest : string;
}.

Definition vote_summary (v : ProviderVote) : VoteSummary :=
  {| SmProvider := VProvider v; SmValue := Value v; SmLatencyMs := milliseconds (Latency v); SmErr := VErr v |}.

Definition hist_step (h : gmap string Z) (v : ProviderVote) : gmap string Z :=
  if bool_decide (VErr v = ""%string) then <[Value v := default 0 (h !! Value v) + 1]> h else h.

Definition facet_summary (f : Facet) (o : option FacetResult) : FacetSummary :=
  match o with
  | None =>
      {| SFacetID := FacetID f; SPrompt := Prompt f; SAllowed := AllowedValues f; SVerdict := VerdictAbstain; SWinner := "";
         SLiveCount := 0; SFraction := f_zero; SVotes := None; SHistogram := ∅ |}
  | Some fr =>
      {| SFacetID := FacetID f; SPrompt := Prompt f; SAllowed := AllowedValues f; SVerdict := FVerdict fr;
         SWinner := FWinner fr; SLiveCount := LiveCount fr; SFraction := AgreementFraction fr;
         SVotes := Some (sort_slice (λ a b, string_ltb (SmProvider a) (SmProvider b)) (vote_summary <$> Votes fr));
         SHistogram := foldl hist_step ∅ (Votes fr) |}
  end.

Definition classifySeverity (agree abstain disagree : Z) : Severity :=
  let total := agree + abstain + disagree in
  if total =? 0 then SeverityLow
  else if total <? disagree * 2 then SeverityCritical
  else if 0 <? disagree then SeverityHigh
  else if 1 <? abstain then SeverityMedium
  else SeverityLow.

Definition buildReason (agree abstain disagree : Z) : string :=
  ("human review required: " +:+ itoa agree +:+ " AGREE, " +:+ itoa abstain +:+ " ABSTAIN, "
   +:+ itoa disagree +:+ " DISAGREE facets — no dominant verdict")%string.

Definition summary_json (v : VoteSummary) : json :=
  JObj ([("provider_id"%string, JStr (SmProvider v)); ("value"%string, JStr (SmValue v));
         ("latency_ms"%string, JInt (SmLatencyMs v))] ++ omit_empty "err" (SmErr v)).

(** A nil slice is [null]; the copy of an empty list of values is nil. *)
Definition strings_json (l : list string) : json := match l with [] => JNull | _ => JArr (JStr <$> l) end.

Definition facet_summary_json (s : FacetSummary) : json :=
  JObj ([("facet_id"%string, JStr (SFacetID s)); ("prompt"%string, JStr (SPrompt s));
         ("allowed_values"%string, strings_json (SAllowed s)); ("verdict"%string, JStr (verdict_string (SVerdict s)))]
        ++ omit_empty "winner" (SWinner s)
        ++ [("live_count"%string, JInt (SLiveCount s)); ("agreement_fraction"%string, JNum (SFraction s));
            ("votes"%string, match SVotes s with None => JNull | Some l => JArr (summary_json <$> l) end);
            ("vote_histogram"%string, JObj ((λ kv : string * Z, (fst kv, JInt (snd kv)))
                                              <$> sort_slice (λ a b : string * Z, string_ltb (fst a) (fst b)) (map_to_list (SHistogram s))))]).

Definition event_json (ev : EscalationEvent) : json :=
  JObj ([("version"%string, JStr (EVersion ev)); ("timestamp"%string, JStr (format_rfc3339_nano (ETimestamp ev)));
         ("task_id"%string, JStr (ETaskID ev)); ("input"%string, JStr (EInput ev))]
        ++ omit_empty "system_msg" (ESystemMsg ev)
        ++ [("overall"%string, JStr (verdict_string (EOverall ev))); ("severity"%string, JStr (severity_string (ESeverity ev)));
            ("reason"%string, JStr (EReason ev)); ("facets"%string, JArr (facet_summary_json <$> EFacets ev));
            ("digest"%string, JStr (EDigest ev))]).

Definition set_digest (ev : EscalationEvent) (d : string) : EscalationEvent :=
  {| EVersion := EVersion ev; ETimestamp := ETimestamp ev; ETaskID := ETaskID ev; EInput := EInput ev;
     ESystemMsg := ESystemMsg ev; EOverall := EOverall ev; ESeverity := ESeverity ev; EReason := EReason ev;
     EFacets := EFacets ev; EDigest := d |}.

Definition computeDigest (ev : EscalationEvent) : option string :=
  sha_hex <$> canonicalize (event_json (set_digest ev "")).

Definition verdicts_of (t : Task) (m : gmap string FacetResult) (v : Verdict) : Z :=
  count (λ s, bool_decide (SVerdict s = v)) ((λ f, facet_summary f (m !! FacetID f)) <$> Facets t).

Definition BuildEvent (task : option Task) (tr : option TaskResult) (now : time) : result EvidenceError EscalationEvent :=
  match task with
  | None => Err ErrNoTask
  | Some t =>
      match tr with
      | None => Err ErrNilResult
      | Some r =>
          if negb (bool_decide (OverallVerdict r = VerdictAbstain)) then Err (ErrVerdict (verdict_string (OverallVerdict r)))
          else
            let facets := (λ f, facet_summary f (RFacets r !! FacetID f)) <$> Facets t in
            let n := verdicts_of t (RFacets r) in
            let agree := n VerdictAgree in
            let abstain := n VerdictAbstain in
            let disagree := n VerdictDisagree in
            let ev := {| EVersion := "hitl.v1"; ETimestamp := now; ETaskID := TaskID t; EInput := Input t;
                         ESystemMsg := SystemMsg t; EOverall := OverallVerdict r;
                         ESeverity := classifySeverity agree abstain disagree;
                         EReason := buildReason agree abstain disagree;
                         EFacets := sort_slice (λ a b, string_ltb (SFacetID a) (SFacetID b)) facets; EDigest := "" |} in
            match computeDigest ev with Some d => Ok (set_digest ev d) | None => Err ErrDigest end
      end
  end.

(** [Verify] *)
Definition VerifyEvent (ev : EscalationEvent) : result EvidenceError unit :=
  if bool_decide (EDigest ev = ""%string) then Err ErrNoDigest
  else match computeDigest ev with
       | None => Err ErrDigest
       | Some got => if bool_decide (got = EDigest ev) then Ok () else Err ErrMismatch
       end.

(** ** Delivery *)

(** A sink answers an event with an error or not. *)
Definition Sink : Type := EscalationEvent → option string.

Definition NoopSink : Sink := λ _, None.

(** [MultiSink.Deliver]: every sink is tried; the first error is returned. *)
Definition multi_deliver (sinks : list Sink) (ev : EscalationEvent) : list (option string) * option string :=
  let answers := (λ s : Sink, s ev) <$> sinks in
  (answers, foldl (λ first e, match first with Some _ => first | None => e end) None answers).

Record SinkConfig := { Kinds : list string; SlackWebhookURL : string; TelegramBotToken : string; TelegramChatID : Z }.

Definition ConfigFromEnv (getenv : string → string) : SinkConfig :=
  let kindsRaw := or_default (trim_space (getenv "HITL_SINKS"%string)) "noop" in
  {| Kinds := List.filter (λ k, negb (bool_decide (k = ""%string))) ((λ p, trim_space (to_lower p)) <$> split_on (chr 44) kindsRaw);
     SlackWebhookURL := trim_space (getenv "HITL_SLACK_WEBHOOK_URL"%string);
     TelegramBotToken := trim_space (getenv "HITL_TELEGRAM_BOT_TOKEN"%string);
     TelegramChatID := parse_int_value (trim_space (getenv "HITL_TELEGRAM_CHAT_ID"%string)) |}.

(** *** Texts of the HTTP sinks ([sink_slack.go], [sink_telegram.go]) *)

Definition slack_facet (f : FacetSummary) : string :=
  ("• `" +:+ SFacetID f +:+ "` → `" +:+ verdict_string (SVerdict f) +:+ "`"
   +:+ (if bool_decide (SWinner f = ""%string) then ""
        else " (winner=`" +:+ SWinner f +:+ "`, agree=" +:+ fmt_fixed 2 (SFraction f)
             +:+ ", live=" +:+ itoa (SLiveCount f) +:+ ")") +:+ newline)%string.

Definition formatSlackText (ev : EscalationEvent) : string :=
  ("*HITL escalation* — severity `" +:+ severity_string (ESeverity ev) +:+ "`" +:+ newline
   +:+ "*task*: `" +:+ ETaskID ev +:+ "`  *overall*: `" +:+ verdict_string (EOverall ev) +:+ "`" +:+ newline
   +:+ "*reason*: " +:+ EReason ev +:+ newline
   +:+ "*digest*: `" +:+ EDigest ev +:+ "`" +:+ newline
   +:+ (match EFacets ev with
        | [] => ""
        | fs => "*facets*:" +:+ newline +:+ string_concat (slack_facet <$> fs)
        end))%string.

(** The characters of MarkdownV2 that are escaped. *)
Definition markdown_special (c : Ascii.ascii) : bool :=
  bool_decide (c ∈ String.list_ascii_of_string "_*[]()~`>#+-=|{}.!").

Definition backslash : Ascii.ascii := chr 92.
Definition dot : Ascii.ascii := chr 46.

(** The loop over the runes of a string; an invalid byte is written as U+FFFD. *)
Definition escape_rune (r : rune) : string :=
  match r with
  | ValidRune (String c EmptyString) =>
      if markdown_special c then str2 backslash c else String c EmptyString
  | r => rune_text r
  end.
Definition escapeMarkdownV2 (s : string) : string := string_concat (escape_rune <$> utf8 s).

(** A dot that does not follow a backslash gets one. *)
Fixpoint replace_dots (prev : rune) (rs : list rune) : string :=
  match rs with
  | [] => EmptyString
  | r :: rs =>
      ((if bool_decide (rune_text r = String dot EmptyString) && negb (bool_decide (rune_text prev = String backslash EmptyString))
        then String backslash (String dot EmptyString) else rune_text r) +:+ replace_dots r rs)%string
  end.
Definition replaceUnescapedDots (s : string) : string := replace_dots InvalidByte (utf8 s).

Definition telegram_facet (f : FacetSummary) : string :=
  ("• `" +:+ escapeMarkdownV2 (SFacetID f) +:+ "` → `" +:+ escapeMarkdownV2 (verdict_string (SVerdict f)) +:+ "`"
   +:+ (if bool_decide (SWinner f = ""%string) then ""
        else " \(winner=`" +:+ escapeMarkdownV2 (SWinner f) +:+ "`, agree=" +:+ fmt_fixed 2 (SFraction f)
             +:+ ", live=" +:+ itoa (SLiveCount f) +:+ "\)") +:+ newline)%string.

Definition formatTelegramText (ev : EscalationEvent) : string :=
  replaceUnescapedDots
  ("*HITL escalation* — severity `" +:+ escapeMarkdownV2 (severity_string (ESeverity ev)) +:+ "`" +:+ newline
   +:+ "*task*: `" +:+ escapeMarkdownV2 (ETaskID ev) +:+ "`  *overall*: `"
   +:+ escapeMarkdownV2 (verdict_string (EOverall ev)) +:+ "`" +:+ newline
   +:+ "*reason*: " +:+ escapeMarkdownV2 (EReason ev) +:+ newline
   +:+ "*digest*: `" +:+ escapeMarkdownV2 (EDigest ev) +:+ "`" +:+ newline
   +:+ (match EFacets ev with
        | [] => ""
        | fs => "*facets*:" +:+ newline +:+ string_concat (telegram_facet <$> fs)
        end))%string.

(** The bodies that the sinks post. *)
Definition slack_payload (ev : EscalationEvent) : option string :=
  marshal (JObj [("text"%string, JStr (formatSlackText ev))]).

Definition telegram_payload (chatID : Z) (ev : EscalationEvent) : option string :=
  marshal (JObj ([("chat_id"%string, JInt chatID); ("text"%string, JStr (formatTelegramText ev));
                  ("parse_mode"%string, JStr "MarkdownV2")]
                 ++ match ESeverity ev with SeverityLow => [("disable_notification"%string, JBool true)] | _ => [] end)).

(** [post url body] is the exchange: an error, or the status with the body of the
    answer; [telegram_response] decodes Telegram's envelope
    (ok, error code, description). *)
Section http_sinks.
Context (post : string → string → result string (Z * string)).
Context (telegram_response : string → result string (bool * Z * string)).

Definition NewSlackSink (url : string) : option Sink :=
  if bool_decide (url = ""%string) then None
  else Some (λ ev,
    match slack_payload ev with
    | None => Some "hitl: slack marshal"%string
    | Some body =>
        match post url body with
        | Err e => Some ("hitl: slack post: " +:+ e)%string
        | Ok (code, text) =>
            if (code <? 200) || (300 <=? code)
            then Some ("hitl: slack status " +:+ itoa code +:+ ": " +:+ String.substring 0 512 text)%string else None
        end
    end).

Definition NewTelegramSink (token : string) (chatID : Z) : option Sink :=
  if bool_decide (token = ""%string) then None
  else if chatID =? 0 then None
  else Some (λ ev,
    match telegram_payload chatID ev with
    | None => Some "hitl: telegram marshal"%string
    | Some body =>
        match post ("https://api.telegram.org/bot" +:+ token +:+ "/sendMessage")%string body with
        | Err e => Some ("hitl: telegram post: " +:+ e)%string
        | Ok (code, text) =>
            let raw := String.substring 0 4096 text in
            if (code <? 200) || (300 <=? code) then Some ("hitl: telegram status " +:+ itoa code +:+ ": " +:+ raw)%string
            else match telegram_response raw with
                 | Err e => Some ("hitl: telegram parse response: " +:+ e)%string
                 | Ok (false, n, desc) => Some ("hitl: telegram api error " +:+ itoa n +:+ ": " +:+ desc)%string
                 | Ok (true, _, _) => None
                 end
        end
    end).

Inductive BuildError := ErrSlack | ErrTelegram | ErrUnknownKind (k : string).

Definition build_one (c : SinkConfig) (k : string) : result BuildError Sink :=
  if bool_decide (k = "noop"%string) then Ok NoopSink
  else if bool_decide (k = "slack"%string)
  then match NewSlackSink (SlackWebhookURL c) with Some s => Ok s | None => Err ErrSlack end
  else if bool_decide (k = "telegram"%string)
  then match NewTelegramSink (TelegramBotToken c) (TelegramChatID c) with Some s => Ok s | None => Err ErrTelegram end
  else Err (ErrUnknownKind k).

Definition Build (c : SinkConfig) : result BuildError Sink :=
  if (length (Kinds c) =? 0)%nat then Ok NoopSink
  else if bool_decide (Kinds c = ["noop"%string]) then Ok NoopSink
  else
    let! sinks := try_map (build_one c) (Kinds c) in
    match sinks with [s] => Ok s | _ => Ok (λ ev, snd (multi_deliver sinks ev)) end.

End http_sinks.

(** ** The digests can be computed *)

Lemma fraction_table :
  forallb (λ live, forallb (λ c, finite (fraction (Z.of_nat c) (Z.of_nat live))) (seq 0 65)) (seq 1 64) = true.
Proof. vm_compute. reflexivity. Qed.

Lemma fraction_finite c live : 0 <= c <= 64 → 0 < live <= 64 → finite (fraction c live) = true.
Proof.
  intros Hc Hl. pose proof fraction_table as H. rewrite forallb_forall in H.
  specialize (H (Z.to_nat live) ltac:(apply in_seq; lia)). rewrite forallb_forall in H.
  specialize (H (Z.to_nat c) ltac:(apply in_seq; lia)). rewrite !Z2Nat.id in H by lia. exact H.
Qed.

Definition small (z : Z) : Prop := - 2 ^ 53 < z < 2 ^ 53.

(** Results of at most 64 votes with 64-bit latencies. *)
Definition fr_ok (fr : FacetResult) : Prop :=
  finite (AgreementFraction fr) = true ∧ small (LiveCount fr) ∧ (length (Votes fr) <= 64)%nat
  ∧ ∀ v, v ∈ Votes fr → int64_min <= Latency v <= int64_max.

Lemma milliseconds_small d : int64_min <= d <= int64_max → small (milliseconds d).
Proof. unfold milliseconds, millisecond, small, int64_min, int64_max. intros. zify; Z.to_euclidean_division_equations; lia. Qed.

Lemma vote_latency f p : int64_min <= Latency (vote_of f p) <= int64_max.
Proof. unfold vote_of. destruct (Resp p); apply wrap64_range. Qed.

Lemma facet_spec_ok f polls minP thr fr :
  (length polls <= 64)%nat → 0 < minP → facet_spec f polls minP thr fr → finite (AgreementFraction fr) = true →
  fr_ok fr.
Proof.
  intros Hlen Hmin (_ & Hv & Hl & _) Hf. pose proof (count_range answered polls). split; [done|].
  rewrite Hv, Hl. split; [unfold small; lia|]. split; [by rewrite length_fmap|].
  intros v Hin. apply list_elem_of_fmap in Hin as (p & -> & _). apply vote_latency.
Qed.

Lemma decideFacet_ok iter f polls minP thr :
  iter_ok iter → (length polls <= 64)%nat → 0 < minP → fr_ok (decideFacet iter f polls minP thr).
Proof.
  intros Hi Hlen Hmin. eapply facet_spec_ok; [done|done|by apply decideFacet_spec|].
  unfold decideFacet. cbv zeta. destruct (_ <? minP) eqn:E; [done|]. bool_to_prop.
  destruct (top_of _) as [top n] eqn:Et. destruct (top_tally _ _ _ _ Hi Et) as (Hn & _ & Ht).
  destruct (n =? 0) eqn:E0; [done|]. bool_to_prop. destruct Ht as [Htop Hv]; [lia|].
  pose proof (votes_live f polls top Htop). pose proof (count_range answered polls).
  assert (finite (fraction n (count answered polls)) = true) by (apply fraction_finite; lia).
  by destruct (f_leb thr _).
Qed.

(** [as_any] makes integers floats, so small ones are asked for. *)
Fixpoint small_json (v : json) : bool :=
  match v with
  | JInt z => bool_decide (small z)
  | JNum x => finite x
  | JArr l => forallb small_json l
  | JObj m => forallb (λ kv, match kv with (_, v) => small_json v end) m
  | _ => true
  end.

Lemma small_finite v : small_json v = true → finite_json v = true ∧ finite_json (as_any v) = true.
Proof.
  induction v as [|b|z|x|s|l IH|m IH] using json_ind'; cbn [small_json finite_json as_any]; try done.
  - intros H%bool_decide_eq_true. split; [done|]. by apply f_of_Z_finite.
  - intros H. split.
    + induction IH as [|v l Hv _ IHl]; [done|]. apply andb_prop in H as [H1 H]. cbn. destruct (Hv H1) as [-> _]. by apply IHl.
    + induction IH as [|v l Hv _ IHl]; [done|]. apply andb_prop in H as [H1 H]. cbn. destruct (Hv H1) as [_ ->]. by apply IHl.
  - intros H. split.
    + induction IH as [|[k v] l Hv _ IHl]; [done|]. apply andb_prop in H as [H1 H]. cbn in Hv |- *. destruct (Hv H1) as [-> _]. by apply IHl.
    + induction IH as [|[k v] l Hv _ IHl]; [done|]. apply andb_prop in H as [H1 H]. cbn in Hv |- *. destruct (Hv H1) as [_ ->]. by apply IHl.
Qed.

Lemma canonicalize_total v : small_json v = true → is_Some (canonicalize v).
Proof.
  intros H%small_finite. destruct H as [H1 H2]. unfold canonicalize. destruct (marshal_total v H1) as [? ->].
  by apply canonicalEncode_total.
Qed.

Lemma small_app m m' :
  small_json (JObj (m ++ m')) = small_json (JObj m) && small_json (JObj m').
Proof. cbn [small_json]. apply forallb_app. Qed.

Lemma small_omit k s : small_json (JObj (omit_empty k s)) = true.
Proof. unfold omit_empty. by case_bool_decide. Qed.

Lemma small_arr {A} (f : A → json) l : (∀ x, x ∈ l → small_json (f x) = true) → small_json (JArr (f <$> l)) = true.
Proof.
  intros H. cbn [small_json]. apply forallb_forall. intros v Hv. apply list_elem_of_In, list_elem_of_fmap in Hv as (x & -> & Hx).
  by apply H.
Qed.

Lemma facet_json_small fr : fr_ok fr → small_json (facet_json (facet_evidence fr)) = true.
Proof.
  intros (Hf & Hl & _ & Hlat). unfold facet_json, facet_evidence. cbn [EvFacetID EvVerdict EvWinner EvLiveCount EvFraction EvVotes].
  rewrite !small_app, small_omit. cbn [small_json forallb andb]. rewrite (bool_decide_true (small _)) by done. rewrite Hf.
  cbn [andb]. rewrite andb_true_r. apply (small_arr vote_json). intros v Hv.
  rewrite elem_of_sort_slice, list_elem_of_fmap in Hv. destruct Hv as (w & -> & Hw).
  unfold vote_json. rewrite small_app, small_omit. cbn [small_json forallb andb vote_evidence EvLatencyMs].
  rewrite bool_decide_true; [done|]. by apply milliseconds_small, Hlat.
Qed.

Lemma proof_json_small p frs :
  Forall fr_ok frs → PFacets p = facet_evidence <$> frs → small (PVersion p) → small_json (proof_json p) = true.
Proof.
  intros Hok Hp Hv. unfold proof_json. cbn [small_json forallb andb]. rewrite (bool_decide_true (small _)) by done.
  cbn [andb]. rewrite andb_true_r, Hp. rewrite <- list_fmap_compose. apply (small_arr (facet_json ∘ facet_evidence)).
  intros fr Hfr. rewrite Forall_forall in Hok. by apply facet_json_small, Hok.
Qed.

(** The histogram counts votes. *)
Lemma hist_small h vs k n b :
  (∀ k n, h !! k = Some n → 0 <= n <= b) → 0 <= b → foldl hist_step h vs !! k = Some n → 0 <= n <= b + Z.of_nat (length vs).
Proof.
  revert h b. induction vs as [|v vs IH]; intros h b Hh Hb; cbn [foldl length]; [intros H%Hh; lia|]. intros H.
  apply (IH _ (b + 1)) in H; [lia| |lia]. intros k' n' Hk. unfold hist_step in Hk. case_bool_decide as E.
  - apply lookup_insert_Some in Hk as [[<- <-]|[_ Hk]]; [|apply Hh in Hk; lia].
    destruct (h !! Value v) as [m|] eqn:Em; cbn; [apply Hh in Em|]; lia.
  - apply Hh in Hk. lia.
Qed.

Lemma strings_json_small l : small_json (strings_json l) = true.
Proof. destruct l as [|s l]; [done|]. by apply small_arr. Qed.

Lemma facet_summary_small f o : (∀ fr, o = Some fr → fr_ok fr) → small_json (facet_summary_json (facet_summary f o)) = true.
Proof.
  intros Hok. unfold facet_summary_json. destruct o as [fr|]; cbn [facet_summary SFacetID SPrompt SAllowed SVerdict SWinner
    SLiveCount SFraction SVotes SHistogram].
  - destruct (Hok fr eq_refl) as (Hf & Hl & Hlen & Hlat).
    rewrite !small_app, small_omit. cbn [andb].
    assert (small_json (JArr (summary_json <$> sort_slice (λ a b, string_ltb (SmProvider a) (SmProvider b)) (vote_summary <$> Votes fr))) = true) as Hv.
    { apply small_arr. intros v Hv. rewrite elem_of_sort_slice, list_elem_of_fmap in Hv. destruct Hv as (w & -> & Hw).
      unfold summary_json. rewrite small_app, small_omit. cbn [small_json forallb andb vote_summary SmLatencyMs].
      rewrite bool_decide_true; [done|]. by apply milliseconds_small, Hlat. }
    assert (small_json (JObj ((λ kv : string * Z, (kv.1, JInt kv.2)) <$>
              sort_slice (λ a b : string * Z, string_ltb a.1 b.1) (map_to_list (foldl hist_step ∅ (Votes fr))))) = true) as Hh.
    { cbn [small_json]. apply forallb_forall. intros [k v] Hin. apply list_elem_of_In, list_elem_of_fmap in Hin as ([k' n] & [= -> ->] & Hin).
      rewrite elem_of_sort_slice, elem_of_map_to_list in Hin. cbn [small_json]. apply bool_decide_eq_true.
      apply (hist_small ∅ (Votes fr) k' n 0) in Hin; [unfold small; lia| |lia]. intros ? ?. by rewrite lookup_empty. }
    cbn [small_json forallb] in Hv, Hh |- *. rewrite Hv, Hh, Hf, (bool_decide_true (small _)) by done.
    pose proof (strings_json_small (AllowedValues f)) as Hs. unfold strings_json in Hs |- *. by rewrite Hs.
  - rewrite !small_app, small_omit. cbn [small_json forallb andb]. pose proof (strings_json_small (AllowedValues f)) as Hs.
    rewrite Hs. done.
Qed.

Lemma event_json_small ev (m : gmap string FacetResult) :
  (∀ k fr, m !! k = Some fr → fr_ok fr) →
  (∀ s, s ∈ EFacets ev → ∃ f, s = facet_summary f (m !! FacetID f)) →
  small_json (event_json ev) = true.
Proof.
  intros Hok Hf. unfold event_json. rewrite !small_app, small_omit. cbn [small_json forallb andb]. rewrite andb_true_r.
  apply (small_arr facet_summary_json). intros s Hs. destruct (Hf s Hs) as (f & ->). apply facet_summary_small. intros fr. apply Hok.
Qed.

(** ** Which evidence a result yields *)

Lemma sha_hex_nonempty s : sha_hex s ≠ ""%string.
Proof. apply hex_encode_nonempty, sha256_nonempty. Qed.

Lemma digest_with_digest p d : digest (with_digest p d) = digest p.
Proof. done. Qed.

Lemma computeDigest_set ev d : computeDigest (set_digest ev d) = computeDigest ev.
Proof. done. Qed.

(** The results of a task with at most 64 polls for each facet. *)
Lemma Decide_ok iter poll t t0 t1 res :
  iter_ok iter → (∀ i req, (length (poll i req) <= 64)%nat) → Decide iter poll (Some t) true t0 t1 = Ok res →
  ∀ k fr, RFacets res !! k = Some fr → fr_ok fr.
Proof.
  intros Hi Hlen H k fr. unfold Decide in H. destruct (_ =? 0)%nat; [done|]. cbn [negb] in H. injection H as <-.
  cbn [RFacets]. intros Hk. apply decide_loop_inv in Hk as [Hk|(j & f & _ & _ & ->)]; [by rewrite lookup_empty in Hk|].
  apply decideFacet_ok; [done|done|]. unfold default_min. destruct (_ <=? 0) eqn:E; bool_to_prop; lia.
Qed.

Lemma sorted_facets_in m fr : fr ∈ sorted_facets m → ∃ k, m !! k = Some fr.
Proof.
  unfold sorted_facets. rewrite list_elem_of_fmap. intros ([k fr'] & -> & H). rewrite elem_of_sort_slice, elem_of_map_to_list in H.
  by exists k.
Qed.

(** A DISAGREE result always has its proof, which verifies. *)
Lemma FromTaskResult_disagree t res :
  OverallVerdict res = VerdictDisagree → (∀ k fr, RFacets res !! k = Some fr → fr_ok fr) →
  ∃ p, FromTaskResult (Some t) (Some res) = Ok p ∧ VerifyProof p = Ok ()
       ∧ PTaskID p = TaskID t ∧ POverall p = "DISAGREE"%string ∧ PFacets p = facet_evidence <$> sorted_facets (RFacets res).
Proof.
  intros Hv Hok. unfold FromTaskResult. rewrite Hv. rewrite bool_decide_true by done. cbn [negb].
  set (p := {| PVersion := 1; PTaskID := _ |}).
  destruct (digest p) as [d|] eqn:E.
  - exists (with_digest p d). split_and!; [done| |done..]. unfold VerifyProof. rewrite digest_with_digest, E.
    by rewrite bool_decide_true.
  - exfalso. unfold digest, MarshalCanonical in E.
    destruct (canonicalize_total (proof_json (with_digest p ""))) as [c Hc]; [|by rewrite Hc in E].
    apply (proof_json_small _ (sorted_facets (RFacets res))); [|done|unfold small; cbn; lia].
    apply Forall_forall. intros fr Hfr. apply sorted_facets_in in Hfr as [k Hk]. by eapply Hok.
Qed.

Lemma BuildEvent_abstain t res now :
  OverallVerdict res = VerdictAbstain → (∀ k fr, RFacets res !! k = Some fr → fr_ok fr) →
  ∃ ev, BuildEvent (Some t) (Some res) now = Ok ev ∧ VerifyEvent ev = Ok () ∧ ETaskID ev = TaskID t
        ∧ ESeverity ev = classifySeverity (verdicts_of t (RFacets res) VerdictAgree)
                           (verdicts_of t (RFacets res) VerdictAbstain) (verdicts_of t (RFacets res) VerdictDisagree)
        ∧ SFacetID <$> EFacets ev ≡ₚ FacetID <$> Facets t.
Proof.
  intros Hv Hok. unfold BuildEvent. rewrite Hv. rewrite bool_decide_true by done. cbn [negb]. cbv zeta.
  set (ev := {| EVersion := _; ETimestamp := now |}).
  destruct (computeDigest ev) as [d|] eqn:E.
  - exists (set_digest ev d). split_and!; try done.
    + unfold VerifyEvent. rewrite computeDigest_set, E. cbn [set_digest EDigest].
      assert (d ≠ ""%string) as Hd.
      { unfold computeDigest in E. destruct (canonicalize _); [|done]. injection E as <-. apply sha_hex_nonempty. }
      by rewrite bool_decide_false, bool_decide_true.
    + cbn [set_digest EFacets ev]. rewrite sort_slice_perm. rewrite <- list_fmap_compose.
      rewrite (list_fmap_ext (SFacetID ∘ _) FacetID); [done|]. intros i f _. cbn. by destruct (RFacets res !! FacetID f).
  - exfalso. unfold computeDigest in E.
    destruct (canonicalize_total (event_json (set_digest ev ""))) as [c Hc]; [|by rewrite Hc in E].
    apply (event_json_small _ (RFacets res)); [done|]. cbn [set_digest EFacets ev]. intros s Hs.
    rewrite elem_of_sort_slice, list_elem_of_fmap in Hs. destruct Hs as (f & -> & _). by exists f.
Qed.

(** Without a disagreeing facet the severity is low or medium. *)
Lemma classify_abstain a b : 0 <= a → 0 < b → classifySeverity a b 0 = if b =? 1 then SeverityLow else SeverityMedium.
Proof.
  intros Ha Hb. unfold classifySeverity. cbv zeta. destruct (a + b + 0 =? 0) eqn:E1; bool_to_prop; [lia|].
  destruct (a + b + 0 <? 0 * 2) eqn:E2; bool_to_prop; [lia|]. cbn [Z.ltb Z.compare].
  destruct (1 <? b) eqn:E3, (b =? 1) eqn:E4; bool_to_prop; (done || lia).
Qed.

Lemma count_positive {A} (p : A → bool) l x : x ∈ l → p x = true → 0 < count p l.
Proof.
  intros Hx Hp. apply list_elem_of_split in Hx as (l1 & l2 & ->). rewrite count_app, count_cons, Hp.
  pose proof (count_range p l1). pose proof (count_range p l2). lia.
Qed.

Lemma count_zero {A} (p : A → bool) l : (∀ x, x ∈ l → p x = false) → count p l = 0.
Proof.
  induction l as [|x l IH]; intros H; [done|]. rewrite count_cons, (H x) by (by left). rewrite IH; [done|].
  intros y Hy. apply H. by right.
Qed.

(** Every result of a task with different facet identifiers and at most 64
    providers yields the evidence of its verdict and no other: a verifying
    equivocation proof for DISAGREE, a verifying escalation event for ABSTAIN,
    nothing for AGREE. The event's severity is low for one abstaining facet and
    medium for several; the two higher grades do not occur. *)
Theorem evidence_routing iter poll t t0 t1 res now :
  iter_ok iter → NoDup (FacetID <$> Facets t) → (∀ i req, (length (poll i req) <= 64)%nat) →
  Decide iter poll (Some t) true t0 t1 = Ok res →
  match OverallVerdict res with
  | VerdictAgree =>
      FromTaskResult (Some t) (Some res) = Err (ErrVerdict "AGREE") ∧ BuildEvent (Some t) (Some res) now = Err (ErrVerdict "AGREE")
  | VerdictDisagree =>
      BuildEvent (Some t) (Some res) now = Err (ErrVerdict "DISAGREE")
      ∧ ∃ p, FromTaskResult (Some t) (Some res) = Ok p ∧ VerifyProof p = Ok () ∧ PTaskID p = TaskID t
             ∧ PFacets p = facet_evidence <$> sorted_facets (RFacets res)
             ∧ ∃ f, f ∈ PFacets p ∧ EvVerdict f = "DISAGREE"%string
  | VerdictAbstain =>
      FromTaskResult (Some t) (Some res) = Err (ErrVerdict "ABSTAIN")
      ∧ ∃ ev, BuildEvent (Some t) (Some res) now = Ok ev ∧ VerifyEvent ev = Ok () ∧ ETaskID ev = TaskID t
              ∧ SFacetID <$> EFacets ev ≡ₚ FacetID <$> Facets t
              ∧ ESeverity ev = if verdicts_of t (RFacets res) VerdictAbstain =? 1 then SeverityLow else SeverityMedium
  end.
Proof.
  intros Hi Hnd Hlen Hd. pose proof (Decide_ok _ _ _ _ _ _ Hi Hlen Hd) as Hok.
  destruct (Decide_spec _ _ _ _ _ _ Hi Hnd Hd) as (Hf & Hk & Hv).
  destruct (OverallVerdict res) eqn:E.
  - unfold FromTaskResult, BuildEvent. by rewrite E.
  - split; [unfold BuildEvent; by rewrite E|].
    destruct (FromTaskResult_disagree t res E Hok) as (p & Hp & Hver & Hid & _ & Hfacets). exists p. split_and!; try done.
    destruct Hv as (f & fr & Hin & Hfr & Hvd). exists (facet_evidence fr). split; [|cbn; by rewrite Hvd].
    rewrite Hfacets. apply list_elem_of_fmap_2. unfold sorted_facets. apply list_elem_of_fmap. exists (FacetID f, fr).
    split; [done|]. by rewrite elem_of_sort_slice, elem_of_map_to_list.
  - split; [unfold FromTaskResult; by rewrite E|].
    destruct (BuildEvent_abstain t res now E Hok) as (ev & Hev & Hver & Hid & Hsev & Hids). exists ev. split_and!; try done.
    destruct Hv as [(f & fr & Hin & Hfr & Hva) Hno]. rewrite Hsev.
    assert (verdicts_of t (RFacets res) VerdictDisagree = 0) as ->.
    { apply count_zero. intros s Hs. apply list_elem_of_fmap in Hs as (g & -> & Hg). apply bool_decide_eq_false.
      apply list_elem_of_lookup in Hg as [i Hg]. destruct (Hf i g Hg) as (gr & Hgr & _). rewrite Hgr. cbn. by eapply Hno. }
    apply classify_abstain; [apply count_range|]. apply (count_positive _ _ (facet_summary f (Some fr))).
    + apply list_elem_of_fmap. exists f. by rewrite Hfr.
    + cbn. by apply bool_decide_eq_true.
Qed.

(** ** The digests bind the content *)

(** The members of an object by key. *)
Lemma norm_member m m' t k v v' :
  norm (JObj m) = Some t → norm (JObj m') = Some t → NoDup (fst <$> m) → (k, v) ∈ m → (k, v') ∈ m' → norm v = norm v'.
Proof.
  cbn [norm]. set (f := λ kv : string * json, _).
  assert (∀ m l k v, mapM f m = Some l → (k, v) ∈ m → ∃ u, norm v = Some u ∧ (k, u) ∈ sort_slice tree_less l) as Hin.
  { clear. intros m l k v Hl Hkv. apply mapM_Some in Hl. apply list_elem_of_lookup in Hkv as [i Hi].
    destruct (Forall2_lookup_l _ _ _ _ _ Hl Hi) as ([k' u] & Hu & E). cbn in E. destruct (norm v) as [u'|]; [|done].
    injection E as <- <-. exists u'. split; [done|]. rewrite elem_of_sort_slice. by eapply list_elem_of_lookup_2. }
  destruct (mapM f m) as [l|] eqn:E; [|done]. destruct (mapM f m') as [l'|] eqn:E'; [|done].
  intros [= Ht] [= Ht'] Hnd Hv Hv'. rewrite <- Ht in Ht'. injection Ht' as Hs.
  destruct (Hin _ _ _ _ E Hv) as (u & -> & Hu). destruct (Hin _ _ _ _ E' Hv') as (u' & -> & Hu'). rewrite Hs in Hu'.
  f_equal. rewrite elem_of_sort_slice in Hu, Hu'.
  assert (NoDup (fst <$> l)) as Hl.
  { replace (fst <$> l) with (fst <$> m); [done|]. apply mapM_Some in E. clear -E.
    induction E as [|[k v] y ? ? H ? IH]; [done|]. cbn in H. destruct (norm v); [|done]. injection H as <-.
    rewrite !fmap_cons. by rewrite IH. }
  apply list_elem_of_lookup in Hu as [i Hi], Hu' as [j Hj].
  assert (i = j) as ->.
  { eapply (NoDup_lookup (fst <$> l)); [done| |]; rewrite list_lookup_fmap; [rewrite Hi | rewrite Hj]; done. }
  congruence.
Qed.

(** The same through the reading back. *)
Lemma norm_any_member m m' t k v v' :
  norm (as_any (JObj m)) = Some t → norm (as_any (JObj m')) = Some t → NoDup (sanitize ∘ fst <$> m) →
  (k, v) ∈ m → (k, v') ∈ m' → norm (as_any v) = norm (as_any v').
Proof.
  cbn [as_any]. intros H H' Hnd Hv Hv'.
  eapply (norm_member _ _ t (sanitize k)); [exact H|exact H'| | |].
  - replace (fst <$> _) with (sanitize ∘ fst <$> m); [done|]. rewrite <- list_fmap_compose. apply list_fmap_ext. by intros i [? ?] _.
  - apply list_elem_of_fmap. by exists (k, v).
  - apply list_elem_of_fmap. by exists (k, v').
Qed.

Lemma norm_str s s' : norm (as_any (JStr s)) = norm (as_any (JStr s')) → sanitize s = sanitize s'.
Proof. by intros [= H]. Qed.

Lemma norm_arr {A B} (f : A → json) (g : B → json) l l' t :
  norm (as_any (JArr (f <$> l))) = Some t → norm (as_any (JArr (g <$> l'))) = Some t →
  Forall2 (λ a b, ∃ u, norm (as_any (f a)) = Some u ∧ norm (as_any (g b)) = Some u) l l'.
Proof.
  cbn [as_any norm]. rewrite <- !list_fmap_compose.
  destruct (mapM norm ((as_any ∘ f) <$> l)) as [k|] eqn:E; [|done].
  destruct (mapM norm ((as_any ∘ g) <$> l')) as [k'|] eqn:E'; [|done]. intros [= <-] [= ->].
  apply mapM_Some in E, E'. apply Forall2_fmap_l in E. apply Forall2_fmap_l in E'. clear -E E'.
  revert l' E'. induction E as [|a u l k Ha _ IH]; intros l' E'; inversion E'; subst; constructor; eauto.
Qed.

(** The parts of two proofs that the digest binds. *)
Definition same_vote (v w : Vote) : Prop :=
  sanitize (EvProvider v) = sanitize (EvProvider w) ∧ sanitize (EvValue v) = sanitize (EvValue w)
  ∧ sanitize (EvRaw v) = sanitize (EvRaw w) ∧ json_float (f_of_Z (EvLatencyMs v)) = json_float (f_of_Z (EvLatencyMs w)).

Definition same_evidence (f g : FacetEvidence) : Prop :=
  sanitize (EvFacetID f) = sanitize (EvFacetID g) ∧ sanitize (EvVerdict f) = sanitize (EvVerdict g)
  ∧ json_float (EvFraction f) = json_float (EvFraction g) ∧ Forall2 same_vote (EvVotes f) (EvVotes g).

Definition same_proof (p q : Proof) : Prop :=
  sanitize (PTaskID p) = sanitize (PTaskID q) ∧ sanitize (PInput p) = sanitize (PInput q)
  ∧ sanitize (PSystemMsg p) = sanitize (PSystemMsg q) ∧ sanitize (PStartedAt p) = sanitize (PStartedAt q)
  ∧ sanitize (PCompletedAt p) = sanitize (PCompletedAt q) ∧ sanitize (POverall p) = sanitize (POverall q)
  ∧ Forall2 same_evidence (PFacets p) (PFacets q).

(** The keys of the documents are different. *)
Ltac keys_differ :=
  cbn [app fmap list_fmap compose]; repeat (apply NoDup_cons; split; [vm_compute; set_solver|]); apply NoDup_nil_2.

Lemma norm_num x y : norm (as_any (JNum x)) = norm (as_any (JNum y)) → json_float x = json_float y.
Proof. cbn. destruct (json_float x), (json_float y); cbn; congruence. Qed.

Lemma norm_int x y : norm (as_any (JInt x)) = norm (as_any (JInt y)) → json_float (f_of_Z x) = json_float (f_of_Z y).
Proof. apply norm_num. Qed.

Lemma same_vote_norm v w u :
  norm (as_any (vote_json v)) = Some u → norm (as_any (vote_json w)) = Some u → same_vote v w.
Proof.
  intros Hv Hw. unfold vote_json, omit_empty in *.
  assert (∀ b e, NoDup (sanitize ∘ fst <$> [("provider_id"%string, JStr (EvProvider v)); ("value"%string, JStr (EvValue v));
     ("raw"%string, JStr (EvRaw v)); ("latency_ms"%string, JInt (EvLatencyMs v))] ++ (if b : bool then [] else [("err"%string, JStr e)]))) as Hnd
    by (intros [|] e; keys_differ).
  unfold same_vote. split_and!.
  - apply norm_str. eapply (norm_any_member _ _ u "provider_id"); [exact Hv|exact Hw|apply Hnd|set_solver..].
  - apply norm_str. eapply (norm_any_member _ _ u "value"); [exact Hv|exact Hw|apply Hnd|set_solver..].
  - apply norm_str. eapply (norm_any_member _ _ u "raw"); [exact Hv|exact Hw|apply Hnd|set_solver..].
  - apply norm_int. eapply (norm_any_member _ _ u "latency_ms"); [exact Hv|exact Hw|apply Hnd|set_solver..].
Qed.

Lemma norm_arr_eq {A} (f : A → json) l l' :
  is_Some (norm (as_any (JArr (f <$> l)))) → norm (as_any (JArr (f <$> l))) = norm (as_any (JArr (f <$> l'))) →
  Forall2 (λ a b, ∃ u, norm (as_any (f a)) = Some u ∧ norm (as_any (f b)) = Some u) l l'.
Proof. intros [t Ht] E. rewrite Ht in E. by eapply norm_arr. Qed.

(** A member of an object with a tree has a tree. *)
Lemma norm_any_total m t k v : norm (as_any (JObj m)) = Some t → (k, v) ∈ m → is_Some (norm (as_any v)).
Proof.
  cbn [as_any norm]. intros H Hkv. destruct (mapM _ _) as [l|] eqn:E; [|done]. apply mapM_Some in E.
  apply list_elem_of_lookup in Hkv as [i Hi].
  assert (((λ kv : string * json, let (k, v) := kv in (sanitize k, as_any v)) <$> m) !! i = Some (sanitize k, as_any v)) as Hi'
    by (rewrite list_lookup_fmap, Hi; done).
  destruct (Forall2_lookup_l _ _ _ _ _ E Hi') as (y & _ & Hy). cbn in Hy. destruct (norm (as_any v)); [eauto|done].
Qed.

Lemma same_evidence_norm f g u :
  norm (as_any (facet_json f)) = Some u → norm (as_any (facet_json g)) = Some u → same_evidence f g.
Proof.
  intros Hf Hg. unfold facet_json, omit_empty in *.
  assert (∀ b e, NoDup (sanitize ∘ fst <$> [("facet_id"%string, JStr (EvFacetID f)); ("verdict"%string, JStr (EvVerdict f))]
     ++ (if b : bool then [] else [("winner"%string, JStr e)])
     ++ [("live_count"%string, JInt (EvLiveCount f)); ("agreement_fraction"%string, JNum (EvFraction f));
         ("votes"%string, JArr (vote_json <$> EvVotes f))])) as Hnd by (intros [|] e; keys_differ).
  unfold same_evidence. split_and!.
  - apply norm_str. eapply (norm_any_member _ _ u "facet_id"); [exact Hf|exact Hg|apply Hnd|set_solver..].
  - apply norm_str. eapply (norm_any_member _ _ u "verdict"); [exact Hf|exact Hg|apply Hnd|set_solver..].
  - apply norm_num. eapply (norm_any_member _ _ u "agreement_fraction"); [exact Hf|exact Hg|apply Hnd|set_solver..].
  - eapply Forall2_impl; [apply norm_arr_eq|intros v w (x & Hv & Hw); exact (same_vote_norm v w x Hv Hw)].
    + eapply (norm_any_total _ u "votes"); [exact Hf|set_solver].
    + eapply (norm_any_member _ _ u "votes"); [exact Hf|exact Hg|apply Hnd|set_solver..].
Qed.

Lemma same_proof_norm p q u :
  norm (as_any (proof_json p)) = Some u → norm (as_any (proof_json q)) = Some u → same_proof p q.
Proof.
  intros Hp Hq. unfold proof_json in *.
  assert (NoDup (sanitize ∘ fst <$> [("version"%string, JInt (PVersion p)); ("task_id"%string, JStr (PTaskID p));
     ("input"%string, JStr (PInput p)); ("system_msg"%string, JStr (PSystemMsg p));
     ("facets"%string, JArr (facet_json <$> PFacets p)); ("started_at"%string, JStr (PStartedAt p));
     ("completed_at"%string, JStr (PCompletedAt p)); ("overall_verdict"%string, JStr (POverall p));
     ("digest_hex"%string, JStr (DigestHex p))])) as Hnd by keys_differ.
  unfold same_proof. split_and!.
  - apply norm_str. eapply (norm_any_member _ _ u "task_id"); [exact Hp|exact Hq|exact Hnd|set_solver..].
  - apply norm_str. eapply (norm_any_member _ _ u "input"); [exact Hp|exact Hq|exact Hnd|set_solver..].
  - apply norm_str. eapply (norm_any_member _ _ u "system_msg"); [exact Hp|exact Hq|exact Hnd|set_solver..].
  - apply norm_str. eapply (norm_any_member _ _ u "started_at"); [exact Hp|exact Hq|exact Hnd|set_solver..].
  - apply norm_str. eapply (norm_any_member _ _ u "completed_at"); [exact Hp|exact Hq|exact Hnd|set_solver..].
  - apply norm_str. eapply (norm_any_member _ _ u "overall_verdict"); [exact Hp|exact Hq|exact Hnd|set_solver..].
  - eapply Forall2_impl; [apply norm_arr_eq|intros f g (x & Hf & Hg); exact (same_evidence_norm f g x Hf Hg)].
    + eapply (norm_any_total _ u "facets"); [exact Hp|set_solver].
    + eapply (norm_any_member _ _ u "facets"); [exact Hp|exact Hq|exact Hnd|set_solver..].
Qed.

(** The canonical bytes under the digest. *)
Definition digest_input (p : Proof) : bytes := bytes_of (default ""%string (MarshalCanonical (with_digest p ""))).

(** Two verifying proofs with one digest carry the same task, prompt, verdict and
    evidence, facet by facet and vote by vote (strings up to the replacement of
    invalid UTF-8, latencies and fractions as they are printed), or their
    canonical bytes are a SHA-256 collision. *)
Theorem proof_binding p q :
  VerifyProof p = Ok () → VerifyProof q = Ok () → DigestHex p = DigestHex q →
  same_proof p q ∨ is_collision (digest_input p, digest_input q).
Proof.
  unfold VerifyProof. intros Hp Hq Hd.
  destruct (digest p) as [dp|] eqn:Ep; [|done]. case_bool_decide as Hdp; [|done].
  destruct (digest q) as [dq|] eqn:Eq; [|done]. case_bool_decide as Hdq; [|done].
  unfold digest, digest_input in *. destruct (MarshalCanonical (with_digest p "")) as [a|] eqn:Ea; [|done].
  destruct (MarshalCanonical (with_digest q "")) as [b|] eqn:Eb; [|done]. cbn [default].
  injection Ep as Ep. injection Eq as Eq. assert (sha_hex a = sha_hex b) as Hh by congruence.
  apply hex_encode_inj in Hh. destruct (decide (a = b)) as [->|Hne].
  - left. destruct (canonicalize_inj _ _ _ Ea Eb) as (t & H1 & H2).
    apply (same_proof_norm _ _ _ H1) in H2. exact H2.
  - right. split; [|exact Hh]. intros E. by apply bytes_of_inj in E.
Qed.

(** ** Delivery *)

(** Every sink is tried, and an error is reported iff some sink failed. *)
Lemma multi_deliver_spec sinks ev :
  fst (multi_deliver sinks ev) = (λ s : Sink, s ev) <$> sinks
  ∧ snd (multi_deliver sinks ev) = head (omap (λ s : Sink, s ev) sinks).
Proof.
  split; [done|]. unfold multi_deliver. cbn [snd].
  assert (∀ e l, foldl (λ first e : option string, match first with Some _ => first | None => e end) (Some e) l = Some e) as Hk.
  { intros e l. induction l as [|x l IH]; [done|]. exact IH. }
  induction sinks as [|s sinks IH]; [done|]. cbn. destruct (s ev) as [e|]; [apply Hk|exact IH].
Qed.

(** No dot of a Telegram text stands without a backslash before it. *)
Fixpoint dots_ok (prev : Ascii.ascii) (s : string) : bool :=
  match s with
  | EmptyString => true
  | String c s => (negb (bool_decide (c = dot)) || bool_decide (prev = backslash)) && dots_ok c s
  end.

Lemma dots_ok_char p c s : c ≠ dot → dots_ok p (String c s) = dots_ok c s.
Proof. intros H. cbn [dots_ok]. by rewrite (bool_decide_false (c = dot)). Qed.

Lemma high_not_dot a b c : (46 < a)%N → ascii_in a b c = true → c ≠ dot.
Proof. intros Ha Hc ->. unfold ascii_in in Hc. apply andb_prop in Hc as [Hc _]. apply N.leb_le in Hc. change (Ascii.N_of_ascii dot) with 46%N in Hc. lia. Qed.

Lemma second_not_dot c d : second_ok c d = true → d ≠ dot.
Proof.
  unfold second_ok. intros H. repeat case_match; eapply high_not_dot; try exact H; try done; lia.
Qed.

Lemma dots_ok_rune p e s :
  wf_enc e = true → e ≠ String dot EmptyString → (∀ q, (e = String backslash EmptyString → q = backslash) → dots_ok q s = true) →
  dots_ok p (e +:+ s)%string = true.
Proof.
  intros He Hd Hs. destruct e as [|c e]; [done|]. destruct e as [|d e].
  { change (String c "" +:+ s)%string with (String c s). rewrite dots_ok_char by congruence. apply Hs. congruence. }
  destruct e as [|x e]; [|destruct e as [|y e]; [|destruct e; [|done]]]; cbn [wf_enc] in He.
  - apply andb_prop in He as [H1 H2]. change (String c (String d "") +:+ s)%string with (String c (String d s)).
    rewrite !dots_ok_char; [by apply Hs| |]; eapply high_not_dot; try eassumption; lia.
  - apply andb_prop in He as [[H1 H2]%andb_prop H3].
    change (String c (String d (String x "")) +:+ s)%string with (String c (String d (String x s))).
    rewrite !dots_ok_char; [by apply Hs| | |]; first [by eapply second_not_dot|eapply high_not_dot; try eassumption; lia].
  - apply andb_prop in He as [[[H1 H2]%andb_prop H3]%andb_prop H4].
    change (String c (String d (String x (String y ""))) +:+ s)%string with (String c (String d (String x (String y s)))).
    rewrite !dots_ok_char; [by apply Hs| | | |]; first [by eapply second_not_dot|eapply high_not_dot; try eassumption; lia].
Qed.

Lemma replace_dots_ok s prev p :
  (rune_text prev = String backslash EmptyString → p = backslash) → dots_ok p (replace_dots prev (utf8 s)) = true.
Proof.
  revert prev p. induction s as [|c s E IH|e s He E IH] using utf8_ind; intros prev p Hp; [done|..]; rewrite E; cbn [replace_dots].
  - change (bool_decide (rune_text InvalidByte = String dot EmptyString)) with false. cbn [andb].
    apply (dots_ok_rune p replacement); [done|done|]. intros q Hq. by apply IH.
  - cbn [rune_text]. case_bool_decide as Hdot; cbn [andb].
    + subst e. case_bool_decide as Hb; cbn [negb].
      * change (dots_ok p (String dot (replace_dots (ValidRune (String dot "")) (utf8 s))) = true). cbn [dots_ok].
        rewrite (bool_decide_true (p = backslash)) by auto. rewrite orb_true_r. apply IH. done.
      * change (dots_ok p (String backslash (String dot (replace_dots (ValidRune (String dot "")) (utf8 s)))) = true).
        rewrite dots_ok_char by done. cbn [dots_ok]. rewrite orb_true_r. apply IH. done.
    + apply dots_ok_rune; [done|done|]. intros q Hq. by apply IH.
Qed.

Lemma telegram_dots_escaped ev : dots_ok dot (formatTelegramText ev) = true.
Proof. apply replace_dots_ok. done. Qed.

(** A backslash of the text is not escaped itself: it takes the escape of the
    dot that follows, which MarkdownV2 then reads as an unescaped one. *)
Lemma backslash_unescaped :
  escapeMarkdownV2 (String backslash ".") = String backslash (String backslash ".")
  ∧ replaceUnescapedDots (String backslash (String backslash ".")) = String backslash (String backslash ".").
Proof. split; vm_compute; reflexivity. Qed.

(** ** Samples *)

Definition ex_split (_ : nat) (_ : Request) : list PollResult := [ex_poll "a" (Some "yes"%string); ex_poll "b" (Some "no"%string)].
Definition ex_split_task : Task := ex_task [ex_facet] 0 f_zero.
Definition ex_split_result : TaskResult :=
  match Decide ex_iter ex_split (Some ex_split_task) true 1 2 with
  | Ok res => res
  | Err _ => {| RTaskID := ""; OverallVerdict := VerdictAbstain; RFacets := ∅; StartedAt := 0; CompletedAt := 0 |}
  end.

Lemma evidence_routing_witness :
  ∃ p, FromTaskResult (Some ex_split_task) (Some ex_split_result) = Ok p ∧ VerifyProof p = Ok ().
Proof.
  assert (OverallVerdict ex_split_result = VerdictDisagree) as E by (vm_compute; reflexivity).
  pose proof (evidence_routing ex_iter ex_split ex_split_task 1 2 ex_split_result 3 ex_iter_ok (NoDup_singleton _)
    ltac:(intros i req; cbn; lia) eq_refl) as H.
  rewrite E in H. destruct H as (_ & p & Hp & Hv & _). exists p. split; [exact Hp|exact Hv].
Defined.

Definition ex_proof : Proof :=
  match FromTaskResult (Some ex_split_task) (Some ex_split_result) with
  | Ok p => p
  | Err _ => {| PVersion := 0; PTaskID := ""; PInput := ""; PSystemMsg := ""; PFacets := []; PStartedAt := ""; PCompletedAt := "";
                POverall := ""; DigestHex := "" |}
  end.

Lemma ex_proof_verifies : VerifyProof ex_proof = Ok () ∧ EvVerdict <$> PFacets ex_proof = ["DISAGREE"%string].
Proof. split; vm_compute; reflexivity. Qed.

Lemma proof_binding_witness : same_proof ex_proof ex_proof ∨ is_collision (digest_input ex_proof, digest_input ex_proof).
Proof. apply (proof_binding ex_proof ex_proof); [apply ex_proof_verifies|apply ex_proof_verifies|reflexivity]. Defined.

(** A tampered proof does not verify. *)
Lemma tampered_proof :
  VerifyProof {| PVersion := 1; PTaskID := "t2"; PInput := PInput ex_proof; PSystemMsg := PSystemMsg ex_proof;
                 PFacets := PFacets ex_proof; PStartedAt := PStartedAt ex_proof; PCompletedAt := PCompletedAt ex_proof;
                 POverall := POverall ex_proof; DigestHex := DigestHex ex_proof |} = Err ErrMismatch.
Proof. vm_compute. reflexivity. Qed.
