(* ===== verification/Engine.v ===== *)
(** * The proof engine ([engine/internal/prover/proof.go], [hasher/hasher.go])

    Generation, revocation, verification, eviction, listing, restoring and
    statistics of proofs. The clock readings and the iteration order of the
    proof map are arguments. Proofs are values: the pointers the engine hands
    out are only written by their callers for the anchoring fields. *)

From S2P Require Import Prelude GoLib Sha256 Merkle.

Local Open Scope Z_scope.

(** ** Commitments ([hasher.go]) *)

Definition HexHash (data : bytes) : string := hex_encode (sha256 data).

Definition CommitHash (input output model : bytes) : string := HexHash (input ++ output ++ model).

Definition VerifyCommit (commit : string) (input output model : bytes) : bool :=
  bool_decide (CommitHash input output model = commit).

(** ** Data ([types.go]) *)

Record Proof := {
  PID : string;
  Agent : string;
  PH : string; IH : string; OH : string; MH : string;
  PRoot : string;
  PPath : list string;
  Idx : Z;
  TS : Z;
  Valid : bool;
  Revoked : bool;
  UseCase : string;
  PubKey : string;
  Deploy : string; AnchorHash : string; AnchoringStatus : string;
  GenMs : Z;
  Mode : string;
}.

Record ProofEngine := { proofs : gmap string Proof; seq : Z }.

Inductive EngineError := ErrProofNotFound (id : string) | ErrAlreadyRevoked (id : string).

Record Stats := {
  Total : Z; SValid : Z; SRevoked : Z; Agents : nat;
  AvgGenMs : float64; MaxDepth : nat; UseCases : gmap string Z;
}.

(** ** Operations *)

Definition New : ProofEngine := {| proofs := ∅; seq := 0 |}.

Definition MaxProofs : Z := 100000.

Definition evictIfNeeded (e : ProofEngine) : ProofEngine :=
  if Z.of_nat (size (proofs e)) <=? MaxProofs then e
  else {| proofs := filter (λ kv, Revoked (snd kv) = false) (proofs e); seq := seq e |}.

Definition proof_id (n : Z) : string := ("P-" +:+ itoa n)%string.

(** [GenerateWithKey]: [elapsed] milliseconds pass, [now] is the final clock. *)
Definition GenerateWithKey (e : ProofEngine) (elapsed now : Z) (agent pubKey : string)
    (input output model : bytes) (uc mode : string) : option (ProofEngine * Proof) :=
  let e := evictIfNeeded e in
  let n := wrap64 (seq e + 1) in
  root ← Root [input; output; model];
  let p := {| PID := proof_id n; Agent := agent; PH := CommitHash input output model;
              IH := HexHash input; OH := HexHash output; MH := HexHash model;
              PRoot := root; PPath := GetPath [input; output; model] 0; Idx := 0; TS := unix now;
              Valid := true; Revoked := false; UseCase := uc; PubKey := pubKey;
              Deploy := ""; AnchorHash := ""; AnchoringStatus := "";
              GenMs := if elapsed <? 1 then 1 else elapsed;
              Mode := if bool_decide (mode = ""%string) then "local"%string else mode |} in
  Some ({| proofs := <[proof_id n := p]> (proofs e); seq := n |}, p).

Definition Generate (e : ProofEngine) (elapsed now : Z) (agent : string) (input output model : bytes) (uc : string)
    : option (ProofEngine * Proof) :=
  GenerateWithKey e elapsed now agent "" input output model uc "local".

Definition GetProof (e : ProofEngine) (pid : string) : option Proof := proofs e !! pid.

Definition revoke_proof (p : Proof) : Proof :=
  {| PID := PID p; Agent := Agent p; PH := PH p; IH := IH p; OH := OH p; MH := MH p; PRoot := PRoot p;
     PPath := PPath p; Idx := Idx p; TS := TS p; Valid := false; Revoked := true; UseCase := UseCase p;
     PubKey := PubKey p; Deploy := Deploy p; AnchorHash := AnchorHash p; AnchoringStatus := AnchoringStatus p;
     GenMs := GenMs p; Mode := Mode p |}.

Definition Revoke (e : ProofEngine) (pid : string) : result EngineError ProofEngine :=
  match proofs e !! pid with
  | None => Err (ErrProofNotFound pid)
  | Some p =>
      if Revoked p then Err (ErrAlreadyRevoked pid)
      else Ok {| proofs := <[pid := revoke_proof p]> (proofs e); seq := seq e |}
  end.

Definition evictable (cutoff : Z) (p : Proof) : bool := Revoked p && (TS p <? cutoff).

Definition EvictRevoked (e : ProofEngine) (now maxAge : Z) : ProofEngine * Z :=
  let cutoff := unix (now - maxAge) in
  ({| proofs := filter (λ kv, evictable cutoff (snd kv) = false) (proofs e); seq := seq e |},
   count (evictable cutoff) (snd <$> map_to_list (proofs e))).

Definition VerifyProof (e : ProofEngine) (pid : string) : result EngineError bool :=
  match proofs e !! pid with
  | None => Err (ErrProofNotFound pid)
  | Some p => Ok (Valid p && negb (Revoked p))
  end.

(** Newest first; [order] is the iteration order of the map's values. *)
Definition newer (a b : Proof) : bool := TS b <? TS a.

Definition ListProofs (order : list Proof) : list Proof := sort_slice newer order.

Record ListFilter := { FAgent : string; FPubKey : string; FMode : string; Page : Z; Limit : Z }.

Definition field_matches (want have : string) : bool :=
  bool_decide (want = ""%string) || bool_decide (have = want).

Definition selected (f : ListFilter) (p : Proof) : bool :=
  field_matches (FAgent f) (Agent p) && field_matches (FPubKey f) (PubKey p) && field_matches (FMode f) (Mode p).

(** [l[lo:hi]], for [hi] at most the length; [None] is a panic. *)
Definition slice {A} (lo hi : Z) (l : list A) : option (list A) :=
  if (lo <? 0) || (hi <? lo) then None else Some (take (Z.to_nat (hi - lo)) (drop (Z.to_nat lo) l)).

Definition ListFiltered (order : list Proof) (f : ListFilter) : option (list Proof * Z) :=
  let filtered := sort_slice newer (List.filter (selected f) order) in
  let total := Z.of_nat (length filtered) in
  let limit := if Limit f <=? 0 then 50 else Limit f in
  let page := if Page f <=? 0 then 1 else Page f in
  let start := wrap64 ((page - 1) * limit) in
  if total <=? start then Some ([], total)
  else
    let end_ := wrap64 (start + limit) in
    let end_ := if total <? end_ then total else end_ in
    ps ← slice start end_ filtered; Some (ps, total).

(** [Sscanf(id, "P-%d", &n)]: an optional sign and a maximal run of digits. *)
Fixpoint scan_digits (acc : option Z) (s : string) : option Z :=
  match s with
  | String c s' => if ascii_in 48 57 c then scan_digits (Some (default 0 acc * 10 + Z.of_N (Ascii.N_of_ascii c - 48))) s'
                   else acc
  | EmptyString => acc
  end.

Definition scan_number (s : string) : option Z :=
  let s := trim_left (λ c, bool_decide (Ascii.N_of_ascii c ∈ [32; 9; 11; 12]%N)) s in
  match s with
  | String c s' =>
      if bool_decide (Ascii.N_of_ascii c = 45%N) then Z.opp <$> scan_digits None s'
      else if bool_decide (Ascii.N_of_ascii c = 43%N) then scan_digits None s'
      else scan_digits None s
  | EmptyString => None
  end.

Definition scan_id (id : string) : option Z :=
  if has_prefix id "P-" then
    n ← scan_number (String.substring 2 (String.length id - 2) id);
    if (int64_min <=? n) && (n <=? int64_max) then Some n else None
  else None.

Definition Restore (e : ProofEngine) (p : Proof) : ProofEngine :=
  {| proofs := <[PID p := p]> (proofs e);
     seq := match scan_id (PID p) with
            | Some n => if seq e <? n then n else seq e
            | None => seq e
            end |}.

Definition stats_step (s : Stats * list string * Z) (p : Proof) : Stats * list string * Z :=
  let '(s, agents, totalMs) := s in
  let uc := if bool_decide (UseCase p = ""%string) then "general"%string else UseCase p in
  ({| Total := Total s + 1;
      SValid := if Valid p && negb (Revoked p) then SValid s + 1 else SValid s;
      SRevoked := if Revoked p then SRevoked s + 1 else SRevoked s;
      Agents := Agents s; AvgGenMs := AvgGenMs s;
      MaxDepth := if (MaxDepth s <? length (PPath p))%nat then length (PPath p) else MaxDepth s;
      UseCases := <[uc := default 0 (UseCases s !! uc) + 1]> (UseCases s) |},
   if bool_decide (Agent p ∈ agents) then agents else Agent p :: agents,
   wrap64 (totalMs + GenMs p)).

Definition GetStats (order : list Proof) : Stats :=
  let '(s, agents, totalMs) :=
    foldl stats_step ({| Total := 0; SValid := 0; SRevoked := 0; Agents := 0; AvgGenMs := f_zero; MaxDepth := 0;
                         UseCases := ∅ |}, [], 0) order in
  {| Total := Total s; SValid := SValid s; SRevoked := SRevoked s; Agents := length agents;
     AvgGenMs := if 0 <? Total s then f_div (f_of_Z totalMs) (f_of_Z (Total s)) else f_zero;
     MaxDepth := MaxDepth s; UseCases := UseCases s |}.

(** One change of the engine's state that its own operations make. *)
Inductive engine_step : ProofEngine → ProofEngine → Prop :=
| step_generate e elapsed now agent pk i o m uc mode e' p :
    seq e < int64_max →
    GenerateWithKey e elapsed now agent pk i o m uc mode = Some (e', p) → engine_step e e'
| step_revoke e pid e' : Revoke e pid = Ok e' → engine_step e e'
| step_evict e now maxAge : engine_step e (fst (EvictRevoked e now maxAge)).

(** Loading at start-up. *)
Definition restore_all (ps : list Proof) : ProofEngine := foldl Restore New ps.

(** ** Identifiers *)


(** Scanning the digits of [x] appends them to the number read so far. *)
Lemma scan_digits_pretty x :
  ∀ s, ∃ d, 0 <= d ∧ ∀ a, scan_digits (Some a) (pretty_N_go x s) = scan_digits (Some (a * 10 ^ d + Z.of_N x)) s.
Proof.
  induction (N.lt_wf_0 x) as [x _ IH]. intros s. destruct (decide (x = 0)%N) as [->|Hx].
  - exists 0. split; [lia|]. intros a. rewrite pretty_N_go_0. do 2 f_equal. lia.
  - destruct (IH (x / 10)%N ltac:(apply N.div_lt; lia) (String (pretty_N_char (x mod 10)) s)) as (d & Hd & H).
    exists (d + 1). split; [lia|]. intros a. rewrite pretty_N_go_step by lia. rewrite H. cbn [scan_digits].
    assert (ascii_in 48 57 (pretty_N_char (x mod 10)) = true ∧
      Z.of_N (Ascii.N_of_ascii (pretty_N_char (x mod 10)) - 48) = Z.of_N (x mod 10)) as [-> ->].
    { pose proof (N.mod_lt x 10 ltac:(lia)). set (r := (x mod 10)%N) in *.
      assert (r = 0 ∨ r = 1 ∨ r = 2 ∨ r = 3 ∨ r = 4 ∨ r = 5 ∨ r = 6 ∨ r = 7 ∨ r = 8 ∨ r = 9)%N as Hr by lia.
      clearbody r. repeat destruct Hr as [->|Hr]; [done..|by subst r]. }
    cbn [default from_option]. unfold Datatypes.id. do 2 f_equal. rewrite Z.pow_add_r by lia. rewrite N2Z.inj_div, N2Z.inj_mod.
    replace (a * (10 ^ d * 10 ^ 1)) with (a * 10 ^ d * 10) by ring. set (q := a * 10 ^ d).
    change (Z.of_N 10) with 10. pose proof (Z.div_mod (Z.of_N x) 10 ltac:(lia)). lia.
Qed.

Lemma pretty_N_head x s :
  (0 < x)%N → ∃ c s', pretty_N_go x s = String c s' ∧ ascii_in 48 57 c = true.
Proof.
  revert s. induction (N.lt_wf_0 x) as [x _ IH]. intros s Hx. rewrite pretty_N_go_step by done.
  destruct (decide (x / 10 = 0)%N) as [E|E].
  - rewrite E, pretty_N_go_0. eexists _, _. split; [done|].
    pose proof (N.mod_lt x 10 ltac:(lia)). set (r := (x mod 10)%N) in *.
    assert (r = 0 ∨ r = 1 ∨ r = 2 ∨ r = 3 ∨ r = 4 ∨ r = 5 ∨ r = 6 ∨ r = 7 ∨ r = 8 ∨ r = 9)%N as Hr by lia.
    clearbody r. repeat destruct Hr as [->|Hr]; [done..|by subst r].
  - apply IH; [apply N.div_lt; lia|lia].
Qed.

Lemma scan_digits_none c s : ascii_in 48 57 c = true → scan_digits None (String c s) = scan_digits (Some 0) (String c s).
Proof. intros H. cbn. by rewrite H. Qed.

Lemma scan_number_pretty n : 0 < n → scan_number (itoa n) = Some n.
Proof.
  intros Hn. destruct n as [|p|]; [lia| |lia]. unfold itoa, scan_number.
  change (pretty (Z.pos p)) with (pretty_N_go (N.pos p) EmptyString).
  destruct (pretty_N_head (N.pos p) "" ltac:(lia)) as (c & s' & E & Hc).
  destruct (scan_digits_pretty (N.pos p) "") as (d & _ & Hd). specialize (Hd 0). rewrite E in Hd |- *.
  unfold ascii_in in Hc. apply andb_prop in Hc as Hc'. destruct Hc' as [H1%N.leb_le H2%N.leb_le].
  cbn [trim_left]. rewrite (bool_decide_eq_false_2 (_ ∈ _)) by (rewrite !elem_of_cons, elem_of_nil; lia).
  rewrite !bool_decide_eq_false_2 by lia. rewrite scan_digits_none by done. rewrite Hd. cbn [scan_digits].
  f_equal.
Qed.

Lemma substring_all s : String.substring 0 (String.length s) s = s.
Proof. induction s as [|c s IH]; cbn; [done|]. by rewrite IH. Qed.

Lemma prefix_empty s : String.prefix "" s = true.
Proof. by destruct s. Qed.

Lemma scan_proof_id n : 0 < n <= int64_max → scan_id (proof_id n) = Some n.
Proof.
  intros Hn. unfold scan_id. assert (has_prefix (proof_id n) "P-" = true) as -> by (apply prefix_empty).
  assert (String.substring 2 (String.length (proof_id n) - 2) (proof_id n) = itoa n) as ->.
  { change (String.substring 0 (String.length (itoa n) - 0) (itoa n) = itoa n). rewrite Nat.sub_0_r. apply substring_all. }
  rewrite scan_number_pretty by lia. cbn [mbind option_bind].
  destruct (Z.leb_spec int64_min n), (Z.leb_spec n int64_max); unfold int64_min in *; try lia. done.
Qed.

Lemma scan_id_max id n : scan_id id = Some n → n <= int64_max.
Proof.
  unfold scan_id. destruct (has_prefix _ _); [|done]. destruct (scan_number _) as [k|]; [|done]. cbn.
  destruct (Z.leb_spec int64_min k), (Z.leb_spec k int64_max); cbn; naive_solver.
Qed.

Lemma proof_id_inj n k : proof_id n = proof_id k → n = k.
Proof. intros H. change (String (chr 80) (String (chr 45) (pretty n)) = String (chr 80) (String (chr 45) (pretty k))) in H. injection H as H. by apply (inj pretty) in H. Qed.

(** No stored identifier is one the engine would issue next. *)
Record engine_inv (e : ProofEngine) : Prop := {
  inv_seq : 0 <= seq e <= int64_max;
  inv_fresh n : seq e < n → n <= int64_max → proofs e !! proof_id n = None;
}.

Lemma New_inv : engine_inv New.
Proof. split; cbn; [unfold int64_max; lia|]. intros. apply lookup_empty. Qed.

Lemma Restore_inv e p : engine_inv e → engine_inv (Restore e p).
Proof.
  intros [H1 H2]. unfold Restore. destruct (scan_id (PID p)) as [k|] eqn:E.
  - pose proof (scan_id_max _ _ E). destruct (Z.ltb_spec (seq e) k); (split; cbn; [lia|]); intros n Hn Hmax;
      (rewrite lookup_insert_ne; [apply H2; lia|]); intros Hid; rewrite Hid, scan_proof_id in E by lia; simplify_eq; lia.
  - split; cbn; [done|]. intros n Hn Hmax. rewrite lookup_insert_ne; [by apply H2|].
    intros Hid. rewrite Hid, scan_proof_id in E by lia. done.
Qed.

Lemma restore_all_inv ps : engine_inv (restore_all ps).
Proof.
  unfold restore_all. assert (∀ e, engine_inv e → engine_inv (foldl Restore e ps)) as H; [|apply H, New_inv].
  induction ps as [|p ps IH]; cbn; [done|]. intros e He. apply IH. by apply Restore_inv.
Qed.

Lemma evict_lookup e pid p : proofs (evictIfNeeded e) !! pid = Some p → proofs e !! pid = Some p.
Proof. unfold evictIfNeeded. destruct (_ <=? _); [done|]. cbn. by intros [? _]%map_lookup_filter_Some. Qed.

Lemma evict_kept e pid p :
  proofs e !! pid = Some p → Revoked p = false → proofs (evictIfNeeded e) !! pid = Some p.
Proof. intros H Hr. unfold evictIfNeeded. destruct (_ <=? _); [done|]. cbn. by apply map_lookup_filter_Some. Qed.

Lemma evict_seq e : seq (evictIfNeeded e) = seq e.
Proof. unfold evictIfNeeded. by case_match. Qed.

Lemma Generate_shape e elapsed now agent pk i o m uc mode e' p :
  GenerateWithKey e elapsed now agent pk i o m uc mode = Some (e', p) →
  Root [i; o; m] = Some (PRoot p) ∧ PPath p = GetPath [i; o; m] 0 ∧ Idx p = 0 ∧ PH p = CommitHash i o m ∧
  Valid p = true ∧ Revoked p = false ∧ PID p = proof_id (seq e') ∧ seq e' = wrap64 (seq e + 1) ∧
  proofs e' = <[proof_id (seq e') := p]> (proofs (evictIfNeeded e)).
Proof.
  unfold GenerateWithKey. rewrite evict_seq. destruct (Root [i; o; m]) as [root|]; [|done]. cbn. intros [= <- <-]. done.
Qed.

Lemma engine_step_inv e e' : engine_step e e' → engine_inv e → engine_inv e'.
Proof.
  intros Hs [H1 H2]. destruct Hs as [e elapsed now agent pk i o m uc mode e' p Hlt Hg|e pid e' Hr|e now maxAge].
  - apply Generate_shape in Hg as (_ & _ & _ & _ & _ & _ & _ & Hseq & Hp).
    rewrite wrap64_id in Hseq by (unfold int64_min; lia). split; [lia|]. intros n Hn Hmax. rewrite Hp.
    rewrite lookup_insert_ne by (intros ?%proof_id_inj; lia).
    destruct (proofs (evictIfNeeded e) !! proof_id n) eqn:E; [|done]. apply evict_lookup in E.
    rewrite H2 in E; [done|lia..].
  - unfold Revoke in Hr. destruct (proofs e !! pid) as [p|] eqn:E; [|done]. destruct (Revoked p); [done|].
    injection Hr as <-. split; cbn; [done|]. intros n Hn Hmax. rewrite lookup_insert_ne; [by apply H2|].
    intros ->. rewrite H2 in E by done. done.
  - split; cbn; [done|]. intros n Hn Hmax. apply map_lookup_filter_None. left. by apply H2.
Qed.

(** A revoked proof stays revoked or disappears, and its identifier is used up. *)
Definition revoked_or_gone (e : ProofEngine) (pid : string) : Prop :=
  (∀ q, proofs e !! pid = Some q → Revoked q = true) ∧
  (∀ n, pid = proof_id n → n <= int64_max → n <= seq e).

Lemma engine_step_revoked e e' pid :
  engine_step e e' → engine_inv e → revoked_or_gone e pid → revoked_or_gone e' pid.
Proof.
  intros Hs Hinv [Hq Hn]. destruct Hs as [e elapsed now agent pk i o m uc mode e' p Hlt Hg|e pid' e' Hr|e now maxAge].
  - apply Generate_shape in Hg as (_ & _ & _ & _ & _ & _ & _ & Hseq & Hp). pose proof (inv_seq _ Hinv).
    rewrite wrap64_id in Hseq by (unfold int64_min; lia). split.
    + intros q. rewrite Hp. destruct (decide (pid = proof_id (seq e'))) as [E|].
      * specialize (Hn _ E ltac:(lia)). lia.
      * rewrite lookup_insert_ne by done. intros ?%evict_lookup. by apply Hq.
    + intros n E Hmax. specialize (Hn n E Hmax). lia.
  - unfold Revoke in Hr. destruct (proofs e !! pid') as [p|] eqn:E; [|done]. destruct (Revoked p); [done|].
    injection Hr as <-. split; cbn; [|done]. intros q. destruct (decide (pid = pid')) as [->|].
    + rewrite lookup_insert_eq. by intros [= <-].
    + rewrite lookup_insert_ne by done. apply Hq.
  - split; cbn; [|done]. intros q [? _]%map_lookup_filter_Some. by apply Hq.
Qed.

(** ** Properties *)

(** A generated proof is a proof: its Merkle path verifies the input against
    its root at its index, its commitment is the one [VerifyCommit] accepts, it
    verifies as valid in the engine, and no other stored proof is lost or
    changed unless it was revoked. Generation never panics. *)
Theorem Generate_verifies e elapsed now agent pk i o m uc mode :
  engine_inv e → seq e < int64_max →
  ∃ e' p, GenerateWithKey e elapsed now agent pk i o m uc mode = Some (e', p) ∧
    VerifyPath i (PPath p) (PRoot p) (Idx p) = true ∧ VerifyCommit (PH p) i o m = true ∧
    GetProof e (PID p) = None ∧ VerifyProof e' (PID p) = Ok true ∧
    (∀ pid q, GetProof e pid = Some q → Revoked q = false → GetProof e' pid = Some q).
Proof.
  intros Hinv Hlt. destruct (Root_nonempty [i; o; m]) as (r & Hroot & Hrow); [done|].
  destruct (GenerateWithKey e elapsed now agent pk i o m uc mode) as [[e' p]|] eqn:E;
    [|unfold GenerateWithKey in E; by rewrite Hroot in E].
  exists e', p. split; [done|]. apply Generate_shape in E as (Hr & Hpath & Hidx & Hph & Hval & Hrev & Hpid & Hseq & Hp).
  rewrite Hroot in Hr. injection Hr as Hr. destruct Hinv as [H1 H2].
  rewrite wrap64_id in Hseq by (unfold int64_min; lia).
  assert (proofs e !! proof_id (seq e') = None) as Hnew by (apply H2; lia).
  split_and!.
  - rewrite Hpath, <- Hr, Hidx. unfold VerifyPath, GetPath. cbn [length Z.of_nat Z.ltb Z.leb orb].
    apply path_verify_loop; [by apply (leaves_row_ok [i; o; m])|done|done|done|apply leaf_digests|done].
  - unfold VerifyCommit. by apply bool_decide_eq_true.
  - unfold GetProof. by rewrite Hpid.
  - unfold VerifyProof. rewrite Hp, Hpid, lookup_insert_eq. by rewrite Hval, Hrev.
  - intros pid q Hq Hqr. unfold GetProof in *. rewrite Hp, lookup_insert_ne; [by apply evict_kept|]. congruence.
Qed.

Lemma Generate_verifies_witness :
  ∃ e' p, GenerateWithKey New 0 0 "a" "" [Byte.x01] [Byte.x02] [Byte.x03] "kyc" "" = Some (e', p) ∧
    VerifyPath [Byte.x01] (PPath p) (PRoot p) (Idx p) = true.
Proof.
  destruct (Generate_verifies New 0 0 "a" "" [Byte.x01] [Byte.x02] [Byte.x03] "kyc" "" New_inv ltac:(done))
    as (e' & p & H1 & H2 & _).
  exists e', p. split; [exact H1|exact H2].
Defined.

(** Revocation is final: from any engine restored from stored proofs, along
    any generations, revocations and evictions, a proof that was once revoked
    is either gone or still revoked - its identifier is never issued again -, so
    it never verifies as valid again. *)
Theorem revocation_final ps e e' pid p :
  rtc engine_step (restore_all ps) e → GetProof e pid = Some p → Revoked p = true →
  rtc engine_step e e' →
  VerifyProof e' pid ≠ Ok true ∧ (∀ q, GetProof e' pid = Some q → Revoked q = true).
Proof.
  intros Hreach Hp Hr Hs. assert (engine_inv e) as Hinv.
  { eapply (rtc_ind_r (λ e, engine_inv e)); [apply restore_all_inv| |exact Hreach].
    intros x y _ Hxy Hx. by eapply engine_step_inv. }
  assert (revoked_or_gone e pid) as Hrg.
  { split; [intros q Hq; unfold GetProof in Hp; congruence|]. intros n -> Hn. destruct (decide (n <= seq e)); [done|].
    unfold GetProof in Hp. rewrite (inv_fresh _ Hinv) in Hp by lia. done. }
  assert (revoked_or_gone e' pid) as [Hq _].
  { revert Hinv Hrg. clear -Hs. induction Hs as [|x y z Hxy _ IH]; [done|]. intros Hx Hrg.
    apply IH; [by eapply engine_step_inv|by eapply engine_step_revoked]. }
  split; [|exact Hq]. unfold VerifyProof. destruct (proofs e' !! pid) as [q|] eqn:E; [|done].
  rewrite (Hq q eq_refl), andb_false_r. congruence.
Qed.

Definition ex_proof (id : string) (revoked : bool) (ts : Z) : Proof :=
  {| PID := id; Agent := "a"; PH := ""; IH := ""; OH := ""; MH := ""; PRoot := ""; PPath := []; Idx := 0; TS := ts;
     Valid := negb revoked; Revoked := revoked; UseCase := ""; PubKey := ""; Deploy := ""; AnchorHash := "";
     AnchoringStatus := ""; GenMs := 1; Mode := "local" |}.

Lemma revocation_final_witness :
  VerifyProof (fst (EvictRevoked (restore_all [ex_proof "P-7" true 3]) 0 0)) "P-7" ≠ Ok true.
Proof.
  refine (proj1 (revocation_final [ex_proof "P-7" true 3] _ _ "P-7" (ex_proof "P-7" true 3) (rtc_refl _ _) eq_refl eq_refl
    (rtc_once _ _ (step_evict _ 0 0)))).
Defined.

(** Pagination: for one iteration order of the proof map, the pages of a
    filtered listing with limit [k] are, in order, the whole sorted list of the
    matching proofs cut into pieces of [k]; and the reported total is its
    length. *)
Theorem ListFiltered_pages order f k n :
  0 < k → 0 <= n → n * k <= 2 ^ 62 → k <= 2 ^ 62 →
  let page i := ListFiltered order {| FAgent := FAgent f; FPubKey := FPubKey f; FMode := FMode f; Page := i; Limit := k |} in
  concat ((λ i, from_option fst [] (page i)) <$> seqZ 1 n) =
    take (Z.to_nat (n * k)) (sort_slice newer (List.filter (selected f) order)) ∧
  ∀ i, 1 <= i <= n → snd <$> page i = Some (count (selected f) order).
Proof.
  intros Hk Hn Hmax Hkmax page.
  set (L := sort_slice newer (List.filter (selected f) order)).
  assert (∀ i, 1 <= i <= n → page i = Some (take (Z.to_nat k) (drop (Z.to_nat ((i - 1) * k)) L), count (selected f) order)) as Hall.
  { intros i Hi. unfold page, ListFiltered. cbv zeta. cbn [Limit Page FAgent FPubKey FMode].
    change (List.filter (selected _) order) with (List.filter (selected f) order). fold L.
    assert (Z.of_nat (length L) = count (selected f) order) as <- by (unfold L; by rewrite length_sort_slice).
    destruct (Z.leb_spec k 0); [lia|]. destruct (Z.leb_spec i 0); [lia|].
    assert (0 <= (i - 1) * k) by nia. assert ((i - 1) * k + k <= n * k) by nia.
    rewrite !wrap64_id by (unfold int64_min, int64_max; lia).
    destruct (Z.leb_spec (Z.of_nat (length L)) ((i - 1) * k)).
    { rewrite drop_ge by lia. by rewrite take_nil. }
    unfold slice. destruct (Z.ltb_spec (Z.of_nat (length L)) ((i - 1) * k + k)).
    all: rewrite (proj2 (Z.ltb_ge ((i - 1) * k) 0)) by lia; rewrite (proj2 (Z.ltb_ge _ ((i - 1) * k))) by lia.
    all: cbn [orb mbind option_bind]; do 2 f_equal.
    - rewrite !take_ge; [done|rewrite length_drop; lia..].
    - f_equal. lia. }
  split; [|by intros i Hi; rewrite Hall].
  assert (∀ i, 1 <= i <= n → from_option fst [] (page i) = take (Z.to_nat k) (drop (Z.to_nat ((i - 1) * k)) L)) as Hpage
    by (intros i Hi; by rewrite Hall).
  clear Hall.
  clear Hmax. revert Hpage. rewrite <- (Z2Nat.id n) by done. generalize (Z.to_nat n). clear -Hk. intros m.
  induction m as [|m IH]; intros Hpage; [done|].
  rewrite seqZ_S, fmap_app, concat_app, IH by (intros; apply Hpage; lia).
  cbn [fmap list_fmap concat]. rewrite Hpage by lia. rewrite app_nil_r.
  replace (1 + Z.of_nat m - 1) with (Z.of_nat m) by lia.
  rewrite Nat2Z.inj_succ, Z.mul_succ_l, Z2Nat.inj_add by (apply Z.mul_nonneg_nonneg || idtac; lia).
  by rewrite take_take_drop.
Qed.

Lemma ListFiltered_pages_witness :
  let order := [ex_proof "P-1" false 1; ex_proof "P-2" false 3; ex_proof "P-3" false 2] in
  let all := {| FAgent := ""; FPubKey := ""; FMode := ""; Page := 1; Limit := 0 |} in
  concat ((λ i, from_option fst [] (ListFiltered order {| FAgent := ""; FPubKey := ""; FMode := ""; Page := i; Limit := 2 |}))
    <$> seqZ 1 2) = take (Z.to_nat (2 * 2)) (sort_slice newer (List.filter (selected all) order)).
Proof.
  intros order all. exact (proj1 (ListFiltered_pages order all 2 2 ltac:(done) ltac:(done) ltac:(done) ltac:(done))).
Defined.

(** Two proofs of the same second, listed in the two possible map orders: page 1
    of one listing and page 2 of the other show the same proof, and the other
    proof is on neither. *)
Example pages_across_orders :
  let p := ex_proof "P-1" false 5 in let q := ex_proof "P-2" false 5 in
  let page order i := from_option fst [] (ListFiltered order {| FAgent := ""; FPubKey := ""; FMode := ""; Page := i; Limit := 1 |}) in
  page [p; q] 1 = [p] ∧ page [q; p] 2 = [p].
Proof. split; reflexivity. Qed.

(** The start of a far page wraps around to a negative number: Go panics. *)
Example huge_page_panics :
  ListFiltered [ex_proof "P-1" false 5]
    {| FAgent := ""; FPubKey := ""; FMode := ""; Page := int64_max; Limit := 20 |} = None.
Proof. reflexivity. Qed.

(** Nothing bounds the map but revocations: it grows by one with every
    generation while no stored proof is revoked. *)
Lemma generation_unbounded e elapsed now agent pk i o m uc mode e' p :
  engine_inv e → seq e < int64_max → (∀ pid q, proofs e !! pid = Some q → Revoked q = false) →
  GenerateWithKey e elapsed now agent pk i o m uc mode = Some (e', p) →
  size (proofs e') = S (size (proofs e)).
Proof.
  intros [H1 H2] Hlt Hno Hg. apply Generate_shape in Hg as (_ & _ & _ & _ & _ & _ & _ & Hseq & Hp).
  rewrite wrap64_id in Hseq by (unfold int64_min; lia).
  assert (proofs (evictIfNeeded e) = proofs e) as He.
  { unfold evictIfNeeded. destruct (_ <=? _); [done|]. cbn. apply map_filter_id. intros. by eapply Hno. }
  rewrite Hp, He, map_size_insert_None; [done|]. apply H2; lia.
Qed.

(** The commitment concatenates its three parts without their lengths. *)
Example CommitHash_boundary :
  CommitHash (bytes_of "ab") (bytes_of "c") [] = CommitHash (bytes_of "a") (bytes_of "bc") [].
Proof. reflexivity. Qed.
