(* ===== verification/Complexity.v ===== *)
(** * Cost estimates ([engine/internal/prover/complexity.go])

    Complexity classes, gas and time estimates and batch sizing. [int] and
    [int64] are 64 bits wide and wrap around. *)

From S2P Require Import Prelude GoLib Sha256 Merkle Engine.

Local Open Scope Z_scope.

(** ** Definitions *)

Inductive ComplexityClass := TRIVIAL | LOW | MEDIUM | HIGH | EXTREME.

#[export] Instance ComplexityClass_eq_dec : EqDecision ComplexityClass.
Proof. solve_decision. Defined.

Definition class_index (c : ComplexityClass) : nat :=
  match c with TRIVIAL => 0 | LOW => 1 | MEDIUM => 2 | HIGH => 3 | EXTREME => 4 end.

#[export] Instance ComplexityClass_countable : Countable ComplexityClass.
Proof.
  refine (inj_countable class_index
    (λ n, match n with 0 => Some TRIVIAL | 1 => Some LOW | 2 => Some MEDIUM | 3 => Some HIGH | 4 => Some EXTREME
          | _ => None end)%nat _). by intros [].
Defined.

Definition ComplexityClass_String (c : ComplexityClass) : string :=
  match c with
  | TRIVIAL => "TRIVIAL" | LOW => "LOW" | MEDIUM => "MEDIUM" | HIGH => "HIGH" | EXTREME => "EXTREME"
  end.

Record ComplexityMetrics := {
  InputSize : Z; OutputSize : Z; ModelSize : Z;
  LeafCount : Z; TreeDepth : Z; MerkleOps : Z;
  EstGasCSPR : Z; EstTimeMs : Z;
  CClass : ComplexityClass;
}.

Record ClassifierConfig := {
  ThresholdTrivial : Z; ThresholdLow : Z; ThresholdMedium : Z; ThresholdHigh : Z;
}.

Definition baseGas : Z := 21000.
Definition perByteGas : Z := 68.
Definition perMerkleOp : Z := 2000.
Definition baseTimeMs : Z := 50.
Definition perKBMs : Z := 10.

Definition DefaultConfig : ClassifierConfig :=
  {| ThresholdTrivial := 1024; ThresholdLow := 65536; ThresholdMedium := 1048576; ThresholdHigh := 16777216 |}.

Definition classify_total (total : Z) : ComplexityClass :=
  if total <=? ThresholdTrivial DefaultConfig then TRIVIAL
  else if total <=? ThresholdLow DefaultConfig then LOW
  else if total <=? ThresholdMedium DefaultConfig then MEDIUM
  else if total <=? ThresholdHigh DefaultConfig then HIGH
  else EXTREME.

Definition Classify (inputSize outputSize modelSize : Z) : ComplexityMetrics :=
  let inputSize := if inputSize <? 0 then 0 else inputSize in
  let outputSize := if outputSize <? 0 then 0 else outputSize in
  let modelSize := if modelSize <? 0 then 0 else modelSize in
  let total := wrap64 (wrap64 (inputSize + outputSize) + modelSize) in
  let leafCount := 3 in
  let treeDepth := Z.log2_up leafCount in
  let merkleOps := leafCount * 2 - 1 in
  let gas := wrap64 (wrap64 (baseGas + wrap64 (perByteGas * total)) + perMerkleOp * merkleOps) in
  let gas := if gas <? 0 then int64_max else gas in
  let timeEstimate := wrap64 (baseTimeMs + perKBMs * Z.quot total 1024) in
  {| InputSize := inputSize; OutputSize := outputSize; ModelSize := modelSize; LeafCount := leafCount;
     TreeDepth := treeDepth; MerkleOps := merkleOps; EstGasCSPR := gas; EstTimeMs := timeEstimate;
     CClass := classify_total total |}.

Definition zero_metrics : ComplexityMetrics :=
  {| InputSize := 0; OutputSize := 0; ModelSize := 0; LeafCount := 0; TreeDepth := 0; MerkleOps := 0;
     EstGasCSPR := 0; EstTimeMs := 0; CClass := TRIVIAL |}.

Definition slen (s : string) : Z := Z.of_nat (String.length s).

(** A nil pointer is [None]. *)
Definition ClassifyProof (p : option Proof) : ComplexityMetrics :=
  match p with
  | None => zero_metrics
  | Some p => Classify (slen (IH p)) (slen (OH p)) (slen (MH p))
  end.

Definition EstimateGas (m : option ComplexityMetrics) : Z :=
  match m with None => 0 | Some m => EstGasCSPR m end.

Fixpoint batch_gas (proofs : list (option Proof)) (total : Z) : Z :=
  match proofs with
  | [] => total
  | None :: rest => batch_gas rest total
  | Some p :: rest => batch_gas rest (wrap64 (total + EstGasCSPR (ClassifyProof (Some p))))
  end.

Definition EstimateBatchGas (proofs : list (option Proof)) : Z := batch_gas proofs 0.

Definition maxBatchSize : Z := 1024.

Fixpoint suggest_loop (proofs : list (option Proof)) (maxGas sum n : Z) : Z :=
  match proofs with
  | [] => n
  | None :: rest => suggest_loop rest maxGas sum n
  | Some p :: rest =>
      let gas := EstGasCSPR (ClassifyProof (Some p)) in
      if maxGas <? wrap64 (sum + gas) then n
      else if maxBatchSize <=? n + 1 then n + 1
      else suggest_loop rest maxGas (wrap64 (sum + gas)) (n + 1)
  end.

Definition SuggestBatchSize (proofs : list (option Proof)) (maxGas : Z) : Z :=
  if maxGas <=? 0 then 0 else suggest_loop proofs maxGas 0 0.

Definition ComplexityDistribution (proofs : list (option Proof)) : gmap ComplexityClass Z :=
  foldl (λ dist p, match p with
                   | None => dist
                   | Some p =>
                       let c := CClass (ClassifyProof (Some p)) in
                       <[c := default 0 (dist !! c) + 1]> dist
                   end) ∅ proofs.

(** ** Lemmas *)

Definition gases (proofs : list (option Proof)) : list Z :=
  omap (λ p, p ← p; Some (EstGasCSPR (ClassifyProof (Some p)))) proofs.

Definition zsum (l : list Z) : Z := foldr Z.add 0 l.

(** Hashes of a length that occurs. *)
Definition small_proof (p : option Proof) : Prop :=
  match p with
  | None => True
  | Some p => slen (IH p) < 2 ^ 32 ∧ slen (OH p) < 2 ^ 32 ∧ slen (MH p) < 2 ^ 32
  end.

Lemma slen_nonneg s : 0 <= slen s.
Proof. unfold slen. lia. Qed.

(** Without overflow the gas is linear in the size. *)
Lemma small_gas p :
  small_proof (Some p) →
  EstGasCSPR (ClassifyProof (Some p)) = 31000 + 68 * (slen (IH p) + slen (OH p) + slen (MH p)).
Proof.
  intros (H1 & H2 & H3). pose proof (slen_nonneg (IH p)). pose proof (slen_nonneg (OH p)). pose proof (slen_nonneg (MH p)).
  unfold ClassifyProof, Classify. cbv zeta. cbn [EstGasCSPR].
  destruct (Z.ltb_spec (slen (IH p)) 0), (Z.ltb_spec (slen (OH p)) 0), (Z.ltb_spec (slen (MH p)) 0); try lia.
  unfold perByteGas, baseGas, perMerkleOp. set (a := slen (IH p)) in *. set (b := slen (OH p)) in *.
  set (c := slen (MH p)) in *. assert (int64_min < 0 ∧ 2 ^ 62 < int64_max) as [Hlo Hhi] by done.
  rewrite (wrap64_id (a + b)), (wrap64_id (a + b + c)), (wrap64_id (68 * _)), (wrap64_id (21000 + _)),
    (wrap64_id (_ + 2000 * _)) by lia.
  match goal with |- context [?x <? 0] => destruct (Z.ltb_spec x 0) end; lia.
Qed.

Lemma gas_bounds p : small_proof (Some p) → 0 < EstGasCSPR (ClassifyProof (Some p)) < 2 ^ 41.
Proof.
  intros H. rewrite small_gas by done. destruct H as (H1 & H2 & H3).
  pose proof (slen_nonneg (IH p)). pose proof (slen_nonneg (OH p)). pose proof (slen_nonneg (MH p)). lia.
Qed.

Lemma suggest_loop_spec proofs maxGas sum n :
  Forall small_proof proofs → maxGas <= 2 ^ 62 → 0 <= sum <= maxGas → 0 <= n < maxBatchSize →
  let r := suggest_loop proofs maxGas sum n in
  n <= r <= maxBatchSize ∧ (Z.to_nat (r - n) <= length (gases proofs))%nat ∧
  sum + zsum (take (Z.to_nat (r - n)) (gases proofs)) <= maxGas ∧
  (r = maxBatchSize ∨ Z.to_nat (r - n) = length (gases proofs) ∨
   maxGas < sum + zsum (take (S (Z.to_nat (r - n))) (gases proofs))).
Proof.
  intros Hs Hmax. revert sum n. induction Hs as [|[p|] proofs Hp Hs IH]; intros sum n Hsum Hn; cbn [suggest_loop].
  - replace (n - n) with 0 by lia. change (Z.to_nat 0) with 0%nat. unfold maxBatchSize, zsum in *. cbn. rewrite ?take_0. cbn. lia.
  - change (gases (Some p :: proofs)) with (EstGasCSPR (ClassifyProof (Some p)) :: gases proofs).
    apply gas_bounds in Hp as Hg. generalize dependent (EstGasCSPR (ClassifyProof (Some p))). intros g Hg.
    cbv zeta. rewrite wrap64_id by (unfold int64_min, int64_max; lia).
    destruct (Z.ltb_spec maxGas (sum + g)).
    { replace (n - n) with 0 by lia. change (Z.to_nat 0) with 0%nat. unfold maxBatchSize, zsum in *. cbn. rewrite ?take_0. cbn. lia. }
    destruct (Z.leb_spec maxBatchSize (n + 1)).
    { replace (n + 1 - n) with 1 by lia. change (Z.to_nat 1) with 1%nat. unfold maxBatchSize, zsum in *. cbn. rewrite ?take_0. cbn. lia. }
    destruct (IH (sum + g) (n + 1)) as (H1 & H2 & H3 & H4); [lia..|].
    set (r := suggest_loop _ _ _ _) in *.
    replace (Z.to_nat (r - n)) with (S (Z.to_nat (r - (n + 1)))) by lia. cbn [take length zsum foldr].
    fold (zsum (take (Z.to_nat (r - (n + 1))) (gases proofs))).
    split; [lia|]. split; [lia|]. split; [lia|].
    destruct H4 as [?|[?|?]]; [by left|right; left; lia|right; right]. 
    change (take (S (S (Z.to_nat (r - (n + 1))))) (g :: gases proofs))
      with (g :: take (S (Z.to_nat (r - (n + 1)))) (gases proofs)).
    cbn [zsum foldr]. fold (zsum (take (S (Z.to_nat (r - (n + 1)))) (gases proofs))). lia.
  - by apply IH.
Qed.

(** ** Properties *)

(** Batch sizing is greedy and safe: the suggested number of proofs fits the
    gas budget and the batch limit, and one more would not: it stops at the
    limit, at the end of the (non-nil) proofs, or at the first proof that
    exceeds the budget. *)
Theorem SuggestBatchSize_greedy proofs maxGas :
  Forall small_proof proofs → 0 < maxGas <= 2 ^ 62 →
  let n := Z.to_nat (SuggestBatchSize proofs maxGas) in
  (n <= length (gases proofs))%nat ∧ Z.of_nat n <= maxBatchSize ∧
  zsum (take n (gases proofs)) <= maxGas ∧
  (Z.of_nat n = maxBatchSize ∨ n = length (gases proofs) ∨ maxGas < zsum (take (S n) (gases proofs))).
Proof.
  intros Hs [Hpos Hmax]. unfold SuggestBatchSize. destruct (Z.leb_spec maxGas 0); [lia|].
  destruct (suggest_loop_spec proofs maxGas 0 0 Hs Hmax ltac:(lia) ltac:(done)) as (H1 & H2 & H3 & H4).
  rewrite !Z.sub_0_r, ?Z.add_0_l in *. split; [done|]. split; [lia|]. split; [done|]. 
  destruct H4 as [?|[?|?]]; [left; lia|by right; left|by right; right].
Qed.

Lemma SuggestBatchSize_greedy_witness :
  SuggestBatchSize [Some (ex_proof "P-1" false 0); None; Some (ex_proof "P-2" false 0)] 40000 = 1 ∧
  zsum (take 1 (gases [Some (ex_proof "P-1" false 0); None; Some (ex_proof "P-2" false 0)])) <= 40000.
Proof.
  split; [reflexivity|].
  apply (SuggestBatchSize_greedy [Some (ex_proof "P-1" false 0); None; Some (ex_proof "P-2" false 0)] 40000);
    [repeat constructor; vm_compute; reflexivity|lia].
Defined.

(** [ClassifyProof] measures the hex digests, not what was hashed: every proof
    the engine generates is TRIVIAL and costs the same gas. *)
Lemma length_hex_encode b : String.length (hex_encode b) = (2 * length b)%nat.
Proof.
  induction b as [|x b IH]; [done|]. 
  change (String.length (hex_encode (x :: b))) with (S (S (String.length (hex_encode b)))). rewrite IH. cbn. lia.
Qed.

Lemma generated_proofs_trivial e elapsed now agent pk i o m uc mode e' p :
  GenerateWithKey e elapsed now agent pk i o m uc mode = Some (e', p) →
  CClass (ClassifyProof (Some p)) = TRIVIAL ∧ EstGasCSPR (ClassifyProof (Some p)) = 44056.
Proof.
  unfold GenerateWithKey. destruct (Root [i; o; m]) as [root|]; [|done]. cbn [mbind option_bind]. intros [= _ <-].
  unfold ClassifyProof, HexHash, slen. cbn [IH OH MH]. rewrite !length_hex_encode, !length_sha256. done.
Qed.

(** The cap only catches sums that wrap to a negative number. *)
Example gas_wraps_to_small : EstGasCSPR (Classify (2 ^ 58) 0 0) = 4 * 2 ^ 58 + 31000 ∧ 68 * 2 ^ 58 > int64_max.
Proof. split; reflexivity. Qed.
