(* ===== verification/Dag.v ===== *)
(** * Proof chains ([pkg/phase2/proof_chain.go], [proof_dag.go])

    [ValidateDAG]: one root, known parents, input continuity, and a depth-first
    search for cycles. [fuel] bounds the recursion depth by the number of
    steps; [DagFuel] is shown never to occur. [DagPanic] is a Go panic (a slice
    out of range or a nil pointer). *)

From S2P Require Import Prelude GoLib.
From stdpp Require Import relations.

(** ** Data *)

Inductive ChainStatus := ChainPending | ChainPartiallyVerified | ChainFullyVerified | ChainFailed | ChainBroken.

Record ChainStep := {
  ProofID : string;
  ParentIDs : list string;
  ModelHash : string;
  InputHash : string;
  OutputHash : string;
  StepIndex : Z;
  Verified : bool;
}.

Record ProofChain := {
  ChainID : string;
  RootProofID : string;
  Depth : Z;
  TotalSteps : Z;
  Status : ChainStatus;
  Steps : list ChainStep;
  CreatedAt : Z;
}.

Inductive DagError :=
| ErrEmptyChain
| ErrRoots (n : Z)
| ErrUnknownParent (step parent : string)
| ErrInputMismatch (step : Z) (input output : string)
| ErrCycle
| DagPanic
| DagFuel.

(** ** Operations *)

Definition build_index (steps : list ChainStep) : gmap string ChainStep :=
  foldl (λ m s, <[ProofID s := s]> m) ∅ steps.

Definition is_root (s : ChainStep) : bool := (length (ParentIDs s) =? 0)%nat.

(** Rules 4 and 2 for one step; the mismatch message slices both hashes. *)
Fixpoint check_parents (index : gmap string ChainStep) (step : ChainStep) (pids : list string)
    : result DagError unit :=
  match pids with
  | [] => Ok tt
  | pid :: pids' =>
      match index !! pid with
      | None => Err (ErrUnknownParent (ProofID step) pid)
      | Some parent =>
          if bool_decide (InputHash step = OutputHash parent) then check_parents index step pids'
          else match slice_to 8 (InputHash step), slice_to 8 (OutputHash parent) with
               | Some i, Some o => Err (ErrInputMismatch (StepIndex step) i o)
               | _, _ => Err DagPanic
               end
      end
  end.

Fixpoint check_steps (index : gmap string ChainStep) (steps : list ChainStep) : result DagError unit :=
  match steps with
  | [] => Ok tt
  | step :: steps' => let! _ := check_parents index step (ParentIDs step) in check_steps index steps'
  end.

Record dfs_state := { visited : gset string; inStack : gset string; hasCycle : bool }.

Definition push (id : string) (st : dfs_state) : dfs_state :=
  {| visited := {[id]} ∪ visited st; inStack := {[id]} ∪ inStack st; hasCycle := hasCycle st |}.
Definition pop (id : string) (st : dfs_state) : dfs_state :=
  {| visited := visited st; inStack := inStack st ∖ {[id]}; hasCycle := hasCycle st |}.
Definition found (st : dfs_state) : dfs_state :=
  {| visited := visited st; inStack := inStack st; hasCycle := true |}.

(** The loop over the parents; [true] when it returned early on a cycle. *)
Fixpoint visit_parents (rec : string → dfs_state → result DagError dfs_state) (pids : list string) (st : dfs_state)
    : result DagError (dfs_state * bool) :=
  match pids with
  | [] => Ok (st, false)
  | pid :: pids' =>
      if bool_decide (pid ∈ inStack st) then Ok (found st, true)
      else if bool_decide (pid ∈ visited st) then visit_parents rec pids' st
      else let! st' := rec pid st in visit_parents rec pids' st'
  end.

Fixpoint dfs (index : gmap string ChainStep) (fuel : nat) (id : string) (st : dfs_state) : result DagError dfs_state :=
  match fuel with
  | O => Err DagFuel
  | S fuel' =>
      if hasCycle st then Ok st
      else match index !! id with
           | None => Err DagPanic
           | Some step =>
               let! r := visit_parents (dfs index fuel') (ParentIDs step) (push id st) in
               Ok (if snd r then fst r else pop id (fst r))
           end
  end.

Fixpoint dfs_steps (index : gmap string ChainStep) (fuel : nat) (steps : list ChainStep) (st : dfs_state)
    : result DagError dfs_state :=
  match steps with
  | [] => Ok st
  | step :: steps' =>
      if bool_decide (ProofID step ∈ visited st) then dfs_steps index fuel steps' st
      else let! st' := dfs index fuel (ProofID step) st in dfs_steps index fuel steps' st'
  end.

Definition ValidateDAG (chain : ProofChain) : result DagError unit :=
  if (length (Steps chain) =? 0)%nat then Err ErrEmptyChain
  else
    let index := build_index (Steps chain) in
    let roots := count is_root (Steps chain) in
    if negb (roots =? 1)%Z then Err (ErrRoots roots)
    else
      let! _ := check_steps index (Steps chain) in
      let! st := dfs_steps index (S (length (Steps chain))) (Steps chain)
                   {| visited := ∅; inStack := ∅; hasCycle := false |} in
      if hasCycle st then Err ErrCycle else Ok tt.

(** ** The graph *)

Section dfs.
Context (index : gmap string ChainStep).

(** [edge x y]: [y] is a parent of [x]. *)
Definition edge (x y : string) : Prop := ∃ s, index !! x = Some s ∧ y ∈ ParentIDs s.

(** Every parent is in the index (rule 4). *)
Definition closed : Prop := ∀ x y, edge x y → is_Some (index !! y).

Definition well_founded_at (x : string) : Prop := Acc (λ y x, edge x y) x.

Definition remaining (st : dfs_state) : nat := size (dom index ∖ visited st).

(** Black nodes, visited and not on the stack, have no infinite ancestry. *)
Definition black_ok (st : dfs_state) : Prop :=
  inStack st ⊆ visited st ∧ ∀ x, x ∈ visited st → x ∉ inStack st → well_founded_at x.

Definition cyclic : Prop := ∃ x, tc edge x x.

(** What one call of [dfs] guarantees, given the stack reaches its node. *)
Definition dfs_post (st st' : dfs_state) (id : string) : Prop :=
  visited st ⊆ visited st' ∧
  (hasCycle st' = true → hasCycle st = true ∨ cyclic) ∧
  (hasCycle st' = false → hasCycle st = false ∧ id ∈ visited st' ∧ inStack st' = inStack st ∧
     (black_ok st → black_ok st')).

Definition stack_reaches (st : dfs_state) (id : string) : Prop := ∀ s, s ∈ inStack st → rtc edge s id.

Definition dfs_spec (fuel : nat) : Prop :=
  ∀ id st, is_Some (index !! id) → id ∉ visited st → inStack st ⊆ visited st → remaining st <= fuel →
    (hasCycle st = false → stack_reaches st id) →
    ∃ st', dfs index fuel id st = Ok st' ∧ dfs_post st st' id.

Lemma remaining_mono st st' : visited st ⊆ visited st' → remaining st' <= remaining st.
Proof. intros H. unfold remaining. apply (subseteq_size (C := gset string)). set_solver. Qed.

Lemma remaining_push st id : is_Some (index !! id) → id ∉ visited st → S (remaining (push id st)) <= remaining st.
Proof.
  intros Hid Hv. unfold remaining. cbn. assert (dom index ∖ ({[id]} ∪ visited st) ⊂ dom index ∖ visited st) as H.
  { apply elem_of_dom in Hid. split; [set_solver|]. intros Hs. specialize (Hs id). set_solver. }
  by apply (subset_size (C := gset string)) in H.
Qed.

Lemma remaining_pos st id : is_Some (index !! id) → id ∉ visited st → 0 < remaining st.
Proof. intros H1 H2. pose proof (remaining_push st id H1 H2). lia. Qed.

(** Once a cycle is known the remaining calls return at once. *)
Lemma visit_cycle fuel pids st :
  hasCycle st = true → (∀ y, y ∈ pids → is_Some (index !! y)) → remaining st <= fuel →
  ∃ st' early, visit_parents (dfs index fuel) pids st = Ok (st', early) ∧
    visited st ⊆ visited st' ∧ hasCycle st' = true.
Proof.
  intros Hc. induction pids as [|y pids IH]; intros Hdom Hrem; cbn [visit_parents]; [by exists st, false|].
  case_bool_decide; [by exists (found st), true|].
  case_bool_decide as Hv; [apply IH; [intros; apply Hdom; by right|done]|].
  pose proof (remaining_pos st y (Hdom y ltac:(left)) Hv). destruct fuel; [lia|]. cbn [dfs]. rewrite Hc.
  cbn [result_bind]. apply IH; [intros; apply Hdom; by right|done].
Qed.

(** The parent loop, started after [push id]. *)
Definition loop_post (st st' : dfs_state) (early : bool) (pids : list string) : Prop :=
  visited st ⊆ visited st' ∧
  (hasCycle st' = true → hasCycle st = true ∨ cyclic) ∧
  (early = true → hasCycle st' = true) ∧
  (hasCycle st' = false → hasCycle st = false ∧ inStack st' = inStack st ∧ (black_ok st → black_ok st') ∧
     ∀ y, y ∈ pids → y ∈ visited st' ∧ y ∉ inStack st').

Lemma visit_parents_spec fuel id pids st :
  dfs_spec fuel → closed → (∀ y, y ∈ pids → edge id y) → id ∈ inStack st → inStack st ⊆ visited st →
  remaining st <= fuel → (hasCycle st = false → stack_reaches st id) →
  ∃ st' early, visit_parents (dfs index fuel) pids st = Ok (st', early) ∧ loop_post st st' early pids.
Proof.
  intros Hdfs Hcl. revert st. induction pids as [|y pids IH]; intros st Hedge Hid Hsub Hrem Hreach; cbn [visit_parents].
  { exists st, false. split; [done|]. split_and!; try done; [by left|]. intros Hc. split_and!; try done.
    intros y Hy. by apply elem_of_nil in Hy. }
  assert (edge id y) as Hy by (apply Hedge; left). case_bool_decide as Hin.
  { exists (found st), true. split; [done|]. split_and!; try done. intros _. cbn.
    destruct (hasCycle st) eqn:Ec; [by left|right]. exists y. eapply tc_rtc_l; [by apply Hreach|by apply tc_once]. }
  case_bool_decide as Hvis.
  { destruct (IH st) as (st' & early & -> & Hpost); [intros; apply Hedge; by right|done..|].
    exists st', early. split; [done|]. destruct Hpost as (P1 & P2 & P3 & P4). split; [exact P1|].
    split; [exact P2|]. split; [exact P3|]. intros Hc. destruct (P4 Hc) as (Q1 & Q2 & Q3 & Q4).
    split; [exact Q1|]. split; [exact Q2|]. split; [exact Q3|].
    intros z [->|Hz]%elem_of_cons; [|by apply Q4]. rewrite Q2. split; [by apply P1|done]. }
  destruct (Hdfs y st) as (st1 & -> & D1 & D2 & D3); [by apply (Hcl id)|done|done|done| |].
  { intros Hc s Hs. eapply rtc_r; [by apply Hreach|done]. }
  cbn [result_bind]. destruct (hasCycle st1) eqn:Ec1.
  - destruct (visit_cycle fuel pids st1 Ec1) as (st' & early & -> & Hv & Hc').
    { intros z Hz. apply (Hcl id), Hedge. by right. }
    { pose proof (remaining_mono st st1 D1). lia. }
    exists st', early. split; [done|]. split_and!; [by etransitivity|intros _; exact (D2 eq_refl)|done|congruence].
  - destruct (D3 eq_refl) as (E1 & E2 & E3 & E4).
    destruct (IH st1) as (st' & early & -> & P1 & P2 & P3 & P4).
    { intros; apply Hedge; by right. } { by rewrite E3. } { rewrite E3. by etransitivity. }
    { pose proof (remaining_mono st st1 D1). lia. } { intros _ s. rewrite E3. by apply Hreach. }
    exists st', early. split; [done|]. split_and!; [by etransitivity| |done|].
    + intros Hc. destruct (P2 Hc); [congruence|by right].
    + intros Hc. destruct (P4 Hc) as (Q1 & Q2 & Q3 & Q4). split_and!; [done|congruence|auto|].
      intros z [->|Hz]%elem_of_cons; [|by apply Q4]. rewrite Q2, E3. split; [by apply P1|done].
Qed.

Lemma dfs_total fuel : closed → dfs_spec fuel.
Proof.
  intros Hcl. induction fuel as [|fuel IH]; intros id st Hid Hv Hsub Hrem Hreach.
  { pose proof (remaining_pos st id Hid Hv). lia. }
  cbn [dfs]. destruct (hasCycle st) eqn:Ec.
  { exists st. split; [done|]. split; [done|]. split; [by left|]. congruence. }
  destruct Hid as [step Hstep]. rewrite Hstep.
  destruct (visit_parents_spec fuel id (ParentIDs step) (push id st) IH Hcl) as (st1 & early & -> & P1 & P2 & P3 & P4).
  { intros y Hy. by exists step. }
  { cbn. set_solver. } { cbn. set_solver. }
  { pose proof (remaining_push st id (mk_is_Some _ _ Hstep) Hv). lia. }
  { intros _ s. cbn. rewrite elem_of_union, elem_of_singleton. intros [->|Hs]; [done|]. by apply Hreach. }
  cbn [result_bind fst snd]. exists (if early then st1 else pop id st1). split; [done|].
  assert (visited (if early then st1 else pop id st1) = visited st1) as Hvis by (by destruct early).
  assert (hasCycle (if early then st1 else pop id st1) = hasCycle st1) as Hcyc by (by destruct early).
  unfold dfs_post. rewrite Hvis, Hcyc. cbn in P1, P2. split; [set_solver|]. split; [exact P2|].
  intros Hc. destruct (P4 Hc) as (_ & Q2 & Q3 & Q4). destruct early; [specialize (P3 eq_refl); congruence|].
  split; [done|]. split; [set_solver|]. cbn [pop inStack]. rewrite Q2. cbn [push inStack].
  split; [apply set_eq; set_solver|]. intros [B1 B2].
  assert (black_ok (push id st)) as [_ B]%Q3.
  { split; cbn; [set_solver|]. intros x Hx Hnx. apply B2; set_solver. }
  rewrite Q2 in B, Q4. cbn in B, Q4. split; cbn; rewrite Q2; cbn; [set_solver|].
  intros x Hx Hnx. destruct (decide (x = id)) as [->|Hne]; [|apply B; set_solver].
  constructor. intros y (s & Hs & Hy). assert (s = step) as -> by congruence.
  destruct (Q4 y Hy). by apply B.
Qed.

Lemma dfs_steps_spec fuel steps st :
  closed → (∀ s, s ∈ steps → is_Some (index !! ProofID s)) → size (dom index) <= S fuel →
  (hasCycle st = true → cyclic) → (hasCycle st = false → inStack st = ∅ ∧ black_ok st) →
  ∃ st', dfs_steps index (S fuel) steps st = Ok st' ∧
    (hasCycle st' = true → cyclic) ∧
    (hasCycle st' = false → hasCycle st = false ∧ visited st ⊆ visited st' ∧ black_ok st' ∧ inStack st' = ∅ ∧
      ∀ s, s ∈ steps → ProofID s ∈ visited st').
Proof.
  intros Hcl. revert st. induction steps as [|s steps IH]; intros st Hdom Hsize Hcyc Hok; cbn [dfs_steps].
  { exists st. split; [done|]. split; [done|]. intros Hc. destruct (Hok Hc). split_and!; try done.
    intros s Hs. by apply elem_of_nil in Hs. }
  assert (∀ s', s' ∈ steps → is_Some (index !! ProofID s')) as Hdom' by (intros; apply Hdom; by right).
  case_bool_decide as Hv.
  { destruct (IH st Hdom' Hsize Hcyc Hok) as (st' & -> & H1 & H2). exists st'. split; [done|]. split; [exact H1|].
    intros Hc. destruct (H2 Hc) as (K1 & K2 & K3 & K4 & K5). split_and!; [exact K1|exact K2|exact K3|exact K4|].
    intros s' [->|Hs']%elem_of_cons; [by apply K2|by apply K5]. }
  destruct (hasCycle st) eqn:Ec.
  { cbn [dfs]. rewrite Ec. cbn [result_bind].
    destruct (IH st Hdom' Hsize) as (st' & -> & H1 & H2); [by intros _; apply Hcyc|congruence|].
    exists st'. split; [done|]. split; [exact H1|]. intros Hc. destruct (H2 Hc). congruence. }
  destruct (Hok eq_refl) as [Hst Hb].
  destruct (dfs_total (S fuel) Hcl (ProofID s) st) as (st1 & E & D1 & D2 & D3);
    [apply Hdom; left|done|rewrite Hst; set_solver| | |].
  { etransitivity; [|exact Hsize]. unfold remaining. apply (subseteq_size (C := gset string)). set_solver. }
  { intros _ x. rewrite Hst. set_solver. }
  rewrite E. cbn [result_bind].
  destruct (IH st1 Hdom' Hsize) as (st' & -> & H1 & H2).
  { intros Hc. destruct (D2 Hc); [congruence|done]. }
  { intros Hc. destruct (D3 Hc) as (_ & _ & K & Kb). rewrite K, Hst. auto. }
  exists st'. split; [done|]. split; [exact H1|]. intros Hc. destruct (H2 Hc) as (K1 & K2 & K3 & K4 & K5).
  destruct (D3 K1) as (_ & Hin & _). split_and!; [done|by etransitivity|exact K3|exact K4|].
  intros s' [->|Hs']%elem_of_cons; [by apply K2|by apply K5].
Qed.

Lemma tc_first x y : tc edge x y → ∃ z, edge x z ∧ rtc edge z y.
Proof. intros [u v H|u v w H1 H2]; [by exists v|exists v; split; [done|by apply tc_rtc]]. Qed.

Lemma acc_not_cyclic : (∀ x, is_Some (index !! x) → well_founded_at x) → ¬ cyclic.
Proof.
  intros Hacc [x Hx]. assert (is_Some (index !! x)) as Hin.
  { apply tc_first in Hx as (z & (s & Hs & _) & _). eauto. }
  specialize (Hacc x Hin). clear Hin. induction Hacc as [x _ IH].
  destruct (tc_first x x Hx) as (y & Hxy & Hyx).
  apply (IH y Hxy). eapply tc_rtc_l; [exact Hyx|by apply tc_once].
Qed.
End dfs.

(** ** The index *)

Lemma build_index_lookup_none steps x : build_index steps !! x = None ↔ ∀ s, s ∈ steps → ProofID s ≠ x.
Proof.
  unfold build_index. induction steps as [|s steps IH] using rev_ind; cbn.
  { split; [intros _ s Hs; by apply elem_of_nil in Hs|done]. }
  rewrite foldl_app. cbn. setoid_rewrite elem_of_app. setoid_rewrite list_elem_of_singleton.
  destruct (decide (ProofID s = x)) as [<-|Hne].
  - rewrite lookup_insert_eq. split; [done|]. intros H. exfalso. by apply (H s); [right|].
  - rewrite lookup_insert_ne by done. rewrite IH. naive_solver.
Qed.

Lemma build_index_some steps x s : build_index steps !! x = Some s → s ∈ steps ∧ ProofID s = x.
Proof.
  unfold build_index. induction steps as [|t steps IH] using rev_ind; cbn; [done|].
  rewrite foldl_app. cbn. rewrite elem_of_app, list_elem_of_singleton.
  destruct (decide (ProofID t = x)) as [<-|Hne].
  - rewrite lookup_insert_eq. intros [= ->]. auto.
  - rewrite lookup_insert_ne by done. naive_solver.
Qed.

Lemma build_index_nodup steps s :
  NoDup (ProofID <$> steps) → s ∈ steps → build_index steps !! ProofID s = Some s.
Proof.
  intros Hnd Hs. destruct (build_index steps !! ProofID s) as [t|] eqn:E.
  - apply build_index_some in E as [Ht Hid]. f_equal.
    apply list_elem_of_lookup in Hs as [i Hi], Ht as [j Hj].
    assert (i = j) as ->; [|congruence].
    eapply NoDup_lookup; [exact Hnd|rewrite list_lookup_fmap, Hi; done|rewrite list_lookup_fmap, Hj; cbn; congruence].
  - rewrite build_index_lookup_none in E. by destruct (E s).
Qed.

Lemma build_index_size steps : size (dom (build_index steps)) <= length steps.
Proof.
  rewrite size_dom. unfold build_index. induction steps as [|s steps IH] using rev_ind; [done|].
  rewrite foldl_app, length_app. cbn. rewrite map_size_insert. case_match; unfold id; lia.
Qed.

Lemma check_parents_ok index step pids :
  check_parents index step pids = Ok tt ↔
  ∀ y, y ∈ pids → ∃ p, index !! y = Some p ∧ InputHash step = OutputHash p.
Proof.
  induction pids as [|y pids IH]; cbn [check_parents].
  { split; [intros _ y Hy; by apply elem_of_nil in Hy|done]. }
  setoid_rewrite elem_of_cons. destruct (index !! y) as [p|] eqn:E.
  - case_bool_decide as Eh.
    + rewrite IH. split; [intros H z [->|Hz]; eauto|eauto].
    + split; [by repeat case_match|]. intros H. destruct (H y (or_introl eq_refl)) as (q & Hq & ?). congruence.
  - split; [done|]. intros H. destruct (H y (or_introl eq_refl)) as (q & Hq & _). congruence.
Qed.

Lemma check_steps_ok index steps :
  check_steps index steps = Ok tt ↔
  ∀ s, s ∈ steps → check_parents index s (ParentIDs s) = Ok tt.
Proof.
  induction steps as [|s steps IH]; cbn [check_steps].
  { split; [intros _ s Hs; by apply elem_of_nil in Hs|done]. }
  setoid_rewrite elem_of_cons. rewrite result_bind_ok. setoid_rewrite IH. split.
  - intros ([] & H1 & H2) t [->|Ht]; auto.
  - intros H. exists tt. auto.
Qed.

Lemma check_steps_no_fuel index steps : check_steps index steps ≠ Err DagFuel.
Proof.
  assert (∀ s pids, check_parents index s pids ≠ Err DagFuel) as Hp.
  { intros s pids. induction pids as [|y pids IH]; cbn; [done|]. repeat case_match; done. }
  induction steps as [|s steps IH]; cbn; [done|]. specialize (Hp s (ParentIDs s)).
  destruct (check_parents _ _ _) as [[]|e]; cbn; [done|congruence].
Qed.

(** [y] is a parent of [x] in the chain. *)
Definition parent_of (steps : list ChainStep) (x y : string) : Prop :=
  ∃ s, s ∈ steps ∧ ProofID s = x ∧ y ∈ ParentIDs s.

(** Rules 2 and 4, read on the steps themselves. *)
Definition continuous (steps : list ChainStep) : Prop :=
  ∀ s y, s ∈ steps → y ∈ ParentIDs s → ∃ p, p ∈ steps ∧ ProofID p = y ∧ InputHash s = OutputHash p.

Lemma check_steps_continuous steps :
  (check_steps (build_index steps) steps = Ok tt → continuous steps) ∧
  (NoDup (ProofID <$> steps) → continuous steps → check_steps (build_index steps) steps = Ok tt).
Proof.
  rewrite check_steps_ok. setoid_rewrite check_parents_ok. split.
  - intros H s y Hs Hy. destruct (H s Hs y Hy) as (p & Hp & Hh). apply build_index_some in Hp as [Hp Hid]. eauto.
  - intros Hnd H s Hs y Hy. destruct (H s y Hs Hy) as (p & Hp & <- & Hh). exists p.
    split; [by apply build_index_nodup|done].
Qed.

(** After the rule checks the search terminates and its flag is the truth. *)
Lemma search_correct steps :
  check_steps (build_index steps) steps = Ok tt →
  ∃ st, dfs_steps (build_index steps) (S (length steps)) steps {| visited := ∅; inStack := ∅; hasCycle := false |} = Ok st ∧
    (hasCycle st = true ↔ cyclic (build_index steps)).
Proof.
  intros Hchk. pose proof (proj1 (check_steps_ok _ _) Hchk) as Hsteps. setoid_rewrite check_parents_ok in Hsteps.
  assert (closed (build_index steps)) as Hcl.
  { intros x y (s & Hs & Hy). apply build_index_some in Hs as [Hs _]. destruct (Hsteps s Hs y Hy) as (p & ? & _). eauto. }
  destruct (dfs_steps_spec (build_index steps) (length steps) steps {| visited := ∅; inStack := ∅; hasCycle := false |} Hcl)
    as (st & Hrun & Hcyc & Hok).
  { intros s Hs. destruct (build_index steps !! ProofID s) eqn:E; [eauto|].
    rewrite build_index_lookup_none in E. by destruct (E s). }
  { pose proof (build_index_size steps). lia. }
  { done. }
  { intros _. split; [done|]. split; [done|]. intros x Hx. by apply elem_of_empty in Hx. }
  exists st. split; [done|]. split; [done|]. intros Hx. destruct (hasCycle st) eqn:Ec; [done|]. exfalso.
  destruct (Hok eq_refl) as (_ & _ & [_ B] & Hst & Hvis). apply (acc_not_cyclic (build_index steps)); [|done].
  intros z [s Hs]. apply build_index_some in Hs as [Hs <-]. apply B; [by apply Hvis|]. rewrite Hst. set_solver.
Qed.

Lemma cyclic_parent_of steps :
  NoDup (ProofID <$> steps) → cyclic (build_index steps) ↔ ∃ x, tc (parent_of steps) x x.
Proof.
  intros Hnd. assert (∀ x y, parent_of steps x y ↔ edge (build_index steps) x y) as Hedge.
  { intros x y. split.
    - intros (s & Hs & <- & Hy). exists s. split; [by apply build_index_nodup|done].
    - intros (s & Hs & Hy). apply build_index_some in Hs as [Hs Hid]. by exists s. }
  unfold cyclic. split; intros [x Hx]; exists x; (eapply tc_congruence with (f := id); [|exact Hx]); intros; by apply Hedge.
Qed.

(** ** Properties *)


Definition ex_step (id : string) (parents : list string) (input output : string) : ChainStep :=
  {| ProofID := id; ParentIDs := parents; ModelHash := ""; InputHash := input; OutputHash := output;
     StepIndex := 0; Verified := false |}.
Definition ex_chain (steps : list ChainStep) : ProofChain :=
  {| ChainID := ""; RootProofID := ""; Depth := 0; TotalSteps := 0; Status := ChainPending; Steps := steps;
     CreatedAt := 0 |}.
Definition ex_diamond : list ChainStep :=
  [ex_step "d" ["b"; "c"] "x" "y"; ex_step "b" ["a"] "h" "x"; ex_step "c" ["a"] "h" "x"; ex_step "a" [] "" "h"]%string.


(** The mismatch message of a short hash panics instead of reporting. *)
Example short_hash_panics :
  ValidateDAG (ex_chain [ex_step "b" ["a"] "x" "y"; ex_step "a" [] "" "h"]%string) = Err DagPanic.
Proof. vm_compute. reflexivity. Qed.

(** A repeated identifier hides a step that is its own parent. *)
Example duplicate_hides_cycle :
  let steps := [ex_step "r" [] "" "h"; ex_step "a" ["a"] "h" "x"; ex_step "a" ["r"] "h" "h"]%string in
  ValidateDAG (ex_chain steps) = Ok tt ∧ parent_of steps "a" "a".
Proof. split; [vm_compute; reflexivity|]. eexists. split; [right; left|]. split; [reflexivity|left]. Qed.
