(* ===== verification/Worker.v ===== *)
(** * The worker pool ([engine/internal/worker/distributed.go])

    Workers, tasks and the priority queue, one definition per method. A method
    is one atomic step: the pool's and the workers' mutexes are not modelled.
    The clock readings and, where it can be observed, the iteration order of a
    map are arguments. Counters that grow by one per call are unbounded
    integers. [PoolPanic] is the nil dereference of [sortQueue] on an identifier
    without task; it is shown not to occur. *)

From S2P Require Import Prelude GoLib Sha256.
From stdpp Require Import relations.

Local Open Scope Z_scope.

(** ** Data *)

Inductive WorkerStatus := Idle | Busy | Draining | Offline.

#[export] Instance worker_status_eq_dec : EqDecision WorkerStatus.
Proof. solve_decision. Defined.

Record Worker := {
  WID : string; Addr : string; WStatus : WorkerStatus; Load : Z; MaxLoad : Z; LastHeartbeat : Z;
  ProofsGenerated : Z; AvgGenMs : Z; Failures : Z; currentTasks : Z;
}.

Record Task := {
  TID : string; InputData : bytes; OutputData : bytes; ModelData : bytes; TAgent : string; TUseCase : string;
  Priority : Z; CreatedAt : Z; AssignedAt : Z; CompletedAt : Z; WorkerID : string; TStatus : string;
  TResult : bytes; TError : string; RetryCount : Z;
}.

Record TaskResult := { RTaskID : string; RProofID : string; GenMs : Z; RSuccess : bool; RError : string }.

Record Pool := { workers : gmap string Worker; tasks : gmap string Task; queue : list string }.

Inductive WorkerError :=
| WorkerNotFound (id : string) | TaskNotFound (id : string) | WorkerUnavailable (id : string)
| WorkerAtMaxLoad (id : string) | NoAvailableWorker | PoolPanic.

(** ** Workers *)

Definition setStatus (w : Worker) (s : WorkerStatus) : Worker :=
  {| WID := WID w; Addr := Addr w; WStatus := s; Load := Load w; MaxLoad := MaxLoad w;
     LastHeartbeat := LastHeartbeat w; ProofsGenerated := ProofsGenerated w; AvgGenMs := AvgGenMs w;
     Failures := Failures w; currentTasks := currentTasks w |}.

Definition incLoad (w : Worker) : Worker :=
  {| WID := WID w; Addr := Addr w; WStatus := WStatus w; Load := Load w + 1; MaxLoad := MaxLoad w;
     LastHeartbeat := LastHeartbeat w; ProofsGenerated := ProofsGenerated w; AvgGenMs := AvgGenMs w;
     Failures := Failures w; currentTasks := currentTasks w + 1 |}.

Definition decLoad (w : Worker) : Worker :=
  {| WID := WID w; Addr := Addr w; WStatus := WStatus w; Load := Load w - 1; MaxLoad := MaxLoad w;
     LastHeartbeat := LastHeartbeat w; ProofsGenerated := ProofsGenerated w; AvgGenMs := AvgGenMs w;
     Failures := Failures w;
     currentTasks := if 0 <? currentTasks w then currentTasks w - 1 else currentTasks w |}.

Definition getLoad (w : Worker) : Z * Z := (Load w, MaxLoad w).

(** What [CompleteTask] does to the worker after [decLoad]. *)
Definition record_generation (genMs : Z) (w : Worker) : Worker :=
  {| WID := WID w; Addr := Addr w; WStatus := WStatus w; Load := Load w; MaxLoad := MaxLoad w;
     LastHeartbeat := LastHeartbeat w; ProofsGenerated := ProofsGenerated w + 1;
     AvgGenMs := if AvgGenMs w =? 0 then genMs else Z.quot (wrap64 (AvgGenMs w + genMs)) 2;
     Failures := Failures w; currentTasks := currentTasks w |}.

(** What [FailTask] does to the worker after [decLoad]. *)
Definition record_failure (w : Worker) : Worker :=
  {| WID := WID w; Addr := Addr w; WStatus := WStatus w; Load := Load w; MaxLoad := MaxLoad w;
     LastHeartbeat := LastHeartbeat w; ProofsGenerated := ProofsGenerated w; AvgGenMs := AvgGenMs w;
     Failures := Failures w + 1; currentTasks := currentTasks w |}.

(** ** The pool *)

Definition NewPool : Pool := {| workers := ∅; tasks := ∅; queue := [] |}.

Definition with_worker (p : Pool) (id : string) (w : Worker) : Pool :=
  {| workers := <[id := w]> (workers p); tasks := tasks p; queue := queue p |}.

Definition with_task (p : Pool) (id : string) (t : Task) : Pool :=
  {| workers := workers p; tasks := <[id := t]> (tasks p); queue := queue p |}.

Definition with_queue (p : Pool) (q : list string) : Pool :=
  {| workers := workers p; tasks := tasks p; queue := q |}.

Definition RegisterWorker (p : Pool) (now : Z) (id addr : string) (maxLoad : Z) : Pool :=
  with_worker p id
    {| WID := id; Addr := addr; WStatus := Idle; Load := 0; MaxLoad := maxLoad; LastHeartbeat := now;
       ProofsGenerated := 0; AvgGenMs := 0; Failures := 0; currentTasks := 0 |}.

Definition DeregisterWorker (p : Pool) (id : string) : result WorkerError Pool :=
  match workers p !! id with
  | None => Err (WorkerNotFound id)
  | Some _ => Ok {| workers := delete id (workers p); tasks := tasks p; queue := queue p |}
  end.

Definition Heartbeat (p : Pool) (now : Z) (workerID : string) : result WorkerError Pool :=
  match workers p !! workerID with
  | None => Err (WorkerNotFound workerID)
  | Some w =>
      Ok (with_worker p workerID
        {| WID := WID w; Addr := Addr w;
           WStatus := if decide (WStatus w = Offline) then Idle else WStatus w;
           Load := Load w; MaxLoad := MaxLoad w; LastHeartbeat := now;
           ProofsGenerated := ProofsGenerated w; AvgGenMs := AvgGenMs w; Failures := Failures w;
           currentTasks := currentTasks w |})
  end.

(** The priority [sortQueue] reads; no task is a nil dereference, which
    [sortQueue] reaches as soon as there is something to compare. *)
Definition priority_of (p : Pool) (id : string) : Z :=
  match tasks p !! id with Some t => Priority t | None => 0 end.

Definition known (p : Pool) (id : string) : bool := bool_decide (is_Some (tasks p !! id)).

Definition queue_less (p : Pool) (a b : string) : bool := priority_of p b <? priority_of p a.

Definition sortQueue (p : Pool) : result WorkerError Pool :=
  if (2 <=? length (queue p))%nat && negb (forallb (known p) (queue p)) then Err PoolPanic
  else Ok (with_queue p (sort_slice (queue_less p) (queue p))).

Definition task_id (nanos : Z) (agent : string) (input : bytes) (useCase : string) : string :=
  String.substring 0 16
    (hex_encode (sha256 (input ++ bytes_of agent ++ bytes_of useCase ++ bytes_of (itoa nanos)))).

Definition new_task (id : string) (now : Z) (agent : string) (input output model : bytes)
    (useCase : string) (priority : Z) : Task :=
  {| TID := id; InputData := input; OutputData := output; ModelData := model; TAgent := agent;
     TUseCase := useCase; Priority := priority; CreatedAt := now; AssignedAt := 0; CompletedAt := 0;
     WorkerID := ""; TStatus := "pending"; TResult := []; TError := ""; RetryCount := 0 |}.

Definition SubmitTask (p : Pool) (nanos now : Z) (agent : string) (input output model : bytes)
    (useCase : string) (priority : Z) : result WorkerError (Pool * Task) :=
  let id := task_id nanos agent input useCase in
  let t := new_task id now agent input output model useCase priority in
  let! p' := sortQueue (with_queue (with_task p id t) (queue p ++ [id])) in
  Ok (p', t).

Definition assign (t : Task) (now : Z) (workerID : string) : Task :=
  {| TID := TID t; InputData := InputData t; OutputData := OutputData t; ModelData := ModelData t;
     TAgent := TAgent t; TUseCase := TUseCase t; Priority := Priority t; CreatedAt := CreatedAt t;
     AssignedAt := now; CompletedAt := CompletedAt t; WorkerID := workerID; TStatus := "assigned";
     TResult := TResult t; TError := TError t; RetryCount := RetryCount t |}.

(** The loop over the queue with its [break]: delete the first occurrence. *)
Fixpoint remove_first (id : string) (q : list string) : list string :=
  match q with
  | [] => []
  | x :: q' => if bool_decide (x = id) then q' else x :: remove_first id q'
  end.

Definition unavailable (w : Worker) : bool :=
  bool_decide (WStatus w = Offline) || bool_decide (WStatus w = Draining).

Definition AssignTask (p : Pool) (now : Z) (taskID workerID : string) : result WorkerError Pool :=
  match tasks p !! taskID with
  | None => Err (TaskNotFound taskID)
  | Some t =>
      match workers p !! workerID with
      | None => Err (WorkerNotFound workerID)
      | Some w =>
          if unavailable w then Err (WorkerUnavailable workerID)
          else let '(load, maxLoad) := getLoad w in
          if maxLoad <=? load then Err (WorkerAtMaxLoad workerID)
          else Ok (with_queue
                     (with_worker (with_task p taskID (assign t now workerID)) workerID (incLoad w))
                     (remove_first taskID (queue p)))
      end
  end.

(** [if ok { ... }]: change the worker if it is registered. *)
Definition on_worker (p : Pool) (id : string) (f : Worker → Worker) : Pool :=
  match workers p !! id with Some w => with_worker p id (f w) | None => p end.

Definition complete (t : Task) (now : Z) (proofID : string) : Task :=
  {| TID := TID t; InputData := InputData t; OutputData := OutputData t; ModelData := ModelData t;
     TAgent := TAgent t; TUseCase := TUseCase t; Priority := Priority t; CreatedAt := CreatedAt t;
     AssignedAt := AssignedAt t; CompletedAt := now; WorkerID := WorkerID t; TStatus := "completed";
     TResult := bytes_of proofID; TError := TError t; RetryCount := RetryCount t |}.

Definition CompleteTask (p : Pool) (now : Z) (taskID : string) (res : TaskResult)
    : result WorkerError Pool :=
  match tasks p !! taskID with
  | None => Err (TaskNotFound taskID)
  | Some t =>
      Ok (with_task (on_worker p (WorkerID t) (λ w, record_generation (GenMs res) (decLoad w)))
            taskID (complete t now (RProofID res)))
  end.

Definition set_outcome (t : Task) (status workerID error : string) (retries : Z) : Task :=
  {| TID := TID t; InputData := InputData t; OutputData := OutputData t; ModelData := ModelData t;
     TAgent := TAgent t; TUseCase := TUseCase t; Priority := Priority t; CreatedAt := CreatedAt t;
     AssignedAt := AssignedAt t; CompletedAt := CompletedAt t; WorkerID := workerID; TStatus := status;
     TResult := TResult t; TError := error; RetryCount := retries |}.

Definition FailTask (p : Pool) (taskID reason : string) : result WorkerError Pool :=
  match tasks p !! taskID with
  | None => Err (TaskNotFound taskID)
  | Some t =>
      let p1 := on_worker p (WorkerID t) (λ w, record_failure (decLoad w)) in
      let retries := RetryCount t + 1 in
      if 3 <? retries then Ok (with_task p1 taskID (set_outcome t "failed" (WorkerID t) reason retries))
      else sortQueue (with_queue (with_task p1 taskID (set_outcome t "pending" "" (TError t) retries))
                        (queue p ++ [taskID]))
  end.

Definition GetTask (p : Pool) (taskID : string) : option Task := tasks p !! taskID.

Definition GetWorkerLoad (p : Pool) (workerID : string) : Z * Z :=
  match workers p !! workerID with Some w => getLoad w | None => (0, 0) end.

(** [order] is the iteration order of the worker map. *)
Definition selectable (w : Worker) : bool :=
  (bool_decide (WStatus w = Idle) || bool_decide (WStatus w = Busy)) && negb (MaxLoad w <=? Load w).

Definition select_step (best : option Worker) (w : Worker) : option Worker :=
  if selectable w
  then match best with
       | Some b => if Load w <? Load b then Some w else Some b
       | None => Some w
       end
  else best.

Definition SelectWorker (order : list Worker) : result WorkerError Worker :=
  match foldl select_step None order with Some w => Ok w | None => Err NoAvailableWorker end.

Definition orphaned (p : Pool) (t : Task) : bool :=
  bool_decide (TStatus t = "assigned") &&
  match workers p !! WorkerID t with
  | Some w => bool_decide (WStatus w = Offline)
  | None => true
  end.

(** One iteration of [RebalanceTasks]; [id] ranges over the keys of the task map. *)
Definition rebalance_step (st : Pool * Z) (id : string) : Pool * Z :=
  let '(p, n) := st in
  match tasks p !! id with
  | Some t =>
      if orphaned p t
      then (with_queue (with_task p id (set_outcome t "pending" "" (TError t) (RetryCount t)))
              (queue p ++ [TID t]), n + 1)
      else (p, n)
  | None => (p, n)
  end.

Definition RebalanceTasks (p : Pool) (order : list string) : result WorkerError (Pool * Z) :=
  let '(p', n) := foldl rebalance_step (p, 0) order in
  if 0 <? n then let! p'' := sortQueue p' in Ok (p'', n) else Ok (p', n).

Definition DrainWorker (p : Pool) (workerID : string) : result WorkerError Pool :=
  match workers p !! workerID with
  | None => Err (WorkerNotFound workerID)
  | Some w => Ok (with_worker p workerID (setStatus w Draining))
  end.

Definition GetQueueDepth (p : Pool) : Z := Z.of_nat (length (queue p)).

Record Stats := {
  workers_online : Z; tasks_pending : Z; tasks_completed : Z; tasks_failed : Z; avg_gen_ms : Z;
}.

Definition has_status (s : string) (t : Task) : bool := bool_decide (TStatus t = s).

Definition GetStats (p : Pool) : Stats :=
  let gens := List.filter (λ g, 0 <? g) (AvgGenMs <$> (snd <$> map_to_list (workers p))) in
  {| workers_online := map_count (λ w, negb (bool_decide (WStatus w = Offline))) (workers p);
     tasks_pending := map_count (has_status "pending") (tasks p);
     tasks_completed := map_count (has_status "completed") (tasks p);
     tasks_failed := map_count (has_status "failed") (tasks p);
     avg_gen_ms := if (0 <? length gens)%nat
                   then Z.quot (foldl (λ s g, wrap64 (s + g)) 0 gens) (Z.of_nat (length gens)) else 0 |}.

Definition stale (now timeoutSec : Z) (t : Task) : bool :=
  bool_decide (TStatus t = "assigned") && (wrap64 (timeoutSec * 1000) <? wrap64 (now - AssignedAt t)).

(** One iteration of [PruneStaleTasks]. *)
Definition prune_step (now timeoutSec : Z) (st : Pool * Z) (id : string) : Pool * Z :=
  let '(p, n) := st in
  match tasks p !! id with
  | Some t =>
      if stale now timeoutSec t
      then (on_worker (with_task p id (set_outcome t "timeout" (WorkerID t) (TError t) (RetryCount t)))
              (WorkerID t) decLoad, n + 1)
      else (p, n)
  | None => (p, n)
  end.

Definition PruneStaleTasks (p : Pool) (now timeoutSec : Z) (order : list string) : Pool * Z :=
  foldl (prune_step now timeoutSec) (p, 0) order.

Definition expired (now timeoutSec : Z) (w : Worker) : bool :=
  wrap64 (timeoutSec * 1000) <? wrap64 (now - LastHeartbeat w).

Definition PruneOfflineWorkers (p : Pool) (now timeoutSec : Z) : Pool * Z :=
  ({| workers := (λ w, if expired now timeoutSec w then setStatus w Offline else w) <$> workers p;
      tasks := tasks p; queue := queue p |},
   map_count (expired now timeoutSec) (workers p)).

(** ** Steps *)

(** The keys of the task map in some order: Go's [range]. *)
Definition range_of (p : Pool) (order : list string) : Prop := order ≡ₚ (map_to_list (tasks p)).*1.

(** One call that succeeds. *)
Inductive pool_step : Pool → Pool → Prop :=
| step_register p now id addr m : pool_step p (RegisterWorker p now id addr m)
| step_deregister p id p' : DeregisterWorker p id = Ok p' → pool_step p p'
| step_heartbeat p now id p' : Heartbeat p now id = Ok p' → pool_step p p'
| step_submit p nanos now agent i o m uc prio p' t :
    SubmitTask p nanos now agent i o m uc prio = Ok (p', t) → pool_step p p'
| step_assign p now tid wid p' : AssignTask p now tid wid = Ok p' → pool_step p p'
| step_complete p now tid res p' : CompleteTask p now tid res = Ok p' → pool_step p p'
| step_fail p tid reason p' : FailTask p tid reason = Ok p' → pool_step p p'
| step_rebalance p order p' n : range_of p order → RebalanceTasks p order = Ok (p', n) → pool_step p p'
| step_drain p wid p' : DrainWorker p wid = Ok p' → pool_step p p'
| step_prune_tasks p now timeout order :
    range_of p order → pool_step p (PruneStaleTasks p now timeout order).1
| step_prune_workers p now timeout : pool_step p (PruneOfflineWorkers p now timeout).1.

(** ** The parts of the state an operation changes *)

Lemma workers_on_worker p id f : workers (on_worker p id f) = alter f id (workers p).
Proof.
  unfold on_worker. destruct (workers p !! id) as [w|] eqn:E; cbn.
  - apply map_eq. intros j. destruct (decide (j = id)) as [->|].
    + by rewrite lookup_insert_eq, lookup_alter_eq, E.
    + by rewrite lookup_insert_ne, lookup_alter_ne.
  - symmetry. apply map_eq. intros j. destruct (decide (j = id)) as [->|].
    + by rewrite lookup_alter_eq, E.
    + by rewrite lookup_alter_ne.
Qed.

Lemma tasks_on_worker p id f : tasks (on_worker p id f) = tasks p.
Proof. unfold on_worker. by destruct (workers p !! id). Qed.

Lemma queue_on_worker p id f : queue (on_worker p id f) = queue p.
Proof. unfold on_worker. by destruct (workers p !! id). Qed.

Lemma on_worker_eq p id f :
  on_worker p id f = {| workers := alter f id (workers p); tasks := tasks p; queue := queue p |}.
Proof.
  rewrite <- workers_on_worker. unfold on_worker. by destruct (workers p !! id), p.
Qed.

#[export] Hint Rewrite workers_on_worker tasks_on_worker queue_on_worker : casper_rw.

Lemma remove_first_split id q :
  id ∈ q → ∃ q1 q2, q = q1 ++ id :: q2 ∧ id ∉ q1 ∧ remove_first id q = q1 ++ q2.
Proof.
  induction q as [|x q IH]; [by intros ?%elem_of_nil|]. intros H. cbn.
  case_bool_decide as E; [subst; exists [], q; split; [done|]; split; [by apply not_elem_of_nil|done]|].
  apply elem_of_cons in H as [->|H]; [done|].
  destruct (IH H) as (q1 & q2 & -> & ? & ->). exists (x :: q1), q2.
  rewrite not_elem_of_cons. split; [done|]. split; [naive_solver|done].
Qed.

Lemma remove_first_absent id q : id ∉ q → remove_first id q = q.
Proof.
  induction q as [|x q IH]; [done|]. rewrite not_elem_of_cons. intros [? ?]. cbn.
  rewrite bool_decide_false by congruence. by rewrite IH.
Qed.

Lemma elem_of_remove_first id x q : x ∈ remove_first id q → x ∈ q.
Proof.
  destruct (decide (id ∈ q)) as [H|H]; [|by rewrite remove_first_absent].
  destruct (remove_first_split id q H) as (q1 & q2 & -> & _ & ->). set_solver.
Qed.

Lemma remove_first_keeps id x q : x ∈ q → x ≠ id → x ∈ remove_first id q.
Proof.
  destruct (decide (id ∈ q)) as [H|H]; [|by rewrite remove_first_absent].
  destruct (remove_first_split id q H) as (q1 & q2 & -> & _ & ->). set_solver.
Qed.

(** ** The invariant of every pool *)

Definition worker_ok (id : string) (w : Worker) : Prop := WID w = id ∧ Load w <= Z.max 0 (MaxLoad w).

(** No identifier without task in the queue (so [sortQueue] does not panic), no
    pending task out of it, no worker above its maximum. *)
Record core_inv (p : Pool) : Prop := {
  inv_known : ∀ id, id ∈ queue p → is_Some (tasks p !! id);
  inv_pending : ∀ id t, tasks p !! id = Some t → TStatus t = "pending"%string → id ∈ queue p;
  inv_ids : ∀ id t, tasks p !! id = Some t → TID t = id;
  inv_workers : ∀ id w, workers p !! id = Some w → worker_ok id w;
}.

(** The queue is in order of decreasing priority. *)
Definition queue_sorted (p : Pool) : Prop := StronglySorted (λ a b, priority_of p b <= priority_of p a) (queue p).

Definition pool_inv (p : Pool) : Prop := core_inv p ∧ queue_sorted p.

#[export] Instance swo_queue p : StrictWeakOrder (queue_less p).
Proof. apply swo_Z_desc. Qed.

Lemma sortQueue_ok p :
  core_inv p → ∃ p', sortQueue p = Ok p' ∧ pool_inv p' ∧ workers p' = workers p ∧ tasks p' = tasks p ∧
    queue p' ≡ₚ queue p.
Proof.
  intros [K P I L]. unfold sortQueue.
  assert (forallb (known p) (queue p) = true) as ->.
  { apply forallb_forall. intros x Hx. apply bool_decide_eq_true, K. by apply list_elem_of_In. }
  rewrite andb_false_r. eexists. split; [done|]. cbn. split_and!; [|done|done|by apply sort_slice_perm].
  split; [constructor; cbn|].
  - intros id. rewrite elem_of_sort_slice. apply K.
  - intros id t Ht Hs. rewrite elem_of_sort_slice. by eapply P.
  - done.
  - done.
  - unfold queue_sorted. cbn. pose proof (sort_slice_sorted (queue_less p) (queue p)) as Hs.
    induction Hs as [|a l Hl IH Ha]; constructor; [done|].
    eapply Forall_impl; [exact Ha|]. intros b Hab%Z.ltb_ge. done.
Qed.

(** A task update that keeps the identifier, and queues the task when it
    becomes pending. *)
Lemma core_inv_task p id t t' q :
  core_inv p → tasks p !! id = Some t → TID t' = TID t →
  (∀ x, x ∈ q → x ∈ queue p ∨ x = id) →
  (∀ x, x ∈ queue p → x ∈ q ∨ x = id) →
  (TStatus t' = "pending"%string → id ∈ q) →
  core_inv (with_queue (with_task p id t') q).
Proof.
  intros [K P I L] Ht Hid Hq Hq' Hp. constructor; cbn; [..|done].
  - intros x Hx. destruct (decide (x = id)) as [->|]; [rewrite lookup_insert_eq; eauto|].
    rewrite lookup_insert_ne by done. destruct (Hq _ Hx) as [|]; [by apply K|done].
  - intros x y. destruct (decide (x = id)) as [->|]; [rewrite lookup_insert_eq; naive_solver|].
    rewrite lookup_insert_ne by done. intros Hy Hs. destruct (Hq' x) as [|]; [by eapply P|done|done].
  - intros x y. destruct (decide (x = id)) as [->|]; [|rewrite lookup_insert_ne by done; apply I].
    rewrite lookup_insert_eq. intros [= <-]. rewrite Hid. by apply I.
Qed.

Lemma core_inv_workers p ws :
  core_inv p → (∀ id w, ws !! id = Some w → worker_ok id w) →
  core_inv {| workers := ws; tasks := tasks p; queue := queue p |}.
Proof. intros [K P I L] H. by constructor. Qed.

Lemma workers_ok_insert (ws : gmap string Worker) id w :
  (∀ i v, ws !! i = Some v → worker_ok i v) → worker_ok id w →
  ∀ i v, <[id := w]> ws !! i = Some v → worker_ok i v.
Proof. intros H Hw i v [[<- <-]|[_ ?]]%lookup_insert_Some; [done|by eapply H]. Qed.

Lemma core_inv_on_worker p id f :
  core_inv p → (∀ w, WID (f w) = WID w ∧ Load (f w) <= Load w ∧ MaxLoad (f w) = MaxLoad w) →
  core_inv (on_worker p id f).
Proof.
  intros Hp Hf. unfold on_worker. destruct (workers p !! id) as [w|] eqn:E; [|done].
  apply core_inv_workers; [done|]. apply workers_ok_insert; [by apply inv_workers|].
  destruct (inv_workers _ Hp _ _ E) as [? ?]. destruct (Hf w) as (? & ? & ?). split; [congruence|lia].
Qed.

Lemma queue_sorted_tasks p p' :
  queue_sorted p → (∀ id, id ∈ queue p → priority_of p' id = priority_of p id) → queue p' = queue p →
  queue_sorted p'.
Proof.
  unfold queue_sorted. intros Hs Hp ->. revert Hp. induction Hs as [|x q Hq IH Hx]; intros Hp; [constructor|].
  constructor; [apply IH; intros; apply Hp; by right|].
  rewrite Forall_forall in Hx |- *. intros y Hy. rewrite (Hp y), (Hp x) by first [left | by right]. by apply Hx.
Qed.

Lemma priority_of_update p id t t' j :
  tasks p !! id = Some t → Priority t' = Priority t → priority_of (with_task p id t') j = priority_of p j.
Proof.
  intros Ht Hp. unfold priority_of. cbn. destruct (decide (j = id)) as [->|].
  - by rewrite lookup_insert_eq, Ht.
  - by rewrite lookup_insert_ne.
Qed.

Lemma queue_sorted_remove p id : queue_sorted p → queue_sorted (with_queue p (remove_first id (queue p))).
Proof.
  unfold queue_sorted. cbn. induction 1 as [|x q Hq IH Hx]; cbn; [constructor|].
  case_bool_decide; [done|]. constructor; [done|].
  rewrite Forall_forall in Hx |- *. intros y Hy. eapply Hx, elem_of_remove_first, Hy.
Qed.

(** *** Each operation keeps it *)

Lemma worker_ok_of p id w w' :
  pool_inv p → workers p !! id = Some w → WID w' = WID w → Load w' = Load w → MaxLoad w' = MaxLoad w →
  worker_ok id w'.
Proof. intros [Hp _] Hw. unfold worker_ok. intros -> -> ->. by apply (inv_workers p). Qed.

Lemma pool_inv_worker p id w :
  pool_inv p → worker_ok id w → pool_inv (with_worker p id w).
Proof.
  intros [Hp Hs] Hw. split; [|done]. apply core_inv_workers; [done|].
  by apply workers_ok_insert; [apply inv_workers|].
Qed.

Lemma pool_inv_task p id t t' ws :
  core_inv {| workers := ws; tasks := tasks p; queue := queue p |} → queue_sorted p →
  tasks p !! id = Some t → TID t' = TID t → Priority t' = Priority t → TStatus t' ≠ "pending"%string →
  pool_inv {| workers := ws; tasks := <[id := t']> (tasks p); queue := queue p |}.
Proof.
  intros Hp Hs Ht Hid Hprio Hst. split.
  - by apply (core_inv_task _ id t t' (queue p)) in Hp; auto.
  - eapply queue_sorted_tasks; [done| |done]. intros j _. by apply (priority_of_update p id t).
Qed.

Lemma pool_inv_submit p nanos now agent i o m uc prio :
  pool_inv p → ∃ p' t, SubmitTask p nanos now agent i o m uc prio = Ok (p', t) ∧ pool_inv p'.
Proof.
  intros [Hp _]. unfold SubmitTask. set (id := task_id _ _ _ _). set (t' := new_task _ _ _ _ _ _ _ _).
  assert (core_inv (with_queue (with_task p id t') (queue p ++ [id]))) as H.
  { destruct Hp as [K P I L]. constructor; cbn; [..|done].
    - intros x. rewrite elem_of_app, list_elem_of_singleton.
      intros Hx. destruct (decide (x = id)) as [->|]; [rewrite lookup_insert_eq; eauto|].
      rewrite lookup_insert_ne by done. destruct Hx; [by apply K|done].
    - intros x y [[<- <-]|[? Hy]]%lookup_insert_Some Hst; apply elem_of_app; [right; left|].
      left. by eapply P.
    - intros x y [[<- <-]|[? Hy]]%lookup_insert_Some; [done|by apply I]. }
  apply sortQueue_ok in H as (p2 & -> & ? & _). cbn. eauto.
Qed.

Lemma pool_inv_assign p now tid wid p' : pool_inv p → AssignTask p now tid wid = Ok p' → pool_inv p'.
Proof.
  intros [Hp Hs]. unfold AssignTask, getLoad. intros H. case_all. bool_to_prop. split.
  - apply (core_inv_task (with_worker p wid (incLoad w)) tid t); try done.
    + apply core_inv_workers; [done|]. apply workers_ok_insert; [by apply inv_workers|].
      destruct (inv_workers _ Hp wid w) as [? ?]; [done|]. split; [done|]. cbn. lia.
    + intros x Hx%elem_of_remove_first. by left.
    + intros x Hx. destruct (decide (x = tid)); [by right|]. left. by apply remove_first_keeps.
  - apply (queue_sorted_remove (with_worker (with_task p tid (assign t now wid)) wid (incLoad w))).
    eapply queue_sorted_tasks; [exact Hs| |done]. intros j _. by apply (priority_of_update p tid t).
Qed.

Lemma pool_inv_complete p now tid res p' : pool_inv p → CompleteTask p now tid res = Ok p' → pool_inv p'.
Proof.
  intros [Hp Hs] H. unfold CompleteTask in H. case_all. set (f := λ w, _).
  pose proof (core_inv_on_worker p (WorkerID t) f Hp) as Hc.
  assert (∀ w, WID (f w) = WID w ∧ Load (f w) <= Load w ∧ MaxLoad (f w) = MaxLoad w) as Hf
    by (intros w; cbn; split; [done|lia]).
  specialize (Hc Hf). rewrite on_worker_eq in *. by apply (pool_inv_task p tid t).
Qed.

Lemma pool_inv_fail p tid reason : 
  pool_inv p → is_Some (tasks p !! tid) → ∃ p', FailTask p tid reason = Ok p' ∧ pool_inv p'.
Proof.
  intros [Hp Hs] [t Ht]. unfold FailTask. rewrite Ht. cbv zeta. set (f := λ w : Worker, _).
  pose proof (core_inv_on_worker p (WorkerID t) f Hp) as Hc.
  assert (∀ w, WID (f w) = WID w ∧ Load (f w) <= Load w ∧ MaxLoad (f w) = MaxLoad w) as Hf
    by (intros w; cbn; split; [done|lia]).
  specialize (Hc Hf). case_match.
  - eexists. split; [done|]. rewrite on_worker_eq in *. by apply (pool_inv_task p tid t).
  - assert (tasks (on_worker p (WorkerID t) f) !! tid = Some t) as Ht' by by rewrite tasks_on_worker.
    apply (core_inv_task _ tid t (set_outcome t "pending" "" (TError t) (RetryCount t + 1)) (queue p ++ [tid])) in Hc;
      [|done|done|rewrite ?queue_on_worker; set_solver..].
    apply sortQueue_ok in Hc as (p' & ? & ? & _). eauto.
Qed.

Lemma core_inv_rebalance_step p n id :
  core_inv p → core_inv (rebalance_step (p, n) id).1.
Proof.
  intros Hp. unfold rebalance_step. destruct (tasks p !! id) as [t|] eqn:Ht; [|done].
  destruct (orphaned p t); [|done]. cbn. rewrite (inv_ids _ Hp _ _ Ht).
  apply (core_inv_task p id t); set_solver.
Qed.

Lemma rebalance_spec order p n p' m :
  core_inv p → foldl rebalance_step (p, n) order = (p', m) → core_inv p' ∧ n <= m ∧ (m = n → p' = p).
Proof.
  revert p n. induction order as [|id order IH]; cbn -[rebalance_step]; intros p n Hp.
  { intros [= <- <-]. split; [done|]. split; [lia|done]. }
  pose proof (core_inv_rebalance_step p n id Hp) as H1.
  destruct (rebalance_step (p, n) id) as [p1 n1] eqn:E. intros H.
  destruct (IH p1 n1 H1 H) as (? & ? & Heq).
  assert (n1 = n ∧ p1 = p ∨ n1 = n + 1) as Hn by (unfold rebalance_step in E; case_all; auto).
  split; [done|]. destruct Hn as [[-> ->]| ->]; (split; [lia|]); [done|lia].
Qed.

Lemma pool_inv_rebalance p order :
  pool_inv p → ∃ p' n, RebalanceTasks p order = Ok (p', n) ∧ pool_inv p'.
Proof.
  intros [Hp Hs]. unfold RebalanceTasks. destruct (foldl _ _ _) as [p1 n] eqn:E.
  destruct (rebalance_spec _ _ _ _ _ Hp E) as (H1 & ? & Heq). destruct (Z.ltb_spec 0 n).
  - destruct (sortQueue_ok p1 H1) as (p2 & -> & ? & _). cbn. eauto.
  - rewrite Heq in * by lia. exists p, n. by split.
Qed.

Lemma pool_inv_prune p now timeout order : pool_inv p → pool_inv (PruneStaleTasks p now timeout order).1.
Proof.
  unfold PruneStaleTasks. generalize 0. revert p. induction order as [|id order IH]; [done|].
  cbn -[prune_step]. intros p n Hp. destruct (prune_step now timeout (p, n) id) as [p1 n1] eqn:E. apply IH.
  unfold prune_step in E. case_all; [|done..]. destruct Hp as [Hp Hs].
  pose proof (core_inv_on_worker p (WorkerID t) decLoad Hp) as Hc.
  assert (∀ w, WID (decLoad w) = WID w ∧ Load (decLoad w) <= Load w ∧ MaxLoad (decLoad w) = MaxLoad w) as Hf
    by (intros w; cbn; split; [done|lia]).
  specialize (Hc Hf). rewrite on_worker_eq in *. by apply (pool_inv_task p id t).
Qed.

Lemma pool_inv_prune_workers p now timeout : pool_inv p → pool_inv (PruneOfflineWorkers p now timeout).1.
Proof.
  intros [Hp Hs]. split; [|done]. cbn. apply core_inv_workers; [done|].
  intros id w. rewrite lookup_fmap. intros (v & Hv & ->)%fmap_Some. pose proof (inv_workers _ Hp _ _ Hv).
  by destruct (expired now timeout v).
Qed.

Lemma pool_inv_step p p' : pool_step p p' → pool_inv p → pool_inv p'.
Proof.
  destruct 1 as [p now id addr m|p id p' H|p now id p' H|p ns now a i o m uc prio p' t H| | |p tid r p' H
    |p order p' n _ H|p wid p' H| |]; intros Hp.
  - apply pool_inv_worker; [done|]. split; [done|cbn; lia].
  - unfold DeregisterWorker in H. case_all. destruct Hp as [Hp Hs]. split; [|done].
    apply core_inv_workers; [done|]. intros i v [_ Hv]%lookup_delete_Some. by eapply inv_workers.
  - unfold Heartbeat in H. case_all; (apply pool_inv_worker; [done|]; by eapply (worker_ok_of p)).
  - destruct (pool_inv_submit p ns now a i o m uc prio Hp) as (? & ? & ? & ?). congruence.
  - by eapply pool_inv_assign.
  - by eapply pool_inv_complete.
  - destruct (pool_inv_fail p tid r Hp) as (p2 & H2 & ?); [|congruence].
    unfold FailTask in H. destruct (tasks p !! tid); [eauto|done].
  - destruct (pool_inv_rebalance p order Hp) as (p2 & n2 & H2 & ?). congruence.
  - unfold DrainWorker in H. case_all. apply pool_inv_worker; [done|]. by eapply (worker_ok_of p).
  - by apply pool_inv_prune.
  - by apply pool_inv_prune_workers.
Qed.

Lemma pool_inv_new : pool_inv NewPool.
Proof. split; [|constructor]. constructor; cbn; set_solver. Qed.

Lemma pool_inv_reachable p : rtc pool_step NewPool p → pool_inv p.
Proof.
  intros H. pose proof pool_inv_new as Hp. revert Hp.
  induction H; eauto using pool_inv_step.
Qed.

(** ** Orderly use

    Tasks are assigned while pending, completed and failed while assigned; a
    worker identifier is not registered again while it holds tasks; the tasks
    of a registered worker are not rebalanced away. *)

(** The task is assigned to worker [id]. *)
Definition held_by (id : string) (t : Task) : bool :=
  bool_decide (TStatus t = "assigned"%string) && bool_decide (WorkerID t = id).

Definition task_in (p : Pool) (id status : string) : Prop :=
  ∃ t, tasks p !! id = Some t ∧ TStatus t = status.

(** No assigned task is at a worker that is registered but offline. *)
Definition no_offline_holder (p : Pool) : Prop :=
  ∀ id t w, tasks p !! id = Some t → TStatus t = "assigned"%string → workers p !! WorkerID t = Some w →
    WStatus w ≠ Offline.

Inductive orderly_step : Pool → Pool → Prop :=
| orderly_register p now id addr m :
    map_count (held_by id) (tasks p) = 0 → orderly_step p (RegisterWorker p now id addr m)
| orderly_deregister p id p' : DeregisterWorker p id = Ok p' → orderly_step p p'
| orderly_heartbeat p now id p' : Heartbeat p now id = Ok p' → orderly_step p p'
| orderly_submit p nanos now agent i o m uc prio p' t :
    tasks p !! task_id nanos agent i uc = None →
    SubmitTask p nanos now agent i o m uc prio = Ok (p', t) → orderly_step p p'
| orderly_assign p now tid wid p' :
    task_in p tid "pending" → AssignTask p now tid wid = Ok p' → orderly_step p p'
| orderly_complete p now tid res p' :
    task_in p tid "assigned" → CompleteTask p now tid res = Ok p' → orderly_step p p'
| orderly_fail p tid reason p' :
    task_in p tid "assigned" → FailTask p tid reason = Ok p' → orderly_step p p'
| orderly_rebalance p order p' n :
    range_of p order → no_offline_holder p → RebalanceTasks p order = Ok (p', n) → orderly_step p p'
| orderly_drain p wid p' : DrainWorker p wid = Ok p' → orderly_step p p'
| orderly_prune_tasks p now timeout order :
    range_of p order → orderly_step p (PruneStaleTasks p now timeout order).1
| orderly_prune_workers p now timeout : orderly_step p (PruneOfflineWorkers p now timeout).1.

Lemma orderly_pool_step p p' : orderly_step p p' → pool_step p p'.
Proof.
  destruct 1; [apply step_register|by eapply step_deregister|by eapply step_heartbeat|by eapply step_submit
    |by eapply step_assign|by eapply step_complete|by eapply step_fail|by eapply step_rebalance
    |by eapply step_drain|by apply step_prune_tasks|by apply step_prune_workers].
Qed.

(** Every worker's load is the number of tasks assigned to it. *)
Definition loads (ws : gmap string Worker) (ts : gmap string Task) : Prop :=
  ∀ id w, ws !! id = Some w → Load w = map_count (held_by id) ts.

(** The queue holds the pending tasks, each once. *)
Definition queue_ok (ts : gmap string Task) (q : list string) : Prop :=
  NoDup q ∧ ∀ id, id ∈ q ↔ ∃ t, ts !! id = Some t ∧ TStatus t = "pending"%string.

Definition accounts (p : Pool) : Prop := loads (workers p) (tasks p) ∧ queue_ok (tasks p) (queue p).

Lemma held_by_status id t : TStatus t ≠ "assigned"%string → held_by id t = false.
Proof. intros. unfold held_by. by rewrite bool_decide_false. Qed.

Lemma held_by_assigned id t :
  TStatus t = "assigned"%string → held_by id t = bool_decide (WorkerID t = id).
Proof. intros E. unfold held_by. by rewrite E. Qed.

Lemma loads_worker ws ts id w :
  loads ws ts → Load w = map_count (held_by id) ts → loads (<[id := w]> ws) ts.
Proof. intros H Hw i v [[<- <-]|[_ ?]]%lookup_insert_Some; [done|by apply H]. Qed.

Lemma loads_worker_update ws ts id w w' :
  loads ws ts → ws !! id = Some w → Load w' = Load w → loads (<[id := w']> ws) ts.
Proof. intros H Hw E. apply loads_worker; [done|]. rewrite E. by apply H. Qed.

Lemma loads_task ws ts id t t' :
  loads ws ts → ts !! id = Some t →
  (∀ i, is_Some (ws !! i) → held_by i t = held_by i t') → loads ws (<[id := t']> ts).
Proof.
  intros H Ht E i w Hw. rewrite (map_count_insert _ _ _ _ _ Ht), (H i w Hw), (E i) by eauto. lia.
Qed.

Lemma loads_release ws ts id t t' f :
  loads ws ts → ts !! id = Some t → TStatus t = "assigned"%string → TStatus t' ≠ "assigned"%string →
  (∀ w, Load (f w) = Load w - 1) → loads (alter f (WorkerID t) ws) (<[id := t']> ts).
Proof.
  intros H Ht Hs Hs' Hf i w. rewrite (map_count_insert _ _ _ _ _ Ht), (held_by_status _ t') by done.
  rewrite held_by_assigned by done. destruct (decide (i = WorkerID t)) as [->|Hne].
  - rewrite lookup_alter_eq, fmap_Some. intros (v & Hv & ->).
    rewrite bool_decide_true, Hf, (H _ _ Hv) by done. lia.
  - rewrite lookup_alter_ne by done. intros Hw. rewrite bool_decide_false by congruence.
    rewrite (H _ _ Hw). lia.
Qed.

Lemma loads_acquire ws ts id t t' w :
  loads ws ts → ts !! id = Some t → TStatus t ≠ "assigned"%string → TStatus t' = "assigned"%string →
  ws !! WorkerID t' = Some w → loads (<[WorkerID t' := incLoad w]> ws) (<[id := t']> ts).
Proof.
  intros H Ht Hs Hs' Hw i v Hv. rewrite (map_count_insert _ _ _ _ _ Ht), (held_by_status _ t) by done.
  rewrite held_by_assigned by done. apply lookup_insert_Some in Hv as [[<- <-]|[Hne Hv]].
  - rewrite bool_decide_true by done. cbn. rewrite (H _ _ Hw). lia.
  - rewrite bool_decide_false by done. rewrite (H _ _ Hv). lia.
Qed.

Lemma queue_ok_push ts q id t' :
  queue_ok ts q → (∀ t, ts !! id = Some t → TStatus t ≠ "pending"%string) → TStatus t' = "pending"%string →
  queue_ok (<[id := t']> ts) (q ++ [id]).
Proof.
  intros [Hnd Hq] Ht Ht'. split.
  - apply NoDup_app. split_and!; [done| |apply NoDup_singleton].
    intros x Hx ->%list_elem_of_singleton. apply Hq in Hx as (t & ? & ?). by eapply Ht.
  - intros x. rewrite elem_of_app, list_elem_of_singleton. destruct (decide (x = id)) as [->|].
    + rewrite lookup_insert_eq. naive_solver.
    + rewrite lookup_insert_ne by done. rewrite Hq. naive_solver.
Qed.

Lemma queue_ok_same ts q id t t' :
  queue_ok ts q → ts !! id = Some t → TStatus t ≠ "pending"%string → TStatus t' ≠ "pending"%string →
  queue_ok (<[id := t']> ts) q.
Proof.
  intros [Hnd Hq] Ht Hs Hs'. split; [done|]. intros x. rewrite Hq. destruct (decide (x = id)) as [->|].
  - rewrite lookup_insert_eq, Ht. naive_solver.
  - by rewrite lookup_insert_ne.
Qed.

Lemma queue_ok_pop ts q id t t' :
  queue_ok ts q → ts !! id = Some t → TStatus t = "pending"%string → TStatus t' ≠ "pending"%string →
  queue_ok (<[id := t']> ts) (remove_first id q).
Proof.
  intros [Hnd Hq] Ht Hs Hs'. assert (id ∈ q) as Hin by (apply Hq; eauto).
  destruct (remove_first_split id q Hin) as (q1 & q2 & -> & Hq1 & ->).
  apply NoDup_app in Hnd as (H1 & H12 & H2). apply NoDup_cons in H2 as [Hq2 H2]. split.
  - apply NoDup_app. split_and!; [done| |done]. intros x Hx Hx2. apply (H12 x Hx). by right.
  - intros x. destruct (decide (x = id)) as [->|].
    + rewrite lookup_insert_eq. set_solver.
    + rewrite lookup_insert_ne by done. rewrite <- Hq. set_solver.
Qed.

Lemma queue_ok_perm ts q q' : queue_ok ts q → q' ≡ₚ q → queue_ok ts q'.
Proof. intros [? Hq] E. split; [by rewrite E|]. intros x. by rewrite E. Qed.

(** *** Orderly steps keep the accounts *)

Lemma accounts_sort p p' : accounts p → sortQueue p = Ok p' → accounts p'.
Proof.
  intros [Hl Hq]. unfold sortQueue. case_match; [done|]. intros [= <-]. split; [done|].
  eapply queue_ok_perm; [exact Hq|]. apply sort_slice_perm.
Qed.

Lemma accounts_rebalance_step p n id :
  core_inv p → accounts p → no_offline_holder p →
  let p' := (rebalance_step (p, n) id).1 in accounts p' ∧ no_offline_holder p'.
Proof.
  intros Hp [Hl Hq] Hno. cbn -[rebalance_step]. unfold rebalance_step.
  destruct (tasks p !! id) as [t|] eqn:Ht; [|done]. destruct (orphaned p t) eqn:Ho; [|done]. cbn.
  unfold orphaned in Ho. apply andb_prop in Ho as [Hs Ho]. bool_to_prop.
  destruct (workers p !! WorkerID t) as [w|] eqn:Hw.
  { bool_to_prop. by destruct (Hno _ _ _ Ht Hs Hw). }
  split; [split|]; cbn.
  - eapply loads_task; [done|exact Ht|]. intros i [v Hv]. rewrite (held_by_status i (set_outcome _ _ _ _ _)) by done.
    rewrite held_by_assigned by done. apply bool_decide_false. intros <-. congruence.
  - rewrite (inv_ids _ Hp _ _ Ht). apply queue_ok_push; [done| |done]. rewrite Ht. intros ? [= <-]. by rewrite Hs.
  - intros i v w. cbn. intros [[<- <-]|[_ Hv]]%lookup_insert_Some; [done|]. by apply (Hno i).
Qed.

Lemma accounts_rebalance p order p' n :
  core_inv p → accounts p → no_offline_holder p → RebalanceTasks p order = Ok (p', n) → accounts p'.
Proof.
  intros Hp Ha Hno. unfold RebalanceTasks.
  assert (∀ st, core_inv st.1 → accounts st.1 → no_offline_holder st.1 →
    accounts (foldl rebalance_step st order).1) as H.
  { clear. induction order as [|id order IH]; cbn -[rebalance_step]; intros [p m] Hp Ha Hno; [done|].
    destruct (accounts_rebalance_step p m id Hp Ha Hno). apply IH; [by apply core_inv_rebalance_step|done..]. }
  specialize (H (p, 0) Hp Ha Hno). destruct (foldl _ _ _) as [p1 k]. cbn in H. case_match.
  - intros (p2 & H2 & [= <- _])%result_bind_ok. by eapply accounts_sort.
  - by intros [= <- _].
Qed.

Lemma accounts_prune p now timeout order : accounts p → accounts (PruneStaleTasks p now timeout order).1.
Proof.
  unfold PruneStaleTasks. generalize 0. revert p. induction order as [|id order IH]; [done|].
  cbn -[prune_step]. intros p n [Hl Hq]. destruct (prune_step now timeout (p, n) id) as [p1 n1] eqn:E. apply IH.
  unfold prune_step in E. case_all; [|done..]. unfold stale in *. bool_to_prop.
  rewrite on_worker_eq. split; cbn.
  - by apply (loads_release _ _ _ t).
  - apply (queue_ok_same _ _ _ t); [done|done| |done]. by match goal with H : TStatus t = _ |- _ => rewrite H end.
Qed.

Lemma accounts_submit p nanos now agent i o m uc prio p' t :
  accounts p → tasks p !! task_id nanos agent i uc = None →
  SubmitTask p nanos now agent i o m uc prio = Ok (p', t) → accounts p'.
Proof.
  intros [Hl Hq] Hfresh. unfold SubmitTask. intros (p1 & H1 & [= <- _])%result_bind_ok.
  eapply accounts_sort; [|exact H1]. split; cbn.
  - intros j w Hw. rewrite map_count_insert_new by done. cbn. by apply Hl.
  - apply queue_ok_push; [done| |done]. by rewrite Hfresh.
Qed.

Lemma accounts_assign p now tid wid p' :
  accounts p → task_in p tid "pending" → AssignTask p now tid wid = Ok p' → accounts p'.
Proof.
  intros [Hl Hq] (t & Ht & Hs). unfold AssignTask, getLoad. rewrite Ht. intros H. case_all. split; cbn.
  - by apply (loads_acquire _ _ tid t (assign t now wid)); rewrite ?Hs.
  - by apply (queue_ok_pop _ _ _ t).
Qed.

Lemma accounts_complete p now tid res p' :
  accounts p → task_in p tid "assigned" → CompleteTask p now tid res = Ok p' → accounts p'.
Proof.
  intros [Hl Hq] (t & Ht & Hs). unfold CompleteTask. rewrite Ht. intros [= <-].
  rewrite on_worker_eq. split; cbn.
  - by apply (loads_release _ _ _ t).
  - by apply (queue_ok_same _ _ _ t); rewrite ?Hs.
Qed.

Lemma accounts_fail p tid reason p' :
  accounts p → task_in p tid "assigned" → FailTask p tid reason = Ok p' → accounts p'.
Proof.
  intros [Hl Hq] (t & Ht & Hs). unfold FailTask. rewrite Ht. cbv zeta. rewrite on_worker_eq. case_match.
  - intros [= <-]. split; cbn; [by apply (loads_release _ _ _ t)|by apply (queue_ok_same _ _ _ t); rewrite ?Hs].
  - intros H2. eapply accounts_sort; [|exact H2]. split; cbn.
    + by apply (loads_release _ _ _ t).
    + apply queue_ok_push; [done| |done]. rewrite Ht. intros ? [= <-]. by rewrite Hs.
Qed.

Lemma accounts_step p p' : orderly_step p p' → pool_inv p → accounts p → accounts p'.
Proof.
  destruct 1 as [p now id addr m Hz|p id p' H|p now id p' H| | | | |p order p' n _ Hno H|p wid p' H| |];
    intros [Hp _] Ha; pose proof Ha as [Hl Hq].
  - split; [|done]. by apply loads_worker.
  - unfold DeregisterWorker in H. case_all. split; [|done]. cbn. intros i v [_ Hv]%lookup_delete_Some. by apply Hl.
  - unfold Heartbeat in H. case_all; (split; [|done]); by eapply loads_worker_update.
  - by eapply accounts_submit.
  - by eapply accounts_assign.
  - by eapply accounts_complete.
  - by eapply accounts_fail.
  - by eapply accounts_rebalance.
  - unfold DrainWorker in H. case_all. split; [|done]. by eapply loads_worker_update.
  - by apply accounts_prune.
  - split; [|done]. cbn. intros i v. rewrite lookup_fmap. intros (w & Hw & ->)%fmap_Some.
    rewrite <- (Hl _ _ Hw). by destruct (expired now timeout w).
Qed.

Lemma accounts_reachable p : rtc orderly_step NewPool p → accounts p.
Proof.
  assert (accounts NewPool) as H0.
  { split; [intros ? ? ?; done|]. split; [constructor|]. cbn. set_solver. }
  assert (∀ q, rtc orderly_step q p → pool_inv q → accounts q → accounts p) as H.
  { induction 1; eauto using accounts_step, pool_inv_step, orderly_pool_step. }
  intros Hr. by apply (H NewPool Hr pool_inv_new).
Qed.

(** ** Properties *)

(** Whatever the sequence of calls, no worker's load exceeds its maximum, no
    pending task is missing from the queue, the queue is in order of
    decreasing priority, and sorting it never dereferences a missing task:
    submitting, failing a known task and rebalancing always succeed. *)
Theorem worker_pool_safe (p : Pool) (Hp : rtc pool_step NewPool p) :
  (∀ id w, workers p !! id = Some w → Load w <= Z.max 0 (MaxLoad w)) ∧
  (∀ id t, tasks p !! id = Some t → TStatus t = "pending"%string → id ∈ queue p) ∧
  StronglySorted (λ a b, priority_of p b <= priority_of p a) (queue p) ∧
  (∀ nanos now agent i o m uc prio, ∃ p' t, SubmitTask p nanos now agent i o m uc prio = Ok (p', t)) ∧
  (∀ tid reason, is_Some (tasks p !! tid) → ∃ p', FailTask p tid reason = Ok p') ∧
  (∀ order, ∃ p' n, RebalanceTasks p order = Ok (p', n)).
Proof.
  apply pool_inv_reachable in Hp. pose proof Hp as [[K P I L] Hs]. split_and!; [..|done| | |].
  - intros id w Hw. by destruct (L _ _ Hw).
  - done.
  - intros. destruct (pool_inv_submit p nanos now agent i o m uc prio Hp) as (? & ? & ? & _). eauto.
  - intros tid reason Ht. destruct (pool_inv_fail p tid reason Hp Ht) as (? & ? & _). eauto.
  - intros order. destruct (pool_inv_rebalance p order Hp) as (? & ? & ? & _). eauto.
Qed.

(** C7. In a pool used in order, every worker's load is exactly the number of
    tasks assigned to it, and the queue holds exactly the pending tasks, each
    once. *)
Theorem worker_pool_accounts (p : Pool) (Hp : rtc orderly_step NewPool p) :
  (∀ id w, workers p !! id = Some w → Load w = map_count (held_by id) (tasks p)) ∧
  NoDup (queue p) ∧
  (∀ id, id ∈ queue p ↔ ∃ t, tasks p !! id = Some t ∧ TStatus t = "pending"%string).
Proof. destruct (accounts_reachable p Hp) as [? [? ?]]. done. Qed.

Lemma select_step_eligible best x :
  selectable x = true →
  ∃ b', select_step best x = Some b' ∧ (best = Some b' ∨ b' = x) ∧ Load b' <= Load x ∧
    ∀ b, best = Some b → Load b' <= Load b.
Proof.
  intros Hx. unfold select_step. rewrite Hx. destruct best as [b|].
  - destruct (Z.ltb_spec (Load x) (Load b)); eexists; split; [done| |done|]; split.
    1, 3: auto.
    all: split; [lia|intros ? [= <-]; lia].
  - exists x. split; [done|]. split; [auto|]. split; [lia|done].
Qed.

Lemma select_fold order best :
  match foldl select_step best order with
  | Some w => (best = Some w ∨ w ∈ order ∧ selectable w = true) ∧
      (∀ b, best = Some b → Load w <= Load b) ∧
      (∀ v, v ∈ order → selectable v = true → Load w <= Load v)
  | None => best = None ∧ ∀ v, v ∈ order → selectable v = false
  end.
Proof.
  revert best. induction order as [|x order IH]; intros best; cbn -[select_step].
  { destruct best as [b|]; [|split; [done|set_solver]]. split; [by left|].
    split; [intros ? [= <-]; lia|set_solver]. }
  specialize (IH (select_step best x)). destruct (selectable x) eqn:Hx.
  - destruct (select_step_eligible best x Hx) as (b' & Hb' & Hor & Hlex & Hle). rewrite Hb' in *.
    destruct (foldl _ _ order) as [w|]; [|by destruct IH].
    destruct IH as (Hw & Hb & Ho). specialize (Hb _ eq_refl). split; [|split].
    + destruct Hw as [[= ->]|[? ?]]; [|right; split; [by right|done]].
      destruct Hor as [?| ->]; [by left|right; split; [left|done]].
    + intros b E. specialize (Hle b E). lia.
    + intros v [->|Hv]%elem_of_cons Hs; [lia|by apply Ho].
  - assert (select_step best x = best) as E by (unfold select_step; by rewrite Hx).
    rewrite E in *. destruct (foldl _ _ order) as [w|].
    + destruct IH as (Hw & Hb & Ho). split; [|split; [done|]].
      * destruct Hw as [?|[? ?]]; [by left|right; split; [by right|done]].
      * intros v [->|Hv]%elem_of_cons Hs; [congruence|by apply Ho].
    + destruct IH as [? Ho]. split; [done|]. intros v [->|Hv]%elem_of_cons; [done|by apply Ho].
Qed.

Lemma selectable_iff w : selectable w = true ↔ unavailable w = false ∧ Load w < MaxLoad w.
Proof.
  unfold selectable, unavailable. destruct (Z.leb_spec (MaxLoad w) (Load w)), (WStatus w); cbn; split;
    try done; try (intros [? ?]; done || lia); intros _; split; done || lia.
Qed.

(** Dispatching, whatever the iteration order of the worker map: the worker
    [SelectWorker] returns accepts a known task, gains one unit of load, and no
    worker that could accept it is less loaded; when it returns none, every
    registered worker refuses every task. *)
Theorem dispatch_least_loaded (p : Pool) (order : list Worker) (now : Z) (tid : string)
    (Hp : rtc pool_step NewPool p) (Horder : order ≡ₚ (map_to_list (workers p)).*2)
    (Ht : is_Some (tasks p !! tid)) :
  match SelectWorker order with
  | Ok w => (∃ p', AssignTask p now tid (WID w) = Ok p' ∧ workers p' !! WID w = Some (incLoad w)) ∧
      ∀ id v p', workers p !! id = Some v → AssignTask p now tid id = Ok p' → Load w <= Load v
  | Err e => e = NoAvailableWorker ∧
      ∀ id, is_Some (workers p !! id) → is_ok (AssignTask p now tid id) = false
  end.
Proof.
  apply pool_inv_reachable in Hp as [[_ _ _ L] _]. destruct Ht as [t Ht].
  assert (∀ id v, workers p !! id = Some v → v ∈ order) as Hin.
  { intros id v Hv. rewrite Horder. apply list_elem_of_fmap. exists (id, v). split; [done|]. by apply elem_of_map_to_list. }
  assert (∀ id v, workers p !! id = Some v → is_ok (AssignTask p now tid id) = selectable v) as Hok.
  { intros id v Hv. unfold AssignTask, getLoad, selectable, unavailable. rewrite Ht, Hv.
    destruct (WStatus v), (MaxLoad v <=? Load v); done. }
  unfold SelectWorker. pose proof (select_fold order None) as H. destruct (foldl _ _ _) as [w|].
  - destruct H as ([?|[Hw Hs]] & _ & Hmin); [done|].
    rewrite Horder in Hw. apply list_elem_of_fmap in Hw as ([id v] & -> & Hv%elem_of_map_to_list). cbn in *.
    destruct (L _ _ Hv) as [Hid _]. rewrite Hid. split.
    + apply selectable_iff in Hs as [Hu Hlt]. unfold AssignTask, getLoad. rewrite Ht, Hv, Hu.
      apply Z.leb_gt in Hlt as ->. eexists. split; [done|]. cbn. by rewrite lookup_insert_eq.
    + intros id' v' p' Hv' Ha. apply Hmin; [by eapply Hin|]. by rewrite <- (Hok id' v' Hv'), Ha.
  - destruct H as [_ H]. split; [done|]. intros id [v Hv]. rewrite (Hok id v Hv). by eapply H, Hin.
Qed.

(** ** Concrete pools *)

Definition ok_or {A} (d : A) (r : result WorkerError A) : A := match r with Ok a => a | Err _ => d end.

Definition ex_registered : Pool := RegisterWorker NewPool 1000 "w1" "10.0.0.1:9000" 1.
Definition ex_submitted : Pool :=
  match SubmitTask ex_registered 7 1000 "agent" [] [] [] "uc" 5 with Ok (p, _) => p | Err _ => NewPool end.
Definition ex_tid : string := task_id 7 "agent" [] "uc".
Definition ex_assigned : Pool := ok_or NewPool (AssignTask ex_submitted 1000 ex_tid "w1").
Definition ex_result : TaskResult :=
  {| RTaskID := ex_tid; RProofID := "P-1"; GenMs := 12; RSuccess := true; RError := "" |}.

Lemma ex_orderly : rtc orderly_step NewPool ex_assigned.
Proof.
  eapply rtc_l; [apply (orderly_register NewPool 1000 "w1" "10.0.0.1:9000" 1); vm_compute; reflexivity|].
  eapply rtc_l; [apply (orderly_submit _ 7 1000 "agent" [] [] [] "uc" 5 ex_submitted
    (new_task ex_tid 1000 "agent" [] [] [] "uc" 5)); vm_compute; reflexivity|].
  apply rtc_once. apply (orderly_assign _ 1000 ex_tid "w1"); [|vm_compute; reflexivity].
  eexists. split; vm_compute; reflexivity.
Defined.

Lemma worker_pool_safe_witness :
  rtc pool_step NewPool ex_assigned ∧ ∀ id w, workers ex_assigned !! id = Some w → Load w <= Z.max 0 (MaxLoad w).
Proof.
  assert (rtc pool_step NewPool ex_assigned) as H.
  { pose proof ex_orderly as H. induction H; [apply rtc_refl|].
    eapply rtc_l; [apply orderly_pool_step; eassumption|assumption]. }
  split; [exact H|]. apply (worker_pool_safe ex_assigned H).
Defined.

Lemma worker_pool_accounts_witness :
  rtc orderly_step NewPool ex_assigned ∧
  (∃ w, workers ex_assigned !! "w1"%string = Some w ∧ Load w = 1) ∧
  ∀ id w, workers ex_assigned !! id = Some w → Load w = map_count (held_by id) (tasks ex_assigned).
Proof.
  split; [exact ex_orderly|]. split; [|apply (worker_pool_accounts ex_assigned ex_orderly)].
  eexists. split; vm_compute; reflexivity.
Defined.

Lemma dispatch_least_loaded_witness :
  match SelectWorker (map_to_list (workers ex_submitted)).*2 with
  | Ok w => WID w = "w1"%string ∧ ∃ p', AssignTask ex_submitted 5 ex_tid (WID w) = Ok p' ∧
      workers p' !! WID w = Some (incLoad w)
  | Err _ => False
  end.
Proof.
  assert (rtc pool_step NewPool ex_submitted) as H.
  { eapply rtc_l; [apply (step_register NewPool 1000 "w1" "10.0.0.1:9000" 1)|].
    apply rtc_once. apply (step_submit _ 7 1000 "agent" [] [] [] "uc" 5 ex_submitted
      (new_task ex_tid 1000 "agent" [] [] [] "uc" 5)). vm_compute; reflexivity. }
  assert (is_Some (tasks ex_submitted !! ex_tid)) as Ht by (eexists; vm_compute; reflexivity).
  pose proof (dispatch_least_loaded ex_submitted _ 5 ex_tid H (Permutation_refl _) Ht) as Hd.
  destruct (SelectWorker (map_to_list (workers ex_submitted)).*2) as [w|e] eqn:E; [|vm_compute in E; discriminate].
  split; [vm_compute in E; injection E as <-; reflexivity|apply Hd].
Defined.

(** Rebalancing the tasks of an offline worker does not release its load: when
    the worker comes back it has no task, and no capacity either. *)
Definition ex_offline : Pool := (PruneOfflineWorkers ex_assigned 100000 30).1.
Definition ex_rebalanced : Pool := (ok_or (NewPool, 0) (RebalanceTasks ex_offline [ex_tid])).1.
Definition ex_back : Pool := ok_or NewPool (Heartbeat ex_rebalanced 100001 "w1").

Example rebalance_leaks_capacity :
  (WStatus <$> workers ex_back !! "w1"%string) = Some Idle ∧
  GetWorkerLoad ex_back "w1" = (1, 1) ∧
  map_count (held_by "w1") (tasks ex_back) = 0 ∧ queue ex_back = [ex_tid] ∧
  SelectWorker (map_to_list (workers ex_back)).*2 = Err NoAvailableWorker.
Proof. split_and!; vm_compute; reflexivity. Qed.

(** Completing a task twice makes its worker's load negative, and a completed
    task can be assigned again. *)
Definition ex_twice : Pool :=
  ok_or NewPool (CompleteTask (ok_or NewPool (CompleteTask ex_assigned 1 ex_tid ex_result)) 2 ex_tid ex_result).

Example completed_twice :
  GetWorkerLoad ex_twice "w1" = (-1, 1) ∧ is_ok (AssignTask ex_twice 3 ex_tid "w1") = true.
Proof. split; vm_compute; reflexivity. Qed.
