(* ===== verification/Webhooks.v ===== *)
(** * Webhooks ([engine/internal/api/webhooks.go])

    Subscriptions, the delivery queue with backoff, the circuit breaker and the
    dead letters. A method is one atomic step; the clock readings, the
    iteration order of the subscription map, the random draws and the receivers'
    answers are arguments. The clock is read once per delivery attempt. Metrics
    are left out. [http.ParseTime], which reads an HTTP date, is the parameter
    [ParseTime]; the server's local time zone is UTC. *)

From S2P Require Import Prelude GoLib Sha256.
From stdpp Require Import relations.

Local Open Scope Z_scope.

(** ** Data *)

Definition EventProofVerified : string := "proof.verified".
Definition EventProofAnchored : string := "proof.anchored".
Definition EventSlashExecuted : string := "slash.executed".
Definition EventGovernanceExecute : string := "governance.executed".
Definition EventKYCGranted : string := "kyc.granted".
Definition EventKYCRevoked : string := "kyc.revoked".

Definition KnownWebhookEvents : list string :=
  [EventProofVerified; EventProofAnchored; EventSlashExecuted; EventGovernanceExecute; EventKYCGranted;
   EventKYCRevoked].

Record webhookSubscription := {
  ID : string; URL : string; Events : list string; SCreatedAt : time; OwnerKey : string; secret : string;
  SAttempts : Z; Deliveries : Z; SFailures : Z; LastAttemptAt : time; LastStatusCode : Z; SLastError : string;
  ConsecutiveFailures : Z; CircuitOpenUntil : time; CircuitTrippedTotal : Z;
}.

Record webhookEvent := {
  SubID : string; Kind : string; Body : bytes; Attempts : Z; NextTryAt : time; LastError : string;
  CreatedAt : time;
}.

Record deadLetter := {
  DeliveryID : string; Event : webhookEvent; FailedAt : time; DURL : string; DOwnerKey : string; Replayed : Z;
}.

(** [counter] is the package's [webhookIDCounter]. *)
Record webhookStore := {
  subs : gmap string webhookSubscription; queue : list webhookEvent; dead : list deadLetter; counter : Z;
}.

Inductive WebhookError :=
| ErrBadURL | ErrNoEvents | ErrUnknownEvent (kind : string) | ErrNotFound | ErrUnregistered.

Definition webhookMaxAttempts : Z := 8.
Definition webhookMaxBackoff : Z := 5 * minute.
Definition webhookInitialBackoff : Z := second.
Definition webhookDeadLetterLimit : nat := 1000.
Definition webhookRetryAfterCeiling : Z := 15 * minute.
Definition circuitBreakerThreshold : Z := 20.
Definition circuitBreakerCooldown : Z := 2 * minute.
Definition webhookDeadLetterTTL : Z := 24 * hour.

Definition newWebhookStore (n : Z) : webhookStore := {| subs := ∅; queue := []; dead := []; counter := n |}.

(** ** Registration *)

Definition isKnownEvent (kind : string) : bool := existsb (λ e, bool_decide (e = kind)) KnownWebhookEvents.

Definition subscribedTo (l : list string) (kind : string) : bool :=
  existsb (λ e, bool_decide (e = kind) || bool_decide (e = "*"%string)) l.

(** [byte(v >> (8 * i))] *)
Definition nth_byte (v : Z) (i : nat) : Z := Z.land (Z.shiftr v (8 * Z.of_nat i)) 255.

Definition newWebhookID (c : Z) (now : time) : string :=
  let b i := byte_of_Z (match i with
                        | 0%nat => Z.lxor (nth_byte now 0) (nth_byte c 0)
                        | 1%nat => Z.lxor (nth_byte now 1) (nth_byte c 1)
                        | _ => nth_byte now i
                        end) in
  ("wh_" +:+ hex_encode (b <$> [0; 1; 2; 3; 4; 5]%nat))%string.

Definition with_sub (s : webhookStore) (id : string) (sub : webhookSubscription) : webhookStore :=
  {| subs := <[id := sub]> (subs s); queue := queue s; dead := dead s; counter := counter s |}.
Definition with_queue (s : webhookStore) (q : list webhookEvent) : webhookStore :=
  {| subs := subs s; queue := q; dead := dead s; counter := counter s |}.
Definition with_dead (s : webhookStore) (d : list deadLetter) : webhookStore :=
  {| subs := subs s; queue := queue s; dead := d; counter := counter s |}.

Definition register (s : webhookStore) (now : time) (ownerKeyHash url sec : string) (events : list string)
    : result WebhookError (webhookStore * webhookSubscription) :=
  if negb (has_prefix url "https://") && negb (has_prefix url "http://") then Err ErrBadURL
  else if (length events =? 0)%nat then Err ErrNoEvents
  else match List.find (λ e, negb (isKnownEvent e)) events with
       | Some e => Err (ErrUnknownEvent e)
       | None =>
           let c := (counter s + 1) mod 2 ^ 64 in
           let id := newWebhookID c now in
           let sub := {| ID := id; URL := url; Events := events; SCreatedAt := now; OwnerKey := ownerKeyHash;
                         secret := sec; SAttempts := 0; Deliveries := 0; SFailures := 0;
                         LastAttemptAt := time_zero; LastStatusCode := 0; SLastError := "";
                         ConsecutiveFailures := 0; CircuitOpenUntil := time_zero; CircuitTrippedTotal := 0 |} in
           Ok ({| subs := <[id := sub]> (subs s); queue := queue s; dead := dead s; counter := c |}, sub)
       end.

Definition unregister (s : webhookStore) (id ownerKeyHash : string) : result WebhookError webhookStore :=
  match subs s !! id with
  | None => Err ErrNotFound
  | Some sub =>
      if negb (bool_decide (OwnerKey sub = ownerKeyHash)) then Err ErrNotFound
      else Ok {| subs := delete id (subs s); queue := queue s; dead := dead s; counter := counter s |}
  end.

Definition hide_secret (sub : webhookSubscription) : webhookSubscription :=
  {| ID := ID sub; URL := URL sub; Events := Events sub; SCreatedAt := SCreatedAt sub; OwnerKey := OwnerKey sub;
     secret := ""; SAttempts := SAttempts sub; Deliveries := Deliveries sub; SFailures := SFailures sub;
     LastAttemptAt := LastAttemptAt sub; LastStatusCode := LastStatusCode sub; SLastError := SLastError sub;
     ConsecutiveFailures := ConsecutiveFailures sub; CircuitOpenUntil := CircuitOpenUntil sub;
     CircuitTrippedTotal := CircuitTrippedTotal sub |}.

Definition created_before (a b : webhookSubscription) : bool := SCreatedAt a <? SCreatedAt b.

(** [order] is the iteration order of the subscription map. *)
Definition list_subs (order : list webhookSubscription) (ownerKeyHash : string) : list webhookSubscription :=
  sort_slice created_before
    (hide_secret <$> List.filter (λ sub, bool_decide (OwnerKey sub = ownerKeyHash)) order).

Definition new_event (now : time) (kind : string) (body : bytes) (sub : webhookSubscription) : webhookEvent :=
  {| SubID := ID sub; Kind := kind; Body := body; Attempts := 0; NextTryAt := now; LastError := "";
     CreatedAt := now |}.

Definition enqueue (s : webhookStore) (now : time) (order : list webhookSubscription) (kind : string)
    (body : bytes) : webhookStore * Z :=
  let added := new_event now kind body <$> List.filter (λ sub, subscribedTo (Events sub) kind) order in
  (with_queue s (queue s ++ added), Z.of_nat (length added)).

(** ** Signatures and identifiers *)

Definition signWebhook (sec : string) (body : bytes) : string :=
  if bool_decide (sec = ""%string) then "" else ("sha256=" +:+ hex_encode (hmac_sha256 (bytes_of sec) body))%string.

Definition VerifyWebhookSignature (sec : string) (body : bytes) (header : string) : bool :=
  if bool_decide (sec = ""%string) || bool_decide (header = ""%string) then false
  else bool_decide (signWebhook sec body = header).

Definition idempotencyKey (subID : string) (attempt : Z) (body : bytes) : string :=
  (subID +:+ "-" +:+ itoa attempt +:+ "-" +:+ hex_encode (take 4 (sha256 body)))%string.

Definition newDeadLetterID (subID : string) (createdAt : time) : string :=
  ("dl_" +:+ hex_encode (take 6 (sha256 (bytes_of (subID +:+ "|" +:+ format_rfc3339_nano createdAt)))))%string.

(** ** Backoff *)

Definition backoff_cap (attempt : Z) : Z :=
  let attempt := if attempt <? 1 then 1 else attempt in
  let capDur := wrap64 (Z.shiftl webhookInitialBackoff (attempt - 1)) in
  if (webhookMaxBackoff <? capDur) || (capDur <? 0) then webhookMaxBackoff else capDur.

(** [draw] is what [rand.Int] reads, [None] its failure. *)
Definition jitteredBackoff (draw : option Z) (attempt : Z) : Z :=
  let capDur := backoff_cap attempt in
  if capDur <=? 0 then 0 else match draw with Some r => r mod capDur | None => capDur end.


Section delivery.
Context (ParseTime : string → option time).

Definition parseRetryAfter (v : string) (now : time) : Z :=
  let v := trim_space v in
  if bool_decide (v = ""%string) then 0
  else match atoi v with
       | Some secs => if secs <? 0 then 0 else wrap64 (secs * second)
       | None => match ParseTime v with
                 | Some t => let d := time_sub t now in if d <? 0 then 0 else d
                 | None => 0
                 end
       end.

(** The wait before the next attempt. *)
Definition retry_delay (draw : option Z) (attempt retryAfter : Z) : Z :=
  let backoff := jitteredBackoff draw attempt in
  if 0 <? retryAfter
  then let retryAfter := if webhookRetryAfterCeiling <? retryAfter then webhookRetryAfterCeiling else retryAfter in
       if backoff <? retryAfter then retryAfter else backoff
  else backoff.

(** ** Delivery *)

(** What one attempt meets: the clock, the random draw, the receiver's answer. *)
Inductive outcome :=
| BuildError (msg : string) | TransportError (msg : string) | Response (code : Z) (retry_after : string).

Record attempt := { at_ : time; draw : option Z; out : outcome }.

Record request := {
  q_url : string; q_event : string; q_delivery : string; q_idempotency : string; q_timestamp : string;
  q_signature : string; q_body : bytes;
}.

Definition success_stats (at_ : time) (code : Z) (sub : webhookSubscription) : webhookSubscription :=
  {| ID := ID sub; URL := URL sub; Events := Events sub; SCreatedAt := SCreatedAt sub; OwnerKey := OwnerKey sub;
     secret := secret sub; SAttempts := SAttempts sub + 1; Deliveries := Deliveries sub + 1;
     SFailures := SFailures sub; LastAttemptAt := at_; LastStatusCode := code; SLastError := "";
     ConsecutiveFailures := 0; CircuitOpenUntil := time_zero; CircuitTrippedTotal := CircuitTrippedTotal sub |}.

Definition failure_stats (at_ : time) (msg : string) (code : Z) (sub : webhookSubscription) : webhookSubscription :=
  let streak := ConsecutiveFailures sub + 1 in
  let trip := (circuitBreakerThreshold <=? streak) && (CircuitOpenUntil sub <? at_) in
  {| ID := ID sub; URL := URL sub; Events := Events sub; SCreatedAt := SCreatedAt sub; OwnerKey := OwnerKey sub;
     secret := secret sub; SAttempts := SAttempts sub + 1; Deliveries := Deliveries sub;
     SFailures := SFailures sub + 1; LastAttemptAt := at_; LastStatusCode := code; SLastError := msg;
     ConsecutiveFailures := streak;
     CircuitOpenUntil := if trip then at_ + circuitBreakerCooldown else CircuitOpenUntil sub;
     CircuitTrippedTotal := if trip then CircuitTrippedTotal sub + 1 else CircuitTrippedTotal sub |}.

Definition failed_event (msg : string) (ev : webhookEvent) (next : time) : webhookEvent :=
  {| SubID := SubID ev; Kind := Kind ev; Body := Body ev; Attempts := Attempts ev + 1; NextTryAt := next;
     LastError := msg; CreatedAt := CreatedAt ev |}.

Definition cap_dead (d : list deadLetter) : list deadLetter :=
  if (webhookDeadLetterLimit <? length d)%nat then drop (length d - webhookDeadLetterLimit) d else d.

Definition recordSuccess (s : webhookStore) (at_ : time) (sub : webhookSubscription) (ev : webhookEvent)
    (code : Z) : webhookStore :=
  with_sub s (SubID ev) (success_stats at_ code sub).

Definition recordFailure (s : webhookStore) (at_ : time) (dr : option Z) (sub : webhookSubscription)
    (ev : webhookEvent) (msg : string) (code retryAfter : Z) : webhookStore :=
  let s1 := with_sub s (SubID ev) (failure_stats at_ msg code sub) in
  if webhookMaxAttempts <=? Attempts ev + 1
  then with_dead s1 (cap_dead (dead s1 ++
         [{| DeliveryID := newDeadLetterID (ID sub) (CreatedAt ev);
             Event := failed_event msg ev (NextTryAt ev); FailedAt := at_; DURL := URL sub;
             DOwnerKey := OwnerKey sub; Replayed := 0 |}]))
  else with_queue s1 (queue s1 ++
         [failed_event msg ev (at_ + retry_delay dr (Attempts ev + 1) retryAfter)]).

Definition build_request (at_ : time) (sub : webhookSubscription) (ev : webhookEvent) : request :=
  {| q_url := URL sub; q_event := Kind ev; q_delivery := (ID sub +:+ "-" +:+ itoa (Attempts ev + 1))%string;
     q_idempotency := idempotencyKey (ID sub) (Attempts ev + 1) (Body ev);
     q_timestamp := format_rfc3339 at_; q_signature := signWebhook (secret sub) (Body ev);
     q_body := Body ev |}.

(** The new store and the request that was sent. *)
Definition deliverEvent (s : webhookStore) (sub : webhookSubscription) (ev : webhookEvent) (a : attempt)
    : webhookStore * option request :=
  match out a with
  | BuildError msg =>
      (recordFailure s (at_ a) (draw a) sub ev ("build request: " +:+ msg)%string 0 0, None)
  | TransportError msg => (recordFailure s (at_ a) (draw a) sub ev msg 0 0, Some (build_request (at_ a) sub ev))
  | Response code ra =>
      let retryAfter := parseRetryAfter ra (at_ a) in
      ((if (200 <=? code) && (code <? 300) then recordSuccess s (at_ a) sub ev code
        else recordFailure s (at_ a) (draw a) sub ev ("http " +:+ itoa code)%string code retryAfter),
       Some (build_request (at_ a) sub ev))
  end.

Definition evictExpiredDeadLettersLocked (s : webhookStore) (now : time) : webhookStore :=
  with_dead s (List.filter (λ dl, now - webhookDeadLetterTTL <? FailedAt dl) (dead s)).

Definition circuit_open (s : webhookStore) (now : time) (id : string) : option time :=
  match subs s !! id with
  | Some sub => if now <? CircuitOpenUntil sub then Some (CircuitOpenUntil sub) else None
  | None => None
  end.

Definition postpone (ev : webhookEvent) (t : time) : webhookEvent :=
  {| SubID := SubID ev; Kind := Kind ev; Body := Body ev; Attempts := Attempts ev; NextTryAt := t;
     LastError := LastError ev; CreatedAt := CreatedAt ev |}.

(** The split of the queue into the pending events and the remaining ones. *)
Fixpoint split_queue (s : webhookStore) (now : time) (q : list webhookEvent)
    : list webhookEvent * list webhookEvent :=
  match q with
  | [] => ([], [])
  | ev :: q' =>
      let '(pending, remaining) := split_queue s now q' in
      if now <? NextTryAt ev then (pending, ev :: remaining)
      else match circuit_open s now (SubID ev) with
           | Some t => (pending, postpone ev t :: remaining)
           | None => (ev :: pending, remaining)
           end
  end.

(** The loop over the pending events. [world i] is what the [i]-th attempt
    meets; the log lists the attempted events with what they met and their requests. *)
Fixpoint deliver_loop (world : nat → attempt) (i : nat) (s : webhookStore) (pending : list webhookEvent)
    : webhookStore * list (webhookEvent * attempt * option request) :=
  match pending with
  | [] => (s, [])
  | ev :: pending' =>
      match subs s !! SubID ev with
      | None => deliver_loop world i s pending'
      | Some sub =>
          let '(s1, req) := deliverEvent s sub ev (world i) in
          let '(s2, log) := deliver_loop world (S i) s1 pending' in
          (s2, (ev, world i, req) :: log)
      end
  end.

Definition deliverOnce (s : webhookStore) (now : time) (world : nat → attempt)
    : webhookStore * list (webhookEvent * attempt * option request) :=
  let s := evictExpiredDeadLettersLocked s now in
  let '(pending, remaining) := split_queue s now (queue s) in
  deliver_loop world 0 (with_queue s remaining) pending.

Definition deadLetters (s : webhookStore) : list deadLetter := dead s.

Definition reset_event (ev : webhookEvent) (now : time) : webhookEvent :=
  {| SubID := SubID ev; Kind := Kind ev; Body := Body ev; Attempts := 0; NextTryAt := now; LastError := "";
     CreatedAt := CreatedAt ev |}.

Definition replay (s : webhookStore) (now : time) (deliveryID ownerKeyHash : string)
    : result WebhookError (webhookStore * string) :=
  match find_index (λ dl, bool_decide (DeliveryID dl = deliveryID)) (dead s) with
  | None => Err ErrNotFound
  | Some idx =>
      match dead s !! idx with
      | None => Err ErrNotFound
      | Some dl =>
          if negb (bool_decide (DOwnerKey dl = ownerKeyHash)) then Err ErrNotFound
          else match subs s !! SubID (Event dl) with
               | None => Err ErrUnregistered
               | Some _ =>
                   Ok (with_dead (with_queue s (queue s ++ [reset_event (Event dl) now]))
                         (remove_at idx (dead s)),
                       DeliveryID dl)
               end
      end
  end.
(** ** Specification *)

Definition event_payload (ev : webhookEvent) : string * string * bytes * time :=
  (SubID ev, Kind ev, Body ev, CreatedAt ev).

(** The receiver answered 2xx. *)
Definition accepted (a : attempt) : bool :=
  match out a with Response code _ => (200 <=? code) && (code <? 300) | _ => false end.

Definition log_event (e : webhookEvent * attempt * option request) : webhookEvent := e.1.1.
Definition delivered (log : list (webhookEvent * attempt * option request)) : list webhookEvent :=
  log_event <$> List.filter (λ e, accepted e.1.2) log.
Definition exhausted (log : list (webhookEvent * attempt * option request)) : list webhookEvent :=
  log_event <$> List.filter (λ e, negb (accepted e.1.2) && (webhookMaxAttempts <=? Attempts e.1.1 + 1)) log.

(** The event's subscription is gone. *)
Definition orphan (s : webhookStore) (ev : webhookEvent) : bool := bool_decide (subs s !! SubID ev = None).

(** What an attempt never changes of a subscription. *)
Definition static (sub : webhookSubscription) : string * string * list string * string * string :=
  (ID sub, URL sub, Events sub, OwnerKey sub, secret sub).

(** A request carries the event's body verbatim to the subscription's URL, and
    a signature that verifies under its secret. *)
Definition request_ok (s : webhookStore) (ev : webhookEvent) (q : request) : Prop :=
  ∃ sub, subs s !! SubID ev = Some sub ∧ q_url q = URL sub ∧ q_event q = Kind ev ∧ q_body q = Body ev ∧
    (secret sub ≠ ""%string → VerifyWebhookSignature (secret sub) (q_body q) (q_signature q) = true).

(** [ev'] is [ev] queued again after the failed attempt [a]. *)
Definition retried_as (ev : webhookEvent) (a : attempt) (ev' : webhookEvent) : Prop :=
  event_payload ev' = event_payload ev ∧ Attempts ev' = Attempts ev + 1 ∧ Attempts ev' < webhookMaxAttempts ∧
  at_ a <= NextTryAt ev' <= at_ a + webhookRetryAfterCeiling.

Lemma sign_verifies sec body :
  VerifyWebhookSignature sec body (signWebhook sec body) = negb (bool_decide (sec = ""%string)).
Proof.
  unfold VerifyWebhookSignature, signWebhook. destruct (decide (sec = ""%string)) as [->|Hs]; [done|].
  rewrite !(bool_decide_false (sec = _)) by done. cbn [orb negb].
  rewrite bool_decide_false by done. by apply bool_decide_true.
Qed.

Lemma backoff_cap_range n : 0 <= backoff_cap n <= webhookMaxBackoff.
Proof.
  unfold backoff_cap. cbv zeta. set (c := wrap64 _). destruct (Z.ltb_spec webhookMaxBackoff c); cbn.
  - unfold webhookMaxBackoff, minute, second. lia.
  - destruct (Z.ltb_spec c 0); [unfold webhookMaxBackoff, minute, second; lia|lia].
Qed.

Lemma jitteredBackoff_range d n : 0 <= jitteredBackoff d n <= backoff_cap n.
Proof.
  pose proof (backoff_cap_range n). unfold jitteredBackoff. cbv zeta. destruct (Z.leb_spec (backoff_cap n) 0); [lia|].
  destruct d as [r|]; [|lia]. pose proof (Z.mod_pos_bound r (backoff_cap n)). lia.
Qed.

Lemma retry_delay_range d n ra : 0 <= retry_delay d n ra <= webhookRetryAfterCeiling.
Proof.
  pose proof (jitteredBackoff_range d n). pose proof (backoff_cap_range n).
  assert (webhookMaxBackoff <= webhookRetryAfterCeiling) by (vm_compute; discriminate).
  unfold retry_delay. cbv zeta. destruct (Z.ltb_spec 0 ra); [|lia].
  destruct (Z.ltb_spec webhookRetryAfterCeiling ra);
    [destruct (Z.ltb_spec (jitteredBackoff d n) webhookRetryAfterCeiling)
    |destruct (Z.ltb_spec (jitteredBackoff d n) ra)]; lia.
Qed.

Lemma split_queue_spec s now q pending remaining :
  split_queue s now q = (pending, remaining) →
  event_payload <$> q ≡ₚ (event_payload <$> pending) ++ (event_payload <$> remaining) ∧
  (∀ ev, ev ∈ pending → ev ∈ q ∧ NextTryAt ev <= now ∧ circuit_open s now (SubID ev) = None) ∧
  (∀ ev, ev ∈ remaining → ev ∈ q ∨ ∃ ev0 t, ev0 ∈ q ∧ ev = postpone ev0 t ∧ circuit_open s now (SubID ev0) = Some t).
Proof.
  revert pending remaining. induction q as [|ev q IH]; cbn; intros pending remaining.
  { intros [= <- <-]. set_solver. }
  destruct (split_queue s now q) as [p r]. destruct (IH p r eq_refl) as (Hp & Hd & Hr). clear IH.
  setoid_rewrite elem_of_cons. destruct (Z.ltb_spec now (NextTryAt ev)).
  - intros [= <- <-]. rewrite fmap_cons, <- Permutation_middle, Hp. split; [done|]. split; [naive_solver|].
    intros ev' [->|Hev]%elem_of_cons; [auto|]. destruct (Hr _ Hev) as [|(?&?&?&?&?)]; eauto 10.
  - destruct (circuit_open s now (SubID ev)) as [t|] eqn:Hc; intros [= <- <-].
    + rewrite fmap_cons, <- Permutation_middle, Hp. split; [done|]. split; [naive_solver|].
      intros ev' [->|Hev]%elem_of_cons; [right; exists ev, t; auto|].
      destruct (Hr _ Hev) as [|(?&?&?&?&?)]; eauto 10.
    + rewrite fmap_cons, Hp. split; [done|]. split.
      * intros ev' [->|Hev]%elem_of_cons; [auto|]. naive_solver.
      * intros ev' Hev. destruct (Hr _ Hev) as [|(?&?&?&?&?)]; eauto 10.
Qed.

(** What the statistics of a subscription satisfy. *)
Definition sub_inv (sub : webhookSubscription) : Prop :=
  SAttempts sub = Deliveries sub + SFailures sub ∧ 0 <= Deliveries sub ∧
  0 <= ConsecutiveFailures sub <= SFailures sub ∧
  (CircuitOpenUntil sub ≠ time_zero → circuitBreakerThreshold <= ConsecutiveFailures sub).

Lemma success_stats_inv t code sub : sub_inv sub → sub_inv (success_stats t code sub).
Proof. unfold sub_inv. cbn. intros (? & ? & ? & ?). split_and!; [lia..|done]. Qed.

Lemma failure_stats_inv t msg code sub : sub_inv sub → sub_inv (failure_stats t msg code sub).
Proof.
  unfold sub_inv. cbn. intros (? & ? & ? & Ho). split_and!; [lia..|]. case_match; bool_to_prop; [lia|].
  intros Hne. specialize (Ho Hne). lia.
Qed.

(** What attempting [ev] does to the rest of the store. *)
Definition attempt_effect (s s1 : webhookStore) (ev : webhookEvent) (a : attempt) : Prop :=
  if accepted a then queue s1 = queue s ∧ dead s1 = dead s
  else if webhookMaxAttempts <=? Attempts ev + 1
  then queue s1 = queue s ∧
    ∃ dl, event_payload (Event dl) = event_payload ev ∧ Attempts (Event dl) = Attempts ev + 1 ∧
      dead s1 = cap_dead (dead s ++ [dl])
  else ∃ ev', retried_as ev a ev' ∧ queue s1 = queue s ++ [ev'] ∧ dead s1 = dead s.

Lemma record_failure_effect s a sub ev msg code ra :
  accepted a = false →
  let s1 := recordFailure s (at_ a) (draw a) sub ev msg code ra in
  subs s1 = <[SubID ev := failure_stats (at_ a) msg code sub]> (subs s) ∧ attempt_effect s s1 ev a.
Proof.
  intros Ha. cbv zeta. unfold attempt_effect, recordFailure. rewrite Ha.
  destruct (Z.leb_spec webhookMaxAttempts (Attempts ev + 1)); cbn; (split; [done|]).
  - split; [done|]. eexists. split_and!; [| |done]; done.
  - eexists. split_and!; [|done|done]. unfold retried_as. cbn.
    pose proof (retry_delay_range (draw a) (Attempts ev + 1) ra). split_and!; [done|done|lia|lia|lia].
Qed.

Lemma deliver_event_spec s sub ev a s1 req :
  subs s !! SubID ev = Some sub → deliverEvent s sub ev a = (s1, req) →
  (∃ sub', subs s1 = <[SubID ev := sub']> (subs s) ∧ static sub' = static sub ∧ (sub_inv sub → sub_inv sub')) ∧
  (∀ q, req = Some q → request_ok s ev q) ∧ attempt_effect s s1 ev a.
Proof.
  intros Hsub. unfold deliverEvent.
  assert (request_ok s ev (build_request (at_ a) sub ev)) as Hq.
  { exists sub. cbn. split_and!; try done. intros. by rewrite sign_verifies, bool_decide_false. }
  assert (∀ msg code ra, accepted a = false → recordFailure s (at_ a) (draw a) sub ev msg code ra = s1 →
    (∃ sub', subs s1 = <[SubID ev := sub']> (subs s) ∧ static sub' = static sub ∧ (sub_inv sub → sub_inv sub')) ∧
    attempt_effect s s1 ev a) as Hfail.
  { intros msg code ra Ha <-. destruct (record_failure_effect s a sub ev msg code ra Ha) as [-> ?].
    split; [|done]. eexists. split; [done|]. split; [done|apply failure_stats_inv]. }
  destruct (out a) as [msg|msg|code ra] eqn:Ho; intros [= <- <-].
  - destruct (Hfail ("build request: " +:+ msg)%string 0 0) as [? ?];
      [by unfold accepted; rewrite Ho|done|]. by split_and!.
  - destruct (Hfail msg 0 0) as [? ?]; [by unfold accepted; rewrite Ho|done|].
    split_and!; [done|by intros ? [= <-]|done].
  - destruct ((200 <=? code) && (code <? 300)) eqn:Hc.
    + split_and!; [|by intros ? [= <-]|].
      * eexists. split; [done|]. split; [done|apply success_stats_inv].
      * unfold attempt_effect, accepted. by rewrite Ho, Hc.
    + edestruct Hfail as [? ?]; [|done|split_and!; [done|by intros ? [= <-]|done]].
      unfold accepted. by rewrite Ho.
Qed.

Lemma cap_dead_app d d' : cap_dead (cap_dead d ++ d') = cap_dead (d ++ d').
Proof.
  unfold cap_dead. destruct (Nat.ltb_spec webhookDeadLetterLimit (length d)) as [H|H]; [|done].
  rewrite !length_app, length_drop.
  destruct (Nat.ltb_spec webhookDeadLetterLimit (length d - (length d - webhookDeadLetterLimit) + length d'));
    destruct (Nat.ltb_spec webhookDeadLetterLimit (length d + length d')); [|lia| |lia].
  - rewrite !drop_app, length_drop, drop_drop. f_equal; f_equal; lia.
  - assert (d' = []) as -> by (apply length_zero_iff_nil; lia). rewrite !app_nil_r, length_nil. f_equal. lia.
Qed.

Lemma length_cap_dead d : (length (cap_dead d) <= webhookDeadLetterLimit)%nat.
Proof. unfold cap_dead. destruct (Nat.ltb_spec webhookDeadLetterLimit (length d)); rewrite ?length_drop; lia. Qed.

Definition same_static (s s' : webhookStore) : Prop := ∀ id, static <$> subs s' !! id = static <$> subs s !! id.

Lemma same_static_insert s s1 id sub sub' :
  subs s !! id = Some sub → static sub' = static sub → subs s1 = <[id := sub']> (subs s) → same_static s s1.
Proof.
  intros Hs He H1 j. rewrite H1. destruct (decide (j = id)) as [->|].
  - by rewrite lookup_insert_eq, Hs; cbn; rewrite He.
  - by rewrite lookup_insert_ne.
Qed.

Lemma same_static_none s s' id : same_static s s' → subs s !! id = None ↔ subs s' !! id = None.
Proof. intros H. specialize (H id). destruct (subs s !! id), (subs s' !! id); naive_solver. Qed.

Lemma request_ok_static s s' ev q : same_static s s' → request_ok s' ev q → request_ok s ev q.
Proof.
  intros H (sub' & Hs & Hu & ? & ? & Hsig). specialize (H (SubID ev)). rewrite Hs in H.
  destruct (subs s !! SubID ev) as [sub|] eqn:E; [|done]. cbn in H. injection H as ? HU ? ? Hsec.
  exists sub. rewrite <- HU, <- Hsec. by split_and!.
Qed.

Lemma orphan_static s s' : same_static s s' → ∀ ev, orphan s' ev = orphan s ev.
Proof. intros H ev. apply bool_decide_ext. symmetry. by apply same_static_none. Qed.

(** The outcome of the loop: requeued events [rq] and new dead letters [ds]. *)
Definition loop_post (s s' : webhookStore) (pending : list webhookEvent)
    (log : list (webhookEvent * attempt * option request)) : Prop :=
  same_static s s' ∧
  (∃ rq, queue s' = queue s ++ rq ∧
    event_payload <$> pending ≡ₚ (event_payload <$> rq) ++ (event_payload <$> delivered log) ++
      (event_payload <$> exhausted log) ++ (event_payload <$> List.filter (orphan s) pending) ∧
    (∀ ev', ev' ∈ rq → ∃ e, e ∈ log ∧ retried_as e.1.1 e.1.2 ev')) ∧
  (∃ ds, (λ dl, (event_payload (Event dl), Attempts (Event dl))) <$> ds
         = (λ ev, (event_payload ev, Attempts ev + 1)) <$> exhausted log ∧
    dead s' = cap_dead (dead s ++ ds)) ∧
  (∀ e, e ∈ log → e.1.1 ∈ pending ∧ ∀ q, e.2 = Some q → request_ok s e.1.1 q).

Lemma cap_dead_id d : (length d <= webhookDeadLetterLimit)%nat → cap_dead d = d.
Proof. intros H. unfold cap_dead. by destruct (Nat.ltb_spec webhookDeadLetterLimit (length d)); [lia|]. Qed.

Lemma loop_post_nil s : (length (dead s) <= webhookDeadLetterLimit)%nat → loop_post s s [] [].
Proof.
  intros Hd. split_and!; [done|exists []|exists []|by intros ? ?%elem_of_nil].
  - rewrite app_nil_r. split_and!; [done|done|by intros ? ?%elem_of_nil].
  - by rewrite app_nil_r, cap_dead_id.
Qed.

Lemma loop_post_orphan s s' ev pending log :
  subs s !! SubID ev = None → loop_post s s' pending log → loop_post s s' (ev :: pending) log.
Proof.
  intros Hn (Hst & (rq & Hq & Hp & Hr) & Hd & Hl). split_and!; [done| |done|].
  - exists rq. split_and!; [done| |done]. cbn. unfold orphan at 1. rewrite bool_decide_true by done. cbn.
    rewrite Hp, !app_assoc. apply Permutation_middle.
  - intros e He. destruct (Hl e He). split; [by right|done].
Qed.

Lemma loop_post_attempt s s1 s' ev a req pending log :
  is_Some (subs s !! SubID ev) → same_static s s1 → (∀ q, req = Some q → request_ok s ev q) →
  attempt_effect s s1 ev a → loop_post s1 s' pending log → loop_post s s' (ev :: pending) ((ev, a, req) :: log).
Proof.
  intros Hsome Hst1 Hq1 He (Hst & (rq & Hq & Hp & Hr) & (ds & Hds & Hdead) & Hl).
  assert (List.filter (orphan s) (ev :: pending) = List.filter (orphan s1) pending) as Ho.
  { cbn. unfold orphan at 1. rewrite bool_decide_false by (by rewrite eq_None_not_Some; intros []).
    apply List.filter_ext. intros. symmetry. by apply orphan_static. }
  assert (∀ e, e ∈ (ev, a, req) :: log →
    e.1.1 ∈ ev :: pending ∧ ∀ q, e.2 = Some q → request_ok s e.1.1 q) as Hlog.
  { intros e [->|Hin]%elem_of_cons; [split; [left|done]|]. destruct (Hl e Hin) as [? Hq'].
    split; [by right|]. intros q ?. eapply request_ok_static; [exact Hst1|]. by apply Hq'. }
  unfold loop_post. rewrite Ho. unfold attempt_effect in He. unfold delivered, exhausted in *. cbn.
  assert (same_static s s') as Hst' by (intros id; by rewrite (Hst id), (Hst1 id)).
  destruct (accepted a) eqn:Ha; cbn; [|destruct (webhookMaxAttempts <=? Attempts ev + 1) eqn:Hmax; cbn].
  - destruct He as [Hqe Hde]. rewrite <- Hqe, <- Hde. split_and!; [done| |by exists ds|done].
    exists rq. split_and!; [done| |].
    + rewrite Hp. by rewrite <- Permutation_middle.
    + intros ev' Hin. destruct (Hr ev' Hin) as (e & ? & ?). exists e. split; [by right|done].
  - destruct He as (Hqe & dl & Hdl & Hat & Hde). rewrite <- Hqe. split_and!; [done| | |done].
    + exists rq. split_and!; [done| |].
      * rewrite Hp. rewrite !app_assoc. rewrite <- Permutation_middle. by rewrite <- !app_assoc.
      * intros ev' Hin. destruct (Hr ev' Hin) as (e & ? & ?). exists e. split; [by right|done].
    + exists (dl :: ds). cbn. rewrite Hds, Hdl, Hat. split; [done|].
      by rewrite Hdead, Hde, cap_dead_app, <- app_assoc.
  - destruct He as (ev1 & Hret & Hqe & Hde). rewrite <- Hde. split_and!; [done| |by exists ds|done].
    exists (ev1 :: rq). rewrite Hq, Hqe, <- app_assoc. split_and!; [done| |].
    + cbn. destruct Hret as [-> _]. by rewrite Hp.
    + intros ev' [->|Hin]%elem_of_cons; [exists (ev, a, req); split; [left|done]|].
      destruct (Hr ev' Hin) as (e & ? & ?). exists e. split; [by right|done].
Qed.

Lemma deliver_loop_spec world i s pending s' log :
  (length (dead s) <= webhookDeadLetterLimit)%nat →
  deliver_loop world i s pending = (s', log) → loop_post s s' pending log.
Proof.
  revert i s log. induction pending as [|ev pending IH]; cbn; intros i s log Hd.
  { intros [= <- <-]. by apply loop_post_nil. }
  destruct (subs s !! SubID ev) as [sub|] eqn:Hsub; [|intros H; apply loop_post_orphan; eauto].
  destruct (deliverEvent s sub ev (world i)) as [s1 req] eqn:He.
  destruct (deliver_loop world (S i) s1 pending) as [s2 log2] eqn:Hl. intros [= <- <-].
  destruct (deliver_event_spec _ _ _ _ _ _ Hsub He) as ((sub' & Hs1 & Hst & _) & Hq & Heff).
  apply (loop_post_attempt s s1); [by eexists|by eapply same_static_insert|done|done|].
  eapply IH; [|exact Hl]. unfold attempt_effect in Heff. repeat case_match.
  - by destruct Heff as [_ ->].
  - destruct Heff as (_ & dl & _ & _ & ->). apply length_cap_dead.
  - by destruct Heff as (? & _ & _ & ->).
Qed.

(** ** Steps and the invariant *)

Inductive webhook_step : webhookStore → webhookStore → Prop :=
| step_register s now owner url sec events s' sub :
    register s now owner url sec events = Ok (s', sub) → webhook_step s s'
| step_unregister s id owner s' : unregister s id owner = Ok s' → webhook_step s s'
| step_enqueue s now order kind body :
    order ≡ₚ (map_to_list (subs s)).*2 → webhook_step s (enqueue s now order kind body).1
| step_deliver s now world : webhook_step s (deliverOnce s now world).1
| step_replay s now did owner s' r : replay s now did owner = Ok (s', r) → webhook_step s s'.

Record webhook_inv (s : webhookStore) : Prop := {
  inv_queue : ∀ ev, ev ∈ queue s → 0 <= Attempts ev < webhookMaxAttempts;
  inv_dead : ∀ dl, dl ∈ dead s → Attempts (Event dl) = webhookMaxAttempts;
  inv_dead_length : (length (dead s) <= webhookDeadLetterLimit)%nat;
  inv_subs : ∀ id sub, subs s !! id = Some sub → sub_inv sub;
}.

Lemma deliver_loop_subs world i s pending s' log :
  (∀ id sub, subs s !! id = Some sub → sub_inv sub) → deliver_loop world i s pending = (s', log) →
  ∀ id sub, subs s' !! id = Some sub → sub_inv sub.
Proof.
  revert i s log. induction pending as [|ev pending IH]; cbn; intros i s log Hs; [by intros [= <- <-]|].
  destruct (subs s !! SubID ev) as [sub|] eqn:Hsub; [|by apply IH].
  destruct (deliverEvent s sub ev (world i)) as [s1 req] eqn:He.
  destruct (deliver_loop world (S i) s1 pending) as [s2 log2] eqn:Hl. intros [= <- <-].
  destruct (deliver_event_spec _ _ _ _ _ _ Hsub He) as ((sub' & Hs1 & _ & Hi) & _ & _).
  eapply IH; [|exact Hl]. rewrite Hs1. intros j v [[<- <-]|[_ ?]]%lookup_insert_Some; [|by eapply Hs].
  by eapply Hi, Hs.
Qed.

Lemma evict_dead_length s now :
  (length (dead s) <= webhookDeadLetterLimit)%nat →
  (length (dead (evictExpiredDeadLettersLocked s now)) <= webhookDeadLetterLimit)%nat.
Proof. cbn. intros H. etransitivity; [apply List.filter_length_le|done]. Qed.

Lemma elem_of_filter_list {A} (f : A → bool) l x : x ∈ List.filter f l → x ∈ l ∧ f x = true.
Proof. rewrite !list_elem_of_In. apply List.filter_In. Qed.

Lemma elem_of_cap_dead d x : x ∈ cap_dead d → x ∈ d.
Proof.
  unfold cap_dead. case_match; [|done]. intros Hx. rewrite <- (take_drop (length d - webhookDeadLetterLimit) d).
  apply elem_of_app. by right.
Qed.

Lemma deliver_inv s now world : webhook_inv s → webhook_inv (deliverOnce s now world).1.
Proof.
  intros [Q D L S]. unfold deliverOnce. cbv zeta. set (s0 := evictExpiredDeadLettersLocked s now).
  destruct (split_queue s0 now (queue s0)) as [pending remaining] eqn:Hsp.
  destruct (deliver_loop world 0 (with_queue s0 remaining) pending) as [s' log] eqn:Hl.
  pose proof (evict_dead_length s now L) as L0. fold s0 in L0.
  destruct (split_queue_spec _ _ _ _ _ Hsp) as (_ & Hp & Hr).
  destruct (deliver_loop_spec _ _ (with_queue s0 remaining) _ _ _ L0 Hl)
    as (_ & (rq & Hq & _ & Hrq) & (ds & Hds & Hdead) & Hlog).
  constructor; cbn.
  - intros ev. rewrite Hq, elem_of_app. cbn. intros [Hev|Hev].
    + destruct (Hr ev Hev) as [?|(ev0 & t & ? & -> & _)]; [by apply Q|by apply (Q ev0)].
    + destruct (Hrq ev Hev) as (e & He & _ & Ha & Hmax & _). destruct (Hlog e He) as [Hin _].
      destruct (Hp _ Hin) as [Hin' _]. specialize (Q _ Hin'). lia.
  - rewrite Hdead. intros dl Hdl%elem_of_cap_dead. apply elem_of_app in Hdl as [Hdl|Hdl].
    + cbn in Hdl. apply elem_of_filter_list in Hdl as [? _]. by apply D.
    + assert ((event_payload (Event dl), Attempts (Event dl)) ∈
        (λ ev, (event_payload ev, Attempts ev + 1)) <$> exhausted log) as H.
      { rewrite <- Hds. apply list_elem_of_fmap. by exists dl. }
      apply list_elem_of_fmap in H as (ev & [= _ _ _ _ Ha] & Hev). unfold exhausted in Hev.
      apply list_elem_of_fmap in Hev as (e & -> & He). apply elem_of_filter_list in He as [He Hf].
      apply andb_prop in Hf as [_ Hf]. bool_to_prop. destruct (Hlog e He) as [Hin _].
      destruct (Hp _ Hin) as [Hin' _]. specialize (Q _ Hin'). unfold log_event in *. lia.
  - rewrite Hdead. apply length_cap_dead.
  - eapply deliver_loop_subs; [|exact Hl]. exact S.
Qed.

Lemma webhook_inv_step s s' : webhook_step s s' → webhook_inv s → webhook_inv s'.
Proof.
  destruct 1 as [s now owner url sec events s' sub H|s id owner s' H|s now order kind body _|s now world
    |s now did owner s' r H]; intros Hs; pose proof Hs as [Q D L S].
  - unfold register in H. case_all. constructor; cbn; [done..|].
    intros i v [[<- <-]|[_ ?]]%lookup_insert_Some; [|by eapply S]. unfold sub_inv. cbn. split_and!; done || lia.
  - unfold unregister in H. case_all. constructor; cbn; [done..|]. intros i v [_ ?]%lookup_delete_Some. by eapply S.
  - constructor; cbn; [|done..]. intros ev [?|Hev]%elem_of_app; [by apply Q|].
    apply list_elem_of_fmap in Hev as (sub & -> & _). cbn. unfold webhookMaxAttempts. lia.
  - by apply deliver_inv.
  - unfold replay in H. case_all. constructor; cbn; [..|done].
    + intros ev [?|Hev]%elem_of_app; [by apply Q|].
      apply list_elem_of_singleton in Hev as ->. cbn. unfold webhookMaxAttempts. lia.
    + intros dl Hdl%elem_of_remove_at. by apply D.
    + unfold remove_at. rewrite length_app, length_take, length_drop. lia.
Qed.

Lemma webhook_inv_reachable n s : rtc webhook_step (newWebhookStore n) s → webhook_inv s.
Proof.
  intros H. assert (webhook_inv (newWebhookStore n)) as H0.
  { constructor; cbn; [set_solver..|lia|done]. }
  revert H0. induction H; eauto using webhook_inv_step.
Qed.

(** ** Properties *)

(** C9. Delivery conserves events, whatever the receivers answer: the queued
    events are, after a tick, either still queued, or delivered (2xx), or
    dead letters, or dropped because their subscription is gone, each exactly
    once. Only due events of subscriptions whose circuit was closed are
    attempted, with their body verbatim, the subscription's URL and a
    signature that verifies under its secret; a retried event comes back
    within 15 minutes with one more attempt counted. *)
Theorem deliver_conserves (n : Z) (s s' : webhookStore) (now : time) (world : nat → attempt)
    (log : list (webhookEvent * attempt * option request))
    (Hs : rtc webhook_step (newWebhookStore n) s) (Hd : deliverOnce s now world = (s', log)) :
  ∃ kept retried lost letters,
    queue s' = kept ++ retried ∧
    event_payload <$> queue s ≡ₚ event_payload <$> (kept ++ retried ++ delivered log ++ exhausted log ++ lost) ∧
    Forall (λ ev, subs s !! SubID ev = None) lost ∧
    Forall (λ ev', ∃ e, e ∈ log ∧ retried_as e.1.1 e.1.2 ev') retried ∧
    (λ dl, event_payload (Event dl)) <$> letters = event_payload <$> exhausted log ∧
    dead s' = cap_dead (List.filter (λ dl, now - webhookDeadLetterTTL <? FailedAt dl) (dead s) ++ letters) ∧
    Forall (λ e, e.1.1 ∈ queue s ∧ NextTryAt e.1.1 <= now ∧ circuit_open s now (SubID e.1.1) = None ∧
      ∀ q, e.2 = Some q → request_ok s e.1.1 q) log.
Proof.
  apply webhook_inv_reachable in Hs as [_ _ L _]. unfold deliverOnce in Hd. cbv zeta in Hd.
  set (s0 := evictExpiredDeadLettersLocked s now) in Hd.
  destruct (split_queue s0 now (queue s0)) as [pending remaining] eqn:Hsp.
  pose proof (evict_dead_length s now L) as L0. fold s0 in L0.
  destruct (split_queue_spec _ _ _ _ _ Hsp) as (Hperm & Hp & _).
  destruct (deliver_loop_spec _ _ (with_queue s0 remaining) _ _ _ L0 Hd)
    as (_ & (rq & Hq & Hpay & Hrq) & (ds & Hds & Hdead) & Hlog).
  exists remaining, rq, (List.filter (orphan (with_queue s0 remaining)) pending), ds. split_and!; [done| | | | |done|].
  - change (queue s) with (queue s0). rewrite Hperm, Hpay, Permutation_app_comm. by rewrite !fmap_app.
  - apply Forall_forall. intros ev Hev%elem_of_filter_list. destruct Hev as [_ Hev]. by apply bool_decide_eq_true in Hev.
  - by apply Forall_forall.
  - apply (f_equal (fmap fst)) in Hds. rewrite <- !list_fmap_compose in Hds. exact Hds.
  - apply Forall_forall. intros e He. destruct (Hlog e He) as [Hin Hreq]. destruct (Hp _ Hin) as (? & ? & ?). by split_and!.
Qed.

(** Whatever the sequence of calls: a queued event has been attempted at
    most seven times and a dead letter exactly eight, at most 1000 dead
    letters are kept, the attempts of a subscription are its deliveries plus
    its failures, and its circuit has only ever been opened by twenty
    failures in a row. *)
Theorem webhook_bounds (n : Z) (s : webhookStore) (Hs : rtc webhook_step (newWebhookStore n) s) :
  Forall (λ ev, 0 <= Attempts ev <= 7) (queue s) ∧
  Forall (λ dl, Attempts (Event dl) = 8) (dead s) ∧ (length (dead s) <= 1000)%nat ∧
  ∀ id sub, subs s !! id = Some sub →
    SAttempts sub = Deliveries sub + SFailures sub ∧ 0 <= ConsecutiveFailures sub <= SFailures sub ∧
    (CircuitOpenUntil sub ≠ time_zero → 20 <= ConsecutiveFailures sub).
Proof.
  apply webhook_inv_reachable in Hs as [Q D L S]. split_and!; [..|done|].
  - apply Forall_forall. intros ev Hev. specialize (Q ev Hev). unfold webhookMaxAttempts in Q. lia.
  - apply Forall_forall. intros dl Hdl. by apply D.
  - intros id sub Hsub. by destruct (S id sub Hsub) as (? & _ & ? & ?).
Qed.
End delivery.

(** A caller only reaches what it owns. [unregister] and [replay] act for the
    owner and otherwise answer as if nothing were there; a listing shows exactly
    the caller's subscriptions, without secret, oldest first. *)
Theorem webhook_ownership (s : webhookStore) (owner : string) :
  (∀ id, match unregister s id owner with
         | Ok s' => (OwnerKey <$> subs s !! id) = Some owner ∧ subs s' = delete id (subs s) ∧ queue s' = queue s
         | Err e => e = ErrNotFound
         end) ∧
  (∀ now did, match replay s now did owner with
         | Ok (s', r) => r = did ∧ ∃ dl, DeliveryID dl = did ∧ DOwnerKey dl = owner ∧
             dead s ≡ₚ dl :: dead s' ∧ queue s' = queue s ++ [reset_event (Event dl) now]
         | Err e => e = ErrNotFound ∨ e = ErrUnregistered ∧ ∃ dl, dl ∈ dead s ∧ DOwnerKey dl = owner
         end) ∧
  (∀ order, StronglySorted (not_after created_before) (list_subs order owner) ∧
     list_subs order owner ≡ₚ hide_secret <$> List.filter (λ sub, bool_decide (OwnerKey sub = owner)) order).
Proof.
  split_and!.
  - intros id. unfold unregister. destruct (subs s !! id) as [sub|]; [|done].
    case_bool_decide as Ho; [|done]. cbn. by rewrite Ho.
  - intros now did. unfold replay. destruct (find_index _ _) as [idx|] eqn:Hi; [|by left].
    apply find_index_some in Hi as (dl & Hdl & Hid). rewrite Hdl. bool_to_prop.
    destruct (bool_decide (DOwnerKey dl = owner)) eqn:Ho; cbn; [|by left]. bool_to_prop.
    destruct (subs s !! SubID (Event dl)).
    + split; [done|]. exists dl. split_and!; [done|done| |done]. cbn. unfold remove_at.
      rewrite <- (take_drop_middle _ _ _ Hdl) at 1. by rewrite Permutation_middle.
    + right. split; [done|]. exists dl. split; [by eapply list_elem_of_lookup_2|done].
  - intros order. unfold list_subs. split; [|apply sort_slice_perm].
    apply sort_slice_sorted, (swo_Z_asc SCreatedAt).
Qed.

(** ** Concrete stores *)

Definition no_dates (_ : string) : option time := None.

Definition ex_now : time := 1785000000 * second.

Definition ex_sub (streak : Z) : webhookSubscription :=
  {| ID := "wh_1"; URL := "https://example.org/hook"; Events := ["*"%string]; SCreatedAt := 0; OwnerKey := "alice";
     secret := "s3cret"; SAttempts := streak; Deliveries := 0; SFailures := streak; LastAttemptAt := time_zero;
     LastStatusCode := 0; SLastError := ""; ConsecutiveFailures := streak; CircuitOpenUntil := time_zero;
     CircuitTrippedTotal := 0 |}.

Definition ex_id : string := newWebhookID 1 5.

Definition ex_store : webhookStore :=
  match register (newWebhookStore 0) 5 "alice" "https://example.org/hook" "s3cret" [EventProofVerified] with
  | Ok (s, _) => (enqueue s 6 (map_to_list (subs s)).*2 EventProofVerified (bytes_of "{}")).1
  | Err _ => newWebhookStore 0
  end.

Lemma ex_reachable : rtc (webhook_step no_dates) (newWebhookStore 0) ex_store.
Proof.
  eapply rtc_l.
  { eapply (step_register no_dates (newWebhookStore 0) 5 "alice" "https://example.org/hook" "s3cret" [EventProofVerified]).
    vm_compute. reflexivity. }
  apply rtc_once.
  match goal with |- webhook_step _ ?s ex_store =>
    assert (ex_store = (enqueue s 6 (map_to_list (subs s)).*2 EventProofVerified (bytes_of "{}")).1) as ->
      by (vm_compute; reflexivity)
  end.
  by apply step_enqueue.
Defined.

Definition ex_world (i : nat) : attempt :=
  match i with
  | 0%nat => {| at_ := 10; draw := Some 12345; out := Response 503 "120" |}
  | _ => {| at_ := 11; draw := None; out := Response 204 "" |}
  end.

Lemma deliver_conserves_witness :
  let r := deliverOnce no_dates ex_store 7 ex_world in
  length (queue r.1) = 1%nat ∧
  ∃ kept retried lost letters,
    queue r.1 = kept ++ retried ∧
    event_payload <$> queue ex_store ≡ₚ
      event_payload <$> (kept ++ retried ++ delivered r.2 ++ exhausted r.2 ++ lost) ∧
    (λ dl, event_payload (Event dl)) <$> letters = event_payload <$> exhausted r.2.
Proof.
  intros r. split; [vm_compute; reflexivity|].
  destruct (deliver_conserves no_dates 0 ex_store r.1 7 ex_world r.2 ex_reachable (surjective_pairing r))
    as (k & t & l & d & H1 & H2 & _ & _ & H3 & _).
  exists k, t, l, d. exact (conj H1 (conj H2 H3)).
Defined.

Lemma webhook_bounds_witness :
  rtc (webhook_step no_dates) (newWebhookStore 0) ex_store ∧ length (queue ex_store) = 1%nat ∧
  Forall (λ ev, 0 <= Attempts ev <= 7) (queue ex_store).
Proof.
  split; [exact ex_reachable|]. split; [vm_compute; reflexivity|].
  apply (webhook_bounds no_dates 0 ex_store ex_reachable).
Defined.

(** The circuit breaker does not stop the batch it trips in: with nineteen
    failures counted, three due events are all sent although the first failure
    opens the circuit. *)
Definition ex_batch : webhookStore :=
  {| subs := <["wh_1"%string := ex_sub 19]> ∅;
     queue := (λ k, {| SubID := "wh_1"; Kind := k; Body := []; Attempts := 0; NextTryAt := 0; LastError := "";
                       CreatedAt := 0 |}) <$> ["a"; "b"; "c"]%string;
     dead := []; counter := 0 |}.

Definition ex_down (_ : nat) : attempt := {| at_ := ex_now; draw := Some 0; out := Response 500 "" |}.

Example tripped_batch_goes_on :
  let r := deliverOnce no_dates ex_batch ex_now ex_down in
  (CircuitOpenUntil <$> subs (deliverEvent no_dates ex_batch (ex_sub 19)
     {| SubID := "wh_1"; Kind := "a"; Body := []; Attempts := 0; NextTryAt := 0; LastError := ""; CreatedAt := 0 |}
     (ex_down 0)).1 !! "wh_1"%string) = Some (ex_now + 2 * minute) ∧
  length r.2 = 3%nat ∧ Forall (λ e, is_Some e.2) r.2.
Proof. split; [vm_compute; reflexivity|]. split; [vm_compute; reflexivity|]. vm_compute. repeat constructor; eauto. Qed.

(** Replaying a dead letter removes its record, so [Replayed] never leaves 0. *)
Definition ex_letter : deadLetter :=
  {| DeliveryID := "dl_1"; Event := new_event 0 "a" [] (ex_sub 0); FailedAt := 0; DURL := ""; DOwnerKey := "alice";
     Replayed := 0 |}.
Definition ex_dead : webhookStore :=
  {| subs := <["wh_1"%string := ex_sub 0]> ∅; queue := []; dead := [ex_letter]; counter := 0 |}.

Example replay_forgets_record :
  match replay ex_dead 5 "dl_1" "alice" with
  | Ok (s, _) => dead s = [] ∧ length (queue s) = 1%nat
  | Err _ => False
  end.
Proof. vm_compute. done. Qed.

(** The idempotency key of a retry differs from that of the first attempt. *)
Example idempotency_key_changes :
  idempotencyKey "wh_1" 1 (bytes_of "{}") ≠ idempotencyKey "wh_1" 2 (bytes_of "{}").
Proof. vm_compute. discriminate. Qed.
