(* ===== verification/Pq.v ===== *)
(** * Signature primitives ([engine/internal/crypto/pq.go])

    The Lamport one-time signature, over the concrete SHA-256, and the hybrid
    signature with its wire format. [crypto/ed25519] and circl's ML-DSA-65 are
    the interface [Primitives]; [PrimitivesLaws] states what their
    documentation promises. The random bytes of a key generation are arguments,
    [None] being a failure of the random source. *)

From S2P Require Import Prelude GoLib Sha256.

Local Open Scope nat_scope.

(** ** The primitives *)

(** Ed25519 keys and signatures are byte slices; ML-DSA keys are of the opaque
    types [MPriv] and [MPub]. *)
Class Primitives (MPriv MPub : Type) := {
  ed_generate : bytes → bytes * bytes;
  ed_sign : bytes → bytes → bytes;
  ed_verify : bytes → bytes → bytes → bool;
  ml_generate : bytes → MPriv * MPub;
  ml_sign : MPriv → bytes → option bytes;
  ml_verify : MPub → bytes → bytes → bool;
  ml_signature_size : nat;
  ml_pub_bytes : MPub → bytes;
  ml_pub_of_bytes : bytes → option MPub;
  ml_priv_bytes : MPriv → option bytes;
  ml_priv_of_bytes : bytes → option MPriv;
}.

Definition ed_PrivateKeySize : nat := 64.
Definition ed_PublicKeySize : nat := 32.
Definition ed_SignatureSize : nat := 64.

Class PrimitivesLaws (MPriv MPub : Type) `{!Primitives MPriv MPub} : Prop := {
  ed_generate_sizes seed :
    length (ed_generate seed).1 = ed_PrivateKeySize ∧ length (ed_generate seed).2 = ed_PublicKeySize;
  ed_sign_size priv m : length priv = ed_PrivateKeySize → length (ed_sign priv m) = ed_SignatureSize;
  ed_correct seed m : ed_verify (ed_generate seed).2 m (ed_sign (ed_generate seed).1 m) = true;
  ml_correct seed m :
    ∃ sig, ml_sign (ml_generate seed).1 m = Some sig ∧ length sig = ml_signature_size ∧
      ml_verify (ml_generate seed).2 m sig = true;
  ml_signature_fits : (Z.of_nat ml_signature_size <= 65535)%Z;
  ml_pub_roundtrip pub : ml_pub_of_bytes (ml_pub_bytes pub) = Some pub;
  ml_priv_roundtrip priv : ∃ b, ml_priv_bytes priv = Some b ∧ b ≠ [] ∧ ml_priv_of_bytes b = Some priv;
}.

Inductive PqError :=
| ErrInvalidKeyLength | ErrInvalidSignature | ErrRandom | ErrMldsaSign
| ErrClassicSignature (e : PqError) | ErrPqSignature (e : PqError) | ErrUnmarshalHybrid (e : PqError)
| ErrClassicVerification (e : PqError) | ErrPqVerification (e : PqError).

(** ** Lamport one-time signatures *)

Definition lamportDigestBits : nat := 256.
Definition lamportKeySize : Z := 16384.

(** Private and public keys: pairs of 32-byte strings, one pair per digest bit. *)
Notation LamportKey := (list (bytes * bytes)).

(** What the array type [[256][2][32]byte] says. *)
Definition lamport_key (k : LamportKey) : Prop :=
  length k = lamportDigestBits ∧ Forall (λ p, length p.1 = 32 ∧ length p.2 = 32) k.

Definition LamportBytes (k : LamportKey) : bytes := concat ((λ p, p.1 ++ p.2) <$> k).

Definition slice_at (b : bytes) (lo n : nat) : bytes := take n (drop lo b).

Definition LamportKeyFromBytes (b : bytes) : result PqError LamportKey :=
  if negb (Z.of_nat (length b) =? lamportKeySize)%Z then Err ErrInvalidKeyLength
  else Ok ((λ i, (slice_at b (i * 2 * 32) 32, slice_at b (i * 2 * 32 + 32) 32)) <$> seq 0 lamportDigestBits).

(** The public half of a private key. *)
Definition lamport_public (priv : LamportKey) : LamportKey := (λ p, (sha256 p.1, sha256 p.2)) <$> priv.

Definition GenerateLamportKeyPair (random : option LamportKey) : result PqError (LamportKey * LamportKey) :=
  match random with Some priv => Ok (priv, lamport_public priv) | None => Err ErrRandom end.

(** [(digest[i/8] >> (7 - uint(i%8))) & 1] *)
Definition digest_bit (digest : bytes) (i : nat) : bool :=
  (Z.land (Z.shiftr (byte_to_Z (nth (i / 8) digest Byte.x00)) (7 - Z.of_nat (i mod 8))) 1 =? 1)%Z.

Definition choose (bit : bool) (p : bytes * bytes) : bytes := if bit then p.2 else p.1.

Definition key_at (k : LamportKey) (i : nat) : bytes * bytes := nth i k ([], []).

Definition SignSPHINCS (privateKey : option LamportKey) (message : bytes) : result PqError bytes :=
  match privateKey with
  | None => Err ErrInvalidKeyLength
  | Some priv =>
      let digest := sha256 message in
      Ok (concat ((λ i, choose (digest_bit digest i) (key_at priv i)) <$> seq 0 lamportDigestBits))
  end.

Definition check_bit (pub : LamportKey) (digest signature : bytes) (i : nat) : bool :=
  bool_decide (sha256 (slice_at signature (i * 32) 32) = choose (digest_bit digest i) (key_at pub i)).

Definition VerifySPHINCS (publicKey : option LamportKey) (message signature : bytes) : result PqError bool :=
  match publicKey with
  | None => Err ErrInvalidKeyLength
  | Some pub =>
      if negb (length signature =? lamportDigestBits * 32) then Err ErrInvalidSignature
      else let digest := sha256 message in
           Ok (forallb (check_bit pub digest signature) (seq 0 lamportDigestBits))
  end.

(** ** The hybrid signature *)

Record HybridSignature := { ClassicSig : bytes; PQSig : bytes }.

(** The two bytes of a length. *)
Definition be_uint16 (v : Z) : bytes := [byte_of_Z (Z.shiftr v 8); byte_of_Z v].

Definition MarshalBinary (hs : HybridSignature) : result PqError bytes :=
  if (65535 <? Z.of_nat (length (ClassicSig hs)))%Z || (65535 <? Z.of_nat (length (PQSig hs)))%Z then Err ErrInvalidSignature
  else Ok ([Byte.x01] ++ be_uint16 (Z.of_nat (length (ClassicSig hs))) ++ ClassicSig hs
           ++ be_uint16 (Z.of_nat (length (PQSig hs))) ++ PQSig hs).

(** [int(data[0])<<8 | int(data[1])] *)
Definition read_uint16 (data : bytes) : nat :=
  Z.to_nat (Z.lor (Z.shiftl (byte_to_Z (nth 0 data Byte.x00)) 8) (byte_to_Z (nth 1 data Byte.x00))).

Definition UnmarshalBinary (data : bytes) : result PqError HybridSignature :=
  if length data <? 5 then Err ErrInvalidSignature
  else
    let data := drop 1 data in
    let classicLen := read_uint16 data in
    let data := drop 2 data in
    if length data <? classicLen then Err ErrInvalidSignature
    else
      let classic := take classicLen data in
      let data := drop classicLen data in
      if length data <? 2 then Err ErrInvalidSignature
      else
        let pqLen := read_uint16 data in
        let data := drop 2 data in
        if length data <? pqLen then Err ErrInvalidSignature
        else Ok {| ClassicSig := classic; PQSig := take pqLen data |}.

Section primitives.
Context {MPriv MPub : Type} `{!Primitives MPriv MPub}.

Definition GenerateEd25519KeyPair (random : option bytes) : result PqError (bytes * bytes) :=
  match random with Some seed => Ok (ed_generate seed) | None => Err ErrRandom end.

Definition SignClassic (privateKey message : bytes) : result PqError bytes :=
  if negb (length privateKey =? ed_PrivateKeySize) then Err ErrInvalidKeyLength
  else Ok (ed_sign privateKey message).

Definition VerifyClassic (publicKey message signature : bytes) : result PqError bool :=
  if negb (length publicKey =? ed_PublicKeySize) then Err ErrInvalidKeyLength
  else if negb (length signature =? ed_SignatureSize) then Err ErrInvalidSignature
  else Ok (ed_verify publicKey message signature).

Definition GenerateMLDSAKeyPair (random : option bytes) : result PqError (MPriv * MPub) :=
  match random with Some seed => Ok (ml_generate seed) | None => Err ErrRandom end.

Definition SignMLDSA (privateKey : option MPriv) (message : bytes) : result PqError bytes :=
  match privateKey with
  | None => Err ErrInvalidKeyLength
  | Some priv => match ml_sign priv message with Some sig => Ok sig | None => Err ErrMldsaSign end
  end.

Definition VerifyMLDSA (publicKey : option MPub) (message signature : bytes) : result PqError bool :=
  match publicKey with
  | None => Err ErrInvalidKeyLength
  | Some pub =>
      if negb (length signature =? ml_signature_size) then Err ErrInvalidSignature
      else Ok (ml_verify pub message signature)
  end.

Definition wrap_err {A} (f : PqError → PqError) (r : result PqError A) : result PqError A :=
  match r with Ok a => Ok a | Err e => Err (f e) end.

Definition HybridSign (classicPriv : bytes) (pqPriv : option MPriv) (message : bytes) : result PqError bytes :=
  let! classicSig := wrap_err ErrClassicSignature (SignClassic classicPriv message) in
  let! pqSig := wrap_err ErrPqSignature (SignMLDSA pqPriv message) in
  MarshalBinary {| ClassicSig := classicSig; PQSig := pqSig |}.

(** The three booleans are returned next to an error too. *)
Definition HybridVerify (classicPub : bytes) (pqPub : option MPub) (message hybridSigBytes : bytes)
    : (bool * bool * bool) * option PqError :=
  match UnmarshalBinary hybridSigBytes with
  | Err e => ((false, false, false), Some (ErrUnmarshalHybrid e))
  | Ok hs =>
      match VerifyClassic classicPub message (ClassicSig hs) with
      | Err e => ((false, false, false), Some (ErrClassicVerification e))
      | Ok classicValid =>
          match VerifyMLDSA pqPub message (PQSig hs) with
          | Err e => ((false, classicValid, false), Some (ErrPqVerification e))
          | Ok pqValid => ((classicValid && pqValid, classicValid, pqValid), None)
          end
      end
  end.
End primitives.

(** ** Fixed-size blocks *)

Lemma length_concat_blocks {A} n (l : list (list A)) :
  Forall (λ b, length b = n) l → length (concat l) = n * length l.
Proof. induction 1 as [|b l Hb _ IH]; cbn; [lia|]. rewrite length_app, Hb, IH. lia. Qed.

(** The [i]-th block of a concatenation of blocks of [n] bytes. *)
Lemma slice_concat n (l : list bytes) i b :
  Forall (λ b, length b = n) l → l !! i = Some b → slice_at (concat l) (i * n) n = b.
Proof.
  intros H. revert i. induction H as [|x l Hx _ IH]; intros i Hi; [done|]. unfold slice_at in *. destruct i as [|i].
  - injection Hi as ->. cbn [concat]. rewrite Nat.mul_0_l, drop_0. by apply take_app_length'.
  - cbn [concat]. rewrite drop_app_ge by lia. replace (S i * n - length x) with (i * n) by lia. by apply IH.
Qed.

Lemma slice_prefix b lo n m : slice_at b lo n = take n (slice_at b lo (n + m)).
Proof. unfold slice_at. rewrite take_take. f_equal. lia. Qed.

Lemma slice_suffix b lo n m : slice_at b (lo + n) m = drop n (slice_at b lo (n + m)).
Proof. unfold slice_at. rewrite <- drop_drop, skipn_firstn_comm. f_equal. lia. Qed.

Lemma length_slice b lo n : lo + n <= length b → length (slice_at b lo n) = n.
Proof. intros H. unfold slice_at. rewrite length_take, length_drop. lia. Qed.

Lemma key_at_lookup k i p : k !! i = Some p → key_at k i = p.
Proof. intros H. unfold key_at. erewrite nth_lookup_Some; eauto. Qed.

Lemma key_at_sizes k i :
  lamport_key k → i < lamportDigestBits → length (key_at k i).1 = 32 ∧ length (key_at k i).2 = 32.
Proof.
  intros [Hl Hf] Hi. destruct (lookup_lt_is_Some_2 k i) as [p Hp]; [lia|]. rewrite (key_at_lookup _ _ _ Hp).
  by rewrite Forall_lookup in Hf; apply (Hf _ _ Hp).
Qed.

Lemma length_choose bit p : length p.1 = 32 → length p.2 = 32 → length (choose bit p) = 32.
Proof. by destruct bit. Qed.

Lemma lamport_public_key priv : lamport_key priv → lamport_key (lamport_public priv).
Proof.
  intros [Hl _]. split; [by unfold lamport_public; rewrite length_fmap|].
  apply Forall_fmap, Forall_true. intros p. split; apply length_sha256.
Qed.

Lemma key_at_public priv i :
  lamport_key priv → i < lamportDigestBits →
  key_at (lamport_public priv) i = (sha256 (key_at priv i).1, sha256 (key_at priv i).2).
Proof.
  intros [Hl _] Hi. destruct (lookup_lt_is_Some_2 priv i) as [p Hp]; [lia|].
  rewrite (key_at_lookup _ _ _ Hp). apply key_at_lookup. unfold lamport_public. by rewrite list_lookup_fmap, Hp.
Qed.

Lemma choose_public priv i bit :
  lamport_key priv → i < lamportDigestBits →
  choose bit (key_at (lamport_public priv) i) = sha256 (choose bit (key_at priv i)).
Proof. intros Hk Hi. rewrite key_at_public by done. by destruct bit. Qed.

(** The revealed preimages, as a list of blocks. *)
Definition revealed (priv : LamportKey) (digest : bytes) : list bytes :=
  (λ i, choose (digest_bit digest i) (key_at priv i)) <$> seq 0 lamportDigestBits.

Lemma revealed_sizes priv digest : lamport_key priv → Forall (λ b, length b = 32) (revealed priv digest).
Proof.
  intros Hk. apply Forall_fmap, Forall_forall. intros i Hi%elem_of_seq.
  destruct (key_at_sizes priv i Hk) as [? ?]; [lia|]. by apply length_choose.
Qed.

Lemma lookup_revealed priv digest i :
  i < lamportDigestBits → revealed priv digest !! i = Some (choose (digest_bit digest i) (key_at priv i)).
Proof. intros Hi. unfold revealed. rewrite list_lookup_fmap, lookup_seq_lt by done. done. Qed.

Lemma length_revealed priv digest : lamport_key priv → length (concat (revealed priv digest)) = lamportDigestBits * 32.
Proof.
  intros Hk. rewrite (length_concat_blocks 32) by by apply revealed_sizes.
  unfold revealed. rewrite length_fmap, length_seq. lia.
Qed.

Lemma slice_revealed priv digest i :
  lamport_key priv → i < lamportDigestBits →
  slice_at (concat (revealed priv digest)) (i * 32) 32 = choose (digest_bit digest i) (key_at priv i).
Proof.
  intros Hk Hi. apply slice_concat; [by apply revealed_sizes|by apply lookup_revealed].
Qed.

Lemma lamport_bytes_length k : lamport_key k → Z.of_nat (length (LamportBytes k)) = lamportKeySize.
Proof.
  intros [Hl Hf]. unfold LamportBytes. rewrite (length_concat_blocks 64).
  - rewrite length_fmap, Hl. done.
  - apply Forall_fmap. eapply Forall_impl; [exact Hf|]. intros p [H1 H2]. cbn. rewrite length_app. lia.
Qed.

(** ** Properties of Lamport signatures *)

Lemma verify_sphincs_accepts pub m sig :
  VerifySPHINCS (Some pub) m sig = Ok true ↔
  length sig = lamportDigestBits * 32 ∧
  ∀ i, i < lamportDigestBits → sha256 (slice_at sig (i * 32) 32) = choose (digest_bit (sha256 m) i) (key_at pub i).
Proof.
  unfold VerifySPHINCS. destruct (Nat.eqb_spec (length sig) (lamportDigestBits * 32)) as [E|E];
    cbn [negb]; [|split; [done|by intros []]].
  split.
  - intros H. split; [done|]. intros i Hi.
    assert (forallb (check_bit pub (sha256 m) sig) (seq 0 lamportDigestBits) = true) as Hb by congruence.
    clear H. rewrite forallb_forall in Hb. rename Hb into H.
    specialize (H i (proj2 (in_seq lamportDigestBits 0 i) ltac:(lia))). unfold check_bit in H.
    by apply bool_decide_eq_true in H.
  - intros [_ H]. f_equal. apply forallb_forall. intros i Hi%in_seq. apply bool_decide_eq_true, H. lia.
Qed.

Lemma key_from_bytes_to_bytes k : lamport_key k → LamportKeyFromBytes (LamportBytes k) = Ok k.
Proof.
  intros Hk. unfold LamportKeyFromBytes. rewrite lamport_bytes_length by done. cbn [negb].
  rewrite Z.eqb_refl. cbn [negb]. f_equal. destruct Hk as [Hl Hf].
  apply list_eq_same_length with (n := lamportDigestBits); [done|by rewrite length_fmap, length_seq|].
  intros i [x1 x2] y Hi Hx Hy. rewrite list_lookup_fmap, lookup_seq_lt in Hx by done. cbn [fmap option_fmap option_map] in Hx.
  rewrite Forall_lookup in Hf. destruct (Hf _ _ Hy) as [H1 H2].
  assert (slice_at (LamportBytes k) (i * 64) (32 + 32) = y.1 ++ y.2) as Hs.
  { apply slice_concat.
    - apply Forall_fmap, Forall_lookup. intros j p Hp. destruct (Hf _ _ Hp). cbn. rewrite length_app. lia.
    - by rewrite list_lookup_fmap, Hy. }
  replace ((0 + i) * 2 * 32) with (i * 64) in Hx by lia.
  rewrite (slice_prefix _ (i * 64) 32 32), (slice_suffix _ (i * 64) 32 32), Hs in Hx.
  rewrite take_app_length', drop_app_length' in Hx by done. injection Hx as <- <-. by destruct y.
Qed.

Lemma lamport_signature_verifies priv m :
  lamport_key priv →
  lamport_key (lamport_public priv) ∧
  VerifySPHINCS (Some (lamport_public priv)) m (concat (revealed priv (sha256 m))) = Ok true.
Proof.
  intros Hk. split; [by apply lamport_public_key|]. apply verify_sphincs_accepts.
  split; [by apply length_revealed|]. intros i Hi. by rewrite slice_revealed, choose_public.
Qed.

(** Lamport completeness: a signature made with a generated key verifies, for
    every message; keys survive their byte encoding. *)
Theorem lamport_correct (priv : LamportKey) (m : bytes) (Hk : lamport_key priv) :
  ∃ pub sig, GenerateLamportKeyPair (Some priv) = Ok (priv, pub) ∧ lamport_key pub ∧
    SignSPHINCS (Some priv) m = Ok sig ∧ VerifySPHINCS (Some pub) m sig = Ok true ∧
    LamportKeyFromBytes (LamportBytes priv) = Ok priv ∧ LamportKeyFromBytes (LamportBytes pub) = Ok pub.
Proof.
  destruct (lamport_signature_verifies priv m Hk) as [Hpub Hv].
  exists (lamport_public priv), (concat (revealed priv (sha256 m))). split_and!; [done|done|done|done| |].
  - by apply key_from_bytes_to_bytes.
  - by apply key_from_bytes_to_bytes.
Qed.

Lemma slices_eq n (a b : bytes) :
  length a = n * 32 → length b = n * 32 →
  (∀ i, i < n → slice_at a (i * 32) 32 = slice_at b (i * 32) 32) → a = b.
Proof.
  revert a b. induction n as [|n IH]; intros a b Ha Hb H.
  - apply nil_length_inv in Ha, Hb. congruence.
  - rewrite <- (take_drop 32 a), <- (take_drop 32 b). f_equal; [apply (H 0); lia|].
    apply IH; [rewrite length_drop; lia..|]. intros i Hi. specialize (H (S i)).
    unfold slice_at in *. rewrite !drop_drop. replace (32 + i * 32) with (S i * 32) by lia. apply H. lia.
Qed.

Lemma sign_revealed priv m : SignSPHINCS (Some priv) m = Ok (concat (revealed priv (sha256 m))).
Proof. reflexivity. Qed.

(** The first revealed preimage that is not the key's. *)
Definition lamport_collision (priv : LamportKey) (m sig : bytes) : bytes * bytes :=
  let real i := choose (digest_bit (sha256 m) i) (key_at priv i) in
  let differs i := negb (bool_decide (slice_at sig (i * 32) 32 = real i)) in
  match List.find differs (seq 0 lamportDigestBits) with
  | Some i => (slice_at sig (i * 32) 32, real i)
  | None => ([], [])
  end.

(** Lamport unforgeability, as a reduction: a signature that verifies for a
    message is the one the private key makes, or it exhibits a SHA-256
    collision with one of its preimages. *)
Theorem lamport_unforgeable (priv : LamportKey) (m sig : bytes) (Hk : lamport_key priv)
    (Hv : VerifySPHINCS (Some (lamport_public priv)) m sig = Ok true) :
  SignSPHINCS (Some priv) m = Ok sig ∨ is_collision (lamport_collision priv m sig).
Proof.
  apply verify_sphincs_accepts in Hv as [Hlen Hbits]. unfold lamport_collision. cbv zeta.
  destruct (List.find _ _) as [i|] eqn:Hf.
  - right. apply find_some in Hf as [Hi Hne]. apply in_seq in Hi. bool_to_prop. split; [done|]. cbn.
    rewrite Hbits by lia. apply choose_public; [done|lia].
  - left. rewrite sign_revealed. f_equal. apply (slices_eq lamportDigestBits); [by apply length_revealed|done|].
    intros i Hi. rewrite slice_revealed by done. symmetry.
    pose proof (find_none _ _ Hf i (proj2 (in_seq lamportDigestBits 0 i) ltac:(lia))) as Hn. cbn in Hn.
    by bool_to_prop.
Qed.

(** A signature made of the blocks of two others. *)
Definition mixed (m1 m : bytes) (sig1 sig2 : bytes) : bytes :=
  concat ((λ i, slice_at (if bool_decide (digest_bit (sha256 m) i = digest_bit (sha256 m1) i) then sig1 else sig2)
                  (i * 32) 32) <$> seq 0 lamportDigestBits).

(** A key that signed twice no longer protects: its two signatures make, without
    the key, a signature of every message whose digest agrees at each bit with
    one of theirs. *)
Theorem lamport_reuse_forges (priv : LamportKey) (m1 m2 m sig1 sig2 : bytes) (Hk : lamport_key priv)
    (H1 : SignSPHINCS (Some priv) m1 = Ok sig1) (H2 : SignSPHINCS (Some priv) m2 = Ok sig2)
    (Hm : ∀ i, i < lamportDigestBits → digest_bit (sha256 m) i = digest_bit (sha256 m1) i ∨
                                       digest_bit (sha256 m) i = digest_bit (sha256 m2) i) :
  VerifySPHINCS (Some (lamport_public priv)) m (mixed m1 m sig1 sig2) = Ok true.
Proof.
  rewrite sign_revealed in H1, H2. 
  assert (concat (revealed priv (sha256 m1)) = sig1) as <- by congruence.
  assert (concat (revealed priv (sha256 m2)) = sig2) as <- by congruence. clear H1 H2.
  assert (mixed m1 m (concat (revealed priv (sha256 m1))) (concat (revealed priv (sha256 m2)))
          = concat (revealed priv (sha256 m))) as ->.
  { unfold mixed. f_equal. change (revealed priv (sha256 m)) with
      ((λ i, choose (digest_bit (sha256 m) i) (key_at priv i)) <$> seq 0 lamportDigestBits).
    apply list_fmap_ext. intros k i Hi.
    apply lookup_seq in Hi as [-> Hi]. cbn [Nat.add]. case_bool_decide as E; rewrite slice_revealed by done.
    - by rewrite E.
    - destruct (Hm k Hi) as [?| ->]; done. }
  apply verify_sphincs_accepts. split; [by apply length_revealed|]. intros i Hi.
  by rewrite slice_revealed, choose_public.
Qed.

(** ** Properties of hybrid signatures *)

Lemma lor_shiftl a b : (0 <= b < 256)%Z → Z.lor (Z.shiftl a 8) b = (a * 256 + b)%Z.
Proof.
  intros Hb. assert (Z.land (Z.shiftl a 8) b = 0)%Z as H0.
  { apply Z.bits_inj'. intros i Hi. rewrite Z.land_spec, Z.bits_0. destruct (Z.lt_ge_cases i 8).
    - by rewrite Z.shiftl_spec_low.
    - rewrite <- (Z.mod_small b (2 ^ 8)) by done. rewrite Z.mod_pow2_bits_high by lia. apply andb_false_r. }
  rewrite <- Z.lxor_lor, <- Z.add_nocarry_lxor by done. rewrite Z.shiftl_mul_pow2 by done. done.
Qed.

Lemma read_be_uint16 n rest : (0 <= n < 65536)%Z → read_uint16 (be_uint16 n ++ rest) = Z.to_nat n.
Proof.
  intros Hn. unfold read_uint16, be_uint16. cbn [nth app]. rewrite !byte_to_of_Z.
  rewrite Z.shiftr_div_pow2 by done. change (2 ^ 8)%Z with 256%Z.
  rewrite (Z.mod_small (n / 256)) by lia_div. f_equal.
  rewrite lor_shiftl by lia_div. rewrite (Z.div_mod n 256) at 3 by done. lia.
Qed.

Lemma marshal_ok hs b :
  MarshalBinary hs = Ok b ↔
  (Z.of_nat (length (ClassicSig hs)) <= 65535 ∧ Z.of_nat (length (PQSig hs)) <= 65535)%Z ∧
  b = [Byte.x01] ++ be_uint16 (Z.of_nat (length (ClassicSig hs))) ++ ClassicSig hs
      ++ be_uint16 (Z.of_nat (length (PQSig hs))) ++ PQSig hs.
Proof.
  unfold MarshalBinary. destruct (_ || _)%bool eqn:E.
  - split; [done|]. intros [[? ?] _]. apply orb_prop in E as [E|E]; bool_to_prop; lia.
  - bool_to_prop. split; [by intros [= <-]|]. by intros [_ ->].
Qed.

Lemma unmarshal_fields v c q extra :
  (Z.of_nat (length c) <= 65535)%Z → (Z.of_nat (length q) <= 65535)%Z →
  UnmarshalBinary ([v] ++ be_uint16 (Z.of_nat (length c)) ++ c ++ be_uint16 (Z.of_nat (length q)) ++ q ++ extra)
  = Ok {| ClassicSig := c; PQSig := q |}.
Proof.
  intros Hc Hq. unfold UnmarshalBinary. cbv zeta. set (lc := be_uint16 (Z.of_nat (length c))).
  set (lq := be_uint16 (Z.of_nat (length q))).
  assert (length lc = 2 ∧ length lq = 2) as [Hlc Hlq] by done.
  assert (∀ rest, drop 2 (lc ++ rest) = rest ∧ drop 2 (lq ++ rest) = rest) as Hdrop by done.
  assert (∀ rest, read_uint16 (lc ++ rest) = length c ∧ read_uint16 (lq ++ rest) = length q) as Hread.
  { intros rest. unfold lc, lq. rewrite !read_be_uint16 by lia. lia. }
  clearbody lc lq. cbn [skipn app]. rewrite drop_0. rewrite (proj1 (Hread _)), (proj1 (Hdrop _)), take_app_length, drop_app_length,
    (proj2 (Hread _)), (proj2 (Hdrop _)), take_app_length.
  cbn [length]. rewrite !length_app, Hlc, Hlq.
  repeat match goal with |- context [?a <? ?b] => destruct (Nat.ltb_spec a b) as [?|_]; [lia|] end. done.
Qed.

Lemma marshal_unmarshal hs b : MarshalBinary hs = Ok b → UnmarshalBinary b = Ok hs.
Proof.
  intros [[Hc Hq] ->]%marshal_ok. rewrite <- (app_nil_r (PQSig hs)) at 2. rewrite unmarshal_fields by done. by destruct hs.
Qed.

Lemma marshal_error hs e :
  MarshalBinary hs = Err e →
  e = ErrInvalidSignature ∧ (65535 < Z.of_nat (length (ClassicSig hs)) ∨ 65535 < Z.of_nat (length (PQSig hs)))%Z.
Proof.
  unfold MarshalBinary. destruct (_ || _)%bool eqn:E; [|done]. intros [= <-]. split; [done|].
  apply orb_prop in E as [E|E]; bool_to_prop; auto.
Qed.

(** The wire format of a hybrid signature round-trips; signatures whose parts
    do not fit the two-byte lengths are refused. *)
Theorem hybrid_roundtrip (hs : HybridSignature) :
  match MarshalBinary hs with
  | Ok b => UnmarshalBinary b = Ok hs
  | Err e => e = ErrInvalidSignature ∧
      (65535 < Z.of_nat (length (ClassicSig hs)) ∨ 65535 < Z.of_nat (length (PQSig hs)))%Z
  end.
Proof.
  destruct (MarshalBinary hs) as [b|e] eqn:E; [by apply marshal_unmarshal|by apply marshal_error].
Qed.

(** The decoder accepts more than the encoder makes: the version byte is not
    looked at, and bytes after the second signature are ignored. So a hybrid
    signature can be changed without invalidating it. *)
Theorem hybrid_malleable (hs : HybridSignature) (b extra : bytes) (v : Byte.byte)
    (Hb : MarshalBinary hs = Ok b) :
  UnmarshalBinary (v :: drop 1 b ++ extra) = Ok hs.
Proof.
  apply marshal_ok in Hb as [[Hc Hq] ->]. cbn [app skipn]. rewrite drop_0, <- !app_assoc.
  pose proof (unmarshal_fields v (ClassicSig hs) (PQSig hs) extra Hc Hq) as H. cbn [app] in H. rewrite H. by destruct hs.
Qed.

Section hybrid.
Context {MPriv MPub : Type} `{!Primitives MPriv MPub, !PrimitivesLaws MPriv MPub}.

Lemma classic_correct seed m :
  ∃ sig, SignClassic (ed_generate seed).1 m = Ok sig ∧ length sig = ed_SignatureSize ∧
    VerifyClassic (ed_generate seed).2 m sig = Ok true.
Proof.
  destruct (ed_generate_sizes seed) as [H1 H2]. unfold SignClassic, VerifyClassic. rewrite H1, H2. cbn [negb].
  rewrite !Nat.eqb_refl. cbn [negb]. eexists. split; [done|]. rewrite ed_sign_size by done. split; [done|].
  rewrite Nat.eqb_refl. cbn [negb]. by rewrite ed_correct.
Qed.

Lemma mldsa_correct seed m :
  ∃ sig, SignMLDSA (Some (ml_generate seed).1) m = Ok sig ∧ length sig = ml_signature_size ∧
    VerifyMLDSA (Some (ml_generate seed).2) m sig = Ok true.
Proof.
  destruct (ml_correct seed m) as (sig & Hs & Hl & Hv). exists sig. unfold SignMLDSA, VerifyMLDSA.
  rewrite Hs, Hl, Nat.eqb_refl, Hv. done.
Qed.

(** Signing with two generated keys and verifying with their public halves. *)
Lemma hybrid_correct seed seed' m :
  ∃ sig, HybridSign (ed_generate seed).1 (Some (ml_generate seed').1) m = Ok sig ∧
    HybridVerify (ed_generate seed).2 (Some (ml_generate seed').2) m sig = ((true, true, true), None).
Proof.
  destruct (classic_correct seed m) as (s1 & H1 & Hl1 & Hv1). destruct (mldsa_correct seed' m) as (s2 & H2 & Hl2 & Hv2).
  unfold HybridSign. rewrite H1. cbn [result_bind wrap_err]. rewrite H2. cbn [result_bind wrap_err].
  pose proof ml_signature_fits. destruct (MarshalBinary _) as [b|e] eqn:Hm.
  - exists b. split; [done|]. unfold HybridVerify. rewrite (marshal_unmarshal _ _ Hm). cbn [ClassicSig PQSig].
    by rewrite Hv1, Hv2.
  - apply marshal_error in Hm as [_ Hm]. cbn [ClassicSig PQSig] in Hm.
    rewrite Hl1, Hl2 in Hm. unfold ed_SignatureSize in Hm. lia.
Qed.

(** A hybrid signature is accepted exactly when it decodes to two signatures
    of which each is accepted by its own scheme; a failing component is never
    compensated by the other. *)
Theorem hybrid_accepts_both (classicPub : bytes) (pqPub : option MPub) (m b : bytes) :
  (HybridVerify classicPub pqPub m b).1.1.1 = true ↔
  ∃ hs, UnmarshalBinary b = Ok hs ∧ VerifyClassic classicPub m (ClassicSig hs) = Ok true ∧
    VerifyMLDSA pqPub m (PQSig hs) = Ok true.
Proof.
  unfold HybridVerify. split.
  - intros H. repeat case_match; cbn in *; try done. apply andb_prop in H as [-> ->]. eauto.
  - by intros (hs & -> & -> & ->).
Qed.
End hybrid.

(** ** Concrete keys *)

(** Primitives for the examples of this and the next file; they satisfy the laws
    and protect nothing. *)
Definition toy_primitives : Primitives bytes bytes := {|
  ed_generate seed := (sha256 seed ++ sha256 seed, sha256 seed);
  ed_sign priv m := take 32 priv ++ sha256 m;
  ed_verify pub m sig := bool_decide (sig = pub ++ sha256 m);
  ml_generate seed := (seed, seed);
  ml_sign priv m := Some (sha256 (priv ++ m));
  ml_verify pub m sig := bool_decide (sig = sha256 (pub ++ m));
  ml_signature_size := 32;
  ml_pub_bytes pub := pub;
  ml_pub_of_bytes b := Some b;
  ml_priv_bytes priv := Some (Byte.x00 :: priv);
  ml_priv_of_bytes b := match b with _ :: priv => Some priv | [] => None end;
|}.

Lemma toy_laws : @PrimitivesLaws bytes bytes toy_primitives.
Proof.
  constructor; cbn.
  - intros seed. rewrite length_app, !length_sha256. done.
  - intros priv m H. rewrite length_app, length_take, length_sha256, H. done.
  - intros seed m. apply bool_decide_eq_true. by rewrite take_app_length'.
  - intros seed m. eexists. split; [done|]. split; [apply length_sha256|by apply bool_decide_eq_true].
  - lia.
  - done.
  - intros priv. by eexists.
Defined.

Definition ex_lamport : LamportKey := replicate 256 (replicate 32 Byte.x01, replicate 32 Byte.x02).

Lemma ex_lamport_key : lamport_key ex_lamport.
Proof. split; [reflexivity|]. by apply Forall_replicate. Defined.

Lemma lamport_correct_witness :
  lamport_key ex_lamport ∧
  ∃ sig, SignSPHINCS (Some ex_lamport) (bytes_of "m") = Ok sig ∧
    VerifySPHINCS (Some (lamport_public ex_lamport)) (bytes_of "m") sig = Ok true.
Proof.
  split; [exact ex_lamport_key|].
  destruct (lamport_correct ex_lamport (bytes_of "m") ex_lamport_key) as (pub & sig & H1 & _ & H2 & H3 & _).
  exists sig. split; [exact H2|]. injection H1 as <-. exact H3.
Defined.

Definition ex_sig : bytes :=
  match SignSPHINCS (Some ex_lamport) (bytes_of "m") with Ok sig => sig | Err _ => [] end.

Lemma lamport_unforgeable_witness :
  VerifySPHINCS (Some (lamport_public ex_lamport)) (bytes_of "m") ex_sig = Ok true ∧
  (SignSPHINCS (Some ex_lamport) (bytes_of "m") = Ok ex_sig ∨
   is_collision (lamport_collision ex_lamport (bytes_of "m") ex_sig)).
Proof.
  assert (VerifySPHINCS (Some (lamport_public ex_lamport)) (bytes_of "m") ex_sig = Ok true) as H
    by (vm_compute; reflexivity).
  split; [exact H|]. exact (lamport_unforgeable ex_lamport (bytes_of "m") ex_sig ex_lamport_key H).
Defined.
