(* ===== verification/Keyring.v ===== *)
(** * The key ring ([engine/internal/crypto/keyring.go])

    Versioned signature keys with one active key per algorithm, over the
    primitives of [Pq]. A method is one atomic step; the clock and the random
    bytes are arguments. The JSON documents of the snapshots are given parsed:
    [MarshalPublic] and [MarshalFull] yield the document that is encoded.
    Versions grow by one per key and are unbounded integers. *)

From S2P Require Import Prelude GoLib Sha256 Pq.
From stdpp Require Import relations.

Local Open Scope Z_scope.

(** ** Data *)

Definition AlgoEd25519 : string := "ed25519".
Definition AlgoMLDSA65 : string := "mldsa65".
Definition AlgoLamport : string := "lamport".
Definition AlgoHybrid : string := "hybrid_ed25519_mldsa65".

Definition SupportedAlgos : list string := [AlgoEd25519; AlgoMLDSA65; AlgoLamport; AlgoHybrid].

Record KeyMeta := {
  KID : string; KAlgo : string; Version : Z; PublicKey : string; CreatedAt : time; RetiredAt : option time;
  Active : bool;
}.

Inductive KeyringError :=
| ErrUnsupportedAlgo (a : string) | ErrUnknownKey (id : string) | ErrNoActiveKey (a : string) | ErrVerifyOnly
| ErrPrimitive (e : PqError) | ErrMarshalKey | ErrUnmarshalKey | ErrDidNotVerify
| ErrMigrateVerify (e : KeyringError) | ErrMigrateSign (e : KeyringError)
| ErrBadPublicHex (id : string) | ErrBadPrivateHex (id : string) | ErrBadHybridHex (id : string)
| ErrHydrate (id : string) (e : KeyringError) | ErrMarshalPrivate (id : string) (e : KeyringError)
| ErrSnapshotVersion (v : Z).

Section keyring.
Context {MPriv MPub : Type} `{!Primitives MPriv MPub}.

Record keyEntry := {
  meta : KeyMeta; ed25519Priv : option bytes; ed25519Pub : bytes; mldsaPriv : option MPriv;
  mldsaPub : option MPub; lamportPriv : option LamportKey; lamportPub : option LamportKey;
}.

Record KeyRing := {
  keys : gmap string keyEntry; active : gmap string string; perAlgoMaxVersion : gmap string Z;
}.

(** The random bytes a generation reads. *)
Record entropy := { r_ed : option bytes; r_ml : option bytes; r_lamport : option LamportKey }.

Definition NewKeyRing : KeyRing := {| keys := ∅; active := ∅; perAlgoMaxVersion := ∅ |}.

(** ** Entries: dispatch on the algorithm *)

Definition pq_err {A} (r : result PqError A) : result KeyringError A :=
  match r with Ok a => Ok a | Err e => Err (ErrPrimitive e) end.

Definition zero_meta : KeyMeta :=
  {| KID := ""; KAlgo := ""; Version := 0; PublicKey := ""; CreatedAt := time_zero; RetiredAt := None;
     Active := false |}.

Definition with_meta (e : keyEntry) (m : KeyMeta) : keyEntry :=
  {| meta := m; ed25519Priv := ed25519Priv e; ed25519Pub := ed25519Pub e; mldsaPriv := mldsaPriv e;
     mldsaPub := mldsaPub e; lamportPriv := lamportPriv e; lamportPub := lamportPub e |}.

Definition empty_entry (m : KeyMeta) : keyEntry :=
  {| meta := m; ed25519Priv := None; ed25519Pub := []; mldsaPriv := None; mldsaPub := None;
     lamportPriv := None; lamportPub := None |}.

Definition set_ed (e : keyEntry) (priv : option bytes) (pub : bytes) : keyEntry :=
  {| meta := meta e; ed25519Priv := priv; ed25519Pub := pub; mldsaPriv := mldsaPriv e;
     mldsaPub := mldsaPub e; lamportPriv := lamportPriv e; lamportPub := lamportPub e |}.

Definition set_mldsa (e : keyEntry) (priv : option MPriv) (pub : option MPub) : keyEntry :=
  {| meta := meta e; ed25519Priv := ed25519Priv e; ed25519Pub := ed25519Pub e; mldsaPriv := priv;
     mldsaPub := pub; lamportPriv := lamportPriv e; lamportPub := lamportPub e |}.

Definition set_lamport (e : keyEntry) (priv : option LamportKey) (pub : option LamportKey) : keyEntry :=
  {| meta := meta e; ed25519Priv := ed25519Priv e; ed25519Pub := ed25519Pub e; mldsaPriv := mldsaPriv e;
     mldsaPub := mldsaPub e; lamportPriv := priv; lamportPub := pub |}.

Definition generateForAlgo (algo : string) (rnd : entropy) : result KeyringError keyEntry :=
  let e := empty_entry zero_meta in
  if bool_decide (algo = AlgoEd25519) then
    let! (priv, pub) := pq_err (GenerateEd25519KeyPair (r_ed rnd)) in Ok (set_ed e (Some priv) pub)
  else if bool_decide (algo = AlgoMLDSA65) then
    let! (priv, pub) := pq_err (GenerateMLDSAKeyPair (r_ml rnd)) in Ok (set_mldsa e (Some priv) (Some pub))
  else if bool_decide (algo = AlgoLamport) then
    let! (priv, pub) := pq_err (GenerateLamportKeyPair (r_lamport rnd)) in
    Ok (set_lamport e (Some priv) (Some pub))
  else if bool_decide (algo = AlgoHybrid) then
    let! (cpriv, cpub) := pq_err (GenerateEd25519KeyPair (r_ed rnd)) in
    let! (qpriv, qpub) := pq_err (GenerateMLDSAKeyPair (r_ml rnd)) in
    Ok (set_mldsa (set_ed e (Some cpriv) cpub) (Some qpriv) (Some qpub))
  else Err (ErrUnsupportedAlgo algo).

(** The marshalling of a missing ML-DSA or Lamport key, a nil dereference in
    Go, is empty here; a generated entry has its key. *)
Definition mldsa_pub_bytes (e : keyEntry) : bytes :=
  match mldsaPub e with Some pub => ml_pub_bytes pub | None => [] end.

Definition publicBytes (e : keyEntry) : bytes :=
  let algo := KAlgo (meta e) in
  if bool_decide (algo = AlgoEd25519) then ed25519Pub e
  else if bool_decide (algo = AlgoMLDSA65) then mldsa_pub_bytes e
  else if bool_decide (algo = AlgoLamport) then
    match lamportPub e with Some pub => LamportBytes pub | None => [] end
  else if bool_decide (algo = AlgoHybrid) then
    be_uint32 (Z.of_nat (length (ed25519Pub e))) ++ ed25519Pub e ++ mldsa_pub_bytes e
  else [].

Definition entry_sign (e : keyEntry) (message : bytes) : result KeyringError bytes :=
  let algo := KAlgo (meta e) in
  if bool_decide (algo = AlgoEd25519) then
    match ed25519Priv e with Some priv => pq_err (SignClassic priv message) | None => Err ErrVerifyOnly end
  else if bool_decide (algo = AlgoMLDSA65) then
    match mldsaPriv e with Some priv => pq_err (SignMLDSA (Some priv) message) | None => Err ErrVerifyOnly end
  else if bool_decide (algo = AlgoLamport) then
    match lamportPriv e with Some priv => pq_err (SignSPHINCS (Some priv) message) | None => Err ErrVerifyOnly end
  else if bool_decide (algo = AlgoHybrid) then
    match ed25519Priv e, mldsaPriv e with
    | Some cpriv, Some qpriv => pq_err (HybridSign cpriv (Some qpriv) message)
    | _, _ => Err ErrVerifyOnly
    end
  else Err (ErrUnsupportedAlgo algo).

Definition entry_verify (e : keyEntry) (message signature : bytes) : result KeyringError bool :=
  let algo := KAlgo (meta e) in
  if bool_decide (algo = AlgoEd25519) then pq_err (VerifyClassic (ed25519Pub e) message signature)
  else if bool_decide (algo = AlgoMLDSA65) then pq_err (VerifyMLDSA (mldsaPub e) message signature)
  else if bool_decide (algo = AlgoLamport) then pq_err (VerifySPHINCS (lamportPub e) message signature)
  else if bool_decide (algo = AlgoHybrid) then
    match HybridVerify (ed25519Pub e) (mldsaPub e) message signature with
    | (_, Some err) => Err (ErrPrimitive err)
    | ((ok, _, _), None) => Ok ok
    end
  else Err (ErrUnsupportedAlgo algo).

Definition privateHex (e : keyEntry) : result KeyringError (string * string) :=
  let algo := KAlgo (meta e) in
  if bool_decide (algo = AlgoEd25519) then
    match ed25519Priv e with Some priv => Ok (hex_encode priv, "") | None => Ok ("", "") end
  else if bool_decide (algo = AlgoMLDSA65) then
    match mldsaPriv e with
    | Some priv => match ml_priv_bytes priv with Some b => Ok (hex_encode b, "") | None => Err ErrMarshalKey end
    | None => Ok ("", "")
    end
  else if bool_decide (algo = AlgoLamport) then
    match lamportPriv e with Some priv => Ok (hex_encode (LamportBytes priv), "") | None => Ok ("", "") end
  else if bool_decide (algo = AlgoHybrid) then
    match ed25519Priv e, mldsaPriv e with
    | Some cpriv, Some qpriv =>
        match ml_priv_bytes qpriv with
        | Some b => Ok (hex_encode cpriv, hex_encode b)
        | None => Err ErrMarshalKey
        end
    | _, _ => Ok ("", "")
    end
  else Err (ErrUnsupportedAlgo algo).

Definition of_option {A} (err : KeyringError) (o : option A) : result KeyringError A :=
  match o with Some a => Ok a | None => Err err end.

Definition hydratePrivate (e : keyEntry) (algo : string) (privBytes hybridPQ : bytes)
    : result KeyringError keyEntry :=
  if bool_decide (algo = AlgoEd25519) then
    if negb (length privBytes =? ed_PrivateKeySize)%nat then Err (ErrPrimitive ErrInvalidKeyLength)
    else Ok (set_ed e (Some privBytes) (ed25519Pub e))
  else if bool_decide (algo = AlgoMLDSA65) then
    let! priv := of_option ErrUnmarshalKey (ml_priv_of_bytes privBytes) in
    Ok (set_mldsa e (Some priv) (mldsaPub e))
  else if bool_decide (algo = AlgoLamport) then
    let! priv := pq_err (LamportKeyFromBytes privBytes) in Ok (set_lamport e (Some priv) (lamportPub e))
  else if bool_decide (algo = AlgoHybrid) then
    if negb (length privBytes =? ed_PrivateKeySize)%nat then Err (ErrPrimitive ErrInvalidKeyLength)
    else let! priv := of_option ErrUnmarshalKey (ml_priv_of_bytes hybridPQ) in
         Ok (set_mldsa (set_ed e (Some privBytes) (ed25519Pub e)) (Some priv) (mldsaPub e))
  else Err (ErrUnsupportedAlgo algo).

(** [int(b[0])<<24 | int(b[1])<<16 | int(b[2])<<8 | int(b[3])] *)
Definition read_uint32 (b : bytes) : Z :=
  let at_ i := byte_to_Z (nth i b Byte.x00) in
  Z.lor (Z.lor (Z.lor (Z.shiftl (at_ 0%nat) 24) (Z.shiftl (at_ 1%nat) 16)) (Z.shiftl (at_ 2%nat) 8)) (at_ 3%nat).

Definition hydratePublicOnly (e : keyEntry) (algo : string) (pubBytes : bytes) : result KeyringError keyEntry :=
  if bool_decide (algo = AlgoEd25519) then
    if negb (length pubBytes =? ed_PublicKeySize)%nat then Err (ErrPrimitive ErrInvalidKeyLength)
    else Ok (set_ed e (ed25519Priv e) pubBytes)
  else if bool_decide (algo = AlgoMLDSA65) then
    let! pub := of_option ErrUnmarshalKey (ml_pub_of_bytes pubBytes) in
    Ok (set_mldsa e (mldsaPriv e) (Some pub))
  else if bool_decide (algo = AlgoLamport) then
    let! pub := pq_err (LamportKeyFromBytes pubBytes) in Ok (set_lamport e (lamportPriv e) (Some pub))
  else if bool_decide (algo = AlgoHybrid) then
    if (length pubBytes <? 4)%nat then Err (ErrPrimitive ErrInvalidKeyLength)
    else
      let classicLen := read_uint32 pubBytes in
      if Z.of_nat (length pubBytes) <? 4 + classicLen then Err (ErrPrimitive ErrInvalidKeyLength)
      else
        let classic := take (Z.to_nat classicLen) (drop 4 pubBytes) in
        let pq := drop (4 + Z.to_nat classicLen) pubBytes in
        if negb (length classic =? ed_PublicKeySize)%nat then Err (ErrPrimitive ErrInvalidKeyLength)
        else let! pub := of_option ErrUnmarshalKey (ml_pub_of_bytes pq) in
             Ok (set_mldsa (set_ed e (ed25519Priv e) classic) (mldsaPriv e) (Some pub))
  else Err (ErrUnsupportedAlgo algo).

Definition makeKeyID (algo : string) (version : Z) (pubBytes : bytes) : string :=
  (algo +:+ ":v" +:+ itoa version +:+ ":" +:+ hex_encode (take 4 (sha256 pubBytes)))%string.

Definition ParseAlgo (s : string) : result KeyringError string :=
  let a := to_lower s in
  if existsb (λ known, bool_decide (a = known)) SupportedAlgos then Ok a else Err (ErrUnsupportedAlgo s).

(** ** The ring *)

Definition retire (m : KeyMeta) (now : time) : KeyMeta :=
  {| KID := KID m; KAlgo := KAlgo m; Version := Version m; PublicKey := PublicKey m; CreatedAt := CreatedAt m;
     RetiredAt := Some now; Active := false |}.

Definition set_algo (m : KeyMeta) (algo : string) : KeyMeta :=
  {| KID := KID m; KAlgo := algo; Version := Version m; PublicKey := PublicKey m; CreatedAt := CreatedAt m;
     RetiredAt := RetiredAt m; Active := Active m |}.

Definition max_version (r : KeyRing) (algo : string) : Z := default 0 (perAlgoMaxVersion r !! algo).

Definition retire_previous (ks : gmap string keyEntry) (prev : option string) (now : time)
    : gmap string keyEntry :=
  match prev with
  | Some prevID => if bool_decide (prevID = ""%string) then ks
                   else alter (λ e, with_meta e (retire (meta e) now)) prevID ks
  | None => ks
  end.

Definition createLocked (r : KeyRing) (now : time) (algo : string) (rnd : entropy)
    : result KeyringError (KeyRing * KeyMeta) :=
  let! entry := generateForAlgo algo rnd in
  let nextVersion := max_version r algo + 1 in
  let pubBytes := publicBytes (with_meta entry (set_algo (meta entry) algo)) in
  let id := makeKeyID algo nextVersion pubBytes in
  let m := {| KID := id; KAlgo := algo; Version := nextVersion; PublicKey := hex_encode pubBytes;
              CreatedAt := now; RetiredAt := None; Active := true |} in
  Ok ({| keys := <[id := with_meta entry m]> (retire_previous (keys r) (active r !! algo) now);
         active := <[algo := id]> (active r);
         perAlgoMaxVersion := <[algo := nextVersion]> (perAlgoMaxVersion r) |}, m).

Definition CreateKey (r : KeyRing) (now : time) (algo : string) (rnd : entropy)
    : result KeyringError (KeyRing * KeyMeta) := createLocked r now algo rnd.

Definition RotateKey (r : KeyRing) (now : time) (algo : string) (rnd : entropy)
    : result KeyringError (KeyRing * KeyMeta) := CreateKey r now algo rnd.

Definition ActiveKeyID (r : KeyRing) (algo : string) : option string :=
  match active r !! algo with Some id => if bool_decide (id = ""%string) then None else Some id | None => None end.

Definition GetMeta (r : KeyRing) (id : string) : result KeyringError KeyMeta :=
  match keys r !! id with Some e => Ok (meta e) | None => Err (ErrUnknownKey id) end.

Definition meta_less (a b : KeyMeta) : bool :=
  if bool_decide (KAlgo a = KAlgo b) then Version a <? Version b else string_ltb (KAlgo a) (KAlgo b).

Definition ListKeys (r : KeyRing) : list KeyMeta := sort_slice meta_less (meta <$> (map_to_list (keys r)).*2).

Definition SignWithKey (r : KeyRing) (id : string) (message : bytes) : result KeyringError bytes :=
  match keys r !! id with Some e => entry_sign e message | None => Err (ErrUnknownKey id) end.

Definition Sign (r : KeyRing) (algo : string) (message : bytes) : result KeyringError (bytes * string) :=
  match ActiveKeyID r algo with
  | None => Err (ErrNoActiveKey algo)
  | Some id => let! sig := SignWithKey r id message in Ok (sig, id)
  end.

Definition Verify (r : KeyRing) (id : string) (message signature : bytes) : result KeyringError bool :=
  match keys r !! id with Some e => entry_verify e message signature | None => Err (ErrUnknownKey id) end.

Definition MigrateSignature (r : KeyRing) (oldKeyID : string) (message oldSignature : bytes) (toAlgo : string)
    : result KeyringError (bytes * string) :=
  match Verify r oldKeyID message oldSignature with
  | Err e => Err (ErrMigrateVerify e)
  | Ok false => Err ErrDidNotVerify
  | Ok true => match Sign r toAlgo message with Ok out => Ok out | Err e => Err (ErrMigrateSign e) end
  end.

(** ** Snapshots *)

Definition MarshalPublic (r : KeyRing) : list KeyMeta := ListKeys r.

(** What both loaders do with a hydrated entry. *)
Definition install (r : KeyRing) (e : keyEntry) : KeyRing :=
  let m := meta e in
  {| keys := <[KID m := e]> (keys r);
     active := if Active m then <[KAlgo m := KID m]> (active r) else active r;
     perAlgoMaxVersion := if max_version r (KAlgo m) <? Version m
                          then <[KAlgo m := Version m]> (perAlgoMaxVersion r) else perAlgoMaxVersion r |}.

Definition hydrate_meta (m : KeyMeta) : result KeyringError keyEntry :=
  let! pubBytes := of_option (ErrBadPublicHex (KID m)) (hex_decode (PublicKey m)) in
  match hydratePublicOnly (empty_entry m) (KAlgo m) pubBytes with
  | Ok e => Ok e
  | Err err => Err (ErrHydrate (KID m) err)
  end.

Fixpoint load_public (r : KeyRing) (doc : list KeyMeta) : result KeyringError KeyRing :=
  match doc with
  | [] => Ok r
  | m :: doc' => let! e := hydrate_meta m in load_public (install r e) doc'
  end.

Definition LoadPublicKeyRing (doc : list KeyMeta) : result KeyringError KeyRing := load_public NewKeyRing doc.

Record keyMaterial := { KMMeta : KeyMeta; PrivateHex : string; PrivateHybridPQ : string }.

Record fullRingDoc := { DocVersion : Z; DocKeys : list keyMaterial }.

(** [r.keys[m.ID]] is the entry [m] was read from. *)
Definition key_material (r : KeyRing) (m : KeyMeta) : result KeyringError keyMaterial :=
  let! e := of_option (ErrUnknownKey (KID m)) (keys r !! KID m) in
  match privateHex e with
  | Ok (priv, pq) => Ok {| KMMeta := m; PrivateHex := priv; PrivateHybridPQ := pq |}
  | Err err => Err (ErrMarshalPrivate (KID m) err)
  end.

Definition MarshalFull (r : KeyRing) : result KeyringError fullRingDoc :=
  let! ms := try_map (key_material r) (ListKeys r) in Ok {| DocVersion := 1; DocKeys := ms |}.

Definition hydrate_full (km : keyMaterial) : result KeyringError keyEntry :=
  let m := KMMeta km in
  let! e := hydrate_meta m in
  if bool_decide (PrivateHex km = ""%string) then Ok e
  else
    let! privBytes := of_option (ErrBadPrivateHex (KID m)) (hex_decode (PrivateHex km)) in
    let! hybridPQ := (if bool_decide (PrivateHybridPQ km = ""%string) then Ok []
                      else of_option (ErrBadHybridHex (KID m)) (hex_decode (PrivateHybridPQ km))) in
    match hydratePrivate e (KAlgo m) privBytes hybridPQ with
    | Ok e' => Ok e'
    | Err err => Err (ErrHydrate (KID m) err)
    end.

Fixpoint load_full (r : KeyRing) (doc : list keyMaterial) : result KeyringError KeyRing :=
  match doc with
  | [] => Ok r
  | km :: doc' => let! e := hydrate_full km in load_full (install r e) doc'
  end.

Definition LoadFullKeyRing (doc : fullRingDoc) : result KeyringError KeyRing :=
  if negb (DocVersion doc =? 1) then Err (ErrSnapshotVersion (DocVersion doc))
  else load_full NewKeyRing (DocKeys doc).
End keyring.

(** ** Entries *)

(** Decide the comparisons of two known algorithm names. *)
Ltac decide_algo :=
  repeat match goal with
  | |- context [bool_decide (@eq string ?a ?b)] =>
      let v := eval vm_compute in (bool_decide (a = b)) in
      lazymatch v with true => idtac | false => idtac end;
      change (bool_decide (a = b)) with v
  end; cbv iota.

Section entries.
Context {MPriv MPub : Type} `{!Primitives MPriv MPub, !PrimitivesLaws MPriv MPub}.
Implicit Types (e : keyEntry (MPriv := MPriv) (MPub := MPub)) (r : KeyRing (MPriv := MPriv) (MPub := MPub)).

(** A drawn Lamport key is an array of pairs of 32-byte strings. *)
Definition entropy_ok (rnd : entropy) : Prop := ∀ k, r_lamport rnd = Some k → lamport_key k.

(** The keys of [e] were generated for its algorithm. *)
Definition generated e : Prop :=
  ∃ rnd e0, entropy_ok rnd ∧ generateForAlgo (KAlgo (meta e)) rnd = Ok e0 ∧ e = with_meta e0 (meta e).

Lemma generate_cases algo rnd e0 :
  generateForAlgo algo rnd = Ok e0 →
  let z := empty_entry zero_meta in
  (∃ s, algo = AlgoEd25519 ∧ e0 = set_ed z (Some (ed_generate s).1) (ed_generate s).2) ∨
  (∃ s, algo = AlgoMLDSA65 ∧ e0 = set_mldsa z (Some (ml_generate s).1) (Some (ml_generate s).2)) ∨
  (∃ k, algo = AlgoLamport ∧ r_lamport rnd = Some k ∧ e0 = set_lamport z (Some k) (Some (lamport_public k))) ∨
  (∃ s s', algo = AlgoHybrid ∧
     e0 = set_mldsa (set_ed z (Some (ed_generate s).1) (ed_generate s).2)
            (Some (ml_generate s').1) (Some (ml_generate s').2)).
Proof.
  unfold generateForAlgo. cbv zeta. intros H.
  case_bool_decide; [|case_bool_decide; [|case_bool_decide; [|case_bool_decide; [|done]]]].
  - left. apply result_bind_ok in H as ([priv pub] & G1 & [= <-]). destruct (r_ed rnd) as [s|]; [|done].
    cbn in G1. exists s. split; [done|]. by destruct (ed_generate s); simplify_eq.
  - right; left. apply result_bind_ok in H as ([priv pub] & G1 & [= <-]). destruct (r_ml rnd) as [s|]; [|done].
    cbn in G1. exists s. split; [done|]. by destruct (ml_generate s); simplify_eq.
  - right; right; left. apply result_bind_ok in H as ([priv pub] & G1 & [= <-]).
    destruct (r_lamport rnd) as [k|]; [|done]. cbn in G1. exists k. by simplify_eq.
  - right; right; right. apply result_bind_ok in H as ([cpriv cpub] & G1 & H).
    apply result_bind_ok in H as ([qpriv qpub] & G2 & [= <-]).
    destruct (r_ed rnd) as [s|]; [|done]. destruct (r_ml rnd) as [s'|]; [|done]. cbn in G1, G2.
    exists s, s'. split; [done|]. by destruct (ed_generate s), (ml_generate s'); simplify_eq.
Qed.

(** The four shapes of a generated entry. *)
Lemma generated_cases e :
  generated e →
  (∃ s, KAlgo (meta e) = AlgoEd25519 ∧
     e = set_ed (empty_entry (meta e)) (Some (ed_generate s).1) (ed_generate s).2) ∨
  (∃ s, KAlgo (meta e) = AlgoMLDSA65 ∧
     e = set_mldsa (empty_entry (meta e)) (Some (ml_generate s).1) (Some (ml_generate s).2)) ∨
  (∃ k, KAlgo (meta e) = AlgoLamport ∧ lamport_key k ∧
     e = set_lamport (empty_entry (meta e)) (Some k) (Some (lamport_public k))) ∨
  (∃ s s', KAlgo (meta e) = AlgoHybrid ∧
     e = set_mldsa (set_ed (empty_entry (meta e)) (Some (ed_generate s).1) (ed_generate s).2)
           (Some (ml_generate s').1) (Some (ml_generate s').2)).
Proof.
  intros (rnd & e0 & Hok & Hg & He).
  apply generate_cases in Hg as [(s & Ha & ->)|[(s & Ha & ->)|[(k & Ha & Hk & ->)|(s & s' & Ha & ->)]]].
  - left. by exists s.
  - right; left. by exists s.
  - right; right; left. exists k. split; [done|]. split; [by apply Hok|exact He].
  - right; right; right. by exists s, s'.
Qed.

Lemma entry_correct e m :
  generated e → ∃ sig, entry_sign e m = Ok sig ∧ entry_verify e m sig = Ok true.
Proof.
  intros [(s & Ha & ->)|[(s & Ha & ->)|[(k & Ha & Hk & ->)|(s & s' & Ha & ->)]]]%generated_cases;
    unfold entry_sign, entry_verify;
    cbn [meta set_ed set_mldsa set_lamport empty_entry ed25519Priv ed25519Pub mldsaPriv mldsaPub lamportPriv lamportPub];
    rewrite Ha; decide_algo.
  - destruct (classic_correct s m) as (sig & H1 & _ & H2). exists sig. by rewrite H1, H2.
  - destruct (mldsa_correct s m) as (sig & H1 & _ & H2). exists sig. by rewrite H1, H2.
  - eexists. rewrite sign_revealed. split; [done|]. cbn [pq_err].
    destruct (lamport_signature_verifies k m Hk) as [_ ->]. done.
  - destruct (hybrid_correct s s' m) as (sig & H1 & H2). exists sig. by rewrite H1, H2.
Qed.

(** An entry without its private half. *)
Definition public_half e : keyEntry (MPriv := MPriv) (MPub := MPub) :=
  {| meta := meta e; ed25519Priv := None; ed25519Pub := ed25519Pub e; mldsaPriv := None; mldsaPub := mldsaPub e;
     lamportPriv := None; lamportPub := lamportPub e |}.

Lemma read_be_uint32_32 rest : read_uint32 (be_uint32 32 ++ rest) = 32.
Proof. reflexivity. Qed.

Ltac entry_fields :=
  cbn [meta set_ed set_mldsa set_lamport empty_entry ed25519Priv ed25519Pub mldsaPriv mldsaPub lamportPriv
    lamportPub public_half mldsa_pub_bytes] in *.

Lemma hydrate_public e :
  generated e → hydratePublicOnly (empty_entry (meta e)) (KAlgo (meta e)) (publicBytes e) = Ok (public_half e).
Proof.
  intros Hg. destruct (generated_cases e Hg)
    as [(s & Ha & He)|[(s & Ha & He)|[(k & Ha & Hk & He)|(s & s' & Ha & He)]]];
    unfold hydratePublicOnly, publicBytes; rewrite Ha; decide_algo; rewrite He; entry_fields.
  - destruct (ed_generate_sizes s) as [_ ->].  rewrite Nat.eqb_refl. done.
  - unfold mldsa_pub_bytes. entry_fields. rewrite ml_pub_roundtrip. done.
  - rewrite key_from_bytes_to_bytes by by apply lamport_public_key. done.
  - unfold mldsa_pub_bytes. entry_fields. destruct (ed_generate_sizes s) as [_ Hs].
    set (pub := (ed_generate s).2) in *. change (Z.of_nat ed_PublicKeySize) with 32 in *.
    replace (Z.of_nat (length pub)) with 32 by (rewrite Hs; done).
    rewrite read_be_uint32_32, !length_app. change (length (be_uint32 32)) with 4%nat.
    destruct (Nat.ltb_spec (4 + (length pub + length (ml_pub_bytes (ml_generate s').2))) 4) as [|_]; [lia|].
    destruct (Z.ltb_spec (Z.of_nat (4 + (length pub + length (ml_pub_bytes (ml_generate s').2)))) (4 + 32)) as [H|_].
    { rewrite Hs in H. unfold ed_PublicKeySize in H. lia. }
    assert (∀ rest, drop 4 (be_uint32 32 ++ rest) = rest ∧ drop (4 + Z.to_nat 32) (be_uint32 32 ++ rest) = drop 32 rest)
      as Hd by done.
    rewrite (proj1 (Hd _)), (proj2 (Hd _)), take_app_length', drop_app_length' by (rewrite Hs; done).
    rewrite Hs, Nat.eqb_refl. cbn [negb]. rewrite ml_pub_roundtrip. done.
Qed.

Lemma hex_encode_ne b : b ≠ [] → bool_decide (hex_encode b = ""%string) = false.
Proof. intros. by apply bool_decide_eq_false, hex_encode_nonempty. Qed.

Lemma nonempty_length {A} (l : list A) n : length l = S n → l ≠ [].
Proof. by destruct l. Qed.

(** Marshalling the private half of a generated entry and hydrating it. *)
Lemma hydrate_private e :
  generated e →
  ∃ priv pq, privateHex e = Ok (hex_encode priv, if bool_decide (pq = []) then ""%string else hex_encode pq) ∧
    priv ≠ [] ∧ hydratePrivate (public_half e) (KAlgo (meta e)) priv pq = Ok e.
Proof.
  intros Hg. destruct (generated_cases e Hg)
    as [(s & Ha & He)|[(s & Ha & He)|[(k & Ha & Hk & He)|(s & s' & Ha & He)]]];
    unfold hydratePrivate, privateHex; rewrite Ha; decide_algo; rewrite He; entry_fields.
  - destruct (ed_generate_sizes s) as [Hs _]. exists (ed_generate s).1, []. split; [done|].
    split; [by eapply nonempty_length|]. rewrite Hs, Nat.eqb_refl. done.
  - destruct (ml_priv_roundtrip (ml_generate s).1) as (b & H1 & H2 & H3). exists b, []. rewrite H1, H3. done.
  - exists (LamportBytes k), []. split; [done|]. split.
    + intros H. pose proof (lamport_bytes_length k Hk) as Hl. rewrite H in Hl. done.
    + rewrite key_from_bytes_to_bytes by done. done.
  - destruct (ed_generate_sizes s) as [Hs _]. destruct (ml_priv_roundtrip (ml_generate s').1) as (b & H1 & H2 & H3).
    exists (ed_generate s).1, b. rewrite H1, H3, Hs, Nat.eqb_refl. rewrite bool_decide_false by done.
    split; [done|]. split; [by eapply nonempty_length|done].
Qed.

(** The metadata describe the entry. *)
Definition described e : Prop :=
  generated e ∧ PublicKey (meta e) = hex_encode (publicBytes e) ∧
  KID (meta e) = makeKeyID (KAlgo (meta e)) (Version (meta e)) (publicBytes e) ∧
  1 <= Version (meta e) ∧ (Active (meta e) = true ↔ RetiredAt (meta e) = None).

Lemma hydrate_meta_described e : described e → hydrate_meta (meta e) = Ok (public_half e).
Proof.
  intros (Hg & Hp & _). unfold hydrate_meta. rewrite Hp, hex_decode_encode. cbn [of_option result_bind].
  by rewrite (hydrate_public e Hg).
Qed.

Lemma hydrate_full_described e :
  described e →
  ∃ priv pq, privateHex e = Ok (priv, pq) ∧
    hydrate_full {| KMMeta := meta e; PrivateHex := priv; PrivateHybridPQ := pq |} = Ok e.
Proof.
  intros Hd. destruct (hydrate_private e (proj1 Hd)) as (priv & pq & Hx & Hne & Hh).
  eexists _, _. split; [exact Hx|]. unfold hydrate_full. cbn [KMMeta PrivateHex PrivateHybridPQ].
  rewrite hydrate_meta_described by done. cbn [result_bind]. rewrite hex_encode_ne, hex_decode_encode by done.
  cbn [of_option result_bind].
  assert ((if bool_decide ((if bool_decide (pq = []) then ""%string else hex_encode pq) = ""%string) then Ok []
           else of_option (ErrBadHybridHex (KID (meta e)))
                  (hex_decode (if bool_decide (pq = []) then ""%string else hex_encode pq))) = Ok pq) as ->.
  { case_bool_decide; [subst; done|]. by rewrite hex_encode_ne, hex_decode_encode. }
  cbn [result_bind]. by rewrite Hh.
Qed.

(** ** The invariant of a ring *)

Record ring_inv r : Prop := {
  ri_id : ∀ id e, keys r !! id = Some e → KID (meta e) = id;
  ri_described : ∀ id e, keys r !! id = Some e → described e;
  ri_unique : ∀ id id' e e', keys r !! id = Some e → keys r !! id' = Some e' →
    KAlgo (meta e) = KAlgo (meta e') → Version (meta e) = Version (meta e') → id = id';
  ri_active : ∀ a id, active r !! a = Some id ↔
    ∃ e, keys r !! id = Some e ∧ KAlgo (meta e) = a ∧ Active (meta e) = true;
  ri_max : ∀ id e, keys r !! id = Some e → Version (meta e) <= max_version r (KAlgo (meta e));
  ri_all : ∀ a v, 1 <= v <= max_version r a →
    ∃ id e, keys r !! id = Some e ∧ KAlgo (meta e) = a ∧ Version (meta e) = v;
  ri_max_pos : ∀ a v, perAlgoMaxVersion r !! a = Some v → 1 <= v;
  ri_latest : ∀ a id e, active r !! a = Some id → keys r !! id = Some e → Version (meta e) = max_version r a;
  ri_some : ∀ id e, keys r !! id = Some e → is_Some (active r !! KAlgo (meta e));
}.

Lemma generated_supported e : generated e → KAlgo (meta e) ∈ SupportedAlgos.
Proof.
  intros [(?&->&_)|[(?&->&_)|[(?&->&_)|(?&?&->&_)]]]%generated_cases; unfold SupportedAlgos; set_solver.
Qed.

Lemma supported_no_colon a : a ∈ SupportedAlgos → no_char (chr 58) a = true.
Proof.
  unfold SupportedAlgos. rewrite !elem_of_cons, elem_of_nil. by intros [->|[->|[->|[->|[]]]]].
Qed.

Lemma makeKeyID_inj a a' v v' b b' :
  a ∈ SupportedAlgos → a' ∈ SupportedAlgos → makeKeyID a v b = makeKeyID a' v' b' → a = a' ∧ v = v'.
Proof.
  intros Ha Ha' H. unfold makeKeyID in H.
  apply (split_at_sep (chr 58)) in H as [-> H]; [|by apply supported_no_colon..].
  split; [done|]. injection H as H.
  apply (split_at_sep (chr 58)) in H as [H _]; [by apply (inj pretty) in H|by apply no_char_itoa..].
Qed.

Lemma makeKeyID_nonempty a v b : makeKeyID a v b ≠ ""%string.
Proof. unfold makeKeyID. by destruct a. Qed.

Lemma publicBytes_meta e m : KAlgo m = KAlgo (meta e) → publicBytes (with_meta e m) = publicBytes e.
Proof. intros H. unfold publicBytes. cbn [meta with_meta]. by rewrite H. Qed.

Lemma generated_meta e m : KAlgo m = KAlgo (meta e) → generated e → generated (with_meta e m).
Proof.
  intros H (rnd & e0 & Hok & Hg & He). exists rnd, e0. cbn [meta with_meta]. rewrite H.
  split_and!; [done|done|]. by rewrite He.
Qed.

Definition retired now e : keyEntry := with_meta e (retire (meta e) now).

Lemma described_retired now e : described e → described (retired now e).
Proof.
  intros (Hg & Hp & Hid & Hv & Ha). unfold described, retired. rewrite publicBytes_meta by done.
  split_and!; [by apply generated_meta|done|done|done|done].
Qed.

Lemma lookup_retire_previous ks prev now j :
  prev ≠ Some ""%string →
  retire_previous ks prev now !! j = (if bool_decide (prev = Some j) then retired now else id) <$> ks !! j.
Proof.
  intros Hp. unfold retire_previous. destruct prev as [p|].
  - rewrite (bool_decide_false (p = _)) by congruence. case_bool_decide as E.
    + injection E as ->. apply lookup_alter_eq.
    + rewrite lookup_alter_ne by congruence. by destruct (ks !! j).
  - rewrite bool_decide_false by done. by destruct (ks !! j).
Qed.

Inductive ring_step : KeyRing (MPriv := MPriv) (MPub := MPub) → KeyRing (MPriv := MPriv) (MPub := MPub) → Prop :=
| step_create r now algo rnd r' m :
    entropy_ok rnd → CreateKey r now algo rnd = Ok (r', m) → ring_step r r'.

(** What creating a key does. *)
Lemma create_spec r now algo rnd r' m :
  ring_inv r → entropy_ok rnd → CreateKey r now algo rnd = Ok (r', m) →
  ∃ e, described e ∧ meta e = m ∧ KAlgo m = algo ∧ Version m = max_version r algo + 1 ∧ Active m = true ∧
    keys r !! KID m = None ∧
    (∀ j, keys r' !! j = if bool_decide (j = KID m) then Some e else
      (if bool_decide (active r !! algo = Some j) then retired now else id) <$> keys r !! j) ∧
    active r' = <[algo := KID m]> (active r) ∧
    perAlgoMaxVersion r' = <[algo := Version m]> (perAlgoMaxVersion r).
Proof.
  intros Hr Hok. unfold CreateKey, createLocked. intros (e0 & Hg & H)%result_bind_ok. cbv zeta in H.
  injection H as <- <-. set (pub := publicBytes _). set (id := makeKeyID algo _ pub). set (m := {| KID := id |}).
  assert (generated (with_meta e0 m)) as Hgen by (exists rnd, e0; done).
  assert (publicBytes (with_meta e0 m) = pub) as Hpub by done.
  assert (active r !! algo ≠ Some ""%string) as Hne.
  { intros E. apply (ri_active r Hr) in E as (e & He & _). pose proof (ri_id r Hr _ _ He) as Hid.
    destruct (ri_described r Hr _ _ He) as (_ & _ & Hmk & _). rewrite Hid in Hmk. symmetry in Hmk. by apply makeKeyID_nonempty in Hmk. }
  assert (0 <= max_version r algo) as Hmax.
  { unfold max_version. destruct (perAlgoMaxVersion r !! algo) eqn:E; cbn; [|lia]. apply (ri_max_pos r Hr) in E. lia. }
  exists (with_meta e0 m). split_and!; try done.
  - unfold described. rewrite Hpub. split_and!; try done. cbn. lia.
  - destruct (keys r !! KID m) as [e|] eqn:He; [|done]. pose proof (ri_id r Hr _ _ He) as Hid.
    destruct (ri_described r Hr _ _ He) as (Hge & _ & Hmk & _). rewrite Hid in Hmk.
    apply makeKeyID_inj in Hmk as [Ha Hv]; [|exact (generated_supported _ Hgen)|by apply generated_supported].
    pose proof (ri_max r Hr _ _ He) as Hle. rewrite <- Ha in Hle. lia.
  - intros j. cbn [keys]. case_bool_decide as E; [subst; apply lookup_insert_eq|].
    rewrite lookup_insert_ne by (intros <-; by apply E). by apply lookup_retire_previous.
Qed.

Lemma ring_inv_new : ring_inv NewKeyRing.
Proof.
  constructor; cbn; try done.
  - intros a id. split; [done|by intros (? & ? & _)].
  - unfold max_version. cbn. intros a v. rewrite lookup_empty. cbn. lia.
Qed.

Lemma ring_inv_step r r' : ring_step r r' → ring_inv r → ring_inv r'.
Proof.
  destruct 1 as [r now algo rnd r' m Hok Hc]. intros Hr.
  destruct (create_spec r now algo rnd r' m Hr Hok Hc) as (e & Hd & Hm & Ha & Hv & Hact & Hfresh & Hk & Hactive & Hmax).
  assert (∀ j x, keys r' !! j = Some x → j = KID m ∧ x = e ∨ j ≠ KID m ∧ ∃ x0, keys r !! j = Some x0 ∧
    x = (if bool_decide (active r !! algo = Some j) then retired now x0 else x0)) as Hold.
  { intros j x. rewrite Hk. case_bool_decide; [intros [= ->]; auto|].
    intros (x0 & Hx0 & ->)%fmap_Some. right. split; [done|]. exists x0. split; [done|]. by case_bool_decide. }
  assert (∀ a, max_version r' a = if bool_decide (a = algo) then Version m else max_version r a) as Hmv.
  { intros a. unfold max_version. rewrite Hmax. case_bool_decide; [subst; by rewrite lookup_insert_eq|].
    by rewrite lookup_insert_ne. }
  assert (∀ j x0, meta (if bool_decide (active r !! algo = Some j) then retired now x0 else x0) =
    if bool_decide (active r !! algo = Some j) then retire (meta x0) now else meta x0) as Hmeta
    by (intros; by case_bool_decide).
  constructor.
  - intros j x [[-> ->]|(_ & x0 & H0 & ->)]%Hold; [by rewrite Hm|]. rewrite <- (ri_id r Hr _ _ H0). by case_bool_decide.
  - intros j x [[-> ->]|(_ & x0 & H0 & ->)]%Hold; [done|]. pose proof (ri_described r Hr _ _ H0).
    case_bool_decide; [by apply described_retired|done].
  - intros j j' x x' Hx Hx'.
    assert (∀ i y, keys r !! i = Some y → KAlgo (meta y) = algo → Version (meta y) ≠ Version m) as Hnew.
    { intros i y Hy Hya. pose proof (ri_max r Hr _ _ Hy) as Hle. rewrite Hya in Hle. lia. }
    apply Hold in Hx as [[-> ->]|(? & x0 & H0 & ->)]; apply Hold in Hx' as [[-> ->]|(? & x0' & H0' & ->)];
      [done|rewrite Hm, Ha, Hmeta; intros E1 E2; destruct (Hnew _ _ H0'); by case_bool_decide
      |rewrite Hm, Ha, Hmeta; intros E1 E2; destruct (Hnew _ _ H0); by case_bool_decide|].
    rewrite !Hmeta. intros E1 E2. apply (ri_unique r Hr _ _ _ _ H0 H0'); by repeat case_bool_decide.
  - intros a j. rewrite Hactive. destruct (decide (a = algo)) as [->|Hne].
    + rewrite lookup_insert_eq. split.
      * intros [= <-]. exists e. rewrite Hk, bool_decide_true by done. by rewrite Hm.
      * intros (x & [[-> ->]|(_ & x0 & H0 & ->)]%Hold & Hxa & Hxact); [done|]. case_bool_decide as E; [done|].
        destruct E. apply (ri_active r Hr). by exists x0.
    + rewrite lookup_insert_ne by done. rewrite (ri_active r Hr). split.
      * intros (x & Hx & Hxa & Hxact). exists x. rewrite Hk. rewrite bool_decide_false by congruence.
        rewrite Hx, bool_decide_false; [done|]. intros (y & Hy & Hya & _)%(ri_active r Hr). congruence.
      * intros (x & [[-> ->]|(_ & x0 & H0 & ->)]%Hold & Hxa & Hxact); [by rewrite Hm, Ha in Hxa; destruct Hne|].
        exists x0. by case_bool_decide.
  - intros j x [[-> ->]|(_ & x0 & H0 & ->)]%Hold; rewrite Hmv.
    + rewrite Hm, Ha, bool_decide_true by done. lia.
    + pose proof (ri_max r Hr _ _ H0) as Hle. rewrite Hmeta.
      destruct (bool_decide (active r !! algo = Some j)); cbn; (case_bool_decide as E; [rewrite E in Hle; lia|done]).
  - intros a v. rewrite Hmv. intros Hrange.
    assert (v = Version m ∧ a = algo ∨ 1 <= v <= max_version r a) as [[-> ->]|Hvr]
      by (case_bool_decide as E; [destruct (decide (v = Version m)); [auto|right; rewrite E; lia]|auto]).
    + exists (KID m), e. rewrite Hk, bool_decide_true by done. by rewrite Hm.
    + apply (ri_all r Hr) in Hvr as (j & x & Hx & Hxa & Hxv).
      exists j, (if bool_decide (active r !! algo = Some j) then retired now x else x).
      rewrite Hk, (bool_decide_false (j = _)) by congruence. rewrite Hx, Hmeta. destruct (bool_decide (active r !! algo = Some j)); by split_and!.
  - intros a v. rewrite Hmax. intros [[<- <-]|[_ ?]]%lookup_insert_Some; [|by eapply ri_max_pos].
    destruct Hd as (_ & _ & _ & ? & _). by rewrite <- Hm.
  - intros a j x. rewrite Hactive, Hmv. intros [[<- <-]|[Hne Hj]]%lookup_insert_Some Hx.
    + rewrite Hk, bool_decide_true in Hx by done. injection Hx as <-. rewrite Hm, bool_decide_true by done. done.
    + rewrite (bool_decide_false (a = _)) by congruence.
      apply Hold in Hx as [[-> ->]|(_ & x0 & H0 & ->)]; [|rewrite Hmeta; pose proof (ri_latest r Hr _ _ _ Hj H0); by case_bool_decide].
      apply (ri_active r Hr) in Hj as (y & Hy & _). congruence.
  - intros j x Hx. rewrite Hactive. destruct (decide (KAlgo (meta x) = algo)) as [->|Hne];
      [rewrite lookup_insert_eq; eauto|]. rewrite lookup_insert_ne by done.
    apply Hold in Hx as [[-> ->]|(_ & x0 & H0 & ->)]; [by rewrite Hm, Ha in Hne|].
    pose proof (ri_some r Hr _ _ H0). rewrite Hmeta. by case_bool_decide.
Qed.

Lemma ring_inv_reachable r : rtc ring_step NewKeyRing r → ring_inv r.
Proof. intros H. pose proof ring_inv_new as H0. revert H0. induction H; eauto using ring_inv_step. Qed.

(** A key stays, with the same material, whatever is created later. *)
Lemma key_persists r r' :
  rtc ring_step r r' → ring_inv r → ∀ id e, keys r !! id = Some e →
  ∃ e', keys r' !! id = Some e' ∧ (∀ m s, entry_verify e' m s = entry_verify e m s).
Proof.
  induction 1 as [|r r1 r' H1 _ IH]; intros Hr id e He; [eauto|].
  pose proof (ring_inv_step _ _ H1 Hr) as Hr1. destruct H1 as [r now algo rnd r1 m Hok Hc].
  destruct (create_spec r now algo rnd r1 m Hr Hok Hc) as (e0 & _ & _ & _ & _ & _ & Hfresh & Hk & _).
  assert (keys r1 !! id = Some (if bool_decide (active r !! algo = Some id) then retired now e else e)) as He1.
  { rewrite Hk, bool_decide_false by congruence. rewrite He. by case_bool_decide. }
  destruct (IH Hr1 id _ He1) as (e' & He' & Hv). exists e'. split; [done|]. intros m' s'. rewrite Hv. by case_bool_decide.
Qed.

(** The life cycle of keys: per algorithm the active key is the one entry
    marked active, it is the newest and it exists as soon as there is a key;
    the versions are 1, 2, ... without gap or repetition; exactly the
    inactive keys carry a retirement time, and every identifier is derived from
    its key. *)
Theorem keyring_lifecycle r (Hr : rtc ring_step NewKeyRing r) :
  (∀ a id, active r !! a = Some id ↔
     ∃ e, keys r !! id = Some e ∧ KAlgo (meta e) = a ∧ Active (meta e) = true) ∧
  (∀ a id e, active r !! a = Some id → keys r !! id = Some e → Version (meta e) = max_version r a) ∧
  (∀ id e, keys r !! id = Some e → is_Some (active r !! KAlgo (meta e))) ∧
  (∀ a v, 1 <= v <= max_version r a ↔ ∃ id e, keys r !! id = Some e ∧ KAlgo (meta e) = a ∧ Version (meta e) = v) ∧
  (∀ id id' e e', keys r !! id = Some e → keys r !! id' = Some e' →
     KAlgo (meta e) = KAlgo (meta e') → Version (meta e) = Version (meta e') → id = id') ∧
  (∀ id e, keys r !! id = Some e →
     KAlgo (meta e) ∈ SupportedAlgos ∧ (Active (meta e) = true ↔ RetiredAt (meta e) = None) ∧
     id = makeKeyID (KAlgo (meta e)) (Version (meta e)) (publicBytes e)).
Proof.
  apply ring_inv_reachable in Hr. split_and!; [apply Hr|apply Hr|apply Hr| |apply Hr|].
  - intros a v. split; [apply (ri_all r Hr)|]. intros (id & e & He & <- & <-).
    split; [by apply (ri_described r Hr _ _ He)|by eapply ri_max].
  - intros id e He. destruct (ri_described r Hr _ _ He) as (Hg & _ & Hid & _ & Hact).
    split; [by apply generated_supported|]. split; [done|]. by rewrite <- Hid, (ri_id r Hr _ _ He).
Qed.

Lemma sign_verifies_later r r' algo m sig id :
  ring_inv r → rtc ring_step r r' → Sign r algo m = Ok (sig, id) → Verify r' id m sig = Ok true.
Proof.
  intros Hr Hr' Hs. unfold Sign, ActiveKeyID in Hs.
  destruct (active r !! algo) as [id'|] eqn:Ha; [|done]. destruct (bool_decide (id' = _)); [done|].
  apply result_bind_ok in Hs as (sig' & Hs & [= -> ->]). unfold SignWithKey in Hs.
  apply (ri_active r Hr) in Ha as (e & He & _). rewrite He in Hs.
  destruct (entry_correct e m (proj1 (ri_described r Hr _ _ He))) as (sig' & Hs' & Hv).
  destruct (key_persists r r' Hr' Hr id e He) as (e' & He' & Hve). unfold Verify. rewrite He', Hve. congruence.
Qed.

Lemma sign_succeeds r algo m :
  ring_inv r → 1 <= max_version r algo →
  ∃ sig id, Sign r algo m = Ok (sig, id) ∧ active r !! algo = Some id.
Proof.
  intros Hr Hkey. destruct (ri_all r Hr algo (max_version r algo)) as (j & x & Hx & Hxa & _); [lia|].
  destruct (ri_some r Hr _ _ Hx) as [id Hid]. rewrite Hxa in Hid.
  pose proof Hid as (e & He & _)%(ri_active r Hr).
  destruct (ri_described r Hr _ _ He) as (Hg & _ & Hmk & _). rewrite (ri_id r Hr _ _ He) in Hmk.
  destruct (entry_correct e m Hg) as (sig & Hs & Hv). exists sig, id. split; [|done].
  unfold Sign, ActiveKeyID, SignWithKey. rewrite Hid, bool_decide_false by (rewrite Hmk; apply makeKeyID_nonempty).
  by rewrite He, Hs.
Qed.

(** Signing never fails for an algorithm with a key, and the signature verifies
    under the returned key identifier in that ring and after any later
    rotation, retired or not. *)
Theorem ring_sign_verify r r' algo m
    (Hr : rtc ring_step NewKeyRing r) (Hr' : rtc ring_step r r') (Hkey : 1 <= max_version r algo) :
  ∃ sig id, Sign r algo m = Ok (sig, id) ∧ active r !! algo = Some id ∧ Verify r' id m sig = Ok true.
Proof.
  apply ring_inv_reachable in Hr. destruct (sign_succeeds r algo m Hr Hkey) as (sig & id & Hs & Ha).
  exists sig, id. split; [done|]. split; [done|]. by eapply sign_verifies_later.
Qed.

(** A migrated signature is only given for one that verified, and verifies. *)
Lemma migrate_sound r old m s algo sig id :
  rtc ring_step NewKeyRing r → MigrateSignature r old m s algo = Ok (sig, id) →
  Verify r old m s = Ok true ∧ Verify r id m sig = Ok true.
Proof.
  intros Hr. unfold MigrateSignature. destruct (Verify r old m s) as [[]|]; [|done..]. intros H. split; [done|].
  destruct (Sign r algo m) as [[sig' id']|] eqn:Hs; [|done]. injection H as -> ->.
  eapply sign_verifies_later; [by apply ring_inv_reachable|apply rtc_refl|done].
Qed.

(** ** Snapshots *)

(** The entries of a ring in the order of their listing. *)
Lemma listed_entries r : ∃ es, ListKeys r = meta <$> es ∧ es ≡ₚ (map_to_list (keys r)).*2.
Proof.
  assert (ListKeys r ≡ₚ map meta (map_to_list (keys r)).*2) as H by apply sort_slice_perm.
  destruct (Permutation_map_inv _ _ H) as (es & H1 & H2).
  exists es. split; [exact H1|by symmetry].
Qed.

(** [es] are the entries of [r]. *)
Definition entries_of r (es : list keyEntry) : Prop := ∀ e, e ∈ es ↔ keys r !! KID (meta e) = Some e.

Lemma listed_entries_of r es : ring_inv r → es ≡ₚ (map_to_list (keys r)).*2 → entries_of r es.
Proof.
  intros Hr Hp e. rewrite Hp, list_elem_of_fmap. split.
  - intros ([id x] & -> & Hx%elem_of_map_to_list). cbn in *. by rewrite (ri_id r Hr _ _ Hx).
  - intros H. exists (KID (meta e), e). split; [done|]. by apply elem_of_map_to_list.
Qed.

(** Rebuilding a ring from a list of entries, each changed by [f]. *)
Section rebuild.
Context (f : keyEntry (MPriv := MPriv) (MPub := MPub) → keyEntry (MPriv := MPriv) (MPub := MPub))
  (Hf : ∀ e, meta (f e) = meta e).

Definition rebuilt (es : list keyEntry) : KeyRing := foldl install NewKeyRing (f <$> es).

Lemma rebuilt_snoc es e : rebuilt (es ++ [e]) = install (rebuilt es) (f e).
Proof. unfold rebuilt. by rewrite fmap_app, foldl_app. Qed.

Lemma elem_snoc {A} (l : list A) z y : y ∈ l ++ [z] ↔ y ∈ l ∨ y = z.
Proof. by rewrite elem_of_app, list_elem_of_singleton. Qed.

Lemma rebuilt_keys es :
  (∀ e e', e ∈ es → e' ∈ es → KID (meta e) = KID (meta e') → e = e') →
  ∀ id x, keys (rebuilt es) !! id = Some x ↔ ∃ e, e ∈ es ∧ KID (meta e) = id ∧ x = f e.
Proof.
  induction es as [|e es IH] using rev_ind; intros Hinj id x.
  { cbn. rewrite lookup_empty. split; [done|]. by intros (? & ?%elem_of_nil & _). }
  setoid_rewrite elem_snoc in Hinj. setoid_rewrite elem_snoc.
  assert (∀ y y', y ∈ es → y' ∈ es → KID (meta y) = KID (meta y') → y = y') as Hinj' by auto.
  rewrite rebuilt_snoc. cbn [install keys]. rewrite Hf. destruct (decide (id = KID (meta e))) as [->|Hne].
  - rewrite lookup_insert_eq. split; [intros [= <-]; eauto|].
    intros (y & Hy & Hyid & ->). f_equal. f_equal. symmetry. by apply Hinj; [|right|].
  - rewrite lookup_insert_ne, IH by done. split; intros (y & Hy & Hyid & ->); exists y; [by auto|].
    destruct Hy as [Hy| ->]; [done|congruence].
Qed.

Lemma rebuilt_active es :
  (∀ e e', e ∈ es → e' ∈ es → KAlgo (meta e) = KAlgo (meta e') → Active (meta e) = true →
     Active (meta e') = true → KID (meta e) = KID (meta e')) →
  ∀ a id, active (rebuilt es) !! a = Some id ↔
    ∃ e, e ∈ es ∧ KAlgo (meta e) = a ∧ Active (meta e) = true ∧ KID (meta e) = id.
Proof.
  induction es as [|e es IH] using rev_ind; intros Huniq a id.
  { cbn. rewrite lookup_empty. split; [done|]. by intros (? & ?%elem_of_nil & _). }
  setoid_rewrite elem_snoc in Huniq. setoid_rewrite elem_snoc.
  assert (∀ y y', y ∈ es → y' ∈ es → KAlgo (meta y) = KAlgo (meta y') → Active (meta y) = true →
    Active (meta y') = true → KID (meta y) = KID (meta y')) as Huniq' by auto.
  rewrite rebuilt_snoc. cbn [install active]. rewrite Hf. destruct (Active (meta e)) eqn:Ha.
  - destruct (decide (a = KAlgo (meta e))) as [->|Hne].
    + rewrite lookup_insert_eq. split; [intros [= <-]; eauto 6|].
      intros (y & Hy & Hya & Hyact & <-). f_equal. by apply Huniq; [right| | | |].
    + rewrite lookup_insert_ne, IH by done. split; intros (y & Hy & Hya & ?); exists y; [by auto|].
      destruct Hy as [Hy| ->]; [done|congruence].
  - rewrite IH by done. split; intros (y & Hy & Hya & Hyact & ?); exists y; [by auto|].
    destruct Hy as [Hy| ->]; [done|congruence].
Qed.

Lemma rebuilt_max es :
  (∀ e, e ∈ es → 1 <= Version (meta e)) →
  (∀ a v, perAlgoMaxVersion (rebuilt es) !! a = Some v → ∃ e, e ∈ es ∧ KAlgo (meta e) = a ∧ Version (meta e) = v) ∧
  (∀ e, e ∈ es → ∃ v, perAlgoMaxVersion (rebuilt es) !! KAlgo (meta e) = Some v ∧ Version (meta e) <= v).
Proof.
  induction es as [|e es IH] using rev_ind; intros Hpos.
  { cbn. split; [by intros a v; rewrite lookup_empty|by intros e ?%elem_of_nil]. }
  setoid_rewrite elem_snoc in Hpos. setoid_rewrite elem_snoc.
  destruct IH as [IH1 IH2]; [auto|]. pose proof (Hpos e (or_intror eq_refl)) as Hpe.
  assert (∀ a v, perAlgoMaxVersion (rebuilt es) !! a = Some v →
    ∃ y, (y ∈ es ∨ y = e) ∧ KAlgo (meta y) = a ∧ Version (meta y) = v) as IH1'.
  { intros a v (y & ? & ? & ?)%IH1. eauto. }
  rewrite rebuilt_snoc. cbn [install perAlgoMaxVersion]. rewrite Hf. unfold max_version.
  destruct (Z.ltb_spec (default 0 (perAlgoMaxVersion (rebuilt es) !! KAlgo (meta e))) (Version (meta e))) as [Hlt|Hge].
  - split; [intros a v [[<- <-]|[_ H]]%lookup_insert_Some; [eauto|by apply IH1']|].
    intros y [Hy| ->]; [|rewrite lookup_insert_eq; eexists; split; [done|lia]].
    destruct (IH2 y Hy) as (v & Hv & Hle). destruct (decide (KAlgo (meta y) = KAlgo (meta e))) as [E|E].
    + rewrite E, lookup_insert_eq. eexists. split; [done|]. rewrite <- E, Hv in Hlt. cbn in Hlt. lia.
    + rewrite lookup_insert_ne by done. eauto.
  - split; [done|]. intros y [Hy| ->]; [by apply IH2|].
    destruct (perAlgoMaxVersion (rebuilt es) !! KAlgo (meta e)) as [v|]; cbn in Hge; [eauto|lia].
Qed.

Lemma rebuilt_ring r es :
  ring_inv r → entries_of r es →
  rebuilt es = {| keys := f <$> keys r; active := active r; perAlgoMaxVersion := perAlgoMaxVersion r |}.
Proof.
  intros Hr Hes.
  assert (∀ id e, keys r !! id = Some e ↔ e ∈ es ∧ KID (meta e) = id) as Hin.
  { intros id e. split; [|intros [? <-]; by apply Hes]. intros He. pose proof (ri_id r Hr _ _ He) as <-. split; [by apply Hes|done]. }
  assert (∀ e, e ∈ es → 1 <= Version (meta e)) as Hpos.
  { intros e He%Hes. by apply (ri_described r Hr _ _ He). }
  destruct (rebuilt_max es Hpos) as [Hm1 Hm2].
  assert (keys (rebuilt es) = f <$> keys r) as Hk.
  { apply map_eq. intros id. apply option_eq. intros x. rewrite rebuilt_keys, lookup_fmap, fmap_Some.
    - setoid_rewrite Hin. naive_solver.
    - intros e e' He%Hes He'%Hes E. rewrite E in He. congruence. }
  assert (active (rebuilt es) = active r) as Ha.
  { apply map_eq. intros a. apply option_eq. intros id. rewrite rebuilt_active, (ri_active r Hr).
    - setoid_rewrite Hin. naive_solver.
    - intros e e' He%Hes He'%Hes E H H'. assert (active r !! KAlgo (meta e) = Some (KID (meta e))) as G
        by (apply (ri_active r Hr); eauto).
      assert (active r !! KAlgo (meta e) = Some (KID (meta e'))) as G' by (apply (ri_active r Hr); rewrite E; eauto).
      congruence. }
  assert (perAlgoMaxVersion (rebuilt es) = perAlgoMaxVersion r) as Hm.
  { apply map_eq. intros a. apply option_eq. intros v.
    assert (∀ w, perAlgoMaxVersion (rebuilt es) !! a = Some w → max_version r a = w) as Hmv.
    { intros w Hw. destruct (Hm1 _ _ Hw) as (e & He & <- & <-).
      pose proof (ri_max r Hr _ _ (proj1 (Hes e) He)) as Hle. apply Z.le_antisymm; [|done].
      destruct (ri_all r Hr (KAlgo (meta e)) (max_version r (KAlgo (meta e)))) as (j & y & [Hy _]%Hin & Hya & Hyv).
      { specialize (Hpos e He). lia. }
      destruct (Hm2 y Hy) as (w & Hw' & Hle'). rewrite Hya in Hw'. rewrite Hw in Hw'. injection Hw' as <-. lia. }
    split; intros Hv.
    - pose proof (Hmv v Hv) as E. destruct (Hm1 _ _ Hv) as (e & He & _). specialize (Hpos e He).
      unfold max_version in E. destruct (perAlgoMaxVersion r !! a) eqn:Er; [cbn in E; congruence|].
      cbn in E. destruct (Hm1 _ _ Hv) as (e' & He' & _ & Hv'). specialize (Hm2 e' He'). apply Hes in He'.
      pose proof (proj1 (proj2 (proj2 (proj2 (ri_described r Hr _ _ He'))))). lia.
    - pose proof (ri_max_pos r Hr _ _ Hv). assert (max_version r a = v) as E by (unfold max_version; by rewrite Hv).
      destruct (ri_all r Hr a v) as (j & y & [Hy _]%Hin & Hya & Hyv); [lia|].
      destruct (Hm2 y Hy) as (w & Hw & _). rewrite Hya in Hw. by rewrite Hw, <- (Hmv w Hw), E. }
  destruct (rebuilt es). cbn in *. by rewrite Hk, Ha, Hm.
Qed.
End rebuild.

Lemma load_public_entries r0 es :
  (∀ e, e ∈ es → described e) →
  load_public r0 (meta <$> es) = Ok (foldl install r0 (public_half <$> es)).
Proof.
  revert r0. induction es as [|e es IH]; intros r0 Hd; cbn; [done|].
  rewrite hydrate_meta_described by (apply Hd; left). cbn [result_bind]. apply IH. intros. apply Hd. by right.
Qed.

Lemma load_full_entries r es :
  (∀ e, e ∈ es → described e ∧ keys r !! KID (meta e) = Some e) →
  ∃ kms, try_map (key_material r) (meta <$> es) = Ok kms ∧ ∀ r0, load_full r0 kms = Ok (foldl install r0 es).
Proof.
  induction es as [|e es IH]; intros Hd; cbn; [by exists []|].
  destruct IH as (kms & Hkms & Hload); [intros; apply Hd; by right|].
  destruct (Hd e ltac:(left)) as [Hde Hke]. destruct (hydrate_full_described e Hde) as (priv & pq & Hp & Hh).
  unfold key_material at 1. rewrite Hke. cbn [of_option result_bind]. rewrite Hp, Hkms. cbn [result_bind].
  eexists. split; [done|]. intros r0. cbn. rewrite Hh. cbn [result_bind]. apply Hload.
Qed.

(** A ring with the private halves removed. *)
Definition verify_only r : KeyRing (MPriv := MPriv) (MPub := MPub) :=
  {| keys := public_half <$> keys r; active := active r; perAlgoMaxVersion := perAlgoMaxVersion r |}.

(** The full snapshot of a ring in good order is defined and gives back the ring. *)
Lemma full_snapshot r : ring_inv r → ∃ doc, MarshalFull r = Ok doc ∧ LoadFullKeyRing doc = Ok r.
Proof.
  intros Hr. destruct (listed_entries r) as (es & Hl & Hp).
  pose proof (listed_entries_of r es Hr Hp) as Hes.
  assert (∀ e, e ∈ es → described e ∧ keys r !! KID (meta e) = Some e) as Hd.
  { intros e He%Hes. split; [by eapply ri_described|done]. }
  destruct (load_full_entries r es Hd) as (kms & Hk & Hload).
  exists {| DocVersion := 1; DocKeys := kms |}. unfold MarshalFull, LoadFullKeyRing. rewrite Hl, Hk. split; [done|].
  cbn. rewrite Hload. pose proof (rebuilt_ring id (λ e, eq_refl) r es Hr Hes) as H. unfold rebuilt in H.
  rewrite list_fmap_id in H. rewrite H, map_fmap_id. by destruct r.
Qed.

(** Snapshots round-trip: loading the full snapshot of a ring gives back exactly
    that ring; loading the public one gives the ring without its private
    halves, which verifies the same signatures and signs nothing. *)
Theorem snapshot_roundtrip r (Hr : rtc ring_step NewKeyRing r) :
  (∃ doc, MarshalFull r = Ok doc ∧ LoadFullKeyRing doc = Ok r) ∧
  LoadPublicKeyRing (MarshalPublic r) = Ok (verify_only r) ∧
  (∀ id m s, Verify (verify_only r) id m s = Verify r id m s) ∧
  (∀ id m, is_ok (SignWithKey (verify_only r) id m) = false).
Proof.
  apply ring_inv_reachable in Hr. destruct (listed_entries r) as (es & Hl & Hp).
  pose proof (listed_entries_of r es Hr Hp) as Hes.
  assert (∀ e, e ∈ es → described e ∧ keys r !! KID (meta e) = Some e) as Hd.
  { intros e He%Hes. split; [by eapply ri_described|done]. }
  split_and!.
  - by apply full_snapshot.
  - unfold LoadPublicKeyRing, MarshalPublic. rewrite Hl, load_public_entries by (intros; by apply Hd).
    f_equal. by apply (rebuilt_ring public_half).
  - intros id m s. unfold Verify, verify_only. cbn [keys]. rewrite lookup_fmap. by destruct (keys r !! id).
  - intros id m. unfold SignWithKey, verify_only. cbn [keys]. rewrite lookup_fmap.
    destruct (keys r !! id) as [e|]; [|done]. cbn. unfold entry_sign. cbn. by repeat case_bool_decide.
Qed.
End entries.

(** ** A concrete ring *)

Section example.
#[local] Existing Instance toy_primitives.
#[local] Existing Instance toy_laws.

Definition ex_entropy (b : Byte.byte) : entropy :=
  {| r_ed := Some [b]; r_ml := Some [b]; r_lamport := Some ex_lamport |}.

Definition ex_create (r : KeyRing (MPriv := bytes) (MPub := bytes)) (algo : string) (b : Byte.byte)
    : KeyRing (MPriv := bytes) (MPub := bytes) :=
  match CreateKey r 1000 algo (ex_entropy b) with Ok (r', _) => r' | Err _ => r end.

Definition ex_ring : KeyRing := ex_create (ex_create NewKeyRing AlgoEd25519 Byte.x01) AlgoHybrid Byte.x02.
Definition ex_rotated : KeyRing := ex_create ex_ring AlgoHybrid Byte.x03.

Lemma ex_step r algo b :
  is_ok (CreateKey r 1000 algo (ex_entropy b)) = true → ring_step r (ex_create r algo b).
Proof.
  intros H. unfold ex_create. destruct (CreateKey r 1000 algo (ex_entropy b)) as [[r' m]|] eqn:E; [|done].
  eapply (step_create r 1000 algo (ex_entropy b) r' m); [|done]. intros k [= <-]. exact ex_lamport_key.
Defined.

Lemma ex_ring_reachable : rtc ring_step NewKeyRing ex_ring.
Proof.
  eapply rtc_l; [apply (ex_step NewKeyRing AlgoEd25519 Byte.x01); vm_compute; reflexivity|].
  apply rtc_once. apply ex_step. vm_compute. reflexivity.
Defined.

Lemma keyring_lifecycle_witness :
  rtc ring_step NewKeyRing ex_ring ∧ max_version ex_ring AlgoHybrid = 1 ∧
  ∀ id e, keys ex_ring !! id = Some e → is_Some (active ex_ring !! KAlgo (meta e)).
Proof.
  split; [exact ex_ring_reachable|]. split; [vm_compute; reflexivity|].
  apply (keyring_lifecycle ex_ring ex_ring_reachable).
Defined.

Lemma ring_sign_verify_witness :
  ∃ sig id, Sign ex_ring AlgoHybrid (bytes_of "m") = Ok (sig, id) ∧
    active ex_rotated !! AlgoHybrid ≠ Some id ∧ Verify ex_rotated id (bytes_of "m") sig = Ok true.
Proof.
  assert (rtc ring_step ex_ring ex_rotated) as H
    by (apply rtc_once; apply ex_step; vm_compute; reflexivity).
  assert (1 <= max_version ex_ring AlgoHybrid) as Hm by (vm_compute; discriminate).
  destruct (ring_sign_verify ex_ring ex_rotated AlgoHybrid (bytes_of "m") ex_ring_reachable H Hm)
    as (sig & id & H1 & H2 & H3).
  exists sig, id. split; [exact H1|]. split; [|exact H3]. intros H4.
  assert (active ex_rotated !! AlgoHybrid ≠ active ex_ring !! AlgoHybrid) as Hne by (vm_compute; discriminate).
  apply Hne. by rewrite H4.
Defined.

Lemma snapshot_roundtrip_witness :
  rtc ring_step NewKeyRing ex_ring ∧ length (MarshalPublic ex_ring) = 2%nat ∧
  ∃ doc, MarshalFull ex_ring = Ok doc ∧ LoadFullKeyRing doc = Ok ex_ring.
Proof.
  split; [exact ex_ring_reachable|]. split; [vm_compute; reflexivity|].
  apply (snapshot_roundtrip ex_ring ex_ring_reachable).
Defined.

(** The ring signs again and again with one Lamport key: two messages, one key. *)
Definition ex_lamport_ring : KeyRing := ex_create NewKeyRing AlgoLamport Byte.x01.

Example lamport_key_reused :
  match Sign ex_lamport_ring AlgoLamport (bytes_of "a"), Sign ex_lamport_ring AlgoLamport (bytes_of "b") with
  | Ok (_, id), Ok (_, id') => id = id'
  | _, _ => False
  end.
Proof. vm_compute. reflexivity. Qed.
End example.
