(* ===== verification/Keystore.v ===== *)
(** * The keystore interface and its default backend
      ([engine/internal/crypto/keystore]: [keystore.go], [memory.go])

    [Keystore] has the methods of the Go interface that the receipt service
    uses; [KeystoreLaws] is what the interface promises of them.
    [MemoryKeystore] delegates to a key ring and satisfies the laws. *)

From S2P Require Import Prelude GoLib Sha256 Pq Keyring.
From stdpp Require Import relations.

Local Open Scope Z_scope.

Class Keystore (K : Type) := {
  ks_ActiveKeyID : K → string → option string;
  ks_Sign : K → string → bytes → result KeyringError (bytes * string);
  ks_Verify : K → string → bytes → bytes → result KeyringError bool;
}.

(** [ks_ready k algo]: [k] is in a state its operations lead to and has a key for
    [algo]; [ks_later]: a state reached by creating keys. *)
Class KeystoreLaws (K : Type) `{!Keystore K} := {
  ks_ready : K → string → Prop;
  ks_later : K → K → Prop;
  ks_sign_ok k algo m : ks_ready k algo → ∃ sig id, ks_Sign k algo m = Ok (sig, id) ∧ ks_ActiveKeyID k algo = Some id;
  ks_sign_verifies k k' algo m sig id :
    ks_ready k algo → ks_later k k' → ks_Sign k algo m = Ok (sig, id) → ks_Verify k' id m sig = Ok true;
  ks_id_plain k algo m sig id : ks_ready k algo → ks_Sign k algo m = Ok (sig, id) → no_char (chr 35) id = true;
}.

Section memory.
Context {MPriv MPub : Type} `{!Primitives MPriv MPub}.

Record MemoryKeystore := { ring : KeyRing (MPriv := MPriv) (MPub := MPub) }.

Definition NewMemory (r : option KeyRing) : MemoryKeystore :=
  {| ring := match r with Some r => r | None => NewKeyRing end |}.

Definition mem_CreateKey (k : MemoryKeystore) (now : time) (algo : string) (rnd : entropy)
    : result KeyringError (MemoryKeystore * KeyMeta) :=
  let! (r, m) := CreateKey (ring k) now algo rnd in Ok ({| ring := r |}, m).

Definition mem_RotateKey (k : MemoryKeystore) (now : time) (algo : string) (rnd : entropy)
    : result KeyringError (MemoryKeystore * KeyMeta) :=
  let! (r, m) := RotateKey (ring k) now algo rnd in Ok ({| ring := r |}, m).

Definition mem_ActiveKeyID (k : MemoryKeystore) (algo : string) : option string := ActiveKeyID (ring k) algo.
Definition mem_GetMeta (k : MemoryKeystore) (id : string) : result KeyringError KeyMeta := GetMeta (ring k) id.
Definition mem_List (k : MemoryKeystore) : list KeyMeta := ListKeys (ring k).
Definition mem_Sign (k : MemoryKeystore) (algo : string) (m : bytes) : result KeyringError (bytes * string) :=
  Sign (ring k) algo m.
Definition mem_SignWithKey (k : MemoryKeystore) (id : string) (m : bytes) : result KeyringError bytes :=
  SignWithKey (ring k) id m.
Definition mem_Verify (k : MemoryKeystore) (id : string) (m sig : bytes) : result KeyringError bool :=
  Verify (ring k) id m sig.
Definition mem_MigrateSignature (k : MemoryKeystore) (old : string) (m oldSig : bytes) (toAlgo : string)
    : result KeyringError (bytes * string) := MigrateSignature (ring k) old m oldSig toAlgo.

#[export] Instance memory_keystore : Keystore MemoryKeystore := {|
  ks_ActiveKeyID := mem_ActiveKeyID; ks_Sign := mem_Sign; ks_Verify := mem_Verify |}.

Context `{!PrimitivesLaws MPriv MPub}.

Lemma supported_plain a : a ∈ SupportedAlgos → no_char (chr 35) a = true.
Proof.
  unfold SupportedAlgos. rewrite !elem_of_cons, elem_of_nil. by intros [->|[->|[->|[->|[]]]]].
Qed.

Lemma no_char_app c s t : no_char c (s +:+ t) = no_char c s && no_char c t.
Proof. unfold no_char. induction s as [|d s IH]; [done|].
  change (String d s +:+ t)%string with (String d (s +:+ t)). cbn [string_forall]. by rewrite IH, andb_assoc. Qed.

Lemma hex_digit_plain n : 0 <= n < 16 → hex_digit n ≠ chr 35.
Proof.
  intros Hn. assert (forallb (λ k, negb (bool_decide (hex_digit (Z.of_nat k) = chr 35))) (seq 0 16) = true) as H by reflexivity.
  rewrite forallb_forall in H. specialize (H (Z.to_nat n) (proj2 (in_seq 16 0 (Z.to_nat n)) ltac:(lia))).
  rewrite Z2Nat.id in H by lia. by bool_to_prop.
Qed.

Lemma hex_encode_plain b : no_char (chr 35) (hex_encode b) = true.
Proof.
  induction b as [|x b IH]; [done|]. unfold no_char in *.
  change (hex_encode (x :: b)) with
    (String (hex_digit (byte_to_Z x / 16)) (String (hex_digit (byte_to_Z x mod 16)) (hex_encode b))).
  cbn [string_forall].
  destruct (byte_parts x) as (_ & _ & H1 & H2 & _).
  rewrite (bool_decide_false (hex_digit (byte_to_Z x / 16) = _)) by by apply hex_digit_plain.
  rewrite (bool_decide_false (hex_digit (byte_to_Z x mod 16) = _)) by by apply hex_digit_plain. done.
Qed.

Lemma makeKeyID_plain a v b : a ∈ SupportedAlgos → no_char (chr 35) (makeKeyID a v b) = true.
Proof.
  intros Ha. unfold makeKeyID. rewrite !no_char_app, supported_plain, hex_encode_plain, no_char_itoa by done. done.
Qed.

Lemma sign_active (r : KeyRing (MPriv := MPriv) (MPub := MPub)) algo m sig id :
  Sign r algo m = Ok (sig, id) → active r !! algo = Some id.
Proof.
  unfold Sign, ActiveKeyID. destruct (active r !! algo) as [j|]; [|done]. case_bool_decide; [done|].
  by intros (sig' & _ & [= _ ->])%result_bind_ok.
Qed.

Lemma ring_sign_ready (r : KeyRing (MPriv := MPriv) (MPub := MPub)) algo m :
  ring_inv r → 1 <= max_version r algo → ∃ sig id, Sign r algo m = Ok (sig, id) ∧ ActiveKeyID r algo = Some id.
Proof.
  intros Hr Hm. destruct (sign_succeeds r algo m Hr Hm) as (sig & id & Hs & Ha).
  exists sig, id. split; [exact Hs|]. unfold ActiveKeyID. rewrite Ha.
  apply (ri_active _ Hr) in Ha as (e & He & _). destruct (ri_described _ Hr _ _ He) as (_ & _ & Hmk & _).
  rewrite (ri_id _ Hr _ _ He) in Hmk. rewrite bool_decide_false; [done|]. rewrite Hmk. apply makeKeyID_nonempty.
Qed.

Lemma ring_id_plain (r : KeyRing (MPriv := MPriv) (MPub := MPub)) algo m sig id :
  ring_inv r → Sign r algo m = Ok (sig, id) → no_char (chr 35) id = true.
Proof.
  intros Hr Hs. apply sign_active in Hs. apply (ri_active _ Hr) in Hs as (e & He & _).
  destruct (ri_described _ Hr _ _ He) as (Hg & _ & Hmk & _). rewrite (ri_id _ Hr _ _ He) in Hmk. rewrite Hmk.
  apply makeKeyID_plain. by apply generated_supported.
Qed.

#[export] Program Instance memory_keystore_laws : KeystoreLaws MemoryKeystore := {|
  ks_ready k algo := ring_inv (ring k) ∧ 1 <= max_version (ring k) algo;
  ks_later k k' := rtc ring_step (ring k) (ring k');
|}.
Next Obligation. intros k algo m [Hr Hm]. by apply ring_sign_ready. Qed.
Next Obligation. intros k k' algo m sig id [Hr _] Hl Hs. exact (sign_verifies_later (ring k) (ring k') algo m sig id Hr Hl Hs). Qed.
Next Obligation. intros k algo m sig id [Hr _] Hs. exact (ring_id_plain (ring k) algo m sig id Hr Hs). Qed.
End memory.
