(* ===== verification/FileStore.v ===== *)
(** * The encrypted file keystore ([engine/internal/crypto/keystore/file.go])

    [FileKeystore] with its file format, its two-step replacement of the file and
    the re-encryption under a new passphrase. The file system is a map from paths
    to contents. The process may stop at any of the states [persist_trace] runs
    through (a partly written temporary file included), and a step may fail.

    Argon2id, ChaCha20-Poly1305 and the JSON text of the ring document are the
    class [Sealing]; [SealingLaws] states what is relied on. *)

From S2P Require Import Prelude GoLib Sha256 Pq Keyring Keystore.
From stdpp Require Import relations.

Local Open Scope Z_scope.

Class Sealing := {
  IDKey : bytes → bytes → bytes;                               (* passphrase, salt *)
  Seal : bytes → bytes → bytes → bytes → bytes;                (* key, nonce, plaintext, associated data *)
  Open : bytes → bytes → bytes → bytes → option bytes;         (* key, nonce, ciphertext, associated data *)
  ring_json : fullRingDoc → bytes;
  parse_ring : bytes → option fullRingDoc;
}.

Class SealingLaws `{!Sealing} := {
  open_seal k n p ad : Open k n (Seal k n p ad) ad = Some p;
  open_only_sealed k n c ad p : Open k n c ad = Some p → c = Seal k n p ad;
  parse_ring_json d : parse_ring (ring_json d) = Some d;
}.

Inductive FileError :=
| FRing (e : KeyringError) | FNotConfigured (what : string) | FMkdir | FStat | FRead | FTooSmall (n : Z) | FBadMagic
| FBadVersion (v : Z) | FDecrypt | FParse | FSalt | FNonce | FWriteTmp | FRename.

Definition fileMagic : bytes := bytes_of "CPFK".
Definition fileFormatV1 : Z := 1.
Definition argon2SaltLen : nat := 16.
Definition NonceSize : nat := 12.
Definition fileHeaderSize : nat := 4 + 2 + argon2SaltLen + NonceSize.

Notation files := (gmap string bytes).

(** How the two system calls of a replacement end: the write of the temporary file
    may not start or stop after [n] bytes, the rename may fail, and then the
    removal of the temporary file may fail as well. *)
Inductive io := IoOk | IoNoWrite | IoPartial (n : nat) | IoNoRename (removed : bool).

Definition tmp_of (path : string) : string := (path +:+ ".tmp")%string.

Definition replace_file (fs : files) (path : string) (out : bytes) (o : io) : files * result FileError () :=
  match o with
  | IoNoWrite => (fs, Err FWriteTmp)
  | IoPartial n => (<[tmp_of path := take n out]> fs, Err FWriteTmp)
  | IoNoRename removed =>
      (if removed then delete (tmp_of path) fs else <[tmp_of path := out]> fs, Err FRename)
  | IoOk => (<[path := out]> (delete (tmp_of path) fs), Ok ())
  end.

(** The states the file system runs through before the rename. *)
Definition before_rename (fs : files) (path : string) (out : bytes) : list files :=
  fs :: ((λ n, <[tmp_of path := take n out]> fs) <$> seq 0 (S (length out))).

Section file.
Context {MPriv MPub : Type} `{!Primitives MPriv MPub, !Sealing}.

Record FileKeystore := { fpath : string; fpass : bytes; fring : KeyRing (MPriv := MPriv) (MPub := MPub) }.

Definition with_ring (fk : FileKeystore) (r : KeyRing) : FileKeystore :=
  {| fpath := fpath fk; fpass := fpass fk; fring := r |}.

Definition with_pass (fk : FileKeystore) (p : bytes) : FileKeystore :=
  {| fpath := fpath fk; fpass := p; fring := fring fk |}.

(** The bytes of the file, [None] being a failed read of the random source. *)
Definition sealed_file (pass : bytes) (r : KeyRing) (salt nonce : option bytes) : result FileError bytes :=
  match MarshalFull r with
  | Err e => Err (FRing e)
  | Ok doc =>
      match salt, nonce with
      | None, _ => Err FSalt
      | Some _, None => Err FNonce
      | Some salt, Some nonce =>
          Ok (fileMagic ++ [byte_of_Z (fileFormatV1 / 256); byte_of_Z fileFormatV1] ++ salt ++ nonce ++
              Seal (IDKey pass salt) nonce (ring_json doc) fileMagic)
      end
  end.

Definition persist (fk : FileKeystore) (fs : files) (salt nonce : option bytes) (o : io) : files * result FileError () :=
  match sealed_file (fpass fk) (fring fk) salt nonce with
  | Err e => (fs, Err e)
  | Ok out => replace_file fs (fpath fk) out o
  end.

Definition load (pass raw : bytes) : result FileError KeyRing :=
  if (length raw <? fileHeaderSize)%nat then Err (FTooSmall (Z.of_nat (length raw)))
  else if negb (bool_decide (take 4 raw = fileMagic)) then Err FBadMagic
  else
    let ver := Z.lor (Z.shiftl (byte_to_Z (nth 4 raw Byte.x00)) 8) (byte_to_Z (nth 5 raw Byte.x00)) in
    if negb (ver =? fileFormatV1) then Err (FBadVersion ver)
    else
      let salt := slice_at raw 6 argon2SaltLen in
      let nonce := slice_at raw (6 + argon2SaltLen) NonceSize in
      match Open (IDKey pass salt) nonce (drop fileHeaderSize raw) fileMagic with
      | None => Err FDecrypt
      | Some plaintext =>
          match parse_ring plaintext with
          | None => Err FParse
          | Some doc => match LoadFullKeyRing doc with Ok r => Ok r | Err e => Err (FRing e) end
          end
      end.

(** [mkdir] and [stat] say whether these calls succeed; a file that is there can be read. *)
Definition NewFile (fs : files) (path : string) (passphrase : bytes) (mkdir stat : bool) : result FileError FileKeystore :=
  if bool_decide (path = "")%string then Err (FNotConfigured "CP_KEYSTORE_PATH is empty")
  else if bool_decide (passphrase = []) then Err (FNotConfigured "CP_KEYSTORE_PASSPHRASE is empty")
  else if negb mkdir then Err FMkdir
  else if negb stat then Err FStat
  else
    match fs !! path with
    | None => Ok {| fpath := path; fpass := passphrase; fring := NewKeyRing |}
    | Some raw => let! r := load passphrase raw in Ok {| fpath := path; fpass := passphrase; fring := r |}
    end.

Definition file_CreateKey (fk : FileKeystore) (fs : files) (now : time) (algo : string) (rnd : entropy)
    (salt nonce : option bytes) (o : io) : FileKeystore * files * result FileError KeyMeta :=
  match CreateKey (fring fk) now algo rnd with
  | Err e => (fk, fs, Err (FRing e))
  | Ok (r, m) =>
      let fk1 := with_ring fk r in
      match persist fk1 fs salt nonce o with
      | (fs', Ok _) => (fk1, fs', Ok m)
      | (fs', Err e) => (fk1, fs', Err e)
      end
  end.

Definition file_RotateKey := file_CreateKey.

Definition file_MigrateSignature (fk : FileKeystore) (fs : files) (old : string) (m oldSig : bytes) (toAlgo : string)
    (salt nonce : option bytes) (o : io) : FileKeystore * files * result FileError (bytes * string) :=
  match MigrateSignature (fring fk) old m oldSig toAlgo with
  | Err e => (fk, fs, Err (FRing e))
  | Ok out =>
      match persist fk fs salt nonce o with
      | (fs', Ok _) => (fk, fs', Ok out)
      | (fs', Err e) => (fk, fs', Err e)
      end
  end.

Definition Rewrap (fk : FileKeystore) (fs : files) (newPassphrase : bytes) (salt nonce : option bytes) (o : io)
    : FileKeystore * files * result FileError () :=
  if bool_decide (newPassphrase = []) then (fk, fs, Err (FNotConfigured "empty new passphrase"))
  else
    match persist (with_pass fk newPassphrase) fs salt nonce o with
    | (fs', Ok _) => (with_pass fk newPassphrase, fs', Ok ())
    | (fs', Err e) => (fk, fs', Err e)
    end.

Definition file_ActiveKeyID (fk : FileKeystore) (algo : string) : option string := ActiveKeyID (fring fk) algo.
Definition file_GetMeta (fk : FileKeystore) (id : string) : result KeyringError KeyMeta := GetMeta (fring fk) id.
Definition file_List (fk : FileKeystore) : list KeyMeta := ListKeys (fring fk).
Definition file_Sign (fk : FileKeystore) (algo : string) (m : bytes) : result KeyringError (bytes * string) :=
  Sign (fring fk) algo m.
Definition file_SignWithKey (fk : FileKeystore) (id : string) (m : bytes) : result KeyringError bytes :=
  SignWithKey (fring fk) id m.
Definition file_Verify (fk : FileKeystore) (id : string) (m sig : bytes) : result KeyringError bool :=
  Verify (fring fk) id m sig.
Definition PublicSnapshot (fk : FileKeystore) : list KeyMeta := MarshalPublic (fring fk).

#[export] Instance file_keystore : Keystore FileKeystore := {|
  ks_ActiveKeyID := file_ActiveKeyID; ks_Sign := file_Sign; ks_Verify := file_Verify |}.

(** ** The keystore over time *)

(** A running process with its files, or the files a stopped process left behind
    with the passphrase that opens them. *)
Inductive sys := Running (fk : FileKeystore) (fs : files) | Down (path : string) (pass : bytes) (fs : files).

Definition outcome_state {A} (x : FileKeystore * files * result FileError A) : sys := Running x.1.1 x.1.2.

(** A replacement of the file that the process does not survive. *)
Inductive crash_in (fk : FileKeystore) (fs : files) (old : bytes) : sys → Prop :=
| crash_sealed salt nonce out fs' :
    sealed_file (fpass fk) (fring fk) (Some salt) (Some nonce) = Ok out →
    length salt = argon2SaltLen → length nonce = NonceSize → fs' ∈ before_rename fs (fpath fk) out →
    crash_in fk fs old (Down (fpath fk) old fs')
| crash_renamed salt nonce out :
    sealed_file (fpass fk) (fring fk) (Some salt) (Some nonce) = Ok out →
    length salt = argon2SaltLen → length nonce = NonceSize →
    crash_in fk fs old (Down (fpath fk) (fpass fk) (replace_file fs (fpath fk) out IoOk).1).

Definition drawn (n : nat) (o : option bytes) : Prop := ∀ b, o = Some b → length b = n.

Inductive sys_step : sys → sys → Prop :=
| sys_create fk fs now algo rnd salt nonce o :
    entropy_ok rnd → drawn argon2SaltLen salt → drawn NonceSize nonce →
    sys_step (Running fk fs) (outcome_state (file_CreateKey fk fs now algo rnd salt nonce o))
| sys_migrate fk fs old m s algo salt nonce o :
    drawn argon2SaltLen salt → drawn NonceSize nonce →
    sys_step (Running fk fs) (outcome_state (file_MigrateSignature fk fs old m s algo salt nonce o))
| sys_rewrap fk fs p salt nonce o :
    drawn argon2SaltLen salt → drawn NonceSize nonce →
    sys_step (Running fk fs) (outcome_state (Rewrap fk fs p salt nonce o))
| sys_crash_create fk fs now algo rnd r m σ :
    entropy_ok rnd → CreateKey (fring fk) now algo rnd = Ok (r, m) →
    crash_in (with_ring fk r) fs (fpass fk) σ → sys_step (Running fk fs) σ
| sys_crash_persist fk fs σ : crash_in fk fs (fpass fk) σ → sys_step (Running fk fs) σ
| sys_crash_rewrap fk fs p σ :
    p ≠ [] → crash_in (with_pass fk p) fs (fpass fk) σ → sys_step (Running fk fs) σ
| sys_stop fk fs : sys_step (Running fk fs) (Down (fpath fk) (fpass fk) fs)
| sys_restart path pass fs fk :
    NewFile fs path pass true true = Ok fk → sys_step (Down path pass fs) (Running fk fs).

Inductive sys_start : sys → Prop :=
| sys_first fs path pass fk : fs !! path = None → NewFile fs path pass true true = Ok fk → sys_start (Running fk fs).

Definition sys_reachable (σ : sys) : Prop := ∃ σ0, sys_start σ0 ∧ rtc sys_step σ0 σ.

(** The ring that a restart would find. *)
Definition ring_on_disk (fs : files) (path : string) (pass : bytes) : result FileError KeyRing :=
  match fs !! path with None => Ok NewKeyRing | Some raw => load pass raw end.

Definition disk_of (σ : sys) : result FileError KeyRing :=
  match σ with
  | Running fk fs => ring_on_disk fs (fpath fk) (fpass fk)
  | Down path pass fs => ring_on_disk fs path pass
  end.
End file.

(** ** The file format *)

Lemma tmp_of_ne path : tmp_of path ≠ path.
Proof.
  unfold tmp_of. induction path as [|c path IH]; [done|]. intros [= H]. exact (IH H).
Qed.

Section facts.
Context {MPriv MPub : Type} `{!Primitives MPriv MPub, !PrimitivesLaws MPriv MPub, !Sealing, !SealingLaws}.
Implicit Types (r : KeyRing (MPriv := MPriv) (MPub := MPub)) (fk : FileKeystore (MPriv := MPriv) (MPub := MPub)).
Implicit Types (fs : files) (σ : sys (MPriv := MPriv) (MPub := MPub)).

Lemma file_parts (salt nonce c : bytes) : length salt = argon2SaltLen → length nonce = NonceSize →
  let raw := fileMagic ++ [byte_of_Z (fileFormatV1 / 256); byte_of_Z fileFormatV1] ++ salt ++ nonce ++ c in
  (fileHeaderSize ≤ length raw)%nat ∧ take 4 raw = fileMagic ∧
  Z.lor (Z.shiftl (byte_to_Z (nth 4 raw Byte.x00)) 8) (byte_to_Z (nth 5 raw Byte.x00)) = fileFormatV1 ∧
  slice_at raw 6 argon2SaltLen = salt ∧ slice_at raw (6 + argon2SaltLen) NonceSize = nonce ∧ drop fileHeaderSize raw = c.
Proof.
  intros Hs Hn raw. unfold fileHeaderSize, slice_at.
  assert (drop 6 raw = salt ++ nonce ++ c) as H6 by done.
  assert (drop (6 + argon2SaltLen) raw = nonce ++ c) as H22 by (rewrite <- drop_drop, H6; by apply drop_app_length').
  split_and!; try done.
  - subst raw. rewrite !length_app, Hs, Hn. unfold argon2SaltLen, NonceSize. cbn -[Nat.add Nat.le]. lia.
  - rewrite H6. by apply take_app_length'.
  - rewrite H22. by apply take_app_length'.
  - change (4 + 2 + argon2SaltLen + NonceSize)%nat with ((6 + argon2SaltLen) + NonceSize)%nat.
    rewrite <- drop_drop, H22. by apply drop_app_length'.
Qed.

(** What is sealed is read back. *)
Lemma load_sealed pass r salt nonce out :
  ring_inv r → length salt = argon2SaltLen → length nonce = NonceSize →
  sealed_file pass r (Some salt) (Some nonce) = Ok out → load pass out = Ok r.
Proof.
  intros Hr Hs Hn. unfold sealed_file. destruct (full_snapshot r Hr) as (doc & -> & Hload). intros <-%ok_inj.
  destruct (file_parts salt nonce (Seal (IDKey pass salt) nonce (ring_json doc) fileMagic) Hs Hn)
    as (H1 & H2 & H3 & H4 & H5 & H6).
  unfold load. rewrite (proj2 (Nat.ltb_ge _ _) H1), (bool_decide_true _ H2), H3, H4, H5, H6.
  cbn [negb]. by rewrite Z.eqb_refl, open_seal, parse_ring_json, Hload.
Qed.

(** Only what was sealed under the passphrase is read. *)
Lemma load_only_sealed pass raw r :
  load pass raw = Ok r →
  ∃ salt nonce plaintext doc, length salt = argon2SaltLen ∧ length nonce = NonceSize ∧
    raw = fileMagic ++ take 2 (drop 4 raw) ++ salt ++ nonce ++ Seal (IDKey pass salt) nonce plaintext fileMagic ∧
    parse_ring plaintext = Some doc ∧ LoadFullKeyRing doc = Ok r.
Proof.
  unfold load. destruct (length raw <? fileHeaderSize)%nat eqn:Hlen; [done|]. apply Nat.ltb_ge in Hlen.
  case_bool_decide as Hm; [|done]. cbn [negb]. case_match; [done|].
  set (salt := slice_at raw 6 argon2SaltLen). set (nonce := slice_at raw (6 + argon2SaltLen) NonceSize).
  destruct (Open _ _ _ _) as [p|] eqn:Ho; [|done]. apply open_only_sealed in Ho.
  destruct (parse_ring p) as [doc|] eqn:Hp; [|done]. destruct (LoadFullKeyRing doc) as [r'|] eqn:Hr; [|done].
  intros [= ->]. exists salt, nonce, p, doc. unfold fileHeaderSize, argon2SaltLen, NonceSize in Hlen.
  split_and!; [unfold salt|unfold nonce| |done..].
  1,2: unfold slice_at; rewrite length_take, length_drop; unfold argon2SaltLen, NonceSize; lia.
  rewrite <- Ho, <- Hm. unfold salt, nonce, slice_at, fileHeaderSize.
  change (4 + 2 + argon2SaltLen + NonceSize)%nat with (22 + 12)%nat.
  change (6 + argon2SaltLen)%nat with 22%nat. unfold argon2SaltLen, NonceSize.
  rewrite <- (drop_drop raw 12 22). rewrite (take_drop 12 (drop 22 raw)).
  change 22%nat with (6 + 16)%nat. rewrite <- (drop_drop raw 16 6), (take_drop 16).
  change 6%nat with (4 + 2)%nat at 1. rewrite <- (drop_drop raw 2 4), (take_drop 2). by rewrite take_drop.
Qed.

(** ** Replacements *)

Lemma lookup_before_rename fs path out fs' : fs' ∈ before_rename fs path out → fs' !! path = fs !! path.
Proof.
  unfold before_rename. rewrite elem_of_cons, list_elem_of_fmap. intros [->|(n & -> & _)]; [done|].
  rewrite lookup_insert_ne; [done|apply tmp_of_ne].
Qed.

Lemma replace_file_spec fs path out o fs' res : replace_file fs path out o = (fs', res) →
  match res with Ok _ => fs' !! path = Some out | Err _ => fs' !! path = fs !! path end.
Proof.
  pose proof (tmp_of_ne path). destruct o as [| | |[]]; cbn; intros [= <- <-]; try done.
  - apply lookup_insert_eq.
  - by rewrite lookup_insert_ne.
  - by rewrite lookup_delete_ne.
  - by rewrite lookup_insert_ne.
Qed.

Lemma sealed_drawn pass r salt nonce out : drawn argon2SaltLen salt → drawn NonceSize nonce →
  sealed_file pass r salt nonce = Ok out →
  ∃ s n, salt = Some s ∧ nonce = Some n ∧ length s = argon2SaltLen ∧ length n = NonceSize.
Proof.
  intros Hs Hn. unfold sealed_file. destruct (MarshalFull r); [|done]. destruct salt as [s|]; [|done].
  destruct nonce as [n|]; [|done]. intros _. exists s, n. split_and!; [done..|by apply Hs|by apply Hn].
Qed.

(** A persist either leaves the file as it was and fails, or puts the ring on disk. *)
Lemma persist_spec fk fs salt nonce o fs' res :
  ring_inv (fring fk) → drawn argon2SaltLen salt → drawn NonceSize nonce → persist fk fs salt nonce o = (fs', res) →
  match res with
  | Ok _ => ring_on_disk fs' (fpath fk) (fpass fk) = Ok (fring fk)
  | Err _ => fs' !! fpath fk = fs !! fpath fk
  end.
Proof.
  intros Hr Hs Hn. unfold persist. destruct (sealed_file _ _ _ _) as [out|e] eqn:Hout; [|by intros [= <- <-]].
  intros Hrep. pose proof (replace_file_spec _ _ _ _ _ _ Hrep) as Hsp. destruct res; [|done].
  destruct (sealed_drawn _ _ _ _ _ Hs Hn Hout) as (s & n & -> & -> & Hls & Hln).
  unfold ring_on_disk. rewrite Hsp. by eapply load_sealed.
Qed.

(** With the random source and the system calls working, a persist succeeds. *)
Lemma persist_ok fk fs salt nonce :
  ring_inv (fring fk) → ∃ fs', persist fk fs (Some salt) (Some nonce) IoOk = (fs', Ok ()).
Proof.
  intros Hr. unfold persist, sealed_file. destruct (full_snapshot _ Hr) as (doc & -> & _). by eexists.
Qed.
(** ** Durability *)

(** The disk holds a ring that key creations lead to, and a running process is at
    that ring or ahead of it. *)
Definition durable σ r : Prop :=
  disk_of σ = Ok r ∧ rtc ring_step NewKeyRing r ∧
  match σ with
  | Running fk _ => rtc ring_step r (fring fk) ∧ fpath fk ≠ ""%string ∧ fpass fk ≠ []
  | Down path pass _ => path ≠ ""%string ∧ pass ≠ []
  end.

Lemma durable_ring fk fs r : durable (Running fk fs) r → ring_inv (fring fk).
Proof. intros (_ & H1 & H2 & _). apply ring_inv_reachable. by transitivity r. Qed.

Lemma unchanged_disk fs fs' path pass :
  fs' !! path = fs !! path → ring_on_disk (MPriv := MPriv) (MPub := MPub) fs' path pass = ring_on_disk fs path pass.
Proof. unfold ring_on_disk. by intros ->. Qed.

(** A persist of a later ring, under the old or a new passphrase. *)
Lemma durable_persist fk fk1 fs fs' r salt nonce o res :
  durable (Running fk fs) r → fpath fk1 = fpath fk → fpass fk1 ≠ [] → rtc ring_step (fring fk) (fring fk1) →
  drawn argon2SaltLen salt → drawn NonceSize nonce → persist fk1 fs salt nonce o = (fs', res) →
  match res with
  | Ok _ => durable (Running fk1 fs') (fring fk1) ∧ rtc ring_step r (fring fk1)
  | Err _ => durable (Running (with_ring fk (fring fk1)) fs') r
  end.
Proof.
  intros (Hd & Hr & Hl & Hp & Hpp) Hpath Hpass Hst Hs Hn Hper.
  assert (rtc ring_step NewKeyRing (fring fk1)) as Hr1 by (transitivity r; [done|by transitivity (fring fk)]).
  pose proof (persist_spec _ _ _ _ _ _ _ (ring_inv_reachable _ Hr1) Hs Hn Hper) as Hsp.
  destruct res; unfold durable.
  - split; [split; [done|]|by transitivity (fring fk)]. split; [done|]. rewrite Hpath. by split_and!.
  - rewrite Hpath in Hsp. split; [|split; [done|]].
    + cbn [disk_of with_ring fpath fpass]. by rewrite (unchanged_disk fs).
    + cbn. split_and!; try done. by transitivity (fring fk).
Qed.

Lemma durable_crash fk fk1 fs r σ :
  durable (Running fk fs) r → fpath fk1 = fpath fk → fpass fk1 ≠ [] → rtc ring_step (fring fk) (fring fk1) →
  crash_in fk1 fs (fpass fk) σ → ∃ r', durable σ r' ∧ rtc ring_step r r'.
Proof.
  intros (Hd & Hr & Hl & Hp & Hpp) Hpath Hpass Hst Hc.
  assert (rtc ring_step r (fring fk1)) as Hr1 by by transitivity (fring fk).
  destruct Hc as [salt nonce out fs' Ho Hs Hn Hin|salt nonce out Ho Hs Hn].
  - exists r. split; [|apply rtc_refl]. split; [|split; [done|by rewrite Hpath]].
    cbn [disk_of]. rewrite Hpath. rewrite (unchanged_disk fs); [done|].
    rewrite <- Hpath. by eapply lookup_before_rename.
  - exists (fring fk1). split; [|done]. split; [|split; [by transitivity r|by rewrite Hpath]].
    cbn [disk_of]. unfold ring_on_disk. cbn. rewrite lookup_insert_eq.
    eapply load_sealed; [|done..]. apply ring_inv_reachable. by transitivity r.
Qed.

Lemma durable_step σ σ' r : sys_step σ σ' → durable σ r → ∃ r', durable σ' r' ∧ rtc ring_step r r'.
Proof.
  intros Hst Hd. destruct Hst as
    [fk fs now algo rnd salt nonce o He Hs Hn|fk fs old m s algo salt nonce o Hs Hn|fk fs p salt nonce o Hs Hn
    |fk fs now algo rnd r1 m σ He Hc Hcr|fk fs σ Hcr|fk fs p σ Hp Hcr|fk fs|path pass fs fk Hnew].
  - unfold file_CreateKey, outcome_state. destruct (CreateKey (fring fk) now algo rnd) as [[r1 m]|e] eqn:Hc;
      [|exists r; split; [done|apply rtc_refl]].
    destruct (persist (with_ring fk r1) fs salt nonce o) as [fs' res] eqn:Hper.
    pose proof (durable_persist fk (with_ring fk r1) fs fs' r salt nonce o res Hd eq_refl (proj2 (proj2 (proj2 (proj2 Hd))))
      (rtc_once _ _ (step_create _ _ _ _ _ _ He Hc)) Hs Hn Hper) as Hres.
    destruct res; cbn [fst snd]; [by exists r1|]. exists r. split; [done|apply rtc_refl].
  - unfold file_MigrateSignature, outcome_state. destruct (MigrateSignature _ _ _ _ _) as [out|e];
      [|exists r; split; [done|apply rtc_refl]].
    destruct (persist fk fs salt nonce o) as [fs' res] eqn:Hper.
    pose proof (durable_persist fk fk fs fs' r salt nonce o res Hd eq_refl (proj2 (proj2 (proj2 (proj2 Hd))))
      (rtc_refl _ _) Hs Hn Hper) as Hres.
    destruct res; cbn [fst snd]; [by exists (fring fk)|]. exists r. split; [by destruct fk|apply rtc_refl].
  - unfold Rewrap, outcome_state. case_bool_decide as Hp; [exists r; split; [done|apply rtc_refl]|].
    destruct (persist (with_pass fk p) fs salt nonce o) as [fs' res] eqn:Hper.
    pose proof (durable_persist fk (with_pass fk p) fs fs' r salt nonce o res Hd eq_refl Hp (rtc_refl _ _) Hs Hn Hper) as Hres.
    destruct res; cbn [fst snd]; [by exists (fring fk)|]. exists r. split; [by destruct fk|apply rtc_refl].
  - exact (durable_crash fk (with_ring fk r1) fs r σ Hd eq_refl (proj2 (proj2 (proj2 (proj2 Hd))))
      (rtc_once _ _ (step_create _ _ _ _ _ _ He Hc)) Hcr).
  - exact (durable_crash fk fk fs r σ Hd eq_refl (proj2 (proj2 (proj2 (proj2 Hd)))) (rtc_refl _ _) Hcr).
  - exact (durable_crash fk (with_pass fk p) fs r σ Hd eq_refl Hp (rtc_refl _ _) Hcr).
  - exists r. split; [|apply rtc_refl]. destruct Hd as (Hd & Hr & _ & Hp & Hpp). done.
  - exists r. split; [|apply rtc_refl]. destruct Hd as (Hd & Hr & Hp & Hpp). revert Hd Hnew. unfold NewFile.
    rewrite (bool_decide_false (path = _)), (bool_decide_false (pass = _)) by done. cbn [negb disk_of]. unfold ring_on_disk.
    destruct (fs !! path) as [raw|] eqn:Hraw.
    + intros Hload (r1 & Hr1 & <-%ok_inj)%result_bind_ok. rewrite Hload in Hr1. injection Hr1 as <-.
      split; [|split; [done|cbn; split; [apply rtc_refl|done]]]. cbn. unfold ring_on_disk. by rewrite Hraw.
    + intros <-%ok_inj <-%ok_inj. split; [|split; [done|cbn; split; [apply rtc_refl|done]]]. cbn. unfold ring_on_disk. by rewrite Hraw.
Qed.

Lemma durable_steps σ σ' r : rtc sys_step σ σ' → durable σ r → ∃ r', durable σ' r' ∧ rtc ring_step r r'.
Proof.
  intros Hst. revert r. induction Hst as [σ|σ σ1 σ' H1 _ IH]; intros r Hd; [exists r; split; [done|apply rtc_refl]|].
  destruct (durable_step _ _ _ H1 Hd) as (r1 & Hd1 & Hr1). destruct (IH r1 Hd1) as (r' & Hd' & Hr'). exists r'.
  split; [done|]. by transitivity r1.
Qed.

Lemma durable_reachable σ : sys_reachable σ → ∃ r, durable σ r.
Proof.
  intros (σ0 & [fs path pass fk Hfree Hnew] & Hst).
  assert (durable (Running fk fs) NewKeyRing) as Hnk.
  { revert Hnew. unfold NewFile. case_bool_decide as Hp; [done|]. case_bool_decide as Hpp; [done|]. cbn [negb].
    rewrite Hfree. intros <-%ok_inj. unfold durable. cbn. unfold ring_on_disk. rewrite Hfree. split_and!; try done; apply rtc_refl. }
  destruct (durable_steps _ _ _ Hst Hnk) as (r & Hd & _). by exists r.
Qed.

Lemma restart_durable path pass fs r :
  durable (Down path pass fs) r → NewFile fs path pass true true = Ok {| fpath := path; fpass := pass; fring := r |}.
Proof.
  intros (Hd & _ & Hp & Hpp). unfold NewFile. rewrite (bool_decide_false (path = _)), (bool_decide_false (pass = _)) by done.
  cbn [negb]. cbn in Hd. unfold ring_on_disk in Hd. destruct (fs !! path); [by rewrite Hd|]. by injection Hd as <-.
Qed.
(** The key [CreateKey] answers with is in the ring. *)
Lemma created_key fk fs now algo rnd salt nonce o fk' fs' m :
  entropy_ok rnd → file_CreateKey fk fs now algo rnd salt nonce o = (fk', fs', Ok m) → ring_inv (fring fk) →
  (GetMeta (fring fk') (KID m) = Ok m ∧ KAlgo m = algo) ∧ 1 <= max_version (fring fk') algo.
Proof.
  intros Hrnd Hack Hr. revert Hack. unfold file_CreateKey. destruct (CreateKey _ _ _ _) as [[r1 m1]|e] eqn:Hc; [|done].
  destruct (persist _ _ _ _ _) as [fs1 [[]|e]]; [|done]. intros [= <- <- <-]. cbn [fring with_ring].
  pose proof (ring_inv_step _ _ (step_create _ _ _ _ _ _ Hrnd Hc) Hr) as Hr1.
  destruct (create_spec _ _ _ _ _ _ Hr Hrnd Hc) as (e & _ & Hme & Ha & _ & _ & _ & Hk & _).
  assert (keys r1 !! KID m1 = Some e) as He by by rewrite Hk, bool_decide_true.
  split; [unfold GetMeta; rewrite He; by subst|].
  pose proof (ri_max _ Hr1 _ _ He) as Hv. destruct (ri_described _ Hr1 _ _ He) as (_ & _ & _ & Hpos & _).
  rewrite Hme, Ha in *. lia.
Qed.

(** A key keeps its algorithm and public key whatever is created later. *)
Lemma created_meta r r' m algo :
  ring_inv r → rtc ring_step r r' → GetMeta r (KID m) = Ok m → KAlgo m = algo →
  ∃ m', GetMeta r' (KID m) = Ok m' ∧ KAlgo m' = algo ∧ PublicKey m' = PublicKey m.
Proof.
  intros Hr Hst. revert Hr. enough (∀ m0, ring_inv r → GetMeta r (KID m) = Ok m0 →
    ∃ m', GetMeta r' (KID m) = Ok m' ∧ KAlgo m' = KAlgo m0 ∧ PublicKey m' = PublicKey m0) as Hall.
  { intros Hr Hm <-. exact (Hall m Hr Hm). }
  induction Hst as [r|r r1 r' H1 _ IH]; intros m0 Hr Hm; [eauto|].
  pose proof (ring_inv_step _ _ H1 Hr) as Hr1. destruct H1 as [r now a rnd r1 m1 Hok Hc].
  destruct (create_spec r now a rnd r1 m1 Hr Hok Hc) as (e0 & _ & _ & _ & _ & _ & Hfresh & Hk & _).
  unfold GetMeta in Hm. destruct (keys r !! KID m) as [e|] eqn:He; [|done]. injection Hm as <-.
  assert (GetMeta r1 (KID m) = Ok (meta (if bool_decide (active r !! a = Some (KID m)) then retired now e else e))) as Hm1.
  { unfold GetMeta. rewrite Hk, bool_decide_false by congruence. rewrite He. by case_bool_decide. }
  destruct (IH _ Hr1 Hm1) as (m' & Hm' & Ha & Hp). exists m'. split; [done|]. rewrite Ha, Hp. by case_bool_decide.
Qed.

(** C40. Acknowledged keys are durable. Once [CreateKey] has answered with a key, any
    later course of operations, failed writes and stops of the process in the
    middle of a replacement of the file, ends in files from which a restart under
    the passphrase of the last replacement succeeds; the reopened keystore knows
    the key and verifies every signature made with it before. *)
Theorem acknowledged_key_durable fk fs now algo rnd salt nonce o fk' fs' m path pass fs''
    (Hreach : sys_reachable (Running fk fs)) (Hrnd : entropy_ok rnd)
    (Hs : drawn argon2SaltLen salt) (Hn : drawn NonceSize nonce)
    (Hack : file_CreateKey fk fs now algo rnd salt nonce o = (fk', fs', Ok m))
    (Hlater : rtc sys_step (Running fk' fs') (Down path pass fs'')) :
  ∃ reopened, NewFile fs'' path pass true true = Ok reopened ∧
    (∃ m', file_GetMeta reopened (KID m) = Ok m' ∧ KAlgo m' = algo ∧ PublicKey m' = PublicKey m) ∧
    ∀ msg, ∃ sig id, file_Sign fk' algo msg = Ok (sig, id) ∧ file_Verify reopened id msg sig = Ok true.
Proof.
  destruct (durable_reachable _ Hreach) as (r & Hd).
  assert (durable (Running fk' fs') (fring fk')) as Hd'.
  { revert Hack. unfold file_CreateKey. destruct (CreateKey _ _ _ _) as [[r1 m1]|e] eqn:Hc; [|done].
    destruct (persist _ _ _ _ _) as [fs1 [[]|e]] eqn:Hper; [|done]. intros [= <- <- _].
    by apply (durable_persist fk (with_ring fk r1) fs fs1 r salt nonce o (Ok ()) Hd eq_refl (proj2 (proj2 (proj2 (proj2 Hd))))
      (rtc_once _ _ (step_create _ _ _ _ _ _ Hrnd Hc)) Hs Hn). }
  destruct (created_key fk fs now algo rnd salt nonce o fk' fs' m Hrnd Hack (durable_ring _ _ _ Hd)) as (Hm & Hmax).
  destruct (durable_steps _ _ _ Hlater Hd') as (r' & Hd'' & Hlate). pose proof (durable_ring _ _ _ Hd') as Hi.
  exists {| fpath := path; fpass := pass; fring := r' |}. split; [by apply restart_durable|]. split.
  - apply (created_meta (fring fk') r' m algo); [done..|apply Hm|apply Hm].
  - intros msg. destruct (sign_succeeds (fring fk') algo msg Hi Hmax) as (sig & id & Hsig & _).
    exists sig, id. split; [done|]. exact (sign_verifies_later _ _ _ _ _ _ Hi Hlate Hsig).
Qed.
End facts.

(** ** A concrete keystore *)

Section example.
#[local] Existing Instance toy_primitives.
#[local] Existing Instance toy_laws.

#[local] Instance key_meta_eq_dec : EqDecision KeyMeta.
Proof. solve_decision. Defined.

#[local] Program Instance key_meta_countable : Countable KeyMeta :=
  inj_countable' (λ m, (KID m, KAlgo m, Version m, PublicKey m, CreatedAt m, RetiredAt m, Active m))
    (λ '(a, b, c, d, e, f, g), {| KID := a; KAlgo := b; Version := c; PublicKey := d; CreatedAt := e; RetiredAt := f; Active := g |}) _.
Next Obligation. by intros []. Qed.

#[local] Instance material_eq_dec : EqDecision keyMaterial.
Proof. solve_decision. Defined.

#[local] Program Instance material_countable : Countable keyMaterial :=
  inj_countable' (λ m, (KMMeta m, PrivateHex m, PrivateHybridPQ m))
    (λ '(a, b, c), {| KMMeta := a; PrivateHex := b; PrivateHybridPQ := c |}) _.
Next Obligation. by intros []. Qed.

#[local] Instance doc_eq_dec : EqDecision fullRingDoc.
Proof. solve_decision. Defined.

#[local] Program Instance doc_countable : Countable fullRingDoc :=
  inj_countable' (λ d, (DocVersion d, DocKeys d)) (λ '(v, ks), {| DocVersion := v; DocKeys := ks |}) _.
Next Obligation. by intros []. Qed.

(** A number in binary, one byte per digit. *)
Fixpoint bits_of (p : positive) : bytes :=
  match p with xH => [] | xO p => Byte.x00 :: bits_of p | xI p => Byte.x01 :: bits_of p end.

Fixpoint of_bits (b : bytes) : positive :=
  match b with [] => xH | Byte.x00 :: b => xO (of_bits b) | _ :: b => xI (of_bits b) end.

Lemma of_bits_of p : of_bits (bits_of p) = p.
Proof. induction p; cbn; congruence. Qed.

Definition ex_key (pass salt : bytes) : bytes := pass ++ salt.
Definition ex_seal (k n p ad : bytes) : bytes := (k ++ n ++ ad) ++ p.
Definition ex_open (k n c ad : bytes) : option bytes :=
  if bool_decide (take (length (k ++ n ++ ad)) c = k ++ n ++ ad) then Some (drop (length (k ++ n ++ ad)) c) else None.

#[local] Instance toy_sealing : Sealing := {|
  IDKey := ex_key; Seal := ex_seal; Open := ex_open;
  ring_json d := bits_of (encode d); parse_ring b := decode (of_bits b) |}.

#[local] Instance toy_sealing_laws : SealingLaws.
Proof.
  split.
  - intros k n p ad. cbn. unfold ex_open, ex_seal. rewrite take_app_length, drop_app_length. by rewrite bool_decide_true.
  - intros k n c ad p. cbn. unfold ex_open, ex_seal. case_bool_decide as E; [|done]. intros [= <-].
    rewrite <- E at 1. by rewrite take_drop.
  - intros d. cbn. by rewrite of_bits_of, decode_encode.
Qed.

Definition ex_salt : bytes := repeat Byte.x05 16.
Definition ex_nonce : bytes := repeat Byte.x06 12.
Definition ex_pass : bytes := bytes_of "secret".

Definition ex_file : FileKeystore (MPriv := bytes) (MPub := bytes) :=
  {| fpath := "ring.bin"; fpass := ex_pass; fring := NewKeyRing |}.

Definition ex_created := file_CreateKey ex_file ∅ 1000 AlgoEd25519 (ex_entropy Byte.x01) (Some ex_salt) (Some ex_nonce) IoOk.

Definition ex_meta : KeyMeta :=
  match CreateKey NewKeyRing 1000 AlgoEd25519 (ex_entropy Byte.x01) with Ok (_, m) => m | Err _ => zero_meta end.

Definition ex_after : FileKeystore (MPriv := bytes) (MPub := bytes) * files := ex_created.1.

(** A second creation stops halfway through the temporary file. *)
Definition ex_next : KeyRing (MPriv := bytes) (MPub := bytes) * KeyMeta :=
  the_ok (NewKeyRing, zero_meta) (CreateKey (fring ex_after.1) 2000 AlgoHybrid (ex_entropy Byte.x02)).
Definition ex_out : bytes := the_ok [] (sealed_file ex_pass ex_next.1 (Some ex_salt) (Some ex_nonce)).
Definition ex_torn : files := <[tmp_of "ring.bin" := take 100 ex_out]> ex_after.2.

Lemma ex_entropy_ok b : entropy_ok (ex_entropy b).
Proof. intros k. cbn. intros [= <-]. vm_compute. repeat split; repeat constructor. Qed.

Lemma ex_torn_crash : sys_step (Running ex_after.1 ex_after.2) (Down "ring.bin" ex_pass ex_torn).
Proof.
  apply (sys_crash_create _ _ 2000 AlgoHybrid (ex_entropy Byte.x02) ex_next.1 ex_next.2); [apply ex_entropy_ok| |].
  - rewrite <- surjective_pairing. apply is_ok_the. vm_compute. reflexivity.
  - apply (crash_sealed (with_ring ex_after.1 ex_next.1) _ _ ex_salt ex_nonce ex_out); [|reflexivity..|].
    + apply is_ok_the. vm_compute. reflexivity.
    + unfold before_rename. apply list_elem_of_further, list_elem_of_fmap. exists 100%nat. split; [reflexivity|].
      apply list_elem_of_In, in_seq. split; [lia|].
      assert ((100 <=? length ex_out)%nat = true) as Hl%Nat.leb_le by (vm_compute; reflexivity). lia.
Qed.

Lemma answered_pair {A B C} (x : A * B * C) c : x.2 = c → x = (x.1.1, x.1.2, c).
Proof. by destruct x as [[] ?]; intros <-. Qed.

Lemma acknowledged_key_durable_witness :
  ex_created.2 = Ok ex_meta ∧
  ∃ reopened, NewFile ex_torn "ring.bin" ex_pass true true = Ok reopened ∧
    (∃ m', file_GetMeta reopened (KID ex_meta) = Ok m' ∧ KAlgo m' = AlgoEd25519 ∧ PublicKey m' = PublicKey ex_meta) ∧
    ∀ msg, ∃ sig id, file_Sign ex_after.1 AlgoEd25519 msg = Ok (sig, id) ∧ file_Verify reopened id msg sig = Ok true.
Proof.
  split; [vm_compute; reflexivity|].
  apply (acknowledged_key_durable ex_file ∅ 1000 AlgoEd25519 (ex_entropy Byte.x01) (Some ex_salt) (Some ex_nonce) IoOk
    ex_after.1 ex_after.2 ex_meta "ring.bin" ex_pass ex_torn).
  - exists (Running ex_file ∅). split; [|apply rtc_refl]. by apply (sys_first ∅ "ring.bin" ex_pass).
  - apply ex_entropy_ok.
  - by intros b [= <-].
  - by intros b [= <-].
  - apply answered_pair. vm_compute. reflexivity.
  - apply rtc_once. exact ex_torn_crash.
Defined.

(** A creation whose file cannot be replaced answers with an error, and yet its key
    signs from then on; a restart forgets it. *)
Definition ex_unsaved := file_CreateKey ex_file ∅ 1000 AlgoEd25519 (ex_entropy Byte.x01) (Some ex_salt) (Some ex_nonce) IoNoWrite.

Example unsaved_key_signs :
  ex_unsaved.2 = Err FWriteTmp ∧ is_ok (file_Sign ex_unsaved.1.1 AlgoEd25519 (bytes_of "a")) = true ∧
  match NewFile ex_unsaved.1.2 "ring.bin" ex_pass true true with
  | Ok fk => file_Sign fk AlgoEd25519 (bytes_of "a") = Err (ErrNoActiveKey AlgoEd25519)
  | Err _ => False
  end.
Proof. vm_compute. split_and!; reflexivity. Qed.
End example.
