(* ===== verification/Receipts.v ===== *)
(** * Decision receipts ([engine/internal/receipts]: [types.go], [canonical.go],
      [service.go], [agent_receipt.go])

    The canonical hash, emission and verification against the [Keystore]
    interface, the in-memory store with its lineage walk, and the agent-receipt
    shape. The clock, the random bytes of an identifier, the iteration order of
    the store's map and the outcome of the telemetry sink are arguments.
    [sort.Slice] is the stable [sort_slice]. *)

From S2P Require Import Prelude GoLib Sha256 Attest Pool Hitl Pq Keyring Keystore.
From stdpp Require Import relations.

Local Open Scope Z_scope.

(** ** Data ([types.go]) *)

Definition ReceiptApprove : string := "APPROVE".
Definition ReceiptAbstain : string := "ABSTAIN".
Definition ReceiptReject : string := "REJECT".

Definition FromDecision (v : Verdict) : string :=
  match v with
  | VerdictApprove => ReceiptApprove
  | VerdictAbstain => ReceiptAbstain
  | VerdictReject => ReceiptReject
  | VerdictUnknown => ReceiptAbstain
  end.

Record FacetOutput := { OKind : string; OVerdict : string; OConfidence : float64; OReason : string }.

Record ProviderReceipt := { PRProvider : string; PRTrustLevel : string; ReceiptHash : string }.

Record HITLResolution := {
  HTicketID : string; HAction : string; HReviewer : string; HResolvedAt : time; HNote : string;
}.

Record Proof := { Scheme : string; Signature : string; VerificationMethod : string; SignedAt : time }.

Record DecisionReceipt := {
  RID : string; IssuedAt : time; Issuer : string; Subject : string; RSpecID : string; EvidenceRoot : string;
  ModelID : string; RAggregate : string; RVetoedBy : string; RConfidence : float64; Facets : list FacetOutput;
  ProviderReceipts : list ProviderReceipt; HITL : option HITLResolution; RProof : option Proof;
}.

Definition with_issuer (r : DecisionReceipt) (issuer : string) : DecisionReceipt :=
  {| RID := RID r; IssuedAt := IssuedAt r; Issuer := issuer; Subject := Subject r; RSpecID := RSpecID r;
     EvidenceRoot := EvidenceRoot r; ModelID := ModelID r; RAggregate := RAggregate r; RVetoedBy := RVetoedBy r;
     RConfidence := RConfidence r; Facets := Facets r; ProviderReceipts := ProviderReceipts r; HITL := HITL r;
     RProof := RProof r |}.

Definition with_proof (r : DecisionReceipt) (p : option Proof) : DecisionReceipt :=
  {| RID := RID r; IssuedAt := IssuedAt r; Issuer := Issuer r; Subject := Subject r; RSpecID := RSpecID r;
     EvidenceRoot := EvidenceRoot r; ModelID := ModelID r; RAggregate := RAggregate r; RVetoedBy := RVetoedBy r;
     RConfidence := RConfidence r; Facets := Facets r; ProviderReceipts := ProviderReceipts r; HITL := HITL r;
     RProof := p |}.

Inductive ReceiptError :=
| ErrNoDecisionID | ErrUnknownAggregate | ErrNoKey (algo : string) | ErrSign (e : KeyringError) | ErrNoID
| ErrUnsigned | ErrBadSignatureEncoding | ErrVerify (e : KeyringError) | ErrReceiptNotFound | ErrCycle.

(** ** The canonical hash ([canonical.go]) *)

Definition writeLP32 (b : bytes) : bytes := be_uint32 (Z.of_nat (length b)) ++ b.
Definition writeStr (s : string) : bytes := writeLP32 (bytes_of s).
Definition writeF64 (v : float64) : bytes := be_uint64 (float_bits v).

Definition facet_kind_less (a b : FacetOutput) : bool := string_ltb (OKind a) (OKind b).
Definition provider_less (a b : ProviderReceipt) : bool := string_ltb (ReceiptHash a) (ReceiptHash b).

Definition facet_output_bytes (f : FacetOutput) : bytes :=
  writeStr (OKind f) ++ writeStr (OVerdict f) ++ writeF64 (OConfidence f) ++ writeStr (OReason f).

Definition provider_bytes (p : ProviderReceipt) : bytes :=
  writeStr (PRProvider p) ++ writeStr (PRTrustLevel p) ++ writeStr (ReceiptHash p).

Definition hitl_bytes (h : option HITLResolution) : bytes :=
  match h with
  | Some h => Byte.x01 :: writeStr (HTicketID h) ++ writeStr (HAction h) ++ writeStr (HReviewer h)
                ++ writeStr (format_nanos (HResolvedAt h)) ++ writeStr (HNote h)
  | None => [Byte.x00]
  end.

Definition canonical_bytes (r : DecisionReceipt) : bytes :=
  let sortedFacets := sort_slice facet_kind_less (Facets r) in
  let sortedProvs := sort_slice provider_less (ProviderReceipts r) in
  writeStr (RID r) ++ writeStr (format_nanos (IssuedAt r)) ++ writeStr (Issuer r) ++ writeStr (Subject r)
  ++ writeStr (RSpecID r) ++ writeStr (EvidenceRoot r) ++ writeStr (ModelID r) ++ writeStr (RAggregate r)
  ++ writeStr (RVetoedBy r) ++ writeF64 (RConfidence r)
  ++ be_uint32 (Z.of_nat (length sortedFacets)) ++ concat (facet_output_bytes <$> sortedFacets)
  ++ be_uint32 (Z.of_nat (length sortedProvs)) ++ concat (provider_bytes <$> sortedProvs)
  ++ hitl_bytes (HITL r).

Definition CanonicalHash (r : DecisionReceipt) : string := hex_encode (sha256 (canonical_bytes r)).

(** ** The store ([InMemoryStore]) *)

Record InMemoryStore := { byID : gmap string DecisionReceipt; byHash : gmap string DecisionReceipt }.

Definition NewInMemoryStore : InMemoryStore := {| byID := ∅; byHash := ∅ |}.

Definition Put (s : InMemoryStore) (r : DecisionReceipt) : result ReceiptError InMemoryStore :=
  if bool_decide (RID r = ""%string) then Err ErrNoID
  else let hash := CanonicalHash (with_proof r None) in
       Ok {| byID := <[RID r := r]> (byID s); byHash := <[hash := r]> (byHash s) |}.

Definition GetByID (s : InMemoryStore) (id : string) : result ReceiptError DecisionReceipt :=
  match byID s !! id with Some r => Ok r | None => Err ErrReceiptNotFound end.

Definition GetByHash (s : InMemoryStore) (h : string) : result ReceiptError DecisionReceipt :=
  match byHash s !! h with Some r => Ok r | None => Err ErrReceiptNotFound end.

Definition issued_later (a b : DecisionReceipt) : bool := IssuedAt b <? IssuedAt a.

(** [order] is the iteration order of [byID]. *)
Definition ListReceipts (order : list DecisionReceipt) (limit : Z) : list DecisionReceipt :=
  let out := sort_slice issued_later order in
  if (0 <? limit) && (limit <? Z.of_nat (length out)) then take (Z.to_nat limit) out else out.

(** The loop over the lineage pointers of one receipt. *)
Fixpoint walk_providers (s : InMemoryStore) (prs : list ProviderReceipt) (seen : gset string) (next : list string)
    : result ReceiptError (gset string * list string) :=
  match prs with
  | [] => Ok (seen, next)
  | pr :: prs' =>
      match GetByHash s (ReceiptHash pr) with
      | Err _ => walk_providers s prs' seen next
      | Ok anc =>
          if bool_decide (RID anc ∈ seen) then Err ErrCycle
          else walk_providers s prs' ({[RID anc]} ∪ seen) (next ++ [RID anc])
      end
  end.

(** The loop over one frontier. *)
Fixpoint walk_frontier (s : InMemoryStore) (id : string) (frontier : list string) (seen : gset string)
    (next : list string) (out : list DecisionReceipt)
    : result ReceiptError (gset string * list string * list DecisionReceipt) :=
  match frontier with
  | [] => Ok (seen, next, out)
  | fid :: frontier' =>
      match GetByID s fid with
      | Err _ => walk_frontier s id frontier' seen next out
      | Ok r =>
          let out := if bool_decide (fid = id) then out else out ++ [r] in
          let! (seen, next) := walk_providers s (ProviderReceipts r) seen next in
          walk_frontier s id frontier' seen next out
      end
  end.

(** [None] is exhausted fuel. *)
Fixpoint ancestors_loop (fuel : nat) (s : InMemoryStore) (id : string) (maxDepth depth : Z)
    (frontier : list string) (seen : gset string) (out : list DecisionReceipt)
    : option (result ReceiptError (list DecisionReceipt)) :=
  match frontier with
  | [] => Some (Ok out)
  | _ =>
      if (0 <? maxDepth) && (maxDepth <=? depth) then Some (Ok out)
      else match fuel with
           | O => None
           | S fuel =>
               match walk_frontier s id frontier seen [] out with
               | Err e => Some (Err e)
               | Ok (seen, next, out) => ancestors_loop fuel s id maxDepth (depth + 1) next seen out
               end
           end
  end.

(** Every iteration but the first adds an identifier of a stored receipt to [seen]. *)
Definition Ancestors (s : InMemoryStore) (id : string) (maxDepth : Z)
    : option (result ReceiptError (list DecisionReceipt)) :=
  ancestors_loop (size (byHash s) + 2) s id maxDepth 0 [id] {[id]} [].

(** ** Emission and verification ([Service]) *)

Definition Action_String (a : Action) : string :=
  match a with ActionPass => "pass" | ActionEscalate => "escalate" | ActionVeto => "veto" end.

(** A [hitl.Response] as the service reads it; its action is a Go string. *)
Record HITLInput := { IAction : string; IReason : string; ITicketID : string }.

Definition of_response (h : Response) : HITLInput :=
  {| IAction := Action_String (RAction h); IReason := RReason h; ITicketID := Hitl.TicketID h |}.

Record EmitInput := {
  Commit : DecisionCommit; InEvidenceRoot : string; InModelID : string; InProviders : list ProviderReceipt;
  InHITL : option HITLInput; Reviewer : string;
}.

Definition facetsFromCommit (fs : list FacetVerdict) : list FacetOutput :=
  sort_slice facet_kind_less
    ((λ f, {| OKind := Kind f; OVerdict := FromDecision (FVerdict f); OConfidence := Confidence f;
              OReason := Reason f |}) <$> fs).

Definition meanNonCriticalConfidence (fs : list FacetVerdict) : float64 :=
  let kept := List.filter (λ f, negb (bool_decide (Kind f = FacetSafety) || bool_decide (Kind f = FacetEquivocation))) fs in
  if (length kept =? 0)%nat then f_zero
  else f_div (foldl (λ sum f, f_add sum (Confidence f)) f_zero kept) (f_of_Z (Z.of_nat (length kept))).

Definition normaliseProviders (ps : list ProviderReceipt) : list ProviderReceipt := sort_slice provider_less ps.

(** [byte & mask | bits] *)
Definition stamp (b : Byte.byte) (mask bits : Z) : Byte.byte := byte_of_Z (Z.lor (Z.land (byte_to_Z b) mask) bits).

(** [b] are the sixteen random bytes. *)
Definition defaultNewID (b : bytes) : string :=
  let at_ i := nth i b Byte.x00 in
  let b := take 6 b ++ [stamp (at_ 6%nat) 15 64; at_ 7%nat; stamp (at_ 8%nat) 63 128] ++ drop 9 b in
  let part lo n := hex_encode (take n (drop lo b)) in
  (part 0%nat 4%nat +:+ "-" +:+ part 4%nat 2%nat +:+ "-" +:+ part 6%nat 2%nat +:+ "-" +:+ part 8%nat 2%nat
   +:+ "-" +:+ part 10%nat 6%nat)%string.

(** The byte after the last [c]: what [lastIndex] is used for. *)
Fixpoint after_last (c : Ascii.ascii) (s : string) : option string :=
  match s with
  | EmptyString => None
  | String d s' =>
      match after_last c s' with
      | Some t => Some t
      | None => if bool_decide (d = c) then Some s' else None
      end
  end.

Definition key_id_of (method : string) : string :=
  match after_last (chr 35) method with Some t => t | None => method end.

Section service.
Context {K : Type} `{!Keystore K}.

Record Service := { SKeystore : K; SigningAlgo : string; IssuerDID : string }.

Definition NewService (ks : K) : Service := {| SKeystore := ks; SigningAlgo := AlgoHybrid; IssuerDID := "" |}.

(** The receipt before it is issued and signed. *)
Definition draft (id : string) (now : time) (input : EmitInput) : DecisionReceipt :=
  let c := Commit input in
  {| RID := id; IssuedAt := now; Issuer := ""; Subject := DecisionID c; RSpecID := SpecID (CDecision c);
     EvidenceRoot := InEvidenceRoot input; ModelID := InModelID input; RAggregate := FromDecision (CAggregate c);
     RVetoedBy := VetoedBy c; RConfidence := meanNonCriticalConfidence (FacetVerdicts c);
     Facets := facetsFromCommit (FacetVerdicts c); ProviderReceipts := normaliseProviders (InProviders input);
     HITL := (λ h, {| HTicketID := ITicketID h; HAction := IAction h;
                      HReviewer := Reviewer input; HResolvedAt := now; HNote := IReason h |}) <$> InHITL input;
     RProof := None |}.

(** The new store, and the receipt, with [true] when the sink failed. *)
Definition Emit (svc : Service) (s : InMemoryStore) (now : time) (id : string) (sink_ok : bool) (input : EmitInput)
    : InMemoryStore * result ReceiptError (DecisionReceipt * bool) :=
  if bool_decide (DecisionID (Commit input) = ""%string) then (s, Err ErrNoDecisionID)
  else if bool_decide (CAggregate (Commit input) = VerdictUnknown) then (s, Err ErrUnknownAggregate)
  else
    match ks_ActiveKeyID (SKeystore svc) (SigningAlgo svc) with
    | None => (s, Err (ErrNoKey (SigningAlgo svc)))
    | Some activeID =>
        let issuer := if bool_decide (IssuerDID svc = ""%string) then ("did:cp:" +:+ activeID)%string
                      else IssuerDID svc in
        let r := with_issuer (draft id now input) issuer in
        let digest := CanonicalHash r in
        match ks_Sign (SKeystore svc) (SigningAlgo svc) (bytes_of digest) with
        | Err e => (s, Err (ErrSign e))
        | Ok (sig, keyID) =>
            let r := with_proof r (Some {| Scheme := SigningAlgo svc; Signature := base64_encode sig;
                                           VerificationMethod := (Issuer r +:+ "#" +:+ keyID)%string;
                                           SignedAt := IssuedAt r |}) in
            match Put s r with
            | Err e => (s, Err e)
            | Ok s' => (s', Ok (r, negb sink_ok))
            end
        end
    end.

Definition VerifyReceipt (svc : Service) (r : DecisionReceipt) : result ReceiptError bool :=
  match RProof r with
  | None => Err ErrUnsigned
  | Some p =>
      match base64_decode (Signature p) with
      | None => Err ErrBadSignatureEncoding
      | Some sig =>
          let digest := CanonicalHash (with_proof r None) in
          match ks_Verify (SKeystore svc) (key_id_of (VerificationMethod p)) (bytes_of digest) sig with
          | Ok b => Ok b
          | Err e => Err (ErrVerify e)
          end
      end
  end.
End service.

(** ** The agent-receipt shape ([agent_receipt.go]) *)

Record ARFacet := { AKind : string; AVerdict : string; AConfidence : float64; AReason : string }.
Record ARSection := { ARoot : string; AModelID : string; ADigest : string }.
Record ARLineage := { ALProvider : string; ALTrustLevel : string; ALReceipt : string }.
Record ARReview := {
  ARTicketID : string; ARAction : string; ARReviewer : string; ARNote : string; ARResolvedAt : time;
}.
Record ARSignatureEnvelope := { Alg : string; Value : string; AVerificationMethod : string }.

(** The values of the [map[string]any]. *)
Inductive any := AnyString (s : string) | AnyFloat (x : float64).

Record AgentReceipt := {
  AVersion : string; AID : string; AIssuer : string; AIssuedAt : time; ASubject : string; AVerdictStr : string;
  AFacets : list ARFacet; AEvidence : ARSection; ALineage : list ARLineage; AReview : option ARReview;
  ATags : list string; ACPExtra : gmap string any; ASignature : ARSignatureEnvelope;
}.

Definition ToAgentReceipt (r : DecisionReceipt) : result ReceiptError AgentReceipt :=
  match RProof r with
  | None => Err ErrUnsigned
  | Some p =>
      let digest := CanonicalHash (with_proof r None) in
      Ok {| AVersion := "0.3"; AID := RID r; AIssuer := Issuer r; AIssuedAt := IssuedAt r; ASubject := Subject r;
            AVerdictStr := RAggregate r;
            AFacets := (λ f, {| AKind := OKind f; AVerdict := OVerdict f; AConfidence := OConfidence f;
                                AReason := OReason f |}) <$> Facets r;
            AEvidence := {| ARoot := EvidenceRoot r; AModelID := ModelID r; ADigest := digest |};
            ALineage := (λ p, {| ALProvider := PRProvider p; ALTrustLevel := PRTrustLevel p;
                                 ALReceipt := ReceiptHash p |}) <$> ProviderReceipts r;
            AReview := (λ h, {| ARTicketID := HTicketID h; ARAction := HAction h; ARReviewer := HReviewer h;
                                ARNote := HNote h; ARResolvedAt := HResolvedAt h |}) <$> HITL r;
            ATags := ["casper-prover"; "decision-receipt"; "spec-" +:+ RSpecID r]%string ++
                     (if bool_decide (RVetoedBy r = ""%string) then [] else [("vetoed-by-" +:+ RVetoedBy r)%string]);
            ACPExtra := list_to_map [("aggregate"%string, AnyString (RAggregate r));
                                     ("confidence"%string, AnyFloat (RConfidence r));
                                     ("spec_id"%string, AnyString (RSpecID r));
                                     ("vetoed_by"%string, AnyString (RVetoedBy r));
                                     ("engine_algo"%string, AnyString (Scheme p))];
            ASignature := {| Alg := Scheme p; Value := Signature p; AVerificationMethod := VerificationMethod p |} |}
  end.

(** ** What the canonical hash commits to *)

Definition str_short (s : string) : Prop := Z.of_nat (length (bytes_of s)) < 2 ^ 32.

Lemma writeStr_app_inj s t x y :
  str_short s → str_short t → writeStr s ++ x = writeStr t ++ y → s = t ∧ x = y.
Proof.
  unfold str_short, writeStr, writeLP32. intros Hs Ht H. rewrite <- !app_assoc in H.
  apply app_inj_1 in H as [Hl H]; [|done]. apply be_uint32_inj in Hl; [|lia..].
  apply app_inj_1 in H as [Hb ->]; [by apply bytes_of_inj in Hb as ->|lia].
Qed.

Lemma writeF64_app_inj u v x y : writeF64 u ++ x = writeF64 v ++ y → writeF64 u = writeF64 v ∧ x = y.
Proof. intros H. by apply app_inj_1 in H. Qed.

Lemma concat_app_inj {A B} (f : A → bytes) (g : A → B) (P : A → Prop) l l' x y :
  (∀ a b x y, P a → P b → f a ++ x = f b ++ y → g a = g b ∧ x = y) →
  length l = length l' → Forall P l → Forall P l' →
  concat (f <$> l) ++ x = concat (f <$> l') ++ y → g <$> l = g <$> l' ∧ x = y.
Proof.
  intros Hf. revert l'. induction l as [|a l IH]; intros [|b l'] Hlen Hl Hl' H; try done.
  inversion Hl; inversion Hl'; subst. rewrite !fmap_cons in *. cbn [concat] in H. rewrite <- !app_assoc in H.
  apply Hf in H as [Hab H]; [|done..]. destruct (IH l') as [-> ->]; [by injection Hlen|done..|]. by rewrite Hab.
Qed.

Definition facet_content (f : FacetOutput) : string * string * bytes * string :=
  (OKind f, OVerdict f, writeF64 (OConfidence f), OReason f).
Definition facet_output_short (f : FacetOutput) : Prop :=
  str_short (OKind f) ∧ str_short (OVerdict f) ∧ str_short (OReason f).
Definition provider_short (p : ProviderReceipt) : Prop :=
  str_short (PRProvider p) ∧ str_short (PRTrustLevel p) ∧ str_short (ReceiptHash p).
Definition hitl_content (h : HITLResolution) : string * string * string * string * string :=
  (HTicketID h, HAction h, HReviewer h, format_nanos (HResolvedAt h), HNote h).
Definition hitl_short (h : HITLResolution) : Prop :=
  str_short (HTicketID h) ∧ str_short (HAction h) ∧ str_short (HReviewer h) ∧
  str_short (format_nanos (HResolvedAt h)) ∧ str_short (HNote h).

(** The scalar fields of a receipt, as they are hashed. *)
Definition scalars (r : DecisionReceipt) : list string :=
  [RID r; format_nanos (IssuedAt r); Issuer r; Subject r; RSpecID r; EvidenceRoot r; ModelID r; RAggregate r;
   RVetoedBy r].

Definition receipt_short (r : DecisionReceipt) : Prop :=
  Forall str_short (scalars r) ∧ Z.of_nat (length (Facets r)) < 2 ^ 32 ∧
  Z.of_nat (length (ProviderReceipts r)) < 2 ^ 32 ∧ Forall facet_output_short (Facets r) ∧
  Forall provider_short (ProviderReceipts r) ∧ (∀ h, HITL r = Some h → hitl_short h).

Lemma facet_output_inj f g x y :
  facet_output_short f → facet_output_short g → facet_output_bytes f ++ x = facet_output_bytes g ++ y →
  facet_content f = facet_content g ∧ x = y.
Proof.
  intros (F1 & F2 & F3) (G1 & G2 & G3) H. unfold facet_output_bytes in H. rewrite <- !app_assoc in H.
  apply writeStr_app_inj in H as [H1 H]; [|done..]. apply writeStr_app_inj in H as [H2 H]; [|done..].
  apply writeF64_app_inj in H as [H3 H]. apply writeStr_app_inj in H as [H4 ->]; [|done..].
  unfold facet_content. by rewrite H1, H2, H3, H4.
Qed.

Lemma provider_inj p q x y :
  provider_short p → provider_short q → provider_bytes p ++ x = provider_bytes q ++ y → p = q ∧ x = y.
Proof.
  intros (P1 & P2 & P3) (Q1 & Q2 & Q3) H. unfold provider_bytes in H. rewrite <- !app_assoc in H.
  apply writeStr_app_inj in H as [H1 H]; [|done..]. apply writeStr_app_inj in H as [H2 H]; [|done..].
  apply writeStr_app_inj in H as [H3 ->]; [|done..]. destruct p, q; cbn in *. by subst.
Qed.

Lemma hitl_inj h h' :
  (∀ x, h = Some x → hitl_short x) → (∀ x, h' = Some x → hitl_short x) → hitl_bytes h = hitl_bytes h' →
  hitl_content <$> h = hitl_content <$> h'.
Proof.
  intros Hh Hh' H. destruct h as [h|], h' as [h'|]; try done. unfold hitl_bytes in H. apply cons_inv in H as [_ H].
  destruct (Hh _ eq_refl) as (F1 & F2 & F3 & F4 & F5), (Hh' _ eq_refl) as (G1 & G2 & G3 & G4 & G5).
  apply writeStr_app_inj in H as [H1 H]; [|done..]. apply writeStr_app_inj in H as [H2 H]; [|done..].
  apply writeStr_app_inj in H as [H3 H]; [|done..]. apply writeStr_app_inj in H as [H4 H]; [|done..].
  rewrite <- (app_nil_r (writeStr (HNote h))), <- (app_nil_r (writeStr (HNote h'))) in H.
  apply writeStr_app_inj in H as [H5 _]; [|done..]. cbn. unfold hitl_content. by rewrite H1, H2, H3, H4, H5.
Qed.

(** What two receipts with the same hash input agree on. *)
Definition same_content (r r' : DecisionReceipt) : Prop :=
  scalars r = scalars r' ∧ writeF64 (RConfidence r) = writeF64 (RConfidence r') ∧
  facet_content <$> Facets r ≡ₚ facet_content <$> Facets r' ∧ ProviderReceipts r ≡ₚ ProviderReceipts r' ∧
  hitl_content <$> HITL r = hitl_content <$> HITL r'.

Lemma canonical_bytes_inj r r' :
  receipt_short r → receipt_short r' → canonical_bytes r = canonical_bytes r' → same_content r r'.
Proof.
  intros (S & Lf & Lp & Sf & Sp & Sh) (S' & Lf' & Lp' & Sf' & Sp' & Sh') H. unfold canonical_bytes in H. cbv zeta in H.
  unfold scalars in S, S'. repeat match goal with H : Forall str_short (_ :: _) |- _ => apply Forall_cons in H as [? H] end.
  do 9 (apply writeStr_app_inj in H as [? H]; [|done..]). apply writeF64_app_inj in H as [Hc H].
  apply app_inj_1 in H as [Hnf H]; [|done]. apply be_uint32_inj in Hnf; [|rewrite length_sort_slice; lia..].
  apply (concat_app_inj facet_output_bytes facet_content facet_output_short) in H as [Hf H];
    [|by apply facet_output_inj|by apply Nat2Z.inj|by rewrite sort_slice_perm..].
  apply app_inj_1 in H as [Hnp H]; [|done]. apply be_uint32_inj in Hnp; [|rewrite length_sort_slice; lia..].
  apply (concat_app_inj provider_bytes id provider_short) in H as [Hp H];
    [|by apply provider_inj|by apply Nat2Z.inj|by rewrite sort_slice_perm..].
  apply hitl_inj in H; [|done..]. rewrite !list_fmap_id in Hp. unfold same_content, scalars. split_and!; [|done| | |done].
  - congruence.
  - rewrite <- (sort_slice_perm facet_kind_less (Facets r)), Hf. by rewrite sort_slice_perm.
  - rewrite <- (sort_slice_perm provider_less (ProviderReceipts r)), Hp. by rewrite sort_slice_perm.
Qed.

(** The canonical hash binds the receipt: two receipts with the same hash agree on
    every hashed field (up to the order of facets and of upstream receipts), or
    their hash inputs are a SHA-256 collision. *)
Theorem canonical_binding (r r' : DecisionReceipt) (Hr : receipt_short r) (Hr' : receipt_short r')
    (H : CanonicalHash r = CanonicalHash r') :
  same_content r r' ∨ is_collision (canonical_bytes r, canonical_bytes r').
Proof.
  apply hex_encode_inj in H. destruct (decide (canonical_bytes r = canonical_bytes r')) as [E|E]; [left|by right].
  by apply canonical_bytes_inj.
Qed.

Lemma sort_slice_key_perm {A} (key : A → string) l l' :
  NoDup (key <$> l) → l ≡ₚ l' →
  sort_slice (λ a b, string_ltb (key a) (key b)) l = sort_slice (λ a b, string_ltb (key a) (key b)) l'.
Proof.
  intros Hnd Hp. apply (sort_slice_unique (λ a b, string_ltb (key a) (key b))); [|done].
  intros x y Hx Hy Hxy Hyx. assert (key x = key y) as E by (by apply string_not_after_antisym).
  apply list_elem_of_lookup in Hx as [i Hi], Hy as [j Hj]. assert (i = j) as ->; [|congruence].
  eapply (NoDup_lookup _ i j (key x)); [done| |]; rewrite list_lookup_fmap; [by rewrite Hi|rewrite Hj; cbn; congruence].
Qed.

(** The canonical hash does not depend on the order in which facets of different
    kinds, or upstream receipts of different hashes, are listed. *)
Theorem canonical_order (r r' : DecisionReceipt)
    (Hs : scalars r = scalars r') (Hc : RConfidence r = RConfidence r') (Hh : HITL r = HITL r')
    (Hf : NoDup (OKind <$> Facets r)) (Hf' : Facets r ≡ₚ Facets r')
    (Hp : NoDup (ReceiptHash <$> ProviderReceipts r)) (Hp' : ProviderReceipts r ≡ₚ ProviderReceipts r') :
  CanonicalHash r = CanonicalHash r'.
Proof.
  unfold CanonicalHash, canonical_bytes, facet_kind_less, provider_less. unfold scalars in Hs.
  injection Hs as -> -> -> -> -> -> -> -> ->.
  rewrite Hc, Hh, (sort_slice_key_perm OKind _ _ Hf Hf'), (sort_slice_key_perm ReceiptHash _ _ Hp Hp'). done.
Qed.

(** ** The lineage walk *)

Section ancestors.
Context (s : InMemoryStore).

(** [x]'s receipt points at a stored receipt with identifier [y]. *)
Definition lineage (x y : string) : Prop :=
  ∃ r pr anc, byID s !! x = Some r ∧ pr ∈ ProviderReceipts r ∧ byHash s !! ReceiptHash pr = Some anc ∧ RID anc = y.

Definition target (prs : list ProviderReceipt) (y : string) : Prop :=
  ∃ pr anc, pr ∈ prs ∧ byHash s !! ReceiptHash pr = Some anc ∧ RID anc = y.

(** The identifiers [new] added to [seen] and to the next frontier. *)
Definition extended (seen seen' : gset string) (next next' new : list string) : Prop :=
  next' = next ++ new ∧ seen' = seen ∪ list_to_set new ∧ NoDup new ∧ (∀ y, y ∈ new → y ∉ seen).

Lemma extended_trans a b c x y z new new' :
  extended a b x y new → extended b c y z new' → extended a c x z (new ++ new').
Proof.
  intros (-> & -> & Hn & Hd) (-> & -> & Hn' & Hd'). split_and!.
  - by rewrite app_assoc.
  - rewrite list_to_set_app_L. set_solver.
  - apply NoDup_app. split_and!; [done| |done]. intros y Hy Hy'. specialize (Hd' y Hy'). set_solver.
  - intros y [Hy|Hy]%elem_of_app; [by apply Hd|]. specialize (Hd' y Hy). set_solver.
Qed.

Lemma walk_providers_spec prs seen next :
  match walk_providers s prs seen next with
  | Ok (seen', next') => ∃ new, extended seen seen' next next' new ∧ ∀ y, y ∈ new ↔ target prs y
  | Err e => e = ErrCycle
  end.
Proof.
  revert seen next. induction prs as [|pr prs IH]; intros seen next; cbn.
  { exists []. split; [|unfold target; set_solver].
    unfold extended. rewrite app_nil_r. split_and!; [done|set_solver|constructor|set_solver]. }
  unfold GetByHash. destruct (byHash s !! ReceiptHash pr) as [anc|] eqn:Ha.
  - case_bool_decide as Hs; [done|].
    specialize (IH ({[RID anc]} ∪ seen) (next ++ [RID anc])).
    destruct (walk_providers _ _ _ _) as [[seen' next']|e]; [|done]. destruct IH as (new & Hext & Hy).
    exists ([RID anc] ++ new). split.
    + eapply extended_trans; [|exact Hext]. split_and!; [done|set_solver|apply NoDup_singleton|set_solver].
    + intros y. rewrite elem_of_app, list_elem_of_singleton, Hy. unfold target. split.
      * intros [->|(pr' & anc' & ? & ? & ?)]; [exists pr, anc|exists pr', anc']; split_and!; try done; [left|by right].
      * intros (pr' & anc' & [->|?]%elem_of_cons & Ha' & <-); [left; congruence|right; eauto].
  - specialize (IH seen next). destruct (walk_providers _ _ _ _) as [[seen' next']|e]; [|done].
    destruct IH as (new & Hext & Hy). exists new. split; [done|]. intros y. rewrite Hy. unfold target. split.
    + intros (pr' & anc' & ? & ? & ?). exists pr', anc'. split_and!; [by right|done|done].
    + intros (pr' & anc' & [->|?]%elem_of_cons & Ha' & <-); [congruence|eauto].
Qed.

Lemma walk_frontier_spec id frontier seen next out :
  match walk_frontier s id frontier seen next out with
  | Ok (seen', next', out') =>
      ∃ new outs, extended seen seen' next next' new ∧ (∀ y, y ∈ new ↔ ∃ x, x ∈ frontier ∧ lineage x y) ∧
        out' = out ++ outs ∧ (∀ r, r ∈ outs ↔ ∃ x, x ∈ frontier ∧ x ≠ id ∧ byID s !! x = Some r)
  | Err e => e = ErrCycle
  end.
Proof.
  revert seen next out. induction frontier as [|x frontier IH]; intros seen next out; cbn.
  { exists [], []. rewrite app_nil_r. split_and!; [|set_solver|done|set_solver].
    unfold extended. rewrite app_nil_r. split_and!; [done|set_solver|constructor|set_solver]. }
  unfold GetByID. destruct (byID s !! x) as [r|] eqn:Hx.
  - pose proof (walk_providers_spec (ProviderReceipts r) seen next) as Hw.
    destruct (walk_providers _ _ _ _) as [[seen1 next1]|e]; [|done]. cbn [result_bind].
    destruct Hw as (new1 & Hext1 & Hy1).
    set (out1 := if bool_decide (x = id) then out else out ++ [r]).
    specialize (IH seen1 next1 out1). destruct (walk_frontier _ _ _ _ _ _) as [[[seen' next'] out']|e]; [|done].
    destruct IH as (new & outs & Hext & Hy & -> & Ho).
    exists (new1 ++ new), ((if bool_decide (x = id) then [] else [r]) ++ outs). split_and!.
    + by eapply extended_trans.
    + intros y. rewrite elem_of_app, Hy1, Hy. setoid_rewrite elem_of_cons. split.
      * intros [(pr & anc & ? & ? & ?)|(z & ? & ?)]; [exists x; split; [by left|by exists r, pr, anc]|exists z; auto].
      * intros (z & [->|?] & Hl); [left|right; eauto]. destruct Hl as (r' & pr & anc & Hr' & ? & ? & ?).
        assert (r' = r) as -> by congruence. by exists pr, anc.
    + unfold out1. case_bool_decide; by rewrite <- ?app_assoc.
    + intros r'. rewrite elem_of_app, Ho. setoid_rewrite elem_of_cons. case_bool_decide as Hid.
      * split; [intros [?%elem_of_nil|(z & ? & ?)]; [done|exists z; auto]|].
        intros (z & [->|?] & ? & ?); [done|right; eauto].
      * rewrite list_elem_of_singleton. split.
        -- intros [->|(z & ? & ?)]; [exists x; auto|exists z; auto].
        -- intros (z & [->|?] & ? & ?); [left; congruence|right; eauto].
  - specialize (IH seen next out). destruct (walk_frontier _ _ _ _ _ _) as [[[seen' next'] out']|e]; [|done].
    destruct IH as (new & outs & Hext & Hy & Ho' & Ho). exists new, outs. setoid_rewrite elem_of_cons. split_and!; [done| |done|].
    + intros y. rewrite Hy. split; [intros (z & ? & ?); exists z; auto|].
      intros (z & [->|?] & Hl); [destruct Hl as (? & ? & ? & ? & _); congruence|eauto].
    + intros r. rewrite Ho. split; [intros (z & ? & ?); exists z; auto|].
      intros (z & [->|?] & ? & ?); [congruence|eauto].
Qed.

(** The identifiers of the stored receipts: what can still be discovered. *)
Definition stored_ids : gset string := list_to_set (RID <$> (map_to_list (byHash s)).*2).

Lemma lineage_stored x y : lineage x y → y ∈ stored_ids.
Proof.
  intros (r & pr & anc & _ & _ & Ha & <-). unfold stored_ids. apply elem_of_list_to_set, list_elem_of_fmap.
  exists anc. split; [done|]. apply list_elem_of_fmap. exists (ReceiptHash pr, anc). split; [done|].
  by apply elem_of_map_to_list.
Qed.

Lemma size_list_to_set_le (l : list string) : (size (list_to_set l : gset string) <= length l)%nat.
Proof.
  induction l as [|x l IH]; cbn; [by rewrite size_empty|]. rewrite size_union_alt, size_singleton.
  assert (size ((list_to_set l : gset string) ∖ {[x]}) <= size (list_to_set l : gset string))%nat
    by (apply subseteq_size; set_solver). lia.
Qed.

Lemma size_stored_ids : (size stored_ids <= size (byHash s))%nat.
Proof.
  unfold stored_ids. etransitivity; [apply size_list_to_set_le|]. rewrite !length_fmap. by rewrite length_map_to_list.
Qed.

Lemma ancestors_terminate fuel id maxDepth depth frontier seen out :
  (size (stored_ids ∖ seen) < fuel)%nat → ancestors_loop fuel s id maxDepth depth frontier seen out ≠ None.
Proof.
  revert depth frontier seen out. induction fuel as [|fuel IH]; intros depth frontier seen out Hf; [lia|].
  cbn [ancestors_loop]. destruct frontier as [|x frontier]; [done|].
  destruct ((0 <? maxDepth) && (maxDepth <=? depth)); [done|].
  pose proof (walk_frontier_spec id (x :: frontier) seen [] out) as Hw.
  destruct (walk_frontier _ _ _ _ _ _) as [[[seen' next'] out']|e]; [|done].
  destruct Hw as (new & outs & (-> & -> & Hnd & Hdis) & Hy & _). cbn [app].
  destruct new as [|y new]; [by destruct fuel|]. apply IH.
  destruct (proj1 (Hy y) ltac:(left)) as (z & _ & Hl). apply lineage_stored in Hl. specialize (Hdis y ltac:(left)).
  enough (size (stored_ids ∖ (seen ∪ list_to_set (y :: new))) < size (stored_ids ∖ seen))%nat by lia.
  apply subset_size. split; [set_solver|]. intros Hsub. specialize (Hsub y). set_solver.
Qed.

(** What holds before each iteration; [done_] are the expanded identifiers. *)
Record walk_inv (id : string) (done_ : gset string) (frontier : list string) (seen : gset string)
    (out : list DecisionReceipt) : Prop := {
  wi_seen : seen = done_ ∪ list_to_set frontier;
  wi_start : id ∈ seen;
  wi_reach : ∀ x, x ∈ seen → rtc lineage id x;
  wi_closed : ∀ x y, x ∈ done_ → lineage x y → y ∈ seen;
  wi_out : ∀ r, r ∈ out ↔ ∃ x, x ∈ done_ ∧ x ≠ id ∧ byID s !! x = Some r;
}.

Lemma walk_inv_step id done_ frontier seen out seen' next out' :
  walk_inv id done_ frontier seen out → walk_frontier s id frontier seen [] out = Ok (seen', next, out') →
  walk_inv id (done_ ∪ list_to_set frontier) next seen' out'.
Proof.
  intros [Hs Hst Hre Hcl Ho] Hw. pose proof (walk_frontier_spec id frontier seen [] out) as H. rewrite Hw in H.
  destruct H as (new & outs & (Hn & -> & _ & _) & Hy & -> & Ho'). cbn in Hn. subst next. constructor.
  - by rewrite Hs.
  - set_solver.
  - intros x [Hx|Hx]%elem_of_union; [by apply Hre|]. apply elem_of_list_to_set, Hy in Hx as (z & Hz & Hl).
    eapply rtc_r; [|exact Hl]. apply Hre. set_solver.
  - intros x y [Hx|Hx]%elem_of_union Hl; [apply elem_of_union; left; by eapply Hcl|].
    apply elem_of_union. right. apply elem_of_list_to_set, Hy. exists x. split; [set_solver|done].
  - intros r. rewrite elem_of_app, Ho, Ho'. setoid_rewrite elem_of_union. setoid_rewrite elem_of_list_to_set.
    split; [intros [(x & ? & ?)|(x & ? & ?)]; exists x; auto|].
    intros (x & [?|?] & ?); [left|right]; eauto.
Qed.

Lemma ancestors_loop_spec fuel id depth done_ frontier seen out :
  walk_inv id done_ frontier seen out →
  match ancestors_loop fuel s id 0 depth frontier seen out with
  | Some (Ok res) => ∀ r, r ∈ res ↔ ∃ x, x ≠ id ∧ rtc lineage id x ∧ byID s !! x = Some r
  | Some (Err e) => e = ErrCycle
  | None => True
  end.
Proof.
  revert depth done_ frontier seen out. induction fuel as [|fuel IH]; intros depth done_ frontier seen out Hinv;
    cbn [ancestors_loop]; (destruct frontier as [|x frontier]; [|cbn [Z.ltb andb]]).
  1, 3: destruct Hinv as [Hs Hst Hre Hcl Ho]; assert (seen = done_) as -> by set_solver;
    intros r; rewrite Ho; split;
    [intros (y & Hy & ? & ?); exists y; split_and!; [done|by apply Hre|done]
    |intros (y & ? & Hy & ?); exists y; split_and!; [|done|done];
     revert Hst; clear -Hy Hcl; induction Hy as [|a b c Hab _ IH]; intros Ha; [done|apply IH; by eapply Hcl]].
  - done.
  - destruct (walk_frontier s id (x :: frontier) seen [] out) as [[[seen' next] out']|e] eqn:Hw.
    + eapply IH, walk_inv_step; [exact Hinv|exact Hw].
    + pose proof (walk_frontier_spec id (x :: frontier) seen [] out) as H. by rewrite Hw in H.
Qed.
End ancestors.

Lemma ancestors_total (s : InMemoryStore) (id : string) maxDepth : Ancestors s id maxDepth ≠ None.
Proof.
  apply ancestors_terminate. pose proof (size_stored_ids s).
  assert (size (stored_ids s ∖ {[id]}) <= size (stored_ids s))%nat by (apply subseteq_size; set_solver). lia.
Qed.

(** C38. The lineage walk always terminates, and without a depth limit it either
    reports a cycle or returns exactly the stored receipts of the other
    identifiers reachable over lineage pointers. *)
Theorem ancestors_complete (s : InMemoryStore) (id : string) :
  (∀ maxDepth, Ancestors s id maxDepth ≠ None) ∧
  match Ancestors s id 0 with
  | Some (Ok out) => ∀ r, r ∈ out ↔ ∃ x, x ≠ id ∧ rtc (lineage s) id x ∧ byID s !! x = Some r
  | Some (Err e) => e = ErrCycle
  | None => False
  end.
Proof.
  split; [by intros maxDepth; apply ancestors_total|]. pose proof (ancestors_total s id 0) as Hterm. pose proof (ancestors_loop_spec s (size (byHash s) + 2) id 0 ∅ [id] {[id]} []) as H.
  unfold Ancestors in *. destruct (ancestors_loop _ _ _ _ _ _ _ _) as [[out|e]|]; [apply H|apply H|done];
    (constructor; [set_solver|set_solver| |set_solver|set_solver]); intros x ->%elem_of_singleton; apply rtc_refl.
Qed.

(** ** Emission *)

Lemma after_last_none c s : no_char c s = true → after_last c s = None.
Proof.
  unfold no_char. induction s as [|d s IH]; cbn; [done|]. intros H. bool_to_prop. rewrite IH by done.
  by rewrite bool_decide_false.
Qed.

Lemma after_last_app c s t : no_char c t = true → after_last c (s +:+ String c t)%string = Some t.
Proof.
  intros Ht. induction s as [|d s IH].
  - change ("" +:+ String c t)%string with (String c t). cbn [after_last]. rewrite after_last_none by done.
    by rewrite bool_decide_true.
  - change (String d s +:+ String c t)%string with (String d (s +:+ String c t)). cbn [after_last]. by rewrite IH.
Qed.

Section emission.
Context {K : Type} `{!Keystore K, !KeystoreLaws K}.

(** What [Emit] does for a judged commit. *)
Lemma emit_spec (svc : Service (K := K)) (s : InMemoryStore) (now : time) (id : string) (sink_ok : bool)
    (input : EmitInput)
    (Hready : ks_ready (SKeystore svc) (SigningAlgo svc)) (Hid : id ≠ ""%string)
    (Hdec : DecisionID (Commit input) ≠ ""%string) (Hagg : CAggregate (Commit input) ≠ VerdictUnknown) :
  ∃ s' r, Emit svc s now id sink_ok input = (s', Ok (r, negb sink_ok)) ∧
    RID r = id ∧ Subject r = DecisionID (Commit input) ∧ RAggregate r = FromDecision (CAggregate (Commit input)) ∧
    OKind <$> Facets r ≡ₚ Kind <$> FacetVerdicts (Commit input) ∧
    GetByID s' id = Ok r ∧ GetByHash s' (CanonicalHash (with_proof r None)) = Ok r ∧
    is_Some (RProof r) ∧
    ∀ svc' : Service (K := K), ks_later (SKeystore svc) (SKeystore svc') → VerifyReceipt svc' r = Ok true.
Proof.
  unfold Emit. rewrite !bool_decide_false by done.
  set (issuer activeID := if bool_decide (IssuerDID svc = ""%string) then ("did:cp:" +:+ activeID)%string else IssuerDID svc).
  destruct (ks_sign_ok (SKeystore svc) (SigningAlgo svc) [] Hready) as (_ & activeID & _ & Hactive). rewrite Hactive.
  fold (issuer activeID). set (r0 := with_issuer (draft id now input) (issuer activeID)). cbv zeta.
  destruct (ks_sign_ok (SKeystore svc) (SigningAlgo svc) (bytes_of (CanonicalHash r0)) Hready) as (sig & keyID & Hs & _).
  rewrite Hs. pose proof (ks_id_plain _ _ _ _ _ Hready Hs) as Hplain.
  set (p := {| Scheme := SigningAlgo svc |}). unfold Put. rewrite bool_decide_false by done. cbv zeta.
  assert (with_proof (with_proof r0 (Some p)) None = r0) as Hr0 by done. rewrite Hr0.
  eexists _, _. split; [reflexivity|]. split_and!; [done|done|done| | | |done|].
  - cbn. unfold facetsFromCommit. rewrite sort_slice_perm, <- list_fmap_compose. done.
  - unfold GetByID. cbn [byID]. change (RID (with_proof r0 (Some p))) with id. by rewrite lookup_insert_eq.
  - unfold GetByHash. rewrite Hr0. cbn [byHash]. by rewrite lookup_insert_eq.
  - intros svc' Hl. unfold VerifyReceipt. cbn [RProof with_proof p Signature VerificationMethod].
    rewrite base64_decode_encode. unfold key_id_of.
    change ("#" +:+ keyID)%string with (String (chr 35) keyID). rewrite after_last_app by done.
    change (with_proof _ None) with r0. by rewrite (ks_sign_verifies _ _ _ _ _ _ Hready Hl Hs).
Qed.

(** Issuing receipts, against the keystore interface: for a judged commit and a
    ready keystore, [Emit] stores a receipt for exactly that decision and
    verdict, retrievable by identifier and by canonical hash, whose signature
    verifies now and after any later key rotation; a failing telemetry sink
    does not undo it. *)
Theorem emit_verifies (svc : Service (K := K)) (s : InMemoryStore) (now : time) (id : string) (sink_ok : bool)
    (input : EmitInput)
    (Hready : ks_ready (SKeystore svc) (SigningAlgo svc)) (Hid : id ≠ ""%string)
    (Hdec : DecisionID (Commit input) ≠ ""%string) (Hagg : CAggregate (Commit input) ≠ VerdictUnknown) :
  ∃ s' r, Emit svc s now id sink_ok input = (s', Ok (r, negb sink_ok)) ∧
    RID r = id ∧ Subject r = DecisionID (Commit input) ∧ RAggregate r = FromDecision (CAggregate (Commit input)) ∧
    OKind <$> Facets r ≡ₚ Kind <$> FacetVerdicts (Commit input) ∧
    GetByID s' id = Ok r ∧ GetByHash s' (CanonicalHash (with_proof r None)) = Ok r ∧
    ∀ svc' : Service (K := K), ks_later (SKeystore svc) (SKeystore svc') → VerifyReceipt svc' r = Ok true.
Proof.
  destruct (emit_spec svc s now id sink_ok input Hready Hid Hdec Hagg) as (s' & r & He & H1 & H2 & H3 & H4 & H5 & H6 & _ & Hv).
  exists s', r. by split_and!.
Qed.
End emission.

(** ** The agent-receipt shape *)

Definition unsigned_at (r : DecisionReceipt) : DecisionReceipt :=
  with_proof r ((λ p, {| Scheme := Scheme p; Signature := Signature p; VerificationMethod := VerificationMethod p;
                         SignedAt := time_zero |}) <$> RProof r).

Definition extra_string (a : AgentReceipt) (key : string) : string :=
  match ACPExtra a !! key with Some (AnyString s) => s | _ => "" end.

Definition extra_float (a : AgentReceipt) (key : string) : float64 :=
  match ACPExtra a !! key with Some (AnyFloat x) => x | _ => f_zero end.

(** A receipt read back from its agent shape. *)
Definition of_agent (a : AgentReceipt) : DecisionReceipt :=
  {| RID := AID a; IssuedAt := AIssuedAt a; Issuer := AIssuer a; Subject := ASubject a;
     RSpecID := extra_string a "spec_id"; EvidenceRoot := ARoot (AEvidence a); ModelID := AModelID (AEvidence a);
     RAggregate := AVerdictStr a; RVetoedBy := extra_string a "vetoed_by";
     RConfidence := extra_float a "confidence";
     Facets := (λ f, {| OKind := AKind f; OVerdict := AVerdict f; OConfidence := AConfidence f;
                        OReason := AReason f |}) <$> AFacets a;
     ProviderReceipts := (λ l, {| PRProvider := ALProvider l; PRTrustLevel := ALTrustLevel l;
                                  ReceiptHash := ALReceipt l |}) <$> ALineage a;
     HITL := (λ v, {| HTicketID := ARTicketID v; HAction := ARAction v; HReviewer := ARReviewer v;
                      HResolvedAt := ARResolvedAt v; HNote := ARNote v |}) <$> AReview a;
     RProof := Some {| Scheme := Alg (ASignature a); Signature := Value (ASignature a);
                       VerificationMethod := AVerificationMethod (ASignature a); SignedAt := time_zero |} |}.

Lemma fmap_id_ext {A} (f : A → A) (l : list A) : (∀ x, f x = x) → f <$> l = l.
Proof. intros Hf. induction l as [|x l IH]; [done|]. rewrite fmap_cons, Hf. by f_equal. Qed.

Lemma of_agent_ToAgentReceipt r a : ToAgentReceipt r = Ok a → of_agent a = unsigned_at r.
Proof.
  unfold ToAgentReceipt, unsigned_at, with_proof. destruct (RProof r) as [p|]; [|done]. cbv zeta.
  intros H%ok_inj. subst a. unfold of_agent, extra_string, extra_float.
  cbn [AID AIssuedAt AIssuer ASubject AVerdictStr AFacets AEvidence ALineage AReview ACPExtra ASignature
    ARoot AModelID Alg Value AVerificationMethod list_to_map foldr fst snd fmap option_fmap option_map].
  rewrite <- !list_fmap_compose, !fmap_id_ext by (by intros []).
  destruct (HITL r) as [[]|]; reflexivity.
Qed.

(** The agent-receipt shape carries the canonical hash and loses nothing but the
    signing time: the receipt can be read back from it; an unsigned receipt has
    none. *)
Theorem agent_receipt_lossless (r : DecisionReceipt) :
  match ToAgentReceipt r with
  | Ok a => ADigest (AEvidence a) = CanonicalHash (with_proof r None) ∧ of_agent a = unsigned_at r
  | Err e => e = ErrUnsigned ∧ RProof r = None
  end.
Proof.
  destruct (ToAgentReceipt r) as [a|e] eqn:H.
  - split; [|by apply of_agent_ToAgentReceipt]. unfold ToAgentReceipt in H. destruct (RProof r); [|done].
    cbv zeta in H. apply ok_inj in H. by subst a.
  - unfold ToAgentReceipt in H. destruct (RProof r); [done|]. by injection H as <-.
Qed.

(** ** Concrete receipts *)

Definition ex_receipt (id : string) (prs : list ProviderReceipt) : DecisionReceipt :=
  {| RID := id; IssuedAt := 0; Issuer := "did:cp:k"; Subject := "d"; RSpecID := "s"; EvidenceRoot := ""; ModelID := "";
     RAggregate := ReceiptApprove; RVetoedBy := ""; RConfidence := f_one;
     Facets := [{| OKind := "safety"; OVerdict := "APPROVE"; OConfidence := f_one; OReason := "" |};
                {| OKind := "correctness"; OVerdict := "APPROVE"; OConfidence := f_one; OReason := "" |}];
     ProviderReceipts := prs; HITL := None; RProof := None |}.

Definition ex_permuted : DecisionReceipt :=
  let r := ex_receipt "r" [] in
  {| RID := RID r; IssuedAt := IssuedAt r; Issuer := Issuer r; Subject := Subject r; RSpecID := RSpecID r;
     EvidenceRoot := ""; ModelID := ""; RAggregate := RAggregate r; RVetoedBy := ""; RConfidence := RConfidence r;
     Facets := reverse (Facets r); ProviderReceipts := []; HITL := None; RProof := None |}.

Lemma ex_short r : r = ex_receipt "r" [] ∨ r = ex_permuted → receipt_short r.
Proof. intros [->| ->]; (split_and!; [repeat constructor|done|done|repeat constructor|constructor|done]). Defined.

Lemma canonical_binding_witness :
  CanonicalHash (ex_receipt "r" []) = CanonicalHash ex_permuted ∧
  (same_content (ex_receipt "r" []) ex_permuted ∨
   is_collision (canonical_bytes (ex_receipt "r" []), canonical_bytes ex_permuted)).
Proof.
  assert (CanonicalHash (ex_receipt "r" []) = CanonicalHash ex_permuted) as H by (vm_compute; reflexivity).
  split; [exact H|]. apply canonical_binding; [apply ex_short; by left|apply ex_short; by right|exact H].
Defined.

Lemma canonical_order_witness : CanonicalHash (ex_receipt "r" []) = CanonicalHash ex_permuted.
Proof.
  apply canonical_order; [reflexivity..| | |constructor|reflexivity].
  - apply (bool_decide_unpack (NoDup _)). vm_compute. exact I.
  - symmetry. apply reverse_Permutation.
Defined.

Section example.
#[local] Existing Instance toy_primitives.
#[local] Existing Instance toy_laws.

Definition ex_service : Service (K := MemoryKeystore) := NewService (NewMemory (Some ex_ring)).
Definition ex_later_service : Service (K := MemoryKeystore) := NewService (NewMemory (Some ex_rotated)).

Definition ex_input : EmitInput :=
  {| Commit := ex_commit ex_facets VerdictApprove; InEvidenceRoot := ""; InModelID := "m"; InProviders := [];
     InHITL := None; Reviewer := "" |}.

Lemma emit_verifies_witness :
  ∃ s' r, Emit ex_service NewInMemoryStore 5 "r1" true ex_input = (s', Ok (r, false)) ∧
    GetByID s' "r1" = Ok r ∧ VerifyReceipt ex_later_service r = Ok true.
Proof.
  assert (ks_ready (SKeystore ex_service) (SigningAlgo ex_service)) as Hready.
  { split; [exact (ring_inv_reachable _ ex_ring_reachable)|vm_compute; discriminate]. }
  assert (ks_later (SKeystore ex_service) (SKeystore ex_later_service)) as Hl.
  { apply rtc_once. apply ex_step. vm_compute. reflexivity. }
  destruct (emit_verifies ex_service NewInMemoryStore 5 "r1" true ex_input Hready ltac:(discriminate)
    ltac:(vm_compute; discriminate) ltac:(discriminate)) as (s' & r & H1 & _ & _ & _ & _ & H2 & _ & H3).
  exists s', r. split; [exact H1|]. split; [exact H2|]. exact (H3 ex_later_service Hl).
Defined.
End example.

(** A diamond is not a cycle, but is reported as one: [d] was built on [b] and
    [c], both built on [a]. *)
Definition put_all (rs : list DecisionReceipt) : InMemoryStore :=
  foldl (λ s r, match Put s r with Ok s' => s' | Err _ => s end) NewInMemoryStore rs.

Definition points_at (rs : list DecisionReceipt) : list ProviderReceipt :=
  (λ r, {| PRProvider := "p"; PRTrustLevel := "system"; ReceiptHash := CanonicalHash r |}) <$> rs.

Definition ex_a : DecisionReceipt := ex_receipt "a" [].
Definition ex_b : DecisionReceipt := ex_receipt "b" (points_at [ex_a]).
Definition ex_c : DecisionReceipt := ex_receipt "c" (points_at [ex_a]).
Definition ex_d : DecisionReceipt := ex_receipt "d" (points_at [ex_b; ex_c]).

Example diamond_reported_as_cycle :
  Ancestors (put_all [ex_a; ex_b; ex_c; ex_d]) "d" 0 = Some (Err ErrCycle) ∧
  (length <$> (match Ancestors (put_all [ex_a; ex_b; ex_c; ex_d]) "b" 0 with Some (Ok l) => Some l | _ => None end)) = Some 1%nat.
Proof. split; vm_compute; reflexivity. Qed.
