(* ===== verification/Resilience.v ===== *)
(** * Resilient contract queries ([engine/internal/submitter/resilience.go])

    The circuit breaker ([allow], [onSuccess], [onFailure]), the back-off and the
    attempts of [QueryGlobalState]. Calls overlap: a call takes the lock in
    [allow] and again when it ends, so the breaker is a step relation over the
    calls in flight. The node's answers and the cancellation of the caller's
    context are arguments. *)

From S2P Require Import Prelude GoLib.
From Stdlib Require Import Floats.SpecFloat.

Local Open Scope Z_scope.

(** ** Configuration *)

Record RetryConfig := { MaxAttempts : Z; BaseDelay : Z; MaxDelay : Z; Multiplier : float64 }.
Record CircuitBreakerConfig := { FailureThreshold : Z; OpenTimeout : Z }.

Definition DefaultRetryConfig : RetryConfig :=
  {| MaxAttempts := 4; BaseDelay := 200 * 1000000; MaxDelay := 3 * second; Multiplier := f_of_Z 2 |}.
Definition DefaultCircuitBreakerConfig : CircuitBreakerConfig :=
  {| FailureThreshold := 5; OpenTimeout := 30 * second |}.

(** ** The breaker *)

Inductive circuitState := circuitClosed | circuitOpen | circuitHalfOpen.
#[export] Instance circuitState_eq_decision : EqDecision circuitState.
Proof. solve_decision. Defined.

Definition circuitState_String (s : circuitState) : string :=
  match s with circuitClosed => "closed" | circuitOpen => "open" | circuitHalfOpen => "half-open" end.

Record breaker := { state : circuitState; consecutiveFail : Z; openedAt : time; probeInFlight : bool }.

Definition NewResilientQuerier : breaker :=
  {| state := circuitClosed; consecutiveFail := 0; openedAt := time_zero; probeInFlight := false |}.

Section breaker.
Context (cb : CircuitBreakerConfig).

Definition stateLocked (q : breaker) (now : time) : circuitState :=
  if bool_decide (state q = circuitOpen) && (OpenTimeout cb <=? time_sub now (openedAt q))
  then circuitHalfOpen else state q.

Definition State (q : breaker) (now : time) : string := circuitState_String (stateLocked q now).

(** The breaker, whether the call may proceed, and whether it is a probe. *)
Definition allow (q : breaker) (now : time) : breaker * (bool * bool) :=
  match stateLocked q now with
  | circuitOpen => (q, (false, false))
  | circuitHalfOpen =>
      if probeInFlight q then (q, (false, false))
      else ({| state := circuitHalfOpen; consecutiveFail := consecutiveFail q; openedAt := openedAt q;
               probeInFlight := true |}, (true, true))
  | circuitClosed => (q, (true, false))
  end.

Definition onSuccess (q : breaker) (probe : bool) : breaker :=
  {| state := circuitClosed; consecutiveFail := 0; openedAt := openedAt q;
     probeInFlight := if probe then false else probeInFlight q |}.

Definition onFailure (q : breaker) (now : time) (probe : bool) : breaker :=
  if probe
  then {| state := circuitOpen; consecutiveFail := consecutiveFail q; openedAt := now; probeInFlight := false |}
  else
    let n := consecutiveFail q + 1 in
    if FailureThreshold cb <=? n
    then {| state := circuitOpen; consecutiveFail := n; openedAt := now; probeInFlight := probeInFlight q |}
    else {| state := state q; consecutiveFail := n; openedAt := openedAt q; probeInFlight := probeInFlight q |}.

End breaker.

(** ** Back-off *)

(** [math.Pow] for an integral exponent, with its rounding: the fraction and the
    exponent of the base are squared separately. *)
Fixpoint pow_loop (fuel : nat) (i : Z) (x1 : float64) (xe : Z) (a1 : float64) (ae : Z) : float64 * Z :=
  match fuel with
  | O => (a1, ae)
  | S fuel =>
      if i =? 0 then (a1, ae)
      else if (xe <? -4096) || (4096 <? xe) then (a1, ae + xe)
      else
        let '(a1, ae) := if Z.odd i then (f_mul a1 x1, ae + xe) else (a1, ae) in
        let x2 := f_mul x1 x1 in
        let xe := 2 * xe in
        let '(x2, xe) := if f_ltb x2 (f_dec 5 1) then (f_add x2 x2, xe - 1) else (x2, xe) in
        pow_loop fuel (i / 2) x2 xe a1 ae
  end.

Definition f_pow (x : float64) (n : Z) : float64 :=
  if (n =? 0) || f_eqb x f_one then f_one
  else if n =? 1 then x
  else
    let '(x1, xe) := SFfrexp 53 1024 x in
    let '(a1, ae) := pow_loop 64 n x1 xe f_one 0 in
    SFldexp 53 1024 a1 ae.

(** [time.Duration(d)]: truncation towards zero, for values that fit. *)
Definition f_trunc (x : float64) : Z :=
  match x with
  | S754_finite neg m e =>
      let v := if 0 <=? e then Zpos m * 2 ^ e else Zpos m / 2 ^ (- e) in if neg then - v else v
  | _ => 0
  end.

Definition backoffDelay (r : RetryConfig) (attempt : Z) : Z :=
  if attempt <=? 0 then 0
  else
    let d := f_mul (f_of_Z (BaseDelay r)) (f_pow (Multiplier r) (attempt - 1)) in
    f_trunc (if f_ltb (f_of_Z (MaxDelay r)) d then f_of_Z (MaxDelay r) else d).

(** ** The attempts of one call *)

Inductive call_outcome (R : Type) :=
| Succeeded (res : R)
| Exhausted (lastErr : option string)
| Cancelled.
Arguments Succeeded {R} res.
Arguments Exhausted {R} lastErr.
Arguments Cancelled {R}.

Section attempts.
Context {R : Type} (r : RetryConfig) (probe : bool).
(** The answer to each attempt, and whether the context ends during the wait
    before it. *)
Context (answer : Z → result string R) (done_before : Z → bool).

(** The attempts from number [attempt] on; the number of queries made, the waits
    and how the call ends. *)
Fixpoint attempts_loop (fuel : nat) (attempt made : Z) (delays : list Z) (lastErr : option string)
    : Z * list Z * call_outcome R :=
  match fuel with
  | O => (made, delays, Exhausted lastErr)
  | S fuel =>
      let delays := if 1 <? attempt then delays ++ [backoffDelay r (attempt - 1)] else delays in
      if (1 <? attempt) && done_before attempt then (made, delays, Cancelled)
      else match answer attempt with
           | Ok res => (made + 1, delays, Succeeded res)
           | Err e =>
               if probe then (made + 1, delays, Exhausted (Some e))
               else attempts_loop fuel (attempt + 1) (made + 1) delays (Some e)
           end
  end.

Definition attempts : Z * list Z * call_outcome R :=
  attempts_loop (Z.to_nat (MaxAttempts r)) 1 0 [] None.

End attempts.

(** What the end of a call does to the breaker: a cancelled call does nothing. *)
Definition finish {R} (cb : CircuitBreakerConfig) (q : breaker) (now : time) (probe : bool) (o : call_outcome R) : breaker :=
  match o with
  | Succeeded _ => onSuccess q probe
  | Exhausted _ => onFailure cb q now probe
  | Cancelled => q
  end.

(** [QueryGlobalState] without overlapping calls: [None] is [ErrCircuitOpen]. *)
Definition QueryGlobalState {R} (r : RetryConfig) (cb : CircuitBreakerConfig) (q : breaker) (t0 t1 : time)
    (answer : Z → result string R) (done_before : Z → bool) : breaker * option (Z * call_outcome R) :=
  let '(q, (proceed, probe)) := allow cb q t0 in
  if negb proceed then (q, None)
  else
    let '(made, _, o) := attempts r probe answer done_before in
    (finish cb q t1 probe o, Some (made, o)).

(** ** Overlapping calls *)

(** The breaker and the calls in flight, each a probe or not. *)
Record querier := { brk : breaker; calls : list bool }.

Section steps.
Context (r : RetryConfig) (cb : CircuitBreakerConfig).

(** A call that starts, and one that ends with an outcome that its attempts can
    have. *)
Inductive call_step : querier → querier → Prop :=
| step_start s now q probe :
    allow cb (brk s) now = (q, (true, probe)) → call_step s {| brk := q; calls := probe :: calls s |}
| step_reject s now q probe :
    allow cb (brk s) now = (q, (false, probe)) → call_step s {| brk := q; calls := calls s |}
| step_finish {R} s now l1 probe l2 (answer : Z → result string R) done_before :
    calls s = l1 ++ probe :: l2 →
    call_step s {| brk := finish cb (brk s) now probe (snd (attempts r probe answer done_before)); calls := l1 ++ l2 |}.

Definition querier_init : querier := {| brk := NewResilientQuerier; calls := [] |}.
Definition querier_reachable : querier → Prop := rtc call_step querier_init.
End steps.

(** ** Attempts *)

(** A probe makes one query and is never cancelled; any other call makes at most
    [MaxAttempts] and ends by success, exhaustion or cancellation. *)
Lemma attempts_loop_bounds {R} r probe (answer : Z → result string R) dn fuel attempt made delays e :
  1 <= attempt →
  let '(n, ds, o) := attempts_loop r probe answer dn fuel attempt made delays e in
  made <= n <= made + Z.of_nat fuel
  ∧ match o with
    | Succeeded res => made < n ∧ answer (attempt + (n - made) - 1) = Ok res
                       ∧ ∀ k, attempt <= k < attempt + (n - made) - 1 → is_ok (answer k) = false
    | Exhausted _ => ∀ k, attempt <= k < attempt + (n - made) → is_ok (answer k) = false
    | Cancelled => 1 < attempt + (n - made) ∧ dn (attempt + (n - made)) = true
    end.
Proof.
  revert attempt made delays e. induction fuel as [|fuel IH]; intros attempt made delays e Ha; cbn [attempts_loop].
  { split; [lia|]. intros; lia. }
  destruct ((1 <? attempt) && dn attempt) eqn:Ec.
  { bool_to_prop. split; [lia|]. replace (attempt + (made - made)) with attempt by lia. done. }
  destruct (answer attempt) as [res|err] eqn:Ea.
  { split; [lia|]. replace (attempt + (made + 1 - made) - 1) with attempt by lia. split_and!; [lia|done|]. intros; lia. }
  destruct probe.
  { split; [lia|]. intros k Hk. replace k with attempt by lia. by rewrite Ea. }
  specialize (IH (attempt + 1) (made + 1) (if 1 <? attempt then delays ++ [backoffDelay r (attempt - 1)] else delays) (Some err) ltac:(lia)).
  destruct (attempts_loop _ _ _ _ _ _ _ _ _) as [[n ds] o]. destruct IH as [Hn Ho]. split; [lia|].
  replace (attempt + 1 + (n - (made + 1))) with (attempt + (n - made)) in Ho by lia.
  assert (∀ m, (∀ k, attempt + 1 <= k < m → is_ok (answer k) = false) → ∀ k, attempt <= k < m → is_ok (answer k) = false) as Hext.
  { intros m H k Hk. destruct (Z.eq_dec k attempt) as [->|]; [by rewrite Ea|]. apply H. lia. }
  destruct o as [res|le|].
  - destruct Ho as (H1 & H2 & H3). split_and!; [lia|done|]. by apply Hext.
  - by apply Hext.
  - destruct Ho as (H1 & H2). split; [lia|done].
Qed.

Lemma attempts_probe {R} r (answer : Z → result string R) dn :
  0 < MaxAttempts r →
  let '(n, ds, o) := attempts r true answer dn in
  n = 1 ∧ ds = [] ∧ o = match answer 1 with Ok res => Succeeded res | Err e => Exhausted (Some e) end.
Proof.
  intros H. unfold attempts. destruct (Z.to_nat (MaxAttempts r)) as [|k] eqn:E; [lia|]. cbn. by destruct (answer 1).
Qed.

Lemma probe_not_cancelled {R} r (answer : Z → result string R) dn : snd (attempts r true answer dn) ≠ Cancelled.
Proof.
  unfold attempts. destruct (Z.to_nat (MaxAttempts r)) as [|k]; [done|]. cbn. by destruct (answer 1).
Qed.

(** The waits of a call under the default configuration: 200, 400 and 800
    milliseconds, as many as there are further attempts. *)
Lemma default_delays {R} probe (answer : Z → result string R) dn :
  let '(n, ds, _) := attempts DefaultRetryConfig probe answer dn in
  ds = take (length ds) [200 * 1000000; 400 * 1000000; 800 * 1000000] ∧ Z.of_nat (length ds) <= n <= 4.
Proof.
  unfold attempts. change (Z.to_nat (MaxAttempts DefaultRetryConfig)) with 4%nat.
  cbn [attempts_loop].
  repeat match goal with |- context [backoffDelay DefaultRetryConfig ?k] =>
    let v := eval vm_compute in (backoffDelay DefaultRetryConfig k) in
    change (backoffDelay DefaultRetryConfig k) with v end.
  cbn [Z.ltb Z.compare Pos.compare Pos.compare_cont andb app Z.add Pos.add Pos.succ].
  repeat case_match; simplify_eq; cbn; split; try done; lia.
Qed.

(** ** The breaker *)

Definition probes (s : querier) : Z := count id (calls s).

Record breaker_ok (cb : CircuitBreakerConfig) (s : querier) : Prop := {
  ok_slot : probes s = if probeInFlight (brk s) then 1 else 0;
  ok_half : state (brk s) = circuitHalfOpen → probeInFlight (brk s) = true;
  ok_closed : state (brk s) = circuitClosed → 0 <= consecutiveFail (brk s) < FailureThreshold cb }.

Lemma breaker_ok_init cb : 0 < FailureThreshold cb → breaker_ok cb querier_init.
Proof. by split. Qed.

Lemma stateLocked_half cb q now :
  stateLocked cb q now = circuitHalfOpen ↔
  state q = circuitHalfOpen ∨ state q = circuitOpen ∧ OpenTimeout cb <= time_sub now (openedAt q).
Proof. unfold stateLocked. destruct (state q); cbn; case_match; bool_to_prop; naive_solver lia. Qed.

Lemma probes_app r l1 p l2 :
  probes {| brk := r; calls := l1 ++ p :: l2 |} =
  (if p then 1 else 0) + probes {| brk := r; calls := l1 ++ l2 |}.
Proof. unfold probes. cbn [calls]. rewrite !count_app, count_cons. destruct p; cbn; lia. Qed.

(** The end of a call, whatever its outcome: a probe gives its slot back. *)
Lemma finish_ok {R} cb r s now l1 p l2 (answer : Z → result string R) dn :
  0 < FailureThreshold cb → calls s = l1 ++ p :: l2 → breaker_ok cb s →
  breaker_ok cb {| brk := finish cb (brk s) now p (snd (attempts r p answer dn)); calls := l1 ++ l2 |}.
Proof.
  intros Ht Hc [Hs Hh Hcl]. destruct s as [q cs]. cbn [brk calls] in *. subst cs.
  rewrite probes_app in Hs. pose proof (probe_not_cancelled r answer dn) as Hp.
  assert (0 <= probes {| brk := q; calls := l1 ++ l2 |}) as H0 by (unfold probes; apply count_range).
  destruct p.
  - destruct (snd (attempts r true answer dn)); [| |done]; destruct (probeInFlight q); try lia;
      split; cbn [brk finish onSuccess onFailure state probeInFlight consecutiveFail]; unfold probes in *; cbn [calls] in *; try done; lia.
  - destruct (snd (attempts r false answer dn)); cbn [finish onSuccess onFailure].
    + split; cbn [brk state probeInFlight consecutiveFail]; unfold probes in *; cbn [calls] in *; try done; lia.
    + destruct (FailureThreshold cb <=? consecutiveFail q + 1) eqn:E; bool_to_prop;
        split; cbn [brk state probeInFlight consecutiveFail]; unfold probes in *; cbn [calls] in *; try done; try lia.
    + split; cbn [brk]; unfold probes in *; cbn [calls] in *; try done; lia.
Qed.

Lemma allow_cases cb q now :
  allow cb q now =
  match stateLocked cb q now with
  | circuitClosed => (q, (true, false))
  | circuitOpen => (q, (false, false))
  | circuitHalfOpen => if probeInFlight q then (q, (false, false)) else
      ({| state := circuitHalfOpen; consecutiveFail := consecutiveFail q; openedAt := openedAt q;
          probeInFlight := true |}, (true, true))
  end.
Proof. unfold allow. by destruct (stateLocked cb q now). Qed.

Lemma breaker_ok_step r cb s s' :
  0 < FailureThreshold cb → call_step r cb s s' → breaker_ok cb s → breaker_ok cb s'.
Proof.
  intros Ht Hstep Hok. destruct Hstep as [s now q probe Ha|s now q probe Ha|R s now l1 probe l2 answer dn Hc].
  - rewrite allow_cases in Ha. destruct Hok as [Hs Hh Hcl].
    destruct (stateLocked cb (brk s) now) eqn:E; [|done|].
    + simplify_eq. split; [|done..]. unfold probes in *. cbn [calls brk]. by rewrite count_cons.
    + destruct (probeInFlight (brk s)) eqn:Ep; [done|]. simplify_eq.
      split; [|done..]. unfold probes in *. cbn [calls brk probeInFlight]. rewrite count_cons. cbn. lia.
  - assert (q = brk s) as -> by (rewrite allow_cases in Ha; repeat case_match; by simplify_eq). by destruct Hok.
  - by apply finish_ok.
Qed.

Lemma reachable_ok r cb s : 0 < FailureThreshold cb → querier_reachable r cb s → breaker_ok cb s.
Proof.
  intros Ht Hr. unfold querier_reachable in Hr. assert (breaker_ok cb querier_init) as H0 by by apply breaker_ok_init.
  induction Hr as [|x y z Hxy _ IH]; [done|]. apply IH. by eapply breaker_ok_step.
Qed.

(** ** Non-overlapping calls *)

(** A call on a breaker whose slot is free. *)
Lemma QueryGlobalState_probe {R} r cb q t0 t1 (answer : Z → result string R) dn :
  0 < MaxAttempts r → stateLocked cb q t0 = circuitHalfOpen → probeInFlight q = false →
  QueryGlobalState r cb q t0 t1 answer dn =
  match answer 1 with
  | Ok res => ({| state := circuitClosed; consecutiveFail := 0; openedAt := openedAt q; probeInFlight := false |},
               Some (1, Succeeded res))
  | Err e => ({| state := circuitOpen; consecutiveFail := consecutiveFail q; openedAt := t1; probeInFlight := false |},
              Some (1, Exhausted (Some e)))
  end.
Proof.
  intros Hm Hs Hp. unfold QueryGlobalState. rewrite allow_cases, Hs, Hp. cbn [negb].
  pose proof (attempts_probe r answer dn Hm) as Ha. destruct (attempts r true answer dn) as [[n ds] o].
  destruct Ha as (-> & -> & ->). by destruct (answer 1).
Qed.

Lemma attempts_first {R} r probe (answer : Z → result string R) dn res :
  0 < MaxAttempts r → answer 1 = Ok res → attempts r probe answer dn = (1, [], Succeeded res).
Proof.
  intros Hm Ha. unfold attempts. destruct (Z.to_nat (MaxAttempts r)) as [|k] eqn:E; [lia|]. cbn. by rewrite Ha.
Qed.

(** Every attempt fails and no context ends: all the attempts are made. *)
Lemma attempts_exhausted {R} r (answer : Z → result string R) dn :
  0 < MaxAttempts r → (∀ k, is_ok (answer k) = false) → (∀ k, dn k = false) →
  ∃ ds e, attempts r false answer dn = (MaxAttempts r, ds, Exhausted (Some e)).
Proof.
  intros Hm Ha Hd.
  assert (∀ fuel attempt made ds le, ∃ ds' e,
    attempts_loop r false answer dn fuel attempt made ds le =
    (made + Z.of_nat fuel, ds', Exhausted (match fuel with O => le | S _ => Some e end))) as H.
  { induction fuel as [|fuel IH]; intros attempt made ds le; cbn [attempts_loop].
    - exists ds, EmptyString. by replace (made + Z.of_nat 0) with made by lia.
    - rewrite Hd, andb_false_r. specialize (Ha attempt). destruct (answer attempt) as [|e]; [done|].
      edestruct IH as (ds' & e' & ->). destruct fuel as [|fuel].
      + exists ds', e. f_equal. f_equal. lia.
      + exists ds', e'. f_equal. f_equal. lia. }
  unfold attempts. destruct (H (Z.to_nat (MaxAttempts r)) 1 0 [] None) as (ds & e & ->).
  destruct (Z.to_nat (MaxAttempts r)) as [|k] eqn:E; [lia|]. exists ds, e. f_equal. f_equal. lia.
Qed.

(** The breaker after [k] calls one after the other that all fail. *)
Fixpoint failing_calls {R} (r : RetryConfig) (cb : CircuitBreakerConfig) (answer : Z → result string R)
    (dn : Z → bool) (clock : nat → time) (k : nat) (q : breaker) : breaker :=
  match k with
  | O => q
  | S k => fst (QueryGlobalState r cb (failing_calls r cb answer dn clock k q) (clock k) (clock (S k)) answer dn)
  end.

Lemma closed_fails {R} r cb q t0 t1 (answer : Z → result string R) dn :
  0 < MaxAttempts r → (∀ k, is_ok (answer k) = false) → (∀ k, dn k = false) → state q = circuitClosed →
  fst (QueryGlobalState r cb q t0 t1 answer dn) = onFailure cb q t1 false.
Proof.
  intros Hm Ha Hd Hs. unfold QueryGlobalState. rewrite allow_cases.
  assert (stateLocked cb q t0 = circuitClosed) as -> by (unfold stateLocked; by rewrite Hs). cbn [negb].
  by destruct (attempts_exhausted r answer dn Hm Ha Hd) as (ds & e & ->).
Qed.

Lemma failing_calls_closed {R} r cb (answer : Z → result string R) dn clock k :
  0 < MaxAttempts r → (∀ k, is_ok (answer k) = false) → (∀ k, dn k = false) →
  Z.of_nat k < FailureThreshold cb →
  failing_calls r cb answer dn clock k NewResilientQuerier =
  {| state := circuitClosed; consecutiveFail := Z.of_nat k; openedAt := time_zero; probeInFlight := false |}.
Proof.
  intros Hm Ha Hd. induction k as [|k IH]; intros Hk; [done|]. cbn [failing_calls].
  rewrite IH by lia. rewrite closed_fails by done. unfold onFailure. cbn [consecutiveFail state openedAt probeInFlight].
  rewrite (proj2 (Z.leb_gt _ _)) by lia. f_equal. lia.
Qed.

(** ** The properties *)

(** C28. In every reachable state of overlapping calls at most one probe is in
    flight, exactly while the slot is taken; the stored state is half-open only
    then, and a closed breaker counts fewer failures than the threshold. *)
Theorem breaker_single_probe r cb s :
  0 < FailureThreshold cb → querier_reachable r cb s →
  probes s <= 1 ∧ (probes s = 1 ↔ probeInFlight (brk s) = true)
  ∧ (state (brk s) = circuitHalfOpen → probes s = 1)
  ∧ (state (brk s) = circuitClosed → 0 <= consecutiveFail (brk s) < FailureThreshold cb)
  ∧ ∀ now, snd (snd (allow cb (brk s) now)) = true → probes s = 0.
Proof.
  intros Ht Hr. destruct (reachable_ok _ _ _ Ht Hr) as [Hs Hh Hc].
  split_and!; [| | |done|].
  - destruct (probeInFlight (brk s)); lia.
  - destruct (probeInFlight (brk s)); lia.
  - intros H. by rewrite Hs, (Hh H).
  - intros now. rewrite allow_cases. destruct (stateLocked cb (brk s) now); [done..|].
    by destruct (probeInFlight (brk s)).
Qed.

(** C29. The circuit never stays shut for good: in every reachable state with no
    call in flight, once [OpenTimeout] has passed since it opened, the next call
    asks the node, and a success returns the answer and closes the circuit. A
    failed probe asks once and opens it again, for [OpenTimeout] from the end of
    the probe, in which every call is rejected without asking. *)
Theorem breaker_recovers {R} r cb s t0 t1 (answer : Z → result string R) dn :
  0 < FailureThreshold cb → 0 < MaxAttempts r → querier_reachable r cb s → calls s = [] →
  (state (brk s) = circuitOpen → OpenTimeout cb <= time_sub t0 (openedAt (brk s))) →
  match answer 1 with
  | Ok res => ∃ q, QueryGlobalState r cb (brk s) t0 t1 answer dn = (q, Some (1, Succeeded res))
                   ∧ state q = circuitClosed ∧ consecutiveFail q = 0 ∧ probeInFlight q = false
  | Err e => state (brk s) = circuitOpen →
      ∃ q, QueryGlobalState r cb (brk s) t0 t1 answer dn = (q, Some (1, Exhausted (Some e)))
           ∧ ∀ t2 t3 (answer' : Z → result string R), time_sub t2 t1 < OpenTimeout cb →
             QueryGlobalState r cb q t2 t3 answer' dn = (q, None)
  end.
Proof.
  intros Ht Hm Hr Hc Ho. destruct (reachable_ok _ _ _ Ht Hr) as [Hs Hh _].
  assert (probeInFlight (brk s) = false) as Hp.
  { unfold probes in Hs. rewrite Hc, count_nil in Hs. by destruct (probeInFlight (brk s)). }
  assert (state (brk s) ≠ circuitHalfOpen) as Hnh by (intros H; apply Hh in H; congruence).
  destruct (state (brk s)) eqn:E; [| |done].
  - destruct (answer 1) as [res|] eqn:Ea; [|done].
    unfold QueryGlobalState. rewrite allow_cases.
    assert (stateLocked cb (brk s) t0 = circuitClosed) as -> by (unfold stateLocked; by rewrite E). cbn [negb].
    rewrite (attempts_first r _ answer dn res Hm Ea). by eexists.
  - rewrite QueryGlobalState_probe; [|done|apply stateLocked_half; auto|done].
    destruct (answer 1); [by eexists|]. intros _. eexists. split; [done|].
    intros t2 t3 answer' H2. unfold QueryGlobalState. rewrite allow_cases. unfold stateLocked. cbn [state openedAt].
    by rewrite (proj2 (Z.leb_gt _ _)) by done.
Qed.

(** The circuit opens with the [FailureThreshold]-th failing call in a row. *)
Lemma breaker_trips {R} r cb (answer : Z → result string R) dn clock k :
  0 < MaxAttempts r → (∀ k, is_ok (answer k) = false) → (∀ k, dn k = false) →
  FailureThreshold cb = Z.of_nat (S k) →
  failing_calls r cb answer dn clock (S k) NewResilientQuerier =
  {| state := circuitOpen; consecutiveFail := FailureThreshold cb; openedAt := clock (S k); probeInFlight := false |}.
Proof.
  intros Hm Ha Hd Hk. cbn [failing_calls]. rewrite failing_calls_closed by (done || lia).
  rewrite closed_fails by done. unfold onFailure. cbn [consecutiveFail probeInFlight].
  rewrite (proj2 (Z.leb_le _ _)) by lia. f_equal. lia.
Qed.

(** ** Examples *)

Definition ex_open : breaker :=
  {| state := circuitOpen; consecutiveFail := 5; openedAt := time_zero; probeInFlight := false |}.

Definition ex_ok (_ : Z) : result string Z := Ok 7.
Definition ex_fail (_ : Z) : result string Z := Err "no answer"%string.
Definition ex_cb : CircuitBreakerConfig := {| FailureThreshold := 1; OpenTimeout := 30 * second |}.

(** One failing call with a threshold of one: the circuit is open, nothing is in
    flight. *)
Lemma ex_reach_open :
  querier_reachable DefaultRetryConfig ex_cb
    {| brk := finish ex_cb NewResilientQuerier second false (snd (attempts DefaultRetryConfig false ex_fail (λ _, false)));
       calls := [] |}.
Proof.
  eapply rtc_l; [exact (step_start _ _ querier_init second _ false eq_refl)|].
  apply rtc_once. exact (step_finish DefaultRetryConfig ex_cb {| brk := NewResilientQuerier; calls := [false] |}
                       second [] false [] ex_fail (λ _, false) eq_refl).
Qed.

Lemma breaker_single_probe_witness :
  probes {| brk := finish ex_cb NewResilientQuerier second false (snd (attempts DefaultRetryConfig false ex_fail (λ _, false)));
            calls := [] |} <= 1.
Proof. exact (proj1 (breaker_single_probe DefaultRetryConfig ex_cb _ eq_refl ex_reach_open)). Defined.

Lemma breaker_recovers_witness :
  let q := finish ex_cb NewResilientQuerier second false (snd (attempts DefaultRetryConfig false ex_fail (λ _, false))) in
  state q = circuitOpen
  ∧ ∃ q', QueryGlobalState DefaultRetryConfig ex_cb q (31 * second) (32 * second) ex_ok (λ _, false) =
          (q', Some (1, Succeeded 7))
          ∧ state q' = circuitClosed ∧ consecutiveFail q' = 0 ∧ probeInFlight q' = false.
Proof.
  split; [reflexivity|].
  apply (breaker_recovers DefaultRetryConfig ex_cb _ (31 * second) (32 * second) ex_ok (λ _, false) eq_refl eq_refl
           ex_reach_open eq_refl).
  intros _. vm_compute. discriminate.
Defined.

(** The default back-off grows from 200 ms and stops at three seconds. *)
Lemma ex_backoff :
  backoffDelay DefaultRetryConfig <$> [0; 1; 2; 3; 4; 5; 6; 60] =
  [0; 200000000; 400000000; 800000000; 1600000000; 3000000000; 3000000000; 3000000000].
Proof. vm_compute. reflexivity. Qed.

(** A call that started before the circuit opened closes it when it succeeds,
    without a probe and before [OpenTimeout]. *)
Lemma stale_success_closes :
  ∃ s, rtc (call_step DefaultRetryConfig ex_cb) querier_init s
       ∧ state (brk s) = circuitOpen ∧ (calls s) = [false]
       ∧ state (onSuccess (brk s) false) = circuitClosed
       ∧ ∃ s', call_step DefaultRetryConfig ex_cb s s' ∧ state (brk s') = circuitClosed.
Proof.
  exists {| brk := finish ex_cb NewResilientQuerier second false (snd (attempts DefaultRetryConfig false ex_fail (λ _, false)));
            calls := [false] |}. split.
  { eapply rtc_l; [exact (step_start _ _ querier_init second _ false eq_refl)|].
    eapply rtc_l; [exact (step_start _ _ {| brk := NewResilientQuerier; calls := [false] |} second _ false eq_refl)|].
    apply rtc_once. exact (step_finish DefaultRetryConfig ex_cb {| brk := NewResilientQuerier; calls := [false; false] |}
                         second [] false [false] ex_fail (λ _, false) eq_refl). }
  split_and!; [reflexivity..|]. eexists. split.
  - eapply (step_finish DefaultRetryConfig ex_cb _ second [] false [] ex_ok (λ _, false)). reflexivity.
  - reflexivity.
Qed.
