(* ===== verification/AuditLog.v ===== *)
(** * Decision audit log ([engine/internal/decision/audit.go])

    The audit record with its redaction and its tamper-evident hash
    ([BuildRecord], [chainRoot], [VerifyRecord]) and the ring buffer
    [InMemorySink]. Every method of the sink is one critical section. The
    timestamp of a record is an argument (UTC). *)

From S2P Require Import Prelude GoLib Sha256 Json JsonFacts.

Local Open Scope Z_scope.

(** ** Records *)

Record Record_ := {
  ID : string; Timestamp : time; AgentID : string; ModelID : string; ModelVersion : string;
  RequestHash : string; ResponseHash : string; InputBytes : Z; OutputBytes : Z; Verdict : string;
  RiskTier : string; PolicyID : string; Metadata : gmap string string; TracePreview : string;
  PreviewOptIn : bool; ParentRecordID : string; ChainRootHash : string }.

Definition sha256Hex (b : bytes) : string := hex_encode (sha256 b).

(** ** The chain root *)

Definition entry_less (a b : string * json) : bool := string_ltb (fst a) (fst b).

(** A Go map as [json.Marshal] writes it: by key. *)
Definition metadata_json (m : gmap string string) : json :=
  JObj (sort_slice entry_less ((λ kv, (fst kv, JStr (snd kv))) <$> map_to_list m)).

Definition record_json (r : Record_) : json :=
  JObj ([("id", JStr (ID r)); ("timestamp", JStr (format_rfc3339_nano (Timestamp r))); ("agent_id", JStr (AgentID r));
         ("model_id", JStr (ModelID r)); ("model_version", JStr (ModelVersion r)); ("request_hash", JStr (RequestHash r));
         ("response_hash", JStr (ResponseHash r)); ("input_bytes", JInt (InputBytes r)); ("output_bytes", JInt (OutputBytes r));
         ("verdict", JStr (Verdict r)); ("risk_tier", JStr (RiskTier r)); ("policy_id", JStr (PolicyID r))]%string
        ++ (if bool_decide (Metadata r = ∅) then [] else [("metadata"%string, metadata_json (Metadata r))])
        ++ omit_empty "trace_preview" (TracePreview r)
        ++ [("preview_opt_in"%string, JBool (PreviewOptIn r))]
        ++ omit_empty "parent_record_id" (ParentRecordID r)
        ++ [("chain_root_hash"%string, JStr (ChainRootHash r))]).

(** [json.Marshal] of a record: a year outside 0 to 9999 is an error. *)
Definition marshal_record (r : Record_) : option string :=
  if (0 <=? time_year (Timestamp r)) && (time_year (Timestamp r) <=? 9999) then marshal (record_json r) else None.

Definition without_root (r : Record_) : Record_ :=
  {| ID := ID r; Timestamp := Timestamp r; AgentID := AgentID r; ModelID := ModelID r; ModelVersion := ModelVersion r;
     RequestHash := RequestHash r; ResponseHash := ResponseHash r; InputBytes := InputBytes r; OutputBytes := OutputBytes r;
     Verdict := Verdict r; RiskTier := RiskTier r; PolicyID := PolicyID r; Metadata := Metadata r;
     TracePreview := TracePreview r; PreviewOptIn := PreviewOptIn r; ParentRecordID := ParentRecordID r; ChainRootHash := "" |}.

(** The error of [json.Marshal] is dropped: its bytes are then empty. *)
Definition root_input (r : Record_) : bytes := bytes_of (default ""%string (marshal_record (without_root r))).
Definition chainRoot (r : Record_) : string := sha256Hex (root_input r).

Definition VerifyRecord (r : Record_) : bool := bool_decide (chainRoot r = ChainRootHash r).

(** ** Redaction *)

Definition defaultRedactedKeys : list string :=
  ["api_key"; "authorization"; "cookie"; "password"; "secret"; "token"; "pii"; "email"; "phone"; "ssn"]%string.

(** [strings.ToLower] as far as ASCII text in the result goes: beside the ASCII
    letters, the Kelvin sign and the dotted capital I are the runes that lower to
    an ASCII letter; every other rune lowers to a non-ASCII rune, kept here. *)
Definition lower_rune (r : rune) : string :=
  match r with
  | InvalidByte => replacement
  | ValidRune e =>
      if bool_decide (e = str3 (chr 226) (chr 132) (chr 170)) then "k"
      else if bool_decide (e = str2 (chr 196) (chr 176)) then "i"
      else to_lower e
  end.
Definition lower (s : string) : string := string_concat (lower_rune <$> utf8 s).

Definition redacted_key (k : string) : bool :=
  let lk := lower k in
  bool_decide (lk ∈ defaultRedactedKeys) || existsb (contains lk) defaultRedactedKeys.

Definition redaction_mark (v : string) : string :=
  ("<redacted:sha256:" +:+ String.substring 0 16 (sha256Hex (bytes_of v)) +:+ ">")%string.

Definition redactMetadata (m : gmap string string) : gmap string string :=
  map_imap (λ k v, Some (if redacted_key k then redaction_mark v else v)) m.

(** The first [n] runes and an ellipsis, or the string itself when it has no more. *)
Definition truncateRunes (s : string) (n : nat) : string :=
  let r := utf8 s in
  if (length r <=? n)%nat then s
  else (string_concat (rune_text <$> take n r) +:+ str3 (chr 226) (chr 128) (chr 166))%string.

Definition with_root (r : Record_) (h : string) : Record_ :=
  {| ID := ID r; Timestamp := Timestamp r; AgentID := AgentID r; ModelID := ModelID r; ModelVersion := ModelVersion r;
     RequestHash := RequestHash r; ResponseHash := ResponseHash r; InputBytes := InputBytes r; OutputBytes := OutputBytes r;
     Verdict := Verdict r; RiskTier := RiskTier r; PolicyID := PolicyID r; Metadata := Metadata r;
     TracePreview := TracePreview r; PreviewOptIn := PreviewOptIn r; ParentRecordID := ParentRecordID r; ChainRootHash := h |}.

Definition BuildRecord (now : time) (id agent model modelVersion : string) (rawRequest rawResponse : bytes)
    (metadata : gmap string string) (verdict riskTier policyID parentID : string) (previewOptIn : bool) : Record_ :=
  let rec_ :=
    {| ID := id; Timestamp := now; AgentID := agent; ModelID := model; ModelVersion := modelVersion;
       RequestHash := sha256Hex rawRequest; ResponseHash := sha256Hex rawResponse;
       InputBytes := Z.of_nat (length rawRequest); OutputBytes := Z.of_nat (length rawResponse);
       Verdict := verdict; RiskTier := riskTier; PolicyID := policyID; Metadata := redactMetadata metadata;
       TracePreview := if previewOptIn then truncateRunes (string_of rawRequest) 128 else "";
       PreviewOptIn := previewOptIn; ParentRecordID := parentID; ChainRootHash := "" |} in
  with_root rec_ (chainRoot rec_).

(** ** The in-memory sink *)

Record InMemorySink := { records : gmap string Record_; order : list string; max : Z }.

Definition NewInMemorySink (max : Z) : InMemorySink :=
  {| records := ∅; order := []; max := if max <=? 0 then 4096 else max |}.

Definition Append (s : InMemorySink) (r : Record_) : InMemorySink * option string :=
  match records s !! ID r with
  | Some _ => (s, Some ("duplicate record id " +:+ quote (ID r))%string)
  | None =>
      let records := <[ID r := r]> (records s) in
      let order := order s ++ [ID r] in
      if max s <? Z.of_nat (length order)
      then match order with
           | drop :: rest => ({| records := delete drop records; order := rest; max := max s |}, None)
           | [] => ({| records := records; order := order; max := max s |}, None)
           end
      else ({| records := records; order := order; max := max s |}, None)
  end.

Definition Get (s : InMemorySink) (id : string) : option Record_ := records s !! id.

(** The loop of [Lineage]: each record goes to the front of the chain. *)
Fixpoint lineage_loop (m : gmap string Record_) (steps : nat) (chain : list Record_) (cursor : string) : list Record_ :=
  match steps with
  | O => chain
  | S steps =>
      if bool_decide (cursor = "")%string then chain
      else match m !! cursor with
           | None => chain
           | Some r => lineage_loop m steps (r :: chain) (ParentRecordID r)
           end
  end.

Definition depth_of (maxDepth : Z) : Z := if maxDepth <=? 0 then 32 else maxDepth.
Definition Lineage (s : InMemorySink) (id : string) (maxDepth : Z) : list Record_ :=
  lineage_loop (records s) (Z.to_nat (depth_of maxDepth)) [] id.

Definition limit_of (limit : Z) (n : nat) : nat :=
  if (limit <=? 0) || (Z.of_nat n <? limit) then n else Z.to_nat limit.
(** A missing record is the zero [Record]. *)
Definition zero_record : Record_ :=
  {| ID := ""; Timestamp := time_zero; AgentID := ""; ModelID := ""; ModelVersion := ""; RequestHash := ""; ResponseHash := "";
     InputBytes := 0; OutputBytes := 0; Verdict := ""; RiskTier := ""; PolicyID := ""; Metadata := ∅; TracePreview := "";
     PreviewOptIn := false; ParentRecordID := ""; ChainRootHash := "" |}.
Definition Recent (s : InMemorySink) (limit : Z) : list Record_ :=
  (λ id, default zero_record (records s !! id)) <$> take (limit_of limit (length (order s))) (reverse (order s)).

(** ** The sink against a list of records *)

(** What the sink promises: the last [max] accepted records, oldest first. *)
Definition spec_append (max : Z) (l : list Record_) (r : Record_) : list Record_ * option string :=
  if bool_decide (ID r ∈ ID <$> l) then (l, Some ("duplicate record id " +:+ quote (ID r))%string)
  else (last_n (Z.to_nat max) (l ++ [r]), None).

Definition spec_get (l : list Record_) (id : string) : option Record_ := find (λ r, bool_decide (ID r = id)) l.

(** The records that follow the parent pointers from [id], root first. *)
Fixpoint spec_path (l : list Record_) (steps : nat) (id : string) : list Record_ :=
  match steps with
  | O => []
  | S steps =>
      if bool_decide (id = "")%string then []
      else match spec_get l id with Some r => spec_path l steps (ParentRecordID r) ++ [r] | None => [] end
  end.

Record represents (s : InMemorySink) (l : list Record_) : Prop := {
  rep_order : order s = ID <$> l;
  rep_records : records s = list_to_map ((λ r, (ID r, r)) <$> l);
  rep_nodup : NoDup (ID <$> l);
  rep_max : 0 < max s;
  rep_length : Z.of_nat (length l) <= max s }.

Definition keyed (l : list Record_) : list (string * Record_) := (λ r, (ID r, r)) <$> l.

Lemma fst_keyed l : fst <$> keyed l = ID <$> l.
Proof. unfold keyed. rewrite <- list_fmap_compose. done. Qed.

Lemma keyed_lookup l id : (list_to_map (keyed l) : gmap string Record_) !! id = spec_get l id.
Proof.
  induction l as [|r l IH]; [done|]. change (keyed (r :: l)) with ((ID r, r) :: keyed l). cbn [list_to_map foldr curry spec_get find].
  destruct (bool_decide_reflect (ID r = id)) as [<-|Hne]; [by rewrite lookup_insert_eq|].
  by rewrite lookup_insert_ne.
Qed.

Lemma spec_get_some l id r : spec_get l id = Some r → r ∈ l ∧ ID r = id.
Proof. intros [H1 H2]%find_some. split; [by apply list_elem_of_In|by bool_to_prop]. Qed.

Lemma spec_get_none l id : spec_get l id = None ↔ id ∉ ID <$> l.
Proof.
  split.
  - intros H (r & -> & Hr)%list_elem_of_fmap. apply list_elem_of_In in Hr. eapply find_none in H; [|exact Hr]. by bool_to_prop.
  - intros H. destruct (spec_get l id) as [r|] eqn:E; [|done]. apply spec_get_some in E as [Hr <-]. destruct H.
    by apply list_elem_of_fmap_2.
Qed.

Lemma keyed_app l k : keyed (l ++ k) = keyed l ++ keyed k.
Proof. apply fmap_app. Qed.

Lemma list_to_map_snoc l r :
  ID r ∉ ID <$> l → (list_to_map (keyed (l ++ [r])) : gmap string Record_) = <[ID r := r]> (list_to_map (keyed l)).
Proof.
  intros H. rewrite keyed_app. change (keyed [r]) with [(ID r, r)]. rewrite list_to_map_snoc; [done|]. by rewrite fst_keyed.
Qed.

Lemma represents_new m : represents (NewInMemorySink m) [].
Proof.
  unfold NewInMemorySink. split; cbn [order records max]; [done|done|apply NoDup_nil_2|..];
    destruct (m <=? 0) eqn:E; bool_to_prop; cbn; lia.
Qed.

(** [Append] does what the list does. *)
Lemma represents_append s l r :
  represents s l →
  snd (Append s r) = snd (spec_append (max s) l r) ∧ max (fst (Append s r)) = max s
  ∧ represents (fst (Append s r)) (fst (spec_append (max s) l r)).
Proof.
  intros [Ho Hr Hnd Hmax Hlen]. unfold Append, spec_append. rewrite Hr. fold (keyed l). rewrite keyed_lookup.
  destruct (spec_get l (ID r)) as [r'|] eqn:E.
  { apply spec_get_some in E as [Hin Hid]. rewrite bool_decide_true; [done|].
    rewrite <- Hid. by apply list_elem_of_fmap_2. }
  apply spec_get_none in E. rewrite bool_decide_false by done. rewrite Ho.
  assert (NoDup (ID <$> (l ++ [r]))) as Hnd'.
  { rewrite fmap_app. apply NoDup_app. split_and!; [done| |apply NoDup_singleton].
    intros x Hx Hx'%list_elem_of_singleton. by subst x. }
  rewrite <- list_to_map_snoc by done.
  replace ((ID <$> l) ++ [ID r]) with (ID <$> (l ++ [r])) by by rewrite fmap_app. rewrite length_fmap.
  assert (length (l ++ [r]) = S (length l)) as Hs by (rewrite length_app; cbn; lia).
  unfold last_n. rewrite Hs. destruct (max s <? Z.of_nat (S (length l))) eqn:Ef; bool_to_prop.
  - replace (S (length l) - Z.to_nat (max s))%nat with 1%nat by lia.
    destruct (l ++ [r]) as [|h t]; [done|]. cbn in Hs. injection Hs as Hs.
    rewrite fmap_cons in *. cbn [fst snd max drop]. split_and!; [done..|].
    apply NoDup_cons in Hnd' as [Hh Ht]. change (drop 0 t) with t. split; cbn [order records max]; try done; [|lia].
    change (keyed (h :: t)) with ((ID h, h) :: keyed t). cbn [list_to_map foldr curry].
    apply delete_insert_id, not_elem_of_list_to_map_1. by rewrite fst_keyed.
  - replace (S (length l) - Z.to_nat (max s))%nat with 0%nat by lia. rewrite drop_0. cbn [fst snd max].
    split_and!; [done..|]. split; cbn [order records max]; try done. lia.
Qed.

Lemma last_n_snoc {A} n (h : list A) r : (0 < n)%nat → last_n n (last_n n h ++ [r]) = last_n n (h ++ [r]).
Proof.
  intros Hn. destruct (decide (length h < n)%nat) as [Hl|Hl].
  { unfold last_n at 2. by replace (length h - n)%nat with 0%nat by lia. }
  rewrite <- (take_drop (length h - n) h) at 2. unfold last_n at 2. set (b := drop _ h).
  assert (length b = n) as Hb by (unfold b; rewrite length_drop; lia).
  set (a := take _ h). rewrite <- app_assoc. unfold last_n. rewrite !length_app. cbn [length].
  replace (length b + 1 - n)%nat with 1%nat by lia. replace (length a + (length b + 1) - n)%nat with (length a + 1)%nat by lia.
  by rewrite <- drop_drop, drop_app_length.
Qed.

(** The accepted records so far; a record is a duplicate if its identifier is
    among the last [max] of them. *)
Definition spec_accept (max : Z) (h : list Record_) (r : Record_) : list Record_ :=
  if bool_decide (ID r ∈ ID <$> last_n (Z.to_nat max) h) then h else h ++ [r].

Definition appends (max : Z) (rs : list Record_) : InMemorySink :=
  foldl (λ s r, fst (Append s r)) (NewInMemorySink max) rs.

Definition accepted (m : Z) (rs : list Record_) : list Record_ :=
  foldl (spec_accept (max (NewInMemorySink m))) [] rs.

Lemma appends_represent m rs :
  max (appends m rs) = max (NewInMemorySink m)
  ∧ represents (appends m rs) (last_n (Z.to_nat (max (NewInMemorySink m))) (accepted m rs)).
Proof.
  unfold appends, accepted. set (M := max (NewInMemorySink m)).
  assert (0 < M) as HM by apply (represents_new m).
  induction rs as [|r rs [IHm IH]] using rev_ind; [split; [done|]; apply represents_new|].
  rewrite !foldl_app. cbn [foldl].
  destruct (represents_append _ _ r IH) as (_ & H2 & H3). split; [congruence|].
  rewrite IHm in H3. unfold spec_accept at 1. unfold spec_append in H3.
  case_bool_decide; [done|]. cbn [fst] in H3. by rewrite last_n_snoc in H3 by lia.
Qed.

Lemma represents_lookup s l id : represents s l → records s !! id = spec_get l id.
Proof. intros Hrep. rewrite (rep_records _ _ Hrep). apply keyed_lookup. Qed.

Lemma lineage_spec s l steps chain id :
  represents s l → lineage_loop (records s) steps chain id = spec_path l steps id ++ chain.
Proof.
  intros Hrep. revert chain id. induction steps as [|steps IH]; intros chain id; [done|]. cbn [lineage_loop spec_path].
  case_bool_decide; [done|]. rewrite (represents_lookup _ l) by done.
  destruct (spec_get l id) as [r|]; [|done]. by rewrite IH, <- app_assoc.
Qed.

Lemma spec_get_member l r : NoDup (ID <$> l) → r ∈ l → spec_get l (ID r) = Some r.
Proof.
  intros Hnd Hr. destruct (spec_get l (ID r)) as [r'|] eqn:E.
  - apply spec_get_some in E as [Hr' Hid]. f_equal.
    apply list_elem_of_lookup in Hr as [i Hi], Hr' as [j Hj].
    assert (i = j) as ->; [|congruence].
    eapply (NoDup_lookup (ID <$> l)); [done|..]; rewrite list_lookup_fmap; [by rewrite Hi|by rewrite Hj, <- Hid].
  - apply spec_get_none in E. destruct E. by apply list_elem_of_fmap_2.
Qed.

Lemma recent_spec s l n : represents s l → Recent s n = take (limit_of n (length l)) (reverse l).
Proof.
  intros Hrep. unfold Recent. rewrite (rep_order _ _ Hrep), length_fmap, <- fmap_reverse, <- fmap_take, <- list_fmap_compose.
  rewrite <- (list_fmap_id (take _ (reverse l))) at 2. apply list_fmap_ext. intros i r Hi. cbn.
  rewrite (represents_lookup _ l), spec_get_member; [done|apply Hrep| |done].
  apply list_elem_of_lookup_2 in Hi. apply elem_of_take in Hi as (j & Hj & _). apply list_elem_of_lookup_2 in Hj.
  by apply elem_of_reverse.
Qed.

(** C26. The ring buffer is an append-only history seen through a window: after any
    appends it accepts exactly the records whose identifier is not among the
    last [max] accepted ones, and [Get], [Recent] and [Lineage] answer from
    those. *)
Theorem sink_refines_history m rs :
  let s := appends m rs in
  let window := last_n (Z.to_nat (max s)) (accepted m rs) in
  (∀ r, snd (Append s r) = None ↔ ID r ∉ ID <$> window)
  ∧ (∀ id, Get s id = spec_get window id)
  ∧ (∀ n, Recent s n = take (limit_of n (length window)) (reverse window))
  ∧ (∀ id depth, Lineage s id depth = spec_path window (Z.to_nat (depth_of depth)) id)
  ∧ size (records s) = length window.
Proof.
  destruct (appends_represent m rs) as [Hm Hrep]. cbv zeta. rewrite Hm.
  set (w := last_n _ _) in *. split_and!.
  - intros r. rewrite (proj1 (represents_append _ _ r Hrep)). unfold spec_append. by case_bool_decide.
  - intros id. by apply represents_lookup.
  - intros n. by apply recent_spec.
  - intros id depth. unfold Lineage. rewrite (lineage_spec _ w) by done. by rewrite app_nil_r.
  - rewrite (rep_records _ _ Hrep). fold (keyed w). rewrite <- (length_fmap ID w), <- fst_keyed.
    rewrite map_size_list_to_map; [by rewrite length_fmap|]. rewrite fst_keyed. apply Hrep.
Qed.

(** A lineage is a chain of parents that ends in the record asked for, no longer
    than the depth; a shorter one starts at a root or at a record whose parent is
    not stored any more. *)
Lemma spec_path_linked l steps id :
  (length (spec_path l steps id) <= steps)%nat
  ∧ (∀ i r r', spec_path l steps id !! i = Some r → spec_path l steps id !! S i = Some r' → ParentRecordID r' = ID r)
  ∧ (∀ r, last (spec_path l steps id) = Some r → ID r = id).
Proof.
  revert id. induction steps as [|steps IH]; intros id; [done|]. cbn [spec_path].
  case_bool_decide; [split; [cbn; lia|done]|]. destruct (spec_get l id) as [r0|] eqn:E; [|split; [cbn; lia|done]].
  apply spec_get_some in E as [_ <-]. destruct (IH (ParentRecordID r0)) as (H1 & H2 & H3). set (p := spec_path _ _ _) in *.
  split_and!; [rewrite length_app; cbn; lia| |].
  - intros i r r' Hi Hi'. apply lookup_app_Some in Hi' as [Hi'|[Hge Hi']].
    + rewrite lookup_app_l in Hi by (apply lookup_lt_Some in Hi'; lia). by eapply H2.
    + apply list_lookup_singleton_Some in Hi' as [Hs <-]. rewrite lookup_app_l in Hi by lia.
      symmetry. apply H3. rewrite last_lookup. by replace (pred (length p)) with i by lia.
  - intros r. rewrite last_snoc. by intros [= <-].
Qed.

(** ** Redaction *)

(** Metadata that differ only in the values of redacted keys, and there not in
    the sixteen digits that the mark shows. *)
Definition same_public (m m' : gmap string string) : Prop :=
  ∀ k, if redacted_key k then redaction_mark <$> m !! k = redaction_mark <$> m' !! k else m !! k = m' !! k.

Lemma lookup_redact m k :
  redactMetadata m !! k = (λ v, if redacted_key k then redaction_mark v else v) <$> m !! k.
Proof. unfold redactMetadata. rewrite map_lookup_imap. by destruct (m !! k). Qed.

Lemma redact_public m m' : same_public m m' → redactMetadata m = redactMetadata m'.
Proof.
  intros H. apply map_eq. intros k. rewrite !lookup_redact. specialize (H k). destruct (redacted_key k); [done|by rewrite H].
Qed.


(** ** The chain root binds a record *)

(** The strings of a record are valid UTF-8 and its year prints. *)
Definition printable (r : Record_) : bool :=
  valid_strings (record_json (without_root r)) && (0 <=? time_year (Timestamp r)) && (time_year (Timestamp r) <=? 9999).

Definition same_record (r r' : Record_) : Prop :=
  ID r = ID r' ∧ format_rfc3339_nano (Timestamp r) = format_rfc3339_nano (Timestamp r') ∧ AgentID r = AgentID r'
  ∧ ModelID r = ModelID r' ∧ ModelVersion r = ModelVersion r' ∧ RequestHash r = RequestHash r'
  ∧ ResponseHash r = ResponseHash r' ∧ InputBytes r = InputBytes r' ∧ OutputBytes r = OutputBytes r'
  ∧ Verdict r = Verdict r' ∧ RiskTier r = RiskTier r' ∧ PolicyID r = PolicyID r' ∧ Metadata r = Metadata r'
  ∧ TracePreview r = TracePreview r' ∧ PreviewOptIn r = PreviewOptIn r' ∧ ParentRecordID r = ParentRecordID r'.

Lemma entry_mapM (l : list (string * string)) :
  mapM (λ kv : string * json, match kv with (k, v) => pair k <$> tree_of v end) ((λ kv, (fst kv, JStr (snd kv))) <$> l) =
  Some ((λ kv, (fst kv, TStr (snd kv))) <$> l).
Proof. induction l as [|[k v] l IH]; [done|]. rewrite fmap_cons. cbn. by rewrite IH. Qed.

Lemma record_finite r : finite_json (record_json r) = true.
Proof.
  unfold record_json, metadata_json, omit_empty. repeat case_bool_decide; cbn [app finite_json forallb andb]; try done;
    rewrite andb_true_r; apply sort_forallb; induction (map_to_list _) as [|kv l IH]; [done|exact IH|done|exact IH|done|exact IH|done|exact IH].
Qed.

(** The sorted entries of a map. *)
Definition entries (m : gmap string string) : list (string * string) :=
  sort_slice (λ a b, string_ltb (fst a) (fst b)) (map_to_list m).

Lemma metadata_tree m : tree_of (metadata_json m) = Some (TObj ((λ kv, (fst kv, TStr (snd kv))) <$> entries m)).
Proof.
  unfold metadata_json. rewrite (sort_slice_map _ (λ a b, string_ltb (fst a) (fst b))) by done. cbn [tree_of].
  by rewrite entry_mapM.
Qed.

Lemma entries_inj m m' : entries m = entries m' → m = m'.
Proof.
  intros H. apply map_to_list_inj. rewrite <- (sort_slice_perm (λ a b, string_ltb (fst a) (fst b)) (map_to_list m)).
  fold (entries m). rewrite H. apply sort_slice_perm.
Qed.

Lemma metadata_tree_inj m m' : tree_of (metadata_json m) = tree_of (metadata_json m') → m = m'.
Proof.
  rewrite !metadata_tree. intros H. injection H as H. apply entries_inj.
  assert (Inj (=) (=) (λ kv : string * string, (fst kv, TStr (snd kv)))) as Hi.
  { intros [k v] [k' v'] E. cbn in E. by simplify_eq. }
  by apply (inj (fmap _)) in H.
Qed.

(** A member's value, by key, in the JSON form of a record. *)
Definition field (k : string) (r : Record_) : option tree :=
  match record_json r with JObj m => assoc k m ≫= tree_of | _ => None end.

Lemma same_fields r r' t k :
  tree_of (record_json r) = Some t → tree_of (record_json r') = Some t → field k r = field k r'.
Proof. apply tree_of_member. Qed.

Lemma field_inj {A} (f : Record_ → A) (enc : A → tree) k r r' :
  Inj (=) (=) enc → (∀ r, field k r = Some (enc (f r))) → field k r = field k r' → f r = f r'.
Proof. intros Hinj H E. rewrite !H in E. apply Hinj. by injection E. Qed.

#[export] Instance TStr_inj : Inj (=) (=) TStr.
Proof. by intros s t [= ->]. Qed.
#[export] Instance TInt_inj : Inj (=) (=) (λ z, TAtom (itoa z)).
Proof. intros x y [= H]. by apply (inj pretty) in H. Qed.
#[export] Instance TBool_inj : Inj (=) (=) (λ b : bool, TAtom (if b then "true" else "false")).
Proof. by intros [|] [|]. Qed.

Lemma omit_empty_inj (f : Record_ → string) k r r' :
  (∀ r, field k r = if bool_decide (f r = ""%string) then None else Some (TStr (f r))) →
  field k r = field k r' → f r = f r'.
Proof. intros H E. rewrite !H in E. do 2 case_bool_decide; [congruence|done|done|]. by injection E. Qed.

(** Look a member up past the optional ones. *)
Ltac field_eq :=
  intros r0; unfold field, record_json, omit_empty; repeat case_bool_decide; reflexivity.

Lemma field_metadata r :
  field "metadata" r = if bool_decide (Metadata r = ∅) then None else tree_of (metadata_json (Metadata r)).
Proof. unfold field, record_json, omit_empty. repeat case_bool_decide; reflexivity. Qed.

Lemma same_record_of_tree r r' t :
  tree_of (record_json (without_root r)) = Some t → tree_of (record_json (without_root r')) = Some t → same_record r r'.
Proof.
  intros H H'. pose proof (λ k, same_fields _ _ t k H H') as F. unfold same_record. set (a := without_root r) in *.
  set (b := without_root r') in *. split_and!.
  - apply (field_inj ID TStr "id" a b _); [field_eq|apply F].
  - apply (field_inj (λ r, format_rfc3339_nano (Timestamp r)) TStr "timestamp" a b _); [field_eq|apply F].
  - apply (field_inj AgentID TStr "agent_id" a b _); [field_eq|apply F].
  - apply (field_inj ModelID TStr "model_id" a b _); [field_eq|apply F].
  - apply (field_inj ModelVersion TStr "model_version" a b _); [field_eq|apply F].
  - apply (field_inj RequestHash TStr "request_hash" a b _); [field_eq|apply F].
  - apply (field_inj ResponseHash TStr "response_hash" a b _); [field_eq|apply F].
  - apply (field_inj InputBytes (λ z, TAtom (itoa z)) "input_bytes" a b _); [field_eq|apply F].
  - apply (field_inj OutputBytes (λ z, TAtom (itoa z)) "output_bytes" a b _); [field_eq|apply F].
  - apply (field_inj Verdict TStr "verdict" a b _); [field_eq|apply F].
  - apply (field_inj RiskTier TStr "risk_tier" a b _); [field_eq|apply F].
  - apply (field_inj PolicyID TStr "policy_id" a b _); [field_eq|apply F].
  - pose proof (F "metadata"%string) as E. rewrite !field_metadata in E.
    change (Metadata a) with (Metadata r) in E. change (Metadata b) with (Metadata r') in E.
    rewrite !metadata_tree in E. do 2 case_bool_decide; [congruence|done|done|].
    apply metadata_tree_inj. by rewrite !metadata_tree.
  - apply (omit_empty_inj TracePreview "trace_preview" a b); [field_eq|apply F].
  - apply (field_inj PreviewOptIn (λ b : bool, TAtom (if b then "true" else "false")) "preview_opt_in" a b _); [field_eq|apply F].
  - apply (omit_empty_inj ParentRecordID "parent_record_id" a b); [field_eq|apply F].
Qed.

(** Two records that verify under one chain root carry the same content in every
    hashed field (the timestamp as it is printed), or the bytes under their roots
    are a SHA-256 collision. *)
Theorem record_binding r r' :
  printable r = true → printable r' = true → VerifyRecord r = true → VerifyRecord r' = true →
  ChainRootHash r = ChainRootHash r' →
  same_record r r' ∨ is_collision (root_input r, root_input r').
Proof.
  intros Hp Hp' Hv Hv' Hc. unfold VerifyRecord in *. bool_to_prop.
  assert (sha256 (root_input r) = sha256 (root_input r')) as Hs.
  { apply hex_encode_inj. change (chainRoot r = chainRoot r'). congruence. }
  destruct (decide (root_input r = root_input r')) as [E|Hne]; [left|right; done].
  unfold root_input in E. apply bytes_of_inj in E. unfold marshal_record, printable in *.
  change (Timestamp (without_root r)) with (Timestamp r) in E. change (Timestamp (without_root r')) with (Timestamp r') in E.
  apply andb_prop in Hp as [[Hp H1]%andb_prop H2], Hp' as [[Hp' H1']%andb_prop H2']. rewrite H1, H2, H1', H2' in E. cbn [andb] in E.
  destruct (marshal_total (record_json (without_root r))) as [a Ha]; [apply record_finite|].
  destruct (marshal_total (record_json (without_root r'))) as [a' Ha']; [apply record_finite|].
  rewrite Ha, Ha' in E. cbn in E. subst a'.
  destruct (marshal_inj _ _ _ Hp Hp' Ha Ha') as (t & Ht & Ht'). by eapply same_record_of_tree.
Qed.

(** ** Samples *)

Definition ex_meta : gmap string string := {[ "API_Key"%string := "sk-1"%string; "region"%string := "eu"%string ]}.
Definition ex_record (id parent : string) : Record_ :=
  BuildRecord (1785000000 * second) id "agent" "model" "1" (bytes_of "prompt") (bytes_of "answer") ex_meta "allow" "low" "p1" parent false.


Lemma ex_redacted : redacted_key <$> ["API_Key"; "x-auth-token"; "region"; (str3 (chr 84) (chr 79) (chr 226) +:+ str2 (chr 132) (chr 170) +:+ "en")%string]%string
  = [true; true; false; true].
Proof. vm_compute. reflexivity. Qed.

Lemma ex_record_ok : printable (ex_record "r1" "r0") = true ∧ VerifyRecord (ex_record "r1" "r0") = true.
Proof. split; [vm_compute; reflexivity|]. apply bool_decide_true. reflexivity. Qed.

Lemma record_binding_witness :
  same_record (ex_record "r1" "r0") (ex_record "r1" "r0")
  ∨ is_collision (root_input (ex_record "r1" "r0"), root_input (ex_record "r1" "r0")).
Proof.
  apply (record_binding (ex_record "r1" "r0") (ex_record "r1" "r0"));
    [apply ex_record_ok|apply ex_record_ok|apply ex_record_ok|apply ex_record_ok|reflexivity].
Defined.

(** The buffer of two: the oldest record goes, its identifier is free again, and
    a lineage ends where its parent is gone. *)
Lemma ex_window :
  let s := appends 2 [ex_record "a" ""; ex_record "b" "a"; ex_record "c" "b"; ex_record "a" "c"; ex_record "a" ""] in
  order s = ["c"; "a"]%string ∧ ID <$> Lineage s "a" 0 = ["c"; "a"]%string ∧ ID <$> Recent s 1 = ["a"]%string.
Proof. vm_compute. done. Qed.

(** A record that names itself as its parent fills its lineage to the depth. *)
Lemma ex_self_parent : ID <$> Lineage (appends 2 [ex_record "a" "a"]) "a" 3 = ["a"; "a"; "a"]%string.
Proof. vm_compute. reflexivity. Qed.
