(* ===== verification/BigInt.v ===== *)
(** * Big integers ([math/big])

    [SetBytes], [Bytes] and the base-10 [SetString] of [big.Int]; integers are
    [Z]. *)

From S2P Require Import Prelude GoLib.

Local Open Scope Z_scope.

(** Bytes as an integer, most significant first: [big.Int.SetBytes]. *)
Definition be_value (b : bytes) : Z := foldl (λ z x, 256 * z + byte_to_Z x) 0 b.

Lemma be_value_app acc b : foldl (λ z x, 256 * z + byte_to_Z x) acc b = acc * 256 ^ Z.of_nat (length b) + be_value b.
Proof.
  unfold be_value. revert acc. induction b as [|x b IH] using rev_ind; intros acc; [cbn; lia|].
  rewrite !foldl_app, length_app. cbn [foldl length]. rewrite IH, Nat2Z.inj_add, Z.pow_add_r by lia. lia.
Qed.

Lemma be_value_cons x b : be_value (x :: b) = byte_to_Z x * 256 ^ Z.of_nat (length b) + be_value b.
Proof. unfold be_value at 1. cbn [foldl]. rewrite be_value_app. lia. Qed.

Lemma be_value_range b : 0 <= be_value b < 256 ^ Z.of_nat (length b).
Proof.
  induction b as [|x b IH]; [done|]. rewrite be_value_cons. cbn [length]. rewrite Nat2Z.inj_succ, Z.pow_succ_r by lia.
  pose proof (byte_to_Z_range x). nia.
Qed.

Lemma be_value_inj a b : length a = length b → be_value a = be_value b → a = b.
Proof.
  revert b. induction a as [|x a IH]; intros [|y b] Hlen E; try done. injection Hlen as Hlen. rewrite !be_value_cons, Hlen in E.
  pose proof (be_value_range a). pose proof (be_value_range b). rewrite Hlen in *.
  set (M := 256 ^ Z.of_nat (length b)) in *. assert (byte_to_Z x = byte_to_Z y) as Hxy by nia.
  assert (x = y) as -> by (rewrite <- (byte_of_to_Z x), <- (byte_of_to_Z y), Hxy; done). f_equal. apply IH; [done|lia].
Qed.

(** The magnitude, most significant byte first, without leading zeros: [Bytes]. *)
Fixpoint be_digits (fuel : nat) (x : Z) (acc : bytes) : bytes :=
  match fuel with
  | O => acc
  | S fuel => if x <=? 0 then acc else be_digits fuel (x / 256) (byte_of_Z x :: acc)
  end.

(** One step per bit is enough. *)
Definition big_bytes (z : Z) : bytes := be_digits (S (Z.to_nat (Z.log2 (Z.abs z)))) (Z.abs z) [].

(** [SetString(s, 10)] *)
Definition set_string10 (s : string) : option Z := parse_integer s.

Lemma be_digits_value fuel x acc : 0 <= x < 2 ^ Z.of_nat fuel →
  be_value (be_digits fuel x acc) = x * 256 ^ Z.of_nat (length acc) + be_value acc.
Proof.
  revert x acc. induction fuel as [|fuel IH]; intros x acc Hx; cbn [be_digits]; [cbn in Hx; by replace x with 0 by lia|].
  rewrite Nat2Z.inj_succ, Z.pow_succ_r in Hx by lia. destruct (Z.leb_spec x 0); [by replace x with 0 by lia|].
  rewrite IH.
  - rewrite be_value_cons, byte_to_of_Z. cbn [length]. rewrite Nat2Z.inj_succ, Z.pow_succ_r by lia.
    pose proof (Z_div_mod_eq_full x 256). nia.
  - split; [apply Z.div_pos; lia|]. apply Z.div_lt_upper_bound; [lia|]. pose proof (Z.pow_pos_nonneg 2 (Z.of_nat fuel)). nia.
Qed.

Lemma length_be_digits fuel x acc k : x < 256 ^ Z.of_nat k → (length (be_digits fuel x acc) ≤ k + length acc)%nat.
Proof.
  revert x acc k. induction fuel as [|fuel IH]; intros x acc k Hx; cbn [be_digits]; [lia|].
  destruct (Z.leb_spec x 0); [lia|]. destruct k as [|k]; [cbn in Hx; lia|].
  rewrite Nat2Z.inj_succ, Z.pow_succ_r in Hx by lia.
  pose proof (IH (x / 256) (byte_of_Z x :: acc) k) as Hl. cbn [length] in Hl.
  enough (x / 256 < 256 ^ Z.of_nat k) by (specialize (Hl ltac:(done)); lia). apply Z.div_lt_upper_bound; lia.
Qed.

Lemma big_bytes_value z : be_value (big_bytes z) = Z.abs z.
Proof.
  unfold big_bytes. rewrite be_digits_value; [cbn; lia|]. rewrite Nat2Z.inj_succ, Z2Nat.id by apply Z.log2_nonneg.
  split; [lia|]. destruct (Z.eq_dec (Z.abs z) 0) as [->|Hne]; [done|]. apply Z.log2_spec. lia.
Qed.

Lemma length_big_bytes z k : Z.abs z < 256 ^ Z.of_nat k → (length (big_bytes z) ≤ k)%nat.
Proof. intros H. unfold big_bytes. pose proof (length_be_digits (S (Z.to_nat (Z.log2 (Z.abs z)))) (Z.abs z) [] k H). cbn [length] in *. lia. Qed.

Lemma be_value_zeros n b : be_value (repeat Byte.x00 n ++ b) = be_value b.
Proof. induction n as [|n IH]; [done|]. cbn [repeat app]. by rewrite be_value_cons, IH. Qed.

(** The big-endian encoding in exactly [n] bytes, for values that fit. *)
Definition pad_to (n : nat) (b : bytes) : bytes :=
  if (n <=? length b)%nat then b else repeat Byte.x00 (n - length b) ++ b.

Lemma pad_to_value n b : be_value (pad_to n b) = be_value b.
Proof. unfold pad_to. case_match; [done|apply be_value_zeros]. Qed.

Lemma length_pad_to n b : (length b ≤ n)%nat → length (pad_to n b) = n.
Proof. intros H. unfold pad_to. destruct (Nat.leb_spec n (length b)); [lia|]. rewrite length_app, repeat_length. lia. Qed.

Example big_samples : (big_bytes 0, big_bytes (-258), set_string10 "-12") = ([], [Byte.x01; Byte.x02], Some (-12)).
Proof. reflexivity. Qed.

(** ** Decimal text is read back *)

Lemma digit_char (d : N) : (d < 10)%N →
  ascii_in 48 57 (pretty_N_char d) = true ∧ Z.of_N (Ascii.N_of_ascii (pretty_N_char d) - 48) = Z.of_N d.
Proof.
  intros H. assert (d = 0 ∨ d = 1 ∨ d = 2 ∨ d = 3 ∨ d = 4 ∨ d = 5 ∨ d = 6 ∨ d = 7 ∨ d = 8 ∨ d = 9)%N as Hd by lia.
  by destruct_or! Hd; subst.
Qed.

(** Reading the digits that [itoa] writes. *)
Lemma atoi_pretty (x : N) s : ∃ k, 0 <= k ∧ ∀ a, atoi_digits a (pretty_N_go x s) = atoi_digits (a * 10 ^ k + Z.of_N x) s.
Proof.
  revert s. induction (N.lt_wf_0 x) as [x _ IH]; intros s.
  assert (x = 0 ∨ 0 < x)%N as [->|Hx] by lia.
  { exists 0. split; [done|]. intros a. rewrite pretty_N_go_0. f_equal. cbn. lia. }
  destruct (IH (x / 10)%N (N.div_lt x 10 Hx eq_refl) (String (pretty_N_char (x mod 10)) s)) as (k & Hk & E).
  exists (k + 1). split; [lia|]. intros a. rewrite pretty_N_go_step by done. rewrite E. cbn [atoi_digits].
  destruct (digit_char (x mod 10)) as [-> ->]; [apply N.mod_lt; done|]. f_equal.
  rewrite Z.pow_add_r by lia. pose proof (N.div_mod x 10 ltac:(done)) as Hdm. lia.
Qed.

Lemma atoi_pretty_N (x : N) : atoi_digits 0 (pretty x) = Some (Z.of_N x).
Proof.
  unfold pretty, pretty_N. case_decide as E; [by subst|]. destruct (atoi_pretty x "") as (k & _ & ->). by cbn.
Qed.

Lemma pretty_pos_head p : ∃ c s, pretty (N.pos p) = String c s ∧ c ≠ chr 45 ∧ c ≠ chr 43.
Proof.
  pose proof (atoi_pretty_N (N.pos p)) as H. destruct (pretty (N.pos p)) as [|c s]; [done|]. exists c, s. split; [done|].
  cbn [atoi_digits] in H. split; intros ->; done.
Qed.

Lemma parse_integer_itoa z : parse_integer (itoa z) = Some z.
Proof.
  unfold itoa. destruct z as [|p|p]; [done| |]; unfold pretty, pretty_Z, parse_integer.
  - change (pretty p) with (pretty (N.pos p)). pose proof (atoi_pretty_N (N.pos p)) as H.
    destruct (pretty_pos_head p) as (c & s & E & H1 & H2). rewrite E in *. by rewrite !bool_decide_false by done.
  - change (pretty p) with (pretty (N.pos p)). pose proof (atoi_pretty_N (N.pos p)) as H. change ("-" +:+ pretty (N.pos p))%string with (String (chr 45) (pretty (N.pos p))).
    destruct (pretty_pos_head p) as (c & s & E & _). rewrite E in *. rewrite bool_decide_true by done. rewrite H. done.
Qed.

Lemma set_string10_itoa z : set_string10 (itoa z) = Some z.
Proof. apply parse_integer_itoa. Qed.
