(* ===== verification/Circuits.v ===== *)
(** * Zero-knowledge circuits ([engine/internal/zkverifier/gnarkzk]: [circuits.go], [circuit.go], [perceptron_circuit.go])

    The three circuits of the registry: their public and private wires, their
    constraints ([Define]) as a predicate on assigned wires, and the assignment of
    the wires from the caller's inputs. A wire holds an element of the BN254 scalar
    field, an integer below [fr_modulus].

    What the code uses of gnark is the class [Gnark]: the arithmetic of wires, the
    MiMC gadget and its native counterpart, the bounded comparator. [GnarkLaws]
    states their documentation; the comparator is only promised to be right for
    operands whose difference is bounded. The entries of a [[]*big.Int] input are
    not nil. *)

From S2P Require Import Prelude GoLib BigInt.

Local Open Scope Z_scope.

Definition fr_modulus : Z := 21888242871839275222246405745257275088548364400416034343698204186575808495617.

Class Gnark := {
  to_field : Z → Z;                          (* the value a wire gets from a big.Int *)
  api_Add : Z → Z → Z;
  api_Mul : Z → Z → Z;
  api_Sub : Z → Z → Z;
  mimc_gadget : list Z → Z;                  (* Write of every value, then Sum *)
  mimc_native : list bytes → bytes;          (* the same on bytes, outside the circuit *)
  cmp_IsLess : Z → Z → Z → Z → Prop;         (* bound, a, b, the indicator the prover supplies *)
}.

Definition is_fr (x : Z) : Prop := 0 <= x < fr_modulus.

(** The bounds the comparator is made for. *)
Definition valid_bound (bound : Z) : Prop := 0 < bound ∧ Z.log2 bound < Z.log2 (fr_modulus - bound - 1).

Class GnarkLaws `{!Gnark} := {
  to_field_mod z : to_field z = z mod fr_modulus;
  add_mod a b : api_Add a b = (a + b) mod fr_modulus;
  mul_mod a b : api_Mul a b = (a * b) mod fr_modulus;
  sub_mod a b : api_Sub a b = (a - b) mod fr_modulus;
  mimc_agree xs : Forall is_fr xs → be_value (mimc_native ((λ x, pad_to 32 (big_bytes x)) <$> xs)) = mimc_gadget xs;
  mimc_short b : (0 < length b ≤ 32)%nat → mimc_native [b] = mimc_native [pad_to 32 b];
  mimc_is_fr xs : is_fr (mimc_gadget xs);
  less_bounded bound a b o : valid_bound bound → is_fr a → is_fr b → Z.abs (a - b) <= bound →
    cmp_IsLess bound a b o ↔ o = if a <? b then 1 else 0;
}.

(** ** Inputs *)

(** A value of Go's [any], as far as the code distinguishes them. *)
Inductive any :=
| ABig (z : option Z) | AString (s : string) | AInt (z : Z) | AInt64 (z : Z) | AUint64 (z : Z)
| ABigs (l : list Z) | AInts (l : list Z) | AInt64s (l : list Z) | AList (l : list any) | AOther.

Notation inputs := (gmap string any).

Inductive InputError :=
| ErrMissing (name : string) | ErrNil (name : string) | ErrNotInteger (name : string) | ErrType (name : string)
| ErrLength (name : string) (want got : Z).

Definition coerceBigInt (v : any) (name : string) : result InputError Z :=
  match v with
  | ABig None => Err (ErrNil name)
  | ABig (Some z) => Ok z
  | AString s => match set_string10 s with Some n => Ok n | None => Err (ErrNotInteger name) end
  | AInt z | AInt64 z | AUint64 z => Ok z
  | _ => Err (ErrType name)
  end.

Definition requireBigInt (m : inputs) (name : string) : result InputError Z :=
  match m !! name with None => Err (ErrMissing name) | Some v => coerceBigInt v name end.

Definition optionalBigInt (m : inputs) (name : string) : result InputError (option Z) :=
  match m !! name with None => Ok None | Some v => let! z := coerceBigInt v name in Ok (Some z) end.

Definition check_length {A} (name : string) (want : nat) (l : list A) : result InputError () :=
  if (length l =? want)%nat then Ok () else Err (ErrLength name (Z.of_nat want) (Z.of_nat (length l))).

Definition element_name (name : string) (i : nat) : string := (name +:+ "[" +:+ itoa (Z.of_nat i) +:+ "]")%string.

Definition requireIntSlice (m : inputs) (name : string) (want : nat) : result InputError (list Z) :=
  match m !! name with
  | None => Err (ErrMissing name)
  | Some (ABigs l) | Some (AInts l) | Some (AInt64s l) => let! _ := check_length name want l in Ok l
  | Some (AList l) =>
      let! _ := check_length name want l in
      try_map (λ '(i, x), coerceBigInt x (element_name name i)) (zip (seq 0 (length l)) l)
  | Some _ => Err (ErrType name)
  end.

(** ** Hashes outside the circuit *)

Section gnark.
Context `{!Gnark}.

Definition padTo32 (b : bytes) : bytes := pad_to 32 b.

(** [Mod] is the Euclidean remainder, so the correction of negative values is idle. *)
Definition canonicalScalarBytes (x : Z) : bytes :=
  let xx := x mod fr_modulus in
  let xx := if xx <? 0 then xx + fr_modulus else xx in
  big_bytes xx.

Definition ComputeMiMCHash (preimage : Z) : Z := be_value (mimc_native [big_bytes preimage]).

Definition ComputeModelOutputHash (modelCommit input : Z) : Z :=
  be_value (mimc_native [padTo32 (big_bytes modelCommit); padTo32 (big_bytes input)]).

Definition ComputePerceptronCommit (weights : list Z) (bias : Z) : Z :=
  be_value (mimc_native (((λ w, padTo32 (canonicalScalarBytes w)) <$> weights) ++ [padTo32 (canonicalScalarBytes bias)])).

(** ** The circuits *)

(** An unassigned wire is [None]. *)
Record preimageCircuit := { PreImage : option Z; Hash : option Z }.
Record modelInferenceCircuit := { MIInput : option Z; ModelCommit : option Z; OutputHash : option Z }.
Record perceptronCircuit := {
  PInputs : list (option Z); Bias : option Z; Weights : list (option Z); WeightsCommit : option Z; Output : option Z;
}.

Definition PerceptronInputDim : nat := 8.

Inductive frontendCircuit :=
| FPreimage (c : preimageCircuit) | FInference (c : modelInferenceCircuit) | FPerceptron (c : perceptronCircuit).

(** The circuits a registry can hold. *)
Inductive Circuit := MiMCPreimageCircuit | ModelInferenceCircuit | PerceptronCircuit.

Definition MiMCPreimageID : string := "mimc_preimage_v1".
Definition ModelInferenceID : string := "model_inference_commitment_v1".
Definition PerceptronCircuitID : string := "perceptron_linear_v1".

Definition circuit_id (c : Circuit) : string :=
  match c with
  | MiMCPreimageCircuit => MiMCPreimageID
  | ModelInferenceCircuit => ModelInferenceID
  | PerceptronCircuit => PerceptronCircuitID
  end.

(** Constraints on assigned wires, in the order of [Define]. *)
Definition preimage_Define (preImage hash : Z) : Prop := hash = mimc_gadget [preImage].

Definition inference_Define (input modelCommit outputHash : Z) : Prop := outputHash = mimc_gadget [modelCommit; input].

Definition shiftBits : Z := 40.

(** The offset [2^39] that the comparison adds. *)
Definition shift : Z := Z.shiftl 1 (shiftBits - 1).

Fixpoint dot_wire (dot : Z) (weights input : list Z) : Z :=
  match weights, input with
  | w :: ws, x :: xs => dot_wire (api_Add dot (api_Mul w x)) ws xs
  | _, _ => dot
  end.

Definition perceptron_Define (input : list Z) (bias : Z) (weights : list Z) (weightsCommit output : Z) : Prop :=
  weightsCommit = mimc_gadget (weights ++ [bias]) ∧
  ∃ isNegative,
    cmp_IsLess (Z.shiftl 1 shiftBits) (api_Add (dot_wire bias weights input) shift) shift isNegative ∧
    (output = 0 ∨ output = 1) ∧ output = api_Sub 1 isNegative.

(** ** Assignments *)

Definition preimage_AssignFull (m : inputs) : result InputError preimageCircuit :=
  let! pre := requireBigInt m "preimage" in
  let! hash := optionalBigInt m "hash" in
  Ok {| PreImage := Some pre; Hash := Some (match hash with Some h => h | None => ComputeMiMCHash pre end) |}.

Definition preimage_AssignPublic (m : inputs) : result InputError preimageCircuit :=
  let! hash := requireBigInt m "hash" in Ok {| PreImage := None; Hash := Some hash |}.

Definition inference_AssignFull (m : inputs) : result InputError modelInferenceCircuit :=
  let! inp := requireBigInt m "input" in
  let! mc := requireBigInt m "model_commit" in
  let! out := optionalBigInt m "output_hash" in
  Ok {| MIInput := Some inp; ModelCommit := Some mc;
        OutputHash := Some (match out with Some o => o | None => ComputeModelOutputHash mc inp end) |}.

Definition inference_AssignPublic (m : inputs) : result InputError modelInferenceCircuit :=
  let! mc := requireBigInt m "model_commit" in
  let! out := requireBigInt m "output_hash" in
  Ok {| MIInput := None; ModelCommit := Some mc; OutputHash := Some out |}.

Fixpoint int_dot (dot : Z) (wts inp : list Z) : Z :=
  match wts, inp with w :: wts, x :: inp => int_dot (dot + w * x) wts inp | _, _ => dot end.

Definition perceptron_AssignFull (m : inputs) : result InputError perceptronCircuit :=
  let! inp := requireIntSlice m "input" PerceptronInputDim in
  let! wts := requireIntSlice m "weights" PerceptronInputDim in
  let! biasVal := requireBigInt m "bias" in
  let output := if 0 <=? int_dot biasVal wts inp then 1 else 0 in
  Ok {| PInputs := Some <$> inp; Bias := Some biasVal; Weights := Some <$> wts;
        WeightsCommit := Some (ComputePerceptronCommit wts biasVal); Output := Some output |}.

Definition perceptron_AssignPublic (m : inputs) : result InputError perceptronCircuit :=
  let! wts := requireIntSlice m "weights" PerceptronInputDim in
  let! commit := requireBigInt m "weights_commit" in
  let! output := requireBigInt m "output" in
  Ok {| PInputs := replicate PerceptronInputDim None; Bias := None; Weights := Some <$> wts;
        WeightsCommit := Some commit; Output := Some output |}.

Definition AssignFull (c : Circuit) (m : inputs) : result InputError frontendCircuit :=
  match c with
  | MiMCPreimageCircuit => let! a := preimage_AssignFull m in Ok (FPreimage a)
  | ModelInferenceCircuit => let! a := inference_AssignFull m in Ok (FInference a)
  | PerceptronCircuit => let! a := perceptron_AssignFull m in Ok (FPerceptron a)
  end.

Definition AssignPublic (c : Circuit) (m : inputs) : result InputError frontendCircuit :=
  match c with
  | MiMCPreimageCircuit => let! a := preimage_AssignPublic m in Ok (FPreimage a)
  | ModelInferenceCircuit => let! a := inference_AssignPublic m in Ok (FInference a)
  | PerceptronCircuit => let! a := perceptron_AssignPublic m in Ok (FPerceptron a)
  end.

(** The wires of an assignment, public ones in the order of their fields; a witness
    of gnark holds their field elements. *)
Definition public_wires (f : frontendCircuit) : list (option Z) :=
  match f with
  | FPreimage c => [Hash c]
  | FInference c => [ModelCommit c; OutputHash c]
  | FPerceptron c => Weights c ++ [WeightsCommit c; Output c]
  end.

Definition private_wires (f : frontendCircuit) : list (option Z) :=
  match f with
  | FPreimage c => [PreImage c]
  | FInference c => [MIInput c]
  | FPerceptron c => PInputs c ++ [Bias c]
  end.

(** [Define] on the values of the wires. *)
Definition satisfied (c : Circuit) (public private : list Z) : Prop :=
  match c, public, private with
  | MiMCPreimageCircuit, [hash], [pre] => preimage_Define pre hash
  | ModelInferenceCircuit, [mc; out], [inp] => inference_Define inp mc out
  | PerceptronCircuit, _, _ =>
      ∃ weights commit output input bias,
        public = weights ++ [commit; output] ∧ private = input ++ [bias] ∧
        length weights = PerceptronInputDim ∧ length input = PerceptronInputDim ∧
        perceptron_Define input bias weights commit output
  | _, _, _ => False
  end.
End gnark.

(** ** The linear classifier *)

Definition int16 (z : Z) : Prop := -32768 <= z <= 32767.

Section facts.
Context `{!Gnark, !GnarkLaws}.

Lemma to_field_fr z : is_fr (to_field z).
Proof. rewrite to_field_mod. by apply Z.mod_pos_bound. Qed.

Lemma dot_wire_mod b ws xs :
  dot_wire (b mod fr_modulus) (to_field <$> ws) (to_field <$> xs) = int_dot b ws xs mod fr_modulus.
Proof.
  revert b xs. induction ws as [|w ws IH]; intros b [|x xs]; try done. cbn [fmap list_fmap dot_wire int_dot].
  rewrite <- IH. f_equal. rewrite add_mod, mul_mod, !to_field_mod. rewrite <- Z.mul_mod, <- Z.add_mod by done. done.
Qed.

Lemma int_dot_bound b ws xs M : 0 <= M → Forall int16 ws → Forall int16 xs → Z.abs b <= M →
  Z.abs (int_dot b ws xs) <= M + Z.of_nat (length ws) * 2 ^ 30.
Proof.
  intros HM Hws. revert b xs M HM. induction Hws as [|w ws Hw _ IH]; intros b xs M HM Hxs Hb; [cbn; lia|].
  destruct Hxs as [|x xs Hx Hxs]; cbn [int_dot length]; [lia|]. unfold int16 in *.
  assert (Z.abs (w * x) <= 2 ^ 30) as Hwx by (rewrite Z.abs_mul; nia).
  pose proof (IH (b + w * x) xs (M + 2 ^ 30) ltac:(lia) Hxs ltac:(lia)). lia.
Qed.

Lemma valid_shift : valid_bound (Z.shiftl 1 shiftBits).
Proof. split; reflexivity. Qed.

(** The sign test of the circuit, for dot products below [2^39]. *)
Lemma sign_test D isNegative : Z.abs D < 2 ^ 39 →
  cmp_IsLess (Z.shiftl 1 shiftBits) (api_Add (D mod fr_modulus) shift) shift isNegative ↔
  isNegative = if D <? 0 then 1 else 0.
Proof.
  intros HD. change (Z.shiftl 1 shiftBits) with (2 ^ 40). change shift with (2 ^ 39).
  assert (api_Add (D mod fr_modulus) (2 ^ 39) = D + 2 ^ 39) as ->.
  { rewrite add_mod, Z.add_mod_idemp_l by done. apply Z.mod_small. unfold fr_modulus. lia. }
  rewrite less_bounded; [|exact valid_shift|unfold is_fr, fr_modulus; lia..|lia].
  by replace (D + 2 ^ 39 <? 2 ^ 39) with (D <? 0) by (destruct (Z.ltb_spec D 0), (Z.ltb_spec (D + 2 ^ 39) (2 ^ 39)); lia).
Qed.

Lemma perceptron_dot ws xs b commit output : Z.abs (int_dot b ws xs) < 2 ^ 39 →
  perceptron_Define (to_field <$> xs) (to_field b) (to_field <$> ws) commit output ↔
  commit = mimc_gadget (to_field <$> ws ++ [b]) ∧ output = if 0 <=? int_dot b ws xs then 1 else 0.
Proof.
  intros HD. unfold perceptron_Define. rewrite fmap_app. rewrite (to_field_mod b), dot_wire_mod, <- (to_field_mod b).
  set (D := int_dot b ws xs) in *. cbn [fmap list_fmap].
  assert (∀ i, output = api_Sub 1 i → i = (if D <? 0 then 1 else 0) → output = if 0 <=? D then 1 else 0) as H1.
  { intros i -> ->. rewrite sub_mod. destruct (Z.ltb_spec D 0), (Z.leb_spec 0 D); try lia; done. }
  split.
  - intros (-> & i & Hi & _ & Ho). split; [done|]. apply (H1 i Ho). by apply sign_test.
  - intros (-> & Ho). split; [done|]. exists (if D <? 0 then 1 else 0). split; [by apply sign_test|].
    rewrite Ho, sub_mod. destruct (Z.ltb_spec D 0), (Z.leb_spec 0 D); try lia; split; auto.
Qed.

Lemma dot_in_range ws xs b : Forall int16 ws → Forall int16 xs → length ws = PerceptronInputDim → Z.abs b <= 2 ^ 33 →
  Z.abs (int_dot b ws xs) < 2 ^ 39.
Proof.
  intros Hws Hxs Hlen Hb. pose proof (int_dot_bound b ws xs (2 ^ 33) ltac:(lia) Hws Hxs Hb) as Hbd. rewrite Hlen in Hbd.
  unfold PerceptronInputDim in Hbd. lia.
Qed.

(** C20. The classifier circuit is exact on its documented domain. For eight 16-bit
    weights and inputs and a bias of at most [2^33], its constraints hold of public
    commitment and output exactly when the commitment is MiMC of weights and bias
    and the output is the sign test of the integer dot product: no overflow of the
    field or of the comparator's 40 bits, nothing else provable, nothing unprovable. *)
Theorem perceptron_exact ws xs b commit output
    (Hws : Forall int16 ws) (Hxs : Forall int16 xs) (Hlen : length ws = PerceptronInputDim) (Hb : Z.abs b <= 2 ^ 33) :
  perceptron_Define (to_field <$> xs) (to_field b) (to_field <$> ws) commit output ↔
  commit = mimc_gadget (to_field <$> ws ++ [b]) ∧ output = if 0 <=? int_dot b ws xs then 1 else 0.
Proof.
  apply perceptron_dot. by apply dot_in_range.
Qed.

(** The private input is not range-checked. Under these weights and this bias every
    16-bit input is classified 1, and yet the output 0 has an accepted assignment. *)
Definition wide_weights : list Z := [1; 0; 0; 0; 0; 0; 0; 0].
Definition wide_bias : Z := 40000.
Definition wide_input : list Z := [-40001; 0; 0; 0; 0; 0; 0; 0].

Lemma input_not_range_checked :
  (∀ xs, Forall int16 xs → 0 <= int_dot wide_bias wide_weights xs) ∧
  perceptron_Define (to_field <$> wide_input) (to_field wide_bias) (to_field <$> wide_weights)
    (mimc_gadget (to_field <$> wide_weights ++ [wide_bias])) 0.
Proof.
  split.
  - intros xs Hxs. unfold wide_bias, wide_weights, int16 in *.
    do 8 (destruct Hxs as [|? ? ? Hxs]; cbn [int_dot]; [lia|]). cbn [int_dot]. lia.
  - apply perceptron_dot; [reflexivity|]. split; reflexivity.
Qed.

(** ** What the assignments give *)

Lemma canonical_bytes z : padTo32 (canonicalScalarBytes z) = pad_to 32 (big_bytes (to_field z)).
Proof.
  unfold canonicalScalarBytes. rewrite to_field_mod.
  destruct (Z.ltb_spec (z mod fr_modulus) 0) as [Hneg|]; [|done]. pose proof (Z.mod_pos_bound z fr_modulus eq_refl). lia.
Qed.

(** The commitment outside the circuit is the one the circuit recomputes. *)
Lemma commit_agrees ws b : ComputePerceptronCommit ws b = mimc_gadget (to_field <$> ws ++ [b]).
Proof.
  unfold ComputePerceptronCommit. rewrite <- mimc_agree.
  - f_equal. f_equal. rewrite !fmap_app. cbn [fmap list_fmap]. rewrite canonical_bytes, <- list_fmap_compose.
    f_equal. apply list_fmap_ext. intros _ z _. apply canonical_bytes.
  - apply Forall_fmap, Forall_forall. intros z _. apply to_field_fr.
Qed.

Lemma output_agrees mc inp : is_fr mc → is_fr inp → ComputeModelOutputHash mc inp = mimc_gadget [mc; inp].
Proof. intros Hm Hi. unfold ComputeModelOutputHash. rewrite <- (mimc_agree [mc; inp]); [done|by rewrite !Forall_cons]. Qed.

(** A short write is padded by the library; the empty bytes of the preimage zero are
    not covered by what it promises. *)
Lemma preimage_agrees pre : is_fr pre → pre ≠ 0 → ComputeMiMCHash pre = mimc_gadget [pre].
Proof.
  intros Hp Hne. unfold ComputeMiMCHash. rewrite mimc_short.
  - rewrite <- (mimc_agree [pre]); [done|by rewrite !Forall_cons].
  - split.
    + destruct (big_bytes pre) as [|x b] eqn:E; [|cbn; lia]. pose proof (big_bytes_value pre) as Hv. rewrite E in Hv.
      change (be_value []) with 0 in Hv. lia.
    + apply length_big_bytes. destruct Hp as [Hp1 Hp2]. rewrite Z.abs_eq by done. eapply Z.lt_trans; [exact Hp2|reflexivity].
Qed.
End facts.

(** ** A concrete field *)

#[export] Instance toy_gnark : Gnark := {|
  to_field z := z mod fr_modulus;
  api_Add a b := (a + b) mod fr_modulus;
  api_Mul a b := (a * b) mod fr_modulus;
  api_Sub a b := (a - b) mod fr_modulus;
  mimc_gadget := foldl (λ h x, (h * 31 + x + 7) mod fr_modulus) 0;
  mimc_native bs := pad_to 32 (big_bytes (foldl (λ h x, (h * 31 + x + 7) mod fr_modulus) 0 (be_value <$> bs)));
  cmp_IsLess _ a b o := o = if a <? b then 1 else 0 |}.

Lemma toy_mimc_fr xs h : is_fr h → is_fr (foldl (λ h x, (h * 31 + x + 7) mod fr_modulus) h xs).
Proof. revert h. induction xs as [|x xs IH]; intros h Hh; [done|]. cbn. apply IH. by apply Z.mod_pos_bound. Qed.

#[export] Instance toy_gnark_laws : GnarkLaws.
Proof.
  split; try done; cbn [mimc_native mimc_gadget toy_gnark].
  - intros xs Hxs. rewrite pad_to_value, big_bytes_value, <- list_fmap_compose.
    assert ((be_value ∘ (λ x, pad_to 32 (big_bytes x))) <$> xs = xs) as ->.
    { induction Hxs as [|x xs [Hx _] _ IH]; [done|]. cbn [fmap list_fmap]. unfold compose at 1.
      fold (be_value ∘ (λ x, pad_to 32 (big_bytes x))). rewrite IH, pad_to_value, big_bytes_value. by rewrite Z.abs_eq. }
    apply Z.abs_eq. by apply toy_mimc_fr.
  - intros b _. change (be_value <$> [pad_to 32 b]) with [be_value (pad_to 32 b)]. by rewrite pad_to_value.
  - intros xs. by apply toy_mimc_fr.
Qed.

Definition ex_ws : list Z := [3; -1; 4; 1; -5; 9; 2; -6].
Definition ex_xs : list Z := [10; 20; 30; -40; 50; -60; 70; 80].

Lemma perceptron_exact_witness :
  int_dot 100 ex_ws ex_xs = -940 ∧
  (perceptron_Define (to_field <$> ex_xs) (to_field 100) (to_field <$> ex_ws) (mimc_gadget (to_field <$> ex_ws ++ [100])) 0 ↔
   mimc_gadget (to_field <$> ex_ws ++ [100]) = mimc_gadget (to_field <$> ex_ws ++ [100]) ∧
   0 = if 0 <=? int_dot 100 ex_ws ex_xs then 1 else 0).
Proof.
  split; [reflexivity|].
  apply (perceptron_exact ex_ws ex_xs 100 (mimc_gadget (to_field <$> ex_ws ++ [100])) 0); [| |reflexivity|lia].
  - by repeat (apply Forall_cons; split; [unfold int16; lia|]).
  - by repeat (apply Forall_cons; split; [unfold int16; lia|]).
Defined.
