(* ===== verification/ZkRegistry.v ===== *)
(** * The circuit registry and its key files
      ([engine/internal/zkverifier/gnarkzk]: [registry.go], [persist.go])

    Registration, compilation, proving and verifying, and the persistence of a
    circuit's constraint system and keys in four files. The file system is a map
    from paths to contents; a process may stop anywhere while it writes. Every
    method is one atomic step, although [Compile] releases the lock while it works.

    gnark's Groth16 backend and the JSON text of the manifest are the class
    [Groth16]; [Groth16Laws] states completeness and that serialisation is read
    back. Drawn randomness and the clock are arguments. *)

From S2P Require Import Prelude GoLib JsonFacts Sha256 BigInt FileStore Circuits.

Local Open Scope Z_scope.

Record KeyManifest := {
  MCircuitID : string; MVersion : string; MBackend : string; MCurve : string; MCreatedAt : time; MConstraints : Z;
  CCSDigest : string; PKDigest : string; VKDigest : string; Warning : string;
}.

Class Groth16 (CCS PK VK Prf : Type) := {
  compile_circuit : Circuit → option CCS;
  nb_constraints : CCS → Z;
  setup : CCS → bytes → option (PK * VK);
  gprove : CCS → PK → list Z → list Z → bytes → option Prf;
  gverify : Prf → VK → list Z → bool;
  ccs_bytes : CCS → bytes;  read_ccs : bytes → option CCS;
  pk_bytes : PK → bytes;    read_pk : bytes → option PK;
  vk_bytes : VK → bytes;    read_vk : bytes → option VK;
  manifest_json : KeyManifest → bytes;  parse_manifest : bytes → option KeyManifest;
}.

Class Groth16Laws (CCS PK VK Prf : Type) `{!Gnark, !Groth16 CCS PK VK Prf} := {
  groth16_complete c ccs rnd pk vk public private rnd' :
    compile_circuit c = Some ccs → setup ccs rnd = Some (pk, vk) → satisfied c public private →
    ∃ p : Prf, gprove ccs pk public private rnd' = Some p ∧ gverify p vk public = true;
  groth16_refuses c ccs rnd pk vk public private rnd' :
    compile_circuit c = Some ccs → setup ccs rnd = Some (pk, vk) → ¬ satisfied c public private →
    gprove ccs pk public private rnd' = None;
  ccs_roundtrip x : read_ccs (ccs_bytes x) = Some x;
  pk_roundtrip x : read_pk (pk_bytes x) = Some x;
  vk_roundtrip x : read_vk (vk_bytes x) = Some x;
  manifest_roundtrip m : parse_manifest (manifest_json m) = Some m;
}.

Record PublicInput := { PIName : string; PIDescription : string; PIEncoding : string }.

Record Descriptor := {
  DID : string; DVersion : string; DDescription : string; DCurve : string; DBackend : string;
  DPublicInputs : list PublicInput; DConstraints : Z; DKeyDigest : string;
}.

Definition decimal_input (name description : string) : PublicInput :=
  {| PIName := name; PIDescription := description; PIEncoding := "big_int_decimal" |}.

Definition base_descriptor (id description : string) (public : list PublicInput) : Descriptor :=
  {| DID := id; DVersion := "1.0.0"; DDescription := description; DCurve := "BN254"; DBackend := "groth16";
     DPublicInputs := public; DConstraints := 0; DKeyDigest := "" |}.

Definition perceptron_inputs : list PublicInput :=
  decimal_input "weights_commit" "MiMC(weights || bias) — model identity" ::
  ((λ i, let n := itoa (Z.of_nat i) in
         decimal_input ("weight_" +:+ n) ("Signed 16-bit weight for dimension " +:+ n +:+ " (negative values as p-|x|)")) <$>
   seq 0 PerceptronInputDim) ++
  [decimal_input "output" "Classifier output — 0 (negative class) or 1 (positive class)"].

Definition descriptor_of (c : Circuit) : Descriptor :=
  match c with
  | MiMCPreimageCircuit =>
      base_descriptor MiMCPreimageID "Knowledge of preimage x such that MiMC(x) == public hash"
        [decimal_input "hash" "MiMC commitment to preimage"]
  | ModelInferenceCircuit =>
      base_descriptor ModelInferenceID "Knowledge of input x s.t. MiMC(model_commit, x) == output_hash (both public)"
        [decimal_input "model_commit" "MiMC commitment to model weights";
         decimal_input "output_hash" "MiMC(model_commit, input)"]
  | PerceptronCircuit =>
      base_descriptor PerceptronCircuitID
        ("Groth16 proof that <w,x>+b ⋛ 0 for a " +:+ itoa (Z.of_nat PerceptronInputDim) +:+ "-dim single-perceptron classifier")
        perceptron_inputs
  end.

Inductive ZkError :=
| EMissingID | EDuplicate (id : string) | ENotRegistered (id : string) | ENotCompiled (id : string) | ECompile (id : string)
| ESetup (id : string) | EAssign (e : InputError) | EWitness | EProve | EMkdir (dir : string) | ESave (path : string).

(** ** Files *)

Definition manifestFile : string := "manifest.json".
Definition ccsFile : string := "circuit.ccs".
Definition pkFile : string := "proving.key".
Definition vkFile : string := "verifying.key".

(** [filepath.Join] on cleaned parts. *)
Definition key_path (base id file : string) : string := (base +:+ "/" +:+ id +:+ "/" +:+ file)%string.

Definition hexSHA (data : bytes) : string := hex_encode (sha256 data).

(** How writing one file ends: the temporary file is not opened, the write stops
    after [n] bytes (and the file is removed or not), or the rename fails. *)
Inductive save_io := SaveOk | SaveNoOpen | SaveNoWrite (n : nat) (removed : bool) | SaveNoRename.

Definition replaced (fs : files) (path : string) (out : bytes) : files := <[path := out]> (delete (tmp_of path) fs).

Definition save_file (fs : files) (path : string) (out : bytes) (o : save_io) : files * result ZkError string :=
  match o with
  | SaveNoOpen => (fs, Err (ESave path))
  | SaveNoWrite n removed =>
      (if removed then delete (tmp_of path) fs else <[tmp_of path := take n out]> fs, Err (ESave path))
  | SaveNoRename => (<[tmp_of path := out]> fs, Err (ESave path))
  | SaveOk => (replaced fs path out, Ok (hexSHA out))
  end.

Section registry.
Context {CCS PK VK Prf : Type} `{!Gnark, !Groth16 CCS PK VK Prf}.

Record compiled := { circuit : Circuit; descriptor : Descriptor; artifacts : option (CCS * PK * VK) }.

Record Registry := { circuits : gmap string compiled; defaultID : string }.

Definition NewRegistry : Registry := {| circuits := ∅; defaultID := "" |}.

Definition Register (r : Registry) (c : Circuit) : result ZkError Registry :=
  let d := descriptor_of c in
  if bool_decide (DID d = "")%string then Err EMissingID
  else match circuits r !! DID d with
       | Some _ => Err (EDuplicate (DID d))
       | None =>
           Ok {| circuits := <[DID d := {| circuit := c; descriptor := d; artifacts := None |}]> (circuits r);
                 defaultID := if bool_decide (defaultID r = "")%string then DID d else defaultID r |}
       end.

Definition SetDefault (r : Registry) (id : string) : result ZkError Registry :=
  match circuits r !! id with
  | None => Err (ENotRegistered id)
  | Some _ => Ok {| circuits := circuits r; defaultID := id |}
  end.

Definition DefaultID (r : Registry) : string := defaultID r.

Definition digestVK (vk : VK) : string := hexSHA (vk_bytes vk).

(** The artifacts and the two descriptor fields that come with them. *)
Definition with_keys (c : compiled) (ccs : CCS) (pk : PK) (vk : VK) (digest : string) : compiled :=
  let d := descriptor c in
  {| circuit := circuit c;
     descriptor := {| DID := DID d; DVersion := DVersion d; DDescription := DDescription d; DCurve := DCurve d;
                      DBackend := DBackend d; DPublicInputs := DPublicInputs d;
                      DConstraints := nb_constraints ccs; DKeyDigest := digest |};
     artifacts := Some (ccs, pk, vk) |}.

Definition put (r : Registry) (id : string) (c : compiled) : Registry :=
  {| circuits := <[id := c]> (circuits r); defaultID := defaultID r |}.

Definition generate (id : string) (c : Circuit) (rnd : bytes) : result ZkError (CCS * PK * VK) :=
  match compile_circuit c with
  | None => Err (ECompile id)
  | Some ccs => match setup ccs rnd with None => Err (ESetup id) | Some (pk, vk) => Ok (ccs, pk, vk) end
  end.

Definition Compile (r : Registry) (id : string) (rnd : bytes) : result ZkError Registry :=
  match circuits r !! id with
  | None => Err (ENotRegistered id)
  | Some c =>
      match artifacts c with
      | Some _ => Ok r
      | None => let! (ccs, pk, vk) := generate id (circuit c) rnd in Ok (put r id (with_keys c ccs pk vk (digestVK vk)))
      end
  end.

(** Sorted, whatever order the map is ranged over. *)
Definition IDs (r : Registry) : list string := sort_slice string_ltb (map_to_list (circuits r)).*1.

Definition Descriptors (r : Registry) : list Descriptor :=
  sort_slice (λ a b, string_ltb (DID a) (DID b)) (descriptor <$> (map_to_list (circuits r)).*2).

Definition GetDescriptor (r : Registry) (id : string) : option Descriptor := descriptor <$> circuits r !! id.

(** gnark reads the wires of an assignment as field elements and refuses an
    unassigned one. *)
Definition new_witness (wires : list (option Z)) : option (list Z) := mapM (fmap to_field) wires.

Definition compiled_of (r : Registry) (id : string) : result ZkError (compiled * (CCS * PK * VK)) :=
  match circuits r !! id with
  | None => Err (ENotRegistered id)
  | Some c => match artifacts c with None => Err (ENotCompiled id) | Some a => Ok (c, a) end
  end.

Definition Prove (r : Registry) (id : string) (m : inputs) (rnd : bytes) : result ZkError Prf :=
  let! (c, (ccs, pk, _)) := compiled_of r id in
  match AssignFull (circuit c) m with
  | Err e => Err (EAssign e)
  | Ok a =>
      match new_witness (public_wires a), new_witness (private_wires a) with
      | Some public, Some private =>
          match gprove ccs pk public private rnd with Some p => Ok p | None => Err EProve end
      | _, _ => Err EWitness
      end
  end.

Definition Verify (r : Registry) (id : string) (proof : Prf) (m : inputs) : result ZkError bool :=
  let! (c, (_, _, vk)) := compiled_of r id in
  match AssignPublic (circuit c) m with
  | Err e => Err (EAssign e)
  | Ok a =>
      match new_witness (public_wires a) with
      | Some public => Ok (gverify proof vk public)
      | None => Err EWitness
      end
  end.

Definition VerifyingKey (r : Registry) (id : string) : result ZkError VK :=
  let! (_, (_, _, vk)) := compiled_of r id in Ok vk.

(** ** Persistence *)

Definition LoadManifest (fs : files) (id base : string) : option KeyManifest :=
  data ← fs !! key_path base id manifestFile; parse_manifest data.

(** The persisted artifacts, when all four files are there, are read and agree with
    the digests of the manifest. *)
Definition load_artifacts (fs : files) (id base : string) : option (KeyManifest * (CCS * PK * VK)) :=
  manifest ← LoadManifest fs id base;
  cb ← fs !! key_path base id ccsFile; ccs ← read_ccs cb;
  pb ← fs !! key_path base id pkFile; pk ← read_pk pb;
  vb ← fs !! key_path base id vkFile; vk ← read_vk vb;
  if bool_decide (CCSDigest manifest = hexSHA cb) && bool_decide (PKDigest manifest = hexSHA pb) &&
     bool_decide (VKDigest manifest = hexSHA vb)
  then Some (manifest, (ccs, pk, vk)) else None.

Definition new_manifest (id : string) (d : Descriptor) (now : time) (ccs : CCS) (cd pd vd : string) : KeyManifest :=
  {| MCircuitID := id; MVersion := DVersion d; MBackend := "groth16"; MCurve := "BN254"; MCreatedAt := now;
     MConstraints := nb_constraints ccs; CCSDigest := cd; PKDigest := pd; VKDigest := vd;
     Warning := "session-local / developer trusted setup — NOT a production MPC ceremony. See docs/roadmap/CEREMONY.md." |}.

(** The four files a generation writes, in order. *)
Definition key_files (id base : string) (d : Descriptor) (now : time) (a : CCS * PK * VK) : list (string * bytes) :=
  let '(ccs, pk, vk) := a in
  [(key_path base id ccsFile, ccs_bytes ccs); (key_path base id pkFile, pk_bytes pk);
   (key_path base id vkFile, vk_bytes vk);
   (key_path base id manifestFile,
    manifest_json (new_manifest id d now ccs (hexSHA (ccs_bytes ccs)) (hexSHA (pk_bytes pk)) (hexSHA (vk_bytes vk))))].

(** Write files until one fails; [ios] are the outcomes, all good past its end. *)
Fixpoint save_all (fs : files) (ws : list (string * bytes)) (ios : list save_io) : files * result ZkError () :=
  match ws with
  | [] => (fs, Ok ())
  | (path, out) :: ws =>
      match save_file fs path out (default SaveOk (head ios)) with
      | (fs', Ok _) => save_all fs' ws (tail ios)
      | (fs', Err e) => (fs', Err e)
      end
  end.

Definition LoadOrCreate (r : Registry) (fs : files) (id base : string) (forceRegenerate mkdir : bool) (now : time)
    (rnd : bytes) (ios : list save_io) : Registry * files * result ZkError KeyManifest :=
  match circuits r !! id with
  | None => (r, fs, Err (ENotRegistered id))
  | Some c =>
      match (if forceRegenerate then None else load_artifacts fs id base) with
      | Some (manifest, (ccs, pk, vk)) => (put r id (with_keys c ccs pk vk (VKDigest manifest)), fs, Ok manifest)
      | None =>
          if negb mkdir then (r, fs, Err (EMkdir (base +:+ "/" +:+ id)))
          else
            match generate id (circuit c) rnd with
            | Err e => (r, fs, Err e)
            | Ok (ccs, pk, vk) =>
                match save_all fs (key_files id base (descriptor c) now (ccs, pk, vk)) ios with
                | (fs', Err e) => (r, fs', Err e)
                | (fs', Ok _) =>
                    (put r id (with_keys c ccs pk vk (hexSHA (vk_bytes vk))), fs',
                     Ok (new_manifest id (descriptor c) now ccs (hexSHA (ccs_bytes ccs)) (hexSHA (pk_bytes pk)) (hexSHA (vk_bytes vk))))
                end
            end
      end
  end.

(** ** The stand-alone setup of the preimage circuit ([circuit.go]) *)

Record Setup := { spk : PK; svk : VK }.

Definition NewSetup (rnd : bytes) : result ZkError Setup :=
  let! (_, pk, vk) := generate "" MiMCPreimageCircuit rnd in Ok {| spk := pk; svk := vk |}.

Definition SetupProve (s : Setup) (preimage expectedHash : Z) (rnd : bytes) : result ZkError Prf :=
  match compile_circuit MiMCPreimageCircuit with
  | None => Err (ECompile "")
  | Some ccs =>
      match new_witness [Some expectedHash], new_witness [Some preimage] with
      | Some public, Some private =>
          match gprove ccs (spk s) public private rnd with Some p => Ok p | None => Err EProve end
      | _, _ => Err EWitness
      end
  end.

Definition SetupVerify (s : Setup) (proof : Prf) (expectedHash : Z) : result ZkError bool :=
  match new_witness [Some expectedHash] with
  | None => Err EWitness
  | Some public => Ok (gverify proof (svk s) public)
  end.

(** The files a process that stops while writing may leave behind. *)
Fixpoint torn_states (fs : files) (ws : list (string * bytes)) : list files :=
  match ws with
  | [] => [fs]
  | (path, out) :: ws => before_rename fs path out ++ torn_states (replaced fs path out) ws
  end.
End registry.

(** ** The key files *)

Definition key_names : list string := [ccsFile; pkFile; vkFile; manifestFile].

Lemma key_path_inj base id f g : key_path base id f = key_path base id g → f = g.
Proof. unfold key_path. by intros E%str_app_cancel%str_app_cancel%str_app_cancel%str_app_cancel. Qed.

Lemma key_path_tmp base id f g : f ∈ key_names → g ∈ key_names → tmp_of (key_path base id f) ≠ key_path base id g.
Proof.
  unfold tmp_of, key_path. intros Hf Hg. rewrite <- !str_app_assoc.
  intros E%str_app_cancel%str_app_cancel%str_app_cancel%str_app_cancel.
  revert E. unfold key_names in *. rewrite !elem_of_cons, elem_of_nil in *. naive_solver.
Qed.

Lemma lookup_save_file fs path out o fs' res p : tmp_of path ≠ p → save_file fs path out o = (fs', res) →
  (fs' !! p = fs !! p ∧ (p = path → is_ok res = false)) ∨ (p = path ∧ fs' !! p = Some out ∧ is_ok res = true).
Proof.
  intros Hne. pose proof (tmp_of_ne path). destruct o as [| |n []|]; cbn; intros [= <- <-].
  - unfold replaced. destruct (decide (p = path)) as [->|Hp]; [right; by rewrite lookup_insert_eq|left].
    by rewrite lookup_insert_ne, lookup_delete_ne.
  - by left.
  - left. by rewrite lookup_delete_ne.
  - left. by rewrite lookup_insert_ne.
  - left. by rewrite lookup_insert_ne.
Qed.

Section facts.
Context {CCS PK VK Prf : Type} `{!Gnark, !Groth16 CCS PK VK Prf, !Groth16Laws CCS PK VK Prf}.
Implicit Types (a : CCS * PK * VK) (r : Registry (CCS := CCS) (PK := PK) (VK := VK)).

(** A path of another file keeps its contents; the path of a written file has the
    old contents or the written ones. *)
Lemma lookup_save_all fs ws ios fs' res p : (∀ q out, (q, out) ∈ ws → tmp_of q ≠ p) → save_all fs ws ios = (fs', res) →
  fs' !! p = fs !! p ∨ ∃ out, (p, out) ∈ ws ∧ fs' !! p = Some out.
Proof.
  revert fs ios. induction ws as [|[q out] ws IH]; intros fs ios Hne; cbn [save_all]; [intros [= <- _]; by left|].
  assert (tmp_of q ≠ p) as Hq by (eapply Hne; left).
  assert (∀ q' out', (q', out') ∈ ws → tmp_of q' ≠ p) as Hne' by (intros q' out' Hin; eapply Hne; right; exact Hin).
  destruct (save_file _ _ _ _) as [fs1 [d|e]] eqn:Hs; pose proof (lookup_save_file _ _ _ _ _ _ p Hq Hs) as Hp.
  - intros H1. destruct (IH _ _ Hne' H1) as [E|(out' & Hin & E)].
    + rewrite E. destruct Hp as [[-> _]|(-> & -> & _)]; [by left|right]. exists out. split; [left|done].
    + right. exists out'. split; [by right|done].
  - intros [= <- _]. destruct Hp as [[-> _]|(_ & _ & [=])]. by left.
Qed.

Lemma lookup_torn fs ws fs' p : (∀ q out, (q, out) ∈ ws → tmp_of q ≠ p) → fs' ∈ torn_states fs ws →
  fs' !! p = fs !! p ∨ ∃ out, (p, out) ∈ ws ∧ fs' !! p = Some out.
Proof.
  revert fs. induction ws as [|[q out] ws IH]; intros fs Hne; cbn [torn_states].
  { rewrite list_elem_of_singleton. intros ->. by left. }
  assert (tmp_of q ≠ p) as Hq by (eapply Hne; left). rewrite elem_of_app. intros [Hin|Hin].
  - left. unfold before_rename in Hin. apply elem_of_cons in Hin as [->|(n & -> & _)%list_elem_of_fmap]; [done|].
    by rewrite lookup_insert_ne.
  - destruct (IH _ (λ q' out' Hin', Hne q' out' (list_elem_of_further _ _ _ Hin')) Hin) as [E|(out' & Hin' & E)].
    + rewrite E. unfold replaced. destruct (decide (p = q)) as [->|Hp]; [right; exists out; split; [left|apply lookup_insert_eq]|left].
      by rewrite lookup_insert_ne, lookup_delete_ne.
    + right. exists out'. split; [by right|done].
Qed.

Lemma key_files_tmp id base d now a g q out : g ∈ key_names →
  (q, out) ∈ key_files id base d now a → tmp_of q ≠ key_path base id g.
Proof.
  destruct a as [[ccs pk] vk]. intros Hg. unfold key_files. rewrite !elem_of_cons, elem_of_nil.
  intros [[= -> _]|[[= -> _]|[[= -> _]|[[= -> _]|[]]]]]; apply key_path_tmp; try done; unfold key_names; set_solver.
Qed.

Definition manifest_of (id : string) (d : Descriptor) (now : time) a : KeyManifest :=
  let '(ccs, pk, vk) := a in
  new_manifest id d now ccs (hexSHA (ccs_bytes ccs)) (hexSHA (pk_bytes pk)) (hexSHA (vk_bytes vk)).

Lemma key_files_manifest id base d now a out :
  (key_path base id manifestFile, out) ∈ key_files id base d now a → out = manifest_json (manifest_of id d now a).
Proof.
  destruct a as [[ccs pk] vk]. unfold key_files. rewrite !elem_of_cons, elem_of_nil.
  intros [E|[E|[E|[E|[]]]]]; apply pair_eq in E as [E0 E1]; apply key_path_inj in E0; try done.
Qed.
(** What is loaded under a generation's manifest is that generation, unless a file
    on disk collides with the one it wrote. *)
Definition file_collision (fs : files) (ws : list (string * bytes)) : Prop :=
  ∃ path x y, fs !! path = Some x ∧ (path, y) ∈ ws ∧ is_collision (x, y).

Lemma same_digest fs ws path x y : fs !! path = Some x → (path, y) ∈ ws → hexSHA y = hexSHA x → x = y ∨ file_collision fs ws.
Proof.
  intros Hx Hy E%hex_encode_inj. destruct (decide (x = y)); [by left|right]. exists path, x, y. split_and!; [done..|].
  split; [done|]. by symmetry.
Qed.

Lemma load_matches fs id base d now a m a' :
  fs !! key_path base id manifestFile = Some (manifest_json (manifest_of id d now a)) →
  load_artifacts fs id base = Some (m, a') →
  m = manifest_of id d now a ∧ (a' = a ∨ file_collision fs (key_files id base d now a)).
Proof.
  intros Hm. unfold load_artifacts, LoadManifest. rewrite Hm. cbn [mbind option_bind]. rewrite manifest_roundtrip.
  cbn [mbind option_bind]. destruct a as [[ccs pk] vk]. cbn [manifest_of CCSDigest PKDigest VKDigest new_manifest].
  destruct (fs !! key_path base id ccsFile) as [cb|] eqn:Hc; [|done]. cbn [mbind option_bind].
  destruct (read_ccs cb) as [ccs'|] eqn:Hrc; [|done]. cbn [mbind option_bind].
  destruct (fs !! key_path base id pkFile) as [pb|] eqn:Hp; [|done]. cbn [mbind option_bind].
  destruct (read_pk pb) as [pk'|] eqn:Hrp; [|done]. cbn [mbind option_bind].
  destruct (fs !! key_path base id vkFile) as [vb|] eqn:Hv; [|done]. cbn [mbind option_bind].
  destruct (read_vk vb) as [vk'|] eqn:Hrv; [|done]. cbn [mbind option_bind].
  case_match eqn:Hd; [|done]. bool_to_prop. intros [= <- <-]. split; [done|].
  set (ws := key_files id base d now (ccs, pk, vk)).
  destruct (same_digest fs ws _ cb (ccs_bytes ccs) Hc) as [->|]; [by left|done| |by right].
  destruct (same_digest fs ws _ pb (pk_bytes pk) Hp) as [->|]; [by right; left|done| |by right].
  destruct (same_digest fs ws _ vb (vk_bytes vk) Hv) as [->|]; [by right; right; left|done| |by right].
  left. rewrite ccs_roundtrip in Hrc. rewrite pk_roundtrip in Hrp. rewrite vk_roundtrip in Hrv. congruence.
Qed.

(** Files of complete, failed and interrupted generations; [gens] are all that were
    ever started. *)
Inductive key_history (id base : string) : files → list (Descriptor * time * (CCS * PK * VK)) → Prop :=
| kh_new fs : fs !! key_path base id manifestFile = None → key_history id base fs []
| kh_saved fs gens d now a ios :
    key_history id base fs gens →
    key_history id base (save_all fs (key_files id base d now a) ios).1 ((d, now, a) :: gens)
| kh_torn fs gens d now a fs' :
    key_history id base fs gens → fs' ∈ torn_states fs (key_files id base d now a) →
    key_history id base fs' ((d, now, a) :: gens).

(** The manifest on disk is absent or that of one of the generations. *)
Definition manifest_known (id base : string) (fs : files) (gens : list (Descriptor * time * (CCS * PK * VK))) : Prop :=
  fs !! key_path base id manifestFile = None ∨
  ∃ d now a, (d, now, a) ∈ gens ∧ fs !! key_path base id manifestFile = Some (manifest_json (manifest_of id d now a)).

Lemma manifest_known_step id base fs fs' gens d now a :
  manifest_known id base fs gens →
  fs' !! key_path base id manifestFile = fs !! key_path base id manifestFile ∨
  (∃ out, (key_path base id manifestFile, out) ∈ key_files id base d now a ∧ fs' !! key_path base id manifestFile = Some out) →
  manifest_known id base fs' ((d, now, a) :: gens).
Proof.
  unfold manifest_known. intros Hold [->|(out & ->%key_files_manifest & ->)].
  - destruct Hold as [->|(d' & now' & a' & Hin & ->)]; [by left|right]. exists d', now', a'. split; [by right|done].
  - right. exists d, now, a. split; [left|done].
Qed.

Lemma history_manifest id base fs gens : key_history id base fs gens → manifest_known id base fs gens.
Proof.
  assert (∀ d now a q out, (q, out) ∈ key_files id base d now a → tmp_of q ≠ key_path base id manifestFile) as Hne.
  { intros d now a q out. apply key_files_tmp. unfold key_names. set_solver. }
  induction 1 as [fs Hn|fs gens d now a ios _ IH|fs gens d now a fs' _ IH Hin]; [by left| |].
  - apply (manifest_known_step _ _ fs); [done|]. destruct (save_all _ _ _) as [fs' res] eqn:Hs.
    exact (lookup_save_all _ _ _ _ _ _ (Hne d now a) Hs).
  - apply (manifest_known_step _ _ fs); [done|]. exact (lookup_torn _ _ _ _ (Hne d now a) Hin).
Qed.

(** C21. Key files are never mixed. Whatever generations of a circuit's keys were
    completed, failed or interrupted in the middle of a file, a process that starts
    up either loads the constraint system and both keys of one single generation,
    with its manifest, or loads none; else two files exhibit a SHA-256 collision. *)
Theorem zk_keys_never_mixed id base fs gens m a
    (Hh : key_history id base fs gens) (Hload : load_artifacts fs id base = Some (m, a)) :
  ∃ d now a0, (d, now, a0) ∈ gens ∧ m = manifest_of id d now a0 ∧
    (a = a0 ∨ file_collision fs (key_files id base d now a0)).
Proof.
  destruct (history_manifest _ _ _ _ Hh) as [Hn|(d & now & a0 & Hin & Hm)].
  - unfold load_artifacts, LoadManifest in Hload. by rewrite Hn in Hload.
  - exists d, now, a0. split; [done|]. by apply load_matches.
Qed.

Lemma save_all_ok fs ws ios fs' : NoDup ws.*1 → (∀ q out q' out', (q, out) ∈ ws → (q', out') ∈ ws → tmp_of q ≠ q') →
  save_all fs ws ios = (fs', Ok ()) → ∀ q out, (q, out) ∈ ws → fs' !! q = Some out.
Proof.
  revert fs ios. induction ws as [|[q out] ws IH]; intros fs ios Hnd Hne; [by intros _ q out ?%elem_of_nil|].
  cbn [save_all]. destruct (save_file _ _ _ _) as [fs1 [dg|e]] eqn:Hs; [|done]. intros Hall q' out' Hin.
  cbn in Hnd. apply NoDup_cons in Hnd as [Hq Hnd].
  assert (∀ q out q' out', (q, out) ∈ ws → (q', out') ∈ ws → tmp_of q ≠ q') as Hne'
    by (intros q1 o1 q2 o2 H1 H2; eapply Hne; right; done).
  apply elem_of_cons in Hin as [[= -> ->]|Hin]; [|by apply (IH fs1 (tail ios))].
  destruct (lookup_save_all fs1 ws (tail ios) fs' (Ok ()) q) as [E|(o & Ho & _)].
  - intros q1 o1 H1. eapply Hne; [by right|left].
  - done.
  - rewrite E. destruct (lookup_save_file _ _ _ _ _ _ q (tmp_of_ne q) Hs) as [[_ Hbad]|(_ & -> & _)]; [|done].
    by specialize (Hbad eq_refl).
  - exfalso. apply Hq. apply list_elem_of_fmap. by exists (q, o).
Qed.

Lemma load_after_save fs id base d now a ios fs' :
  save_all fs (key_files id base d now a) ios = (fs', Ok ()) →
  load_artifacts fs' id base = Some (manifest_of id d now a, a).
Proof.
  intros Hs. destruct a as [[ccs pk] vk].
  assert (∀ q out, (q, out) ∈ key_files id base d now (ccs, pk, vk) → fs' !! q = Some out) as Hf.
  { eapply save_all_ok; [| |exact Hs].
    - cbn. rewrite !NoDup_cons, !not_elem_of_cons. split_and!; try apply not_elem_of_nil; try apply NoDup_nil_2;
        intros E%key_path_inj; discriminate.
    - intros q out q' out' Hq. unfold key_files. rewrite !elem_of_cons, elem_of_nil.
      intros [E|[E|[E|[E|[]]]]]; apply pair_eq in E as [-> _]; (eapply key_files_tmp; [|exact Hq]); unfold key_names; set_solver. }
  unfold load_artifacts, LoadManifest, key_files in *.
  erewrite (Hf (key_path base id manifestFile)) by (right; right; right; left). cbn [mbind option_bind].
  rewrite manifest_roundtrip. cbn [mbind option_bind].
  erewrite (Hf (key_path base id ccsFile)) by left. cbn [mbind option_bind]. rewrite ccs_roundtrip. cbn [mbind option_bind].
  erewrite (Hf (key_path base id pkFile)) by (right; left). cbn [mbind option_bind]. rewrite pk_roundtrip. cbn [mbind option_bind].
  erewrite (Hf (key_path base id vkFile)) by (right; right; left). cbn [mbind option_bind]. rewrite vk_roundtrip.
  cbn [mbind option_bind]. by rewrite !bool_decide_true.
Qed.
Lemma compiled_of_put r id c ccs pk vk digest :
  compiled_of (put r id (with_keys c ccs pk vk digest)) id = Ok (with_keys c ccs pk vk digest, (ccs, pk, vk)).
Proof. unfold compiled_of, put. cbn [circuits]. by rewrite lookup_insert_eq. Qed.

(** What a successful [LoadOrCreate] leaves behind: a loadable set of files, and a
    registry holding what they hold. *)
Lemma LoadOrCreate_loads r fs id base force mkdir now rnd ios r1 fs1 m :
  LoadOrCreate r fs id base force mkdir now rnd ios = (r1, fs1, Ok m) →
  ∃ c ccs pk vk, circuits r !! id = Some c ∧ load_artifacts fs1 id base = Some (m, (ccs, pk, vk)) ∧
    r1 = put r id (with_keys c ccs pk vk (VKDigest m)).
Proof.
  unfold LoadOrCreate. destruct (circuits r !! id) as [c|]; [|done].
  destruct (if force then _ else _) as [[m0 [[ccs pk] vk]]|] eqn:Hl.
  - destruct force; [done|]. intros [= <- <- <-]. by exists c, ccs, pk, vk.
  - destruct mkdir; [|done]. cbn [negb]. destruct (generate _ _ _) as [[[ccs pk] vk]|e]; [|done].
    destruct (save_all _ _ _) as [fs' [[]|e]] eqn:Hs; [|done]. intros [= <- <- <-].
    exists c, ccs, pk, vk. split; [done|]. split; [|done]. exact (load_after_save _ _ _ _ _ _ _ _ Hs).
Qed.

(** Proofs survive a restart. After a successful [LoadOrCreate], in whatever
    way it succeeded, another process that has registered the circuit and finds
    these files loads exactly the same keys, writes nothing, reports the same
    manifest, and gives the same verdict on every proof. *)
Theorem zk_keys_survive_restart r fs id base force mkdir now rnd ios r1 fs1 m c r' c' mkdir' now' rnd' ios'
    (Hcreate : LoadOrCreate r fs id base force mkdir now rnd ios = (r1, fs1, Ok m))
    (Hc : circuits r !! id = Some c) (Hc' : circuits r' !! id = Some c') (Hsame : circuit c' = circuit c) :
  ∃ r2, LoadOrCreate r' fs1 id base false mkdir' now' rnd' ios' = (r2, fs1, Ok m) ∧
    VerifyingKey r2 id = VerifyingKey r1 id ∧
    ∀ (p : Prf) inp, Verify r2 id p inp = Verify r1 id p inp.
Proof.
  destruct (LoadOrCreate_loads _ _ _ _ _ _ _ _ _ _ _ _ Hcreate) as (c0 & ccs & pk & vk & Hc0 & Hload & ->).
  rewrite Hc in Hc0. injection Hc0 as <-. exists (put r' id (with_keys c' ccs pk vk (VKDigest m))). split_and!.
  - unfold LoadOrCreate. by rewrite Hc', Hload.
  - unfold VerifyingKey. by rewrite !compiled_of_put.
  - intros p inp. unfold Verify. rewrite !compiled_of_put. cbn [result_bind with_keys circuit]. by rewrite Hsame.
Qed.
End facts.

(** ** A classification from end to end *)


Section classify.
Context {CCS PK VK Prf : Type} `{!Gnark, !GnarkLaws, !Groth16 CCS PK VK Prf, !Groth16Laws CCS PK VK Prf}.

Definition classify_inputs (ws xs : list Z) (b : Z) : inputs :=
  {["weights" := ABigs ws; "input" := ABigs xs; "bias" := ABig (Some b)]}.

Definition classify_claim (ws : list Z) (commit output : Z) : inputs :=
  {["weights" := ABigs ws; "weights_commit" := ABig (Some commit); "output" := ABig (Some output)]}.

Lemma new_witness_some l : new_witness (Some <$> l) = Some (to_field <$> l).
Proof. unfold new_witness. induction l as [|x l IH]; [done|]. cbn in *. by rewrite IH. Qed.

Lemma slice_input (m : inputs) name l : m !! name = Some (ABigs l) → length l = PerceptronInputDim →
  requireIntSlice m name PerceptronInputDim = Ok l.
Proof. unfold requireIntSlice, check_length. intros -> ->. by rewrite Nat.eqb_refl. Qed.

Lemma big_input (m : inputs) name z : m !! name = Some (ABig (Some z)) → requireBigInt m name = Ok z.
Proof. unfold requireBigInt. by intros ->. Qed.

Lemma registered_compiled (r0 r1 r : Registry (CCS := CCS) (PK := PK) (VK := VK)) rnd :
  Register r0 PerceptronCircuit = Ok r1 → Compile r1 PerceptronCircuitID rnd = Ok r →
  ∃ c ccs pk vk, compiled_of r PerceptronCircuitID = Ok (c, (ccs, pk, vk)) ∧ circuit c = PerceptronCircuit ∧
    compile_circuit PerceptronCircuit = Some ccs ∧ setup ccs rnd = Some (pk, vk).
Proof.
  unfold Register. cbn [DID descriptor_of base_descriptor]. change (bool_decide (PerceptronCircuitID = "")) with false.
  destruct (circuits r0 !! PerceptronCircuitID); [done|]. intros <-%ok_inj. unfold Compile. cbn [circuits].
  rewrite lookup_insert_eq. cbn [artifacts circuit]. unfold generate.
  destruct (compile_circuit PerceptronCircuit) as [ccs|]; [|done]. destruct (setup ccs rnd) as [[pk vk]|] eqn:Hs; [|done].
  cbn [result_bind]. intros <-%ok_inj. rewrite compiled_of_put. by eexists _, ccs, pk, vk.
Qed.

(** The stand-alone setup proves exactly the true preimage statements. *)
Lemma setup_exact (s : Setup (PK := PK) (VK := VK)) rnd rnd' pre hash :
  NewSetup rnd = Ok s →
  (to_field hash = mimc_gadget [to_field pre] →
     ∃ p : Prf, SetupProve s pre hash rnd' = Ok p ∧ SetupVerify s p hash = Ok true) ∧
  (to_field hash ≠ mimc_gadget [to_field pre] → SetupProve s pre hash rnd' = Err (A := Prf) EProve).
Proof.
  unfold NewSetup, generate, SetupProve, SetupVerify.
  destruct (compile_circuit MiMCPreimageCircuit) as [ccs|] eqn:Hc; [|done].
  destruct (setup ccs rnd) as [[pk vk]|] eqn:Hs; [|done]. cbn [result_bind]. intros <-%ok_inj. cbn [spk svk].
  change (new_witness [Some hash]) with (Some [to_field hash]). change (new_witness [Some pre]) with (Some [to_field pre]).
  split; intros Hh.
  - destruct (groth16_complete MiMCPreimageCircuit ccs rnd pk vk [to_field hash] [to_field pre] rnd' Hc Hs Hh) as (p & -> & Hv).
    exists p. by rewrite Hv.
  - by rewrite (groth16_refuses MiMCPreimageCircuit ccs rnd pk vk [to_field hash] [to_field pre] rnd' Hc Hs Hh).
Qed.

(** The classifier service is complete. In a registry where the perceptron
    circuit has been registered and compiled, proving on eight 16-bit weights and
    inputs and a bias of at most [2^33] succeeds, and the proof verifies against
    the weights, their commitment and the sign of the integer dot product. *)
Theorem classify_end_to_end r0 r1 r rnd rnd' ws xs b
    (Hreg : Register r0 PerceptronCircuit = Ok r1) (Hcomp : Compile r1 PerceptronCircuitID rnd = Ok r)
    (Hws : Forall int16 ws) (Hxs : Forall int16 xs)
    (Hlw : length ws = PerceptronInputDim) (Hlx : length xs = PerceptronInputDim) (Hb : Z.abs b <= 2 ^ 33) :
  ∃ p : Prf, Prove r PerceptronCircuitID (classify_inputs ws xs b) rnd' = Ok p ∧
    Verify r PerceptronCircuitID p
      (classify_claim ws (ComputePerceptronCommit ws b) (if 0 <=? int_dot b ws xs then 1 else 0)) = Ok true.
Proof.
  destruct (registered_compiled r0 r1 r rnd Hreg Hcomp) as (c & ccs & pk & vk & Hof & Hcirc & Hcc & Hsetup).
  set (o := if 0 <=? int_dot b ws xs then 1 else 0). set (commit := ComputePerceptronCommit ws b).
  assert (to_field commit = commit ∧ to_field o = o) as [Hfc Hfo].
  { rewrite !to_field_mod. unfold commit. rewrite commit_agrees. split; apply Z.mod_small; [apply mimc_is_fr|].
    unfold o. destruct (0 <=? _); unfold fr_modulus; lia. }
  destruct (groth16_complete PerceptronCircuit ccs rnd pk vk ((to_field <$> ws) ++ [commit; o])
    ((to_field <$> xs) ++ [to_field b]) rnd' Hcc Hsetup) as (p & Hp & Hv).
  { exists (to_field <$> ws), commit, o, (to_field <$> xs), (to_field b). rewrite !length_fmap. split_and!; try done.
    apply perceptron_dot; [by apply dot_in_range|]. by rewrite <- commit_agrees. }
  assert (requireIntSlice (classify_inputs ws xs b) "input" PerceptronInputDim = Ok xs) as Hi1 by by apply slice_input.
  assert (requireIntSlice (classify_inputs ws xs b) "weights" PerceptronInputDim = Ok ws) as Hi2 by by apply slice_input.
  assert (requireIntSlice (classify_claim ws commit o) "weights" PerceptronInputDim = Ok ws) as Hi3 by by apply slice_input.
  exists p. unfold Prove, Verify. rewrite Hof. cbn [result_bind]. rewrite Hcirc. cbn [AssignFull AssignPublic].
  unfold perceptron_AssignFull, perceptron_AssignPublic. rewrite Hi1, Hi2, Hi3. cbn [result_bind].
  rewrite !(big_input _ _ b), (big_input _ _ commit), (big_input _ _ o) by done. cbn [result_bind].
  cbn [public_wires private_wires Weights WeightsCommit Output PInputs Bias]. fold o commit.
  change [Some commit; Some o] with (Some <$> [commit; o]). change [Some b] with (Some <$> [b]).
  rewrite <- !fmap_app, !new_witness_some, !fmap_app. cbn [fmap list_fmap]. rewrite Hfc, Hfo, Hp. by rewrite Hv.
Qed.
End classify.

(** ** A concrete backend *)

Section example.
#[local] Existing Instance toy_gnark.
#[local] Existing Instance toy_gnark_laws.

#[local] Instance manifest_eq_dec : EqDecision KeyManifest.
Proof. solve_decision. Defined.

#[local] Program Instance manifest_countable : Countable KeyManifest :=
  inj_countable' (λ m, (MCircuitID m, MVersion m, MBackend m, MCurve m, MCreatedAt m, MConstraints m, CCSDigest m,
      PKDigest m, VKDigest m, Warning m))
    (λ '(a, b, c, d, e, f, g, h, i, j), {| MCircuitID := a; MVersion := b; MBackend := c; MCurve := d; MCreatedAt := e;
      MConstraints := f; CCSDigest := g; PKDigest := h; VKDigest := i; Warning := j |}) _.
Next Obligation. by intros []. Qed.

(** Constraints decided on the wires, for the toy field gadgets. *)
Definition ex_satisfied (c : Circuit) (public private : list Z) : bool :=
  match c, public, private with
  | MiMCPreimageCircuit, [hash], [pre] => hash =? mimc_gadget [pre]
  | ModelInferenceCircuit, [mc; out], [inp] => out =? mimc_gadget [mc; inp]
  | PerceptronCircuit, [w1; w2; w3; w4; w5; w6; w7; w8; commit; output], [x1; x2; x3; x4; x5; x6; x7; x8; bias] =>
      let ws := [w1; w2; w3; w4; w5; w6; w7; w8] in
      (commit =? mimc_gadget (ws ++ [bias])) && ((output =? 0) || (output =? 1)) &&
      (output =? api_Sub 1 (if api_Add (dot_wire bias ws [x1; x2; x3; x4; x5; x6; x7; x8]) shift <? shift then 1 else 0))
  | _, _, _ => false
  end.

Lemma ex_satisfied_spec c public private : satisfied c public private → ex_satisfied c public private = true.
Proof.
  destruct c; cbn [satisfied].
  - destruct public as [|h []], private as [|p []]; cbn; try done. unfold preimage_Define. intros ->. apply Z.eqb_refl.
  - destruct public as [|m [|o []]], private as [|p []]; cbn; try done. unfold inference_Define. intros ->. apply Z.eqb_refl.
  - intros (ws & cm & o & xs & b & -> & -> & Hw & Hx & Hd). unfold PerceptronInputDim in *.
    do 8 (destruct ws as [|? ws]; [discriminate Hw|]). destruct ws; [|discriminate Hw].
    do 8 (destruct xs as [|? xs]; [discriminate Hx|]). destruct xs; [|discriminate Hx].
    destruct Hd as (-> & i & -> & Ho & E). cbn [ex_satisfied app]. rewrite Z.eqb_refl. cbn [andb].
    rewrite <- E, Z.eqb_refl, andb_true_r. destruct Ho as [-> | ->]; done.
Qed.

Lemma ex_satisfied_sound c public private : ex_satisfied c public private = true → satisfied c public private.
Proof.
  destruct c; cbn [ex_satisfied satisfied].
  - destruct public as [|h []], private as [|p []]; try done. by intros ->%Z.eqb_eq.
  - destruct public as [|m [|o []]], private as [|p []]; try done. by intros ->%Z.eqb_eq.
  - destruct public as [|w1 [|w2 [|w3 [|w4 [|w5 [|w6 [|w7 [|w8 [|cm [|o []]]]]]]]]]]; try done.
    destruct private as [|x1 [|x2 [|x3 [|x4 [|x5 [|x6 [|x7 [|x8 [|b []]]]]]]]]]; try done.
    intros Hb. bool_to_prop. exists [w1; w2; w3; w4; w5; w6; w7; w8], cm, o, [x1; x2; x3; x4; x5; x6; x7; x8], b.
    split_and!; try done. split; [done|]. eexists. split; [reflexivity|].
    split; [|done]. destruct (Z.eqb_spec o 0); [by left|]. right. by apply Z.eqb_eq.
Qed.

#[local] Instance toy_groth16 : Groth16 Circuit bytes bytes (list Z) := {|
  compile_circuit c := Some c;
  nb_constraints c := match c with PerceptronCircuit => 1000 | _ => 300 end;
  setup ccs rnd := Some (rnd, rnd);
  gprove ccs pk public private rnd := if ex_satisfied ccs public private then Some public else None;
  gverify p vk public := bool_decide (p = public);
  ccs_bytes c := [match c with MiMCPreimageCircuit => Byte.x00 | ModelInferenceCircuit => Byte.x01 | PerceptronCircuit => Byte.x02 end];
  read_ccs b := match b with
                | [Byte.x00] => Some MiMCPreimageCircuit | [Byte.x01] => Some ModelInferenceCircuit
                | [Byte.x02] => Some PerceptronCircuit | _ => None end;
  pk_bytes x := x; read_pk x := Some x; vk_bytes x := x; read_vk x := Some x;
  manifest_json m := bits_of (encode m); parse_manifest b := decode (of_bits b) |}.

#[local] Instance toy_groth16_laws : Groth16Laws Circuit bytes bytes (list Z).
Proof.
  split; cbn.
  - intros c ccs rnd pk vk public private _ [= ->] _ Hs. rewrite (ex_satisfied_spec _ _ _ Hs).
    exists public. split; [done|]. by rewrite bool_decide_true.
  - intros c ccs rnd pk vk public private _ [= ->] _ Hs. destruct (ex_satisfied _ _ _) eqn:E; [|done].
    by apply ex_satisfied_sound in E.
  - by intros [].
  - done.
  - done.
  - intros m. by rewrite of_bits_of, decode_encode.
Qed.

Definition ex_registered : Registry (CCS := Circuit) (PK := bytes) (VK := bytes) :=
  the_ok NewRegistry (Register NewRegistry PerceptronCircuit).
Definition ex_compiled := the_ok NewRegistry (Compile ex_registered PerceptronCircuitID [Byte.x07]).



Lemma classify_end_to_end_witness :
  int_dot 100 ex_ws ex_xs = -940 ∧
  ∃ p : list Z, Prove ex_compiled PerceptronCircuitID (classify_inputs ex_ws ex_xs 100) [] = Ok p ∧
    Verify ex_compiled PerceptronCircuitID p
      (classify_claim ex_ws (ComputePerceptronCommit ex_ws 100)
         (if 0 <=? int_dot 100 ex_ws ex_xs then 1 else 0)) = Ok true.
Proof.
  split; [reflexivity|].
  apply (classify_end_to_end NewRegistry ex_registered ex_compiled [Byte.x07]); [reflexivity|reflexivity| | |reflexivity|reflexivity|].
  - by repeat (apply Forall_cons; split; [unfold int16; lia|]).
  - by repeat (apply Forall_cons; split; [unfold int16; lia|]).
  - lia.
Defined.

(** Files of one generation, and those of a second one that stops while it writes
    the proving key. *)
Definition ex_keys (x : Byte.byte) : Circuit * bytes * bytes := (PerceptronCircuit, [x], [x]).
Definition ex_saved : files :=
  (save_all ∅ (key_files PerceptronCircuitID "keys" (descriptor_of PerceptronCircuit) 5 (ex_keys Byte.x07)) []).1.
Definition ex_half : files :=
  <[tmp_of (key_path "keys" PerceptronCircuitID pkFile) := []]>
    (replaced ex_saved (key_path "keys" PerceptronCircuitID ccsFile) (ccs_bytes PerceptronCircuit)).

Lemma ex_half_history : key_history PerceptronCircuitID "keys" ex_half
  [(descriptor_of PerceptronCircuit, 6, ex_keys Byte.x08); (descriptor_of PerceptronCircuit, 5, ex_keys Byte.x07)].
Proof.
  apply (kh_torn _ _ ex_saved); [apply (kh_saved _ _ ∅), kh_new; reflexivity|].
  cbn [torn_states key_files ex_keys]. apply elem_of_app. right. apply elem_of_app. left.
  unfold before_rename. apply list_elem_of_further. cbn [length seq fmap list_fmap]. left.
Qed.

Lemma zk_keys_never_mixed_witness :
  load_artifacts ex_half PerceptronCircuitID "keys" =
    Some (manifest_of PerceptronCircuitID (descriptor_of PerceptronCircuit) 5 (ex_keys Byte.x07), ex_keys Byte.x07) ∧
  ∃ d now a0, (d, now, a0) ∈ [(descriptor_of PerceptronCircuit, 6, ex_keys Byte.x08);
                              (descriptor_of PerceptronCircuit, 5, ex_keys Byte.x07)] ∧
    manifest_of PerceptronCircuitID (descriptor_of PerceptronCircuit) 5 (ex_keys Byte.x07) = manifest_of PerceptronCircuitID d now a0 ∧
    (ex_keys Byte.x07 = a0 ∨ file_collision ex_half (key_files PerceptronCircuitID "keys" d now a0)).
Proof.
  assert (load_artifacts ex_half PerceptronCircuitID "keys" =
    Some (manifest_of PerceptronCircuitID (descriptor_of PerceptronCircuit) 5 (ex_keys Byte.x07), ex_keys Byte.x07)) as Hload
    by (vm_compute; reflexivity).
  split; [exact Hload|]. exact (zk_keys_never_mixed _ _ _ _ _ _ ex_half_history Hload).
Defined.

Definition ex_created_keys :=
  LoadOrCreate ex_registered ∅ PerceptronCircuitID "keys" false true 5 [Byte.x07] [].
Definition ex_manifest : KeyManifest :=
  manifest_of PerceptronCircuitID (descriptor_of PerceptronCircuit) 5 (ex_keys Byte.x07).
Definition ex_slot : compiled (CCS := Circuit) (PK := bytes) (VK := bytes) :=
  {| circuit := PerceptronCircuit; descriptor := descriptor_of PerceptronCircuit; artifacts := None |}.

Lemma zk_keys_survive_restart_witness :
  ex_created_keys.2 = Ok ex_manifest ∧
  ∃ r2, LoadOrCreate ex_registered ex_created_keys.1.2 PerceptronCircuitID "keys" false true 9 [Byte.x08] []
      = (r2, ex_created_keys.1.2, Ok ex_manifest) ∧
    VerifyingKey r2 PerceptronCircuitID = VerifyingKey ex_created_keys.1.1 PerceptronCircuitID ∧
    ∀ (p : list Z) inp, Verify r2 PerceptronCircuitID p inp = Verify ex_created_keys.1.1 PerceptronCircuitID p inp.
Proof.
  split; [vm_compute; reflexivity|].
  apply (zk_keys_survive_restart ex_registered ∅ PerceptronCircuitID "keys" false true 5 [Byte.x07] []
    ex_created_keys.1.1 ex_created_keys.1.2 ex_manifest ex_slot ex_registered ex_slot true 9 [Byte.x08] []);
    [|reflexivity|reflexivity|reflexivity].
  apply answered_pair. vm_compute. reflexivity.
Defined.
End example.
