(* ===== verification/Sha512.v ===== *)
(** * SHA-512 ([crypto/sha512]), FIPS 180-4, executable on byte lists

    The 64-bit sibling of Sha256.v, in the same shape: eighty rounds on words
    below [2^64], blocks of 128 bytes, a 128-bit length. The proofs of the other
    files use only that the digest has 64 bytes. *)

From S2P Require Import Prelude GoLib Sha256.

Local Open Scope Z_scope.

Definition w64 (z : Z) : Z := Z.land z 18446744073709551615.
Definition rotr64 (n x : Z) : Z := Z.lor (Z.shiftr x n) (w64 (Z.shiftl x (64 - n))).
Definition lnot64 (x : Z) : Z := Z.lxor x 18446744073709551615.

Definition ch512 (x y z : Z) : Z := Z.lxor (Z.land x y) (Z.land (lnot64 x) z).
Definition upper0 (x : Z) : Z := Z.lxor (Z.lxor (rotr64 28 x) (rotr64 34 x)) (rotr64 39 x).
Definition upper1 (x : Z) : Z := Z.lxor (Z.lxor (rotr64 14 x) (rotr64 18 x)) (rotr64 41 x).
Definition lower0 (x : Z) : Z := Z.lxor (Z.lxor (rotr64 1 x) (rotr64 8 x)) (Z.shiftr x 7).
Definition lower1 (x : Z) : Z := Z.lxor (Z.lxor (rotr64 19 x) (rotr64 61 x)) (Z.shiftr x 6).

(** The first 64 bits of the fractional parts of the cube roots of the first 80
    primes, and of the square roots of the first eight. *)
Definition k512 : list Z := Eval vm_compute in
  (λ p, w64 (cube_root 70 (Z.of_nat p * 2 ^ 192) 0)) <$> List.filter sha_prime (seq 2 408).

Definition init512 : sha_state := Eval vm_compute in
  match (λ p, w64 (Z.sqrt (Z.of_nat p * 2 ^ 128))) <$> List.filter sha_prime (seq 2 18) with
  | [a; b; c; d; e; f; g; h] => ShaState a b c d e f g h
  | _ => ShaState 0 0 0 0 0 0 0 0
  end.

Definition round512 (s : sha_state) (kw : Z * Z) : sha_state :=
  let t1 := w64 (sh s + upper1 (se s) + ch512 (se s) (sf s) (sg s) + kw.1 + kw.2) in
  let t2 := w64 (upper0 (sa s) + sha_maj (sa s) (sb s) (sc s)) in
  ShaState (w64 (t1 + t2)) (sa s) (sb s) (sc s) (w64 (sd s + t1)) (se s) (sf s) (sg s).

(** [n] more words follow the window [w]. *)
Fixpoint schedule512 (n : nat) (w : list Z) : list Z :=
  match n, w with
  | S n', w0 :: w' =>
      let x := w64 (lower1 (nth 13 w' 0) + nth 8 w' 0 + lower0 (nth 0 w' 0) + w0) in
      w0 :: schedule512 n' (w' ++ [x])
  | _, _ => w
  end.

Definition block512 (s : sha_state) (w : list Z) : sha_state :=
  let r := foldl round512 s (zip k512 (schedule512 64 w)) in
  ShaState (w64 (sa s + sa r)) (w64 (sb s + sb r)) (w64 (sc s + sc r)) (w64 (sd s + sd r))
           (w64 (se s + se r)) (w64 (sf s + sf r)) (w64 (sg s + sg r)) (w64 (sh s + sh r)).

Definition pad512 (m : bytes) : bytes :=
  let n := Z.of_nat (length m) in
  m ++ [Byte.x80] ++ replicate (Z.to_nat ((111 - n) mod 128)) Byte.x00 ++ be_uint64 (8 * n / 2 ^ 64) ++ be_uint64 (8 * n).

(** Pairs of 32-bit words as 64-bit words. *)
Fixpoint pair_words (w : list Z) : list Z :=
  match w with hi :: lo :: w => (hi * 4294967296 + lo) :: pair_words w | _ => [] end.

Fixpoint blocks512 (fuel : nat) (s : sha_state) (w : list Z) : sha_state :=
  match fuel, w with
  | S fuel', _ :: _ => blocks512 fuel' (block512 s (take 16 w)) (drop 16 w)
  | _, _ => s
  end.

Definition digest512 (s : sha_state) : bytes :=
  be_uint64 (sa s) ++ be_uint64 (sb s) ++ be_uint64 (sc s) ++ be_uint64 (sd s) ++
  be_uint64 (se s) ++ be_uint64 (sf s) ++ be_uint64 (sg s) ++ be_uint64 (sh s).

(** [sha512.Sum512]. *)
Definition sha512 (m : bytes) : bytes :=
  let w := pair_words (to_words (pad512 m)) in digest512 (blocks512 (length w) init512 w).

Lemma length_sha512 m : length (sha512 m) = 64%nat.
Proof. reflexivity. Qed.

Example sha512_abc :
  hex_encode (sha512 (bytes_of "abc"))
  = ("ddaf35a193617abacc417349ae20413112e6fa4e89a97ea20a9eeee64b55d39a" +:+
     "2192992a274fc1a836ba3c23a3feebbd454d4423643ce80e2a9ac94fa54ca49f")%string.
Proof. vm_compute. reflexivity. Qed.

(** Two blocks. *)
Example sha512_long :
  String.substring 0 32 (hex_encode (sha512 (replicate 112 Byte.x61))) = "c01d080efd492776a1c43bd23dd99d0a"%string.
Proof. vm_compute. reflexivity. Qed.

#[global] Opaque sha512.
#[global] Arguments sha512 : simpl never.
