(* ===== verification/Curve.v ===== *)
(** * The edwards25519 group as an interface ([filippo.io/edwards25519])

    The range proof and the verifiable random function use a third-party group:
    points with encodings, scalars modulo the prime order of the generator. The
    operations are a class, what the code relies on is a second class. Points may
    have a component of order dividing eight, as on the curve, and are not
    checked for it when decoded. *)

From S2P Require Import Prelude GoLib.
From Stdlib Require Import Znumtheory.

Local Open Scope Z_scope.

(** Bytes as an integer, least significant byte first. *)
Fixpoint le_value (b : bytes) : Z :=
  match b with [] => 0 | x :: b => byte_to_Z x + 256 * le_value b end.

(** [n] bytes of an integer, [binary.LittleEndian.PutUint64] for [n = 8]. *)
Fixpoint le_bytes (n : nat) (z : Z) : bytes :=
  match n with O => [] | S n => byte_of_Z z :: le_bytes n (z / 256) end.

Lemma length_le_bytes n z : length (le_bytes n z) = n.
Proof. revert z. induction n; intros z; cbn; auto. Qed.

Lemma le_value_bytes n z : 0 <= z < 256 ^ Z.of_nat n → le_value (le_bytes n z) = z.
Proof.
  revert z. induction n as [|n IH]; intros z Hz; cbn [le_bytes le_value]; [cbn in Hz; lia|].
  replace (256 ^ Z.of_nat (S n)) with (256 * 256 ^ Z.of_nat n) in Hz
    by (rewrite Nat2Z.inj_succ, Z.pow_succ_r by lia; done).
  rewrite IH by (split; [apply Z.div_pos|apply Z.div_lt_upper_bound]; lia).
  rewrite byte_to_of_Z. pose proof (Z_div_mod_eq_full z 256). lia.
Qed.

Lemma le_value_app a b : le_value (a ++ b) = le_value a + 256 ^ Z.of_nat (length a) * le_value b.
Proof.
  induction a as [|x a IH]; cbn [app length le_value]; [lia|].
  rewrite IH, Nat2Z.inj_succ, Z.pow_succ_r by lia. lia.
Qed.

Lemma le_value_nonneg b : 0 <= le_value b.
Proof. induction b as [|x b IH]; cbn [le_value]; [lia|]. pose proof (byte_to_Z_range x). lia. Qed.

Lemma le_value_zeros n : le_value (replicate n Byte.x00) = 0.
Proof. induction n as [|n IH]; [done|]. cbn [replicate le_value]. by rewrite IH. Qed.

(** Bytes [i] to [j] of an array. *)
Definition slice (i j : nat) (b : bytes) : bytes := take (j - i) (drop i b).

(** ** Operations *)

Class Curve := {
  point : Type;
  scalar : Type;
  point_eq :: EqDecision point;
  scalar_eq :: EqDecision scalar;
  point_add : point → point → point;
  point_sub : point → point → point;
  identity : point;
  generator : point;
  scalar_mult : scalar → point → point;
  point_bytes : point → bytes;
  point_set_bytes : bytes → option point;
  scalar_add : scalar → scalar → scalar;
  scalar_sub : scalar → scalar → scalar;
  scalar_multiply : scalar → scalar → scalar;
  scalar_zero : scalar;
  scalar_bytes : scalar → bytes;
  set_canonical_bytes : bytes → option scalar;
  set_uniform_bytes : bytes → option scalar;
  set_bytes_with_clamping : bytes → option scalar }.

(** The integer multiple of a point, by repeated addition. *)
Definition nmul `{Curve} (n : nat) (P : point) : point := Nat.iter n (point_add P) identity.
Definition zmul `{Curve} (z : Z) (P : point) : point :=
  if z <? 0 then point_sub identity (nmul (Z.to_nat (- z)) P) else nmul (Z.to_nat z) P.

(** What the library documents: the points are an abelian group of exponent
    [8 * order], the generator has the prime [order], scalars are the integers
    modulo [order] and act by repeated addition, encodings are canonical and have
    32 bytes. *)
Class CurveLaws `{Curve} := {
  order : Z;
  value : scalar → Z;
  point_add_assoc P Q R : point_add P (point_add Q R) = point_add (point_add P Q) R;
  point_add_comm P Q : point_add P Q = point_add Q P;
  point_add_id P : point_add identity P = P;
  point_sub_cancel P Q : point_add (point_sub P Q) Q = P;
  order_prime : prime order;
  order_large : 8 < order;
  generator_order : zmul order generator = identity;
  generator_nonzero : generator ≠ identity;
  exponent P : zmul (8 * order) P = identity;
  value_range a : 0 <= value a < order;
  value_inj a b : value a = value b → a = b;
  scalar_mult_value a P : scalar_mult a P = zmul (value a) P;
  scalar_add_value a b : value (scalar_add a b) = (value a + value b) mod order;
  scalar_sub_value a b : value (scalar_sub a b) = (value a - value b) mod order;
  scalar_multiply_value a b : value (scalar_multiply a b) = (value a * value b) mod order;
  scalar_zero_value : value scalar_zero = 0;
  point_bytes_length P : length (point_bytes P) = 32%nat;
  point_set_bytes_bytes P : point_set_bytes (point_bytes P) = Some P;
  scalar_bytes_length a : length (scalar_bytes a) = 32%nat;
  set_canonical_bytes_bytes a : set_canonical_bytes (scalar_bytes a) = Some a;
  set_canonical_bytes_value b : length b = 32%nat → le_value b < order →
    ∃ a, set_canonical_bytes b = Some a ∧ value a = le_value b;
  set_canonical_bytes_sound b a : set_canonical_bytes b = Some a → value a = le_value b;
  set_uniform_bytes_total b : length b = 64%nat → is_Some (set_uniform_bytes b);
  set_bytes_with_clamping_total b : length b = 32%nat → is_Some (set_bytes_with_clamping b) }.

(** ** Multiples *)

Section multiples.
Context `{Hc : Curve} {Hl : CurveLaws}.

Lemma add_id_r P : point_add P identity = P.
Proof. rewrite point_add_comm. apply point_add_id. Qed.

Lemma add_cancel_r P Q R : point_add P R = point_add Q R → P = Q.
Proof.
  assert (∀ X, point_add (point_add X R) (point_sub identity R) = X) as E.
  { intros X. by rewrite <- point_add_assoc, (point_add_comm R), point_sub_cancel, add_id_r. }
  intros H. by rewrite <- (E P), H, E.
Qed.

Lemma add_cancel_l P Q R : point_add R P = point_add R Q → P = Q.
Proof. rewrite !(point_add_comm R). apply add_cancel_r. Qed.

Lemma sub_self P : point_sub P P = identity.
Proof. apply (add_cancel_r _ _ P). by rewrite point_sub_cancel, point_add_id. Qed.

(** A difference is the sum that gives the minuend back. *)
Lemma sub_unique P Q R : point_add R Q = P → point_sub P Q = R.
Proof. intros H. apply (add_cancel_r _ _ Q). by rewrite point_sub_cancel, H. Qed.

Lemma nmul_add m n P : nmul (m + n) P = point_add (nmul m P) (nmul n P).
Proof.
  induction m as [|m IH]; [exact (eq_sym (point_add_id _))|].
  change (point_add P (nmul (m + n) P) = point_add (point_add P (nmul m P)) (nmul n P)).
  rewrite <- point_add_assoc. f_equal. exact IH.
Qed.

Lemma zmul_0 P : zmul 0 P = identity. Proof. done. Qed.

Lemma zmul_of_nat n P : zmul (Z.of_nat n) P = nmul n P.
Proof. unfold zmul. rewrite (proj2 (Z.ltb_ge _ _)) by lia. by rewrite Nat2Z.id. Qed.

Lemma zmul_neg z P : 0 <= z → point_add (zmul (- z) P) (zmul z P) = identity.
Proof.
  intros Hz. unfold zmul at 1. destruct (Z.ltb_spec (- z) 0) as [H|H].
  - rewrite Z.opp_involutive. rewrite <- (Z2Nat.id z) at 2 by done. rewrite zmul_of_nat. apply point_sub_cancel.
  - assert (z = 0) as -> by lia. apply point_add_id.
Qed.

Lemma zmul_succ z P : zmul (z + 1) P = point_add P (zmul z P).
Proof.
  destruct (Z_le_gt_dec 0 z) as [Hz|Hz].
  - rewrite <- (Z2Nat.id z) by done. rewrite zmul_of_nat. replace (Z.of_nat (Z.to_nat z) + 1) with (Z.of_nat (1 + Z.to_nat z)) by lia.
    rewrite zmul_of_nat, nmul_add. unfold nmul at 1. cbn. by rewrite add_id_r.
  - apply (add_cancel_r _ _ (zmul (- z) P)). rewrite <- point_add_assoc.
    pose proof (zmul_neg (- z) P ltac:(lia)) as H1. rewrite Z.opp_involutive in H1. rewrite H1, add_id_r.
    pose proof (zmul_neg (- (z + 1)) P ltac:(lia)) as H2. rewrite Z.opp_involutive in H2.
    assert (zmul (- z) P = point_add P (zmul (- (z + 1)) P)) as ->.
    { replace (- z) with (Z.of_nat (1 + Z.to_nat (- (z + 1)))) by lia. rewrite zmul_of_nat, nmul_add.
      replace (- (z + 1)) with (Z.of_nat (Z.to_nat (- (z + 1)))) at 2 by lia. rewrite zmul_of_nat. unfold nmul at 1. cbn.
      by rewrite add_id_r. }
    by rewrite point_add_assoc, (point_add_comm _ P), <- point_add_assoc, H2, add_id_r.
Qed.

Lemma zmul_1 P : zmul 1 P = P.
Proof. change 1 with (0 + 1). by rewrite zmul_succ, add_id_r. Qed.

Lemma zmul_add a b P : zmul (a + b) P = point_add (zmul a P) (zmul b P).
Proof.
  revert a. apply Z.bi_induction.
  - by intros ? ? ->.
  - by rewrite zmul_0, point_add_id.
  - intros a. replace (Z.succ a + b) with (a + b + 1) by lia. unfold Z.succ. rewrite !zmul_succ, <- point_add_assoc.
    split; [by intros ->|]. apply add_cancel_l.
Qed.

Lemma zmul_opp a P : zmul (- a) P = point_sub identity (zmul a P).
Proof. symmetry. apply sub_unique. rewrite <- zmul_add. by replace (- a + a) with 0 by lia. Qed.

Lemma zmul_sub a b P : zmul (a - b) P = point_sub (zmul a P) (zmul b P).
Proof. symmetry. apply sub_unique. rewrite <- zmul_add. by replace (a - b + b) with a by lia. Qed.

Lemma add_swap P Q R S : point_add (point_add P Q) (point_add R S) = point_add (point_add P R) (point_add Q S).
Proof. rewrite !point_add_assoc. f_equal. rewrite <- !point_add_assoc. f_equal. apply point_add_comm. Qed.

Lemma zmul_point_add a P Q : zmul a (point_add P Q) = point_add (zmul a P) (zmul a Q).
Proof.
  revert a. apply Z.bi_induction.
  - by intros ? ? ->.
  - by rewrite !zmul_0, point_add_id.
  - intros a. unfold Z.succ. rewrite !zmul_succ, add_swap. split; [by intros ->|]. apply add_cancel_l.
Qed.

Lemma zmul_mul a b P : zmul (a * b) P = zmul a (zmul b P).
Proof.
  revert a. apply Z.bi_induction.
  - by intros ? ? ->.
  - done.
  - intros a. replace (Z.succ a * b) with (b + a * b) by lia. unfold Z.succ. rewrite zmul_add, zmul_succ.
    split; [by intros ->|]. apply add_cancel_l.
Qed.

Lemma zmul_identity a : zmul a identity = identity.
Proof. apply (add_cancel_r _ _ (zmul a identity)). by rewrite <- zmul_point_add, !point_add_id. Qed.

Lemma zmul_point_sub a P Q : zmul a (point_sub P Q) = point_sub (zmul a P) (zmul a Q).
Proof. symmetry. apply sub_unique. by rewrite <- zmul_point_add, point_sub_cancel. Qed.

(** [A - B = A' - B'] gives [A - A' = B - B']. *)
Lemma sub_exchange A B A' B' : point_sub A B = point_sub A' B' → point_sub A A' = point_sub B B'.
Proof.
  intros E. apply sub_unique, (add_cancel_r _ _ B').
  assert (A = point_add (point_sub A' B') B) as -> by (rewrite <- E, point_sub_cancel; done).
  transitivity (point_add B A').
  - by rewrite <- point_add_assoc, (point_add_comm A'), point_add_assoc, point_sub_cancel.
  - by rewrite <- point_add_assoc, (point_add_comm B B'), point_add_assoc, point_sub_cancel, point_add_comm.
Qed.

(** Points of the subgroup of prime order. *)
Definition prime_order (P : point) : Prop := zmul order P = identity.

Lemma zmul_mod a P : prime_order P → zmul (a mod order) P = zmul a P.
Proof.
  intros H. pose proof order_large. rewrite (Z_div_mod_eq_full a order) at 2.
  rewrite zmul_add, (Z.mul_comm order), zmul_mul, H, zmul_identity. by rewrite point_add_id.
Qed.

Lemma zmul_congruent x y P : prime_order P → (x - y) mod order = 0 → zmul x P = zmul y P.
Proof.
  intros HP Hxy. pose proof order_large. rewrite <- (zmul_mod x), <- (zmul_mod y) by done. f_equal.
  replace x with (x - y + y) by lia. by rewrite Z.add_mod, Hxy, Z.add_0_l, Z.mod_mod by lia.
Qed.

Lemma prime_order_zmul a P : prime_order P → prime_order (zmul a P).
Proof. unfold prime_order. intros H. by rewrite <- zmul_mul, Z.mul_comm, zmul_mul, H, zmul_identity. Qed.

Lemma prime_order_add P Q : prime_order P → prime_order Q → prime_order (point_add P Q).
Proof. unfold prime_order. intros H1 H2. by rewrite zmul_point_add, H1, H2, point_add_id. Qed.

Lemma prime_order_eight P : prime_order (zmul 8 P).
Proof. unfold prime_order. rewrite <- zmul_mul, Z.mul_comm. apply exponent. Qed.
End multiples.

(** ** Inverses modulo a prime *)

(** Extended Euclid: [r0] and [r1] are multiples of [a] by [s0] and [s1], modulo
    [o]; [fuel] above [r1] is enough. *)
Fixpoint egcd (fuel : nat) (r0 s0 r1 s1 : Z) : Z :=
  match fuel with
  | O => s0
  | S fuel => if r1 =? 0 then s0 else egcd fuel r1 s1 (r0 mod r1) (s0 - r0 / r1 * s1)
  end.

Definition inverse_mod (o a : Z) : Z := egcd (Z.to_nat o + 1) o 0 (a mod o) 1.

Lemma egcd_spec o fuel a r0 s0 r1 s1 :
  0 <= r1 < Z.of_nat fuel → 0 < r0 → (o | r0 - s0 * a) → (o | r1 - s1 * a) →
  (o | Z.gcd r0 r1 - egcd fuel r0 s0 r1 s1 * a).
Proof.
  revert r0 s0 r1 s1. induction fuel as [|fuel IH]; intros r0 s0 r1 s1 Hr1 Hr0 H0 H1; [lia|]. cbn [egcd].
  destruct (Z.eqb_spec r1 0) as [->|Hne]; [by rewrite Z.gcd_0_r, Z.abs_eq by lia|].
  rewrite (Z.gcd_comm r0), <- (Z.gcd_mod r0 r1), (Z.gcd_comm (r0 mod r1)) by done.
  pose proof (Z.mod_pos_bound r0 r1 ltac:(lia)).
  apply IH; [lia|lia|done|]. destruct H0 as [k0 H0], H1 as [k1 H1]. exists (k0 - r0 / r1 * k1).
  rewrite Z.mod_eq by done. nia.
Qed.

Lemma inverse_mod_spec o a : prime o → a mod o ≠ 0 → (inverse_mod o a * a) mod o = 1.
Proof.
  intros Hp Ha. pose proof (prime_ge_2 o Hp) as Hq.
  assert (0 <= a mod o < o) as Hm by (apply Z.mod_pos_bound; lia).
  assert (o | Z.gcd o (a mod o) - inverse_mod o a * a) as [k Hk].
  { apply egcd_spec; [lia|lia|exists 1; lia|]. exists (- (a / o)). rewrite Z.mod_eq by lia. lia. }
  assert (Z.gcd o (a mod o) = 1) as E.
  { rewrite Z.gcd_comm. apply Zgcd_1_rel_prime, rel_prime_le_prime; [done|lia]. }
  rewrite E in Hk. replace (inverse_mod o a * a) with (1 + (- k) * o) by lia. rewrite Z.mod_add by lia. by apply Z.mod_small; lia.
Qed.

Section inverse.
Context `{Hc : Curve} {Hl : CurveLaws}.

Definition inverse (a : Z) : Z := inverse_mod order a.

Lemma inverse_spec a : a mod order ≠ 0 → (inverse a * a) mod order = 1.
Proof. apply inverse_mod_spec, order_prime. Qed.

(** A point that a number prime to the order kills has an order dividing eight. *)
Lemma small_order d X : d mod order ≠ 0 → zmul d X = identity → zmul 8 X = identity.
Proof.
  intros Hd HX. pose proof order_large. pose proof (inverse_spec d Hd) as Hi.
  pose proof (Z_div_mod_eq_full (inverse d * d) order) as E. rewrite Hi in E.
  replace 8 with ((8 * inverse d) * d - ((inverse d * d) / order) * (8 * order)) by lia.
  by rewrite zmul_sub, (zmul_mul (8 * inverse d) d), HX, (zmul_mul _ (8 * order)), exponent, !zmul_identity, sub_self.
Qed.

Lemma value_differ c c' : c ≠ c' → (value c - value c') mod order ≠ 0.
Proof.
  intros Hne E. pose proof (value_range c). pose proof (value_range c'). apply Z.mod_divide in E; [|lia].
  destruct E as [k Hk]. apply Hne, value_inj. assert (k = 0) as -> by nia. lia.
Qed.

(** The multiple of [H] that a point is, when [s * H = d * P]. *)
Definition quotient (s d : Z) : Z := (s * inverse d) mod order.

Lemma quotient_spec H P s d :
  prime_order H → d mod order ≠ 0 → zmul s H = zmul d P → zmul 8 P = zmul 8 (zmul (quotient s d) H).
Proof.
  intros HH Hd E. pose proof order_large.
  assert (zmul 8 (point_sub P (zmul (quotient s d) H)) = identity) as H8.
  { apply (small_order d); [done|]. rewrite zmul_point_sub, <- E, <- zmul_mul.
    rewrite <- (zmul_mod (d * _)), <- (zmul_mod s) by done. unfold quotient. rewrite Z.mul_mod_idemp_r by lia.
    replace (d * (s * inverse d)) with (s * (inverse d * d)) by lia.
    rewrite Z.mul_mod, inverse_spec, Z.mul_1_r, Z.mod_mod by (done || lia). apply sub_self. }
  rewrite zmul_point_sub in H8. apply (f_equal (λ X, point_add X (zmul 8 (zmul (quotient s d) H)))) in H8.
  by rewrite point_sub_cancel, point_add_id in H8.
Qed.

(** In the subgroup of prime order the factor eight cancels. *)
Lemma eight_cancel P Q : prime_order P → prime_order Q → zmul 8 P = zmul 8 Q → P = Q.
Proof.
  intros HP HQ E. pose proof order_large.
  assert (8 mod order ≠ 0) as H8 by (rewrite Z.mod_small; lia).
  assert (∀ X, prime_order X → X = zmul (inverse 8) (zmul 8 X)) as Hx.
  { intros X HX. rewrite <- zmul_mul, <- zmul_mod, inverse_spec by done. symmetry. apply zmul_1. }
  by rewrite (Hx P HP), (Hx Q HQ), E.
Qed.
End inverse.

(** ** Hashing to the curve, shared by the two protocols *)

Section hash_to_curve.
Context `{Hc : Curve} (sha512 : bytes → bytes).

(** [scalarFromU64]; the panic on a value that is no scalar is [None]. *)
Definition scalarFromU64 (v : Z) : option scalar := set_canonical_bytes (le_bytes 8 v ++ replicate 24 Byte.x00).

(** The counter loop: the first counter whose hash decodes to a point that is
    not of small order; [prefix] is what comes before the counter. *)
Fixpoint try_and_increment (eight : scalar) (prefix : bytes) (tries : nat) (ctr : Z) : option point :=
  match tries with
  | O => None
  | S tries =>
      match point_set_bytes (take 32 (sha512 (prefix ++ be_uint32 ctr))) with
      | Some P =>
          let Pc := scalar_mult eight P in
          if decide (Pc = identity) then try_and_increment eight prefix tries (ctr + 1) else Some Pc
      | None => try_and_increment eight prefix tries (ctr + 1)
      end
  end.

Definition hash_to_curve (prefix : bytes) : option point :=
  match scalarFromU64 8 with
  | Some eight => try_and_increment eight prefix (Z.to_nat 1000000) 0
  | None => None
  end.
End hash_to_curve.

Section hash_to_curve_facts.
Context `{Hc : Curve} {Hl : CurveLaws} (sha512 : bytes → bytes).

Lemma scalarFromU64_value v : 0 <= v < 2 ^ 64 → v < order → ∃ a, scalarFromU64 v = Some a ∧ value a = v.
Proof.
  intros Hv Ho. unfold scalarFromU64.
  assert (le_value (le_bytes 8 v ++ replicate 24 Byte.x00) = v) as E
    by (rewrite le_value_app, le_value_bytes, le_value_zeros by (change (256 ^ Z.of_nat 8) with (2 ^ 64); lia); lia).
  destruct (set_canonical_bytes_value (le_bytes 8 v ++ replicate 24 Byte.x00)) as (a & Ha & Hval).
  - by rewrite length_app, length_le_bytes, length_replicate.
  - lia.
  - exists a. split; [done|lia].
Qed.

Lemma scalarFromU64_sound v a : 0 <= v < 2 ^ 64 → scalarFromU64 v = Some a → value a = v.
Proof.
  intros Hv E. apply set_canonical_bytes_sound in E. rewrite E, le_value_app, le_value_bytes, le_value_zeros; [lia|].
  change (256 ^ Z.of_nat 8) with (2 ^ 64). lia.
Qed.

(** A point that was hashed to is in the subgroup and not its identity. *)
Lemma hash_to_curve_spec prefix P : hash_to_curve sha512 prefix = Some P → prime_order P ∧ P ≠ identity.
Proof.
  unfold hash_to_curve. pose proof order_large.
  destruct (scalarFromU64_value 8) as (e & -> & He); [lia|lia|].
  generalize (Z.to_nat 1000000) 0. intros tries. induction tries as [|tries IH]; intros ctr; [done|]. cbn [try_and_increment].
  destruct (point_set_bytes _) as [Q|]; [|apply IH]. destruct (decide _); [apply IH|]. intros [= <-].
  split; [|done]. rewrite scalar_mult_value, He. apply prime_order_eight.
Qed.
End hash_to_curve_facts.

(** ** A small instance

    The integers modulo [808 = 8 * 101]: the generator 8 has order 101, and there
    are points whose order divides eight. Decoding reduces modulo 808. *)

Module Toy.

Definition toy_order : Z := 101.

Definition below (m z : Z) : bool := (0 <=? z) && (z <? m).
Definition residue (m : Z) : Type := { z : Z | below m z = true }.

Lemma below_mod m z : 0 < m → below m (z mod m) = true.
Proof. intros H. pose proof (Z.mod_pos_bound z m H). unfold below. by rewrite (proj2 (Z.leb_le _ _)), (proj2 (Z.ltb_lt _ _)) by lia. Qed.

Definition reduce808 (z : Z) : residue 808 := exist _ (z mod 808) (below_mod 808 z eq_refl).
Definition reduce101 (z : Z) : residue 101 := exist _ (z mod 101) (below_mod 101 z eq_refl).

Lemma residue_eq m (a b : residue m) : proj1_sig a = proj1_sig b → a = b.
Proof.
  destruct a as [a Ha], b as [b Hb]. cbn. intros ->. f_equal. apply (Eqdep_dec.UIP_dec Bool.bool_dec).
Qed.

#[export] Instance residue_dec m : EqDecision (residue m).
Proof.
  intros a b. destruct (decide (proj1_sig a = proj1_sig b)) as [E|E]; [left; by apply residue_eq|right; congruence].
Defined.

Lemma residue_range m (a : residue m) : 0 <= proj1_sig a < m.
Proof. destruct a as [a H]. cbn. unfold below in H. bool_to_prop. lia. Qed.

Definition of_length {A} (n : nat) (b : bytes) (v : A) : option A := if (length b =? n)%nat then Some v else None.

#[export] Instance toy_curve : Curve := {|
  point := residue 808; scalar := residue 101;
  point_add P Q := reduce808 (proj1_sig P + proj1_sig Q);
  point_sub P Q := reduce808 (proj1_sig P - proj1_sig Q);
  identity := reduce808 0; generator := reduce808 8;
  scalar_mult a P := reduce808 (proj1_sig a * proj1_sig P);
  point_bytes P := le_bytes 32 (proj1_sig P);
  point_set_bytes b := of_length 32 b (reduce808 (le_value b));
  scalar_add a b := reduce101 (proj1_sig a + proj1_sig b);
  scalar_sub a b := reduce101 (proj1_sig a - proj1_sig b);
  scalar_multiply a b := reduce101 (proj1_sig a * proj1_sig b);
  scalar_zero := reduce101 0;
  scalar_bytes a := le_bytes 32 (proj1_sig a);
  set_canonical_bytes b := if le_value b <? 101 then of_length 32 b (reduce101 (le_value b)) else None;
  set_uniform_bytes b := of_length 64 b (reduce101 (le_value b));
  set_bytes_with_clamping b := of_length 32 b (reduce101 (le_value b)) |}.

Lemma toy_nmul n (P : point) : proj1_sig (nmul n P) = (Z.of_nat n * proj1_sig P) mod 808.
Proof.
  induction n as [|n IH]; [done|]. change (nmul (S n) P) with (reduce808 (proj1_sig P + proj1_sig (nmul n P))).
  cbn [proj1_sig reduce808]. rewrite IH, Z.add_mod_idemp_r by lia. f_equal. lia.
Qed.

Lemma toy_zmul z (P : point) : proj1_sig (zmul z P) = (z * proj1_sig P) mod 808.
Proof.
  unfold zmul. destruct (Z.ltb_spec z 0).
  - cbn [point_sub toy_curve proj1_sig reduce808 identity]. rewrite toy_nmul, Z2Nat.id by lia.
    rewrite Zminus_mod_idemp_r. f_equal. cbn. lia.
  - rewrite toy_nmul, Z2Nat.id by lia. done.
Qed.

Lemma prime_101 : prime 101.
Proof.
  apply prime_intro; [lia|]. intros n Hn. apply Zgcd_1_rel_prime.
  assert (forallb (λ k, Z.gcd (Z.of_nat k) 101 =? 1) (seq 1 100) = true) as H by (vm_compute; reflexivity).
  rewrite forallb_forall in H. specialize (H (Z.to_nat n)). rewrite Z2Nat.id in H by lia. apply Z.eqb_eq, H.
  apply in_seq. lia.
Qed.

Lemma toy_small (z : Z) : 0 <= z < 808 → 0 <= z < 256 ^ Z.of_nat 32.
Proof. change (256 ^ Z.of_nat 32) with (2 ^ 256). lia. Qed.

Lemma of_length_some {A} n b (v : A) : length b = n → of_length n b v = Some v.
Proof. intros <-. unfold of_length. by rewrite Nat.eqb_refl. Qed.

#[local] Arguments of_length : simpl never.
#[local] Arguments le_bytes : simpl never.
#[local] Arguments le_value : simpl never.

#[export] Instance toy_laws : CurveLaws.
Proof.
  refine {| order := 101; value := λ a : @scalar toy_curve, proj1_sig (a : residue 101) |}.
  - intros P Q R. apply residue_eq. cbn. rewrite Z.add_mod_idemp_r, Z.add_mod_idemp_l by lia. f_equal. lia.
  - intros P Q. apply residue_eq. cbn. f_equal. lia.
  - intros P. apply residue_eq. cbn. apply Z.mod_small, residue_range.
  - intros P Q. apply residue_eq. cbn. rewrite Z.add_mod_idemp_l by lia.
    replace (proj1_sig P - proj1_sig Q + proj1_sig Q) with (proj1_sig P) by lia. apply Z.mod_small, residue_range.
  - apply prime_101.
  - done.
  - apply residue_eq. reflexivity.
  - intros H. by apply (f_equal (@proj1_sig Z _)) in H.
  - intros P. apply residue_eq. rewrite toy_zmul. cbn [identity toy_curve proj1_sig reduce808].
    replace (8 * 101 * proj1_sig P) with (proj1_sig P * 808) by lia. by rewrite Z.mod_mul.
  - intros a. apply residue_range.
  - intros a b. apply residue_eq.
  - intros a P. apply residue_eq. by rewrite toy_zmul.
  - done.
  - done.
  - done.
  - done.
  - intros P. apply length_le_bytes.
  - intros P. cbn. rewrite of_length_some by apply length_le_bytes. f_equal. apply residue_eq. cbn.
    rewrite le_value_bytes by apply toy_small, residue_range. apply Z.mod_small, residue_range.
  - intros a. apply length_le_bytes.
  - intros a. pose proof (residue_range _ a). cbn. rewrite le_value_bytes by (apply toy_small; lia).
    rewrite (proj2 (Z.ltb_lt _ _)), of_length_some by (apply length_le_bytes || lia). f_equal. apply residue_eq. cbn.
    by apply Z.mod_small.
  - intros b Hb Hv. cbn. rewrite (proj2 (Z.ltb_lt _ _)), of_length_some by done. eexists. split; [done|]. cbn.
    apply Z.mod_small. split; [|done]. apply le_value_nonneg.
  - intros b a. cbn. destruct (Z.ltb_spec (le_value b) 101); [|done]. unfold of_length. destruct (_ =? _)%nat; [|done].
    intros E. apply Some_inj in E. subst a. cbn. apply Z.mod_small. split; [|done]. apply le_value_nonneg.
  - intros b Hb. cbn. rewrite of_length_some by done. eauto.
  - intros b Hb. cbn. rewrite of_length_some by done. eauto.
Defined.

End Toy.
