(* ===== verification/Vrf.v ===== *)
(** * Verifiable random function ([engine/internal/crypto/vrf.go])

    Key derivation, proving and verifying over the group of Curve.v, with the
    code's hash inputs and SHA-512 computed. The challenge function is an argument
    of the verifier, so that the soundness theorems can compare two answers of the
    random oracle; the code's is [vrfHashPoints]. *)

From S2P Require Import Prelude GoLib Sha512 Curve.

Local Open Scope Z_scope.

Definition vrfSuiteString : bytes := bytes_of "casperprover-vrf-v1".
Definition ErrVRFInvalidPK : string := "vrf: invalid public key".
Definition ErrVRFInvalidProof : string := "vrf: invalid proof".
Definition ErrVRFVerifyFail : string := "vrf: proof does not verify against pk and alpha".

(** An update of one byte. *)
Definition set_byte (i : nat) (f : Z → Z) (b : bytes) : bytes := alter (λ x, byte_of_Z (f (byte_to_Z x))) i b.

Section vrf.
Context `{Hc : Curve}.

(** ** Hashing *)

Definition vrfHashToScalar (data : bytes) : option scalar := set_uniform_bytes (sha512 data).

Definition vrfHashPoints (a b c d : point) : option scalar :=
  vrfHashToScalar (vrfSuiteString ++ bytes_of "c" ++ point_bytes a ++ point_bytes b ++ point_bytes c ++ point_bytes d).

Definition vrfHashToCurve (pk alpha : bytes) : option point := hash_to_curve sha512 (vrfSuiteString ++ pk ++ alpha).

(** The cofactor is cleared before hashing. *)
Definition vrfProofToOutput (Gamma : point) : option bytes :=
  match scalarFromU64 8 with
  | Some eight => Some (sha512 (vrfSuiteString ++ bytes_of "beta" ++ point_bytes (scalar_mult eight Gamma)))
  | None => None
  end.

(** ** Keys *)

Definition vrfSeedToScalar (seed : bytes) : option scalar :=
  let h := sha512 seed in
  let h := set_byte 0 (λ x, Z.land x 248) h in
  let h := set_byte 31 (λ x, Z.land x 127) h in
  let h := set_byte 31 (λ x, Z.lor x 64) h in
  set_bytes_with_clamping (take 32 h).

Definition vrfDerivePK (seed : bytes) : option bytes :=
  match vrfSeedToScalar seed with Some s => Some (point_bytes (scalar_mult s generator)) | None => None end.

Definition VRFDerivePK (seed : bytes) : option bytes := vrfDerivePK seed.

(** [VRFKeypair]: the drawn seed and its public key. *)
Definition VRFKeypair (draw : bytes) : option (bytes * bytes) :=
  match vrfDerivePK draw with Some pk => Some (draw, pk) | None => None end.

(** ** Proving *)

(** The proof and the output; [None] is a panic of the library, [Err] an error. *)
Definition VRFProve (seed alpha : bytes) : option (result string (bytes * bytes)) :=
  match vrfSeedToScalar seed, vrfDerivePK seed with
  | Some sk, Some pk =>
      match vrfHashToCurve pk alpha with
      | None => Some (Err "vrf: hash-to-curve failed (should be impossible)"%string)
      | Some H =>
          let Gamma := scalar_mult sk H in
          match vrfHashToScalar (vrfSuiteString ++ seed ++ point_bytes H ++ alpha) with
          | None => None
          | Some k =>
              match vrfHashPoints H Gamma (scalar_mult k generator) (scalar_mult k H), vrfProofToOutput Gamma with
              | Some c, Some beta =>
                  let s := scalar_add k (scalar_multiply c sk) in
                  Some (Ok (point_bytes Gamma ++ scalar_bytes c ++ scalar_bytes s, beta))
              | _, _ => None
              end
          end
      end
  | _, _ => None
  end.

(** ** Verifying *)

(** A decoded proof: [Gamma], [c] and [s]. *)
Definition decode_proof (proof : bytes) : option (point * scalar * scalar) :=
  match point_set_bytes (slice 0 32 proof), set_canonical_bytes (slice 32 64 proof), set_canonical_bytes (slice 64 96 proof) with
  | Some Gamma, Some c, Some s => Some (Gamma, c, s)
  | _, _, _ => None
  end.

(** [U = s*B - c*PK] and [V = s*H - c*Gamma]. *)
Definition commitments (PK H Gamma : point) (c s : scalar) : point * point :=
  (point_sub (scalar_mult s generator) (scalar_mult c PK), point_sub (scalar_mult s H) (scalar_mult c Gamma)).

Definition verify_with (challenge : point → point → point → point → option scalar) (pk alpha proof : bytes)
    : option (result string bytes) :=
  match decode_proof proof with
  | None => Some (Err ErrVRFInvalidProof)
  | Some (Gamma, c, s) =>
      match point_set_bytes pk with
      | None => Some (Err ErrVRFInvalidPK)
      | Some PK =>
          match vrfHashToCurve pk alpha with
          | None => Some (Err "vrf: hash-to-curve failed (should be impossible)"%string)
          | Some H =>
              let '(U, V) := commitments PK H Gamma c s in
              match challenge H Gamma U V with
              | None => None
              | Some cCheck =>
                  if negb (bool_decide (cCheck = c)) then Some (Err ErrVRFVerifyFail)
                  else match vrfProofToOutput Gamma with Some beta => Some (Ok beta) | None => None end
              end
          end
      end
  end.

Definition VRFVerify (pk alpha proof : bytes) : option (result string bytes) := verify_with vrfHashPoints pk alpha proof.

End vrf.

(** ** Completeness *)

Section facts.
Context `{Hc : Curve} {Hl : CurveLaws}.

Lemma slice_parts a b c : length a = 32%nat → length b = 32%nat → length c = 32%nat →
  slice 0 32 (a ++ b ++ c) = a ∧ slice 32 64 (a ++ b ++ c) = b ∧ slice 64 96 (a ++ b ++ c) = c.
Proof.
  intros Ha Hb Hcl. unfold slice. cbn [Nat.sub]. split_and!.
  - by rewrite drop_0, take_app_length'.
  - by rewrite drop_app_length', take_app_length' by done.
  - rewrite app_assoc, drop_app_length' by (rewrite length_app; lia). by apply take_ge; lia.
Qed.

Lemma decode_proof_parts Gamma c s :
  decode_proof (point_bytes Gamma ++ scalar_bytes c ++ scalar_bytes s) = Some (Gamma, c, s).
Proof.
  unfold decode_proof.
  destruct (slice_parts (point_bytes Gamma) (scalar_bytes c) (scalar_bytes s)) as (-> & -> & ->);
    [apply point_bytes_length|apply scalar_bytes_length..|].
  by rewrite point_set_bytes_bytes, !set_canonical_bytes_bytes.
Qed.

Lemma output_some Gamma : ∃ beta, vrfProofToOutput Gamma = Some beta.
Proof.
  unfold vrfProofToOutput. pose proof order_large. destruct (scalarFromU64_value 8) as (e & -> & _); [lia|lia|eauto].
Qed.

(** The output only depends on the cleared point. *)
Lemma output_cleared Gamma Gamma' : zmul 8 Gamma = zmul 8 Gamma' → vrfProofToOutput Gamma = vrfProofToOutput Gamma'.
Proof.
  unfold vrfProofToOutput. pose proof order_large. destruct (scalarFromU64_value 8) as (e & -> & He); [lia|lia|].
  rewrite !scalar_mult_value, He. by intros ->.
Qed.

(** [s*X - c*(sk*X) = k*X] for [s = k + c*sk]. *)
Lemma response k c sk X :
  prime_order X → point_sub (scalar_mult (scalar_add k (scalar_multiply c sk)) X) (scalar_mult c (scalar_mult sk X)) = scalar_mult k X.
Proof.
  intros HX. pose proof order_large. apply sub_unique.
  rewrite !scalar_mult_value, scalar_add_value, scalar_multiply_value, Z.add_mod_idemp_r by lia.
  rewrite zmul_mod by done. by rewrite <- zmul_mul, zmul_add.
Qed.

Lemma prove_decoded seed alpha proof beta :
  VRFProve seed alpha = Some (Ok (proof, beta)) →
  ∃ sk H c s, vrfSeedToScalar seed = Some sk ∧ vrfHashToCurve (point_bytes (scalar_mult sk generator)) alpha = Some H
    ∧ decode_proof proof = Some (scalar_mult sk H, c, s) ∧ vrfProofToOutput (scalar_mult sk H) = Some beta
    ∧ let '(U, V) := commitments (scalar_mult sk generator) H (scalar_mult sk H) c s in
      vrfHashPoints H (scalar_mult sk H) U V = Some c.
Proof.
  unfold VRFProve, vrfDerivePK. destruct (vrfSeedToScalar seed) as [sk|]; [|done].
  destruct (vrfHashToCurve _ alpha) as [H|] eqn:EH; [|done]. destruct (vrfHashToScalar _) as [k|]; [|done].
  destruct (vrfHashPoints _ _ _ _) as [c|] eqn:Ec; [|done]. destruct (vrfProofToOutput _) as [b|] eqn:Eb; [|done].
  intros E. apply Some_inj in E. injection E as <- <-. exists sk, H, c, (scalar_add k (scalar_multiply c sk)).
  split_and!; [done|done|apply decode_proof_parts|done|].
  destruct (hash_to_curve_spec _ _ _ EH) as [HH _]. unfold commitments.
  by rewrite !response by (done || apply generator_order).
Qed.

Lemma length_alter_byte i f b : length (set_byte i f b) = length b.
Proof. apply length_alter. Qed.

Lemma seed_scalar seed : is_Some (vrfSeedToScalar seed).
Proof.
  unfold vrfSeedToScalar. apply set_bytes_with_clamping_total. by rewrite length_take, !length_alter_byte, length_sha512.
Qed.

Lemma hash_scalar data : is_Some (vrfHashToScalar data).
Proof. apply set_uniform_bytes_total, length_sha512. Qed.

(** Proving never panics, and an error is a failed hash to the curve. *)
Lemma prove_cases seed alpha :
  ∃ pk, vrfDerivePK seed = Some pk ∧
  match VRFProve seed alpha with
  | None => False
  | Some (Err _) => vrfHashToCurve pk alpha = None
  | Some (Ok (proof, beta)) => length proof = 96%nat ∧ length beta = 64%nat
  end.
Proof.
  unfold VRFProve, vrfDerivePK. destruct (seed_scalar seed) as [sk ->]. eexists. split; [done|].
  destruct (vrfHashToCurve _ alpha) as [H|] eqn:EH; [|done].
  destruct (hash_scalar (vrfSuiteString ++ seed ++ point_bytes H ++ alpha)) as [k ->].
  unfold vrfHashPoints. destruct (hash_scalar (vrfSuiteString ++ bytes_of "c" ++ point_bytes H ++ point_bytes (scalar_mult sk H)
    ++ point_bytes (scalar_mult k generator) ++ point_bytes (scalar_mult k H))) as [c ->].
  destruct (output_some (scalar_mult sk H)) as [beta Hb]. rewrite Hb. split.
  - by rewrite !length_app, point_bytes_length, !scalar_bytes_length.
  - unfold vrfProofToOutput in Hb. destruct (scalarFromU64 8); [|done]. by injection Hb as <-.
Qed.

(** Proving never panics; when it succeeds, the proof has 96 bytes and verifies
    under the derived public key with the same output of 64 bytes; the one error
    is a failed hash to the curve, which the verifier reports as well. *)
Theorem vrf_complete seed alpha :
  ∃ pk, vrfDerivePK seed = Some pk ∧
  match VRFProve seed alpha with
  | None => False
  | Some (Err e) => ∀ proof beta, VRFVerify pk alpha proof ≠ Some (Ok beta)
  | Some (Ok (proof, beta)) =>
      length proof = 96%nat ∧ length beta = 64%nat ∧ VRFVerify pk alpha proof = Some (Ok beta)
  end.
Proof.
  destruct (prove_cases seed alpha) as (pk & Hpk & Hc'). exists pk. split; [done|].
  destruct (VRFProve seed alpha) as [[[proof beta]|e]|] eqn:E; [|intros proof beta; unfold VRFVerify, verify_with; rewrite Hc'|done].
  - destruct Hc' as [H1 H2]. split_and!; [done..|].
    destruct (prove_decoded _ _ _ _ E) as (sk & H & c & s & Hsk & HH & Hd & Hb & Hch).
    unfold vrfDerivePK in Hpk. rewrite Hsk in Hpk. apply Some_inj in Hpk. subst pk.
    unfold VRFVerify, verify_with. rewrite Hd, point_set_bytes_bytes, HH.
    destruct (commitments _ _ _ _ _) as [U V]. by rewrite Hch, bool_decide_true, Hb.
  - by destruct (decode_proof proof) as [[[? ?] ?]|], (point_set_bytes pk).
Qed.

(** ** Uniqueness *)

(** Two proofs with one [Gamma] and one pair of commitments but different
    challenges: what rewinding a prover, with the random oracle reprogrammed at
    its challenge query, gives. *)
Definition forks (pk alpha proof proof' : bytes) : bool :=
  match decode_proof proof, decode_proof proof', point_set_bytes pk, vrfHashToCurve pk alpha with
  | Some (Gamma, c, s), Some (Gamma', c', s'), Some PK, Some H =>
      bool_decide (Gamma = Gamma') && bool_decide (commitments PK H Gamma c s = commitments PK H Gamma c' s')
      && negb (bool_decide (c = c'))
  | _, _, _, _ => false
  end.

(** The secret key that a fork gives away. *)
Definition extract_key (proof proof' : bytes) : Z :=
  match decode_proof proof, decode_proof proof' with
  | Some (_, c, s), Some (_, c', s') => quotient (value s - value s') (value c - value c')
  | _, _ => 0
  end.

(** [s*X - c*Y = s'*X - c'*Y] gives [(s - s')*X = (c - c')*Y]. *)
Lemma fork_equation X Y (s c s' c' : scalar) :
  point_sub (scalar_mult s X) (scalar_mult c Y) = point_sub (scalar_mult s' X) (scalar_mult c' Y) →
  zmul (value s - value s') X = zmul (value c - value c') Y.
Proof.
  rewrite !scalar_mult_value, !zmul_sub. apply sub_exchange.
Qed.

(** The extracted key opens the public key and [Gamma], up to the cofactor. *)
Lemma extract_key_spec pk alpha proof proof' :
  forks pk alpha proof proof' = true →
  ∃ PK H Gamma c s, point_set_bytes pk = Some PK ∧ vrfHashToCurve pk alpha = Some H
    ∧ decode_proof proof = Some (Gamma, c, s)
    ∧ zmul 8 PK = zmul 8 (zmul (extract_key proof proof') generator)
    ∧ zmul 8 Gamma = zmul 8 (zmul (extract_key proof proof') H).
Proof.
  unfold forks, extract_key. destruct (decode_proof proof) as [[[Gamma c] s]|]; [|done].
  destruct (decode_proof proof') as [[[Gamma' c'] s']|]; [|done]. destruct (point_set_bytes pk) as [PK|]; [|done].
  destruct (vrfHashToCurve pk alpha) as [H|] eqn:EH; [|done]. intros Hf. bool_to_prop. subst Gamma'.
  destruct (hash_to_curve_spec _ _ _ EH) as [HH _].
  unfold commitments in *. match goal with E : (_, _) = (_, _) |- _ => injection E as E1 E2 end.
  exists PK, H, Gamma, c, s. split_and!; [done..| |];
    (apply quotient_spec; [done || apply generator_order|by apply value_differ|by apply fork_equation]).
Qed.

Lemma key_unique x y : zmul 8 (zmul x generator) = zmul 8 (zmul y generator) → (x - y) mod order = 0.
Proof.
  intros E. destruct (decide ((x - y) mod order = 0)) as [|Hne]; [done|exfalso].
  apply eight_cancel in E; [|apply prime_order_zmul, generator_order..].
  assert (zmul (x - y) generator = identity) as Hz by (rewrite zmul_sub, E; apply sub_self).
  apply small_order in Hz; [|done]. apply generator_nonzero. apply eight_cancel; [apply generator_order| |].
  - apply zmul_identity.
  - by rewrite zmul_identity.
Qed.

Lemma verify_output ch pk alpha proof beta Gamma c s :
  verify_with ch pk alpha proof = Some (Ok beta) → decode_proof proof = Some (Gamma, c, s) → vrfProofToOutput Gamma = Some beta.
Proof.
  unfold verify_with. intros Hv Hd. rewrite Hd in Hv. destruct (point_set_bytes pk); [|done]. destruct (vrfHashToCurve pk alpha); [|done].
  destruct (commitments _ _ _ _ _) as [U V]. destruct (ch _ _ _ _); [|done]. destruct (negb _); [done|].
  destruct (vrfProofToOutput Gamma); [|done]. congruence.
Qed.


(** In particular the output of the holder of the key is the only one. *)
Lemma vrf_honest_unique ch seed alpha pk proof0 beta0 proof fork beta :
  vrfDerivePK seed = Some pk → VRFProve seed alpha = Some (Ok (proof0, beta0)) →
  verify_with ch pk alpha proof = Some (Ok beta) → forks pk alpha proof fork = true → beta = beta0.
Proof.
  intros Hpk Hp Hv Hf. destruct (prove_decoded _ _ _ _ Hp) as (sk & H & c0 & s0 & Hsk & HH & _ & Hb & _).
  unfold vrfDerivePK in Hpk. rewrite Hsk in Hpk. apply Some_inj in Hpk. subst pk.
  destruct (extract_key_spec _ _ _ _ Hf) as (PK & H' & G & c & s & HPK & HH' & Hd & HP & HG).
  rewrite point_set_bytes_bytes in HPK. apply Some_inj in HPK. subst PK. assert (H' = H) as -> by congruence.
  pose proof (verify_output _ _ _ _ _ _ _ _ Hv Hd) as Ho.
  rewrite scalar_mult_value in HP. pose proof (key_unique _ _ HP) as Hxy.
  destruct (hash_to_curve_spec _ _ _ HH) as [Hprime _].
  assert (vrfProofToOutput G = vrfProofToOutput (scalar_mult sk H)); [|congruence].
  apply output_cleared. rewrite HG, scalar_mult_value. f_equal. symmetry. by apply zmul_congruent.
Qed.

End facts.

(** ** A sample on the small group *)

Section sample.
Import Toy.

Definition ex_seed : bytes := replicate 32 Byte.x07.
Definition ex_alpha : bytes := bytes_of "round-1".
Definition ex_pk : bytes := default [] (vrfDerivePK ex_seed).
Definition ex_proof : bytes * bytes :=
  match VRFProve ex_seed ex_alpha with Some (Ok r) => r | _ => ([], []) end.

(** The answer to a second challenge, one above the first: the response grows by
    the secret key. *)
Definition ex_fork : bytes :=
  match decode_proof (fst ex_proof), vrfSeedToScalar ex_seed with
  | Some (Gamma, c, s), Some sk =>
      point_bytes Gamma ++ scalar_bytes (scalar_add c (reduce101 1)) ++ scalar_bytes (scalar_add s sk)
  | _, _ => []
  end.

Lemma ex_vrf :
  VRFVerify ex_pk ex_alpha (fst ex_proof) = Some (Ok (snd ex_proof)) ∧ forks ex_pk ex_alpha (fst ex_proof) ex_fork = true.
Proof. split; vm_compute; reflexivity. Qed.


(** A tampered response is refused. *)
Lemma ex_tampered :
  VRFVerify ex_pk ex_alpha (take 64 (fst ex_proof) ++ le_bytes 32 5) = Some (Err ErrVRFVerifyFail)
  ∧ VRFVerify ex_pk ex_alpha [] = Some (Err ErrVRFInvalidProof).
Proof. split; vm_compute; reflexivity. Qed.
End sample.
