(* ===== verification/RangeProof.v ===== *)
(** * Range proofs ([engine/internal/crypto/rangeproof.go])

    Bit commitments with disjunctive Schnorr proofs over the group of Curve.v,
    with the code's hash inputs and SHA-512 computed. The drawn randomness is an
    argument; the challenge function is an argument of the verifier, so that the
    soundness theorem can compare two answers of the random oracle. A panic of the
    library is [None]. *)

From S2P Require Import Prelude GoLib Sha512 Curve.

Local Open Scope Z_scope.

Definition rangeProofSuite : bytes := bytes_of "casperprover-rangeproof-v1".

Record RangeProof := { N : Z; C : bytes; Bits : list bytes; ORs : list bytes }.

Section rangeproof.
Context `{Hc : Curve}.

(** The package variables [rangeG] and [rangeH]. *)
Definition generators : option (point * point) :=
  eight ← scalarFromU64 8;
  H ← hash_to_curve sha512 (rangeProofSuite ++ bytes_of "|H-generator");
  Some (scalar_mult eight generator, H).

Definition fsChallengeOR (C a0 a1 : point) : option scalar :=
  set_uniform_bytes (sha512 (rangeProofSuite ++ bytes_of "|e" ++ point_bytes C ++ point_bytes a0 ++ point_bytes a1)).

Section with_generators.
Context (G H : point).

(** [x*G + r*H] *)
Definition pedersen (x r : scalar) : point := point_add (scalar_mult x G) (scalar_mult r H).

Definition CommitRange (x : Z) (draw : bytes) : option (bytes * bytes) :=
  rr ← set_uniform_bytes draw; xs ← scalarFromU64 x;
  Some (point_bytes (pedersen xs rr), scalar_bytes rr).

(** ** Proving *)

(** The commitments [a0], [a1] of the two branches; [b] is 0 or 1. *)
Definition branches (b : Z) (Cp : point) (kTrue sFake eFake : scalar) : point * point :=
  if b =? 0
  then (scalar_mult kTrue H,
        point_sub (scalar_mult sFake H) (scalar_mult eFake (point_sub Cp G)))
  else (point_sub (scalar_mult sFake H) (scalar_mult eFake Cp), scalar_mult kTrue H).

(** [e0], [s0] and [s1]. *)
Definition responses (b : Z) (e r kTrue sFake eFake : scalar) : scalar * scalar * scalar :=
  if b =? 0
  then let e0 := scalar_sub e eFake in (e0, scalar_add kTrue (scalar_multiply e0 r), sFake)
  else let e1 := scalar_sub e eFake in (eFake, sFake, scalar_add kTrue (scalar_multiply e1 r)).

Definition encode_or (a0 a1 : point) (e0 s0 s1 : scalar) : bytes :=
  point_bytes a0 ++ point_bytes a1 ++ scalar_bytes e0 ++ scalar_bytes s0 ++ scalar_bytes s1.

Definition commitBitAndProve (b : Z) (r : scalar) (draw : bytes * bytes * bytes) : option (result string (bytes * bytes)) :=
  if negb ((b =? 0) || (b =? 1)) then Some (Err ("commitBit: b must be 0 or 1, got " +:+ itoa b)%string)
  else
    bs ← scalarFromU64 b;
    kTrue ← set_uniform_bytes (fst (fst draw)); sFake ← set_uniform_bytes (snd (fst draw)); eFake ← set_uniform_bytes (snd draw);
    let Cp := pedersen bs r in
    let '(a0, a1) := branches b Cp kTrue sFake eFake in
    e ← fsChallengeOR Cp a0 a1;
    let '(e0, s0, s1) := responses b e r kTrue sFake eFake in
    Some (Ok (point_bytes Cp, encode_or a0 a1 e0 s0 s1)).

(** [r = sum(2^i * r_i)], from bit [i] on. *)
Fixpoint aggregate (i : Z) (acc : scalar) (rs : list scalar) : option scalar :=
  match rs with
  | [] => Some acc
  | r :: rs => coef ← scalarFromU64 (2 ^ i); aggregate (i + 1) (scalar_add acc (scalar_multiply coef r)) rs
  end.

Definition bit (x i : Z) : Z := Z.land (Z.shiftr x i) 1.

Fixpoint prove_bits (x i : Z) (rs : list scalar) (draws : list (bytes * bytes * bytes))
    : option (result string (list bytes * list bytes)) :=
  match rs, draws with
  | r :: rs, d :: draws =>
      o ← commitBitAndProve (bit x i) r d;
      match o with
      | Err e => Some (Err e)
      | Ok (Ci, or) =>
          o ← prove_bits x (i + 1) rs draws;
          match o with Err e => Some (Err e) | Ok (bits, ors) => Some (Ok (Ci :: bits, or :: ors)) end
      end
  | _, _ => Some (Ok ([], []))
  end.

(** [blinds]: the 64 bytes drawn for each bit's blinding; [draws]: the three draws
    of each bit's proof. *)
Definition ProveRange (x n : Z) (blinds : list bytes) (draws : list (bytes * bytes * bytes)) : option (result string RangeProof) :=
  if (n <=? 0) || (64 <? n) then Some (Err ("rangeproof: n out of range (got " +:+ itoa n +:+ ", want 1..64)")%string)
  else if (n <? 64) && (2 ^ n <=? x)
  then Some (Err ("rangeproof: x=" +:+ itoa x +:+ " out of range [0, 2^" +:+ itoa n +:+ ")")%string)
  else
    rs ← mapM set_uniform_bytes (take (Z.to_nat n) blinds);
    rAgg ← aggregate 0 scalar_zero rs;
    xs ← scalarFromU64 x;
    o ← prove_bits x 0 rs draws;
    Some match o with
         | Err e => Err e
         | Ok (bits, ors) => Ok {| N := n; C := point_bytes (pedersen xs rAgg); Bits := bits; ORs := ors |}
         end.

(** ** Verifying *)

Record or_proof := { pa0 : point; pa1 : point; pe0 : scalar; ps0 : scalar; ps1 : scalar }.

Definition decode_or (or : bytes) : result string or_proof :=
  match point_set_bytes (slice 0 32 or), point_set_bytes (slice 32 64 or), set_canonical_bytes (slice 64 96 or),
        set_canonical_bytes (slice 96 128 or), set_canonical_bytes (slice 128 160 or) with
  | None, _, _, _, _ => Err "decode a0"%string
  | _, None, _, _, _ => Err "decode a1"%string
  | _, _, None, _, _ => Err "decode e0"%string
  | _, _, _, None, _ => Err "decode s0"%string
  | _, _, _, _, None => Err "decode s1"%string
  | Some a0, Some a1, Some e0, Some s0, Some s1 => Ok {| pa0 := a0; pa1 := a1; pe0 := e0; ps0 := s0; ps1 := s1 |}
  end.

(** The two Schnorr equations. *)
Definition branch0_ok (Cp : point) (p : or_proof) : bool :=
  bool_decide (scalar_mult (ps0 p) H = point_add (pa0 p) (scalar_mult (pe0 p) Cp)).
Definition branch1_ok (Cp : point) (e : scalar) (p : or_proof) : bool :=
  bool_decide (scalar_mult (ps1 p) H = point_add (pa1 p) (scalar_mult (scalar_sub e (pe0 p)) (point_sub Cp G))).

Definition verifyBitOR (challenge : point → point → point → option scalar) (Ci or : bytes) : option (result string ()) :=
  match point_set_bytes Ci with
  | None => Some (Err "decode C"%string)
  | Some Cp =>
      match decode_or or with
      | Err e => Some (Err e)
      | Ok p =>
          e ← challenge Cp (pa0 p) (pa1 p);
          Some (if negb (branch0_ok Cp p) then Err "branch-0 Schnorr equation failed"%string
                else if negb (branch1_ok Cp e p) then Err "branch-1 Schnorr equation failed"%string
                else Ok ())
      end
  end.

Fixpoint verify_bits (challenge : point → point → point → option scalar) (i : Z) (bits ors : list bytes) : option (result string ()) :=
  match bits, ors with
  | Ci :: bits, or :: ors =>
      o ← verifyBitOR challenge Ci or;
      match o with
      | Err e => Some (Err ("rangeproof: bit " +:+ itoa i +:+ " OR-proof failed: " +:+ e)%string)
      | Ok _ => verify_bits challenge (i + 1) bits ors
      end
  | _, _ => Some (Ok ())
  end.

(** [sum(2^i * C_i)], from bit [i] on. *)
Fixpoint homomorphic_sum (i : Z) (acc : point) (bits : list bytes) : option (result string point) :=
  match bits with
  | [] => Some (Ok acc)
  | Ci :: bits =>
      match point_set_bytes Ci with
      | None => Some (Err ("rangeproof: bit " +:+ itoa i +:+ " commitment decode")%string)
      | Some Cp => coef ← scalarFromU64 (2 ^ i); homomorphic_sum (i + 1) (point_add acc (scalar_mult coef Cp)) bits
      end
  end.

Definition VerifyRange_with (challenge : point → point → point → option scalar) (orp : option RangeProof)
    : option (result string ()) :=
  match orp with
  | None => Some (Err "rangeproof: nil proof"%string)
  | Some rp =>
      if (N rp <=? 0) || (64 <? N rp) then Some (Err "rangeproof: n out of range"%string)
      else if negb (Z.of_nat (length (Bits rp)) =? N rp) || negb (Z.of_nat (length (ORs rp)) =? N rp)
      then Some (Err "rangeproof: bit/OR length mismatch with n"%string)
      else
        o ← verify_bits challenge 0 (Bits rp) (ORs rp);
        match o with
        | Err e => Some (Err e)
        | Ok _ =>
            o ← homomorphic_sum 0 identity (Bits rp);
            Some match o with
                 | Err e => Err e
                 | Ok acc =>
                     match point_set_bytes (C rp) with
                     | None => Err "rangeproof: aggregate commitment decode"%string
                     | Some Cp => if bool_decide (acc = Cp) then Ok ()
                                  else Err "rangeproof: sum(2^i * C_i) != C (homomorphic check failed)"%string
                     end
                 end
        end
  end.

Definition VerifyRange : option RangeProof → option (result string ()) := VerifyRange_with fsChallengeOR.

End with_generators.
End rangeproof.

(** ** Weighted sums *)

(** [sum(2^(i+k) * l_k)] *)
Fixpoint wsum (i : Z) (l : list Z) : Z :=
  match l with [] => 0 | z :: l => 2 ^ i * z + wsum (i + 1) l end.

Definition bits_from (x i : Z) (n : nat) : list Z := (λ k, bit x (i + Z.of_nat k)) <$> seq 0 n.

Lemma bits_from_cons x i n : bits_from x i (S n) = bit x i :: bits_from x (i + 1) n.
Proof.
  unfold bits_from. cbn [seq fmap list_fmap]. f_equal; [by rewrite Z.add_0_r|].
  rewrite <- fmap_S_seq, <- list_fmap_compose. apply list_fmap_ext. intros k j _. cbn. f_equal. lia.
Qed.

Lemma bit_mod x i : 0 <= i → bit x i = (x / 2 ^ i) mod 2.
Proof. intros Hi. unfold bit. change 1 with (Z.ones 1). by rewrite Z.land_ones, Z.shiftr_div_pow2 by lia. Qed.

Lemma bit_range x i : 0 <= i → bit x i = 0 ∨ bit x i = 1.
Proof. intros Hi. rewrite bit_mod by done. pose proof (Z.mod_pos_bound (x / 2 ^ i) 2 eq_refl). lia. Qed.

(** The bits of a number add up to it. *)
Lemma wsum_bits x i n : 0 <= x → 0 <= i → x / 2 ^ i < 2 ^ Z.of_nat n → wsum i (bits_from x i n) = 2 ^ i * (x / 2 ^ i).
Proof.
  intros Hx. revert i. induction n as [|n IH]; intros i Hi Hb.
  - assert (x / 2 ^ i = 0) as -> by (pose proof (Z.div_pos x (2 ^ i) Hx ltac:(lia)); cbn in Hb; lia). cbn. lia.
  - rewrite bits_from_cons. cbn [wsum].
    assert (x / 2 ^ (i + 1) = x / 2 ^ i / 2) as E
      by (rewrite Z.pow_add_r, Z.pow_1_r by lia; symmetry; apply Z.div_div; lia).
    rewrite IH; [|lia|].
    + rewrite bit_mod, E, Z.pow_add_r, Z.pow_1_r by lia. pose proof (Z_div_mod_eq_full (x / 2 ^ i) 2). nia.
    + rewrite E. apply Z.div_lt_upper_bound; [lia|]. by rewrite <- Z.pow_succ_r, <- Nat2Z.inj_succ by lia.
Qed.

(** A sum of bits is below the power of two. *)
Lemma wsum_range l i : 0 <= i → Forall (λ b, b = 0 ∨ b = 1) l → 0 <= wsum i l <= 2 ^ i * (2 ^ Z.of_nat (length l) - 1).
Proof.
  intros Hi Hl. revert i Hi. induction Hl as [|b l Hb _ IH]; intros i Hi; cbn [wsum length]; [cbn; lia|].
  specialize (IH (i + 1) ltac:(lia)). rewrite Nat2Z.inj_succ, Z.pow_succ_r by lia.
  rewrite Z.pow_add_r, Z.pow_1_r in IH by lia. assert (0 < 2 ^ i) by lia. nia.
Qed.

(** ** Completeness *)

Section facts.
Context `{Hc : Curve} {Hl : CurveLaws} (G H : point) (HH : prime_order H).

Lemma slice_app_l i j a b : (j <= length a)%nat → slice i j (a ++ b) = slice i j a.
Proof.
  intros Hj. unfold slice. destruct (decide (i <= length a)%nat).
  - rewrite drop_app_le by done. apply take_app_le. rewrite length_drop. lia.
  - by replace (j - i)%nat with 0%nat by lia.
Qed.

Lemma slice_app_r i j a b : (length a <= i)%nat → slice i j (a ++ b) = slice (i - length a) (j - length a) b.
Proof. intros Hi. unfold slice. rewrite drop_app_ge by done. f_equal. lia. Qed.

Lemma slice_whole n a : length a = n → slice 0 n a = a.
Proof. intros <-. unfold slice. rewrite drop_0, Nat.sub_0_r. apply firstn_all. Qed.

Lemma decode_encode_or a0 a1 e0 s0 s1 :
  decode_or (encode_or a0 a1 e0 s0 s1) = Ok {| pa0 := a0; pa1 := a1; pe0 := e0; ps0 := s0; ps1 := s1 |}.
Proof.
  unfold decode_or, encode_or.
  assert (∀ i a b, length a = 32%nat → slice (32 + i) (64 + i) (a ++ b) = slice i (32 + i) b) as Hs.
  { intros i a b Ha. rewrite slice_app_r by lia. rewrite Ha. f_equal; lia. }
  assert (∀ a b, length a = 32%nat → slice 0 32 (a ++ b) = a) as H0.
  { intros a b Ha. rewrite slice_app_l by lia. by apply slice_whole. }
  pose proof point_bytes_length as Lp. pose proof scalar_bytes_length as Ls.
  rewrite !(Hs 96%nat), !(Hs 64%nat), !(Hs 32%nat), !(Hs 0%nat) by auto. rewrite !H0 by auto.
  rewrite (slice_whole 32) by auto. by rewrite !point_set_bytes_bytes, !set_canonical_bytes_bytes.
Qed.

(** The true branch: [(k + e*r)*H = k*H + e*(r*H)]. *)
Lemma true_branch k e r :
  scalar_mult (scalar_add k (scalar_multiply e r)) H = point_add (scalar_mult k H) (scalar_mult e (zmul (value r) H)).
Proof.
  pose proof order_large. rewrite !scalar_mult_value, scalar_add_value, scalar_multiply_value, Z.add_mod_idemp_r by lia.
  rewrite zmul_mod by done. by rewrite zmul_add, zmul_mul.
Qed.

(** The simulated branch verifies whatever the statement is. *)
Lemma fake_branch s e P : scalar_mult s H = point_add (point_sub (scalar_mult s H) (scalar_mult e P)) (scalar_mult e P).
Proof. by rewrite point_sub_cancel. Qed.

Lemma scalar_sub_sub e f : scalar_sub e (scalar_sub e f) = f.
Proof.
  pose proof order_large. apply value_inj. rewrite !scalar_sub_value, Zminus_mod_idemp_r.
  replace (value e - (value e - value f)) with (value f) by lia. apply Z.mod_small, value_range.
Qed.

Definition draw_ok (d : bytes * bytes * bytes) : Prop :=
  length (fst (fst d)) = 64%nat ∧ length (snd (fst d)) = 64%nat ∧ length (snd d) = 64%nat.

Lemma bit_complete b r d :
  b = 0 ∨ b = 1 → draw_ok d →
  ∃ or, commitBitAndProve G H b r d = Some (Ok (point_bytes (point_add (zmul b G) (zmul (value r) H)), or))
    ∧ verifyBitOR G H fsChallengeOR (point_bytes (point_add (zmul b G) (zmul (value r) H))) or = Some (Ok ()).
Proof.
  intros Hb (Hd1 & Hd2 & Hd3). pose proof order_large. unfold commitBitAndProve.
  assert ((b =? 0) || (b =? 1) = true) as -> by lia. cbn [negb].
  destruct (scalarFromU64_value b) as (bs & -> & Hbs); [lia|lia|]. cbn [mbind option_bind].
  destruct (set_uniform_bytes_total _ Hd1) as [k ->], (set_uniform_bytes_total _ Hd2) as [sf ->],
    (set_uniform_bytes_total _ Hd3) as [ef ->]. cbn [mbind option_bind].
  assert (pedersen G H bs r = point_add (zmul b G) (zmul (value r) H)) as ->
    by (unfold pedersen; by rewrite !scalar_mult_value, Hbs).
  set (Cp := point_add _ _).
  destruct (branches G H b Cp k sf ef) as [a0 a1] eqn:Ea.
  assert (∃ e, fsChallengeOR Cp a0 a1 = Some e) as [e He] by (apply set_uniform_bytes_total, length_sha512).
  rewrite He. cbn [mbind option_bind]. destruct (responses b e r k sf ef) as [[e0 s0] s1] eqn:Er.
  eexists. split; [done|]. unfold verifyBitOR. rewrite point_set_bytes_bytes, decode_encode_or. cbn [pa0 pa1].
  rewrite He. cbn [mbind option_bind]. unfold branch0_ok, branch1_ok. cbn [pa0 pa1 pe0 ps0 ps1].
  unfold branches, responses in *. destruct Hb as [-> | ->]; cbn [Z.eqb] in *.
  - injection Ea as <- <-. injection Er as <- <- <-. rewrite scalar_sub_sub, <- fake_branch.
    assert (Cp = zmul (value r) H) as -> by (unfold Cp; by rewrite zmul_0, point_add_id).
    by rewrite true_branch, !bool_decide_true.
  - injection Ea as <- <-. injection Er as <- <- <-. rewrite <- fake_branch.
    assert (point_sub Cp G = zmul (value r) H) as ->
      by (apply sub_unique; unfold Cp; rewrite zmul_1; apply point_add_comm).
    by rewrite true_branch, !bool_decide_true.
Qed.

Lemma bits_complete x i rs draws acc :
  0 <= i → i + Z.of_nat (length rs) <= 64 → 2 ^ (i + Z.of_nat (length rs)) <= order →
  length draws = length rs → Forall draw_ok draws →
  ∃ bits ors, prove_bits G H x i rs draws = Some (Ok (bits, ors)) ∧ length bits = length rs ∧ length ors = length rs
    ∧ verify_bits G H fsChallengeOR i bits ors = Some (Ok ())
    ∧ homomorphic_sum i acc bits =
      Some (Ok (point_add acc (point_add (zmul (wsum i (bits_from x i (length rs))) G) (zmul (wsum i (value <$> rs)) H)))).
Proof.
  revert i draws acc. induction rs as [|r rs IH]; intros i draws acc Hi Hn Ho Hlen Hd.
  { exists [], []. destruct draws; [|done]. split_and!; [done..|].
    cbn [homomorphic_sum length bits_from wsum fmap list_fmap seq]. by rewrite !zmul_0, point_add_id, add_id_r. }
  destruct draws as [|d draws]; [done|]. inversion Hd as [|? ? Hd1 Hd2]; subst. cbn [length] in *.
  destruct (bit_complete (bit x i) r d (bit_range x i Hi) Hd1) as (or & Hp & Hv). set (Cp := point_add _ _) in *.
  destruct (IH (i + 1) draws (point_add acc (zmul (2 ^ i) Cp))) as (bits & ors & Hps & L1 & L2 & Hvs & Hs); [lia|lia| |lia|done|].
  { by replace (i + 1 + Z.of_nat (length rs)) with (i + Z.of_nat (S (length rs))) by lia. }
  exists (point_bytes Cp :: bits), (or :: ors). cbn [prove_bits verify_bits homomorphic_sum].
  rewrite Hp. cbn [mbind option_bind]. rewrite Hps. cbn [mbind option_bind].
  rewrite Hv. cbn [mbind option_bind]. rewrite point_set_bytes_bytes.
  assert (2 ^ i < order) as Hlt
    by (apply (Z.lt_le_trans _ (2 ^ (i + Z.of_nat (S (length rs))))); [apply Z.pow_lt_mono_r; lia|done]).
  destruct (scalarFromU64_value (2 ^ i)) as (co & -> & Hco); [split; [lia|apply Z.pow_lt_mono_r; lia]|done|].
  cbn [mbind option_bind]. rewrite scalar_mult_value, Hco, Hs.
  split_and!; [done|cbn [length]; lia|cbn [length]; lia|done|]. do 2 f_equal. rewrite <- point_add_assoc. f_equal.
  unfold Cp. rewrite bits_from_cons, fmap_cons. cbn [wsum].
  by rewrite zmul_point_add, add_swap, !zmul_add, !zmul_mul.
Qed.

Lemma aggregate_spec i acc rs :
  0 <= i → i + Z.of_nat (length rs) <= 64 → 2 ^ (i + Z.of_nat (length rs)) <= order →
  ∃ r, aggregate i acc rs = Some r ∧ value r = (value acc + wsum i (value <$> rs)) mod order.
Proof.
  pose proof order_large. revert i acc. induction rs as [|r rs IH]; intros i acc Hi Hn Ho; cbn [length] in *.
  { exists acc. split; [done|]. cbn. rewrite Z.add_0_r. symmetry. apply Z.mod_small, value_range. }
  cbn [aggregate].
  assert (2 ^ i < order) as Hlt
    by (apply (Z.lt_le_trans _ (2 ^ (i + Z.of_nat (S (length rs))))); [apply Z.pow_lt_mono_r; lia|done]).
  destruct (scalarFromU64_value (2 ^ i)) as (co & -> & Hco); [split; [lia|apply Z.pow_lt_mono_r; lia]|done|].
  cbn [mbind option_bind]. destruct (IH (i + 1) (scalar_add acc (scalar_multiply co r))) as (r' & -> & Hr'); [lia|lia| |].
  { by replace (i + 1 + Z.of_nat (length rs)) with (i + Z.of_nat (S (length rs))) by lia. }
  exists r'. split; [done|]. rewrite Hr', fmap_cons, scalar_add_value, scalar_multiply_value, Hco. cbn [wsum].
  rewrite Z.add_mod_idemp_l, <- Z.add_assoc, (Z.add_comm (_ mod _)), Z.add_assoc, Z.add_mod_idemp_r by lia. f_equal. lia.
Qed.

Lemma mapM_uniform blinds : Forall (λ b, length b = 64%nat) blinds →
  ∃ rs, mapM set_uniform_bytes blinds = Some rs ∧ length rs = length blinds.
Proof.
  induction 1 as [|b bs Hb _ (rs & IH & Hlen)]; [by exists []|].
  destruct (set_uniform_bytes_total b Hb) as [r Hr]. exists (r :: rs). cbn. rewrite Hr. cbn. rewrite IH. cbn. by rewrite Hlen.
Qed.

Lemma zmul_value_mod r s : value r = s mod order → zmul (value r) H = zmul s H.
Proof. intros ->. by apply zmul_mod. Qed.

Lemma range_complete_forwarded x n blinds draws :
  0 < n <= 64 → 0 <= x < 2 ^ n → 2 ^ n <= order →
  length blinds = Z.to_nat n → Forall (λ b, length b = 64%nat) blinds → length draws = Z.to_nat n → Forall draw_ok draws →
  ∃ rp r, ProveRange G H x n blinds draws = Some (Ok rp) ∧ VerifyRange G H (Some rp) = Some (Ok ())
    ∧ N rp = n ∧ C rp = point_bytes (point_add (zmul x G) (zmul r H)).
Proof.
  intros Hn Hx Ho Hb Hbs Hd Hds. pose proof order_large. unfold ProveRange.
  assert ((n <=? 0) || (64 <? n) = false) as Hr by lia. rewrite Hr.
  assert ((n <? 64) && (2 ^ n <=? x) = false) as -> by lia. rewrite take_ge by lia.
  destruct (mapM_uniform _ Hbs) as (rs & -> & Hrs). cbn [mbind option_bind].
  assert (Z.of_nat (length rs) = n) as Hlen by lia.
  destruct (aggregate_spec 0 scalar_zero rs) as (ra & -> & Hra); [lia|lia|by rewrite Z.add_0_l, Hlen|]. cbn [mbind option_bind].
  destruct (scalarFromU64_value x) as (xs & -> & Hxs); [|lia|].
  { split; [lia|]. apply (Z.lt_le_trans _ (2 ^ n)); [lia|apply Z.pow_le_mono_r; lia]. }
  cbn [mbind option_bind].
  destruct (bits_complete x 0 rs draws identity) as (bits & ors & -> & L1 & L2 & Hv & Hs);
    [lia|lia|by rewrite Z.add_0_l, Hlen|lia|done|]. cbn [mbind option_bind].
  eexists _, (value ra). split; [done|]. cbn [N C]. split_and!; [|done|by unfold pedersen; rewrite !scalar_mult_value, Hxs].
  unfold VerifyRange, VerifyRange_with. cbn [N Bits ORs C]. rewrite Hr.
  rewrite (proj2 (Z.eqb_eq _ n)), (proj2 (Z.eqb_eq _ n)) by lia. cbn [negb orb].
  rewrite Hv. cbn [mbind option_bind]. rewrite Hs. cbn [mbind option_bind]. rewrite point_set_bytes_bytes.
  rewrite bool_decide_true; [done|]. unfold pedersen. rewrite !scalar_mult_value, Hxs, point_add_id.
  rewrite scalar_zero_value, Z.add_0_l in Hra. rewrite (zmul_value_mod _ _ Hra). do 2 f_equal.
  rewrite wsum_bits; rewrite ?Z.pow_0_r, ?Z.div_1_r; rewrite ?Hlen; lia.
Qed.

(** ** Special soundness *)

Lemma scalar_sub_inj e e' f : scalar_sub e f = scalar_sub e' f → e = e'.
Proof.
  intros E. destruct (decide (e = e')) as [|Hne]; [done|exfalso]. pose proof order_large.
  apply (value_differ _ _ Hne). apply (f_equal value) in E. rewrite !scalar_sub_value in E.
  replace (value e - value e') with ((value e - value f) - (value e' - value f)) by lia.
  rewrite Zminus_mod, E, Z.sub_diag. apply Z.mod_0_l. lia.
Qed.

(** Two accepting OR-proofs of one commitment with one pair of branch
    commitments and different challenges. *)
Definition bit_fork (e e' : scalar) (p p' : or_proof) : bool :=
  bool_decide (pa0 p = pa0 p') && bool_decide (pa1 p = pa1 p') && negb (bool_decide (e = e')).

(** The bit and the blinding that they give away: the branch whose challenges
    differ. *)
Definition extract_bit (e e' : scalar) (p p' : or_proof) : Z * Z :=
  if bool_decide (pe0 p = pe0 p')
  then (1, quotient (value (ps1 p) - value (ps1 p')) (value (scalar_sub e (pe0 p)) - value (scalar_sub e' (pe0 p'))))
  else (0, quotient (value (ps0 p) - value (ps0 p')) (value (pe0 p) - value (pe0 p'))).

(** [s*H = a + e*P] and [s'*H = a + e'*P] give [(s - s')*H = (e - e')*P]. *)
Lemma schnorr_fork a P (s e s' e' : scalar) :
  scalar_mult s H = point_add a (scalar_mult e P) → scalar_mult s' H = point_add a (scalar_mult e' P) →
  zmul (value s - value s') H = zmul (value e - value e') P.
Proof.
  rewrite !scalar_mult_value. intros E E'. rewrite !zmul_sub, E, E'. apply sub_exchange.
  transitivity a; [|symmetry]; apply sub_unique; done.
Qed.

Lemma extract_bit_spec Cp e e' p p' :
  bit_fork e e' p p' = true →
  branch0_ok H Cp p = true → branch1_ok G H Cp e p = true → branch0_ok H Cp p' = true → branch1_ok G H Cp e' p' = true →
  let '(b, r) := extract_bit e e' p p' in
  (b = 0 ∨ b = 1) ∧ zmul 8 Cp = zmul 8 (point_add (zmul b G) (zmul r H)).
Proof.
  unfold bit_fork, branch0_ok, branch1_ok, extract_bit. intros Hf H0 H1 H0' H1'. bool_to_prop.
  match goal with E : pa0 p = _, E' : pa1 p = _ |- _ => rewrite E, E' in * end. case_bool_decide as E0.
  - split; [by right|]. rewrite E0 in *. pose proof (schnorr_fork _ _ _ _ _ _ H1 H1') as E.
    assert (zmul 8 (point_sub Cp G) = zmul 8 (zmul (quotient (value (ps1 p) - value (ps1 p'))
      (value (scalar_sub e (pe0 p')) - value (scalar_sub e' (pe0 p')))) H)) as E8.
    { apply quotient_spec; [done| |done]. apply value_differ. intros Hs%scalar_sub_inj. done. }
    rewrite zmul_1, zmul_point_add, <- E8, zmul_point_sub, point_add_comm. symmetry. apply point_sub_cancel.
  - split; [by left|]. rewrite zmul_0, point_add_id. apply quotient_spec; [done|by apply value_differ|].
    by apply schnorr_fork with (pa0 p').
Qed.

Notation challenge := (point → point → point → option scalar).

(** The two challenges of a forked pair. *)
Definition fork_challenges (ch ch' : challenge) (Ci or or' : bytes) : option (point * or_proof * or_proof * scalar * scalar) :=
  match point_set_bytes Ci, decode_or or, decode_or or' with
  | Some Cp, Ok p, Ok p' =>
      match ch Cp (pa0 p) (pa1 p), ch' Cp (pa0 p') (pa1 p') with
      | Some e, Some e' => Some (Cp, p, p', e, e')
      | _, _ => None
      end
  | _, _, _ => None
  end.

Fixpoint bits_fork (ch ch' : challenge) (bits ors ors' : list bytes) : bool :=
  match bits, ors, ors' with
  | [], _, _ => true
  | Ci :: bits, or :: ors, or' :: ors' =>
      match fork_challenges ch ch' Ci or or' with
      | Some (_, p, p', e, e') => bit_fork e e' p p' && bits_fork ch ch' bits ors ors'
      | None => false
      end
  | _, _, _ => false
  end.

(** Two proofs with the same commitments everywhere and different challenges for
    every bit. *)
Definition range_forks (ch ch' : challenge) (rp rp' : RangeProof) : bool :=
  bool_decide (N rp = N rp') && bool_decide (C rp = C rp') && bool_decide (Bits rp = Bits rp')
  && bits_fork ch ch' (Bits rp) (ORs rp) (ORs rp').

Fixpoint extract_bits (ch ch' : challenge) (bits ors ors' : list bytes) : list (Z * Z) :=
  match bits, ors, ors' with
  | Ci :: bits, or :: ors, or' :: ors' =>
      match fork_challenges ch ch' Ci or or' with
      | Some (_, p, p', e, e') => extract_bit e e' p p' :: extract_bits ch ch' bits ors ors'
      | None => []
      end
  | _, _, _ => []
  end.

(** The value and the blinding that a fork gives away. *)
Definition extract (ch ch' : challenge) (rp rp' : RangeProof) : Z * Z :=
  let l := extract_bits ch ch' (Bits rp) (ORs rp) (ORs rp') in (wsum 0 (fst <$> l), wsum 0 (snd <$> l)).

Lemma verifyBitOR_ok ch Ci or :
  verifyBitOR G H ch Ci or = Some (Ok ()) →
  ∃ Cp p e, point_set_bytes Ci = Some Cp ∧ decode_or or = Ok p ∧ ch Cp (pa0 p) (pa1 p) = Some e
    ∧ branch0_ok H Cp p = true ∧ branch1_ok G H Cp e p = true.
Proof.
  unfold verifyBitOR. destruct (point_set_bytes Ci) as [Cp|]; [|done]. destruct (decode_or or) as [p|]; [|done].
  destruct (ch Cp (pa0 p) (pa1 p)) as [e|] eqn:Ee; [|done]. cbn [mbind option_bind].
  destruct (branch0_ok H Cp p) eqn:E0; [|done]. destruct (branch1_ok G H Cp e p) eqn:E1; [|done]. intros _.
  by exists Cp, p, e.
Qed.

Lemma verify_bits_cons ch i Ci or bits ors :
  verify_bits G H ch i (Ci :: bits) (or :: ors) = Some (Ok ()) →
  verifyBitOR G H ch Ci or = Some (Ok ()) ∧ verify_bits G H ch (i + 1) bits ors = Some (Ok ()).
Proof. cbn [verify_bits]. destruct (verifyBitOR G H ch Ci or) as [[[]|]|]; [|done..]. done. Qed.

(** The commitments of the bits add up to a commitment of the extracted value, up
    to the cofactor. *)
Lemma extract_sum ch ch' i bits ors ors' acc P :
  0 <= i → i + Z.of_nat (length bits) <= 64 →
  verify_bits G H ch i bits ors = Some (Ok ()) → verify_bits G H ch' i bits ors' = Some (Ok ()) →
  bits_fork ch ch' bits ors ors' = true → homomorphic_sum i acc bits = Some (Ok P) →
  let l := extract_bits ch ch' bits ors ors' in
  length l = length bits ∧ Forall (λ b, b = 0 ∨ b = 1) (fst <$> l)
  ∧ zmul 8 P = zmul 8 (point_add acc (point_add (zmul (wsum i (fst <$> l)) G) (zmul (wsum i (snd <$> l)) H))).
Proof.
  revert i ors ors' acc. induction bits as [|Ci bits IH]; intros i ors ors' acc Hi Hn Hv Hv' Hf Hs.
  { injection Hs as <-. split_and!; [done|constructor|].
    cbn [extract_bits fmap list_fmap wsum]. by rewrite !zmul_0, !add_id_r. }
  destruct ors as [|or ors]; [done|]. destruct ors' as [|or' ors']; [done|]. cbn [length] in Hn.
  apply verify_bits_cons in Hv as [Hb Hv], Hv' as [Hb' Hv'].
  apply verifyBitOR_ok in Hb as (Cp & p & e & HC & Hp & He & H0 & H1), Hb' as (Cp' & p' & e' & HC' & Hp' & He' & H0' & H1').
  assert (Cp' = Cp) as -> by congruence. cbn [bits_fork extract_bits homomorphic_sum] in *.
  assert (fork_challenges ch ch' Ci or or' = Some (Cp, p, p', e, e')) as Hfc
    by (unfold fork_challenges; by rewrite HC, Hp, Hp', He, He').
  rewrite Hfc in *. apply andb_prop in Hf as [Hf Hfs]. rewrite HC in Hs.
  destruct (scalarFromU64 (2 ^ i)) as [co|] eqn:Eco; [|done]. cbn [mbind option_bind] in Hs.
  apply scalarFromU64_sound in Eco; [|split; [lia|apply Z.pow_lt_mono_r; lia]].
  destruct (IH (i + 1) ors ors' _ ltac:(lia) ltac:(lia) Hv Hv' Hfs Hs) as (IHl & IHb & IHs).
  pose proof (extract_bit_spec Cp e e' p p' Hf H0 H1 H0' H1') as Hx. destruct (extract_bit e e' p p') as [b r].
  destruct Hx as [Hb Hx]. cbv zeta. split_and!; [cbn [length]; lia|by constructor|].
  rewrite IHs, scalar_mult_value, Eco. cbn [fmap list_fmap wsum fst snd].
  rewrite <- point_add_assoc, !(zmul_point_add 8 acc). f_equal.
  rewrite (zmul_point_add 8 (zmul (2 ^ i) Cp)), <- (zmul_mul 8), (Z.mul_comm 8), zmul_mul, Hx, <- zmul_mul, (Z.mul_comm _ 8), zmul_mul.
  rewrite <- zmul_point_add. f_equal. by rewrite zmul_point_add, add_swap, !zmul_add, !zmul_mul.
Qed.

Lemma range_extract ch ch' rp rp' :
  VerifyRange_with G H ch (Some rp) = Some (Ok ()) → VerifyRange_with G H ch' (Some rp') = Some (Ok ()) →
  range_forks ch ch' rp rp' = true →
  let '(x, r) := extract ch ch' rp rp' in
  0 <= x < 2 ^ N rp ∧ ∃ Cp, point_set_bytes (C rp) = Some Cp ∧ zmul 8 Cp = zmul 8 (point_add (zmul x G) (zmul r H)).
Proof.
  unfold range_forks. intros Hv Hv' Hf. bool_to_prop. unfold VerifyRange_with in *.
  destruct ((N rp <=? 0) || (64 <? N rp)) eqn:En; [done|].
  destruct (_ || _) eqn:El in Hv; [done|]. apply orb_false_elim in El as [El1 _].
  destruct (_ || _) in Hv'; [done|]. destruct (_ || _) in Hv'; [done|].
  destruct (verify_bits G H ch 0 _ _) as [[[]|]|] eqn:Eb; [|done..]. cbn [mbind option_bind] in Hv.
  destruct (verify_bits G H ch' 0 _ _) as [[[]|]|] eqn:Eb'; [|done..]. clear Hv'.
  destruct (homomorphic_sum 0 identity (Bits rp)) as [[acc|]|] eqn:Es; [|done..]. cbn [mbind option_bind] in Hv.
  destruct (point_set_bytes (C rp)) as [Cp|] eqn:EC; [|done]. case_bool_decide as Ea; [|done]. subst acc.
  bool_to_prop. replace (Bits rp') with (Bits rp) in * by done.
  destruct (extract_sum ch ch' 0 (Bits rp) (ORs rp) (ORs rp') identity Cp) as (Hlen & Hbits & Hsum); [lia|lia|done..|].
  unfold extract. split.
  - pose proof (wsum_range _ 0 ltac:(lia) Hbits) as Hr. rewrite length_fmap, Hlen in Hr. rewrite Z.pow_0_r in Hr.
    replace (Z.of_nat (length (Bits rp))) with (N rp) in Hr by lia. lia.
  - exists Cp. split; [done|]. by rewrite Hsum, point_add_id.
Qed.
End facts.

(** ** The properties *)

Section properties.
Context `{Hc : Curve} {Hl : CurveLaws}.

Lemma generators_spec G H : generators = Some (G, H) → prime_order G ∧ prime_order H ∧ H ≠ identity.
Proof.
  unfold generators. pose proof order_large. destruct (scalarFromU64_value 8) as (e & -> & He); [lia|lia|]. cbn [mbind option_bind].
  destruct (hash_to_curve _ _) as [h|] eqn:Eh; [|done]. cbn [mbind option_bind]. intros E. injection E as <- <-.
  split; [|by eapply hash_to_curve_spec]. rewrite scalar_mult_value. apply prime_order_zmul, generator_order.
Qed.

(** Completeness: with any randomness, proving a value below [2^n] succeeds and
    never panics, and the proof verifies; it commits to that value. *)
Theorem range_complete G H x n blinds draws :
  generators = Some (G, H) → 0 < n <= 64 → 0 <= x < 2 ^ n → 2 ^ n <= order →
  length blinds = Z.to_nat n → Forall (λ b, length b = 64%nat) blinds → length draws = Z.to_nat n → Forall draw_ok draws →
  ∃ rp r, ProveRange G H x n blinds draws = Some (Ok rp) ∧ VerifyRange G H (Some rp) = Some (Ok ())
    ∧ N rp = n ∧ C rp = point_bytes (point_add (zmul x G) (zmul r H)).
Proof. intros Hg. destruct (generators_spec _ _ Hg) as (_ & HH & _). by apply range_complete_forwarded. Qed.

(** C14. Special soundness: from two accepted proofs with the same commitments and
    different challenges for every bit, [extract] computes a value in the range
    and a blinding that open the commitment, up to a component of small order,
    and exactly when the commitment has none. *)
Theorem range_special_sound G H ch ch' rp rp' :
  generators = Some (G, H) →
  VerifyRange_with G H ch (Some rp) = Some (Ok ()) → VerifyRange_with G H ch' (Some rp') = Some (Ok ()) →
  range_forks ch ch' rp rp' = true →
  let '(x, r) := extract ch ch' rp rp' in
  0 <= x < 2 ^ N rp
  ∧ ∃ Cp, point_set_bytes (C rp) = Some Cp
    ∧ zmul 8 Cp = zmul 8 (point_add (zmul x G) (zmul r H))
    ∧ (prime_order Cp → Cp = point_add (zmul x G) (zmul r H)).
Proof.
  intros Hg Hv Hv' Hf. destruct (generators_spec _ _ Hg) as (HG & HH & _).
  pose proof (range_extract G H HH ch ch' rp rp' Hv Hv' Hf) as Hx. destruct (extract ch ch' rp rp') as [x r].
  destruct Hx as (Hr & Cp & HC & H8). split; [done|]. exists Cp. split_and!; [done..|]. intros HCp.
  apply eight_cancel; [done| |done]. by apply prime_order_add; apply prime_order_zmul.
Qed.

(** Values out of range are refused, without a panic. *)
Lemma range_refused G H x n blinds draws :
  n <= 0 ∨ 64 < n ∨ (n < 64 ∧ 2 ^ n <= x) → ∃ e, ProveRange G H x n blinds draws = Some (Err e).
Proof.
  intros Hn. unfold ProveRange. destruct ((n <=? 0) || (64 <? n)) eqn:E; [eauto|].
  assert ((n <? 64) && (2 ^ n <=? x) = true) as -> by lia. eauto.
Qed.
End properties.

(** ** A sample on the small group *)

Section sample.
Import Toy.

Definition ex_generators : point * point := default (identity, identity) generators.
Definition ex_blinds : list bytes := [replicate 64 Byte.x05; replicate 64 Byte.x1b; replicate 64 Byte.x40].
Definition ex_draws : list (bytes * bytes * bytes) :=
  [(replicate 64 Byte.x01, replicate 64 Byte.x02, replicate 64 Byte.x03); (replicate 64 Byte.x04, replicate 64 Byte.x06, replicate 64 Byte.x08);
   (replicate 64 Byte.x11, replicate 64 Byte.x13, replicate 64 Byte.x17)].
Definition ex_range : RangeProof :=
  match ProveRange (fst ex_generators) (snd ex_generators) 5 3 ex_blinds ex_draws with
  | Some (Ok rp) => rp
  | _ => {| N := 0; C := []; Bits := []; ORs := [] |}
  end.

(** A second oracle, one above the first, and the proof that answers it. *)
Definition ex_challenge (Cp a0 a1 : point) : option scalar :=
  e ← fsChallengeOR Cp a0 a1; Some (scalar_add e (reduce101 1)).
Definition ex_answer (b : Z) (r : scalar) (or : bytes) : bytes :=
  match decode_or or with
  | Ok p => if b =? 0 then encode_or (pa0 p) (pa1 p) (scalar_add (pe0 p) (reduce101 1)) (scalar_add (ps0 p) r) (ps1 p)
            else encode_or (pa0 p) (pa1 p) (pe0 p) (ps0 p) (scalar_add (ps1 p) r)
  | Err _ => []
  end.
Definition ex_range' : RangeProof :=
  {| N := N ex_range; C := C ex_range; Bits := Bits ex_range;
     ORs := zip_with (λ (br : Z * bytes) or, ex_answer (fst br) (default (reduce101 0) (set_uniform_bytes (snd br))) or)
              (zip [1; 0; 1] ex_blinds) (ORs ex_range) |}.

Lemma ex_generators_eq : generators = Some (fst ex_generators, snd ex_generators).
Proof. vm_compute. reflexivity. Qed.

Lemma ex_fork :
  VerifyRange_with (fst ex_generators) (snd ex_generators) fsChallengeOR (Some ex_range) = Some (Ok ())
  ∧ VerifyRange_with (fst ex_generators) (snd ex_generators) ex_challenge (Some ex_range') = Some (Ok ())
  ∧ range_forks fsChallengeOR ex_challenge ex_range ex_range' = true.
Proof. split_and!; vm_compute; reflexivity. Qed.

Lemma range_complete_witness :
  ∃ rp r, ProveRange (fst ex_generators) (snd ex_generators) 5 3 ex_blinds ex_draws = Some (Ok rp)
    ∧ VerifyRange (fst ex_generators) (snd ex_generators) (Some rp) = Some (Ok ())
    ∧ N rp = 3 ∧ C rp = point_bytes (point_add (zmul 5 (fst ex_generators)) (zmul r (snd ex_generators))).
Proof.
  apply (range_complete (fst ex_generators) (snd ex_generators) 5 3 ex_blinds ex_draws ex_generators_eq);
    [lia|lia|vm_compute; discriminate|reflexivity|by repeat constructor|reflexivity|by repeat constructor].
Defined.

Lemma range_special_sound_witness :
  let '(x, r) := extract fsChallengeOR ex_challenge ex_range ex_range' in
  0 <= x < 2 ^ N ex_range
  ∧ ∃ Cp, point_set_bytes (C ex_range) = Some Cp
    ∧ zmul 8 Cp = zmul 8 (point_add (zmul x (fst ex_generators)) (zmul r (snd ex_generators)))
    ∧ (prime_order Cp → Cp = point_add (zmul x (fst ex_generators)) (zmul r (snd ex_generators))).
Proof.
  exact (range_special_sound (fst ex_generators) (snd ex_generators) fsChallengeOR ex_challenge ex_range ex_range'
           ex_generators_eq (proj1 ex_fork) (proj1 (proj2 ex_fork)) (proj2 (proj2 ex_fork))).
Defined.

(** The fork gives the committed value away. *)
Lemma ex_extracted : fst (extract fsChallengeOR ex_challenge ex_range ex_range') = 5.
Proof. vm_compute. reflexivity. Qed.

(** Swapping two bit commitments with their proofs breaks the sum. *)
Lemma ex_swapped :
  VerifyRange (fst ex_generators) (snd ex_generators)
    (Some {| N := 3; C := C ex_range; Bits := reverse (take 2 (Bits ex_range)) ++ drop 2 (Bits ex_range);
             ORs := reverse (take 2 (ORs ex_range)) ++ drop 2 (ORs ex_range) |})
  = Some (Err "rangeproof: sum(2^i * C_i) != C (homomorphic check failed)"%string).
Proof. vm_compute. reflexivity. Qed.

(** A commitment outside the subgroup of prime order is accepted: a point of
    order two goes with the commitment to 0, and the challenge of its branch is
    even. *)
Definition ex_torsion : point := reduce808 404.
Definition ex_outside : RangeProof :=
  let '(G, H) := ex_generators in
  let r := reduce101 9 in let k := reduce101 8 in let sf := reduce101 3 in let ef := reduce101 4 in
  let Cp := point_add (scalar_mult r H) ex_torsion in
  let '(a0, a1) := branches G H 0 Cp k sf ef in
  let e := default (reduce101 0) (fsChallengeOR Cp a0 a1) in
  let '(e0, s0, s1) := responses 0 e r k sf ef in
  {| N := 1; C := point_bytes Cp; Bits := [point_bytes Cp]; ORs := [encode_or a0 a1 e0 s0 s1] |}.

Lemma outside_accepted :
  VerifyRange (fst ex_generators) (snd ex_generators) (Some ex_outside) = Some (Ok ())
  ∧ ∃ Cp, point_set_bytes (C ex_outside) = Some Cp ∧ ¬ prime_order Cp.
Proof.
  split; [vm_compute; reflexivity|]. eexists. split; [vm_compute; reflexivity|].
  unfold prime_order. intros E. apply (f_equal (@proj1_sig Z _)) in E. vm_compute in E. discriminate E.
Qed.
End sample.
