(* ===== verification/PedersenFold.v ===== *)
(** * The Pedersen folder ([engine/internal/aggregator/pedersen_fold.go])

    [PedersenFolder] with [Fold], [Compress], [Verify], the stateless wrappers and
    the homomorphism check. The BLS12-381 group (gnark-crypto) is a class; its
    points are taken up to their Jacobian representation. *)

From S2P Require Import Prelude GoLib Sha256 Curve HashFold.
From Stdlib Require Import Znumtheory.

Local Open Scope Z_scope.

Class PedersenGroup := {
  G1 : Type;
  g1_identity : G1;
  AddAssign : G1 → G1 → G1;
  ScalarMultiplication : Z → G1 → G1;
  pedersenG : G1;  (** [bls.Generators] *)
  pedersenH : G1;  (** [bls.HashToG1] of [CP_PED_H_V1_generator] *)
  affine_bytes : G1 → bytes;
  affine_set_bytes : bytes → option G1;
  fr_set_bytes : bytes → Z }.

(** What gnark-crypto documents: an abelian group of prime order, scalars reduced
    modulo it, a canonical encoding. *)
Class PedersenLaws `{PedersenGroup} := {
  fr_order : Z;
  fr_order_prime : prime fr_order;
  add_assign_assoc P Q R : AddAssign P (AddAssign Q R) = AddAssign (AddAssign P Q) R;
  add_assign_comm P Q : AddAssign P Q = AddAssign Q P;
  add_assign_id P : AddAssign g1_identity P = P;
  mul_0 P : ScalarMultiplication 0 P = g1_identity;
  mul_1 P : ScalarMultiplication 1 P = P;
  mul_add a b P : ScalarMultiplication (a + b) P = AddAssign (ScalarMultiplication a P) (ScalarMultiplication b P);
  mul_mul a b P : ScalarMultiplication (a * b) P = ScalarMultiplication a (ScalarMultiplication b P);
  mul_order P : ScalarMultiplication fr_order P = g1_identity;
  pedersenG_nonzero : pedersenG ≠ g1_identity;
  affine_set_bytes_bytes P : affine_set_bytes (affine_bytes P) = Some P }.

Definition SchemePedersenFoldV1 : string := "pedersen-fold-v1".

Section folder.
Context `{Hg : PedersenGroup}.

Definition hashToFr (dst : string) (data : bytes) : Z := fr_set_bytes (sha256 (bytes_of dst ++ [Byte.x1e] ++ data)).

Record PedersenFolder := { accP : G1; stepHashesP : list string; inittedP : bool }.

Definition NewPedersenFolder : PedersenFolder := {| accP := g1_identity; stepHashesP := []; inittedP := true |}.

(** [m_i*G + r_i*H] *)
Definition contribution (step : FoldStep) : G1 :=
  AddAssign (ScalarMultiplication (hashToFr "CP_PED_M_V1" (Instance step)) pedersenG)
            (ScalarMultiplication (hashToFr "CP_PED_R_V1" (WitnessDigest step)) pedersenH).

Definition Fold (f : PedersenFolder) (step : FoldStep) : result FoldError PedersenFolder :=
  if negb (inittedP f) then Err ErrFolderNotInitialised
  else if (length (Instance step) =? 0)%nat then Err ErrEmptyInstance
  else Ok {| accP := AddAssign (accP f) (contribution step);
             stepHashesP := stepHashesP f ++ [hex_encode (step_hash step)]; inittedP := inittedP f |}.

Definition Compress (f : PedersenFolder) : result FoldError AggregateProof :=
  if negb (inittedP f) then Err ErrFolderNotInitialised
  else if (length (stepHashesP f) =? 0)%nat then Err ErrNoSteps
  else Ok {| Scheme := SchemePedersenFoldV1; Steps := Z.of_nat (length (stepHashesP f));
             Root := hex_encode (affine_bytes (accP f)); StepHashes := stepHashesP f |}.

Fixpoint verify_loop (i : nat) (acc : G1) (steps : list FoldStep) (hashes : list string) : result FoldError G1 :=
  match steps, hashes with
  | step :: steps, h :: hashes =>
      if (length (Instance step) =? 0)%nat then Err (ErrStepEmptyInstance i)
      else if negb (bool_decide (hex_encode (step_hash step) = h)) then Err (ErrStepHashMismatch i)
      else verify_loop (S i) (AddAssign acc (contribution step)) steps hashes
  | _, _ => Ok acc
  end.

Definition Verify (steps : list FoldStep) (agg : AggregateProof) : result FoldError bool :=
  if negb (bool_decide (Scheme agg = SchemePedersenFoldV1)) then Err (ErrScheme (Scheme agg))
  else if negb (Steps agg =? Z.of_nat (length steps)) then Err (ErrStepCount (length steps) (Steps agg))
  else if negb (length (StepHashes agg) =? length steps)%nat
  then Err (ErrStepHashesLength (length (StepHashes agg)) (length steps))
  else
    let! acc := verify_loop 0 g1_identity steps (StepHashes agg) in
    if negb (bool_decide (hex_encode (affine_bytes acc) = Root agg)) then Err ErrFoldRootMismatch else Ok true.

Fixpoint fold_loop (i : nat) (f : PedersenFolder) (steps : list FoldStep) : result FoldError PedersenFolder :=
  match steps with
  | [] => Ok f
  | s :: steps =>
      match Fold f s with
      | Err e => Err (ErrFoldStep i e)
      | Ok f => fold_loop (S i) f steps
      end
  end.

Definition FoldAllPedersen (steps : list FoldStep) : result FoldError AggregateProof :=
  let! f := fold_loop 0 NewPedersenFolder steps in Compress f.

Definition VerifyAllPedersen (steps : list FoldStep) (agg : AggregateProof) : result FoldError bool := Verify steps agg.

(** The errors of the check: those of folding, an index out of range, a root that
    does not decode. *)
Inductive HomomorphismError := ErrSplit (split len : Z) | ErrFolding (e : FoldError) | ErrDecode.

Definition folding {A} (r : result FoldError A) : result HomomorphismError A :=
  match r with Ok a => Ok a | Err e => Err (ErrFolding e) end.

Definition root_point (agg : AggregateProof) : result HomomorphismError G1 :=
  match hex_decode (Root agg) with
  | None => Err ErrDecode
  | Some b => match affine_set_bytes b with None => Err ErrDecode | Some P => Ok P end
  end.

Definition PedersenHomomorphismCheck (steps : list FoldStep) (split : Z) : result HomomorphismError bool :=
  let n := Z.of_nat (length steps) in
  if (split <? 0) || (n <? split) then Err (ErrSplit split n)
  else
    let! whole := folding (FoldAllPedersen steps) in
    if (split =? 0) || (split =? n) then Ok true
    else
      let! lft := folding (FoldAllPedersen (take (Z.to_nat split) steps)) in
      let! rgt := folding (FoldAllPedersen (drop (Z.to_nat split) steps)) in
      let! la := root_point lft in
      let! ra := root_point rgt in
      Ok (bool_decide (hex_encode (affine_bytes (AddAssign la ra)) = Root whole)).

(** ** The sum the two loops compute *)

Definition total (dst : string) (part : FoldStep → bytes) (steps : list FoldStep) : Z :=
  foldr (λ s z, hashToFr dst (part s) + z) 0 steps.
Definition m_total : list FoldStep → Z := total "CP_PED_M_V1" Instance.
Definition r_total : list FoldStep → Z := total "CP_PED_R_V1" WitnessDigest.

(** The commitment to the two totals. *)
Definition commit (m r : Z) : G1 := AddAssign (ScalarMultiplication m pedersenG) (ScalarMultiplication r pedersenH).

(** The discrete logarithm of [H] that two openings of one commitment give. *)
Definition discrete_log (o m r m' r' : Z) : Z := (m - m') * inverse_mod o (r' - r).

End folder.

Section facts.
Context `{Hg : PedersenGroup} {Hl : PedersenLaws}.

Lemma gadd_id_r P : AddAssign P g1_identity = P.
Proof. rewrite add_assign_comm. apply add_assign_id. Qed.

Lemma gadd_swap P Q R S : AddAssign (AddAssign P Q) (AddAssign R S) = AddAssign (AddAssign P R) (AddAssign Q S).
Proof. rewrite !add_assign_assoc. f_equal. rewrite <- !add_assign_assoc. f_equal. apply add_assign_comm. Qed.

Lemma commit_add m r m' r' : commit (m + m') (r + r') = AddAssign (commit m r) (commit m' r').
Proof. unfold commit. by rewrite !mul_add, gadd_swap. Qed.

Lemma contribution_commit s : contribution s = commit (hashToFr "CP_PED_M_V1" (Instance s)) (hashToFr "CP_PED_R_V1" (WitnessDigest s)).
Proof. done. Qed.

Definition sum (acc : G1) (steps : list FoldStep) : G1 := foldl (λ a s, AddAssign a (contribution s)) acc steps.

Lemma sum_commit acc steps : sum acc steps = AddAssign acc (commit (m_total steps) (r_total steps)).
Proof.
  unfold sum. revert acc. induction steps as [|s steps IH]; intros acc; cbn [foldl].
  - unfold commit. cbn [m_total r_total total foldr]. by rewrite !mul_0, add_assign_id, gadd_id_r.
  - rewrite IH, contribution_commit. change (m_total (s :: steps)) with (hashToFr "CP_PED_M_V1" (Instance s) + m_total steps).
    change (r_total (s :: steps)) with (hashToFr "CP_PED_R_V1" (WitnessDigest s) + r_total steps).
    by rewrite commit_add, add_assign_assoc.
Qed.

Lemma fold_loop_ok i f steps :
  inittedP f = true → instances_ok steps →
  fold_loop i f steps = Ok {| accP := sum (accP f) steps; stepHashesP := stepHashesP f ++ step_hashes steps; inittedP := true |}.
Proof.
  intros Hf Hs. revert i f Hf. induction Hs as [|s steps Hs _ IH]; intros i f Hf; cbn [fold_loop].
  - destruct f as [a h b]. cbn in *. subst b. by rewrite app_nil_r.
  - unfold Fold. rewrite Hf. cbn [negb]. destruct (length (Instance s) =? 0)%nat eqn:E.
    { apply Nat.eqb_eq, nil_length_inv in E. done. }
    rewrite IH by done. cbn [accP stepHashesP]. by rewrite <- app_assoc.
Qed.

Lemma fold_all_ok steps :
  steps ≠ [] → instances_ok steps →
  FoldAllPedersen steps = Ok {| Scheme := SchemePedersenFoldV1; Steps := Z.of_nat (length steps);
    Root := hex_encode (affine_bytes (commit (m_total steps) (r_total steps))); StepHashes := step_hashes steps |}.
Proof.
  intros Hne Hs. unfold FoldAllPedersen. rewrite fold_loop_ok by done. cbn [result_bind]. unfold Compress.
  cbn [inittedP stepHashesP accP NewPedersenFolder app negb]. unfold step_hashes. rewrite length_fmap.
  destruct steps as [|s steps]; [done|]. cbn [length Nat.eqb]. by rewrite sum_commit, add_assign_id.
Qed.

Lemma fold_all_inv steps agg : FoldAllPedersen steps = Ok agg → steps ≠ [] ∧ instances_ok steps.
Proof.
  unfold FoldAllPedersen. intros H. split.
  - intros ->. done.
  - apply result_bind_ok in H as (f & H & _). revert H. generalize 0%nat NewPedersenFolder.
    induction steps as [|s steps IH]; intros i g H; [constructor|]. cbn [fold_loop] in H. unfold Fold in H.
    destruct (negb _); [done|]. destruct (length (Instance s) =? 0)%nat eqn:E; [done|].
    constructor; [|by eapply IH]. intros Hn. by rewrite Hn in E.
Qed.

Lemma verify_loop_ok i acc steps hashes acc' :
  length hashes = length steps →
  verify_loop i acc steps hashes = Ok acc' ↔ instances_ok steps ∧ hashes = step_hashes steps ∧ acc' = sum acc steps.
Proof.
  revert i acc hashes. induction steps as [|s steps IH]; intros i acc [|h hashes] Hlen; try done.
  - cbn. split; [intros [= <-]; split_and!; [constructor|done|done]|by intros (_ & _ & ->)].
  - cbn [verify_loop]. injection Hlen as Hlen. destruct (length (Instance s) =? 0)%nat eqn:E.
    { apply Nat.eqb_eq, nil_length_inv in E. split; [done|]. intros (Hi & _). by inversion Hi. }
    assert (Instance s ≠ []) as Hne by (intros Hn; by rewrite Hn in E).
    case_bool_decide as Eh; cbn [negb].
    + rewrite IH by done. subst h. split.
      * intros (Hi & -> & ->). split_and!; [by constructor|done|done].
      * intros (Hi & Hh & ->). inversion Hi; subst. by injection Hh as ->.
    + split; [done|]. intros (_ & Hh & _). by injection Hh as -> _.
Qed.

(** Verifying is folding again: the stateless verifier accepts exactly what the
    folder makes of the steps. *)
Lemma verify_iff_fold steps agg :
  steps ≠ [] → VerifyAllPedersen steps agg = Ok true ↔ FoldAllPedersen steps = Ok agg.
Proof.
  intros Hne. unfold VerifyAllPedersen, Verify. split.
  - case_bool_decide as Es; [|done]. cbn [negb]. destruct (Z.eqb_spec (Steps agg) (Z.of_nat (length steps))) as [En|]; [|done].
    destruct (Nat.eqb_spec (length (StepHashes agg)) (length steps)) as [El|]; [|done]. cbn [negb].
    destruct (verify_loop _ _ _ _) as [acc|] eqn:Ev; [|done]. cbn [result_bind]. case_bool_decide as Er; [|done]. intros _.
    apply verify_loop_ok in Ev as (Hi & Hh & ->); [|done]. rewrite fold_all_ok by done. rewrite sum_commit, add_assign_id in Er.
    destruct agg. cbn in *. by subst.
  - intros H. destruct (fold_all_inv _ _ H) as [_ Hi]. rewrite fold_all_ok in H by done. injection H as <-.
    cbn [Scheme Steps StepHashes Root]. rewrite bool_decide_true by done. cbn [negb]. rewrite Z.eqb_refl. cbn [negb].
    unfold step_hashes. rewrite length_fmap, Nat.eqb_refl. cbn [negb].
    rewrite (proj2 (verify_loop_ok 0 g1_identity steps _ _ (length_fmap _ _)) (conj Hi (conj eq_refl eq_refl))).
    cbn [result_bind]. by rewrite sum_commit, add_assign_id, bool_decide_true.
Qed.

Lemma root_point_commit s n m r h :
  root_point {| Scheme := s; Steps := n; Root := hex_encode (affine_bytes (commit m r)); StepHashes := h |} = Ok (commit m r).
Proof. unfold root_point. cbn [Root]. by rewrite hex_decode_encode, affine_set_bytes_bytes. Qed.

Lemma total_app dst part a b : total dst part (a ++ b) = total dst part a + total dst part b.
Proof. unfold total. induction a as [|s a IH]; [done|]. cbn. unfold total in IH. rewrite IH. lia. Qed.

(** The homomorphism check never fails on what can be folded. *)
Lemma homomorphism_check steps agg split :
  FoldAllPedersen steps = Ok agg → 0 <= split <= Z.of_nat (length steps) → PedersenHomomorphismCheck steps split = Ok true.
Proof.
  intros Hf Hs. destruct (fold_all_inv _ _ Hf) as [Hne Hi]. unfold PedersenHomomorphismCheck.
  assert ((split <? 0) || (Z.of_nat (length steps) <? split) = false) as -> by lia. rewrite Hf. cbn [folding result_bind].
  destruct ((split =? 0) || (split =? Z.of_nat (length steps))) eqn:E; [done|].
  assert (take (Z.to_nat split) steps ≠ []) as H1 by (intros H; apply (f_equal length) in H; rewrite length_take in H; cbn in H; lia).
  assert (drop (Z.to_nat split) steps ≠ []) as H2 by (intros H; apply (f_equal length) in H; rewrite length_drop in H; cbn in H; lia).
  rewrite fold_all_ok by (done || by apply Forall_take). cbn [folding result_bind].
  rewrite fold_all_ok by (done || by apply Forall_drop). cbn [folding result_bind].
  rewrite !root_point_commit. cbn [result_bind]. rewrite fold_all_ok in Hf by done. injection Hf as <-. cbn [Root].
  rewrite bool_decide_true; [done|]. rewrite <- commit_add. unfold m_total, r_total. by rewrite <- !total_app, take_drop.
Qed.

Lemma mul_mod a P : ScalarMultiplication (a mod fr_order) P = ScalarMultiplication a P.
Proof.
  rewrite (Z_div_mod_eq_full a fr_order) at 2.
  rewrite mul_add, (Z.mul_comm fr_order), mul_mul, mul_order.
  assert (∀ z, ScalarMultiplication z g1_identity = g1_identity) as ->; [|by rewrite add_assign_id].
  intros z. rewrite <- (mul_0 pedersenG), <- mul_mul. by rewrite Z.mul_0_r.
Qed.

Lemma mul_congruent a b P : (a - b) mod fr_order = 0 → ScalarMultiplication a P = ScalarMultiplication b P.
Proof.
  intros H. pose proof (prime_ge_2 _ fr_order_prime). rewrite <- (mul_mod a), <- (mul_mod b). f_equal.
  replace a with (a - b + b) by lia. by rewrite Z.add_mod, H, Z.add_0_l, Z.mod_mod by lia.
Qed.

(** Two openings of one commitment: [(m - m')*G = (r' - r)*H]. *)
Lemma commit_equal m r m' r' :
  commit m r = commit m' r' → ScalarMultiplication (m - m') pedersenG = ScalarMultiplication (r' - r) pedersenH.
Proof.
  unfold commit. intros E. apply (f_equal (λ X, AddAssign X (commit (- m') (- r)))) in E. unfold commit in E.
  rewrite (gadd_swap (ScalarMultiplication m _)), (gadd_swap (ScalarMultiplication m' _)), <- !mul_add in E.
  rewrite Z.add_opp_diag_r, (Z.add_opp_diag_r m'), !mul_0, add_assign_id, gadd_id_r in E.
  by rewrite <- !Z.add_opp_r.
Qed.

Lemma openings_log m r m' r' :
  commit m r = commit m' r' →
  ((m - m') mod fr_order = 0 ∧ (r - r') mod fr_order = 0)
  ∨ pedersenH = ScalarMultiplication (discrete_log fr_order m r m' r') pedersenG.
Proof.
  intros E%commit_equal. pose proof (prime_ge_2 _ fr_order_prime) as Hq.
  destruct (decide ((r' - r) mod fr_order = 0)) as [Hr|Hr].
  - left. assert ((r - r') mod fr_order = 0) as Hr' by (apply Z.mod_divide in Hr as [k Hk]; [apply Z.mod_divide; [lia|exists (- k); lia]|lia]).
    split; [|done]. destruct (decide ((m - m') mod fr_order = 0)) as [|Hm]; [done|exfalso]. apply pedersenG_nonzero.
    rewrite (mul_congruent (r' - r) 0), mul_0 in E by (by rewrite Z.sub_0_r).
    rewrite <- (mul_1 pedersenG), (mul_congruent 1 (inverse_mod fr_order (m - m') * (m - m'))), mul_mul, E.
    + rewrite <- (mul_0 pedersenG), <- mul_mul. by rewrite Z.mul_0_r.
    + pose proof (inverse_mod_spec _ _ fr_order_prime Hm) as Hi. rewrite Zminus_mod, Hi. rewrite (Z.mod_small 1) by lia. done.
  - right. unfold discrete_log. rewrite Z.mul_comm, mul_mul, E, <- mul_mul.
    rewrite <- (mul_1 pedersenH) at 1. apply mul_congruent.
    pose proof (inverse_mod_spec _ _ fr_order_prime Hr) as Hi. rewrite Zminus_mod, Hi. rewrite (Z.mod_small 1) by lia. done.
Qed.

(** The root binds the totals of the two scalars: when the proofs of two step
    lists have one root, the totals are equal modulo the group order, or
    [discrete_log] computes the logarithm of [H] to the base [G]. *)
Theorem pedersen_binding steps steps' agg agg' :
  FoldAllPedersen steps = Ok agg → FoldAllPedersen steps' = Ok agg' → Root agg = Root agg' →
  ((m_total steps - m_total steps') mod fr_order = 0 ∧ (r_total steps - r_total steps') mod fr_order = 0)
  ∨ pedersenH = ScalarMultiplication (discrete_log fr_order (m_total steps) (r_total steps) (m_total steps') (r_total steps')) pedersenG.
Proof.
  intros H H' E. destruct (fold_all_inv _ _ H) as [Hn Hi], (fold_all_inv _ _ H') as [Hn' Hi'].
  rewrite fold_all_ok in H, H' by done. injection H as <-. injection H' as <-. cbn [Root] in E. apply hex_encode_inj in E.
  apply openings_log. apply (inj Some). by rewrite <- !affine_set_bytes_bytes, E.
Qed.

(** Folding and verifying agree on non-empty step lists, the homomorphism check
    succeeds at every split of what can be folded, and the order of the steps does
    not show in the root. *)
Theorem pedersen_fold_verify steps agg :
  steps ≠ [] →
  (VerifyAllPedersen steps agg = Ok true ↔ FoldAllPedersen steps = Ok agg)
  ∧ (FoldAllPedersen steps = Ok agg →
     (∀ split, 0 <= split <= Z.of_nat (length steps) → PedersenHomomorphismCheck steps split = Ok true)
     ∧ ∀ steps', steps' ≡ₚ steps → ∃ agg', FoldAllPedersen steps' = Ok agg' ∧ Root agg' = Root agg).
Proof.
  intros Hne. split; [by apply verify_iff_fold|]. intros Hf. split; [intros split Hs; by eapply homomorphism_check|].
  intros steps' Hp. destruct (fold_all_inv _ _ Hf) as [_ Hi]. eexists. split.
  - apply fold_all_ok; [intros ->; by apply Permutation_nil_l in Hp|]. unfold instances_ok. by rewrite Hp.
  - rewrite fold_all_ok in Hf by done. injection Hf as <-. cbn [Root].
    assert (∀ dst part, total dst part steps' = total dst part steps) as Ht.
    { intros dst part. unfold total. clear -Hp. induction Hp; cbn; lia. }
    unfold m_total, r_total. by rewrite !Ht.
Qed.
End facts.

(** ** A sample: the integers modulo 101 *)

Section sample.
Import Toy.

#[local] Instance toy_pedersen : PedersenGroup := {|
  G1 := residue 101; g1_identity := reduce101 0;
  AddAssign P Q := reduce101 (proj1_sig P + proj1_sig Q);
  ScalarMultiplication z P := reduce101 (z * proj1_sig P);
  pedersenG := reduce101 1; pedersenH := reduce101 7;
  affine_bytes P := le_bytes 48 (proj1_sig P);
  affine_set_bytes b := of_length 48 b (reduce101 (le_value b));
  fr_set_bytes b := le_value b mod 101 |}.

#[local] Arguments of_length : simpl never.
#[local] Arguments le_bytes : simpl never.
#[local] Arguments le_value : simpl never.

#[local] Instance toy_pedersen_laws : PedersenLaws.
Proof.
  refine {| fr_order := 101 |}; intros; try apply residue_eq; cbn.
  - apply prime_101.
  - rewrite Z.add_mod_idemp_r, Z.add_mod_idemp_l by lia. f_equal. lia.
  - f_equal. lia.
  - apply Z.mod_small, residue_range.
  - done.
  - rewrite Z.mul_1_l. apply Z.mod_small, residue_range.
  - rewrite Z.add_mod_idemp_r, Z.add_mod_idemp_l by lia. f_equal. lia.
  - rewrite Z.mul_mod_idemp_r by lia. f_equal. lia.
  - rewrite Z.mul_comm. by apply Z.mod_mul.
  - intros E. by apply (f_equal (@proj1_sig Z _)) in E.
  - rewrite of_length_some by apply length_le_bytes. f_equal. apply residue_eq. cbn. pose proof (residue_range _ P).
    rewrite le_value_bytes by (change (256 ^ Z.of_nat 48) with (2 ^ 384); lia). by apply Z.mod_small.
Qed.

Definition ex_steps2 : list FoldStep :=
  [{| Instance := bytes_of "a"; WitnessDigest := bytes_of "w" |}; {| Instance := bytes_of "b"; WitnessDigest := [] |}].
Definition ex_agg : AggregateProof :=
  match FoldAllPedersen ex_steps2 with Ok a => a | Err _ => {| Scheme := ""; Steps := 0; Root := ""; StepHashes := [] |} end.

Lemma ex_fold : FoldAllPedersen ex_steps2 = Ok ex_agg.
Proof. vm_compute. reflexivity. Qed.

Lemma pedersen_binding_witness :
  (m_total ex_steps2 - m_total ex_steps2) mod fr_order = 0 ∧ (r_total ex_steps2 - r_total ex_steps2) mod fr_order = 0
  ∨ pedersenH = ScalarMultiplication (discrete_log fr_order (m_total ex_steps2) (r_total ex_steps2) (m_total ex_steps2) (r_total ex_steps2)) pedersenG.
Proof. exact (pedersen_binding ex_steps2 ex_steps2 ex_agg ex_agg ex_fold ex_fold eq_refl). Defined.

Lemma pedersen_fold_verify_witness :
  VerifyAllPedersen ex_steps2 ex_agg = Ok true ∧ PedersenHomomorphismCheck ex_steps2 1 = Ok true.
Proof.
  destruct (pedersen_fold_verify ex_steps2 ex_agg ltac:(discriminate)) as [Hiff Hf]. split.
  - apply Hiff, ex_fold.
  - apply (proj1 (Hf ex_fold)). cbn. lia.
Defined.

(** The verifier accepts the empty list under the identity, which the folder
    refuses to make. *)
Lemma ex_empty :
  FoldAllPedersen [] = Err ErrNoSteps
  ∧ VerifyAllPedersen [] {| Scheme := SchemePedersenFoldV1; Steps := 0; Root := hex_encode (affine_bytes g1_identity); StepHashes := [] |}
    = Ok true.
Proof. split; vm_compute; reflexivity. Qed.
End sample.
