(* ===== verification/Verifier.v ===== *)
(** * The local verifier ([engine/internal/verifier/local.go])

    [LocalVerifier] over the proofs of Engine.v and the paths of Merkle.v. *)

From S2P Require Import Prelude GoLib Sha256 Merkle Engine.

Local Open Scope Z_scope.

Inductive VerifierError :=
| NilProof
| ProofRevoked (id : string)
| ProofInvalid (id : string)
| InputHashMismatch (got want : string)
| OutputHashMismatch
| ModelHashMismatch
| ProofHashMismatch
| MerklePathInvalid.

Definition VerifyProof (op : option Proof) (input output model : bytes) : result VerifierError () :=
  match op with
  | None => Err NilProof
  | Some p =>
      if Revoked p then Err (ProofRevoked (PID p))
      else if negb (Valid p) then Err (ProofInvalid (PID p))
      else if negb (bool_decide (HexHash input = IH p)) then Err (InputHashMismatch (HexHash input) (IH p))
      else if negb (bool_decide (HexHash output = OH p)) then Err OutputHashMismatch
      else if negb (bool_decide (HexHash model = MH p)) then Err ModelHashMismatch
      else if negb (bool_decide (CommitHash input output model = PH p)) then Err ProofHashMismatch
      else if negb (bool_decide (PRoot p = ""%string)) && (0 <? Z.of_nat (length (PPath p)))
              && negb (VerifyPath input (PPath p) (PRoot p) (Idx p))
      then Err MerklePathInvalid
      else Ok ()
  end.

Definition QuickCheck (ph : string) (input output model : bytes) : bool := bool_decide (CommitHash input output model = ph).

Definition ValidateHash (h : string) : bool :=
  match hex_decode h with Some b => (length b =? 32)%nat | None => false end.

(** ** Facts *)

Lemma VerifyProof_ok p i o m :
  VerifyProof (Some p) i o m = Ok () ↔
  Revoked p = false ∧ Valid p = true ∧ HexHash i = IH p ∧ HexHash o = OH p ∧ HexHash m = MH p ∧ CommitHash i o m = PH p
  ∧ (PRoot p = ""%string ∨ PPath p = [] ∨ VerifyPath i (PPath p) (PRoot p) (Idx p) = true).
Proof.
  unfold VerifyProof. destruct (Revoked p); [naive_solver|]. destruct (Valid p); cbn [negb]; [|naive_solver].
  case_bool_decide as H1; cbn [negb]; [|naive_solver]. case_bool_decide as H2; cbn [negb]; [|naive_solver].
  case_bool_decide as H3; cbn [negb]; [|naive_solver]. case_bool_decide as H4; cbn [negb]; [|naive_solver].
  case_bool_decide as H5; cbn [negb andb]; [by rewrite H5; naive_solver|].
  destruct (PPath p) as [|x path] eqn:Ep; [cbn; naive_solver|]. cbn [length].
  rewrite (proj2 (Z.ltb_lt _ _)) by lia. cbn [andb]. destruct (VerifyPath _ _ _ _); cbn [negb]; naive_solver.
Qed.

(** The pair of data whose hashes the acceptance of two inputs compares. *)
Definition data_collision (i o m i' o' m' : bytes) : bytes * bytes :=
  if decide (i = i') then if decide (o = o') then (m, m') else (o, o') else (i, i').

Lemma HexHash_collision x y : HexHash x = HexHash y → x ≠ y → is_collision (x, y).
Proof. intros H%hex_encode_inj Hne. done. Qed.

Lemma verify_binding_forwarded p i o m i' o' m' :
  VerifyProof (Some p) i o m = Ok () → VerifyProof (Some p) i' o' m' = Ok () →
  (i = i' ∧ o = o' ∧ m = m') ∨ is_collision (data_collision i o m i' o' m').
Proof.
  intros (_ & _ & H1 & H2 & H3 & _)%VerifyProof_ok (_ & _ & H1' & H2' & H3' & _)%VerifyProof_ok. unfold data_collision.
  destruct (decide (i = i')) as [->|Hi]; [|right; apply HexHash_collision; congruence].
  destruct (decide (o = o')) as [->|Ho]; [|right; apply HexHash_collision; congruence].
  destruct (decide (m = m')) as [->|Hm]; [by left|right; apply HexHash_collision; congruence].
Qed.

Lemma Generate_hashes e elapsed now agent pk i o m uc mode e' p :
  GenerateWithKey e elapsed now agent pk i o m uc mode = Some (e', p) → IH p = HexHash i ∧ OH p = HexHash o ∧ MH p = HexHash m.
Proof. unfold GenerateWithKey. destruct (Root _); [|done]. cbn. intros E. apply Some_inj in E. injection E as _ <-. done. Qed.

(** A proof that the engine generates is accepted with its data; what is
    accepted for it is that data, or exhibits a SHA-256 collision; and once it is
    revoked nothing is. *)
Theorem generated_proof_binds e elapsed now agent pk i o m uc mode e' p :
  GenerateWithKey e elapsed now agent pk i o m uc mode = Some (e', p) →
  VerifyProof (Some p) i o m = Ok ()
  ∧ (∀ i' o' m', VerifyProof (Some p) i' o' m' = Ok () →
       (i = i' ∧ o = o' ∧ m = m') ∨ is_collision (data_collision i o m i' o' m'))
  ∧ ∀ e'', Revoke e' (PID p) = Ok e'' →
      ∃ q, GetProof e'' (PID p) = Some q ∧ ∀ i' o' m', VerifyProof (Some q) i' o' m' = Err (ProofRevoked (PID p)).
Proof.
  intros Hg. pose proof (Generate_hashes _ _ _ _ _ _ _ _ _ _ _ _ Hg) as (H1 & H2 & H3).
  pose proof (Generate_shape _ _ _ _ _ _ _ _ _ _ _ _ Hg) as (Hr & Hp & Hi & Hph & Hv & Hrev & _ & _ & _).
  assert (VerifyProof (Some p) i o m = Ok ()) as Hok.
  { apply VerifyProof_ok. split_and!; [done|done|done|done|done|done|]. right. right. rewrite Hp, Hi.
    apply VerifyPath_GetPath with (leaves := [i; o; m]); [done|done|done]. }
  split; [done|]. split; [intros i' o' m'; by apply verify_binding_forwarded|].
  intros e'' He. unfold Revoke in He. destruct (proofs e' !! PID p) as [q|] eqn:Eq; [|done].
  destruct (Revoked q); [done|]. injection He as <-. exists (revoke_proof q). split; [apply lookup_insert_eq|].
  intros i' o' m'. unfold VerifyProof. cbn [Revoked revoke_proof PID]. do 2 f_equal.
  pose proof (Generate_shape _ _ _ _ _ _ _ _ _ _ _ _ Hg) as (_ & _ & _ & _ & _ & _ & Hpid & _ & Hps).
  rewrite Hps, Hpid, lookup_insert_eq in Eq. apply Some_inj in Eq. by subst q.
Qed.

Lemma generated_proof_binds_witness :
  ∃ e' p, GenerateWithKey New 0 0 "a" "" [Byte.x01] [Byte.x02] [Byte.x03] "kyc" "" = Some (e', p)
    ∧ VerifyProof (Some p) [Byte.x01] [Byte.x02] [Byte.x03] = Ok ().
Proof.
  destruct (GenerateWithKey New 0 0 "a" "" [Byte.x01] [Byte.x02] [Byte.x03] "kyc" "") as [[e' p]|] eqn:E.
  - exists e', p. split; [reflexivity|].
    exact (proj1 (generated_proof_binds New 0 0 "a" "" [Byte.x01] [Byte.x02] [Byte.x03] "kyc" "" e' p E)).
  - vm_compute in E. discriminate E.
Defined.

(** [QuickCheck] looks only at the concatenation. *)
Lemma QuickCheck_boundary :
  QuickCheck (CommitHash (bytes_of "ab") (bytes_of "c") []) (bytes_of "a") (bytes_of "bc") [] = true.
Proof. apply bool_decide_true. reflexivity. Qed.

Lemma ValidateHash_HexHash x : ValidateHash (HexHash x) = true.
Proof. unfold ValidateHash, HexHash. by rewrite hex_decode_encode, length_sha256. Qed.
