(* ===== verification/ModelReg.v ===== *)
(** * Model registry ([engine/internal/model/registry.go])

    [Registry] with registration, lookup, attestation, deprecation, revocation,
    search and statistics. Every method is one critical section. The clock, the
    drawn identifiers and the iteration order of the model map are arguments.
    Entries are values: the pointers handed out are only read by the callers. *)

From S2P Require Import Prelude GoLib Sha256.

Local Open Scope Z_scope.

(** ** Data *)

Record ModelVersion := { Major : Z; Minor : Z; Patch : Z }.
Definition ModelVersion_String (v : ModelVersion) : string :=
  (itoa (Major v) +:+ "." +:+ itoa (Minor v) +:+ "." +:+ itoa (Patch v))%string.

Inductive ModelStatus := StatusActive | StatusDeprecated | StatusRevoked.
#[export] Instance ModelStatus_eq_decision : EqDecision ModelStatus.
Proof. solve_decision. Defined.

Record ModelEntry := {
  MID : string; Name : string; MHash : string; Owner : string; Version : ModelVersion; IPFSCID : string;
  InputSchema : string; OutputSchema : string; RegisteredAt : time; UpdatedAt : time; Status : ModelStatus;
  AttestationCount : Z; LastAttestationAt : option time }.

Record ModelAttestation := {
  AModelID : string; AttesterID : string; AHash : string; ATimestamp : time; AValid : bool; AEvidence : string }.

Record Registry := {
  models : gmap string ModelEntry; attestations : gmap string (list ModelAttestation); byHash : gmap string string }.

Definition New : Registry := {| models := ∅; attestations := ∅; byHash := ∅ |}.

Definition ComputeModelHash (architecture weights hyperparams : bytes) : string :=
  hex_encode (sha256 (architecture ++ weights ++ hyperparams)).

(** ** Registration *)

Inductive RegistryError :=
| ErrRequired | ErrHashFormat | ErrNameTooLong | ErrHashExists | ErrNotFound | ErrNotActive.

(** [^[a-f0-9]{64}$] *)
Definition hexHashRe (h : string) : bool :=
  (String.length h =? 64)%nat && string_forall (λ c, ascii_in 97 102 c || ascii_in 48 57 c) h.

(** The first drawn identifier that is free. *)
Fixpoint fresh_id (m : gmap string ModelEntry) (ids : list string) : option string :=
  match ids with
  | [] => None
  | id :: ids => match m !! id with Some _ => fresh_id m ids | None => Some id end
  end.

Definition new_entry (id name owner hash ipfsCID : string) (schema : list string) (now : time) : ModelEntry :=
  {| MID := id; Name := name; MHash := hash; Owner := owner; Version := {| Major := 0; Minor := 0; Patch := 0 |};
     IPFSCID := ipfsCID; InputSchema := default ""%string (schema !! 0%nat); OutputSchema := default ""%string (schema !! 1%nat);
     RegisteredAt := now; UpdatedAt := now; Status := StatusActive; AttestationCount := 0; LastAttestationAt := None |}.

(** [None]: no drawn identifier is free, the loop goes on. *)
Definition Register (r : Registry) (ids : list string) (now : time) (name owner hash ipfsCID : string) (schema : list string)
    : option (result RegistryError (Registry * ModelEntry)) :=
  if bool_decide (name = ""%string) || bool_decide (owner = ""%string) || bool_decide (hash = ""%string) then Some (Err ErrRequired)
  else if negb (hexHashRe hash) then Some (Err ErrHashFormat)
  else if (256 <? Z.of_nat (String.length name)) then Some (Err ErrNameTooLong)
  else match byHash r !! hash with
       | Some _ => Some (Err ErrHashExists)
       | None =>
           match fresh_id (models r) ids with
           | None => None
           | Some id =>
               let m := new_entry id name owner hash ipfsCID schema now in
               Some (Ok ({| models := <[id := m]> (models r); attestations := attestations r; byHash := <[hash := id]> (byHash r) |}, m))
           end
       end.

(** ** Lookup *)

Definition Get (r : Registry) (id : string) : option ModelEntry := models r !! id.

Definition GetByHash (r : Registry) (hash : string) : option ModelEntry :=
  match byHash r !! hash with None => None | Some id => models r !! id end.

Definition VerifyIntegrity (r : Registry) (id candidateHash : string) : bool :=
  match models r !! id with None => false | Some m => bool_decide (MHash m = candidateHash) end.

(** ** Attestation and status *)

Definition attested (m : ModelEntry) (now : time) : ModelEntry :=
  {| MID := MID m; Name := Name m; MHash := MHash m; Owner := Owner m; Version := Version m; IPFSCID := IPFSCID m;
     InputSchema := InputSchema m; OutputSchema := OutputSchema m; RegisteredAt := RegisteredAt m; UpdatedAt := now;
     Status := Status m; AttestationCount := AttestationCount m + 1; LastAttestationAt := Some now |}.

Definition Attest (r : Registry) (now : time) (modelID attesterID evidence : string)
    : result RegistryError (Registry * ModelAttestation) :=
  match models r !! modelID with
  | None => Err ErrNotFound
  | Some m =>
      if negb (bool_decide (Status m = StatusActive)) then Err ErrNotActive
      else
        let a := {| AModelID := modelID; AttesterID := attesterID; AHash := MHash m; ATimestamp := now; AValid := true; AEvidence := evidence |} in
        Ok ({| models := <[modelID := attested m now]> (models r);
               attestations := <[modelID := default [] (attestations r !! modelID) ++ [a]]> (attestations r);
               byHash := byHash r |}, a)
  end.

Definition ListAttestations (r : Registry) (modelID : string) : list ModelAttestation := default [] (attestations r !! modelID).

Definition with_status (m : ModelEntry) (st : ModelStatus) (now : time) : ModelEntry :=
  {| MID := MID m; Name := Name m; MHash := MHash m; Owner := Owner m; Version := Version m; IPFSCID := IPFSCID m;
     InputSchema := InputSchema m; OutputSchema := OutputSchema m; RegisteredAt := RegisteredAt m; UpdatedAt := now;
     Status := st; AttestationCount := AttestationCount m; LastAttestationAt := LastAttestationAt m |}.

Definition setStatus (r : Registry) (now : time) (modelID : string) (st : ModelStatus) : result RegistryError Registry :=
  match models r !! modelID with
  | None => Err ErrNotFound
  | Some m => Ok {| models := <[modelID := with_status m st now]> (models r); attestations := attestations r; byHash := byHash r |}
  end.

(** The reason is not used. *)
Definition Deprecate (r : Registry) (now : time) (modelID reason : string) := setStatus r now modelID StatusDeprecated.
Definition Revoke (r : Registry) (now : time) (modelID reason : string) := setStatus r now modelID StatusRevoked.

(** ** Queries; [order] is the iteration order of the models *)

Definition ListByOwner (order : list ModelEntry) (owner : string) : list ModelEntry :=
  List.filter (λ m, bool_decide (Owner m = owner)) order.

Definition search_hit (q : string) (m : ModelEntry) : bool := has_prefix (to_lower (Name m)) q || has_prefix (MHash m) q.
Definition name_less (a b : ModelEntry) : bool := string_ltb (Name a) (Name b).
Definition Search (order : list ModelEntry) (query : string) : list ModelEntry :=
  sort_slice name_less (List.filter (search_hit (to_lower query)) order).

Definition status_count (r : Registry) (st : ModelStatus) : Z := map_count (λ m, bool_decide (Status m = st)) (models r).
Definition total_attestations (r : Registry) : Z :=
  foldr (λ a z, Z.of_nat (length a) + z) 0 (snd <$> map_to_list (attestations r)).
(** [Stats]: total models, total attestations, models by status. *)
Definition Stats (r : Registry) : Z * Z * (ModelStatus → Z) :=
  (Z.of_nat (size (models r)), total_attestations r, status_count r).

(** ** The registry as a state machine *)

Inductive registry_step : Registry → Registry → Prop :=
| step_register r ids now name owner hash cid schema r' m :
    Register r ids now name owner hash cid schema = Some (Ok (r', m)) → registry_step r r'
| step_attest r now id attester evidence r' a : Attest r now id attester evidence = Ok (r', a) → registry_step r r'
| step_deprecate r now id reason r' : Deprecate r now id reason = Ok r' → registry_step r r'
| step_revoke r now id reason r' : Revoke r now id reason = Ok r' → registry_step r r'.

Definition reachable : Registry → Prop := rtc registry_step New.

Record registry_ok (r : Registry) : Prop := {
  ok_index h id : byHash r !! h = Some id ↔ ∃ m, models r !! id = Some m ∧ MHash m = h;
  ok_entry id m : models r !! id = Some m → MID m = id ∧ hexHashRe (MHash m) = true
    ∧ AttestationCount m = Z.of_nat (length (ListAttestations r id));
  ok_attest id l : attestations r !! id = Some l →
    ∃ m, models r !! id = Some m ∧ Forall (λ a, AModelID a = id ∧ AHash a = MHash m ∧ AValid a = true) l }.

Lemma fresh_id_spec m ids id : fresh_id m ids = Some id → m !! id = None ∧ id ∈ ids.
Proof.
  induction ids as [|x ids IH]; [done|]. cbn. destruct (m !! x) eqn:E.
  - intros [H1 H2]%IH. split; [done|by right].
  - intros [= ->]. split; [done|left].
Qed.

(** The loop ends with the first free identifier drawn. *)
Lemma fresh_id_total m ids : (∃ id, id ∈ ids ∧ m !! id = None) → is_Some (fresh_id m ids).
Proof.
  intros (id & Hin & Hid). induction ids as [|x ids IH]; [by apply elem_of_nil in Hin|]. cbn.
  destruct (m !! x) eqn:E; [|eauto]. apply IH. apply elem_of_cons in Hin as [->|]; [congruence|done].
Qed.

Lemma Register_ok r ids now name owner hash cid schema r' m :
  Register r ids now name owner hash cid schema = Some (Ok (r', m)) →
  hexHashRe hash = true ∧ byHash r !! hash = None ∧ models r !! MID m = None ∧ MHash m = hash
  ∧ m = new_entry (MID m) name owner hash cid schema now
  ∧ r' = {| models := <[MID m := m]> (models r); attestations := attestations r; byHash := <[hash := MID m]> (byHash r) |}.
Proof.
  unfold Register. destruct (_ || _); [done|]. destruct (hexHashRe hash); [cbn [negb]|done]. destruct (256 <? _); [done|].
  destruct (byHash r !! hash) eqn:Eh; [done|]. destruct (fresh_id (models r) ids) as [id|] eqn:Ei; [|done].
  apply fresh_id_spec in Ei as [Ei _]. intros E. injection E as <- <-. done.
Qed.

Lemma registry_ok_new : registry_ok New.
Proof. split; cbn; [|by intros ? ? ?%lookup_empty_Some..]. intros h id. rewrite lookup_empty. split; [done|]. by intros (? & ? & _). Qed.

(** An update of one entry that keeps its hash. *)
Lemma index_update (r : Registry) id (m m' : ModelEntry) h i :
  models r !! id = Some m → MHash m' = MHash m →
  (∃ x, <[id := m']> (models r) !! i = Some x ∧ MHash x = h) ↔ (∃ x, models r !! i = Some x ∧ MHash x = h).
Proof.
  intros Hm Hh. destruct (decide (i = id)) as [->|Hne].
  - split; intros (x & Hx & <-).
    + rewrite lookup_insert_eq in Hx. apply Some_inj in Hx. subst x. by exists m.
    + exists m'. rewrite lookup_insert_eq. split; [done|]. congruence.
  - split; intros (x & Hx & Hxh); exists x; [rewrite lookup_insert_ne in Hx by done|rewrite lookup_insert_ne by done]; done.
Qed.

Lemma registry_ok_register r ids now name owner hash cid schema r' m :
  Register r ids now name owner hash cid schema = Some (Ok (r', m)) → registry_ok r → registry_ok r'.
Proof.
  intros (Hre & Hh & Hid & Hmh & Hm & ->)%Register_ok [H1 H2 H3]. split; cbn [models attestations byHash].
  - intros h id. destruct (decide (h = hash)) as [->|Hne].
    + rewrite lookup_insert_eq. split.
      * intros [= <-]. exists m. by rewrite lookup_insert_eq.
      * intros (x & Hx & Hxh). destruct (decide (id = MID m)) as [->|Hne]; [done|].
        rewrite lookup_insert_ne in Hx by done. assert (byHash r !! hash = Some id) by (apply H1; eauto). congruence.
    + rewrite (lookup_insert_ne (byHash r)) by done. rewrite H1. destruct (decide (id = MID m)) as [->|Hni].
      * split; intros (x & Hx & Hxh); [congruence|]. rewrite lookup_insert_eq in Hx. apply Some_inj in Hx. congruence.
      * split; intros (x & Hx & Hxh); exists x; [rewrite lookup_insert_ne by done|rewrite lookup_insert_ne in Hx by done]; done.
  - intros id x. destruct (decide (id = MID m)) as [->|Hne].
    + rewrite lookup_insert_eq. intros [= <-]. split_and!; [done|by rewrite Hmh|].
      assert (AttestationCount m = 0) as -> by by rewrite Hm. unfold ListAttestations. cbn [attestations].
      destruct (attestations r !! MID m) as [l|] eqn:El; [|done]. apply H3 in El as (y & Hy & _). congruence.
    + rewrite lookup_insert_ne by done. apply H2.
  - intros id l Hl. destruct (H3 id l Hl) as (x & Hx & HF). exists x. split; [|done].
    rewrite lookup_insert_ne; [done|]. congruence.
Qed.

Lemma registry_ok_attest r now id attester evidence r' a :
  Attest r now id attester evidence = Ok (r', a) → registry_ok r → registry_ok r'.
Proof.
  unfold Attest. destruct (models r !! id) as [m|] eqn:Em; [|done]. destruct (negb _); [done|]. intros E [H1 H2 H3].
  injection E as <- <-. split; cbn [models attestations byHash].
  - intros h i. rewrite H1. symmetry. by apply (index_update r id m).
  - intros i x. unfold ListAttestations. cbn [attestations]. destruct (decide (i = id)) as [->|Hne].
    + rewrite !lookup_insert_eq. intros [= <-]. simpl. destruct (H2 id m Em) as (H2a & H2b & H2c).
      split_and!; [done..|]. rewrite length_app. simpl. unfold ListAttestations in H2c. lia.
    + rewrite !lookup_insert_ne by done. apply H2.
  - intros i l. destruct (decide (i = id)) as [->|Hne].
    + rewrite !lookup_insert_eq. intros [= <-]. eexists. split; [done|]. cbn [MHash attested]. apply Forall_app. split; [|by repeat constructor].
      destruct (attestations r !! id) as [l|] eqn:El; simpl; [|constructor]. destruct (H3 id l El) as (y & Hy & HF).
      by replace m with y by congruence.
    + rewrite !lookup_insert_ne by done. apply H3.
Qed.

Lemma registry_ok_status r now id st r' : setStatus r now id st = Ok r' → registry_ok r → registry_ok r'.
Proof.
  unfold setStatus. destruct (models r !! id) as [m|] eqn:Em; [|done]. intros E [H1 H2 H3]. injection E as <-.
  split; cbn [models attestations byHash].
  - intros h i. rewrite H1. symmetry. by apply (index_update r id m).
  - intros i x. unfold ListAttestations. cbn [attestations]. destruct (decide (i = id)) as [->|Hne].
    + rewrite lookup_insert_eq. intros [= <-]. cbn [MID MHash AttestationCount with_status]. exact (H2 id m Em).
    + rewrite lookup_insert_ne by done. apply H2.
  - intros i l Hl. destruct (H3 i l Hl) as (y & Hy & HF). destruct (decide (i = id)) as [->|Hne].
    + rewrite lookup_insert_eq. eexists. split; [done|]. cbn [MHash with_status]. by replace m with y by congruence.
    + rewrite lookup_insert_ne by done. eauto.
Qed.

Lemma registry_ok_step r r' : registry_step r r' → registry_ok r → registry_ok r'.
Proof.
  destruct 1; [eapply registry_ok_register|eapply registry_ok_attest|eapply registry_ok_status|eapply registry_ok_status]; eassumption.
Qed.

Lemma reachable_registry_ok r : reachable r → registry_ok r.
Proof.
  intros H. unfold reachable in H. assert (registry_ok New) as H0 by apply registry_ok_new.
  induction H as [|x y z Hxy _ IH]; [done|]. by apply IH, (registry_ok_step x).
Qed.

(** What a model that is not active any more keeps. *)
Definition frozen (id : string) (m : ModelEntry) (l : list ModelAttestation) (r : Registry) : Prop :=
  ∃ m', models r !! id = Some m' ∧ Status m' ≠ StatusActive ∧ MHash m' = MHash m ∧ AttestationCount m' = AttestationCount m
        ∧ ListAttestations r id = l.

Lemma frozen_step id m l r r' : registry_step r r' → registry_ok r → frozen id m l r → frozen id m l r'.
Proof.
  intros Hs Hok (m' & Hm & Hst & Hh & Hc & Hl).
  assert (∀ i st now r2, st ≠ StatusActive → setStatus r now i st = Ok r2 → frozen id m l r2) as Hstatus.
  { intros i st now r2 Hne E. unfold setStatus in E. destruct (models r !! i) as [x|] eqn:Ex; [|done]. injection E as <-.
    unfold frozen. cbn [models]. unfold ListAttestations. cbn [attestations]. destruct (decide (i = id)) as [->|Hi].
    - rewrite lookup_insert_eq. eexists. split; [done|]. cbn [Status MHash AttestationCount with_status]. assert (x = m') as -> by congruence. done.
    - rewrite lookup_insert_ne by done. by exists m'. }
  destruct Hs as [r ids now name owner hash cid schema r' x Hr|r now i attester ev r' a Ha|r now i reason r' Hd|r now i reason r' Hd].
  - apply Register_ok in Hr as (_ & _ & Hid & _ & _ & ->). exists m'. cbn [models]. rewrite lookup_insert_ne by congruence.
    unfold ListAttestations. cbn [attestations]. done.
  - unfold Attest in Ha. destruct (models r !! i) as [x|] eqn:Ex; [|done]. case_bool_decide as Hx; [|done]. cbn [negb] in Ha.
    injection Ha as <- <-. assert (i ≠ id) as Hne by (intros ->; congruence). exists m'. cbn [models].
    rewrite lookup_insert_ne by done. unfold ListAttestations. cbn [attestations]. rewrite lookup_insert_ne by done. done.
  - by eapply (Hstatus i StatusDeprecated).
  - by eapply (Hstatus i StatusRevoked).
Qed.

Lemma frozen_reachable id m l r r' : rtc registry_step r r' → registry_ok r → frozen id m l r → frozen id m l r'.
Proof.
  induction 1 as [|x y z Hxy _ IH]; [done|]. intros Hok Hf. apply IH; [by eapply registry_ok_step|by eapply frozen_step].
Qed.

(** In every reachable registry a model hash names one model: [GetByHash] finds
    exactly the entry with that hash, the attestation count is the number of
    listed attestations, each of them for the model's own hash, and integrity is
    checked against the hash under which the model was registered. *)
Theorem registry_index r :
  reachable r →
  (∀ h m, GetByHash r h = Some m ↔ Get r (MID m) = Some m ∧ MHash m = h)
  ∧ (∀ id m id' m', Get r id = Some m → Get r id' = Some m' → MHash m = MHash m' → id = id')
  ∧ (∀ id m, Get r id = Some m → AttestationCount m = Z.of_nat (length (ListAttestations r id))
       ∧ Forall (λ a, AModelID a = id ∧ AHash a = MHash m ∧ AValid a = true) (ListAttestations r id)
       ∧ ∀ h, VerifyIntegrity r id h = true ↔ MHash m = h).
Proof.
  intros [H1 H2 H3]%reachable_registry_ok. unfold Get, GetByHash. split_and!.
  - intros h m. split.
    + destruct (byHash r !! h) as [id|] eqn:Eh; [|done]. intros Hm. destruct (H2 id m Hm) as (Hid & _). rewrite Hid.
      apply H1 in Eh as (x & Hx & Hxh). split; [done|congruence].
    + intros [Hm Hh]. assert (byHash r !! h = Some (MID m)) as -> by (apply H1; eauto). done.
  - intros id m id' m' Hm Hm' E. assert (byHash r !! MHash m = Some id) by (apply H1; eauto).
    assert (byHash r !! MHash m = Some id') by (apply H1; eauto). congruence.
  - intros id m Hm. destruct (H2 id m Hm) as (_ & _ & Hc). split_and!; [done| |].
    + unfold ListAttestations. destruct (attestations r !! id) as [l|] eqn:El; cbn; [|constructor].
      destruct (H3 id l El) as (x & Hx & HF). by replace m with x by congruence.
    + intros h. unfold VerifyIntegrity. rewrite Hm. apply bool_decide_eq_true.
Qed.

(** A deprecated or revoked model never becomes active again and is never
    attested again: along any further operations it keeps its hash and its
    attestations, every attempt to attest it is refused, and its hash cannot be
    registered under another identifier. *)
Theorem retired_model_frozen r r' id m :
  reachable r → Get r id = Some m → Status m ≠ StatusActive → rtc registry_step r r' →
  (∃ m', Get r' id = Some m' ∧ Status m' ≠ StatusActive ∧ MHash m' = MHash m ∧ AttestationCount m' = AttestationCount m)
  ∧ ListAttestations r' id = ListAttestations r id
  ∧ (∀ now attester ev, Attest r' now id attester ev = Err ErrNotActive)
  ∧ ∀ ids now name owner cid schema r'' x, Register r' ids now name owner (MHash m) cid schema ≠ Some (Ok (r'', x)).
Proof.
  intros Hr Hm Hst Hs. pose proof (reachable_registry_ok _ Hr) as Hok.
  destruct (frozen_reachable id m (ListAttestations r id) r r' Hs Hok) as (m' & Hm' & Hst' & Hh & Hc & Hl);
    [by exists m|]. split_and!.
  - by exists m'.
  - done.
  - intros now attester ev. unfold Attest. rewrite Hm'. by rewrite bool_decide_false.
  - intros ids now name owner cid schema r'' x (_ & Hb & _)%Register_ok.
    assert (registry_ok r') as Hok' by (apply reachable_registry_ok; unfold reachable in *; by etransitivity).
    assert (byHash r' !! MHash m = Some id) by (apply Hok'; eauto). congruence.
Qed.

(** ** Samples *)

Definition ex_hash : string := hex_encode (replicate 32 Byte.xab).
Definition ex_reg : Registry :=
  match Register New ["m1"%string] 5 "net" "owner" ex_hash "" [] with Some (Ok (r, _)) => r | _ => New end.
Definition ex_revoked : Registry := match Revoke ex_reg 6 "m1" "" with Ok r => r | Err _ => New end.

Definition ex_model : ModelEntry := new_entry "m1" "net" "owner" ex_hash "" [] 5.

Lemma ex_reg_reachable : reachable ex_reg.
Proof.
  unfold reachable. apply rtc_once.
  apply (step_register New ["m1"%string] 5 "net" "owner" ex_hash "" [] ex_reg (new_entry "m1" "net" "owner" ex_hash "" [] 5)).
  vm_compute. reflexivity.
Qed.

Lemma ex_revoked_reachable : reachable ex_revoked.
Proof.
  unfold reachable. eapply rtc_r; [apply ex_reg_reachable|]. apply (step_revoke ex_reg 6 "m1" "" ex_revoked). vm_compute. reflexivity.
Qed.

Lemma registry_index_witness :
  Get ex_reg "m1" = Some ex_model ∧ GetByHash ex_reg ex_hash = Some ex_model.
Proof.
  split; [vm_compute; reflexivity|].
  apply (proj1 (registry_index ex_reg ex_reg_reachable) ex_hash ex_model). split; vm_compute; reflexivity.
Defined.

Lemma retired_model_frozen_witness :
  ∃ m, Get ex_revoked "m1" = Some m ∧ ∀ now attester ev, Attest ex_revoked now "m1" attester ev = Err ErrNotActive.
Proof.
  exists (with_status (new_entry "m1" "net" "owner" ex_hash "" [] 5) StatusRevoked 6). split; [vm_compute; reflexivity|].
  exact (proj1 (proj2 (proj2 (retired_model_frozen ex_revoked ex_revoked "m1"
    (with_status (new_entry "m1" "net" "owner" ex_hash "" [] 5) StatusRevoked 6) ex_revoked_reachable eq_refl
    (ltac:(discriminate)) (rtc_refl _ _))))).
Defined.

(** A revoked model can be set to deprecated. *)
Lemma revoked_downgraded :
  Status <$> (Get ex_revoked "m1") = Some StatusRevoked
  ∧ ∃ r, Deprecate ex_revoked 7 "m1" "" = Ok r ∧ Status <$> (Get r "m1") = Some StatusDeprecated.
Proof. split; [vm_compute; reflexivity|]. eexists. split; vm_compute; reflexivity. Qed.

(** Moving bytes between the parts keeps the model hash. *)
Lemma ComputeModelHash_boundary :
  ComputeModelHash (bytes_of "ab") (bytes_of "c") [] = ComputeModelHash (bytes_of "a") (bytes_of "bc") [].
Proof. reflexivity. Qed.
