(* ===== verification/Anchor.v ===== *)
(** * Anchor backends ([engine/internal/chainadapter])

    The router, and the Ethereum, Solana and Cosmos simulators with their
    deterministic transaction hashes; SHA-256, SHA-512 and base 58 are computed.
    Other adapters (the Casper submitter) are given by their operations. *)

From S2P Require Import Prelude GoLib Json JsonFacts Sha256 Sha512 BigInt.

Local Open Scope Z_scope.

(** ** Data ([chain.go]) *)

Record AnchorRequest := {
  ProofID : string; ProofHash : string; MerkleRoot : string; VKHash : string; Verdict : string; ModelID : string; Timestamp : time }.

Inductive TrustLabel := LabelReal | LabelOnChain | LabelSimulation.
#[export] Instance TrustLabel_eq_decision : EqDecision TrustLabel.
Proof. solve_decision. Defined.

Record AnchorReceipt := { RChainID : string; TxHash : string; AnchoredAt : time; RLabel : TrustLabel }.

(** The [Adapter] interface. *)
Record Adapter := { ChainID : string; Label : TrustLabel; Anchor : AnchorRequest → result string AnchorReceipt }.

(** ** Router *)

Record Router := { adapters : gmap string Adapter; def : string }.

Definition NewRouter (defaultChain : string) : Router := {| adapters := ∅; def := defaultChain |}.

Definition Register (r : Router) (a : Adapter) : Router := {| adapters := <[ChainID a := a]> (adapters r); def := def r |}.

Definition Get (r : Router) (id : string) : result string Adapter :=
  let id := if bool_decide (id = ""%string) then def r else id in
  match adapters r !! id with
  | None => Err ("chainadapter: no adapter for " +:+ quote id +:+ " (default=" +:+ quote (def r) +:+ ")")%string
  | Some a => Ok a
  end.

Definition AnchorOn (r : Router) (chainID : string) (req : AnchorRequest) : result string AnchorReceipt :=
  let! a := Get r chainID in Anchor a req.

(** ** Base 58 ([solana_stub.go]) *)

Definition alphabet : string := "123456789ABCDEFGHJKLMNPQRSTUVWXYZabcdefghijkmnopqrstuvwxyz".
Definition b58_char (d : Z) : Ascii.ascii := default (chr 49) (String.get (Z.to_nat d) alphabet).

(** The digits of [x], least significant first. *)
Fixpoint b58_digits (fuel : nat) (x : Z) : list Z :=
  match fuel with
  | O => []
  | S fuel => if x <=? 0 then [] else x mod 58 :: b58_digits fuel (x / 58)
  end.

Fixpoint leading_zeros (b : bytes) : nat :=
  match b with x :: b => if byte_to_Z x =? 0 then S (leading_zeros b) else O | [] => O end.

Definition string_of_ascii (l : list Ascii.ascii) : string := foldr String EmptyString l.

(** Two digits for every byte are enough. *)
Definition base58EncodeBytes (b : bytes) : string :=
  let out := (b58_char <$> b58_digits (2 * length b) (be_value b)) ++ replicate (leading_zeros b) (b58_char 0) in
  string_of_ascii (reverse out).

(** ** Simulators *)

Definition bar : Ascii.ascii := chr 124.
Definition bar_join (l : list string) : string := string_join "|" l.

(** The six fields that are hashed; the timestamp is not among them. *)
Definition request_fields (req : AnchorRequest) : list string :=
  [ProofID req; ProofHash req; MerkleRoot req; VKHash req; Verdict req; ModelID req].

Definition anchored_at (req : AnchorRequest) : time := if bool_decide (Timestamp req = time_zero) then 0 else Timestamp req.

Definition EthereumStubAdapter_Anchor (chain : string) (req : AnchorRequest) : result string AnchorReceipt :=
  if bool_decide (ProofHash req = ""%string) then Err "eth-sim: proof_hash required"%string
  else
    let preimg := bar_join (chain :: request_fields req) in
    let tx := ("0x" +:+ hex_encode (sha256 (bytes_of preimg)))%string in
    Ok {| RChainID := chain; TxHash := tx; AnchoredAt := anchored_at req; RLabel := LabelSimulation |}.

Definition SolanaStubAdapter_Anchor (chain : string) (req : AnchorRequest) : result string AnchorReceipt :=
  if bool_decide (ProofHash req = ""%string) then Err "solana-sim: proof_hash required"%string
  else
    let preimg := bar_join ("solana"%string :: chain :: request_fields req) in
    let sig := base58EncodeBytes (sha512 (bytes_of preimg)) in
    Ok {| RChainID := chain; TxHash := sig; AnchoredAt := anchored_at req; RLabel := LabelSimulation |}.

Definition CosmosStubAdapter_Anchor (chain : string) (req : AnchorRequest) : result string AnchorReceipt :=
  if bool_decide (ProofHash req = ""%string) then Err "cosmos-sim: proof_hash required"%string
  else
    let preimg := bar_join ("cosmos"%string :: chain :: request_fields req) in
    let tx := to_upper (hex_encode (sha256 (bytes_of preimg))) in
    Ok {| RChainID := chain; TxHash := tx; AnchoredAt := anchored_at req; RLabel := LabelSimulation |}.

Definition or_default (id d : string) : string := if bool_decide (id = ""%string) then d else id.
Definition stub (chain : string) (anchor : string → AnchorRequest → result string AnchorReceipt) : Adapter :=
  {| ChainID := chain; Label := LabelSimulation; Anchor := anchor chain |}.
Definition NewEthereumStub (id : string) : Adapter := stub (or_default id "eth-sim") EthereumStubAdapter_Anchor.
Definition NewSolanaStub (id : string) : Adapter := stub (or_default id "solana-sim") SolanaStubAdapter_Anchor.
Definition NewCosmosStub (id : string) : Adapter := stub (or_default id "cosmos-sim") CosmosStubAdapter_Anchor.

(** ** Base 58 is injective on strings of one length *)

Fixpoint b58_index_in (c : Ascii.ascii) (s : string) : Z :=
  match s with EmptyString => 0 | String d s => if bool_decide (c = d) then 0 else 1 + b58_index_in c s end.
Definition b58_value (s : string) : Z :=
  (fix go (acc : Z) (s : string) : Z :=
     match s with EmptyString => acc | String c s => go (58 * acc + b58_index_in c alphabet) s end) 0 s.

Definition b58_ok (k : nat) : bool := b58_index_in (b58_char (Z.of_nat k)) alphabet =? Z.of_nat k.

Lemma b58_all_ok : forallb b58_ok (seq 0 58) = true.
Proof. vm_compute. reflexivity. Qed.

Lemma b58_index_char d : 0 <= d < 58 → b58_index_in (b58_char d) alphabet = d.
Proof.
  intros Hd. pose proof b58_all_ok as H. rewrite forallb_forall in H. specialize (H (Z.to_nat d)).
  unfold b58_ok in H. rewrite Z2Nat.id in H by lia. apply Z.eqb_eq, H, in_seq. lia.
Qed.

(** The value of a digit list, most significant first. *)
Definition digits_value (acc : Z) (l : list Z) : Z := foldl (λ z d, 58 * z + d) acc l.

Lemma b58_value_digits l :
  Forall (λ d, 0 <= d < 58) l → b58_value (string_of_ascii (b58_char <$> l)) = digits_value 0 l.
Proof.
  unfold b58_value, digits_value. intros Hl. generalize 0.
  induction Hl as [|d l Hd _ IH]; intros acc; [done|]. cbn [fmap list_fmap string_of_ascii foldr foldl].
  rewrite b58_index_char by done. apply IH.
Qed.

Lemma b58_digits_spec fuel x :
  0 <= x < 58 ^ Z.of_nat fuel → Forall (λ d, 0 <= d < 58) (b58_digits fuel x) ∧ digits_value 0 (reverse (b58_digits fuel x)) = x.
Proof.
  revert x. induction fuel as [|fuel IH]; intros x Hx; cbn [b58_digits]; [cbn in Hx; split; [constructor|cbn; lia]|].
  rewrite Nat2Z.inj_succ, Z.pow_succ_r in Hx by lia. destruct (Z.leb_spec x 0); [split; [constructor|cbn; lia]|].
  destruct (IH (x / 58)) as [H1 H2]; [split; [apply Z.div_pos|apply Z.div_lt_upper_bound]; lia|].
  split; [constructor; [apply Z.mod_pos_bound; lia|done]|].
  rewrite reverse_cons. unfold digits_value in *. rewrite foldl_app, H2. cbn. pose proof (Z_div_mod_eq_full x 58). lia.
Qed.

(** The text has the value of the bytes; the ones for leading zeros add nothing. *)
Lemma base58_value b : b58_value (base58EncodeBytes b) = be_value b.
Proof.
  unfold base58EncodeBytes. rewrite reverse_app, reverse_replicate, <- fmap_reverse, <- fmap_replicate, <- fmap_app.
  destruct (b58_digits_spec (2 * length b) (be_value b)) as [H1 H2].
  { pose proof (be_value_range b). split; [lia|]. eapply Z.lt_le_trans; [apply H|].
    rewrite Nat2Z.inj_mul, Z.pow_mul_r by lia. apply Z.pow_le_mono_l. lia. }
  rewrite b58_value_digits.
  - unfold digits_value in *. rewrite foldl_app. replace (foldl _ 0 (replicate _ 0)) with 0; [done|].
    induction (leading_zeros b) as [|k IH]; [done|exact IH].
  - apply Forall_app. split; [apply Forall_replicate; lia|]. by apply Forall_reverse.
Qed.

Lemma base58_inj a b : length a = length b → base58EncodeBytes a = base58EncodeBytes b → a = b.
Proof. intros Hlen E. apply be_value_inj; [done|]. by rewrite <- !base58_value, E. Qed.

(** ** Transaction hashes bind requests *)

Lemma hex_upper_digit n : 0 <= n < 16 →
  from_hex_char (if ascii_in 97 122 (hex_digit n) then Ascii.ascii_of_N (Ascii.N_of_ascii (hex_digit n) - 32) else hex_digit n) = Some n.
Proof.
  intros H. assert (∃ k, n = Z.of_nat k ∧ (k < 16)%nat) as (k & -> & Hk) by (exists (Z.to_nat n); lia).
  do 16 (destruct k as [|k]; [reflexivity|]). lia.
Qed.

Lemma hex_decode_upper b : hex_decode (to_upper (hex_encode b)) = Some b.
Proof.
  induction b as [|x b IH]; [done|].
  change (hex_encode (x :: b)) with (String (hex_digit (byte_to_Z x / 16)) (String (hex_digit (byte_to_Z x mod 16)) (hex_encode b))).
  unfold to_upper in *. cbn [string_map]. set (up := λ c : Ascii.ascii, _) in *. pose proof (byte_to_Z_range x) as Hx.
  change (match from_hex_char (up (hex_digit (byte_to_Z x / 16))), from_hex_char (up (hex_digit (byte_to_Z x mod 16))) with
          | Some hi, Some lo => (λ b, byte_of_Z (16 * hi + lo) :: b) <$> hex_decode (string_map up (hex_encode b)) | _, _ => None end
          = Some (x :: b)).
  unfold up at 1 2. rewrite !hex_upper_digit by (lia_div || (apply Z.mod_pos_bound; lia)). rewrite IH. cbn.
  do 2 f_equal. rewrite <- Z.div_mod by done. apply byte_of_to_Z.
Qed.

Lemma bar_join_inj l l' :
  length l = length l' → Forall (λ s, no_char bar s = true) l → Forall (λ s, no_char bar s = true) l' → bar_join l = bar_join l' → l = l'.
Proof.
  unfold bar_join. intros Hlen Hl. revert l' Hlen. induction Hl as [|s l Hs Hl IH]; intros [|s' l'] Hlen Hl' E; try done.
  injection Hlen as Hlen. inversion Hl' as [|? ? Hs' Hl'']; subst.
  destruct l as [|t l], l' as [|t' l']; try done; [cbn in E; by subst|].
  change (string_join "|" (s :: t :: l)) with (s +:+ String bar (string_join "|" (t :: l)))%string in E.
  change (string_join "|" (s' :: t' :: l')) with (s' +:+ String bar (string_join "|" (t' :: l')))%string in E.
  apply split_at_sep in E as [-> E]; [|done..]. f_equal. by apply IH.
Qed.

(** The three simulators: their constructors, preimages and hash functions. *)
Inductive simulator := Ethereum | Solana | Cosmos.

Definition new_stub (k : simulator) : string → Adapter :=
  match k with Ethereum => NewEthereumStub | Solana => NewSolanaStub | Cosmos => NewCosmosStub end.

Definition preimage (k : simulator) (chain : string) (req : AnchorRequest) : bytes :=
  bytes_of (bar_join (match k with Ethereum => [] | Solana => ["solana"%string] | Cosmos => ["cosmos"%string] end
                      ++ chain :: request_fields req)).

Definition hash_function (k : simulator) : bytes → bytes := match k with Solana => sha512 | _ => sha256 end.

Definition no_bar (chain : string) (req : AnchorRequest) : Prop := Forall (λ s, no_char bar s = true) (chain :: request_fields req).

Lemma stub_anchor k id req rc :
  Anchor (new_stub k id) req = Ok rc →
  ProofHash req ≠ ""%string ∧ RChainID rc = ChainID (new_stub k id) ∧ RLabel rc = LabelSimulation ∧ AnchoredAt rc = anchored_at req
  ∧ TxHash rc = match k with
                | Ethereum => ("0x" +:+ hex_encode (sha256 (preimage k (ChainID (new_stub k id)) req)))%string
                | Solana => base58EncodeBytes (sha512 (preimage k (ChainID (new_stub k id)) req))
                | Cosmos => to_upper (hex_encode (sha256 (preimage k (ChainID (new_stub k id)) req)))
                end.
Proof.
  destruct k; cbn [new_stub NewEthereumStub NewSolanaStub NewCosmosStub stub Anchor ChainID];
    unfold EthereumStubAdapter_Anchor, SolanaStubAdapter_Anchor, CosmosStubAdapter_Anchor;
    (case_bool_decide as Hp; [done|]); intros E; injection E as <-; done.
Qed.

(** A simulator answers every request with a proof hash. *)
Lemma stub_anchor_total k id req : is_ok (Anchor (new_stub k id) req) = negb (bool_decide (ProofHash req = ""%string)).
Proof.
  destruct k; cbn [new_stub NewEthereumStub NewSolanaStub NewCosmosStub stub Anchor];
    unfold EthereumStubAdapter_Anchor, SolanaStubAdapter_Anchor, CosmosStubAdapter_Anchor; by case_bool_decide.
Qed.

Lemma preimage_fields k chain req req' :
  no_bar chain req → no_bar chain req' → preimage k chain req = preimage k chain req' → request_fields req = request_fields req'.
Proof.
  intros H H' E%bytes_of_inj. apply bar_join_inj in E; [|by rewrite !length_app| |].
  - apply app_inv_head in E. apply (f_equal tail) in E. exact E.
  - apply Forall_app. split; [by destruct k; repeat constructor|done].
  - apply Forall_app. split; [by destruct k; repeat constructor|done].
Qed.

(** The transaction hash of a simulator binds the six request fields: two requests
    without a bar in their fields and with one hash on one simulator agree on
    them, or their preimages are a collision of its hash function. Every receipt
    names the simulator's chain and is labelled a simulation. *)
Theorem simulators_bind k id req req' rc rc' :
  Anchor (new_stub k id) req = Ok rc → Anchor (new_stub k id) req' = Ok rc' →
  no_bar (ChainID (new_stub k id)) req → no_bar (ChainID (new_stub k id)) req' → TxHash rc = TxHash rc' →
  let x := preimage k (ChainID (new_stub k id)) req in
  let y := preimage k (ChainID (new_stub k id)) req' in
  (request_fields req = request_fields req' ∨ (x ≠ y ∧ hash_function k x = hash_function k y))
  ∧ RLabel rc = LabelSimulation ∧ RChainID rc = ChainID (new_stub k id).
Proof.
  intros H H' Hb Hb' E. destruct (stub_anchor _ _ _ _ H) as (_ & Hc & Hl & _ & Ht), (stub_anchor _ _ _ _ H') as (_ & _ & _ & _ & Ht').
  cbv zeta. split; [|done]. set (x := preimage k _ req) in *. set (y := preimage k _ req') in *.
  destruct (decide (x = y)) as [Hxy|Hne]; [left; by eapply preimage_fields|right]. split; [done|].
  rewrite Ht, Ht' in E. destruct k; cbn [hash_function].
  - apply hex_encode_inj. exact (str_app_cancel _ _ _ E).
  - by apply base58_inj in E.
  - apply (f_equal hex_decode) in E. rewrite !hex_decode_upper in E. by apply Some_inj in E.
Qed.

(** ** Routing *)

(** The adapter registered last under an identifier answers for it; the empty
    identifier stands for the default. *)
Lemma Get_register r a id :
  Get (Register r a) id =
  if bool_decide (ChainID a = or_default id (def r)) then Ok a else Get r id.
Proof.
  unfold Get, Register. cbn [adapters def]. fold (or_default id (def r)). case_bool_decide as E.
  - by rewrite E, lookup_insert_eq.
  - by rewrite lookup_insert_ne.
Qed.

Lemma register_all_get r l id :
  def (foldl Register r l) = def r ∧
  Get (foldl Register r l) id =
  match find (λ a, bool_decide (ChainID a = or_default id (def r))) (reverse l) with
  | Some a => Ok a
  | None => Get r id
  end.
Proof.
  induction l as [|a l [IHd IH]] using rev_ind; [done|]. rewrite foldl_app, reverse_app. cbn [foldl reverse rev_append app find].
  split; [done|]. rewrite Get_register, IHd. change (reverse [a] ++ reverse l) with (a :: reverse l). cbn [find].
  destruct (bool_decide _); done.
Qed.

(** ** Samples *)

Definition ex_req : AnchorRequest :=
  {| ProofID := "p1"; ProofHash := "ab"; MerkleRoot := ""; VKHash := ""; Verdict := "APPROVE"; ModelID := "m"; Timestamp := 0 |}.
Definition ex_receipt (k : simulator) : AnchorReceipt :=
  match Anchor (new_stub k "") ex_req with Ok rc => rc | Err _ => {| RChainID := ""; TxHash := ""; AnchoredAt := 0; RLabel := LabelReal |} end.

Lemma simulators_bind_witness :
  let x := preimage Solana "solana-sim" ex_req in
  (request_fields ex_req = request_fields ex_req ∨ (x ≠ x ∧ hash_function Solana x = hash_function Solana x))
  ∧ RLabel (ex_receipt Solana) = LabelSimulation ∧ RChainID (ex_receipt Solana) = "solana-sim"%string.
Proof.
  exact (simulators_bind Solana "" ex_req ex_req (ex_receipt Solana) (ex_receipt Solana) eq_refl eq_refl
           (ltac:(by repeat constructor)) (ltac:(by repeat constructor)) eq_refl).
Defined.

(** Bars in the fields are not escaped: different requests have one transaction
    hash. *)
Lemma bars_collide :
  ∃ req req', request_fields req ≠ request_fields req' ∧
  match Anchor (NewEthereumStub "") req, Anchor (NewEthereumStub "") req' with
  | Ok rc, Ok rc' => TxHash rc = TxHash rc'
  | _, _ => False
  end.
Proof.
  exists {| ProofID := "p|x"; ProofHash := "y"; MerkleRoot := "z"; VKHash := ""; Verdict := ""; ModelID := ""; Timestamp := 0 |}.
  exists {| ProofID := "p"; ProofHash := "x"; MerkleRoot := "y|z"; VKHash := ""; Verdict := ""; ModelID := ""; Timestamp := 0 |}.
  split; [discriminate|reflexivity].
Qed.

(** Two leading zero bytes. *)
Lemma base58_sample : base58EncodeBytes [Byte.x00; Byte.x00; Byte.x28; Byte.x7f; Byte.xb4; Byte.xcd] = "11233QC4"%string.
Proof. vm_compute. reflexivity. Qed.
