(* ===== verification/Stark.v ===== *)
(** * The STARK pack ([engine/internal/aggregator/stark.go])

    The hash-based aggregate of a list of proofs: its creation, its unpacking and
    what the check of a pack binds. The clock is an argument. *)

From S2P Require Import Prelude GoLib Sha256.

Local Open Scope Z_scope.

Record STARKPack := {
  AggregateProofHash : string;
  IndividualProofHashes : list string;
  ProofCount : Z;
  Metadata : gmap string string;
  Timestamp : Z;
}.

(** [errProofVerificationFailed] has no case: [VerifyAggregate] never answers
    [false] without an error. *)
Inductive StarkError :=
| errNoProofsToAggregate
| errInvalidSTARKPack
| errAggregateMismatch
| errCountMismatch (expected got : Z)
| errBadAggregateHex
| errBadIndividualHex (i : nat)
| errAggregateFailed (e : StarkError)
| errVerifyFailed (e : StarkError).

(** ** Operations *)

Definition AggregateSTARKs (proofs : list bytes) : result StarkError bytes :=
  match proofs with
  | [] => Err errNoProofsToAggregate
  | _ :: _ => Ok (sha256 (concat (sha256 <$> proofs)))
  end.

Definition VerifyAggregate (aggregateProof : bytes) (originalProofHashes : list bytes) : result StarkError bool :=
  match originalProofHashes with
  | [] => Err errNoProofsToAggregate
  | _ :: _ =>
      if bool_decide (aggregateProof = sha256 (concat originalProofHashes)) then Ok true
      else Err errAggregateMismatch
  end.

Definition CreateSTARKPack (now : Z) (proofs : list bytes) (metadata : gmap string string) : result StarkError STARKPack :=
  match proofs with
  | [] => Err errNoProofsToAggregate
  | _ :: _ =>
      match AggregateSTARKs proofs with
      | Err e => Err (errAggregateFailed e)
      | Ok agg =>
          Ok {| AggregateProofHash := hex_encode agg;
                IndividualProofHashes := (λ p, hex_encode (sha256 p)) <$> proofs;
                ProofCount := Z.of_nat (length proofs);
                Metadata := metadata;
                Timestamp := unix now |}
      end
  end.

(** The loop that decodes the individual hashes; [i] counts the iterations. *)
Fixpoint decode_hashes (i : nat) (hs : list string) : result StarkError (list bytes) :=
  match hs with
  | [] => Ok []
  | h :: hs' =>
      match hex_decode h with
      | None => Err (errBadIndividualHex i)
      | Some b => let! bs := decode_hashes (S i) hs' in Ok (b :: bs)
      end
  end.

Definition UnpackAndVerify (op : option STARKPack) : result StarkError bool :=
  match op with
  | None => Err errInvalidSTARKPack
  | Some pack =>
      if (ProofCount pack =? 0) || bool_decide (IndividualProofHashes pack = []) then Err errNoProofsToAggregate
      else if negb (ProofCount pack =? Z.of_nat (length (IndividualProofHashes pack)))
      then Err (errCountMismatch (ProofCount pack) (Z.of_nat (length (IndividualProofHashes pack))))
      else
        match hex_decode (AggregateProofHash pack) with
        | None => Err errBadAggregateHex
        | Some agg =>
            let! raw := decode_hashes 0 (IndividualProofHashes pack) in
            match VerifyAggregate agg raw with
            | Err e => Err (errVerifyFailed e)
            | Ok v => Ok v
            end
        end
  end.

(** ** Facts *)

Lemma decode_hashes_ok i hs bs : decode_hashes i hs = Ok bs ↔ mapM hex_decode hs = Some bs.
Proof.
  revert i bs. induction hs as [|h hs IH]; intros i bs; cbn [decode_hashes]; cbn; [split; [intros <-%ok_inj|intros [= <-]]; done|].
  destruct (hex_decode h) as [b|]; cbn; [|done]. rewrite result_bind_ok. split.
  - intros (k & Hk & <-%ok_inj). apply IH in Hk. by rewrite Hk.
  - destruct (mapM hex_decode hs) as [k|] eqn:E; cbn; [|done]. intros [= <-]. exists k. split; [by apply IH|done].
Qed.

Lemma UnpackAndVerify_ok pack :
  UnpackAndVerify (Some pack) = Ok true ↔
  ProofCount pack = Z.of_nat (length (IndividualProofHashes pack)) ∧
  ∃ raw, raw ≠ [] ∧ mapM hex_decode (IndividualProofHashes pack) = Some raw ∧
    hex_decode (AggregateProofHash pack) = Some (sha256 (concat raw)).
Proof.
  unfold UnpackAndVerify. destruct (IndividualProofHashes pack) as [|h hs] eqn:Eh.
  { rewrite bool_decide_true by done. rewrite orb_true_r. split; [done|]. intros (_ & raw & Hne & Hm & _). cbn in Hm. injection Hm as <-. done. }
  rewrite bool_decide_eq_false_2 by done. rewrite orb_false_r.
  destruct (Z.eqb_spec (ProofCount pack) 0) as [E0|E0]; [cbn [length]; split; [done|lia]|].
  destruct (Z.eqb_spec (ProofCount pack) (Z.of_nat (length (h :: hs)))) as [E|E]; cbn [negb]; [|naive_solver].
  destruct (hex_decode (AggregateProofHash pack)) as [agg|]; [|naive_solver].
  rewrite result_bind_ok. setoid_rewrite decode_hashes_ok. split.
  - intros (raw & Hraw & Hv). split; [done|]. exists raw. destruct raw as [|b raw]; [done|]. cbn in Hv.
    destruct (bool_decide _) eqn:Ed; [|done]. apply bool_decide_eq_true in Ed. by subst agg.
  - intros (_ & raw & Hne & Hraw & [= ->]). exists raw. split; [done|]. destruct raw as [|b raw]; [done|].
    unfold VerifyAggregate. by rewrite bool_decide_eq_true_2.
Qed.

(** A pack never comes back as invalid without an error. *)
Lemma UnpackAndVerify_not_false op : UnpackAndVerify op ≠ Ok false.
Proof.
  unfold UnpackAndVerify, VerifyAggregate. destruct op as [pack|]; [|done].
  do 2 (destruct (_ : bool); [done|]). destruct (hex_decode _); [|done].
  destruct (decode_hashes _ _) as [[|b raw]|]; cbn; try done. by destruct (bool_decide _).
Qed.

Lemma mapM_hex_digests (proofs : list bytes) :
  mapM hex_decode ((λ p, hex_encode (sha256 p)) <$> proofs) = Some (sha256 <$> proofs).
Proof.
  induction proofs as [|p proofs IH]; [done|]. rewrite fmap_cons. cbn [mapM]. rewrite hex_decode_encode. cbn.
  change (list_fmap _ _ _ proofs) with ((λ p, hex_encode (sha256 p)) <$> proofs). by rewrite IH.
Qed.

(** Creation succeeds exactly on a non-empty list, and what it makes unpacks. *)
Lemma CreateSTARKPack_total now proofs md :
  proofs ≠ [] → ∃ pack, CreateSTARKPack now proofs md = Ok pack ∧
    ProofCount pack = Z.of_nat (length proofs) ∧
    IndividualProofHashes pack = (λ p, hex_encode (sha256 p)) <$> proofs ∧
    UnpackAndVerify (Some pack) = Ok true.
Proof.
  destruct proofs as [|p proofs]; [done|]. intros _. eexists. split; [reflexivity|]. split; [done|]. split; [done|].
  apply UnpackAndVerify_ok. split; [cbn; by rewrite length_fmap|]. exists (sha256 <$> p :: proofs). split; [done|].
  split; [apply (mapM_hex_digests (p :: proofs))|]. apply hex_decode_encode.
Qed.

(** Lists of 32-byte digests with the same concatenation are the same list. *)
Lemma concat_digests_inj (l k : list bytes) :
  Forall (λ b, length b = 32%nat) l → Forall (λ b, length b = 32%nat) k → concat l = concat k → l = k.
Proof.
  intros Hl. revert k. induction Hl as [|b l Hb _ IH]; intros k Hk E.
  - destruct Hk as [|c k Hc _]; [done|]. cbn in E. by destruct c.
  - destruct Hk as [|c k Hc Hk]; [cbn in E; by destruct b|]. cbn in E.
    apply app_inj_1 in E as [-> E]; [|congruence]. f_equal. by apply IH.
Qed.

(** Pairing the proofs of a pack with other proofs of the same digests. *)
Fixpoint proof_collision (l k : list bytes) : bytes * bytes :=
  match l, k with
  | b :: l', c :: k' => if decide (b = c) then proof_collision l' k' else (b, c)
  | _, _ => ([], [])
  end.

Lemma digests_inj l k :
  sha256 <$> l = sha256 <$> k → l = k ∨ is_collision (proof_collision l k).
Proof.
  revert k. induction l as [|b l IH]; intros [|c k] E; [by left|done|done|].
  rewrite !fmap_cons in E. apply cons_inv in E as [Eb E]. cbn [proof_collision].
  destruct (decide (b = c)) as [->|Hne]; [|right; by split].
  destruct (IH k E) as [->|Hc]; [by left|by right].
Qed.

(** The two texts whose digests the check of a pack with digests [raw] compares,
    when it carries the aggregate of [proofs]. *)
Definition pack_collision (proofs raw : list bytes) : bytes * bytes :=
  (concat (sha256 <$> proofs), concat raw).

(** ** Properties *)

(** What a pack binds. A pack made for proofs is accepted. A pack that
    carries the same aggregate and whose individual hashes are all of digest
    length is accepted only if it lists the digests of the same proofs in the same
    order, or exhibits a SHA-256 collision. *)
Theorem stark_pack_binds now proofs md pack pack' :
  CreateSTARKPack now proofs md = Ok pack →
  AggregateProofHash pack' = AggregateProofHash pack →
  Forall (λ h, from_option length 0%nat (hex_decode h) = 32%nat) (IndividualProofHashes pack') →
  UnpackAndVerify (Some pack) = Ok true ∧
  (UnpackAndVerify (Some pack') = Ok true →
     mapM hex_decode (IndividualProofHashes pack') = Some (sha256 <$> proofs) ∨
     ∃ raw, mapM hex_decode (IndividualProofHashes pack') = Some raw ∧ is_collision (pack_collision proofs raw)).
Proof.
  intros Hc Hagg Hlen. assert (proofs ≠ []) as Hne by (by intros ->).
  destruct (CreateSTARKPack_total now proofs md Hne) as (q & Hq & _ & _ & Hv).
  rewrite Hc in Hq. apply ok_inj in Hq. subst q. split; [exact Hv|].
  intros (_ & raw & _ & Hraw & Hh)%UnpackAndVerify_ok. rewrite Hraw. rewrite Hagg in Hh.
  assert (AggregateProofHash pack = hex_encode (sha256 (concat (sha256 <$> proofs)))) as Ea.
  { destruct proofs; [done|]. cbn in Hc. by injection Hc as <-. }
  rewrite Ea, hex_decode_encode in Hh. apply Some_inj in Hh.
  destruct (decide (concat (sha256 <$> proofs) = concat raw)) as [E|E].
  - left. f_equal. symmetry. apply concat_digests_inj; [| |done].
    + apply Forall_fmap, Forall_forall. intros x _. apply length_sha256.
    + apply mapM_Some in Hraw. clear -Hraw Hlen. induction Hraw as [|h b hs bs Hb _ IH]; [done|].
      apply Forall_cons in Hlen as [H1 H2]. constructor; [|by apply IH]. by rewrite Hb in H1.
  - right. exists raw. split; [done|]. by split.
Qed.

Definition ex_proofs : list bytes := [bytes_of "a"; bytes_of "b"].
Definition ex_pack : STARKPack :=
  the_ok {| AggregateProofHash := ""; IndividualProofHashes := []; ProofCount := 0; Metadata := ∅; Timestamp := 0 |}
    (CreateSTARKPack 0 ex_proofs ∅).

Lemma stark_pack_binds_witness :
  UnpackAndVerify (Some ex_pack) = Ok true ∧
  (UnpackAndVerify (Some ex_pack) = Ok true →
     mapM hex_decode (IndividualProofHashes ex_pack) = Some (sha256 <$> ex_proofs) ∨
     ∃ raw, mapM hex_decode (IndividualProofHashes ex_pack) = Some raw ∧ is_collision (pack_collision ex_proofs raw)).
Proof.
  apply (stark_pack_binds 0 ex_proofs ∅ ex_pack ex_pack).
  - apply is_ok_the. reflexivity.
  - reflexivity.
  - apply Forall_fmap, Forall_forall. intros x _. cbn [compose]. rewrite hex_decode_encode. apply length_sha256.
Defined.

(** The lengths of the individual hashes are not checked: the two digests of a
    pack run together are one hash, and the pack then claims one proof. *)
Lemma merged_pack_accepted :
  UnpackAndVerify (Some {| AggregateProofHash := AggregateProofHash ex_pack;
                           IndividualProofHashes := [string_concat (IndividualProofHashes ex_pack)];
                           ProofCount := 1; Metadata := ∅; Timestamp := 0 |}) = Ok true.
Proof. vm_compute. reflexivity. Qed.
