(* ===== verification/PgStore.v ===== *)
(** * The PostgreSQL store ([engine/internal/store/pg.go])

    Every statement the store sends, as a transition of the tables its schema
    declares: keys, NOT NULL columns, the columns an ON CONFLICT clause updates,
    WHERE guards and affected rows. A table is a finite map by its primary key.
    [up] says whether the server accepts the statement for every reason that the
    schema does not decide: it is reachable and the values suit the column types.
    How lib/pq sends a Go slice is a class with its documented laws. *)

From S2P Require Import Prelude GoLib Sha256 Merkle Engine.

Local Open Scope Z_scope.

Inductive PgError :=
| Refused
| NotNullViolation (column : string)
| UniqueViolation (key : string)
| ErrNoRows
| NoRowAffected (key : string).

(** [pq.StringArray(l).Value()]: a nil slice ([None]) is NULL ([None]). *)
Class PqDriver := {
  array_value : option (list string) → option (list string);
  array_value_nil : array_value None = None;
  array_value_some l : array_value (Some l) = Some l;
}.

(** A slice that only [append] fills is nil while it is empty. *)
Definition appended (l : list string) : option (list string) :=
  match l with [] => None | _ :: _ => Some l end.

(** ** Rows *)

Record ProofRow := {
  r_id : string; r_agent : string; r_proof_hash : string; r_input_hash : string; r_output_hash : string;
  r_model_hash : string; r_merkle_root : string; r_merkle_path : list string; r_leaf_index : Z; r_created_at : Z;
  r_valid : bool; r_revoked : bool; r_use_case : string; r_public_key : string; r_deploy_hash : string;
  r_generation_ms : Z; r_mode : string;
}.

Record KYCRow := { k_proof_id : string; k_whitelisted : bool; k_granted_at : Z }.
Record KYCEntry := { EUser : string; EProofID : string }.

(** The metadata column holds a JSON object of strings. *)
Record ModelEntry := {
  EModelID : string; EModelHash : string; EVerifierContract : string; EMetadata : gmap string string;
  ERegisteredAt : Z; EDeployHash : string;
}.

(** [ProofHashes] and [IndividualProofHashes] are slices: nil is [None]. *)
Record AggBatchRow := {
  BatchID : string; BMaxProofs : Z; BProofHashes : option (list string); BMerkleRoot : string; BStatus : string;
  BCreatedAt : Z; BFinalizedAt : Z; BAggregateProofHash : string; BIndividualProofHashes : option (list string);
  BProofCount : Z;
}.

Record APIKeyRow := {
  AKeyID : string; AKeyHash : string; AWallet : string; AScope : string; ACreatedAt : Z; ARevoked : bool; ARevokedAt : Z;
}.

Record WalletChallengeRow := {
  CNonce : string; CWallet : string; CCreatedAt : Z; CExpiresAt : Z; CConsumedAt : Z;
}.

(** ** Proofs *)

Section store.
Context `{PqDriver}.

Definition row_of (p : Proof) (path : list string) : ProofRow :=
  {| r_id := PID p; r_agent := Agent p; r_proof_hash := PH p; r_input_hash := IH p; r_output_hash := OH p;
     r_model_hash := MH p; r_merkle_root := PRoot p; r_merkle_path := path; r_leaf_index := Idx p; r_created_at := TS p;
     r_valid := Valid p; r_revoked := Revoked p; r_use_case := UseCase p; r_public_key := PubKey p;
     r_deploy_hash := Deploy p; r_generation_ms := GenMs p; r_mode := Mode p |}.

(** The row that [Scan] reads: the anchoring fields have no column. *)
Definition proof_of (r : ProofRow) : Proof :=
  {| PID := r_id r; Agent := r_agent r; PH := r_proof_hash r; IH := r_input_hash r; OH := r_output_hash r;
     MH := r_model_hash r; PRoot := r_merkle_root r; PPath := r_merkle_path r; Idx := r_leaf_index r; TS := r_created_at r;
     Valid := r_valid r; Revoked := r_revoked r; UseCase := r_use_case r; PubKey := r_public_key r;
     Deploy := r_deploy_hash r; AnchorHash := ""; AnchoringStatus := ""; GenMs := r_generation_ms r; Mode := r_mode r |}.

Definition set_status (r : ProofRow) (p : Proof) : ProofRow :=
  {| r_id := r_id r; r_agent := r_agent r; r_proof_hash := r_proof_hash r; r_input_hash := r_input_hash r;
     r_output_hash := r_output_hash r; r_model_hash := r_model_hash r; r_merkle_root := r_merkle_root r;
     r_merkle_path := r_merkle_path r; r_leaf_index := r_leaf_index r; r_created_at := r_created_at r;
     r_valid := Valid p; r_revoked := Revoked p; r_use_case := r_use_case r; r_public_key := r_public_key r;
     r_deploy_hash := Deploy p; r_generation_ms := r_generation_ms r; r_mode := r_mode r |}.

Definition Save (up : bool) (t : gmap string ProofRow) (p : Proof) : result PgError (gmap string ProofRow) :=
  if negb up then Err Refused
  else match array_value (appended (PPath p)) with
       | None => Err (NotNullViolation "merkle_path")
       | Some path =>
           Ok (<[PID p := match t !! PID p with None => row_of p path | Some r => set_status r p end]> t)
       end.

Definition SaveProof : bool → gmap string ProofRow → Proof → result PgError (gmap string ProofRow) := Save.

(** An UPDATE that matches no row is not an error. *)
Definition Update (up : bool) (t : gmap string ProofRow) (p : Proof) : result PgError (gmap string ProofRow) :=
  if negb up then Err Refused
  else Ok match t !! PID p with None => t | Some r => <[PID p := set_status r p]> t end.

(** [rows] is the answer of the query; after [cut] rows the connection fails. *)
Definition Load (eng : ProofEngine) (rows : list ProofRow) (cut : option nat) : ProofEngine * Z * option PgError :=
  let read := match cut with None => rows | Some k => take k rows end in
  (foldl Restore eng (proof_of <$> read), Z.of_nat (length read), match cut with None => None | Some _ => Some Refused end).

(** What [SELECT ... ORDER BY created_at] may answer. *)
Definition older (a b : ProofRow) : bool := r_created_at a <? r_created_at b.

Definition select_proofs (t : gmap string ProofRow) (rows : list ProofRow) : Prop :=
  rows ≡ₚ snd <$> map_to_list t ∧ StronglySorted (not_after older) rows.

(** ** The KYC whitelist *)

Definition SaveKYC (up : bool) (t : gmap string KYCRow) (user proofID : string) (ts : Z) : result PgError (gmap string KYCRow) :=
  if negb up then Err Refused
  else Ok (<[user := {| k_proof_id := proofID;
                        k_whitelisted := match t !! user with None => true | Some r => k_whitelisted r end;
                        k_granted_at := ts |}]> t).

Definition LoadKYC (up : bool) (t : gmap string KYCRow) : result PgError (list KYCEntry) :=
  if negb up then Err Refused
  else Ok ((λ kv, {| EUser := kv.1; EProofID := k_proof_id kv.2 |}) <$> List.filter (λ kv, k_whitelisted kv.2) (map_to_list t)).

(** ** The model registry *)

Definition SaveModelRegistryEntry (up : bool) (t : gmap string ModelEntry) (e : ModelEntry)
    : result PgError (gmap string ModelEntry) :=
  if negb up then Err Refused
  else Ok (<[EModelID e :=
    {| EModelID := EModelID e; EModelHash := EModelHash e; EVerifierContract := EVerifierContract e;
       EMetadata := EMetadata e;
       ERegisteredAt := match t !! EModelID e with None => ERegisteredAt e | Some r => ERegisteredAt r end;
       EDeployHash := EDeployHash e |}]> t).

Definition GetModelRegistryEntry (up : bool) (t : gmap string ModelEntry) (modelID : string) : result PgError ModelEntry :=
  if negb up then Err Refused
  else match t !! modelID with None => Err ErrNoRows | Some e => Ok e end.

(** ** Aggregation batches *)

Definition SaveAggBatch (up : bool) (t : gmap string AggBatchRow) (b : AggBatchRow) : result PgError (gmap string AggBatchRow) :=
  if negb up then Err Refused
  else match array_value (BProofHashes b), array_value (BIndividualProofHashes b) with
       | None, _ => Err (NotNullViolation "proof_hashes")
       | _, None => Err (NotNullViolation "individual_proof_hashes")
       | Some hashes, Some individual =>
           Ok (<[BatchID b :=
             {| BatchID := BatchID b;
                BMaxProofs := match t !! BatchID b with None => BMaxProofs b | Some r => BMaxProofs r end;
                BProofHashes := Some hashes; BMerkleRoot := BMerkleRoot b; BStatus := BStatus b;
                BCreatedAt := match t !! BatchID b with None => BCreatedAt b | Some r => BCreatedAt r end;
                BFinalizedAt := BFinalizedAt b; BAggregateProofHash := BAggregateProofHash b;
                BIndividualProofHashes := Some individual; BProofCount := BProofCount b |}]> t)
       end.

Definition created_earlier (a b : AggBatchRow) : bool := BCreatedAt a <? BCreatedAt b.

Definition LoadAggBatches (up : bool) (t : gmap string AggBatchRow) : result PgError (list AggBatchRow) :=
  if negb up then Err Refused
  else Ok (sort_slice created_earlier (snd <$> map_to_list t)).

(** ** API keys *)

Definition InsertAPIKey (up : bool) (t : gmap string APIKeyRow) (rec : APIKeyRow) : result PgError (gmap string APIKeyRow) :=
  if negb up then Err Refused
  else match t !! AKeyID rec with
       | Some _ => Err (UniqueViolation "id")
       | None =>
           if existsb (λ kv, bool_decide (AKeyHash kv.2 = AKeyHash rec)) (map_to_list t) then Err (UniqueViolation "key_hash")
           else Ok (<[AKeyID rec := rec]> t)
       end.

Definition LookupAPIKeyByHash (up : bool) (t : gmap string APIKeyRow) (keyHash : string) : result PgError APIKeyRow :=
  if negb up then Err Refused
  else match List.find (λ kv, bool_decide (AKeyHash kv.2 = keyHash)) (map_to_list t) with
       | None => Err ErrNoRows
       | Some kv => Ok kv.2
       end.

Definition RevokeAPIKey (up : bool) (t : gmap string APIKeyRow) (id : string) (revokedAt : Z)
    : result PgError (gmap string APIKeyRow) :=
  if negb up then Err Refused
  else match t !! id with
       | Some r =>
           if ARevoked r then Err (NoRowAffected id)
           else Ok (<[id := {| AKeyID := AKeyID r; AKeyHash := AKeyHash r; AWallet := AWallet r; AScope := AScope r;
                               ACreatedAt := ACreatedAt r; ARevoked := true; ARevokedAt := revokedAt |}]> t)
       | None => Err (NoRowAffected id)
       end.

(** ** Wallet challenges *)

Definition InsertWalletChallenge (up : bool) (t : gmap string WalletChallengeRow) (rec : WalletChallengeRow)
    : result PgError (gmap string WalletChallengeRow) :=
  if negb up then Err Refused
  else match t !! CNonce rec with
       | Some _ => Err (UniqueViolation "nonce")
       | None => Ok (<[CNonce rec := rec]> t)
       end.

Definition LookupWalletChallenge (up : bool) (t : gmap string WalletChallengeRow) (nonce : string)
    : result PgError WalletChallengeRow :=
  if negb up then Err Refused
  else match t !! nonce with None => Err ErrNoRows | Some c => Ok c end.

Definition MarkWalletChallengeConsumed (up : bool) (t : gmap string WalletChallengeRow) (nonce : string) (consumedAt : Z)
    : result PgError (gmap string WalletChallengeRow) :=
  if negb up then Err Refused
  else match t !! nonce with
       | Some c =>
           if CConsumedAt c =? 0
           then Ok (<[nonce := {| CNonce := CNonce c; CWallet := CWallet c; CCreatedAt := CCreatedAt c;
                                  CExpiresAt := CExpiresAt c; CConsumedAt := consumedAt |}]> t)
           else Err (NoRowAffected nonce)
       | None => Err (NoRowAffected nonce)
       end.

(** ** Facts *)

Lemma Save_ok up t p t' :
  Save up t p = Ok t' ↔
  up = true ∧ PPath p ≠ [] ∧
  t' = <[PID p := match t !! PID p with None => row_of p (PPath p) | Some r => set_status r p end]> t.
Proof.
  unfold Save. destruct up; cbn [negb]; [|naive_solver].
  destruct (PPath p) as [|x l]; cbn [appended]; [rewrite array_value_nil; naive_solver|].
  rewrite array_value_some. split; [intros <-%ok_inj|intros (_ & _ & ->)]; [|done]. split_and!; done.
Qed.

(** A proof read back is the proof that was saved, but for the two anchoring
    fields. *)
Lemma proof_of_row p : AnchorHash p = ""%string → AnchoringStatus p = ""%string → proof_of (row_of p (PPath p)) = p.
Proof. intros H1 H2. unfold proof_of. cbn. rewrite <- H1 at 1. rewrite <- H2. by destruct p; cbn in *; subst. Qed.

(** A batch whose slices are not both filled is refused by the NOT NULL
    columns of the table, whatever the server does. *)
Lemma SaveAggBatch_nil up t b :
  BProofHashes b = None ∨ BIndividualProofHashes b = None → is_ok (SaveAggBatch up t b) = false.
Proof.
  unfold SaveAggBatch. destruct up; [|done]. cbn. intros [-> | ->]; rewrite array_value_nil; [done|].
  by destruct (array_value _).
Qed.

(** *** API keys: one row per key hash, and revocation is final *)

Inductive key_step : gmap string APIKeyRow → gmap string APIKeyRow → Prop :=
| key_insert up t rec t' : InsertAPIKey up t rec = Ok t' → key_step t t'
| key_revoke up t id at_ t' : RevokeAPIKey up t id at_ = Ok t' → key_step t t'.

Definition one_row_per_hash (t : gmap string APIKeyRow) : Prop :=
  ∀ i j r s, t !! i = Some r → t !! j = Some s → AKeyHash r = AKeyHash s → i = j.

Lemma InsertAPIKey_ok up t rec t' :
  InsertAPIKey up t rec = Ok t' →
  t !! AKeyID rec = None ∧ (∀ i r, t !! i = Some r → AKeyHash r ≠ AKeyHash rec) ∧ t' = <[AKeyID rec := rec]> t.
Proof.
  unfold InsertAPIKey. destruct up; [|done]. cbn [negb]. destruct (t !! AKeyID rec) eqn:E; [done|].
  destruct (existsb _ _) eqn:Ex; [done|]. intros <-%ok_inj. split; [done|]. split; [|done].
  intros i r Hi Hh. apply not_true_iff_false in Ex. apply Ex, existsb_exists. exists (i, r).
  split; [by apply list_elem_of_In, elem_of_map_to_list|]. by apply bool_decide_eq_true.
Qed.

Lemma RevokeAPIKey_ok up t id at_ t' :
  RevokeAPIKey up t id at_ = Ok t' →
  ∃ r, t !! id = Some r ∧ ARevoked r = false ∧
    t' = <[id := {| AKeyID := AKeyID r; AKeyHash := AKeyHash r; AWallet := AWallet r; AScope := AScope r;
                    ACreatedAt := ACreatedAt r; ARevoked := true; ARevokedAt := at_ |}]> t.
Proof.
  unfold RevokeAPIKey. destruct up; [|done]. cbn [negb]. destruct (t !! id) as [r|]; [|done].
  destruct (ARevoked r) eqn:E; [done|]. intros <-%ok_inj. by exists r.
Qed.

Lemma key_step_unique t t' : key_step t t' → one_row_per_hash t → one_row_per_hash t'.
Proof.
  intros Hs Ht. destruct Hs as [up t rec t' Hi|up t id at_ t' Hr].
  - apply InsertAPIKey_ok in Hi as (Hnew & Hfresh & ->). intros i j r s.
    destruct (decide (i = AKeyID rec)) as [->|Hni], (decide (j = AKeyID rec)) as [->|Hnj];
      rewrite ?lookup_insert_eq, ?lookup_insert_ne by done; [done|..].
    + intros [= <-] Hj E. by destruct (Hfresh j s Hj).
    + intros Hri [= <-] E. by destruct (Hfresh i r Hri).
    + by apply Ht.
  - apply RevokeAPIKey_ok in Hr as (q & Hq & _ & ->). intros i j r s.
    destruct (decide (i = id)) as [->|Hni], (decide (j = id)) as [->|Hnj];
      rewrite ?lookup_insert_eq, ?lookup_insert_ne by done; [done|..].
    + intros [= <-] Hj E. by apply (Ht id j q s).
    + intros Hri [= <-] E. by apply (Ht i id r q).
    + by apply Ht.
Qed.

(** Along any statements, a hash finds the one row that was inserted with
    it, and a key that was revoked stays so. *)
Lemma api_keys_table t t' up :
  one_row_per_hash t → rtc key_step t t' →
  one_row_per_hash t' ∧
  (∀ i r, t' !! i = Some r → LookupAPIKeyByHash true t' (AKeyHash r) = Ok r) ∧
  (∀ i r, t !! i = Some r → ARevoked r = true →
     t' !! i = Some r ∧ ∀ at_, is_ok (RevokeAPIKey up t' i at_) = false).
Proof.
  intros Ht Hs. assert (one_row_per_hash t') as Ht'.
  { revert Ht. induction Hs as [|x y z Hxy _ IH]; [done|]. intros Hx. apply IH. by eapply key_step_unique. }
  split; [done|]. split.
  - intros i r Hi. unfold LookupAPIKeyByHash. cbn [negb]. destruct (List.find _ _) as [[j s]|] eqn:E.
    + apply find_some in E as [Hj Hh]. cbn in Hh. apply bool_decide_eq_true in Hh.
      apply list_elem_of_In, elem_of_map_to_list in Hj. assert (i = j) as -> by (by eapply Ht').
      cbn. congruence.
    + apply find_none with (x := (i, r)) in E; [|by apply list_elem_of_In, elem_of_map_to_list].
      cbn in E. by apply bool_decide_eq_false in E.
  - intros i r Hi Hr. assert (t' !! i = Some r) as Hi'.
    { clear Ht Ht'. revert Hi. induction Hs as [|x y z Hxy _ IH]; [done|]. intros Hx. apply IH.
      destruct Hxy as [u x rec y Hk|u x id a y Hk].
      - apply InsertAPIKey_ok in Hk as (Hnew & _ & ->). rewrite lookup_insert_ne; [done|congruence].
      - apply RevokeAPIKey_ok in Hk as (q & Hq & Hqr & ->). rewrite lookup_insert_ne; [done|congruence]. }
    split; [done|]. intros a. unfold RevokeAPIKey. destruct up; [|done]. cbn. by rewrite Hi', Hr.
Qed.

(** *** Wallet challenges are consumed once *)

Inductive challenge_step : gmap string WalletChallengeRow → gmap string WalletChallengeRow → Prop :=
| challenge_insert up t rec t' : InsertWalletChallenge up t rec = Ok t' → challenge_step t t'
| challenge_consume up t nonce at_ t' : at_ ≠ 0 → MarkWalletChallengeConsumed up t nonce at_ = Ok t' → challenge_step t t'.

Lemma challenge_consumed_once up t nonce at_ t1 t2 :
  at_ ≠ 0 → MarkWalletChallengeConsumed up t nonce at_ = Ok t1 → rtc challenge_step t1 t2 →
  ∀ up' at', is_ok (MarkWalletChallengeConsumed up' t2 nonce at') = false.
Proof.
  intros Hat Hm Hs up' at'. assert (∃ c, t2 !! nonce = Some c ∧ CConsumedAt c ≠ 0) as (c & Hc & Hne).
  { assert (∃ c, t1 !! nonce = Some c ∧ CConsumedAt c ≠ 0) as Ht1.
    { unfold MarkWalletChallengeConsumed in Hm. destruct up; [|done]. cbn [negb] in Hm.
      destruct (t !! nonce) as [c|]; [|done]. destruct (CConsumedAt c =? 0); [|done]. apply ok_inj in Hm as <-.
      rewrite lookup_insert_eq. eexists. split; [done|]. done. }
    clear Hm. induction Hs as [|x y z Hxy _ IH]; [done|]. apply IH. destruct Ht1 as (c & Hc & Hne). exists c. split; [|done].
    destruct Hxy as [u x rec y Hi|u x n a y Ha Hi]; [unfold InsertWalletChallenge in Hi|unfold MarkWalletChallengeConsumed in Hi];
      destruct u; try done; cbn [negb] in Hi.
    - destruct (x !! CNonce rec) eqn:E; [done|]. apply ok_inj in Hi as <-. rewrite lookup_insert_ne; [done|congruence].
    - destruct (x !! n) as [d|] eqn:E; [|done]. destruct (Z.eqb_spec (CConsumedAt d) 0); [|done]. apply ok_inj in Hi as <-.
      rewrite lookup_insert_ne; [done|congruence]. }
  unfold MarkWalletChallengeConsumed. destruct up'; [|done]. cbn [negb]. rewrite Hc.
  by destruct (Z.eqb_spec (CConsumedAt c) 0).
Qed.
End store.

(** The laws of the driver have a model: the driver as it is documented. *)
#[export] Instance pq_driver : PqDriver := {| array_value := Datatypes.id; array_value_nil := eq_refl; array_value_some _ := eq_refl |}.
