(* ===== verification/Kyc.v ===== *)
(** * The KYC demo ([engine/internal/kyc/demo.go], [defi_flow.go], [types.go])

    The whitelist that a valid proof opens. The map is not locked in the code;
    here a method is one step. The clock is an argument. *)

From S2P Require Import Prelude GoLib Sha256 Merkle Engine.

Local Open Scope Z_scope.

Record KYCResult := { KUser : string; KProofID : string; KVerified : bool; KTS : Z; KGrantedAt : Z }.

Record DeFiAccess := { AUser : string; Whitelisted : bool; AProofID : string }.

Inductive KYCError := ErrVerify (e : EngineError) | ErrKYCFailed (pid : string).

Notation whitelist := (gmap string DeFiAccess).

Definition NewDemo : whitelist := ∅.

Definition CheckKYC (eng : ProofEngine) (now : time) (pid : string) : result KYCError KYCResult :=
  match VerifyProof eng pid with
  | Err e => Err (ErrVerify e)
  | Ok valid => Ok {| KUser := ""; KProofID := pid; KVerified := valid; KTS := unix now; KGrantedAt := 0 |}
  end.

Definition access (user pid : string) : DeFiAccess := {| AUser := user; Whitelisted := true; AProofID := pid |}.

Definition GrantAccess (eng : ProofEngine) (now : time) (w : whitelist) (user pid : string)
    : result KYCError (whitelist * DeFiAccess) :=
  let! res := CheckKYC eng now pid in
  if negb (KVerified res) then Err (ErrKYCFailed pid)
  else Ok (<[user := access user pid]> w, access user pid).

Definition IsWhitelisted (w : whitelist) (user : string) : bool :=
  match w !! user with Some a => Whitelisted a | None => false end.

Definition RestoreAccess (w : whitelist) (user pid : string) : whitelist := <[user := access user pid]> w.

(** [DeFiFlow.RunDemo]: [elapsed] and [now] are its clock readings. *)
Definition demo_input : bytes :=
  bytes_of ("{" +:+ string_join "," [quote "user" +:+ ":" +:+ quote "alice"; quote "doc_type" +:+ ":" +:+ quote "passport"] +:+ "}")%string.
Definition demo_output : bytes :=
  bytes_of ("{" +:+ string_join "," [quote "verified" +:+ ":true"; quote "score" +:+ ":95"] +:+ "}")%string.

Definition RunDemo (eng : ProofEngine) (w : whitelist) (elapsed now : Z) (agentID : string)
    : option (ProofEngine * result KYCError (whitelist * bool)) :=
  '(eng, p) ← Generate eng elapsed now agentID demo_input demo_output (bytes_of "kyc-model-v1") "kyc";
  Some (eng, let! (w, _) := GrantAccess eng now w "alice" (PID p) in Ok (w, IsWhitelisted w "alice")).

(** ** Facts *)

Lemma GrantAccess_ok eng now w user pid w' a :
  GrantAccess eng now w user pid = Ok (w', a) ↔
  VerifyProof eng pid = Ok true ∧ a = access user pid ∧ w' = <[user := access user pid]> w.
Proof.
  unfold GrantAccess, CheckKYC. destruct (VerifyProof eng pid) as [[]|e]; cbn; naive_solver.
Qed.

(** The demo whitelists its user from every state of the engine. *)
Lemma RunDemo_whitelists eng w elapsed now agent :
  engine_inv eng → seq eng < int64_max →
  ∃ eng' w', RunDemo eng w elapsed now agent = Some (eng', Ok (w', true)).
Proof.
  intros Hinv Hlt. unfold RunDemo, Generate.
  destruct (GenerateWithKey eng elapsed now agent "" demo_input demo_output (bytes_of "kyc-model-v1") "kyc" "local")
    as [[eng' p]|] eqn:E.
  - pose proof (Generate_shape _ _ _ _ _ _ _ _ _ _ _ _ E) as (_ & _ & _ & _ & Hv & Hr & Hpid & _ & Hp).
    cbn. exists eng', (<["alice"%string := access "alice" (PID p)]> w).
    assert (GrantAccess eng' now w "alice" (PID p) = Ok (<["alice"%string := access "alice" (PID p)]> w, access "alice" (PID p))) as ->.
    { apply GrantAccess_ok. split; [|done]. unfold VerifyProof. rewrite Hp, Hpid, lookup_insert_eq. by rewrite Hv, Hr. }
    cbn. unfold IsWhitelisted. by rewrite lookup_insert_eq.
  - unfold GenerateWithKey in E. destruct (Root_nonempty [demo_input; demo_output; bytes_of "kyc-model-v1"]) as (r & Hr & _); [done|].
    rewrite Hr in E. done.
Qed.
