(* ===== verification/Inference.v ===== *)
(** * The inference service ([engine/internal/inference/service.go])

    Proof generation, submission and storage in sequence, and the model registry
    over the database. What the submitter answers ([None]: an error), whether the
    database accepts a statement and the clocks are arguments; the logged events
    are left out. *)

From S2P Require Import Prelude GoLib Sha256 Merkle Engine PgStore.

Local Open Scope Z_scope.

Inductive InfError :=
| ErrSaveProof (e : PgError)
| ErrInfNotFound (pid : string)
| ErrLocalVerify (e : EngineError)
| ErrEmptyModel
| ErrSaveModel (e : PgError)
| ErrNoDatabase
| ErrModelNotFound (id : string) (e : PgError).

(** [p.Deploy = d] through the pointer that the engine's map shares. *)
Definition set_deploy (d : string) (p : Proof) : Proof :=
  {| PID := PID p; Agent := Agent p; PH := PH p; IH := IH p; OH := OH p; MH := MH p; PRoot := PRoot p;
     PPath := PPath p; Idx := Idx p; TS := TS p; Valid := Valid p; Revoked := Revoked p; UseCase := UseCase p;
     PubKey := PubKey p; Deploy := d; AnchorHash := AnchorHash p; AnchoringStatus := AnchoringStatus p;
     GenMs := GenMs p; Mode := Mode p |}.

Definition write_deploy (eng : ProofEngine) (pid d : string) : ProofEngine :=
  {| proofs := alter (set_deploy d) pid (proofs eng); seq := seq eng |}.

Section service.
Context `{PqDriver}.

(** [sub] is the submitter, when one is configured. *)
Definition GenerateInferenceProof (eng : ProofEngine) (db : option (gmap string ProofRow)) (up : bool)
    (sub : option (Proof → option string)) (elapsed now : Z) (agent : string) (input output model : bytes) (uc pubKey : string)
    : option (ProofEngine * option (gmap string ProofRow) * result InfError Proof) :=
  '(eng, proof) ← GenerateWithKey eng elapsed now agent pubKey input output model uc "inference";
  let '(eng, proof) :=
    match sub with
    | Some submit =>
        if bool_decide (pubKey = ""%string) then (eng, proof)
        else match submit proof with
             | None => (eng, proof)
             | Some deployHash => (write_deploy eng (PID proof) deployHash, set_deploy deployHash proof)
             end
    | None => (eng, proof)
    end in
  match db with
  | None => Some (eng, db, Ok proof)
  | Some t =>
      match SaveProof up t proof with
      | Err e => Some (eng, db, Err (ErrSaveProof e))
      | Ok t => Some (eng, Some t, Ok proof)
      end
  end.

Definition VerifyInferenceProof (eng : ProofEngine) (proofID : string) : result InfError bool :=
  match GetProof eng proofID with
  | None => Err (ErrInfNotFound proofID)
  | Some _ =>
      match VerifyProof eng proofID with
      | Err e => Err (ErrLocalVerify e)
      | Ok isValid => Ok isValid
      end
  end.

Definition model_entry (modelID modelHash verifierContract : string) (metadata : gmap string string) (at_ : Z) (deploy : string)
    : ModelEntry :=
  {| EModelID := modelID; EModelHash := modelHash; EVerifierContract := verifierContract; EMetadata := metadata;
     ERegisteredAt := at_; EDeployHash := deploy |}.

(** [up1] and [up2] decide the two writes; the second one's error is dropped. *)
Definition RegisterModel (db : option (gmap string ModelEntry)) (up1 up2 : bool)
    (sub : option (string → option string)) (now : Z) (modelID modelHash verifierContract : string)
    (metadata : gmap string string) : option (gmap string ModelEntry) * result InfError ModelEntry :=
  if bool_decide (modelID = ""%string) || bool_decide (modelHash = ""%string) || bool_decide (verifierContract = ""%string)
  then (db, Err ErrEmptyModel)
  else
    let entry := model_entry modelID modelHash verifierContract metadata (unix now) "" in
    match match db with
          | None => Ok None
          | Some t => let! t := SaveModelRegistryEntry up1 t entry in Ok (Some t)
          end with
    | Err e => (db, Err (ErrSaveModel e))
    | Ok db =>
        match sub with
        | None => (db, Ok entry)
        | Some submit =>
            match submit modelID with
            | None => (db, Ok entry)
            | Some deployHash =>
                let entry := model_entry modelID modelHash verifierContract metadata (unix now) deployHash in
                (match db with
                 | None => None
                 | Some t => Some (the_ok t (SaveModelRegistryEntry up2 t entry))
                 end, Ok entry)
            end
        end
    end.

Definition GetModelInfo (db : option (gmap string ModelEntry)) (up : bool) (modelID : string) : result InfError ModelEntry :=
  match db with
  | None => Err ErrNoDatabase
  | Some t =>
      match GetModelRegistryEntry up t modelID with
      | Err e => Err (ErrModelNotFound modelID e)
      | Ok stored => Ok stored
      end
  end.

(** ** Facts *)

Lemma write_deploy_lookup eng pid d q :
  proofs (write_deploy eng pid d) !! q = (if decide (q = pid) then set_deploy d <$> proofs eng !! q else proofs eng !! q).
Proof.
  unfold write_deploy. cbn. destruct (decide (q = pid)) as [->|]; [by rewrite lookup_alter_eq|by rewrite lookup_alter_ne].
Qed.

(** What a first registration returns is what is looked up afterwards. *)
Lemma register_then_get t up2 sub now id h c md db' e :
  t !! id = None → RegisterModel (Some t) true up2 sub now id h c md = (db', Ok e) →
  (∃ e', GetModelInfo db' true id = Ok e' ∧ EModelHash e' = h ∧ EVerifierContract e' = c ∧ EMetadata e' = md ∧
     ERegisteredAt e' = unix now ∧ (up2 = true → e' = e)).
Proof.
  intros Hnew. unfold RegisterModel. destruct (_ || _); [done|]. cbn. rewrite Hnew.
  destruct sub as [submit|]; [destruct (submit id) as [d|]|].
  2,3: intros [= <- <-]; unfold GetModelInfo, GetModelRegistryEntry; cbn; rewrite lookup_insert_eq; eexists; by split_and!.
  destruct up2; cbn; intros [= <- <-]; unfold GetModelInfo, GetModelRegistryEntry; cbn; rewrite !lookup_insert_eq;
    eexists; by split_and!.
Qed.
End service.

(** Registering a known model again: the answer shows the new time, the table
    keeps the old one; and while the submission fails, the deploy hash of the
    first registration is erased. *)
Example register_again_forgets_deploy :
  let first := RegisterModel (Some ∅) true true (Some (λ _, Some "d1"%string)) 0 "m" "h" "c" ∅ in
  let again := RegisterModel (fst first) true true (Some (λ _, None)) (5 * second) "m" "h" "c" ∅ in
  (EDeployHash <$> match snd first with Ok e => Some e | Err _ => None end) = Some "d1"%string ∧
  (ERegisteredAt <$> match snd again with Ok e => Some e | Err _ => None end) = Some 5 ∧
  match GetModelInfo (fst again) true "m" with Ok e => (ERegisteredAt e, EDeployHash e) | Err _ => (-1, ""%string) end
  = (0, ""%string).
Proof. vm_compute. done. Qed.
