(* ===== verification/Seed.v ===== *)
(** * Demo data ([engine/internal/prover/seed.go])

    The eight proofs that an empty engine starts with. The contract hash of the
    manifest and the clocks are arguments. *)

From S2P Require Import Prelude GoLib Sha256 Merkle Engine PgStore Inference.

Local Open Scope Z_scope.

Record Demo := {
  d_agent : string; d_input : string; d_output : string; d_model : string; d_use_case : string; d_pub_key : string;
}.

(** The JSON texts below are written with single quotes. *)
Definition json_text (s : string) : string :=
  string_map (λ c, if bool_decide (c = chr 39) then chr 34 else c) s.

Definition demos : list Demo :=
  [
   {| d_agent := "kyc-verifier-v2";
      d_input := json_text "{'user_id':'alice_0x3f','doc_type':'passport','country':'DE','issued':'2022-03-15'}";
      d_output := json_text "{'verified':true,'confidence':0.97,'risk_score':12,'flags':[]}";
      d_model := "kyc-model-v2.1"; d_use_case := "kyc";
      d_pub_key := "020260dd84fc2f98a96e6a62ad499e0bcf21e7edf0eb1b48ee0fba6fda0d9478af4c" |};
   {| d_agent := "loan-decisioning-bot";
      d_input := json_text "{'applicant':'bob_0x7a','income':85000,'debt_ratio':0.23,'credit_score':742,'requested':25000}";
      d_output := json_text "{'decision':'approved','limit':25000,'rate':5.4,'term_months':36,'conditions':['employment_verification']}";
      d_model := "lending-llm-v3.0"; d_use_case := "loan";
      d_pub_key := "020260dd84fc2f98a96e6a62ad499e0bcf21e7edf0eb1b48ee0fba6fda0d9478af4c" |};
   {| d_agent := "insurance-claims-ai";
      d_input := json_text "{'claim_id':'CLM-2847','type':'auto','damage_photos':3,'police_report':true,'amount_claimed':12500}";
      d_output := json_text "{'assessment':'valid','approved_amount':11800,'deductible':500,'payout':11300,'fraud_probability':0.02}";
      d_model := "claims-assessor-v1.4"; d_use_case := "insurance";
      d_pub_key := "01a3f5b4c2d1e6f7089a0b1c2d3e4f5a6b7c8d9e0f1a2b3c4d5e6f7a8b9c0d1e2f" |};
   {| d_agent := "content-moderator";
      d_input := json_text "{'post_id':'p_9823','text':'Check out this amazing product...','media_count':2,'user_flags':0}";
      d_output := json_text "{'action':'approve','toxicity':0.03,'spam_score':0.12,'category':'commerce','review_needed':false}";
      d_model := "moderation-v2.0"; d_use_case := "content_moderation";
      d_pub_key := "01a3f5b4c2d1e6f7089a0b1c2d3e4f5a6b7c8d9e0f1a2b3c4d5e6f7a8b9c0d1e2f" |};
   {| d_agent := "medical-diagnosis-ai";
      d_input := json_text "{'patient_hash':'0xf3c2','symptoms':['chest_pain','shortness_of_breath'],'vitals':{'bp':'140/90','hr':92}}";
      d_output := json_text "{'preliminary':'cardiac_evaluation_needed','urgency':'high','confidence':0.89,'referral':'cardiology'}";
      d_model := "medscreen-v4.1"; d_use_case := "medical_screening";
      d_pub_key := "020260dd84fc2f98a96e6a62ad499e0bcf21e7edf0eb1b48ee0fba6fda0d9478af4c" |};
   {| d_agent := "kyc-verifier-v2";
      d_input := json_text "{'user_id':'charlie_0x1b','doc_type':'drivers_license','country':'US','issued':'2023-09-01'}";
      d_output := json_text "{'verified':true,'confidence':0.94,'risk_score':18,'flags':['address_mismatch']}";
      d_model := "kyc-model-v2.1"; d_use_case := "kyc";
      d_pub_key := "01a3f5b4c2d1e6f7089a0b1c2d3e4f5a6b7c8d9e0f1a2b3c4d5e6f7a8b9c0d1e2f" |};
   {| d_agent := "loan-decisioning-bot";
      d_input := json_text "{'applicant':'dave_0x5c','income':42000,'debt_ratio':0.51,'credit_score':580,'requested':15000}";
      d_output := json_text "{'decision':'denied','reason':'debt_to_income_ratio_exceeded','max_eligible':5000,'suggestions':['reduce_existing_debt']}";
      d_model := "lending-llm-v3.0"; d_use_case := "loan";
      d_pub_key := "020260dd84fc2f98a96e6a62ad499e0bcf21e7edf0eb1b48ee0fba6fda0d9478af4c" |};
   {| d_agent := "aml-scanner";
      d_input := json_text "{'tx_hash':'0xabc123','from':'0x742d','to':'0x9f3e','amount_usd':48500,'chain':'ethereum'}";
      d_output := json_text "{'risk':'low','sanctions_match':false,'pep_match':false,'score':8,'cleared':true}";
      d_model := "aml-graph-v2.3"; d_use_case := "aml_screening";
      d_pub_key := "01a3f5b4c2d1e6f7089a0b1c2d3e4f5a6b7c8d9e0f1a2b3c4d5e6f7a8b9c0d1e2f" |}
  ]%string.

Definition seed_one (proofRegistryHash : string) (elapsed now : Z) (e : ProofEngine) (d : Demo) : option ProofEngine :=
  '(e, p) ← GenerateWithKey e elapsed now (d_agent d) (d_pub_key d) (bytes_of (d_input d)) (bytes_of (d_output d))
              (bytes_of (d_model d)) (d_use_case d) "anchored";
  Some (write_deploy e (PID p) proofRegistryHash).

Fixpoint seed_loop (proofRegistryHash : string) (elapsed now : nat → Z) (i : nat) (ds : list Demo) (e : ProofEngine)
    : option ProofEngine :=
  match ds with
  | [] => Some e
  | d :: ds => e ← seed_one proofRegistryHash (elapsed i) (now i) e d; seed_loop proofRegistryHash elapsed now (S i) ds e
  end.

Definition SeedDemoData (e : ProofEngine) (proofRegistryHash : string) (elapsed now : nat → Z) : option ProofEngine :=
  seed_loop proofRegistryHash elapsed now 0 demos e.

(** The loop of [serve] that stores the seeds; an error of [Save] is dropped. *)
Section save.
Context `{PqDriver}.

Fixpoint save_all (up : nat → bool) (i : nat) (t : gmap string ProofRow) (ps : list Proof) : gmap string ProofRow :=
  match ps with
  | [] => t
  | p :: ps => save_all up (S i) (the_ok t (Save (up i) t p)) ps
  end.

(** Loading and, if that leaves the engine empty, seeding and storing. The order
    of the stored list is irrelevant: its identifiers are distinct. *)
Definition load_or_seed (up : nat → bool) (elapsed now : nat → Z) (proofRegistryHash : string) (t : gmap string ProofRow)
    (rows : list ProofRow) (cut : option nat) : option (ProofEngine * gmap string ProofRow) :=
  let '(e, _, _) := Load New rows cut in
  if (size (proofs e) =? 0)%nat then
    e ← SeedDemoData e proofRegistryHash elapsed now;
    Some (e, save_all up 0 t (ListProofs (snd <$> map_to_list (proofs e))))
  else Some (e, t).
End save.
