(* ===== verification/Persist.v ===== *)
(** * The proof table and the engine

    The relation that keeps the [proofs] table of PgStore.v in step with the
    engine of Engine.v: generation, revocation, seeding and loading preserve it.
    ProofApi.v proves its handlers against these lemmas. *)

From S2P Require Import Prelude GoLib Sha256 Merkle Engine PgStore Inference Seed.

Local Open Scope Z_scope.

Section persist.
Context `{PqDriver}.

(** Every proof in memory is in the table as it is; a row that memory has lost is
    revoked; identifiers are those the engine has issued, the last one included. *)
Record persisted (e : ProofEngine) (t : gmap string ProofRow) : Prop := {
  per_engine : engine_inv e;
  per_mem pid p : proofs e !! pid = Some p →
    PID p = pid ∧ AnchorHash p = ""%string ∧ AnchoringStatus p = ""%string ∧ t !! pid = Some (row_of p (PPath p));
  per_row pid r : t !! pid = Some r →
    r_id r = pid ∧ (∃ n, 0 < n <= seq e ∧ pid = proof_id n) ∧ (proofs e !! pid = None → r_revoked r = true);
  per_last : 0 < seq e → is_Some (t !! proof_id (seq e));
}.

(** *** Generation *)

Lemma GetPath_three (i o m : bytes) : ∃ x l, GetPath [i; o; m] 0 = x :: l.
Proof.
  unfold GetPath. change (pad_odd [i; o; m]) with [i; o; m; m]. rewrite !fmap_cons.
  generalize (sha256 i) (sha256 o) (sha256 m). intros a b c. eexists _, _. cbn [length path_loop fmap list_fmap]. reflexivity.
Qed.

Lemma Generate_unanchored e elapsed now agent pk i o m uc mode e' p :
  GenerateWithKey e elapsed now agent pk i o m uc mode = Some (e', p) → AnchorHash p = ""%string ∧ AnchoringStatus p = ""%string.
Proof.
  unfold GenerateWithKey. destruct (Root _); [|done]. cbn [mbind option_bind]. intros Hg.
  apply Some_inj in Hg. injection Hg as _ <-. by split.
Qed.

Lemma Generate_saveable e elapsed now agent pk i o m uc mode e' p :
  GenerateWithKey e elapsed now agent pk i o m uc mode = Some (e', p) → PPath p ≠ [].
Proof.
  intros (_ & Hp & _)%Generate_shape. rewrite Hp. destruct (GetPath_three i o m) as (x & y & E). rewrite E. discriminate.
Qed.

Lemma row_of_proof_of r : row_of (proof_of r) (PPath (proof_of r)) = r.
Proof. by destruct r. Qed.

(** A new proof [p], stored as [p'] - itself or with its deploy hash. *)
Lemma generate_persisted e elapsed now agent pk i o m uc mode e1 p p' t :
  persisted e t → seq e < int64_max →
  GenerateWithKey e elapsed now agent pk i o m uc mode = Some (e1, p) →
  PID p' = PID p → AnchorHash p' = ""%string → AnchoringStatus p' = ""%string →
  t !! PID p = None ∧
  persisted {| proofs := <[PID p := p']> (proofs e1); seq := seq e1 |} (<[PID p := row_of p' (PPath p')]> t).
Proof.
  intros [He Hmem Hrow Hlast] Hlt Hg Hid Ha Hs.
  assert (engine_inv e1) as He1 by (eapply engine_step_inv; [by eapply step_generate|done]).
  pose proof (Generate_shape _ _ _ _ _ _ _ _ _ _ _ _ Hg) as (_ & _ & _ & _ & _ & _ & Hpid & Hseq & Hp).
  pose proof (inv_seq _ He) as Hr. rewrite wrap64_id in Hseq by (unfold int64_min; lia).
  assert (t !! PID p = None) as Hnew.
  { destruct (t !! PID p) as [r|] eqn:E; [|done]. apply Hrow in E as (_ & (n & Hn & E) & _).
    rewrite Hpid in E. apply proof_id_inj in E. lia. }
  split; [done|]. rewrite Hp, <- Hpid, insert_insert_eq. split; cbn.
  - destruct He1 as [H1 H2]. split; [done|]. intros n Hn Hmax. cbn. cbn in Hn. specialize (H2 n Hn Hmax). rewrite Hp in H2.
    rewrite Hpid. destruct (decide (proof_id n = proof_id (seq e1))) as [E|Hne];
      [apply proof_id_inj in E; lia|]. by rewrite lookup_insert_ne in H2 |- *.
  - intros pid q. destruct (decide (pid = PID p)) as [->|Hne].
    + rewrite !lookup_insert_eq. intros [= <-]. done.
    + rewrite !lookup_insert_ne by done. intros Hq%evict_lookup. by apply Hmem.
  - intros pid r. destruct (decide (pid = PID p)) as [->|Hne].
    + rewrite !lookup_insert_eq. intros [= <-]. split; [done|]. split; [|done]. exists (seq e1). split; [lia|done].
    + rewrite !lookup_insert_ne by done. intros Hq. apply Hrow in Hq as Hq'. destruct Hq' as (H1 & (n & Hn & H2) & H3).
      split; [done|]. split; [exists n; split; [lia|done]|]. intros Hgone.
      destruct (proofs e !! pid) as [q|] eqn:Eq; [|by apply H3].
      apply Hmem in Eq as Hq'. destruct Hq' as (_ & _ & _ & Hq'). rewrite Hq in Hq'. apply Some_inj in Hq' as ->. cbn.
      destruct (Revoked q) eqn:Er; [done|]. by rewrite (evict_kept _ _ _ Eq Er) in Hgone.
  - intros _. rewrite <- Hpid, lookup_insert_eq. done.
Qed.

(** Storing the new proof where its row is not in the table yet. *)
Lemma Save_new t p : PPath p ≠ [] → t !! PID p = None → Save true t p = Ok (<[PID p := row_of p (PPath p)]> t).
Proof. intros Hp Ht. apply Save_ok. by rewrite Ht. Qed.

Lemma write_deploy_insert e elapsed now agent pk i o m uc mode e1 p d :
  GenerateWithKey e elapsed now agent pk i o m uc mode = Some (e1, p) →
  write_deploy e1 (PID p) d = {| proofs := <[PID p := set_deploy d p]> (proofs e1); seq := seq e1 |} ∧
  e1 = {| proofs := <[PID p := p]> (proofs e1); seq := seq e1 |}.
Proof.
  intros Hg. pose proof (Generate_shape _ _ _ _ _ _ _ _ _ _ _ _ Hg) as (_ & _ & _ & _ & _ & _ & Hpid & _ & Hp).
  rewrite <- Hpid in Hp. unfold write_deploy. split.
  - f_equal. rewrite Hp, alter_insert_eq, insert_insert_eq. done.
  - destruct e1 as [ps k]. cbn in *. rewrite Hp at 1. by rewrite Hp, insert_insert_eq.
Qed.

(** *** Revocation *)

Lemma revoke_persisted e t pid e' p :
  persisted e t → Revoke e pid = Ok e' → GetProof e' pid = Some p →
  Update true t p = Ok (<[pid := row_of p (PPath p)]> t) ∧ persisted e' (<[pid := row_of p (PPath p)]> t).
Proof.
  intros [He Hmem Hrow Hlast] Hr Hget. pose proof (engine_step_inv _ _ (step_revoke _ _ _ Hr) He) as He'.
  unfold Revoke in Hr. destruct (proofs e !! pid) as [q|] eqn:E; [|done]. destruct (Revoked q); [done|].
  apply ok_inj in Hr as <-. unfold GetProof in Hget. cbn in Hget. rewrite lookup_insert_eq in Hget. apply Some_inj in Hget as <-.
  destruct (Hmem _ _ E) as (H1 & H2 & H3 & H4). split.
  - unfold Update. cbn [negb]. change (PID (revoke_proof q)) with (PID q). rewrite H1, H4. done.
  - split; cbn; [done|..].
    + intros x y. destruct (decide (x = pid)) as [->|Hne].
      * rewrite !lookup_insert_eq. by intros [= <-].
      * rewrite !lookup_insert_ne by done. apply Hmem.
    + intros x y. destruct (decide (x = pid)) as [->|Hne].
      * rewrite !lookup_insert_eq. intros [= <-]. apply Hrow in H4 as (H4 & H5 & _). done.
      * rewrite !lookup_insert_ne by done. apply Hrow.
    + intros Hpos. destruct (decide (proof_id (seq e) = pid)) as [<-|Hne]; [by rewrite lookup_insert_eq|].
      rewrite lookup_insert_ne by done. by apply Hlast.
Qed.

(** *** Loading *)

Lemma restore_all_snoc ps p : restore_all (ps ++ [p]) = Restore (restore_all ps) p.
Proof. unfold restore_all. by rewrite foldl_app. Qed.

Lemma restore_proofs ps : proofs (restore_all ps) = fill_map PID (λ p, p) ∅ ps.
Proof. induction ps as [|q ps IH] using rev_ind; [done|]. rewrite restore_all_snoc. unfold fill_map. rewrite foldl_app. cbn. by rewrite IH. Qed.

Lemma restore_seq ps N :
  0 <= N <= int64_max → (∀ p, p ∈ ps → ∃ n, 0 < n <= N ∧ PID p = proof_id n) →
  0 <= seq (restore_all ps) <= N ∧ (∀ n, 0 < n <= N → proof_id n ∈ PID <$> ps → n <= seq (restore_all ps)).
Proof.
  intros HN. induction ps as [|q ps IH] using rev_ind; intros Hps.
  - cbn. split; [lia|]. intros n _ Hn. by apply elem_of_nil in Hn.
  - rewrite restore_all_snoc. destruct IH as [H1 H2]; [intros p Hp; apply Hps, elem_of_app; by left|].
    destruct (Hps q) as (n & Hn & Hid); [apply elem_of_app; right; by left|].
    unfold Restore. cbn [seq]. rewrite Hid, scan_proof_id by lia. split; [destruct (_ <? _) eqn:?; bool_to_prop; lia|].
    intros k Hk Hin. rewrite fmap_app, elem_of_app in Hin. destruct Hin as [Hin|Hin].
    + specialize (H2 k Hk Hin). destruct (_ <? _) eqn:?; bool_to_prop; lia.
    + cbn in Hin. apply list_elem_of_singleton in Hin. rewrite Hid in Hin. apply proof_id_inj in Hin as ->.
      destruct (_ <? _) eqn:?; bool_to_prop; lia.
Qed.

Lemma load_proofs t rows :
  (∀ pid r, t !! pid = Some r → r_id r = pid) → select_proofs t rows →
  proofs (restore_all (proof_of <$> rows)) = proof_of <$> t.
Proof.
  intros Hid [Hperm _]. rewrite restore_proofs.
  assert (fill_map PID (λ p, p) ∅ (proof_of <$> rows) = fill_map r_id proof_of ∅ rows) as ->; [|by apply fill_map_entries].
  unfold fill_map. generalize (∅ : gmap string Proof). clear. induction rows as [|r rows IH]; intros m; [done|]. apply IH.
Qed.

(** Loading the table of a running server gives its engine back, and with it
    the revoked proofs that memory had dropped. *)
Lemma load_persisted e t rows :
  persisted e t → select_proofs t rows →
  let e' := restore_all (proof_of <$> rows) in
  proofs e' = proof_of <$> t ∧ seq e' = seq e ∧ persisted e' t.
Proof.
  intros [He Hmem Hrow Hlast] Hsel e'. assert (proofs e' = proof_of <$> t) as Hps.
  { apply load_proofs; [|done]. intros pid r Hr. by apply Hrow in Hr as [Hr _]. }
  pose proof (inv_seq _ He) as Hbound. assert (seq e' = seq e) as Hseq.
  { assert (∀ p, p ∈ proof_of <$> rows → ∃ n, 0 < n <= seq e ∧ PID p = proof_id n) as Hids.
    { intros p Hp. apply list_elem_of_fmap in Hp as (r & -> & Hr). destruct Hsel as [Hperm _]. rewrite Hperm in Hr.
      apply list_elem_of_fmap in Hr as ([k r'] & -> & Hr). apply elem_of_map_to_list in Hr. cbn.
      apply Hrow in Hr as (-> & Hn & _). exact Hn. }
    destruct (restore_seq _ _ Hbound Hids) as [H1 H2]. fold e' in H1, H2. destruct (decide (seq e = 0)) as [E|E]; [lia|].
    destruct (Hlast ltac:(lia)) as [r Hr]. assert (seq e <= seq e'); [|lia]. apply H2; [lia|].
    apply list_elem_of_fmap. exists (proof_of r). destruct (Hrow _ _ Hr) as [Hid _]. split; [by rewrite <- Hid|].
    apply list_elem_of_fmap_2. destruct Hsel as [Hperm _]. rewrite Hperm. apply list_elem_of_fmap.
    exists (proof_id (seq e), r). split; [done|]. by apply elem_of_map_to_list. }
  split; [done|]. split; [done|]. split.
  - apply restore_all_inv.
  - intros pid p. rewrite Hps, lookup_fmap, fmap_Some. intros (r & Hr & ->). apply Hrow in Hr as Hr'.
    destruct Hr' as (Hid & _). split_and!; [done..|]. by rewrite row_of_proof_of.
  - intros pid r Hr. rewrite Hseq, Hps, lookup_fmap, Hr. apply Hrow in Hr as (H1 & H2 & _). done.
  - by rewrite Hseq.
Qed.


(** *** Seeding *)

Definition table_of (e : ProofEngine) : gmap string ProofRow := (λ p, row_of p (PPath p)) <$> proofs e.

(** An engine whose whole memory could be stored. *)
Record storable (e : ProofEngine) : Prop := {
  st_persisted : persisted e (table_of e);
  st_paths pid p : proofs e !! pid = Some p → PPath p ≠ [];
}.

Lemma New_storable : storable New.
Proof. split; [|done]. split; cbn; [apply New_inv|done|done|lia]. Qed.

Lemma seed_one_storable reg el now e d :
  storable e → seq e < int64_max → Z.of_nat (size (proofs e)) <= MaxProofs →
  ∃ e', seed_one reg el now e d = Some e' ∧ storable e' ∧ seq e' = seq e + 1 ∧ (size (proofs e') <= S (size (proofs e)))%nat.
Proof.
  intros [Hp Hpath] Hlt Hsize. unfold seed_one.
  destruct (GenerateWithKey _ _ _ _ _ _ _ _ _ _) as [[e1 p]|] eqn:Hg.
  2: { unfold GenerateWithKey in Hg. destruct (Root_nonempty [bytes_of (d_input d); bytes_of (d_output d); bytes_of (d_model d)])
         as (r & Hr & _); [done|]. by rewrite Hr in Hg. }
  cbn [mbind option_bind]. destruct (write_deploy_insert _ _ _ _ _ _ _ _ _ _ _ _ reg Hg) as [Hw _].
  pose proof (Generate_shape _ _ _ _ _ _ _ _ _ _ _ _ Hg) as (_ & _ & _ & _ & _ & _ & Hpid & Hseq & Hps).
  pose proof (Generate_saveable _ _ _ _ _ _ _ _ _ _ _ _ Hg) as Hne.
  destruct (Generate_unanchored _ _ _ _ _ _ _ _ _ _ _ _ Hg) as [Ha Hs].
  destruct (generate_persisted _ _ _ _ _ _ _ _ _ _ _ _ (set_deploy reg p) _ Hp Hlt Hg eq_refl Ha Hs) as [_ Hper].
  assert (proofs e1 = <[PID p := p]> (proofs e)) as He1.
  { rewrite Hps, <- Hpid. unfold evictIfNeeded. by rewrite (proj2 (Z.leb_le _ _)) by done. }
  pose proof (inv_seq _ (per_engine _ _ Hp)) as Hbound. rewrite wrap64_id in Hseq by (unfold int64_min; lia).
  eexists. split; [reflexivity|]. rewrite Hw. split; [split|].
  - assert (table_of {| proofs := <[PID p := set_deploy reg p]> (proofs e1); seq := seq e1 |}
      = <[PID p := row_of (set_deploy reg p) (PPath (set_deploy reg p))]> (table_of e)) as ->; [|exact Hper].
    unfold table_of. cbn [proofs]. by rewrite He1, insert_insert_eq, fmap_insert.
  - intros pid q. cbn [proofs]. rewrite He1, insert_insert_eq. destruct (decide (pid = PID p)) as [->|];
      [rewrite lookup_insert_eq; by intros [= <-]|rewrite lookup_insert_ne by done; apply Hpath].
  - split; [cbn; lia|]. cbn [proofs]. rewrite He1, insert_insert_eq. destruct (proofs e !! PID p) eqn:E;
      [rewrite map_size_insert_Some by (by rewrite E)|rewrite map_size_insert_None by done]; lia.
Qed.

Lemma seed_loop_storable reg el now ds : ∀ i e,
  storable e → seq e + Z.of_nat (length ds) <= int64_max → Z.of_nat (size (proofs e) + length ds) <= MaxProofs →
  ∃ e', seed_loop reg el now i ds e = Some e' ∧ storable e' ∧ seq e' = seq e + Z.of_nat (length ds).
Proof.
  induction ds as [|d ds IH]; intros i e He Hseq Hsize; cbn [seed_loop length] in *.
  - exists e. split; [done|]. split; [done|lia].
  - destruct (seed_one_storable reg (el i) (now i) e d He) as (e1 & -> & H1 & H2 & H3); [lia|lia|]. cbn [mbind option_bind].
    destruct (IH (S i) e1) as (e' & H4 & H5 & H6); [done|lia|lia|]. exists e'. split; [done|]. split; [done|lia].
Qed.

Lemma save_all_new up ps : (∀ i, up i = true) → ∀ i t,
  Forall (λ p, PPath p ≠ []) ps → NoDup (PID <$> ps) → Forall (λ p, t !! PID p = None) ps →
  save_all up i t ps = fill_map PID (λ p, row_of p (PPath p)) t ps.
Proof.
  intros Hup. induction ps as [|p ps IH]; intros i t Hpath Hnd Hnew; [done|]. cbn [save_all].
  apply Forall_cons in Hpath as [H1 H2], Hnew as [H3 H4]. rewrite fmap_cons in Hnd. apply NoDup_cons in Hnd as [H5 H6].
  rewrite Hup, Save_new by done. cbn [the_ok]. rewrite IH; [done..|]. apply Forall_forall. intros q Hq.
  rewrite lookup_insert_ne; [by eapply Forall_forall in H4|]. intros E. apply H5. rewrite E. by apply list_elem_of_fmap_2.
Qed.

(** Storing the whole memory of an engine into an empty table. *)
Lemma save_all_memory up e i :
  (∀ i, up i = true) → storable e → save_all up i ∅ (ListProofs (snd <$> map_to_list (proofs e))) = table_of e.
Proof.
  intros Hup [Hp Hpath]. assert (ListProofs (snd <$> map_to_list (proofs e)) ≡ₚ snd <$> map_to_list (proofs e)) as Hperm by apply sort_slice_perm.
  assert (∀ pid p, proofs e !! pid = Some p → PID p = pid) as Hid by (intros pid p Hq; by apply (per_mem _ _ Hp) in Hq as [? _]).
  rewrite save_all_new; [|done| | |].
  - by apply fill_map_entries.
  - rewrite Hperm. apply Forall_forall. intros p Hq. apply list_elem_of_fmap in Hq as ([k q] & -> & Hq). cbn.
    apply elem_of_map_to_list in Hq. by eapply Hpath.
  - rewrite Hperm, <- list_fmap_compose. assert (PID ∘ snd <$> map_to_list (proofs e) = fst <$> map_to_list (proofs e)) as ->; [|apply NoDup_fst_map_to_list].
    apply list_fmap_ext. intros n [k p] Hk. cbn. apply Hid, elem_of_map_to_list. by eapply list_elem_of_lookup_2.
  - apply Forall_forall. intros. apply lookup_empty.
Qed.

(** *** Starting *)

Lemma SeedDemoData_storable reg el now :
  ∃ e, SeedDemoData New reg el now = Some e ∧ storable e ∧ 0 < seq e.
Proof.
  destruct (seed_loop_storable reg el now demos 0 New New_storable) as (e & He & Hst & Hseq); [by vm_compute..|].
  exists e. split; [exact He|]. split; [exact Hst|]. rewrite Hseq. by vm_compute.
Qed.

(** The first start seeds the engine and the table alike. *)
Lemma first_load up el now reg :
  (∀ i, up i = true) →
  ∃ e t, load_or_seed up el now reg ∅ [] None = Some (e, t) ∧ persisted e t ∧ 0 < seq e.
Proof.
  intros Hup. destruct (SeedDemoData_storable reg el now) as (e & He & Hst & Hseq).
  exists e, (table_of e). split; [|split; [apply Hst|done]].
  rewrite <- (save_all_memory up e 0 Hup Hst). unfold load_or_seed. cbn [Load fmap list_fmap foldl].
  destruct (Nat.eqb_spec (size (proofs New)) 0) as [_|E]; [by rewrite He|]. by destruct E.
Qed.

(** Every later start on the table of a server that was in step gives its engine
    back, and with it the revoked proofs that memory had dropped. *)
Lemma next_load up el now reg e t rows :
  persisted e t → 0 < seq e → select_proofs t rows →
  ∃ e', load_or_seed up el now reg t rows None = Some (e', t) ∧ proofs e' = proof_of <$> t ∧ seq e' = seq e ∧ persisted e' t.
Proof.
  intros Hp Hpos Hsel. destruct (load_persisted _ _ _ Hp Hsel) as (H1 & H2 & H3). exists (restore_all (proof_of <$> rows)).
  split; [|done]. unfold load_or_seed. cbn [Load]. change (foldl Restore New (proof_of <$> rows)) with (restore_all (proof_of <$> rows)).
  destruct (Nat.eqb_spec (size (proofs (restore_all (proof_of <$> rows)))) 0) as [E|]; [|done]. exfalso.
  apply map_size_empty_inv in E. rewrite H1 in E. apply fmap_empty_inv in E. destruct (per_last _ _ Hp Hpos) as [r Hr]. by rewrite E in Hr.
Qed.
End persist.
