(* ===== verification/ProofApi.v ===== *)
(** * The proof, KYC and inference handlers ([engine/internal/api/server.go])

    Every handler as a function of the server's state, the decoded request and
    the world: the clocks, the answers of the chain submitter and of the database.
    [None] is a panic. A handler's answer is its status and body, and the webhook
    events it emits. Handlers run concurrently in the code; here each is one step,
    so what two of them write to one proof at the same time is not modelled.
    Routing and the JSON text of bodies are net/http and encoding/json. *)

From S2P Require Import Prelude GoLib Json Sha256 Merkle Engine Verifier Webhooks PgStore Kyc Inference Seed Persist.

Local Open Scope Z_scope.

(** ** State *)

(** The tables of the database that these handlers touch. *)
Record Tables := {
  t_proofs : gmap string ProofRow;
  t_kyc : gmap string KYCRow;
  t_models : gmap string ModelEntry;
}.

(** [onchain] is [s.sub != nil]. *)
Record Server := {
  eng : ProofEngine;
  kyc : gmap string DeFiAccess;
  db : option Tables;
  onchain : bool;
  strict : bool;
  contract : string;
}.

(** What a handler meets: per item of a batch, the time the engine takes, the
    clock, whether the database accepts the write; and the submitter's answers. *)
Record World := {
  elapsed : nat → Z;
  clock : nat → time;
  up : nat → bool;
  submit : Proof → option string;
  submit_model : string → option string;
}.

Definition with_eng (s : Server) (e : ProofEngine) : Server :=
  {| eng := e; kyc := kyc s; db := db s; onchain := onchain s; strict := strict s; contract := contract s |}.
Definition with_kyc (s : Server) (w : gmap string DeFiAccess) : Server :=
  {| eng := eng s; kyc := w; db := db s; onchain := onchain s; strict := strict s; contract := contract s |}.
Definition with_db (s : Server) (d : option Tables) : Server :=
  {| eng := eng s; kyc := kyc s; db := d; onchain := onchain s; strict := strict s; contract := contract s |}.

Definition with_proofs (d : Tables) (t : gmap string ProofRow) : Tables :=
  {| t_proofs := t; t_kyc := t_kyc d; t_models := t_models d |}.
Definition with_kyc_rows (d : Tables) (t : gmap string KYCRow) : Tables :=
  {| t_proofs := t_proofs d; t_kyc := t; t_models := t_models d |}.
Definition with_models (d : Tables) (t : gmap string ModelEntry) : Tables :=
  {| t_proofs := t_proofs d; t_kyc := t_kyc d; t_models := t |}.

(** ** Answers *)

Record Checks := { input_hash_match : bool; output_hash_match : bool; model_hash_match : bool; commit_valid : bool; merkle_valid : bool }.

(** The members of a verification result; an absent member is [None]. *)
Record VerifyResult := {
  v_proof_id : string; v_valid : bool; v_revoked : bool;
  v_verified : option bool; v_error : option VerifierError; v_checks : option Checks;
}.

Inductive BatchItem :=
| ItemNoID (index : nat)
| ItemNotFound (index : nat) (proof_id : string)
| ItemResult (index : nat) (r : VerifyResult).

Inductive Body :=
| BError (msg : string)
| BEngineError (e : EngineError)
| BKYCError (e : KYCError)
| BInfError (e : InfError)
| BProof (p : Proof)
| BProofList (ps : list Proof) (total page limit : Z)
| BProofs (ps : list Proof)
| BVerify (r : VerifyResult)
| BVerifyBatch (rs : list BatchItem) (all_valid : bool)
| BRevoked (pid : string)
| BExport (exported : Z) (p : Proof) (contract verify_url : string)
| BStats (s : Stats)
| BKYC (r : KYCResult)
| BAccess (a : DeFiAccess)
| BWhitelisted (user : string) (ok : bool)
| BInference (pid : string) (valid : bool) (at_ : Z)
| BModel (e : ModelEntry).

Record Response := { code : Z; body : Body }.

Notation event := (string * json)%type.

Definition answer (code : Z) (b : Body) : Response := {| code := code; body := b |}.
Definition bad (code : Z) (msg : string) : Response := answer code (BError msg).

Section handlers.
Context `{PqDriver}.

(** ** Listing and reading *)

Record ListQuery := { q_page : string; q_limit : string; q_agent : string; q_public_key : string; q_mode : string }.

(** [order] is the iteration order of the engine's map. *)
Definition listProofs (s : Server) (order : list Proof) (q : ListQuery) : option Response :=
  let page := parse_int_value (q_page q) in
  let limit := parse_int_value (q_limit q) in
  let limit := if (limit <=? 0) || (100 <? limit) then 20 else limit in
  let page := if page <=? 0 then 1 else page in
  '(ps, total) ← ListFiltered order
    {| FAgent := q_agent q; FPubKey := q_public_key q; FMode := q_mode q; Page := page; Limit := limit |};
  Some (answer 200 (BProofList ps total page limit)).

Definition getProof (s : Server) (pid : string) : Response :=
  if bool_decide (pid = ""%string) then bad 400 "proof_id is required"
  else match GetProof (eng s) pid with
       | None => bad 404 "proof not found"
       | Some p => answer 200 (BProof p)
       end.

Definition stats (order : list Proof) : Response := answer 200 (BStats (GetStats order)).

(** [config.Load] is an argument: the manifest's APIHealth, or an error. *)
Definition exportProof (s : Server) (w : World) (api_health : option string) (pid : string) : option Response :=
  match GetProof (eng s) pid with
  | None => Some (bad 404 "proof not found")
  | Some p =>
      verifyURL ← match api_health with
                  | None | Some ""%string => Some ""%string
                  | Some url =>
                      if (String.length url <? String.length "/health")%nat then None
                      else Some (String.substring 0 (String.length url - String.length "/health") url +:+ "/verify")%string
                  end;
      Some (answer 200 (BExport (unix (clock w 0)) p (contract s) verifyURL))
  end.

(** ** Storing *)

Definition persist (s : Server) (up : bool) (p : Proof) : Server :=
  match db s with
  | None => s
  | Some d => with_db s (Some (with_proofs d (the_ok (t_proofs d) (Save up (t_proofs d) p))))
  end.

Definition persistUpdate (s : Server) (up : bool) (p : Proof) : Server :=
  match db s with
  | None => s
  | Some d => with_db s (Some (with_proofs d (the_ok (t_proofs d) (Update up (t_proofs d) p))))
  end.

(** ** Submission *)

Record SubmitReq := { s_agent : string; s_input : string; s_output : string; s_model : string; s_use_case : string; s_mode : string }.

Definition computed_deploy (p : Proof) : string := HexHash (bytes_of (PRoot p +:+ PID p)%string).

(** The deploy hash of a new proof in anchored mode; [None]: the submission
    failed under strict mode. *)
Definition anchor (s : Server) (w : World) (p : Proof) : option string :=
  if negb (onchain s) then Some (computed_deploy p)
  else match submit w p with
       | None => if strict s then None else Some (computed_deploy p)
       | Some deployHash => Some deployHash
       end.

Definition anchored_event (p : Proof) (uc : string) : event :=
  (EventProofAnchored,
   JObj [("agent", JStr (Agent p)); ("deploy_hash", JStr (Deploy p)); ("proof_id", JStr (PID p)); ("use_case", JStr uc)])%string.

Definition default_mode (mode : string) : string := if bool_decide (mode = ""%string) then "local"%string else mode.

(** What submitting one proof and submitting a batch share: generate, anchor if
    asked to, store. A strict failure leaves the proof in the engine only. *)
Definition produce (s : Server) (w : World) (i : nat) (pubKey mode : string) (q : SubmitReq) : option (Server * option Proof) :=
  '(e, p) ← GenerateWithKey (eng s) (elapsed w i) (clock w i) (s_agent q) pubKey (bytes_of (s_input q))
              (bytes_of (s_output q)) (bytes_of (s_model q)) (s_use_case q) mode;
  if bool_decide (mode = "anchored"%string) then
    match anchor s w p with
    | None => Some (with_eng s e, None)
    | Some d =>
        let p := set_deploy d p in
        Some (persist (with_eng s (write_deploy e (PID p) d)) (up w i) p, Some p)
    end
  else Some (persist (with_eng s e) (up w i) p, Some p).

Definition missing_data (q : SubmitReq) : bool :=
  bool_decide (s_agent q = ""%string) || bool_decide (s_input q = ""%string)
  || bool_decide (s_output q = ""%string) || bool_decide (s_model q = ""%string).

Definition too_long (q : SubmitReq) : bool :=
  (128 <? String.length (s_agent q))%nat || (Z.to_nat 10240 <? String.length (s_input q))%nat
  || (Z.to_nat 10240 <? String.length (s_output q))%nat || (256 <? String.length (s_model q))%nat.

(** [req] is the decoded body, [None] when it does not decode. *)
Definition submitProof (s : Server) (w : World) (pubKey : string) (req : option SubmitReq)
    : option (Server * Response * list event) :=
  match req with
  | None => Some (s, bad 400 "invalid JSON body", [])
  | Some q =>
      if missing_data q then Some (s, bad 400 "agent, input, output, model are required", [])
      else if too_long q then Some (s, bad 400 "field exceeds max length", [])
      else
        let mode := default_mode (s_mode q) in
        if bool_decide (mode = "anchored"%string) && strict s && negb (onchain s)
        then Some (s, bad 503 "anchored mode unavailable: deployer key is not configured", [])
        else
          '(s, op) ← produce s w 0 pubKey mode q;
          match op with
          | None => Some (s, bad 502 "on-chain submission failed", [])
          | Some p => Some (s, answer 201 (BProof p),
                            if bool_decide (mode = "anchored"%string) then [anchored_event p (s_use_case q)] else [])
          end
  end.

Fixpoint batch_loop (s : Server) (w : World) (i : nat) (pubKey mode : string) (qs : list SubmitReq) (results : list Proof)
    : option (Server * option (list Proof)) :=
  match qs with
  | [] => Some (s, Some results)
  | q :: qs =>
      if missing_data q then batch_loop s w (S i) pubKey mode qs results
      else
        '(s, op) ← produce s w i pubKey mode q;
        match op with
        | None => Some (s, None)
        | Some p => batch_loop s w (S i) pubKey mode qs (results ++ [p])
        end
  end.

Definition batchProofs (s : Server) (w : World) (pubKey : string) (req : option (list SubmitReq * string))
    : option (Server * Response) :=
  match req with
  | None => Some (s, bad 400 "invalid JSON body")
  | Some (qs, mode) =>
      if (length qs =? 0)%nat || (50 <? length qs)%nat then Some (s, bad 400 "batch size must be 1-50")
      else
        let mode := default_mode mode in
        if bool_decide (mode = "anchored"%string) && strict s && negb (onchain s)
        then Some (s, bad 503 "anchored mode unavailable: deployer key is not configured")
        else
          '(s, ops) ← batch_loop s w 0 pubKey mode qs [];
          match ops with
          | None => Some (s, bad 502 "on-chain submission failed")
          | Some results => Some (s, answer 201 (BProofs results))
          end
  end.

(** ** Verification *)

Record VerifyReq := { c_proof_id : string; c_input : string; c_output : string; c_model : string }.

Definition has_data (q : VerifyReq) : bool :=
  negb (bool_decide (c_input q = ""%string)) && negb (bool_decide (c_output q = ""%string))
  && negb (bool_decide (c_model q = ""%string)).

Definition run_checks (p : Proof) (input output model : bytes) : Checks :=
  {| input_hash_match := bool_decide (HexHash input = IH p);
     output_hash_match := bool_decide (HexHash output = OH p);
     model_hash_match := bool_decide (HexHash model = MH p);
     commit_valid := VerifyCommit (PH p) input output model;
     merkle_valid := VerifyPath input (PPath p) (PRoot p) (Idx p) |}.

(** The part that [verifyProof] and [verifyBatch] both spell out. *)
Definition verify_one (p : Proof) (q : VerifyReq) : VerifyResult :=
  let base verified error checks :=
    {| v_proof_id := c_proof_id q; v_valid := Valid p; v_revoked := Revoked p;
       v_verified := verified; v_error := error; v_checks := checks |} in
  if has_data q then
    let '(i, o, m) := (bytes_of (c_input q), bytes_of (c_output q), bytes_of (c_model q)) in
    match Verifier.VerifyProof (Some p) i o m with
    | Err e => base (Some false) (Some e) (Some (run_checks p i o m))
    | Ok _ => base (Some true) None (Some (run_checks p i o m))
    end
  else base None None None.

Definition verified_event (p : Proof) (q : VerifyReq) : event :=
  (EventProofVerified,
   JObj [("agent", JStr (Agent p)); ("model", JStr (c_model q)); ("proof_id", JStr (c_proof_id q))])%string.

Definition verifyProof (s : Server) (req : option VerifyReq) : Response * list event :=
  match req with
  | None => (bad 400 "invalid JSON body", [])
  | Some q =>
      if bool_decide (c_proof_id q = ""%string) then (bad 400 "proof_id is required", [])
      else match GetProof (eng s) (c_proof_id q) with
           | None => (bad 404 "proof not found", [])
           | Some p =>
               let r := verify_one p q in
               (answer 200 (BVerify r), if bool_decide (v_verified r = Some true) then [verified_event p q] else [])
           end
  end.

(** One iteration of [verifyBatch]: its entry and whether it leaves [all_valid]. *)
Definition verify_item (s : Server) (i : nat) (q : VerifyReq) : BatchItem * bool :=
  if bool_decide (c_proof_id q = ""%string) then (ItemNoID i, false)
  else match GetProof (eng s) (c_proof_id q) with
       | None => (ItemNotFound i (c_proof_id q), false)
       | Some p =>
           let r := verify_one p q in
           (ItemResult i r,
            if has_data q then bool_decide (v_verified r = Some true) else Valid p && negb (Revoked p))
       end.

Fixpoint verify_loop (s : Server) (i : nat) (qs : list VerifyReq) (allValid : bool) : list BatchItem * bool :=
  match qs with
  | [] => ([], allValid)
  | q :: qs =>
      let '(item, verified) := verify_item s i q in
      let '(rest, allValid) := verify_loop s (S i) qs (if verified then allValid else false) in
      (item :: rest, allValid)
  end.

Definition verifyBatch (s : Server) (req : option (list VerifyReq)) : Response :=
  match req with
  | None => bad 400 "invalid JSON body"
  | Some qs =>
      if (length qs =? 0)%nat || (50 <? length qs)%nat then bad 400 "batch size must be 1-50"
      else let '(results, allValid) := verify_loop s 0 qs true in answer 200 (BVerifyBatch results allValid)
  end.

(** ** Revocation *)

Definition revoked_event (pid reason : string) : event :=
  (EventSlashExecuted, JObj [("proof_id", JStr pid); ("reason", JStr reason); ("revoked", JBool true)])%string.

(** [reason] is what decodes of the body, empty when nothing does. *)
Definition revokeProof (s : Server) (w : World) (pid pubKey reason : string) : Server * Response * list event :=
  let forbidden :=
    negb (bool_decide (pubKey = ""%string)) &&
    match GetProof (eng s) pid with
    | Some p => negb (bool_decide (PubKey p = ""%string)) && negb (bool_decide (PubKey p = pubKey))
    | None => false
    end in
  if forbidden then (s, bad 403 "not authorized to revoke this proof", [])
  else match Revoke (eng s) pid with
       | Err e => (s, answer 400 (BEngineError e), [])
       | Ok e =>
           let s := with_eng s e in
           let s := match GetProof (eng s) pid with Some p => persistUpdate s (up w 0) p | None => s end in
           (s, answer 200 (BRevoked pid), [revoked_event pid reason])
       end.

(** ** KYC *)

Definition kycCheck (s : Server) (w : World) (req : option string) : Response :=
  match req with
  | None => bad 400 "invalid JSON body"
  | Some pid =>
      match CheckKYC (eng s) (clock w 0) pid with
      | Err e => answer 400 (BKYCError e)
      | Ok r => answer 200 (BKYC r)
      end
  end.

Definition granted_event (user pid : string) : event :=
  (EventKYCGranted, JObj [("proof_id", JStr pid); ("user", JStr user)])%string.

Definition kycGrant (s : Server) (w : World) (req : option (string * string)) : Server * Response * list event :=
  match req with
  | None => (s, bad 400 "invalid JSON body", [])
  | Some (user, pid) =>
      match GrantAccess (eng s) (clock w 0) (kyc s) user pid with
      | Err e => (s, answer 400 (BKYCError e), [])
      | Ok (wl, a) =>
          let s := with_kyc s wl in
          let s := match db s with
                   | None => s
                   | Some d => with_db s (Some (with_kyc_rows d
                       (the_ok (t_kyc d) (SaveKYC (up w 0) (t_kyc d) user pid (unix (clock w 1))))))
                   end in
          (s, answer 200 (BAccess a), [granted_event user pid])
      end
  end.

Definition kycWhitelist (s : Server) (user : string) : Response :=
  answer 200 (BWhitelisted user (IsWhitelisted (kyc s) user)).

(** ** Inference *)

Record InferenceReq := { i_agent : string; i_model_id : string; i_input : string; i_output : string; i_use_case : string; i_pub_key : string }.

Definition submitter (s : Server) (w : World) : option (Proof → option string) :=
  if onchain s then Some (submit w) else None.

Definition inferenceProve (s : Server) (w : World) (req : option InferenceReq) : option (Server * Response) :=
  match req with
  | None => Some (s, bad 400 "invalid request")
  | Some q =>
      let agent := if bool_decide (i_agent q = ""%string) then "api-client"%string else i_agent q in
      let uc := if bool_decide (i_use_case q = ""%string) then "inference"%string else i_use_case q in
      '(e, t, r) ← GenerateInferenceProof (eng s) (t_proofs <$> db s) (up w 0) (submitter s w) (elapsed w 0) (clock w 0)
                     agent (bytes_of (i_input q)) (bytes_of (i_output q)) (bytes_of (i_model_id q)) uc (i_pub_key q);
      let s := with_eng s e in
      let s := match db s, t with Some d, Some t => with_db s (Some (with_proofs d t)) | _, _ => s end in
      Some (s, match r with Err _ => bad 500 "proof generation failed" | Ok p => answer 200 (BProof p) end)
  end.

Definition inferenceVerify (s : Server) (w : World) (req : option string) : Response :=
  match req with
  | None => bad 400 "invalid request"
  | Some pid =>
      match VerifyInferenceProof (eng s) pid with
      | Err e => answer 404 (BInfError e)
      | Ok valid => answer 200 (BInference pid valid (unix (clock w 0)))
      end
  end.

Record ModelReq := { m_id : string; m_hash : string; m_contract : string; m_metadata : gmap string string }.

Definition inferenceRegisterModel (s : Server) (w : World) (req : option ModelReq) : Server * Response :=
  match req with
  | None => (s, bad 400 "invalid request")
  | Some q =>
      let '(t, r) := RegisterModel (t_models <$> db s) (up w 0) (up w 1)
                       (if onchain s then Some (submit_model w) else None) (clock w 0)
                       (m_id q) (m_hash q) (m_contract q) (m_metadata q) in
      let s := match db s, t with Some d, Some t => with_db s (Some (with_models d t)) | _, _ => s end in
      (s, match r with Err e => answer 400 (BInfError e) | Ok e => answer 201 (BModel e) end)
  end.

Definition inferenceGetModel (s : Server) (w : World) (id : string) : Response :=
  match GetModelInfo (t_models <$> db s) (up w 0) id with
  | Err _ => bad 404 "model not found"
  | Ok e => answer 200 (BModel e)
  end.

(** ** Starting ([main.go], [New]) *)

(** The whitelist of a starting server; a failed query leaves it empty. *)
Definition start_kyc (up : bool) (t : gmap string KYCRow) : gmap string DeFiAccess :=
  match LoadKYC up t with
  | Err _ => NewDemo
  | Ok entries => foldl (λ w e, RestoreAccess w (EUser e) (EProofID e)) NewDemo entries
  end.

(** The server that starts on tables [d]: [rows] is the answer of the proofs
    query, broken off after [cut] rows; an empty engine is seeded. *)
Definition start (s : Server) (w : World) (registry : string) (d : Tables) (rows : list ProofRow) (cut : option nat)
    : option Server :=
  '(e, t) ← load_or_seed (up w) (elapsed w) (clock w) registry (t_proofs d) rows cut;
  Some {| eng := e; kyc := start_kyc (up w 0) (t_kyc d); db := Some (with_proofs d t);
          onchain := onchain s; strict := strict s; contract := contract s |}.

(** ** The database follows the engine *)

Definition whitelist_saved (w : gmap string DeFiAccess) (t : gmap string KYCRow) : Prop :=
  ∀ user, w !! user = (λ r, access user (k_proof_id r)) <$> t !! user ∧
    ∀ r, t !! user = Some r → k_whitelisted r = true.

Definition api_inv (s : Server) : Prop :=
  0 < seq (eng s) ∧ ∃ d, db s = Some d ∧ persisted (eng s) (t_proofs d) ∧ whitelist_saved (kyc s) (t_kyc d).

(** One request, or a restart, while the database takes every write: the status
    502 is the strict-mode failure of a submission. *)
Inductive api_step : Server → Server → Prop :=
| api_submit s w pubKey req s' r evs :
    (∀ i, up w i = true) → seq (eng s) < int64_max →
    submitProof s w pubKey req = Some (s', r, evs) → code r ≠ 502 → api_step s s'
| api_batch s w pubKey req s' r :
    (∀ i, up w i = true) → seq (eng s) + 50 <= int64_max →
    batchProofs s w pubKey req = Some (s', r) → code r ≠ 502 → api_step s s'
| api_revoke s w pid pubKey reason s' r evs :
    (∀ i, up w i = true) → revokeProof s w pid pubKey reason = (s', r, evs) → api_step s s'
| api_grant s w req s' r evs :
    (∀ i, up w i = true) → kycGrant s w req = (s', r, evs) → api_step s s'
| api_infer s w req s' r :
    (∀ i, up w i = true) → seq (eng s) < int64_max → inferenceProve s w req = Some (s', r) → api_step s s'
| api_model s w req s' r : inferenceRegisterModel s w req = (s', r) → api_step s s'
| api_restart s w registry d rows s' :
    (∀ i, up w i = true) → db s = Some d → select_proofs (t_proofs d) rows →
    start s w registry d rows None = Some s' → api_step s s'.

Definition no_tables : Tables := {| t_proofs := ∅; t_kyc := ∅; t_models := ∅ |}.

(** The first start: on an empty database, which it seeds. *)
Definition first_start (onchain strict : bool) (contract : string) (w : World) (registry : string) : option Server :=
  start {| eng := New; kyc := NewDemo; db := None; onchain := onchain; strict := strict; contract := contract |}
    w registry no_tables [] None.

Lemma produce_inv s w i pubKey mode q s' p :
  api_inv s → up w i = true → seq (eng s) < int64_max →
  produce s w i pubKey mode q = Some (s', Some p) →
  api_inv s' ∧ seq (eng s') = seq (eng s) + 1.
Proof.
  intros (Hpos & d & Hd & Hp & Hk) Hup Hlt. unfold produce.
  destruct (GenerateWithKey _ _ _ _ _ _ _ _ _ _) as [[e p0]|] eqn:Hg; [|done]. cbn [mbind option_bind].
  pose proof (Generate_shape _ _ _ _ _ _ _ _ _ _ _ _ Hg) as (_ & _ & _ & _ & _ & _ & _ & Hseq & _).
  pose proof (inv_seq _ (per_engine _ _ Hp)). rewrite wrap64_id in Hseq by (unfold int64_min; lia).
  pose proof (Generate_unanchored _ _ _ _ _ _ _ _ _ _ _ _ Hg) as [Ha Hs].
  pose proof (Generate_saveable _ _ _ _ _ _ _ _ _ _ _ _ Hg) as Hpath.
  assert (∀ e' p', PID p' = PID p0 → AnchorHash p' = ""%string → AnchoringStatus p' = ""%string → PPath p' = PPath p0 →
    e' = {| proofs := <[PID p0 := p']> (proofs e); seq := seq e |} →
    api_inv (persist (with_eng s e') true p') ∧ seq (eng (persist (with_eng s e') true p')) = seq (eng s) + 1) as Hstore.
  { intros e' p' Hid Ha' Hs' Hpath' He'.
    destruct (generate_persisted _ _ _ _ _ _ _ _ _ _ _ _ p' _ Hp Hlt Hg Hid Ha' Hs') as [Hnew Hper].
    unfold persist. cbn [db with_eng]. rewrite Hd. rewrite Save_new; [|by rewrite Hpath'|by rewrite Hid]. cbn [the_ok].
    split; [|subst e'; cbn; lia]. split; [subst e'; cbn; lia|]. exists (with_proofs d (<[PID p' := row_of p' (PPath p')]> (t_proofs d))).
    split; [done|]. split; [|done]. cbn [eng with_db with_eng t_proofs with_proofs]. subst e'. by rewrite Hid. }
  rewrite Hup. destruct (write_deploy_insert _ _ _ _ _ _ _ _ _ _ _ _ "" Hg) as [_ He].
  destruct (bool_decide _); [destruct (anchor _ _ _) as [dh|]; [|done]|]; intros [= <- <-].
  - destruct (write_deploy_insert _ _ _ _ _ _ _ _ _ _ _ _ dh Hg) as [Hw _]. by apply Hstore.
  - by apply Hstore.
Qed.

Lemma batch_loop_inv w pubKey mode qs : ∀ s i results s' out,
  api_inv s → (∀ i, up w i = true) → seq (eng s) + Z.of_nat (length qs) <= int64_max →
  batch_loop s w i pubKey mode qs results = Some (s', Some out) → api_inv s'.
Proof.
  induction qs as [|q qs IH]; intros s i results s' out Hs Hup Hlt; cbn [batch_loop length] in *; [by intros [= <- _]|].
  destruct (missing_data q); [apply IH; [done..|lia]|].
  destruct (produce _ _ _ _ _ _) as [[s1 [p|]]|] eqn:Hp; cbn [mbind option_bind]; [|done..].
  apply produce_inv in Hp as [H1 H2]; [|done..|lia]. apply IH; [done..|lia].
Qed.

Lemma start_kyc_saved w t : whitelist_saved w t → start_kyc true t = w.
Proof.
  intros Hw. unfold start_kyc, LoadKYC. cbn [negb].
  assert (List.filter (λ kv : string * KYCRow, k_whitelisted kv.2) (map_to_list t) = map_to_list t) as ->.
  { assert (Forall (λ kv : string * KYCRow, k_whitelisted kv.2 = true) (map_to_list t)) as Hall.
    { apply Forall_forall. intros [u r] Hr. cbn. apply elem_of_map_to_list in Hr. by apply (Hw u). }
    induction Hall as [|kv l Hkv _ IH]; cbn; [done|]. by rewrite Hkv, IH. }
  assert (∀ m l, foldl (λ w e, RestoreAccess w (EUser e) (EProofID e)) m
      ((λ kv : string * KYCRow, {| EUser := kv.1; EProofID := k_proof_id kv.2 |}) <$> l)
      = fill_map fst (λ kv, access kv.1 (k_proof_id kv.2)) m l) as -> by (intros m l; revert m; induction l; intros m; [done|apply IHl]).
  apply map_eq. intros u. apply option_eq. intros a. rewrite fill_map_lookup by apply NoDup_fst_map_to_list.
  rewrite (proj1 (Hw u)), fmap_Some. split.
  - intros ([k r] & Hin & <- & <-). apply elem_of_map_to_list in Hin. by exists r.
  - intros (r & Hr & ->). exists (u, r). split; [by apply elem_of_map_to_list|done].
Qed.

(** *** Every step keeps the database in step *)

Lemma grant_inv s w req s' r evs :
  api_inv s → (∀ i, up w i = true) → kycGrant s w req = (s', r, evs) → api_inv s'.
Proof.
  intros (Hpos & d & Hd & Hp & Hk) Hup. unfold kycGrant.
  destruct req as [[user pid]|]; [|intros [= <- _ _]; split; [done|by exists d]].
  destruct (GrantAccess _ _ _ _ _) as [[wl a]|] eqn:Eg; [|intros [= <- _ _]; split; [done|by exists d]].
  apply GrantAccess_ok in Eg as (_ & -> & ->). cbn [db with_kyc]. rewrite Hd, Hup. unfold SaveKYC. cbn [negb the_ok].
  intros [= <- _ _]. split; [done|]. eexists. split; [done|]. split; [done|]. cbn. intros u. destruct (decide (u = user)) as [->|Hne].
  - rewrite !lookup_insert_eq. split; [done|]. intros x [= <-]. cbn. destruct (t_kyc d !! user) eqn:E; [|done]. by apply (Hk user).
  - rewrite !lookup_insert_ne by done. apply Hk.
Qed.

Lemma revoke_inv s w pid pubKey reason s' r evs :
  api_inv s → (∀ i, up w i = true) → revokeProof s w pid pubKey reason = (s', r, evs) → api_inv s'.
Proof.
  intros (Hpos & d & Hd & Hp & Hk) Hup. unfold revokeProof. destruct (negb _ && _); [intros [= <- _ _]; split; [done|by exists d]|].
  destruct (Revoke (eng s) pid) as [e|] eqn:Er; [|intros [= <- _ _]; split; [done|by exists d]]. cbn [eng with_eng].
  assert (seq e = seq (eng s)) as Hseq.
  { unfold Revoke in Er. destruct (proofs (eng s) !! pid) as [q|]; [|done]. destruct (Revoked q); [done|]. by apply ok_inj in Er as <-. }
  destruct (GetProof e pid) as [p|] eqn:Eg.
  - destruct (revoke_persisted _ _ _ _ _ Hp Er Eg) as [Hu Hper]. unfold persistUpdate. cbn [db with_eng]. rewrite Hd, Hup, Hu.
    intros [= <- _ _]. split; [cbn; by rewrite Hseq|]. eexists. by split.
  - unfold Revoke in Er. destruct (proofs (eng s) !! pid) as [q|]; [|done]. destruct (Revoked q); [done|].
    apply ok_inj in Er as <-. unfold GetProof in Eg. cbn in Eg. by rewrite lookup_insert_eq in Eg.
Qed.

Lemma submit_inv s w pubKey req s' r evs :
  api_inv s → (∀ i, up w i = true) → seq (eng s) < int64_max →
  submitProof s w pubKey req = Some (s', r, evs) → code r ≠ 502 → api_inv s'.
Proof.
  intros Hs Hup Hlt. unfold submitProof. destruct req as [q|]; [|by intros [= <- _ _]].
  destruct (missing_data q); [by intros [= <- _ _]|]. destruct (too_long q); [by intros [= <- _ _]|].
  destruct (_ && negb _); [by intros [= <- _ _]|].
  destruct (produce _ _ _ _ _ _) as [[s1 [p|]]|] eqn:E; cbn [mbind option_bind]; [|by intros [= _ <- _]|done].
  intros [= <- _ _] _. by apply produce_inv in E as [? _].
Qed.

Lemma batch_inv s w pubKey req s' r :
  api_inv s → (∀ i, up w i = true) → seq (eng s) + 50 <= int64_max →
  batchProofs s w pubKey req = Some (s', r) → code r ≠ 502 → api_inv s'.
Proof.
  intros Hs Hup Hlt. unfold batchProofs. destruct req as [[qs mode]|]; [|by intros [= <- _]].
  destruct (_ || _) eqn:El; [by intros [= <- _]|]. apply orb_false_elim in El as [_ El]. apply Nat.ltb_ge in El.
  destruct (_ && negb _); [by intros [= <- _]|].
  destruct (batch_loop _ _ _ _ _ _ _) as [[s1 [ps|]]|] eqn:E; cbn [mbind option_bind]; [|by intros [= _ <-]|done].
  intros [= <- _] _. eapply batch_loop_inv; [exact Hs|exact Hup| |exact E]. lia.
Qed.

Lemma infer_inv s w req s' r :
  api_inv s → (∀ i, up w i = true) → seq (eng s) < int64_max →
  inferenceProve s w req = Some (s', r) → api_inv s'.
Proof.
  intros Hs Hup Hlt. unfold inferenceProve. destruct req as [q|]; [|by intros [= <- _]].
  destruct Hs as (Hpos & d & Hd & Hp & Hk). rewrite Hd, Hup. cbn [fmap option_fmap option_map]. unfold GenerateInferenceProof.
  destruct (GenerateWithKey _ _ _ _ _ _ _ _ _ _) as [[e p]|] eqn:Hg; [|done]. cbn [mbind option_bind].
  pose proof (Generate_unanchored _ _ _ _ _ _ _ _ _ _ _ _ Hg) as [Ha Hst].
  pose proof (Generate_saveable _ _ _ _ _ _ _ _ _ _ _ _ Hg) as Hpath.
  assert (∃ e' p', match submitter s w with
      | Some submit => if bool_decide (i_pub_key q = ""%string) then (e, p)
                       else match submit p with None => (e, p) | Some dh => (write_deploy e (PID p) dh, set_deploy dh p) end
      | None => (e, p) end = (e', p') ∧ e' = {| proofs := <[PID p := p']> (proofs e); seq := seq e |} ∧
      PID p' = PID p ∧ AnchorHash p' = ""%string ∧ AnchoringStatus p' = ""%string ∧ PPath p' = PPath p)
    as (e' & p' & -> & He' & Hid & Ha' & Hs' & Hpath').
  { destruct (write_deploy_insert _ _ _ _ _ _ _ _ _ _ _ _ "" Hg) as [_ He].
    destruct (submitter s w) as [f|]; [destruct (bool_decide (i_pub_key q = ""%string)); [|destruct (f p) as [dh|]]|].
    1,3,4: exists e, p; by split_and!.
    destruct (write_deploy_insert _ _ _ _ _ _ _ _ _ _ _ _ dh Hg) as [Hw _]. rewrite Hw. eexists _, _. by split_and!. }
  destruct (generate_persisted _ _ _ _ _ _ _ _ _ _ _ _ p' _ Hp Hlt Hg Hid Ha' Hs') as [Hnew Hper].
  unfold SaveProof. rewrite Save_new; [|by rewrite Hpath'|by rewrite Hid]. cbn [mbind option_bind db with_eng].
  rewrite Hd. intros [= <- _]. pose proof (Generate_shape _ _ _ _ _ _ _ _ _ _ _ _ Hg) as (_ & _ & _ & _ & _ & _ & _ & Hseq & _).
  rewrite wrap64_id in Hseq by (unfold int64_min; lia). subst e'. split; [cbn; lia|].
  eexists. split; [done|]. split; [|done]. cbn. by rewrite Hid.
Qed.

Lemma model_inv s w req s' r : api_inv s → inferenceRegisterModel s w req = (s', r) → api_inv s'.
Proof.
  intros (Hpos & d & Hd & Hp & Hk). unfold inferenceRegisterModel. destruct req as [q|]; [|intros [= <- _]; split; [done|by exists d]].
  destruct (RegisterModel _ _ _ _ _ _ _ _ _) as [[t|] x]; rewrite Hd; intros [= <- _]; (split; [done|]); [|by exists d].
  eexists. by split.
Qed.

(** A restart on the tables of a running server. *)
Lemma restart_spec s w registry d rows :
  api_inv s → up w 0 = true → db s = Some d → select_proofs (t_proofs d) rows →
  ∃ s', start s w registry d rows None = Some s' ∧ api_inv s' ∧
    proofs (eng s') = proof_of <$> t_proofs d ∧ seq (eng s') = seq (eng s) ∧ kyc s' = kyc s.
Proof.
  intros (Hpos & d' & Hd & Hp & Hk) Hup Hd' Hsel. assert (d' = d) as -> by congruence.
  destruct (next_load (up w) (elapsed w) (clock w) registry _ _ _ Hp Hpos Hsel) as (e' & He & H1 & H2 & H3).
  unfold start. rewrite He, Hup. clear He. cbn [mbind option_bind]. eexists. split; [reflexivity|]. cbn [eng kyc].
  rewrite (start_kyc_saved _ _ Hk). split; [|done]. split; [cbn; lia|].
  eexists. split; [reflexivity|]. split; [exact H3|exact Hk].
Qed.

Lemma restart_inv s w registry d rows s' :
  api_inv s → (∀ i, up w i = true) → db s = Some d → select_proofs (t_proofs d) rows →
  start s w registry d rows None = Some s' → api_inv s'.
Proof.
  intros Hs Hup Hd Hsel Hstart. destruct (restart_spec s w registry d rows Hs (Hup 0%nat) Hd Hsel) as (s1 & H1 & H2 & _). congruence.
Qed.

Lemma api_step_inv s s' : api_step s s' → api_inv s → api_inv s'.
Proof.
  intros [] Hs; [by eapply submit_inv|by eapply batch_inv|by eapply revoke_inv|by eapply grant_inv|by eapply infer_inv
    |by eapply model_inv|by eapply restart_inv].
Qed.

Lemma first_start_inv onchain strict contract w registry :
  (∀ i, up w i = true) → ∃ s, first_start onchain strict contract w registry = Some s ∧ api_inv s.
Proof.
  intros Hup. unfold first_start, start. destruct (first_load (up w) (elapsed w) (clock w) registry Hup) as (e & t & He & Hp & Hpos).
  change (t_proofs no_tables) with (∅ : gmap string ProofRow). rewrite He. clear He. cbn [mbind option_bind].
  exists {| eng := e; kyc := start_kyc (up w 0) ∅; db := Some (with_proofs no_tables t);
            onchain := onchain; strict := strict; contract := contract |}.
  split; [done|]. split; [exact Hpos|]. exists (with_proofs no_tables t). split; [done|]. split; [exact Hp|].
  cbn [kyc t_kyc with_proofs no_tables]. rewrite Hup. by intros u.
Qed.

(** ** Properties *)

(** C16. Nothing is lost in a restart. From the first start on an empty database
    on, along any requests and restarts in which the database takes every write
    and no submission fails under strict mode, a server started on the tables
    has the same counter - no identifier is issued twice -, every proof of the
    old one as it was, beyond those only proofs that were revoked, and the same
    whitelist. *)
Theorem restart_restores onchain strict contract w0 registry0 s0 s w registry d rows :
  (∀ i, up w0 i = true) → first_start onchain strict contract w0 registry0 = Some s0 →
  rtc api_step s0 s → up w 0 = true → db s = Some d → select_proofs (t_proofs d) rows →
  ∃ s', start s w registry d rows None = Some s' ∧
    seq (eng s') = seq (eng s) ∧ kyc s' = kyc s ∧
    (∀ pid p, GetProof (eng s) pid = Some p → GetProof (eng s') pid = Some p) ∧
    (∀ pid p, GetProof (eng s) pid = None → GetProof (eng s') pid = Some p → Revoked p = true).
Proof.
  intros Hup0 Hfirst Hreach Hup Hd Hsel.
  assert (api_inv s) as Hs.
  { destruct (first_start_inv onchain strict contract w0 registry0 Hup0) as (s1 & H1 & H2).
    eapply (rtc_ind_r api_inv); [|intros x y _ Hxy Hx; by eapply api_step_inv|exact Hreach]. congruence. }
  destruct (restart_spec s w registry d rows Hs Hup Hd Hsel) as (s' & H1 & _ & H2 & H3 & H4).
  destruct Hs as (_ & d' & Hd' & Hp & _). assert (d' = d) as -> by congruence.
  exists s'. split; [done|]. split; [done|]. split; [done|]. unfold GetProof. rewrite H2. split.
  - intros pid p Hpid. apply (per_mem _ _ Hp) in Hpid as (_ & Ha & Hst & Hr). rewrite lookup_fmap, Hr. cbn. f_equal.
    by apply proof_of_row.
  - intros pid p Hpid. rewrite lookup_fmap, fmap_Some. intros (r & Hr & ->). apply (per_row _ _ Hp) in Hr as (_ & _ & Hr). by apply Hr.
Qed.

(** The entry of a batch that an answer of [verifyProof] stands for. *)
Definition item_of_answer (i : nat) (q : VerifyReq) (r : Response) : option BatchItem :=
  match body r with
  | BVerify v => Some (ItemResult i v)
  | _ => if code r =? 404 then Some (ItemNotFound i (c_proof_id q))
         else if code r =? 400 then Some (ItemNoID i) else None
  end.

(** What [all_valid] promises of one request. *)
Definition item_valid (s : Server) (q : VerifyReq) : Prop :=
  ∃ p, c_proof_id q ≠ ""%string ∧ GetProof (eng s) (c_proof_id q) = Some p ∧ Valid p = true ∧ Revoked p = false ∧
    (has_data q = true →
     Verifier.VerifyProof (Some p) (bytes_of (c_input q)) (bytes_of (c_output q)) (bytes_of (c_model q)) = Ok ()).

Lemma verify_one_verified p q :
  v_verified (verify_one p q) =
    if has_data q then Some (is_ok (Verifier.VerifyProof (Some p) (bytes_of (c_input q)) (bytes_of (c_output q)) (bytes_of (c_model q))))
    else None.
Proof. unfold verify_one. destruct (has_data q); [|done]. by destruct (Verifier.VerifyProof _ _ _ _). Qed.

Lemma verify_item_spec s i q :
  Some (fst (verify_item s i q)) = item_of_answer i q (fst (verifyProof s (Some q))) ∧
  (snd (verify_item s i q) = true ↔ item_valid s q).
Proof.
  unfold verify_item, verifyProof, item_of_answer, item_valid.
  destruct (bool_decide (c_proof_id q = "")%string) eqn:Eid; bool_to_prop; [split; [done|naive_solver]|].
  destruct (GetProof (eng s) (c_proof_id q)) as [p|] eqn:Ep; [|split; [done|naive_solver]]. split; [done|].
  cbn [snd]. rewrite verify_one_verified. destruct (has_data q).
  - rewrite bool_decide_eq_true. split.
    + intros Hok. assert (Verifier.VerifyProof (Some p) (bytes_of (c_input q)) (bytes_of (c_output q)) (bytes_of (c_model q)) = Ok ()) as Hv.
      { destruct (Verifier.VerifyProof _ _ _ _) as [[]|] eqn:Ev; [done|]. try rewrite Ev in Hok. done. }
      exists p. apply VerifyProof_ok in Hv as Hv'. naive_solver.
    + intros (p' & _ & [= <-] & _ & _ & Hv). by rewrite Hv.
  - rewrite andb_true_iff, negb_true_iff. split; [intros [? ?]; exists p; by split_and!|]. intros (p' & _ & [= <-] & ? & ? & _). done.
Qed.

Lemma verify_loop_spec s qs : ∀ i av,
  length (fst (verify_loop s i qs av)) = length qs ∧
  (∀ k q, qs !! k = Some q → fst (verify_loop s i qs av) !! k = item_of_answer (i + k) q (fst (verifyProof s (Some q)))) ∧
  (snd (verify_loop s i qs av) = true ↔ av = true ∧ Forall (item_valid s) qs).
Proof.
  induction qs as [|q qs IH]; intros i av.
  - cbn. split_and!; [done|done|]. split; [intros ->|intros [? _]]; [by repeat constructor|done].
  - cbn [verify_loop]. pose proof (verify_item_spec s i q) as [Hitem Hval]. destruct (verify_item s i q) as [item ok].
    cbn [fst snd] in *. specialize (IH (S i) (if ok then av else false)) as (H1 & H2 & H3).
    destruct (verify_loop s (S i) qs _) as [rest out]. cbn [fst snd length] in *. split; [by rewrite H1|]. split.
    + intros [|k] q' Hk; [|change ((item :: rest) !! S k) with (rest !! k); rewrite (H2 k q' Hk); by replace (i + S k)%nat with (S i + k)%nat by lia].
      cbn in Hk. injection Hk as <-. cbn. by rewrite Nat.add_0_r, Hitem.
    + rewrite H3, Forall_cons, <- Hval. destruct ok; naive_solver.
Qed.

(** C18. Batch verification is single verification: a batch of one to fifty
    requests is answered with one entry per request, in their order, each the
    answer that [verifyProof] gives to the request alone; and [all_valid] holds
    exactly when every request names a stored, valid, unrevoked proof whose data,
    if all three parts are given, the local verifier accepts. *)
Theorem verifyBatch_is_verifyProof s qs :
  (1 <= length qs <= 50)%nat →
  ∃ rs all_valid, verifyBatch s (Some qs) = answer 200 (BVerifyBatch rs all_valid) ∧ length rs = length qs ∧
    (∀ i q, qs !! i = Some q → rs !! i = item_of_answer i q (fst (verifyProof s (Some q)))) ∧
    (all_valid = true ↔ Forall (item_valid s) qs).
Proof.
  intros Hlen. unfold verifyBatch. rewrite (proj2 (Nat.eqb_neq _ _)), (proj2 (Nat.ltb_ge _ _)) by lia. cbn [orb].
  destruct (verify_loop_spec s qs 0 true) as (H1 & H2 & H3). destruct (verify_loop s 0 qs true) as [rs av].
  exists rs, av. split; [done|]. split; [done|]. split; [exact H2|]. cbn in H3. rewrite H3. naive_solver.
Qed.

(** *** One proof from its submission to its revocation *)

Definition verify_req (pid : string) (q : SubmitReq) : VerifyReq :=
  {| c_proof_id := pid; c_input := s_input q; c_output := s_output q; c_model := s_model q |}.

Lemma persist_eng s up p : eng (persist s up p) = eng s.
Proof. unfold persist. by destruct (db s). Qed.

Lemma persistUpdate_eng s up p : eng (persistUpdate s up p) = eng s.
Proof. unfold persistUpdate. by destruct (db s). Qed.

Lemma VerifyProof_deploy p d i o m : Verifier.VerifyProof (Some (set_deploy d p)) i o m = Verifier.VerifyProof (Some p) i o m.
Proof. done. Qed.

Lemma proof_id_nonempty n : proof_id n ≠ ""%string.
Proof. done. Qed.

(** The produced proof is the generated one, stored, perhaps with a deploy hash. *)
Lemma produce_spec s w i pubKey mode q s' p :
  produce s w i pubKey mode q = Some (s', Some p) →
  ∃ e p0, GenerateWithKey (eng s) (elapsed w i) (clock w i) (s_agent q) pubKey (bytes_of (s_input q))
            (bytes_of (s_output q)) (bytes_of (s_model q)) (s_use_case q) mode = Some (e, p0) ∧
    (p = p0 ∨ ∃ d, p = set_deploy d p0) ∧ eng s' = {| proofs := <[PID p0 := p]> (proofs e); seq := seq e |}.
Proof.
  unfold produce. destruct (GenerateWithKey _ _ _ _ _ _ _ _ _ _) as [[e p0]|] eqn:Hg; [|done]. cbn [mbind option_bind].
  destruct (write_deploy_insert _ _ _ _ _ _ _ _ _ _ _ _ "" Hg) as [_ He].
  destruct (bool_decide (mode = "anchored")%string); [destruct (anchor _ _ _) as [d|]; [|done]|];
    intros [= <- <-]; exists e, p0; rewrite persist_eng; (split; [done|]).
  - destruct (write_deploy_insert _ _ _ _ _ _ _ _ _ _ _ _ d Hg) as [Hw _]. split; [by right; exists d|done].
  - split; [by left|done].
Qed.

Lemma produce_total s w i pubKey mode q :
  ∃ s' op, produce s w i pubKey mode q = Some (s', op) ∧ (strict s = false ∨ mode ≠ "anchored"%string → op ≠ None).
Proof.
  unfold produce. destruct (GenerateWithKey _ _ _ _ _ _ _ _ _ _) as [[e p0]|] eqn:Hg; cbn [mbind option_bind].
  - destruct (bool_decide (mode = "anchored")%string) eqn:Em; bool_to_prop; [|by eexists _, _].
    unfold anchor. destruct (onchain s); cbn [negb]; [|by eexists _, _].
    destruct (submit w p0); [by eexists _, _|]. destruct (strict s); eexists _, _; (split; [done|naive_solver]).
  - unfold GenerateWithKey in Hg. destruct (Root_nonempty [bytes_of (s_input q); bytes_of (s_output q); bytes_of (s_model q)])
      as (r & Hr & _); [done|]. by rewrite Hr in Hg.
Qed.

Lemma has_data_intro pid q : missing_data q = false → has_data (verify_req pid q) = true.
Proof. unfold missing_data, has_data, verify_req. cbn. intros H1. bool_to_prop. by rewrite !bool_decide_eq_false_2. Qed.

Definition all_checks : Checks :=
  {| input_hash_match := true; output_hash_match := true; model_hash_match := true; commit_valid := true; merkle_valid := true |}.

Lemma run_checks_all p i o m :
  Verifier.VerifyProof (Some p) i o m = Ok () → VerifyPath i (PPath p) (PRoot p) (Idx p) = true → run_checks p i o m = all_checks.
Proof.
  intros (_ & _ & H1 & H2 & H3 & H4 & _)%VerifyProof_ok H5. unfold run_checks, all_checks, VerifyCommit.
  by rewrite !bool_decide_eq_true_2, H5.
Qed.

Lemma verify_stored s p v :
  GetProof (eng s) (c_proof_id v) = Some p → c_proof_id v ≠ ""%string → has_data v = true →
  Verifier.VerifyProof (Some p) (bytes_of (c_input v)) (bytes_of (c_output v)) (bytes_of (c_model v)) = Ok () →
  VerifyPath (bytes_of (c_input v)) (PPath p) (PRoot p) (Idx p) = true →
  let r := verify_one p v in
  verifyProof s (Some v) = (answer 200 (BVerify r), [verified_event p v]) ∧ v_verified r = Some true ∧ v_checks r = Some all_checks.
Proof.
  intros Hget Hid Hdata Hok Hpath r. assert (v_verified r = Some true) as Hv.
  { unfold r. by rewrite verify_one_verified, Hdata, Hok. }
  split; [|split; [done|]].
  - unfold verifyProof. rewrite bool_decide_eq_false_2 by done. rewrite Hget. fold r. by rewrite bool_decide_eq_true_2.
  - unfold r, verify_one. rewrite Hdata, Hok. cbn [v_checks]. by rewrite run_checks_all.
Qed.

Lemma verified_ok p v :
  v_verified (verify_one p v) = Some true →
  Verifier.VerifyProof (Some p) (bytes_of (c_input v)) (bytes_of (c_output v)) (bytes_of (c_model v)) = Ok ().
Proof. rewrite verify_one_verified. destruct (has_data v); [|done]. by destruct (Verifier.VerifyProof _ _ _ _) as [[]|]. Qed.

Lemma revoke_stored s w p reason :
  GetProof (eng s) (PID p) = Some p → PID p ≠ ""%string → Revoked p = false →
  let '(s', r, _) := revokeProof s w (PID p) "" reason in
  code r = 200 ∧ ∃ p', getProof s' (PID p) = answer 200 (BProof p') ∧ ∀ v, v_verified (verify_one p' v) ≠ Some true.
Proof.
  intros Hget Hid Hrev. unfold revokeProof. rewrite bool_decide_eq_true_2 by done. cbn [negb andb].
  unfold Revoke. unfold GetProof in Hget. rewrite Hget, Hrev. cbn [eng with_eng]. unfold GetProof. cbn [proofs]. rewrite lookup_insert_eq.
  split; [done|]. exists (revoke_proof p). split.
  - unfold getProof. rewrite bool_decide_eq_false_2 by done. rewrite persistUpdate_eng. unfold GetProof. cbn. by rewrite lookup_insert_eq.
  - intros v. rewrite verify_one_verified. by destruct (has_data v).
Qed.

(** C17. The life of a proof. A well-formed submission outside strict anchoring is
    always answered 201 with a proof under a new identifier, which is then
    served; verifying it with the submitted data succeeds with all five checks and
    is announced once; any other data that verifies exhibits a SHA-256 collision;
    and after a revocation no data verifies. *)
Theorem submission_lifecycle s w pubKey q :
  engine_inv (eng s) → seq (eng s) < int64_max → missing_data q = false → too_long q = false →
  strict s = false ∨ default_mode (s_mode q) ≠ "anchored"%string →
  ∃ s' p evs, submitProof s w pubKey (Some q) = Some (s', answer 201 (BProof p), evs) ∧
    GetProof (eng s) (PID p) = None ∧ getProof s' (PID p) = answer 200 (BProof p) ∧
    (let r := verify_one p (verify_req (PID p) q) in
     verifyProof s' (Some (verify_req (PID p) q)) = (answer 200 (BVerify r), [verified_event p (verify_req (PID p) q)]) ∧
     v_verified r = Some true ∧ v_checks r = Some all_checks) ∧
    (∀ v, c_proof_id v = PID p → v_verified (verify_one p v) = Some true →
       (c_input v = s_input q ∧ c_output v = s_output q ∧ c_model v = s_model q) ∨
       is_collision (data_collision (bytes_of (s_input q)) (bytes_of (s_output q)) (bytes_of (s_model q))
                                    (bytes_of (c_input v)) (bytes_of (c_output v)) (bytes_of (c_model v)))) ∧
    (∀ w' reason, let '(s'', r, _) := revokeProof s' w' (PID p) "" reason in
       code r = 200 ∧ ∃ p', getProof s'' (PID p) = answer 200 (BProof p') ∧
         ∀ v, v_verified (verify_one p' v) ≠ Some true).
Proof.
  intros Hinv Hlt Hmiss Hlong Hmode. unfold submitProof. rewrite Hmiss, Hlong.
  assert (bool_decide (default_mode (s_mode q) = "anchored"%string) && strict s && negb (onchain s) = false) as ->.
  { destruct Hmode as [->|Hm]; [by rewrite andb_false_r|]. by rewrite bool_decide_eq_false_2. }
  destruct (produce_total s w 0 pubKey (default_mode (s_mode q)) q) as (s' & op & Hp & Hop).
  rewrite Hp. destruct op as [p|]; [|by destruct (Hop Hmode)]. cbn [mbind option_bind].
  apply produce_spec in Hp as (e & p0 & Hg & Hshape & He).
  destruct (Generate_verifies (eng s) (elapsed w 0) (clock w 0) (s_agent q) pubKey (bytes_of (s_input q))
    (bytes_of (s_output q)) (bytes_of (s_model q)) (s_use_case q) (default_mode (s_mode q)) Hinv Hlt)
    as (e1 & p1 & Hg1 & Hpath & Hcommit & Hfresh & _). rewrite Hg in Hg1. apply Some_inj in Hg1. injection Hg1 as <- <-.
  pose proof (Generate_hashes _ _ _ _ _ _ _ _ _ _ _ _ Hg) as (HI & HO & HM).
  pose proof (Generate_shape _ _ _ _ _ _ _ _ _ _ _ _ Hg) as (_ & _ & _ & Hph & Hval & Hrev & Hpid & _ & _).
  assert (PID p = PID p0 ∧ Revoked p = false ∧ VerifyPath (bytes_of (s_input q)) (PPath p) (PRoot p) (Idx p) = true ∧
    Verifier.VerifyProof (Some p) (bytes_of (s_input q)) (bytes_of (s_output q)) (bytes_of (s_model q)) = Ok ())
    as (Hid & Hr & Hpath' & Hok).
  { destruct Hshape as [->|[d ->]]; (split_and!; [done..|]); rewrite ?VerifyProof_deploy; apply VerifyProof_ok; by split_and!; auto. }
  assert (GetProof (eng s') (PID p) = Some p) as Hget by (unfold GetProof; rewrite He, Hid; apply lookup_insert_eq).
  assert (PID p ≠ ""%string) as Hne by (rewrite Hid, Hpid; apply proof_id_nonempty).
  eexists s', p, _. split; [done|]. split; [by rewrite Hid|]. split; [|split; [|split]].
  - unfold getProof. by rewrite bool_decide_eq_false_2, Hget.
  - by apply verify_stored; [..|apply has_data_intro| |].
  - intros v _ Hv%verified_ok. destruct (verify_binding_forwarded _ _ _ _ _ _ _ Hok Hv) as [(E1 & E2 & E3)|Hc]; [left|by right].
    by split_and!; apply bytes_of_inj.
  - intros w' reason. by apply revoke_stored.
Qed.
End handlers.

(** ** Instances and boundary behaviour *)

#[export] Instance older_swo : StrictWeakOrder older := swo_Z_asc r_created_at.

Definition ex_answer (t : gmap string ProofRow) : list ProofRow := sort_slice older (snd <$> map_to_list t).

Lemma ex_answer_ok t : select_proofs t (ex_answer t).
Proof. split; [apply sort_slice_perm|exact (sort_slice_sorted older _)]. Qed.

Definition ex_world (u : bool) (sub : option string) : World :=
  {| elapsed _ := 1; clock _ := 1785000000 * second; up _ := u; submit _ := sub; submit_model _ := None |}.

Definition ex_req (mode : string) : SubmitReq :=
  {| s_agent := "bot"; s_input := "in"; s_output := "out"; s_model := "m"; s_use_case := "kyc"; s_mode := mode |}.

Definition state_of {A} (s : Server) (out : option (Server * A)) : Server := match out with Some (s', _) => s' | None => s end.
Definition state_of3 {A B} (s : Server) (out : option (Server * A * B)) : Server := match out with Some (s', _, _) => s' | None => s end.
Definition db_of (s : Server) : Tables := default no_tables (db s).

Definition ex_dead : Server := {| eng := New; kyc := NewDemo; db := None; onchain := true; strict := true; contract := "c" |}.
Definition ex_ok : World := ex_world true (Some "d1"%string).
Definition ex_s0 : Server := default ex_dead (first_start true true "c" ex_ok "reg").
Definition ex_submit (s : Server) : option (Server * Response * list event) := submitProof s ex_ok "pk" (Some (ex_req "anchored")).
Definition ex_s1 : Server := state_of3 ex_s0 (ex_submit ex_s0).
Definition ex_restart (s : Server) (cut : option nat) : Server :=
  default ex_dead (start s ex_ok "reg" (db_of s) (ex_answer (t_proofs (db_of s))) cut).

(** What the examples look at, read off once each. *)
Definition seq_after (s : Server) : Z := seq (eng s).

Lemma ex_s0_start : first_start true true "c" ex_ok "reg" = Some ex_s0.
Proof.
  destruct (first_start_inv true true "c" ex_ok "reg" (λ _, eq_refl)) as (s & H & _). unfold ex_s0. rewrite H. reflexivity.
Qed.

Lemma ex_s0_inv : api_inv ex_s0.
Proof.
  destruct (first_start_inv true true "c" ex_ok "reg" (λ _, eq_refl)) as (s & H1 & H2). rewrite ex_s0_start in H1.
  apply Some_inj in H1. rewrite H1. exact H2.
Qed.

Lemma ex_s0_seq : seq_after ex_s0 = 8.
Proof. vm_compute. reflexivity. Qed.

Lemma ex_submit_some : ∃ r evs, ex_submit ex_s0 = Some (ex_s1, r, evs) ∧ code r = 201.
Proof.
  assert (match ex_submit ex_s0 with Some (_, r, _) => code r | None => 0 end = 201) as Hc by (vm_compute; reflexivity).
  unfold ex_s1. destruct (ex_submit ex_s0) as [[[s r] evs]|]; [|discriminate Hc].
  exists r, evs. split; [reflexivity|exact Hc].
Qed.

Lemma ex_s1_inv : api_inv ex_s1.
Proof.
  destruct ex_submit_some as (r & evs & H & Hc). apply (submit_inv ex_s0 ex_ok "pk" (Some (ex_req "anchored")) ex_s1 r evs); [exact ex_s0_inv|reflexivity| |exact H|rewrite Hc; discriminate].
  pose proof ex_s0_seq as E. unfold seq_after in E. rewrite E. reflexivity.
Qed.

Lemma restart_restores_witness :
  ∃ s', start ex_s1 ex_ok "reg" (db_of ex_s1) (ex_answer (t_proofs (db_of ex_s1))) None = Some s' ∧
    seq (eng s') = seq (eng ex_s1) ∧ kyc s' = kyc ex_s1.
Proof.
  destruct ex_submit_some as (r & evs & Hsub & Hc). destruct ex_s1_inv as (_ & d & Hd & _).
  assert (db_of ex_s1 = d) as Ed by (unfold db_of; rewrite Hd; reflexivity).
  destruct (restart_restores true true "c" ex_ok "reg" ex_s0 ex_s1 ex_ok "reg" (db_of ex_s1) (ex_answer (t_proofs (db_of ex_s1))))
    as (s' & H1 & H2 & H3 & _).
  - reflexivity.
  - exact ex_s0_start.
  - eapply rtc_once, (api_submit _ ex_ok "pk" (Some (ex_req "anchored"))); [reflexivity| |exact Hsub|rewrite Hc; discriminate].
    pose proof ex_s0_seq as E. unfold seq_after in E. rewrite E. reflexivity.
  - reflexivity.
  - rewrite Ed. exact Hd.
  - apply ex_answer_ok.
  - exists s'. split; [exact H1|]. split; [exact H2|exact H3].
Defined.

Lemma submission_lifecycle_witness :
  ∃ s' p evs, submitProof ex_dead ex_ok "" (Some (ex_req "")) = Some (s', answer 201 (BProof p), evs) ∧
    getProof s' (PID p) = answer 200 (BProof p).
Proof.
  destruct (submission_lifecycle ex_dead ex_ok "" (ex_req "") New_inv eq_refl eq_refl eq_refl ltac:(right; discriminate))
    as (s' & p & evs & H1 & _ & H2 & _).
  exists s', p, evs. split; [exact H1|exact H2].
Defined.

Definition ex_v (pid input model : string) : VerifyReq := {| c_proof_id := pid; c_input := input; c_output := "out"; c_model := model |}.

Lemma verifyBatch_is_verifyProof_witness :
  ∃ rs all_valid, verifyBatch ex_s1 (Some [ex_v "P-9" "in" "m"; ex_v "P-77" "in" "m"]) = answer 200 (BVerifyBatch rs all_valid) ∧
    length rs = 2%nat.
Proof.
  destruct (verifyBatch_is_verifyProof ex_s1 [ex_v "P-9" "in" "m"; ex_v "P-77" "in" "m"] ltac:(cbn; lia))
    as (rs & av & H1 & H2 & _).
  exists rs, av. split; [exact H1|exact H2].
Defined.

(** An empty field turns the check of the data off: other data than the proof's
    counts as valid, in a single answer and in [all_valid], once the model is left
    out. *)
Example partial_data_unchecked :
  match verifyBatch ex_s1 (Some [ex_v "P-9" "forged" ""]) with
  | {| code := 200; body := BVerifyBatch _ av |} => av
  | _ => false
  end = true ∧
  match verifyBatch ex_s1 (Some [ex_v "P-9" "forged" "m"]) with
  | {| code := 200; body := BVerifyBatch _ av |} => av
  | _ => true
  end = false.
Proof. vm_compute. done. Qed.

(** The owner check of a revocation reads the caller's own header: another key is
    refused, no key at all revokes. *)
Example revocation_without_key :
  code (snd (fst (revokeProof ex_s1 ex_ok "P-9" "other" ""))) = 403 ∧
  code (snd (fst (revokeProof ex_s1 ex_ok "P-9" "" ""))) = 200.
Proof. vm_compute. done. Qed.

(** A submission that fails under strict mode is answered 502, and its proof is
    served and valid all the same until a restart forgets it and issues its
    identifier to the next one. *)
Definition ex_failed : Server := state_of3 ex_s0 (submitProof ex_s0 (ex_world true None) "" (Some (ex_req "anchored"))).

Example strict_failure_reissues :
  Engine.VerifyProof (eng ex_failed) "P-9" = Ok true ∧ code (getProof (ex_restart ex_failed None) "P-9") = 404 ∧
  match ex_submit (ex_restart ex_failed None) with
  | Some (_, {| code := 201; body := BProof p |}, _) => PID p
  | _ => ""%string
  end = "P-9"%string.
Proof. vm_compute. done. Qed.

(** A load that breaks off before the first row is only logged. The engine, empty,
    is seeded again, and storing the seeds clears the revocation in the row of
    the first one. *)
Definition ex_revoked : Server := fst (fst (revokeProof ex_s0 ex_ok "P-1" "" "")).

Example broken_load_clears_revocation :
  r_revoked <$> t_proofs (db_of ex_revoked) !! "P-1"%string = Some true ∧
  r_revoked <$> t_proofs (db_of (ex_restart ex_revoked (Some 0%nat))) !! "P-1"%string = Some false.
Proof. vm_compute. done. Qed.

(** An APIHealth of fewer than seven characters stops the export with a panic. *)
Example export_panics : exportProof ex_s1 ex_ok (Some "/up"%string) "P-9" = None.
Proof. vm_compute. done. Qed.

(** Revoking the proof behind a grant leaves the user whitelisted. *)
Example grant_outlives_proof :
  let granted := fst (fst (kycGrant ex_s1 ex_ok (Some ("alice", "P-9")%string))) in
  let revoked := fst (fst (revokeProof granted ex_ok "P-9" "" "")) in
  IsWhitelisted (kyc revoked) "alice" = true ∧ Engine.VerifyProof (eng revoked) "P-9" = Ok false.
Proof. vm_compute. done. Qed.
