(* ===== verification/BatchApi.v ===== *)
(** * The aggregation handlers ([engine/internal/api/server.go])

    Batches of proof hashes: opened, filled, finalized once into a STARK pack,
    verified, stored and loaded. A handler is one step: the code holds [aggMu]
    for the whole of it, except that creation saves, and the two readers read,
    after unlocking. The clock and whether the database accepts a statement are
    arguments. *)

From S2P Require Import Prelude GoLib Sha256 Merkle Engine PgStore Stark.

Local Open Scope Z_scope.

(** ** State *)

Record aggBatch := {
  a_id : string; a_merkle_root : string; a_max_proofs : Z; a_proof_hashes : list string; a_status : string;
  a_created_at : Z; a_finalized_at : Z; a_pack : option STARKPack;
}.

Record BatchServer := { batches : gmap string aggBatch; rows : option (gmap string AggBatchRow) }.

Inductive BatchBody :=
| BatchError (msg : string)
| BatchFailed (e : StarkError)
| Created (b : aggBatch)
| Added (id proof_hash : string) (leaf_index count : Z)
| Finalized (b : aggBatch) (count : Z) (aggregate : string)
| Verified (id : string) (valid : bool) (aggregate : string) (count : Z) (error : option StarkError)
| Shown (b : aggBatch) (count : Z) (aggregate : option string).

Definition reply : Type := Z * BatchBody.

Section handlers.
Context `{PqDriver}.

(** ** Storing *)

Definition row_of_batch (b : aggBatch) : AggBatchRow :=
  {| BatchID := a_id b; BMaxProofs := a_max_proofs b; BProofHashes := appended (a_proof_hashes b);
     BMerkleRoot := a_merkle_root b; BStatus := a_status b; BCreatedAt := a_created_at b; BFinalizedAt := a_finalized_at b;
     BAggregateProofHash := match a_pack b with Some k => AggregateProofHash k | None => "" end;
     BIndividualProofHashes := match a_pack b with Some k => appended (IndividualProofHashes k) | None => None end;
     BProofCount := match a_pack b with Some k => ProofCount k | None => 0 end |}.

Definition persistAggBatch (s : BatchServer) (up : bool) (b : aggBatch) : BatchServer :=
  match rows s with
  | None => s
  | Some t => {| batches := batches s; rows := Some (the_ok t (SaveAggBatch up t (row_of_batch b))) |}
  end.

Definition batch_of_row (r : AggBatchRow) : aggBatch :=
  {| a_id := BatchID r; a_merkle_root := BMerkleRoot r; a_max_proofs := BMaxProofs r;
     a_proof_hashes := default [] (BProofHashes r); a_status := BStatus r; a_created_at := BCreatedAt r;
     a_finalized_at := BFinalizedAt r;
     a_pack := if bool_decide (BAggregateProofHash r = ""%string) then None
               else Some {| AggregateProofHash := BAggregateProofHash r;
                            IndividualProofHashes := default [] (BIndividualProofHashes r);
                            ProofCount := BProofCount r; Metadata := ∅; Timestamp := BFinalizedAt r |} |}.

(** The part of [New] that loads the batches; a failed query leaves none. *)
Definition load_batches (up : bool) (t : gmap string AggBatchRow) : BatchServer :=
  {| batches := match LoadAggBatches up t with
                | Err _ => ∅
                | Ok rs => foldl (λ m r, <[BatchID r := batch_of_row r]> m) ∅ rs
                end;
     rows := Some t |}.

(** ** Handlers *)

Definition put (s : BatchServer) (b : aggBatch) : BatchServer :=
  {| batches := <[a_id b := b]> (batches s); rows := rows s |}.

Definition aggregationCreateBatch (s : BatchServer) (now : time) (up : bool) (req : option (string * string * Z))
    : BatchServer * reply :=
  match req with
  | None => (s, (400, BatchError "invalid JSON body"))
  | Some (id, root, maxProofs) =>
      if bool_decide (id = ""%string) then (s, (400, BatchError "batch_id is required"))
      else
        let maxProofs := if maxProofs <=? 0 then 100 else maxProofs in
        match batches s !! id with
        | Some _ => (s, (409, BatchError "batch_id already exists"))
        | None =>
            let b := {| a_id := id; a_merkle_root := root; a_max_proofs := maxProofs; a_proof_hashes := [];
                        a_status := "open"; a_created_at := unix now; a_finalized_at := 0; a_pack := None |} in
            (persistAggBatch (put s b) up b, (201, Created b))
        end
  end.

Definition add_hash (b : aggBatch) (h : string) : aggBatch :=
  {| a_id := a_id b; a_merkle_root := a_merkle_root b; a_max_proofs := a_max_proofs b;
     a_proof_hashes := a_proof_hashes b ++ [h]; a_status := a_status b; a_created_at := a_created_at b;
     a_finalized_at := a_finalized_at b; a_pack := a_pack b |}.

Definition aggregationAddProof (s : BatchServer) (up : bool) (req : option (string * string * Z)) : BatchServer * reply :=
  match req with
  | None => (s, (400, BatchError "invalid JSON body"))
  | Some (id, h, leaf) =>
      match batches s !! id with
      | None => (s, (404, BatchError "batch not found"))
      | Some b =>
          if negb (bool_decide (a_status b = "open"%string)) then (s, (409, BatchError "batch is already finalized"))
          else if a_max_proofs b <=? Z.of_nat (length (a_proof_hashes b)) then (s, (409, BatchError "batch is full"))
          else
            let b := add_hash b h in
            (persistAggBatch (put s b) up b, (200, Added (a_id b) h leaf (Z.of_nat (length (a_proof_hashes b)))))
      end
  end.

Definition finalize (b : aggBatch) (pack : STARKPack) (now : time) : aggBatch :=
  {| a_id := a_id b; a_merkle_root := a_merkle_root b; a_max_proofs := a_max_proofs b;
     a_proof_hashes := a_proof_hashes b; a_status := "finalized"; a_created_at := a_created_at b;
     a_finalized_at := unix now; a_pack := Some pack |}.

Definition batch_metadata (b : aggBatch) : gmap string string := {[ "batch_id"%string := a_id b ]}.

(** [packed] is the clock that stamps the pack, [now] the batch's. *)
Definition aggregationFinalize (s : BatchServer) (packed now : time) (up : bool) (req : option string) : BatchServer * reply :=
  match req with
  | None => (s, (400, BatchError "invalid JSON body"))
  | Some id =>
      match batches s !! id with
      | None => (s, (404, BatchError "batch not found"))
      | Some b =>
          if bool_decide (a_status b = "finalized"%string) then (s, (409, BatchError "batch already finalized"))
          else if (length (a_proof_hashes b) =? 0)%nat then (s, (400, BatchError "cannot finalize an empty batch"))
          else match CreateSTARKPack packed (bytes_of <$> a_proof_hashes b) (batch_metadata b) with
               | Err e => (s, (500, BatchFailed e))
               | Ok pack =>
                   let b := finalize b pack now in
                   (persistAggBatch (put s b) up b,
                    (200, Finalized b (Z.of_nat (length (a_proof_hashes b))) (AggregateProofHash pack)))
               end
      end
  end.

Definition aggregationVerifyBatch (s : BatchServer) (id : string) : reply :=
  match batches s !! id with
  | None => (404, BatchError "batch not found")
  | Some b =>
      match a_pack b with
      | Some pack =>
          if bool_decide (a_status b = "finalized"%string) then
            let out := UnpackAndVerify (Some pack) in
            (200, Verified (a_id b) (match out with Ok v => v | Err _ => false end) (AggregateProofHash pack) (ProofCount pack)
                    (match out with Ok _ => None | Err e => Some e end))
          else (409, BatchError "batch is not finalized yet")
      | None => (409, BatchError "batch is not finalized yet")
      end
  end.

Definition aggregationGetBatch (s : BatchServer) (id : string) : reply :=
  match batches s !! id with
  | None => (404, BatchError "batch not found")
  | Some b => (200, Shown b (Z.of_nat (length (a_proof_hashes b))) (AggregateProofHash <$> a_pack b))
  end.

(** ** Reachable states *)

(** A request or a restart, while the database takes every statement. *)
Inductive batch_step : BatchServer → BatchServer → Prop :=
| step_create s now req : batch_step s (fst (aggregationCreateBatch s now true req))
| step_add s req : batch_step s (fst (aggregationAddProof s true req))
| step_finalize s packed now req : batch_step s (fst (aggregationFinalize s packed now true req))
| step_restart s t : rows s = Some t → batch_step s (load_batches true t).

Definition no_batches : BatchServer := {| batches := ∅; rows := Some ∅ |}.

(** A batch is open and without a pack, or finalized with a pack that was made
    from its hashes; in both cases it is within its size. *)
Definition batch_ok (id : string) (b : aggBatch) : Prop :=
  a_id b = id ∧ Z.of_nat (length (a_proof_hashes b)) <= a_max_proofs b ∧
  ((a_status b = "open"%string ∧ a_pack b = None) ∨
   (a_status b = "finalized"%string ∧ a_proof_hashes b ≠ [] ∧ ∃ pack now md, a_pack b = Some pack ∧
      CreateSTARKPack now (bytes_of <$> a_proof_hashes b) md = Ok pack)).

(** What the table holds of a batch: the finalized ones. *)
Definition stored (b : aggBatch) : option AggBatchRow :=
  if bool_decide (a_status b = "finalized"%string) then Some (row_of_batch b) else None.

Definition batch_inv (s : BatchServer) : Prop :=
  (∀ id b, batches s !! id = Some b → batch_ok id b) ∧
  ∃ t, rows s = Some t ∧ ∀ id, t !! id = batches s !! id ≫= stored.

(** ** Facts *)

Lemma default_appended (l : list string) : default [] (appended l) = l.
Proof. by destruct l. Qed.

Lemma appended_some (l : list string) : l ≠ [] → appended l = Some l.
Proof. by destruct l. Qed.

Lemma create_shape now proofs md pack :
  CreateSTARKPack now proofs md = Ok pack →
  IndividualProofHashes pack ≠ [] ∧ AggregateProofHash pack ≠ ""%string ∧
  CreateSTARKPack (Timestamp pack * second) proofs ∅ =
    Ok {| AggregateProofHash := AggregateProofHash pack; IndividualProofHashes := IndividualProofHashes pack;
          ProofCount := ProofCount pack; Metadata := ∅; Timestamp := Timestamp pack |} ∧
  UnpackAndVerify (Some pack) = Ok true.
Proof.
  intros Hc. assert (proofs ≠ []) as Hne by (by intros ->).
  destruct (CreateSTARKPack_total now proofs md Hne) as (q & Hq & _ & _ & Hv). rewrite Hc in Hq. apply ok_inj in Hq. subst q.
  destruct proofs as [|p proofs]; [done|]. apply ok_inj in Hc. subst pack. cbn [IndividualProofHashes AggregateProofHash Timestamp].
  split; [done|]. split; [|split; [|exact Hv]].
  - apply hex_encode_nonempty. intros E. apply (f_equal length) in E. rewrite length_sha256 in E. done.
  - unfold CreateSTARKPack, AggregateSTARKs, unix. by rewrite Z.div_mul.
Qed.

(** The fields of a pack that its check reads. *)
Lemma UnpackAndVerify_ext k k' :
  AggregateProofHash k = AggregateProofHash k' → IndividualProofHashes k = IndividualProofHashes k' →
  ProofCount k = ProofCount k' → UnpackAndVerify (Some k) = UnpackAndVerify (Some k').
Proof. intros H1 H2 H3. unfold UnpackAndVerify. by rewrite H1, H2, H3. Qed.

Lemma save_open s up b : a_pack b = None → persistAggBatch s up b = s.
Proof.
  intros Hp. unfold persistAggBatch. destruct s as [m [t|]]; cbn; [|done].
  assert (is_ok (SaveAggBatch up t (row_of_batch b)) = false) as E.
  { apply SaveAggBatch_nil. right. unfold row_of_batch. by rewrite Hp. }
  by destruct (SaveAggBatch _ _ _).
Qed.

Lemma save_new t b pack :
  a_proof_hashes b ≠ [] → a_pack b = Some pack → IndividualProofHashes pack ≠ [] → t !! a_id b = None →
  SaveAggBatch true t (row_of_batch b) = Ok (<[a_id b := row_of_batch b]> t).
Proof.
  intros Hh Hp Hi Ht. unfold SaveAggBatch, row_of_batch. cbn [negb BProofHashes BIndividualProofHashes BatchID]. rewrite Hp.
  rewrite !appended_some by done. rewrite !array_value_some. cbn. rewrite Ht. done.
Qed.

(** A finalized batch that is loaded again has lost its pack's metadata and stamp
    and nothing else. *)
Definition reloaded (b : aggBatch) : aggBatch := batch_of_row (row_of_batch b).

Lemma reloaded_spec id b :
  batch_ok id b → a_status b = "finalized"%string →
  batch_ok id (reloaded b) ∧ row_of_batch (reloaded b) = row_of_batch b ∧ a_status (reloaded b) = "finalized"%string ∧
  a_proof_hashes (reloaded b) = a_proof_hashes b ∧
  ∃ k k', a_pack b = Some k ∧ a_pack (reloaded b) = Some k' ∧ AggregateProofHash k' = AggregateProofHash k ∧
    IndividualProofHashes k' = IndividualProofHashes k ∧ ProofCount k' = ProofCount k.
Proof.
  intros (Hid & Hlen & [[Ho _]|(_ & Hne & pack & now & md & Hp & Hc)]) Hf; [congruence|].
  destruct (create_shape _ _ _ _ Hc) as (Hi & Ha & Hc' & _).
  assert (reloaded b = {| a_id := a_id b; a_merkle_root := a_merkle_root b; a_max_proofs := a_max_proofs b;
    a_proof_hashes := a_proof_hashes b; a_status := a_status b; a_created_at := a_created_at b; a_finalized_at := a_finalized_at b;
    a_pack := Some {| AggregateProofHash := AggregateProofHash pack; IndividualProofHashes := IndividualProofHashes pack;
      ProofCount := ProofCount pack; Metadata := ∅; Timestamp := a_finalized_at b |} |}) as ->.
  { unfold reloaded, batch_of_row, row_of_batch. cbn. rewrite default_appended, Hp. cbn. rewrite default_appended.
    by rewrite bool_decide_eq_false_2. }
  split_and!; [|by unfold row_of_batch; rewrite Hp|done|done|by eexists _, _; split_and!].
  split; [done|]. split; [done|]. right. split; [done|]. split; [done|]. cbn.
  eexists _, (a_finalized_at b * second), ∅. split; [done|]. destruct (a_proof_hashes b) as [|h hs]; [done|].
  apply ok_inj in Hc. subst pack. unfold CreateSTARKPack, AggregateSTARKs, unix. cbn. by rewrite Z.div_mul.
Qed.

Lemma load_reloaded s t :
  batch_inv s → rows s = Some t →
  batches (load_batches true t) = omap (λ b, if bool_decide (a_status b = "finalized"%string) then Some (reloaded b) else None) (batches s).
Proof.
  intros (Hok & t' & Ht' & Hst) Ht. assert (t' = t) as -> by congruence. unfold load_batches, LoadAggBatches. cbn [negb batches].
  change (foldl _ ∅ ?l) with (fill_map BatchID batch_of_row ∅ l). rewrite fill_map_entries with (t := t).
  - apply map_eq. intros id. rewrite lookup_fmap, lookup_omap, Hst. destruct (batches s !! id) as [b|]; cbn; [|done].
    unfold stored. by case_bool_decide.
  - intros id r Hr. rewrite Hst in Hr. destruct (batches s !! id) as [b|] eqn:E; [|done]. cbn in Hr. unfold stored in Hr.
    case_bool_decide; [|done]. injection Hr as <-. by destruct (Hok _ _ E) as [? _].
  - apply sort_slice_perm.
Qed.

(** *** The invariant *)

Lemma put_open s b :
  batch_inv s → batch_ok (a_id b) b → a_status b = "open"%string →
  (∀ b', batches s !! a_id b = Some b' → a_status b' = "open"%string) →
  persistAggBatch (put s b) true b = put s b ∧ batch_inv (put s b).
Proof.
  intros (Hok & t & Ht & Hst) Hb Ho Hold. assert (a_pack b = None) as Hp by (destruct Hb as (_ & _ & [[_ ?]|[? _]]); congruence).
  split; [by apply save_open|]. split; cbn.
  - intros id x. destruct (decide (id = a_id b)) as [->|]; [rewrite lookup_insert_eq; by intros [= <-]|].
    rewrite lookup_insert_ne by done. apply Hok.
  - exists t. split; [done|]. intros id. destruct (decide (id = a_id b)) as [->|]; [|rewrite lookup_insert_ne by done; apply Hst].
    rewrite lookup_insert_eq, Hst. cbn. unfold stored at 2. rewrite Ho. cbn. destruct (batches s !! a_id b) as [b'|] eqn:E; [|done].
    cbn. unfold stored. by rewrite (Hold b' eq_refl).
Qed.

Lemma put_finalized s b b' packed now pack :
  batch_inv s → batches s !! a_id b = Some b → a_status b = "open"%string → a_proof_hashes b ≠ [] →
  CreateSTARKPack packed (bytes_of <$> a_proof_hashes b) (batch_metadata b) = Ok pack → b' = finalize b pack now →
  batch_inv (persistAggBatch (put s b') true b') ∧ batches (persistAggBatch (put s b') true b') = <[a_id b := b']> (batches s).
Proof.
  intros (Hok & t & Ht & Hst) Hb Ho Hne Hc ->. destruct (create_shape _ _ _ _ Hc) as (Hi & _).
  assert (t !! a_id b = None) as Hnew by (rewrite Hst, Hb; cbn; unfold stored; by rewrite Ho).
  destruct (Hok _ _ Hb) as (Hid & Hlen & _). unfold persistAggBatch. cbn [rows put batches a_id finalize]. rewrite Ht.
  rewrite (save_new t (finalize b pack now) pack) by done. cbn [the_ok]. split; [|done]. split; cbn [batches rows].
  - intros id x. destruct (decide (id = a_id b)) as [->|]; [|rewrite lookup_insert_ne by done; apply Hok].
    rewrite lookup_insert_eq. intros [= <-]. split; [done|]. split; [done|]. right. split; [done|]. split; [done|].
    by exists pack, packed, (batch_metadata b).
  - eexists. split; [done|]. intros id. destruct (decide (id = a_id b)) as [->|]; [by rewrite !lookup_insert_eq|].
    rewrite !lookup_insert_ne by done. apply Hst.
Qed.

(** What a step does to the batch of an identifier: nothing, or it opens, fills
    or finalizes it, or a restart reloads or drops it. *)
Definition batch_change (ob ob' : option aggBatch) : Prop :=
  ob' = ob ∨
  (∀ b, ob = Some b → a_status b = "open"%string) ∨
  (∃ b, ob = Some b ∧ a_status b = "finalized"%string ∧ ob' = Some (reloaded b)).

Lemma open_or_finalized id b : batch_ok id b → a_status b ≠ "finalized"%string → a_status b = "open"%string.
Proof. intros (_ & _ & [[? _]|[? _]]); congruence. Qed.

Lemma insert_change (m : gmap string aggBatch) (k id : string) (b : aggBatch) :
  (∀ b', m !! k = Some b' → a_status b' = "open"%string) → batch_change (m !! id) (<[k := b]> m !! id).
Proof.
  intros Ho. destruct (decide (id = k)) as [->|]; [right; by left|]. rewrite lookup_insert_ne by done. by left.
Qed.

(** One step from [s] to [s'] keeps the invariant and changes the batch [id] so. *)
Definition step_post (id : string) (s s' : BatchServer) : Prop :=
  batch_inv s' ∧ batch_change (batches s !! id) (batches s' !! id).

Lemma post_same id s : batch_inv s → step_post id s s.
Proof. by split; [|left]. Qed.

Lemma create_post id s now req : batch_inv s → step_post id s (fst (aggregationCreateBatch s now true req)).
Proof.
  intros Hinv. unfold aggregationCreateBatch. destruct req as [[[k root] n]|]; [|by apply post_same].
  destruct (bool_decide (k = "")%string); [by apply post_same|]. destruct (batches s !! k) as [b|] eqn:Ek; [by apply post_same|].
  cbn zeta. set (b := {| a_id := k |}). assert (∀ b', batches s !! k = Some b' → a_status b' = "open"%string) as Hold by (intros; congruence).
  destruct (put_open s b Hinv) as [E Hput]; [|done|exact Hold|].
  - split; [done|]. split; [|by left]. cbn. destruct (n <=? 0) eqn:?; bool_to_prop; lia.
  - cbn [fst]. rewrite E. split; [done|]. by apply insert_change.
Qed.

Lemma add_post id s req : batch_inv s → step_post id s (fst (aggregationAddProof s true req)).
Proof.
  intros Hinv. pose proof Hinv as (Hok & _). unfold aggregationAddProof. destruct req as [[[k h] leaf]|]; [|by apply post_same].
  destruct (batches s !! k) as [b|] eqn:Ek; [|by apply post_same].
  destruct (bool_decide (a_status b = "open"%string)) eqn:Eo; cbn [negb]; bool_to_prop; [|by apply post_same].
  destruct (_ <=? _) eqn:El; bool_to_prop; [by apply post_same|]. destruct (Hok _ _ Ek) as (Hid & Hlen & Hcase).
  assert (∀ b', batches s !! a_id (add_hash b h) = Some b' → a_status b' = "open"%string) as Hold
    by (cbn; rewrite Hid; intros; congruence).
  destruct (put_open s (add_hash b h) Hinv) as [E Hput]; [|done|exact Hold|].
  - split; [done|]. split; [cbn; rewrite length_app; cbn; lia|]. left. split; [done|]. destruct Hcase as [[_ ?]|[? _]]; [done|congruence].
  - cbn [fst]. rewrite E. split; [done|]. by apply insert_change.
Qed.

Lemma finalize_post id s packed now req : batch_inv s → step_post id s (fst (aggregationFinalize s packed now true req)).
Proof.
  intros Hinv. pose proof Hinv as (Hok & _). unfold aggregationFinalize. destruct req as [k|]; [|by apply post_same].
  destruct (batches s !! k) as [b|] eqn:Ek; [|by apply post_same].
  destruct (bool_decide (a_status b = "finalized"%string)) eqn:Eo; bool_to_prop; [by apply post_same|].
  destruct (_ =? _)%nat eqn:El; [by apply post_same|]. destruct (CreateSTARKPack _ _ _) as [pack|] eqn:Hc; [|by apply post_same].
  destruct (Hok _ _ Ek) as (Hid & _). pose proof (open_or_finalized _ _ (Hok _ _ Ek) Eo) as Ho. cbn [fst].
  destruct (put_finalized s b (finalize b pack now) packed now pack Hinv) as [Hput Hb]; [by rewrite Hid|done| |done|done|].
  - intros E. by rewrite E in El.
  - split; [done|]. rewrite Hb. apply insert_change. rewrite Hid. intros; congruence.
Qed.

Lemma reload_post id s t : batch_inv s → rows s = Some t → step_post id s (load_batches true t).
Proof.
  intros Hinv Ht. pose proof (load_reloaded s t Hinv Ht) as Hl. pose proof Hinv as (Hok & t' & Ht' & Hst).
  assert (t' = t) as -> by congruence. split; [split|].
  - intros k b. rewrite Hl, lookup_omap. destruct (batches s !! k) as [b0|] eqn:E; cbn; [|done].
    case_bool_decide; [|done]. intros [= <-]. by apply reloaded_spec; [apply Hok|].
  - exists t. split; [done|]. intros k. rewrite Hl, Hst, lookup_omap. destruct (batches s !! k) as [b0|] eqn:E; cbn; [|done].
    unfold stored. case_bool_decide; [|done]. cbn. destruct (reloaded_spec k b0) as (_ & Hr & Hf & _); [by apply Hok|done|].
    rewrite bool_decide_eq_true_2 by done. by rewrite Hr.
  - rewrite Hl, lookup_omap. destruct (batches s !! id) as [b0|] eqn:E; cbn; [|by left]. case_bool_decide.
    + right. right. by exists b0.
    + right. left. intros b [= <-]. by apply (open_or_finalized id); [apply Hok|].
Qed.

Lemma batch_step_post id s s' : batch_step s s' → batch_inv s → step_post id s s'.
Proof. intros [] Hinv; [by apply create_post|by apply add_post|by apply finalize_post|by apply reload_post]. Qed.

Lemma batches_reachable_inv s : rtc batch_step no_batches s → batch_inv s.
Proof.
  intros Hs. eapply (rtc_ind_r batch_inv); [|intros x y _ Hxy Hx; by destruct (batch_step_post ""%string x y Hxy Hx)|exact Hs].
  split; [done|]. by exists ∅.
Qed.

(** What stays of a finalized batch. *)
Definition same_batch (b b' : aggBatch) : Prop :=
  a_status b = "finalized"%string ∧ a_status b' = "finalized"%string ∧ a_proof_hashes b' = a_proof_hashes b ∧
  ∃ k k', a_pack b = Some k ∧ a_pack b' = Some k' ∧ AggregateProofHash k' = AggregateProofHash k ∧
    IndividualProofHashes k' = IndividualProofHashes k ∧ ProofCount k' = ProofCount k.

Lemma finalized_stays s s' id b :
  rtc batch_step s s' → batch_inv s → batches s !! id = Some b → a_status b = "finalized"%string →
  ∃ b', batches s' !! id = Some b' ∧ same_batch b b' ∧ batch_ok id b'.
Proof.
  intros Hs. revert b. induction Hs as [s|s s1 s' Hstep _ IH]; intros b Hinv Hb Hf.
  - pose proof (proj1 Hinv _ _ Hb) as Hok. exists b. split; [done|]. split; [|done].
    destruct Hok as (_ & _ & [[? _]|(_ & _ & k & now & md & Hk & _)]); [congruence|]. split_and!; [done..|]. by exists k, k.
  - destruct (batch_step_post id s s1 Hstep Hinv) as [Hinv1 [E|[Ho|(b0 & Hb0 & _ & E)]]].
    + rewrite Hb in E. by apply IH.
    + apply Ho in Hb. congruence.
    + assert (b0 = b) as -> by congruence. destruct (reloaded_spec id b (proj1 Hinv _ _ Hb) Hf) as (_ & _ & Hf1 & Hh & k & k1 & Hk & Hk1 & E1 & E2 & E3).
      destruct (IH _ Hinv1 E Hf1) as (b' & Hb' & (_ & H2 & H3 & k2 & k3 & Hk2 & Hk3 & E4 & E5 & E6) & Hok).
      exists b'. split; [done|]. split; [|done]. assert (k2 = k1) as -> by congruence.
      split_and!; [done|done|congruence|]. exists k, k3. split_and!; congruence.
Qed.

Lemma verify_finalized s id b k :
  batch_ok id b → batches s !! id = Some b → a_status b = "finalized"%string → a_pack b = Some k →
  aggregationVerifyBatch s id =
    (200, Verified id true (AggregateProofHash k) (Z.of_nat (length (a_proof_hashes b))) None).
Proof.
  intros (Hid & _ & [[? _]|(_ & Hne & k' & now & md & Hk' & Hc)]) Hb Hf Hk; [congruence|]. assert (k' = k) as -> by congruence.
  destruct (create_shape _ _ _ _ Hc) as (_ & _ & _ & Hv). unfold aggregationVerifyBatch. rewrite Hb, Hk, Hf.
  rewrite bool_decide_eq_true_2 by done. rewrite Hv, Hid. cbn. do 3 f_equal.
  destruct (CreateSTARKPack_total now (bytes_of <$> a_proof_hashes b) md) as (q & Hq & Hcount & _).
  - intros E. apply fmap_nil_inv in E. done.
  - rewrite Hc in Hq. apply ok_inj in Hq as ->. by rewrite Hcount, length_fmap.
Qed.

(** ** Properties *)


(** A batch that is still open is never stored - the slice of individual hashes
    is nil, which is NULL, in a column that is NOT NULL -, so every restart loses
    it. *)
Lemma open_batch_lost s t id b :
  rtc batch_step no_batches s → rows s = Some t → batches s !! id = Some b → a_status b = "open"%string →
  t !! id = None ∧ aggregationGetBatch (load_batches true t) id = (404, BatchError "batch not found").
Proof.
  intros Hreach Ht Hb Ho. pose proof (batches_reachable_inv _ Hreach) as Hinv. pose proof Hinv as (_ & t' & Ht' & Hst).
  assert (t' = t) as -> by congruence. split; [rewrite Hst, Hb; cbn; unfold stored; by rewrite Ho|].
  unfold aggregationGetBatch. rewrite (load_reloaded s t Hinv Ht), lookup_omap, Hb. cbn. by rewrite Ho.
Qed.
End handlers.

Definition ex_opened : BatchServer := fst (aggregationCreateBatch no_batches (9 * second) true (Some ("b1", "", 2)%string)).
Definition ex_filled : BatchServer := fst (aggregationAddProof ex_opened true (Some ("b1", "aa", 0)%string)).
Definition ex_finalized : BatchServer := fst (aggregationFinalize ex_filled 0 0 true (Some "b1"%string)).


(** The same for the two steps before: an open batch is gone after a restart. *)
Example open_batch_sample :
  fst (aggregationGetBatch ex_filled "b1") = 200 ∧
  fst (aggregationGetBatch (load_batches true (default ∅ (rows ex_filled))) "b1") = 404.
Proof. vm_compute. done. Qed.

(** After a restart whose query failed the identifier of a stored batch is free
    again, and finalizing the new batch under it keeps the old row's size: the
    batch that a later restart loads holds more hashes than its size allows. *)
Example failed_load_overfills :
  let lost := load_batches false (default ∅ (rows ex_finalized)) in
  let s := fst (aggregationCreateBatch lost 0 true (Some ("b1", "", 9)%string)) in
  let s := foldl (λ s h, fst (aggregationAddProof s true (Some ("b1"%string, h, 0)))) s ["aa"; "bb"; "cc"]%string in
  let s := fst (aggregationFinalize s 0 0 true (Some "b1"%string)) in
  (λ b, (length (a_proof_hashes b), a_max_proofs b)) <$> batches (load_batches true (default ∅ (rows s))) !! "b1"%string
  = Some (3%nat, 2).
Proof. vm_compute. done. Qed.
