(* ===== verification/ChainApi.v ===== *)
(** * The proof-chain handler ([engine/internal/api/server.go])

    [proofChainValidate]: the rules of [ValidateDAG] (Dag), the identifier of a
    nameless chain, and the depth of an accepted chain, computed by a recursion
    over parents that remembers nothing. The request is the decoded chain. *)

From S2P Require Import Prelude GoLib Sha256 Dag.
From stdpp Require Import relations.

Local Open Scope Z_scope.

(** ** Operations *)

(** The loop over the parents of [calcDepth]. *)
Fixpoint max_parent (rec : string → result DagError Z) (pids : list string) (m : Z) : result DagError Z :=
  match pids with
  | [] => Ok m
  | pid :: pids' => let! d := rec pid in max_parent rec pids' (if m <? d then d else m)
  end.

(** A missing step is a nil pointer. [fuel] bounds the depth of the recursion. *)
Fixpoint calcDepth (index : gmap string ChainStep) (fuel : nat) (id : string) : result DagError Z :=
  match fuel with
  | O => Err DagFuel
  | S fuel' =>
      match index !! id with
      | None => Err DagPanic
      | Some step =>
          if (length (ParentIDs step) =? 0)%nat then Ok 0
          else let! m := max_parent (calcDepth index fuel') (ParentIDs step) 0 in Ok (m + 1)
      end
  end.

(** How many calls of [calcDepth] one call makes, itself included. *)
Fixpoint depth_calls (index : gmap string ChainStep) (fuel : nat) (id : string) : Z :=
  match fuel with
  | O => 0
  | S fuel' =>
      match index !! id with
      | None => 1
      | Some step => 1 + foldr (λ pid n, depth_calls index fuel' pid + n) 0 (ParentIDs step)
      end
  end.

Definition chain_depth (steps : list ChainStep) : result DagError Z :=
  max_parent (calcDepth (build_index steps) (length steps)) (ProofID <$> steps) 0.

(** [fmt.Sprintf] of the steps with the verb [%v]. *)
Definition fmt_step (s : ChainStep) : string :=
  "{" +:+ string_join " " [ProofID s; "[" +:+ string_join " " (ParentIDs s) +:+ "]"; ModelHash s; InputHash s; OutputHash s;
    itoa (StepIndex s); if Verified s then "true" else "false"] +:+ "}".
Definition fmt_steps (steps : list ChainStep) : string := "[" +:+ string_join " " (fmt_step <$> steps) +:+ "]".

Definition chain_id (steps : list ChainStep) : string :=
  String.substring 0 16 ("chain-" +:+ hex_encode (sha256 (bytes_of (fmt_steps steps)))).

(** [Err] of the answer is an error message of the handler itself; the chain is
    broken ([Invalid]) or valid. *)
Inductive ChainAnswer :=
| Rejected (msg : string)
| Invalid (e : DagError) (id : string) (total : Z)
| Valid (id : string) (total depth : Z) (root : string).

(** The outer [Err] is a panic. *)
Definition proofChainValidate (req : option ProofChain) : result DagError (Z * ChainAnswer) :=
  match req with
  | None => Ok (400, Rejected "invalid JSON body")
  | Some chain =>
      if (length (Steps chain) =? 0)%nat then Ok (400, Rejected "chain must have at least one step")
      else
        let total := Z.of_nat (length (Steps chain)) in
        let id := if bool_decide (ChainID chain = ""%string) then chain_id (Steps chain) else ChainID chain in
        match ValidateDAG chain with
        | Err DagPanic => Err DagPanic
        | Err DagFuel => Err DagFuel
        | Err e => Ok (422, Invalid e id total)
        | Ok _ => let! depth := chain_depth (Steps chain) in Ok (200, Valid id total depth (RootProofID chain))
        end
  end.

(** ** Longest parent chains *)

Section depth.
Context (index : gmap string ChainStep).

(** [d] is the length of the longest chain of parents above [x]. *)
Definition is_depth (x : string) (d : Z) : Prop :=
  0 <= d ∧ (∃ y, nsteps (edge index) (Z.to_nat d) x y) ∧
  ∀ n y, nsteps (edge index) n x y → Z.of_nat n <= d.

Lemma max_parent_spec rec pids m :
  0 <= m → (∀ y, y ∈ pids → ∃ d, rec y = Ok d ∧ is_depth y d) →
  ∃ r, max_parent rec pids m = Ok r ∧ m <= r ∧ (r = m ∨ ∃ y, y ∈ pids ∧ is_depth y r) ∧
    ∀ y d, y ∈ pids → is_depth y d → d <= r.
Proof.
  revert m. induction pids as [|y pids IH]; intros m Hm Hall; cbn [max_parent].
  { exists m. split_and!; [done|lia|by left|]. intros y d Hy. by apply elem_of_nil in Hy. }
  destruct (Hall y) as (d & -> & Hd); [left|]. cbn [result_bind].
  destruct (IH (if m <? d then d else m)) as (r & Hr & Hle & Hcase & Hmax).
  { destruct (Z.ltb_spec m d); lia. } { intros z Hz. apply Hall. by right. }
  exists r. split; [done|]. split; [destruct (Z.ltb_spec m d); lia|]. split.
  - destruct Hcase as [->|(z & Hz & Hd')].
    + destruct (Z.ltb_spec m d); [right; exists y; split; [left|done]|by left].
    + right. exists z. split; [by right|done].
  - intros z e Hz He. apply elem_of_cons in Hz as [->|Hz]; [|by eapply Hmax].
    assert (e = d) as ->; [|destruct (Z.ltb_spec m d); lia].
    destruct Hd as (D0 & (u & Du) & Dm), He as (E0 & (v & Ev) & Em).
    specialize (Dm _ _ Ev). specialize (Em _ _ Du). lia.
Qed.

Lemma edge_parent id step y : index !! id = Some step → edge index id y ↔ y ∈ ParentIDs step.
Proof. intros H. split; [intros (s & Hs & Hy); congruence|intros Hy; by exists step]. Qed.

Lemma nsteps_first n x y :
  nsteps (edge index) (S n) x y → ∃ z, edge index x z ∧ nsteps (edge index) n z y.
Proof. inversion 1. eauto. Qed.

(** Opening the call of one more step leaves fewer steps to open. *)
Lemma open_step above id :
  is_Some (index !! id) → id ∉ above → (size (dom index ∖ ({[id]} ∪ above)) < size (dom index ∖ above))%nat.
Proof.
  intros Hid Hn. apply (subset_size (C := gset string)). apply elem_of_dom in Hid. split; [set_solver|].
  intros Hs. specialize (Hs id). set_solver.
Qed.

(** [above] are the steps whose calls are open. *)
Lemma calcDepth_spec fuel above id :
  closed index → ¬ cyclic index → is_Some (index !! id) → (∀ p, p ∈ above → tc (edge index) p id) →
  (size (dom index ∖ above) <= fuel)%nat →
  ∃ d, calcDepth index fuel id = Ok d ∧ is_depth id d.
Proof.
  intros Hcl Hac. revert above id. induction fuel as [|fuel IH]; intros above id Hid Habove Hsize;
    (assert (id ∉ above) as Hn by (intros H; apply Hac; exists id; by apply Habove));
    pose proof (open_step above id Hid Hn) as Hopen; [lia|].
  assert (∀ y, edge index id y → ∃ d, calcDepth index fuel y = Ok d ∧ is_depth y d) as Hrec.
  { intros y Hy. apply (IH ({[id]} ∪ above)); [by apply (Hcl id)| |lia].
    intros p [->%elem_of_singleton|Hp]%elem_of_union; [by apply tc_once|]. eapply tc_r; [by apply Habove|done]. }
  cbn [calcDepth]. destruct Hid as [step Hstep]. rewrite Hstep. setoid_rewrite (edge_parent id step) in Hrec; [|done].
  destruct (ParentIDs step) as [|q qs] eqn:Ep; cbn [length Nat.eqb].
  { exists 0. split; [done|]. split; [lia|]. split; [exists id; constructor|].
    intros [|n] y Hy; [lia|]. apply nsteps_first in Hy as (z & Hz & _). rewrite (edge_parent id step), Ep in Hz by done.
    by apply elem_of_nil in Hz. }
  destruct (max_parent_spec (calcDepth index fuel) (q :: qs) 0) as (r & -> & Hr0 & Hcase & Hmax); [lia|exact Hrec|].
  cbn [result_bind]. exists (r + 1). split; [done|]. split; [lia|]. split.
  - destruct Hcase as [->|(y & Hy & _ & (z & Hz) & _)].
    + exists q. apply nsteps_once, (edge_parent id step); [done|]. rewrite Ep. left.
    + exists z. replace (Z.to_nat (r + 1)) with (S (Z.to_nat r)) by lia. eapply nsteps_l; [|done].
      apply (edge_parent id step); [done|]. by rewrite Ep.
  - intros [|n] y Hy; [lia|]. apply nsteps_first in Hy as (z & Hz & Hzy).
    rewrite (edge_parent id step), Ep in Hz by done. destruct (Hrec z Hz) as (d & _ & Hd).
    pose proof (Hmax z d Hz Hd). destruct Hd as (_ & _ & Hd). specialize (Hd _ _ Hzy). lia.
Qed.
End depth.

(** ** What an accepted chain satisfies *)

Lemma ValidateDAG_inv chain :
  ValidateDAG chain = Ok tt →
  closed (build_index (Steps chain)) ∧ ¬ cyclic (build_index (Steps chain)).
Proof.
  unfold ValidateDAG. set (steps := Steps chain). cbv zeta. case_match; [done|]. case_match; [done|].
  rewrite result_bind_ok. intros ([] & Hchk & Hrun). destruct (search_correct steps Hchk) as (st & Hst & Hcyc).
  rewrite Hst in Hrun. cbn [result_bind] in Hrun. split.
  - intros x y (s & Hs & Hy). apply build_index_some in Hs as [Hs _].
    apply check_steps_ok with (s := s) in Hchk; [|done]. rewrite check_parents_ok in Hchk.
    destruct (Hchk y Hy) as (p & ? & _). eauto.
  - rewrite <- Hcyc. destruct (hasCycle st); [done|by intros].
Qed.

Lemma step_indexed steps s : s ∈ steps → is_Some (build_index steps !! ProofID s).
Proof.
  intros Hs. destruct (build_index steps !! ProofID s) eqn:E; [eauto|].
  rewrite build_index_lookup_none in E. by destruct (E s).
Qed.

Lemma chain_depth_spec chain :
  ValidateDAG chain = Ok tt →
  let index := build_index (Steps chain) in
  ∃ d, chain_depth (Steps chain) = Ok d ∧ 0 <= d ∧
    (d = 0 ∨ ∃ x, x ∈ ProofID <$> Steps chain ∧ is_depth index x d) ∧
    ∀ x n y, x ∈ ProofID <$> Steps chain → nsteps (edge index) n x y → Z.of_nat n <= d.
Proof.
  intros Hok index. destruct (ValidateDAG_inv chain Hok) as [Hcl Hac]. fold index in Hcl, Hac.
  assert (∀ x, x ∈ ProofID <$> Steps chain →
    ∃ d, calcDepth index (length (Steps chain)) x = Ok d ∧ is_depth index x d) as Hall.
  { intros x (s & -> & Hs)%list_elem_of_fmap. apply (calcDepth_spec index _ ∅); [done|done|by apply step_indexed|set_solver|].
    pose proof (build_index_size (Steps chain)) as H. fold index in H. by rewrite difference_empty_L. }
  destruct (max_parent_spec index _ (ProofID <$> Steps chain) 0 ltac:(lia) Hall) as (d & Hd & Hd0 & Hcase & Hmax).
  exists d. split; [exact Hd|]. split; [done|]. split; [exact Hcase|].
  intros x n y Hx Hn. destruct (Hall x Hx) as (e & _ & He). pose proof (Hmax x e Hx He).
  destruct He as (_ & _ & He). specialize (He _ _ Hn). lia.
Qed.

Lemma depth_calls_S index fuel id step :
  index !! id = Some step →
  depth_calls index (S fuel) id = 1 + foldr (λ pid n, depth_calls index fuel pid + n) 0 (ParentIDs step).
Proof. intros H. cbn [depth_calls]. by rewrite H. Qed.

(** Every call visits every parent anew: a step that names one parent twice
    doubles the calls. *)
Lemma depth_calls_double (name : nat → string) index n :
  (∀ k, (k < n)%nat → ∃ s, index !! name (S k) = Some s ∧ ParentIDs s = [name k; name k]) →
  (∃ s, index !! name O = Some s ∧ ParentIDs s = []) →
  depth_calls index (S n) (name n) = 2 ^ (Z.of_nat n + 1) - 1.
Proof.
  intros Hs H0. induction n as [|n IH].
  { destruct H0 as (s & H & Hp). by rewrite (depth_calls_S _ _ _ _ H), Hp. }
  destruct (Hs n) as (s & H & Hp); [lia|]. rewrite (depth_calls_S _ _ _ _ H), Hp. cbn [foldr]. rewrite IH by (intros; apply Hs; lia).
  replace (Z.of_nat (S n) + 1) with (Z.succ (Z.of_nat n + 1)) by lia. rewrite Z.pow_succ_r by lia. lia.
Qed.

(** ** Properties *)

(** A chain that the handler accepts is one [ValidateDAG] accepts; its depth is
    computed within the recursion bound, without a nil pointer, and is the
    length of a longest chain of parents: some step has that many generations
    above it and no step has more. The answer repeats the identifier the
    request gave, or one derived from the steps. *)
Theorem accepted_chain_depth chain :
  ValidateDAG chain = Ok tt →
  ∃ d, proofChainValidate (Some chain) =
      Ok (200, Valid (if bool_decide (ChainID chain = ""%string) then chain_id (Steps chain) else ChainID chain)
                 (Z.of_nat (length (Steps chain))) d (RootProofID chain)) ∧
    (∃ x y, x ∈ ProofID <$> Steps chain ∧ nsteps (edge (build_index (Steps chain))) (Z.to_nat d) x y) ∧
    (∀ x n y, x ∈ ProofID <$> Steps chain → nsteps (edge (build_index (Steps chain))) n x y → Z.of_nat n <= d).
Proof.
  intros Hok. destruct (chain_depth_spec chain Hok) as (d & Hd & Hd0 & Hcase & Hmax). cbv zeta in Hcase, Hmax.
  assert (Steps chain ≠ []) as Hne by (intros E; unfold ValidateDAG in Hok; by rewrite E in Hok).
  exists d. split; [|split; [|exact Hmax]].
  - unfold proofChainValidate. rewrite Hok, Hd. destruct (Steps chain); [done|reflexivity].
  - destruct Hcase as [->|(x & Hx & _ & (y & Hy) & _)]; [|by exists x, y].
    destruct (Steps chain) as [|s l]; [done|]. exists (ProofID s), (ProofID s). split; [left|constructor].
Qed.

Lemma accepted_chain_depth_witness :
  ValidateDAG (ex_chain ex_diamond) = Ok tt ∧
  ∃ d, d = 2 ∧ ∃ x y, x ∈ ProofID <$> ex_diamond ∧ nsteps (edge (build_index ex_diamond)) (Z.to_nat d) x y.
Proof.
  split; [vm_compute; reflexivity|].
  destruct (accepted_chain_depth (ex_chain ex_diamond)) as (d & Hd & Hex & _); [vm_compute; reflexivity|].
  exists d. split; [|exact Hex]. vm_compute in Hd. congruence.
Defined.

(** A ladder: every step names the step before it twice. *)
Definition rung (i : nat) : string := itoa (Z.of_nat i).
Fixpoint ladder (n : nat) : list ChainStep :=
  match n with
  | O => [ex_step (rung O) [] "h" "h"]
  | S n' => ex_step (rung n) [rung n'; rung n'] "h" "h" :: ladder n'
  end.

(** Seventeen steps are accepted and cost more than a hundred thousand calls for
    the last of them. *)
Example ladder_is_exponential :
  (λ a, fst a) <$> (match proofChainValidate (Some (ex_chain (ladder 12))) with Ok a => Some a | Err _ => None end) = Some 200 ∧
  depth_calls (build_index (ladder 16)) 17 (rung 16) = 2 ^ 17 - 1.
Proof. split; vm_compute; reflexivity. Qed.

(** The derived identifier joins fields by spaces: different chains share it. *)
Example chain_ids_collide :
  let a := [ex_step "r" [] "h" "h"; ex_step "s" ["r"; "t"] "h" "h"]%string in
  let b := [ex_step "r" [] "h" "h"; ex_step "s" ["r t"] "h" "h"]%string in
  a ≠ b ∧ chain_id a = chain_id b.
Proof. split; [done|vm_compute; reflexivity]. Qed.

(** A mismatch of short hashes panics in the handler. *)
Example short_hash_panics_handler :
  proofChainValidate (Some (ex_chain [ex_step "b" ["a"] "x" "y"; ex_step "a" [] "" "h"]%string)) = Err DagPanic.
Proof. vm_compute. reflexivity. Qed.
