(* ===== verification/TenantApi.v ===== *)
(** * The tenant administration handlers ([engine/internal/api/tenant_handlers.go])

    Every handler as a function of the tenant store, the administration token of
    the environment, the token of the request and the decoded request. The
    audit events of [requireTenantAdmin] are kept. [tenantCreate] hands the store
    a pointer and then empties the key list behind it: the model writes that
    change to the store. *)

From stdpp Require Import relations.
From S2P Require Import Prelude GoLib Sha256 Tenant.

Local Open Scope Z_scope.

(** ** Requests and answers *)

Record tenantCreateReq := {
  req_id : string; req_display_name : string; req_namespace : string; req_keys : list string;
  req_rate_per_second : Z; req_rate_per_minute : Z; req_monthly_proof_quota : Z;
}.

Inductive TenantBody :=
| TError (msg : string)
| TStoreError (e : TenantError)
| TList (ts : list Tenant)
| TCreated (t : Tenant)
| TAdded
| TRevoked (keep_last : Z)
| TEvents (events : list AuditEvent) (count : Z).

Definition reply : Type := Z * TenantBody.

(** What a handler meets: the token of the environment, the token and the path of
    the request, the clock. *)
Record Call := { env_token : string; req_token : string; url_path : string; at_time : time }.

(** ** Handlers *)

(** [None]: admitted. *)
Definition requireTenantAdmin (s : option Store) (c : Call) : option Store * option reply :=
  match s with
  | None => (None, Some (404, TError "tenant mode disabled"))
  | Some st =>
      let want := trim_space (env_token c) in
      if bool_decide (want = ""%string)
      then (s, Some (403, TError "tenant admin disabled: TENANT_ADMIN_TOKEN not set"))
      else
        let got := trim_space (req_token c) in
        if bool_decide (got = ""%string) || negb (bool_decide (got = want))
        then (Some (Log st (at_time c) {| At := time_zero; ATenantID := ""; AKind := AuditAuthRejected;
                                          Detail := ("admin token mismatch on " +:+ url_path c)%string |}),
              Some (403, TError "forbidden"))
        else (s, None)
  end.

(** The rest of a handler, behind the gate. *)
Definition guarded (s : option Store) (c : Call) (k : Store → Store * reply) : option Store * reply :=
  match requireTenantAdmin s c with
  | (s', Some r) => (s', r)
  | (Some st, None) => let '(st', r) := k st in (Some st', r)
  | (None, None) => (None, (404, TError ""))
  end.

Definition tenantList (s : option Store) (c : Call) : option Store * reply :=
  guarded s c (λ st, (st, (200, TList (ListTenants st)))).

Definition requested (r : tenantCreateReq) : Tenant :=
  {| TenantID := req_id r; DisplayName := req_display_name r; Namespace := req_namespace r; CreatedAt := time_zero;
     KeyHashes := HashKey <$> req_keys r; RatePerSecond := req_rate_per_second r;
     RatePerMinute := req_rate_per_minute r; MonthlyProofQuota := req_monthly_proof_quota r |}.

(** [tn.KeyHashes = nil], seen through the store's pointer. *)
Definition drop_hashes (st : Store) (id : string) : Store :=
  with_registry st (alter strip_keys id (tenants st)) (byKey st).

Definition tenantCreate (s : option Store) (c : Call) (body : option tenantCreateReq) : option Store * reply :=
  guarded s c (λ st,
    match body with
    | None => (st, (400, TError "invalid json body"))
    | Some req =>
        if bool_decide (req_id req = ""%string) || (length (req_keys req) =? 0)%nat
        then (st, (400, TError "id and >=1 key required"))
        else if existsb (λ k, bool_decide (k = ""%string)) (req_keys req)
        then (st, (400, TError "empty key not allowed"))
        else match Add st (at_time c) (requested req) with
             | Err e => (st, (409, TStoreError e))
             | Ok st' => (drop_hashes st' (req_id req), (201, TCreated (strip_keys (set_namespace (requested req)))))
             end
    end).

Definition tenantAddKey (s : option Store) (c : Call) (id : string) (body : option string) : option Store * reply :=
  guarded s c (λ st,
    if bool_decide (id = ""%string) then (st, (400, TError "tenant id required"))
    else match body with
         | None => (st, (400, TError "invalid json body"))
         | Some key =>
             if bool_decide (key = ""%string) then (st, (400, TError "key required"))
             else match RotateAddKey st (at_time c) id key with
                  | Err e => (st, (409, TStoreError e))
                  | Ok st' => (st', (200, TAdded))
                  end
         end).

Definition tenantRevokeKeys (s : option Store) (c : Call) (id : string) (body : option Z) : option Store * reply :=
  guarded s c (λ st,
    if bool_decide (id = ""%string) then (st, (400, TError "tenant id required"))
    else match body with
         | None => (st, (400, TError "invalid json body"))
         | Some n =>
             let keep := if n <? 1 then 1 else n in
             match RotateRevokeOldKeys st (at_time c) id keep with
             | Err e => (st, (404, TStoreError e))
             | Ok st' => (st', (200, TRevoked keep))
             end
         end).

(** The identifier is empty on the path of the whole store. *)
Definition tenantAudit (s : option Store) (c : Call) (id : string) : option Store * reply :=
  guarded s c (λ st, (st, (200, TEvents (Audit st id) (Z.of_nat (length (Audit st id)))))).

Inductive AdminReq :=
| RList | RCreate (body : option tenantCreateReq) | RAddKey (id : string) (body : option string)
| RRevoke (id : string) (body : option Z) | RAudit (id : string).

Definition admin (s : option Store) (c : Call) (r : AdminReq) : option Store * reply :=
  match r with
  | RList => tenantList s c
  | RCreate b => tenantCreate s c b
  | RAddKey id b => tenantAddKey s c id b
  | RRevoke id b => tenantRevokeKeys s c id b
  | RAudit id => tenantAudit s c id
  end.

(** What happens to the store of a running server: requests to the handlers above
    and the checks of the middleware. *)
Inductive api_step : Store → Store → Prop :=
| api_admin s c r s' : fst (admin (Some s) c r) = Some s' → api_step s s'
| api_rate s now id : api_step s (fst (CheckRate s now id))
| api_quota s now id : api_step s (fst (CheckAndConsumeMonthlyQuota s now id))
| api_log s now ev : api_step s (Log s now ev).

(** ** The registry under the handlers *)

Definition same_registry (s s' : Store) : Prop := tenants s' = tenants s ∧ byKey s' = byKey s.

(** One effect on the registry: none, a new tenant whose keys are not listed, a
    new key, or the oldest keys dropped. *)
Inductive registry_change (s s' : Store) : Prop :=
| ch_same : same_registry s s' → registry_change s s'
| ch_create t : tenants s !! TenantID t = None → (∀ h, h ∈ KeyHashes t → byKey s !! h = None) →
    tenants s' = <[TenantID t := strip_keys (set_namespace t)]> (tenants s) →
    byKey s' = register_keys (TenantID t) (KeyHashes t) (byKey s) → registry_change s s'
| ch_add id t h : tenants s !! id = Some t → byKey s !! h = None →
    tenants s' = <[id := set_keys t (KeyHashes t ++ [h])]> (tenants s) →
    byKey s' = <[h := id]> (byKey s) → registry_change s s'
| ch_revoke id t n : tenants s !! id = Some t →
    tenants s' = <[id := set_keys t (drop n (KeyHashes t))]> (tenants s) →
    byKey s' = foldl (λ m h, delete h m) (byKey s) (take n (KeyHashes t)) → registry_change s s'.

Lemma Add_ok s now t s' :
  Add s now t = Ok s' →
  tenants s !! TenantID t = None ∧ (∀ h, h ∈ KeyHashes t → byKey s !! h = None) ∧
  tenants s' = <[TenantID t := set_namespace t]> (tenants s) ∧
  byKey s' = register_keys (TenantID t) (KeyHashes t) (byKey s).
Proof.
  destruct (set_namespace_fields t) as [Hid Hkh]. unfold Add. do 3 (case_match; [done|]).
  case_match eqn:Et; [done|]. case_match eqn:Ef; [done|]. intros [= <-]. rewrite first_taken_none in Ef.
  cbn. by rewrite Hid, Hkh.
Qed.

(** The gate changes no registry, and lets only the token through. *)
Lemma guarded_cases st c k s' r :
  guarded (Some st) c k = (Some s', r) →
  (same_registry st s' ∧ fst r = 403) ∨
  (trim_space (req_token c) = trim_space (env_token c) ∧ trim_space (env_token c) ≠ ""%string ∧ k st = (s', r)).
Proof.
  unfold guarded, requireTenantAdmin. case_bool_decide as He; [intros [= <- <-]; by left|].
  destruct (bool_decide (trim_space (req_token c) = ""%string) || _) eqn:Eg; [intros [= <- <-]; by left|].
  destruct (k st) as [st' r'] eqn:Ek. intros [= <- <-].
  right. apply orb_false_iff in Eg as [E1 E2]. bool_to_prop. by split_and!.
Qed.

(** Behind the gate of [tenantCreate]. *)
Lemma created st c req s' r :
  tenantCreate (Some st) c (Some req) = (Some s', r) → fst r = 201 →
  tenants st !! req_id req = None ∧ (∀ k, k ∈ req_keys req → byKey st !! HashKey k = None) ∧
  tenants s' = <[req_id req := strip_keys (set_namespace (requested req))]> (tenants st) ∧
  byKey s' = register_keys (req_id req) (HashKey <$> req_keys req) (byKey st).
Proof.
  intros H Hr. apply guarded_cases in H as [[_ E]|(_ & _ & H)]; [congruence|].
  case_match; [by simplify_eq/=|]. case_match; [by simplify_eq/=|]. case_match eqn:EA; [|by simplify_eq/=].
  apply Add_ok in EA as (E1 & E2 & E3 & E4). simplify_eq/=. split; [done|]. split.
  { intros k Hk. apply E2. by apply list_elem_of_fmap_2. }
  rewrite E3, E4. by rewrite alter_insert_eq.
Qed.

Lemma RotateAddKey_change s now id key s' : RotateAddKey s now id key = Ok s' → registry_change s s'.
Proof.
  unfold RotateAddKey. case_bool_decide; [done|]. destruct (tenants s !! id) as [t|] eqn:Et; [|done].
  destruct (byKey s !! HashKey key) eqn:Eh; [done|]. intros Hok. apply ok_inj in Hok as <-. by eapply ch_add.
Qed.

Lemma RotateRevoke_change s now id keep s' : RotateRevokeOldKeys s now id keep = Ok s' → registry_change s s'.
Proof.
  unfold RotateRevokeOldKeys. destruct (tenants s !! id) as [t|] eqn:Et; [|done]. cbv zeta.
  destruct (_ <=? _)%nat; intros Hok; apply ok_inj in Hok as <-; [by apply ch_same|]. by eapply ch_revoke.
Qed.

(** Behind the gate. *)
Lemma guarded_change st c k s' r :
  guarded (Some st) c k = (Some s', r) → registry_change st (fst (k st)) → registry_change st s'.
Proof. intros [[E _]|(_ & _ & E)]%guarded_cases H; [by apply ch_same|]. by rewrite E in H. Qed.

Lemma admin_change st c r s' : fst (admin (Some st) c r) = Some s' → registry_change st s'.
Proof.
  destruct (admin (Some st) c r) as [o rep] eqn:E. cbn. intros ->.
  destruct r as [|[req|]|id [key|]|id [n|]|id]; cbn [admin] in E; pose proof E as E0; apply guarded_change in E;
    try done; cbn; repeat case_match; simplify_eq/=; try by apply ch_same.
  - match goal with H : Add _ _ _ = Ok _ |- _ => apply Add_ok in H as (E1 & E2 & E3 & E4) end.
    apply (ch_create _ _ (requested req)); [done|done| |exact E4]. cbn. rewrite E3. by rewrite alter_insert_eq.
  - by eapply RotateAddKey_change.
  - by eapply RotateRevoke_change.
  - by eapply RotateRevoke_change.
Qed.

Lemma api_change s s' : api_step s s' → registry_change s s'.
Proof.
  intros [st c r st' H|st now id|st now id|st now ev].
  - by eapply admin_change.
  - destruct (CheckRate_keys st now id) as (E1 & E2 & _). by apply ch_same.
  - destruct (Quota_keys st now id) as (E1 & E2 & _). by apply ch_same.
  - by apply ch_same.
Qed.

(** What stays of the ownership of keys: a listed key is indexed for its tenant,
    and no tenant lists a key twice. A key may be indexed and not listed. *)
Definition listed_ok (s : Store) : Prop :=
  ∀ id t, tenants s !! id = Some t → NoDup (KeyHashes t) ∧ ∀ h, h ∈ KeyHashes t → byKey s !! h = Some id.

(** [h] opens [id] and no tenant lists it. *)
Definition unlisted (s : Store) (h id : string) : Prop :=
  byKey s !! h = Some id ∧ is_Some (tenants s !! id) ∧ ∀ id' t, tenants s !! id' = Some t → h ∉ KeyHashes t.

Lemma change_listed s s' : registry_change s s' → listed_ok s → listed_ok s'.
Proof.
  intros Hch Hok id0 t0. destruct Hch as [[E1 E2]|t Hnew Hfree E1 E2|id t h Ht Hfree E1 E2|id t n Ht E1 E2]; rewrite E1, E2.
  - apply Hok.
  - destruct (decide (id0 = TenantID t)) as [->|Hne]; [rewrite lookup_insert_eq; intros [= <-]; cbn; split; [apply NoDup_nil_2|by intros h ?%elem_of_nil]|].
    rewrite lookup_insert_ne by done. intros Ht0. destruct (Hok _ _ Ht0) as [Hnd Hin]. split; [done|]. intros h Hh.
    rewrite register_keys_lookup. case_decide as Hd; [|by apply Hin]. specialize (Hin h Hh). rewrite (Hfree h Hd) in Hin. done.
  - assert (∀ h', byKey s !! h' = Some id0 → <[h := id]> (byKey s) !! h' = Some id0) as Hkeep.
    { intros h' Hh'. rewrite lookup_insert_ne; [done|]. intros ->. congruence. }
    destruct (decide (id0 = id)) as [->|Hne].
    + rewrite lookup_insert_eq. intros [= <-]. cbn. destruct (Hok _ _ Ht) as [Hnd Hin]. split.
      * apply NoDup_app. split_and!; [done| |apply NoDup_singleton]. intros h' Hh' ->%list_elem_of_singleton.
        apply Hin in Hh'. congruence.
      * intros h' [Hh'| ->%list_elem_of_singleton]%elem_of_app; [by apply Hkeep, Hin|by rewrite lookup_insert_eq].
    + rewrite lookup_insert_ne by done. intros Ht0. destruct (Hok _ _ Ht0) as [Hnd Hin]. split; [done|].
      intros h' Hh'. by apply Hkeep, Hin.
  - destruct (Hok _ _ Ht) as [Hnd Hin]. rewrite <- (take_drop n (KeyHashes t)) in Hnd, Hin.
    apply NoDup_app in Hnd as (_ & Hdisj & Hnd2). destruct (decide (id0 = id)) as [->|Hne].
    + rewrite lookup_insert_eq. intros [= <-]. cbn. split; [done|]. intros h Hh. rewrite delete_keys_lookup.
      case_decide as Hd; [by destruct (Hdisj h Hd)|]. apply Hin, elem_of_app. by right.
    + rewrite lookup_insert_ne by done. intros Ht0. destruct (Hok _ _ Ht0) as [Hnd0 Hin0]. split; [done|].
      intros h Hh. rewrite delete_keys_lookup. case_decide as Hd; [|by apply Hin0].
      specialize (Hin0 h Hh). rewrite Hin in Hin0 by (apply elem_of_app; by left). congruence.
Qed.

Lemma change_unlisted s s' h id : registry_change s s' → unlisted s h id → unlisted s' h id.
Proof.
  intros Hch (Hk & [t0 Ht0] & Hno).
  destruct Hch as [[E1 E2]|t Hnew Hfree E1 E2|id' t h' Ht Hfree E1 E2|id' t n Ht E1 E2]; unfold unlisted; rewrite E1, E2.
  - by split_and!; [|exists t0|].
  - split_and!.
    + rewrite register_keys_lookup. case_decide as Hd; [|done]. rewrite (Hfree h Hd) in Hk. done.
    + rewrite lookup_insert_ne; [by exists t0|congruence].
    + intros i u. destruct (decide (i = TenantID t)) as [->|]; [|rewrite lookup_insert_ne by done; apply Hno].
      rewrite lookup_insert_eq. intros [= <-]. cbn. apply not_elem_of_nil.
  - assert (h ≠ h') as Hne by congruence. split_and!.
    + by rewrite lookup_insert_ne.
    + destruct (decide (id = id')) as [->|]; [rewrite lookup_insert_eq; eauto|rewrite lookup_insert_ne by done; eauto].
    + intros i u. destruct (decide (i = id')) as [->|]; [|rewrite lookup_insert_ne by done; apply Hno].
      rewrite lookup_insert_eq. intros [= <-]. cbn. rewrite elem_of_app, list_elem_of_singleton.
      intros [Hin|Heq]; [by apply (Hno _ _ Ht)|done].
  - pose proof (Hno _ _ Ht) as Hn. rewrite <- (take_drop n (KeyHashes t)), elem_of_app in Hn. split_and!.
    + rewrite delete_keys_lookup. case_decide; [|done]. destruct Hn. by left.
    + destruct (decide (id = id')) as [->|]; [rewrite lookup_insert_eq; eauto|rewrite lookup_insert_ne by done; eauto].
    + intros i u. destruct (decide (i = id')) as [->|]; [|rewrite lookup_insert_ne by done; apply Hno].
      rewrite lookup_insert_eq. intros [= <-]. cbn. intros Hin. apply Hn. by right.
Qed.

Lemma api_steps {P : Store → Prop} s s' :
  (∀ a b, registry_change a b → P a → P b) → rtc api_step s s' → P s → P s'.
Proof. intros H. induction 1; eauto using api_change. Qed.

Lemma keys_inv_listed s : keys_inv s → listed_ok s.
Proof.
  intros [H1 H2 H3 _] id t Ht. destruct (H3 _ _ Ht) as (_ & _ & Hnd). split; [done|]. intros h Hh. by apply (H1 _ _ _ Ht).
Qed.

Lemma unlisted_resolves s key id :
  unlisted s (HashKey key) id → key ≠ ""%string → ∃ t, Resolve s key = Some t ∧ tenants s !! id = Some t.
Proof.
  intros (Hk & [t Ht] & _) Hne. exists t. split; [|done]. unfold Resolve.
  destruct (Nat.eqb_spec (size (tenants s)) 0) as [E|_].
  { apply map_size_empty_inv in E. rewrite E, lookup_empty in Ht. done. }
  rewrite bool_decide_eq_false_2 by done. rewrite Hk. exact Ht.
Qed.

(** ** Properties *)

(** The keys a tenant is created with through [POST /admin/tenants] cannot be
    rotated out: from any store of well-formed registrations, whatever requests
    to the administration handlers and checks come before and after, each of them
    keeps opening the tenant, though no tenant lists it. *)
Theorem creation_keys_irrevocable s0 s c req s1 r s2 key :
  rtc tenant_step NewStore s0 → rtc api_step s0 s →
  tenantCreate (Some s) c (Some req) = (Some s1, r) → fst r = 201 →
  rtc api_step s1 s2 → key ∈ req_keys req → key ≠ ""%string →
  ∃ t, Resolve s2 key = Some t ∧ tenants s2 !! req_id req = Some t ∧ HashKey key ∉ KeyHashes t.
Proof.
  intros H0 H1 Hc Hr H2 Hk Hne. assert (listed_ok s) as Hl.
  { eapply (api_steps s0 s change_listed H1), keys_inv_listed, reachable_inv, H0. }
  assert (unlisted s1 (HashKey key) (req_id req)) as Hu.
  { destruct (created _ _ _ _ _ Hc Hr) as (_ & Hfree & E1 & E2). unfold unlisted. rewrite E1, E2. split_and!.
    - rewrite register_keys_lookup, decide_True; [done|]. by apply list_elem_of_fmap_2.
    - rewrite lookup_insert_eq. eauto.
    - intros i t. destruct (decide (i = req_id req)) as [->|].
      { rewrite lookup_insert_eq. intros [= <-]. cbn. apply not_elem_of_nil. }
      rewrite lookup_insert_ne by done. intros Ht Hin. apply (Hl _ _ Ht) in Hin. rewrite Hfree in Hin; done. }
  apply (api_steps s1 s2 (λ a b, change_unlisted a b (HashKey key) (req_id req)) H2) in Hu.
  destruct (unlisted_resolves _ _ _ Hu Hne) as (t & Hres & Ht). exists t. split_and!; [done|done|]. by apply Hu in Ht.
Qed.

Definition ex_req : tenantCreateReq :=
  {| req_id := "acme"; req_display_name := ""; req_namespace := ""; req_keys := ["leaked"%string];
     req_rate_per_second := 0; req_rate_per_minute := 0; req_monthly_proof_quota := 0 |}.
Definition ex_call : Call := {| env_token := "root"; req_token := " root "; url_path := "/admin/tenants"; at_time := 5 |}.

Definition ex_store (o : option Store) : Store := default NewStore o.
Definition ex_created : Store := ex_store (fst (tenantCreate (Some NewStore) ex_call (Some ex_req))).
Definition ex_rotated : Store := ex_store (fst (tenantAddKey (Some ex_created) ex_call "acme" (Some "fresh"%string))).
Definition ex_revoked : Store := ex_store (fst (tenantRevokeKeys (Some ex_rotated) ex_call "acme" (Some 1))).

(** Create with a key that leaks, rotate a fresh one in, revoke all but the last:
    the leaked key still opens the tenant. *)
Lemma creation_keys_irrevocable_witness :
  (KeyHashes <$> tenants ex_revoked !! "acme"%string) = Some [HashKey "fresh"] ∧
  ∃ t, Resolve ex_revoked "leaked" = Some t ∧ tenants ex_revoked !! "acme"%string = Some t ∧
    HashKey "leaked" ∉ KeyHashes t.
Proof.
  split; [vm_compute; reflexivity|].
  apply (creation_keys_irrevocable NewStore NewStore ex_call ex_req ex_created
    (snd (tenantCreate (Some NewStore) ex_call (Some ex_req))) ex_revoked "leaked");
    [apply rtc_refl|apply rtc_refl|vm_compute; reflexivity|vm_compute; reflexivity| |left|discriminate].
  apply rtc_l with ex_rotated;
    [apply (api_admin ex_created ex_call (RAddKey "acme" (Some "fresh"%string)) ex_rotated); vm_compute; reflexivity|].
  apply rtc_once, (api_admin ex_rotated ex_call (RRevoke "acme" (Some 1)) ex_revoked). vm_compute. reflexivity.
Defined.

(** Without the token nothing changes but the audit trail. *)
Lemma admin_needs_token st c r s' rep :
  admin (Some st) c r = (Some s', rep) →
  trim_space (env_token c) = ""%string ∨ trim_space (req_token c) ≠ trim_space (env_token c) →
  same_registry st s' ∧ fst rep = 403.
Proof.
  intros H Hbad. assert (∃ k, admin (Some st) c r = guarded (Some st) c k) as [k Hk] by (destruct r; eexists; reflexivity).
  rewrite Hk in H. apply guarded_cases in H as [H|(E1 & E2 & _)]; [done|]. destruct Hbad; congruence.
Qed.
