(* ===== verification/Groth16Sim.v ===== *)
(** * The Groth16 simulator ([engine/internal/zkverifier/groth16.go])

    The hash-based stand-in for a Groth16 verifier, its batch form, and the
    challenges of optimistic verification. [None] as an argument is a nil pointer
    or a nil slice, [None] as a result a panic. Public inputs are non-nil
    [*big.Int]. The clock and the random bytes are arguments; a failed read of
    randomness is [None]. *)

From S2P Require Import Prelude GoLib Sha256 BigInt.

Local Open Scope Z_scope.

(** ** Data *)

Inductive SimError :=
| ErrInvalidProofFormat | ErrVerificationFailed | ErrChallengeExpired | ErrInvalidChallenge
| ErrMismatch | ErrProofFailed (i : nat) (e : SimError) | ErrEmptyHash | ErrRandID | ErrRandValue | ErrResolved.

Record Groth16Proof := { PA : bytes; PB : bytes; PC : bytes }.

Record Groth16VerificationKey := { Alpha1 : bytes; Beta2 : bytes; Gamma2 : bytes; Delta2 : bytes; IC : list bytes }.

Record Challenge := {
  CID : string; ProofHash : string; InputsHash : string; ChallengeValue : bytes; IssuedAt : time; ExpiresAt : time;
  Resolved : bool;
}.

(** ** Verification *)

(** What the hasher is fed, in order. *)
Definition transcript (vk : Groth16VerificationKey) (p : Groth16Proof) (publicInputs : list Z) : bytes :=
  Alpha1 vk ++ Beta2 vk ++ Gamma2 vk ++ Delta2 vk ++ concat (IC vk) ++ PA p ++ PB p ++ PC p
    ++ concat (big_bytes <$> publicInputs).

Definition ends_in_one (h : bytes) : bool :=
  (0 <? length h)%nat && bool_decide (last h = Some Byte.x01).

Definition VerifyGroth16 (vk : option Groth16VerificationKey) (proof : option Groth16Proof)
    (publicInputs : option (list Z)) : result SimError bool :=
  match vk, proof, publicInputs with
  | Some vk, Some p, Some xs =>
      if ends_in_one (sha256 (transcript vk p xs)) then Ok true else Err ErrVerificationFailed
  | _, _, _ => Err ErrInvalidProofFormat
  end.

(** The loop of [BatchVerify] from proof [i] on, with what the batch hasher has
    been fed; a proof without public inputs is indexed out of range. *)
Fixpoint batch_loop (vk : option Groth16VerificationKey) (i : nat) (fed : bytes)
    (proofs : list (option Groth16Proof * option (list Z))) : option (result SimError bytes) :=
  match proofs with
  | [] => Some (Ok fed)
  | (proof, xs) :: rest =>
      match VerifyGroth16 vk proof xs with
      | Err e => Some (Err (ErrProofFailed i e))
      | Ok false => Some (Err ErrVerificationFailed)
      | Ok true =>
          p ← proof; l ← xs; x ← head l;
          batch_loop vk (S i) (fed ++ PA p ++ big_bytes x) rest
      end
  end.

Definition BatchVerify (vk : option Groth16VerificationKey) (proofs : list (option Groth16Proof))
    (publicInputsBatch : list (option (list Z))) : option (result SimError bool) :=
  if (length proofs =? 0)%nat || negb (length proofs =? length publicInputsBatch)%nat then Some (Err ErrMismatch)
  else
    r ← batch_loop vk 0 [] (zip proofs publicInputsBatch);
    Some (let! fed := r in
          if (0 <? length (sha256 fed))%nat then Ok true else Err ErrVerificationFailed).

(** ** Challenges *)

Definition CreateChallenge (rand_id rand_value : option bytes) (now : time) (proofHash publicInputsHash : bytes)
    : result SimError Challenge :=
  if (length proofHash =? 0)%nat || (length publicInputsHash =? 0)%nat then Err ErrEmptyHash
  else match rand_id with
       | None => Err ErrRandID
       | Some idb =>
           match rand_value with
           | None => Err ErrRandValue
           | Some v =>
               Ok {| CID := hex_encode idb; ProofHash := hex_encode proofHash; InputsHash := hex_encode publicInputsHash;
                     ChallengeValue := v; IssuedAt := now; ExpiresAt := now + 5 * minute; Resolved := false |}
           end
       end.

Definition resolve (c : Challenge) : Challenge :=
  {| CID := CID c; ProofHash := ProofHash c; InputsHash := InputsHash c; ChallengeValue := ChallengeValue c;
     IssuedAt := IssuedAt c; ExpiresAt := ExpiresAt c; Resolved := true |}.

(** [hex.DecodeString] with its error dropped: the bytes before the fault. *)
Fixpoint hex_prefix (s : string) : bytes :=
  match s with
  | String c (String d s') =>
      match from_hex_char c, from_hex_char d with
      | Some a, Some b => byte_of_Z (16 * a + b) :: hex_prefix s'
      | _, _ => []
      end
  | _ => []
  end.

Definition expected_response (c : Challenge) : bytes :=
  sha256 (ChallengeValue c ++ hex_prefix (ProofHash c) ++ hex_prefix (InputsHash c)).

(** The challenge after the call, and the answer. *)
Definition ResolveChallenge (c : Challenge) (now : time) (response : bytes) : Challenge * result SimError bool :=
  if Resolved c then (c, Err ErrResolved)
  else if ExpiresAt c <? now then (resolve c, Err ErrChallengeExpired)
  else if bool_decide (response = expected_response c) then (resolve c, Ok true) else (c, Ok false).

Definition ResolveNil (c : option Challenge) (now : time) (response : bytes) : option Challenge * result SimError bool :=
  match c with
  | None => (None, Err ErrInvalidChallenge)
  | Some c => let '(c', r) := ResolveChallenge c now response in (Some c', r)
  end.

(** The answers to a sequence of attempts. *)
Fixpoint attempts (c : Challenge) (l : list (time * bytes)) : list (result SimError bool) :=
  match l with
  | [] => []
  | (now, response) :: l => let '(c', r) := ResolveChallenge c now response in r :: attempts c' l
  end.

Definition accepted (r : result SimError bool) : bool := match r with Ok b => b | Err _ => false end.

(** ** Lemmas *)

Lemma batch_loop_ok vk i fed ps h :
  batch_loop vk i fed ps = Some (Ok h) ↔
  (∀ j p xs, ps !! j = Some (p, xs) → VerifyGroth16 vk p xs = Ok true ∧ ∃ x l, xs = Some (x :: l)) ∧
  h = fed ++ concat ((λ px : option Groth16Proof * option (list Z),
        match px with (Some p, Some (x :: _)) => PA p ++ big_bytes x | _ => [] end) <$> ps).
Proof.
  revert i fed. induction ps as [|[p xs] ps IH]; intros i fed; cbn [batch_loop].
  { split; [|by intros [_ ->]; cbn; rewrite app_nil_r]. intros [= ->]. split; [done|]. cbn. by rewrite app_nil_r. }
  destruct (VerifyGroth16 vk p xs) as [[]|e] eqn:Ev.
  2,3: split; [done|]; intros [H _]; destruct (H 0%nat p xs eq_refl) as [E _]; congruence.
  destruct p as [p|]; [|by destruct vk]. destruct xs as [[|x l]|]; [| |by destruct vk].
  - cbn. split; [done|]. intros [H _]. by destruct (H 0%nat _ _ eq_refl) as (_ & y & k & ?).
  - cbn [mbind option_bind head]. rewrite IH. cbn [fmap list_fmap concat]. rewrite <- !app_assoc. split; intros [H E].
    + split; [|done]. intros [|j] q ys Hj; cbn in Hj; [|by eapply H]. simplify_eq. eauto.
    + split; [|done]. intros j q ys Hj. by apply (H (S j)).
Qed.

Lemma attempts_resolved c l : Resolved c = true → count accepted (attempts c l) = 0.
Proof.
  intros Hr. induction l as [|[now rsp] l IH]; [done|]. cbn [attempts]. unfold ResolveChallenge. rewrite Hr.
  rewrite count_cons. cbn [accepted]. by rewrite IH.
Qed.

Lemma hex_prefix_encode b : hex_prefix (hex_encode b) = b.
Proof.
  induction b as [|x b IH]; [done|].
  change (hex_encode (x :: b)) with
    (String (hex_digit (byte_to_Z x / 16)) (String (hex_digit (byte_to_Z x mod 16)) (hex_encode b))).
  pose proof (byte_to_Z_range x) as Hx. cbn [hex_prefix].
  rewrite (from_hex_digit (byte_to_Z x / 16)) by lia_div. rewrite (from_hex_digit (byte_to_Z x mod 16)) by lia_div.
  rewrite IH, <- Z_div_mod_eq_full. f_equal. apply byte_of_to_Z.
Qed.

Lemma attempts_lookup c l i :
  attempts c l !! i = Some (Ok true) →
  ∃ now response, l !! i = Some (now, response) ∧ now <= ExpiresAt c ∧ response = expected_response c.
Proof.
  revert c i. induction l as [|[now rsp] l IH]; intros c i; cbn [attempts]; [done|].
  assert (∀ c', ExpiresAt c' = ExpiresAt c → expected_response c' = expected_response c → ∀ j,
    attempts c' l !! j = Some (Ok true) → ∃ n r, ((now, rsp) :: l) !! S j = Some (n, r) ∧ n <= ExpiresAt c ∧
      r = expected_response c) as Hrest.
  { intros c' E1 E2 j Hj. apply IH in Hj. by rewrite E1, E2 in Hj. }
  unfold ResolveChallenge. destruct (Resolved c); [destruct i; [done|by apply Hrest]|].
  destruct (Z.ltb_spec (ExpiresAt c) now); [destruct i; [done|by apply Hrest]|].
  destruct (bool_decide (rsp = expected_response c)) eqn:E; bool_to_prop; destruct i as [|i]; try done; [|by apply Hrest|by apply Hrest].
  intros _. exists now, rsp. split_and!; [done|lia|exact E].
Qed.

(** Wrong answers in time leave the challenge as it is. *)
Lemma attempts_wrong c l now response :
  Resolved c = false → Forall (λ a : time * bytes, a.1 <= ExpiresAt c ∧ a.2 ≠ expected_response c) l →
  now <= ExpiresAt c → response = expected_response c →
  last (attempts c (l ++ [(now, response)])) = Some (Ok true).
Proof.
  intros Hr Hl Hn ->. assert (attempts c (l ++ [(now, expected_response c)]) = ((λ _, Ok false) <$> l) ++ [Ok true]) as ->.
  { induction Hl as [|[t r] l [Ht Hne] Hl IH]; cbn [app attempts]; unfold ResolveChallenge; rewrite Hr.
    - destruct (Z.ltb_spec (ExpiresAt c) now); [lia|]. by rewrite bool_decide_true.
    - cbn in Ht, Hne. destruct (Z.ltb_spec (ExpiresAt c) t); [lia|]. rewrite bool_decide_false by done. cbn. by rewrite IH. }
  by rewrite last_snoc.
Qed.

(** ** Properties *)

(** What [BatchVerify] adds to single verification: nothing. It accepts exactly a
    non-empty batch whose every proof verifies by itself and has a public input,
    since the aggregate hash it computes is never empty; and a batch whose only
    proof verifies on no public input panics. *)
Theorem BatchVerify_is_each vk proofs batch :
  (BatchVerify vk proofs batch = Some (Ok true) ↔
   proofs ≠ [] ∧ length proofs = length batch ∧
   ∀ j p xs, zip proofs batch !! j = Some (p, xs) → VerifyGroth16 vk p xs = Ok true ∧ ∃ x l, xs = Some (x :: l)) ∧
  BatchVerify vk proofs batch ≠ Some (Ok false) ∧
  (∀ p, VerifyGroth16 vk p (Some []) = Ok true → BatchVerify vk [p] [Some []] = None).
Proof.
  assert (∀ fed : bytes, (0 <? length (sha256 fed))%nat = true) as Hlen by (intros; by rewrite length_sha256).
  split; [|split].
  - unfold BatchVerify. destruct (Nat.eqb_spec (length proofs) 0) as [E|E]; cbn [orb].
    { split; [done|]. intros [H _]. by apply length_zero_iff_nil in E. }
    destruct (Nat.eqb_spec (length proofs) (length batch)) as [E'|E']; cbn [negb]; [|split; [done|naive_solver]].
    destruct (batch_loop vk 0 [] (zip proofs batch)) as [[h|e]|] eqn:Eb; cbn [mbind option_bind result_bind].
    + rewrite Hlen. split; [|done]. intros _. apply batch_loop_ok in Eb as [H _].
      split_and!; [by intros ->|done|done].
    + split; [done|]. intros (_ & _ & H). exfalso.
      pose proof (proj2 (batch_loop_ok vk 0 [] (zip proofs batch) _) (conj H eq_refl)). congruence.
    + split; [done|]. intros (_ & _ & H). exfalso.
      pose proof (proj2 (batch_loop_ok vk 0 [] (zip proofs batch) _) (conj H eq_refl)). congruence.
  - unfold BatchVerify. case_match; [done|].
    destruct (batch_loop _ _ _ _) as [[h|e]|]; cbn [mbind option_bind result_bind]; [|done..]. by rewrite Hlen.
  - intros p Hp. unfold BatchVerify. cbn [length Nat.eqb negb orb zip zip_with batch_loop]. rewrite Hp.
    by destruct p.
Qed.

(** A challenge is answered once. Whatever attempts follow its creation, at most
    one is accepted, and that one gave, within five minutes, the hash of the
    challenge value and the two committed hashes; wrong answers in time do not
    spend the challenge. *)
Theorem challenge_answered_once idb v now ph ih c l :
  CreateChallenge (Some idb) (Some v) now ph ih = Ok c →
  count accepted (attempts c l) <= 1 ∧
  (∀ i, attempts c l !! i = Some (Ok true) →
     ∃ t response, l !! i = Some (t, response) ∧ t <= now + 5 * minute ∧ response = sha256 (v ++ ph ++ ih)) ∧
  (∀ t, Forall (λ a : time * bytes, a.1 <= now + 5 * minute ∧ a.2 ≠ sha256 (v ++ ph ++ ih)) l → t <= now + 5 * minute →
     last (attempts c (l ++ [(t, sha256 (v ++ ph ++ ih))])) = Some (Ok true)).
Proof.
  unfold CreateChallenge. case_match; [done|]. intros Hc.
  assert (Resolved c = false ∧ ExpiresAt c = now + 5 * minute ∧ expected_response c = sha256 (v ++ ph ++ ih)) as (Hr & He & Hx).
  { apply ok_inj in Hc as <-. unfold expected_response. cbn [Resolved ExpiresAt ChallengeValue ProofHash InputsHash].
    by rewrite !hex_prefix_encode. }
  clear Hc. rewrite <- He, <- Hx. split_and!.
  - clear He Hx. induction l as [|[t r] l IH]; [done|]. cbn [attempts]. unfold ResolveChallenge. rewrite Hr.
    destruct (ExpiresAt c <? t); [|destruct (bool_decide _)]; rewrite count_cons; cbn [accepted];
      rewrite ?attempts_resolved by done; lia.
  - intros i Hi. by apply attempts_lookup.
  - intros t Hl Ht. by apply attempts_wrong.
Qed.

Definition ex_challenge : Challenge :=
  {| CID := hex_encode [Byte.x07]; ProofHash := hex_encode (bytes_of "p"); InputsHash := hex_encode (bytes_of "i");
     ChallengeValue := bytes_of "v"; IssuedAt := 0; ExpiresAt := 5 * minute; Resolved := false |}.

Lemma challenge_answered_once_witness :
  count accepted (attempts ex_challenge [(1, []); (2, sha256 (bytes_of "vpi")); (3, sha256 (bytes_of "vpi"))]) = 1 ∧
  count accepted (attempts ex_challenge [(1, []); (2, sha256 (bytes_of "vpi")); (3, sha256 (bytes_of "vpi"))]) <= 1.
Proof.
  split; [vm_compute; reflexivity|].
  apply (challenge_answered_once [Byte.x07] (bytes_of "v") 0 (bytes_of "p") (bytes_of "i") ex_challenge). reflexivity.
Defined.

(** The test fixture's comment promises that a last byte [0x01] of [Alpha1] makes
    verification pass; the verdict is the last byte of the hash. *)
Example alpha_byte_is_not_enough :
  let vk := {| Alpha1 := [Byte.x01]; Beta2 := []; Gamma2 := []; Delta2 := []; IC := [] |} in
  let p := {| PA := []; PB := []; PC := [] |} in
  VerifyGroth16 (Some vk) (Some p) (Some [123; 456]) = Err ErrVerificationFailed.
Proof. vm_compute. reflexivity. Qed.
