(* ===== verification/ZkApi.v ===== *)
(** * The zero-knowledge handlers ([engine/internal/api/server.go])

    The simulator's endpoints, the stand-alone MiMC proof, the circuit registry
    and the anchoring of verdicts, as functions of the server and the decoded
    request; [None] is a body that does not decode. How gnark writes and reads a
    proof is the class [ProofCodec]; the chain's answer, the randomness and the
    clock are arguments. A map decoded from JSON has each name once. *)

From S2P Require Import Prelude GoLib Json JsonFacts Sha256 BigInt FileStore Circuits ZkRegistry Groth16Sim Webhooks.

Local Open Scope Z_scope.

Class ProofCodec (Prf : Type) := { proof_bytes : Prf → bytes; read_proof : bytes → option Prf }.

Class ProofCodecLaws (Prf : Type) `{!ProofCodec Prf} := {
  proof_roundtrip p : read_proof (proof_bytes p) = Some p;
}.

(** ** Inputs as JSON *)

(** What the circuits see of a decoded value: numbers are [float64], which they
    do not take. *)
Fixpoint any_of_json (v : json) : any :=
  match v with
  | JStr s => AString s
  | JArr l => AList (any_of_json <$> l)
  | _ => AOther
  end.

Definition inputs_of (m : gmap string json) : inputs := any_of_json <$> m.

(** [json.Marshal] of a decoded map, whose keys it sorts; [None] is the nil map. *)
Definition public_json (m : option (gmap string json)) : string :=
  match m with
  | None => "null"
  | Some m => default ""%string (canonicalEncode (JObj (map_to_list m)))
  end.

(** ** State, requests, answers *)

Section server.
Context {CCS PK VK Prf : Type} `{!Gnark, !Groth16 CCS PK VK Prf, !ProofCodec Prf}.

Local Notation Reg := (Registry (CCS := CCS) (PK := PK) (VK := VK)).

Record ZkServer := {
  zkReg : option Reg;
  realZK : option (Setup (PK := PK) (VK := VK));
  zk_onchain : bool; zk_strict : bool; zk_webhooks : bool;
}.

Inductive ZkBody :=
| ZMessage (msg : string)
| ZFailed (e : ZkError)
| ZAnchorFailed (msg : string)
| ZSim (valid : bool) (vk_hash : string) (verified_at : Z)
| ZSimBatch (results : list (nat * bool)) (all_valid : bool)
| ZChallenge (id proof_id : string) (window_end : Z)
| ZOpen (id : string)
| ZRealProof (hash proof_hex : string) (created_at : Z)
| ZRealVerdict (valid : bool) (verified_at : Z)
| ZCircuits (ds : list Descriptor) (default_id : string)
| ZCircuit (d : Descriptor)
| ZVK (id curve backend vk_hex vk_sha256 : string)
| ZProof (id version curve backend proof_hex vk_sha256 : string) (created_at : Z)
| ZVerdict (valid : bool) (id vk_sha256 : string) (verified_at : Z)
| ZAnchor (valid : bool) (id proof_hash public_inputs_hash model_id : string) (anchored : bool)
    (anchor_tx_hash anchor_error : option string).

Definition reply : Type := Z * ZkBody.
Definition refuse (code : Z) (msg : string) : reply := (code, ZMessage msg).

(** ** The simulator's endpoints *)

(** The verification key is derived from the proof text, and the proof from the
    text of the key hash. *)
Definition sim_key (proofHex : string) : Groth16VerificationKey :=
  let b := sha256 (bytes_of proofHex) in
  {| Alpha1 := take 16 b; Beta2 := b; Gamma2 := b; Delta2 := b; IC := [take 16 b] |}.
Definition sim_proof (vkHashHex : string) : Groth16Proof :=
  let b := sha256 (bytes_of vkHashHex) in {| PA := take 16 b; PB := b; PC := take 16 b |}.
Definition sim_inputs (publicInputs : list string) : list Z :=
  match (λ pi, be_value (sha256 (bytes_of pi))) <$> publicInputs with [] => [0] | l => l end.

(** The error it returns is always nil. *)
Definition conceptualGroth16Verify (proofHex vkHashHex : string) (publicInputs : list string) : bool :=
  match VerifyGroth16 (Some (sim_key proofHex)) (Some (sim_proof vkHashHex)) (Some (sim_inputs publicInputs)) with
  | Ok valid => valid
  | Err _ => false
  end.

Definition zkVerifyGroth16 (now : time) (req : option (string * list string * string)) : reply :=
  match req with
  | None => refuse 400 "invalid request"
  | Some (proof, publicInputs, vkHash) => (200, ZSim (conceptualGroth16Verify proof vkHash publicInputs) vkHash (unix now))
  end.

Fixpoint sim_loop (i : nat) (proofs : list (string * list string)) (allValid : bool) : list (nat * bool) * bool :=
  match proofs with
  | [] => ([], allValid)
  | (proof, publicInputs) :: rest =>
      let valid := conceptualGroth16Verify proof "" publicInputs in
      let '(results, allValid) := sim_loop (S i) rest (if valid then allValid else false) in
      ((i, valid) :: results, allValid)
  end.

Definition zkBatchVerify (req : option (list (string * list string))) : reply :=
  match req with
  | None => refuse 400 "invalid request"
  | Some proofs => let '(results, allValid) := sim_loop 0 proofs true in (200, ZSimBatch results allValid)
  end.

Definition challenge_id (proofID reason : string) : string :=
  String.substring 0 16 ("chal-" +:+ hex_encode (sha256 (bytes_of (proofID +:+ reason)))).

Definition zkChallenge (now : time) (req : option (string * string)) : reply :=
  match req with
  | None => refuse 400 "invalid request"
  | Some (proofID, reason) =>
      (201, ZChallenge (challenge_id proofID reason) proofID (unix (now + 48 * hour)))
  end.

Definition zkGetChallenge (id : string) : reply := (200, ZOpen id).

(** ** The stand-alone preimage proof *)

Definition zkGroth16RealProve (s : ZkServer) (now : time) (rnd : bytes) (req : option string) : reply :=
  match realZK s with
  | None => refuse 503 "real Groth16 setup unavailable on this instance"
  | Some z =>
      match req with
      | None | Some ""%string => refuse 400 "invalid request: expected {preimage: <decimal integer>}"
      | Some p =>
          match set_string10 p with
          | None => refuse 400 "preimage must be a base-10 integer string"
          | Some preimage =>
              let hash := ComputeMiMCHash preimage in
              match SetupProve z preimage hash rnd with
              | Err e => (500, ZFailed e)
              | Ok proof => (200, ZRealProof (itoa hash) (hex_encode (proof_bytes proof)) (unix now))
              end
          end
      end
  end.

(** Reading a proof from hexadecimal text: the refusal, or the bytes and proof. *)
Definition decode_proof (proofHex : string) : reply + bytes * Prf :=
  match hex_decode proofHex with
  | None => inl (refuse 400 "proof_hex must be valid hex")
  | Some b =>
      match read_proof b with
      | None => inl (refuse 400 "failed to deserialize proof")
      | Some p => inr (b, p)
      end
  end.

Definition zkGroth16RealVerify (s : ZkServer) (now : time) (req : option (string * string)) : reply :=
  match realZK s with
  | None => refuse 503 "real Groth16 setup unavailable on this instance"
  | Some z =>
      match req with
      | None => refuse 400 "invalid request"
      | Some (hashText, proofHex) =>
          match set_string10 hashText with
          | None => refuse 400 "hash must be a base-10 integer string"
          | Some hash =>
              match decode_proof proofHex with
              | inl r => r
              | inr (_, proof) =>
                  match SetupVerify z proof hash with
                  | Err e => (500, ZFailed e)
                  | Ok valid => (200, ZRealVerdict valid (unix now))
                  end
              end
          end
      end
  end.

(** ** The circuit registry *)

Definition with_registry (s : ZkServer) (k : Reg → reply) : reply :=
  match zkReg s with None => refuse 503 "circuit registry unavailable" | Some r => k r end.

Definition circuitsList (s : ZkServer) : reply :=
  with_registry s (λ r, (200, ZCircuits (Descriptors r) (DefaultID r))).

Definition circuitsGet (s : ZkServer) (id : string) : reply :=
  with_registry s (λ r,
    match GetDescriptor r id with None => refuse 404 "unknown circuit id" | Some d => (200, ZCircuit d) end).

Definition empty_descriptor : Descriptor :=
  {| DID := ""; DVersion := ""; DDescription := ""; DCurve := ""; DBackend := ""; DPublicInputs := []; DConstraints := 0;
     DKeyDigest := "" |}.

Definition descriptor_or_zero (r : Reg) (id : string) : Descriptor := default empty_descriptor (GetDescriptor r id).

Definition circuitsGetVK (s : ZkServer) (id : string) : reply :=
  with_registry s (λ r,
    match VerifyingKey r id with
    | Err e => (404, ZFailed e)
    | Ok vk =>
        let d := descriptor_or_zero r id in
        (200, ZVK id (DCurve d) (DBackend d) (hex_encode (vk_bytes vk)) (DKeyDigest d))
    end).

Definition circuit_of (r : Reg) (id : string) : string :=
  if bool_decide (id = ""%string) then DefaultID r else id.

Record ProveReq := { p_circuit : string; p_inputs : option (gmap string json) }.

Definition zkProveGeneric (s : ZkServer) (now : time) (rnd : bytes) (req : option ProveReq) : reply :=
  with_registry s (λ r,
    match req with
    | None => refuse 400 "invalid request: expected {circuit_id, inputs}"
    | Some q =>
        let id := circuit_of r (p_circuit q) in
        match GetDescriptor r id with
        | None => refuse 404 "unknown circuit id"
        | Some _ =>
            match p_inputs q with
            | None => refuse 400 "inputs required"
            | Some m =>
                match Prove r id (inputs_of m) rnd with
                | Err e => (400, ZFailed e)
                | Ok proof =>
                    let d := descriptor_or_zero r id in
                    (200, ZProof id (DVersion d) (DCurve d) (DBackend d) (hex_encode (proof_bytes proof)) (DKeyDigest d) (unix now))
                end
            end
        end
    end).

Record VerifyReq := { v_circuit : string; v_public : option (gmap string json); v_proof_hex : string; v_model : string }.

(** What [zkVerifyGeneric] and [zkAnchorVerdict] share: the refusal, or the circuit,
    the proof's bytes and the verdict. *)
Definition verdict (r : Reg) (q : VerifyReq) : reply + string * bytes * bool :=
  let id := circuit_of r (v_circuit q) in
  match GetDescriptor r id with
  | None => inl (refuse 404 "unknown circuit id")
  | Some _ =>
      match decode_proof (v_proof_hex q) with
      | inl e => inl e
      | inr (b, proof) =>
          match Verify r id proof (inputs_of (default ∅ (v_public q))) with
          | Err e => inl (400, ZFailed e)
          | Ok valid => inr (id, b, valid)
          end
      end
  end.

Definition zkVerifyGeneric (s : ZkServer) (now : time) (req : option VerifyReq) : reply :=
  with_registry s (λ r,
    match req with
    | None => refuse 400 "invalid request"
    | Some q =>
        match verdict r q with
        | inl e => e
        | inr (id, _, valid) => (200, ZVerdict valid id (DKeyDigest (descriptor_or_zero r id)) (unix now))
        end
    end).

Definition anchored_payload (id model proofHash pubHash : string) (valid : bool) (tx : string) (now : time) : json :=
  JObj [("anchor_tx_hash", JStr tx); ("anchored_at", JInt (unix now)); ("circuit_id", JStr id);
        ("kind", JStr EventProofAnchored); ("model_id", JStr model); ("proof_hash", JStr proofHash);
        ("public_inputs_hash", JStr pubHash); ("valid", JBool valid)]%string.

(** [record] is the submitter's [RecordZkVerdict]: the transaction hash, or an
    error text. The second component are the webhook events. *)
Definition zkAnchorVerdict (s : ZkServer) (record : string → string → string → string → bool → result string string)
    (now : time) (req : option VerifyReq) : reply * list (string * json) :=
  match zkReg s with
  | None => (refuse 503 "circuit registry unavailable", [])
  | Some r =>
      match req with
      | None => (refuse 400 "invalid request", [])
      | Some q =>
          if bool_decide (v_model q = ""%string) then (refuse 400 "model_id required", [])
          else
            match verdict r q with
            | inl e => (e, [])
            | inr (id, b, valid) =>
                let pubHash := hex_encode (sha256 (bytes_of (public_json (v_public q)))) in
                let proofHash := hex_encode (sha256 b) in
                let resp anchored tx err := (200, ZAnchor valid id proofHash pubHash (v_model q) anchored tx err) in
                if negb (zk_onchain s) then
                  if zk_strict s then (refuse 503 "CP_STRICT=1 but no CASPER submitter configured; cannot anchor", [])
                  else (resp false None (Some "submitter not configured; running in off-chain mode"%string), [])
                else
                  match record id proofHash pubHash (v_model q) valid with
                  | Err e =>
                      if zk_strict s then ((502, ZAnchorFailed e), []) else (resp false None (Some e), [])
                  | Ok tx =>
                      (resp true (Some tx) None,
                       if zk_webhooks s
                       then [(EventProofAnchored, anchored_payload id (v_model q) proofHash pubHash valid tx now)] else [])
                  end
            end
      end
  end.

(** ** Lemmas *)

Lemma with_registry_some s r k : zkReg s = Some r → with_registry s k = k r.
Proof. unfold with_registry. by intros ->. Qed.

Lemma decode_proof_encode `{!ProofCodecLaws Prf} (p : Prf) :
  decode_proof (hex_encode (proof_bytes p)) = inr (proof_bytes p, p).
Proof. unfold decode_proof. by rewrite hex_decode_encode, proof_roundtrip. Qed.

Lemma decimal_input_value (m : gmap string json) name z :
  m !! name = Some (JStr (itoa z)) → requireBigInt (inputs_of m) name = Ok z.
Proof.
  intros Hm. unfold requireBigInt, inputs_of. rewrite lookup_fmap, Hm. cbn [fmap option_fmap option_map any_of_json coerceBigInt].
  by rewrite set_string10_itoa.
Qed.

Lemma optional_decimal (m : gmap string json) name z :
  m !! name = Some (JStr (itoa z)) → optionalBigInt (inputs_of m) name = Ok (Some z).
Proof.
  intros Hm. unfold optionalBigInt, inputs_of. rewrite lookup_fmap, Hm. cbn [fmap option_fmap option_map any_of_json coerceBigInt].
  by rewrite set_string10_itoa.
Qed.

Lemma compiled_descriptor (r : Reg) id c a : compiled_of r id = Ok (c, a) → GetDescriptor r id = Some (descriptor c).
Proof.
  unfold compiled_of, GetDescriptor. destruct (circuits r !! id) as [c'|]; [|done]. destruct (artifacts c'); [|done].
  intros E%ok_inj. by simplify_eq/=.
Qed.

Lemma sim_loop_all i proofs allValid :
  (sim_loop i proofs allValid).2 = allValid && forallb (λ p, conceptualGroth16Verify p.1 "" p.2) proofs.
Proof.
  revert i allValid. induction proofs as [|[p xs] rest IH]; intros i allValid; cbn [sim_loop forallb]; [by rewrite andb_true_r|].
  specialize (IH (S i) (if conceptualGroth16Verify p "" xs then allValid else false)).
  destruct (sim_loop _ _ _) as [results b]. cbn [snd fst] in *. rewrite IH.
  by destruct (conceptualGroth16Verify p "" xs), allValid.
Qed.

(** The registry serves [c] under [id], with keys of its own setup. *)
Definition served (r : Reg) (id : string) (c : Circuit) : Prop :=
  ∃ slot ccs pk vk rnd, compiled_of r id = Ok (slot, (ccs, pk, vk)) ∧ circuit slot = c ∧
    compile_circuit c = Some ccs ∧ setup ccs rnd = Some (pk, vk).

Lemma registered_served (r0 r1 r : Reg) c rnd :
  Register r0 c = Ok r1 → Compile r1 (DID (descriptor_of c)) rnd = Ok r → served r (DID (descriptor_of c)) c.
Proof.
  unfold Register. case_bool_decide; [done|]. destruct (circuits r0 !! _); [done|]. intros <-%ok_inj. unfold Compile. cbn [circuits].
  rewrite lookup_insert_eq. cbn [artifacts circuit]. unfold generate.
  destruct (compile_circuit c) as [ccs|] eqn:Hcc; [|done]. destruct (setup ccs rnd) as [[pk vk]|] eqn:Hs; [|done].
  cbn [result_bind]. intros <-%ok_inj. unfold served. rewrite compiled_of_put. by eexists _, ccs, pk, vk, rnd.
Qed.

Definition inference_claim (mc out : Z) : gmap string json :=
  {["model_commit"%string := JStr (itoa mc); "output_hash"%string := JStr (itoa out)]}.
Definition inference_inputs (inp mc out : Z) : gmap string json :=
  <["input"%string := JStr (itoa inp)]> (inference_claim mc out).

Lemma inference_prove `{!GnarkLaws} r id slot ccs pk vk rnd inp mc out :
  compiled_of r id = Ok (slot, (ccs, pk, vk)) → circuit slot = ModelInferenceCircuit →
  is_fr mc → is_fr inp → is_fr out →
  Prove (Prf := Prf) r id (inputs_of (inference_inputs inp mc out)) rnd =
    match gprove ccs pk [mc; out] [inp] rnd with Some p => Ok p | None => Err EProve end.
Proof.
  intros Hof Hc Hmc Hin Hout. unfold Prove. rewrite Hof. cbn [result_bind]. rewrite Hc. cbn [AssignFull].
  unfold inference_AssignFull.
  rewrite (decimal_input_value _ "input" inp), (decimal_input_value _ "model_commit" mc), (optional_decimal _ "output_hash" out)
    by done.
  cbn [result_bind public_wires private_wires ModelCommit OutputHash MIInput].
  unfold new_witness. cbn [mapM fmap option_fmap option_map mbind option_bind mret option_ret].
  rewrite !to_field_mod. destruct Hmc, Hin, Hout. by rewrite !Z.mod_small.
Qed.

Lemma inference_verify `{!GnarkLaws} r id slot ccs pk vk (p : Prf) mc out :
  compiled_of r id = Ok (slot, (ccs, pk, vk)) → circuit slot = ModelInferenceCircuit → is_fr mc → is_fr out →
  Verify r id p (inputs_of (inference_claim mc out)) = Ok (gverify p vk [mc; out]).
Proof.
  intros Hof Hc Hmc Hout. unfold Verify. rewrite Hof. cbn [result_bind]. rewrite Hc. cbn [AssignPublic].
  unfold inference_AssignPublic. rewrite (decimal_input_value _ "model_commit" mc), (decimal_input_value _ "output_hash" out) by done.
  cbn [result_bind public_wires ModelCommit OutputHash].
  unfold new_witness. cbn [mapM fmap option_fmap option_map mbind option_bind mret option_ret].
  rewrite !to_field_mod. destruct Hmc, Hout. by rewrite !Z.mod_small.
Qed.

(** ** Properties *)


(** [all_valid] of the simulated batch is the conjunction of its single verdicts
    under the empty key hash: an empty batch is valid. *)
Lemma batch_all_valid proofs :
  zkBatchVerify (Some proofs) =
    (200, ZSimBatch (sim_loop 0 proofs true).1 (forallb (λ p, conceptualGroth16Verify p.1 "" p.2) proofs)).
Proof.
  unfold zkBatchVerify. pose proof (sim_loop_all 0 proofs true) as E. destruct (sim_loop 0 proofs true) as [rs b].
  cbn [fst snd andb] in *. by rewrite E.
Qed.

(** An event is emitted exactly for a verdict that went on chain, and carries it. *)
Lemma anchor_event s record now req r ev :
  zkAnchorVerdict s record now req = (r, ev) →
  ev = [] ∨ ∃ valid id ph xh model tx, r = (200, ZAnchor valid id ph xh model true (Some tx) None) ∧
    record id ph xh model valid = Ok tx ∧ ev = [(EventProofAnchored, anchored_payload id model ph xh valid tx now)].
Proof.
  unfold zkAnchorVerdict. destruct (zkReg s) as [reg|]; [|intros [= <- <-]; by left].
  destruct req as [q|]; [|intros [= <- <-]; by left]. case_bool_decide; [intros [= <- <-]; by left|].
  destruct (verdict reg q) as [e|[[id b] valid]]; [intros [= <- <-]; by left|].
  destruct (zk_onchain s); cbn [negb]; [|destruct (zk_strict s); intros [= <- <-]; by left].
  destruct (record _ _ _ _ _) as [tx|e] eqn:Er; [|destruct (zk_strict s); intros [= <- <-]; by left].
  intros [= <- <-]. destruct (zk_webhooks s); [right|by left]. by eexists _, _, _, _, _, tx.
Qed.

End server.

(** A proof text found by search passes for a statement nobody proved. *)
Example sim_forged : conceptualGroth16Verify "299" "vk" ["42"%string] = true.
Proof. vm_compute. reflexivity. Qed.

(** Challenge identifiers hash the concatenation of proof and reason. *)
Example challenge_ids_collide : challenge_id "p1" "2 late" = challenge_id "p12" " late".
Proof. vm_compute. reflexivity. Qed.

(** ** A concrete backend *)

Section example.
#[local] Existing Instance toy_gnark.
#[local] Existing Instance toy_gnark_laws.
#[local] Existing Instance toy_groth16.
#[local] Existing Instance toy_groth16_laws.

#[local] Instance toy_codec : ProofCodec (list Z) := {|
  proof_bytes p := bits_of (encode p); read_proof b := decode (of_bits b) |}.

#[local] Instance toy_codec_laws : ProofCodecLaws (list Z).
Proof. split. intros p. cbn. by rewrite of_bits_of, decode_encode. Qed.

Definition ex_registry : Registry (CCS := Circuit) (PK := bytes) (VK := bytes) :=
  the_ok NewRegistry (Register NewRegistry ModelInferenceCircuit).
Definition ex_ready := the_ok NewRegistry (Compile ex_registry ModelInferenceID [Byte.x07]).
Definition ex_zk : ZkServer (CCS := Circuit) (PK := bytes) (VK := bytes) :=
  {| zkReg := Some ex_ready; realZK := None; zk_onchain := true; zk_strict := true; zk_webhooks := true |}.

End example.
