(* ===== verification/KeyApi.v ===== *)
(** * The signature handlers
      ([engine/internal/api/keyring_handlers.go], [server.go])

    The key-ring endpoints over the keystore interface, and the one-shot
    Lamport and hybrid endpoints, which draw a key pair per request. Handlers are
    functions of the keystore, the decoded request ([None] where the body does
    not decode), the clock and the drawn randomness. *)

From stdpp Require Import relations.
From S2P Require Import Prelude GoLib Sha256 Pq Keyring Keystore.

Local Open Scope Z_scope.

(** ** The whole keystore interface *)

Record Info := { InfoKind : string; Backing : string; KeyCount : Z; Persistent : bool; HardwareBacked : bool }.

Class FullKeystore (K : Type) := {
  fk_CreateKey : K → time → string → entropy → result KeyringError (K * KeyMeta);
  fk_RotateKey : K → time → string → entropy → result KeyringError (K * KeyMeta);
  fk_ActiveKeyID : K → string → option string;
  fk_GetMeta : K → string → result KeyringError KeyMeta;
  fk_List : K → list KeyMeta;
  fk_Sign : K → string → bytes → result KeyringError (bytes * string);
  fk_SignWithKey : K → string → bytes → result KeyringError bytes;
  fk_Verify : K → string → bytes → bytes → result KeyringError bool;
  fk_Migrate : K → string → bytes → bytes → string → result KeyringError (bytes * string);
  fk_Info : K → Info;
}.

Section memory.
Context {MPriv MPub : Type} `{!Primitives MPriv MPub}.

Definition mem_Info (k : MemoryKeystore (MPriv := MPriv) (MPub := MPub)) : Info :=
  {| InfoKind := "memory"; Backing := "process memory (lost on restart)"; KeyCount := Z.of_nat (length (mem_List k));
     Persistent := false; HardwareBacked := false |}.

#[export] Instance memory_full : FullKeystore (MemoryKeystore (MPriv := MPriv) (MPub := MPub)) := {|
  fk_CreateKey := mem_CreateKey; fk_RotateKey := mem_RotateKey; fk_ActiveKeyID := mem_ActiveKeyID;
  fk_GetMeta := mem_GetMeta; fk_List := mem_List; fk_Sign := mem_Sign; fk_SignWithKey := mem_SignWithKey;
  fk_Verify := mem_Verify; fk_Migrate := mem_MigrateSignature; fk_Info := mem_Info |}.
End memory.

(** ** Answers *)

Inductive KeyBody :=
| KError (msg : string)
| KFailed (e : KeyringError)
| KMeta (m : KeyMeta)
| KRotated (new_key : KeyMeta) (retired : option string)
| KList (ks : list KeyMeta) (count : Z)
| KSigned (signature key_id : string)
| KVerified (valid : bool) (key_id : string)
| KMigrated (new_signature new_key_id to_algo : string)
| KInfo (i : Info)
| KOneShot (signature public_key : string)
| KHybrid (signature classic_public_key pq_public_key : string)
| KValid (valid : bool)
| KHybridValid (valid classic_valid pq_valid : bool).

Definition reply : Type := Z * KeyBody.
Definition refuse (code : Z) (msg : string) : reply := (code, KError msg).

(** ** The key-ring endpoints *)

(** The two settings of the server: [CP_KEYRING_ENABLE] and the strict mode. *)
Record Gate := { keyRingEnabled : bool; gate_strict : bool }.

Definition requireKeyRing (g : Gate) (write : bool) : option reply :=
  if keyRingEnabled g then None
  else if write || gate_strict g
  then Some (refuse 503 "pq keyring is disabled — set CP_KEYRING_ENABLE=1 to opt in (see docs/roadmap/KEY_MANAGEMENT.md — private keys live in memory only)")
  else None.

Section keyring_handlers.
Context {K : Type} `{!FullKeystore K}.

Definition pqKeyCreate (g : Gate) (k : K) (now : time) (rnd : entropy) (req : option string) : K * reply :=
  match requireKeyRing g true with
  | Some r => (k, r)
  | None =>
      match req with
      | None => (k, refuse 400 "invalid request")
      | Some a =>
          match ParseAlgo a with
          | Err e => (k, (400, KFailed e))
          | Ok algo =>
              match fk_CreateKey k now algo rnd with
              | Err e => (k, (500, KFailed e))
              | Ok (k', m) => (k', (201, KMeta m))
              end
          end
      end
  end.

Definition pqKeyRotate (g : Gate) (k : K) (now : time) (rnd : entropy) (path_algo : string) : K * reply :=
  match requireKeyRing g true with
  | Some r => (k, r)
  | None =>
      match ParseAlgo path_algo with
      | Err e => (k, (400, KFailed e))
      | Ok algo =>
          match fk_RotateKey k now algo rnd with
          | Err e => (k, (500, KFailed e))
          | Ok (k', m) => (k', (200, KRotated m (fk_ActiveKeyID k algo)))
          end
      end
  end.

Definition pqKeyList (g : Gate) (k : K) (query_algo : string) : reply :=
  match requireKeyRing g false with
  | Some r => r
  | None =>
      let answer l := (200, KList l (Z.of_nat (length l))) in
      if bool_decide (query_algo = ""%string) then answer (fk_List k)
      else match ParseAlgo query_algo with
           | Err e => (400, KFailed e)
           | Ok algo => answer (List.filter (λ m, bool_decide (KAlgo m = algo)) (fk_List k))
           end
  end.

Definition pqKeyGet (g : Gate) (k : K) (id : string) : reply :=
  match requireKeyRing g false with
  | Some r => r
  | None => match fk_GetMeta k id with Err e => (404, KFailed e) | Ok m => (200, KMeta m) end
  end.

Record SignReq := { sg_algo : string; sg_key_id : string; sg_message : string }.

Definition pqKeySign (g : Gate) (k : K) (req : option SignReq) : reply :=
  match requireKeyRing g true with
  | Some r => r
  | None =>
      match req with
      | None => refuse 400 "invalid request"
      | Some q =>
          if bool_decide (sg_message q = ""%string) then refuse 400 "message is required"
          else if bool_decide (sg_algo q = ""%string) && bool_decide (sg_key_id q = ""%string)
          then refuse 400 "one of {algo, key_id} is required"
          else
            let signed :=
              if negb (bool_decide (sg_key_id q = ""%string))
              then let! sig := fk_SignWithKey k (sg_key_id q) (bytes_of (sg_message q)) in Ok (sig, sg_key_id q)
              else let! algo := ParseAlgo (sg_algo q) in fk_Sign k algo (bytes_of (sg_message q)) in
            match signed with
            | Err e => (400, KFailed e)
            | Ok (sig, id) => (200, KSigned (hex_encode sig) id)
            end
      end
  end.

Record VerifyReq := { vr_key_id : string; vr_message : string; vr_signature : string }.

(** [strings.Contains(verr.Error(), ...)]: no other error of [Verify] has the words
    in its text, as the algorithms of stored keys are the supported ones. *)
Definition says_unknown_key (e : KeyringError) : bool := match e with ErrUnknownKey _ => true | _ => false end.

Definition pqKeyVerify (g : Gate) (k : K) (req : option VerifyReq) : reply :=
  match requireKeyRing g false with
  | Some r => r
  | None =>
      match req with
      | None => refuse 400 "invalid request"
      | Some q =>
          if bool_decide (vr_key_id q = ""%string) || bool_decide (vr_message q = ""%string)
             || bool_decide (vr_signature q = ""%string)
          then refuse 400 "key_id, message and signature are required"
          else match hex_decode (trim_space (vr_signature q)) with
               | None => refuse 400 "signature must be hex-encoded"
               | Some sig =>
                   match fk_Verify k (vr_key_id q) (bytes_of (vr_message q)) sig with
                   | Err e => (if says_unknown_key e then 404 else 400, KFailed e)
                   | Ok valid => (200, KVerified valid (vr_key_id q))
                   end
               end
      end
  end.

Record MigrateReq := { mg_old_key_id : string; mg_message : string; mg_old_signature : string; mg_to_algo : string }.

(** The text of an unknown key's error quotes the identifier of the request. *)
Definition says_did_not_verify (e : KeyringError) : bool :=
  match e with
  | ErrDidNotVerify => true
  | ErrMigrateVerify (ErrUnknownKey id) => contains (quote id) "did not verify"
  | _ => false
  end.

Definition pqKeyMigrate (g : Gate) (k : K) (req : option MigrateReq) : reply :=
  match requireKeyRing g true with
  | Some r => r
  | None =>
      match req with
      | None => refuse 400 "invalid request"
      | Some q =>
          if bool_decide (mg_old_key_id q = ""%string) || bool_decide (mg_message q = ""%string)
             || bool_decide (mg_old_signature q = ""%string) || bool_decide (mg_to_algo q = ""%string)
          then refuse 400 "old_key_id, message, old_signature, to_algo are required"
          else match hex_decode (trim_space (mg_old_signature q)) with
               | None => refuse 400 "old_signature must be hex-encoded"
               | Some oldSig =>
                   match ParseAlgo (mg_to_algo q) with
                   | Err e => (400, KFailed e)
                   | Ok toAlgo =>
                       match fk_Migrate k (mg_old_key_id q) (bytes_of (mg_message q)) oldSig toAlgo with
                       | Err e => (if says_did_not_verify e then 422 else 400, KFailed e)
                       | Ok (newSig, newID) => (200, KMigrated (hex_encode newSig) newID toAlgo)
                       end
                   end
               end
      end
  end.

Definition pqKeystoreInfo (k : K) : reply := (200, KInfo (fk_Info k)).

(** A change of the keystore by a request; the drawn Lamport keys have their shape. *)
Inductive key_request : K → K → Prop :=
| key_create g k now rnd req : entropy_ok rnd → key_request k (fst (pqKeyCreate g k now rnd req))
| key_rotate g k now rnd algo : entropy_ok rnd → key_request k (fst (pqKeyRotate g k now rnd algo)).
End keyring_handlers.

(** ** The one-shot endpoints *)

Section one_shot.
Context {MPriv MPub : Type} `{!Primitives MPriv MPub}.

Definition pqSignSPHINCS (random : option LamportKey) (req : option string) : reply :=
  match req with
  | None => refuse 400 "invalid request"
  | Some message =>
      match GenerateLamportKeyPair random with
      | Err _ => refuse 500 "key generation failed"
      | Ok (priv, pub) =>
          match SignSPHINCS (Some priv) (bytes_of message) with
          | Err _ => refuse 500 "signing failed"
          | Ok sig => (200, KOneShot (hex_encode sig) (hex_encode (LamportBytes pub)))
          end
      end
  end.

(** The message, the signature and the public key. *)
Definition pqVerifySPHINCS (req : option (string * string * string)) : reply :=
  match req with
  | None => refuse 400 "invalid request"
  | Some (message, signature, public_key) =>
      match hex_decode signature, hex_decode public_key with
      | Some sigBytes, Some pubBytes =>
          match LamportKeyFromBytes pubBytes with
          | Err _ => refuse 400 "invalid public_key length"
          | Ok pub =>
              match VerifySPHINCS (Some pub) (bytes_of message) sigBytes with
              | Err _ => refuse 400 "invalid signature length"
              | Ok valid => (200, KValid valid)
              end
          end
      | _, _ => refuse 400 "signature and public_key must be hex-encoded"
      end
  end.

Definition pqHybridSign (rnd_classic rnd_pq : option bytes) (req : option string) : reply :=
  match req with
  | None => refuse 400 "invalid request"
  | Some message =>
      match GenerateEd25519KeyPair rnd_classic with
      | Err _ => refuse 500 "key generation failed"
      | Ok (classicPriv, classicPub) =>
          match GenerateMLDSAKeyPair rnd_pq with
          | Err _ => refuse 500 "key generation failed"
          | Ok (pqPriv, pqPub) =>
              match HybridSign classicPriv (Some pqPriv) (bytes_of message) with
              | Err _ => refuse 500 "signing failed"
              | Ok sig => (200, KHybrid (hex_encode sig) (hex_encode classicPub) (hex_encode (ml_pub_bytes pqPub)))
              end
          end
      end
  end.

(** The message, the signature, the classic and the post-quantum public key. *)
Definition pqHybridVerify (req : option (string * string * string * string)) : reply :=
  match req with
  | None => refuse 400 "invalid request"
  | Some (message, signature, classic, pq) =>
      match hex_decode signature, hex_decode classic, hex_decode pq with
      | Some sigBytes, Some classicPubBytes, Some pqPubBytes =>
          match ml_pub_of_bytes pqPubBytes with
          | None => refuse 400 "invalid pq_public_key"
          | Some pqPub =>
              match HybridVerify classicPubBytes (Some pqPub) (bytes_of message) sigBytes with
              | (_, Some _) => refuse 400 "invalid signature format"
              | ((valid, classicValid, pqValid), None) => (200, KHybridValid valid classicValid pqValid)
              end
          end
      | _, _, _ => refuse 400 "signature and public keys must be hex-encoded"
      end
  end.
End one_shot.

(** ** Hexadecimal text is not trimmed *)

Lemma trim_left_keeps cut s : string_forall (λ c, negb (cut c)) s = true → trim_left cut s = s.
Proof. destruct s as [|c s]; [done|]. cbn. intros [H _]%andb_prop. by destruct (cut c). Qed.

Lemma rev_app_forall f s acc : string_forall f (string_rev_app s acc) = string_forall f s && string_forall f acc.
Proof.
  revert acc. induction s as [|c s IH]; intros acc; cbn; [done|]. rewrite IH. cbn.
  destruct (f c), (string_forall f s); done.
Qed.

Lemma rev_app_rev s acc acc' : string_rev_app (string_rev_app s acc) acc' = string_rev_app acc (s +:+ acc').
Proof. revert acc. induction s as [|c s IH]; intros acc; [done|]. cbn. apply IH. Qed.

Lemma string_rev_rev s : string_rev (string_rev s) = s.
Proof.
  unfold string_rev. rewrite rev_app_rev. cbn [string_rev_app]. induction s as [|c s IH]; [done|].
  change (String c s +:+ "")%string with (String c (s +:+ "")). by rewrite IH.
Qed.

Lemma trim_keeps cut s : string_forall (λ c, negb (cut c)) s = true → trim cut s = s.
Proof.
  intros H. unfold trim. rewrite (trim_left_keeps cut s H). rewrite trim_left_keeps; [apply string_rev_rev|].
  unfold string_rev. rewrite rev_app_forall. by rewrite H.
Qed.

Lemma trim_hex b : trim_space (hex_encode b) = hex_encode b.
Proof.
  apply trim_keeps. induction b as [|x b IH]; [done|].
  change (hex_encode (x :: b)) with
    (String (hex_digit (byte_to_Z x / 16)) (String (hex_digit (byte_to_Z x mod 16)) (hex_encode b))).
  cbn [string_forall]. rewrite IH, andb_true_r. destruct (byte_parts x) as (_ & _ & H1 & H2 & _).
  assert (∀ n, 0 <= n < 16 → negb (is_space (hex_digit n)) = true) as Hd.
  { intros n Hn. assert (n = 0 ∨ n = 1 ∨ n = 2 ∨ n = 3 ∨ n = 4 ∨ n = 5 ∨ n = 6 ∨ n = 7 ∨ n = 8 ∨ n = 9
      ∨ n = 10 ∨ n = 11 ∨ n = 12 ∨ n = 13 ∨ n = 14 ∨ n = 15) by lia.
    by repeat (destruct_or!; subst). }
  by rewrite !Hd.
Qed.

(** ** Signatures over HTTP *)

Section properties.
Context {MPriv MPub : Type} `{!Primitives MPriv MPub, !PrimitivesLaws MPriv MPub}.
(** ML-DSA-65 signatures have 3309 bytes. *)
Context (ml_signature_nonempty : ml_signature_size ≠ O).

Implicit Types (k : MemoryKeystore (MPriv := MPriv) (MPub := MPub)).

Lemma request_ring_step k k' : key_request k k' → rtc ring_step (ring k) (ring k').
Proof.
  assert (∀ k now algo rnd (k2 : MemoryKeystore) m, entropy_ok rnd → mem_CreateKey k now algo rnd = Ok (k2, m) →
    rtc ring_step (ring k) (ring k2)) as Hcreate.
  { intros k0 now algo rnd k2 m Hok ([r m0] & Hr & Hk)%result_bind_ok. apply ok_inj in Hk. injection Hk as <- <-. cbn.
    by eapply rtc_once, step_create. }
  intros [g k0 now rnd req Hrnd|g k0 now rnd algo Hrnd]; unfold pqKeyCreate, pqKeyRotate.
  - destruct (requireKeyRing _ _); [done|]. destruct req as [a|]; [|done]. destruct (ParseAlgo a) as [algo|]; [|done].
    destruct (fk_CreateKey k0 now algo rnd) as [[k2 m]|] eqn:E; [|done]. exact (Hcreate _ _ _ _ _ _ Hrnd E).
  - destruct (requireKeyRing _ _); [done|]. destruct (ParseAlgo algo) as [a|]; [|done].
    destruct (fk_RotateKey k0 now a rnd) as [[k2 m]|] eqn:E; [|done]. exact (Hcreate _ _ _ _ _ _ Hrnd E).
Qed.

Lemma requests_ring_steps k k' : rtc key_request k k' → rtc ring_step (ring k) (ring k').
Proof. induction 1; [done|]. etransitivity; [by apply request_ring_step|done]. Qed.

Lemma empty_never_verifies (e : keyEntry (MPriv := MPriv) (MPub := MPub)) m : entry_verify e m [] ≠ Ok true.
Proof.
  unfold entry_verify. repeat case_bool_decide; [| | | |done].
  - unfold VerifyClassic. by destruct (_ =? ed_PublicKeySize)%nat.
  - unfold VerifyMLDSA. destruct (mldsaPub e); [|done]. destruct (Nat.eqb_spec (length (@nil Byte.byte)) ml_signature_size); [|done].
    by symmetry in e0.
  - unfold VerifySPHINCS. by destruct (lamportPub e).
  - done.
Qed.

(** A signature by any stored key, active or retired, verifies in every later ring. *)
Lemma sign_with_verifies_later (r r' : KeyRing (MPriv := MPriv) (MPub := MPub)) id m sig :
  ring_inv r → rtc ring_step r r' → SignWithKey r id m = Ok sig → sig ≠ [] ∧ Verify r' id m sig = Ok true.
Proof.
  intros Hr Hr' Hs. unfold SignWithKey in Hs. destruct (keys r !! id) as [e|] eqn:He; [|done].
  destruct (entry_correct e m (proj1 (ri_described r Hr _ _ He))) as (sig' & Hs' & Hv).
  assert (sig' = sig) as -> by congruence. split; [by intros ->; apply (empty_never_verifies e m)|].
  destruct (key_persists r r' Hr' Hr id e He) as (e' & He' & Hve). unfold Verify. by rewrite He', Hve.
Qed.

Lemma ring_sign_inv (r : KeyRing (MPriv := MPriv) (MPub := MPub)) algo m sig id :
  Sign r algo m = Ok (sig, id) → id ≠ ""%string ∧ SignWithKey r id m = Ok sig.
Proof.
  unfold Sign, ActiveKeyID. destruct (active r !! algo) as [j|]; [|done]. case_bool_decide; [done|].
  intros (s & Hs & E%ok_inj)%result_bind_ok. by simplify_eq.
Qed.


(** A migrated signature is only given for one that verified, and verifies. *)
Lemma migrated_over_http g k q s id algo :
  rtc ring_step NewKeyRing (ring k) → pqKeyMigrate g k (Some q) = (200, KMigrated s id algo) →
  ∃ old sig, hex_decode (trim_space (mg_old_signature q)) = Some old ∧
    Verify (ring k) (mg_old_key_id q) (bytes_of (mg_message q)) old = Ok true ∧
    s = hex_encode sig ∧ Verify (ring k) id (bytes_of (mg_message q)) sig = Ok true.
Proof.
  intros Hk. unfold pqKeyMigrate, requireKeyRing. destruct (keyRingEnabled g); [|done]. case_match; [done|].
  destruct (hex_decode _) as [old|]; [|done]. destruct (ParseAlgo _) as [a|]; [|done].
  destruct (fk_Migrate k _ _ _ _) as [[sig j]|] eqn:E; [|done]. intros [= <- <- <-]. exists old, sig.
  apply migrate_sound in E as [H1 H2]; [|done]. by split_and!.
Qed.

(** The one-shot endpoints answer with what their verifiers accept. *)
Lemma one_shot_roundtrip random message :
  lamport_key random →
  ∃ sig pub, pqSignSPHINCS (Some random) (Some message) = (200, KOneShot sig pub) ∧
    pqVerifySPHINCS (Some (message, sig, pub)) = (200, KValid true).
Proof.
  intros Hk. destruct (lamport_signature_verifies random (bytes_of message) Hk) as [Hpub Hv].
  exists (hex_encode (concat (revealed random (sha256 (bytes_of message))))), (hex_encode (LamportBytes (lamport_public random))).
  split; [unfold pqSignSPHINCS; cbn [GenerateLamportKeyPair]; by rewrite sign_revealed|].
  unfold pqVerifySPHINCS. rewrite !hex_decode_encode.
  rewrite (key_from_bytes_to_bytes _ Hpub). by rewrite Hv.
Qed.

Lemma hybrid_shot_roundtrip seed seed' message :
  ∃ sig c p, pqHybridSign (Some seed) (Some seed') (Some message) = (200, KHybrid sig c p) ∧
    pqHybridVerify (Some (message, sig, c, p)) = (200, KHybridValid true true true).
Proof.
  destruct (hybrid_correct seed seed' (bytes_of message)) as (sig & Hs & Hv).
  exists (hex_encode sig), (hex_encode (ed_generate seed).2), (hex_encode (ml_pub_bytes (ml_generate seed').2)).
  unfold pqHybridSign, pqHybridVerify. cbn [GenerateEd25519KeyPair GenerateMLDSAKeyPair].
  destruct (ed_generate seed) as [cpriv cpub], (ml_generate seed') as [ppriv ppub]. cbn [fst snd] in *.
  rewrite Hs. split; [done|]. rewrite !hex_decode_encode, ml_pub_roundtrip. by rewrite Hv.
Qed.
End properties.

(** The words in the text of an error decide the status: a key identifier of the
    request's choosing turns 400 into 422. *)
Example status_by_text :
  says_did_not_verify (ErrMigrateVerify (ErrUnknownKey "x did not verify")) = true ∧
  says_did_not_verify (ErrMigrateVerify (ErrUnknownKey "x")) = false.
Proof. split; vm_compute; reflexivity. Qed.

(** ** A concrete keystore *)

Section example.
#[local] Existing Instance toy_primitives.
#[local] Existing Instance toy_laws.

Definition ex_open : Gate := {| keyRingEnabled := true; gate_strict := false |}.
Definition ex_before : MemoryKeystore (MPriv := bytes) (MPub := bytes) := {| ring := ex_ring |}.
Definition ex_after : MemoryKeystore (MPriv := bytes) (MPub := bytes) :=
  fst (pqKeyRotate ex_open ex_before 1000 (ex_entropy Byte.x03) "Hybrid_Ed25519_MLDSA65").
Definition ex_ask : SignReq := {| sg_algo := AlgoHybrid; sg_key_id := ""; sg_message := "m" |}.

End example.
