(* ===== verification/WebhookApi.v ===== *)
(** * The webhook handlers ([engine/internal/api/webhooks_handlers.go])

    Every handler as a function of the webhook store, the scoped keys, the
    request's API key and the decoded body; the iteration order of the
    subscription map and the clock are arguments. [emitWebhookEvent] is the entry
    point of the other handlers' events. *)

From S2P Require Import Prelude GoLib Json Sha256 Webhooks Guard.

Local Open Scope Z_scope.

Inductive WebhookBody :=
| WError (msg : string)
| WFailed (e : WebhookError)
| WCreated (sub : webhookSubscription)
| WList (subs : list webhookSubscription) (count : Z)
| WDeleted
| WDead (letters : list deadLetter) (count : Z)
| WReplayed (delivery_id : string).

Definition reply : Type := Z * WebhookBody.

Record WebhookServer := { hooks : option webhookStore; hook_scopes : option scopeRegistry }.

Definition with_hooks (s : WebhookServer) (st : webhookStore) : WebhookServer :=
  {| hooks := Some st; hook_scopes := hook_scopes s |}.

(** The ownership key: half of a hash's half, of the key or of [anon]. *)
Definition callerHash (apiKey : string) : string :=
  let k := trim_space apiKey in
  let k := if bool_decide (k = ""%string) then "anon"%string else k in
  hex_encode (take 8 (sha256 (bytes_of ("cp-webhook-owner|" +:+ k)))).

(** What [enforceScope] reads of a request is its API key. *)
Definition keyed (apiKey : string) : Request :=
  {| Method := ""; Path := ""; RemoteAddr := ""; ClientIP := ""; Accept := ""; APIKey := apiKey; IdempotencyKey := "";
     Guard.Body := [] |}.

(** The two first steps of every handler; creation decodes the body in between. *)
Definition enabled (s : WebhookServer) (k : webhookStore → WebhookServer * reply) : WebhookServer * reply :=
  match hooks s with
  | None => (s, (503, WError "webhook subsystem disabled"))
  | Some st => k st
  end.

Definition scoped (s : WebhookServer) (apiKey required : string) (k : WebhookServer * reply) : WebhookServer * reply :=
  match enforceScope (hook_scopes s) (keyed apiKey) required with
  | Err msg => (s, (403, WError msg))
  | Ok _ => k
  end.

Record webhookRegisterRequest := { wr_url : string; wr_secret : string; wr_events : list string }.

Definition webhooksCreate (s : WebhookServer) (now : time) (apiKey : string) (req : option webhookRegisterRequest)
    : WebhookServer * reply :=
  enabled s (λ st,
    match req with
    | None => (s, (400, WError "decode"))
    | Some q =>
        scoped s apiKey "webhooks:write"
          match register st now (callerHash apiKey) (wr_url q) (wr_secret q) (wr_events q) with
          | Err e => (s, (400, WFailed e))
          | Ok (st', sub) => (with_hooks s st', (201, WCreated (hide_secret sub)))
          end
    end).

Definition webhooksList (s : WebhookServer) (order : list webhookSubscription) (apiKey : string) : WebhookServer * reply :=
  enabled s (λ st,
    scoped s apiKey "webhooks:read"
      (let l := list_subs order (callerHash apiKey) in (s, (200, WList l (Z.of_nat (length l)))))).

Definition webhooksDelete (s : WebhookServer) (apiKey id : string) : WebhookServer * reply :=
  enabled s (λ st,
    scoped s apiKey "webhooks:write"
      match unregister st id (callerHash apiKey) with
      | Err e => (s, (404, WFailed e))
      | Ok st' => (with_hooks s st', (204, WDeleted))
      end).

(** The letters of the caller's current subscriptions. *)
Definition owned_letters (st : webhookStore) (order : list webhookSubscription) (owner : string) : list deadLetter :=
  let ids := ID <$> list_subs order owner in
  List.filter (λ dl, bool_decide (SubID (Event dl) ∈ ids)) (deadLetters st).

Definition webhooksDeadLetters (s : WebhookServer) (order : list webhookSubscription) (apiKey : string)
    : WebhookServer * reply :=
  enabled s (λ st,
    scoped s apiKey "webhooks:read"
      (let l := owned_letters st order (callerHash apiKey) in (s, (200, WDead l (Z.of_nat (length l)))))).

(** The text of [ErrUnregistered] alone says [unregistered]. *)
Definition webhooksReplayDeadLetter (s : WebhookServer) (now : time) (apiKey delivery_id : string) : WebhookServer * reply :=
  enabled s (λ st,
    scoped s apiKey "webhooks:write"
      match replay st now delivery_id (callerHash apiKey) with
      | Err e => (s, (match e with ErrUnregistered => 409 | _ => 404 end, WFailed e))
      | Ok (st', id) => (with_hooks s st', (202, WReplayed id))
      end).

(** The envelope is a map: its members are sorted. An event whose payload does not
    marshal is dropped. *)
Definition emitWebhookEvent (s : WebhookServer) (now : time) (order : list webhookSubscription) (kind : string)
    (payload : json) : WebhookServer :=
  match hooks s with
  | None => s
  | Some st =>
      match marshal (JObj [("data", payload); ("event", JStr kind); ("timestamp", JStr (format_rfc3339_nano now))]%string) with
      | None => s
      | Some body => with_hooks s (fst (enqueue st now order kind (bytes_of body)))
      end
  end.

(** ** One request *)

Inductive hook_request :=
| HCreate (now : time) (req : option webhookRegisterRequest)
| HList (order : list webhookSubscription)
| HDelete (id : string)
| HDead (order : list webhookSubscription)
| HReplay (now : time) (delivery_id : string).

Definition serve (s : WebhookServer) (apiKey : string) (r : hook_request) : WebhookServer * reply :=
  match r with
  | HCreate now req => webhooksCreate s now apiKey req
  | HList order => webhooksList s order apiKey
  | HDelete id => webhooksDelete s apiKey id
  | HDead order => webhooksDeadLetters s order apiKey
  | HReplay now id => webhooksReplayDeadLetter s now apiKey id
  end.

(** The identifier that a creation draws. *)
Definition drawn_id (st : webhookStore) (r : hook_request) : option string :=
  match r with HCreate now _ => Some (newWebhookID ((counter st + 1) mod 2 ^ 64) now) | _ => None end.

(** ** Isolation of callers *)

(** Nothing of [owner]'s is lost or changed, and what is new is [by_]'s. *)
Definition untouched (st st' : webhookStore) (owner by_ : string) : Prop :=
  (∀ id sub, OwnerKey sub = owner → subs st !! id = Some sub → subs st' !! id = Some sub) ∧
  (∀ id sub, subs st' !! id = Some sub → subs st !! id = Some sub ∨ OwnerKey sub = by_) ∧
  (∀ dl, DOwnerKey dl = owner → dl ∈ dead st → dl ∈ dead st') ∧
  (∀ dl, dl ∈ dead st' → dl ∈ dead st) ∧
  (∀ ev, ev ∈ queue st → ev ∈ queue st').

Lemma untouched_refl st owner by_ : untouched st st owner by_.
Proof. unfold untouched. split_and!; auto. Qed.

Lemma scoped_cases s apiKey required k s' r :
  scoped s apiKey required k = (s', r) → (s' = s ∧ fst r = 403) ∨ k = (s', r).
Proof. unfold scoped. destruct (enforceScope _ _ _); [by right|]. intros [= <- <-]. by left. Qed.

Lemma register_untouched st now by_ url sec events st' sub owner :
  register st now by_ url sec events = Ok (st', sub) →
  (∀ sub0, subs st !! newWebhookID ((counter st + 1) mod 2 ^ 64) now = Some sub0 → OwnerKey sub0 ≠ owner) →
  untouched st st' owner by_.
Proof.
  unfold register. case_match; [done|]. case_match; [done|]. case_match; [done|]. intros E%ok_inj Hfresh.
  injection E as <- <-. unfold untouched. cbn [subs dead queue]. split_and!; try by auto.
  - intros id sub0 Ho Hs. destruct (decide (id = newWebhookID ((counter st + 1) mod 2 ^ 64) now)) as [->|].
    + by destruct (Hfresh _ Hs).
    + by rewrite lookup_insert_ne.
  - intros id sub0. rewrite lookup_insert_Some. intros [[_ <-]|[_ Hs]]; [by right|by left].
Qed.

Lemma unregister_untouched st id by_ st' owner :
  unregister st id by_ = Ok st' → owner ≠ by_ → untouched st st' owner by_.
Proof.
  unfold unregister. destruct (subs st !! id) as [sub|] eqn:Es; [|done]. case_bool_decide as Eo; cbn [negb]; [|done].
  intros <-%ok_inj Hne. unfold untouched. cbn [subs dead queue]. split_and!; try by auto.
  - intros id' sub' Ho Hs. rewrite lookup_delete_ne; [done|]. intros ->. congruence.
  - intros id' sub'. rewrite lookup_delete_Some. intros [_ Hs]. by left.
Qed.

Lemma elem_of_remove_other {A} (l : list A) i x y : l !! i = Some y → x ∈ l → x ≠ y → x ∈ remove_at i l.
Proof.
  revert i. induction l as [|z l IH]; intros [|i] Hi Hx Hne; cbn in *; try done.
  - injection Hi as ->. by apply elem_of_cons in Hx as [->|].
  - apply elem_of_cons in Hx as [->|Hx]; [left|right; by apply IH].
Qed.

Lemma replay_untouched st now id by_ st' rid owner :
  replay st now id by_ = Ok (st', rid) → owner ≠ by_ → untouched st st' owner by_.
Proof.
  unfold replay. destruct (find_index _ _) as [i|]; [|done]. destruct (dead st !! i) as [dl|] eqn:Ei; [|done].
  case_bool_decide as Eo; cbn [negb]; [|done]. destruct (subs st !! _); [|done]. intros E%ok_inj Hne. injection E as <- <-.
  unfold untouched. cbn [subs dead queue with_dead with_queue]. split_and!; try by auto.
  - intros dl' Ho Hin. eapply elem_of_remove_other; [done..|]. congruence.
  - intros dl'. apply elem_of_remove_at.
  - intros ev Hev. apply elem_of_app. by left.
Qed.

(** What a request comes to: a refusal, or one operation of the store. *)
Definition refusal (b : WebhookBody) : bool := match b with WError _ | WFailed _ => true | _ => false end.

Inductive served (st : webhookStore) (by_ : string) : hook_request → webhookStore → WebhookBody → Prop :=
| served_refused r b : refusal b = true → served st by_ r st b
| served_create now q st' sub :
    register st now by_ (wr_url q) (wr_secret q) (wr_events q) = Ok (st', sub) →
    served st by_ (HCreate now (Some q)) st' (WCreated (hide_secret sub))
| served_list order n : served st by_ (HList order) st (WList (list_subs order by_) n)
| served_delete id st' : unregister st id by_ = Ok st' → served st by_ (HDelete id) st' WDeleted
| served_dead order n : served st by_ (HDead order) st (WDead (owned_letters st order by_) n)
| served_replay now id st' rid :
    replay st now id by_ = Ok (st', rid) → served st by_ (HReplay now id) st' (WReplayed rid).

Lemma serve_served s st apiKey r s' rep :
  hooks s = Some st → serve s apiKey r = (s', rep) →
  ∃ st', hooks s' = Some st' ∧ served st (callerHash apiKey) r st' (snd rep).
Proof.
  intros Hst H. destruct r as [now [q|]|order|id|order|now id]; cbn [serve] in H;
    unfold webhooksCreate, webhooksList, webhooksDelete, webhooksDeadLetters, webhooksReplayDeadLetter, enabled in H;
    rewrite Hst in H; unfold scoped in H; try (destruct (enforceScope _ _ _); [|injection H as <- <-; exists st; by split; [|apply served_refused]]).
  - destruct (register _ _ _ _ _ _) as [[st' sub]|] eqn:E; injection H as <- <-; [|exists st; by split; [|apply served_refused]].
    exists st'. split; [done|by apply served_create].
  - injection H as <- <-. exists st. by split; [|apply served_refused].
  - injection H as <- <-. exists st. split; [done|apply served_list].
  - destruct (unregister _ _ _) as [st'|] eqn:E; injection H as <- <-; [|exists st; by split; [|apply served_refused]].
    exists st'. split; [done|by apply served_delete].
  - injection H as <- <-. exists st. split; [done|apply served_dead].
  - destruct (replay _ _ _ _) as [[st' rid]|] eqn:E; injection H as <- <-; [|exists st; by split; [|apply served_refused]].
    exists st'. split; [done|by eapply served_replay].
Qed.

Lemma served_untouched st by_ r st' b owner :
  served st by_ r st' b → owner ≠ by_ →
  (∀ id sub, drawn_id st r = Some id → subs st !! id = Some sub → OwnerKey sub ≠ owner) → untouched st st' owner by_.
Proof.
  intros [] Hne Hid; try apply untouched_refl.
  - eapply register_untouched; [done|]. intros sub0 Hs. by eapply Hid.
  - by eapply unregister_untouched.
  - by eapply replay_untouched.
Qed.

Lemma registered_owner st now by_ url sec events st' sub :
  register st now by_ url sec events = Ok (st', sub) → OwnerKey sub = by_.
Proof. unfold register. do 3 (case_match; [done|]). intros E%ok_inj. by injection E as <- <-. Qed.

(** ** Properties *)


Definition ex_hooks : WebhookServer := {| hooks := Some (newWebhookStore 0); hook_scopes := None |}.
Definition ex_create : hook_request :=
  HCreate 5 (Some {| wr_url := "https://a"; wr_secret := "s"; wr_events := [EventProofAnchored] |}).
Definition ex_mine : WebhookServer := fst (serve ex_hooks "alice" ex_create).
Definition ex_store : webhookStore := default (newWebhookStore 0) (hooks ex_mine).
Definition ex_id : string := newWebhookID 1 5.


(** A dead letter outlives its subscription, yet its owner is not shown it: the
    listing asks for the subscriptions that are left, the replay for the owner the
    letter recorded. *)
Definition ex_letter : deadLetter :=
  {| DeliveryID := "dl_1"; Event := new_event 5 EventProofAnchored [] {| ID := ex_id; URL := "https://a"; Events := []; SCreatedAt := 5;
       OwnerKey := callerHash "alice"; secret := ""; SAttempts := 0; Deliveries := 0; SFailures := 0; LastAttemptAt := 0;
       LastStatusCode := 0; SLastError := ""; ConsecutiveFailures := 0; CircuitOpenUntil := 0; CircuitTrippedTotal := 0 |};
     FailedAt := 6; DURL := "https://a"; DOwnerKey := callerHash "alice"; Webhooks.Replayed := 0 |}.

Example orphan_letter_hidden :
  let st := with_dead (newWebhookStore 0) [ex_letter] in
  let s := with_hooks ex_hooks st in
  snd (webhooksDeadLetters s [] "alice") = (200, WDead [] 0) ∧
  snd (webhooksReplayDeadLetter s 7 "alice" "dl_1") = (409, WFailed ErrUnregistered).
Proof. split; vm_compute; reflexivity. Qed.

(** The unauthenticated caller is the caller whose key is [anon]. *)
Example anonymous_owner : callerHash "" = callerHash " anon ".
Proof. vm_compute. reflexivity. Qed.
