(* ===== verification/AggApi.v ===== *)
(** * The folding and Merkle-aggregation handlers
      ([engine/internal/api/nova_handlers.go], [merkle_recursion_handlers.go])

    Stateless endpoints over HashFold, PedersenFold and Recursion: the decoding of
    hexadecimal steps and leaves, the choice of the scheme, the answers. A request
    is [None] where the body does not decode. The file's own [itoa] is modelled on
    64-bit integers. *)

From S2P Require Import Prelude GoLib Sha256 Recursion HashFold PedersenFold.

Local Open Scope Z_scope.

(** ** The handlers' own decimal text *)

(** The loop fills a buffer from its end, one digit per step. *)
Fixpoint itoa_loop (fuel : nat) (i : Z) (buf : string) : string :=
  match fuel with
  | O => buf
  | S fuel => if 0 <? i then itoa_loop fuel (i / 10) (String (Ascii.ascii_of_N (Z.to_N (48 + i mod 10))) buf) else buf
  end.

(** [buf] has twenty bytes; one is left for the sign. *)
Definition go_itoa (i : Z) : string :=
  if i =? 0 then "0"
  else
    let neg := i <? 0 in
    let i := if neg then wrap64 (- i) else i in
    let digits := itoa_loop 20 i "" in
    if neg then String (chr 45) digits else digits.

(** ** Folding *)

Record foldStepDTO := { d_instance : string; d_instance_utf8 : bool; d_witness_digest : string }.

Definition decodeFoldStep (d : foldStepDTO) : result string FoldStep :=
  if bool_decide (d_instance d = ""%string) then Err "instance is required"%string
  else if bool_decide (d_witness_digest d = ""%string) then Err "witness_digest is required (hex)"%string
  else
    match (if d_instance_utf8 d then Some (bytes_of (d_instance d)) else hex_decode (d_instance d)) with
    | None => Err "instance must be hex-encoded (or set instance_utf8=true)"%string
    | Some inst =>
        match hex_decode (d_witness_digest d) with
        | None => Err "witness_digest must be hex-encoded"%string
        | Some wit => Ok {| Instance := inst; WitnessDigest := wit |}
        end
    end.

Inductive AggBody :=
| AError (msg : string)
| AFold (e : FoldError)
| ARecursion (e : RecursionError)
| AFolded (agg : AggregateProof) (disclosure : string)
| AVerified (valid : bool) (scheme : string) (error : option FoldError)
| AMerkle (agg : MerkleRecursionProof)
| AInclusion (p : MerkleInclusionProof)
| AMember (valid : bool) (scheme : string) (error : option RecursionError).

Definition reply : Type := Z * AggBody.
Definition refuse (code : Z) (msg : string) : reply := (code, AError msg).

(** The decoding loop of both handlers: the refusal, or the steps. *)
Fixpoint decode_steps (i : nat) (ds : list foldStepDTO) : reply + list FoldStep :=
  match ds with
  | [] => inr []
  | d :: ds =>
      match decodeFoldStep d with
      | Err e => inl (refuse 400 ("step " +:+ go_itoa (Z.of_nat i) +:+ ": " +:+ e))
      | Ok s => match decode_steps (S i) ds with inl r => inl r | inr l => inr (s :: l) end
      end
  end.

Definition decoded (ds : list foldStepDTO) (k : list FoldStep → reply) : reply :=
  if (length ds =? 0)%nat then refuse 400 "steps must be non-empty"
  else match decode_steps 0 ds with inl r => r | inr steps => k steps end.

Section folding.
Context `{PedersenGroup}.

Definition hash_disclosure : string :=
  "hash-fold-v1 is a hash-chain stand-in, NOT a cryptographic folding scheme — see docs/roadmap/NOVA_HARNESS.md".
Definition pedersen_disclosure : string :=
  "pedersen-fold-v1 is a real BLS12-381 G1 Pedersen commitment sum — hiding + binding under DLP, homomorphic across splits, but NOT a Nova folding scheme (does not reduce R1CS instances). See docs/PEDERSEN_FOLD.md.".

Definition folded (r : result FoldError AggregateProof) (disclosure : string) : reply :=
  match r with Err e => (500, AFold e) | Ok agg => (200, AFolded agg disclosure) end.

Definition novaFold (req : option (string * list foldStepDTO)) : reply :=
  match req with
  | None => refuse 400 "invalid request"
  | Some (scheme, ds) =>
      decoded ds (λ steps,
        let scheme := if bool_decide (scheme = ""%string) then SchemeHashFoldV1 else scheme in
        if bool_decide (scheme = SchemeHashFoldV1) then folded (FoldAll steps) hash_disclosure
        else if bool_decide (scheme = SchemePedersenFoldV1) then folded (FoldAllPedersen steps) pedersen_disclosure
        else refuse 400 ("unsupported scheme: " +:+ scheme +:+ " (want hash-fold-v1 or pedersen-fold-v1)"))
  end.

(** The verdict that is encoded: a false one comes beside an error. *)
Definition verified (scheme : string) (r : result FoldError bool) : reply :=
  match r with
  | Ok valid => (200, AVerified valid scheme None)
  | Err e => (200, AVerified false scheme (Some e))
  end.

Definition with_scheme (agg : AggregateProof) (s : string) : AggregateProof :=
  {| HashFold.Scheme := s; Steps := Steps agg; Root := Root agg; StepHashes := StepHashes agg |}.

Definition novaVerifyFold (req : option (list foldStepDTO * AggregateProof)) : reply :=
  match req with
  | None => refuse 400 "invalid request"
  | Some (ds, agg) =>
      decoded ds (λ steps,
        let scheme := HashFold.Scheme agg in
        if bool_decide (scheme = SchemePedersenFoldV1) then verified scheme (VerifyAllPedersen steps agg)
        else if bool_decide (scheme = SchemeHashFoldV1) || bool_decide (scheme = ""%string)
        then
          let agg := if bool_decide (scheme = ""%string) then with_scheme agg SchemeHashFoldV1 else agg in
          verified (HashFold.Scheme agg) (VerifyAll steps agg)
        else refuse 400 ("unsupported scheme: " +:+ scheme))
  end.
End folding.

(** ** Merkle aggregation *)

Definition decode_leaf (i : nat) (s : string) : result string bytes :=
  match hex_decode s with
  | None => Err ("leaves_hex[" +:+ go_itoa (Z.of_nat i) +:+ "] is not valid hex")%string
  | Some [] => Err ("leaves_hex[" +:+ go_itoa (Z.of_nat i) +:+ "] is empty")%string
  | Some b => Ok b
  end.

Fixpoint leaves_loop (i : nat) (hexes : list string) : result string (list bytes) :=
  match hexes with
  | [] => Ok []
  | s :: hexes => let! b := decode_leaf i s in let! l := leaves_loop (S i) hexes in Ok (b :: l)
  end.

Definition decodeLeaves (hexes : list string) : result string (list bytes) :=
  if (length hexes =? 0)%nat then Err "leaves_hex is required and must be non-empty"%string else leaves_loop 0 hexes.

Definition merkleAggregate (req : option (list string)) : reply :=
  match req with
  | None => refuse 400 "invalid request"
  | Some hexes =>
      match decodeLeaves hexes with
      | Err e => refuse 400 e
      | Ok leaves =>
          match AggregateMerkleRecursion leaves with
          | Err e => (500, ARecursion e)
          | Ok agg => (200, AMerkle agg)
          end
      end
  end.

Definition merkleInclusion (req : option (list string * Z)) : reply :=
  match req with
  | None => refuse 400 "invalid request"
  | Some (hexes, leafIndex) =>
      match decodeLeaves hexes with
      | Err e => refuse 400 e
      | Ok leaves =>
          match BuildInclusionProof leaves leafIndex with
          | Err e => (400, ARecursion e)
          | Ok p => (200, AInclusion p)
          end
      end
  end.

Definition merkleVerify (req : option (MerkleRecursionProof * MerkleInclusionProof)) : reply :=
  match req with
  | None => refuse 400 "invalid request"
  | Some (agg, proof) =>
      match VerifyMerkleInclusion agg proof with
      | Ok valid => (200, AMember valid (Recursion.Scheme agg) None)
      | Err e => (200, AMember false (Recursion.Scheme agg) (Some e))
      end
  end.

(** ** Lemmas *)

Lemma digit_text (i : Z) : 0 <= i < 10 → Ascii.ascii_of_N (Z.to_N (48 + i)) = pretty_N_char (Z.to_N i).
Proof.
  intros H. assert (i = 0 ∨ i = 1 ∨ i = 2 ∨ i = 3 ∨ i = 4 ∨ i = 5 ∨ i = 6 ∨ i = 7 ∨ i = 8 ∨ i = 9) by lia.
  by repeat (destruct_or!; subst).
Qed.

Lemma itoa_loop_pretty fuel i buf : 0 <= i < 10 ^ Z.of_nat fuel → itoa_loop fuel i buf = pretty_N_go (Z.to_N i) buf.
Proof.
  revert i buf. induction fuel as [|fuel IH]; intros i buf Hi; cbn [itoa_loop].
  { cbn in Hi. replace i with 0 by lia. by rewrite pretty_N_go_0. }
  rewrite Nat2Z.inj_succ, Z.pow_succ_r in Hi by lia.
  destruct (Z.ltb_spec 0 i); [|replace i with 0 by lia; by rewrite pretty_N_go_0].
  rewrite IH by (split; [apply Z.div_pos; lia|apply Z.div_lt_upper_bound; lia]).
  rewrite (pretty_N_go_step (Z.to_N i)) by lia. rewrite digit_text by (apply Z.mod_pos_bound; lia).
  by rewrite Z2N.inj_div, Z2N.inj_mod by lia.
Qed.

(** The text is the decimal text for every 64-bit integer but the smallest, whose
    negation overflows. *)
Lemma go_itoa_exact i : int64_min < i <= int64_max → go_itoa i = itoa i.
Proof.
  intros Hi. unfold int64_min, int64_max in Hi. unfold go_itoa. destruct (Z.eqb_spec i 0) as [->|Hne]; [done|].
  assert (∀ n, 0 < n < 2 ^ 63 → itoa_loop 20 n "" = itoa n) as Hpos.
  { intros n Hn. rewrite itoa_loop_pretty; [|split; [lia|]; etransitivity; [apply Hn|reflexivity]].
    destruct n as [|p|p]; try lia. unfold itoa, pretty, pretty_Z, pretty. cbn [Z.to_N].
    unfold pretty_positive, pretty, pretty_N. by rewrite decide_False. }
  destruct (Z.ltb_spec i 0).
  - rewrite wrap64_id by (unfold int64_min, int64_max; lia). rewrite Hpos by lia. destruct i as [|p|p]; try lia.
    reflexivity.
  - apply Hpos. lia.
Qed.

Example go_itoa_min : go_itoa int64_min = "-"%string.
Proof. vm_compute. reflexivity. Qed.

Lemma decode_steps_spec i ds :
  match decode_steps i ds with
  | inl r => ∃ msg, r = refuse 400 msg
  | inr steps => length steps = length ds
  end.
Proof.
  revert i. induction ds as [|d ds IH]; intros i; cbn [decode_steps]; [done|].
  destruct (decodeFoldStep d) as [s|e]; [|by eexists]. specialize (IH (S i)). destruct (decode_steps (S i) ds); [done|].
  cbn. by rewrite IH.
Qed.

Lemma leaves_loop_hex i leaves : Forall (λ x, x ≠ []) leaves → leaves_loop i (hex_encode <$> leaves) = Ok leaves.
Proof.
  intros Hne. revert i. induction Hne as [|x l Hx _ IH]; intros i; [done|]. cbn [fmap list_fmap leaves_loop].
  unfold decode_leaf. rewrite hex_decode_encode. destruct x as [|b x]; [done|]. cbn [result_bind].
  change (list_fmap _ _ hex_encode l) with (hex_encode <$> l). rewrite IH. reflexivity.
Qed.

(** Decoding gives the leaves the texts stand for, none of them empty. *)
Lemma leaves_loop_sound i hexes leaves :
  leaves_loop i hexes = Ok leaves →
  Forall (λ x, x ≠ []) leaves ∧ mapM hex_decode hexes = Some leaves.
Proof.
  revert i leaves. induction hexes as [|h hexes IH]; intros i leaves; cbn [leaves_loop].
  { intros [= <-]. done. }
  unfold decode_leaf. destruct (hex_decode h) as [[|b x]|] eqn:E; [done| |done].
  cbn [result_bind]. intros (l & Hl & Hr)%result_bind_ok. apply ok_inj in Hr as <-. destruct (IH _ _ Hl) as [H1 H2].
  split; [by constructor|]. cbn [mapM]. rewrite E. cbn [mbind option_bind]. by rewrite H2.
Qed.

Section folding_facts.
Context `{PedersenLaws}.

(** The verifier's verdict is the folder's answer. [POST verify-fold] answers that an
    aggregate is valid for some steps exactly when [POST fold], asked to fold these
    steps under the aggregate's scheme, answers with that very aggregate; an
    absent scheme means the hash chain in both. *)
Theorem verify_fold_is_fold ds agg :
  let scheme := if bool_decide (HashFold.Scheme agg = ""%string) then SchemeHashFoldV1 else HashFold.Scheme agg in
  novaVerifyFold (Some (ds, agg)) = (200, AVerified true scheme None) ↔
  ∃ disclosure, novaFold (Some (HashFold.Scheme agg, ds)) = (200, AFolded (with_scheme agg scheme) disclosure).
Proof.
  intros scheme. unfold novaVerifyFold, novaFold, decoded.
  destruct (Nat.eqb_spec (length ds) 0) as [E|E]; [split; [done|by intros [? ?]]|].
  pose proof (decode_steps_spec 0 ds) as Hd. destruct (decode_steps 0 ds) as [r|steps].
  { destruct Hd as [msg ->]. split; [done|by intros [? ?]]. }
  assert (steps ≠ []) as Hne by (intros ->; cbn in Hd; lia). cbv zeta. fold scheme.
  assert (∀ r : result FoldError bool, verified scheme r = (200, AVerified true scheme None) ↔ r = Ok true) as Hver.
  { intros [[]|e]; unfold verified; split; intros Hx; try done. }
  assert (∀ (r : result FoldError AggregateProof) d, (∃ d', folded r d = (200, AFolded (with_scheme agg scheme) d')) ↔
    r = Ok (with_scheme agg scheme)) as Hfold.
  { intros [a|e] d; unfold folded; split; try done.
    - intros [d' Hx]. by simplify_eq.
    - intros Hx. apply ok_inj in Hx as ->. by eexists.
    - by intros [d' Hx]. }
  assert (scheme = HashFold.Scheme agg → with_scheme agg scheme = agg) as Hsame by (destruct agg; cbn; by intros ->).
  unfold scheme in *. case_bool_decide as Eempty.
  - rewrite Eempty. change (bool_decide (""%string = SchemePedersenFoldV1)) with false.
    change (bool_decide (""%string = SchemeHashFoldV1)) with false. cbn [orb].
    rewrite !(bool_decide_true (_ = _)) by done. cbn [HashFold.Scheme with_scheme]. rewrite Hver, Hfold. unfold VerifyAll.
    rewrite fold_Verify_ok, FoldAll_ok. naive_solver.
  - rewrite Hsame in * by done. destruct (decide (HashFold.Scheme agg = SchemePedersenFoldV1)) as [Ep|Ep].
    + rewrite (bool_decide_true (HashFold.Scheme agg = SchemePedersenFoldV1)) by done.
      rewrite (bool_decide_false (HashFold.Scheme agg = SchemeHashFoldV1)) by (by rewrite Ep).
      by rewrite Hver, Hfold, verify_iff_fold.
    + rewrite (bool_decide_false (HashFold.Scheme agg = SchemePedersenFoldV1)) by done.
      destruct (decide (HashFold.Scheme agg = SchemeHashFoldV1)) as [Eh|Eh].
      * rewrite (bool_decide_true (HashFold.Scheme agg = SchemeHashFoldV1)) by done. cbn [orb].
        rewrite Hver, Hfold. unfold VerifyAll. rewrite fold_Verify_ok, FoldAll_ok. naive_solver.
      * rewrite (bool_decide_false (HashFold.Scheme agg = SchemeHashFoldV1)) by done. cbn [orb].
        split; [done|by intros [? ?]].
Qed.
End folding_facts.

(** Every leaf of an aggregate has its proof: for leaves that the aggregate endpoint
    accepts, the inclusion endpoint answers for each index, and the verification
    endpoint accepts that answer against the aggregate. *)
Lemma merkle_over_http hexes agg i :
  merkleAggregate (Some hexes) = (200, AMerkle agg) → (i < length hexes)%nat →
  ∃ p, merkleInclusion (Some (hexes, Z.of_nat i)) = (200, AInclusion p) ∧
    merkleVerify (Some (agg, p)) = (200, AMember true SchemeMerkleRecursionV1 None).
Proof.
  unfold merkleAggregate, merkleInclusion, merkleVerify, decodeLeaves.
  destruct (length hexes =? 0)%nat; [done|]. destruct (leaves_loop 0 hexes) as [leaves|e] eqn:El; [|done].
  destruct (AggregateMerkleRecursion leaves) as [a|e] eqn:Ea; [|done]. intros [= <-] Hi.
  destruct (leaves_loop_sound _ _ _ El) as [_ Hm]. apply mapM_Some, Forall2_length in Hm. rewrite Hm in Hi.
  apply lookup_lt_is_Some in Hi as [x Hx].
  destruct (BuildInclusionProof_verifies leaves a i x Ea Hx) as (p & -> & _ & Hv). exists p. split; [done|].
  rewrite Hv. by destruct (Aggregate_ok leaves a Ea) as (_ & _ & _ & _ & -> & _).
Qed.

Example aggregate_of_two :
  merkleAggregate (Some ["01"; "0"]%string) = refuse 400 "leaves_hex[1] is not valid hex" ∧
  merkleAggregate (Some ["01"; ""]%string) = refuse 400 "leaves_hex[1] is empty".
Proof. split; reflexivity. Qed.

Section sample.
#[local] Existing Instance toy_pedersen.
#[local] Existing Instance toy_pedersen_laws.

Definition ex_dtos : list foldStepDTO :=
  [{| d_instance := "a"; d_instance_utf8 := true; d_witness_digest := "01" |};
   {| d_instance := "62"; d_instance_utf8 := false; d_witness_digest := "02" |}].

Definition folded_agg (r : reply) : AggregateProof :=
  match r.2 with AFolded a _ => a | _ => {| HashFold.Scheme := ""; Steps := 0; Root := ""; StepHashes := [] |} end.
Definition ex_pedersen : AggregateProof := folded_agg (novaFold (Some (SchemePedersenFoldV1, ex_dtos))).
Definition ex_unnamed : AggregateProof := with_scheme (folded_agg (novaFold (Some (""%string, ex_dtos)))) "".

Lemma verify_fold_is_fold_witness :
  novaVerifyFold (Some (ex_dtos, ex_pedersen)) = (200, AVerified true SchemePedersenFoldV1 None) ∧
  novaVerifyFold (Some (ex_dtos, ex_unnamed)) = (200, AVerified true SchemeHashFoldV1 None).
Proof.
  split.
  - apply (verify_fold_is_fold ex_dtos ex_pedersen). exists pedersen_disclosure. vm_compute. reflexivity.
  - apply (verify_fold_is_fold ex_dtos ex_unnamed). exists hash_disclosure. vm_compute. reflexivity.
Defined.
End sample.
