(* ===== verification/QuorumApi.v ===== *)
(** * The quorum handlers ([engine/internal/api/quorum_handlers.go])

    Every handler as a function of the signer registry ([None]: the service is
    off), the clock and the decoded request; [None] as a request is a body that
    does not decode. *)

From stdpp Require Import relations.
From S2P Require Import Prelude GoLib Sha256 Quorum.

Local Open Scope Z_scope.

(** The layout [2006-01-02T15:04:05.000Z]. *)
Definition format_millis (t : time) : string :=
  (trim_suffix (format_rfc3339 t) "Z" +:+ "." +:+ pad_left 3 (itoa (t mod second / 1000000)) +:+ "Z")%string.

Example format_millis_sample : format_millis (1785000000 * second + 120999999) = "2026-07-25T17:20:00.120Z"%string.
Proof. reflexivity. Qed.

Record quorumSignerWire := {
  w_id : string; w_public_key_hex : string; w_status : string; w_bond : Z; w_registered_at : string; w_slash_reason : string;
}.

Inductive QuorumBody :=
| QMessage (msg : string)
| QFailed (e : QuorumError)
| QSigner (w : quorumSignerWire)
| QSigners (l : list quorumSignerWire) (total active_count : Z)
| QWitness (w : QuorumWitness)
| QThreshold (active_count threshold : Z).

Definition reply : Type := Z * QuorumBody.
Definition refuse (code : Z) (msg : string) : reply := (code, QMessage msg).

Section curve.
Context {G1 G2 : Type} `{!Curve G1 G2}.

Local Notation Registry := (gmap string (SignerRecord (G2 := G2))).
Implicit Types r : Registry.

(** ** Handlers *)

Definition signerWireFromRec (rec : option (SignerRecord (G2 := G2))) : quorumSignerWire :=
  match rec with
  | None => {| w_id := ""; w_public_key_hex := ""; w_status := ""; w_bond := 0; w_registered_at := ""; w_slash_reason := "" |}
  | Some rec =>
      {| w_id := SID rec; w_public_key_hex := PublicKeyHex rec; w_status := SignerStatus_String (Status rec);
         w_bond := Bond rec; w_registered_at := format_millis (RegisteredAt rec); w_slash_reason := SlashReason rec |}
  end.

(** [quorumDisabled] and the rest of a handler. *)
Definition with_quorum (s : option Registry) (k : Registry → Registry * reply) : option Registry * reply :=
  match s with
  | None => (None, refuse 503 "quorum service disabled (set CP_QUORUM_ENABLE=1)")
  | Some r => let '(r', rep) := k r in (Some r', rep)
  end.

Record RegisterReq := { rq_id : string; rq_public_key_hex : string; rq_bond : Z }.

Definition quorumRegisterSigner (s : option Registry) (now : time) (req : option RegisterReq) : option Registry * reply :=
  with_quorum s (λ r,
    match req with
    | None => (r, refuse 400 "invalid json body")
    | Some q =>
        if bool_decide (rq_id q = ""%string) then (r, refuse 400 "missing id")
        else match PubKeyFromHex (rq_public_key_hex q) with
             | Err e => (r, (400, QFailed e))
             | Ok pk =>
                 match Register r now (rq_id q) (Some pk) (rq_bond q) with
                 | Err e =>
                     let code := match e with
                                 | ErrDuplicateSigner _ => 409
                                 | _ => match GetSigner r (rq_id q) with Some _ => 409 | None => 400 end
                                 end in
                     (r, (code, QFailed e))
                 | Ok r' => (r', (201, QSigner (signerWireFromRec (GetSigner r' (rq_id q)))))
                 end
             end
    end).

(** [List] of a filter given as text: the empty text is no filter, a text that is
    no status selects nothing. *)
Definition list_by_text (r : Registry) (filter : string) : list (SignerRecord (G2 := G2)) :=
  if bool_decide (filter = ""%string) then ListSigners r None
  else match List.find (λ st, bool_decide (SignerStatus_String st = filter)) [StatusActive; StatusSlashed; StatusRemoved] with
       | Some st => ListSigners r (Some st)
       | None => []
       end.

Definition quorumListSigners (s : option Registry) (status : string) : option Registry * reply :=
  with_quorum s (λ r,
    let l := (λ rec, signerWireFromRec (Some rec)) <$> list_by_text r status in
    (r, (200, QSigners l (Z.of_nat (length l)) (ActiveCount r)))).

(** The answer of a change of one signer. *)
Definition changed (r : Registry) (id : string) (res : result QuorumError Registry) : Registry * reply :=
  match res with
  | Err e => (r, (match e with ErrUnknownSigner _ => 404 | _ => 400 end, QFailed e))
  | Ok r' => (r', (200, QSigner (signerWireFromRec (GetSigner r' id))))
  end.

(** A body that does not decode is an empty reason. *)
Definition quorumSlashSigner (s : option Registry) (now : time) (id : string) (req : option string) : option Registry * reply :=
  with_quorum s (λ r,
    if bool_decide (id = ""%string) then (r, refuse 400 "missing id")
    else changed r id (Slash r now id (default ""%string req))).

Definition quorumRetireSigner (s : option Registry) (id : string) : option Registry * reply :=
  with_quorum s (λ r,
    if bool_decide (id = ""%string) then (r, refuse 400 "missing id") else changed r id (Retire r id)).

Record VerifyReq := {
  vq_evidence_root_hex : string; vq_signer_bitset : list string; vq_aggregate_sig_hex : string; vq_threshold : Z;
}.

(** The status of an error of [VerifyQuorum]. *)
Definition verify_status (e : QuorumError) : Z :=
  match e with
  | ErrPairingCheckFail => 422
  | ErrThresholdNotMet _ _ _ | ErrDuplicateSigner _ | ErrInactiveSigner _ _ => 403
  | ErrUnknownSigner _ => 404
  | _ => 400
  end.

Definition quorumVerify (s : option Registry) (now : time) (req : option VerifyReq) : option Registry * reply :=
  with_quorum s (λ r,
    (r, match req with
        | None => refuse 400 "invalid json body"
        | Some q =>
            match hex_decode (vq_evidence_root_hex q) with
            | None => refuse 400 "invalid evidence_root_hex"
            | Some root =>
                if (length (vq_signer_bitset q) =? 0)%nat then refuse 400 "signer_bitset required"
                else match SigFromHex (vq_aggregate_sig_hex q) with
                     | Err e => (400, QFailed e)
                     | Ok sig =>
                         match VerifyQuorum r now root (vq_signer_bitset q) (Some sig) (vq_threshold q) with
                         | Err e => (verify_status e, QFailed e)
                         | Ok w => (200, QWitness w)
                         end
                     end
            end
        end)).

Definition quorumThreshold (s : option Registry) : option Registry * reply :=
  with_quorum s (λ r, let n := ActiveCount r in (r, (200, QThreshold n (ByzantineThreshold n)))).

(** ** One request *)

Inductive quorum_request :=
| QRegister (now : time) (req : option RegisterReq)
| QList (status : string)
| QSlash (now : time) (id : string) (req : option string)
| QRetire (id : string)
| QVerify (now : time) (req : option VerifyReq)
| QAsk.

Definition serve (s : option Registry) (q : quorum_request) : option Registry * reply :=
  match q with
  | QRegister now req => quorumRegisterSigner s now req
  | QList status => quorumListSigners s status
  | QSlash now id req => quorumSlashSigner s now id req
  | QRetire id => quorumRetireSigner s id
  | QVerify now req => quorumVerify s now req
  | QAsk => quorumThreshold s
  end.

Definition serve_all (s : option Registry) (qs : list quorum_request) : option Registry := foldl (λ s q, fst (serve s q)) s qs.

(** ** Lemmas *)

Lemma changed_step r id res rep r' :
  (∀ r1, res = Ok r1 → registry_step r r1) → changed r id res = (r', rep) → r' = r ∨ registry_step r r'.
Proof. unfold changed. destruct res as [r1|e]; intros H [= <- <-]; [right; by apply H|by left]. Qed.

(** A request leaves the registry or makes one step of its life cycle. *)
Lemma serve_step r q : ∃ r', fst (serve (Some r) q) = Some r' ∧ (r' = r ∨ registry_step r r').
Proof.
  destruct q as [now [q|]|status|now id req|id|now req|]; cbn [serve];
    unfold quorumRegisterSigner, quorumListSigners, quorumSlashSigner, quorumRetireSigner, quorumVerify, quorumThreshold, with_quorum;
    try (eexists; split; [reflexivity|by left]).
  - case_bool_decide; [eexists; split; [reflexivity|by left]|].
    destruct (PubKeyFromHex _) as [p|]; [|eexists; split; [reflexivity|by left]].
    destruct (Register _ _ _ _ _) as [r'|] eqn:E; (eexists; split; [reflexivity|]); [|by left].
    right. by eapply step_register.
  - case_bool_decide; [eexists; split; [reflexivity|by left]|].
    destruct (changed r id _) as [r' rep] eqn:E. exists r'. split; [done|]. eapply changed_step; [|exact E].
    intros r2 H'. by eapply step_slash.
  - case_bool_decide; [eexists; split; [reflexivity|by left]|].
    destruct (changed r id _) as [r' rep] eqn:E. exists r'. split; [done|]. eapply changed_step; [|exact E].
    intros r2 Hr2. by eapply step_retire.
Qed.

(** A slashed record stays as it is. *)
Lemma slashed_stays r r' id rec :
  r' = r ∨ registry_step r r' → r !! id = Some rec → Status rec = StatusSlashed → r' !! id = Some rec.
Proof.
  intros [->|Hs] Hr Hst; [done|]. destruct (registry_step_lookup r r' id rec Hs Hr) as (rec' & Hl & _ & _ & Heq & _).
  by rewrite (Heq Hst) in Hl.
Qed.

Lemma serve_all_slashed r qs id rec :
  r !! id = Some rec → Status rec = StatusSlashed →
  ∃ r', serve_all (Some r) qs = Some r' ∧ r' !! id = Some rec.
Proof.
  intros Hr Hst. revert r Hr. induction qs as [|q qs IH]; intros r Hr; [by exists r|].
  change (serve_all (Some r) (q :: qs)) with (serve_all (fst (serve (Some r) q)) qs).
  destruct (serve_step r q) as (r1 & -> & H1). apply IH. by eapply slashed_stays.
Qed.

Lemma slash_answer r now id req s' w :
  quorumSlashSigner (Some r) now id req = (s', (200, QSigner w)) →
  ∃ r' rec, s' = Some r' ∧ r' !! id = Some rec ∧ Status rec = StatusSlashed ∧ w = signerWireFromRec (Some rec).
Proof.
  unfold quorumSlashSigner, with_quorum. case_bool_decide; [done|]. unfold changed.
  destruct (Slash _ _ _ _) as [r'|e] eqn:E; [|by destruct e]. unfold GetSigner. intros [= <- <-]. exists r'.
  unfold Slash in E. destruct (r !! id) as [rec|] eqn:Er; [|done]. case_bool_decide; apply ok_inj in E as <-.
  - exists rec. by rewrite Er.
  - eexists. by rewrite lookup_insert_eq.
Qed.

Lemma verify_answer r now q s' w :
  quorumVerify (Some r) now (Some q) = (s', (200, QWitness w)) →
  ∃ root sig, hex_decode (vq_evidence_root_hex q) = Some root ∧ SigFromHex (vq_aggregate_sig_hex q) = Ok sig ∧
    VerifyQuorum r now root (vq_signer_bitset q) (Some sig) (vq_threshold q) = Ok w.
Proof.
  unfold quorumVerify, with_quorum. destruct (hex_decode _) as [root|]; [|done]. destruct (_ =? 0)%nat; [done|].
  destruct (SigFromHex _) as [sig|]; [|done]. destruct (VerifyQuorum _ _ _ _ _ _) as [w'|] eqn:E; [|done].
  intros [= <- <-]. exists root, sig. done.
Qed.

(** Only an accepted quorum is answered 200. *)
Lemma verify_status_200 e : verify_status e ≠ 200.
Proof. by destruct e. Qed.

(** ** Properties *)

(** Slashing is for good. After a slash answered 200 for a signer, along any
    further requests the registry reports the signer as that answer did, slashed,
    and no verification that names it among its signers is ever answered 200. *)
Theorem slashed_never_counts r now id req s' w qs
    (Hslash : quorumSlashSigner (Some r) now id req = (s', (200, QSigner w))) :
  ∃ r' rec, serve_all s' qs = Some r' ∧ GetSigner r' id = Some rec ∧ signerWireFromRec (Some rec) = w ∧
    w_status w = "slashed"%string ∧
    ∀ now' q, id ∈ vq_signer_bitset q → fst (snd (quorumVerify (Some r') now' (Some q))) ≠ 200.
Proof.
  apply slash_answer in Hslash as (r1 & rec & -> & Hr & Hst & ->).
  destruct (serve_all_slashed r1 qs id rec Hr Hst) as (r' & Hall & Hr'). exists r', rec.
  split_and!; [done|done|done|cbn; by rewrite Hst|]. intros now' q Hin H200.
  destruct (quorumVerify (Some r') now' (Some q)) as [s'' [code b]] eqn:E. cbn in H200. subst code.
  assert (∃ w', b = QWitness w') as [w' ->].
  { unfold quorumVerify, with_quorum in E. destruct (hex_decode _); [|done]. destruct (_ =? 0)%nat; [done|].
    destruct (SigFromHex _); [|done]. destruct (VerifyQuorum _ _ _ _ _ _) as [w'|e]; [injection E as _ <-; eauto|].
    injection E as _ Hc _. by destruct (verify_status_200 e). }
  apply verify_answer in E as (root & sig & _ & _ & Hv).
  apply VerifyQuorum_ok in Hv as (_ & _ & _ & _ & _ & Hb & _ & (pks & _ & _ & Hp & _) & _).
  apply length_active in Hp as [_ Hact]. destruct (Hact id) as (rec' & Hrec' & Ha).
  - rewrite Hb. unfold SortSignerIDs. by apply elem_of_sort_slice.
  - rewrite Hr' in Hrec'. injection Hrec' as <-. by rewrite Hst in Ha.
Qed.
End curve.

(** ** Witnesses *)

Section sample.
#[local] Existing Instance toy_curve.

Definition ex_slashed : option (gmap string (SignerRecord (G2 := Z))) * reply :=
  quorumSlashSigner (Some ex_registry) 7 "a" (Some "double vote"%string).
Definition ex_wire : quorumSignerWire :=
  {| w_id := "a"; w_public_key_hex := ""; w_status := "slashed"; w_bond := 5;
     w_registered_at := "1970-01-01T00:00:00.000Z"; w_slash_reason := "double vote" |}.

Lemma slashed_never_counts_witness :
  snd (quorumRetireSigner (fst ex_slashed) "a") = (400, QFailed (ErrSlashedRetire "a")) ∧
  ∃ r' rec, serve_all (fst ex_slashed) [QRetire "a"; QSlash 9 "a" None] = Some r' ∧
    GetSigner r' "a" = Some rec ∧ signerWireFromRec (Some rec) = ex_wire.
Proof.
  split; [reflexivity|].
  destruct (slashed_never_counts ex_registry 7 "a" (Some "double vote"%string) (fst ex_slashed) ex_wire
    [QRetire "a"; QSlash 9 "a" None]) as (r' & rec & H1 & H2 & H3 & _).
  - vm_compute. reflexivity.
  - exists r', rec. split; [exact H1|]. split; [exact H2|exact H3].
Defined.

(** A removed signer may still be slashed. *)
Example slashed_after_retirement :
  let s := fst (quorumRetireSigner (Some ex_registry) "a") in
  fst (snd (quorumSlashSigner s 8 "a" None)) = 200.
Proof. reflexivity. Qed.

(** A filter that is no status. *)
Example unknown_filter : snd (quorumListSigners (Some ex_registry) "ACTIVE") = (200, QSigners [] 0 4).
Proof. reflexivity. Qed.
End sample.
