(* ===== verification/SiweApi.v ===== *)
(** * The sign-in handlers ([engine/internal/api/siwe_handlers.go])

    [POST /auth/siwe/challenge] and [POST /auth/siwe/verify] over the challenge
    store. [None] as a request is a body that does not decode; the clock readings
    and the nonce are arguments, a failed read of randomness is [None].
    [ed25519.Verify] is a parameter. *)

From S2P Require Import Prelude GoLib Siwe.

Local Open Scope Z_scope.

Inductive SiweBody :=
| SMessage (msg : string)
| SChallenge (message nonce_ purpose_ pubkey_ : string) (ttl_seconds : Z)
| SVerified (purpose_ pubkey_ : string).

Definition reply : Type := Z * SiweBody.
Definition refuse (code : Z) (msg : string) : reply := (code, SMessage msg).

Definition bad_pubkey : reply := refuse 400 "invalid pubkey (must be 32-byte hex Ed25519 public key)".

Record siweChallengeReq := { cq_pubkey : string; cq_purpose : string }.
Record siweVerifyReq := { vq_pubkey : string; vq_purpose : string; vq_message : string; vq_signature : string }.

(** ** Handlers *)

(** The clean-up and the checks of [Issue] come before the nonce is read. *)
Definition siweChallenge (s : Store) (now_gc now : time) (rnd : option bytes) (req : option siweChallengeReq) : Store * reply :=
  match req with
  | None => (s, refuse 400 "invalid JSON body")
  | Some q =>
      match ParsePubkeyHex (cq_pubkey q) with
      | None => (s, bad_pubkey)
      | Some pub =>
          match Issue s now_gc now (default [] rnd) pub (cq_purpose q), rnd with
          | (s', Err ErrInvalidInput), _ =>
              (s', refuse 400 "invalid purpose (lowercase letters/digits/hyphen, non-empty, max 64 chars)")
          | (s', Err ErrCapacityExceeded), _ => (s', refuse 503 "too many outstanding challenges — retry later")
          | (s', Err _), _ => (s', refuse 500 "internal error")
          | (_, Ok _), None => (gcLocked s now_gc, refuse 500 "internal error")
          | (s', Ok (msg, nonceHex)), Some _ =>
              (s', (200, SChallenge msg nonceHex (cq_purpose q) (cq_pubkey q) (DefaultTTL / second)))
          end
      end
  end.

(** The status and text of an error of [Verify]. *)
Definition verify_refusal (e : SiweError) : reply :=
  match e with
  | ErrExpired => refuse 401 "challenge expired or unknown"
  | ErrPurposeMismatch => refuse 401 "purpose mismatch"
  | ErrPubkeyMismatch => refuse 401 "pubkey mismatch"
  | ErrSignatureInvalid => refuse 401 "signature verification failed"
  | ErrInvalidInput => refuse 400 "invalid input"
  | ErrCapacityExceeded => refuse 500 "internal error"
  end.

Section verify.
Context (ed25519_verify : bytes → bytes → bytes → bool).

Definition siweVerify (s : Store) (now_gc now : time) (req : option siweVerifyReq) : Store * reply :=
  match req with
  | None => (s, refuse 400 "invalid JSON body")
  | Some q =>
      match ParsePubkeyHex (vq_pubkey q) with
      | None => (s, bad_pubkey)
      | Some pub =>
          match ParseSignatureHex (vq_signature q) with
          | None => (s, refuse 400 "invalid signature (must be 64-byte hex Ed25519 signature)")
          | Some sig =>
              if bool_decide (vq_message q = ""%string) then (s, refuse 400 "message is required")
              else match Verify ed25519_verify s now_gc now pub (vq_purpose q) (vq_message q) sig with
                   | (s', Some e) => (s', verify_refusal e)
                   | (s', None) => (s', (200, SVerified (vq_purpose q) (vq_pubkey q)))
                   end
          end
      end
  end.

(** ** One request *)

Inductive siwe_request :=
| RChallenge (now_gc now : time) (rnd : option bytes) (req : option siweChallengeReq)
| RVerify (now_gc now : time) (req : option siweVerifyReq).

Definition serve (s : Store) (r : siwe_request) : Store * reply :=
  match r with
  | RChallenge now_gc now rnd req => siweChallenge s now_gc now rnd req
  | RVerify now_gc now req => siweVerify s now_gc now req
  end.

(** The requests with their answers, in order. *)
Fixpoint serve_all (s : Store) (rs : list siwe_request) : Store * list (siwe_request * reply) :=
  match rs with
  | [] => (s, [])
  | r :: rs => let '(s1, rep) := serve s r in let '(s2, l) := serve_all s1 rs in (s2, (r, rep) :: l)
  end.

(** The clock readings of a request are at most [t]. *)
Definition until (t : time) (r : siwe_request) : Prop :=
  match r with RChallenge now_gc now _ _ | RVerify now_gc now _ => now_gc <= t ∧ now <= t end.

(** The request neither drew the message again nor was accepted for it. *)
Definition spares (m : string) (a : siwe_request * reply) : Prop :=
  match a with
  | (RChallenge _ _ _ _, (_, SChallenge m' _ _ _ _)) => m' ≠ m
  | (RVerify _ _ (Some q), (200, _)) => vq_message q ≠ m
  | _ => True
  end.

(** ** Lemmas *)

Lemma gc_keeps s t m ch : items s !! m = Some ch → t <= expiresAt ch → items (gcLocked s t) !! m = Some ch.
Proof. intros H Ht. rewrite gc_lookup, H. destruct (decide (expiresAt ch < t)); [lia|done]. Qed.

(** A live challenge stays outstanding until it is accepted, drawn again or
    expired. *)
Lemma serve_keeps s r s' rep m ch :
  serve s r = (s', rep) → items s !! m = Some ch → until (expiresAt ch) r → spares m (r, rep) → items s' !! m = Some ch.
Proof.
  destruct r as [now_gc now rnd req|now_gc now req]; cbn [serve until]; intros Hs Hm [Hgc Hnow] Hsp.
  - unfold siweChallenge in Hs. destruct req as [q|]; [|by injection Hs as <- _].
    destruct (ParsePubkeyHex _) as [pub|]; [|by injection Hs as <- _].
    unfold Issue in Hs. destruct (negb _); [by injection Hs as <- _|]. destruct (negb _); [by injection Hs as <- _|].
    pose proof (gc_keeps s now_gc m ch Hm Hgc) as Hk. cbv zeta in Hs.
    destruct (_ <=? _)%nat; [by injection Hs as <- _|]. destruct rnd as [n|]; [|by injection Hs as <- _].
    injection Hs as <- <-. cbn in Hsp. cbn [items]. by rewrite lookup_insert_ne.
  - unfold siweVerify in Hs. destruct req as [q|]; [|by injection Hs as <- _].
    destruct (ParsePubkeyHex _) as [pub|]; [|by injection Hs as <- _].
    destruct (ParseSignatureHex _) as [sig|]; [|by injection Hs as <- _]. case_bool_decide; [by injection Hs as <- _|].
    pose proof (gc_keeps s now_gc m ch Hm Hgc) as Hk.
    destruct (Verify ed25519_verify s now_gc now pub (vq_purpose q) (vq_message q) sig) as [s1 o] eqn:Ev.
    assert (o = None → vq_message q ≠ m) as Hacc by (intros ->; injection Hs as _ <-; exact Hsp).
    assert (s' = s1) as -> by (by destruct o; injection Hs as <- _). clear Hs Hsp. unfold Verify in Ev.
    destruct (_ || _); [by injection Ev as <- _|]. destruct (negb _); [by injection Ev as <- _|].
    cbv zeta in Ev. destruct (items (gcLocked s now_gc) !! vq_message q) as [c|] eqn:Ec; [|by injection Ev as <- _].
    destruct (Z.ltb_spec (expiresAt c) now) as [Hlt|Hge].
    { injection Ev as <- _. cbn [remove items]. rewrite lookup_delete_ne; [done|]. intros E. rewrite E, Hk in Ec.
      injection Ec as <-. lia. }
    destruct (negb _); [by injection Ev as <- _|]. destruct (negb _); [by injection Ev as <- _|].
    destruct (negb _); [by injection Ev as <- _|]. injection Ev as <- <-. cbn [remove items].
    rewrite lookup_delete_ne; [done|by apply Hacc].
Qed.

Lemma serve_all_keeps s rs m ch :
  items s !! m = Some ch → Forall (until (expiresAt ch)) rs → Forall (spares m) (snd (serve_all s rs)) →
  items (fst (serve_all s rs)) !! m = Some ch.
Proof.
  revert s. induction rs as [|r rs IH]; intros s Hm Hu; cbn [serve_all]; [done|].
  apply Forall_cons in Hu as [Hr Hrs]. destruct (serve s r) as [s1 rep] eqn:Es.
  specialize (IH s1). destruct (serve_all s1 rs) as [s2 l]. cbn [fst snd] in *. intros [Hsp Hl]%Forall_cons.
  apply IH; [|done|done]. by eapply serve_keeps.
Qed.

(** What a granted challenge leaves in the store. *)
Lemma challenge_granted s now_gc now rnd q s' m n p k t :
  siweChallenge s now_gc now rnd (Some q) = (s', (200, SChallenge m n p k t)) →
  ∃ pub nb, ParsePubkeyHex (cq_pubkey q) = Some pub ∧ validatePurpose (cq_purpose q) = true ∧ length pub = PublicKeySize ∧
    rnd = Some nb ∧ m = canonicalMessage pub (cq_purpose q) nb (truncate_second now) ∧
    items s' !! m = Some {| pubkey := pub; purpose := cq_purpose q; nonce := nb; issuedAt := truncate_second now;
                            expiresAt := truncate_second now + ttl s |}.
Proof.
  unfold siweChallenge. destruct (ParsePubkeyHex _) as [pub|] eqn:Ep; [|done]. unfold Issue.
  destruct (negb (length pub =? PublicKeySize)%nat) eqn:El; [done|]. apply negb_false_iff, Nat.eqb_eq in El.
  destruct (validatePurpose _); [|done]. cbn [negb]. cbv zeta.
  destruct (_ <=? _)%nat; [done|]. destruct rnd as [nb|]; [|done]. intros [= <- <- _ _ _ _]. exists pub, nb.
  split_and!; [done..|]. cbn [items]. apply lookup_insert_eq.
Qed.

Lemma canonicalMessage_nonempty pk p n issued : canonicalMessage pk p n issued ≠ ""%string.
Proof. done. Qed.

(** Verifying an outstanding challenge with its key, purpose and a good signature. *)
Lemma verify_live s now_gc now q pub sig ch :
  ParsePubkeyHex (vq_pubkey q) = Some pub → ParseSignatureHex (vq_signature q) = Some sig → vq_message q ≠ ""%string →
  length pub = PublicKeySize → length sig = SignatureSize → validatePurpose (vq_purpose q) = true →
  items s !! vq_message q = Some ch → pubkey ch = pub → purpose ch = vq_purpose q →
  now_gc <= expiresAt ch → now <= expiresAt ch → ed25519_verify pub (bytes_of (vq_message q)) sig = true →
  siweVerify s now_gc now (Some q) = (remove (gcLocked s now_gc) (vq_message q), (200, SVerified (vq_purpose q) (vq_pubkey q))).
Proof.
  intros Hpub Hsig Hm Hl Hls Hp Hch Hk Hpu Hgc Hnow Hv. unfold siweVerify. rewrite Hpub, Hsig, bool_decide_false by done.
  unfold Verify. rewrite Hl, Hls, Hp. cbn [Nat.eqb negb orb]. cbv zeta. change (negb (_ =? _)%nat || _) with false. cbv iota.
  rewrite (gc_keeps s now_gc _ ch) by done. destruct (Z.ltb_spec (expiresAt ch) now); [lia|].
  rewrite Hk, Hpu, Hv, bool_decide_true by done. by rewrite (proj2 (equalBytes_spec pub pub) eq_refl).
Qed.

(** An unknown message is refused, whatever comes with it. *)
Lemma verify_unknown s now_gc now q :
  items s !! vq_message q = None → fst (snd (siweVerify s now_gc now (Some q))) ≠ 200.
Proof.
  intros Hm. unfold siweVerify. destruct (ParsePubkeyHex _); [|done]. destruct (ParseSignatureHex _); [|done].
  case_bool_decide; [done|]. unfold Verify. destruct (_ || _); [done|]. destruct (negb _); [done|]. cbv zeta.
  by rewrite gc_lookup, Hm.
Qed.

Lemma parsed_signature text sig : ParseSignatureHex text = Some sig → length sig = SignatureSize.
Proof.
  unfold ParseSignatureHex. destruct (hex_decode _) as [b|]; [|done]. cbn. destruct (Nat.eqb_spec (length b) SignatureSize); [|done].
  by intros [= <-].
Qed.

(** ** Properties *)

(** Nobody else's requests spoil a sign-in. A challenge that was granted is
    accepted from its holder, with the same key and purpose and a signature
    that verifies over the message, at any time before it expires and after any
    requests that neither drew its message again nor were accepted for it, wrong
    attempts on it included; and once accepted the message is refused for good,
    until it is drawn again. *)
Theorem challenge_completes s now_gc now rnd c s1 m n p k t rs now_gc' now' q sig pub
    (Hc : siweChallenge s now_gc now rnd (Some c) = (s1, (200, SChallenge m n p k t)))
    (Hpub : ParsePubkeyHex (cq_pubkey c) = Some pub)
    (Hq : ParsePubkeyHex (vq_pubkey q) = Some pub ∧ vq_purpose q = cq_purpose c ∧ vq_message q = m)
    (Hsig : ParseSignatureHex (vq_signature q) = Some sig) (Hv : ed25519_verify pub (bytes_of m) sig = true)
    (Htime : Forall (until (truncate_second now + ttl s)) (RVerify now_gc' now' (Some q) :: rs))
    (Hrs : Forall (spares m) (snd (serve_all s1 rs))) :
  ∃ s2, siweVerify (fst (serve_all s1 rs)) now_gc' now' (Some q) = (s2, (200, SVerified (vq_purpose q) (vq_pubkey q))) ∧
    ∀ t_gc t' q', vq_message q' = m → fst (snd (siweVerify s2 t_gc t' (Some q'))) ≠ 200.
Proof.
  apply challenge_granted in Hc as (pub' & nb & Hpub' & Hp & Hl & -> & Hm & Hit).
  rewrite Hpub in Hpub'. injection Hpub' as <-. destruct Hq as (Hk & Hpu & Hmq).
  apply Forall_cons in Htime as [[Hgc Hnow] Hu].
  pose proof (serve_all_keeps s1 rs m _ Hit Hu Hrs) as Hkeep.
  eexists. split.
  - eapply verify_live; [exact Hk|exact Hsig|rewrite Hmq, Hm; apply canonicalMessage_nonempty|exact Hl|by eapply parsed_signature
      |by rewrite Hpu|rewrite Hmq; exact Hkeep|reflexivity|by rewrite Hpu|exact Hgc|exact Hnow|by rewrite Hmq].
  - intros t_gc t' q' Hq'. apply verify_unknown. cbn [remove items]. rewrite Hq', Hmq. apply lookup_delete_eq.
Qed.
End verify.

(** ** Witness *)

(** A stand-in for the signature check that accepts one signature only. *)
Definition ex_verify (pk m sg : bytes) : bool := bool_decide (sg = ex_sig).
Definition ex_pk_hex : string := hex_encode ex_pk.
Definition ex_challenged : Store * reply :=
  siweChallenge (NewStore 0) 0 (3 * second) (Some [Byte.x07]) (Some {| cq_pubkey := ex_pk_hex; cq_purpose := "revoke-proof" |}).
Definition ex_attempt (sig : bytes) : siweVerifyReq :=
  {| vq_pubkey := ex_pk_hex; vq_purpose := "revoke-proof"; vq_message := ex_msg; vq_signature := hex_encode sig |}.
Definition ex_between : list siwe_request :=
  [RVerify (4 * second) (4 * second) (Some (ex_attempt ex_pk)); RVerify (4 * second) (4 * second) (Some (ex_attempt (ex_pk ++ ex_pk)));
   RChallenge (5 * second) (5 * second) (Some [Byte.x08]) (Some {| cq_pubkey := ex_pk_hex; cq_purpose := "login" |})].

Lemma challenge_completes_witness :
  (λ a, fst (snd a)) <$> snd (serve_all ex_verify (fst ex_challenged) ex_between) = [400; 401; 200] ∧
  ∃ s2, siweVerify ex_verify (fst (serve_all ex_verify (fst ex_challenged) ex_between)) (6 * second) (6 * second)
      (Some (ex_attempt ex_sig)) = (s2, (200, SVerified "revoke-proof" ex_pk_hex)) ∧
    fst (snd (siweVerify ex_verify s2 (6 * second) (6 * second) (Some (ex_attempt ex_sig)))) ≠ 200.
Proof.
  split; [vm_compute; reflexivity|].
  destruct (challenge_completes ex_verify (NewStore 0) 0 (3 * second) (Some [Byte.x07])
    {| cq_pubkey := ex_pk_hex; cq_purpose := "revoke-proof" |} (fst ex_challenged) ex_msg "07" "revoke-proof" ex_pk_hex 300
    ex_between (6 * second) (6 * second) (ex_attempt ex_sig) ex_sig ex_pk) as (s2 & H1 & H2).
  - vm_compute. reflexivity.
  - vm_compute. reflexivity.
  - split; [vm_compute; reflexivity|]. split; vm_compute; reflexivity.
  - vm_compute. reflexivity.
  - vm_compute. reflexivity.
  - repeat constructor; vm_compute; discriminate.
  - vm_compute. repeat constructor; discriminate.
  - exists s2. split; [exact H1|apply H2; reflexivity].
Defined.
