(* ===== verification/JudgeApi.v ===== *)
(** * The judge handler ([engine/internal/api/judge_handler.go])

    [POST /inference/judge]: the checked request becomes a task, the judge
    decides, and the verdict is routed to its evidence and sink. The judge is an
    argument, as the code's interface [JudgeService]; [None] is an absent judge,
    and as a request a body that does not decode. *)

From S2P Require Import Prelude GoLib Json Llm Judge Evidence.

Local Open Scope Z_scope.

(** ** Data *)

Record judgeReqFacet := { jf_id : string; jf_prompt : string; jf_allowed_values : list string; jf_weight : float64 }.

Record judgeRequest := {
  j_task_id : string; j_input : string; j_system_msg : string; j_facets : list judgeReqFacet; j_min_providers : Z;
  j_agreement_threshold : float64;
}.

Inductive TaskError :=
| NoInput | NoFacets | TooManyFacets (n : Z) | NoFacetID | DuplicateFacet (id : string) | NoPrompt (id : string)
| FewValues (id : string).

Record judgeRespFacet := {
  rf_id : string; rf_verdict : Verdict; rf_winner : string; rf_live_count : Z; rf_agreement_fraction : float64;
}.

Record judgeResponse := {
  rs_task_id : string; rs_overall : Verdict; rs_facets : list judgeRespFacet; rs_equivocated : option Proof;
  rs_escalation : option EscalationEvent;
}.

Inductive JudgeBody :=
| JMessage (msg : string)
| JTask (e : TaskError)
| JFailed (e : JudgeError)
| JEvidence (e : EvidenceError)
| JResponse (r : judgeResponse).

(** ** From the request to the task *)

Fixpoint build_facets (seen : list string) (rfs : list judgeReqFacet) : result TaskError (list Facet) :=
  match rfs with
  | [] => Ok []
  | rf :: rfs =>
      let id := trim_space (jf_id rf) in
      if bool_decide (id = ""%string) then Err NoFacetID
      else if bool_decide (id ∈ seen) then Err (DuplicateFacet id)
      else if bool_decide (trim_space (jf_prompt rf) = ""%string) then Err (NoPrompt id)
      else if (length (jf_allowed_values rf) <? 2)%nat then Err (FewValues id)
      else
        let w := if f_eqb (jf_weight rf) f_zero then f_one else jf_weight rf in
        let! facets := build_facets (id :: seen) rfs in
        Ok ({| FacetID := id; Prompt := jf_prompt rf; AllowedValues := jf_allowed_values rf; Weight := w |} :: facets)
  end.

Definition buildJudgeTask (req : judgeRequest) : result TaskError Task :=
  if bool_decide (trim_space (j_input req) = ""%string) then Err NoInput
  else if (length (j_facets req) =? 0)%nat then Err NoFacets
  else if (32 <? length (j_facets req))%nat then Err (TooManyFacets (Z.of_nat (length (j_facets req))))
  else
    let! facets := build_facets [] (j_facets req) in
    Ok {| TaskID := j_task_id req; Input := j_input req; SystemMsg := j_system_msg req; Facets := facets;
          MinProviders := j_min_providers req; AgreementThreshold := j_agreement_threshold req |}.

(** ** The handler *)

Definition facet_row (m : gmap string FacetResult) (f : Facet) : judgeRespFacet :=
  match m !! FacetID f with
  | None => {| rf_id := FacetID f; rf_verdict := VerdictAbstain; rf_winner := ""; rf_live_count := 0;
               rf_agreement_fraction := f_zero |}
  | Some fr => {| rf_id := RFacetID fr; rf_verdict := FVerdict fr; rf_winner := FWinner fr; rf_live_count := LiveCount fr;
                  rf_agreement_fraction := AgreementFraction fr |}
  end.

(** The answer, and the events handed to the sink; what the sink answers is only
    logged. *)
Definition judgeHandler (judge : option (Task → result JudgeError TaskResult)) (sink : option Sink) (now : time)
    (req : option judgeRequest) : (Z * JudgeBody) * list EscalationEvent :=
  match judge with
  | None => ((503, JMessage "judge not configured"), [])
  | Some decide_task =>
      match req with
      | None => ((400, JMessage "invalid json"), [])
      | Some q =>
          match buildJudgeTask q with
          | Err e => ((400, JTask e), [])
          | Ok task =>
              match decide_task task with
              | Err e => ((502, JFailed e), [])
              | Ok tr =>
                  let resp p ev := (200, JResponse {| rs_task_id := RTaskID tr; rs_overall := OverallVerdict tr;
                    rs_facets := facet_row (RFacets tr) <$> Facets task; rs_equivocated := p; rs_escalation := ev |}) in
                  match OverallVerdict tr with
                  | VerdictAgree => (resp None None, [])
                  | VerdictDisagree =>
                      match FromTaskResult (Some task) (Some tr) with
                      | Err e => ((500, JEvidence e), [])
                      | Ok proof => (resp (Some proof) None, [])
                      end
                  | VerdictAbstain =>
                      match BuildEvent (Some task) (Some tr) now with
                      | Err e => ((500, JEvidence e), [])
                      | Ok ev => (resp None (Some ev), match sink with Some _ => [ev] | None => [] end)
                      end
                  end
              end
          end
      end
  end.

(** ** Lemmas *)

Lemma build_facets_ok seen rfs facets :
  build_facets seen rfs = Ok facets →
  FacetID <$> facets = (λ rf, trim_space (jf_id rf)) <$> rfs ∧ NoDup (FacetID <$> facets) ∧
  (∀ f, f ∈ facets → FacetID f ∉ seen ∧ FacetID f ≠ ""%string ∧ (2 <= length (AllowedValues f))%nat ∧
     f_eqb (Weight f) f_zero = false).
Proof.
  revert seen facets. induction rfs as [|rf rfs IH]; intros seen facets; cbn [build_facets].
  { intros <-%ok_inj. split_and!; [done|constructor|]. intros f Hf. by apply elem_of_nil in Hf. }
  case_bool_decide as H0; [done|]. case_bool_decide as H1; [done|]. case_bool_decide as H2; [done|].
  destruct (Nat.ltb_spec (length (jf_allowed_values rf)) 2) as [|H3]; [done|].
  intros (l & Hl & E)%result_bind_ok. apply ok_inj in E as <-. destruct (IH _ _ Hl) as (Hids & Hnd & Hall).
  cbn [fmap list_fmap FacetID]. change (list_fmap _ _ FacetID l) with (FacetID <$> l). split_and!.
  - by rewrite Hids.
  - constructor; [|done]. intros (f & E & Hf)%list_elem_of_fmap. destruct (Hall f Hf) as [Hn _]. rewrite <- E in Hn. set_solver.
  - intros f [->|Hf]%elem_of_cons; [|destruct (Hall f Hf) as (Hn & ? & ? & ?); split_and!; [set_solver|done..]].
    cbn [FacetID AllowedValues Weight]. split_and!; [done|done|done|]. by destruct (f_eqb (jf_weight rf) f_zero) eqn:E.
Qed.

Lemma buildJudgeTask_ok req t :
  buildJudgeTask req = Ok t →
  NoDup (FacetID <$> Facets t) ∧ Facets t ≠ [] ∧ (length (Facets t) <= 32)%nat ∧ TaskID t = j_task_id req ∧
  FacetID <$> Facets t = (λ rf, trim_space (jf_id rf)) <$> j_facets req.
Proof.
  unfold buildJudgeTask. case_bool_decide; [done|]. destruct (Nat.eqb_spec (length (j_facets req)) 0); [done|].
  destruct (Nat.ltb_spec 32 (length (j_facets req))); [done|].
  intros (facets & Hf & <-%ok_inj)%result_bind_ok. apply build_facets_ok in Hf as (Hids & Hnd & _). cbn [Facets TaskID].
  assert (length facets = length (j_facets req)) as Hlen by (rewrite <- (length_fmap FacetID), Hids; apply length_fmap).
  split_and!; try done; [by intros ->|lia].
Qed.

(** A task the handler builds is always decided, with a result for every facet. *)
Lemma Decide_built iter poll t t0 t1 :
  iter_ok iter → NoDup (FacetID <$> Facets t) → Facets t ≠ [] →
  ∃ res, Decide iter poll (Some t) true t0 t1 = Ok res ∧ RTaskID res = TaskID t ∧
    ∀ f, f ∈ Facets t → ∃ fr, RFacets res !! FacetID f = Some fr ∧ RFacetID fr = FacetID f.
Proof.
  intros Hi Hnd Hne. destruct (Decide iter poll (Some t) true t0 t1) as [res|e] eqn:E.
  - exists res. split; [done|]. pose proof (Decide_spec _ _ _ _ _ _ Hi Hnd E) as (Hf & _ & _). split.
    + unfold Decide in E. destruct (_ =? 0)%nat; [done|]. by injection E as <-.
    + intros f (i & Hfi)%list_elem_of_lookup. destruct (Hf i f Hfi) as (fr & Hfr & Hid & _). by exists fr.
  - unfold Decide in E. destruct (Nat.eqb_spec (length (Facets t)) 0) as [H0|]; [|done].
    by apply length_zero_iff_nil in H0.
Qed.

(** ** Properties *)

(** C12. A checked request is always judged to the end. With any providers, at most 64
    of them answering a facet, a request that passes the checks is answered 200
    with one row per facet, in the request's order and under the trimmed
    identifiers, which differ; a DISAGREE carries an equivocation proof that
    verifies, an ABSTAIN an escalation event that verifies and is the one event
    the sink is handed, an AGREE neither. *)
Theorem judged_over_http iter poll t0 t1 sink now q task
    (Hi : iter_ok iter) (Hpoll : ∀ i req, (length (poll i req) <= 64)%nat) (Htask : buildJudgeTask q = Ok task) :
  ∃ r events, judgeHandler (Some (λ t, Decide iter poll (Some t) true t0 t1)) sink now (Some q) = ((200, JResponse r), events) ∧
    rs_task_id r = j_task_id q ∧ rf_id <$> rs_facets r = (λ rf, trim_space (jf_id rf)) <$> j_facets q ∧ NoDup (rf_id <$> rs_facets r) ∧
    match rs_overall r with
    | VerdictAgree => rs_equivocated r = None ∧ rs_escalation r = None ∧ events = []
    | VerdictDisagree => (∃ p, rs_equivocated r = Some p ∧ VerifyProof p = Ok ()) ∧ rs_escalation r = None ∧ events = []
    | VerdictAbstain => rs_equivocated r = None ∧
        ∃ ev, rs_escalation r = Some ev ∧ VerifyEvent ev = Ok () ∧ events = match sink with Some _ => [ev] | None => [] end
    end.
Proof.
  destruct (buildJudgeTask_ok q task Htask) as (Hnd & Hne & _ & Hid & Hids).
  destruct (Decide_built iter poll task t0 t1 Hi Hnd Hne) as (tr & Htr & Hrid & Hrows).
  pose proof (Decide_ok _ _ _ _ _ _ Hi Hpoll Htr) as Hok.
  assert (rf_id <$> (facet_row (RFacets tr) <$> Facets task) = FacetID <$> Facets task) as Hrow.
  { rewrite <- list_fmap_compose. apply list_fmap_ext. intros i f Hf. apply list_elem_of_lookup_2, Hrows in Hf as (fr & Hfr & Hfid).
    unfold compose, facet_row. by rewrite Hfr. }
  unfold judgeHandler. rewrite Htask, Htr. destruct (OverallVerdict tr) eqn:Ev.
  - eexists _, _. split; [reflexivity|]. cbn. rewrite Hrow, Hids. rewrite <- Hids. split_and!; congruence || done.
  - destruct (FromTaskResult_disagree task tr Ev Hok) as (p & -> & Hp & _). eexists _, _. split; [reflexivity|]. cbn.
    rewrite Hrow. split_and!; try (congruence || done). by exists p.
  - destruct (BuildEvent_abstain task tr now Ev Hok) as (ev & -> & Hp & _). eexists _, _. split; [reflexivity|]. cbn.
    rewrite Hrow. split_and!; try (congruence || done). by exists ev.
Qed.

Definition ex_request : judgeRequest :=
  {| j_task_id := "t1"; j_input := "hello"; j_system_msg := "";
     j_facets := [{| jf_id := " toxic "; jf_prompt := "Is it toxic?"; jf_allowed_values := ["yes"; "no"]; jf_weight := f_zero |}];
     j_min_providers := 0; j_agreement_threshold := f_zero |}.
Definition ex_built : Task := default (ex_task [] 0 f_zero) (match buildJudgeTask ex_request with Ok t => Some t | Err _ => None end).

Lemma judged_over_http_witness :
  Facets ex_built = [ex_facet] ∧
  ∃ r p, judgeHandler (Some (λ t, Decide ex_iter ex_split (Some t) true 1 2)) None 3 (Some ex_request) = ((200, JResponse r), []) ∧
    rs_overall r = VerdictDisagree ∧ rs_equivocated r = Some p ∧ VerifyProof p = Ok ().
Proof.
  split; [vm_compute; reflexivity|].
  destruct (judged_over_http ex_iter ex_split 1 2 None 3 ex_request ex_built ex_iter_ok ltac:(intros i req; cbn; lia))
    as (r & ev & H & _ & _ & _ & Hv); [vm_compute; reflexivity|].
  assert ((λ a : (Z * JudgeBody) * list EscalationEvent, match snd (fst a) with JResponse r => Some (rs_overall r) | _ => None end)
    (judgeHandler (Some (λ t, Decide ex_iter ex_split (Some t) true 1 2)) None 3 (Some ex_request)) = Some VerdictDisagree) as Ho
    by (vm_compute; reflexivity).
  rewrite H in Ho. cbn in Ho. injection Ho as Ho. rewrite Ho in Hv. destruct Hv as ((p & Hp & Hver) & _ & Hev).
  exists r, p. rewrite H, Hev. split; [reflexivity|]. split; [exact Ho|]. split; [exact Hp|exact Hver].
Defined.

(** Identifiers that differ in white space only are one facet. *)
Example trimmed_duplicates :
  let f id := {| jf_id := id; jf_prompt := "p"; jf_allowed_values := ["a"; "b"]; jf_weight := f_one |} in
  build_facets [] [f "x"; f " x"]%string = Err (DuplicateFacet "x").
Proof. reflexivity. Qed.
