(* ===== verification/AuditApi.v ===== *)
(** * The decision-log handlers ([engine/internal/api/audit_handlers.go])

    Every handler as a function of the process-wide ring of 4096 records and the
    request; the two clock readings of [decisionLog] are arguments, [None] as a
    request is a body that does not decode. *)

From S2P Require Import Prelude GoLib Sha256 Json AuditLog.

Local Open Scope Z_scope.

Record logDecisionReq := {
  l_agent : string; l_model : string; l_version : string; l_request : string; l_response : string;
  l_metadata : gmap string string; l_verdict : string; l_risk : string; l_policy : string; l_parent : string;
  l_preview : bool;
}.

Inductive AuditBody :=
| AMessage (msg : string)
| ALogged (r : Record_)
| AFound (r : Record_) (verified : bool)
| AChain (l : list Record_)
| ARecent (l : list Record_) (count : Z).

Definition reply : Type := Z * AuditBody.

(** [getAuditSink] *)
Definition audit_sink : InMemorySink := NewInMemorySink 4096.

(** [now_id] names the record, [now] stamps it. *)
Definition logged_record (now_id now : time) (q : logDecisionReq) : Record_ :=
  BuildRecord now ("dec-" +:+ itoa now_id) (l_agent q) (l_model q) (l_version q) (bytes_of (l_request q)) (bytes_of (l_response q))
    (l_metadata q) (l_verdict q) (l_risk q) (l_policy q) (l_parent q) (l_preview q).

Definition decisionLog (s : InMemorySink) (now_id now : time) (req : option logDecisionReq) : InMemorySink * reply :=
  match req with
  | None => (s, (400, AMessage "bad json"))
  | Some q =>
      if bool_decide (l_agent q = ""%string) || bool_decide (l_model q = ""%string) || bool_decide (l_verdict q = ""%string)
      then (s, (400, AMessage "agent_id, model_id, verdict are required"))
      else
        let rec_ := logged_record now_id now q in
        match Append s rec_ with
        | (s', Some e) => (s', (500, AMessage e))
        | (s', None) => (s', (201, ALogged rec_))
        end
  end.

Definition decisionGet (s : InMemorySink) (id : string) : reply :=
  match Get s id with
  | None => (404, AMessage "not found")
  | Some r => (200, AFound r (VerifyRecord r))
  end.

(** A query parameter: the default unless it is a positive number. *)
Definition positive_or (q : string) (d : Z) : Z :=
  if bool_decide (q = ""%string) then d else match atoi q with Some n => if 0 <? n then n else d | None => d end.

Definition decisionLineage (s : InMemorySink) (id depth : string) : reply := (200, AChain (Lineage s id (positive_or depth 32))).

Definition decisionRecent (s : InMemorySink) (limit : string) : reply :=
  let l := Recent s (positive_or limit 100) in (200, ARecent l (Z.of_nat (length l))).

(** ** One request *)

Inductive audit_request :=
| ALog (now_id now : time) (req : option logDecisionReq)
| AGet (id : string) | ALineage (id depth : string) | AList (limit : string).

Definition serve (s : InMemorySink) (r : audit_request) : InMemorySink * reply :=
  match r with
  | ALog now_id now req => decisionLog s now_id now req
  | AGet id => (s, decisionGet s id)
  | ALineage id depth => (s, decisionLineage s id depth)
  | AList limit => (s, decisionRecent s limit)
  end.

Definition serve_all (s : InMemorySink) (rs : list audit_request) : InMemorySink := foldl (λ s r, fst (serve s r)) s rs.

Definition is_log (r : audit_request) : bool := match r with ALog _ _ _ => true | _ => false end.

(** ** Lemmas *)

Lemma built_verifies now_id now q : VerifyRecord (logged_record now_id now q) = true.
Proof. unfold VerifyRecord, logged_record, BuildRecord. apply bool_decide_true. reflexivity. Qed.

(** A request appends one record or leaves the ring. *)
Lemma serve_append s r s' rep :
  serve s r = (s', rep) →
  s' = s ∨ ∃ now_id now q, r = ALog now_id now (Some q) ∧ s' = fst (Append s (logged_record now_id now q)).
Proof.
  destruct r as [now_id now [q|]| | |]; cbn [serve]; [|by intros [= <- _]; left..].
  unfold decisionLog. destruct (_ || _); [by intros [= <- _]; left|].
  intros H. right. exists now_id, now, q. split; [done|].
  destruct (Append s (logged_record now_id now q)) as [s1 [e|]]; by injection H as <- _.
Qed.

(** The [k]-th newest record, after one more record was offered. *)
Lemma append_newest s l r k x :
  represents s l → reverse l !! k = Some x → (S k < Z.to_nat (max s))%nat →
  ∃ l' k', represents (fst (Append s r)) l' ∧ max (fst (Append s r)) = max s ∧ (k' <= S k)%nat ∧ reverse l' !! k' = Some x.
Proof.
  intros Hrep Hx Hk. destruct (represents_append s l r Hrep) as (_ & Hm & Hrep'). unfold spec_append in Hrep'.
  destruct (bool_decide (ID r ∈ ID <$> l)); cbn [fst] in Hrep'; [exists l, k; split_and!; [exact Hrep'|done|lia|done]|].
  eexists _, (S k). split_and!; [exact Hrep'|done|done|]. unfold last_n. rewrite <- take_reverse, reverse_snoc.
  by rewrite lookup_take_lt.
Qed.

Lemma serve_all_newest s l k x rs :
  represents s l → reverse l !! k = Some x → Z.of_nat k + count is_log rs < max s →
  ∃ l', represents (serve_all s rs) l' ∧ x ∈ l'.
Proof.
  revert s l k. induction rs as [|r rs IH]; intros s l k Hrep Hx Hc.
  { exists l. split; [done|]. apply elem_of_reverse. by eapply list_elem_of_lookup_2. }
  rewrite count_cons in Hc. change (serve_all s (r :: rs)) with (serve_all (fst (serve s r)) rs).
  pose proof (count_range is_log rs) as Hr.
  destruct (serve s r) as [s1 rep] eqn:E. cbn [fst]. apply serve_append in E as [->|(now_id & now & q & -> & ->)].
  - apply (IH s l k); [done|done|]. destruct (is_log r); lia.
  - cbn [is_log] in Hc. destruct (append_newest s l (logged_record now_id now q) k x Hrep Hx) as (l' & k' & H1 & H2 & H3 & H4); [lia|].
    apply (IH _ l' k'); [done|done|]. rewrite H2. lia.
Qed.

Lemma serve_all_represents rs :
  ∃ l, represents (serve_all audit_sink rs) l ∧ max (serve_all audit_sink rs) = 4096.
Proof.
  induction rs as [|r rs IH] using rev_ind; [exists []; split; [apply represents_new|done]|].
  unfold serve_all in *. rewrite foldl_app. cbn [foldl]. set (s := foldl _ audit_sink rs) in *. destruct IH as (l & Hl & Hm).
  destruct (serve s r) as [s1 rep] eqn:E. cbn [fst]. apply serve_append in E as [->|(i & n & q & _ & ->)]; [by exists l|].
  destruct (represents_append s l (logged_record i n q) Hl) as (_ & H2 & H3). eexists. split; [exact H3|]. by rewrite H2.
Qed.

Lemma logged_in s l now_id now q s' rec_ :
  represents s l → decisionLog s now_id now (Some q) = (s', (201, ALogged rec_)) →
  rec_ = logged_record now_id now q ∧ max s' = max s ∧ ∃ l', represents s' l' ∧ reverse l' !! O = Some rec_.
Proof.
  intros Hrep. unfold decisionLog. destruct (_ || _); [done|].
  destruct (Append s _) as [s1 [e|]] eqn:E; [done|]. intros [= <- <-].
  destruct (represents_append s l (logged_record now_id now q) Hrep) as (H1 & H2 & H3). rewrite E in H1, H2, H3.
  cbn [fst snd] in H1, H2, H3. split; [done|]. split; [done|]. unfold spec_append in H1, H3.
  destruct (bool_decide (ID _ ∈ ID <$> l)); [done|]. eexists. split; [exact H3|]. unfold last_n. cbn [fst]. rewrite <- take_reverse, reverse_snoc.
  pose proof (rep_max _ _ Hrep). rewrite lookup_take_lt by lia. done.
Qed.

(** ** Properties *)

(** A logged decision is served back, verified. After any requests, a decision
    answered 201 is what [GET /v1/decisions/log/{id}] answers with, as long as
    fewer than 4096 further ones are sent, and its tamper check passes; what it
    keeps of request and response are their SHA-256 hashes and lengths, and no
    text of theirs unless the caller opted in. *)
Theorem logged_decision_served before now_id now q s1 rec_ after
    (Hlog : decisionLog (serve_all audit_sink before) now_id now (Some q) = (s1, (201, ALogged rec_)))
    (Hfew : count is_log after < 4096) :
  decisionGet (serve_all s1 after) (ID rec_) = (200, AFound rec_ true) ∧
  RequestHash rec_ = sha256Hex (bytes_of (l_request q)) ∧ ResponseHash rec_ = sha256Hex (bytes_of (l_response q)) ∧
  (l_preview q = false → TracePreview rec_ = ""%string).
Proof.
  destruct (serve_all_represents before) as (l & Hl & Hm).
  destruct (logged_in _ l _ _ _ _ _ Hl Hlog) as (-> & Hmax & l1 & Hl1 & H0). rewrite Hm in Hmax.
  destruct (serve_all_newest s1 l1 0 _ after Hl1 H0 ltac:(lia)) as (l' & Hl' & Hin). split_and!; [|done|done|].
  - unfold decisionGet, Get. rewrite (represents_lookup _ l' _ Hl'), (spec_get_member l' _ (rep_nodup _ _ Hl') Hin).
    by rewrite built_verifies.
  - intros Hp. unfold logged_record, BuildRecord. rewrite Hp. done.
Qed.

Definition ex_log : logDecisionReq :=
  {| l_agent := "a"; l_model := "m"; l_version := "1"; l_request := "secret prompt"; l_response := "ok"; l_metadata := ∅;
     l_verdict := "approve"; l_risk := "low"; l_policy := "p"; l_parent := ""; l_preview := false |}.
Definition ex_logged : Record_ := logged_record 7 8 ex_log.

Lemma logged_decision_served_witness :
  count is_log [ALog 9 9 (Some ex_log); AGet "dec-7"] = 1 ∧
  decisionGet (serve_all (fst (decisionLog audit_sink 7 8 (Some ex_log))) [ALog 9 9 (Some ex_log); AGet "dec-7"]) "dec-7"
    = (200, AFound ex_logged true).
Proof.
  split; [vm_compute; reflexivity|].
  exact (proj1 (logged_decision_served [] 7 8 ex_log (fst (decisionLog audit_sink 7 8 (Some ex_log))) ex_logged
    [ALog 9 9 (Some ex_log); AGet "dec-7"] eq_refl eq_refl)).
Defined.

(** Two decisions of one nanosecond have one identifier. *)
Example same_instant_refused :
  fst (snd (decisionLog (fst (decisionLog audit_sink 7 7 (Some ex_log))) 7 8 (Some ex_log))) = 500.
Proof. vm_compute. reflexivity. Qed.

(** With the opt-in up to 128 runes of the raw request are kept. *)
Example preview_keeps_text :
  TracePreview (BuildRecord 0 "x" "a" "m" "1" (bytes_of "secret prompt") [] ∅ "approve" "" "" "" true) = "secret prompt"%string.
Proof. reflexivity. Qed.
