(* ===== verification/ReceiptExport.v ===== *)
(** * Exports of receipts ([engine/internal/receipts]: [w3c_vc.go], [otel_jsonl.go])

    The W3C verifiable credential of a receipt, and the line that the JSONL sink
    appends for it. The members of a Go map are written in the order of their
    keys; a time outside the years 0 to 9999 does not marshal. Whether the
    operating system takes a write is an argument. *)

From S2P Require Import Prelude GoLib Sha256 Json JsonFacts Attest Pool Hitl Receipts.

Local Open Scope Z_scope.

(** ** JSON forms ([types.go]) *)

Definition json_time_ok (t : time) : bool := (0 <=? time_year t) && (time_year t <=? 9999).

Definition facet_output_json (f : FacetOutput) : json :=
  JObj ([("kind", JStr (OKind f)); ("verdict", JStr (OVerdict f)); ("confidence", JNum (OConfidence f))]%string
        ++ omit_empty "reason" (OReason f)).

Definition provider_json (p : ProviderReceipt) : json :=
  JObj [("provider", JStr (PRProvider p)); ("trust_level", JStr (PRTrustLevel p)); ("receipt_hash", JStr (ReceiptHash p))]%string.

Definition hitl_json (h : HITLResolution) : json :=
  JObj ([("ticket_id", JStr (HTicketID h)); ("action", JStr (HAction h))]%string ++ omit_empty "reviewer" (HReviewer h)
        ++ [("resolved_at"%string, JStr (format_rfc3339_nano (HResolvedAt h)))] ++ omit_empty "note" (HNote h)).

(** ** The verifiable credential ([w3c_vc.go]) *)

Record W3CProof := {
  WType : string; Cryptosuite : string; Created : time; WVerificationMethod : string; ProofPurpose : string; ProofValue : string;
}.

Record W3CCredential := {
  Context : list string; WID : string; WTypes : list string; WIssuer : string; ValidFrom : time; CredentialSubject : string;
  WProof : W3CProof;
}.

Inductive ExportError := ErrW3CUnsigned | ErrMarshal.

Definition canonicalHashUnsigned (r : DecisionReceipt) : string := CanonicalHash (with_proof r None).

Definition subject_json (r : DecisionReceipt) : json :=
  JObj ([("cp:aggregate", JStr (RAggregate r)); ("cp:canonical_hash", JStr (canonicalHashUnsigned r));
         ("cp:confidence", JNum (RConfidence r)); ("cp:evidence_root", JStr (EvidenceRoot r));
         ("cp:facets", JArr (facet_output_json <$> Facets r))]%string
        ++ match HITL r with Some h => [("cp:hitl_resolution"%string, hitl_json h)] | None => [] end
        ++ [("cp:model_id"%string, JStr (ModelID r))]
        ++ match ProviderReceipts r with [] => [] | ps => [("cp:provider_receipts"%string, JArr (provider_json <$> ps))] end
        ++ [("cp:receipt_version", JStr "1.0"); ("cp:spec_id", JStr (RSpecID r))]%string
        ++ omit_empty "cp:vetoed_by" (RVetoedBy r)
        ++ [("id"%string, JStr (Subject r))]).

Definition marshal_subject (r : DecisionReceipt) : option string :=
  if match HITL r with Some h => json_time_ok (HResolvedAt h) | None => true end then marshal (subject_json r) else None.

Definition ToW3CVC (r : DecisionReceipt) : result ExportError W3CCredential :=
  match RProof r with
  | None => Err ErrW3CUnsigned
  | Some p =>
      match marshal_subject r with
      | None => Err ErrMarshal
      | Some subj =>
          Ok {| Context := ["https://www.w3.org/ns/credentials/v2"; "https://casperprover.io/context/cp-receipt-v1"];
                WID := "urn:uuid:" +:+ RID r; WTypes := ["VerifiableCredential"; "CasperProverDecisionReceipt"];
                WIssuer := Issuer r; ValidFrom := IssuedAt r; CredentialSubject := subj;
                WProof := {| WType := "CasperProverProof2026"; Cryptosuite := Scheme p; Created := SignedAt p;
                             WVerificationMethod := VerificationMethod p; ProofPurpose := "assertionMethod";
                             ProofValue := Signature p |} |}
      end
  end.

(** ** The JSONL sink ([otel_jsonl.go]) *)

Definition spanAttrs (r : DecisionReceipt) : json :=
  JObj ([("cp.confidence", JNum (RConfidence r)); ("cp.evidence_root", JStr (EvidenceRoot r));
         ("cp.facet_count", JInt (Z.of_nat (length (Facets r)))); ("cp.hitl", JBool (bool_decide (is_Some (HITL r))))]%string
        ++ match HITL r with
           | Some h => [("cp.hitl_action"%string, JStr (HAction h))] ++ omit_empty "cp.hitl_reviewer" (HReviewer h)
                       ++ [("cp.hitl_ticket"%string, JStr (HTicketID h))]
           | None => []
           end
        ++ [("cp.issued_at", JStr (format_rfc3339_nano (IssuedAt r))); ("cp.issuer", JStr (Issuer r)); ("cp.model_id", JStr (ModelID r));
            ("cp.provider_count", JInt (Z.of_nat (length (ProviderReceipts r)))); ("cp.receipt_hash", JStr (canonicalHashUnsigned r));
            ("cp.receipt_id", JStr (RID r)); ("cp.spec_id", JStr (RSpecID r)); ("cp.subject", JStr (Subject r));
            ("cp.verdict", JStr (RAggregate r))]%string
        ++ omit_empty "cp.vetoed_by" (RVetoedBy r)
        ++ [("trace.name"%string, JStr "cp.decision")]).

Definition line_end : string := String (chr 10) EmptyString.

(** The file that the sink appends to; [None] once it is closed. *)
Definition JSONLSink : Type := option string.

(** [NewJSONLSink]; [opened] is the file as the system opens it. *)
Definition NewJSONLSink (path : string) (mkdir_ok : bool) (opened : option string) : result string JSONLSink :=
  if bool_decide (path = ""%string) then Err "receipts: JSONLSink requires non-empty path"%string
  else if negb mkdir_ok then Err "receipts: JSONLSink mkdir"%string
  else match opened with None => Err "receipts: JSONLSink open"%string | Some file => Ok (Some file) end.

(** [written] is how much of the line a failing write has put into the file,
    [None] a write that succeeds. Writing to a closed sink is a nil call: [None]. *)
Definition RecordReceipt (s : JSONLSink) (written : option nat) (r : DecisionReceipt) : option (JSONLSink * option string) :=
  match marshal (spanAttrs r) with
  | None => Some (s, Some "json"%string)
  | Some line =>
      file ← s;
      let text := (line +:+ line_end)%string in
      match written with
      | None => Some (Some (file +:+ text)%string, None)
      | Some n => Some (Some (file +:+ String.substring 0 n text)%string, Some "receipts: JSONLSink write"%string)
      end
  end.

Definition Close (s : JSONLSink) : JSONLSink := None.

(** The receipts recorded, one after the other, by writes that succeed. *)
Fixpoint record_all (s : JSONLSink) (rs : list DecisionReceipt) : option JSONLSink :=
  match rs with
  | [] => Some s
  | r :: rs => match RecordReceipt s None r with Some (s, _) => record_all s rs | None => None end
  end.

(** The lines of a file. *)
Definition lines (file : string) : list string := split_on (chr 10) file.

(** ** One line for a value *)

Lemma string_forall_app f a b : string_forall f (a +:+ b)%string = string_forall f a && string_forall f b.
Proof. induction a as [|c a IH]; [done|]. cbn [string_forall]. rewrite <- andb_assoc, <- IH. done. Qed.

Definition one_line (s : string) : bool := no_char (chr 10) s.

Lemma one_line_app a b : one_line (a +:+ b)%string = one_line a && one_line b.
Proof. apply string_forall_app. Qed.

Lemma one_line_concat l : forallb one_line l = true → one_line (string_concat l) = true.
Proof.
  induction l as [|s l IH]; [done|]. cbn [forallb string_concat]. intros [H1 H2]%andb_prop. by rewrite one_line_app, H1, IH.
Qed.

Lemma one_line_join l : forallb one_line l = true → one_line (string_join "," l) = true.
Proof.
  induction l as [|s l IH]; [done|]. cbn [forallb]. intros [H1 H2]%andb_prop. destruct l as [|t l]; [done|].
  change (string_join "," (s :: t :: l)) with (s +:+ "," +:+ string_join "," (t :: l))%string.
  by rewrite !one_line_app, H1, IH.
Qed.

Lemma one_line_brackets o c l : one_line o = true → one_line c = true → forallb one_line l = true → one_line (brackets o c l) = true.
Proof. intros Ho Hc Hl. unfold brackets. by rewrite !one_line_app, Ho, Hc, one_line_join. Qed.

Lemma one_line_char c s : Ascii.N_of_ascii c ≠ 10%N → one_line s = true → one_line (String c s) = true.
Proof.
  intros Hc Hs. unfold one_line, no_char in *. cbn [string_forall]. rewrite Hs, andb_true_r.
  apply negb_true_iff, bool_decide_eq_false. intros ->. by apply Hc.
Qed.

Lemma ascii_in_above a b c : ascii_in a b c = true → (10 < a)%N → Ascii.N_of_ascii c ≠ 10%N.
Proof. unfold ascii_in. intros [H _]%andb_prop Ha. apply N.leb_le in H. lia. Qed.

Lemma second_above c d : second_ok c d = true → Ascii.N_of_ascii d ≠ 10%N.
Proof. unfold second_ok. repeat case_match; intros Hd; by eapply ascii_in_above. Qed.

Lemma codes_one_line : all_ascii (λ c, one_line (json_ascii c)) = true.
Proof. vm_compute. reflexivity. Qed.

Lemma enc_one_line e : wf_enc e = true → one_line (json_rune (ValidRune e)) = true.
Proof.
  intros H. destruct e as [|c [|d e]]; [done|exact (all_ascii_spec _ _ codes_one_line H)|].
  assert (one_line (String c (String d e)) = true) as Hraw.
  { destruct e as [|x [|y [|]]]; cbn [wf_enc] in H; try done.
    - apply andb_prop in H as [H1 H2]. do 2 (apply one_line_char; [by eapply ascii_in_above|]). done.
    - apply andb_prop in H as [[H1 H2]%andb_prop H3]. apply one_line_char; [by eapply ascii_in_above|].
      apply one_line_char; [by eapply second_above|]. apply one_line_char; [by eapply ascii_in_above|done].
    - apply andb_prop in H as [[[H1 H2]%andb_prop H3]%andb_prop H4]. apply one_line_char; [by eapply ascii_in_above|].
      apply one_line_char; [by eapply second_above|]. do 2 (apply one_line_char; [by eapply ascii_in_above|]). done. }
  change (json_rune (ValidRune (String c (String d e)))) with
    (if bool_decide (String c (String d e) = line_separator) then "\u2028"
     else if bool_decide (String c (String d e) = paragraph_separator) then "\u2029" else String c (String d e))%string.
  by repeat case_bool_decide.
Qed.

Lemma json_string_one_line s : one_line (json_string s) = true.
Proof.
  unfold json_string. cbv zeta. rewrite !one_line_app, one_line_concat; [done|].
  apply forallb_forall. intros x (r & <- & Hr)%in_map_iff. pose proof (utf8_fixed s) as Hf. rewrite forallb_forall in Hf.
  specialize (Hf (fix_rune r) (in_map fix_rune _ _ Hr)). destruct r as [e|]; [|done]. by apply enc_one_line.
Qed.

Lemma atom_one_line a : atom_ok a = true → one_line a = true.
Proof.
  unfold atom_ok. intros [_ H]%andb_prop. induction a as [|c a IH]; [done|]. cbn [string_forall] in H.
  apply andb_prop in H as [Hc H]. apply one_line_char; [|by apply IH]. unfold atom_char in Hc. bool_to_prop.
  intros E. apply Hc. rewrite E. left.
Qed.

(** [json.Marshal] writes one line. *)
Lemma marshal_one_line v s : marshal v = Some s → one_line s = true.
Proof.
  revert s. induction v as [|b|z|x|t|l IH|m IH] using json_ind'; intros s; cbn [marshal].
  - by intros [= <-].
  - intros [= <-]. by destruct b.
  - intros [= <-]. by apply no_char_itoa.
  - intros H. by eapply atom_one_line, json_float_atom.
  - intros [= <-]. apply json_string_one_line.
  - destruct (mapM marshal l) as [k|] eqn:E; [|done]. intros [= <-]. apply one_line_brackets; [done|done|].
    eapply (mapM_forallb marshal (λ _, true) one_line); [|by apply forallb_forall|exact E].
    eapply Forall_impl; [exact IH|]. cbn. eauto.
  - destruct (mapM _ m) as [k|] eqn:E; [|done]. intros [= <-]. apply one_line_brackets; [done|done|].
    assert (forallb (λ kt : string * string, one_line (snd kt)) k = true) as Hk.
    { apply (mapM_forallb (λ kv : string * json, match kv with (k, v) => pair k <$> marshal v end) (λ _, true) _ m k);
        [|by apply forallb_forall|exact E]. eapply Forall_impl; [exact IH|].
      intros [k' v] Hv kt _. cbn in *. destruct (marshal v) as [t|]; [|done]. intros [= <-]. by apply Hv. }
    clear -Hk. induction k as [|[k' t] k IH]; [done|]. cbn [forallb snd] in Hk. apply andb_prop in Hk as [H1 H2].
    cbn [fmap list_fmap forallb]. apply andb_true_intro. split; [|by apply IH]. unfold member. cbn [fst snd].
    by rewrite !one_line_app, json_string_one_line, H1.
Qed.

(** ** Reading the file back *)

(** What one receipt adds to the file: a line, or nothing when it does not marshal. *)
Definition line_of (r : DecisionReceipt) : option string := marshal (spanAttrs r).

Definition text_of (r : DecisionReceipt) : string := match line_of r with Some l => (l +:+ line_end)%string | None => ""%string end.

Lemma record_all_text file rs :
  record_all (Some file) rs = Some (Some (file +:+ string_concat (text_of <$> rs))%string).
Proof.
  revert file. induction rs as [|r rs IH]; intros file; cbn [record_all].
  { by rewrite str_app_nil. }
  unfold RecordReceipt. rewrite fmap_cons. cbn [string_concat]. unfold text_of at 1. unfold line_of.
  destruct (marshal (spanAttrs r)) as [l|]; cbn [mbind option_bind]; rewrite IH; [|done]. cbv zeta. by rewrite <- !str_app_assoc.
Qed.

Lemma lines_concat rs : lines (string_concat (text_of <$> rs)) = omap line_of rs ++ [""%string].
Proof.
  induction rs as [|r rs IH]; [done|]. rewrite fmap_cons. cbn [string_concat omap list_omap]. unfold text_of at 1.
  destruct (line_of r) as [l|] eqn:E; [|exact IH]. rewrite <- str_app_assoc. unfold lines, line_end.
  change ((String (chr 10) EmptyString +:+ ?s)%string) with (String (chr 10) s).
  rewrite split_on_app by exact (marshal_one_line (spanAttrs r) l E). cbn [app]. f_equal. exact IH.
Qed.

(** ** What a credential binds *)

Definition subject_field (k : string) (r : DecisionReceipt) : option tree :=
  match subject_json r with JObj m => assoc k m ≫= tree_of | _ => None end.

Lemma subject_hash r : subject_field "cp:canonical_hash" r = Some (TStr (canonicalHashUnsigned r)).
Proof. reflexivity. Qed.

Lemma marshal_subject_json r s : marshal_subject r = Some s → marshal (subject_json r) = Some s.
Proof. unfold marshal_subject. by case_match. Qed.

(** ** Properties *)

(** The JSONL file reads back as one JSON text per receipt. After any receipts were
    recorded into a new file, splitting it at its line feeds gives exactly the
    texts of the receipts that marshal, in order, and the empty rest: no text
    contains a line feed, whatever the strings of the receipts are. *)
Theorem jsonl_reads_back rs :
  ∃ file, record_all (Some ""%string) rs = Some (Some file) ∧ lines file = omap line_of rs ++ [""%string] ∧
    Forall (λ l, no_char (chr 10) l = true) (omap line_of rs).
Proof.
  exists (string_concat (text_of <$> rs)). split; [apply record_all_text|]. split; [apply lines_concat|].
  apply Forall_forall. intros l (r & _ & Hr)%list_elem_of_omap. exact (marshal_one_line (spanAttrs r) l Hr).
Qed.

(** A credential is one receipt's. Two signed receipts exported as the same
    credential have the same identifier, issuer, time and proof, and the same
    canonical hash, so that the proof in the credential signs both; short ones
    agree in their whole content, or exhibit a SHA-256 collision. *)
Theorem credential_binds r r' c
    (Hv : valid_strings (subject_json r) = true) (Hv' : valid_strings (subject_json r') = true)
    (Hc : ToW3CVC r = Ok c) (Hc' : ToW3CVC r' = Ok c) :
  RID r = RID r' ∧ Issuer r = Issuer r' ∧ IssuedAt r = IssuedAt r' ∧ RProof r = RProof r' ∧
  canonicalHashUnsigned r = canonicalHashUnsigned r' ∧
  (receipt_short (with_proof r None) → receipt_short (with_proof r' None) →
     same_content (with_proof r None) (with_proof r' None)
     ∨ is_collision (canonical_bytes (with_proof r None), canonical_bytes (with_proof r' None))).
Proof.
  unfold ToW3CVC in Hc, Hc'. destruct (RProof r) as [p|] eqn:Ep; [|done]. destruct (RProof r') as [p'|] eqn:Ep'; [|done].
  destruct (marshal_subject r) as [s|] eqn:Es; [|done]. destruct (marshal_subject r') as [s'|] eqn:Es'; [|done].
  apply ok_inj in Hc as <-. apply ok_inj in Hc'. injection Hc' as Hid Hi Ht Hs H1 H2 H3 H4. apply marshal_subject_json in Es, Es'. subst s'.
  assert (canonicalHashUnsigned r = canonicalHashUnsigned r') as Hh.
  { destruct (marshal_inj _ _ _ Hv Hv' Es Es') as (t & T1 & T2).
    pose proof (tree_of_member _ _ t "cp:canonical_hash" T1 T2) as E.
    change (subject_field "cp:canonical_hash" r = subject_field "cp:canonical_hash" r') in E. rewrite !subject_hash in E.
    congruence. }
  assert (p = p') as -> by (destruct p, p'; cbn in H1, H2, H3, H4; congruence).
  split; [exact (eq_sym Hid)|]. split; [exact (eq_sym Hi)|]. split; [exact (eq_sym Ht)|]. split; [reflexivity|]. split; [exact Hh|].
  intros Hshort Hshort'. unfold canonicalHashUnsigned, CanonicalHash in Hh. apply hex_encode_inj in Hh.
  destruct (decide (canonical_bytes (with_proof r None) = canonical_bytes (with_proof r' None))) as [E|E]; [left|by right].
  by apply canonical_bytes_inj.
Qed.

(** ** Witness *)

Definition ex_signed : DecisionReceipt :=
  with_proof (ex_receipt "r" []) (Some {| Scheme := "s"; Signature := "AA=="; VerificationMethod := "did:cp:k#k"; SignedAt := 7 |}).
Definition ex_credential : W3CCredential :=
  match ToW3CVC ex_signed with
  | Ok c => c
  | Err _ => {| Context := []; WID := ""; WTypes := []; WIssuer := ""; ValidFrom := 0; CredentialSubject := "";
                WProof := {| WType := ""; Cryptosuite := ""; Created := 0; WVerificationMethod := ""; ProofPurpose := ""; ProofValue := "" |} |}
  end.

Lemma credential_binds_witness :
  WID ex_credential = "urn:uuid:r"%string ∧ RProof ex_signed = RProof ex_signed ∧ RID ex_signed = "r"%string.
Proof.
  split; [vm_compute; reflexivity|].
  destruct (credential_binds ex_signed ex_signed ex_credential) as (H1 & _ & _ & H2 & _);
    [vm_compute; reflexivity|vm_compute; reflexivity|vm_compute; reflexivity|vm_compute; reflexivity|].
  split; [exact H2|reflexivity].
Defined.

(** An unsigned receipt has no credential. *)
Example unsigned_refused : ToW3CVC (ex_receipt "r" []) = Err ErrW3CUnsigned.
Proof. reflexivity. Qed.

(** A write that breaks off leaves its part, and the next line continues it. *)
Example torn_line_joins :
  let after_torn := match RecordReceipt (Some ""%string) (Some 5%nat) ex_signed with Some (s, _) => s | None => None end in
  (λ s : JSONLSink * option string, length (lines (default ""%string (fst s)))) <$> RecordReceipt after_torn None ex_signed = Some 2%nat.
Proof. vm_compute. reflexivity. Qed.
