(* ===== verification/ReceiptApi.v ===== *)
(** * The receipt handlers ([engine/internal/api/receipts_handlers.go])

    Emission, reading, lineage and the exported forms, over the receipt service
    ([Receipts], [ReceiptExport]); [None] as the server is a disabled service, and
    as a request a body that does not decode. The clock, the sixteen random bytes
    of an identifier and the outcome of the telemetry sink are arguments. *)

From S2P Require Import Prelude GoLib Sha256 Attest Pool Hitl Pq Keyring Keystore Receipts ReceiptExport AuditApi.

Local Open Scope Z_scope.

(** ** Requests and answers *)

Record facetWire := { fw_kind : string; fw_verdict : string; fw_confidence : float64; fw_reason : string }.

Record receiptsCommitWire := {
  cw_submitter : string; cw_spec_id : string; cw_payload_hex : string; cw_nonce : Z; cw_aggregate : string;
  cw_vetoed_by : string; cw_abstain_reason : string; cw_facets : list facetWire;
}.

Record hitlWire := { hw_action : string; hw_reason : string; hw_ticket_id : string; hw_reviewer : string }.

Record receiptsEmitRequest := {
  er_commit : receiptsCommitWire; er_evidence_root : string; er_model_id : string; er_providers : list ProviderReceipt;
  er_hitl : option hitlWire;
}.

Inductive CommitError := BadPayload | UnknownVerdict (s : string).

Inductive ReceiptBody :=
| RMessage (msg : string)
| RCommit (e : CommitError)
| RFailed (e : ReceiptError)
| RExport (e : ExportError)
| RReceipt (r : DecisionReceipt) (warning : bool)
| RLineage (root : DecisionReceipt) (ancestors : list DecisionReceipt) (depth : Z)
| RCredential (c : W3CCredential)
| RAgent (a : AgentReceipt).

Definition reply : Type := Z * ReceiptBody.

(** ** The commit of a request *)

Definition parseVerdict (s : string) : result CommitError Verdict :=
  if bool_decide (s = "APPROVE"%string) then Ok VerdictApprove
  else if bool_decide (s = "ABSTAIN"%string) then Ok VerdictAbstain
  else if bool_decide (s = "REJECT"%string) then Ok VerdictReject
  else Err (UnknownVerdict s).

Definition facet_from_wire (f : facetWire) : result CommitError FacetVerdict :=
  let! v := parseVerdict (fw_verdict f) in
  Ok {| Kind := fw_kind f; FVerdict := v; Confidence := fw_confidence f; Reason := fw_reason f |}.

Definition commitFromWire (c : receiptsCommitWire) : result CommitError DecisionCommit :=
  match hex_decode (cw_payload_hex c) with
  | None => Err BadPayload
  | Some payload =>
      let! verdict := parseVerdict (cw_aggregate c) in
      let dec := {| Submitter := cw_submitter c; SpecID := cw_spec_id c; Payload := payload; Nonce := cw_nonce c;
                    SubmittedAt := time_zero |} in
      let! fvs := try_map facet_from_wire (cw_facets c) in
      Ok {| CDecision := dec; DecisionID := Attest.ID dec; FacetVerdicts := fvs; CAggregate := verdict;
            VetoedBy := cw_vetoed_by c; AbstainReason := cw_abstain_reason c |}
  end.

Definition emit_input (q : receiptsEmitRequest) (commit : DecisionCommit) : EmitInput :=
  {| Commit := commit; InEvidenceRoot := er_evidence_root q; InModelID := er_model_id q; InProviders := er_providers q;
     InHITL := (λ h, {| IAction := hw_action h; IReason := hw_reason h; ITicketID := hw_ticket_id h |}) <$> er_hitl q;
     Reviewer := match er_hitl q with Some h => hw_reviewer h | None => "" end |}.

(** ** Handlers *)

Section handlers.
Context {K : Type} `{!Keystore K}.

Record ReceiptServer := { receipts : option (Service (K := K) * InMemoryStore) }.

Implicit Types (s : ReceiptServer).

Definition with_store (svc : Service (K := K)) (st : InMemoryStore) : ReceiptServer := {| receipts := Some (svc, st) |}.

(** An error of [Emit] leaves the receipt's identifier empty unless the sink failed. *)
Definition receiptsEmit s (now : time) (rnd : bytes) (sink_ok : bool) (req : option receiptsEmitRequest)
    : ReceiptServer * reply :=
  match receipts s with
  | None => (s, (503, RMessage "receipts service disabled (set CP_RECEIPTS_ENABLE=1)"))
  | Some (svc, st) =>
      match req with
      | None => (s, (400, RMessage "invalid json body"))
      | Some q =>
          match commitFromWire (er_commit q) with
          | Err e => (s, (400, RCommit e))
          | Ok commit =>
              match Emit svc st now (defaultNewID rnd) sink_ok (emit_input q commit) with
              | (st', Err e) => (with_store svc st', (500, RFailed e))
              | (st', Ok (r, true)) => (with_store svc st', (200, RReceipt r true))
              | (st', Ok (r, false)) => (with_store svc st', (201, RReceipt r false))
              end
          end
      end
  end.

(** [loadReceipt]: the refusal, or the store and the receipt. *)
Definition loadReceipt s (id : string) : reply + InMemoryStore * DecisionReceipt :=
  match receipts s with
  | None => inl (503, RMessage "receipts service disabled")
  | Some (_, st) =>
      match GetByID st id with
      | Ok r => inr (st, r)
      | Err ErrReceiptNotFound => inl (404, RMessage "receipt not found")
      | Err e => inl (500, RFailed e)
      end
  end.

Definition receiptsGet s (id : string) : reply :=
  match loadReceipt s id with inl e => e | inr (_, r) => (200, RReceipt r false) end.

Definition lineage_depth (max_depth : string) : Z :=
  let depth := positive_or max_depth 8 in if 32 <? depth then 32 else depth.

(** [None] would be a walk that does not end. *)
Definition receiptsLineage s (id max_depth : string) : option reply :=
  match loadReceipt s id with
  | inl e => Some e
  | inr (st, root) =>
      let depth := lineage_depth max_depth in
      (λ res, match res with
              | Err e => (500, RFailed e)
              | Ok ancs => (200, RLineage root ancs depth)
              end) <$> Ancestors st id depth
  end.

Definition receiptsW3CVC s (id : string) : reply :=
  match loadReceipt s id with
  | inl e => e
  | inr (_, r) => match ToW3CVC r with Err e => (500, RExport e) | Ok c => (200, RCredential c) end
  end.

Definition receiptsAgentReceipt s (id : string) : reply :=
  match loadReceipt s id with
  | inl e => e
  | inr (_, r) => match ToAgentReceipt r with Err e => (500, RFailed e) | Ok a => (200, RAgent a) end
  end.

(** Several emissions, one after the other. *)
Definition emission : Type := time * bytes * bool * option receiptsEmitRequest.

Definition emit_all s (es : list emission) : ReceiptServer :=
  foldl (λ s e, match e with (now, rnd, ok, req) => fst (receiptsEmit s now rnd ok req) end) s es.

(** ** Lemmas *)

Lemma parseVerdict_known t v : parseVerdict t = Ok v → v ≠ VerdictUnknown ∧ FromDecision v = t.
Proof. unfold parseVerdict. repeat case_bool_decide; subst; intros Hv; try done; by apply ok_inj in Hv as <-. Qed.

Lemma commitFromWire_ok c commit :
  commitFromWire c = Ok commit →
  DecisionID commit ≠ ""%string ∧ DecisionID commit = Attest.ID (CDecision commit) ∧ CAggregate commit ≠ VerdictUnknown ∧
  FromDecision (CAggregate commit) = cw_aggregate c ∧ Kind <$> FacetVerdicts commit = fw_kind <$> cw_facets c.
Proof.
  unfold commitFromWire. destruct (hex_decode _) as [payload|]; [|done].
  intros (v & Hv & (fvs & Hf & E)%result_bind_ok)%result_bind_ok. apply ok_inj in E as <-.
  apply parseVerdict_known in Hv as [H1 H2]. cbn [DecisionID CDecision CAggregate FacetVerdicts]. split_and!; [|done|done|done|].
  - apply hex_encode_nonempty. intros E. apply (f_equal length) in E. by rewrite length_sha256 in E.
  - apply try_map_ok in Hf. clear -Hf. induction Hf as [|f fv l k Hfv _ IH]; [done|]. rewrite !fmap_cons, IH. f_equal.
    unfold facet_from_wire in Hfv. apply result_bind_ok in Hfv as (v & _ & E). by apply ok_inj in E as <-.
Qed.

Lemma defaultNewID_nonempty b : defaultNewID b ≠ ""%string.
Proof. unfold defaultNewID. cbv zeta. by destruct (hex_encode (take 4 (drop 0 _))). Qed.

(** An emission under another identifier leaves a receipt where it is. *)
Lemma emit_other (svc : Service (K := K)) st now id ok input st' res id' :
  Emit svc st now id ok input = (st', res) → id' ≠ id → GetByID st' id' = GetByID st id'.
Proof.
  unfold Emit. case_bool_decide; [by intros [= <- _]|]. case_bool_decide; [by intros [= <- _]|].
  destruct (ks_ActiveKeyID _ _) as [k|]; [|by intros [= <- _]]. cbv zeta.
  destruct (ks_Sign _ _ _) as [[sig keyID]|e]; [|by intros [= <- _]]. unfold Put.
  set (r := with_proof _ _). change (RID r) with id.
  case_bool_decide; [by intros [= <- _]|]. intros [= <- _] Hne. unfold GetByID. cbn [byID]. by rewrite lookup_insert_ne.
Qed.

Lemma emit_all_keeps svc st es id r :
  GetByID st id = Ok r → Forall (λ e : emission, match e with (_, rnd, _, _) => defaultNewID rnd ≠ id end) es →
  ∃ st', emit_all (with_store svc st) es = with_store svc st' ∧ GetByID st' id = Ok r.
Proof.
  intros Hr Hes. revert st Hr. induction Hes as [|[[[now rnd] ok] req] es He _ IH]; intros st Hr; [by exists st|].
  change (emit_all (with_store svc st) ((now, rnd, ok, req) :: es)) with
    (emit_all (fst (receiptsEmit (with_store svc st) now rnd ok req)) es).
  unfold receiptsEmit. cbn [receipts with_store]. destruct req as [q|]; [|by apply IH].
  destruct (commitFromWire (er_commit q)) as [commit|e]; [|by apply IH].
  destruct (Emit svc st now (defaultNewID rnd) ok (emit_input q commit)) as [st1 res] eqn:E.
  pose proof (emit_other _ _ _ _ _ _ _ _ id E ltac:(congruence)) as Ho. rewrite Hr in Ho.
  destruct res as [[r1 []]|e]; by apply IH.
Qed.

(** A lineage is always answered. *)
Lemma lineage_answered s id max_depth : is_Some (receiptsLineage s id max_depth).
Proof.
  unfold receiptsLineage. destruct (loadReceipt s id) as [e|[st root]]; [done|].
  pose proof (ancestors_total st id (lineage_depth max_depth)) as H. destruct (Ancestors _ _ _); [|done].
  cbn. eauto.
Qed.

Lemma lineage_depth_range max_depth : 1 <= lineage_depth max_depth <= 32.
Proof.
  unfold lineage_depth, positive_or. cbv zeta. repeat case_match; repeat match goal with
    | H : (_ <? _) = true |- _ => apply Z.ltb_lt in H | H : (_ <? _) = false |- _ => apply Z.ltb_ge in H end; lia.
Qed.
End handlers.

(** ** Properties *)

Section properties.
Context {K : Type} `{!Keystore K, !KeystoreLaws K}.

End properties.

(** ** Witness *)

Section sample.
#[local] Existing Instance toy_primitives.
#[local] Existing Instance toy_laws.

Definition ex_request : receiptsEmitRequest :=
  {| er_commit := {| cw_submitter := "s"; cw_spec_id := "spec"; cw_payload_hex := "01"; cw_nonce := 1; cw_aggregate := "REJECT";
                     cw_vetoed_by := "safety"; cw_abstain_reason := "";
                     cw_facets := [{| fw_kind := "safety"; fw_verdict := "REJECT"; fw_confidence := f_one; fw_reason := "r" |}] |};
     er_evidence_root := ""; er_model_id := ""; er_providers := []; er_hitl := None |}.
Definition ex_commit_of : DecisionCommit := the_ok (ex_commit [] VerdictUnknown) (commitFromWire (er_commit ex_request)).
Definition ex_rnd : bytes := replicate 16 Byte.x05.


(** The review of a receipt is what the request says it is: no ticket is asked
    for, and the action may be any text. *)
Example review_unchecked :
  let q := {| er_commit := er_commit ex_request; er_evidence_root := ""; er_model_id := ""; er_providers := [];
              er_hitl := Some {| hw_action := "approved by the board"; hw_reason := ""; hw_ticket_id := "none"; hw_reviewer := "x" |} |} in
  match snd (receiptsEmit (with_store ex_service NewInMemoryStore) 5 ex_rnd true (Some q)) with
  | (201, RReceipt r _) => HAction <$> HITL r = Some "approved by the board"%string
  | _ => False
  end.
Proof. vm_compute. reflexivity. Qed.
End sample.
