(* ===== verification/DecisionApi.v ===== *)
(** * The decision and ticket handlers ([engine/internal/api/decision_handlers.go])

    The pipeline that the environment switches on: the provider pool of
    [initDecisionPipeline], evaluation of a decision, and the tickets of the
    escalation service, on the in-memory ticket store. The remote evaluator is the
    parameter [fetch] of [Pool]; the clock, the drawn ticket identifier and the
    order of arrival of the providers are arguments. [None] as the pipeline is a
    disabled one, and as a request a body that does not decode. *)

From S2P Require Import Prelude GoLib Sha256 Attest Pool Hitl.

Local Open Scope Z_scope.

(** ** Requests and answers *)

Record decisionEvaluateRequest := {
  dq_submitter : string; dq_spec_id : string; dq_payload_hex : string; dq_nonce : Z; dq_facets : list string;
}.

Record facetVerdictWire := { v_kind : string; v_verdict : string; v_confidence : float64; v_reason : string }.

Record decisionEvaluateResponse := {
  dr_decision_id : string; dr_commit_digest : string; dr_aggregate : string; dr_vetoed_by : string; dr_abstain_reason : string;
  dr_facets : list facetVerdictWire; dr_providers : list string; dr_errors : gmap string string; dr_hitl : Response;
}.

Inductive DecisionBody :=
| DMessage (msg : string)
| DRouter (e : PoolError)
| DAggregate (e : AttestError)
| DHitl (e : HitlError)
| DEvaluated (r : decisionEvaluateResponse)
| DPool (count : Z) (providers : list string)
| DTickets (l : list Ticket)
| DTicket (t : Ticket).

Definition reply : Type := Z * DecisionBody.
Definition refuse (code : Z) (msg : string) : reply := (code, DMessage msg).

(** ** The pipeline *)

Record Pipeline := { d_pool : list pooled; d_tickets : InMemoryTicketStore }.

Definition with_tickets (p : Pipeline) (s : InMemoryTicketStore) : Pipeline := {| d_pool := d_pool p; d_tickets := s |}.

Definition NewHTTPProviderAdapterFromEnv (getenv : string → string) : HTTPProviderAdapter :=
  NewHTTPProviderAdapter (trim_space (getenv "CP_DECISION_PROVIDER_NAME"%string))
    (trim_space (getenv "CP_DECISION_PROVIDER_URL"%string)) None [].

Section pipeline.
Context (fetch : string → Decision → option (list evaluateResponseFacet)).

Definition system_adapter (getenv : string → string) : HTTPProviderAdapter :=
  let adapter := NewHTTPProviderAdapterFromEnv getenv in
  if Configured adapter
  then NewHTTPProviderAdapter "cp-decision-system" (getenv "CP_DECISION_PROVIDER_URL"%string)
         (Some (fixture_provider (NewNamedFixtureProvider "cp-decision-system-fallback"))) []
  else adapter.

(** A refused registration is dropped. *)
Definition initDecisionPipeline (getenv : string → string) : Pipeline :=
  let entry := {| PProvider := Some (http_provider fetch (system_adapter getenv)); Trust := TrustSystem;
                  Capabilities := ["safety"; "correctness"; "spec_compliance"; "equivocation"] |} in
  {| d_pool := match PoolRegister [] entry with Ok pl => pl | Err _ => [] end; d_tickets := ∅ |}.
End pipeline.

(** ** Evaluation *)

(** [strings.TrimPrefix(s, "0x")] *)
Definition trim_0x (s : string) : string :=
  match s with
  | String a (String b rest) => if bool_decide (a = chr 48) && bool_decide (b = chr 120) then rest else s
  | _ => s
  end.

Definition parse_facet (n : string) : result string string :=
  let k := trim_space n in
  if bool_decide (k ∈ AllFacetKinds) then Ok k else Err ("unknown facet kind: " +:+ quote n)%string.

(** The empty list stands for nil, which the router takes as all facets. *)
Definition parseFacets (names : list string) : result string (list string) := try_map parse_facet names.

Definition facetsToWire (vs : list FacetVerdict) : list facetVerdictWire :=
  (λ v, {| v_kind := Kind v; v_verdict := Verdict_String (FVerdict v); v_confidence := Confidence v; v_reason := Reason v |}) <$> vs.

Definition commit_of (dec : Decision) (o : PoolOutcome) (a : Verdict * string * string) : DecisionCommit :=
  let '(agg, veto, reason) := a in
  {| CDecision := dec; DecisionID := ID dec; FacetVerdicts := Verdicts o; CAggregate := agg; VetoedBy := veto;
     AbstainReason := if bool_decide (agg = VerdictAbstain) then reason else ""%string |}.

Definition evaluated (c : DecisionCommit) (o : PoolOutcome) (h : Response) : decisionEvaluateResponse :=
  {| dr_decision_id := DecisionID c; dr_commit_digest := CommitDigest c; dr_aggregate := Verdict_String (CAggregate c);
     dr_vetoed_by := VetoedBy c; dr_abstain_reason := AbstainReason c; dr_facets := facetsToWire (Verdicts o);
     dr_providers := Providers o; dr_errors := ErrorsByProvider o; dr_hitl := h |}.

Definition decisionEvaluate (p : option Pipeline) (arrive : list routed → list routed) (now : time) (ticket_id : string)
    (ticket_now : time) (req : option decisionEvaluateRequest) : option Pipeline * reply :=
  match p with
  | None => (None, refuse 503 "decision pipeline disabled (set CP_DECISION_ENABLE=1)")
  | Some d =>
      match req with
      | None => (p, refuse 400 "invalid json body")
      | Some q =>
          if bool_decide (trim_space (dq_submitter q) = ""%string) || bool_decide (trim_space (dq_spec_id q) = ""%string)
          then (p, refuse 400 "submitter and spec_id are required")
          else
            match hex_decode (trim_0x (dq_payload_hex q)) with
            | None => (p, refuse 400 "invalid payload_hex")
            | Some payload =>
                let dec := {| Submitter := dq_submitter q; SpecID := dq_spec_id q; Payload := payload; Nonce := dq_nonce q;
                              SubmittedAt := now |} in
                match parseFacets (dq_facets q) with
                | Err e => (p, refuse 400 e)
                | Ok facets =>
                    match Route arrive (d_pool d) dec facets with
                    | Err e => (p, (500, DRouter e))
                    | Ok o =>
                        match Aggregate DefaultAggregationPolicy (Verdicts o) with
                        | Err e => (p, (500, DAggregate e))
                        | Ok a =>
                            let commit := commit_of dec o a in
                            match Decide (service_policy DefaultPolicy) (d_tickets d) ticket_id ticket_now commit with
                            | Err e => (p, (500, DHitl e))
                            | Ok (store, h) => (Some (with_tickets d store), (200, DEvaluated (evaluated commit o h)))
                            end
                        end
                    end
                end
            end
      end
  end.

Definition decisionPoolInfo (p : option Pipeline) : reply :=
  match p with
  | None => refuse 503 "decision pipeline disabled"
  | Some d => (200, DPool (Z.of_nat (PoolLen (d_pool d))) (PoolNames (d_pool d)))
  end.

(** ** Tickets *)

Definition hitlListTickets (p : option Pipeline) (state limit : string) : reply :=
  match p with
  | None => refuse 503 "hitl disabled"
  | Some d =>
      let answer n := (200, DTickets (ListTickets (d_tickets d) {| LState := state; Limit := n; OpenedAfter := time_zero |})) in
      if bool_decide (limit = ""%string) then answer 0
      else match atoi limit with
           | None => refuse 400 "invalid limit"
           | Some n => if n <? 0 then refuse 400 "invalid limit" else answer n
           end
  end.

Definition hitlGetTicket (p : option Pipeline) (id : string) : reply :=
  match p with
  | None => refuse 503 "hitl disabled"
  | Some d =>
      match Get (d_tickets d) id with
      | Ok t => (200, DTicket t)
      | Err ErrTicketNotFound => refuse 404 "ticket not found"
      | Err e => (500, DHitl e)
      end
  end.

Record hitlResolveRequest := { hr_resolver : string; hr_state : string; hr_note : string }.

Definition hitlResolveTicket (p : option Pipeline) (now : time) (id : string) (req : option hitlResolveRequest)
    : option Pipeline * reply :=
  match p with
  | None => (None, refuse 503 "hitl disabled")
  | Some d =>
      if bool_decide (trim_space id = ""%string) then (p, refuse 400 "missing ticket id")
      else match req with
           | None => (p, refuse 400 "invalid json")
           | Some q =>
               if bool_decide (trim_space (hr_resolver q) = ""%string) then (p, refuse 400 "resolver is required")
               else match Resolve (d_tickets d) now id (hr_resolver q) (hr_state q) (hr_note q) with
                    | Ok (s, t) => (Some (with_tickets d s), (200, DTicket t))
                    | Err ErrTicketNotFound => (p, refuse 404 "ticket not found")
                    | Err ErrAlreadyResolved => (p, refuse 409 "ticket already resolved")
                    | Err ErrInvalidState =>
                        (p, refuse 400 ("state must be one of approved|rejected|stale_escalation, got " +:+ quote (hr_state q)))
                    | Err e => (p, (500, DHitl e))
                    end
           end
  end.

(** ** One request *)

Inductive decision_request :=
| REvaluate (arrive : list routed → list routed) (now : time) (ticket_id : string) (ticket_now : time)
    (req : option decisionEvaluateRequest)
| RResolve (now : time) (id : string) (req : option hitlResolveRequest)
| RRead.

Definition serve (p : option Pipeline) (r : decision_request) : option Pipeline * reply :=
  match r with
  | REvaluate arrive now id ticket_now req => decisionEvaluate p arrive now id ticket_now req
  | RResolve now id req => hitlResolveTicket p now id req
  | RRead => (p, decisionPoolInfo p)
  end.

Fixpoint serve_all (p : option Pipeline) (rs : list decision_request) : option Pipeline * list (decision_request * reply) :=
  match rs with
  | [] => (p, [])
  | r :: rs => let '(p1, rep) := serve p r in let '(p2, l) := serve_all p1 rs in (p2, (r, rep) :: l)
  end.

(** The request resolved this ticket. *)
Definition resolved_it (id : string) (a : decision_request * reply) : bool :=
  match a with (RResolve _ id' _, (200, _)) => bool_decide (id' = id) | _ => false end.

Definition is_pending (t : Ticket) : bool := bool_decide (TState t = "pending"%string).

(** ** Lemmas *)

(** A decision never touches a ticket that is there. *)
Lemma Decide_keeps policy (s : InMemoryTicketStore) id now c s' h k t :
  Decide policy s id now c = Ok (s', h) → s !! k = Some t → s' !! k = Some t.
Proof.
  assert (∀ reason, escalate s id now c reason = Ok (s', h) → s !! k = Some t → s' !! k = Some t) as Hesc.
  { intros reason (st & (s1 & Hs1 & <-%ok_inj)%result_bind_ok & E)%result_bind_ok. apply ok_inj in E.
    cbn [fst snd] in E. injection E as <- _. cbn [Create InMemory_TicketStore] in Hs1. unfold mem_Create in Hs1.
    case_bool_decide; [done|]. cbn [TID] in Hs1. destruct (s !! id) as [t0|] eqn:E0; [done|]. apply ok_inj in Hs1 as <-.
    intros Ht. rewrite lookup_insert_ne; [done|]. intros ->. congruence. }
  unfold Decide. destruct (_ && _ && _); [by intros [= <- _]|].
  destruct (if EscalateOnCriticalAbstain policy then _ else _); [apply Hesc|].
  destruct (nonCriticalApproveConfidence _) as [m n]. destruct (_ && _); [apply Hesc|by intros [= <- _]].
Qed.

Lemma evaluate_keeps d arrive now id tn req p' rep k t :
  decisionEvaluate (Some d) arrive now id tn req = (p', rep) → d_tickets d !! k = Some t →
  ∃ d', p' = Some d' ∧ d_tickets d' !! k = Some t.
Proof.
  unfold decisionEvaluate. intros H Hk. destruct req as [q|]; [|injection H as <- _; by exists d].
  destruct (_ || _); [injection H as <- _; by exists d|]. destruct (hex_decode _) as [pl|]; [|injection H as <- _; by exists d].
  destruct (parseFacets _) as [fs|]; [|injection H as <- _; by exists d].
  destruct (Route _ _ _ _) as [o|]; [|injection H as <- _; by exists d].
  destruct (Aggregate _ _) as [a|]; [|injection H as <- _; by exists d].
  destruct (Decide _ _ _ _ _) as [[s h]|] eqn:E; injection H as <- _; [|by exists d].
  exists (with_tickets d s). split; [done|]. by eapply Decide_keeps.
Qed.

(** What a resolution does to the ticket [k]: nothing, or resolves it, pending
    before and not afterwards. *)
Lemma resolve_effect d now id req p' rep k t :
  hitlResolveTicket (Some d) now id req = (p', rep) → d_tickets d !! k = Some t →
  ∃ d' t', p' = Some d' ∧ d_tickets d' !! k = Some t' ∧ TDecisionID t' = TDecisionID t ∧
    (if resolved_it k (RResolve now id req, rep) then is_pending t = true ∧ is_pending t' = false else t' = t).
Proof.
  unfold hitlResolveTicket. intros H Hk. case_bool_decide; [injection H as <- <-; by exists d, t|].
  destruct req as [q|]; [|injection H as <- <-; by exists d, t].
  case_bool_decide; [injection H as <- <-; by exists d, t|]. cbn [Resolve InMemory_TicketStore] in H.
  destruct (mem_Resolve _ _ _ _ _ _) as [[s t1]|e] eqn:E; [|exists d, t; by destruct e; injection H as <- <-].
  injection H as <- <-. unfold mem_Resolve in E. destruct (validResolutionState (hr_state q)) eqn:Ev; [|done]. cbn [negb] in E.
  destruct (d_tickets d !! id) as [t0|] eqn:E0; [|done]. destruct (bool_decide (TState t0 = "pending"%string)) eqn:Ep; [|done].
  cbn [negb] in E. apply ok_inj in E. injection E as <- Ht. exists (with_tickets d (<[id:=t1]> (d_tickets d))).
  cbn [resolved_it d_tickets with_tickets]. subst t1. destruct (decide (id = k)) as [->|Hne].
  - rewrite bool_decide_true by done. assert (t0 = t) as -> by congruence. eexists. split; [done|].
    split; [apply lookup_insert_eq|]. split; [done|]. split; [exact Ep|]. unfold is_pending. cbn [TState].
    apply bool_decide_eq_false. intros Es. rewrite Es in Ev. by vm_compute in Ev.
  - rewrite bool_decide_false by done. exists t. split; [done|]. by rewrite lookup_insert_ne.
Qed.

Definition pend (t : Ticket) : Z := if is_pending t then 1 else 0.

Lemma serve_all_ticket d rs k t :
  d_tickets d !! k = Some t →
  ∃ d' t', fst (serve_all (Some d) rs) = Some d' ∧ d_tickets d' !! k = Some t' ∧ TDecisionID t' = TDecisionID t ∧
    count (resolved_it k) (snd (serve_all (Some d) rs)) + pend t' = pend t ∧
    (count (resolved_it k) (snd (serve_all (Some d) rs)) = 0 → t' = t).
Proof.
  revert d t. induction rs as [|r rs IH]; intros d t Hk; cbn [serve_all].
  { exists d, t. cbn [fst snd]. rewrite count_nil. split_and!; done || lia. }
  destruct (serve (Some d) r) as [p1 rep] eqn:Es.
  assert (∃ d1 t1, p1 = Some d1 ∧ d_tickets d1 !! k = Some t1 ∧ TDecisionID t1 = TDecisionID t ∧
    (if resolved_it k (r, rep) then is_pending t = true ∧ is_pending t1 = false else t1 = t)) as (d1 & t1 & -> & Hk1 & Hid & Hr).
  { destruct r as [arrive now id tn req|now id req|]; cbn [serve] in Es.
    - destruct (evaluate_keeps _ _ _ _ _ _ _ _ _ _ Es Hk) as (d1 & -> & Hk1). by exists d1, t.
    - by apply (resolve_effect d now id req p1 rep k t).
    - injection Es as <- <-. by exists d, t. }
  destruct (IH d1 t1 Hk1) as (d2 & t2 & H1 & H2 & H3 & H4 & H5). destruct (serve_all (Some d1) rs) as [p2 l].
  cbn [fst snd] in *. exists d2, t2. rewrite count_cons. pose proof (count_range (resolved_it k) l) as Hc.
  destruct (resolved_it k (r, rep)).
  - destruct Hr as [Hp Hp1]. unfold pend in *. rewrite Hp, Hp1 in *.
    split; [done|]. split; [done|]. split; [congruence|]. split; [lia|]. intros H0. exfalso. lia.
  - subst t1. split; [done|]. split; [done|]. split; [done|]. split; [lia|]. intros H0. apply H5. lia.
Qed.

(** A pending ticket is resolved by a well-formed request. *)
Lemma pending_resolved d now id q t :
  d_tickets d !! id = Some t → is_pending t = true → trim_space id ≠ ""%string → trim_space (hr_resolver q) ≠ ""%string →
  validResolutionState (hr_state q) = true → fst (snd (hitlResolveTicket (Some d) now id (Some q))) = 200.
Proof.
  intros Ht Hp Hid Hr Hs. unfold hitlResolveTicket. rewrite !bool_decide_false by done. cbn [Resolve InMemory_TicketStore].
  unfold mem_Resolve. rewrite Hs, Ht. cbn [negb]. unfold is_pending in Hp. by rewrite Hp.
Qed.

(** An answer that escalates left a pending ticket for the decision. *)
Lemma escalated_ticket d arrive now id tn req p' r :
  decisionEvaluate (Some d) arrive now id tn req = (p', (200, DEvaluated r)) → RAction (dr_hitl r) = ActionEscalate →
  Hitl.TicketID (dr_hitl r) = id ∧ ∃ d' t, p' = Some d' ∧ d_tickets d' !! id = Some t ∧ is_pending t = true ∧ TDecisionID t = dr_decision_id r.
Proof.
  unfold decisionEvaluate. intros H Ha. destruct req as [q|]; [|done]. destruct (_ || _); [done|].
  destruct (hex_decode _) as [pl|]; [|done]. destruct (parseFacets _) as [fs|]; [|done].
  destruct (Route _ _ _ _) as [o|]; [|done]. destruct (Aggregate _ _) as [a|]; [|done].
  destruct (Decide _ _ _ _ _) as [[s h]|] eqn:E; [|done]. injection H as <- <-. cbn [evaluated dr_hitl dr_decision_id] in *.
  set (c := commit_of _ o a) in *.
  assert (∀ reason, escalate (d_tickets d) id tn c reason = Ok (s, h) →
    Hitl.TicketID h = id ∧ ∃ d' t, Some (with_tickets d s) = Some d' ∧ d_tickets d' !! id = Some t ∧ is_pending t = true ∧ TDecisionID t = DecisionID c) as Hesc.
  { intros reason (st & (s1 & Hs1 & <-%ok_inj)%result_bind_ok & Eh)%result_bind_ok. apply ok_inj in Eh. cbn [fst snd] in Eh.
    injection Eh as <- <-. split; [done|]. cbn [Create InMemory_TicketStore] in Hs1. unfold mem_Create in Hs1.
    case_bool_decide; [done|]. cbn [TID] in Hs1. destruct (d_tickets d !! id); [done|]. apply ok_inj in Hs1 as <-.
    eexists _, _. split; [reflexivity|]. cbn [d_tickets with_tickets]. split; [apply lookup_insert_eq|]. done. }
  unfold Decide in E. destruct (_ && _ && _); [by injection E as _ <-|].
  destruct (if EscalateOnCriticalAbstain _ then _ else _); [by eapply Hesc|].
  destruct (nonCriticalApproveConfidence _) as [m n]. destruct (_ && _); [by eapply Hesc|by injection E as _ <-].
Qed.

(** ** Properties *)

(** C36. An escalation waits for one human. When an evaluation answers with the action
    to escalate, the ticket it names is pending and for that decision; along any
    further requests it stays, for the same decision, and at most one resolution
    of it is answered 200; as long as none was, it is unchanged and a well-formed
    resolution is answered 200. *)
Theorem escalation_over_http d arrive now id tn req p1 r rs
    (He : decisionEvaluate (Some d) arrive now id tn req = (p1, (200, DEvaluated r)))
    (Ha : RAction (dr_hitl r) = ActionEscalate) :
  Hitl.TicketID (dr_hitl r) = id ∧
  (∃ t, hitlGetTicket p1 id = (200, DTicket t) ∧ TState t = "pending"%string ∧ TDecisionID t = dr_decision_id r) ∧
  (∃ t', hitlGetTicket (fst (serve_all p1 rs)) id = (200, DTicket t') ∧ TDecisionID t' = dr_decision_id r) ∧
  count (resolved_it id) (snd (serve_all p1 rs)) <= 1 ∧
  (count (resolved_it id) (snd (serve_all p1 rs)) = 0 → trim_space id ≠ ""%string →
     ∀ now' q, trim_space (hr_resolver q) ≠ ""%string → validResolutionState (hr_state q) = true →
     fst (snd (hitlResolveTicket (fst (serve_all p1 rs)) now' id (Some q))) = 200).
Proof.
  destruct (escalated_ticket _ _ _ _ _ _ _ _ He Ha) as (Hid & d1 & t & -> & Ht & Hp & Hdec).
  destruct (serve_all_ticket d1 rs id t Ht) as (d2 & t2 & H1 & H2 & H3 & H4 & H5). rewrite H1.
  assert (pend t = 1) as Hpt by (unfold pend; by rewrite Hp). unfold pend in H4 at 1.
  split; [exact Hid|]. split; [|split; [|split]].
  - exists t. split; [unfold hitlGetTicket; cbn [Get InMemory_TicketStore]; unfold mem_Get; by rewrite Ht|].
    split; [by apply bool_decide_eq_true in Hp|exact Hdec].
  - exists t2. split; [unfold hitlGetTicket; cbn [Get InMemory_TicketStore]; unfold mem_Get; by rewrite H2|congruence].
  - destruct (is_pending t2); lia.
  - intros H0 Hne now' q Hr Hs. rewrite (H5 H0) in H2. by apply (pending_resolved d2 now' id q t).
Qed.

(** ** Witness *)

Definition ex_env (n : string) : string :=
  if bool_decide (n = "CP_DECISION_PROVIDER_URL"%string) then "http://judge"%string else ""%string.

Definition ex_facet (k v : string) : evaluateResponseFacet := {| WKind := k; WVerdict := v; WConfidence := f_one; WReason := "" |}.

(** A remote evaluator that abstains on safety. *)
Definition ex_fetch (u : string) (d : Decision) : option (list evaluateResponseFacet) :=
  Some [ex_facet "safety" "abstain"; ex_facet "correctness" "approve"].

Definition ex_req : decisionEvaluateRequest :=
  {| dq_submitter := "s"; dq_spec_id := "spec"; dq_payload_hex := "0x01"; dq_nonce := 1; dq_facets := [] |}.

Definition ex_resolve : hitlResolveRequest := {| hr_resolver := "ann"; hr_state := "approved"; hr_note := "" |}.

Definition the_evaluated (x : option Pipeline * reply) : decisionEvaluateResponse :=
  match x with
  | (_, (_, DEvaluated r)) => r
  | _ => {| dr_decision_id := ""; dr_commit_digest := ""; dr_aggregate := ""; dr_vetoed_by := ""; dr_abstain_reason := "";
            dr_facets := []; dr_providers := []; dr_errors := ∅; dr_hitl := {| RAction := ActionPass; RReason := ""; TicketID := "" |} |}
  end.

Definition ex_run := decisionEvaluate (Some (initDecisionPipeline ex_fetch ex_env)) (λ rs, rs) 5 "t1" 6 (Some ex_req).

Lemma escalation_over_http_witness :
  fst (snd ex_run) = 200 ∧ RAction (dr_hitl (the_evaluated ex_run)) = ActionEscalate ∧
  fst (snd (hitlResolveTicket (fst (serve_all (fst ex_run) [RRead])) 9 "t1" (Some ex_resolve))) = 200.
Proof.
  assert (ex_run = (fst ex_run, (200, DEvaluated (the_evaluated ex_run)))) as He by (vm_compute; reflexivity).
  assert (RAction (dr_hitl (the_evaluated ex_run)) = ActionEscalate) as Ha by (vm_compute; reflexivity).
  split; [vm_compute; reflexivity|]. split; [exact Ha|].
  destruct (escalation_over_http _ _ _ _ _ _ _ _ [RRead] He Ha) as (_ & _ & _ & _ & H).
  apply H; [vm_compute; reflexivity|discriminate|discriminate|vm_compute; reflexivity].
Defined.

(** ** Boundary behaviour *)

(** The aggregation runs on the verdicts the evaluator sent, without the missing
    kinds that the judge fills in as abstentions: an evaluator that says nothing on
    safety is answered APPROVE, and the decision passes. The judge of the same
    pipeline abstains on the same answer. *)
Definition silent_fetch (u : string) (d : Decision) : option (list evaluateResponseFacet) :=
  Some [ex_facet "correctness" "approve"; ex_facet "spec_compliance" "approve"].

Example missing_safety_approves :
  let r := the_evaluated (decisionEvaluate (Some (initDecisionPipeline silent_fetch ex_env)) (λ rs, rs) 5 "t1" 6 (Some ex_req)) in
  dr_aggregate r = "APPROVE"%string ∧ RAction (dr_hitl r) = ActionPass.
Proof. split; vm_compute; reflexivity. Qed.

Example judge_would_abstain :
  match JudgeEvaluate {| provider := Some (http_provider silent_fetch (system_adapter ex_env)); policy := DefaultAggregationPolicy |}
          {| Submitter := "s"; SpecID := "spec"; Payload := []; Nonce := 1; SubmittedAt := 5 |} with
  | Ok c => CAggregate c = VerdictAbstain
  | Err _ => False
  end.
Proof. vm_compute. reflexivity. Qed.

(** An evaluator whose answer names no verdict is an internal error, and so is
    one whose clock-drawn ticket name was used before. *)
Example no_verdict_fails :
  fst (snd (decisionEvaluate (Some (initDecisionPipeline (λ _ _, Some []) ex_env)) (λ rs, rs) 5 "t1" 6 (Some ex_req))) = 500.
Proof. vm_compute. reflexivity. Qed.

Example ticket_name_used :
  fst (snd (decisionEvaluate (fst ex_run) (λ rs, rs) 5 "t1" 6 (Some ex_req))) = 500.
Proof. vm_compute. reflexivity. Qed.
