(* ===== verification/Contracts.v ===== *)
(** * The on-chain contracts the engine calls ([contracts/zk-verifier], [contracts/proof-registry])

    The entry points of the verdict recorder and of the proof registry, with the
    guards in the order of the source, and the tables of parameters their [call]
    installs; of the model registry the entry point that the engine calls. A call
    gets its caller, the block time and named arguments; a revert leaves the state
    as it was. The host's limit on dictionary keys and the text of an account
    hash are parameters. *)

From S2P Require Import Prelude GoLib.

Local Open Scope Z_scope.

(** ** The host *)

Inductive CLType := TString | TU64 | TByteArray (n : Z).
#[export] Instance CLType_eq_decision : EqDecision CLType.
Proof. solve_decision. Defined.

(** The argument values that the engine and the contracts exchange. *)
Inductive CLValue := CLString (s : string) | CLUInt64 (n : Z) | CLByteArray (b : bytes).

Definition type_of (v : CLValue) : CLType :=
  match v with CLString _ => TString | CLUInt64 _ => TU64 | CLByteArray b => TByteArray (Z.of_nat (length b)) end.

Definition Args : Type := list (string * CLValue).

Inductive revert := User (code : Z) | MissingArgument | InvalidArgument | HostError | NoSuchMethod.

Definition arg_of (args : Args) (n : string) : option CLValue :=
  snd <$> List.find (λ a, bool_decide (fst a = n)) args.

(** [runtime::get_named_arg] at the three types that are used. *)
Class FromCL (A : Type) := from_cl : CLValue → option A.
#[export] Instance string_FromCL : FromCL string := λ v, match v with CLString s => Some s | _ => None end.
#[export] Instance u64_FromCL : FromCL Z := λ v, match v with CLUInt64 n => Some n | _ => None end.
#[export] Instance account_FromCL : FromCL bytes := λ v,
  match v with CLByteArray b => if (length b =? 32)%nat then Some b else None | _ => None end.

Definition get_named_arg (A : Type) `{!FromCL A} (args : Args) (n : string) : result revert A :=
  match arg_of args n with
  | None => Err MissingArgument
  | Some v => match from_cl v with Some a => Ok a | None => Err InvalidArgument end
  end.

Record Call := { caller : bytes; now : Z }.

Definition require (b : bool) (e : revert) : result revert unit := if b then Ok tt else Err e.

Definition u64_max : Z := 2 ^ 64 - 1.

Definition is_ascii_hexdigit (c : Ascii.ascii) : bool :=
  ascii_in 48 57 c || ascii_in 97 102 c || ascii_in 65 70 c.

Section host.
(** The longest dictionary key in bytes, and [Display] of an account hash. *)
Context (max_item_key : nat) (display : bytes → string).

Definition key_fits (k : string) : bool := (String.length k <=? max_item_key)%nat.

Definition dictionary_get {A} (d : gmap string A) (k : string) : result revert (option A) :=
  if key_fits k then Ok (d !! k) else Err HostError.

Definition dictionary_put {A} (d : gmap string A) (k : string) (a : A) : result revert (gmap string A) :=
  if key_fits k then Ok (<[k := a]> d) else Err HostError.

Definition some_or {A} (o : option A) (e : revert) : result revert A := match o with Some a => Ok a | None => Err e end.

(** One installed entry point: its name, its parameters and its code. *)
Definition entry_point (S R : Type) : Type := string * list (string * CLType) * (S → Call → Args → result revert (S * R)).

Definition call_entry {S R} (eps : list (entry_point S R)) (s : S) (c : Call) (ep : string) (args : Args) : result revert (S * R) :=
  match List.find (λ e, bool_decide (fst (fst e) = ep)) eps with
  | None => Err NoSuchMethod
  | Some (_, _, f) => f s c args
  end.

(** A transaction on the chain; what a reverted one did is undone. *)
Record Tx := { tx_call : Call; tx_entry : string; tx_args : Args }.

Definition exec {S R} (eps : list (entry_point S R)) (s : S) (t : Tx) : S :=
  match call_entry eps s (tx_call t) (tx_entry t) (tx_args t) with Ok (s', _) => s' | Err _ => s end.

Definition exec_all {S R} (eps : list (entry_point S R)) (s : S) (ts : list Tx) : S := foldl (exec eps) s ts.

(** ** The verdict recorder ([contracts/zk-verifier/src/main.rs]) *)

Definition ERR_NOT_OWNER : Z := 1.
Definition ERR_NOT_VERIFIER : Z := 2.
Definition ERR_VK_NOT_FOUND : Z := 3.
Definition ERR_VK_INACTIVE : Z := 4.
Definition ERR_VERDICT_EXISTS : Z := 6.
Definition ERR_VERDICT_NOT_FOUND : Z := 7.
Definition ERR_INPUT_TOO_LONG : Z := 8.
Definition ERR_INVALID_HEX : Z := 9.
Definition ERR_PAUSED : Z := 10.

Definition VkRec : Type := (string * string * string) * (Z * Z * Z).
Definition VerdictRec : Type := (string * string * string) * (string * string * string) * (Z * Z * Z).
Definition VerifierRec : Type := Z * Z.

Record ZkState := {
  owner : bytes; paused : Z;
  verifiers : gmap string VerifierRec; vks : gmap string VkRec; verdicts : gmap string VerdictRec;
}.

Inductive zk_ret := ZUnit | ZVk (r : VkRec) | ZBool (b : bool) | ZVerdict (r : VerdictRec).

Definition with_verifiers (s : ZkState) (m : gmap string VerifierRec) : ZkState :=
  {| owner := owner s; paused := paused s; verifiers := m; vks := vks s; verdicts := verdicts s |}.
Definition with_vks (s : ZkState) (m : gmap string VkRec) : ZkState :=
  {| owner := owner s; paused := paused s; verifiers := verifiers s; vks := m; verdicts := verdicts s |}.
Definition with_verdicts (s : ZkState) (m : gmap string VerdictRec) : ZkState :=
  {| owner := owner s; paused := paused s; verifiers := verifiers s; vks := vks s; verdicts := m |}.
Definition with_paused (s : ZkState) (t : Z) : ZkState :=
  {| owner := owner s; paused := t; verifiers := verifiers s; vks := vks s; verdicts := verdicts s |}.

Definition MAX_STRING_LEN : nat := 256.
Definition HASH_LEN : nat := 64.

Definition string_ok (s : string) : bool := negb (bool_decide (s = ""%string)) && (String.length s <=? MAX_STRING_LEN)%nat.
Definition hash_ok (s : string) : bool := (String.length s =? HASH_LEN)%nat && string_forall is_ascii_hexdigit s.

Definition validate_string (s : string) : result revert unit := require (string_ok s) (User ERR_INPUT_TOO_LONG).
Definition validate_hash (s : string) : result revert unit := require (hash_ok s) (User ERR_INVALID_HEX).

Definition require_owner (s : ZkState) (c : Call) : result revert unit :=
  require (bool_decide (caller c = owner s)) (User ERR_NOT_OWNER).
Definition require_not_paused (s : ZkState) : result revert unit := require (paused s =? 0) (User ERR_PAUSED).

Definition require_verifier (s : ZkState) (who : bytes) : result revert unit :=
  let! r := dictionary_get (verifiers s) (display who) in
  require (match r with Some (_, active) => active =? 1 | None => false end) (User ERR_NOT_VERIFIER).

Definition require_owner_or_gov (s : ZkState) (c : Call) (governance_approved : Z) : result revert unit := require_owner s c.

Definition verdict_key (circuit_id proof_hash : string) : string := (circuit_id +:+ "|" +:+ proof_hash)%string.

Definition add_verifier (s : ZkState) (c : Call) (args : Args) : result revert (ZkState * zk_ret) :=
  let! _ := require_owner s c in
  let! addr := get_named_arg bytes args "verifier" in
  let! old := dictionary_get (verifiers s) (display addr) in
  let! m := dictionary_put (verifiers s) (display addr) (match old with Some (added_at, _) => (added_at, 1) | None => (now c, 1) end) in
  Ok (with_verifiers s m, ZUnit).

Definition remove_verifier (s : ZkState) (c : Call) (args : Args) : result revert (ZkState * zk_ret) :=
  let! _ := require_owner s c in
  let! addr := get_named_arg bytes args "verifier" in
  let! old := dictionary_get (verifiers s) (display addr) in
  let! r := some_or old (User ERR_NOT_VERIFIER) in
  let! m := dictionary_put (verifiers s) (display addr) (fst r, 0) in
  Ok (with_verifiers s m, ZUnit).

Definition register_vk (s : ZkState) (c : Call) (args : Args) : result revert (ZkState * zk_ret) :=
  let! gov_ok := get_named_arg Z args "governance_approved" in
  let! _ := require_owner_or_gov s c gov_ok in
  let! circuit_id := get_named_arg string args "circuit_id" in
  let! vk_hash := get_named_arg string args "vk_hash" in
  let! curve := get_named_arg string args "curve" in
  let! backend := get_named_arg string args "backend" in
  let! _ := validate_string circuit_id in
  let! _ := validate_hash vk_hash in
  let! _ := validate_string curve in
  let! _ := validate_string backend in
  let! old := dictionary_get (vks s) circuit_id in
  let version := match old with Some (_, (_, _, prev_ver)) => Z.min (prev_ver + 1) u64_max | None => 1 end in
  let! m := dictionary_put (vks s) circuit_id ((vk_hash, curve, backend), (now c, 1, version)) in
  Ok (with_vks s m, ZUnit).

Definition disable_vk (s : ZkState) (c : Call) (args : Args) : result revert (ZkState * zk_ret) :=
  let! gov_ok := get_named_arg Z args "governance_approved" in
  let! _ := require_owner_or_gov s c gov_ok in
  let! circuit_id := get_named_arg string args "circuit_id" in
  let! _ := validate_string circuit_id in
  let! old := dictionary_get (vks s) circuit_id in
  let! r := some_or old (User ERR_VK_NOT_FOUND) in
  let '(meta, (ts, _, ver)) := r in
  let! m := dictionary_put (vks s) circuit_id (meta, (ts, 0, ver)) in
  Ok (with_vks s m, ZUnit).

Definition get_vk (s : ZkState) (c : Call) (args : Args) : result revert (ZkState * zk_ret) :=
  let! circuit_id := get_named_arg string args "circuit_id" in
  let! _ := validate_string circuit_id in
  let! old := dictionary_get (vks s) circuit_id in
  let! r := some_or old (User ERR_VK_NOT_FOUND) in
  Ok (s, ZVk r).

Definition vk_active (r : option VkRec) : bool := match r with Some (_, (_, active, _)) => active =? 1 | None => false end.

Definition is_active_vk (s : ZkState) (c : Call) (args : Args) : result revert (ZkState * zk_ret) :=
  let! circuit_id := get_named_arg string args "circuit_id" in
  let! _ := validate_string circuit_id in
  let! r := dictionary_get (vks s) circuit_id in
  Ok (s, ZBool (vk_active r)).

Definition record_verdict (s : ZkState) (c : Call) (args : Args) : result revert (ZkState * zk_ret) :=
  let! _ := require_not_paused s in
  let! _ := require_verifier s (caller c) in
  let! circuit_id := get_named_arg string args "circuit_id" in
  let! proof_hash := get_named_arg string args "proof_hash" in
  let! public_inputs_hash := get_named_arg string args "public_inputs_hash" in
  let! model_id := get_named_arg string args "model_id" in
  let! verdict := get_named_arg Z args "verdict" in
  let! _ := validate_string circuit_id in
  let! _ := validate_hash proof_hash in
  let! _ := validate_hash public_inputs_hash in
  let! _ := validate_string model_id in
  let! old := dictionary_get (vks s) circuit_id in
  let! vk := some_or old (User ERR_VK_NOT_FOUND) in
  let! _ := require (vk_active (Some vk)) (User ERR_VK_INACTIVE) in
  let key := verdict_key circuit_id proof_hash in
  let! there := dictionary_get (verdicts s) key in
  let! _ := require (negb (bool_decide (is_Some there))) (User ERR_VERDICT_EXISTS) in
  let! m := dictionary_put (verdicts s) key
              ((circuit_id, proof_hash, public_inputs_hash), (model_id, display (caller c), ""%string),
               (now c, if verdict =? 0 then 0 else 1, 0)) in
  Ok (with_verdicts s m, ZUnit).

Definition revoke_verdict (s : ZkState) (c : Call) (args : Args) : result revert (ZkState * zk_ret) :=
  let! _ := require_owner s c in
  let! circuit_id := get_named_arg string args "circuit_id" in
  let! proof_hash := get_named_arg string args "proof_hash" in
  let! _ := validate_string circuit_id in
  let! _ := validate_hash proof_hash in
  let key := verdict_key circuit_id proof_hash in
  let! old := dictionary_get (verdicts s) key in
  let! r := some_or old (User ERR_VERDICT_NOT_FOUND) in
  let '(a, b, (ts, verdict, _)) := r in
  let! m := dictionary_put (verdicts s) key (a, b, (ts, verdict, 1)) in
  Ok (with_verdicts s m, ZUnit).

Definition get_verdict (s : ZkState) (c : Call) (args : Args) : result revert (ZkState * zk_ret) :=
  let! circuit_id := get_named_arg string args "circuit_id" in
  let! proof_hash := get_named_arg string args "proof_hash" in
  let! _ := validate_string circuit_id in
  let! _ := validate_hash proof_hash in
  let! old := dictionary_get (verdicts s) (verdict_key circuit_id proof_hash) in
  let! r := some_or old (User ERR_VERDICT_NOT_FOUND) in
  Ok (s, ZVerdict r).

Definition pause (s : ZkState) (c : Call) (args : Args) : result revert (ZkState * zk_ret) :=
  let! _ := require_owner s c in Ok (with_paused s (now c), ZUnit).

Definition unpause (s : ZkState) (c : Call) (args : Args) : result revert (ZkState * zk_ret) :=
  let! _ := require_owner s c in Ok (with_paused s 0, ZUnit).

(** The installer. *)
Definition zk_install (c : Call) : ZkState :=
  {| owner := caller c; paused := 0; verifiers := ∅; vks := ∅; verdicts := ∅ |}.

Definition zk_entry_points : list (entry_point ZkState zk_ret) := [
  ("register_vk", [("governance_approved", TU64); ("circuit_id", TString); ("vk_hash", TString); ("curve", TString);
                   ("backend", TString)], register_vk);
  ("disable_vk", [("governance_approved", TU64); ("circuit_id", TString)], disable_vk);
  ("get_vk", [("circuit_id", TString)], get_vk);
  ("is_active_vk", [("circuit_id", TString)], is_active_vk);
  ("add_verifier", [("verifier", TByteArray 32)], add_verifier);
  ("remove_verifier", [("verifier", TByteArray 32)], remove_verifier);
  ("record_verdict", [("circuit_id", TString); ("proof_hash", TString); ("public_inputs_hash", TString); ("model_id", TString);
                      ("verdict", TU64)], record_verdict);
  ("revoke_verdict", [("circuit_id", TString); ("proof_hash", TString)], revoke_verdict);
  ("get_verdict", [("circuit_id", TString); ("proof_hash", TString)], get_verdict);
  ("pause", [], pause);
  ("unpause", [], unpause)]%string.

(** ** The proof registry ([contracts/proof-registry/src/main.rs]) *)

Definition ERR_NOT_FOUND : Z := 1.
Definition ERR_UNAUTHORIZED : Z := 2.
Definition ERR_ALREADY_REVOKED : Z := 3.
Definition ERR_AGENT_EXISTS : Z := 6.
Definition ERR_AGENT_NOT_FOUND : Z := 7.
Definition MAX_HASH_LEN : nat := 128.
Definition MAX_AGENT_ID_LEN : nat := 64.

Definition ProofRec : Type := (string * string * string) * (string * string * string) * (Z * Z * Z).
Definition AgentRec : Type := (string * string * string) * (Z * Z * Z) * (Z * Z).

Record RegState := { proofs : gmap string ProofRec; agents : gmap string AgentRec; pctr : Z }.

Inductive reg_ret := RUnit | RId (pid : string) | RProof (r : ProofRec) | RAgent (r : AgentRec).

Definition length_ok (max : nat) (s : string) : bool := negb (bool_decide (s = ""%string)) && (String.length s <=? max)%nat.
Definition validate_reg_hash (h : string) : result revert unit := require (length_ok MAX_HASH_LEN h) (User ERR_INPUT_TOO_LONG).

Definition next_id (s : RegState) : result revert Z :=
  if pctr s + 1 <=? u64_max then Ok (pctr s + 1) else Err (User 99).

Definition proof_id_of (n : Z) : string := ("P-" +:+ itoa n)%string.

Definition read_agent (s : RegState) (key : string) : result revert AgentRec :=
  let! o := dictionary_get (agents s) key in some_or o (User ERR_AGENT_NOT_FOUND).
Definition read_proof (s : RegState) (key : string) : result revert ProofRec :=
  let! o := dictionary_get (proofs s) key in some_or o (User ERR_NOT_FOUND).

Definition submit_proof (s : RegState) (c : Call) (args : Args) : result revert (RegState * reg_ret) :=
  let me := display (caller c) in
  let! ph := get_named_arg string args "proof_hash" in
  let! ih := get_named_arg string args "input_hash" in
  let! oh := get_named_arg string args "output_hash" in
  let! mh := get_named_arg string args "model_hash" in
  let! _ := validate_reg_hash ph in
  let! _ := validate_reg_hash ih in
  let! _ := validate_reg_hash oh in
  let! _ := validate_reg_hash mh in
  let! a := read_agent s me in
  let '(names, (total, verified, failed), sr) := a in
  let! n := next_id s in
  let pid := proof_id_of n in
  let! ps := dictionary_put (proofs s) pid ((pid, me, ph), (ih, oh, mh), (now c, 1, 0)) in
  let new_total := if total + 1 <=? u64_max then total + 1 else total in
  let! ags := dictionary_put (agents s) me (names, (new_total, verified, failed), sr) in
  Ok ({| proofs := ps; agents := ags; pctr := n |}, RId pid).

Definition get_proof (s : RegState) (c : Call) (args : Args) : result revert (RegState * reg_ret) :=
  let! pid := get_named_arg string args "proof_id" in
  let! _ := validate_reg_hash pid in
  let! r := read_proof s pid in
  Ok (s, RProof r).

(** [failed + 1] is a u64 sum without a check; it wraps in a release build. *)
Definition revoke_proof (s : RegState) (c : Call) (args : Args) : result revert (RegState * reg_ret) :=
  let! pid := get_named_arg string args "proof_id" in
  let! _ := validate_reg_hash pid in
  let! r := read_proof s pid in
  let '((id, agent, ph), hashes, (ts, _, revoked)) := r in
  let! _ := require (bool_decide (display (caller c) = agent)) (User ERR_UNAUTHORIZED) in
  let! _ := require (negb (revoked =? 1)) (User ERR_ALREADY_REVOKED) in
  let! ps := dictionary_put (proofs s) pid ((id, agent, ph), hashes, (ts, 0, 1)) in
  let! o := dictionary_get (agents s) agent in
  match o with
  | None => Ok ({| proofs := ps; agents := agents s; pctr := pctr s |}, RUnit)
  | Some (names, (total, verified, failed), (score, reg)) =>
      let new_score := if 5 <? score then score - 5 else 0 in
      let! ags := dictionary_put (agents s) agent (names, (total, verified, (failed + 1) mod 2 ^ 64), (new_score, reg)) in
      Ok ({| proofs := ps; agents := ags; pctr := pctr s |}, RUnit)
  end.

Definition register_agent (s : RegState) (c : Call) (args : Args) : result revert (RegState * reg_ret) :=
  let me := display (caller c) in
  let! agent_id := get_named_arg string args "agent_id" in
  let! model_hash := get_named_arg string args "model_hash" in
  let! _ := require (length_ok MAX_AGENT_ID_LEN agent_id) (User ERR_INPUT_TOO_LONG) in
  let! _ := validate_reg_hash model_hash in
  let! existing := dictionary_get (agents s) me in
  let! _ := require (negb (bool_decide (is_Some existing))) (User ERR_AGENT_EXISTS) in
  let! ags := dictionary_put (agents s) me ((agent_id, me, model_hash), (0, 0, 0), (50, now c)) in
  Ok ({| proofs := proofs s; agents := ags; pctr := pctr s |}, RUnit).

Definition get_reputation (s : RegState) (c : Call) (args : Args) : result revert (RegState * reg_ret) :=
  let! agent := get_named_arg string args "agent" in
  let! r := read_agent s agent in
  Ok (s, RAgent r).

Definition reg_install : RegState := {| proofs := ∅; agents := ∅; pctr := 0 |}.

Definition reg_entry_points : list (entry_point RegState reg_ret) := [
  ("submit_proof", [("proof_hash", TString); ("input_hash", TString); ("output_hash", TString); ("model_hash", TString)], submit_proof);
  ("get_proof", [("proof_id", TString)], get_proof);
  ("revoke_proof", [("proof_id", TString)], revoke_proof);
  ("register_agent", [("agent_id", TString); ("model_hash", TString)], register_agent);
  ("get_reputation", [("agent", TString)], get_reputation)]%string.

(** ** The model registry ([contracts/model-registry/src/main.rs]): registration *)

Definition ERR_INVALID_HASH : Z := 1.
Definition ERR_ALREADY_REGISTERED : Z := 2.

Definition ModelRecord : Type := (string * string * string) * (string * Z * Z) * (Z * Z * Z).

(** The models and the price that a registration captures; [{:?}] of the caller
    is the parameter [debug]. *)
Record ModelState := { models : gmap string ModelRecord; price_bps : Z }.

Definition register_model (debug : bytes → string) (s : ModelState) (c : Call) (args : Args) : result revert (ModelState * unit) :=
  let! model_hash := get_named_arg string args "model_hash" in
  let! name := get_named_arg string args "name" in
  let! version := get_named_arg string args "version" in
  let! ipfs_cid := get_named_arg string args "ipfs_cid" in
  let! _ := require (hash_ok model_hash) (User ERR_INVALID_HASH) in
  let! existing := dictionary_get (models s) model_hash in
  let! _ := require (negb (bool_decide (is_Some existing))) (User ERR_ALREADY_REGISTERED) in
  let! m := dictionary_put (models s) model_hash
              ((name, debug (caller c), version), (ipfs_cid, now c, 0), (0, now c, price_bps s)) in
  Ok ({| models := m; price_bps := price_bps s |}, tt).

Definition model_entry_points (debug : bytes → string) : list (entry_point ModelState unit) := [
  ("register_model", [("model_hash", TString); ("name", TString); ("version", TString); ("ipfs_cid", TString)], register_model debug)]%string.
End host.

(** ** Lemmas on the host *)

Lemma require_ok b e u : require b e = Ok u ↔ b = true.
Proof. destruct b, u; cbn; split; done. Qed.

Lemma some_or_ok {A} (o : option A) e a : some_or o e = Ok a ↔ o = Some a.
Proof. destruct o; cbn; split; by intros [= ->]. Qed.

Lemma dictionary_get_ok {A} m (d : gmap string A) k o : dictionary_get m d k = Ok o ↔ key_fits m k = true ∧ o = d !! k.
Proof. unfold dictionary_get. destruct (key_fits m k); split; [by intros [= ->]|by intros [_ ->]|done|by intros [? _]]. Qed.

Lemma dictionary_put_ok {A} m (d : gmap string A) k a d' :
  dictionary_put m d k a = Ok d' ↔ key_fits m k = true ∧ d' = <[k := a]> d.
Proof. unfold dictionary_put. destruct (key_fits m k); split; [by intros [= ->]|by intros [_ ->]|done|by intros [? _]]. Qed.

Lemma require_owner_ok s c u : require_owner s c = Ok u ↔ caller c = owner s.
Proof. unfold require_owner. by rewrite require_ok, bool_decide_eq_true. Qed.

(** Takes a successful run apart. *)
Ltac run_inv :=
  repeat match goal with
  | H : result_bind _ _ = Ok _ |- _ => apply result_bind_ok in H as (? & ? & H)
  | H : (let _ := _ in _) = Ok _ |- _ => cbv zeta in H
  | H : require_owner _ _ = Ok _ |- _ => apply require_owner_ok in H
  | H : require _ _ = Ok _ |- _ => apply require_ok in H
  | H : some_or _ _ = Ok _ |- _ => apply some_or_ok in H
  | H : dictionary_get _ _ _ = Ok _ |- _ => apply dictionary_get_ok in H as [? ->]
  | H : dictionary_put _ _ _ _ = Ok _ |- _ => apply dictionary_put_ok in H as [? ->]
  end.

Lemma exec_cases {S R} (eps : list (entry_point S R)) s t :
  exec eps s t = s ∨
  ∃ ep ps f s' r, (ep, ps, f) ∈ eps ∧ tx_entry t = ep ∧ f s (tx_call t) (tx_args t) = Ok (s', r) ∧ exec eps s t = s'.
Proof.
  unfold exec, call_entry. destruct (List.find (λ e, bool_decide (fst (fst e) = tx_entry t)) eps) as [[[ep ps] f]|] eqn:E; [|by left].
  apply List.find_some in E as [Hin He]. cbn [fst] in He. apply bool_decide_eq_true in He.
  destruct (f s (tx_call t) (tx_args t)) as [[s' r]|] eqn:Ef; [|by left].
  right. exists ep, ps, f, s', r. split; [by apply list_elem_of_In|]. done.
Qed.

Lemma exec_all_inv {S R} (P : S → Prop) (eps : list (entry_point S R)) ts s :
  (∀ s t, P s → P (exec eps s t)) → P s → P (exec_all eps s ts).
Proof. intros Hstep. revert s. induction ts as [|t ts IH]; intros s Hs; [done|]. cbn. apply IH, Hstep, Hs. Qed.

(** ** Lemmas on the verdict recorder *)

Section verdicts.
Context (max_item_key : nat) (display : bytes → string).
Notation zk_run := (exec_all (zk_entry_points max_item_key display)).
Notation zk_exec := (exec (zk_entry_points max_item_key display)).

(** Both parts of a verdict's key are determined by it. *)
Lemma hash_no_bar h : hash_ok h = true → no_char (chr 124) h = true.
Proof.
  unfold hash_ok. intros [_ H]%andb_prop. unfold no_char. induction h as [|c h IH]; [done|]. cbn [string_forall] in *.
  apply andb_prop in H as [Hc Hh]. rewrite (IH Hh), andb_true_r. apply negb_true_iff, bool_decide_eq_false. intros ->.
  by vm_compute in Hc.
Qed.

Lemma text_length_app a b : String.length (a +:+ b)%string = (String.length a + String.length b)%nat.
Proof. induction a as [|c a IH]; [done|]. cbn. rewrite <- IH. done. Qed.

Lemma verdict_key_inj c1 h1 c2 h2 :
  String.length h1 = String.length h2 → verdict_key c1 h1 = verdict_key c2 h2 → c1 = c2 ∧ h1 = h2.
Proof.
  intros Hlen H. assert (String.length c1 = String.length c2) as Hc.
  { apply (f_equal String.length) in H. unfold verdict_key in H. rewrite !text_length_app in H. lia. }
  unfold verdict_key in H. revert c2 H Hc. induction c1 as [|a c1 IH]; intros [|b c2] H Hc; try done.
  - injection H as H. split; [done|exact H].
  - injection H as -> H. injection Hc as Hc. destruct (IH c2 H Hc) as [-> ->]. done.
Qed.

(** What one transaction does to a recorded verdict. *)
Definition keeps_verdict (s s' : ZkState) (t : Tx) : Prop :=
  owner s' = owner s ∧
  ∀ k a b ts v r, verdicts s !! k = Some (a, b, (ts, v, r)) →
    ∃ r', verdicts s' !! k = Some (a, b, (ts, v, r')) ∧
      (r' = r ∨ r' = 1 ∧ caller (tx_call t) = owner s ∧ tx_entry t = "revoke_verdict"%string).

Lemma keeps_refl s t : keeps_verdict s s t.
Proof. split; [done|]. intros k a b ts v r Hk. exists r. split; [done|by left]. Qed.

Lemma keeps_other s s' t : owner s' = owner s → verdicts s' = verdicts s → keeps_verdict s s' t.
Proof. intros Ho Hv. split; [done|]. rewrite Hv. exact (proj2 (keeps_refl s t)). Qed.

Lemma record_keeps s t s' r :
  record_verdict max_item_key display s (tx_call t) (tx_args t) = Ok (s', r) → keeps_verdict s s' t.
Proof.
  intros H. unfold record_verdict in H. run_inv. injection H as <- _. split; [done|].
  intros k a b ts v r0 Hk. exists r0. split; [|by left]. cbn [verdicts with_verdicts]. rewrite lookup_insert_ne; [done|].
  intros <-. match goal with Hn : negb (bool_decide (is_Some _)) = true |- _ => apply negb_true_iff, bool_decide_eq_false in Hn; destruct Hn end.
  by eexists.
Qed.

Lemma revoke_keeps s t s' r :
  tx_entry t = "revoke_verdict"%string →
  revoke_verdict max_item_key s (tx_call t) (tx_args t) = Ok (s', r) → keeps_verdict s s' t.
Proof.
  intros He H. unfold revoke_verdict in H. run_inv.
  match goal with r : VerdictRec |- _ => destruct r as [[a0 b0] [[ts0 v0] r0]] end. run_inv. injection H as <- _.
  split; [done|]. intros k a b ts v r1 Hk. cbn [verdicts with_verdicts].
  match goal with Hl : verdicts s !! verdict_key ?c ?h = Some _ |- _ =>
    destruct (decide (verdict_key c h = k)) as [<-|Hne]; [pose proof (eq_trans (eq_sym Hl) Hk) as E; injection E as <- <- <- <- <-|] end.
  - rewrite lookup_insert_eq. exists 1. split; [done|]. right. done.
  - rewrite lookup_insert_ne by done. exists r1. split; [done|by left].
Qed.

Lemma exec_keeps s t : keeps_verdict s (zk_exec s t) t.
Proof.
  destruct (exec_cases (zk_entry_points max_item_key display) s t) as [->|(ep & ps & f & s' & r & Hin & He & Hf & ->)];
    [apply keeps_refl|].
  unfold zk_entry_points in Hin.
  repeat (apply elem_of_cons in Hin as [Hin|Hin]; [injection Hin as -> -> ->|]); [..|by apply not_elem_of_nil in Hin];
    try (eapply record_keeps; exact Hf); try (eapply revoke_keeps; [exact He|exact Hf]);
    apply keeps_other;
    unfold register_vk, disable_vk, get_vk, is_active_vk, add_verifier, remove_verifier, get_verdict, pause, unpause in Hf; run_inv;
    try match goal with r : VkRec |- _ => destruct r as [? [[? ?] ?]]; run_inv end; by injection Hf as <- _.
Qed.

Lemma run_keeps ts s :
  owner (zk_run s ts) = owner s ∧
  ∀ k a b time v r, verdicts s !! k = Some (a, b, (time, v, r)) →
    ∃ r', verdicts (zk_run s ts) !! k = Some (a, b, (time, v, r')) ∧
      (r' = r ∨ r' = 1 ∧ ∃ t, t ∈ ts ∧ caller (tx_call t) = owner s ∧ tx_entry t = "revoke_verdict"%string).
Proof.
  revert s. induction ts as [|t ts IH]; intros s.
  { split; [done|]. intros. exists r. split; [done|by left]. }
  change (zk_run s (t :: ts)) with (zk_run (zk_exec s t) ts). destruct (exec_keeps s t) as [Ho Hk].
  destruct (IH (zk_exec s t)) as [Ho' Hk']. split; [congruence|].
  intros k a b time v r Hv. destruct (Hk k a b time v r Hv) as (r1 & Hv1 & Hr1).
  destruct (Hk' k a b time v r1 Hv1) as (r2 & Hv2 & Hr2). exists r2. split; [done|].
  destruct Hr2 as [->|(-> & t' & Hin & Hc & He)].
  - destruct Hr1 as [->|(-> & Hc & He)]; [by left|]. right. split; [done|]. exists t. split; [left|done].
  - right. split; [done|]. exists t'. rewrite Ho in Hc. split; [by right|done].
Qed.

(** When a verdict is recorded. *)
Definition active_verifier (s : ZkState) (who : bytes) : bool :=
  key_fits max_item_key (display who) && match verifiers s !! display who with Some (_, a) => a =? 1 | None => false end.

Definition record_ready (s : ZkState) (who : bytes) (cid ph pih mid : string) : bool :=
  (paused s =? 0) && active_verifier s who &&
  string_ok cid && hash_ok ph && hash_ok pih && string_ok mid &&
  key_fits max_item_key cid && key_fits max_item_key (verdict_key cid ph) &&
  vk_active (vks s !! cid) && negb (bool_decide (is_Some (verdicts s !! verdict_key cid ph))).

Definition new_verdict (c : Call) (cid ph pih mid : string) (v : Z) : VerdictRec :=
  ((cid, ph, pih), (mid, display (caller c), ""%string), (now c, if v =? 0 then 0 else 1, 0)).

Lemma vk_active_some o : vk_active o = true → ∃ r, o = Some r ∧ vk_active (Some r) = true.
Proof. destruct o as [r|]; [|done]. intros H. by exists r. Qed.

Lemma record_verdict_ok s c args cid ph pih mid v :
  get_named_arg string args "circuit_id" = Ok cid → get_named_arg string args "proof_hash" = Ok ph →
  get_named_arg string args "public_inputs_hash" = Ok pih → get_named_arg string args "model_id" = Ok mid →
  get_named_arg Z args "verdict" = Ok v → record_ready s (caller c) cid ph pih mid = true →
  record_verdict max_item_key display s c args =
    Ok (with_verdicts s (<[verdict_key cid ph := new_verdict c cid ph pih mid v]> (verdicts s)), ZUnit).
Proof.
  intros H1 H2 H3 H4 H5 Hr. unfold record_ready, active_verifier in Hr.
  repeat match goal with H : _ && _ = true |- _ => apply andb_prop in H as [? ?] end.
  match goal with H : vk_active _ = true |- _ => apply vk_active_some in H as (r & Hvk & Ha) end.
  destruct (verifiers s !! display (caller c)) as [[added a]|] eqn:Hver; [|done].
  unfold record_verdict, require_not_paused, require_verifier, validate_string, validate_hash, dictionary_get, dictionary_put.
  unfold VerifierRec in *. rewrite H1, H2, H3, H4, H5.
  repeat first [progress cbn [require result_bind some_or]
               | match goal with H : ?b = true |- context [?b] => rewrite H end | rewrite Hvk | rewrite Hver].
  done.
Qed.

Lemma record_verdict_ready s c args s' r :
  record_verdict max_item_key display s c args = Ok (s', r) →
  ∃ cid ph pih mid v, record_ready s (caller c) cid ph pih mid = true ∧
    s' = with_verdicts s (<[verdict_key cid ph := new_verdict c cid ph pih mid v]> (verdicts s)).
Proof.
  intros H. unfold record_verdict, require_not_paused, require_verifier, validate_string, validate_hash in H. run_inv.
  injection H as <- _. do 5 eexists. split; [|reflexivity]. unfold record_ready, active_verifier.
  unfold VerifierRec in *. repeat match goal with H : ?b = true |- context [?b] => rewrite H; cbn [andb] end.
  match goal with H : vks s !! _ = Some _ |- _ => rewrite H, andb_true_r end. assumption.
Qed.
End verdicts.

(** ** Lemmas on the proof registry *)

Definition agent_of (r : ProofRec) : string := let '((_, a, _), _, _) := r in a.
Definition revoked_of (r : ProofRec) : Z := let '(_, _, (_, _, k)) := r in k.
Definition by_agent (a : string) (r : ProofRec) : bool := bool_decide (agent_of r = a).
Definition revoked_by (a : string) (r : ProofRec) : bool := bool_decide (agent_of r = a) && (revoked_of r =? 1).

(** A stored proof: its identifier is a number handed out before, it is valid
    exactly when it is not revoked, and its agent is registered. *)
Definition proof_ok (s : RegState) (k : string) (r : ProofRec) : Prop :=
  let '((pid, a, _), _, (_, valid, revoked)) := r in
  (∃ n, 1 <= n <= pctr s ∧ k = proof_id_of n) ∧ pid = k ∧ (valid = 1 ∧ revoked = 0 ∨ valid = 0 ∧ revoked = 1) ∧
  is_Some (agents s !! a).

(** An agent's record against the stored proofs: the total and the failed are the
    numbers of its proofs and of its revoked proofs, and its score is 50 less 5 for
    each of these, at least 0. *)
Definition agent_ok (s : RegState) (a : string) (r : AgentRec) : Prop :=
  let '(_, (total, verified, failed), (score, _)) := r in
  total = map_count (by_agent a) (proofs s) ∧ verified = 0 ∧ failed = map_count (revoked_by a) (proofs s) ∧
  score = Z.max 0 (50 - 5 * failed).

Definition registry_ok (s : RegState) : Prop :=
  0 <= pctr s <= u64_max ∧ map_count (λ _, true) (proofs s) = pctr s ∧
  (∀ k r, proofs s !! k = Some r → proof_ok s k r) ∧
  (∀ a r, agents s !! a = Some r → agent_ok s a r).

Lemma reg_install_ok : registry_ok reg_install.
Proof. split; [by vm_compute|]. split; [done|]. split; intros k r; cbn; by rewrite lookup_empty. Qed.

Lemma proof_id_of_inj m n : proof_id_of m = proof_id_of n → m = n.
Proof. unfold proof_id_of. intros H. injection H as H. by apply (inj pretty). Qed.

Lemma map_count_mono {K A} `{Countable K} (p q : A → bool) (m : gmap K A) :
  (∀ x, p x = true → q x = true) → map_count p m <= map_count q m.
Proof. apply count_mono. Qed.

Section registry.
Context (max_item_key : nat) (display : bytes → string).

Lemma submit_ok s c args s' r :
  registry_ok s → submit_proof max_item_key display s c args = Ok (s', r) → registry_ok s'.
Proof.
  intros (Hr & Hc & Hp & Ha) H. unfold submit_proof, read_agent in H. run_inv.
  match goal with r : AgentRec |- _ => destruct r as [[names [[total verified] failed]] [score reg]] end. run_inv.
  match goal with H : next_id s = Ok ?k |- _ => rename k into n; unfold next_id in H; destruct (_ <=? _) eqn:Hle in H; [|done];
    apply ok_inj in H as <-; apply Z.leb_le in Hle end.
  injection H as <- _. set (me := display (caller c)) in *. set (pid := proof_id_of (pctr s + 1)) in *.
  match goal with H : agents s !! me = Some _ |- _ => rename H into Hme end.
  destruct (Ha _ _ Hme) as (Ht & Hver & Hf & Hsc).
  assert (proofs s !! pid = None) as Hnew.
  { destruct (proofs s !! pid) as [r0|] eqn:E; [|done]. specialize (Hp _ _ E).
    destruct r0 as [[[[p0 a0] q0] hs] [[t0 v0] k0]]. destruct Hp as ((n & Hn & Hk) & _). apply proof_id_of_inj in Hk. lia. }
  unfold registry_ok. cbn [proofs agents pctr].
  split; [lia|]. split; [rewrite map_count_insert_new by done; lia|]. split.
  - intros k r0 [[<- <-]|[Hne Hk]]%lookup_insert_Some.
    + split; [exists (pctr s + 1); cbn [pctr]; split; [lia|done]|]. split; [done|]. split; [by left|]. cbn [agents].
      rewrite lookup_insert_eq. by eexists.
    + specialize (Hp _ _ Hk). destruct r0 as [[[[p0 a0] q0] hs] [[t0 v0] k0]].
      destruct Hp as ((n & Hn & Hkn) & Hpk & Hvr & Hag). split; [exists n; cbn [pctr]; split; [lia|done]|]. split; [done|]. split; [done|].
      cbn [agents]. destruct (decide (me = a0)) as [<-|]; [rewrite lookup_insert_eq; by eexists|by rewrite lookup_insert_ne].
  - intros a r0 [[<- <-]|[Hne Hk]]%lookup_insert_Some.
    + unfold agent_ok. cbn [proofs]. rewrite !map_count_insert_new by done.
      unfold by_agent at 1, revoked_by at 1. cbn [agent_of revoked_of]. rewrite bool_decide_true by done. cbn [andb].
      assert (total + 1 <=? u64_max = true) as ->.
      { apply Z.leb_le. pose proof (map_count_mono (by_agent me) (λ _, true) (proofs s) (λ _ _, eq_refl)). lia. }
      split; [lia|]. split; [done|]. split; [cbn; lia|]. done.
    + specialize (Ha _ _ Hk). unfold agent_ok in *. destruct r0 as [[names0 [[t0 v0] f0]] [sc0 rg0]]. cbn [proofs].
      rewrite !map_count_insert_new by done. unfold by_agent at 1, revoked_by at 1. cbn [agent_of revoked_of].
      rewrite bool_decide_false by done. cbn [andb]. destruct Ha as (-> & -> & -> & ->). done.
Qed.

Lemma revoke_ok s c args s' r :
  registry_ok s → revoke_proof max_item_key display s c args = Ok (s', r) → registry_ok s'.
Proof.
  intros (Hr & Hc & Hp & Ha) H. unfold revoke_proof, read_proof in H. run_inv.
  match goal with r : ProofRec |- _ => destruct r as [[[[p0 a0] q0] hs] [[t0 v0] k0]] end. run_inv.
  match goal with H : proofs s !! ?k = Some _ |- _ => rename k into pid, H into Hpid end.
  match goal with H : negb (k0 =? 1) = true |- _ => apply negb_true_iff in H; rename H into Hk0 end.
  destruct (Hp _ _ Hpid) as (Hn & -> & Hvr & [ag Hag]). rewrite Hag in H.
  destruct ag as [[names [[total verified] failed]] [score reg]]. run_inv. injection H as <- _.
  destruct (Ha _ _ Hag) as (Ht & Hver & Hf & Hsc).
  set (new := ((pid, a0, q0), hs, (t0, 0, 1)) : ProofRec).
  assert (∀ a, map_count (by_agent a) (<[pid := new]> (proofs s)) = map_count (by_agent a) (proofs s)) as Hby.
  { intros a. rewrite (map_count_insert _ _ _ _ _ Hpid). unfold by_agent at 2 3. cbn [agent_of new]. lia. }
  assert (∀ a, map_count (revoked_by a) (<[pid := new]> (proofs s)) =
               map_count (revoked_by a) (proofs s) + if bool_decide (a0 = a) then 1 else 0) as Hrev.
  { intros a. rewrite (map_count_insert _ _ _ _ _ Hpid). unfold revoked_by at 2 3. cbn [agent_of revoked_of new].
    rewrite Hk0, andb_false_r. destruct (bool_decide (a0 = a)); cbn; lia. }
  assert (map_count (λ _, true) (<[pid := new]> (proofs s)) = pctr s) as Hall.
  { rewrite (map_count_insert _ _ _ _ _ Hpid). lia. }
  unfold registry_ok. cbn [proofs agents pctr]. split; [done|]. split; [exact Hall|]. split.
  - intros k r0 [[<- <-]|[Hne Hk]]%lookup_insert_Some.
    + split; [exact Hn|]. split; [done|]. split; [by right|]. cbn [agents]. rewrite lookup_insert_eq. by eexists.
    + specialize (Hp _ _ Hk). destruct r0 as [[[[p1 a1] q1] hs1] [[t1 v1] k1]]. destruct Hp as (Hn1 & Hpk & Hvr1 & Hag1).
      split; [exact Hn1|]. split; [done|]. split; [done|]. cbn [agents].
      destruct (decide (a0 = a1)) as [<-|]; [rewrite lookup_insert_eq; by eexists|by rewrite lookup_insert_ne].
  - intros a r0 [[<- <-]|[Hne Hk]]%lookup_insert_Some.
    + unfold agent_ok. cbn [proofs]. rewrite Hby, Hrev, bool_decide_true by done.
      pose proof (map_count_mono (revoked_by a0) (λ _, true) (<[pid := new]> (proofs s)) (λ _ _, eq_refl)) as Hle.
      rewrite Hrev, Hall, bool_decide_true in Hle by done.
      pose proof (map_count_nonneg (revoked_by a0) (proofs s)) as Hnn. unfold u64_max in Hr.
      rewrite Z.mod_small by lia. split; [done|]. split; [done|]. split; [lia|]. destruct (5 <? score) eqn:E; lia.
    + specialize (Ha _ _ Hk). unfold agent_ok in *. destruct r0 as [[names0 [[t1 v1] f1]] [sc1 rg1]]. cbn [proofs].
      rewrite Hby, Hrev, bool_decide_false by done. destruct Ha as (-> & -> & -> & ->). by rewrite Z.add_0_r.
Qed.

Lemma register_agent_ok s c args s' r :
  registry_ok s → register_agent max_item_key display s c args = Ok (s', r) → registry_ok s'.
Proof.
  intros (Hr & Hc & Hp & Ha) H. unfold register_agent in H. run_inv. injection H as <- _.
  match goal with H : negb (bool_decide (is_Some _)) = true |- _ => apply negb_true_iff, bool_decide_eq_false in H; rename H into Hnone end.
  set (me := display (caller c)) in *.
  assert (∀ k r0, proofs s !! k = Some r0 → agent_of r0 ≠ me) as Hno.
  { intros k r0 Hk. specialize (Hp _ _ Hk). destruct r0 as [[[[p0 a0] q0] hs] [[t0 v0] k0]]. cbn [agent_of]. intros ->.
    by destruct Hp as (_ & _ & _ & Hag). }
  unfold registry_ok. cbn [proofs agents pctr]. split; [done|]. split; [done|]. split.
  - intros k r0 Hk. specialize (Hp _ _ Hk). destruct r0 as [[[[p0 a0] q0] hs] [[t0 v0] k0]].
    destruct Hp as (Hn & Hpk & Hvr & Hag). split; [exact Hn|]. split; [done|]. split; [done|]. cbn [agents].
    destruct (decide (me = a0)) as [<-|]; [rewrite lookup_insert_eq; by eexists|by rewrite lookup_insert_ne].
  - intros a r0 [[<- <-]|[Hne Hk]]%lookup_insert_Some; [|exact (Ha _ _ Hk)].
    unfold agent_ok. cbn [proofs]. rewrite !map_count_none; [by vm_compute|..]; intros k r0 Hk; unfold by_agent, revoked_by;
      by rewrite bool_decide_false by exact (Hno _ _ Hk).
Qed.

Lemma registry_exec_ok s t : registry_ok s → registry_ok (exec (reg_entry_points max_item_key display) s t).
Proof.
  intros Hs. destruct (exec_cases (reg_entry_points max_item_key display) s t) as [->|(ep & ps & f & s' & r & Hin & _ & Hf & ->)]; [done|].
  unfold reg_entry_points in Hin.
  repeat (apply elem_of_cons in Hin as [Hin|Hin]; [injection Hin as -> -> ->|]); [..|by apply not_elem_of_nil in Hin].
  - by eapply submit_ok.
  - unfold get_proof in Hf. run_inv. by injection Hf as <- _.
  - by eapply revoke_ok.
  - by eapply register_agent_ok.
  - unfold get_reputation in Hf. run_inv. by injection Hf as <- _.
Qed.
End registry.

(** ** Properties *)

Section properties.
Context (max_item_key : nat) (display : bytes → string).
Notation zk_run := (exec_all (zk_entry_points max_item_key display)).
Notation zk_exec := (exec (zk_entry_points max_item_key display)).

Lemma verdict_origin s t k r :
  verdicts s !! k = None → verdicts (zk_exec s t) !! k = Some r →
  ∃ cid ph pih mid v, k = verdict_key cid ph ∧ record_ready max_item_key display s (caller (tx_call t)) cid ph pih mid = true ∧
    r = new_verdict display (tx_call t) cid ph pih mid v.
Proof.
  intros Hn Hk.
  destruct (exec_cases (zk_entry_points max_item_key display) s t) as [Eq|(ep & ps & f & s' & ret & Hin & _ & Hf & Eq)];
    rewrite Eq in Hk; [congruence|].
  unfold zk_entry_points in Hin.
  repeat (apply elem_of_cons in Hin as [Hin|Hin]; [injection Hin as -> -> ->|]); [..|by apply not_elem_of_nil in Hin];
    try (exfalso; revert Hk; enough (verdicts s' = verdicts s) as -> by (rewrite Hn; discriminate);
         unfold register_vk, disable_vk, get_vk, is_active_vk, add_verifier, remove_verifier, get_verdict, pause, unpause in Hf; run_inv;
         try match goal with r : VkRec |- _ => destruct r as [? [[? ?] ?]]; run_inv end; by injection Hf as <- _).
  - destruct (record_verdict_ready _ _ _ _ _ _ _ Hf) as (cid & ph & pih & mid & v & Hr & ->). cbn [verdicts with_verdicts] in Hk.
    apply lookup_insert_Some in Hk as [[<- <-]|[_ Hk]]; [|congruence]. by exists cid, ph, pih, mid, v.
  - exfalso. unfold revoke_verdict in Hf. run_inv.
    match goal with r : VerdictRec |- _ => destruct r as [[? ?] [[? ?] ?]] end. run_inv. injection Hf as <- _.
    cbn [verdicts with_verdicts] in Hk. apply lookup_insert_Some in Hk as [[<- _]|[_ Hk]]; [|discriminate (eq_trans (eq_sym Hn) Hk)].
    match goal with H : verdicts s !! verdict_key _ _ = Some _ |- _ => discriminate (eq_trans (eq_sym Hn) H) end.
Qed.


(** The registry's books balance. After any transactions on a fresh registry every
    agent's total and failed counts are the numbers of its stored and of its
    revoked proofs and its score is 50 less 5 for each revoked one, at least 0;
    every stored proof lies under its own number, below the counter, is valid
    exactly when it is not revoked, and belongs to a registered agent; and the
    counter is the number of proofs stored. *)
Theorem registry_accounts ts :
  let s := exec_all (reg_entry_points max_item_key display) reg_install ts in
  map_count (λ _, true) (proofs s) = pctr s ∧
  (∀ a names total verified failed score reg, agents s !! a = Some (names, (total, verified, failed), (score, reg)) →
     total = map_count (by_agent a) (proofs s) ∧ failed = map_count (revoked_by a) (proofs s) ∧
     score = Z.max 0 (50 - 5 * failed)) ∧
  (∀ k pid a ph hashes at_ valid rv, proofs s !! k = Some ((pid, a, ph), hashes, (at_, valid, rv)) →
     pid = k ∧ valid + rv = 1 ∧ is_Some (agents s !! a) ∧ ∃ n, 1 <= n <= pctr s ∧ k = proof_id_of n).
Proof.
  cbn zeta. assert (registry_ok (exec_all (reg_entry_points max_item_key display) reg_install ts)) as (Hr & Hc & Hp & Ha).
  { apply (exec_all_inv registry_ok); [apply registry_exec_ok|apply reg_install_ok]. }
  split; [exact Hc|]. split.
  - intros a names total verified failed score reg Hag. destruct (Ha _ _ Hag) as (-> & _ & -> & ->). done.
  - intros k pid a ph hashes at_ valid rv Hk. destruct (Hp _ _ Hk) as (Hn & -> & Hvr & Hag).
    split; [done|]. split; [lia|]. split; [exact Hag|exact Hn].
Qed.
End properties.

(** ** Witness *)

Definition ex_owner : Call := {| caller := replicate 32 Byte.x01; now := 100 |}.
Definition ex_hash (c : Ascii.ascii) : string := String.string_of_list_ascii (replicate 64 c).

Definition ex_setup : list Tx := [
  {| tx_call := ex_owner; tx_entry := "add_verifier"; tx_args := [("verifier", CLByteArray (caller ex_owner))] |};
  {| tx_call := ex_owner; tx_entry := "register_vk";
     tx_args := [("governance_approved", CLUInt64 0); ("circuit_id", CLString "c"); ("vk_hash", CLString (ex_hash (chr 97)));
                 ("curve", CLString "bn254"); ("backend", CLString "groth16")] |}]%string.

Definition ex_record (pih : string) (v : Z) : Tx :=
  {| tx_call := ex_owner; tx_entry := "record_verdict";
     tx_args := [("circuit_id", CLString "c"); ("proof_hash", CLString (ex_hash (chr 98))); ("public_inputs_hash", CLString pih);
                 ("model_id", CLString "m"); ("verdict", CLUInt64 v)] |}%string.

Definition ex_revoke : Tx :=
  {| tx_call := ex_owner; tx_entry := "revoke_verdict"; tx_args := [("circuit_id", CLString "c"); ("proof_hash", CLString (ex_hash (chr 98)))] |}%string.

Definition ex_key : string := verdict_key "c" (ex_hash (chr 98)).
Definition ex_run (ts : list Tx) : ZkState := exec_all (zk_entry_points 128 hex_encode) (zk_install ex_owner) ts.

Definition ex_txs : list Tx := ex_setup ++ [ex_record (ex_hash (chr 99)) 1; ex_revoke].


(** ** Boundary behaviour *)

(** The first verdict on a proof bytes' hash holds the place, whatever public
    inputs it was made for: recorded as invalid for wrong inputs, the valid verdict
    of the same proof is refused. *)
Example invalid_first_blocks_valid :
  verdicts (ex_run (ex_setup ++ [ex_record (ex_hash (chr 100)) 0; ex_record (ex_hash (chr 99)) 1])) !! ex_key =
  Some (("c", ex_hash (chr 98), ex_hash (chr 100)), ("m", hex_encode (caller ex_owner), ""), (100, 0, 0))%string.
Proof. vm_compute. reflexivity. Qed.

(** A circuit name of the admitted length can be too long for the host: the key of
    its verdicts has 65 bytes more than the name. *)
Example long_circuit_name :
  let name := String.string_of_list_ascii (replicate 64 (chr 110)) in
  string_ok name = true ∧ key_fits 128 name = true ∧ key_fits 128 (verdict_key name (ex_hash (chr 98))) = false.
Proof. split_and!; vm_compute; reflexivity. Qed.

(** A caller that has no agent record cannot submit a proof. *)
Example submit_needs_agent :
  call_entry (reg_entry_points 128 hex_encode) reg_install ex_owner "submit_proof"
    [("proof_hash", CLString "p"); ("input_hash", CLString "i"); ("output_hash", CLString "o"); ("model_hash", CLString "m")]%string =
  Err (User ERR_AGENT_NOT_FOUND).
Proof. vm_compute. reflexivity. Qed.

(** ** Typed calls *)

(** Every parameter has an argument of its type. *)
Definition typed (params : list (string * CLType)) (args : Args) : Prop :=
  Forall (λ nt, ∃ v, arg_of args (fst nt) = Some v ∧ type_of v = snd nt) params.

(** The call is not turned down for its name or its arguments. *)
Definition well_called {A} (r : result revert A) : Prop :=
  match r with Err MissingArgument | Err InvalidArgument | Err NoSuchMethod => False | _ => True end.

Lemma typed_string args n : (∃ v, arg_of args n = Some v ∧ type_of v = TString) → ∃ s, get_named_arg string args n = Ok s.
Proof. intros ([s| |] & Hv & Ht); try done. exists s. unfold get_named_arg. by rewrite Hv. Qed.

Lemma typed_u64 args n : (∃ v, arg_of args n = Some v ∧ type_of v = TU64) → ∃ z, get_named_arg Z args n = Ok z.
Proof. intros ([|z|] & Hv & Ht); try done. exists z. unfold get_named_arg. by rewrite Hv. Qed.

Lemma typed_account args n : (∃ v, arg_of args n = Some v ∧ type_of v = TByteArray 32) → ∃ b, get_named_arg bytes args n = Ok b.
Proof.
  intros ([| |b] & Hv & Ht); try done. exists b. unfold get_named_arg. rewrite Hv. cbn. injection Ht as Ht.
  assert (length b = 32%nat) as -> by lia. done.
Qed.

Lemma called_bind {A B} (m : result revert A) (k : A → result revert B) :
  well_called m → (∀ a, well_called (k a)) → well_called (result_bind m k).
Proof. destruct m as [a|e]; cbn; [auto|]. by destruct e. Qed.

Lemma called_require b z : well_called (require b (User z)).
Proof. by destruct b. Qed.

Lemma called_some {A} (o : option A) z : well_called (some_or o (User z)).
Proof. by destruct o. Qed.

Lemma called_get {A} m (d : gmap string A) k : well_called (dictionary_get m d k).
Proof. unfold dictionary_get. by destruct (key_fits m k). Qed.

Lemma called_put {A} m (d : gmap string A) k a : well_called (dictionary_put m d k a).
Proof. unfold dictionary_put. by destruct (key_fits m k). Qed.

Lemma called_verifier m display s who : well_called (require_verifier m display s who).
Proof. apply called_bind; [apply called_get|intros r; apply called_require]. Qed.

Lemma called_next s : well_called (next_id s).
Proof. unfold next_id. by destruct (_ <=? _). Qed.

Lemma called_agent m s k : well_called (read_agent m s k).
Proof. apply called_bind; [apply called_get|intros o; apply called_some]. Qed.

Lemma called_proof m s k : well_called (read_proof m s k).
Proof. apply called_bind; [apply called_get|intros o; apply called_some]. Qed.

Create HintDb called discriminated.
#[export] Hint Resolve called_require called_some called_get called_put called_verifier called_next called_agent called_proof : called.

(** Unpacks the types of the arguments, then follows the body. *)
Ltac typed_inv :=
  repeat match goal with
  | H : Forall _ (_ :: _) |- _ => apply Forall_cons in H as [? H]; cbn [fst snd] in *
  | H : ∃ v, _ ∧ type_of v = TString |- _ => apply typed_string in H as [? H]
  | H : ∃ v, _ ∧ type_of v = TU64 |- _ => apply typed_u64 in H as [? H]
  | H : ∃ v, _ ∧ type_of v = TByteArray 32 |- _ => apply typed_account in H as [? H]
  end.

Ltac follow_body :=
  repeat first
    [ exact I
    | match goal with E : get_named_arg ?A ?a ?n = Ok _ |- context [get_named_arg ?A ?a ?n] => rewrite E; cbn [result_bind] end
    | apply called_bind; [solve [eauto with called]|intros ?]
    | match goal with |- well_called (let _ := _ in _) => cbv zeta end
    | case_match ].

Lemma zk_bodies_typed m display ep ps f args s c :
  (ep, ps, f) ∈ zk_entry_points m display → typed ps args → well_called (f s c args).
Proof.
  unfold zk_entry_points, typed. intros Hin Ht.
  repeat (apply elem_of_cons in Hin as [Hin|Hin]; [injection Hin as -> -> ->|]); [..|by apply not_elem_of_nil in Hin]; typed_inv;
    unfold register_vk, disable_vk, get_vk, is_active_vk, add_verifier, remove_verifier, record_verdict, revoke_verdict, get_verdict,
      pause, unpause, require_owner_or_gov, require_owner, require_not_paused, validate_string, validate_hash; follow_body.
Qed.

Lemma reg_bodies_typed m display ep ps f args s c :
  (ep, ps, f) ∈ reg_entry_points m display → typed ps args → well_called (f s c args).
Proof.
  unfold reg_entry_points, typed. intros Hin Ht.
  repeat (apply elem_of_cons in Hin as [Hin|Hin]; [injection Hin as -> -> ->|]); [..|by apply not_elem_of_nil in Hin]; typed_inv;
    unfold submit_proof, get_proof, revoke_proof, register_agent, get_reputation, validate_reg_hash;
    follow_body.
Qed.

Lemma call_typed {S R} (eps : list (entry_point S R)) s c ep ps f args :
  (∀ ep ps f, (ep, ps, f) ∈ eps → typed ps args → well_called (f s c args)) →
  List.find (λ e, bool_decide (fst (fst e) = ep)) eps = Some (ep, ps, f) → typed ps args →
  well_called (call_entry eps s c ep args).
Proof.
  intros Hbodies Hf Ht. unfold call_entry. rewrite Hf. apply List.find_some in Hf as [Hin _].
  apply (Hbodies ep ps f); [by apply list_elem_of_In|exact Ht].
Qed.
