(* ===== verification/Casper.v ===== *)
(** * Submitting transactions ([engine/internal/submitter/casper.go])

    The transactions the engine builds for the contracts, and the loop that submits
    one, asks the node after an ambiguous failure whether it landed, and retries.
    The node and the clock are the interface [World]: submitting, looking up,
    waiting. The transaction format, its hash and the signature are the SDK's:
    parameters. A nil pointer that would be dereferenced is the outcome [None]. *)

From S2P Require Import Prelude GoLib Json Engine Contracts.
From Stdlib Require Import Floats.SpecFloat.

Local Open Scope Z_scope.

(** ** Errors of the node *)

(** What the code asks of an error: [errors.Is(err, context.DeadlineExceeded)],
    [errors.As] to a [net.Error] with [Timeout()], and its text. *)
Record RpcError := { deadline : bool; net_timeout : bool; err_text : string }.

Definition transientMarkers : list string :=
  ["connection reset"; "connection refused"; "broken pipe"; "eof"; "i/o timeout"; "timeout"; "temporarily unavailable";
   "service unavailable"; "bad gateway"; "gateway timeout"; "internal server error"; "status 5"]%string.

Definition notFoundMarkers : list string :=
  ["not found"; "unknown transaction"; "transaction not found"; "no such transaction"; "failed to get transaction";
   "-32601"; "-32603"]%string.

Definition isRetryableRPCError (e : RpcError) : bool :=
  deadline e || net_timeout e || existsb (contains (to_lower (err_text e))) transientMarkers.

Definition isNotFoundError (e : RpcError) : bool := existsb (contains (to_lower (err_text e))) notFoundMarkers.

(** ** Transactions *)

Definition defaultTTL : Z := 30 * minute.
Definition defaultGasAmount : Z := 3000000000.

(** The payload: whose key, when, how long, on which chain, the pricing, the
    contract and the entry point, the arguments. *)
Record Payload := {
  Initiator : bytes; Timestamp : time; TTL : Z; ChainName : string;
  GasPriceTolerance : Z; StandardPayment : bool; PaymentAmount : Z;
  PArgs : Args; ByHash : bytes; EntryPoint : string;
}.

(** [copy(hash[:], hashBytes)] into a zeroed array of 32 bytes. *)
Definition copy32 (b : bytes) : bytes := take 32 b ++ replicate (32 - length b) Byte.x00.

(** ** The node *)

Class World (W : Type) := {
  put_tx : W → Payload → W * result RpcError (option string);
  get_tx : W → string → W * option RpcError;
  sleep : W → Z → W * option RpcError;
}.

Record retryConfig := { maxAttempts : Z; initialBackoff : Z; backoffFactor : float64 }.

Definition defaultMaxAttempts : Z := 3.
Definition defaultInitialBackoff : Z := 200 * 1000000.
Definition defaultBackoffFactor : float64 := f_of_Z 2.
Definition defaultRetry : retryConfig :=
  {| maxAttempts := defaultMaxAttempts; initialBackoff := defaultInitialBackoff; backoffFactor := defaultBackoffFactor |}.

Inductive RetryError :=
| RawError (e : RpcError)
| LookupBroken (put_err lookup_err : RpcError)
| ContextDone (e : RpcError)
| ExhaustedLookup (attempts : Z) (last lookup_err : RpcError)
| Exhausted (attempts : Z) (last : RpcError).

Inductive SubmitError :=
| ErrEnvNotSet (name : string)
| ErrDecodeHash
| ErrSDK (text : string)
| ErrPut (e : RetryError)
| ErrMarshalMetadata
| ErrParseAccount.

Record CasperSubmitter := { chain : string; public_key : bytes; retry : retryConfig }.

(** [New]: the secp256k1 key of the file, else its ed25519 key. *)
Definition New (chain_name : string) (secp ed : option bytes) : option CasperSubmitter :=
  match (match secp with Some k => Some k | None => ed end) with
  | Some k => Some {| chain := chain_name; public_key := k; retry := defaultRetry |}
  | None => None
  end.

(** [time.Duration(x)]: truncation of a float towards zero. *)
Definition duration_of (x : float64) : Z :=
  match x with
  | S754_finite neg m e => let v := if 0 <=? e then Zpos m * 2 ^ e else Zpos m / 2 ^ (- e) in if neg then - v else v
  | _ => 0
  end.

Definition next_backoff (factor : float64) (backoff : Z) : Z := duration_of (f_mul (f_of_Z backoff) factor).

Section submit.
Context {W : Type} `{!World W}.
(** [key.NewHash] then [ToHex]; the hash of a payload in hex; the error of
    building, making or signing a transaction. *)
Context (new_hash : string → option string) (tx_hash : Payload → string) (seal : Payload → option string).

Definition checkTxLanded (w : W) (h : string) : W * (bool * option RpcError) :=
  let '(w, e) := get_tx w h in
  match e with
  | None => (w, (true, None))
  | Some e => (w, if isNotFoundError e then (false, None) else (false, Some e))
  end.

Definition synthesizePutResult (h : string) : option string := new_hash h.

(** The lookup after the attempts are used up. *)
Definition final_check (max : Z) (p : Payload) (w : W) (lastErr : RpcError) : W * result RetryError (option string) :=
  let '(w, (landed, lookupErr)) := checkTxLanded w (tx_hash p) in
  if landed then (w, Ok (synthesizePutResult (tx_hash p)))
  else match lookupErr with
       | Some e => if negb (isNotFoundError e) then (w, Err (ExhaustedLookup max lastErr e)) else (w, Err (Exhausted max lastErr))
       | None => (w, Err (Exhausted max lastErr))
       end.

(** The attempts, [more] after this one. *)
Fixpoint attempts (max : Z) (factor : float64) (p : Payload) (more : nat) (w : W) (backoff : Z)
    : W * result RetryError (option string) :=
  let '(w, res) := put_tx w p in
  match res with
  | Ok h => (w, Ok h)
  | Err e =>
      if negb (isRetryableRPCError e) then (w, Err (RawError e))
      else
        let '(w, (landed, lookupErr)) := checkTxLanded w (tx_hash p) in
        if landed then (w, Ok (synthesizePutResult (tx_hash p)))
        else
          let go_on :=
            match more with
            | O => final_check max p w e
            | S more =>
                let '(w, done) := sleep w backoff in
                match done with
                | Some ce => (w, Err (ContextDone ce))
                | None => attempts max factor p more w (next_backoff factor backoff)
                end
            end in
          match lookupErr with
          | Some le => if negb (isNotFoundError le) then (w, Err (LookupBroken e le)) else go_on
          | None => go_on
          end
  end.

Definition putWithIdempotentRetry (r : retryConfig) (w : W) (p : Payload) : W * result RetryError (option string) :=
  let max := if maxAttempts r <=? 0 then defaultMaxAttempts else maxAttempts r in
  let backoff := if initialBackoff r <=? 0 then defaultInitialBackoff else initialBackoff r in
  let factor := if f_leb (backoffFactor r) f_zero then defaultBackoffFactor else backoffFactor r in
  attempts max factor p (Z.to_nat (max - 1)) w backoff.

Definition payload_of (s : CasperSubmitter) (at_ : time) (contract : bytes) (entryPoint : string) (args : Args) : Payload :=
  {| Initiator := public_key s; Timestamp := at_; TTL := defaultTTL; ChainName := chain s;
     GasPriceTolerance := 1; StandardPayment := true; PaymentAmount := defaultGasAmount;
     PArgs := args; ByHash := copy32 contract; EntryPoint := entryPoint |}.

(** The hash that is returned, or a nil pointer. *)
Definition putTransaction (s : CasperSubmitter) (w : W) (at_ : time) (contractHash entryPoint : string) (args : Args)
    : W * option (result SubmitError string) :=
  match hex_decode contractHash with
  | None => (w, Some (Err ErrDecodeHash))
  | Some hashBytes =>
      let p := payload_of s at_ hashBytes entryPoint args in
      match seal p with
      | Some e => (w, Some (Err (ErrSDK e)))
      | None =>
          match putWithIdempotentRetry (retry s) w p with
          | (w, Err e) => (w, Some (Err (ErrPut e)))
          | (w, Ok None) => (w, None)
          | (w, Ok (Some returnedHash)) => (w, Some (Ok returnedHash))
          end
      end
  end.

(** ** The operations *)

(** The environment variable of the contract is looked up first. *)
Definition with_contract (getenv : string → string) (w : W) (name : string)
    (k : string → W * option (result SubmitError string)) : W * option (result SubmitError string) :=
  let contractHash := getenv name in
  if bool_decide (contractHash = ""%string) then (w, Some (Err (ErrEnvNotSet name))) else k contractHash.

Definition submit_args (p : Proof) : Args :=
  [("proof_hash", CLString (PH p)); ("input_hash", CLString (IH p)); ("output_hash", CLString (OH p)); ("model_hash", CLString (MH p))]%string.

Definition Submit (s : CasperSubmitter) (getenv : string → string) (w : W) (at_ : time) (p : Proof) :=
  with_contract getenv w "CONTRACT_PROOF_REGISTRY" (λ h, putTransaction s w at_ h "submit_proof" (submit_args p)).

Definition revoke_args (pid reason : string) : Args := [("proof_id", CLString pid); ("reason", CLString reason)]%string.

Definition Revoke (s : CasperSubmitter) (getenv : string → string) (w : W) (at_ : time) (pid reason : string) :=
  with_contract getenv w "CONTRACT_PROOF_REGISTRY" (λ h, putTransaction s w at_ h "revoke_proof" (revoke_args pid reason)).

Definition model_args (modelID modelHash verifierContract meta : string) : Args :=
  [("model_id", CLString modelID); ("model_hash", CLString modelHash); ("verifier_contract", CLString verifierContract);
   ("metadata", CLString meta)]%string.

(** [json.Marshal] of a map of strings, [None] the nil map: the keys are sorted. *)
Definition metadata_json (metadata : option (gmap string string)) : json :=
  match metadata with
  | None => JNull
  | Some m => JObj ((λ kv, (fst kv, JStr (snd kv))) <$> sort_slice (λ a b, string_ltb (fst a) (fst b)) (map_to_list m))
  end.

Definition SubmitModelRegistration (s : CasperSubmitter) (getenv : string → string) (w : W) (at_ : time)
    (modelID modelHash verifierContract : string) (metadata : option (gmap string string)) :=
  with_contract getenv w "CONTRACT_MODEL_REGISTRY" (λ h,
    match marshal (metadata_json metadata) with
    | None => (w, Some (Err ErrMarshalMetadata))
    | Some meta => putTransaction s w at_ h "register_model" (model_args modelID modelHash verifierContract meta)
    end).

Definition vk_args (circuitID vkHash curve backend : string) (governanceApproved : Z) : Args :=
  [("governance_approved", CLUInt64 governanceApproved); ("circuit_id", CLString circuitID); ("vk_hash", CLString vkHash);
   ("curve", CLString curve); ("backend", CLString backend)]%string.

Definition RegisterZkVk (s : CasperSubmitter) (getenv : string → string) (w : W) (at_ : time)
    (circuitID vkHash curve backend : string) (governanceApproved : Z) :=
  with_contract getenv w "CONTRACT_ZK_VERIFIER" (λ h,
    putTransaction s w at_ h "register_vk" (vk_args circuitID vkHash curve backend governanceApproved)).

Definition verdict_args (circuitID proofHash publicInputsHash modelID : string) (valid : bool) : Args :=
  [("circuit_id", CLString circuitID); ("proof_hash", CLString proofHash); ("public_inputs_hash", CLString publicInputsHash);
   ("model_id", CLString modelID); ("verdict", CLUInt64 (if valid then 1 else 0))]%string.

Definition RecordZkVerdict (s : CasperSubmitter) (getenv : string → string) (w : W) (at_ : time)
    (circuitID proofHash publicInputsHash modelID : string) (valid : bool) :=
  with_contract getenv w "CONTRACT_ZK_VERIFIER" (λ h,
    putTransaction s w at_ h "record_verdict" (verdict_args circuitID proofHash publicInputsHash modelID valid)).

Definition verifier_args (acc : bytes) : Args := [("verifier", CLByteArray acc)]%string.

(** [new_account_hash] is [key.NewAccountHash]. *)
Definition AddZkVerifier (new_account_hash : string → option bytes) (s : CasperSubmitter) (getenv : string → string) (w : W)
    (at_ : time) (verifierAccountHash : string) :=
  with_contract getenv w "CONTRACT_ZK_VERIFIER" (λ h,
    match new_account_hash verifierAccountHash with
    | None => (w, Some (Err ErrParseAccount))
    | Some acc => putTransaction s w at_ h "add_verifier" (verifier_args acc)
    end).
End submit.

(** ** The calls of a run *)

Inductive event :=
| EPut (p : Payload) (answer : result RpcError (option string))
| EGet (h : string) (answer : option RpcError)
| ESleep (d : Z) (answer : option RpcError).

(** Any world, with the calls made so far. *)
#[export] Instance logged_World {W} `{!World W} : World (W * list event) := {
  put_tx wl p := let '(w, r) := put_tx (fst wl) p in ((w, snd wl ++ [EPut p r]), r);
  get_tx wl h := let '(w, r) := get_tx (fst wl) h in ((w, snd wl ++ [EGet h r]), r);
  sleep wl d := let '(w, r) := sleep (fst wl) d in ((w, snd wl ++ [ESleep d r]), r);
}.

Definition is_put (e : event) : bool := match e with EPut _ _ => true | _ => false end.

(** Tries that failed: a put that failed for a transient reason, the node saying
    that it does not have the transaction, and the wait before the next put. *)
Fixpoint failed_tries (h : string) (factor : float64) (p : Payload) (errs : list (RpcError * RpcError)) (backoff : Z) : list event :=
  match errs with
  | [] => []
  | (e, a) :: errs =>
      [EPut p (Err e); EGet h (Some a); ESleep backoff None] ++ failed_tries h factor p errs (next_backoff factor backoff)
  end.

Definition retried (ea : RpcError * RpcError) : Prop := isRetryableRPCError (fst ea) = true ∧ isNotFoundError (snd ea) = true.

(** How the last try ends. *)
Inductive last_try (tx_hash : Payload → string) (new_hash : string → option string) (max : Z) (p : Payload)
    : list event → result RetryError (option string) → Prop :=
| last_ok h : last_try tx_hash new_hash max p [EPut p (Ok h)] (Ok h)
| last_raw e : isRetryableRPCError e = false → last_try tx_hash new_hash max p [EPut p (Err e)] (Err (RawError e))
| last_landed e : isRetryableRPCError e = true →
    last_try tx_hash new_hash max p [EPut p (Err e); EGet (tx_hash p) None] (Ok (new_hash (tx_hash p)))
| last_broken e le : isRetryableRPCError e = true → isNotFoundError le = false →
    last_try tx_hash new_hash max p [EPut p (Err e); EGet (tx_hash p) (Some le)] (Err (LookupBroken e le))
| last_done e a d ce : isRetryableRPCError e = true → isNotFoundError a = true →
    last_try tx_hash new_hash max p [EPut p (Err e); EGet (tx_hash p) (Some a); ESleep d (Some ce)] (Err (ContextDone ce))
| last_final_landed e a : isRetryableRPCError e = true → isNotFoundError a = true →
    last_try tx_hash new_hash max p [EPut p (Err e); EGet (tx_hash p) (Some a); EGet (tx_hash p) None] (Ok (new_hash (tx_hash p)))
| last_final_broken e a le : isRetryableRPCError e = true → isNotFoundError a = true → isNotFoundError le = false →
    last_try tx_hash new_hash max p [EPut p (Err e); EGet (tx_hash p) (Some a); EGet (tx_hash p) (Some le)]
      (Err (ExhaustedLookup max e le))
| last_exhausted e a a' : isRetryableRPCError e = true → isNotFoundError a = true → isNotFoundError a' = true →
    last_try tx_hash new_hash max p [EPut p (Err e); EGet (tx_hash p) (Some a); EGet (tx_hash p) (Some a')] (Err (Exhausted max e)).

Section log.
Context {W : Type} `{!World W} (new_hash : string → option string) (tx_hash : Payload → string).
Notation attempts := (attempts (W := W * list event) new_hash tx_hash).

Lemma landed_log wl h wl' landed err :
  checkTxLanded (W := W * list event) wl h = (wl', (landed, err)) →
  ∃ a, snd wl' = snd wl ++ [EGet h a] ∧
    match a with
    | None => landed = true ∧ err = None
    | Some e => landed = false ∧ if isNotFoundError e then err = None else err = Some e
    end.
Proof.
  unfold checkTxLanded. cbn [get_tx logged_World]. destruct (get_tx (fst wl) h) as [w1 a]. intros H. exists a.
  destruct a as [e|]; [destruct (isNotFoundError e) eqn:E|]; by simplify_eq/=; rewrite ?E.
Qed.

(** The log of the attempts: failed tries, at most as many as may follow, then the
    last one. *)
Lemma attempts_log max factor p more wl backoff wl' r :
  attempts max factor p more wl backoff = (wl', r) →
  ∃ errs final, snd wl' = snd wl ++ failed_tries (tx_hash p) factor p errs backoff ++ final ∧ (length errs <= more)%nat ∧
    Forall retried errs ∧ last_try tx_hash new_hash max p final r.
Proof.
  revert wl backoff. induction more as [|more IH]; intros wl backoff H; cbn [Casper.attempts put_tx logged_World] in H;
    destruct (put_tx (fst wl) p) as [w1 [h|e]].
  1,3: injection H as <- <-; exists [], [EPut p (Ok h)]; split; [done|]; split; [cbn; lia|]; split; [constructor|constructor].
  all: destruct (isRetryableRPCError e) eqn:Er; cbn [negb] in H;
    [|injection H as <- <-; exists [], [EPut p (Err e)]; split; [done|]; split; [cbn; lia|]; split; [constructor|by constructor]].
  all: destruct (checkTxLanded _ (tx_hash p)) as [wl2 [landed lookupErr]] eqn:El; apply landed_log in El as (a & Hl & Ha);
    cbn [snd] in Hl; destruct a as [a|].
  all: try (destruct Ha as [-> ->]; injection H as <- <-; exists [], [EPut p (Err e); EGet (tx_hash p) None];
    split; [rewrite Hl, <- app_assoc; done|]; split; [cbn; lia|]; split; [constructor|by constructor]).
  all: destruct Ha as [-> Ha]; destruct (isNotFoundError a) eqn:Ea; subst lookupErr;
    [|rewrite Ea in H; cbn [negb] in H; injection H as <- <-; exists [], [EPut p (Err e); EGet (tx_hash p) (Some a)];
      split; [rewrite Hl, <- app_assoc; done|]; split; [cbn; lia|]; split; [constructor|by constructor]].
  - unfold final_check in H. destruct (checkTxLanded _ (tx_hash p)) as [wl3 [landed lookupErr]] eqn:El; apply landed_log in El as (b & Hl3 & Hb).
    destruct b as [b|]; destruct Hb as [-> Hb]; [destruct (isNotFoundError b) eqn:Eb; subst lookupErr; rewrite ?Eb in H; cbn [negb] in H|];
      injection H as <- <-.
    + exists [], [EPut p (Err e); EGet (tx_hash p) (Some a); EGet (tx_hash p) (Some b)]. split; [by rewrite Hl3, Hl, <- !app_assoc|].
      split; [cbn; lia|]. split; [constructor|]. by apply last_exhausted.
    + exists [], [EPut p (Err e); EGet (tx_hash p) (Some a); EGet (tx_hash p) (Some b)]. split; [by rewrite Hl3, Hl, <- !app_assoc|].
      split; [cbn; lia|]. split; [constructor|]. by apply (last_final_broken _ _ _ _ e a b).
    + exists [], [EPut p (Err e); EGet (tx_hash p) (Some a); EGet (tx_hash p) None]. split; [by rewrite Hl3, Hl, <- !app_assoc|].
      split; [cbn; lia|]. split; [constructor|]. by apply (last_final_landed _ _ _ _ e a).
  - cbn [sleep logged_World] in H. destruct (sleep (fst wl2) backoff) as [w3 [ce|]] eqn:Es.
    + injection H as <- <-. exists [], [EPut p (Err e); EGet (tx_hash p) (Some a); ESleep backoff (Some ce)].
      split; [cbn [snd]; by rewrite Hl, <- !app_assoc|]. split; [cbn; lia|]. split; [constructor|]. by apply (last_done _ _ _ _ e a).
    + destruct (IH _ _ H) as (errs & final & Hlog & Hlen & Hall & Hlast). exists ((e, a) :: errs), final.
      split; [rewrite Hlog; cbn [snd failed_tries]; by rewrite Hl, <- !app_assoc|]. split; [cbn; lia|].
      split; [by constructor|exact Hlast].
Qed.
End log.

(** ** A node on a chain *)

(** What the code relies on of a node: the transactions it has taken into the
    chain, in order and with the call each makes there, only grow, hold every hash
    once and call under the account of the initiator's key; an accepted
    submission is in and names its hash; a lookup that succeeds names one that is in, one that answers not found
    names one that is not. *)
Class Chain (W : Type) `{!World W} (tx_hash : Payload → string) (account : bytes → bytes) := {
  included : W → list (Payload * Call);
  included_once w : NoDup (tx_hash ∘ fst <$> included w);
  included_caller w p c : (p, c) ∈ included w → caller c = account (Initiator p);
  put_grows w p : ∃ l, included (fst (put_tx w p)) = included w ++ l;
  get_grows w h : ∃ l, included (fst (get_tx w h)) = included w ++ l;
  sleep_grows w d : ∃ l, included (fst (sleep w d)) = included w ++ l;
  put_accepted w p w' h : put_tx w p = (w', Ok h) → h = Some (tx_hash p) ∧ tx_hash p ∈ (tx_hash ∘ fst <$> included w');
  get_found w h w' : get_tx w h = (w', None) → h ∈ (tx_hash ∘ fst <$> included w');
  get_absent w h w' e : get_tx w h = (w', Some e) → isNotFoundError e = true → h ∉ (tx_hash ∘ fst <$> included w');
}.

Section chain.
Context {W : Type} `{!World W} (tx_hash : Payload → string) (account : bytes → bytes) `{!Chain W tx_hash account}.
Context (new_hash : string → option string) (new_hash_hex : ∀ p, new_hash (tx_hash p) = Some (tx_hash p)).

Definition hashes (w : W) : list string := tx_hash ∘ fst <$> included w.

Definition grows (w w' : W) : Prop := ∃ l, included w' = included w ++ l.

#[local] Instance grows_preorder : PreOrder grows.
Proof.
  split; [intros w; exists []; by rewrite app_nil_r|]. intros w1 w2 w3 [l Hl] [k Hk]. exists (l ++ k). by rewrite Hk, Hl, app_assoc.
Qed.

Lemma landed_spec w h w' landed err :
  checkTxLanded w h = (w', (landed, err)) →
  grows w w' ∧
  match landed, err with
  | true, _ => h ∈ hashes w'
  | false, None => h ∉ hashes w'
  | false, Some e => isNotFoundError e = false
  end.
Proof.
  unfold checkTxLanded. pose proof (get_grows w h) as Hg. destruct (get_tx w h) as [w1 [e|]] eqn:E.
  - destruct (isNotFoundError e) eqn:En; intros [= <- <- <-]; (split; [exact Hg|]); [|exact En]. exact (get_absent _ _ _ _ E En).
  - intros [= <- <- <-]. split; [exact Hg|]. exact (get_found _ _ _ E).
Qed.

(** What the answer of the retries says of the chain. *)
Definition answer_tells (w' : W) (p : Payload) (r : result RetryError (option string)) : Prop :=
  match r with
  | Ok h => h = Some (tx_hash p) ∧ tx_hash p ∈ hashes w'
  | Err (Exhausted _ _) => tx_hash p ∉ hashes w'
  | Err _ => True
  end.

Lemma attempts_tell max factor p more w backoff w' r :
  attempts new_hash tx_hash max factor p more w backoff = (w', r) → grows w w' ∧ answer_tells w' p r.
Proof.
  revert w backoff. induction more as [|more IH]; intros w backoff H; cbn [attempts] in H;
    pose proof (put_grows w p) as Hg; destruct (put_tx w p) as [w1 [h|e]] eqn:Ep; cbn [fst] in Hg; change (grows w w1) in Hg.
  1,3: injection H as <- <-; exact (conj Hg (put_accepted _ _ _ _ Ep)).
  all: destruct (isRetryableRPCError e); cbn [negb] in H; [|injection H as <- <-; by split].
  all: destruct (checkTxLanded w1 (tx_hash p)) as [w2 [[] lookupErr]] eqn:El; apply landed_spec in El as (Hg2 & Hl);
    assert (grows w w2) as Hw2 by (by etrans);
    [injection H as <- <-; split; [exact Hw2|split; [apply new_hash_hex|exact Hl]]|].
  all: destruct lookupErr as [le|]; [rewrite Hl in H; cbn [negb] in H; injection H as <- <-; by split|].
  - unfold final_check in H. destruct (checkTxLanded w2 (tx_hash p)) as [w3 [[] lookupErr]] eqn:El; apply landed_spec in El as (Hg3 & Hl3);
      assert (grows w w3) as Hw3 by (by etrans);
      [injection H as <- <-; split; [exact Hw3|split; [apply new_hash_hex|exact Hl3]]|].
    destruct lookupErr as [le|]; [rewrite Hl3 in H; cbn [negb] in H|]; injection H as <- <-; by split.
  - pose proof (sleep_grows w2 backoff) as Hg3. destruct (sleep w2 backoff) as [w3 [ce|]]; cbn [fst] in Hg3; change (grows w2 w3) in Hg3.
    + injection H as <- <-. split; [by etrans|done].
    + destruct (IH _ _ H) as [Hg4 Ha]. split; [|exact Ha]. etrans; [exact Hw2|]. by etrans.
Qed.

(** What one call of the submitter means: it fails before the node is asked, or the
    answer is the one of the retries. It never dereferences a nil pointer. *)
Lemma put_transaction_tell seal s w at_ h ep args w' r :
  putTransaction new_hash tx_hash seal s w at_ h ep args = (w', r) →
  ∃ ans, r = Some ans ∧
    match ans with
    | Ok x => ∃ b, hex_decode h = Some b ∧ x = tx_hash (payload_of s at_ b ep args) ∧ x ∈ hashes w'
    | Err (ErrPut (Exhausted _ _)) => ∃ b, hex_decode h = Some b ∧ tx_hash (payload_of s at_ b ep args) ∉ hashes w'
    | Err _ => True
    end.
Proof.
  unfold putTransaction. destruct (hex_decode h) as [b|]; [|by intros [= <- <-]; eexists].
  destruct (seal _); [by intros [= <- <-]; eexists|].
  destruct (putWithIdempotentRetry _ _ _ _ _) as [w1 ans] eqn:E. apply attempts_tell in E as [_ Ha].
  destruct ans as [h0|e].
  - destruct Ha as [-> Hin]. intros [= <- <-]. eexists. split; [done|]. by exists b.
  - intros [= <- <-]. eexists. split; [done|]. destruct e; try done. by exists b.
Qed.

(** ** The contract behind the node *)

Context (max_item_key : nat) (display : bytes → string) (installer : Call).

Definition tx_on (target : bytes) (pc : Payload * Call) : option Tx :=
  if bool_decide (ByHash (fst pc) = target)
  then Some {| tx_call := snd pc; tx_entry := EntryPoint (fst pc); tx_args := PArgs (fst pc) |} else None.

(** The verdict recorder installed at [target], after these transactions. *)
Definition zk_state (target : bytes) (l : list (Payload * Call)) : ZkState :=
  exec_all (zk_entry_points max_item_key display) (zk_install installer) (omap (tx_on target) l).

Lemma recorded_at l1 l2 p c cid ph pih mid valid :
  EntryPoint p = "record_verdict"%string → PArgs p = verdict_args cid ph pih mid valid →
  record_ready max_item_key display (zk_state (ByHash p) l1) (caller c) cid ph pih mid = true →
  ∃ rv, verdicts (zk_state (ByHash p) (l1 ++ (p, c) :: l2)) !! verdict_key cid ph =
    Some ((cid, ph, pih), (mid, display (caller c), ""%string), (now c, if valid then 1 else 0, rv)).
Proof.
  intros He Ha Hr. unfold zk_state. rewrite omap_app. cbn [omap list_omap]. unfold tx_on at 2. cbn [fst snd].
  rewrite bool_decide_true by done. unfold exec_all. rewrite foldl_app. cbn [foldl].
  set (s1 := foldl _ _ (omap (tx_on (ByHash p)) l1)). change (foldl _ ?x _) with (exec_all (zk_entry_points max_item_key display) x (omap (tx_on (ByHash p)) l2)).
  assert (record_verdict max_item_key display s1 c (PArgs p) =
    Ok (with_verdicts s1 (<[verdict_key cid ph := new_verdict display c cid ph pih mid (if valid then 1 else 0)]> (verdicts s1)), ZUnit)) as Hrec.
  { rewrite Ha. by apply record_verdict_ok. }
  assert (exec (zk_entry_points max_item_key display) s1 {| tx_call := c; tx_entry := EntryPoint p; tx_args := PArgs p |} =
    with_verdicts s1 (<[verdict_key cid ph := new_verdict display c cid ph pih mid (if valid then 1 else 0)]> (verdicts s1))) as ->.
  { unfold exec, call_entry. cbn [tx_call tx_entry tx_args]. rewrite He. cbn [List.find zk_entry_points fst].
    repeat (rewrite bool_decide_false by done). rewrite bool_decide_true by done. by rewrite Hrec. }
  set (s2 := with_verdicts s1 _).
  assert (verdicts s2 !! verdict_key cid ph = Some ((cid, ph, pih), (mid, display (caller c), ""%string), (now c, if valid then 1 else 0, 0))) as H2.
  { cbn [s2 verdicts with_verdicts]. rewrite lookup_insert_eq. by destruct valid. }
  destruct (proj2 (run_keeps max_item_key display (omap (M := list) (tx_on (ByHash p)) l2) s2) _ _ _ _ _ _ H2) as (rv & Hrv & _).
  by exists rv.
Qed.
End chain.

(** ** What reaches the node *)

Section reached.
Context {W : Type} `{!World W} (new_hash : string → option string) (tx_hash : Payload → string).
Context (seal : Payload → option string) (max_item_key : nat) (display debug : bytes → string).

Lemma failed_tries_puts h factor p errs backoff q a : EPut q a ∈ failed_tries h factor p errs backoff → q = p.
Proof.
  revert backoff. induction errs as [|[e b] errs IH]; intros backoff; cbn [failed_tries]; [by intros ?%elem_of_nil|].
  intros [[[= -> _]|[[=]|[[=]|[]%elem_of_nil]%elem_of_cons]%elem_of_cons]%elem_of_cons|H]%elem_of_app; [done|by eapply IH].
Qed.

Lemma last_try_puts max p l r q a : last_try tx_hash new_hash max p l r → EPut q a ∈ l → q = p.
Proof.
  intros H Hin. destruct H; repeat (apply elem_of_cons in Hin as [Hin|Hin]; [first [discriminate Hin|by injection Hin as -> _]|]); by apply not_elem_of_nil in Hin.
Qed.

(** The calls that a run makes. *)
Definition calls_of {A} (r : W * list event * A) : list event := snd (fst r).

Lemma transaction_puts s w at_ h ep args q a :
  EPut q a ∈ calls_of (putTransaction new_hash tx_hash seal s (w, []) at_ h ep args) → EntryPoint q = ep ∧ PArgs q = args.
Proof.
  unfold calls_of, putTransaction. destruct (hex_decode h) as [b|]; [|by intros ?%elem_of_nil].
  destruct (seal _); [by intros ?%elem_of_nil|].
  destruct (putWithIdempotentRetry _ _ _ _ _) as [wl r] eqn:E. apply attempts_log in E as (errs & final & Hl & _ & _ & Hlast).
  assert (EPut q a ∈ snd wl → EntryPoint q = ep ∧ PArgs q = args) as Hq.
  { rewrite Hl. cbn [snd app]. intros [Hin%failed_tries_puts|Hin]%elem_of_app; [by subst q|].
    by rewrite (last_try_puts _ _ _ _ _ _ Hlast Hin). }
  destruct r as [[x|]|e]; exact Hq.
Qed.

Lemma operation_puts s getenv w name at_ ep args q a :
  EPut q a ∈ calls_of (with_contract getenv (w, []) name (λ h, putTransaction new_hash tx_hash seal s (w, []) at_ h ep args)) →
  EntryPoint q = ep ∧ PArgs q = args.
Proof.
  unfold with_contract. case_bool_decide; [by intros ?%elem_of_nil|]. apply transaction_puts.
Qed.

(** C10. Every transaction but one is well typed for its contract: whatever reaches the
    node from the operations on the proof registry and on the verdict recorder
    names an entry point of that contract and gives each of its parameters an
    argument of the declared type, so in no state and for no caller is the call
    turned down for a missing entry point, a missing argument or a mistyped one.
    The registration of a model is turned down always: its arguments are not the
    ones that the contract reads. *)
Theorem transactions_well_typed new_account_hash s getenv w at_
    (Hacc : ∀ t b, new_account_hash t = Some b → length b = 32%nat) :
  (∀ p q a, EPut q a ∈ calls_of (Submit new_hash tx_hash seal s getenv (w, []) at_ p) →
     ∀ st c, well_called (call_entry (reg_entry_points max_item_key display) st c (EntryPoint q) (PArgs q))) ∧
  (∀ pid reason q a, EPut q a ∈ calls_of (Revoke new_hash tx_hash seal s getenv (w, []) at_ pid reason) →
     ∀ st c, well_called (call_entry (reg_entry_points max_item_key display) st c (EntryPoint q) (PArgs q))) ∧
  (∀ cid vk curve backend gov q a,
     EPut q a ∈ calls_of (RegisterZkVk new_hash tx_hash seal s getenv (w, []) at_ cid vk curve backend gov) →
     ∀ st c, well_called (call_entry (zk_entry_points max_item_key display) st c (EntryPoint q) (PArgs q))) ∧
  (∀ cid ph pih mid valid q a,
     EPut q a ∈ calls_of (RecordZkVerdict new_hash tx_hash seal s getenv (w, []) at_ cid ph pih mid valid) →
     ∀ st c, well_called (call_entry (zk_entry_points max_item_key display) st c (EntryPoint q) (PArgs q))) ∧
  (∀ acc q a, EPut q a ∈ calls_of (AddZkVerifier new_hash tx_hash seal new_account_hash s getenv (w, []) at_ acc) →
     ∀ st c, well_called (call_entry (zk_entry_points max_item_key display) st c (EntryPoint q) (PArgs q))) ∧
  (∀ mid mh vc md q a, EPut q a ∈ calls_of (SubmitModelRegistration new_hash tx_hash seal s getenv (w, []) at_ mid mh vc md) →
     ∀ st c, call_entry (model_entry_points max_item_key debug) st c (EntryPoint q) (PArgs q) = Err MissingArgument).
Proof.
  split; [|split; [|split; [|split; [|split]]]].
  - intros p q a Hin st c. apply operation_puts in Hin as [-> ->].
    eapply call_typed; [intros ? ? ?; apply reg_bodies_typed|reflexivity|]. repeat constructor; by eexists.
  - intros pid reason q a Hin st c. apply operation_puts in Hin as [-> ->].
    eapply call_typed; [intros ? ? ?; apply reg_bodies_typed|reflexivity|]. repeat constructor; by eexists.
  - intros cid vk curve backend gov q a Hin st c. apply operation_puts in Hin as [-> ->].
    eapply call_typed; [intros ? ? ?; apply zk_bodies_typed|reflexivity|]. repeat constructor; by eexists.
  - intros cid ph pih mid valid q a Hin st c. apply operation_puts in Hin as [-> ->].
    eapply call_typed; [intros ? ? ?; apply zk_bodies_typed|reflexivity|]. repeat constructor; by eexists.
  - intros acc q a Hin st c. unfold AddZkVerifier, with_contract in Hin. case_bool_decide; [by apply not_elem_of_nil in Hin|].
    destruct (new_account_hash acc) as [b|] eqn:Eb; [|by apply not_elem_of_nil in Hin]. apply transaction_puts in Hin as [-> ->].
    eapply call_typed; [intros ? ? ?; apply zk_bodies_typed|reflexivity|]. repeat constructor. eexists. split; [reflexivity|].
    cbn. by rewrite (Hacc _ _ Eb).
  - intros mid mh vc md q a Hin st c. unfold SubmitModelRegistration, with_contract in Hin. case_bool_decide; [by apply not_elem_of_nil in Hin|].
    destruct (marshal _) as [meta|]; [|by apply not_elem_of_nil in Hin]. apply transaction_puts in Hin as [-> ->]. reflexivity.
Qed.
End reached.

(** ** From the submitter to the contract *)

Section on_chain.
Context {W : Type} `{!World W} (tx_hash : Payload → string) (account : bytes → bytes) `{!Chain W tx_hash account}.
Context (new_hash : string → option string) (max_item_key : nat) (display : bytes → string) (installer : Call).
Notation zk_at := (zk_state max_item_key display installer).

Lemma once_split w x : x ∈ hashes tx_hash account w →
  ∃ pre q c post, included w = pre ++ (q, c) :: post ∧ tx_hash q = x ∧
    x ∉ (tx_hash ∘ fst <$> pre) ∧ x ∉ (tx_hash ∘ fst <$> post).
Proof.
  intros ([q c] & -> & Hin)%list_elem_of_fmap. apply list_elem_of_split in Hin as (pre & post & Heq).
  exists pre, q, c, post. split; [exact Heq|]. split; [done|]. pose proof (included_once w) as Hnd. rewrite Heq, fmap_app in Hnd.
  apply NoDup_app in Hnd as (_ & Hdis & [Hp _]%NoDup_cons). split; [|exact Hp].
  intros Hpre. apply (Hdis _ Hpre). left.
Qed.

(** An answered verdict is on the chain exactly once, in what the contract's state
    is computed from. When [RecordZkVerdict] answers a hash it is the hash of its
    transaction, and exactly one transaction of the chain has it; if that is the
    one submitted and the contract was ready for it when it ran, the contract holds
    from then on the verdict with these hashes, this model, this account and the
    value 1 exactly when it was valid. When it gives up after its last lookup, the
    transaction is not on the chain. It never dereferences a nil pointer. *)
Theorem verdict_on_chain seal s getenv w at_ cid ph pih mid valid w' r
    (new_hash_hex : ∀ p, new_hash (tx_hash p) = Some (tx_hash p))
    (Hr : RecordZkVerdict new_hash tx_hash seal s getenv w at_ cid ph pih mid valid = (w', r)) :
  ∃ ans, r = Some ans ∧
    let p b := payload_of s at_ b "record_verdict" (verdict_args cid ph pih mid valid) in
    match ans with
    | Ok x =>
        ∃ b pre q c post, hex_decode (getenv "CONTRACT_ZK_VERIFIER"%string) = Some b ∧ x = tx_hash (p b) ∧
          included w' = pre ++ (q, c) :: post ∧ tx_hash q = x ∧
          x ∉ (tx_hash ∘ fst <$> pre) ∧ x ∉ (tx_hash ∘ fst <$> post) ∧
          (q = p b → record_ready max_item_key display (zk_at (copy32 b) pre) (account (public_key s)) cid ph pih mid = true →
           ∃ rv, verdicts (zk_at (copy32 b) (included w')) !! verdict_key cid ph =
             Some ((cid, ph, pih), (mid, display (account (public_key s)), ""%string), (now c, if valid then 1 else 0, rv)))
    | Err (ErrPut (Exhausted _ _)) =>
        ∃ b, hex_decode (getenv "CONTRACT_ZK_VERIFIER"%string) = Some b ∧ tx_hash (p b) ∉ hashes tx_hash account w'
    | Err _ => True
    end.
Proof.
  unfold RecordZkVerdict, with_contract in Hr. case_bool_decide; [injection Hr as <- <-; by eexists|].
  apply (put_transaction_tell tx_hash account new_hash new_hash_hex) in Hr as (ans & -> & Ha). exists ans. split; [done|]. cbn zeta.
  destruct ans as [x|e]; [|exact Ha].
  destruct Ha as (b & Hb & Hx & Hin). destruct (once_split _ _ Hin) as (pre & q & c & post & Hinc & Hq & Hpre & Hpost).
  exists b, pre, q, c, post. split; [exact Hb|]. split; [exact Hx|]. split; [exact Hinc|]. split; [exact Hq|].
  split; [exact Hpre|]. split; [exact Hpost|]. intros -> Hready. clear Hq Hx Hin.
  assert (caller c = account (public_key s)) as Hc.
  { apply (included_caller w' (payload_of s at_ b "record_verdict" (verdict_args cid ph pih mid valid)) c).
    rewrite Hinc. apply elem_of_app. right. left. }
  rewrite <- Hc in *. rewrite Hinc. by apply (recorded_at max_item_key display installer pre post (payload_of _ _ _ _ _) c).
Qed.
End on_chain.

(** ** Retries *)

(** C35. What a submission does to the node: failed tries, each a put, a lookup of the
    transaction's own hash that says not found, and a wait, and then one last try
    that decides; at most the configured number of puts, all of the one signed
    transaction. So between two puts the node has said that it does not have it. *)
Theorem retry_discipline {W} `{!World W} new_hash tx_hash r (w : W) p wl' res :
  putWithIdempotentRetry new_hash tx_hash r (w, []) p = (wl', res) →
  let max := if maxAttempts r <=? 0 then defaultMaxAttempts else maxAttempts r in
  let backoff := if initialBackoff r <=? 0 then defaultInitialBackoff else initialBackoff r in
  let factor := if f_leb (backoffFactor r) f_zero then defaultBackoffFactor else backoffFactor r in
  ∃ errs final, snd wl' = failed_tries (tx_hash p) factor p errs backoff ++ final ∧
    Forall retried errs ∧ last_try tx_hash new_hash max p final res ∧
    1 <= count is_put (snd wl') <= max.
Proof.
  cbn zeta. intros H. unfold putWithIdempotentRetry in H. apply attempts_log in H as (errs & final & Hl & Hlen & Hall & Hlast).
  cbn [snd app] in Hl. exists errs, final. split; [exact Hl|]. split; [exact Hall|]. split; [exact Hlast|]. rewrite Hl, count_app.
  assert (∀ l b, count is_put (failed_tries (tx_hash p) (if f_leb (backoffFactor r) f_zero then defaultBackoffFactor else backoffFactor r) p l b)
                 = Z.of_nat (length l)) as Hc.
  { induction l as [|[e a] l IH]; intros b; [done|]. cbn [failed_tries]. rewrite count_app, IH, !count_cons, count_nil. cbn [is_put length]. lia. }
  rewrite Hc. assert (count is_put final = 1) as -> by (by destruct Hlast).
  unfold defaultMaxAttempts in *. destruct (maxAttempts r <=? 0) eqn:E; bool_to_prop; lia.
Qed.

(** The waits of the default configuration. *)
Example default_waits :
  next_backoff defaultBackoffFactor defaultInitialBackoff = 400 * 1000000 ∧
  next_backoff defaultBackoffFactor (next_backoff defaultBackoffFactor defaultInitialBackoff) = 800 * 1000000.
Proof. split; vm_compute; reflexivity. Qed.

(** ** Witness *)

(** A node that loses requests and answers: the transactions that arrived, and what
    happens to the next puts. A transaction whose hash is there already has no
    effect. *)
Inductive fate := Delivered | AnswerLost | RequestLost.
Record Node := { arrived : list Payload; fates : list fate }.

Definition ex_error (text : string) : RpcError := {| deadline := false; net_timeout := false; err_text := text |}.
Definition ex_tx_hash (p : Payload) : string := hex_encode (bytes_of (EntryPoint p +:+ itoa (Timestamp p)))%string.
Definition ex_call (p : Payload) : Call := {| caller := Initiator p; now := 7 |}.

Definition take_in (l : list (Payload * Call)) (p : Payload) : list (Payload * Call) :=
  if bool_decide (ex_tx_hash p ∈ (ex_tx_hash ∘ fst <$> l)) then l else l ++ [(p, ex_call p)].

Definition taken (n : Node) : list (Payload * Call) := foldl take_in [] (arrived n).

Definition arrives (n : Node) (p : Payload) (fs : list fate) : Node := {| arrived := arrived n ++ [p]; fates := fs |}.

#[local] Instance node_World : World Node := {
  put_tx n p :=
    match fates n with
    | RequestLost :: fs => ({| arrived := arrived n; fates := fs |}, Err (ex_error "connection reset"))
    | AnswerLost :: fs => (arrives n p fs, Err (ex_error "EOF"))
    | Delivered :: fs => (arrives n p fs, Ok (Some (ex_tx_hash p)))
    | [] => (arrives n p [], Ok (Some (ex_tx_hash p)))
    end;
  get_tx n h := (n, if bool_decide (h ∈ (ex_tx_hash ∘ fst <$> taken n)) then None else Some (ex_error "transaction not found"));
  sleep n _ := (n, None);
}.

Lemma taken_arrives n p fs : taken (arrives n p fs) = take_in (taken n) p.
Proof. unfold taken, arrives. cbn [arrived]. by rewrite foldl_app. Qed.

Lemma take_in_grows l p : ∃ k, take_in l p = l ++ k.
Proof. unfold take_in. case_bool_decide; [exists []; by rewrite app_nil_r|by eexists]. Qed.

Lemma take_in_has l p : ex_tx_hash p ∈ (ex_tx_hash ∘ fst <$> take_in l p).
Proof. unfold take_in. case_bool_decide; [done|]. rewrite fmap_app. apply elem_of_app. right. left. Qed.

Lemma taken_ok l : NoDup (ex_tx_hash ∘ fst <$> foldl take_in [] l) ∧
  ∀ p c, (p, c) ∈ foldl take_in [] l → caller c = Initiator p.
Proof.
  induction l as [|p l [IH1 IH2]] using rev_ind; [split; [constructor|by intros p c ?%elem_of_nil]|].
  rewrite foldl_app. cbn [foldl]. unfold take_in at 1 3. case_bool_decide as Hin; [by split|]. split.
  - rewrite fmap_app. apply NoDup_app. split; [done|]. split; [|apply NoDup_singleton]. intros x Hx ->%list_elem_of_singleton. done.
  - intros q c [H|[= -> ->]%list_elem_of_singleton]%elem_of_app; [by apply IH2|done].
Qed.

#[local] Instance node_Chain : Chain Node ex_tx_hash id.
Proof.
  refine {| included := taken |}.
  - intros n. apply taken_ok.
  - intros n p c. apply taken_ok.
  - intros n p. cbn [put_tx node_World]. destruct (fates n) as [|[] fs]; cbn [fst]; rewrite ?taken_arrives; try apply take_in_grows.
    exists []. by rewrite app_nil_r.
  - intros n h. exists []. by rewrite app_nil_r.
  - intros n d. exists []. by rewrite app_nil_r.
  - intros n p n' h. cbn [put_tx node_World]. destruct (fates n) as [|[] fs]; intros [= <- <-]; (split; [done|]);
      rewrite taken_arrives; apply take_in_has.
  - intros n h n'. cbn [get_tx node_World]. case_bool_decide; [by intros [= <-]|done].
  - intros n h n' e. cbn [get_tx node_World]. case_bool_decide; [done|by intros [= <- <-]].
Defined.

Definition ex_submitter : CasperSubmitter := {| chain := "casper-test"; public_key := caller ex_owner; retry := defaultRetry |}.
Definition ex_getenv (n : string) : string := if bool_decide (n = "CONTRACT_ZK_VERIFIER"%string) then "ab"%string else ""%string.
Definition ex_contract : bytes := default [] (hex_decode "ab").
Definition ex_payload (at_ : time) (t : Tx) : Payload := payload_of ex_submitter at_ ex_contract (tx_entry t) (tx_args t).
Definition ex_node : Node :=
  {| arrived := zip_with ex_payload [1; 2] ex_setup; fates := [RequestLost; AnswerLost] |}.

(** The request is lost, the next answer is lost, the lookup finds it. *)
Definition ex_recorded : Node * option (result SubmitError string) :=
  RecordZkVerdict Some ex_tx_hash (λ _, None) ex_submitter ex_getenv ex_node 3 "c" (ex_hash (chr 98)) (ex_hash (chr 99)) "m" true.
Definition ex_verdict_payload : Payload :=
  payload_of ex_submitter 3 ex_contract "record_verdict" (verdict_args "c" (ex_hash (chr 98)) (ex_hash (chr 99)) "m" true).

Lemma verdict_on_chain_witness :
  snd ex_recorded = Some (Ok (ex_tx_hash ex_verdict_payload)) ∧
  ∃ rv, verdicts (zk_state 128 hex_encode ex_owner (copy32 ex_contract) (taken (fst ex_recorded))) !! ex_key =
    Some (("c", ex_hash (chr 98), ex_hash (chr 99)), ("m", hex_encode (caller ex_owner), ""), (7, 1, rv))%string.
Proof.
  assert (snd ex_recorded = Some (Ok (ex_tx_hash ex_verdict_payload))) as Hr by (vm_compute; reflexivity). split; [exact Hr|].
  destruct (verdict_on_chain ex_tx_hash id Some 128 hex_encode ex_owner (λ _, None) ex_submitter ex_getenv ex_node 3 "c"
    (ex_hash (chr 98)) (ex_hash (chr 99)) "m" true (fst ex_recorded) (snd ex_recorded) (λ _, eq_refl) (surjective_pairing ex_recorded)) as (ans & Hans & H).
  rewrite Hr in Hans. injection Hans as <-.
  destruct H as (b & pre & q & c & post & Hb & _ & Hinc & Hq & _ & _ & Hrec). injection Hb as <-.
  change (included (fst ex_recorded)) with (taken (fst ex_recorded)) in *.
  assert (taken (fst ex_recorded) =
    (λ p, (p, ex_call p)) <$> (zip_with ex_payload [1; 2] ex_setup ++ [ex_verdict_payload])) as Et by (vm_compute; reflexivity).
  rewrite Et in Hinc. destruct pre as [|p1 [|p2 [|p3 pre]]].
  - injection Hinc as <- _ _. by vm_compute in Hq.
  - injection Hinc as _ <- _ _. by vm_compute in Hq.
  - injection Hinc as <- <- <- <- <-. destruct (Hrec eq_refl) as (rv & Hrv); [vm_compute; reflexivity|]. exists rv. exact Hrv.
  - apply (f_equal length) in Hinc. rewrite length_app in Hinc. cbn in Hinc. lia.
Defined.

Definition ex_logged := putWithIdempotentRetry Some ex_tx_hash defaultRetry (ex_node, []) ex_verdict_payload.

Lemma retry_discipline_witness : 1 <= count is_put (snd (fst ex_logged)) <= 3.
Proof. destruct (retry_discipline Some ex_tx_hash defaultRetry ex_node ex_verdict_payload (fst ex_logged) (snd ex_logged)) as (errs & final & _ & _ & _ & H); [apply surjective_pairing|exact H]. Defined.

Lemma transactions_well_typed_witness :
  well_called (call_entry (zk_entry_points 128 hex_encode) (ex_run ex_setup) ex_owner "record_verdict"
    (verdict_args "c" (ex_hash (chr 98)) (ex_hash (chr 99)) "m" true)).
Proof.
  destruct (transactions_well_typed Some ex_tx_hash (λ _, None) 128 hex_encode hex_encode (λ _, Some (replicate 32 Byte.x00))
    ex_submitter ex_getenv (W := Node) ex_node 3 ltac:(intros t b [= <-]; reflexivity)) as (_ & _ & _ & H & _).
  apply (H "c" (ex_hash (chr 98)) (ex_hash (chr 99)) "m" true ex_verdict_payload (Err (ex_error "connection reset")) ltac:(vm_compute; left)
    (ex_run ex_setup) ex_owner)%string.
Defined.

(** ** Boundary behaviour *)

(** A contract hash of the wrong length is cut or filled with zeros, and the
    transaction goes to another contract. *)
Example short_hash_padded : copy32 ex_contract = Byte.xab :: replicate 31 Byte.x00.
Proof. vm_compute. reflexivity. Qed.

(** A lookup that fails inside the node counts as not found, so the loop retries. *)
Example internal_error_is_not_found : isNotFoundError (ex_error "rpc error -32603: Internal error") = true.
Proof. vm_compute. reflexivity. Qed.

(** A refusal whose text mentions a timeout is retried. *)
Example refusal_retried : isRetryableRPCError (ex_error "HTTP 400 bad request: invalid timeout_ms") = true.
Proof. vm_compute. reflexivity. Qed.

(** The node's answer to a submission is returned although the contract reverts the
    call: here nothing is registered. *)
Example answered_but_reverted :
  let res := RecordZkVerdict Some ex_tx_hash (λ _, None) ex_submitter ex_getenv {| arrived := []; fates := [] |} 3 "c"
               (ex_hash (chr 98)) (ex_hash (chr 99)) "m" true in
  snd res = Some (Ok (ex_tx_hash ex_verdict_payload)) ∧
  verdicts (zk_state 128 hex_encode ex_owner (copy32 ex_contract) (taken (fst res))) = ∅.
Proof. split; vm_compute; reflexivity. Qed.
