(* ===== verification/AnchorPath.v ===== *)
(** * From a proof on the wire to a verdict on the chain

    The anchoring endpoint ([zkAnchorVerdict] of [engine/internal/api/server.go]),
    the submitter ([RecordZkVerdict] of [engine/internal/submitter/casper.go]) and
    the verdict recorder ([contracts/zk-verifier]) together. *)

From S2P Require Import Prelude GoLib Json JsonFacts Sha256 BigInt FileStore Circuits ZkRegistry Groth16Sim Webhooks.
From S2P Require Import Contracts Casper ZkApi.

Local Open Scope Z_scope.

(** ** The hashes the engine sends are hashes for the contract *)

Lemma hex_digit_ascii n : 0 <= n < 16 → is_ascii_hexdigit (hex_digit n) = true.
Proof.
  intros H. assert (n ∈ (Z.of_nat <$> seq 0 16)) as Hin.
  { apply list_elem_of_fmap. exists (Z.to_nat n). split; [lia|]. apply elem_of_seq. lia. }
  clear H. revert n Hin. apply Forall_forall. vm_compute. repeat constructor.
Qed.

Lemma hex_encode_digits b : string_forall is_ascii_hexdigit (hex_encode b) = true.
Proof.
  induction b as [|x b IH]; [done|]. pose proof (byte_to_Z_range x).
  change (hex_encode (x :: b)) with (String (hex_digit (byte_to_Z x / 16)) (String (hex_digit (byte_to_Z x mod 16)) (hex_encode b))).
  cbn [string_forall]. rewrite IH, !hex_digit_ascii; [done|..].
  - apply Z.mod_pos_bound. lia.
  - split; [apply Z.div_pos; lia|apply Z.div_lt_upper_bound; lia].
Qed.

Lemma hex_encode_length b : String.length (hex_encode b) = (2 * length b)%nat.
Proof.
  induction b as [|x b IH]; [done|].
  change (hex_encode (x :: b)) with (String (hex_digit (byte_to_Z x / 16)) (String (hex_digit (byte_to_Z x mod 16)) (hex_encode b))).
  cbn [String.length length]. rewrite IH. lia.
Qed.

Lemma sha_text_ok m : hash_ok (hex_encode (sha256 m)) = true.
Proof. unfold hash_ok. by rewrite hex_encode_length, length_sha256, hex_encode_digits. Qed.

(** ** The endpoint with the submitter behind it *)

Section path.
Context {CCS PK VK Prf : Type} `{!Gnark, !Groth16 CCS PK VK Prf, !ProofCodec Prf}.
Context {W : Type} `{!World W} (tx_hash : Payload → string) (account : bytes → bytes) `{!Chain W tx_hash account}.
Context (new_hash : string → option string) (seal : Payload → option string) (error_text : SubmitError → string).
Context (sub : CasperSubmitter) (getenv : string → string).
Context (max_item_key : nat) (display : bytes → string) (installer : Call).

Definition submission (w : W) (at_ : time) (cid ph pih mid : string) (valid : bool) :=
  RecordZkVerdict new_hash tx_hash seal sub getenv w at_ cid ph pih mid valid.

(** The answer that the endpoint gets; a nil pointer would end the request. *)
Definition recorder (w : W) (at_ : time) (cid ph pih mid : string) (valid : bool) : result string string :=
  match snd (submission w at_ cid ph pih mid valid) with
  | Some (Ok tx) => Ok tx
  | Some (Err e) => Err (error_text e)
  | None => Err ""%string
  end.

(** What the contract needs besides well-formed hashes. *)
Definition contract_ready (s : ZkState) (who : bytes) (cid ph mid : string) : bool :=
  (paused s =? 0) && active_verifier max_item_key display s who && string_ok cid && string_ok mid &&
  key_fits max_item_key cid && key_fits max_item_key (verdict_key cid ph) &&
  vk_active (vks s !! cid) && negb (bool_decide (is_Some (verdicts s !! verdict_key cid ph))).

Lemma contract_ready_record s who cid b m mid :
  contract_ready s who cid (hex_encode (sha256 b)) mid = true →
  record_ready max_item_key display s who cid (hex_encode (sha256 b)) (hex_encode (sha256 m)) mid = true.
Proof.
  unfold contract_ready, record_ready. rewrite !sha_text_ok.
  repeat match goal with |- context [_ && true] => rewrite andb_true_r end.
  intros Hr. repeat match goal with H : _ && _ = true |- _ => apply andb_prop in H as [H ?] end.
  by repeat match goal with H : ?b = true |- context [?b] => rewrite H end.
Qed.

(** What the endpoint found out when it answers that a verdict was anchored. *)
Lemma anchored_answer (s : ZkServer (CCS := CCS) (PK := PK) (VK := VK)) record now req valid id ph xh model tx ev :
  zkAnchorVerdict s record now req = ((200, ZAnchor valid id ph xh model true (Some tx) None), ev) →
  ∃ q r b proof, req = Some q ∧ zkReg s = Some r ∧ hex_decode (v_proof_hex q) = Some b ∧ read_proof b = Some proof ∧
    id = circuit_of r (v_circuit q) ∧ model = v_model q ∧ ph = hex_encode (sha256 b) ∧
    xh = hex_encode (sha256 (bytes_of (public_json (v_public q)))) ∧
    ZkRegistry.Verify r id proof (inputs_of (default ∅ (v_public q))) = Ok valid ∧ record id ph xh model valid = Ok tx.
Proof.
  unfold zkAnchorVerdict. destruct (zkReg s) as [r|]; [|done]. destruct req as [q|]; [|done]. case_bool_decide; [done|].
  unfold verdict. destruct (GetDescriptor r _); [|done]. unfold decode_proof.
  destruct (hex_decode (v_proof_hex q)) as [b|] eqn:Eb; [|done]. destruct (read_proof b) as [proof|] eqn:Ep; [|done].
  destruct (ZkRegistry.Verify r _ proof _) as [v|] eqn:Ev; [|done].
  destruct (zk_onchain s); cbn [negb]; [|by destruct (zk_strict s)].
  destruct (record _ _ _ _ v) as [t|] eqn:Er; [|by destruct (zk_strict s)].
  intros [= <- <- <- <- <- <- _]. by exists q, r, b, proof.
Qed.

End path.

(** ** Witness *)

Section example.
#[local] Existing Instance toy_gnark.
#[local] Existing Instance toy_groth16.
#[local] Existing Instance toy_codec.
#[local] Existing Instance node_World.
#[local] Existing Instance node_Chain.

Definition ex_key_tx : Tx :=
  {| tx_call := ex_owner; tx_entry := "register_vk";
     tx_args := [("governance_approved", CLUInt64 0); ("circuit_id", CLString ModelInferenceID); ("vk_hash", CLString (ex_hash (chr 97)));
                 ("curve", CLString "bn254"); ("backend", CLString "groth16")] |}%string.

Definition ex_start : Node := {| arrived := zip_with ex_payload [1; 2] (take 1 ex_setup ++ [ex_key_tx]); fates := [AnswerLost] |}.

Definition ex_proof_hex : string :=
  match zkProveGeneric (Prf := list Z) ex_zk 0 [] (Some {| p_circuit := ModelInferenceID; p_inputs := Some (inference_inputs 9 7 450) |}) with
  | (_, ZProof _ _ _ _ hex _ _) => hex
  | _ => ""%string
  end.

Definition ex_claim : VerifyReq :=
  {| v_circuit := ModelInferenceID; v_public := Some (inference_claim 7 450); v_proof_hex := ex_proof_hex; v_model := "m" |}.

Definition ex_recorder := recorder ex_tx_hash Some (λ _, None) (λ _, ""%string) ex_submitter ex_getenv ex_start 3.

Definition ex_anchor := zkAnchorVerdict (Prf := list Z) ex_zk ex_recorder 0 (Some ex_claim).

Definition ex_anchored : string * string * string :=
  match fst ex_anchor with
  | (_, ZAnchor _ _ ph xh _ _ (Some tx) _) => (ph, xh, tx)
  | _ => (""%string, ""%string, ""%string)
  end.
Definition ex_ph : string := fst (fst ex_anchored).
Definition ex_xh : string := snd (fst ex_anchored).
Definition ex_sent := submission ex_tx_hash Some (λ _, None) ex_submitter ex_getenv ex_start 3 ModelInferenceID ex_ph ex_xh "m" true.
Definition ex_anchor_payload : Payload :=
  payload_of ex_submitter 3 ex_contract "record_verdict" (verdict_args ModelInferenceID ex_ph ex_xh "m" true).

Definition ex_taken (at_ : time) (t : option Tx) : Payload * Call :=
  let p := ex_payload at_ (default ex_key_tx t) in (p, ex_call p).

Lemma third_of_three {A} (a b x y : A) pre post :
  [a; b; x] = pre ++ y :: post → y = a ∨ y = b ∨ (pre = [a; b] ∧ y = x ∧ post = []).
Proof.
  destruct pre as [|p1 [|p2 [|p3 pre]]]; intros H.
  - left. by injection H.
  - right. left. by injection H.
  - right. right. by injection H as -> -> -> <-.
  - apply (f_equal length) in H. rewrite length_app in H. cbn in H. lia.
Qed.

End example.
