(* ===== verification/VaultKeys.v ===== *)
(** * The vault keystore and the choice of a backend
      ([engine/internal/crypto/keystore]: [vault_transit.go], [factory.go])

    The local mirror of keys that live in Vault and the requests it makes. Vault is
    the interface [Transit]: one operation per endpoint, with the path that the
    driver builds; an answer is decoded or an error. The clock is an argument. *)

From S2P Require Import Prelude GoLib Sha256 Pq Keyring.
From stdpp Require Import relations.

Local Open Scope Z_scope.

Inductive VaultError :=
| VNotConfigured | VKeyNotFound | VAlgoNotSupported (a : string) | VRequest (text : string) | VNoLatest (n : Z) | VBadPublicKey
| VNoActiveKey (a : string) | VBadSignature (s : string) | VBadVersion (s : string) | VBadBase64 | VOldSignatureInvalid.

(** The data of a key: its latest version, and per version the public key in
    base64 and the creation time, [None] when it does not parse. *)
Record transit_key := { latest_version : Z; transit_keys : gmap string (string * option time) }.

Class Transit (V : Type) := {
  tr_create : V → string → V * result VaultError unit;
  tr_read : V → string → result VaultError transit_key;
  tr_sign : V → string → string → result VaultError string;
  tr_verify : V → string → string → string → result VaultError bool;
}.

Record vaultKeyState := { vmeta : KeyMeta; vaultKN : string; vversion : Z }.

Record VaultTransitKeystore (V : Type) := {
  addr : string; token : string; mount : string; vault : V;
  vkeys : gmap string vaultKeyState; byAlg : gmap string string; order : list string;
}.
Arguments addr {V}. Arguments token {V}. Arguments mount {V}. Arguments vault {V}.
Arguments vkeys {V}. Arguments byAlg {V}. Arguments order {V}.

Fixpoint trim_right_slash_rev (s : string) : string :=
  match s with String c r => if bool_decide (c = chr 47) then trim_right_slash_rev r else s | EmptyString => s end.

(** [strings.TrimRight(s, "/")] *)
Definition trim_right_slash (s : string) : string := string_rev (trim_right_slash_rev (string_rev s)).

Definition vaultAlgoName (algo : string) : result VaultError string :=
  if bool_decide (algo = AlgoEd25519) then Ok "ed25519"%string else Err (VAlgoNotSupported algo).

Definition newVaultKeyName (algo : string) (now : time) : string := ("cp-" +:+ to_lower algo +:+ "-" +:+ itoa now)%string.

(** The text before the first colon, between the first two, and after them. *)
Definition parseVaultSignature (s : string) : result VaultError bytes :=
  match cut_at (chr 58) s with
  | None => Err (VBadSignature s)
  | Some (p0, rest) =>
      match cut_at (chr 58) rest with
      | None => Err (VBadSignature s)
      | Some (p1, p2) =>
          if negb (bool_decide (p0 = "vault"%string)) then Err (VBadSignature s)
          else if negb (has_prefix p1 "v") then Err (VBadVersion p1)
          else match base64_decode p2 with Some raw => Ok raw | None => Err VBadBase64 end
      end
  end.

Definition wrap_signature (version : Z) (signature : bytes) : string :=
  ("vault:v" +:+ itoa version +:+ ":" +:+ base64_encode signature)%string.

Definition short_id (algo : string) (pub : bytes) : string :=
  ("vt-" +:+ hex_encode (take 8 (sha256 (bytes_of (algo +:+ "|") ++ pub))))%string.

Definition key_path (mnt name : string) : string := ("/v1/" +:+ mnt +:+ "/keys/" +:+ name)%string.
Definition sign_path (mnt name : string) : string := ("/v1/" +:+ mnt +:+ "/sign/" +:+ name)%string.
Definition verify_path (mnt name : string) : string := ("/v1/" +:+ mnt +:+ "/verify/" +:+ name)%string.

Section vault.
Context {V : Type} `{!Transit V}.
Implicit Types k : VaultTransitKeystore V.

Definition NewVaultTransit (v : V) (address tok mnt : string) : VaultTransitKeystore V :=
  {| addr := trim_right_slash address; token := tok; mount := if bool_decide (mnt = ""%string) then "transit"%string else mnt;
     vault := v; vkeys := ∅; byAlg := ∅; order := [] |}.

Definition configured k : bool := negb (bool_decide (addr k = ""%string)) && negb (bool_decide (token k = ""%string)).

(** [vaultReq]: nothing is asked of a vault that is not configured. *)
Definition vaultReq {A} k (r : result VaultError A) : result VaultError A := if configured k then r else Err VNotConfigured.

Definition with_vault k (v : V) : VaultTransitKeystore V :=
  {| addr := addr k; token := token k; mount := mount k; vault := v; vkeys := vkeys k; byAlg := byAlg k; order := order k |}.

Definition readKeyMeta k (now : time) (algo name : string) : result VaultError (KeyMeta * Z) :=
  let! data := vaultReq k (tr_read (vault k) (key_path (mount k) name)) in
  let latest := latest_version data in
  match transit_keys data !! itoa latest with
  | None => Err (VNoLatest latest)
  | Some (public_key, creation_time) =>
      let created := default time_zero creation_time in
      let created := if bool_decide (created = time_zero) then now else created in
      match base64_decode public_key with
      | None => Err VBadPublicKey
      | Some pub =>
          Ok ({| KID := short_id algo pub; KAlgo := algo; Version := latest; PublicKey := hex_encode pub; CreatedAt := created;
                 RetiredAt := None; Active := true |}, latest)
      end
  end.

Definition retire (now : time) (st : vaultKeyState) : vaultKeyState :=
  let m := vmeta st in
  {| vmeta := {| KID := KID m; KAlgo := KAlgo m; Version := Version m; PublicKey := PublicKey m; CreatedAt := CreatedAt m;
                 RetiredAt := Some now; Active := false |};
     vaultKN := vaultKN st; vversion := vversion st |}.

(** The keystore, also when the call fails, since Vault may have made the key. *)
Definition vault_CreateKey k (now_name now_read now_retire : time) (algo : string)
    : VaultTransitKeystore V * result VaultError KeyMeta :=
  match vaultAlgoName algo with
  | Err e => (k, Err e)
  | Ok vaultAlgo =>
      let name := newVaultKeyName algo now_name in
      if negb (configured k) then (k, Err VNotConfigured)
      else
        let '(v, res) := tr_create (vault k) (key_path (mount k) name) in
        let k := with_vault k v in
        match res with
        | Err e => (k, Err e)
        | Ok _ =>
            match readKeyMeta k now_read algo name with
            | Err e => (k, Err e)
            | Ok (m, ver) =>
                let ks := match byAlg k !! algo with
                          | Some prev => alter (retire now_retire) prev (vkeys k)
                          | None => vkeys k
                          end in
                ({| addr := addr k; token := token k; mount := mount k; vault := v;
                    vkeys := <[KID m := {| vmeta := m; vaultKN := name; vversion := ver |}]> ks;
                    byAlg := <[algo := KID m]> (byAlg k); order := order k ++ [KID m] |}, Ok m)
            end
        end
  end.

Definition vault_RotateKey := vault_CreateKey.

Definition vault_ActiveKeyID k (algo : string) : option string := byAlg k !! algo.

Definition vault_GetMeta k (id : string) : result VaultError KeyMeta :=
  match vkeys k !! id with Some st => Ok (vmeta st) | None => Err VKeyNotFound end.

Definition vault_List k : list KeyMeta := omap (λ id, vmeta <$> vkeys k !! id) (order k).

Definition vault_SignWithKey k (id : string) (message : bytes) : result VaultError bytes :=
  match vkeys k !! id with
  | None => Err VKeyNotFound
  | Some st =>
      let! signature := vaultReq k (tr_sign (vault k) (sign_path (mount k) (vaultKN st)) (base64_encode message)) in
      parseVaultSignature signature
  end.

Definition vault_Sign k (algo : string) (message : bytes) : result VaultError (bytes * string) :=
  match byAlg k !! algo with
  | None => Err (VNoActiveKey algo)
  | Some id => let! sig := vault_SignWithKey k id message in Ok (sig, id)
  end.

Definition vault_Verify k (id : string) (message signature : bytes) : result VaultError bool :=
  match vkeys k !! id with
  | None => Err VKeyNotFound
  | Some st =>
      vaultReq k (tr_verify (vault k) (verify_path (mount k) (vaultKN st)) (base64_encode message) (wrap_signature (vversion st) signature))
  end.

Definition vault_MigrateSignature k (oldKeyID : string) (message oldSig : bytes) (toAlgo : string)
    : result VaultError (bytes * string) :=
  let! ok := vault_Verify k oldKeyID message oldSig in
  if ok then vault_Sign k toAlgo message else Err VOldSignatureInvalid.

(** [Info]: the backing, the number of keys and whether it is wired. *)
Definition vault_Info k : string * Z * bool :=
  ((if configured k then "Vault Transit at " +:+ addr k +:+ " (mount=" +:+ mount k +:+ ")"
    else "Vault Transit NOT configured (set CP_VAULT_ADDR + CP_VAULT_TOKEN)")%string, Z.of_nat (size (vkeys k)), configured k).
End vault.

(** ** The choice of a backend *)

Inductive Backend :=
| BMemory
| BFile (path pass : string)
| BRemote (url tok : string)
| BVault (address tok mnt : string).

Inductive FactoryError := NotConfigured (what : string) | UnknownKind (kind : string).

(** The backend that the environment names; opening the file is the file
    keystore's [NewFile]. *)
Definition FromEnv (getenv : string → string) : result FactoryError (Backend * string) :=
  let kind := to_lower (trim_space (getenv "CP_KEYSTORE_KIND"%string)) in
  let kind := if bool_decide (kind = ""%string) then "memory"%string else kind in
  if bool_decide (kind = "memory"%string) then Ok (BMemory, "memory (default)"%string)
  else if bool_decide (kind = "file"%string) then
    let path := getenv "CP_KEYSTORE_PATH"%string in
    let pass := getenv "CP_KEYSTORE_PASSPHRASE"%string in
    if bool_decide (path = ""%string) || bool_decide (pass = ""%string)
    then Err (NotConfigured "file backend needs CP_KEYSTORE_PATH and CP_KEYSTORE_PASSPHRASE")
    else Ok (BFile path pass, ("file at " +:+ path)%string)
  else if bool_decide (kind = "remote"%string) then
    let url := getenv "CP_KEYSTORE_URL"%string in
    Ok (BRemote url (getenv "CP_KEYSTORE_TOKEN"%string), ("remote gateway " +:+ url)%string)
  else if bool_decide (kind = "vault-transit"%string) then
    let a := getenv "CP_VAULT_ADDR"%string in
    let t := getenv "CP_VAULT_TOKEN"%string in
    if bool_decide (a = ""%string) || bool_decide (t = ""%string)
    then Err (NotConfigured "vault-transit backend needs CP_VAULT_ADDR and CP_VAULT_TOKEN")
    else Ok (BVault a t (getenv "CP_VAULT_TRANSIT_MOUNT"%string), ("vault-transit at " +:+ a)%string)
  else Err (UnknownKind kind).

(** ** What the driver relies on of Vault *)

(** [tr_serves v mnt name n]: under this mount Vault has the key, whose latest
    version is [n]; it keeps its keys and their versions, which nobody rotates in
    place, answers a signing request with its wrapped signature, and accepts that
    one from then on. *)
Class TransitLaws (V : Type) `{!Transit V} := {
  tr_later : V → V → Prop;
  tr_later_refl v : tr_later v v;
  tr_later_trans v1 v2 v3 : tr_later v1 v2 → tr_later v2 v3 → tr_later v1 v3;
  tr_create_later v p v' r : tr_create v p = (v', r) → tr_later v v';
  tr_serves : V → string → string → Z → Prop;
  tr_serves_later v v' mnt name n : tr_serves v mnt name n → tr_later v v' → tr_serves v' mnt name n;
  tr_read_serves v mnt name d : tr_read v (key_path mnt name) = Ok d → tr_serves v mnt name (latest_version d);
  tr_sign_serves v mnt name n input : tr_serves v mnt name n →
    ∃ sig, tr_sign v (sign_path mnt name) input = Ok (wrap_signature n sig) ∧
      ∀ v', tr_later v v' → tr_verify v' (verify_path mnt name) input (wrap_signature n sig) = Ok true;
}.

(** ** Lemmas *)

Lemma cut_at_app c s t : no_char c s = true → cut_at c (s +:+ String c t) = Some (s, t).
Proof.
  unfold no_char. induction s as [|d s IH]; cbn [string_forall].
  - intros _. change (""%string +:+ String c t) with (String c t). cbn [cut_at]. by rewrite bool_decide_true.
  - intros [Hd Hs]%andb_prop. change (String d s +:+ String c t)%string with (String d (s +:+ String c t)). cbn [cut_at].
    apply negb_true_iff in Hd. rewrite Hd, IH by done. done.
Qed.

(** The wrapping of a signature and its parsing are inverse. *)
Lemma parse_wrap n sig : parseVaultSignature (wrap_signature n sig) = Ok sig.
Proof.
  unfold parseVaultSignature.
  change (wrap_signature n sig) with ("vault" +:+ String (chr 58) ("v" +:+ itoa n +:+ String (chr 58) (base64_encode sig)))%string.
  rewrite cut_at_app by done. cbv zeta.
  assert (("v" +:+ itoa n +:+ String (chr 58) (base64_encode sig)) = (("v" +:+ itoa n) +:+ String (chr 58) (base64_encode sig)))%string as -> by done.
  rewrite cut_at_app.
  - rewrite bool_decide_true by done. cbn [negb]. assert (has_prefix ("v" +:+ itoa n) "v" = true) as -> by (unfold has_prefix; cbn; by destruct (itoa n)).
    cbn [negb]. by rewrite base64_decode_encode.
  - change ("v" +:+ itoa n)%string with (String (chr 118) (itoa n)). unfold no_char. cbn [string_forall]. fold (no_char (chr 58) (itoa n)).
    by rewrite no_char_itoa.
Qed.

Section facts.
Context {V : Type} `{!Transit V, !TransitLaws V}.
Implicit Types k : VaultTransitKeystore V.

(** A key the driver knows is one that Vault serves at the recorded version; the
    active key of an algorithm is known, and a key is marked active exactly when it
    is that one; the listing names the known keys. *)
Record vault_inv k : Prop := {
  vi_serves id st : vkeys k !! id = Some st → tr_serves (vault k) (mount k) (vaultKN st) (vversion st);
  vi_id id st : vkeys k !! id = Some st → KID (vmeta st) = id ∧ KAlgo (vmeta st) = AlgoEd25519;
  vi_active id st : vkeys k !! id = Some st → Active (vmeta st) = true ↔ byAlg k !! AlgoEd25519 = Some id;
  vi_known algo id : byAlg k !! algo = Some id → algo = AlgoEd25519 ∧ is_Some (vkeys k !! id);
  vi_order id : id ∈ order k ↔ is_Some (vkeys k !! id);
}.

Lemma vault_inv_new v a t m : vault_inv (NewVaultTransit v a t m).
Proof. split; cbn; intros *; rewrite ?lookup_empty; try done. split; [by intros ?%elem_of_nil|by intros []]. Qed.

Lemma alter_retire_some (ks : gmap string vaultKeyState) prev now_ id st :
  alter (retire now_) prev ks !! id = Some st →
  ∃ st0, ks !! id = Some st0 ∧ vaultKN st = vaultKN st0 ∧ vversion st = vversion st0 ∧ KID (vmeta st) = KID (vmeta st0) ∧
    KAlgo (vmeta st) = KAlgo (vmeta st0) ∧ (if decide (id = prev) then Active (vmeta st) = false else st = st0).
Proof.
  destruct (decide (id = prev)) as [->|Hne].
  - rewrite lookup_alter_eq. destruct (ks !! prev) as [st0|]; [|done]. intros [= <-]. by exists st0.
  - rewrite lookup_alter_ne by done. intros H. exists st. done.
Qed.

(** A creation: the settings stay; either nothing but the vault changes, or one
    key is added or replaced. *)
Lemma create_cases k t1 t2 t3 algo k' r :
  vault_CreateKey k t1 t2 t3 algo = (k', r) →
  mount k' = mount k ∧ configured k' = configured k ∧ tr_later (vault k) (vault k') ∧
  ((∃ e, r = Err e ∧ vkeys k' = vkeys k ∧ byAlg k' = byAlg k ∧ order k' = order k) ∨
   ∃ m st, r = Ok m ∧ algo = AlgoEd25519 ∧ vmeta st = m ∧ KAlgo m = algo ∧ Active m = true ∧
     tr_serves (vault k') (mount k') (vaultKN st) (vversion st) ∧
     vkeys k' = <[KID m := st]> (match byAlg k !! algo with Some prev => alter (retire t3) prev (vkeys k) | None => vkeys k end) ∧
     byAlg k' = <[algo := KID m]> (byAlg k) ∧ order k' = order k ++ [KID m]).
Proof.
  unfold vault_CreateKey, vaultAlgoName. case_bool_decide as Ha.
  2: { intros [= <- <-]. split; [done|]. split; [done|]. split; [apply tr_later_refl|]. left. by eexists. }
  destruct (configured k) eqn:Ec; cbn [negb].
  2: { intros [= <- <-]. split; [done|]. split; [done|]. split; [apply tr_later_refl|]. left. by eexists. }
  destruct (tr_create (vault k) _) as [v res] eqn:Et. apply tr_create_later in Et.
  destruct res as [[]|e]; [|intros [= <- <-]; split; [done|]; split; [exact Ec|]; split; [exact Et|]; left; by eexists].
  destruct (readKeyMeta _ _ _ _) as [[m ver]|e] eqn:Er; [|intros [= <- <-]; split; [done|]; split; [exact Ec|]; split; [exact Et|]; left; by eexists].
  intros [= <- <-]. split; [done|]. split; [exact Ec|]. split; [exact Et|]. right.
  exists m, {| vmeta := m; vaultKN := newVaultKeyName algo t1; vversion := ver |}.
  unfold readKeyMeta, vaultReq in Er. change (configured (with_vault k v)) with (configured k) in Er. rewrite Ec in Er.
  apply result_bind_ok in Er as (d & Hd & Er). cbn [vault with_vault mount] in Hd. apply tr_read_serves in Hd.
  destruct (transit_keys d !! _) as [[pk ct]|]; [|done]. destruct (base64_decode pk) as [pub|]; [|done].
  apply ok_inj in Er. injection Er as <- <-. done.
Qed.

Lemma vault_inv_create k t1 t2 t3 algo k' r : vault_CreateKey k t1 t2 t3 algo = (k', r) → vault_inv k → vault_inv k'.
Proof.
  intros H Hk. apply create_cases in H as (Hm & _ & Hv & [(e & _ & E1 & E2 & E3)|(m & st & _ & -> & <- & Ha & Hact & Hs & E1 & E2 & E3)]).
  { split; rewrite ?E1, ?E2, ?E3, ?Hm; try apply Hk. intros id st Hst. eapply tr_serves_later; [by eapply vi_serves|exact Hv]. }
  set (new := KID (vmeta st)) in *.
  assert (∀ id st0, (match byAlg k !! AlgoEd25519 with Some prev => alter (retire t3) prev (vkeys k) | None => vkeys k end) !! id = Some st0 →
    ∃ st1, vkeys k !! id = Some st1 ∧ vaultKN st0 = vaultKN st1 ∧ vversion st0 = vversion st1 ∧ KID (vmeta st0) = KID (vmeta st1) ∧
      KAlgo (vmeta st0) = KAlgo (vmeta st1) ∧ Active (vmeta st0) = false) as Hold.
  { intros id st0. destruct (byAlg k !! AlgoEd25519) as [prev|] eqn:Eb.
    - intros (st1 & H1 & H2 & H3 & H4 & H5 & H6)%alter_retire_some. exists st1. split; [done|]. split; [done|]. split; [done|]. split; [done|].
      split; [done|]. destruct (decide (id = prev)) as [->|Hne]; [done|]. subst st0.
      destruct (Active (vmeta st1)) eqn:E; [|done]. apply (vi_active _ Hk _ _ H1) in E. congruence.
    - intros H1. exists st0. split; [done|]. split; [done|]. split; [done|]. split; [done|]. split; [done|].
      destruct (Active (vmeta st0)) eqn:E; [|done]. apply (vi_active _ Hk _ _ H1) in E. congruence. }
  assert (∀ id, is_Some ((match byAlg k !! AlgoEd25519 with Some prev => alter (retire t3) prev (vkeys k) | None => vkeys k end) !! id) ↔
    is_Some (vkeys k !! id)) as Hdom.
  { intros id. destruct (byAlg k !! AlgoEd25519) as [prev|]; [|done]. by rewrite lookup_alter_is_Some. }
  split; rewrite ?E1, ?E2, ?E3.
  - intros id st0 [[<- <-]|[Hne H0]]%lookup_insert_Some; [exact Hs|]. apply Hold in H0 as (st1 & H1 & -> & -> & _). rewrite Hm.
    eapply tr_serves_later; [by eapply vi_serves|exact Hv].
  - intros id st0 [[<- <-]|[Hne H0]]%lookup_insert_Some; [by split|]. apply Hold in H0 as (st1 & H1 & _ & _ & -> & -> & _). by eapply vi_id.
  - intros id st0. rewrite lookup_insert_eq. intros [[<- <-]|[Hne H0]]%lookup_insert_Some; [by split|].
    apply Hold in H0 as (st1 & _ & _ & _ & _ & _ & ->). split; [done|]. intros [= E]. congruence.
  - intros algo id [[<- <-]|[Hne H0]]%lookup_insert_Some; [split; [done|]; rewrite lookup_insert_eq; by eexists|].
    apply (vi_known _ Hk) in H0 as [-> _]. done.
  - intros id. rewrite elem_of_app, list_elem_of_singleton, (vi_order _ Hk), <- Hdom. destruct (decide (id = new)) as [->|Hne].
    + rewrite lookup_insert_eq. split; [by eexists|by right].
    + rewrite lookup_insert_ne by done. naive_solver.
Qed.

Definition creates k k' : Prop := ∃ t1 t2 t3 algo r, vault_CreateKey k t1 t2 t3 algo = (k', r).

(** A creation that does not come out with the identifier [id]. *)
Definition creates_other (id : string) k k' : Prop :=
  ∃ t1 t2 t3 algo r, vault_CreateKey k t1 t2 t3 algo = (k', r) ∧ ∀ m, r = Ok m → KID m ≠ id.

Lemma vault_inv_creates k k' : rtc creates k k' → vault_inv k → vault_inv k'.
Proof. induction 1 as [|k1 k2 k3 (t1 & t2 & t3 & algo & r & H) _ IH]; [done|]. intros Hk. by eapply IH, vault_inv_create. Qed.

(** What other creations leave of a key: where it is and its version. *)
Lemma creates_other_keep id k k' st :
  rtc (creates_other id) k k' → vkeys k !! id = Some st →
  rtc creates k k' ∧ mount k' = mount k ∧ configured k' = configured k ∧ tr_later (vault k) (vault k') ∧
  ∃ st', vkeys k' !! id = Some st' ∧ vaultKN st' = vaultKN st ∧ vversion st' = vversion st.
Proof.
  intros H. revert st. induction H as [|k1 k2 k3 (t1 & t2 & t3 & algo & r & H & Hne) _ IH]; intros st Hst.
  { split; [constructor|]. split; [done|]. split; [done|]. split; [apply tr_later_refl|]. by exists st. }
  pose proof (create_cases _ _ _ _ _ _ _ H) as (Hm & Hc & Hv & Hcases).
  assert (∃ st2, vkeys k2 !! id = Some st2 ∧ vaultKN st2 = vaultKN st ∧ vversion st2 = vversion st) as (st2 & Hst2 & Hn2 & Hv2).
  { destruct Hcases as [(e & _ & -> & _)|(m & sm & Hr & _ & _ & _ & _ & _ & -> & _ & _)]; [by exists st|].
    rewrite lookup_insert_ne by (by apply Hne). destruct (byAlg k1 !! algo) as [prev|]; [|by exists st].
    destruct (decide (prev = id)) as [->|Hd]; [|rewrite lookup_alter_ne by done; by exists st].
    rewrite lookup_alter_eq, Hst. by eexists. }
  destruct (IH st2 Hst2) as (Hr & Hm3 & Hc3 & Hv3 & st3 & Hst3 & Hn3 & Hv3').
  split; [eapply rtc_l; [by exists t1, t2, t3, algo, r|done]|]. split; [congruence|]. split; [congruence|].
  split; [by eapply tr_later_trans|]. exists st3. split; [done|]. split; congruence.
Qed.

(** Signing with a known key of a configured driver works, and what it answers
    verifies as long as the driver keeps the key at its place and version. *)
Lemma sign_known k id st msg :
  vault_inv k → configured k = true → vkeys k !! id = Some st →
  ∃ sig, vault_SignWithKey k id msg = Ok sig ∧
    ∀ k' st', mount k' = mount k → configured k' = true → tr_later (vault k) (vault k') → vkeys k' !! id = Some st' →
      vaultKN st' = vaultKN st → vversion st' = vversion st → vault_Verify k' id msg sig = Ok true.
Proof.
  intros Hk Hc Hst. destruct (tr_sign_serves _ _ _ _ (base64_encode msg) (vi_serves _ Hk _ _ Hst)) as (sig & Hsig & Hver).
  exists sig. split.
  - unfold vault_SignWithKey, vaultReq. rewrite Hst, Hc, Hsig. cbn [result_bind]. apply parse_wrap.
  - intros k' st' Hm Hc' Hv Hst' Hn Hver'. unfold vault_Verify, vaultReq. rewrite Hst', Hc', Hm, Hn, Hver'. by apply Hver.
Qed.

Lemma active_stays k k' algo : rtc creates k k' → is_Some (byAlg k !! algo) → is_Some (byAlg k' !! algo).
Proof.
  induction 1 as [|k1 k2 k3 (t1 & t2 & t3 & algo' & r & H) _ IH]; [done|]. intros Hs. apply IH.
  apply create_cases in H as (_ & _ & _ & [(e & _ & _ & -> & _)|(m & st & _ & _ & _ & _ & _ & _ & _ & -> & _)]); [done|].
  destruct (decide (algo' = algo)) as [->|]; [rewrite lookup_insert_eq; by eexists|by rewrite lookup_insert_ne].
Qed.

Lemma listed_key k m : vault_inv k → m ∈ vault_List k → ∃ st, vkeys k !! KID m = Some st ∧ vmeta st = m.
Proof.
  intros Hk (id & _ & Hid)%list_elem_of_omap. destruct (vkeys k !! id) as [st|] eqn:E; [|done]. injection Hid as <-.
  destruct (vi_id _ Hk _ _ E) as [Hki _]. exists st. by rewrite Hki.
Qed.
End facts.

(** ** Properties *)


(** ** Witness *)

Section example.
(** A vault that gives every key one version and signs by repeating the input. *)
#[local] Instance toy_transit : Transit (gset string) := {
  tr_create v p := ({[p]} ∪ v, Ok tt);
  tr_read v p := if bool_decide (p ∈ v) then Ok {| latest_version := 1; transit_keys := {["1"%string := (base64_encode (bytes_of p), None)]} |}
                 else Err VKeyNotFound;
  tr_sign v p input := Ok (wrap_signature 1 (bytes_of input));
  tr_verify v p input s := Ok (bool_decide (s = wrap_signature 1 (bytes_of input)));
}.

#[local] Instance toy_transit_laws : TransitLaws (gset string).
Proof.
  refine {| tr_later := subseteq; tr_serves v mnt name n := key_path mnt name ∈ v ∧ n = 1 |}.
  - done.
  - set_solver.
  - intros v p v' r [= <- _]. set_solver.
  - set_solver.
  - intros v mnt name d. cbn [tr_read toy_transit]. case_bool_decide; [|done]. by intros [= <-].
  - intros v mnt name n input [_ ->]. exists (bytes_of input). split; [done|]. intros v' _. cbn [tr_verify toy_transit].
    by rewrite bool_decide_true.
Defined.

Definition ex_new : VaultTransitKeystore (gset string) := NewVaultTransit ∅ "https://vault/" "t" "".
Definition ex_one := fst (vault_CreateKey ex_new 10 11 12 AlgoEd25519).
Definition ex_two := fst (vault_CreateKey ex_one 20 21 22 AlgoEd25519).
Definition ex_id : string := default ""%string (vault_ActiveKeyID ex_one AlgoEd25519).


(** ** Boundary behaviour *)

(** Two creations in one nanosecond ask Vault for one key name; the second names
    the same key, which is then listed twice. *)
Example same_nanosecond_same_key :
  let again := fst (vault_CreateKey ex_one 10 21 22 AlgoEd25519) in
  KID <$> vault_List again = [ex_id; ex_id] ∧ vault_ActiveKeyID again AlgoEd25519 = Some ex_id.
Proof. split; vm_compute; reflexivity. Qed.

(** The version in an answer of Vault is dropped and the recorded one put in its
    place: a signature made after a rotation inside Vault is sent back for
    verification under the older version. *)
Example rotated_in_vault :
  parseVaultSignature (wrap_signature 2 (bytes_of "s")) = Ok (bytes_of "s") ∧
  wrap_signature 1 (bytes_of "s") ≠ wrap_signature 2 (bytes_of "s").
Proof. split; [vm_compute; reflexivity|vm_compute; discriminate]. Qed.

(** An algorithm that Vault does not serve is refused before Vault is asked. *)
Example post_quantum_refused :
  vault_CreateKey ex_one 30 31 32 AlgoMLDSA65 = (ex_one, Err (VAlgoNotSupported AlgoMLDSA65)).
Proof. vm_compute. reflexivity. Qed.
End example.

(** A remote backend needs no settings at start-up, in contrast to the others. *)
Example remote_without_settings :
  FromEnv (λ n, if bool_decide (n = "CP_KEYSTORE_KIND"%string) then " Remote "%string else ""%string) = Ok (BRemote "" "", "remote gateway "%string).
Proof. vm_compute. reflexivity. Qed.
