(* ===== verification/RemoteKeys.v ===== *)
(** * The remote keystore ([engine/internal/crypto/keystore/remote.go])

    Signing is delegated to a gateway; a ring without private halves mirrors the
    keys it created, and verification is local. The gateway is the interface
    [Gateway]: one operation per endpoint, whose answer is decoded or an error. The
    mirror is rebuilt through the public snapshot of [Keyring]. *)

From S2P Require Import Prelude GoLib Sha256 Pq Keyring.
From S2P Require Import VaultKeys.
From stdpp Require Import relations.

Local Open Scope Z_scope.

Inductive RemoteError := RNotSupported | RRequest (text : string) | RMirror (m : KeyMeta) (e : KeyringError) | RNoActiveKey (a : string) | RBadHex.

(** Texts are hex as on the wire; the answer to a migration is a signature and the
    identifier of its key. *)
Class Gateway (G : Type) := {
  gw_create : G → string → G * result string KeyMeta;
  gw_get : G → string → result string KeyMeta;
  gw_list : G → result string (list KeyMeta);
  gw_sign : G → string → string → result string string;
  gw_migrate : G → string → string → string → string → result string (string * string);
}.

Section remote.
Context {MPriv MPub : Type} `{!Primitives MPriv MPub} {G : Type} `{!Gateway G}.
Local Notation Ring := (KeyRing (MPriv := MPriv) (MPub := MPub)).

Record RemoteKeystoreStub := { baseURL : string; rtoken : string; gateway : G; verifier : Ring }.

Definition NewRemote (g : G) (url tok : string) : RemoteKeystoreStub :=
  {| baseURL := trim_right_slash url; rtoken := tok; gateway := g; verifier := NewKeyRing |}.

Definition wired (r : RemoteKeystoreStub) : bool :=
  negb (bool_decide (baseURL r = ""%string)) && negb (bool_decide (rtoken r = ""%string)).

(** [do]: a stub that is not wired asks nothing. *)
Definition request {A} (r : RemoteKeystoreStub) (answer : result string A) : result RemoteError A :=
  if wired r then match answer with Ok a => Ok a | Err e => Err (RRequest e) end else Err RNotSupported.

Definition remote_Info (r : RemoteKeystoreStub) : string * Z * bool :=
  ((if wired r then "HSM/KMS gateway at " +:+ baseURL r else "HSM/KMS gateway NOT configured (see docs/KEYSTORE.md)")%string,
   Z.of_nat (length (ListKeys (verifier r))), wired r).

Definition mirrorMeta (v : Ring) (m : KeyMeta) : result KeyringError Ring := LoadPublicKeyRing (MarshalPublic v ++ [m]).

Definition with_gateway (r : RemoteKeystoreStub) (g : G) (v : Ring) : RemoteKeystoreStub :=
  {| baseURL := baseURL r; rtoken := rtoken r; gateway := g; verifier := v |}.

Definition remote_CreateKey (r : RemoteKeystoreStub) (algo : string) : RemoteKeystoreStub * result RemoteError KeyMeta :=
  if negb (wired r) then (r, Err RNotSupported)
  else
    let '(g, answer) := gw_create (gateway r) algo in
    match answer with
    | Err e => (with_gateway r g (verifier r), Err (RRequest e))
    | Ok out =>
        match mirrorMeta (verifier r) out with
        | Err e => (with_gateway r g (verifier r), Err (RMirror out e))
        | Ok updated => (with_gateway r g updated, Ok out)
        end
    end.

Definition remote_RotateKey := remote_CreateKey.

Definition remote_ActiveKeyID (r : RemoteKeystoreStub) (algo : string) : option string := ActiveKeyID (verifier r) algo.
Definition remote_GetMeta (r : RemoteKeystoreStub) (id : string) : result RemoteError KeyMeta := request r (gw_get (gateway r) id).
Definition remote_List (r : RemoteKeystoreStub) : list KeyMeta :=
  match request r (gw_list (gateway r)) with Ok l => l | Err _ => [] end.

Definition decoded (h : string) : result RemoteError bytes := match hex_decode h with Some b => Ok b | None => Err RBadHex end.

Definition remote_SignWithKey (r : RemoteKeystoreStub) (id : string) (message : bytes) : result RemoteError bytes :=
  let! signature_hex := request r (gw_sign (gateway r) id (hex_encode message)) in
  decoded signature_hex.

Definition remote_Sign (r : RemoteKeystoreStub) (algo : string) (message : bytes) : result RemoteError (bytes * string) :=
  match ActiveKeyID (verifier r) algo with
  | None => Err (RNoActiveKey algo)
  | Some id => let! sig := remote_SignWithKey r id message in Ok (sig, id)
  end.

Definition remote_Verify (r : RemoteKeystoreStub) (id : string) (message signature : bytes) : result KeyringError bool :=
  Verify (verifier r) id message signature.

Definition remote_MigrateSignature (r : RemoteKeystoreStub) (oldKeyID : string) (message oldSig : bytes) (toAlgo : string)
    : result RemoteError (bytes * string) :=
  let! out := request r (gw_migrate (gateway r) oldKeyID (hex_encode message) (hex_encode oldSig) toAlgo) in
  let! sig := decoded (fst out) in
  Ok (sig, snd out).

(** ** Lemmas on the mirror *)

(** Every mirrored key lies under its identifier and is what its public half
    hydrates to. *)
Definition mirror_ok (v : Ring) : Prop :=
  ∀ id e, keys v !! id = Some e → KID (meta e) = id ∧ hydrate_meta (meta e) = Ok e.

Lemma hydrated_meta e algo b e' : hydratePublicOnly e algo b = Ok e' → meta e' = meta e.
Proof.
  unfold hydratePublicOnly. intros H. repeat case_bool_decide; try done.
  - destruct (negb _); [done|]. by apply ok_inj in H as <-.
  - apply result_bind_ok in H as (pub & _ & H). by apply ok_inj in H as <-.
  - apply result_bind_ok in H as (pub & _ & H). by apply ok_inj in H as <-.
  - destruct (_ <? _)%nat; [done|]. cbv zeta in H. destruct (_ <? _); [done|]. destruct (negb _); [done|].
    apply result_bind_ok in H as (pub & _ & H). by apply ok_inj in H as <-.
Qed.

Lemma mirror_ok_new : mirror_ok NewKeyRing.
Proof. intros id e. cbn. by rewrite lookup_empty. Qed.

Lemma load_public_hydrated (r0 : Ring) es doc :
  Forall (λ e, hydrate_meta (meta e) = Ok e) es →
  load_public r0 ((meta <$> es) ++ doc) = load_public (foldl install r0 es) doc.
Proof.
  revert r0. induction es as [|e es IH]; intros r0 Hes; [done|]. apply Forall_cons in Hes as [He Hes].
  cbn [fmap list_fmap app load_public foldl]. rewrite He. cbn [result_bind]. by apply IH.
Qed.

Lemma installed_keys (es : list (keyEntry (MPriv := MPriv) (MPub := MPub))) id e :
  (∀ e1 e2, e1 ∈ es → e2 ∈ es → KID (meta e1) = KID (meta e2) → e1 = e2) →
  keys (foldl install NewKeyRing es) !! id = Some e ↔ e ∈ es ∧ KID (meta e) = id.
Proof.
  induction es as [|e0 es IH] using rev_ind; intros Hu.
  { cbn. rewrite lookup_empty. split; [done|]. by intros [?%elem_of_nil _]. }
  rewrite foldl_app. cbn [foldl install keys].
  assert (∀ e1 e2, e1 ∈ es → e2 ∈ es → KID (meta e1) = KID (meta e2) → e1 = e2) as Hu'.
  { intros e1 e2 H1 H2. apply Hu; apply elem_of_app; by left. }
  rewrite lookup_insert_Some, (IH Hu'), elem_of_app, list_elem_of_singleton. split.
  - intros [[<- ->]|[Hne [He <-]]]; [by split; [right|]|]. split; [by left|done].
  - intros [[He| ->] Hid]; [|by left]. destruct (decide (KID (meta e0) = id)) as [E|Hne]; [|by right].
    left. split; [done|]. apply Hu; [apply elem_of_app; right; apply list_elem_of_singleton; done|apply elem_of_app; by left|congruence].
Qed.

(** Mirroring a key adds or replaces this key and makes it the active one. *)
Lemma mirror_adds v m v' :
  mirror_ok v → mirrorMeta v m = Ok v' →
  ∃ e, hydrate_meta m = Ok e ∧ meta e = m ∧ keys v' = <[KID m := e]> (keys v) ∧ mirror_ok v' ∧
    (Active m = true → active v' !! KAlgo m = Some (KID m)).
Proof.
  intros Hv. unfold mirrorMeta, LoadPublicKeyRing, MarshalPublic. destruct (listed_entries v) as (es & -> & Hp).
  assert (∀ e, e ∈ es ↔ ∃ id, keys v !! id = Some e) as Hes.
  { intros e. rewrite Hp. split.
    - intros ([id e'] & -> & H%elem_of_map_to_list)%list_elem_of_fmap. by exists id.
    - intros [id H%elem_of_map_to_list]. apply list_elem_of_fmap. by exists (id, e). }
  rewrite load_public_hydrated.
  2: { apply Forall_forall. intros e [id He]%Hes. by apply (Hv id e). }
  cbn [load_public]. intros (e & He & E)%result_bind_ok. apply ok_inj in E as <-.
  assert (meta e = m) as Hm.
  { unfold hydrate_meta in He. apply result_bind_ok in He as (pb & _ & He).
    destruct (hydratePublicOnly _ _ _) as [e0|] eqn:Eh; [|done]. apply ok_inj in He as ->. by apply hydrated_meta in Eh. }
  assert (keys (foldl install NewKeyRing es) = keys v) as Hkeys.
  { apply map_eq. intros id. apply option_eq. intros e1. rewrite installed_keys.
    - rewrite Hes. split; [intros [[id' H] <-]; by rewrite (proj1 (Hv _ _ H))|]. intros H. split; [by exists id|by apply (Hv id)].
    - intros e1' e2 [i1 H1]%Hes [i2 H2]%Hes Hid. destruct (Hv _ _ H1) as [E1 _], (Hv _ _ H2) as [E2 _]. congruence. }
  exists e. split; [done|]. split; [done|]. cbn [install keys]. rewrite Hm, Hkeys. split; [done|]. split.
  - intros id e1. cbn [install keys]. rewrite Hm, Hkeys. intros [[<- <-]|[Hne H]]%lookup_insert_Some; [by rewrite Hm|by apply Hv].
  - intros Ha. cbn [install active]. rewrite Hm, Ha. apply lookup_insert_eq.
Qed.

(** The active keys of a loaded ring are among its keys. *)
Definition active_known (v : Ring) : Prop := ∀ a id, active v !! a = Some id → is_Some (keys v !! id).

Lemma install_known v e : active_known v → active_known (install v e).
Proof.
  intros Hv a id. cbn [install active keys]. destruct (decide (KID (meta e) = id)) as [<-|Hne].
  { intros _. rewrite lookup_insert_eq. by eexists. }
  rewrite lookup_insert_ne by done. destruct (Active (meta e)); [|apply Hv].
  intros [[_ H]|[_ H]]%lookup_insert_Some; [done|by apply (Hv a)].
Qed.

Lemma load_public_known doc v v' : active_known v → load_public v doc = Ok v' → active_known v'.
Proof.
  revert v. induction doc as [|m doc IH]; intros v Hv; cbn [load_public]; [by intros <-%ok_inj|].
  intros (e & _ & H)%result_bind_ok. by apply (IH (install v e)); [apply install_known|].
Qed.
End remote.

(** ** Keys created through the stub *)

(** What the stub relies on. A key the gateway has issued stays with it through
    later creations, and what it signs with it is hex and passes under the public
    half it has published. *)
Class GatewayLaws {MPriv MPub} `{!Primitives MPriv MPub} (G : Type) `{!Gateway G} := {
  gw_holds : G → KeyMeta → Prop;
  gw_created g a g' m : gw_create g a = (g', Ok m) → gw_holds g' m;
  gw_keeps g a g' out m : gw_create g a = (g', out) → gw_holds g m → gw_holds g' m;
  gw_signed g m msg s : gw_holds g m → gw_sign g (KID m) (hex_encode msg) = Ok s →
    ∃ e sig, hydrate_meta m = Ok e ∧ hex_decode s = Some sig ∧ entry_verify e msg sig = Ok true;
}.

Section created.
Context {MPriv MPub : Type} `{!Primitives MPriv MPub} {G : Type} `{!Gateway G, !GatewayLaws G}.
Implicit Types r : RemoteKeystoreStub (MPriv := MPriv) (MPub := MPub) (G := G).

Record stub_inv r : Prop := {
  si_mirror : mirror_ok (verifier r);
  si_held id e : keys (verifier r) !! id = Some e → gw_holds (gateway r) (meta e);
  si_active : active_known (verifier r);
}.

Definition issues r r' : Prop := ∃ algo out, remote_CreateKey r algo = (r', out).

(** A creation that does not issue the identifier [id] once more. *)
Definition issues_other (id : string) r r' : Prop :=
  ∃ algo out, remote_CreateKey r algo = (r', out) ∧ ∀ m, out = Ok m → KID m ≠ id.

Lemma issues_other_issues id r r' : issues_other id r r' → issues r r'.
Proof. intros (algo & out & H & _). by exists algo, out. Qed.

Lemma stub_inv_new g url tok : stub_inv (NewRemote g url tok).
Proof.
  split; cbn.
  - apply mirror_ok_new.
  - intros id e. by rewrite lookup_empty.
  - intros a id. cbn. by rewrite lookup_empty.
Qed.

Lemma stub_inv_issues r r' : stub_inv r → issues r r' → stub_inv r'.
Proof.
  intros [Hm Hh Ha] (algo & out & H). unfold remote_CreateKey in H. destruct (wired r); cbn [negb] in H; [|by simplify_eq].
  destruct (gw_create (gateway r) algo) as [g answer] eqn:Hg.
  assert (∀ id e, keys (verifier r) !! id = Some e → gw_holds g (meta e)) as Hk.
  { intros id e He. eapply gw_keeps; [exact Hg|by eapply Hh]. }
  destruct answer as [m|]; [|simplify_eq; by split].
  destruct (mirrorMeta (verifier r) m) as [v|] eqn:Hv; [|simplify_eq; by split].
  injection H as <- _. destruct (mirror_adds _ _ _ Hm Hv) as (e & He & Hme & Hkeys & Hok & _). split; cbn [verifier gateway with_gateway].
  - done.
  - intros id e1. rewrite Hkeys. intros [[_ <-]|[_ H]]%lookup_insert_Some; [|by eapply Hk].
    rewrite Hme. by eapply gw_created.
  - eapply load_public_known; [|exact Hv]. intros a id. cbn. by rewrite lookup_empty.
Qed.

Lemma stub_inv_reached r r' : stub_inv r → rtc issues r r' → stub_inv r'.
Proof. intros Hr H. induction H as [|x y z Hxy _ IH]; [done|]. by apply IH, (stub_inv_issues x). Qed.

Lemma mirrored_stays id e r r' :
  stub_inv r → keys (verifier r) !! id = Some e → rtc (issues_other id) r r' → keys (verifier r') !! id = Some e.
Proof.
  intros Hr He H. induction H as [|x y z Hxy _ IH]; [done|]. apply IH.
  { by eapply stub_inv_issues, issues_other_issues. }
  destruct Hxy as (algo & out & H & Hne), Hr as [Hm _ _]. unfold remote_CreateKey in H.
  destruct (wired x); cbn [negb] in H; [|by simplify_eq]. destruct (gw_create _ _) as [g [m|]]; [|by simplify_eq].
  destruct (mirrorMeta (verifier x) m) as [v|] eqn:Hv; [|by simplify_eq]. simplify_eq. cbn [verifier with_gateway].
  destruct (mirror_adds _ _ _ Hm Hv) as (e1 & _ & _ & -> & _). rewrite lookup_insert_ne by by apply Hne. done.
Qed.
End created.

(** A signature obtained through the stub is under its active key, comes only from a
    gateway that is wired, and verifies locally: at once, and after any number of later
    creations, answered or refused, that do not issue the same identifier again. *)
Theorem remote_signatures_last {MPriv MPub} `{!Primitives MPriv MPub} {G} `{!Gateway G, !GatewayLaws G}
    (g : G) url tok r r' algo msg sig id
    (Hr : rtc issues (NewRemote g url tok) r) (Hs : remote_Sign r algo msg = Ok (sig, id))
    (Hl : rtc (issues_other id) r r') :
  wired r = true ∧ remote_ActiveKeyID r algo = Some id ∧ remote_Verify r' id msg sig = Ok true.
Proof.
  pose proof (stub_inv_reached _ _ (stub_inv_new g url tok) Hr) as Hi. unfold remote_Sign in Hs.
  destruct (ActiveKeyID (verifier r) algo) as [id0|] eqn:Ha; [|done].
  apply result_bind_ok in Hs as (sig0 & Hs & [= -> ->]). unfold remote_SignWithKey, request in Hs.
  destruct (wired r); [|done]. apply result_bind_ok in Hs as (h & Hg & Hd).
  destruct (gw_sign _ _ _) as [s|] eqn:Es; [|done]. apply ok_inj in Hg as ->.
  assert (is_Some (keys (verifier r) !! id)) as [e He].
  { unfold ActiveKeyID in Ha. destruct (active (verifier r) !! algo) as [id1|] eqn:E; [|done].
    case_bool_decide; [done|]. simplify_eq. by eapply (si_active r Hi). }
  destruct (si_mirror r Hi id e He) as [Hid Hhyd].
  rewrite <- Hid in Es. destruct (gw_signed _ _ _ _ (si_held r Hi id e He) Es) as (e' & sig' & He' & Hd' & Hv).
  pose proof (ok_inj _ _ (eq_trans (eq_sym Hhyd) He')) as <-.
  unfold decoded in Hd. rewrite Hd' in Hd. apply ok_inj in Hd as ->.
  split; [done|]. split; [done|]. unfold remote_Verify, Verify. by rewrite (mirrored_stays id e r r' Hi He Hl).
Qed.

(** A stub without address or token asks the gateway for nothing. *)
Lemma unwired_refuses {MPriv MPub} `{!Primitives MPriv MPub} {G} `{!Gateway G}
    (r : RemoteKeystoreStub (MPriv := MPriv) (MPub := MPub) (G := G)) algo id msg sig :
  wired r = false →
  remote_CreateKey r algo = (r, Err RNotSupported) ∧ remote_GetMeta r id = Err RNotSupported ∧ remote_List r = [] ∧
  remote_SignWithKey r id msg = Err RNotSupported ∧ remote_MigrateSignature r id msg sig algo = Err RNotSupported.
Proof.
  intros Hw. unfold remote_CreateKey, remote_GetMeta, remote_List, remote_SignWithKey, remote_MigrateSignature, request.
  by rewrite Hw.
Qed.

(** ** A concrete gateway: one Ed25519 key pair under numbered names *)

Section example.
#[local] Existing Instance toy_primitives.
#[local] Existing Instance toy_laws.

Definition issued (n : nat) : KeyMeta :=
  {| KID := "k" +:+ itoa (Z.of_nat n); KAlgo := AlgoEd25519; Version := Z.of_nat n; PublicKey := hex_encode (ed_generate (repeat Byte.x07 32)).2;
     CreatedAt := time_zero; RetiredAt := None; Active := true |}.

#[local] Instance toy_gateway : Gateway nat := {
  gw_create n a := (S n, if bool_decide (a = AlgoEd25519) then Ok (issued (S n)) else Err "unsupported"%string);
  gw_get n id := Err "not found"%string;
  gw_list n := Ok (issued <$> seq 1 n);
  gw_sign n id h := match hex_decode h with Some msg => match SignClassic (ed_generate (repeat Byte.x07 32)).1 msg with Ok sig => Ok (hex_encode sig) | Err _ => Err "refused"%string end | None => Err "not hex"%string end;
  gw_migrate n id h s a := Err "unsupported"%string;
}.

#[local] Instance toy_gateway_laws : GatewayLaws nat.
Proof.
  refine {| gw_holds _ m := KAlgo m = AlgoEd25519 ∧ PublicKey m = hex_encode (ed_generate (repeat Byte.x07 32)).2 |}.
  - intros g a g' m [= <- H]. case_bool_decide; [|done]. by apply ok_inj in H as <-.
  - done.
  - intros g m msg s [Ha Hp] H. cbn [gw_sign toy_gateway] in H. rewrite hex_decode_encode in H.
    destruct (classic_correct (repeat Byte.x07 32) msg) as (sig & Hs & _ & Hv). rewrite Hs in H. apply ok_inj in H as <-.
    unfold hydrate_meta. rewrite Hp, hex_decode_encode. cbn [of_option result_bind].
    unfold hydratePublicOnly. rewrite Ha. rewrite bool_decide_true by done.
    destruct (ed_generate_sizes (repeat Byte.x07 32)) as [_ Hl]. rewrite Hl, Nat.eqb_refl. cbn [negb].
    eexists _, sig. split; [done|]. split; [apply hex_decode_encode|].
    unfold entry_verify. cbn [set_ed meta empty_entry ed25519Pub]. rewrite Ha, bool_decide_true by done. by rewrite Hv.
Qed.

Let stub0 := NewRemote (MPriv := bytes) (MPub := bytes) 0%nat "https://hsm/" "t".
Let stub1 := (remote_CreateKey stub0 AlgoEd25519).1.
Let stub2 := (remote_RotateKey stub1 AlgoEd25519).1.

Example mirror_keeps_both_active :
  baseURL stub1 = "https://hsm"%string ∧
  remote_ActiveKeyID stub1 AlgoEd25519 = Some "k1"%string ∧ remote_ActiveKeyID stub2 AlgoEd25519 = Some "k2"%string ∧
  (KID <$> filter Active (ListKeys (verifier stub2))) = ["k1"; "k2"]%string.
Proof. vm_compute. done. Qed.

Lemma remote_signatures_last_witness :
  ∃ sig, remote_Sign stub1 AlgoEd25519 [Byte.x01] = Ok (sig, "k1"%string) ∧ rtc (issues_other "k1") stub1 stub2 ∧
    (wired stub1 = true ∧ remote_ActiveKeyID stub1 AlgoEd25519 = Some "k1"%string ∧ remote_Verify stub2 "k1" [Byte.x01] sig = Ok true).
Proof.
  assert (rtc (issues_other "k1") stub1 stub2) as Hl.
  { apply rtc_once. exists AlgoEd25519, (remote_RotateKey stub1 AlgoEd25519).2.
    split; [apply surjective_pairing|]. intros m. vm_compute. by intros [= <-]. }
  eexists. split; [vm_compute; reflexivity|]. split; [exact Hl|].
  apply (remote_signatures_last 0%nat "https://hsm/" "t" stub1 stub2 AlgoEd25519); [|vm_compute; reflexivity|exact Hl].
  apply rtc_once. exists AlgoEd25519, (remote_CreateKey stub0 AlgoEd25519).2. apply surjective_pairing.
Defined.
End example.
