(* ===== verification/Expo.v ===== *)
(** * What the two metric registries share

    [sort.SearchFloat64s], the formats of numbers in the exposition ([%g] and
    [formatFloat] of [observability/metrics.go]) and a reader of label sets in the
    Prometheus text format, which the registries' texts are compared with. *)

From S2P Require Import Prelude GoLib Json JsonFacts.

Local Open Scope Z_scope.

(** ** [sort.Search] *)

Section search.
Variable p : nat → bool.

(** The loop runs while [i < j]; the distance shrinks, so [n] rounds are enough. *)
Fixpoint search_loop (fuel : nat) (i j : nat) : nat :=
  match fuel with
  | O => i
  | S fuel =>
      if (i <? j)%nat then
        let h := ((i + j) / 2)%nat in
        if negb (p h) then search_loop fuel (S h) j else search_loop fuel i h
      else i
  end.

Definition sort_search (n : nat) : nat := search_loop n 0 n.

Definition upward (n : nat) : Prop := ∀ i j, (i <= j < n)%nat → p i = true → p j = true.

Lemma search_loop_spec n fuel i j :
  upward n → (j - i <= fuel)%nat → (i <= j <= n)%nat →
  (∀ k, (k < i)%nat → p k = false) → (∀ k, (j <= k < n)%nat → p k = true) →
  let r := search_loop fuel i j in
  (r <= n)%nat ∧ (∀ k, (k < r)%nat → p k = false) ∧ (∀ k, (r <= k < n)%nat → p k = true).
Proof.
  intros Hup. revert i j. induction fuel as [|fuel IH]; intros i j Hf Hij Hlo Hhi; cbn [search_loop].
  { replace j with i in * by lia. split; [lia|]. by split. }
  destruct (Nat.ltb_spec i j) as [Hlt|]; [|replace j with i in * by lia; split; [lia|]; by split].
  pose proof (Nat.div_mod (i + j) 2 ltac:(lia)) as Hd. pose proof (Nat.mod_bound_pos (i + j) 2 ltac:(lia) ltac:(lia)).
  set (h := ((i + j) / 2)%nat) in *. cbv zeta. destruct (p h) eqn:Eh; cbn [negb].
  - apply IH; try done; try lia. intros k Hk. apply (Hup h k); [lia|done].
  - apply IH; try done; try lia. intros k Hk. destruct (p k) eqn:Ek; [|done]. rewrite (Hup k h) in Eh; [done|lia|done].
Qed.

(** A monotone test: the first index that passes, or [n]. *)
Lemma sort_search_first n :
  upward n →
  (sort_search n <= n)%nat ∧ (∀ k, (k < sort_search n)%nat → p k = false) ∧ (∀ k, (sort_search n <= k < n)%nat → p k = true).
Proof. intros Hup. apply (search_loop_spec n n 0 n); try done; lia. Qed.
End search.

Lemma search_loop_le p fuel i j n : (i <= j <= n)%nat → (search_loop p fuel i j <= n)%nat.
Proof.
  revert i j. induction fuel as [|fuel IH]; intros i j H; cbn [search_loop]; [lia|].
  destruct (Nat.ltb_spec i j); [|lia]. pose proof (Nat.div_mod (i + j) 2 ltac:(lia)).
  pose proof (Nat.mod_bound_pos (i + j) 2 ltac:(lia) ltac:(lia)). destruct (negb _); apply IH; lia.
Qed.

(** [sort.SearchFloat64s(a, x)]: the test is that [a[i] < x] fails. The library also
    had the test [a[i] >= x], which differs on NaN; the theorems leave NaN out. *)
Definition search_floats (a : list float64) (x : float64) : nat :=
  sort_search (λ i, negb (f_ltb (nth i a S754_nan) x)) (length a).

Lemma search_floats_le a v : (search_floats a v <= length a)%nat.
Proof. apply search_loop_le. lia. Qed.

(** Ascending bounds, as both registries end up with: none of them NaN. *)
Definition ascending (a : list float64) : Prop :=
  Forall (λ b, is_nan b = false) a ∧ StronglySorted (λ x y, f_leb x y = true) a.

Lemma f_leb_trans x y z : f_leb x y = true → f_leb y z = true → f_leb x z = true.
Proof.
  intros H1 H2. destruct (f_leb_nan _ _ H1) as [Hx Hy], (f_leb_nan _ _ H2) as [_ Hz]. revert H1 H2.
  rewrite !f_leb_key by done. intros H1 H2 H3. apply key_lt_neg in H2 as [H2|H2].
  - apply H1, (key_lt_trans _ _ _ H2 H3).
  - rewrite H2 in H3. done.
Qed.

Lemma sorted_lookup {A} (R : A → A → Prop) (l : list A) i j x y :
  StronglySorted R l → (i < j)%nat → l !! i = Some x → l !! j = Some y → R x y.
Proof.
  intros Hs. revert i j. induction Hs as [|a l Hs IH Ha]; intros i j Hij Hi Hj; [done|].
  destruct j as [|j]; [lia|]. destruct i as [|i]; cbn in *.
  - injection Hi as <-. rewrite Forall_forall in Ha. by eapply Ha, list_elem_of_lookup_2.
  - apply (IH i j); [lia|done..].
Qed.

Lemma not_below x y : is_nan x = false → is_nan y = false → negb (f_ltb y x) = true ↔ f_leb x y = true.
Proof. intros Hx Hy. rewrite negb_true_iff, <- not_true_iff_false, f_ltb_key, f_leb_key by done. done. Qed.

(** The search finds the first bound that is not below the value. *)
Lemma search_floats_spec a v :
  ascending a → is_nan v = false → (search_floats a v <= length a)%nat ∧
  ∀ i b, a !! i = Some b → (search_floats a v <= i)%nat ↔ f_leb v b = true.
Proof.
  intros [Ha Hs] Hv. unfold search_floats. set (p := λ i, negb (f_ltb (nth i a S754_nan) v)).
  assert (∀ i x, a !! i = Some x → p i = true ↔ f_leb v x = true) as Hp.
  { intros i x Hx. unfold p. rewrite (nth_lookup_Some _ _ _ _ Hx). apply not_below; [done|].
    rewrite Forall_forall in Ha. by eapply Ha, list_elem_of_lookup_2. }
  destruct (sort_search_first p (length a)) as (Hn & Hlo & Hhi).
  { intros i j [Hij Hj] Hi. destruct (decide (i = j)) as [->|]; [done|].
    destruct (lookup_lt_is_Some_2 a j Hj) as [y Hy]. destruct (lookup_lt_is_Some_2 a i) as [x Hx]; [lia|].
    apply (Hp j y Hy), (f_leb_trans v x y); [by apply (Hp i x)|]. by apply (sorted_lookup _ a i j x y Hs); [lia|..]. }
  split; [done|]. intros i b Hb. pose proof (lookup_lt_Some _ _ _ Hb) as Hi. rewrite <- (Hp i b Hb). split.
  - intros H. by apply Hhi.
  - intros H. destruct (Nat.le_gt_cases (sort_search p (length a)) i) as [|Hlt]; [done|].
    pose proof (eq_trans (eq_sym H) (Hlo i Hlt)). done.
Qed.

(** ** Numbers *)

(** [%g]: the shortest digits, in scientific form when the decimal exponent is
    below -4 or above 5. *)
Definition exponent_text (x : Z) : string :=
  ((if (x <? 0)%Z then "e-" else "e+") +:+ pad_left 2 (itoa (Z.abs x)))%string.

Definition fmt_g (x : float64) : string :=
  match x with
  | S754_nan => "NaN"
  | S754_infinity neg => if neg then "-Inf" else "+Inf"
  | S754_zero neg => if neg then "-0" else "0"
  | S754_finite neg m e =>
      let '(q, s) := shortest (Zpos m) e in
      let ds := itoa q in
      let x := (s + Z.of_nat (String.length ds) - 1)%Z in
      let frac := String.substring 1 (String.length ds - 1) ds in
      (if neg then "-" else "") +:+
      (if (x <? -4)%Z || (6 <=? x)%Z
       then String.substring 0 1 ds +:+ (if bool_decide (frac = ""%string) then "" else "." +:+ frac) +:+ exponent_text x
       else fixed_text q s)
  end%string.

Example fmt_g_samples :
  fmt_g <$> [f_dec 5 3; f_dec 25 1; f_of_Z 10; f_of_Z 1000000; f_of_Z 123456789; f_dec 1 5; f_dec 123 6; f_dec 3 1; S754_infinity false]
  = ["0.005"; "2.5"; "10"; "1e+06"; "1.23456789e+08"; "1e-05"; "0.000123"; "0.3"; "+Inf"]%string.
Proof. vm_compute. reflexivity. Qed.

(** [int64(v)] of an integral value, [v == math.Trunc(v)] and [math.Abs(v) < 1e15]. *)
Definition integral (x : float64) : option Z :=
  match x with
  | S754_zero _ => Some 0
  | S754_finite neg m e =>
      let sgn := if neg then -1 else 1 in
      if 0 <=? e then Some (sgn * (Zpos m * 2 ^ e))
      else if Zpos m mod 2 ^ (- e) =? 0 then Some (sgn * (Zpos m / 2 ^ (- e))) else None
  | _ => None
  end.

Definition formatFloat (x : float64) : string :=
  match integral x with
  | Some z => if Z.abs z <? 10 ^ 15 then itoa z else fmt_g x
  | None => fmt_g x
  end.

Example formatFloat_samples :
  formatFloat <$> [f_of_Z 10; f_dec 25 1; f_of_Z 1000000; f_of_Z (10 ^ 15); S754_nan; S754_zero true]
  = ["10"; "2.5"; "1000000"; "1e+15"; "NaN"; "0"]%string.
Proof. vm_compute. reflexivity. Qed.

(** ** Label sets in the text format *)

(** What a label value is written as: backslash, quote and line feed escaped. *)
Definition escape_char (c : Ascii.ascii) : string :=
  let n := Ascii.N_of_ascii c in
  if (n =? 92)%N then str2 (chr 92) (chr 92)
  else if (n =? 34)%N then str2 (chr 92) (chr 34)
  else if (n =? 10)%N then str2 (chr 92) (chr 110)
  else String c EmptyString.

Fixpoint escape (s : string) : string :=
  match s with EmptyString => EmptyString | String c s' => (escape_char c +:+ escape s')%string end.

Definition quoted_label (kv : string * string) : string :=
  (fst kv +:+ "=" +:+ String (chr 34) (escape (snd kv) +:+ String (chr 34) EmptyString))%string.

Definition labels_body (l : list (string * string)) : string := string_join "," (quoted_label <$> l).

(** A reader of label sets: what a scraper gets out of the text. *)
Definition unescape_char (c : Ascii.ascii) : Ascii.ascii := if bool_decide (c = chr 110) then chr 10 else c.

Fixpoint read_value (s : string) : option (string * string) :=
  match s with
  | EmptyString => None
  | String c s1 =>
      if bool_decide (c = chr 34) then Some (EmptyString, s1)
      else if bool_decide (c = chr 92) then
        match s1 with
        | String d s2 => (λ vr : string * string, (String (unescape_char d) vr.1, vr.2)) <$> read_value s2
        | EmptyString => None
        end
      else if bool_decide (c = chr 10) then None
      else (λ vr : string * string, (String c vr.1, vr.2)) <$> read_value s1
  end.

Definition read_label (s : string) : option ((string * string) * string) :=
  match cut_at (chr 61) s with
  | Some (k, String q rest) =>
      if bool_decide (q = chr 34) then (λ vr : string * string, ((k, vr.1), vr.2)) <$> read_value rest else None
  | _ => None
  end.

Fixpoint read_labels (fuel : nat) (s : string) : option (list (string * string)) :=
  match fuel with
  | O => None
  | S fuel =>
      match read_label s with
      | Some (kv, EmptyString) => Some [kv]
      | Some (kv, String c rest) => if bool_decide (c = chr 44) then cons kv <$> read_labels fuel rest else None
      | None => None
      end
  end.

Lemma read_escaped v rest : read_value (escape v +:+ String (chr 34) rest) = Some (v, rest).
Proof.
  induction v as [|c v IH]; [done|]. cbn [escape]. rewrite <- str_app_assoc. unfold escape_char.
  destruct (N.eqb_spec (Ascii.N_of_ascii c) 92) as [E|E92].
  { assert (c = chr 92) as -> by (apply (f_equal Ascii.ascii_of_N) in E; by rewrite Ascii.ascii_N_embedding in E).
    change (str2 (chr 92) (chr 92) +:+ (escape v +:+ String (chr 34) rest))%string
      with (String (chr 92) (String (chr 92) (escape v +:+ String (chr 34) rest))). cbn [read_value].
    rewrite bool_decide_false by done. rewrite bool_decide_true by done. by rewrite IH. }
  destruct (N.eqb_spec (Ascii.N_of_ascii c) 34) as [E|E34].
  { assert (c = chr 34) as -> by (apply (f_equal Ascii.ascii_of_N) in E; by rewrite Ascii.ascii_N_embedding in E).
    change (str2 (chr 92) (chr 34) +:+ (escape v +:+ String (chr 34) rest))%string
      with (String (chr 92) (String (chr 34) (escape v +:+ String (chr 34) rest))). cbn [read_value].
    rewrite bool_decide_false by done. rewrite bool_decide_true by done. by rewrite IH. }
  destruct (N.eqb_spec (Ascii.N_of_ascii c) 10) as [E|E10].
  { assert (c = chr 10) as -> by (apply (f_equal Ascii.ascii_of_N) in E; by rewrite Ascii.ascii_N_embedding in E).
    change (str2 (chr 92) (chr 110) +:+ (escape v +:+ String (chr 34) rest))%string
      with (String (chr 92) (String (chr 110) (escape v +:+ String (chr 34) rest))). cbn [read_value].
    rewrite bool_decide_false by done. rewrite bool_decide_true by done. by rewrite IH. }
  change (String c "" +:+ (escape v +:+ String (chr 34) rest))%string with (String c (escape v +:+ String (chr 34) rest)).
  cbn [read_value]. rewrite !bool_decide_false by (intros ->; done). by rewrite IH.
Qed.

Lemma cut_at_first c k rest : no_char c k = true → cut_at c (k +:+ String c rest) = Some (k, rest).
Proof.
  induction k as [|d k IH]; intros Hk.
  { change (""%string +:+ String c rest)%string with (String c rest). cbn [cut_at]. by rewrite bool_decide_true. }
  change (String d k +:+ String c rest)%string with (String d (k +:+ String c rest)). cbn [cut_at].
  unfold no_char in Hk. cbn [string_forall] in Hk. apply andb_prop in Hk as [Hd Hk]. fold (no_char c k) in Hk.
  apply negb_true_iff in Hd. rewrite Hd, IH by done. done.
Qed.

Lemma read_quoted k v rest :
  no_char (chr 61) k = true → read_label (quoted_label (k, v) +:+ rest) = Some ((k, v), rest).
Proof.
  intros Hk. unfold read_label, quoted_label. cbn [fst snd]. rewrite <- !str_app_assoc.
  change ("=" +:+ (String (chr 34) (escape v +:+ String (chr 34) "") +:+ rest))%string
    with (String (chr 61) (String (chr 34) ((escape v +:+ String (chr 34) "") +:+ rest))).
  rewrite cut_at_first by done. rewrite bool_decide_true by done. rewrite <- str_app_assoc.
  change (String (chr 34) "" +:+ rest)%string with (String (chr 34) rest). by rewrite read_escaped.
Qed.

(** A nonempty label set is read back as it was, whatever its values are. *)
Lemma read_labels_body kv l :
  Forall (λ kv, no_char (chr 61) (fst kv) = true) (kv :: l) →
  read_labels (length (kv :: l)) (labels_body (kv :: l)) = Some (kv :: l).
Proof.
  revert kv. induction l as [|kv' l IH]; intros [k v] H; apply Forall_cons in H as [Hk H].
  - unfold labels_body. cbn [fmap list_fmap string_join String.concat length read_labels].
    assert (quoted_label (k, v) = quoted_label (k, v) +:+ "")%string as -> by (by rewrite str_app_nil).
    by rewrite read_quoted.
  - change (labels_body ((k, v) :: kv' :: l)) with (quoted_label (k, v) +:+ ("," +:+ labels_body (kv' :: l)))%string.
    change (length ((k, v) :: kv' :: l)) with (S (length (kv' :: l))). cbn [read_labels].
    rewrite read_quoted by done.
    change ("," +:+ labels_body (kv' :: l))%string with (String (chr 44) (labels_body (kv' :: l))). cbv iota beta.
    rewrite bool_decide_true by done. by rewrite IH.
Qed.

Lemma labels_body_inj l l' :
  Forall (λ kv, no_char (chr 61) (fst kv) = true) l → Forall (λ kv, no_char (chr 61) (fst kv) = true) l' →
  length l = length l' → labels_body l = labels_body l' → l = l'.
Proof.
  intros H H' Hl E. destruct l as [|kv l], l' as [|kv' l']; [done..|].
  pose proof (read_labels_body kv l H) as R. rewrite E, Hl, (read_labels_body kv' l' H') in R. congruence.
Qed.

(** ** Maps in the order of their keys *)

Definition by_key {A B} (render : string → A → B) (m : gmap string A) : list B :=
  omap (λ k, render k <$> m !! k) (sort_slice string_ltb (map_to_list m).*1).

Lemma elem_of_by_key {A B} (render : string → A → B) m y :
  y ∈ by_key render m ↔ ∃ k x, m !! k = Some x ∧ y = render k x.
Proof.
  unfold by_key. rewrite list_elem_of_omap. split.
  - intros (k & _ & H). destruct (m !! k) as [x|] eqn:E; [|done]. injection H as <-. eauto.
  - intros (k & x & Hk & ->). exists k. rewrite Hk. split; [|done]. apply elem_of_sort_slice, list_elem_of_fmap.
    exists (k, x). split; [done|]. by apply elem_of_map_to_list.
Qed.

(** ** [uint64] and [int64] cells *)

Definition u64 (z : Z) : Z := z mod 2 ^ 64.

Lemma u64_id z : 0 <= z < 2 ^ 64 → u64 z = z.
Proof. apply Z.mod_small. Qed.

Lemma u64_add a b : u64 (u64 a + b) = u64 (a + b).
Proof. unfold u64. by rewrite Zplus_mod_idemp_l. Qed.

Definition newline : string := String (chr 10) EmptyString.

(** Help texts escape the backslash and the line feed. *)
Definition help_char (c : Ascii.ascii) : string :=
  let n := Ascii.N_of_ascii c in
  if (n =? 92)%N then str2 (chr 92) (chr 92)
  else if (n =? 10)%N then str2 (chr 92) (chr 110)
  else String c EmptyString.

Lemma u64_add_l a b : u64 (u64 a + u64 b) = u64 (a + b).
Proof. unfold u64. by rewrite <- Zplus_mod. Qed.

(** Bounds that the code sorts are ascending. *)
Lemma sort_ascending l : Forall (λ b, is_nan b = false) l → ascending (sort_slice float_less l).
Proof.
  intros Hn. split; [by rewrite sort_slice_perm|].
  assert (Forall (λ b, is_nan b = false) (sort_slice float_less l)) as Hk by (by rewrite sort_slice_perm).
  pose proof (sort_slice_sorted float_less l) as Hs. induction Hs as [|x k Hs IH Hx]; [constructor|].
  apply Forall_cons in Hk as [Hnx Hk]. constructor; [by apply IH|]. apply Forall_forall. intros y Hy.
  rewrite Forall_forall in Hx, Hk. specialize (Hx y Hy). unfold not_after in Hx. specialize (Hk y Hy).
  apply f_leb_key; [done..|]. intros Hlt%float_less_key. congruence.
Qed.

(** ** Counting by index *)

Section cells.
Context {A : Type} (idx : A → nat).

Definition below (vs : list A) (i : nat) : Z := count (λ v, idx v <? i)%nat vs.

Lemma below_S vs i : below vs (S i) = below vs i + count (λ v, idx v =? i)%nat vs.
Proof.
  unfold below. induction vs as [|v vs IH]; [done|]. rewrite !count_cons, IH.
  destruct (Nat.ltb_spec (idx v) (S i)), (Nat.ltb_spec (idx v) i), (Nat.eqb_spec (idx v) i); lia.
Qed.

Lemma below_0 vs : below vs 0 = 0.
Proof. unfold below. induction vs as [|v vs IH]; [done|]. by rewrite count_cons, IH. Qed.

Lemma below_all vs n : (∀ v, v ∈ vs → (idx v < n)%nat) → below vs n = Z.of_nat (length vs).
Proof.
  unfold below. induction vs as [|v vs IH]; intros H; [done|]. rewrite count_cons, IH by (intros; apply H; by right).
  rewrite (proj2 (Nat.ltb_lt _ _)) by (apply H; left). cbn [length]. lia.
Qed.
End cells.

Lemma count_remove_at {A} (p : A → bool) i l x : l !! i = Some x → count p l = count p (remove_at i l) + (if p x then 1 else 0).
Proof.
  intros H. unfold remove_at. rewrite count_app. rewrite <- (take_drop_middle l i x H) at 1. rewrite count_app, count_cons. lia.
Qed.

Lemma wrap64_add a b : wrap64 (wrap64 a + b) = wrap64 (a + b).
Proof.
  unfold wrap64. replace ((a + 2 ^ 63) mod 2 ^ 64 - 2 ^ 63 + b + 2 ^ 63) with ((a + 2 ^ 63) mod 2 ^ 64 + b) by lia.
  rewrite Zplus_mod_idemp_l. do 2 f_equal. lia.
Qed.
