(* ===== verification/Metrics.v ===== *)
(** * Metrics ([engine/internal/observability]: [metrics.go], [webhook_metrics.go])

    The registry of counters, gauges and histograms and its text exposition. A
    metric registered under a name is the object that the caller keeps; operations
    name it, and what the code answers with a panic is [None]. An operation is one
    step; a scrape in the middle of one, which may see part of it, is not modelled. *)

From S2P Require Import Prelude GoLib Json JsonFacts Expo.

Local Open Scope Z_scope.

(** ** Data *)

Record labelKV := { lname : string; lval : string }.

Record counterSeries := { cs_labels : list labelKV; cs_val : float64 }.
Record Counter := { c_name : string; c_help : string; c_labelset : list string; c_series : gmap string counterSeries }.

Record gaugeSeries := { gs_labels : list labelKV; gs_val : float64 }.
Record Gauge := { g_name : string; g_help : string; g_labelset : list string; g_series : gmap string gaugeSeries }.

(** [counts] has a cell per bucket and one for +Inf. *)
Record histogramSeries := { hs_labels : list labelKV; counts : list Z; sum : float64; total : Z }.
Record Histogram := {
  h_name : string; h_help : string; h_labelset : list string; buckets : list float64; h_series : gmap string histogramSeries;
}.

Inductive metric := MCounter (c : Counter) | MGauge (g : Gauge) | MHistogram (h : Histogram).

Definition Registry : Type := gmap string metric.

Definition NewRegistry : Registry := ∅.

(** ** Labels and text *)

Definition record_separator : Ascii.ascii := chr 30.
Definition unit_separator : Ascii.ascii := chr 31.

Fixpoint labelKey (names values : list string) : string :=
  match names, values with
  | n :: ns, v :: vs =>
      (n +:+ String unit_separator v +:+ match ns with [] => "" | _ => String record_separator (labelKey ns vs) end)%string
  | _, _ => ""
  end.

Definition makeLabels (names values : list string) : list labelKV := zip_with Build_labelKV names values.

Definition contains_any (specials : list Ascii.ascii) (s : string) : bool := existsb (λ c, negb (no_char c s)) specials.

(** The loops over runes replace a byte that starts none. *)
Definition escape_rune (r : rune) : string :=
  match r with
  | InvalidByte => replacement
  | ValidRune (String c EmptyString) => escape_char c
  | ValidRune e => e
  end.
Definition escapeLabelVal (s : string) : string :=
  if negb (contains_any [chr 92; chr 34; chr 10] s) then s else string_concat (escape_rune <$> utf8 s).

Definition help_rune (r : rune) : string :=
  match r with
  | InvalidByte => replacement
  | ValidRune (String c EmptyString) => help_char c
  | ValidRune e => e
  end.
Definition escapeHelp (s : string) : string :=
  if negb (contains_any [chr 92; chr 10] s) then s else string_concat (help_rune <$> utf8 s).

Definition formatLabel (kv : labelKV) : string :=
  (lname kv +:+ "=" +:+ String (chr 34) (escapeLabelVal (lval kv) +:+ String (chr 34) EmptyString))%string.
Definition formatLabels (lbls : list labelKV) : string :=
  match lbls with [] => "" | _ => "{" +:+ string_join "," (formatLabel <$> lbls) +:+ "}" end%string.

(** ** Registration *)

Definition register (r : Registry) (name : string) (m : metric) : option Registry :=
  match r !! name with Some _ => None | None => Some (<[name := m]> r) end.

Definition NewCounter (r : Registry) (name help : string) (labels : list string) : option Registry :=
  register r name (MCounter {| c_name := name; c_help := help; c_labelset := labels; c_series := ∅ |}).

Definition NewGauge (r : Registry) (name help : string) (labels : list string) : option Registry :=
  register r name (MGauge {| g_name := name; g_help := help; g_labelset := labels; g_series := ∅ |}).

Definition DefaultBuckets : list float64 :=
  [f_dec 5 3; f_dec 1 2; f_dec 25 3; f_dec 5 2; f_dec 1 1; f_dec 25 2; f_dec 5 1; f_of_Z 1; f_dec 25 1; f_of_Z 5; f_of_Z 10].

(** [buckets[i] <= buckets[i-1]] at some index. *)
Fixpoint misordered (bs : list float64) : bool :=
  match bs with
  | a :: ((b :: _) as rest) => f_leb b a || misordered rest
  | _ => false
  end.

Definition fresh_histogram (name help : string) (bs : list float64) (labels : list string) : Histogram :=
  {| h_name := name; h_help := help; h_labelset := labels; buckets := bs; h_series := ∅ |}.

Definition NewHistogram (r : Registry) (name help : string) (bs : option (list float64)) (labels : list string) : option Registry :=
  let bs := default DefaultBuckets bs in
  if misordered bs then None else register r name (MHistogram (fresh_histogram name help bs labels)).

(** ** Operations on one metric *)

Definition Counter_seriesFor (c : Counter) (vals : list string) : option (string * counterSeries) :=
  if negb (length vals =? length (c_labelset c))%nat then None
  else
    let key := labelKey (c_labelset c) vals in
    Some (key, default {| cs_labels := makeLabels (c_labelset c) vals; cs_val := f_zero |} (c_series c !! key)).

Definition Counter_Add (c : Counter) (delta : float64) (vals : list string) : option Counter :=
  if f_ltb delta f_zero then None
  else match Counter_seriesFor c vals with
       | None => None
       | Some (key, s) =>
           Some {| c_name := c_name c; c_help := c_help c; c_labelset := c_labelset c;
                   c_series := <[key := {| cs_labels := cs_labels s; cs_val := f_add (cs_val s) delta |}]> (c_series c) |}
       end.

Definition Counter_Inc (c : Counter) (vals : list string) : option Counter := Counter_Add c f_one vals.

Definition Gauge_seriesFor (g : Gauge) (vals : list string) : option (string * gaugeSeries) :=
  if negb (length vals =? length (g_labelset g))%nat then None
  else
    let key := labelKey (g_labelset g) vals in
    Some (key, default {| gs_labels := makeLabels (g_labelset g) vals; gs_val := f_zero |} (g_series g !! key)).

Definition Gauge_update (g : Gauge) (f : float64 → float64) (vals : list string) : option Gauge :=
  match Gauge_seriesFor g vals with
  | None => None
  | Some (key, s) =>
      Some {| g_name := g_name g; g_help := g_help g; g_labelset := g_labelset g;
              g_series := <[key := {| gs_labels := gs_labels s; gs_val := f (gs_val s) |}]> (g_series g) |}
  end.

Definition Gauge_Set (g : Gauge) (v : float64) (vals : list string) : option Gauge := Gauge_update g (λ _, v) vals.
Definition Gauge_Add (g : Gauge) (delta : float64) (vals : list string) : option Gauge := Gauge_update g (λ x, f_add x delta) vals.

Definition Histogram_seriesFor (h : Histogram) (vals : list string) : option (string * histogramSeries) :=
  if negb (length vals =? length (h_labelset h))%nat then None
  else
    let key := labelKey (h_labelset h) vals in
    Some (key, default {| hs_labels := makeLabels (h_labelset h) vals; counts := replicate (S (length (buckets h))) 0;
                          sum := f_zero; total := 0 |} (h_series h !! key)).

Definition inc64 (z : Z) : Z := u64 (z + 1).

(** [for i := idx; i < n; i++], then the cell of +Inf. *)
Definition bump_counts (idx n : nat) (cs : list Z) : list Z :=
  alter inc64 n (imap (λ i c, if (idx <=? i)%nat && (i <? n)%nat then inc64 c else c) cs).

Definition Histogram_Observe (h : Histogram) (v : float64) (vals : list string) : option Histogram :=
  match Histogram_seriesFor h vals with
  | None => None
  | Some (key, s) =>
      let idx := search_floats (buckets h) v in
      let s' := {| hs_labels := hs_labels s; counts := bump_counts idx (length (buckets h)) (counts s);
                   sum := f_add (sum s) v; total := inc64 (total s) |} in
      Some {| h_name := h_name h; h_help := h_help h; h_labelset := h_labelset h; buckets := buckets h;
              h_series := <[key := s']> (h_series h) |}
  end.

(** ** Operations through the registry *)

Definition on_counter (r : Registry) (name : string) (f : Counter → option Counter) : option Registry :=
  match r !! name with Some (MCounter c) => (λ c, <[name := MCounter c]> r) <$> f c | _ => None end.
Definition on_gauge (r : Registry) (name : string) (f : Gauge → option Gauge) : option Registry :=
  match r !! name with Some (MGauge g) => (λ g, <[name := MGauge g]> r) <$> f g | _ => None end.
Definition on_histogram (r : Registry) (name : string) (f : Histogram → option Histogram) : option Registry :=
  match r !! name with Some (MHistogram h) => (λ h, <[name := MHistogram h]> r) <$> f h | _ => None end.

(** ** Exposition *)

Definition header (name help kind : string) : string :=
  ("# HELP " +:+ name +:+ " " +:+ escapeHelp help +:+ newline +:+ "# TYPE " +:+ name +:+ " " +:+ kind +:+ newline)%string.

Definition sample (name labels value : string) : string := (name +:+ labels +:+ " " +:+ value +:+ newline)%string.

Definition Counter_writeTo (c : Counter) : string :=
  (header (c_name c) (c_help c) "counter" +:+
   string_concat (by_key (λ _ s, sample (c_name c) (formatLabels (cs_labels s)) (formatFloat (cs_val s))) (c_series c)))%string.

Definition Gauge_writeTo (g : Gauge) : string :=
  (header (g_name g) (g_help g) "gauge" +:+
   string_concat (by_key (λ _ s, sample (g_name g) (formatLabels (gs_labels s)) (formatFloat (gs_val s))) (g_series g)))%string.

Definition bucket_line (h : Histogram) (s : histogramSeries) (le : string) (n : Z) : string :=
  sample (h_name h +:+ "_bucket") (formatLabels (hs_labels s ++ [{| lname := "le"; lval := le |}])) (itoa n).

Definition series_text (h : Histogram) (s : histogramSeries) : string :=
  (string_concat (imap (λ i ub, bucket_line h s (formatFloat ub) (nth i (counts s) 0)) (buckets h)) +:+
   bucket_line h s "+Inf" (nth (length (buckets h)) (counts s) 0) +:+
   sample (h_name h +:+ "_sum") (formatLabels (hs_labels s)) (formatFloat (sum s)) +:+
   sample (h_name h +:+ "_count") (formatLabels (hs_labels s)) (itoa (total s)))%string.

Definition Histogram_writeTo (h : Histogram) : string :=
  (header (h_name h) (h_help h) "histogram" +:+ string_concat (by_key (λ _ s, series_text h s) (h_series h)))%string.

Definition writeTo (m : metric) : string :=
  match m with MCounter c => Counter_writeTo c | MGauge g => Gauge_writeTo g | MHistogram h => Histogram_writeTo h end.

(** To a writer that takes every line. *)
Definition WriteText (r : Registry) : string := string_concat (by_key (λ _ m, writeTo m) r).

(** ** Label texts are read back *)

(** What a label value is shown as: itself, or its valid runes when it has a
    character to escape. *)
Definition shown (s : string) : string := if contains_any [chr 92; chr 34; chr 10] s then sanitize s else s.

Lemma escape_app a b : escape (a +:+ b)%string = (escape a +:+ escape b)%string.
Proof.
  induction a as [|c a IH]; [done|]. change (String c a +:+ b)%string with (String c (a +:+ b)). cbn [escape].
  by rewrite IH, str_app_assoc.
Qed.

Lemma escape_high c s : ascii_in 128 255 c = true → escape (String c s) = String c (escape s).
Proof.
  intros [H _]%andb_prop. apply N.leb_le in H. cbn [escape]. unfold escape_char.
  destruct (N.eqb_spec (Ascii.N_of_ascii c) 92); [lia|]. destruct (N.eqb_spec (Ascii.N_of_ascii c) 34); [lia|].
  destruct (N.eqb_spec (Ascii.N_of_ascii c) 10); [lia|done].
Qed.

Lemma ascii_in_weaken a b a' b' c : (a' <= a)%N → (b <= b')%N → ascii_in a b c = true → ascii_in a' b' c = true.
Proof. unfold ascii_in. intros Ha Hb [H1 H2]%andb_prop. apply N.leb_le in H1, H2. apply andb_true_intro. split; apply N.leb_le; lia. Qed.

Lemma second_high c d : second_ok c d = true → ascii_in 128 255 d = true.
Proof. unfold second_ok. repeat case_step; intros H; revert H; apply ascii_in_weaken; lia. Qed.

Lemma escape_rune_text e : wf_enc e = true → escape_rune (ValidRune e) = escape e.
Proof.
  intros H. destruct e as [|c [|d [|x [|y [|]]]]]; cbn [wf_enc] in H; try done.
  - cbn [escape_rune escape]. by rewrite str_app_nil.
  - apply andb_prop in H as [Hc Hd]. cbn [escape_rune].
    rewrite escape_high, escape_high by (eapply ascii_in_weaken; [| |eassumption]; lia). done.
  - apply andb_prop in H as [[Hc Hd]%andb_prop Hx]. cbn [escape_rune].
    rewrite escape_high, escape_high, escape_high by (first [by eapply second_high|eapply ascii_in_weaken; [| |eassumption]; lia]). done.
  - apply andb_prop in H as [[[Hc Hd]%andb_prop Hx]%andb_prop Hy]. cbn [escape_rune].
    rewrite escape_high, escape_high, escape_high, escape_high
      by (first [by eapply second_high|eapply ascii_in_weaken; [| |eassumption]; lia]). done.
Qed.

Lemma no_char_cons d c s : no_char d (String c s) = true → c ≠ d ∧ no_char d s = true.
Proof. unfold no_char. cbn [string_forall]. intros [H1 H2]%andb_prop. split; [|done]. intros ->. by rewrite bool_decide_true in H1. Qed.

Lemma escape_plain s : contains_any [chr 92; chr 34; chr 10] s = false → escape s = s.
Proof.
  unfold contains_any. cbn [existsb]. rewrite orb_false_r. intros [H1 [H2 H3]%orb_false_elim]%orb_false_elim.
  apply negb_false_iff in H1, H2, H3. induction s as [|c s IH]; [done|].
  apply no_char_cons in H1 as [N1 H1], H2 as [N2 H2], H3 as [N3 H3]. cbn [escape]. rewrite IH by done.
  assert (∀ n, Ascii.N_of_ascii c = n → c = chr n) as Hn by (intros n <-; symmetry; apply Ascii.ascii_N_embedding).
  unfold escape_char. destruct (N.eqb_spec (Ascii.N_of_ascii c) 92); [by destruct N1; apply Hn|].
  destruct (N.eqb_spec (Ascii.N_of_ascii c) 34); [by destruct N2; apply Hn|].
  destruct (N.eqb_spec (Ascii.N_of_ascii c) 10); [by destruct N3; apply Hn|done].
Qed.

Lemma escapeLabelVal_shown s : escapeLabelVal s = escape (shown s).
Proof.
  unfold escapeLabelVal, shown. destruct (contains_any _ s) eqn:E; cbn [negb]; [|by rewrite escape_plain].
  clear E. unfold sanitize. induction s as [|c s E IH|e s He E IH] using utf8_ind; [done|..]; rewrite E, !fmap_cons; cbn [string_concat];
    rewrite escape_app, IH; [done|]. by rewrite escape_rune_text.
Qed.

(** The text of a label set as the reader of [Expo] takes it. *)
Definition pair_of (kv : labelKV) : string * string := (lname kv, shown (lval kv)).

Lemma formatLabels_body kv l : formatLabels (kv :: l) = ("{" +:+ labels_body (pair_of <$> kv :: l) +:+ "}")%string.
Proof.
  unfold formatLabels, labels_body. do 3 f_equal. rewrite <- list_fmap_compose. apply list_fmap_ext. intros _ [k v] _.
  unfold formatLabel, quoted_label, compose, pair_of. cbn [lname lval fst snd]. by rewrite escapeLabelVal_shown.
Qed.

(** ** Series keys *)

Lemma labelKey_inj names v w :
  Forall (λ s, no_char record_separator s = true) v → Forall (λ s, no_char record_separator s = true) w →
  length v = length names → length w = length names → labelKey names v = labelKey names w → v = w.
Proof.
  revert v w. induction names as [|n names IH]; intros [|x v] [|y w]; try done.
  intros [Hx Hv]%Forall_cons [Hy Hw]%Forall_cons [= Lv] [= Lw]. cbn [labelKey]. intros E.
  apply str_app_cancel in E. destruct names as [|n' names].
  { destruct v, w; try done. rewrite !str_app_nil in E. by injection E as ->. }
  injection E as E. apply split_at_sep in E as [-> E]; [|done..]. by rewrite (IH v w).
Qed.

(** Separators inside values: two label sets with one key. *)
Example separator_in_value :
  labelKey ["a"; "b"] [String.append "x" (String record_separator (String.append "b" (String unit_separator "y"))); "z"]%string
  = labelKey ["a"; "b"] ["x"; String.append "y" (String record_separator (String.append "b" (String unit_separator "z")))]%string.
Proof. vm_compute. reflexivity. Qed.

(** ** Histograms count exactly *)

Fixpoint observe_all (h : Histogram) (obs : list (float64 * list string)) : option Histogram :=
  match obs with
  | [] => Some h
  | (v, vals) :: obs => match Histogram_Observe h v vals with Some h => observe_all h obs | None => None end
  end.

Definition series_of (h : Histogram) (vals : list string) : string := labelKey (h_labelset h) vals.

(** The values observed under a series key. *)
Definition recorded (h : Histogram) (key : string) (obs : list (float64 * list string)) : list float64 :=
  fst <$> List.filter (λ o, bool_decide (series_of h (snd o) = key)) obs.

Definition expected_counts (bs vs : list float64) : list Z :=
  ((λ b, u64 (count (λ v, f_leb v b) vs)) <$> bs) ++ [u64 (Z.of_nat (length vs))].

Lemma inc64_u64 z : inc64 (u64 z) = u64 (z + 1).
Proof. apply u64_add. Qed.

Lemma misordered_sorted bs : misordered bs = false → Forall (λ b, is_nan b = false) bs → ascending bs.
Proof.
  intros H Hn. split; [done|]. induction bs as [|a bs IH]; [constructor|]. apply Forall_cons in Hn as [Ha Hn].
  destruct bs as [|b bs]; [repeat constructor|]. cbn [misordered] in H. apply orb_false_elim in H as [Hab H].
  specialize (IH H Hn). constructor; [done|]. apply Forall_cons in Hn as [Hb _].
  assert (f_leb a b = true) as Hle.
  { apply f_leb_key; [done..|]. intros Hk. rewrite <- not_true_iff_false, f_leb_key in Hab by done.
    apply Hab. intros Hk'. by apply (key_lt_irrefl (float_key a)), (key_lt_trans _ (float_key b)). }
  constructor; [done|]. apply StronglySorted_inv in IH as [_ IH]. eapply Forall_impl; [exact IH|].
  intros x Hx. by apply (f_leb_trans a b x).
Qed.

Lemma bump_expected bs vs v :
  ascending bs → is_nan v = false →
  bump_counts (search_floats bs v) (length bs) (expected_counts bs vs) = expected_counts bs (vs ++ [v]).
Proof.
  intros Hbs Hv. destruct (search_floats_spec bs v Hbs Hv) as [Hlen Hidx]. apply list_eq. intros i.
  unfold bump_counts, expected_counts.
  destruct (decide (i = length bs)) as [->|Hne].
  - rewrite list_lookup_alter_eq, list_lookup_imap, !lookup_app_r by (by rewrite length_fmap).
    rewrite !length_fmap, Nat.sub_diag. cbn -[Nat.ltb Nat.leb u64 inc64]. rewrite Nat.ltb_irrefl, andb_false_r. unfold inc64. rewrite u64_add, length_app. do 2 f_equal. cbn. lia.
  - rewrite list_lookup_alter_ne by done. rewrite list_lookup_imap. destruct (decide (i < length bs)%nat) as [Hi|Hi].
    + rewrite !lookup_app_l by (by rewrite length_fmap). rewrite !list_lookup_fmap.
      destruct (lookup_lt_is_Some_2 bs i Hi) as [b Hb]. rewrite Hb. cbn -[Nat.ltb Nat.leb u64 inc64]. rewrite (proj2 (Nat.ltb_lt _ _) Hi), andb_true_r.
      rewrite count_app, count_cons, count_nil. specialize (Hidx i b Hb).
      destruct (Nat.leb_spec (search_floats bs v) i) as [Hle|Hlt].
      * rewrite (proj1 Hidx Hle). by rewrite inc64_u64.
      * destruct (f_leb v b); [pose proof (proj2 Hidx eq_refl); lia|]. by rewrite Z.add_0_r.
    + rewrite !lookup_ge_None_2 by (rewrite length_app, length_fmap; cbn; lia). done.
Qed.

Definition histogram_state (h0 : Histogram) (obs : list (float64 * list string)) (h : Histogram) : Prop :=
  h_name h = h_name h0 ∧ h_help h = h_help h0 ∧ h_labelset h = h_labelset h0 ∧ buckets h = buckets h0 ∧
  ∀ key, match h_series h !! key with
         | None => recorded h0 key obs = []
         | Some s => recorded h0 key obs ≠ [] ∧
             (∃ vals, vals ∈ obs.*2 ∧ series_of h0 vals = key ∧ hs_labels s = makeLabels (h_labelset h0) vals) ∧
             counts s = expected_counts (buckets h0) (recorded h0 key obs) ∧
             sum s = foldl f_add f_zero (recorded h0 key obs) ∧
             total s = u64 (Z.of_nat (length (recorded h0 key obs)))
         end.

Lemma recorded_snoc h key obs v vals :
  recorded h key (obs ++ [(v, vals)]) = recorded h key obs ++ (if bool_decide (series_of h vals = key) then [v] else []).
Proof. unfold recorded. rewrite List.filter_app, fmap_app. cbn [List.filter snd]. by case_bool_decide. Qed.

Lemma expected_none bs : 0 :: replicate (length bs) 0 = expected_counts bs [].
Proof. unfold expected_counts. induction bs as [|b bs IH]; [done|]. cbn in *. by rewrite IH. Qed.

Lemma observe_state h0 obs h v vals h' :
  ascending (buckets h0) → is_nan v = false → histogram_state h0 obs h → Histogram_Observe h v vals = Some h' →
  histogram_state h0 (obs ++ [(v, vals)]) h'.
Proof.
  intros Hbs Hv (E1 & E2 & E3 & E4 & Hs) H. unfold Histogram_Observe, Histogram_seriesFor in H.
  destruct (negb _); [done|]. cbv zeta in H. injection H as <-.
  split; [done|]. split; [done|]. split; [done|]. split; [done|]. intros key. cbn [h_series]. rewrite recorded_snoc.
  rewrite E3, E4. change (labelKey (h_labelset h0) vals) with (series_of h0 vals).
  destruct (decide (series_of h0 vals = key)) as [<-|Hne].
  2: { rewrite lookup_insert_ne, bool_decide_false, app_nil_r by done. specialize (Hs key).
    destruct (h_series h !! key) as [s|]; [|done]. destruct Hs as (H1 & (w & Hw & H2) & H3).
    split; [done|]. split; [|done]. exists w. split; [|done]. rewrite fmap_app. apply elem_of_app. by left. }
  rewrite lookup_insert_eq, bool_decide_true by done. set (key := series_of h0 vals) in *. specialize (Hs key).
  cbn [hs_labels counts sum total].
  split; [by destruct (recorded h0 key obs)|].
  destruct (h_series h !! key) as [s|]; cbn [default from_option id hs_labels counts sum total].
  - destruct Hs as (_ & (w & Hw & Hk & Hl) & -> & -> & ->). split.
    { exists w. split; [|done]. rewrite fmap_app. apply elem_of_app. by left. }
    split; [by apply bump_expected|]. split; [by rewrite foldl_app|]. rewrite inc64_u64, length_app. f_equal. cbn. lia.
  - rewrite Hs. cbn [app foldl length]. split.
    { exists vals. split; [|done]. rewrite fmap_app. apply elem_of_app. right. by left. }
    split; [|done]. rewrite expected_none. by rewrite (bump_expected _ [] v).
Qed.

Lemma observe_all_state h0 obs1 obs h h' :
  ascending (buckets h0) → Forall (λ o, is_nan (fst o) = false) obs → histogram_state h0 obs1 h → observe_all h obs = Some h' → histogram_state h0 (obs1 ++ obs) h'.
Proof.
  intros Hbs Hv. revert obs1 h. induction Hv as [|[v vals] obs Hv _ IH]; intros obs1 h Hs H; cbn [observe_all] in H.
  { injection H as <-. by rewrite app_nil_r. }
  destruct (Histogram_Observe h v vals) as [h1|] eqn:E; [|done].
  change ((v, vals) :: obs) with ([(v, vals)] ++ obs). rewrite (app_assoc obs1 [(v, vals)] obs). apply (IH _ h1); [|done]. by apply (observe_state h0 obs1 h).
Qed.

(** What an accepted histogram exposes is exact. Whatever is observed, in whatever
    order, a series is written when and only when something was observed under its
    key; the line of a bound counts the values up to it (modulo 2^64), the line of
    +Inf and the count line count them all, and the sum is the rounded sum in the
    order of the observations; its labels are ones observed. *)
Theorem histogram_exact name help bs labels obs h
    (Hb : misordered bs = false) (Hn : Forall (λ b, is_nan b = false) bs)
    (Hv : Forall (λ o, is_nan (fst o) = false) obs) (Ho : observe_all (fresh_histogram name help bs labels) obs = Some h) :
  ∀ key, let vs := recorded h key obs in
  match h_series h !! key with
  | None => vs = []
  | Some s =>
      vs ≠ [] ∧
      series_text h s =
        (string_concat ((λ b, bucket_line h s (formatFloat b) (u64 (count (λ v, f_leb v b) vs))) <$> bs) +:+
         bucket_line h s "+Inf" (u64 (Z.of_nat (length vs))) +:+
         sample (name +:+ "_sum") (formatLabels (hs_labels s)) (formatFloat (foldl f_add f_zero vs)) +:+
         sample (name +:+ "_count") (formatLabels (hs_labels s)) (itoa (u64 (Z.of_nat (length vs)))))%string ∧
      ∃ vals, vals ∈ obs.*2 ∧ series_of h vals = key ∧ hs_labels s = makeLabels labels vals
  end.
Proof.
  pose proof (misordered_sorted bs Hb Hn) as Ha.
  assert (histogram_state (fresh_histogram name help bs labels) ([] ++ obs) h) as (E1 & _ & E3 & E4 & Hs).
  { apply (observe_all_state _ [] obs (fresh_histogram name help bs labels)); [done|done| |done].
    repeat split; intros key; cbn; by rewrite lookup_empty. }
  intros key. cbv zeta. specialize (Hs key). cbn [app] in Hs.
  assert (recorded h key obs = recorded (fresh_histogram name help bs labels) key obs) as Hr
    by (unfold recorded, series_of; by rewrite E3).
  rewrite Hr. destruct (h_series h !! key) as [s|]; [|done].
  destruct Hs as (Hne & (vals & Hin & Hk & Hl) & Hc & Hsum & Ht). cbn [buckets h_labelset fresh_histogram h_name] in *.
  set (vs := recorded _ key obs) in *. split; [done|]. split.
  - unfold series_text. rewrite E4, Hsum, Ht, Hc. unfold expected_counts at 2. f_equal; [|f_equal].
    + f_equal. apply list_eq. intros i. rewrite list_lookup_imap, list_lookup_fmap. destruct (bs !! i) as [b|] eqn:Ei; [|done].
      cbn [fmap option_fmap option_map]. do 2 f_equal. unfold expected_counts.
      rewrite app_nth1 by (rewrite length_fmap; by eapply lookup_lt_Some).
      apply nth_lookup_Some. by rewrite list_lookup_fmap, Ei.
    + rewrite app_nth2 by (rewrite length_fmap; lia). by rewrite length_fmap, Nat.sub_diag.
    + by rewrite E1.
  - exists vals. split; [exact Hin|]. split; [unfold series_of in *; by rewrite E3|]. exact Hl.
Qed.

Definition ex_observations : list (float64 * list string) :=
  [(f_dec 3 1, ["GET"]); (f_of_Z 2, ["POST"]); (f_of_Z 1, ["GET"]); (f_of_Z 7, ["GET"])]%string.
Definition ex_histogram : Histogram := fresh_histogram "lat" "h" [f_dec 5 1; f_of_Z 1] ["method"%string].
Definition ex_observed : Histogram := default ex_histogram (observe_all ex_histogram ex_observations).
Definition with_quotes (s : string) : string := string_map (λ c, if bool_decide (c = chr 39) then chr 34 else c) s.

Example exposition_sample :
  Histogram_writeTo ex_observed = string_concat ((λ l, with_quotes l +:+ newline) <$>
    ["# HELP lat h"; "# TYPE lat histogram";
     "lat_bucket{method='GET',le='0.5'} 1"; "lat_bucket{method='GET',le='1'} 2"; "lat_bucket{method='GET',le='+Inf'} 3";
     "lat_sum{method='GET'} 8.3"; "lat_count{method='GET'} 3";
     "lat_bucket{method='POST',le='0.5'} 0"; "lat_bucket{method='POST',le='1'} 0"; "lat_bucket{method='POST',le='+Inf'} 1";
     "lat_sum{method='POST'} 2"; "lat_count{method='POST'} 1"])%string.
Proof. vm_compute. reflexivity. Qed.

Lemma histogram_exact_witness :
  recorded ex_observed (labelKey ["method"] ["GET"])%string ex_observations ≠ [] ∧
  recorded ex_observed (labelKey ["method"] ["PUT"])%string ex_observations = [].
Proof.
  pose proof (histogram_exact "lat" "h" [f_dec 5 1; f_of_Z 1] ["method"%string] ex_observations ex_observed
    ltac:(vm_compute; reflexivity) ltac:(repeat constructor) ltac:(repeat constructor) ltac:(vm_compute; reflexivity)) as H.
  split.
  - specialize (H (labelKey ["method"] ["GET"])%string). cbv zeta in H.
    destruct (h_series ex_observed !! _) as [s|] eqn:E; [exact (proj1 H)|]. exfalso. vm_compute in E. discriminate E.
  - specialize (H (labelKey ["method"] ["PUT"])%string). cbv zeta in H.
    destruct (h_series ex_observed !! _) as [s|] eqn:E; [|exact H]. exfalso. vm_compute in E. discriminate E.
Defined.

(** A label set is read back from the exposition: the names as they are, the values
    up to invalid bytes; a value cannot break out of its quotes or its line. *)
Lemma formatLabels_read kv l :
  Forall (λ kv, no_char (chr 61) (lname kv) = true) (kv :: l) →
  ∃ body, formatLabels (kv :: l) = ("{" +:+ body +:+ "}")%string ∧
    read_labels (length (kv :: l)) body = Some (pair_of <$> kv :: l).
Proof.
  intros H. exists (labels_body (pair_of <$> kv :: l)). split; [apply formatLabels_body|].
  rewrite <- (length_fmap pair_of (kv :: l)). apply read_labels_body.
  change (Forall (λ kv, no_char (chr 61) kv.1 = true) (pair_of <$> kv :: l)). by apply Forall_fmap.
Qed.

(** ** Boundary behaviour *)

(** A bound that is NaN passes the check of the order. *)
Example nan_bound_accepted : is_Some (NewHistogram ∅ "h" "" (Some [f_of_Z 1; S754_nan; f_zero]) []).
Proof. vm_compute. by eexists. Qed.

(** Negative increments panic, NaN does not, and the counter stays NaN. *)
Example nan_increment :
  Counter_Add {| c_name := "c"; c_help := ""; c_labelset := []; c_series := ∅ |} (f_of_Z (-1)) [] = None ∧
  cs_val <$> (Counter_Add {| c_name := "c"; c_help := ""; c_labelset := []; c_series := ∅ |} S754_nan []
    ≫= λ c, Counter_Inc c []) ≫= (λ c, c_series c !! ""%string) = Some S754_nan.
Proof. vm_compute. done. Qed.
