(* ===== verification/Obs.v ===== *)
(** * HTTP metrics ([engine/internal/obs]: [metrics.go], [middleware.go])

    The registry behind [/metrics] with its text, and the middleware that counts
    requests. Objects are named by the name they are registered under; an
    operation on one is one step. A request is two steps, its arrival and its end, so that
    any number of them can be in flight; the tracer is in [Tracing]. *)

From S2P Require Import Prelude GoLib Json JsonFacts Expo.
From stdpp Require Import relations.

Local Open Scope Z_scope.

(** ** Data *)

Record Counter := { chelp : string; cseries : gmap string Z }.
Record Gauge := { ghelp : string; gseries : gmap string Z }.

(** [counts] has a cell per bucket and a last one above all of them. *)
Record histSeries := { counts : list Z; hsum : float64; hcount : Z }.
Record Histogram := { hhelp : string; hbuckets : list float64; hseries : gmap string histSeries }.

Record Registry := { counters : gmap string Counter; gauges : gmap string Gauge; histograms : gmap string Histogram }.

Definition NewRegistry : Registry := {| counters := ∅; gauges := ∅; histograms := ∅ |}.

Definition with_counters (r : Registry) (m : gmap string Counter) : Registry :=
  {| counters := m; gauges := gauges r; histograms := histograms r |}.
Definition with_gauges (r : Registry) (m : gmap string Gauge) : Registry :=
  {| counters := counters r; gauges := m; histograms := histograms r |}.
Definition with_histograms (r : Registry) (m : gmap string Histogram) : Registry :=
  {| counters := counters r; gauges := gauges r; histograms := m |}.

(** A name that is taken gives the object there. *)
Definition NewCounter (r : Registry) (name help : string) : Registry :=
  match counters r !! name with
  | Some _ => r
  | None => with_counters r (<[name := {| chelp := help; cseries := ∅ |}]> (counters r))
  end.
Definition NewGauge (r : Registry) (name help : string) : Registry :=
  match gauges r !! name with
  | Some _ => r
  | None => with_gauges r (<[name := {| ghelp := help; gseries := ∅ |}]> (gauges r))
  end.
Definition NewHistogram (r : Registry) (name help : string) (buckets : list float64) : Registry :=
  match histograms r !! name with
  | Some _ => r
  | None =>
      let b := sort_slice float_less buckets in
      with_histograms r (<[name := {| hhelp := help; hbuckets := b; hseries := ∅ |}]> (histograms r))
  end.

Definition DefaultLatencyBuckets : list float64 :=
  [f_dec 1 3; f_dec 5 3; f_dec 1 2; f_dec 25 3; f_dec 5 2; f_dec 1 1; f_dec 25 2; f_dec 5 1;
   f_of_Z 1; f_dec 25 1; f_of_Z 5; f_of_Z 10; f_of_Z 30].

(** ** Labels *)

Definition escapeLabelValue (v : string) : string := escape v.

Fixpoint escapeHelp (s : string) : string :=
  match s with EmptyString => EmptyString | String c s' => (help_char c +:+ escapeHelp s')%string end.

(** Alternating keys and values; a last key without a value is dropped. *)
Fixpoint pairs_of (labels : list string) : list (string * string) :=
  match labels with k :: v :: labels => (k, escapeLabelValue v) :: pairs_of labels | _ => [] end.

Definition pair_less (a b : string * string) : bool := string_ltb (fst a) (fst b).

Definition label_text (kv : string * string) : string :=
  (fst kv +:+ "=" +:+ String (chr 34) (snd kv +:+ String (chr 34) EmptyString))%string.

Definition labelsKey (labels : list string) : string :=
  string_join "," (label_text <$> sort_slice pair_less (pairs_of labels)).

Definition formatLabelKey (k : string) : string := if bool_decide (k = ""%string) then "" else ("{" +:+ k +:+ "}")%string.
Definition parseLabelKey (k : string) : string := k.
Definition appendLabel (existing key val : string) : string :=
  if bool_decide (existing = ""%string) then ("{" +:+ label_text (key, escapeLabelValue val) +:+ "}")%string
  else ("{" +:+ existing +:+ "," +:+ label_text (key, escapeLabelValue val) +:+ "}")%string.

(** ** Operations *)

Definition Counter_Add (c : Counter) (delta : Z) (labels : list string) : Counter :=
  let key := labelsKey labels in
  {| chelp := chelp c; cseries := <[key := u64 (default 0 (cseries c !! key) + delta)]> (cseries c) |}.
Definition Counter_Inc (c : Counter) (labels : list string) : Counter := Counter_Add c 1 labels.

Definition Gauge_Set (g : Gauge) (v : Z) (labels : list string) : Gauge :=
  {| ghelp := ghelp g; gseries := <[labelsKey labels := v]> (gseries g) |}.
Definition Gauge_Add (g : Gauge) (delta : Z) (labels : list string) : Gauge :=
  let key := labelsKey labels in
  {| ghelp := ghelp g; gseries := <[key := wrap64 (default 0 (gseries g !! key) + delta)]> (gseries g) |}.
Definition Gauge_Inc (g : Gauge) (labels : list string) : Gauge := Gauge_Add g 1 labels.
Definition Gauge_Dec (g : Gauge) (labels : list string) : Gauge := Gauge_Add g (-1) labels.

Definition Histogram_Observe (h : Histogram) (v : float64) (labels : list string) : Histogram :=
  let key := labelsKey labels in
  let s := default {| counts := replicate (S (length (hbuckets h))) 0; hsum := f_zero; hcount := 0 |} (hseries h !! key) in
  let i := search_floats (hbuckets h) v in
  {| hhelp := hhelp h; hbuckets := hbuckets h;
     hseries := <[key := {| counts := alter (λ c, u64 (c + 1)) i (counts s); hsum := f_add (hsum s) v;
                            hcount := u64 (hcount s + 1) |}]> (hseries h) |}.

Definition counter_inc (r : Registry) (name : string) (labels : list string) : Registry :=
  with_counters r (alter (λ c, Counter_Inc c labels) name (counters r)).
Definition gauge_add (r : Registry) (name : string) (delta : Z) (labels : list string) : Registry :=
  with_gauges r (alter (λ g, Gauge_Add g delta labels) name (gauges r)).
Definition observe (r : Registry) (name : string) (v : float64) (labels : list string) : Registry :=
  with_histograms r (alter (λ h, Histogram_Observe h v labels) name (histograms r)).

(** ** Exposition *)

Definition header (name help kind : string) : string :=
  ("# HELP " +:+ name +:+ " " +:+ escapeHelp help +:+ newline +:+ "# TYPE " +:+ name +:+ " " +:+ kind +:+ newline)%string.
Definition sample (name labels value : string) : string := (name +:+ labels +:+ " " +:+ value +:+ newline)%string.

Definition counter_text (n : string) (c : Counter) : string :=
  (header n (chelp c) "counter" +:+ string_concat (by_key (λ k v, sample n (formatLabelKey k) (itoa v)) (cseries c)))%string.
Definition gauge_text (n : string) (g : Gauge) : string :=
  (header n (ghelp g) "gauge" +:+ string_concat (by_key (λ k v, sample n (formatLabelKey k) (itoa v)) (gseries g)))%string.

(** The running sums of the cells of the bounds. *)
Fixpoint cumulate (cum : Z) (bs : list float64) (cs : list Z) : list (float64 * Z) :=
  match bs, cs with
  | b :: bs, c :: cs => (b, u64 (cum + c)) :: cumulate (u64 (cum + c)) bs cs
  | _, _ => []
  end.
Definition all_counts (s : histSeries) : Z := foldl (λ cum c, u64 (cum + c)) 0 (counts s).

Definition bucket_line (n k le : string) (v : Z) : string :=
  sample (n +:+ "_bucket") (appendLabel (parseLabelKey k) "le" le) (itoa v).

Definition series_text (n : string) (h : Histogram) (k : string) (s : histSeries) : string :=
  (string_concat ((λ bc : float64 * Z, bucket_line n k (fmt_g bc.1) bc.2) <$> cumulate 0 (hbuckets h) (counts s)) +:+
   bucket_line n k "+Inf" (all_counts s) +:+
   sample (n +:+ "_sum") (formatLabelKey k) (fmt_g (hsum s)) +:+
   sample (n +:+ "_count") (formatLabelKey k) (itoa (hcount s)))%string.
Definition histogram_text (n : string) (h : Histogram) : string :=
  (header n (hhelp h) "histogram" +:+ string_concat (by_key (series_text n h) (hseries h)))%string.

(** To a writer that takes every line. *)
Definition WritePrometheus (r : Registry) : string :=
  (string_concat (by_key counter_text (counters r)) +:+ string_concat (by_key gauge_text (gauges r)) +:+
   string_concat (by_key histogram_text (histograms r)))%string.

(** ** The middleware *)

Definition requests_total : string := "cp_http_requests_total".
Definition errors_total : string := "cp_http_errors_total".
Definition inflight : string := "cp_http_inflight".
Definition duration_seconds : string := "cp_http_request_duration_seconds".

Definition NewHTTPMetrics (r : Registry) : Registry :=
  let r := NewCounter r requests_total "Total HTTP requests handled." in
  let r := NewCounter r errors_total "HTTP responses with status >= 500." in
  let r := NewGauge r inflight "In-flight HTTP requests." in
  NewHistogram r duration_seconds "HTTP request duration seconds." DefaultLatencyBuckets.

(** [statusRecorder]: the code and whether it is set; a handler makes a sequence of
    calls, [Some] of a code for [WriteHeader], [None] for [Write]. *)
Definition statusRecorder : Type := Z * bool.
Definition record_call (s : statusRecorder) (call : option Z) : statusRecorder :=
  if snd s then s else (default 200 call, true).
Definition recorded_code (calls : list (option Z)) : Z := fst (foldl record_call (200, false) calls).

(** A request in flight: the route it was counted under and its method. *)
Record Flight := { froute : string; fmethod : string }.

(** [None] of [resolved] is a middleware without a resolver. *)
Definition route_of (resolved : option string) (pattern : string) : string :=
  let route := default ""%string resolved in
  let route := if bool_decide (route = ""%string) then pattern else route in
  if bool_decide (route = ""%string) then "unknown"%string else route.

Definition promoted (route pattern : string) : string :=
  if bool_decide (route = "unknown"%string) && negb (bool_decide (pattern = ""%string)) then pattern else route.

Record Served := { sroute : string; smethod : string; scode : Z; sdur : float64 }.

Definition begin_request (r : Registry) (route : string) : Registry := gauge_add r inflight 1 ["route"%string; route].
Definition leave_request (r : Registry) (f : Flight) : Registry := gauge_add r inflight (-1) ["route"%string; froute f].

Definition count_request (r : Registry) (s : Served) : Registry :=
  let labels := ["route"%string; sroute s; "method"%string; smethod s; "status"%string; itoa (scode s)] in
  let r := counter_inc r requests_total labels in
  let r := if 500 <=? scode s then counter_inc r errors_total labels else r in
  observe r duration_seconds (sdur s) ["route"%string; sroute s; "method"%string; smethod s].

(** The events of the server: a request arrives, the handler of the [i]-th request
    in flight returns, or it panics, which only runs what is deferred. *)
Inductive http_event :=
| Arrive (resolved : option string) (pattern method : string)
| Return (i : nat) (pattern : string) (calls : list (option Z)) (dur : float64)
| Panic (i : nat).

(** The registry, the requests in flight, and those that have been served. *)
Record Server := { reg : Registry; running : list Flight; served : list Served }.

Definition serve (s : Server) (ev : http_event) : option Server :=
  match ev with
  | Arrive resolved pattern method =>
      let route := route_of resolved pattern in
      Some {| reg := begin_request (reg s) route; running := running s ++ [{| froute := route; fmethod := method |}]; served := served s |}
  | Return i pattern calls dur =>
      match running s !! i with
      | None => None
      | Some f =>
          let d := {| sroute := promoted (froute f) pattern; smethod := fmethod f; scode := recorded_code calls; sdur := dur |} in
          Some {| reg := leave_request (count_request (reg s) d) f; running := remove_at i (running s); served := served s ++ [d] |}
      end
  | Panic i =>
      match running s !! i with
      | None => None
      | Some f => Some {| reg := leave_request (reg s) f; running := remove_at i (running s); served := served s |}
      end
  end.

Definition started : Server := {| reg := NewHTTPMetrics NewRegistry; running := []; served := [] |}.

(** ** Facts *)

Lemma label_text_quoted k v : label_text (k, escapeLabelValue v) = quoted_label (k, v).
Proof. done. Qed.

Lemma pair_sorted_3 a b c :
  labelsKey ["route"; a; "method"; b; "status"; c]%string = labels_body [("method", b); ("route", a); ("status", c)]%string.
Proof. done. Qed.
Lemma pair_sorted_2 a b : labelsKey ["route"; a; "method"; b]%string = labels_body [("method", b); ("route", a)]%string.
Proof. done. Qed.
Lemma pair_sorted_1 a : labelsKey ["route"; a]%string = labels_body [("route", a)]%string.
Proof. done. Qed.

Lemma key_3_inj a b c a' b' c' :
  labelsKey ["route"; a; "method"; b; "status"; c]%string = labelsKey ["route"; a'; "method"; b'; "status"; c']%string →
  a = a' ∧ b = b' ∧ c = c'.
Proof. rewrite !pair_sorted_3. intros H. apply labels_body_inj in H; [by simplify_eq|repeat constructor..|done]. Qed.
Lemma key_2_inj a b a' b' : labelsKey ["route"; a; "method"; b]%string = labelsKey ["route"; a'; "method"; b']%string → a = a' ∧ b = b'.
Proof. rewrite !pair_sorted_2. intros H. apply labels_body_inj in H; [by simplify_eq|repeat constructor..|done]. Qed.
Lemma key_1_inj a a' : labelsKey ["route"; a]%string = labelsKey ["route"; a']%string → a = a'.
Proof. rewrite !pair_sorted_1. intros H. apply labels_body_inj in H; [by simplify_eq|repeat constructor..|done]. Qed.

Definition counter_cell (r : Registry) (name key : string) : Z :=
  match counters r !! name with Some c => default 0 (cseries c !! key) | None => 0 end.
Definition gauge_cell (r : Registry) (name key : string) : Z :=
  match gauges r !! name with Some g => default 0 (gseries g !! key) | None => 0 end.
Definition hist_cell (r : Registry) (name key : string) : option histSeries :=
  match histograms r !! name with Some h => hseries h !! key | None => None end.

(** The metrics of the middleware are registered. *)
Record ready (r : Registry) : Prop := {
  rd_requests : is_Some (counters r !! requests_total);
  rd_errors : is_Some (counters r !! errors_total);
  rd_inflight : is_Some (gauges r !! inflight);
  rd_duration : ∃ h, histograms r !! duration_seconds = Some h ∧ hbuckets h = DefaultLatencyBuckets;
}.

Lemma ready_counter_inc r n l : ready r → ready (counter_inc r n l).
Proof. intros [H1 H2 H3 H4]. split; cbn [counter_inc with_counters counters gauges histograms]; rewrite ?lookup_alter_is_Some; done. Qed.
Lemma ready_gauge_add r n d l : ready r → ready (gauge_add r n d l).
Proof. intros [H1 H2 H3 H4]. split; cbn [gauge_add with_gauges counters gauges histograms]; rewrite ?lookup_alter_is_Some; done. Qed.
Lemma ready_observe r v l : ready r → ready (observe r duration_seconds v l).
Proof.
  intros [H1 H2 H3 (h & H4 & H5)]. split; cbn [observe with_histograms counters gauges histograms]; try done.
  rewrite lookup_alter_eq, H4. by eexists.
Qed.

Lemma counter_cell_inc r n l n' k :
  is_Some (counters r !! n) →
  counter_cell (counter_inc r n l) n' k
  = if bool_decide (n' = n) && bool_decide (k = labelsKey l) then u64 (counter_cell r n' k + 1) else counter_cell r n' k.
Proof.
  intros [c Hc]. unfold counter_cell, counter_inc. cbn [with_counters counters]. case_bool_decide as En.
  - subst n'. rewrite lookup_alter_eq, Hc. cbn [fmap option_fmap option_map Counter_Inc Counter_Add cseries].
    case_bool_decide as Ek; [subst k; by rewrite lookup_insert_eq|by rewrite lookup_insert_ne].
  - by rewrite lookup_alter_ne.
Qed.

Lemma gauge_cell_add r n d l k :
  is_Some (gauges r !! n) →
  gauge_cell (gauge_add r n d l) n k = if bool_decide (k = labelsKey l) then wrap64 (gauge_cell r n k + d) else gauge_cell r n k.
Proof.
  intros [c Hc]. unfold gauge_cell, gauge_add. cbn [with_gauges gauges]. rewrite lookup_alter_eq, Hc.
  cbn [fmap option_fmap option_map Gauge_Add gseries]. case_bool_decide as Ek; [subst k; by rewrite lookup_insert_eq|by rewrite lookup_insert_ne].
Qed.

(** The cells of a series after the values [vs]. *)
Definition hist_of (bs vs : list float64) : histSeries :=
  {| counts := (λ i, u64 (count (λ v, search_floats bs v =? i)%nat vs)) <$> seq 0 (S (length bs));
     hsum := foldl f_add f_zero vs; hcount := u64 (Z.of_nat (length vs)) |}.

Definition hist_opt (bs vs : list float64) : option histSeries := match vs with [] => None | _ => Some (hist_of bs vs) end.

Lemma hist_of_nil bs : hist_of bs [] = {| counts := replicate (S (length bs)) 0; hsum := f_zero; hcount := 0 |}.
Proof.
  unfold hist_of. f_equal. change (λ i, u64 (count _ [])) with (λ _ : nat, 0). generalize 0%nat.
  induction (S (length bs)) as [|n IH]; intros k; [done|]. cbn. f_equal. apply IH.
Qed.

Lemma hist_of_snoc bs vs v :
  (search_floats bs v <= length bs)%nat →
  {| counts := alter (λ c, u64 (c + 1)) (search_floats bs v) (counts (hist_of bs vs));
     hsum := f_add (hsum (hist_of bs vs)) v; hcount := u64 (hcount (hist_of bs vs) + 1) |} = hist_of bs (vs ++ [v]).
Proof.
  intros Hi. unfold hist_of. cbn [counts hsum hcount]. f_equal.
  - apply list_eq. intros i. destruct (decide (i = search_floats bs v)) as [->|Hne].
    + rewrite list_lookup_alter_eq, !list_lookup_fmap, !lookup_seq_lt by lia. cbn [fmap option_fmap option_map].
      rewrite count_app, count_cons, count_nil, Nat.eqb_refl, u64_add. do 2 f_equal.
    + rewrite list_lookup_alter_ne by done. rewrite !list_lookup_fmap. destruct (seq 0 (S (length bs)) !! i) as [j|] eqn:Ej; [|done].
      apply lookup_seq in Ej as [-> _]. cbn [fmap option_fmap option_map plus].
      rewrite count_app, count_cons, count_nil. destruct (Nat.eqb_spec (search_floats bs v) i); [done|]. do 2 f_equal. lia.
  - by rewrite foldl_app.
  - rewrite u64_add, length_app. f_equal. cbn. lia.
Qed.

Lemma hist_cell_observe r v l k vs :
  ready r → hist_cell r duration_seconds (labelsKey l) = hist_opt DefaultLatencyBuckets vs →
  hist_cell (observe r duration_seconds v l) duration_seconds k
  = if bool_decide (k = labelsKey l) then hist_opt DefaultLatencyBuckets (vs ++ [v]) else hist_cell r duration_seconds k.
Proof.
  intros [_ _ _ (h & Hh & Hb)] Hs. pose proof (search_floats_le DefaultLatencyBuckets v) as Hi. unfold hist_cell, observe in *. cbn [with_histograms histograms].
  rewrite lookup_alter_eq. rewrite Hh in *. cbn [fmap option_fmap option_map Histogram_Observe hseries].
  case_bool_decide as Ek; [subst k|by rewrite lookup_insert_ne]. rewrite lookup_insert_eq, Hs, Hb.
  destruct vs as [|w vs].
  - cbn [hist_opt default from_option id]. rewrite <- hist_of_nil, (hist_of_snoc _ [] v Hi). done.
  - cbn [hist_opt default from_option id]. by rewrite (hist_of_snoc _ (w :: vs) v Hi).
Qed.

(** ** What is counted *)

Definition same_call (rt m : string) (c : Z) (d : Served) : bool :=
  bool_decide (sroute d = rt) && bool_decide (smethod d = m) && bool_decide (scode d = c).
Definition durations (rt m : string) (l : list Served) : list float64 :=
  sdur <$> List.filter (λ d, bool_decide (sroute d = rt) && bool_decide (smethod d = m)) l.

Definition request_key (rt m : string) (c : Z) : string := labelsKey ["route"; rt; "method"; m; "status"; itoa c]%string.
Definition duration_key (rt m : string) : string := labelsKey ["route"; rt; "method"; m]%string.
Definition inflight_key (rt : string) : string := labelsKey ["route"; rt]%string.

Record accounts (s : Server) : Prop := {
  ac_ready : ready (reg s);
  ac_inflight rt : gauge_cell (reg s) inflight (inflight_key rt) = wrap64 (count (λ f, bool_decide (froute f = rt)) (running s));
  ac_requests rt m c : counter_cell (reg s) requests_total (request_key rt m c) = u64 (count (same_call rt m c) (served s));
  ac_errors rt m c : counter_cell (reg s) errors_total (request_key rt m c)
    = if 500 <=? c then u64 (count (same_call rt m c) (served s)) else 0;
  ac_durations rt m : hist_cell (reg s) duration_seconds (duration_key rt m)
    = hist_opt DefaultLatencyBuckets (durations rt m (served s));
}.

Lemma accounts_started : accounts started.
Proof.
  split; try (intros; vm_compute; reflexivity).
  - split; try (eexists; reflexivity). eexists. split; vm_compute; reflexivity.
  - intros rt m c. by destruct (500 <=? c).
Qed.

Lemma itoa_inj a b : itoa a = itoa b → a = b.
Proof. apply (inj pretty). Qed.

Lemma request_key_eq rt m c d :
  bool_decide (request_key rt m c = request_key (sroute d) (smethod d) (scode d)) = same_call rt m c d.
Proof.
  unfold same_call. case_bool_decide as H.
  - apply key_3_inj in H as (-> & -> & ->%itoa_inj). by rewrite !bool_decide_true.
  - repeat case_bool_decide; try done. congruence.
Qed.

(** The steps of the registry one at a time. *)
Lemma accounts_arrive s route method :
  accounts s → accounts {| reg := begin_request (reg s) route; running := running s ++ [{| froute := route; fmethod := method |}]; served := served s |}.
Proof.
  intros [Hr H1 H2 H3 H4]. split; cbn [reg running served]; try done; [by apply ready_gauge_add|].
  intros rt. unfold begin_request. rewrite gauge_cell_add by apply Hr. rewrite count_app, count_cons, count_nil. cbn [froute].
  change (labelsKey ["route"; route]%string) with (inflight_key route).
  repeat case_bool_decide; rewrite H1; try done.
  - rewrite wrap64_add. done.
  - match goal with H : inflight_key _ = _ |- _ => apply key_1_inj in H end. congruence.
  - congruence.
  - by rewrite Z.add_0_r.
Qed.

Lemma accounts_leave s i f :
  accounts s → running s !! i = Some f →
  accounts {| reg := leave_request (reg s) f; running := remove_at i (running s); served := served s |}.
Proof.
  intros [Hr H1 H2 H3 H4] Hf. split; cbn [reg running served]; try done; [by apply ready_gauge_add|].
  intros rt. unfold leave_request. rewrite gauge_cell_add by apply Hr. rewrite H1, (count_remove_at _ i _ f Hf).
  change (labelsKey ["route"; froute f]%string) with (inflight_key (froute f)).
  repeat case_bool_decide; try done.
  - rewrite wrap64_add. f_equal. lia.
  - match goal with H : inflight_key _ = _ |- _ => apply key_1_inj in H end. congruence.
  - congruence.
  - f_equal. lia.
Qed.

(** The counters after a request has been counted: its cell of the requests, and of
    the errors when the status is one. *)
Lemma counted_cells r d :
  ready r → let r' := count_request r d in
  ready r' ∧ (∀ n k, gauge_cell r' n k = gauge_cell r n k) ∧
  (∀ rt m c, counter_cell r' requests_total (request_key rt m c)
     = if same_call rt m c d then u64 (counter_cell r requests_total (request_key rt m c) + 1)
       else counter_cell r requests_total (request_key rt m c)) ∧
  (∀ rt m c, counter_cell r' errors_total (request_key rt m c)
     = if (500 <=? scode d) && same_call rt m c d then u64 (counter_cell r errors_total (request_key rt m c) + 1)
       else counter_cell r errors_total (request_key rt m c)).
Proof.
  intros Hr. unfold count_request. fold (request_key (sroute d) (smethod d) (scode d)).
  set (labels := ["route"%string; sroute d; "method"%string; smethod d; "status"%string; itoa (scode d)]).
  assert (ready (counter_inc r requests_total labels)) as Hr1 by (by apply ready_counter_inc).
  set (r1 := counter_inc r requests_total labels) in *. cbv zeta.
  assert (∀ rt m c, counter_cell r1 requests_total (request_key rt m c)
    = if same_call rt m c d then u64 (counter_cell r requests_total (request_key rt m c) + 1)
      else counter_cell r requests_total (request_key rt m c)) as C1.
  { intros rt m c. unfold r1. rewrite counter_cell_inc by apply Hr. rewrite (bool_decide_true (requests_total = _)) by done.
    change (labelsKey labels) with (request_key (sroute d) (smethod d) (scode d)). by rewrite request_key_eq. }
  assert (∀ k, counter_cell r1 errors_total k = counter_cell r errors_total k) as C2.
  { intros k. unfold r1. rewrite counter_cell_inc by apply Hr. by rewrite (bool_decide_false (errors_total = _)). }
  destruct (500 <=? scode d) eqn:E.
  - assert (ready (counter_inc r1 errors_total labels)) as Hr2 by (by apply ready_counter_inc).
    split; [by apply ready_observe|]. split; [done|]. split.
    + intros rt m c. change (counter_cell (counter_inc r1 errors_total labels) requests_total (request_key rt m c) = 
        if same_call rt m c d then u64 (counter_cell r requests_total (request_key rt m c) + 1) else counter_cell r requests_total (request_key rt m c)).
      rewrite counter_cell_inc by apply Hr1. rewrite (bool_decide_false (requests_total = _)) by done. apply C1.
    + intros rt m c. change (counter_cell (counter_inc r1 errors_total labels) errors_total (request_key rt m c) = 
        if same_call rt m c d then u64 (counter_cell r errors_total (request_key rt m c) + 1) else counter_cell r errors_total (request_key rt m c)).
      rewrite counter_cell_inc by apply Hr1. rewrite (bool_decide_true (errors_total = _)) by done.
      change (labelsKey labels) with (request_key (sroute d) (smethod d) (scode d)). by rewrite request_key_eq, C2.
  - split; [by apply ready_observe|]. split; [done|]. split; [exact C1|]. intros rt m c. apply C2.
Qed.

Lemma counted_durations r d l k :
  ready r → hist_cell r duration_seconds (duration_key (sroute d) (smethod d)) = hist_opt DefaultLatencyBuckets l →
  hist_cell (count_request r d) duration_seconds k
  = if bool_decide (k = duration_key (sroute d) (smethod d)) then hist_opt DefaultLatencyBuckets (l ++ [sdur d])
    else hist_cell r duration_seconds k.
Proof.
  intros Hr Hl. unfold count_request. rewrite (hist_cell_observe _ _ _ _ l).
  - by destruct (500 <=? scode d).
  - destruct (500 <=? scode d); repeat apply ready_counter_inc; done.
  - by destruct (500 <=? scode d).
Qed.

Lemma accounts_count s d :
  accounts s → accounts {| reg := count_request (reg s) d; running := running s; served := served s ++ [d] |}.
Proof.
  intros [Hr H1 H2 H3 H4]. destruct (counted_cells (reg s) d Hr) as (Hr' & G & C1 & C2).
  split; cbn [reg running served]; [done| | | |].
  - intros rt. by rewrite G.
  - intros rt m c. rewrite C1, H2, count_app, count_cons, count_nil. destruct (same_call rt m c d); [by rewrite u64_add|by rewrite Z.add_0_r].
  - intros rt m c. rewrite C2, H3, count_app, count_cons, count_nil. destruct (same_call rt m c d) eqn:E.
    + unfold same_call in E. apply andb_prop in E as [_ E]. apply bool_decide_eq_true in E as ->.
      rewrite andb_true_r. destruct (500 <=? c); [by rewrite u64_add|done].
    + rewrite andb_false_r. by rewrite Z.add_0_r.
  - intros rt m. rewrite (counted_durations _ _ (durations (sroute d) (smethod d) (served s))) by done.
    unfold durations at 2. rewrite List.filter_app, fmap_app. cbn [List.filter]. case_bool_decide as Ek.
    + apply key_2_inj in Ek as [<- <-]. rewrite !bool_decide_true by done. done.
    + assert (bool_decide (sroute d = rt) && bool_decide (smethod d = m) = false) as ->.
      { repeat case_bool_decide; try done. destruct Ek. congruence. }
      rewrite app_nil_r. apply H4.
Qed.

Fixpoint serve_all (s : Server) (evs : list http_event) : option Server :=
  match evs with
  | [] => Some s
  | ev :: evs => match serve s ev with Some s => serve_all s evs | None => None end
  end.

Lemma accounts_serve_all evs s s' : accounts s → serve_all s evs = Some s' → accounts s'.
Proof.
  revert s. induction evs as [|ev evs IH]; intros s Hs; cbn [serve_all]; [by intros [= <-]|].
  destruct (serve s ev) as [s1|] eqn:E; [|done]. apply IH. destruct ev as [res pat m|i pat calls dur|i]; cbn [serve] in E.
  - injection E as <-. by apply accounts_arrive.
  - destruct (running s !! i) as [f|] eqn:Ef; [|done]. injection E as <-.
    apply (accounts_leave {| reg := count_request (reg s) _; running := running s; served := served s ++ [_] |} i f); [|done].
    by apply accounts_count.
  - destruct (running s !! i) as [f|] eqn:Ef; [|done]. injection E as <-. by apply accounts_leave.
Qed.

(** ** The cumulative counts of the text *)

Lemma cumulate_below (C : nat → Z) bs k :
  cumulate (u64 (C k)) bs ((λ i, u64 (C (S i) - C i)) <$> seq k (S (length bs))) = imap (λ i b, (b, u64 (C (S (k + i))))) bs.
Proof.
  revert k. induction bs as [|b bs IH]; intros k; [done|].
  change (seq k (S (length (b :: bs)))) with (k :: seq (S k) (S (length bs))). rewrite fmap_cons. cbn [cumulate].
  rewrite u64_add_l. replace (C k + (C (S k) - C k)) with (C (S k)) by lia. rewrite IH. cbn [imap]. rewrite Nat.add_0_r.
  f_equal. apply imap_ext. intros i x _. unfold compose. do 3 f_equal. lia.
Qed.

Lemma all_below (C : nat → Z) k n :
  foldl (λ cum c, u64 (cum + c)) (u64 (C k)) ((λ i, u64 (C (S i) - C i)) <$> seq k n) = u64 (C (k + n)%nat).
Proof.
  revert k. induction n as [|n IH]; intros k; [by rewrite Nat.add_0_r|].
  change (seq k (S n)) with (k :: seq (S k) n). rewrite fmap_cons. cbn [foldl].
  rewrite u64_add_l. replace (C k + (C (S k) - C k)) with (C (S k)) by lia. rewrite IH. do 2 f_equal. lia.
Qed.

Lemma exposed_counts bs vs :
  ascending bs → Forall (λ v, is_nan v = false) vs →
  cumulate 0 bs (counts (hist_of bs vs)) = (λ b, (b, u64 (count (λ v, f_leb v b) vs))) <$> bs ∧
  all_counts (hist_of bs vs) = u64 (Z.of_nat (length vs)).
Proof.
  intros Hbs Hvs. set (C := below (search_floats bs) vs).
  assert (counts (hist_of bs vs) = (λ i, u64 (C (S i) - C i)) <$> seq 0 (S (length bs))) as E.
  { apply list_fmap_ext. intros _ i _. unfold C. rewrite below_S. f_equal. lia. }
  assert (u64 (C 0%nat) = 0) as E0 by (unfold C; by rewrite below_0). split.
  - rewrite E, <- E0, cumulate_below. apply list_eq. intros i. rewrite list_lookup_imap, list_lookup_fmap.
    destruct (bs !! i) as [b|] eqn:Eb; [|done]. cbn [fmap option_fmap option_map plus]. do 3 f_equal.
    unfold C, below. apply count_ext. intros v Hv. rewrite Forall_forall in Hvs.
    destruct (search_floats_spec bs v Hbs (Hvs v Hv)) as [_ Hs]. specialize (Hs i b Eb).
    destruct (Nat.ltb_spec (search_floats bs v) (S i)); destruct (f_leb v b); try done; exfalso.
    + assert (false = true) by (apply Hs; lia). done.
    + assert (search_floats bs v <= i)%nat by (by apply Hs). lia.
  - unfold all_counts. rewrite E, <- E0, all_below. f_equal. unfold C. apply below_all. intros v _.
    pose proof (search_floats_le bs v). cbn. lia.
Qed.

Lemma default_ascending : ascending DefaultLatencyBuckets.
Proof.
  assert (DefaultLatencyBuckets = sort_slice float_less DefaultLatencyBuckets) as -> by (vm_compute; reflexivity).
  apply sort_ascending. repeat constructor.
Qed.

(** C22. The metrics of the middleware are exact at every moment, however many requests
    are in flight and in whatever order they end. The gauge of a route is the number
    of requests in flight that arrived under it; the counter of a route, a method
    and a status is the number of requests served so, and that of the errors is the
    same for a status from 500 on and nothing below; the lines of the latency
    histogram count the served requests of a route and a method that took at most
    the bound, and all of them (modulo 2^64, the gauge in 64 bits with sign). *)
Theorem http_metrics_exact evs s
    (Hs : serve_all started evs = Some s) (Hd : Forall (λ d, is_nan (sdur d) = false) (served s)) :
  (∀ rt, gauge_cell (reg s) inflight (inflight_key rt) = wrap64 (count (λ f, bool_decide (froute f = rt)) (running s))) ∧
  (∀ rt m c, counter_cell (reg s) requests_total (request_key rt m c) = u64 (count (same_call rt m c) (served s)) ∧
     counter_cell (reg s) errors_total (request_key rt m c) = if 500 <=? c then u64 (count (same_call rt m c) (served s)) else 0) ∧
  ∀ rt m, let vs := durations rt m (served s) in
    match hist_cell (reg s) duration_seconds (duration_key rt m) with
    | None => vs = []
    | Some h =>
        vs ≠ [] ∧
        cumulate 0 DefaultLatencyBuckets (counts h) = (λ b, (b, u64 (count (λ v, f_leb v b) vs))) <$> DefaultLatencyBuckets ∧
        all_counts h = u64 (Z.of_nat (length vs)) ∧ hcount h = u64 (Z.of_nat (length vs)) ∧ hsum h = foldl f_add f_zero vs
    end.
Proof.
  destruct (accounts_serve_all evs started s accounts_started Hs) as [_ H1 H2 H3 H4].
  split; [exact H1|]. split; [by split|]. intros rt m. cbv zeta. rewrite H4.
  assert (Forall (λ v, is_nan v = false) (durations rt m (served s))) as Hv.
  { apply Forall_forall. intros v (d & -> & Hin)%list_elem_of_fmap. apply list_elem_of_In, filter_In in Hin as [Hin _].
    rewrite Forall_forall in Hd. by apply Hd, list_elem_of_In. }
  destruct (exposed_counts _ _ default_ascending Hv) as [E1 E2].
  destruct (durations rt m (served s)) as [|v vs]; [done|]. cbn [hist_opt]. by repeat split.
Qed.

(** ** Witness and boundary behaviour *)

Definition ex_events : list http_event :=
  [Arrive (Some "GET /a") "" "GET"; Arrive (Some "") "" "POST"; Return 1 "POST /b" [Some 503; Some 200] (f_dec 2 1);
   Arrive (Some "GET /a") "" "GET"; Return 0 "" [None; Some 404] (f_of_Z 2)]%string.
Definition ex_server : Server := default started (serve_all started ex_events).

Lemma http_metrics_exact_witness :
  gauge_cell (reg ex_server) inflight (inflight_key "GET /a") = 1 ∧
  counter_cell (reg ex_server) requests_total (request_key "GET /a" "GET" 200) = 1 ∧
  counter_cell (reg ex_server) errors_total (request_key "POST /b" "POST" 503) = 1.
Proof.
  destruct (http_metrics_exact ex_events ex_server ltac:(vm_compute; reflexivity) ltac:(vm_compute; repeat constructor)) as (H1 & H2 & _).
  rewrite H1. split; [vm_compute; reflexivity|]. split.
  - rewrite (proj1 (H2 "GET /a" "GET" 200)%string). vm_compute. reflexivity.
  - rewrite (proj2 (H2 "POST /b" "POST" 503)%string). vm_compute. reflexivity.
Defined.

(** A request whose handler panics leaves the gauge and is counted nowhere. *)
Example panic_not_counted :
  served <$> serve_all started [Arrive (Some "GET /a") "" "GET"; Panic 0]%string = Some [].
Proof. vm_compute. reflexivity. Qed.

(** The bounds are sorted, but a bound given twice stays and its line is written twice. *)
Example duplicate_bound_stays :
  (hbuckets <$> histograms (NewHistogram NewRegistry "h" "" [f_of_Z 1; f_zero; f_of_Z 1]) !! "h"%string)
  = Some [f_zero; f_of_Z 1; f_of_Z 1].
Proof. vm_compute. reflexivity. Qed.

(** One name can be a counter and a gauge, which the text then declares twice. *)
Example one_name_two_types :
  WritePrometheus (NewGauge (NewCounter NewRegistry "x" "h") "x" "h")
  = string_concat ((λ l, l +:+ newline) <$> ["# HELP x h"; "# TYPE x counter"; "# HELP x h"; "# TYPE x gauge"])%string.
Proof. vm_compute. reflexivity. Qed.
