(* ===== verification/Tracing.v ===== *)
(** * Tracing ([engine/internal/observability]: [trace.go], [middleware.go];
      [engine/internal/obs]: [tracing.go])

    The W3C trace context of a request and the middleware that hands it on, and the
    tracer that writes a JSON record per span. Random bytes and the clock are
    arguments; a failing source of randomness is [None]. *)

From S2P Require Import Prelude GoLib Json JsonFacts Expo Metrics.
From stdpp Require Import relations.

Local Open Scope Z_scope.

(** ** The trace context *)

Record SpanContext := { TraceID : string; SpanID : string; ParentID : string; Flags : Z; TraceState : string }.

Definition Sampled (s : SpanContext) : bool := negb (Z.land (Flags s) 1 =? 0).

(** [digits[(b>>4)&0x0f]] and [digits[b&0x0f]] *)
Definition hexByte (b : Z) : string := str2 (hex_digit (Z.land (Z.shiftr b 4) 15)) (hex_digit (Z.land b 15)).

Definition Traceparent (s : SpanContext) : string :=
  ("00-" +:+ TraceID s +:+ "-" +:+ SpanID s +:+ "-" +:+ hexByte (Flags s))%string.

Definition isLowerHex (s : string) : bool := string_forall (λ c, ascii_in 48 57 c || ascii_in 97 102 c) s.
Definition allZero (s : string) : bool := string_forall (λ c, bool_decide (c = chr 48)) s.

(** [None] is [ErrInvalidTraceparent]. *)
Definition ParseTraceparent (hdr : string) : option SpanContext :=
  match split_on (chr 45) hdr with
  | p0 :: p1 :: p2 :: p3 :: _ =>
      if negb (bool_decide (p0 = "00"%string)) then None
      else if negb (String.length p1 =? 32)%nat || negb (String.length p2 =? 16)%nat || negb (String.length p3 =? 2)%nat then None
      else if negb (isLowerHex p1) || negb (isLowerHex p2) || negb (isLowerHex p3) then None
      else if allZero p1 || allZero p2 then None
      else match hex_decode p3 with
           | Some (f :: _) => Some {| TraceID := p1; SpanID := ""; ParentID := p2; Flags := byte_to_Z f; TraceState := "" |}
           | _ => None
           end
  | _ => None
  end.

(** Without randomness: zeros and a last byte 1. *)
Definition randHex (n : nat) (r : option bytes) : string :=
  hex_encode (match r with Some b => b | None => replicate (n - 1) Byte.x00 ++ [Byte.x01] end).

Definition NewRootSpan (r16 r8 : option bytes) : SpanContext :=
  {| TraceID := randHex 16 r16; SpanID := randHex 8 r8; ParentID := ""; Flags := 1; TraceState := "" |}.

Definition with_span (s : SpanContext) (id : string) : SpanContext :=
  {| TraceID := TraceID s; SpanID := id; ParentID := ParentID s; Flags := Flags s; TraceState := TraceState s |}.
Definition with_state (s : SpanContext) (ts : string) : SpanContext :=
  {| TraceID := TraceID s; SpanID := SpanID s; ParentID := ParentID s; Flags := Flags s; TraceState := ts |}.

Definition ContinueSpan (traceparent : string) (r16 r8 : option bytes) : SpanContext :=
  if bool_decide (traceparent = ""%string) then NewRootSpan r16 r8
  else match ParseTraceparent traceparent with
       | None => NewRootSpan r16 r8
       | Some parsed => with_span parsed (randHex 8 r8)
       end.

(** ** The middleware *)

Definition httpStatusLabel (code : Z) : string :=
  if (100 <=? code) && (code <? 200) then "1xx"
  else if (200 <=? code) && (code <? 300) then "2xx"
  else if (300 <=? code) && (code <? 400) then "3xx"
  else if (400 <=? code) && (code <? 500) then "4xx"
  else if (500 <=? code) && (code <? 600) then "5xx"
  else "unknown".

(** The webhook worker's classes. *)
Definition StatusClass (code : Z) : string :=
  if code =? 0 then "network"
  else if (200 <=? code) && (code <? 300) then "2xx"
  else if (300 <=? code) && (code <? 400) then "3xx"
  else if (400 <=? code) && (code <? 500) then "4xx"
  else if (500 <=? code) && (code <? 600) then "5xx"
  else "other".

Definition NewHTTPMetrics (r : Metrics.Registry) (prefix : string) : option Metrics.Registry :=
  r ← Metrics.NewCounter r (prefix +:+ "_requests_total")%string "total HTTP requests processed" ["method"; "route"; "status"]%string;
  r ← Metrics.NewHistogram r (prefix +:+ "_request_duration_seconds")%string "HTTP request latency in seconds"
        (Some Metrics.DefaultBuckets) ["method"; "route"]%string;
  Metrics.NewGauge r (prefix +:+ "_requests_in_flight")%string "HTTP requests currently being served" [].

Definition NewWebhookMetrics (r : Metrics.Registry) (prefix : string) : option Metrics.Registry :=
  r ← Metrics.NewCounter r (prefix +:+ "_enqueued_total")%string "Webhook events fanned out onto the delivery queue." ["event"%string];
  r ← Metrics.NewCounter r (prefix +:+ "_attempts_total")%string "Individual HTTP dispatch attempts by outcome status class."
        ["event"; "status_class"]%string;
  r ← Metrics.NewCounter r (prefix +:+ "_delivered_total")%string "Webhook events that reached a 2xx response before max attempts."
        ["event"%string];
  r ← Metrics.NewCounter r (prefix +:+ "_dead_lettered_total")%string "Webhook events that exhausted their retry budget." ["event"%string];
  r ← Metrics.NewCounter r (prefix +:+ "_replayed_total")%string "Operator-initiated dead-letter replay calls." ["event"%string];
  r ← Metrics.NewHistogram r (prefix +:+ "_attempt_duration_seconds")%string "Latency of one webhook HTTP dispatch attempt, in seconds."
        None ["event"; "status_class"]%string;
  r ← Metrics.NewGauge r (prefix +:+ "_queue_depth")%string "Current webhook delivery queue depth (pending events)." [];
  Metrics.NewGauge r (prefix +:+ "_dead_letter_depth")%string "Current dead-letter list depth." [].

(** [Instrument] up to the handler: the span, the headers of the response
    ([traceparent], [tracestate] or none), the gauge. *)
Definition intake (r : Metrics.Registry) (prefix traceparent tracestate : string) (r16 r8 : option bytes)
    : option (Metrics.Registry * SpanContext * (string * option string)) :=
  let sc := ContinueSpan traceparent r16 r8 in
  let sc := if bool_decide (tracestate = ""%string) then sc else with_state sc tracestate in
  let headers := (Traceparent sc, if bool_decide (TraceState sc = ""%string) then None else Some (TraceState sc)) in
  (λ r, (r, sc, headers)) <$>
  Metrics.on_gauge r (prefix +:+ "_requests_in_flight")%string (λ g, Metrics.Gauge_Add g f_one []).

(** After the handler, and what is deferred. *)
Definition outtake (r : Metrics.Registry) (prefix method route : string) (code : Z) (dur : float64) : option Metrics.Registry :=
  r ← Metrics.on_histogram r (prefix +:+ "_request_duration_seconds")%string (λ h, Metrics.Histogram_Observe h dur [method; route]);
  r ← Metrics.on_counter r (prefix +:+ "_requests_total")%string (λ c, Metrics.Counter_Inc c [method; route; httpStatusLabel code]);
  Metrics.on_gauge r (prefix +:+ "_requests_in_flight")%string (λ g, Metrics.Gauge_Add g (f_of_Z (-1)) []).

(** ** Facts on the trace context *)

(** A span that can be handed on. *)
Definition proper (s : SpanContext) : Prop :=
  String.length (TraceID s) = 32%nat ∧ isLowerHex (TraceID s) = true ∧ allZero (TraceID s) = false ∧
  String.length (SpanID s) = 16%nat ∧ isLowerHex (SpanID s) = true ∧ allZero (SpanID s) = false ∧ 0 <= Flags s < 256.

Lemma hexByte_encode b : 0 <= b < 256 → hexByte b = hex_encode [byte_of_Z b].
Proof.
  intros H. unfold hexByte, hex_encode. rewrite byte_to_of_Z, (Z.mod_small b 256) by lia.
  rewrite Z.shiftr_div_pow2 by lia. change 15 with (Z.ones 4). rewrite !Z.land_ones by lia. change (2 ^ 4) with 16.
  rewrite (Z.mod_small (b / 16) 16); [done|]. Z.to_euclidean_division_equations. lia.
Qed.

Lemma lower_hex_no_dash s : isLowerHex s = true → no_char (chr 45) s = true.
Proof.
  unfold isLowerHex, no_char. induction s as [|c s IH]; [done|]. cbn [string_forall]. intros [Hc H]%andb_prop.
  rewrite (IH H), andb_true_r. apply negb_true_iff, bool_decide_eq_false. by intros ->.
Qed.

Lemma hex_encode_lower b : isLowerHex (hex_encode b) = true.
Proof. exact (hex_encode_lower_hex b). Qed.

Lemma hex_text_length b : String.length (hex_encode b) = (2 * length b)%nat.
Proof. unfold hex_encode. induction b as [|x b IH]; [done|]. cbn [String.length length]. rewrite IH. lia. Qed.

Lemma hex_digit_zero n : 0 <= n < 16 → bool_decide (hex_digit n = chr 48) = true → n = 0.
Proof.
  intros H. assert (n = 0 ∨ n = 1 ∨ n = 2 ∨ n = 3 ∨ n = 4 ∨ n = 5 ∨ n = 6 ∨ n = 7 ∨ n = 8 ∨ n = 9
    ∨ n = 10 ∨ n = 11 ∨ n = 12 ∨ n = 13 ∨ n = 14 ∨ n = 15) by lia. by repeat (destruct_or!; subst).
Qed.

Lemma hex_encode_zero b : allZero (hex_encode b) = true → Forall (λ x, x = Byte.x00) b.
Proof.
  unfold allZero, hex_encode. induction b as [|x b IH]; [constructor|]. cbn [string_forall].
  intros [H1 [H2 H3]%andb_prop]%andb_prop. constructor; [|by apply IH]. pose proof (byte_to_Z_range x).
  apply hex_digit_zero in H1, H2; [|apply Z.mod_pos_bound; lia|split; [apply Z.div_pos; lia|apply Z.div_lt_upper_bound; lia]..].
  pose proof (Z.div_mod (byte_to_Z x) 16 ltac:(lia)). rewrite <- (byte_of_to_Z x). replace (byte_to_Z x) with 0 by lia. done.
Qed.

(** What a proper span is read back as. *)
Lemma parse_traceparent s :
  proper s → ParseTraceparent (Traceparent s)
  = Some {| TraceID := TraceID s; SpanID := ""; ParentID := SpanID s; Flags := Flags s; TraceState := "" |}.
Proof.
  intros (L1 & X1 & Z1 & L2 & X2 & Z2 & F). unfold ParseTraceparent, Traceparent.
  change ("00-" +:+ TraceID s +:+ "-" +:+ SpanID s +:+ "-" +:+ hexByte (Flags s))%string
    with ("00" +:+ String (chr 45) (TraceID s +:+ String (chr 45) (SpanID s +:+ String (chr 45) (hexByte (Flags s)))))%string.
  rewrite hexByte_encode by done.
  rewrite split_on_app, split_on_app, split_on_app, split_last
    by (try apply lower_hex_no_dash; try apply hex_encode_lower; done).
  rewrite bool_decide_true by done. rewrite L1, L2, hex_text_length, X1, X2, hex_encode_lower, Z1, Z2, hex_decode_encode.
  cbn [negb orb length Nat.mul Nat.add Nat.eqb]. rewrite byte_to_of_Z, Z.mod_small by lia. done.
Qed.

Definition random_ok (n : nat) (r : option bytes) : Prop :=
  match r with Some b => length b = n ∧ ¬ Forall (λ x, x = Byte.x00) b | None => True end.

Lemma randHex_proper n r : (0 < n)%nat → random_ok n r →
  String.length (randHex n r) = (2 * n)%nat ∧ isLowerHex (randHex n r) = true ∧ allZero (randHex n r) = false.
Proof.
  intros Hn Hr. unfold randHex. split; [|split; [apply hex_encode_lower|]].
  - rewrite hex_text_length. destruct r as [b|]; [by destruct Hr as [-> _]|]. rewrite length_app, length_replicate. cbn. lia.
  - apply not_true_iff_false. intros H%hex_encode_zero. destruct r as [b|]; [by destruct Hr|].
    apply Forall_app in H as [_ H]. by apply Forall_cons in H as [H _].
Qed.

Lemma parse_fields hdr p :
  ParseTraceparent hdr = Some p →
  String.length (TraceID p) = 32%nat ∧ isLowerHex (TraceID p) = true ∧ allZero (TraceID p) = false ∧ 0 <= Flags p < 256.
Proof.
  unfold ParseTraceparent. destruct (split_on _ _) as [|p0 [|p1 [|p2 [|p3 rest]]]]; try done. intros H.
  destruct (negb (bool_decide _)); [done|].
  destruct (negb (String.length p1 =? 32)%nat) eqn:E1; [done|]. cbn [orb] in H.
  destruct (negb (String.length p2 =? 16)%nat || _); [done|].
  destruct (negb (isLowerHex p1)) eqn:E2; [done|]. cbn [orb] in H. destruct (negb (isLowerHex p2) || _); [done|].
  destruct (allZero p1) eqn:E3; [done|]. cbn [orb] in H. destruct (allZero p2); [done|].
  destruct (hex_decode p3) as [[|f b]|]; [done| |done]. injection H as <-. cbn [TraceID Flags].
  apply negb_false_iff in E1, E2. apply Nat.eqb_eq in E1. pose proof (byte_to_Z_range f). done.
Qed.

Lemma continue_proper hdr r16 r8 : random_ok 16 r16 → random_ok 8 r8 → proper (ContinueSpan hdr r16 r8).
Proof.
  intros H16 H8. destruct (randHex_proper 16 r16 ltac:(lia) H16) as (A1 & A2 & A3), (randHex_proper 8 r8 ltac:(lia) H8) as (B1 & B2 & B3).
  assert (proper (NewRootSpan r16 r8)) as Hroot by (by repeat split).
  unfold ContinueSpan. case_bool_decide; [done|]. destruct (ParseTraceparent hdr) as [p|] eqn:E; [|done].
  destruct (parse_fields hdr p E) as (C1 & C2 & C3 & C4). repeat split; first [done|apply C4].
Qed.

(** A request handed from server to server: each continues the header the one before
    it sent. *)
Fixpoint hops (hdr : string) (rs : list (option bytes * option bytes)) : list SpanContext :=
  match rs with
  | [] => []
  | (r16, r8) :: rs => let s := ContinueSpan hdr r16 r8 in s :: hops (Traceparent s) rs
  end.

Lemma continue_parsed hdr p r16 r8 :
  ParseTraceparent hdr = Some p → ContinueSpan hdr r16 r8 = with_span p (randHex 8 r8).
Proof. intros H. unfold ContinueSpan. case_bool_decide as E; [by subst|]. by rewrite H. Qed.

(** A trace survives any number of servers: whatever header the first one gets,
    every span sent on is well formed, all of them have one trace identifier and
    one set of flags, each names the span before it as its parent, and a valid
    incoming header is continued, not replaced. *)
Theorem trace_propagates hdr rs (Hr : Forall (λ r, random_ok 16 (fst r) ∧ random_ok 8 (snd r)) rs) :
  (∀ i s, hops hdr rs !! i = Some s → proper s ∧
     ParseTraceparent (Traceparent s)
     = Some {| TraceID := TraceID s; SpanID := ""; ParentID := SpanID s; Flags := Flags s; TraceState := "" |}) ∧
  (∀ i j s s', hops hdr rs !! i = Some s → hops hdr rs !! j = Some s' → TraceID s' = TraceID s ∧ Flags s' = Flags s) ∧
  (∀ i s s', hops hdr rs !! i = Some s → hops hdr rs !! S i = Some s' → ParentID s' = SpanID s) ∧
  (∀ p s, ParseTraceparent hdr = Some p → hops hdr rs !! 0%nat = Some s →
     TraceID s = TraceID p ∧ Flags s = Flags p ∧ ParentID s = ParentID p).
Proof.
  assert (∀ i s, hops hdr rs !! i = Some s → proper s) as Hp.
  { revert hdr. induction Hr as [|[r16 r8] rs [H16 H8] _ IH]; intros hdr [|i] s H; try done; cbn in H.
    - injection H as <-. by apply continue_proper.
    - by eapply IH. }
  assert (∀ i s s', hops hdr rs !! i = Some s → hops hdr rs !! S i = Some s' →
    TraceID s' = TraceID s ∧ Flags s' = Flags s ∧ ParentID s' = SpanID s) as Hn.
  { clear Hr. revert hdr Hp. induction rs as [|[r16 r8] rs IH]; intros hdr Hp [|i] s s' H H'; try done.
    - cbn in H. injection H as <-. destruct rs as [|[q16 q8] rs]; [done|]. cbn in H'. injection H' as <-.
      pose proof (parse_traceparent _ (Hp 0%nat _ eq_refl)) as E. by rewrite (continue_parsed _ _ q16 q8 E).
    - apply (IH (Traceparent (ContinueSpan hdr r16 r8)) (λ j, Hp (S j)) i); done. }
  split; [intros i s H; split; [by eapply Hp|by eapply parse_traceparent, Hp]|]. split; [|split].
  - assert (∀ i s s0, hops hdr rs !! 0%nat = Some s0 → hops hdr rs !! i = Some s → TraceID s = TraceID s0 ∧ Flags s = Flags s0) as H0.
    { induction i as [|i IH]; intros s s0 H0 H; [by simplify_eq|].
      destruct (hops hdr rs !! i) as [s1|] eqn:E.
      - destruct (Hn i s1 s E H) as (-> & -> & _). by apply IH.
      - apply lookup_ge_None in E. apply lookup_lt_Some in H. lia. }
    intros i j s s' H H'. destruct (lookup_lt_is_Some_2 (hops hdr rs) 0%nat) as [s0 Hs0].
    { apply lookup_lt_Some in H. lia. }
    destruct (H0 i s s0 Hs0 H) as [-> ->], (H0 j s' s0 Hs0 H') as [-> ->]. done.
  - intros i s s' H H'. apply (Hn i s s' H H').
  - intros p s Hpar H. destruct rs as [|[r16 r8] rs]; [done|]. cbn in H. injection H as <-.
    by rewrite (continue_parsed _ _ r16 r8 Hpar).
Qed.

Definition ex_header : string := "00-0af7651916cd43dd8448eb211c80319c-b7ad6b7169203331-01".
Definition ex_hops : list SpanContext := hops ex_header [(None, None); (None, Some (replicate 8 Byte.x01))].

Lemma trace_propagates_witness :
  (ParentID <$> ex_hops) = ["b7ad6b7169203331"; "0000000000000001"]%string ∧
  (TraceID <$> ex_hops) = ["0af7651916cd43dd8448eb211c80319c"; "0af7651916cd43dd8448eb211c80319c"]%string.
Proof.
  destruct (trace_propagates ex_header [(None, None); (None, Some (replicate 8 Byte.x01))]) as (_ & H & _).
  { constructor; [by split|]. constructor; [|constructor]. split; [done|]. split; [done|]. intros Hz. by apply Forall_cons in Hz as [? _]. }
  split; [vm_compute; reflexivity|].
  destruct (H 0%nat 1%nat _ _ eq_refl eq_refl) as [E _]. change ex_hops with (hops ex_header [(None, None); (None, Some (replicate 8 Byte.x01))]).
  cbn [hops fmap list_fmap]. rewrite E. vm_compute. reflexivity.
Defined.

(** A header of version 00 with a fifth field passes; the specification has
    exactly four. *)
Example trailing_field_accepted : is_Some (ParseTraceparent (ex_header +:+ "-what")).
Proof. vm_compute. by eexists. Qed.

(** ** The tracer *)

Record spanEvent := { etime : time; ename : string; eattrs : gmap string json }.

(** The identifiers are 16 and 8 bytes; a span is referred to by its index in the
    store, since callers share it. *)
Record Span := {
  sname : string; traceID : bytes; spanID : bytes; parentID : bytes; start : time;
  attrs : gmap string json; events : list spanEvent; status : string; ended : bool;
}.

(** What [End] takes under the lock; the attributes are the span's own map, which is
    only read when the record is encoded. *)
Record SpanRecord := {
  rspan : nat; rname : string; rtrace : string; rid : string; rparent : string; rstart : time; rend : time;
  rstatus : string; revents : list spanEvent;
}.

Record Tracer := { tname : string; spans : list Span; pending : list SpanRecord; emitted : list (SpanRecord * gmap string json) }.

Definition NewTracer (name : string) : Tracer := {| tname := name; spans := []; pending := []; emitted := [] |}.

Definition with_spans (t : Tracer) (l : list Span) : Tracer :=
  {| tname := tname t; spans := l; pending := pending t; emitted := emitted t |}.

Definition zero_id : bytes := replicate 8 Byte.x00.
Definition parentIDString (id : bytes) : string := if bool_decide (id = zero_id) then "" else hex_encode id.

(** [Start]: the context carries the current span. *)
Definition Start (t : Tracer) (ctx : option nat) (name : string) (tid sid : bytes) (now : time) : Tracer * nat :=
  let '(tid, parent) := match ctx ≫= λ p, spans t !! p with
                        | Some p => (traceID p, spanID p)
                        | None => (tid, zero_id)
                        end in
  (with_spans t (spans t ++ [{| sname := name; traceID := tid; spanID := sid; parentID := parent; start := now;
                                attrs := ∅; events := []; status := "OK"; ended := false |}]), length (spans t)).

Definition set_attr (key : string) (v : json) (s : Span) : Span :=
  {| sname := sname s; traceID := traceID s; spanID := spanID s; parentID := parentID s; start := start s;
     attrs := <[key := v]> (attrs s); events := events s; status := status s; ended := ended s |}.
Definition add_event (e : spanEvent) (s : Span) : Span :=
  {| sname := sname s; traceID := traceID s; spanID := spanID s; parentID := parentID s; start := start s;
     attrs := attrs s; events := events s ++ [e]; status := status s; ended := ended s |}.
Definition set_status (st : string) (s : Span) : Span :=
  {| sname := sname s; traceID := traceID s; spanID := spanID s; parentID := parentID s; start := start s;
     attrs := attrs s; events := events s; status := st; ended := ended s |}.
Definition mark_ended (s : Span) : Span :=
  {| sname := sname s; traceID := traceID s; spanID := spanID s; parentID := parentID s; start := start s;
     attrs := attrs s; events := events s; status := status s; ended := true |}.

(** A nil span is no index of the store: nothing happens. *)
Definition on_span (t : Tracer) (i : nat) (f : Span → Span) : Tracer := with_spans t (alter f i (spans t)).

Definition SetAttr (t : Tracer) (i : nat) (key : string) (v : json) : Tracer := on_span t i (set_attr key v).
Definition AddEvent (t : Tracer) (i : nat) (now : time) (name : string) (at_ : gmap string json) : Tracer :=
  on_span t i (add_event {| etime := now; ename := name; eattrs := at_ |}).
Definition SetStatus (t : Tracer) (i : nat) (st : string) : Tracer := on_span t i (set_status st).
Definition RecordError (t : Tracer) (i : nat) (now : time) (err : string) : Tracer :=
  SetStatus (AddEvent t i now "exception" {["exception.message" := JStr err]})%string i "ERROR".

Definition record_of (i : nat) (s : Span) (now : time) : SpanRecord :=
  {| rspan := i; rname := sname s; rtrace := hex_encode (traceID s); rid := hex_encode (spanID s);
     rparent := parentIDString (parentID s); rstart := start s; rend := now; rstatus := status s; revents := events s |}.

(** [End] up to the unlocking of the span, and the encoding under the writer's lock. *)
Definition End_take (t : Tracer) (i : nat) (now : time) : Tracer :=
  match spans t !! i with
  | None => t
  | Some s =>
      if ended s then t
      else {| tname := tname t; spans := <[i := mark_ended s]> (spans t); pending := pending t ++ [record_of i s now]; emitted := emitted t |}
  end.
Definition End_write (t : Tracer) (k : nat) : Tracer :=
  match pending t !! k with
  | None => t
  | Some r =>
      {| tname := tname t; spans := spans t; pending := remove_at k (pending t);
         emitted := emitted t ++ [(r, match spans t !! rspan r with Some s => attrs s | None => ∅ end)] |}
  end.

(** [End] without anything in between. *)
Definition End_span (t : Tracer) (i : nat) (now : time) : Tracer :=
  match spans t !! i with
  | None => t
  | Some s => if ended s then t else End_write (End_take t i now) (length (pending t))
  end.

(** The line that is written. *)
Definition field (k : string) (v : json) : string * json := (k, v).
Definition attrs_json (m : gmap string json) : json := JObj (by_key pair m).

Definition event_json (e : spanEvent) : json :=
  JObj ([field "time" (JStr (format_rfc3339_nano (etime e))); field "name" (JStr (ename e))]
        ++ (if bool_decide (eattrs e = ∅) then [] else [field "attrs" (attrs_json (eattrs e))])).
Definition duration_ms (a b : time) : float64 := f_div (f_of_Z (Z.quot (b - a) 1000)) (f_of_Z 1000).
Definition record_json (service : string) (r : SpanRecord) (at_ : gmap string json) : json :=
  JObj ([field "service" (JStr service); field "name" (JStr (rname r)); field "trace_id" (JStr (rtrace r)); field "span_id" (JStr (rid r))]
        ++ (if bool_decide (rparent r = "") then [] else [field "parent_span_id" (JStr (rparent r))])
        ++ [field "start_unix_nano" (JInt (rstart r)); field "end_unix_nano" (JInt (rend r));
            field "duration_ms" (JNum (duration_ms (rstart r) (rend r))); field "status" (JStr (rstatus r))]
        ++ (if bool_decide (at_ = ∅) then [] else [field "attrs" (attrs_json at_)])
        ++ (match revents r with [] => [] | es => [field "events" (JArr (event_json <$> es))] end)).
Definition written (t : Tracer) : list (option string) :=
  (λ ra, (λ s, (s +:+ newline)%string) <$> marshal (record_json (tname t) (fst ra) (snd ra))) <$> emitted t.

Definition FromContext (t : Tracer) (ctx : option nat) : option Span := ctx ≫= λ p, spans t !! p.
Definition span_TraceID (s : option Span) : string := match s with Some s => hex_encode (traceID s) | None => "" end.
Definition span_SpanID (s : option Span) : string := match s with Some s => hex_encode (spanID s) | None => "" end.

(** The span of a request in [MiddlewareRoute] of [obs/middleware.go]. *)
Definition request_span (t : Tracer) (ctx : option nat) (method route target : string) (tid sid : bytes) (now : time) : Tracer * nat :=
  let '(t, i) := Start t ctx "http.request" tid sid now in
  let t := SetAttr t i "http.method" (JStr method) in
  let t := SetAttr t i "http.route" (JStr route) in
  (SetAttr t i "http.target" (JStr target), i).
Definition finish_span (t : Tracer) (i : nat) (code : Z) (route : string) (now : time) : Tracer :=
  let t := SetAttr t i "http.status_code" (JInt code) in
  let t := SetAttr t i "http.route" (JStr route) in
  let t := if 500 <=? code then SetStatus t i "ERROR" else t in
  End_span t i now.

(** ** Facts on the tracer *)

Inductive span_step : Tracer → Tracer → Prop :=
| step_start t ctx name tid sid now : span_step t (Start t ctx name tid sid now).1
| step_attr t i k v : span_step t (SetAttr t i k v)
| step_event t i now name a : span_step t (AddEvent t i now name a)
| step_status t i st : span_step t (SetStatus t i st)
| step_take t i now : span_step t (End_take t i now)
| step_write t k : span_step t (End_write t k).

Definition about (i : nat) (r : SpanRecord) : bool := bool_decide (rspan r = i).

(** What never changes of a span. *)
Definition same_span (s s' : Span) : Prop :=
  sname s' = sname s ∧ traceID s' = traceID s ∧ spanID s' = spanID s ∧ parentID s' = parentID s ∧ start s' = start s.

Definition describes (t : Tracer) (r : SpanRecord) : Prop :=
  ∃ s, spans t !! rspan r = Some s ∧ ended s = true ∧ rname r = sname s ∧ rtrace r = hex_encode (traceID s) ∧
    rid r = hex_encode (spanID s) ∧ rparent r = parentIDString (parentID s) ∧ rstart r = start s.

(** A span has no parent or an earlier one, whose trace it is in. *)
Definition linked (t : Tracer) (i : nat) (s : Span) : Prop :=
  parentID s = zero_id ∨ ∃ j p, (j < i)%nat ∧ spans t !! j = Some p ∧ traceID s = traceID p ∧ parentID s = spanID p.

Record tracer_inv (t : Tracer) : Prop := {
  ti_once i : count (about i) (pending t) + count (about i) (emitted t).*1
    = match spans t !! i with Some s => if ended s then 1 else 0 | None => 0 end;
  ti_pending r : r ∈ pending t → describes t r;
  ti_emitted r a : (r, a) ∈ emitted t → describes t r;
  ti_linked i s : spans t !! i = Some s → linked t i s;
}.

(** A step that keeps the identity of every span and the records. *)
Lemma spans_evolve t l :
  tracer_inv t → (∀ i s, spans t !! i = Some s → ∃ s', l !! i = Some s' ∧ same_span s s' ∧ ended s' = ended s) →
  (∀ i s', l !! i = Some s' → (∃ s, spans t !! i = Some s ∧ same_span s s') ∨ (spans t !! i = None ∧ ended s' = false ∧ linked (with_spans t l) i s')) →
  tracer_inv (with_spans t l).
Proof.
  intros [Ho Hp He Hl] Hf Hb.
  assert (∀ r, describes t r → describes (with_spans t l) r) as Hd.
  { intros r (s & Hs & E & E1 & E2 & E3 & E4 & E5). destruct (Hf _ _ Hs) as (s' & Hs' & (F1 & F2 & F3 & F4 & F5) & F).
    exists s'. cbn [spans with_spans]. split; [done|]. split; [congruence|]. repeat split; congruence. }
  split; cbn [pending emitted spans with_spans].
  - intros i. rewrite Ho. destruct (spans t !! i) as [s|] eqn:Es.
    + destruct (Hf _ _ Es) as (s' & -> & _ & ->). done.
    + destruct (l !! i) as [s'|] eqn:El; [|done]. destruct (Hb i s' El) as [(s & H & _)|(_ & -> & _)]; [congruence|done].
  - intros r Hr. by apply Hd, Hp.
  - intros r a Hr. by eapply Hd, He.
  - intros i s' H. destruct (Hb i s' H) as [(s & Hs & (F1 & F2 & F3 & F4 & F5))|(_ & _ & HL)]; [|done].
    destruct (Hl i s Hs) as [E|(j & p & Hj & Hp' & E1 & E2)]; [left; congruence|right].
    destruct (Hf _ _ Hp') as (p' & Hp'' & (G1 & G2 & G3 & G4 & G5) & _). exists j, p'. cbn [spans with_spans].
    split; [done|]. split; [done|]. split; congruence.
Qed.

Lemma on_span_inv t i f : tracer_inv t → (∀ s, same_span s (f s) ∧ ended (f s) = ended s) → tracer_inv (on_span t i f).
Proof.
  intros Ht Hf. apply spans_evolve; [done|..].
  - intros j s Hs. destruct (decide (i = j)) as [->|].
    + rewrite list_lookup_alter_eq, Hs. exists (f s). split; [done|]. apply Hf.
    + rewrite list_lookup_alter_ne by done. exists s. by repeat split.
  - intros j s' Hs'. left. destruct (decide (i = j)) as [->|].
    + rewrite list_lookup_alter_eq in Hs'. destruct (spans t !! j) as [s|]; [|done]. injection Hs' as <-. exists s. split; [done|apply Hf].
    + rewrite list_lookup_alter_ne in Hs' by done. exists s'. by repeat split.
Qed.

Lemma start_inv t ctx name tid sid now : tracer_inv t → tracer_inv (Start t ctx name tid sid now).1.
Proof.
  intros Ht. unfold Start. destruct (match ctx ≫= _ with Some p => _ | None => _ end) as [tr pa] eqn:E. cbn [fst].
  apply spans_evolve; [done|..].
  - intros i s Hs. exists s. rewrite lookup_app_l by (by eapply lookup_lt_Some). by repeat split.
  - intros i s' H. apply lookup_app_Some in H as [H|[Hi H]]; [left; exists s'; by repeat split|].
    apply list_lookup_singleton_Some in H as [Hi' <-]. right. assert (i = length (spans t)) as -> by lia.
    split; [apply lookup_ge_None_2; lia|]. split; [done|]. unfold linked. cbn [parentID traceID spans with_spans].
    destruct (ctx ≫= λ p, spans t !! p) as [p|] eqn:Ep; [|injection E as <- <-; by left].
    injection E as <- <-. right. destruct ctx as [j|]; [|done]. cbn in Ep. exists j, p.
    pose proof (lookup_lt_Some _ _ _ Ep). rewrite lookup_app_l by done. done.
Qed.

Lemma describes_spans t t' r : spans t' = spans t → describes t r → describes t' r.
Proof. intros E (s & Hs & H). exists s. by rewrite E. Qed.

Lemma take_inv t i now : tracer_inv t → tracer_inv (End_take t i now).
Proof.
  intros Ht. unfold End_take. destruct (spans t !! i) as [s|] eqn:Es; [|done]. destruct (ended s) eqn:Ee; [done|].
  destruct Ht as [Ho Hp He Hl].
  assert (∀ r, describes t r → describes {| tname := tname t; spans := <[i := mark_ended s]> (spans t);
    pending := pending t ++ [record_of i s now]; emitted := emitted t |} r) as Hd.
  { intros r (s0 & Hs0 & E & Hr). destruct (decide (rspan r = i)) as [E'|Hne]; [rewrite E' in Hs0; congruence|].
    exists s0. cbn [spans]. by rewrite list_lookup_insert_ne. }
  pose proof (lookup_lt_Some _ _ _ Es) as Hlen. split; cbn [pending emitted spans].
  - intros j. rewrite count_app, count_cons, count_nil. specialize (Ho j). unfold about at 2. cbn [record_of rspan].
    destruct (decide (i = j)) as [->|Hne].
    + rewrite bool_decide_true, list_lookup_insert_eq by done. cbn [ended mark_ended]. rewrite Es, Ee in Ho. lia.
    + rewrite bool_decide_false, list_lookup_insert_ne by done. lia.
  - intros r [H|H]%elem_of_app; [by apply Hd, Hp|]. apply list_elem_of_singleton in H as ->.
    exists (mark_ended s). cbn [record_of rspan spans rname rtrace rid rparent rstart]. rewrite list_lookup_insert_eq by done. by repeat split.
  - intros r a H. by eapply Hd, He.
  - intros j s' H. assert (∃ s0, spans t !! j = Some s0 ∧ same_span s0 s') as (s0 & Hs0 & (F1 & F2 & F3 & F4 & F5)).
    { destruct (decide (i = j)) as [->|Hne].
      - rewrite list_lookup_insert_eq in H by done. injection H as <-. exists s. by repeat split.
      - rewrite list_lookup_insert_ne in H by done. exists s'. by repeat split. }
    destruct (Hl j s0 Hs0) as [E|(k & p & Hk & Hp' & E1 & E2)]; [left; congruence|right]. cbn [spans].
    destruct (decide (i = k)) as [->|Hne].
    + exists k, (mark_ended p). rewrite list_lookup_insert_eq by done. rewrite Es in Hp'. injection Hp' as ->.
      split; [done|]. split; [done|]. cbn [mark_ended traceID spanID]. split; congruence.
    + exists k, p. rewrite list_lookup_insert_ne by done. split; [done|]. split; [done|]. split; congruence.
Qed.

Lemma write_inv t k : tracer_inv t → tracer_inv (End_write t k).
Proof.
  intros [Ho Hp He Hl]. unfold End_write. destruct (pending t !! k) as [r|] eqn:Ek; [|done].
  split; cbn [pending emitted spans].
  - intros i. rewrite <- Ho, (count_remove_at _ k (pending t) r Ek), fmap_app, count_app. cbn [fmap list_fmap fst]. rewrite count_cons, count_nil. lia.
  - intros r' H%elem_of_remove_at. eapply describes_spans; [|by apply Hp]. done.
  - intros r' a [H|H]%elem_of_app; [eapply describes_spans; [|by eapply He]; done|].
    apply list_elem_of_singleton in H. injection H as -> _. eapply describes_spans; [|apply Hp; by eapply list_elem_of_lookup_2]. done.
  - intros i s H. exact (Hl i s H).
Qed.

Lemma tracer_inv_reach name t : rtc span_step (NewTracer name) t → tracer_inv t.
Proof.
  intros H. eapply (rtc_ind_r tracer_inv); [|intros x y _ Hxy Hx|exact H].
  - split; cbn; [done|by intros ? ?%elem_of_nil|by intros ? ? ?%elem_of_nil|done].
  - destruct Hxy; [by apply start_inv|apply on_span_inv; [exact Hx|intros s; split; [by repeat split|done]]..|by apply take_inv|by apply write_inv].
Qed.

(** The index of the root of a span: the span without a parent it descends from. *)
Inductive descends (t : Tracer) : nat → nat → Prop :=
| descends_self i : descends t i i
| descends_child i j k p s : spans t !! i = Some s → spans t !! j = Some p → (j < i)%nat → traceID s = traceID p → parentID s = spanID p →
    descends t j k → descends t i k.

Lemma has_root t i s : tracer_inv t → spans t !! i = Some s →
  ∃ k r, descends t i k ∧ spans t !! k = Some r ∧ parentID r = zero_id ∧ traceID s = traceID r.
Proof.
  intros Ht. revert s. induction i as [i IH] using lt_wf_ind. intros s Hs.
  destruct (ti_linked t Ht i s Hs) as [E|(j & p & Hj & Hp & E1 & E2)].
  - exists i, s. split; [constructor|done].
  - destruct (IH j Hj p Hp) as (k & r & Hd & Hr & Hz & Et). exists k, r. split; [by apply (descends_child t i j k p s)|].
    split; [done|]. split; [done|]. congruence.
Qed.

(** However calls on spans interleave, and however often [End] is called on one of
    them, a span has at most one line, none while it is open and, once no record is
    waiting to be written, exactly one if it was ended; the line carries the span's
    own name, start and identifiers; and every span descends through its parents
    from a root, which has no parent and the same trace identifier. *)
Theorem spans_written_once name t (Ht : rtc span_step (NewTracer name) t) :
  (∀ i, let lines := count (λ r, bool_decide (rspan r = i)) (emitted t).*1 in
     lines <= 1 ∧
     match spans t !! i with
     | None => lines = 0
     | Some s => (ended s = false → lines = 0) ∧ (pending t = [] → ended s = true → lines = 1)
     end) ∧
  (∀ r a, (r, a) ∈ emitted t → ∃ s, spans t !! rspan r = Some s ∧ rname r = sname s ∧ rtrace r = hex_encode (traceID s) ∧
     rid r = hex_encode (spanID s) ∧ rparent r = parentIDString (parentID s) ∧ rstart r = start s) ∧
  ∀ i s, spans t !! i = Some s →
    ∃ k r, descends t i k ∧ spans t !! k = Some r ∧ parentID r = zero_id ∧ traceID s = traceID r.
Proof.
  pose proof (tracer_inv_reach _ _ Ht) as Hi. split; [|split].
  - intros i. cbv zeta. pose proof (ti_once t Hi i) as H. fold (about i).
    pose proof (count_range (about i) (pending t)). pose proof (count_range (about i) (emitted t).*1).
    destruct (spans t !! i) as [s|]; [|lia]. destruct (ended s); (split; [lia|]).
    + split; [done|]. intros Hp _. rewrite Hp, count_nil in H. lia.
    + split; [lia|done].
  - intros r a H. destruct (ti_emitted t Hi r a H) as (s & Hs & _ & Hr). by exists s.
  - intros i s Hs. by apply has_root.
Qed.

Definition ex_tracer : Tracer :=
  let t := (Start (NewTracer "svc") None "http.request" (replicate 16 Byte.x01) (replicate 8 Byte.x02) 1000).1 in
  let t := (Start t (Some 0%nat) "db" (replicate 16 Byte.x09) (replicate 8 Byte.x03) 2000).1 in
  End_span (End_span (End_span t 1 3000000) 1 4000000) 0 5000000.

Lemma ex_tracer_steps : rtc span_step (NewTracer "svc") ex_tracer.
Proof.
  unfold ex_tracer, End_span. cbv zeta.
  set (t1 := (Start (NewTracer "svc") None "http.request" (replicate 16 Byte.x01) (replicate 8 Byte.x02) 1000).1).
  set (t2 := (Start t1 (Some 0%nat) "db" (replicate 16 Byte.x09) (replicate 8 Byte.x03) 2000).1).
  eapply (rtc_l _ _ t1); [apply step_start|]. eapply (rtc_l _ _ t2); [apply step_start|].
  eapply (rtc_l _ _ (End_take t2 1 3000000)); [apply step_take|].
  eapply (rtc_l _ _ (End_write (End_take t2 1 3000000) 0)); [apply step_write|]. cbn.
  eapply (rtc_l _ _ (End_take (End_write (End_take t2 1 3000000) 0) 0 5000000)); [apply step_take|].
  eapply rtc_l; [apply (step_write _ 0)|]. apply rtc_refl.
Qed.

Lemma spans_written_once_witness :
  count (λ r, bool_decide (rspan r = 1%nat)) (emitted ex_tracer).*1 = 1 ∧ length (emitted ex_tracer) = 2%nat ∧
  (rparent <$> (emitted ex_tracer).*1) = ["0202020202020202"; ""]%string.
Proof.
  destruct (spans_written_once "svc" ex_tracer ex_tracer_steps) as [H _]. destruct (H 1%nat) as [_ H1].
  split; [|split; vm_compute; reflexivity]. exact (proj2 H1 eq_refl eq_refl).
Defined.

(** The attributes are encoded after the span's lock is given back: one set in
    between is in the line, though the span has ended. *)
Example attribute_after_end :
  let t := (Start (NewTracer "svc") None "op" (replicate 16 Byte.x01) (replicate 8 Byte.x02) 0).1 in
  (λ ra, snd ra !! "late"%string) <$> emitted (End_write (SetAttr (End_take t 0 5) 0 "late" (JInt 1)) 0) = [Some (JInt 1)].
Proof. vm_compute. reflexivity. Qed.

Example request_line :
  let t := (request_span (NewTracer "svc") None "GET" "unknown" "/x" (replicate 16 Byte.x01) (replicate 8 Byte.x02) 1000).1 in
  written (finish_span t 0 503 "GET /x" 2501000)
  = [Some (with_quotes ("{'service':'svc','name':'http.request','trace_id':'01010101010101010101010101010101','span_id':'0202020202020202',"
      +:+ "'start_unix_nano':1000,'end_unix_nano':2501000,'duration_ms':2.5,'status':'ERROR',"
      +:+ "'attrs':{'http.method':'GET','http.route':'GET /x','http.status_code':503,'http.target':'/x'}}") +:+ newline)%string].
Proof. vm_compute. reflexivity. Qed.
