(* ===== verification/Routes.v ===== *)
(** * The routes of the server ([engine/internal/api/server.go])

    The table [Server.Start] registers, the register functions of the other files
    included, and the router of net/http that serves it: the part of [ServeMux]
    these patterns use, which is a method and segments that are literal or a
    [{wildcard}]. Registering a pattern that conflicts with an earlier one panics;
    finding a handler walks the segments, literals first. Paths are those of
    requests without percent-escapes. The whole server puts the aliasing of
    [Guard.v] in front of the router. *)

From S2P Require Import Prelude GoLib JsonFacts Tenant Guard.

Local Open Scope Z_scope.

(** ** Patterns *)

Inductive Seg := Lit (s : string) | Wild (name : string).

#[export] Instance Seg_eq_dec : EqDecision Seg.
Proof. solve_decision. Defined.

Record Pattern := { PMethod : string; PSegs : list Seg }.

#[export] Instance Pattern_eq_dec : EqDecision Pattern.
Proof. solve_decision. Defined.

Definition parse_seg (s : string) : option Seg :=
  match s with
  | EmptyString => None
  | _ => if has_prefix s "{" && has_suffix s "}"
         then let name := String.substring 1 (String.length s - 2) s in
              if bool_decide (name = ""%string) || bool_decide (name = "$"%string) || has_suffix name "..." then None
              else Some (Wild name)
         else if contains s "{" || contains s "}" then None else Some (Lit s)
  end.

(** The segments of a path: what stands after each slash. *)
Definition segments (path : string) : list string := tail (split_on (chr 47) path).

(** [METHOD /path]; the forms the source does not use are refused. *)
Definition parsePattern (s : string) : option Pattern :=
  match cut_at (chr 32) s with
  | Some (m, path) =>
      if has_prefix path "/" then segs ← mapM parse_seg (segments path); Some {| PMethod := m; PSegs := segs |}
      else None
  | None => None
  end.

(** ** Conflicts *)

Inductive relationship := equivalent | moreGeneral | moreSpecific | disjoint | overlaps.

#[export] Instance relationship_eq_dec : EqDecision relationship.
Proof. solve_decision. Defined.

Definition inverse (r : relationship) : relationship :=
  match r with moreGeneral => moreSpecific | moreSpecific => moreGeneral | r => r end.

Definition combine_rel (r1 r2 : relationship) : relationship :=
  match r1 with
  | equivalent => r2
  | disjoint => disjoint
  | overlaps => match r2 with disjoint => disjoint | _ => overlaps end
  | moreGeneral | moreSpecific =>
      match r2 with
      | equivalent => r1
      | _ => if bool_decide (r2 = inverse r1) then overlaps else r2
      end
  end.

Definition compare_methods (m1 m2 : string) : relationship :=
  if bool_decide (m1 = m2) then equivalent
  else if bool_decide (m1 = "GET"%string ∧ m2 = "HEAD"%string) then moreGeneral
  else if bool_decide (m1 = "HEAD"%string ∧ m2 = "GET"%string) then moreSpecific
  else disjoint.

Definition compare_segs (s1 s2 : Seg) : relationship :=
  match s1, s2 with
  | Wild _, Wild _ => equivalent
  | Wild _, Lit _ => moreGeneral
  | Lit _, Wild _ => moreSpecific
  | Lit a, Lit b => if bool_decide (a = b) then equivalent else disjoint
  end.

(** Paths of different lengths are disjoint. *)
Fixpoint compare_paths (p1 p2 : list Seg) : relationship :=
  match p1, p2 with
  | [], [] => equivalent
  | s1 :: p1, s2 :: p2 => combine_rel (compare_segs s1 s2) (compare_paths p1 p2)
  | _, _ => disjoint
  end.

Definition compare_patterns (p1 p2 : Pattern) : relationship :=
  combine_rel (compare_methods (PMethod p1) (PMethod p2)) (compare_paths (PSegs p1) (PSegs p2)).

Definition conflicts (p1 p2 : Pattern) : bool :=
  match compare_patterns p1 p2 with equivalent | overlaps => true | _ => false end.

(** ** The router *)

Record Route := { pattern : string; parsed : Pattern; handler : string }.
Notation Mux := (list Route).

#[export] Instance Route_eq_dec : EqDecision Route.
Proof. solve_decision. Defined.

(** [HandleFunc]; [None] is its panic. *)
Definition HandleFunc (mux : Mux) (pat h : string) : option Mux :=
  p ← parsePattern pat;
  if existsb (λ r, conflicts (parsed r) p) mux then None
  else Some (mux ++ [{| pattern := pat; parsed := p; handler := h |}]).

Fixpoint register (mux : Mux) (table : list (string * string)) : option Mux :=
  match table with
  | [] => Some mux
  | (pat, h) :: table => mux ← HandleFunc mux pat h; register mux table
  end.

(** The routes below a literal segment, and those below a wildcard. *)
Definition below_lit (s : string) (rows : list (list Seg * Route)) : list (list Seg * Route) :=
  omap (λ row, match row with
               | (Lit l :: p, r) => if bool_decide (l = s) then Some (p, r) else None
               | _ => None
               end) rows.
Definition below_wild (rows : list (list Seg * Route)) : list (list Seg * Route) :=
  omap (λ row, match row with (Wild _ :: p, r) => Some (p, r) | _ => None end) rows.

(** A wildcard does not match the empty segment of a trailing slash. *)
Fixpoint matchPath (rows : list (list Seg * Route)) (path : list string) : option (Route * list string) :=
  match path with
  | [] => (λ row : list Seg * Route, (row.2, [])) <$> List.find (λ row, bool_decide (row.1 = [])) rows
  | seg :: rest =>
      match matchPath (below_lit seg rows) rest with
      | Some m => Some m
      | None =>
          if bool_decide (seg = ""%string) then None
          else (λ m : Route * list string, (m.1, seg :: m.2)) <$> matchPath (below_wild rows) rest
      end
  end.

Definition of_method (mux : Mux) (m : string) : list (list Seg * Route) :=
  (λ r, (PSegs (parsed r), r)) <$> filter (λ r, PMethod (parsed r) = m) mux.

Definition matchMethodAndPath (mux : Mux) (method : string) (path : list string) : option (Route * list string) :=
  match matchPath (of_method mux method) path with
  | Some m => Some m
  | None => if bool_decide (method = "HEAD"%string) then matchPath (of_method mux "GET") path else None
  end.

(** [path.Clean] on segments. *)
Definition clean_step (acc : list string) (seg : string) : list string :=
  if bool_decide (seg = ""%string ∨ seg = "."%string) then acc
  else if bool_decide (seg = ".."%string) then removelast acc else acc ++ [seg].

Definition join_path (segs : list string) : string := string_concat ((λ s, "/" +:+ s)%string <$> segs).

Definition cleanPath (p : string) : string :=
  let p := if has_prefix p "/" then p else ("/" +:+ p)%string in
  let segs := segments p in
  let clean := foldl clean_step [] segs in
  if bool_decide (clean = []) then "/"%string
  else if bool_decide (last segs = Some ""%string) then (join_path clean +:+ "/")%string else join_path clean.

Inductive routed :=
| Handled (r : Route) (vars : list string)
| Moved (path : string) (pat : string)   (* 301 *)
| NotAllowed (allow : list string)       (* 405 *)
| NotFound.                              (* 404 *)

Definition allowed (mux : Mux) (path : list string) : list string :=
  filter (λ m, is_Some (matchPath (of_method mux (if bool_decide (m = "HEAD"%string) then "GET"%string else m)) path))
    ["DELETE"; "GET"; "HEAD"; "POST"]%string.

Definition findHandler (mux : Mux) (method path : string) : routed :=
  let clean := if bool_decide (method = "CONNECT"%string) then path else cleanPath path in
  let found := matchMethodAndPath mux method (segments clean) in
  if negb (bool_decide (clean = path)) then Moved clean (match found with Some (r, _) => pattern r | None => ""%string end)
  else match found with
       | Some (r, vars) => Handled r vars
       | None => match allowed mux (segments clean) with [] => NotFound | ms => NotAllowed ms end
       end.

(** The pattern [ServeMux.Handler] reports. *)
Definition muxPattern (mux : Mux) (method path : string) : string :=
  match findHandler mux method path with Handled r _ => pattern r | Moved _ pat => pat | _ => ""%string end.

(** ** The table *)

Definition proof_routes : list (string * string) :=
  [("GET /health", "health"); ("GET /onchain.json", "onchainManifest"); ("GET /proofs", "listProofs");
   ("GET /proofs/{id}", "getProof"); ("POST /proofs", "submitProof"); ("POST /proofs/batch", "batchProofs");
   ("POST /verify", "verifyProof"); ("POST /verify/batch", "verifyBatch");
   ("POST /proofs/{id}/revoke", "revokeProof"); ("GET /proofs/{id}/export", "exportProof");
   ("GET /stats", "stats"); ("POST /kyc/check", "kycCheck"); ("POST /kyc/grant", "kycGrant");
   ("GET /kyc/whitelist/{user}", "kycWhitelist")]%string.

Definition inference_routes : list (string * string) :=
  [("POST /inference/prove", "inferenceProve"); ("POST /inference/verify", "inferenceVerify");
   ("POST /inference/register-model", "inferenceRegisterModel"); ("GET /inference/model/{id}", "inferenceGetModel");
   ("POST /inference/judge", "judgeHandler"); ("POST /aggregation/create-batch", "aggregationCreateBatch");
   ("POST /aggregation/add-proof", "aggregationAddProof"); ("POST /aggregation/finalize", "aggregationFinalize");
   ("GET /aggregation/batch/{id}", "aggregationGetBatch");
   ("GET /aggregation/verify-batch/{id}", "aggregationVerifyBatch")]%string.

Definition zk_routes : list (string * string) :=
  [("POST /zk/groth16-real/prove", "zkGroth16RealProve"); ("POST /zk/groth16-real/verify", "zkGroth16RealVerify");
   ("POST /zk/verify-groth16-sim", "zkVerifyGroth16"); ("POST /zk/batch-verify-sim", "zkBatchVerify");
   ("POST /zk/verify-groth16", "zkVerifyGroth16"); ("POST /zk/batch-verify", "zkBatchVerify");
   ("GET /v1/circuits", "circuitsList"); ("GET /v1/circuits/{id}", "circuitsGet");
   ("GET /v1/circuits/{id}/vk", "circuitsGetVK"); ("POST /v1/zk/prove", "zkProveGeneric");
   ("POST /v1/zk/verify", "zkVerifyGeneric"); ("POST /v1/zk/anchor-verdict", "zkAnchorVerdict");
   ("POST /zk/challenge", "zkChallenge"); ("GET /zk/challenge/{id}", "zkGetChallenge")]%string.

Definition log_routes : list (string * string) :=
  [("POST /proof-chain/validate", "proofChainValidate"); ("POST /decisions/log", "decisionLog");
   ("GET /decisions/log", "decisionRecent"); ("GET /decisions/log/{id}", "decisionGet");
   ("GET /decisions/log/{id}/lineage", "decisionLineage"); ("POST /pq/sign-sphincs", "pqSignSPHINCS");
   ("POST /pq/verify-sphincs", "pqVerifySPHINCS"); ("POST /pq/hybrid-sign", "pqHybridSign");
   ("POST /pq/hybrid-verify", "pqHybridVerify"); ("POST /auth/siwe/challenge", "siweChallenge");
   ("POST /auth/siwe/verify", "siweVerify")]%string.

Definition tenant_routes : list (string * string) :=
  [("GET /admin/tenants", "tenantList"); ("POST /admin/tenants", "tenantCreate");
   ("POST /admin/tenants/{id}/keys", "tenantAddKey"); ("POST /admin/tenants/{id}/keys/revoke", "tenantRevokeKeys");
   ("GET /admin/tenants/{id}/audit", "tenantAudit"); ("GET /admin/tenants/audit", "tenantAudit")]%string.

Definition registerKeyRingRoutes : list (string * string) :=
  [("POST /v1/pq/keys", "pqKeyCreate"); ("POST /v1/pq/keys/{algo}/rotate", "pqKeyRotate");
   ("GET /v1/pq/keys", "pqKeyList"); ("GET /v1/pq/keys/{id}", "pqKeyGet"); ("POST /v1/pq/keys/sign", "pqKeySign");
   ("POST /v1/pq/keys/verify", "pqKeyVerify"); ("POST /v1/pq/keys/migrate", "pqKeyMigrate");
   ("GET /v1/pq/keystore/info", "pqKeystoreInfo")]%string.

Definition registerNovaRoutes : list (string * string) :=
  [("POST /v1/aggregation/fold", "novaFold"); ("POST /v1/aggregation/verify-fold", "novaVerifyFold")]%string.

Definition registerWebhookRoutes : list (string * string) :=
  [("POST /v1/webhooks", "webhooksCreate"); ("GET /v1/webhooks", "webhooksList");
   ("DELETE /v1/webhooks/{id}", "webhooksDelete"); ("GET /v1/webhooks/dead-letters", "webhooksDeadLetters");
   ("POST /v1/webhooks/dead-letters/{delivery_id}/replay", "webhooksReplayDeadLetter")]%string.

Definition registerDecisionRoutes : list (string * string) :=
  [("POST /v1/decision/evaluate", "decisionEvaluate"); ("GET /v1/decision/pool", "decisionPoolInfo")]%string.

Definition registerReceiptRoutes : list (string * string) :=
  [("POST /v1/receipts/emit", "receiptsEmit"); ("GET /v1/receipts/{id}", "receiptsGet");
   ("GET /v1/receipts/{id}/lineage", "receiptsLineage"); ("GET /v1/receipts/{id}/w3c-vc", "receiptsW3CVC");
   ("GET /v1/receipts/{id}/agent-receipt", "receiptsAgentReceipt")]%string.

Definition registerHITLRoutes : list (string * string) :=
  [("GET /v1/hitl/tickets", "hitlListTickets"); ("GET /v1/hitl/tickets/{id}", "hitlGetTicket");
   ("POST /v1/hitl/tickets/{id}/resolve", "hitlResolveTicket")]%string.

Definition registerQuorumRoutes : list (string * string) :=
  [("POST /v1/quorum/signers", "quorumRegisterSigner"); ("GET /v1/quorum/signers", "quorumListSigners");
   ("POST /v1/quorum/signers/{id}/slash", "quorumSlashSigner");
   ("POST /v1/quorum/signers/{id}/retire", "quorumRetireSigner"); ("POST /v1/quorum/verify", "quorumVerify");
   ("GET /v1/quorum/threshold", "quorumThreshold")]%string.

Definition registerMerkleRecursionRoutes : list (string * string) :=
  [("POST /v1/aggregation/merkle-aggregate", "merkleAggregate");
   ("POST /v1/aggregation/merkle-inclusion", "merkleInclusion");
   ("POST /v1/aggregation/merkle-verify", "merkleVerify")]%string.

(** [metrics] and [tenants]: [s.metrics] and [s.tenants] are not nil. *)
Definition start_table (metrics tenants : bool) : list (string * string) :=
  proof_routes ++ inference_routes ++ zk_routes ++ log_routes
  ++ (if metrics then [] else [("GET /metrics", "obs.Handler")]%string)
  ++ (if tenants then tenant_routes else [])
  ++ registerKeyRingRoutes ++ registerNovaRoutes ++ registerWebhookRoutes ++ registerDecisionRoutes
  ++ registerReceiptRoutes ++ registerHITLRoutes ++ registerQuorumRoutes ++ registerMerkleRecursionRoutes
  ++ [("GET /v1/openapi.json", "openAPIHandler"); ("GET /v1/routes", "routesHandler");
      ("GET /v1/admin/summary", "adminSummaryHandler")]%string
  ++ (if metrics then [("GET /metrics", "observability.MetricsHandler");
                       ("GET /v1/metrics", "observability.MetricsHandler")]%string else []).

Definition start_mux (metrics tenants : bool) : option Mux := register [] (start_table metrics tenants).

(** What the server finds for a request: [v1AliasMiddleware] is the outermost
    handler, the router the innermost. *)
Definition serve (mux : Mux) (r : Request) : routed := findHandler mux (Method r) (Path (fst (v1Alias r))).

(** The whole server on one request: the chain of [Guard.v] with the router's
    pattern, then the router's handler. *)
Inductive served :=
| Answered (o : outcome)
| Dispatched (x : routed) (r : Request) (t : option Tenant) (tag : option string).

Definition answer_request (mux : Mux) (s : Server) (clock : readings) (r : Request) : Server * served :=
  let '(s', o) := admission (muxPattern mux) s clock r in
  (s', match o with
       | Forwarded r' t tag => Dispatched (findHandler mux (Method r') (Path r')) r' t tag
       | o => Answered o
       end).

(** ** What a pattern matches *)

(** The values of the wildcards when the segments match. *)
Fixpoint bind_path (p : list Seg) (path : list string) : option (list string) :=
  match p, path with
  | [], [] => Some []
  | Lit l :: p, seg :: path => if bool_decide (l = seg) then bind_path p path else None
  | Wild _ :: p, seg :: path => if bool_decide (seg = ""%string) then None else cons seg <$> bind_path p path
  | _, _ => None
  end.

Definition answers_method (pm m : string) : Prop := pm = m ∨ (pm = "GET"%string ∧ m = "HEAD"%string).

Definition matches (p : Pattern) (method : string) (path : list string) : Prop :=
  answers_method (PMethod p) method ∧ is_Some (bind_path (PSegs p) path).

(** The path of a pattern with its wildcards filled. *)
Fixpoint fill (p : list Seg) (vs : list string) : option (list string) :=
  match p, vs with
  | [], [] => Some []
  | Lit l :: p, _ => cons l <$> fill p vs
  | Wild _ :: p, v :: vs => cons v <$> fill p vs
  | _, _ => None
  end.

(** A segment that survives cleaning: no slash, not empty, no dots alone. *)
Definition proper (s : string) : bool :=
  no_char (chr 47) s && negb (bool_decide (s = ""%string ∨ s = "."%string ∨ s = ".."%string)).

(** ** The order on patterns *)

Lemma combine_inverse a b : inverse (combine_rel a b) = combine_rel (inverse a) (inverse b).
Proof. by destruct a, b. Qed.

Lemma compare_segs_inverse s t : compare_segs t s = inverse (compare_segs s t).
Proof. destruct s, t; try done. cbn. repeat case_bool_decide; first [done|congruence]. Qed.

Lemma compare_methods_inverse m n : compare_methods n m = inverse (compare_methods m n).
Proof. unfold compare_methods. repeat case_bool_decide; naive_solver. Qed.

Lemma compare_paths_inverse p q : compare_paths q p = inverse (compare_paths p q).
Proof.
  revert q. induction p as [|s p IH]; intros [|t q]; try done. cbn.
  by rewrite combine_inverse, <- compare_segs_inverse, <- IH.
Qed.

Lemma compare_patterns_inverse p q : compare_patterns q p = inverse (compare_patterns p q).
Proof.
  unfold compare_patterns. by rewrite combine_inverse, <- compare_methods_inverse, <- compare_paths_inverse.
Qed.

Lemma conflicts_sym p q : conflicts p q = conflicts q p.
Proof. unfold conflicts. rewrite (compare_patterns_inverse p q). by destruct (compare_patterns p q). Qed.

(** Two patterns that match one path are not disjoint. *)
Lemma compare_paths_common p q path :
  is_Some (bind_path p path) → is_Some (bind_path q path) → compare_paths p q ≠ disjoint.
Proof.
  revert q path. induction p as [|s p IH]; intros [|t q] [|x path] Hp Hq; cbn in *;
    try (by destruct Hp); try (by destruct Hq); try done; try (by destruct s; destruct Hp); try (by destruct t; destruct Hq).
  assert (is_Some (bind_path p path) ∧ is_Some (bind_path q path) ∧ compare_segs s t ≠ disjoint) as (H1 & H2 & Hc).
  { destruct s as [l|n], t as [l'|n']; cbn; repeat case_bool_decide; subst;
      try (by destruct Hp); try (by destruct Hq); rewrite ?fmap_is_Some in *; done. }
  specialize (IH q path H1 H2). by destruct (compare_segs s t), (compare_paths p q).
Qed.

(** ** Registration *)

Definition conflict_free (mux : Mux) : Prop :=
  ∀ i j r r', mux !! i = Some r → mux !! j = Some r' → i ≠ j → conflicts (parsed r) (parsed r') = false.

Definition well_parsed (mux : Mux) : Prop := ∀ r, r ∈ mux → parsePattern (pattern r) = Some (parsed r).

Lemma HandleFunc_ok mux pat h mux' :
  HandleFunc mux pat h = Some mux' → conflict_free mux → well_parsed mux → conflict_free mux' ∧ well_parsed mux'.
Proof.
  unfold HandleFunc. destruct (parsePattern pat) as [p|] eqn:Ep; [|done]. cbn.
  destruct (existsb _ mux) eqn:Ex; [done|]. intros [= <-] Hc Hw. split.
  - assert (∀ r, r ∈ mux → conflicts (parsed r) p = false) as Hnew.
    { intros r Hr. destruct (conflicts (parsed r) p) eqn:E; [|done]. exfalso. apply Bool.not_true_iff_false in Ex.
      apply Ex, existsb_exists. exists r. by rewrite <- list_elem_of_In. }
    intros i j r r' Hi Hj Hij. apply lookup_app_Some in Hi as [Hi|[Hi1 Hi]], Hj as [Hj|[Hj1 Hj]].
    + by apply (Hc i j).
    + apply list_lookup_singleton_Some in Hj as [_ <-]. by apply Hnew, (list_elem_of_lookup_2 _ i).
    + apply list_lookup_singleton_Some in Hi as [_ <-]. rewrite conflicts_sym. by apply Hnew, (list_elem_of_lookup_2 _ j).
    + apply list_lookup_singleton_Some in Hi as [? _], Hj as [? _]. lia.
  - intros r [Hr| ->%list_elem_of_singleton]%elem_of_app; [by apply Hw|done].
Qed.

Lemma register_ok table : ∀ mux mux',
  register mux table = Some mux' → conflict_free mux → well_parsed mux → conflict_free mux' ∧ well_parsed mux'.
Proof.
  induction table as [|[pat h] table IH]; intros mux mux'; cbn; [by intros [= <-]|].
  destruct (HandleFunc mux pat h) as [m|] eqn:E; [|done]. cbn. intros H Hc Hw.
  destruct (HandleFunc_ok _ _ _ _ E Hc Hw). by apply (IH m).
Qed.

Lemma registered table mux : register [] table = Some mux → conflict_free mux ∧ well_parsed mux.
Proof.
  intros H. apply (register_ok table [] mux H).
  - intros i j r r' Hi. done.
  - intros r Hr. by apply elem_of_nil in Hr.
Qed.

(** ** The walk *)

Lemma elem_below_lit s rows p r : (p, r) ∈ below_lit s rows ↔ (Lit s :: p, r) ∈ rows.
Proof.
  unfold below_lit. rewrite list_elem_of_omap. split.
  - intros ([[|[l|n] q] r'] & Hin & E); try done. case_bool_decide; [|done]. by simplify_eq/=.
  - intros H. exists (Lit s :: p, r). split; [done|]. by rewrite bool_decide_true.
Qed.

Lemma elem_below_wild rows p r : (p, r) ∈ below_wild rows ↔ ∃ n, (Wild n :: p, r) ∈ rows.
Proof.
  unfold below_wild. rewrite list_elem_of_omap. split.
  - intros ([[|[l|n] q] r'] & Hin & E); try done. simplify_eq/=. by exists n.
  - intros [n H]. by exists (Wild n :: p, r).
Qed.

Lemma matchPath_complete path : ∀ rows p r,
  (p, r) ∈ rows → is_Some (bind_path p path) → is_Some (matchPath rows path).
Proof.
  induction path as [|seg path IH]; intros rows p r Hin Hb.
  - destruct p as [|[]]; cbn in Hb; try (by destruct Hb). cbn. rewrite fmap_is_Some.
    destruct (List.find _ rows) eqn:E; [done|]. apply list_elem_of_In, (List.find_none _ _ E) in Hin.
    done.
  - cbn. destruct (matchPath (below_lit seg rows) path) eqn:E; [done|].
    destruct p as [|[l|n] p]; cbn in Hb; [by destruct Hb| |].
    + case_bool_decide; [|by destruct Hb]. subst. apply elem_below_lit in Hin.
      destruct (IH _ _ _ Hin Hb) as [? H]. congruence.
    + case_bool_decide; [by destruct Hb|]. apply fmap_is_Some. apply fmap_is_Some in Hb.
      apply (IH _ p r); [|done]. apply elem_below_wild. by exists n.
Qed.

(** What the walk finds is a row that matches, and no row that matches is more
    specific. *)
Lemma matchPath_sound path : ∀ rows r vs, matchPath rows path = Some (r, vs) →
  ∃ p, (p, r) ∈ rows ∧ bind_path p path = Some vs ∧
    ∀ q r', (q, r') ∈ rows → is_Some (bind_path q path) → compare_paths p q ≠ moreGeneral.
Proof.
  induction path as [|seg path IH]; intros rows r vs H; cbn in H.
  - destruct (List.find _ rows) as [[p r0]|] eqn:E; [|done]. cbn in H. simplify_eq.
    apply List.find_some in E as [Hin Hp]. apply bool_decide_eq_true in Hp. cbn in Hp. subst.
    exists []. rewrite list_elem_of_In. repeat split; [done|]. intros [|[] q] r' _ Hq; by destruct Hq.
  - destruct (matchPath (below_lit seg rows) path) as [[r0 vs0]|] eqn:E.
    + simplify_eq. destruct (IH _ _ _ E) as (p & Hin & Hb & Hq). exists (Lit seg :: p).
      split; [by apply elem_below_lit|]. split; [cbn; by rewrite bool_decide_true|].
      intros [|[l|n] q] r' Hin' Hb'; cbn in Hb' |- *; [done| |].
      * case_bool_decide; [|by destruct Hb']. subst. rewrite bool_decide_true by done. cbn.
        apply (Hq q r'); [by apply elem_below_lit|done].
      * by destruct (compare_paths p q).
    + case_bool_decide; [done|]. destruct (matchPath (below_wild rows) path) as [[r0 vs0]|] eqn:E'; [|done].
      cbn in H. simplify_eq. destruct (IH _ _ _ E') as (p & Hin & Hb & Hq).
      apply elem_below_wild in Hin as [n Hin]. exists (Wild n :: p). split; [done|].
      split; [cbn; by rewrite bool_decide_false, Hb|].
      intros [|[l|n'] q] r' Hin' Hb'; cbn in Hb' |- *; [done| |].
      * exfalso. case_bool_decide; [|by destruct Hb']. subst.
        destruct (matchPath_complete path (below_lit seg rows) q r') as [? Hx]; [by apply elem_below_lit|done|congruence].
      * case_bool_decide; [done|]. rewrite fmap_is_Some in Hb'. apply (Hq q r'); [|done]. apply elem_below_wild. by exists n'.
Qed.

(** ** Dispatch *)

Lemma elem_of_method mux m p r : (p, r) ∈ of_method mux m ↔ p = PSegs (parsed r) ∧ r ∈ mux ∧ PMethod (parsed r) = m.
Proof.
  unfold of_method. rewrite list_elem_of_fmap. split.
  - intros (r' & [= -> ->] & H). rewrite list_elem_of_filter in H. naive_solver.
  - intros (-> & H1 & H2). exists r. by rewrite list_elem_of_filter.
Qed.

Lemma of_method_complete mux method path r :
  r ∈ mux → matches (parsed r) method path → is_Some (matchMethodAndPath mux method path).
Proof.
  intros Hr [Hm Hb]. unfold matchMethodAndPath. destruct (matchPath (of_method mux method) path) eqn:E; [done|].
  destruct Hm as [Hm|[Hm ->]].
  - destruct (matchPath_complete path (of_method mux method) (PSegs (parsed r)) r) as [x Hx]; [by apply elem_of_method|done|].
    congruence.
  - rewrite bool_decide_true by done. apply (matchPath_complete _ _ (PSegs (parsed r)) r); [by apply elem_of_method|done].
Qed.

(** In a table without conflicts the route found is the only one that matches,
    up to less specific ones. *)
Lemma found_most_specific mux method path r vs :
  conflict_free mux → matchMethodAndPath mux method path = Some (r, vs) →
  r ∈ mux ∧ answers_method (PMethod (parsed r)) method ∧ bind_path (PSegs (parsed r)) path = Some vs ∧
  ∀ r', r' ∈ mux → matches (parsed r') method path → r' = r ∨ compare_patterns (parsed r) (parsed r') = moreSpecific.
Proof.
  intros Hc H.
  assert (∃ m, matchPath (of_method mux m) path = Some (r, vs) ∧
    (m = method ∨ (m = "GET"%string ∧ method = "HEAD"%string ∧ matchPath (of_method mux method) path = None)))
    as (m & E & Hm).
  { unfold matchMethodAndPath in H. destruct (matchPath (of_method mux method) path) as [[r0 vs0]|] eqn:E.
    - simplify_eq. exists method. auto.
    - case_bool_decide; [|done]. subst. exists "GET"%string. auto. }
  destruct (matchPath_sound path _ _ _ E) as (p & Hin & Hb & Hq).
  apply elem_of_method in Hin as (-> & Hr & Hrm). split; [done|].
  split; [unfold answers_method; destruct Hm as [->|(-> & -> & _)]; auto|]. split; [done|].
  intros r' Hr' [Hm' Hb']. destruct (decide (r' = r)) as [|Hne]; [by left|right].
  assert (conflicts (parsed r) (parsed r') = false) as Hnc.
  { apply list_elem_of_lookup in Hr as [i Hi], Hr' as [j Hj]. apply (Hc i j); [done|done|]. intros ->. congruence. }
  assert (compare_paths (PSegs (parsed r)) (PSegs (parsed r')) ≠ disjoint) as Hd
    by (apply (compare_paths_common _ _ path); [by rewrite Hb|done]).
  assert (compare_methods (PMethod (parsed r)) (PMethod (parsed r')) = equivalent ∧
          compare_paths (PSegs (parsed r)) (PSegs (parsed r')) ≠ moreGeneral ∨
          compare_methods (PMethod (parsed r)) (PMethod (parsed r')) = moreSpecific) as Hcases.
  { rewrite Hrm. destruct Hm as [->|(-> & -> & Hnone)], Hm' as [Hm'|[Hm' Hh]].
    - left. rewrite Hm'. split; [unfold compare_methods; by rewrite bool_decide_true|].
      apply (Hq _ r'); [by apply elem_of_method|done].
    - right. by rewrite Hm', Hh.
    - exfalso. destruct (matchPath_complete path (of_method mux "HEAD") (PSegs (parsed r')) r') as [x Hx];
        [by apply elem_of_method|done|congruence].
    - left. rewrite Hm'. split; [done|]. apply (Hq _ r'); [by apply elem_of_method|done]. }
  unfold conflicts, compare_patterns in *. destruct Hcases as [[Hx Hy]|Hx]; rewrite Hx in *;
    by destruct (compare_paths (PSegs (parsed r)) (PSegs (parsed r'))).
Qed.

Lemma find_handled mux method path r vs :
  findHandler mux method path = Handled r vs ↔
  matchMethodAndPath mux method (segments path) = Some (r, vs) ∧ (method = "CONNECT"%string ∨ cleanPath path = path).
Proof.
  unfold findHandler. destruct (bool_decide (method = "CONNECT"%string)) eqn:Ec.
  - apply bool_decide_eq_true in Ec. rewrite (bool_decide_true (path = path)) by done. cbn [negb].
    destruct (matchMethodAndPath mux method (segments path)) as [[r0 vs0]|].
    + naive_solver.
    + destruct (allowed mux (segments path)); (split; [discriminate|intros [Hx _]; discriminate]).
  - apply bool_decide_eq_false in Ec. destruct (bool_decide (cleanPath path = path)) eqn:Ep; cbn [negb].
    + apply bool_decide_eq_true in Ep. rewrite Ep.
      destruct (matchMethodAndPath mux method (segments path)) as [[r0 vs0]|].
      * naive_solver.
      * destruct (allowed mux (segments path)); (split; [discriminate|intros [Hx _]; discriminate]).
    + apply bool_decide_eq_false in Ep. split; [discriminate|intros [_ [Hx|Hx]]; contradiction].
Qed.

(** ** Paths *)

Lemma split_on_cons c s a b l :
  split_on c s = a :: b :: l → ∃ t, s = (a +:+ String c t)%string ∧ split_on c t = b :: l.
Proof.
  revert a. induction s as [|d s IH]; intros a; cbn; [done|]. case_bool_decide as Hd.
  - intros [= <- E]. subst. by exists s.
  - destruct (split_on c s) as [|h t] eqn:E; [done|]. intros [= <- ->]. destruct (IH h eq_refl) as (t & -> & E').
    by exists t.
Qed.

Lemma segments_join segs :
  forallb proper segs = true → segs ≠ [] → segments (join_path segs) = segs.
Proof.
  unfold segments. intros H Hne.
  assert (split_on (chr 47) (join_path segs) = "" :: segs)%string as ->; [|done].
  clear Hne. induction segs as [|s segs IH]; cbn [forallb] in H; [done|].
  apply andb_prop in H as [Hs H]. unfold proper in Hs. apply andb_prop in Hs as [Hs _].
  change (join_path (s :: segs)) with (String (chr 47) (s +:+ join_path segs)%string). cbn [split_on].
  rewrite bool_decide_true by done. f_equal. destruct segs as [|s' segs].
  - change (join_path []) with ""%string. rewrite str_app_nil. by apply split_last.
  - specialize (IH H). change (join_path (s' :: segs)) with (String (chr 47) (s' +:+ join_path segs)%string) in IH |- *.
    rewrite split_on_app by done. cbn [split_on] in IH. rewrite bool_decide_true in IH by done. by apply cons_inv in IH as [_ ->].
Qed.

Lemma clean_proper segs acc : forallb proper segs = true → foldl clean_step acc segs = acc ++ segs.
Proof.
  revert acc. induction segs as [|s segs IH]; intros acc H; cbn [foldl]; [by rewrite app_nil_r|].
  cbn [forallb] in H. apply andb_prop in H as [Hs H]. unfold proper in Hs. apply andb_prop in Hs as [_ Hs].
  apply negb_true_iff, bool_decide_eq_false in Hs. unfold clean_step at 2.
  rewrite !bool_decide_false by tauto. by rewrite IH, <- app_assoc.
Qed.

Lemma clean_join segs : forallb proper segs = true → segs ≠ [] → cleanPath (join_path segs) = join_path segs.
Proof.
  intros H Hne. unfold cleanPath. assert (has_prefix (join_path segs) "/" = true) as ->.
  { destruct segs as [|s segs]; [done|]. unfold has_prefix. cbn. rewrite <- str_app_assoc. apply prefix_app. }
  rewrite segments_join, (clean_proper segs []) by done. cbn [app].
  rewrite (bool_decide_false (segs = [])), bool_decide_false; [done| |done].
  intros Hl. apply last_Some_elem_of in Hl. apply list_elem_of_In in Hl.
  rewrite forallb_forall in H. by apply H in Hl.
Qed.

Lemma bind_fill p vs path :
  fill p vs = Some path → forallb proper vs = true → bind_path p path = Some vs.
Proof.
  revert vs path. induction p as [|[l|n] p IH]; intros vs path H Hv; cbn in H.
  - destruct vs; [|done]. by simplify_eq.
  - destruct (fill p vs) as [path'|] eqn:E; [|done]. cbn in H. simplify_eq. cbn. rewrite bool_decide_true by done. by apply IH.
  - destruct vs as [|v vs]; [done|]. destruct (fill p vs) as [path'|] eqn:E; [|done]. cbn in H. simplify_eq.
    cbn [forallb] in Hv. apply andb_prop in Hv as [H1 H2]. cbn. rewrite bool_decide_false; [by rewrite (IH vs path')|].
    intros ->. done.
Qed.

Lemma fill_bind p path vs :
  bind_path p path = Some vs → fill p vs = Some path ∧ ∀ v, v ∈ vs → v ∈ path.
Proof.
  revert path vs. induction p as [|[l|n] p IH]; intros [|seg path] vs H; cbn in H; try done.
  - simplify_eq. split; [done|]. intros v Hv. done.
  - case_bool_decide; [|done]. subst. destruct (IH _ _ H) as [E Hv]. cbn. rewrite E. split; [done|].
    intros v ?%Hv. by apply elem_of_cons; right.
  - case_bool_decide; [done|]. destruct (bind_path p path) as [vs'|] eqn:E; [|done]. cbn in H. simplify_eq.
    destruct (IH _ _ E) as [E' Hv]. cbn. rewrite E'. split; [done|].
    intros v [->|?%Hv]%elem_of_cons; apply elem_of_cons; auto.
Qed.

(** A segment that cleaning keeps. *)
Definition plain (s : string) : Prop := s ≠ ""%string ∧ s ≠ "."%string ∧ s ≠ ".."%string.

Lemma clean_plain segs acc x : (∀ y, y ∈ acc → plain y) → x ∈ foldl clean_step acc segs → plain x.
Proof.
  revert acc. induction segs as [|s segs IH]; intros acc Ha; cbn [foldl]; [by apply Ha|]. apply IH.
  intros y. unfold clean_step. case_bool_decide as H1; [by apply Ha|]. case_bool_decide as H2.
  - intros Hy. apply Ha. destruct acc as [|a acc] using rev_ind; [done|]. rewrite removelast_last in Hy. set_solver.
  - intros [?| ->%list_elem_of_singleton]%elem_of_app; [by apply Ha|]. unfold plain. tauto.
Qed.

Lemma clean_from segs acc x : x ∈ foldl clean_step acc segs → x ∈ acc ∨ x ∈ segs.
Proof.
  revert acc. induction segs as [|s segs IH]; intros acc; cbn [foldl]; [by left|]. intros [Hx|?]%IH; [|set_solver].
  revert Hx. unfold clean_step. case_bool_decide; [set_solver|]. case_bool_decide; [|set_solver].
  destruct acc as [|a acc] using rev_ind; [set_solver|]. rewrite removelast_last. set_solver.
Qed.

Lemma slash_path s : has_prefix s "/" = true → ∃ t, s = String (chr 47) t ∧ segments s = split_on (chr 47) t.
Proof.
  intros [t ->]%prefix_split. exists t. split; [done|]. unfold segments. change ("/" +:+ t)%string with (String (chr 47) t).
  cbn [split_on]. by rewrite bool_decide_true.
Qed.

Lemma join_segments s : join_path (split_on (chr 47) s) = ("/" +:+ s)%string.
Proof.
  induction s as [|d s IH]; [done|]. cbn [split_on]. case_bool_decide as Hd.
  - subst. change (join_path (""%string :: split_on (chr 47) s)) with ("/" +:+ join_path (split_on (chr 47) s))%string.
    rewrite IH. reflexivity.
  - destruct (split_on (chr 47) s) as [|h t] eqn:E; [by destruct s as [|d' s]; cbn in E; repeat case_match|].
    change (join_path (h :: t)) with (String (chr 47) (h +:+ join_path t)%string) in IH.
    change (join_path (String d h :: t)) with (String (chr 47) (String d (h +:+ join_path t)%string)).
    change ("/" +:+ s)%string with (String (chr 47) s) in IH.
    assert ((h +:+ join_path t)%string = s) as -> by congruence. reflexivity.
Qed.

(** A path with an empty last segment matches nothing; the others that cleaning
    keeps are proper. *)
Lemma clean_fixed path :
  cleanPath path = path → last (segments path) ≠ Some ""%string → segments path ≠ [] →
  path = join_path (segments path) ∧ forallb proper (segments path) = true.
Proof.
  intros Hc Hl Hne. assert (has_prefix path "/" = true) as Hp.
  { rewrite <- Hc. unfold cleanPath. case_bool_decide as He; [done|].
    assert (∀ l x, l ≠ [] → has_prefix (join_path l +:+ x)%string "/" = true) as Hj.
    { intros [|a l] x Hne'; [done|]. unfold has_prefix.
      change (join_path (a :: l)) with (("/" +:+ a) +:+ join_path l)%string. rewrite <- !str_app_assoc. apply prefix_app. }
    case_bool_decide; [by apply Hj|]. rewrite <- (str_app_nil (join_path _)). by apply Hj. }
  unfold cleanPath in Hc. rewrite Hp in Hc. rewrite (bool_decide_false (last _ = _)) in Hc by done.
  destruct (slash_path _ Hp) as (t & -> & Hs). rewrite Hs in *. rewrite join_segments. split; [done|].
  set (segs := split_on (chr 47) t) in *. case_bool_decide as He.
  { exfalso. injection Hc as <-. done. }
  assert (forallb proper (foldl clean_step [] segs) = true) as Hpr.
  { apply forallb_forall. intros x Hx%list_elem_of_In. unfold proper. apply andb_true_intro. split.
    - destruct (clean_from segs [] x Hx) as [?%elem_of_nil|Hin]; [done|]. by apply split_no_sep in Hin.
    - apply negb_true_iff, bool_decide_eq_false. destruct (clean_plain segs [] x) as (?&?&?); [|done|tauto].
      by intros y ?%elem_of_nil. }
  assert (segs = foldl clean_step [] segs) as ->; [|done].
  rewrite <- (segments_join _ Hpr He) at 1. by rewrite Hc.
Qed.

(** ** The table of the server *)

(** A pattern whose path begins with [/v1/]. *)
Definition versioned (r : Route) : bool :=
  match PSegs (parsed r) with Lit l :: _ :: _ => bool_decide (l = "v1"%string) | _ => false end.

Definition row_ok (r : Route) : bool :=
  forallb (λ s, match s with Lit l => proper l | Wild _ => true end) (PSegs (parsed r))
  && match PSegs (parsed r) with
     | [Lit l] => negb (bool_decide (l = "v1"%string))
     | Lit _ :: _ => true
     | _ => false
     end
  && bool_decide (PMethod (parsed r) ∈ ["GET"; "POST"; "DELETE"]%string).

Fixpoint apart (mux : Mux) : bool :=
  match mux with
  | [] => true
  | r :: mux => forallb (λ r', bool_decide (compare_patterns (parsed r) (parsed r') = disjoint)) mux && apart mux
  end.

Definition table_ok (m : option Mux) : bool := match m with Some mux => forallb row_ok mux && apart mux | None => false end.

Lemma start_table_ok metrics tenants : table_ok (start_mux metrics tenants) = true.
Proof. destruct metrics, tenants; vm_compute; reflexivity. Qed.

Lemma apart_spec mux r r' : apart mux = true → r ∈ mux → r' ∈ mux → r ≠ r' →
  compare_patterns (parsed r) (parsed r') = disjoint.
Proof.
  induction mux as [|x mux IH]; cbn [apart]; [by intros _ ?%elem_of_nil|]. intros [H1 H2]%andb_prop.
  rewrite forallb_forall in H1.
  assert (∀ y, y ∈ mux → compare_patterns (parsed x) (parsed y) = disjoint) as Hx
    by (intros y Hy%list_elem_of_In; by apply H1, bool_decide_eq_true in Hy).
  intros [->|Hr]%elem_of_cons [->|Hr']%elem_of_cons Hne; [done|by apply Hx| |by apply IH].
  rewrite compare_patterns_inverse. by rewrite (Hx r).
Qed.

Lemma start_mux_facts metrics tenants :
  ∃ mux, start_mux metrics tenants = Some mux ∧ conflict_free mux ∧ well_parsed mux ∧
    (∀ r, r ∈ mux → row_ok r = true) ∧
    (∀ r r', r ∈ mux → r' ∈ mux → r ≠ r' → compare_patterns (parsed r) (parsed r') = disjoint).
Proof.
  pose proof (start_table_ok metrics tenants) as H. unfold table_ok in H.
  destruct (start_mux metrics tenants) as [mux|] eqn:E; [|done]. exists mux. split; [done|].
  destruct (registered _ _ E) as [Hc Hw]. apply andb_prop in H as [H1 H2]. split; [done|]. split; [done|]. split.
  - intros r Hr%list_elem_of_In. rewrite forallb_forall in H1. by apply H1.
  - intros r r'. by apply apart_spec.
Qed.

Lemma fill_proper p vs segs :
  fill p vs = Some segs → forallb (λ s, match s with Lit l => proper l | Wild _ => true end) p = true →
  forallb proper vs = true → forallb proper segs = true.
Proof.
  revert vs segs. induction p as [|[l|n] p IH]; intros vs segs H Hp Hv; cbn in *.
  - destruct vs; [|done]. by simplify_eq.
  - apply andb_prop in Hp as [H1 H2]. destruct (fill p vs) as [segs'|] eqn:E; [|done]. cbn in H. simplify_eq. cbn.
    by rewrite H1, (IH vs segs').
  - destruct vs as [|v vs]; [done|]. cbn in Hv. apply andb_prop in Hv as [H1 H2].
    destruct (fill p vs) as [segs'|] eqn:E; [|done]. cbn in H. simplify_eq. cbn. by rewrite H1, (IH vs segs').
Qed.

(** The path under which a route is registered, with its wildcards filled. *)
Definition names_route (r : Route) (vs : list string) (path : string) : Prop :=
  ∃ segs, fill (PSegs (parsed r)) vs = Some segs ∧ forallb proper vs = true ∧ path = join_path segs.

Lemma fill_cons s p vs segs : fill (s :: p) vs = Some segs → ∃ y ys, segs = y :: ys.
Proof.
  destruct s as [l|n]; cbn; [|destruct vs as [|v vs]; [done|]]; destruct (fill p _) as [ys|]; try done; cbn; intros [= <-]; eauto.
Qed.

Lemma bind_no_empty p path vs :
  bind_path p path = Some vs → forallb (λ s, match s with Lit l => proper l | Wild _ => true end) p = true → p ≠ [] →
  last path ≠ Some ""%string ∧ path ≠ [].
Proof.
  intros Hb Hlit Hp. split.
  - intros Hl%last_Some_elem_of. clear Hp. revert path vs Hl Hb Hlit.
    induction p as [|[l|n] q IH]; intros [|seg p] vs Hl Hb Hlit; cbn in Hb; try done; try by apply elem_of_nil in Hl.
    all: cbn [forallb] in Hlit; apply andb_prop in Hlit as [H1 H2]; case_bool_decide; try done.
    + subst. apply elem_of_cons in Hl as [<-|Hl]; [done|]. by apply (IH p vs).
    + destruct (bind_path q p) as [vs'|] eqn:E; [|done]. apply elem_of_cons in Hl as [<-|Hl]; [done|]. by apply (IH p vs').
  - intros ->. by destruct p as [|[] ?].
Qed.

Lemma names_handled metrics tenants mux r vs method path :
  start_mux metrics tenants = Some mux →
  findHandler mux method path = Handled r vs ↔
  r ∈ mux ∧ answers_method (PMethod (parsed r)) method ∧ names_route r vs path.
Proof.
  destruct (start_mux_facts metrics tenants) as (mux' & E & Hc & Hw & Hok & Hap). intros E'. rewrite E in E'.
  injection E' as ->. clear E. rewrite find_handled. split.
  - intros [H Hclean]. destruct (found_most_specific _ _ _ _ _ Hc H) as (Hr & Hm & Hb & _).
    repeat split; try done. pose proof (Hok r Hr) as Hrow. unfold row_ok in Hrow.
    apply andb_prop in Hrow as [[Hlit Hhead]%andb_prop Hmeth]. apply bool_decide_eq_true in Hmeth.
    assert (method ≠ "CONNECT"%string) as Hnc
      by (destruct Hm as [<-|[_ ->]]; [intros Hx; rewrite Hx in Hmeth; set_solver|done]).
    destruct Hclean as [|Hclean]; [done|]. destruct (fill_bind _ _ _ Hb) as [Hf Hin].
    destruct (bind_no_empty _ _ _ Hb Hlit) as [Hl Hne]; [by destruct (PSegs (parsed r))|].
    destruct (clean_fixed _ Hclean Hl Hne) as [Hj Hp]. exists (segments path). repeat split; [done| |done].
    apply forallb_forall. intros v Hv%list_elem_of_In. rewrite forallb_forall in Hp. by apply Hp, list_elem_of_In, Hin.
  - intros (Hr & Hm & segs & Hf & Hv & ->). pose proof (Hok r Hr) as Hrow. unfold row_ok in Hrow.
    apply andb_prop in Hrow as [[Hlit Hhead]%andb_prop _].
    assert (forallb proper segs = true) as Hp by (by eapply fill_proper).
    assert (segs ≠ []) as Hne.
    { intros ->. destruct (PSegs (parsed r)) as [|s p]; [done|]. by destruct (fill_cons _ _ _ _ Hf) as (? & ? & ?). }
    rewrite (segments_join segs), (clean_join segs) by done. split; [|by right].
    assert (bind_path (PSegs (parsed r)) segs = Some vs) as Hb by (by apply bind_fill).
    destruct (of_method_complete mux method segs r Hr) as [[r0 vs0] H]; [split; [done|by rewrite Hb]|].
    destruct (found_most_specific _ _ _ _ _ Hc H) as (Hr0 & _ & Hb0 & Hall).
    destruct (decide (r = r0)) as [->|Hne']; [congruence|].
    destruct (Hall r Hr) as [->|Hs]; [split; [done|by rewrite Hb]|done|].
    rewrite (Hap r0 r) in Hs by done. done.
Qed.

Lemma v1Alias_path req :
  (∃ t, Path req = ("/v1/" +:+ t)%string ∧ Path (fst (v1Alias req)) = ("/" +:+ t)%string) ∨
  (has_prefix (Path req) "/v1/" = false ∧ Path (fst (v1Alias req)) = Path req).
Proof.
  unfold v1Alias. destruct (has_prefix (Path req) "/v1/") eqn:E; [left|by right].
  destruct (prefix_split _ _ E) as [t Ht]. exists t. split; [done|]. cbn [fst with_path Path]. rewrite Ht.
  exact (substring_whole ("/" +:+ t)%string).
Qed.

Lemma versioned_prefix r vs path :
  row_ok r = true → names_route r vs path → has_prefix path "/v1/" = versioned r.
Proof.
  unfold row_ok, versioned. intros [[Hlit Hhead]%andb_prop _]%andb_prop (segs & Hf & Hv & ->).
  pose proof (fill_proper _ _ _ Hf Hlit Hv) as Hp.
  destruct (PSegs (parsed r)) as [|[l|n] p]; [done| |done]. cbn in Hf.
  destruct (fill p vs) as [segs'|] eqn:E; [|done]. cbn in Hf. injection Hf as <-.
  destruct (bool_decide (l = "v1"%string)) eqn:El.
  - apply bool_decide_eq_true in El. subst. destruct p as [|s p]; [done|].
    destruct (fill_cons _ _ _ _ E) as (y & ys & ->).
    unfold has_prefix. change (join_path _) with ("/v1/" +:+ (y +:+ join_path ys))%string. apply prefix_app.
  - assert (has_prefix (join_path (l :: segs')) "/v1/" = false) as ->; [|by destruct p].
    destruct (has_prefix _ _) eqn:Ex; [|done]. destruct (prefix_split _ _ Ex) as [t Ht].
    apply (f_equal segments) in Ht. rewrite segments_join in Ht by done. unfold segments in Ht.
    change ("/v1/" +:+ t)%string with (String (chr 47) ("v1" +:+ String (chr 47) t)%string) in Ht. cbn [split_on] in Ht.
    rewrite bool_decide_true in Ht by done. rewrite split_on_app in Ht by done. cbn [tail] in Ht.
    apply cons_inv in Ht as [-> _]. by rewrite bool_decide_true in El.
Qed.

Lemma serve_exact metrics tenants mux req r vs :
  start_mux metrics tenants = Some mux →
  serve mux req = Handled r vs ↔
    r ∈ mux ∧ answers_method (PMethod (parsed r)) (Method req) ∧
    ((∃ path, names_route r vs path ∧ Path req = ("/v1" +:+ path)%string) ∨
     (versioned r = false ∧ names_route r vs (Path req))).
Proof.
  intros E. destruct (start_mux_facts metrics tenants) as (mux' & E' & _ & _ & Hok & _).
  rewrite E in E'. injection E' as <-. unfold serve. rewrite (names_handled _ _ _ _ _ _ _ E). clear E. split.
  - intros (Hr & Hm & Hn). split; [done|]. split; [done|].
    destruct (v1Alias_path req) as [(t & Ht & Ht')|[Hp Hq]].
    + left. exists ("/" +:+ t)%string. split; [by rewrite <- Ht'|exact Ht].
    + right. rewrite Hq in Hn. split; [|done]. by rewrite <- (versioned_prefix r vs _ (Hok r Hr) Hn).
  - intros (Hr & Hm & Hn). split; [done|]. split; [done|].
    destruct (v1Alias_path req) as [(t & Ht & Ht')|[Hp Hq]], Hn as [(path & Hn & Hpath)|[Hv Hn]].
    + rewrite Ht'. rewrite Ht in Hpath. change ("/v1/" +:+ t)%string with ("/v1" +:+ ("/" +:+ t))%string in Hpath.
      apply str_app_cancel in Hpath. by rewrite Hpath.
    + exfalso. pose proof (versioned_prefix r vs _ (Hok r Hr) Hn) as Hx. rewrite Hv, Ht in Hx.
      unfold has_prefix in Hx. by rewrite prefix_app in Hx.
    + exfalso. rewrite Hpath in Hp. destruct Hn as (segs & Hf & _ & ->). destruct segs as [|s segs].
      * pose proof (Hok r Hr) as Hrow. unfold row_ok in Hrow. apply andb_prop in Hrow as [[_ Hh]%andb_prop _].
        destruct (PSegs (parsed r)) as [|x p]; [done|]. by destruct (fill_cons _ _ _ _ Hf) as (? & ? & ?).
      * change ("/v1" +:+ join_path (s :: segs))%string with ("/v1/" +:+ (s +:+ join_path segs))%string in Hp.
        unfold has_prefix in Hp. by rewrite prefix_app in Hp.
    + by rewrite Hq.
Qed.

(** C31. [Start] registers its table without a conflict in every configuration, and
    a request reaches a handler exactly when its method is the route's, or HEAD for
    GET, and its path is the route's with non-empty plain segments for the
    wildcards, under [/v1] or, for the patterns that do not begin with [/v1/]
    themselves, as it stands. So the routes registered under [/v1/] answer under
    [/v1/v1/] only. *)
Theorem routes_exact metrics tenants :
  ∃ mux, start_mux metrics tenants = Some mux ∧
    ∀ req r vs, serve mux req = Handled r vs ↔
      r ∈ mux ∧ answers_method (PMethod (parsed r)) (Method req) ∧
      ((∃ path, names_route r vs path ∧ Path req = ("/v1" +:+ path)%string) ∨
       (versioned r = false ∧ names_route r vs (Path req))).
Proof.
  destruct (start_mux_facts metrics tenants) as (mux & E & _). exists mux. split; [exact E|].
  intros req r vs. by apply (serve_exact metrics tenants).
Qed.

(** The router sees a path and its alias under [/v1] alike. *)
Lemma alias_join segs req :
  forallb proper segs = true → segs ≠ [] → head segs ≠ Some "v1"%string →
  Path req = join_path segs ∨ Path req = ("/v1" +:+ join_path segs)%string →
  Path (fst (v1Alias req)) = join_path segs.
Proof.
  intros Hp Hne Hh Hpath. destruct (v1Alias_path req) as [(t & Ht & Ht')|[Hx Hq]].
  - rewrite Ht'. rewrite Ht in Hpath. destruct Hpath as [Hj|Hj].
    + apply (f_equal segments) in Hj. rewrite segments_join in Hj by done. unfold segments in Hj.
      change ("/v1/" +:+ t)%string with (String (chr 47) ("v1" +:+ String (chr 47) t)%string) in Hj. cbn [split_on] in Hj.
      rewrite bool_decide_true in Hj by done. rewrite split_on_app in Hj by done. cbn [tail] in Hj. by rewrite <- Hj in Hh.
    + change ("/v1/" +:+ t)%string with ("/v1" +:+ ("/" +:+ t))%string in Hj. by apply str_app_cancel in Hj.
  - rewrite Hq. destruct Hpath as [Hj|Hj]; [done|]. rewrite Hj in Hx. destruct segs as [|s segs]; [done|].
    change ("/v1" +:+ join_path (s :: segs))%string with ("/v1/" +:+ (s +:+ join_path segs))%string in Hx.
    unfold has_prefix in Hx. by rewrite prefix_app in Hx.
Qed.

Lemma register_patterns table : ∀ mux mux', register mux table = Some mux' → pattern <$> mux' = (pattern <$> mux) ++ table.*1.
Proof.
  induction table as [|[pat h] table IH]; intros mux mux'; cbn [register]; [intros [= <-]; by rewrite app_nil_r|].
  unfold HandleFunc. destruct (parsePattern pat) as [p|]; [|done]. cbn. destruct (existsb _ mux); [done|]. cbn.
  intros H. rewrite (IH _ _ H), fmap_app, <- app_assoc. done.
Qed.

(** A call to a registered pattern is handled by its route. *)
Lemma route_reached metrics tenants mux pat P vs segs req :
  start_mux metrics tenants = Some mux → pat ∈ (start_table metrics tenants).*1 → parsePattern pat = Some P →
  fill (PSegs P) vs = Some segs → forallb proper vs = true → head segs ≠ Some "v1"%string → Method req = PMethod P →
  Path req = join_path segs ∨ Path req = ("/v1" +:+ join_path segs)%string →
  ∃ r, serve mux req = Handled r vs ∧ pattern r = pat.
Proof.
  intros E Hpat HP Hf Hv Hh Hm Hpath. pose proof (register_patterns _ _ _ E) as Hps. rewrite fmap_nil, app_nil_l in Hps. rewrite <- Hps in Hpat.
  apply list_elem_of_fmap in Hpat as (r & -> & Hr). exists r. split; [|done].
  destruct (start_mux_facts metrics tenants) as (mux' & E' & _ & Hw & Hok & _). rewrite E in E'. injection E' as <-.
  rewrite (Hw r Hr) in HP. injection HP as <-. pose proof (Hok r Hr) as Hrow. unfold row_ok in Hrow.
  apply andb_prop in Hrow as [[Hl Hhead]%andb_prop _].
  assert (segs ≠ []) as Hne.
  { intros ->. destruct (PSegs (parsed r)) as [|s p]; [done|]. by destruct (fill_cons _ _ _ _ Hf) as (? & ? & ?). }
  unfold serve. rewrite (alias_join segs req); [|by eapply fill_proper|done..].
  apply (proj2 (names_handled _ _ _ _ _ _ _ E)). split; [exact Hr|]. split; [left; by rewrite Hm|].
  exists segs. split; [exact Hf|]. split; [exact Hv|reflexivity].
Qed.

(** A path that no pattern of the table can match. *)
Lemma unrouted metrics tenants mux p segs req :
  start_mux metrics tenants = Some mux →
  forallb (λ r, bool_decide (compare_paths p (PSegs (parsed r)) = disjoint)) mux = true →
  is_Some (bind_path p segs) → forallb proper segs = true → segs ≠ [] → head segs ≠ Some "v1"%string →
  Path req = join_path segs ∨ Path req = ("/v1" +:+ join_path segs)%string →
  ∀ r vs, serve mux req ≠ Handled r vs.
Proof.
  intros E Hd Hb Hp Hne Hh Hpath r vs H. unfold serve in H. rewrite (alias_join segs req) in H by done.
  apply (names_handled _ _ _ _ _ _ _ E) in H as (Hr & _ & segs' & Hf & Hv & Hj).
  destruct (start_mux_facts metrics tenants) as (mux' & E' & _ & _ & Hok & _). rewrite E in E'. injection E' as <-. clear E.
  pose proof (Hok r Hr) as Hrow. unfold row_ok in Hrow. apply andb_prop in Hrow as [[Hl Hhead]%andb_prop _].
  apply (f_equal segments) in Hj. rewrite segments_join in Hj by done. rewrite segments_join in Hj.
  - subst segs'. rewrite forallb_forall in Hd. apply list_elem_of_In, Hd, bool_decide_eq_true in Hr. revert Hr.
    apply (compare_paths_common _ _ segs); [done|]. by rewrite (bind_fill _ _ _ Hf).
  - by eapply fill_proper.
  - intros ->. destruct (PSegs (parsed r)) as [|s q]; [done|]. by destruct (fill_cons _ _ _ _ Hf) as (? & ? & ?).
Qed.

(** No route answers under the name of a versioned one, whose prefix the aliasing
    takes away; the alias of the metrics is the exception. *)
Definition unserved (mux : Mux) (r : Route) : bool :=
  negb (versioned r) || bool_decide (pattern r = "GET /v1/metrics"%string)
  || forallb (λ r', bool_decide (compare_paths (tail (PSegs (parsed r))) (PSegs (parsed r')) = disjoint)) mux.

Lemma start_unserved metrics tenants :
  match start_mux metrics tenants with Some mux => forallb (unserved mux) mux | None => false end = true.
Proof. destruct metrics, tenants; vm_compute; reflexivity. Qed.

Lemma versioned_unserved metrics tenants mux r vs req :
  start_mux metrics tenants = Some mux → r ∈ mux → versioned r = true → pattern r ≠ "GET /v1/metrics"%string →
  names_route r vs (Path req) → ∀ r' vs', serve mux req ≠ Handled r' vs'.
Proof.
  intros E Hr Hv Hm Hn r' vs' H. unfold serve in H. apply (names_handled _ _ _ _ _ _ _ E) in H as (Hr' & _ & Hn').
  pose proof (start_unserved metrics tenants) as Hu. rewrite E, forallb_forall in Hu.
  destruct (start_mux_facts metrics tenants) as (mux' & E' & _ & _ & Hok & _). rewrite E in E'. injection E' as <-.
  clear E. apply list_elem_of_In in Hr as Hu'. apply Hu in Hu'. unfold unserved in Hu'.
  rewrite Hv, (bool_decide_false (pattern r = _)) in Hu' by done. cbn [negb orb] in Hu'. rewrite forallb_forall in Hu'.
  apply list_elem_of_In in Hr' as Hd. apply Hu', bool_decide_eq_true in Hd. revert Hd.
  destruct (v1Alias_path req) as [(t & Ht & Ht')|[Hp _]];
    [|rewrite (versioned_prefix r vs _ (Hok r Hr) Hn), Hv in Hp; discriminate].
  rewrite Ht' in Hn'. rewrite Ht in Hn. destruct Hn as (segs & Hf & Hvs & Hj), Hn' as (segs' & Hf' & Hvs' & Hj').
  pose proof (Hok r Hr) as H1. pose proof (Hok r' Hr') as H2. unfold row_ok in H1, H2.
  apply andb_prop in H1 as [[H1 _]%andb_prop _], H2 as [[H2 Hh]%andb_prop _].
  assert (segs' ≠ []) as Hne.
  { intros ->. destruct (PSegs (parsed r')) as [|s p]; [done|]. by destruct (fill_cons _ _ _ _ Hf') as (? & ? & ?). }
  assert (segs = "v1"%string :: segs') as ->.
  { apply (f_equal segments) in Hj, Hj'. rewrite (segments_join segs' (fill_proper _ _ _ Hf' H2 Hvs') Hne) in Hj'.
    rewrite (segments_join segs (fill_proper _ _ _ Hf H1 Hvs)) in Hj; [|by intros ->]. by rewrite <- Hj, <- Hj'. }
  unfold versioned in Hv. destruct (PSegs (parsed r)) as [|[l|n] p]; try done. cbn [tail]. cbn in Hf.
  destruct (fill p vs) as [ps|] eqn:Ep; [|done]. injection Hf as -> ->.
  apply (compare_paths_common _ _ segs'); [by rewrite (bind_fill _ _ _ Ep)|by rewrite (bind_fill _ _ _ Hf')].
Qed.

(** ** What a key with read grants reaches *)

(** The routes that change something, or compute, and ask a scoped key for no
    scope or for a read scope. *)
Definition open_to_readers : list string :=
  ["POST /verify/batch"; "POST /inference/judge"; "POST /zk/verify-groth16-sim"; "POST /zk/batch-verify-sim";
   "POST /decisions/log"; "POST /auth/siwe/challenge"; "POST /auth/siwe/verify"; "POST /admin/tenants";
   "POST /admin/tenants/{id}/keys"; "POST /admin/tenants/{id}/keys/revoke"; "POST /v1/quorum/signers";
   "POST /v1/quorum/signers/{id}/slash"; "POST /v1/quorum/signers/{id}/retire"; "POST /v1/quorum/verify";
   "POST /v1/aggregation/merkle-aggregate"; "POST /v1/aggregation/merkle-inclusion"; "POST /v1/aggregation/merkle-verify";
   "POST /kyc/check"; "POST /inference/verify"; "POST /zk/groth16-real/verify"; "POST /zk/verify-groth16";
   "POST /zk/batch-verify"; "POST /v1/zk/verify"; "POST /proof-chain/validate"; "POST /pq/verify-sphincs";
   "POST /pq/hybrid-verify"; "POST /v1/pq/keys/verify"; "POST /v1/aggregation/verify-fold"]%string.

Definition reader_ok (r : Route) : bool :=
  bool_decide (trim_space (pattern r) = pattern r)
  && (bool_decide (PMethod (parsed r) = "GET"%string) || bool_decide (pattern r ∈ open_to_readers)
      || negb (bool_decide (required_scope (pattern r) = ""%string) || has_suffix (required_scope (pattern r)) ":read")).

Lemma start_reader_ok metrics tenants :
  match start_mux metrics tenants with Some mux => forallb reader_ok mux | None => false end = true.
Proof. destruct metrics, tenants; vm_compute; reflexivity. Qed.

(** Grants of the form resource:read cover only themselves. *)
Lemma read_grant_exact granted required :
  (∀ g, g ∈ granted → has_suffix g ":read" = true) → hasScope granted required = true →
  required = ""%string ∨ has_suffix required ":read" = true.
Proof.
  unfold hasScope. intros Hg [H|H]%orb_prop; [left; by apply bool_decide_eq_true in H|right].
  apply existsb_exists in H as (g & Hin%list_elem_of_In & Hc). specialize (Hg g Hin).
  unfold scope_covers in Hc. apply orb_prop in Hc as [[Hc|Hc]%orb_prop|[Hc _]%andb_prop].
  - apply bool_decide_eq_true in Hc. subst. by vm_compute in Hg.
  - apply bool_decide_eq_true in Hc. by subst.
  - pose proof (has_suffix_last g ":read" ":*" (chr 100) (chr 42) eq_refl eq_refl Hg Hc). done.
Qed.

(** A key whose grants are all resource:read reaches, of the handlers that are not
    plain reads, only those of [open_to_readers]. *)
Theorem read_only_reach metrics tenants mux s clock r s' route vs r' t tag reg e :
  start_mux metrics tenants = Some mux →
  answer_request mux s clock r = (s', Dispatched (Handled route vs) r' t tag) →
  s_scopes s = Some reg → scope_lookup reg (trim_space (APIKey r')) = Some e →
  (∀ g, g ∈ Scopes e → has_suffix g ":read" = true) →
  PMethod (parsed route) = "GET"%string ∨ pattern route ∈ open_to_readers.
Proof.
  intros Hmux H Hreg He Hg.
  assert (∀ q, q ∈ mux → reader_ok q = true) as Hok.
  { pose proof (start_reader_ok metrics tenants) as Hok. rewrite Hmux, forallb_forall in Hok.
    intros q Hq%list_elem_of_In. by apply Hok. }
  assert (∀ m p, findHandler mux m p = Handled route vs → route ∈ mux) as Hin
    by (intros m p Hf; apply (names_handled _ _ _ _ _ _ _ Hmux) in Hf; apply Hf).
  clear Hmux. unfold answer_request in H.
  destruct (admission (muxPattern mux) s clock r) as [s1 o] eqn:Ea. destruct o as [| | |q t' tag']; try done.
  injection H as <- Hf <- <- <-. apply admit_forwarded in Ea as (_ & _ & _ & _ & _ & _ & Hs & _).
  specialize (Hs reg e Hreg He). unfold muxPattern in Hs. rewrite Hf in Hs.
  apply Hin, Hok in Hf. unfold reader_ok in Hf.
  apply andb_prop in Hf as [Htrim Hcase]. apply bool_decide_eq_true in Htrim. rewrite Htrim in Hs.
  apply orb_prop in Hcase as [[Hc|Hc]%orb_prop|Hc]; [left; by apply bool_decide_eq_true in Hc|right; by apply bool_decide_eq_true in Hc|].
  exfalso. apply negb_true_iff, orb_false_iff in Hc as [H1 H2]. apply bool_decide_eq_false in H1.
  destruct (read_grant_exact _ _ Hg Hs) as [Hx|Hx]; congruence.
Qed.

(** ** Witnesses *)

Definition ex_mux : Mux := default [] (start_mux true true).

Definition ex_slash : Route :=
  {| pattern := "POST /v1/quorum/signers/{id}/slash";
     parsed := {| PMethod := "POST"; PSegs := [Lit "v1"; Lit "quorum"; Lit "signers"; Wild "id"; Lit "slash"] |};
     handler := "quorumSlashSigner" |}.

Definition ex_slash_path : string := "/v1/quorum/signers/bls-1/slash".

Lemma pair_snd {A B} (p : A * B) y : snd p = y → p = (fst p, y).
Proof. destruct p. by intros <-. Qed.

(** A key that may only read proofs slashes a quorum signer. *)
Lemma read_only_reach_witness :
  snd (answer_request ex_mux ex_server ex_clock (ex_request "POST" ("/v1" +:+ ex_slash_path) "sk_ro" "")) =
    Dispatched (Handled ex_slash ["bls-1"%string]) (ex_request "POST" ex_slash_path "sk_ro" "") None None
  ∧ (PMethod (parsed ex_slash) = "GET"%string ∨ pattern ex_slash ∈ open_to_readers).
Proof.
  match goal with |- ?P ∧ _ => assert P as E end; [vm_compute; reflexivity|]. split; [exact E|].
  eapply (read_only_reach true true ex_mux ex_server ex_clock _ _ ex_slash ["bls-1"%string] _ None None _ ex_key);
    [vm_compute; reflexivity|apply pair_snd, E|reflexivity|vm_compute; reflexivity|].
  clear E. intros g Hg. repeat (apply elem_of_cons in Hg as [->|Hg]; [reflexivity|]). destruct (proj1 (elem_of_nil g) Hg).
Defined.

(** The webhook routes as their clients call them, and as the server knows them. *)
Lemma webhooks_by_name :
  serve ex_mux (ex_request "GET" "/v1/webhooks" "" "") = NotFound ∧
  serve ex_mux (ex_request "POST" "/v1/pq/keys/sign" "" "") = NotFound ∧
  match serve ex_mux (ex_request "GET" "/v1/v1/webhooks" "" "") with Handled r [] => handler r = "webhooksList"%string | _ => False end.
Proof. split; [vm_compute; reflexivity|]. split; vm_compute; reflexivity. Qed.
