(* ===== verification/OpenApi.v ===== *)
(** * The published description of the API ([engine/internal/api/openapi.go])

    The list of routes behind [GET /v1/openapi.json] and [GET /v1/routes]: it is
    built from the table of scopes, not from the router, and sorted, so the
    iteration order of the table (an argument here) does not matter. The document
    is a JSON value; a Go map in it is an object with sorted keys. *)

From S2P Require Import Prelude GoLib Json JsonFacts Expo Tenant Guard Webhooks Routes.

Local Open Scope Z_scope.

Definition openAPIVersion : string := "3.1.0".

Record openAPIRoute := { o_method : string; o_path : string; o_pattern : string; o_scope : string; o_summary : string }.

(** [strings.TrimPrefix], and [strings.ReplaceAll] of a character by nothing. *)
Definition trim_prefix (s p : string) : string :=
  if has_prefix s p then String.substring (String.length p) (String.length s - String.length p) s else s.
Fixpoint drop_char (c : Ascii.ascii) (s : string) : string :=
  match s with
  | EmptyString => EmptyString
  | String d s => if bool_decide (d = c) then drop_char c s else String d (drop_char c s)
  end.

Definition splitPattern (pat : string) : string * string :=
  match cut_at (chr 32) pat with Some (m, p) => (m, p) | None => ("GET"%string, pat) end.

Definition humanizePattern (pat : string) : string :=
  let '(method, path) := splitPattern pat in
  let trimmed := trim_prefix (trim_prefix path "/v1") "/" in
  let trimmed := string_map (λ c, if bool_decide (c = chr 47) then chr 32 else c) trimmed in
  let trimmed := drop_char (chr 125) (drop_char (chr 123) trimmed) in
  (if bool_decide (method = "POST"%string) then "Create/execute " +:+ trimmed
   else if bool_decide (method = "GET"%string) then "Read " +:+ trimmed
   else if bool_decide (method = "PUT"%string) then "Update " +:+ trimmed
   else if bool_decide (method = "DELETE"%string) then "Delete " +:+ trimmed
   else method +:+ " " +:+ trimmed)%string.

Definition extras : list (string * string) :=
  [("GET /health", "Liveness probe. Returns build metadata and uptime.");
   ("GET /v1/openapi.json", "Auto-generated OpenAPI 3.1 document.");
   ("GET /v1/routes", "Debug: list of registered routes with their required scopes.")]%string.

Definition extra_row (e : string * string) : openAPIRoute :=
  let '(method, path) := splitPattern (fst e) in
  {| o_method := method; o_path := path; o_pattern := fst e; o_scope := ""; o_summary := snd e |}.

Definition scope_row (e : string * string) : openAPIRoute :=
  let '(method, path) := splitPattern (fst e) in
  {| o_method := method; o_path := path; o_pattern := fst e; o_scope := snd e; o_summary := humanizePattern (fst e) |}.

Definition route_less (a b : openAPIRoute) : bool :=
  if bool_decide (o_path a = o_path b) then string_ltb (o_method a) (o_method b) else string_ltb (o_path a) (o_path b).

(** [order]: the iteration order of [routeScopes]. *)
Definition enumerateRoutes (order : list (string * string)) : list openAPIRoute :=
  sort_slice route_less ((extra_row <$> extras) ++ (scope_row <$> order)).

(** ** The document *)

(** The names between braces, in order; [depth] may go below zero. *)
Fixpoint pathParams_loop (path : string) (depth : Z) (buf : string) : list string :=
  match path with
  | EmptyString => []
  | String c path =>
      if bool_decide (c = chr 123) then pathParams_loop path (depth + 1) ""
      else if bool_decide (c = chr 125) then
        (if 0 <? depth then [buf] else []) ++ pathParams_loop path (depth - 1) buf
      else pathParams_loop path depth (if 0 <? depth then (buf +:+ String c "")%string else buf)
  end.

Definition path_param (name : string) : json :=
  gomap [("name", JStr name); ("in", JStr "path"); ("required", JBool true); ("schema", gomap [("type", JStr "string")])]%string.

Definition pathParams (path : string) : json := JArr (path_param <$> pathParams_loop path 0 "").

Definition openAPIDescription (rt : openAPIRoute) : string :=
  if bool_decide (o_scope rt = ""%string) then "Open endpoint — no scope required."%string
  else ("Requires X-API-Key with scope `" +:+ o_scope rt +:+ "`.")%string.

Definition json_content (schema : json) : json := gomap [("application/json"%string, gomap [("schema"%string, schema)])].

Definition responseObject (desc : string) : json :=
  gomap [("description", JStr desc); ("content", json_content (gomap [("$ref", JStr "#/components/schemas/Error")]))]%string.

(** [routeSchemas] is empty. *)
Definition genericObjectSchema : json := gomap [("type", JStr "object"); ("additionalProperties", JBool true)]%string.

Definition operation (rt : openAPIRoute) : json :=
  gomap (app [("summary", JStr (o_summary rt)); ("description", JStr (openAPIDescription rt));
          ("parameters", pathParams (o_path rt));
          ("responses", gomap [("200", responseObject "Success"); ("400", responseObject "Invalid request");
                               ("401", responseObject "Missing or invalid X-API-Key");
                               ("403", responseObject "Missing required scope"); ("404", responseObject "Not found");
                               ("500", responseObject "Server error")]);
          ("security", JArr (if bool_decide (o_scope rt = ""%string) then []
                             else [gomap [("ApiKeyAuth", JArr [JStr (o_scope rt)])]]))]
          (if bool_decide (o_method rt ∈ ["POST"; "PUT"])
           then [("requestBody", gomap [("required", JBool true); ("content", json_content genericObjectSchema)])]
           else []))%string.

(** The operations, by path and lower-case method. *)
Definition add_operation (paths : gmap string (gmap string json)) (rt : openAPIRoute) : gmap string (gmap string json) :=
  <[o_path rt := <[to_lower (o_method rt) := operation rt]> (default ∅ (paths !! o_path rt))]> paths.

Definition openapi_paths (routes : list openAPIRoute) : gmap string (gmap string json) := foldl add_operation ∅ routes.

Definition typed (t : string) : json := gomap [("type"%string, JStr t)].

Definition webhookSubscriptionSchema : json :=
  let dated := gomap [("type", JStr "string"); ("format", JStr "date-time")]%string in
  gomap [("type", JStr "object");
         ("properties", gomap [("id", typed "string"); ("url", gomap [("type", JStr "string"); ("format", JStr "uri")]);
            ("events", gomap [("type", JStr "array"); ("items", typed "string")]); ("created_at", dated);
            ("attempts", typed "integer"); ("deliveries", typed "integer"); ("failures", typed "integer");
            ("last_attempt_at", dated); ("last_status_code", typed "integer"); ("last_error", typed "string")]);
         ("required", JArr (JStr <$> ["id"; "url"; "events"; "created_at"]))]%string.

Definition openAPIWebhookEnum : json :=
  gomap [("events", JArr (JStr <$> KnownWebhookEvents));
         ("headers", gomap [("X-CP-Signature", JStr "sha256=<hex HMAC-SHA256 of body with subscription secret>");
            ("X-CP-Timestamp", JStr "RFC3339 dispatch timestamp"); ("X-CP-Event", JStr "event kind, matches events enum");
            ("X-CP-Delivery", JStr "per-attempt id: <subscription_id>-<seq>")])]%string.

Definition api_description : string :=
  "Verifiable-compute API. Every mutating call requires X-API-Key; scoped keys additionally restrict which endpoints a caller may invoke.".

Definition GenerateOpenAPI (order : list (string * string)) : json :=
  gomap [("openapi", JStr openAPIVersion);
         ("info", gomap [("title", JStr "CasperProver API"); ("version", JStr "1.0.0"); ("description", JStr api_description);
                         ("contact", gomap [("name", JStr "anna-stolbovskaja")])]);
         ("servers", JArr [gomap [("url", JStr "/"); ("description", JStr "This host")]]);
         ("security", JArr [gomap [("ApiKeyAuth", JArr [])]]);
         ("components", gomap [
            ("securitySchemes", gomap [("ApiKeyAuth", gomap [("type", JStr "apiKey"); ("in", JStr "header"); ("name", JStr "X-API-Key")])]);
            ("schemas", gomap [
               ("Error", gomap [("type", JStr "object"); ("properties", gomap [("error", typed "string")]); ("required", JArr [JStr "error"])]);
               ("WebhookSubscription", webhookSubscriptionSchema)])]);
         ("paths", JObj (by_key (λ p ops, (p, JObj (by_key pair ops))) (openapi_paths (enumerateRoutes order))));
         ("x-webhooks", openAPIWebhookEnum)]%string.

(** [routesHandler] *)
Definition route_json (rt : openAPIRoute) : json :=
  JObj (concat
    [[("method", JStr (o_method rt)); ("path", JStr (o_path rt)); ("pattern", JStr (o_pattern rt))];
     if bool_decide (o_scope rt = "") then [] else [("scope", JStr (o_scope rt))];
     [("summary", JStr (o_summary rt))]])%string.

Definition routes_response (order : list (string * string)) : json :=
  let routes := enumerateRoutes order in
  JObj [("count", JInt (Z.of_nat (length routes))); ("routes", JArr (route_json <$> routes))]%string.

(** ** The order of the list *)

#[export] Instance route_less_swo : StrictWeakOrder route_less.
Proof.
  assert (∀ x y, route_less x y = false ↔
    string_ltb (o_path x) (o_path y) = false ∧
    (o_path x = o_path y → string_ltb (o_method x) (o_method y) = false)) as Hf.
  { intros x y. unfold route_less. case_bool_decide as H; [|tauto].
    rewrite H. split; [|tauto]. intros ->. split; [|done]. apply string_ltb_false. by left. }
  split.
  - intros x y H. apply Hf. unfold route_less in H. case_bool_decide as E.
    + split; [apply string_ltb_false; by left|]. intros _. by apply (swo_asym (λ a b, string_ltb (o_method a) (o_method b))).
    + apply (swo_asym (λ a b, string_ltb (o_path a) (o_path b))) in H. split; [done|]. intros ?. congruence.
  - intros x y z [H1 H2]%Hf [H3 H4]%Hf. apply Hf. split.
    + by apply (swo_negtrans (λ a b, string_ltb (o_path a) (o_path b)) x y z).
    + intros E. rewrite E in H1. pose proof (string_not_after_antisym _ _ H3 H1) as E'.
      apply (swo_negtrans (λ a b, string_ltb (o_method a) (o_method b)) x y z); [|by apply H4].
      apply H2. congruence.
Qed.

Definition row_key (rt : openAPIRoute) : string * string := (o_path rt, to_lower (o_method rt)).

Definition rows (order : list (string * string)) : list openAPIRoute := (extra_row <$> extras) ++ (scope_row <$> order).

Fixpoint distinct {A} `{EqDecision A} (l : list A) : bool :=
  match l with [] => true | x :: l => bool_decide (x ∉ l) && distinct l end.

Lemma distinct_NoDup {A} `{EqDecision A} (l : list A) : distinct l = true → NoDup l.
Proof.
  induction l as [|x l IH]; cbn [distinct]; intros H; constructor; apply andb_prop in H as [H1 H2].
  - by apply bool_decide_eq_true in H1.
  - by apply IH.
Qed.

Lemma row_keys_distinct : NoDup (row_key <$> rows routeScopes).
Proof. apply distinct_NoDup. vm_compute. reflexivity. Qed.

Lemma row_unique l x y : NoDup (row_key <$> l) → x ∈ l → y ∈ l → row_key x = row_key y → x = y.
Proof.
  intros H Hx Hy E. apply list_elem_of_lookup in Hx as [i Hi], Hy as [j Hj].
  assert (i = j) as <-; [|congruence]. apply (NoDup_lookup _ i j (row_key x) H); rewrite list_lookup_fmap; [by rewrite Hi|].
  by rewrite Hj, E.
Qed.

Lemma enumerate_perm order : order ≡ₚ routeScopes → enumerateRoutes order = enumerateRoutes routeScopes.
Proof.
  intros Hp. symmetry. apply (sort_slice_unique route_less (rows routeScopes) (rows order)); [|unfold rows; by rewrite Hp].
  intros x y Hx Hy H1 H2. apply (row_unique (rows routeScopes) x y row_keys_distinct Hx Hy). unfold not_after, route_less in H1, H2. unfold row_key.
  rewrite (bool_decide_ext (o_path y = o_path x) (o_path x = o_path y)) in H1 by done.
  case_bool_decide as E; [|destruct E; by apply string_not_after_antisym].
  rewrite E. by rewrite (string_not_after_antisym _ _ H1 H2).
Qed.

Lemma elem_of_enumerate rt : rt ∈ enumerateRoutes routeScopes ↔ rt ∈ rows routeScopes.
Proof. unfold enumerateRoutes. by rewrite elem_of_sort_slice. Qed.

(** ** The operations of the document *)

Lemma fold_operations l : ∀ paths p m,
  NoDup (row_key <$> l) →
  foldl add_operation paths l !! p ≫= (.!! m) =
    match List.find (λ rt, bool_decide (row_key rt = (p, m))) l with
    | Some rt => Some (operation rt)
    | None => paths !! p ≫= (.!! m)
    end.
Proof.
  induction l as [|rt l IH]; intros paths p m Hnd; [done|]. cbn [foldl List.find]. rewrite fmap_cons in Hnd.
  apply NoDup_cons in Hnd as [Hnot Hnd]. rewrite IH by done. case_bool_decide as E.
  - destruct (List.find _ l) as [rt'|] eqn:Ef.
    + exfalso. apply List.find_some in Ef as [Hin Heq]. apply bool_decide_eq_true in Heq. apply Hnot.
      apply list_elem_of_fmap. exists rt'. split; [congruence|by apply list_elem_of_In].
    + injection E as <- <-. unfold add_operation. by rewrite lookup_insert_eq; cbn; rewrite lookup_insert_eq.
  - destruct (List.find _ l); [done|]. unfold add_operation. destruct (decide (o_path rt = p)) as [<-|Hp].
    + rewrite lookup_insert_eq. cbn. rewrite lookup_insert_ne by (intros <-; by apply E).
      by destruct (paths !! o_path rt).
    + by rewrite lookup_insert_ne.
Qed.

Lemma documented_rows l p m op :
  NoDup (row_key <$> l) →
  openapi_paths l !! p ≫= (.!! m) = Some op ↔ ∃ rt, rt ∈ l ∧ row_key rt = (p, m) ∧ op = operation rt.
Proof.
  intros Hnd. unfold openapi_paths. rewrite fold_operations by done. rewrite lookup_empty. cbn.
  destruct (List.find _ _) as [rt|] eqn:E; split.
  - intros [= <-]. apply List.find_some in E as [Hin Hk]. apply bool_decide_eq_true in Hk.
    exists rt. by rewrite list_elem_of_In.
  - intros (rt' & Hin & Hk & ->). apply List.find_some in E as [Hin' Hk']. apply bool_decide_eq_true in Hk'.
    apply list_elem_of_In in Hin'. do 2 f_equal. apply (row_unique l); [done..|congruence].
  - done.
  - intros (rt & Hin%list_elem_of_In & Hk & _). apply (List.find_none _ _ E) in Hin.
    by rewrite bool_decide_true in Hin.
Qed.

Lemma documented_operation p m op :
  openapi_paths (enumerateRoutes routeScopes) !! p ≫= (.!! m) = Some op ↔
  ∃ rt, rt ∈ enumerateRoutes routeScopes ∧ row_key rt = (p, m) ∧ op = operation rt.
Proof. apply documented_rows. unfold enumerateRoutes. rewrite sort_slice_perm. apply row_keys_distinct. Qed.

(** ** The description and the server *)

(** Registered, and absent from the document. *)
Definition undocumented : list string :=
  ["GET /onchain.json"; "POST /verify/batch"; "POST /inference/judge"; "POST /zk/verify-groth16-sim"; "POST /zk/batch-verify-sim";
   "POST /decisions/log"; "GET /decisions/log"; "GET /decisions/log/{id}"; "GET /decisions/log/{id}/lineage";
   "POST /auth/siwe/challenge"; "POST /auth/siwe/verify"; "GET /admin/tenants"; "POST /admin/tenants";
   "POST /admin/tenants/{id}/keys"; "POST /admin/tenants/{id}/keys/revoke"; "GET /admin/tenants/{id}/audit";
   "GET /admin/tenants/audit"; "POST /v1/quorum/signers"; "GET /v1/quorum/signers"; "POST /v1/quorum/signers/{id}/slash";
   "POST /v1/quorum/signers/{id}/retire"; "POST /v1/quorum/verify"; "GET /v1/quorum/threshold";
   "POST /v1/aggregation/merkle-aggregate"; "POST /v1/aggregation/merkle-inclusion";
   "POST /v1/aggregation/merkle-verify"; "GET /metrics"; "GET /v1/metrics"]%string.

(** The row of a route agrees with the route and with what the scope middleware
    asks for. *)
Definition describes (r : Route) (rt : openAPIRoute) : Prop :=
  o_pattern rt = pattern r ∧ o_method rt = PMethod (parsed r) ∧ o_scope rt = required_scope (pattern r) ∧
  segments (o_path rt) = (λ s, match s with Lit l => l | Wild n => "{" +:+ n +:+ "}" end)%string <$> PSegs (parsed r).

#[export] Instance describes_dec r rt : base.Decision (describes r rt).
Proof. unfold describes. apply _. Defined.

Definition describesb (r : Route) (rt : openAPIRoute) : bool :=
  if bool_decide (o_pattern rt = pattern r) then bool_decide (describes r rt) else false.

Definition agrees (mux : Mux) : bool :=
  forallb (λ rt, existsb (λ r, describesb r rt) mux) (rows routeScopes)
  && forallb (λ r, bool_decide (pattern r ∈ undocumented) || existsb (λ rt, describesb r rt) (rows routeScopes)) mux.

Lemma start_agrees metrics tenants :
  match start_mux metrics tenants with Some mux => agrees mux | None => false end = true.
Proof. destruct metrics, tenants; vm_compute; reflexivity. Qed.

Lemma describesb_true r rt : describesb r rt = true → describes r rt.
Proof. unfold describesb. case_bool_decide; [|done]. intros H'. by apply bool_decide_eq_true in H'. Qed.

Lemma rows_no_metrics rt : rt ∈ rows routeScopes → o_pattern rt ≠ "GET /v1/metrics"%string.
Proof.
  intros Hrt%list_elem_of_In. assert (forallb (λ rt, negb (bool_decide (o_pattern rt = "GET /v1/metrics"%string))) (rows routeScopes) = true)
    as H by (vm_compute; reflexivity). rewrite forallb_forall in H. apply H, negb_true_iff, bool_decide_eq_false in Hrt. done.
Qed.

(** The document has exactly one operation per row of the list, whatever the
    order of the table of scopes; every row is a registered route with the scope
    that the server asks for, every registered route is a row or one of
    [undocumented], and a documented path under [/v1/] is not served under its
    documented name. *)
Theorem openapi_describes order metrics tenants :
  order ≡ₚ routeScopes →
  ∃ mux, start_mux metrics tenants = Some mux ∧
    (∀ p m op, openapi_paths (enumerateRoutes order) !! p ≫= (.!! m) = Some op ↔
       ∃ rt, rt ∈ enumerateRoutes order ∧ row_key rt = (p, m) ∧ op = operation rt) ∧
    (∀ rt, rt ∈ enumerateRoutes order → ∃ r, r ∈ mux ∧ describes r rt ∧
       (versioned r = true → ∀ req vs, names_route r vs (Path req) → ∀ r' vs', serve mux req ≠ Handled r' vs')) ∧
    (∀ r, r ∈ mux → pattern r ∈ undocumented ∨ ∃ rt, rt ∈ enumerateRoutes order ∧ describes r rt).
Proof.
  intros ->%enumerate_perm. destruct (start_mux_facts metrics tenants) as (mux & E & _). exists mux. split; [done|].
  split; [apply documented_operation|]. pose proof (start_agrees metrics tenants) as Ha. rewrite E in Ha.
  apply andb_prop in Ha as [H1 H2]. rewrite forallb_forall in H1, H2. split.
  - intros rt Hrt. apply (proj1 (elem_of_enumerate rt)) in Hrt. apply list_elem_of_In in Hrt as Hd.
    apply H1, existsb_exists in Hd. destruct Hd as (r & Hr%list_elem_of_In & Hd%describesb_true). exists r. split; [done|]. split; [done|].
    intros Hv req vs Hn. eapply versioned_unserved; [exact E|exact Hr|exact Hv| |exact Hn].
    destruct Hd as (<- & _). by apply rows_no_metrics.
  - intros r Hr%list_elem_of_In. apply H2, orb_prop in Hr as [Hu|(rt & Hrt%list_elem_of_In & Hd%describesb_true)%existsb_exists].
    + left. by apply bool_decide_eq_true in Hu.
    + right. exists rt. split; [apply (proj2 (elem_of_enumerate rt)), Hrt|exact Hd].
Qed.

Lemma openapi_describes_witness : ∃ mux, start_mux true true = Some mux ∧
  ∀ r, r ∈ mux → pattern r ∈ undocumented ∨ ∃ rt, rt ∈ enumerateRoutes (rev routeScopes) ∧ describes r rt.
Proof.
  destruct (openapi_describes (rev routeScopes) true true) as (mux & E & _ & _ & H); [symmetry; apply Permutation_rev|].
  exists mux. split; [exact E|exact H].
Defined.
