(* ===== verification/Sdk.v ===== *)
(** * The Go client ([sdk/client.go], [sdk/primitives.go], [sdk/options.go], [sdk/receipt.go])

    The request every method of the client sends, the request and response handling
    they share, and the check of a receipt on the client's side. The network is an
    argument, and so is the reader of JSON texts; a context only ends a call early
    and is left out. Receipts are checked against what the engine of [Engine.v]
    produces, and the requests against the routes of [Routes.v]. *)

From S2P Require Import Prelude GoLib Json JsonFacts Sha256 Merkle Engine Tenant Guard Routes.

Local Open Scope Z_scope.

(** ** Clients and options *)

Record Client := { authToken : string; baseURL : string; apiVersion : string }.

Definition defaultBaseURL : string := "http://localhost:9090".
Definition APIVersionUnversioned : string := "".
Definition APIVersionV1 : string := "v1".

Definition ClientOption : Type := Client → Client.

Definition WithBaseURL (url : string) : ClientOption := λ c,
  {| authToken := authToken c; baseURL := url; apiVersion := apiVersion c |}.
Definition WithAuthToken (token : string) : ClientOption := λ c,
  {| authToken := token; baseURL := baseURL c; apiVersion := apiVersion c |}.
Definition WithAPIVersion (v : string) : ClientOption := λ c,
  {| authToken := authToken c; baseURL := baseURL c; apiVersion := v |}.

Definition NewClient (opts : list ClientOption) : Client :=
  foldl (λ c opt, opt c) {| authToken := ""; baseURL := defaultBaseURL; apiVersion := APIVersionV1 |} opts.

Definition SetAuthToken (c : Client) (token : string) : Client := WithAuthToken token c.

Definition prefix (c : Client) : string :=
  if bool_decide (apiVersion c = ""%string) then ""%string else ("/" +:+ apiVersion c)%string.

Record requestConfig := { idempotencyKey : string; extraHeaders : gmap string string }.
Definition RequestOption : Type := requestConfig → requestConfig.

Definition WithIdempotencyKey (key : string) : RequestOption := λ rc,
  {| idempotencyKey := key; extraHeaders := extraHeaders rc |}.
Definition WithHeader (name value : string) : RequestOption := λ rc,
  {| idempotencyKey := idempotencyKey rc; extraHeaders := <[name := value]> (extraHeaders rc) |}.

Definition buildRequestConfig (opts : list RequestOption) : requestConfig :=
  foldl (λ rc opt, opt rc) {| idempotencyKey := ""; extraHeaders := ∅ |} opts.

(** ** One request *)

(** What a method of the client sends: the method, the path below the base URL and
    the body. *)
Record call := { c_method : string; c_path : string; c_body : option json }.

Record httpRequest := { h_method : string; h_url : string; h_header : gmap string string; h_body : option string }.

Inductive ClientError :=
| ErrMarshal | ErrBuild | ErrDo | ErrRead | ErrAPI (status : Z) (data : string) | ErrDecode.

(** [textproto.CanonicalMIMEHeaderKey]; a name with another character stays. *)
Definition header_char (c : Ascii.ascii) : bool :=
  ascii_in 48 57 c || ascii_in 65 90 c || ascii_in 97 122 c || bool_decide (c ∈ Ascii.ascii_of_N <$> [33; 35; 36; 37; 38; 39; 42; 43; 45; 46; 94; 95; 96; 124; 126]%N).
Fixpoint canonical_from (upper : bool) (s : string) : string :=
  match s with
  | EmptyString => EmptyString
  | String c s =>
      ((if upper then to_upper else to_lower) (String c "") +:+ canonical_from (bool_decide (c = chr 45)) s)%string
  end.
Definition CanonicalHeaderKey (name : string) : string :=
  if string_forall header_char name then canonical_from true name else name.

Definition header_set (h : gmap string string) (name value : string) : gmap string string :=
  <[CanonicalHeaderKey name := value]> h.

Section client.
(** Whether [http.NewRequest] takes the method and URL, the round trip (its answer
    fails, or has a status and a body whose reading may fail), and the reader of
    JSON texts. *)
Context (url_ok : string → bool).
Context (roundtrip : httpRequest → option (Z * option string)).
Context (parse : string → option json).

(** [order]: the iteration order of the extra headers. *)
Definition build_request (c : Client) (k : call) (order : list (string * string)) (rc : requestConfig) : result ClientError httpRequest :=
  let! body := match c_body k with
               | None => Ok None
               | Some v => match marshal v with Some t => Ok (Some t) | None => Err ErrMarshal end
               end in
  let url := (baseURL c +:+ c_path k)%string in
  if negb (url_ok url) then Err ErrBuild
  else
    let h := match body with Some _ => header_set ∅ "Content-Type" "application/json" | None => ∅ end in
    let h := if bool_decide (authToken c = ""%string) then h else header_set h "X-API-Key" (authToken c) in
    let h := if bool_decide (idempotencyKey rc = ""%string) then h else header_set h "X-Idempotency-Key" (idempotencyKey rc) in
    let h := foldl (λ h nv, header_set h (fst nv) (snd nv)) h order in
    Ok {| h_method := c_method k; h_url := url; h_header := h; h_body := body |}.

(** [out]: the caller wants the answer decoded; decoding into its type is the
    caller's. *)
Definition doRequestWithOpts (c : Client) (k : call) (out : bool) (order : list (string * string)) (opts : list RequestOption)
    : result ClientError (option json) :=
  let! req := build_request c k order (buildRequestConfig opts) in
  match roundtrip req with
  | None => Err ErrDo
  | Some (_, None) => Err ErrRead
  | Some (status, Some data) =>
      if 300 <=? status then Err (ErrAPI status data)
      else if negb out || bool_decide (data = ""%string) then Ok None
      else match parse data with Some v => Ok (Some v) | None => Err ErrDecode end
  end.

Definition doRequest (c : Client) (k : call) (out : bool) : result ClientError (option json) :=
  doRequestWithOpts c k out [] [].

End client.

Definition get (path : string) : call := {| c_method := "GET"; c_path := path; c_body := None |}.
Definition post (path : string) (body : json) : call := {| c_method := "POST"; c_path := path; c_body := Some body |}.

(** The literal of a [map[string]string] or [map[string]any]: the members by key. *)
Definition strings (l : list (string * string)) : json := gomap ((λ kv, (fst kv, JStr (snd kv))) <$> l).

(** ** The methods of [client.go] *)

Definition Health : call := get "/health".

Record SubmitProofRequest := { sp_agent : string; sp_input : string; sp_output : string; sp_model : string; sp_use_case : string; sp_mode : string }.

Definition submit_json (q : SubmitProofRequest) : json :=
  JObj ([("agent"%string, JStr (sp_agent q)); ("input"%string, JStr (sp_input q)); ("output"%string, JStr (sp_output q));
         ("model"%string, JStr (sp_model q))] ++ omit_empty "use_case" (sp_use_case q) ++ omit_empty "mode" (sp_mode q)).

Definition SubmitProof (q : SubmitProofRequest) : call := post "/proofs" (submit_json q).
Definition GetProof (proofID : string) : call := get ("/proofs/" +:+ proofID).
Definition ListProofs : call := get "/proofs".
Definition VerifyProof (proofID : string) : call := post "/verify" (strings [("proof_id", proofID)]%string).
Definition RevokeProof (proofID reason : string) : call :=
  post ("/proofs/" +:+ proofID +:+ "/revoke") (strings [("reason", reason)]%string).
Definition ExportProof (proofID : string) : call := get ("/proofs/" +:+ proofID +:+ "/export").
Definition Stats : call := get "/stats".

Definition KYCCheck (proofID : string) : call := post "/kyc/check" (strings [("proof_id", proofID)]%string).
Definition KYCGrant (user proofID : string) : call := post "/kyc/grant" (strings [("user", user); ("proof_id", proofID)]%string).
Definition KYCWhitelist (user : string) : call := get ("/kyc/whitelist/" +:+ user).

Record InferenceProveRequest := { ip_agent : string; ip_model_id : string; ip_input : string; ip_output : string; ip_use_case : string; ip_pub_key : string }.

Definition InferenceProve (q : InferenceProveRequest) : call :=
  post "/inference/prove"
    (JObj (omit_empty "agent" (ip_agent q)
           ++ [("model_id"%string, JStr (ip_model_id q)); ("input"%string, JStr (ip_input q)); ("output"%string, JStr (ip_output q))]
           ++ omit_empty "use_case" (ip_use_case q) ++ omit_empty "public_key" (ip_pub_key q))).
Definition InferenceVerify (proofID : string) : call := post "/inference/verify" (strings [("proof_id", proofID)]%string).

Record RegisterModelRequest := { rm_model_id : string; rm_model_hash : string; rm_verifier_contract : string; rm_metadata : list (string * string) }.

Definition RegisterModel (q : RegisterModelRequest) : call :=
  post "/inference/register-model"
    (JObj ([("model_id"%string, JStr (rm_model_id q)); ("model_hash"%string, JStr (rm_model_hash q))]
           ++ omit_empty "verifier_contract" (rm_verifier_contract q)
           ++ match rm_metadata q with [] => [] | l => [("metadata"%string, strings l)] end)).
Definition GetModel (modelID : string) : call := get ("/inference/model/" +:+ modelID).

Definition CreateAggregationBatch (batchID : string) (maxProofs : Z) : call :=
  post "/aggregation/create-batch" (gomap [("batch_id", JStr batchID); ("max_proofs", JInt maxProofs)]%string).
Definition AddProofToBatch (batchID proofHash : string) (leafIndex : Z) : call :=
  post "/aggregation/add-proof"
    (gomap [("batch_id", JStr batchID); ("proof_hash", JStr proofHash); ("leaf_index", JInt leafIndex)]%string).
Definition FinalizeBatch (batchID : string) : call := post "/aggregation/finalize" (strings [("batch_id", batchID)]%string).
Definition GetBatch (batchID : string) : call := get ("/aggregation/batch/" +:+ batchID).
Definition VerifyBatch (batchID : string) : call := get ("/aggregation/verify-batch/" +:+ batchID).

(** A nil slice is the JSON null. *)
Definition slice_json (l : option (list json)) : json := match l with Some l => JArr l | None => JNull end.

Definition VerifyGroth16Conceptual (proof vkHash : string) (publicInputs : option (list string)) : call :=
  post "/zk/verify-groth16"
    (gomap [("proof", JStr proof); ("vk_hash", JStr vkHash); ("public_inputs", slice_json (map JStr <$> publicInputs))]%string).
Definition Groth16RealProve (preimage : string) : call := post "/zk/groth16-real/prove" (strings [("preimage", preimage)]%string).
Definition Groth16RealVerify (hash proofHex : string) : call :=
  post "/zk/groth16-real/verify" (strings [("hash", hash); ("proof_hex", proofHex)]%string).

Definition SignSPHINCS (message : string) : call := post "/pq/sign-sphincs" (strings [("message", message)]%string).
Definition VerifySPHINCS (message signatureHex publicKeyHex : string) : call :=
  post "/pq/verify-sphincs" (strings [("message", message); ("signature", signatureHex); ("public_key", publicKeyHex)]%string).
Definition HybridSign (message : string) : call := post "/pq/hybrid-sign" (strings [("message", message)]%string).
Definition HybridVerify (message signatureHex classicPubHex pqPubHex : string) : call :=
  post "/pq/hybrid-verify"
    (strings [("message", message); ("signature", signatureHex); ("classic_public_key", classicPubHex);
              ("pq_public_key", pqPubHex)]%string).

Definition BatchProofs (proofs : option (list json)) (mode : string) : call :=
  post "/proofs/batch" (gomap [("proofs", slice_json proofs); ("mode", JStr mode)]%string).
Definition BatchVerifyZK (proofs : option (list json)) : call := post "/zk/batch-verify" (gomap [("proofs", slice_json proofs)]%string).
Definition ChallengeZK (proofID reason : string) : call :=
  post "/zk/challenge" (strings [("proof_id", proofID); ("reason", reason)]%string).
Definition GetChallengeZK (id : string) : call := get ("/zk/challenge/" +:+ id).
Definition ValidateProofChain (chain : json) : call := post "/proof-chain/validate" chain.

(** ** The primitives of [primitives.go] *)

Definition ProveRequest : Type := SubmitProofRequest.

Definition Prove (c : Client) (q : ProveRequest) : call := post (prefix c +:+ "/proofs") (submit_json q).
Definition Verify (c : Client) (proofID : string) : call := post (prefix c +:+ "/verify") (strings [("proof_id", proofID)]%string).

Record BatchItem := { b_proof_id : string; b_model_id : string; b_input : string; b_output : string; b_extra : list (string * json) }.

(** Named members win over extra ones; [b_extra] has each key once. *)
Definition toMap (b : BatchItem) : json :=
  let m := (omit_empty "proof_id" (b_proof_id b) ++ omit_empty "model_id" (b_model_id b)
            ++ omit_empty "input" (b_input b) ++ omit_empty "output" (b_output b))%list in
  gomap (m ++ filter (λ kv, fst kv ∉ m.*1) (b_extra b)).

Definition Batch (c : Client) (items : list BatchItem) (mode : string) : call :=
  post (prefix c +:+ "/batch/verify-zk") (gomap (("proofs"%string, JArr (toMap <$> items)) :: omit_empty "mode" mode)).

Definition Anchor (c : Client) (proofID : string) : call :=
  {| c_method := "POST"; c_path := (prefix c +:+ "/proofs/" +:+ proofID +:+ "/anchor")%string; c_body := None |}.

(** ** Receipts ([receipt.go]) *)

Record ProofReceipt := {
  r_ID : string; r_Agent : string; r_Model : string; r_Input : string; r_Output : string; r_UseCase : string;
  r_ProofHash : string; r_VKHash : string; r_InputHash : string; r_OutputHash : string; r_ModelHash : string;
  r_Verdict : string; r_CreatedAt : string;
}.

Inductive ReceiptError := ErrParse | ErrMissingID | ReceiptValidationError (field expected actual : string).

(** A string member of a struct as [json.Unmarshal] reads it: names match without
    regard to case, the last one wins, null leaves the field; another type is an
    error. *)
Definition str_member (m : list (string * json)) (key : string) : option string :=
  foldl (λ acc kv, acc' ← acc;
           if bool_decide (to_lower (fst kv) = key) then
             match snd kv with JStr s => Some s | JNull => Some acc' | _ => None end
           else Some acc') (Some ""%string) m.

Definition receipt_of (v : json) : option ProofReceipt :=
  m ← match v with JObj m => Some m | JNull => Some [] | _ => None end;
  id ← str_member m "id"; agent ← str_member m "agent"; model ← str_member m "model";
  input ← str_member m "input"; output ← str_member m "output"; use_case ← str_member m "use_case";
  ph ← str_member m "proof_hash"; vk ← str_member m "vk_hash"; ih ← str_member m "input_hash";
  oh ← str_member m "output_hash"; mh ← str_member m "model_hash"; verdict ← str_member m "verdict";
  created ← str_member m "created_at";
  Some {| r_ID := id; r_Agent := agent; r_Model := model; r_Input := input; r_Output := output; r_UseCase := use_case;
          r_ProofHash := ph; r_VKHash := vk; r_InputHash := ih; r_OutputHash := oh; r_ModelHash := mh;
          r_Verdict := verdict; r_CreatedAt := created |}.

Definition HashField (s : string) : string := hex_encode (sha256 (bytes_of s)).

Definition isHex (c : Ascii.ascii) : bool := ascii_in 48 57 c || ascii_in 97 102 c.

Definition trim_0x (s : string) : string :=
  if has_prefix s "0x" then String.substring 2 (String.length s - 2) s else s.

Definition hexEqualIgnoreCase (a b : string) : bool :=
  let na := to_lower (trim_0x a) in
  let nb := to_lower (trim_0x b) in
  (String.length na =? String.length nb)%nat && string_forall isHex na && string_forall isHex nb && bool_decide (na = nb).

(** One hash of the receipt: absent, or equal to the one derived here. *)
Definition check_hash (field expected got : string) : result ReceiptError unit :=
  if bool_decide (got = ""%string) then Ok tt
  else if hexEqualIgnoreCase expected got then Ok tt else Err (ReceiptValidationError field expected got).

(** [payload] is the parsed text, [None] where it does not parse. The fields are
    checked in the order of their names. *)
Definition VerifyReceiptBytes (payload : option json) : result ReceiptError ProofReceipt :=
  match payload ≫= receipt_of with
  | None => Err ErrParse
  | Some r =>
      if bool_decide (r_ID r = ""%string) then Err ErrMissingID
      else
        let! _ := check_hash "input_hash" (HashField (r_Input r)) (r_InputHash r) in
        let! _ := check_hash "model_hash" (HashField (r_Model r)) (r_ModelHash r) in
        let! _ := check_hash "output_hash" (HashField (r_Output r)) (r_OutputHash r) in
        Ok r
  end.

Definition VerifyReceipt (c : Client) (payload : option json) : result ReceiptError ProofReceipt := VerifyReceiptBytes payload.

(** What the server writes for a proof ([prover/types.go]). *)
Definition proof_response (p : Proof) : json :=
  JObj ([("id", JStr (PID p)); ("agent", JStr (Agent p)); ("proof_hash", JStr (PH p)); ("input_hash", JStr (IH p));
         ("output_hash", JStr (OH p)); ("model_hash", JStr (MH p)); ("merkle_root", JStr (PRoot p));
         ("merkle_path", match PPath p with [] => JNull | l => JArr (map JStr l) end); ("leaf_index", JInt (Idx p));
         ("timestamp", JInt (TS p)); ("valid", JBool (Valid p)); ("revoked", JBool (Revoked p));
         ("use_case", JStr (UseCase p))]%string
        ++ omit_empty "public_key" (PubKey p) ++ omit_empty "deploy_hash" (Deploy p)
        ++ omit_empty "anchor_hash" (AnchorHash p) ++ omit_empty "anchoring_status" (AnchoringStatus p)
        ++ [("generation_ms"%string, JInt (GenMs p))] ++ omit_empty "mode" (Mode p)).

(** The bundle of [exportProof]. *)
Definition export_bundle (p : Proof) (exported : Z) (contract verifyURL : string) : json :=
  gomap [("version", JStr "1.0"); ("exported", JInt exported); ("proof", proof_response p); ("contract", JStr contract);
         ("chain", JStr "casper-test"); ("verify_url", JStr verifyURL)]%string.

(** A response with the caller's own data put next to the hashes. *)
Definition with_raw (v : json) (input output model : string) : json :=
  match v with
  | JObj m => JObj (m ++ [("input", JStr input); ("output", JStr output); ("model", JStr model)]%string)
  | v => v
  end.

(** ** The requests meet the routes *)

(** The request of a call to a server whose base URL has no path. *)
Definition arrives (c : Client) (k : call) (q : Request) : Prop := Method q = c_method k ∧ Path q = c_path k.

(** The calls of the client and the patterns their comments name. *)
Inductive documented (c : Client) (id : string) : call → string → list string → Prop :=
| DHealth : documented c id Health "GET /health" []
| DSubmitProof q : documented c id (SubmitProof q) "POST /proofs" []
| DGetProof : documented c id (GetProof id) "GET /proofs/{id}" [id]
| DListProofs : documented c id ListProofs "GET /proofs" []
| DVerifyProof p : documented c id (VerifyProof p) "POST /verify" []
| DRevokeProof reason : documented c id (RevokeProof id reason) "POST /proofs/{id}/revoke" [id]
| DExportProof : documented c id (ExportProof id) "GET /proofs/{id}/export" [id]
| DStats : documented c id Stats "GET /stats" []
| DKYCCheck p : documented c id (KYCCheck p) "POST /kyc/check" []
| DKYCGrant u p : documented c id (KYCGrant u p) "POST /kyc/grant" []
| DKYCWhitelist : documented c id (KYCWhitelist id) "GET /kyc/whitelist/{user}" [id]
| DInferenceProve q : documented c id (InferenceProve q) "POST /inference/prove" []
| DInferenceVerify p : documented c id (InferenceVerify p) "POST /inference/verify" []
| DRegisterModel q : documented c id (RegisterModel q) "POST /inference/register-model" []
| DGetModel : documented c id (GetModel id) "GET /inference/model/{id}" [id]
| DCreateBatch b n : documented c id (CreateAggregationBatch b n) "POST /aggregation/create-batch" []
| DAddProof b h i : documented c id (AddProofToBatch b h i) "POST /aggregation/add-proof" []
| DFinalize b : documented c id (FinalizeBatch b) "POST /aggregation/finalize" []
| DGetBatch : documented c id (GetBatch id) "GET /aggregation/batch/{id}" [id]
| DVerifyBatch : documented c id (VerifyBatch id) "GET /aggregation/verify-batch/{id}" [id]
| DGroth16 p vk ins : documented c id (VerifyGroth16Conceptual p vk ins) "POST /zk/verify-groth16" []
| DRealProve x : documented c id (Groth16RealProve x) "POST /zk/groth16-real/prove" []
| DRealVerify h p : documented c id (Groth16RealVerify h p) "POST /zk/groth16-real/verify" []
| DSign m : documented c id (SignSPHINCS m) "POST /pq/sign-sphincs" []
| DVerifySig m s k : documented c id (VerifySPHINCS m s k) "POST /pq/verify-sphincs" []
| DHybridSign m : documented c id (HybridSign m) "POST /pq/hybrid-sign" []
| DHybridVerify m s k1 k2 : documented c id (HybridVerify m s k1 k2) "POST /pq/hybrid-verify" []
| DBatchProofs ps m : documented c id (BatchProofs ps m) "POST /proofs/batch" []
| DBatchVerifyZK ps : documented c id (BatchVerifyZK ps) "POST /zk/batch-verify" []
| DChallengeZK p r : documented c id (ChallengeZK p r) "POST /zk/challenge" []
| DGetChallengeZK : documented c id (GetChallengeZK id) "GET /zk/challenge/{id}" [id]
| DValidate v : documented c id (ValidateProofChain v) "POST /proof-chain/validate" []
| DProve q : documented c id (Prove c q) "POST /proofs" []
| DVerify p : documented c id (Verify c p) "POST /verify" [].

(** The part of the table that does not depend on the configuration. *)
Definition fixed_patterns : list string := (proof_routes ++ inference_routes ++ zk_routes ++ log_routes).*1.

Lemma fixed_in_table pat metrics tenants :
  bool_decide (pat ∈ fixed_patterns) = true → pat ∈ (start_table metrics tenants).*1.
Proof.
  intros H%bool_decide_eq_true. unfold fixed_patterns in H. unfold start_table.
  rewrite !fmap_app, !elem_of_app in *. tauto.
Qed.

Lemma prefix_cases c : apiVersion c ∈ [APIVersionUnversioned; APIVersionV1] → prefix c = ""%string ∨ prefix c = "/v1"%string.
Proof.
  unfold prefix. intros [Hc|Hc]%elem_of_cons; [rewrite Hc; by left|]. apply list_elem_of_singleton in Hc. rewrite Hc. by right.
Qed.

(** What Batch and Anchor ask for. *)
Definition batch_segs : list Seg := [Lit "batch"; Lit "verify-zk"].
Definition anchor_segs : list Seg := [Lit "proofs"; Wild "id"; Lit "anchor"].

Lemma start_dead metrics tenants :
  match start_mux metrics tenants with
  | Some mux => forallb (λ r, bool_decide (compare_paths batch_segs (PSegs (parsed r)) = disjoint)) mux
                && forallb (λ r, bool_decide (compare_paths anchor_segs (PSegs (parsed r)) = disjoint)) mux
  | None => false
  end = true.
Proof. destruct metrics, tenants; vm_compute; reflexivity. Qed.

Lemma anchor_bound id : proper id = true → is_Some (bind_path anchor_segs ["proofs"; id; "anchor"]%string).
Proof.
  intros H. exists [id]. apply bind_fill; [reflexivity|]. cbn [forallb]. by rewrite H.
Qed.

(** The literal segments and the identifier a call's path is made of. *)
Lemma documented_path c id k pat vs :
  documented c id k pat vs → proper id = true → apiVersion c ∈ [APIVersionUnversioned; APIVersionV1] →
  ∃ P segs, bool_decide (pat ∈ fixed_patterns) = true ∧ parsePattern pat = Some P ∧ fill (PSegs P) vs = Some segs ∧
    forallb proper vs = true ∧ head segs ≠ Some "v1"%string ∧ c_method k = PMethod P ∧
    (c_path k = join_path segs ∨ c_path k = ("/v1" +:+ join_path segs)%string).
Proof.
  intros D Hid Hc.
  pose proof (prefix_cases c Hc) as Hpre.
  destruct D; do 2 eexists;
    (split; [vm_compute; reflexivity|]); (split; [vm_compute; reflexivity|]); (split; [cbn; reflexivity|]);
    (split; [cbn [forallb]; rewrite ?Hid; reflexivity|]); (split; [discriminate|]); (split; [reflexivity|]).
  all: try (left; cbn; rewrite ?str_app_nil; reflexivity).
  all: unfold Prove, Verify, post; cbn [c_path]; destruct Hpre as [-> | ->]; [left|right]; reflexivity.
Qed.

(** Every method of the client reaches the route its comment names, for an
    identifier that is a plain path segment, and Batch and Anchor reach no route. *)
Theorem sdk_calls_routed metrics tenants :
  ∃ mux, start_mux metrics tenants = Some mux ∧
    ∀ c id q, proper id = true → apiVersion c ∈ [APIVersionUnversioned; APIVersionV1] →
      (∀ k pat vs, documented c id k pat vs → arrives c k q → ∃ r, serve mux q = Handled r vs ∧ pattern r = pat) ∧
      (∀ items mode, arrives c (Batch c items mode) q → ∀ r vs, serve mux q ≠ Handled r vs) ∧
      (arrives c (Anchor c id) q → ∀ r vs, serve mux q ≠ Handled r vs).
Proof.
  destruct (start_mux_facts metrics tenants) as (mux & E & _). exists mux. split; [exact E|]. intros c id q Hid Hc.
  pose proof (start_dead metrics tenants) as Hdead. rewrite E in Hdead. apply andb_prop in Hdead as [Hd1 Hd2].
  pose proof (prefix_cases c Hc) as Hpre. split; [|split].
  - intros k pat vs D [Hm Hp]. destruct (documented_path c id k pat vs D Hid Hc) as (P & segs & H1 & H2 & H3 & H4 & H5 & H6 & H7).
    apply (route_reached metrics tenants mux pat P vs segs q E); try assumption;
      [by apply fixed_in_table|by rewrite Hm|by rewrite Hp].
  - intros items mode [_ Hp]. apply (unrouted metrics tenants mux batch_segs ["batch"; "verify-zk"]%string q E Hd1);
      [vm_compute; eauto|vm_compute; reflexivity|discriminate|discriminate|].
    rewrite Hp. cbn [c_path Batch post]. destruct Hpre as [-> | ->]; [left|right]; reflexivity.
  - intros [_ Hp]. apply (unrouted metrics tenants mux anchor_segs ["proofs"; id; "anchor"]%string q E Hd2);
      [by apply anchor_bound|cbn [forallb]; by rewrite Hid|discriminate|discriminate|].
    rewrite Hp. cbn [c_path Anchor]. destruct Hpre as [-> | ->]; [left|right]; reflexivity.
Qed.

(** ** Reading a receipt *)

Definition head_members (p : Proof) : list (string * json) :=
  [("id", JStr (PID p)); ("agent", JStr (Agent p)); ("proof_hash", JStr (PH p)); ("input_hash", JStr (IH p));
   ("output_hash", JStr (OH p)); ("model_hash", JStr (MH p)); ("merkle_root", JStr (PRoot p));
   ("merkle_path", match PPath p with [] => JNull | l => JArr (map JStr l) end); ("leaf_index", JInt (Idx p));
   ("timestamp", JInt (TS p)); ("valid", JBool (Valid p)); ("revoked", JBool (Revoked p));
   ("use_case", JStr (UseCase p))]%string.

Definition tail_members (p : Proof) : list (string * json) :=
  omit_empty "public_key" (PubKey p) ++ omit_empty "deploy_hash" (Deploy p)
  ++ omit_empty "anchor_hash" (AnchorHash p) ++ omit_empty "anchoring_status" (AnchoringStatus p)
  ++ [("generation_ms"%string, JInt (GenMs p))] ++ omit_empty "mode" (Mode p).

Definition receipt_keys : list string :=
  ["id"; "agent"; "model"; "input"; "output"; "use_case"; "proof_hash"; "vk_hash"; "input_hash"; "output_hash"; "model_hash";
   "verdict"; "created_at"]%string.

Definition tail_keys : list string :=
  ["public_key"; "deploy_hash"; "anchor_hash"; "anchoring_status"; "generation_ms"; "mode"]%string.

Lemma tail_keys_apart : forallb (λ k, forallb (λ key, negb (bool_decide (to_lower k = key))) receipt_keys) tail_keys = true.
Proof. vm_compute. reflexivity. Qed.

Definition read_member (key : string) (acc : option string) (kv : string * json) : option string :=
  acc' ← acc;
  if bool_decide (to_lower (fst kv) = key) then match snd kv with JStr s => Some s | JNull => Some acc' | _ => None end
  else Some acc'.

Lemma str_member_eq m key : str_member m key = foldl (read_member key) (Some ""%string) m.
Proof. reflexivity. Qed.

Lemma read_skip key m acc :
  Forall (λ kv, to_lower (fst kv) ≠ key) m → foldl (read_member key) (Some acc) m = Some acc.
Proof.
  induction 1 as [|kv m Hkv _ IH]; [done|]. cbn [foldl]. unfold read_member at 2. cbn. by rewrite bool_decide_false.
Qed.

Lemma omit_empty_keys k s : Forall (λ kv, fst kv = k) (omit_empty k s).
Proof. unfold omit_empty. case_bool_decide; repeat constructor. Qed.

Lemma tail_unread p key : key ∈ receipt_keys → Forall (λ kv, to_lower (fst kv) ≠ key) (tail_members p).
Proof.
  intros Hk. assert (∀ k, k ∈ tail_keys → to_lower k ≠ key) as Hne.
  { intros k Ht%list_elem_of_In. apply list_elem_of_In in Hk. pose proof tail_keys_apart as H.
    rewrite forallb_forall in H. specialize (H k Ht). rewrite forallb_forall in H. apply H, negb_true_iff in Hk.
    by apply bool_decide_eq_false in Hk. }
  unfold tail_members. rewrite !Forall_app. split_and!; [..|repeat constructor; apply Hne; set_solver|];
    (eapply Forall_impl; [apply omit_empty_keys|]; intros kv ->; apply Hne; set_solver).
Qed.

Lemma member_response p raw key :
  key ∈ receipt_keys → str_member (head_members p ++ tail_members p ++ raw) key = str_member (head_members p ++ raw) key.
Proof.
  intros Hk. rewrite !str_member_eq, !foldl_app.
  destruct (foldl (read_member key) (Some ""%string) (head_members p)) as [acc|] eqn:E.
  - by rewrite read_skip by (by apply tail_unread).
  - assert (∀ m, foldl (read_member key) None m = None) as Hn by (induction m; done). by rewrite !Hn.
Qed.

Lemma hex_encode_isHex b : string_forall isHex (hex_encode b) = true.
Proof. exact (hex_encode_lower_hex b). Qed.

Lemma hex_lower s : string_forall isHex s = true → to_lower s = s ∧ trim_0x s = s.
Proof.
  intros H. split.
  - unfold to_lower. induction s as [|c s IH]; [done|]. cbn [string_forall string_map] in *. apply andb_prop in H as [Hc H].
    rewrite (IH H). destruct (ascii_in 65 90 c) eqn:E; [|done]. exfalso. unfold isHex, ascii_in in *.
    apply andb_prop in E as [?%N.leb_le ?%N.leb_le]. apply orb_prop in Hc as [Hc|Hc];
      apply andb_prop in Hc as [?%N.leb_le ?%N.leb_le]; lia.
  - unfold trim_0x. destruct (has_prefix s "0x") eqn:E; [|done]. exfalso.
    destruct (prefix_split _ _ E) as [t ->]. change ("0x" +:+ t)%string with (String (chr 48) (String (chr 120) t)) in H.
    cbn [string_forall] in H. apply andb_prop in H as [_ H]. by apply andb_prop in H as [H _].
Qed.

Lemma hexEqual_hex a b : hexEqualIgnoreCase (hex_encode a) (hex_encode b) = bool_decide (hex_encode a = hex_encode b).
Proof.
  unfold hexEqualIgnoreCase. destruct (hex_lower _ (hex_encode_isHex a)) as [Ha Ha'], (hex_lower _ (hex_encode_isHex b)) as [Hb Hb'].
  rewrite Ha', Hb', Ha, Hb, !hex_encode_isHex, !andb_true_r. case_bool_decide as H; [|by rewrite andb_false_r].
  by rewrite H, Nat.eqb_refl.
Qed.

Lemma check_hash_hex f a b : b ≠ [] →
  check_hash f (hex_encode a) (hex_encode b) =
    if bool_decide (hex_encode a = hex_encode b) then Ok tt else Err (ReceiptValidationError f (hex_encode a) (hex_encode b)).
Proof.
  intros Hb. unfold check_hash. rewrite bool_decide_false by (by apply hex_encode_nonempty). by rewrite hexEqual_hex.
Qed.

(** What the client reads from a response of the server with [raw] members added. *)
Lemma receipt_of_response p i o m :
  receipt_of (with_raw (proof_response p) i o m) =
    Some {| r_ID := PID p; r_Agent := Agent p; r_Model := m; r_Input := i; r_Output := o; r_UseCase := UseCase p;
            r_ProofHash := PH p; r_VKHash := ""; r_InputHash := IH p; r_OutputHash := OH p; r_ModelHash := MH p;
            r_Verdict := ""; r_CreatedAt := "" |} ∧
  receipt_of (proof_response p) =
    Some {| r_ID := PID p; r_Agent := Agent p; r_Model := ""; r_Input := ""; r_Output := ""; r_UseCase := UseCase p;
            r_ProofHash := PH p; r_VKHash := ""; r_InputHash := IH p; r_OutputHash := OH p; r_ModelHash := MH p;
            r_Verdict := ""; r_CreatedAt := "" |}.
Proof.
  change (proof_response p) with (JObj (head_members p ++ tail_members p)). unfold with_raw. rewrite <- app_assoc.
  split.
  - unfold receipt_of. cbn [mbind option_bind]. rewrite !member_response by (unfold receipt_keys; set_solver). reflexivity.
  - rewrite <- (app_nil_r (tail_members p)). unfold receipt_of. cbn [mbind option_bind].
    rewrite !member_response by (unfold receipt_keys; set_solver). reflexivity.
Qed.

Lemma check_hash_ok f a b : b ≠ [] → is_ok (check_hash f (hex_encode a) (hex_encode b)) = bool_decide (hex_encode a = hex_encode b).
Proof. intros Hb. rewrite check_hash_hex by done. by case_bool_decide. Qed.

Lemma is_ok_unit {E} (m : result E unit) : is_ok m = true → m = Ok tt.
Proof. by destruct m as [[]|]. Qed.

(** The receipt of a proof of the engine with data put next to it: accepted exactly
    for the three hashes. *)
Lemma with_raw_accepted p input output model i o m :
  PID p ≠ ""%string → IH p = HexHash input → OH p = HexHash output → MH p = HexHash model →
  is_ok (VerifyReceiptBytes (Some (with_raw (proof_response p) i o m))) = true ↔
  HashField i = HexHash input ∧ HashField o = HexHash output ∧ HashField m = HexHash model.
Proof.
  intros Hid Hi Ho Hm. unfold VerifyReceiptBytes. cbn [mbind option_bind].
  rewrite (proj1 (receipt_of_response p i o m)). cbn [r_ID r_Input r_Output r_Model r_InputHash r_OutputHash r_ModelHash].
  rewrite bool_decide_false by done. rewrite Hi, Ho, Hm. unfold HashField, HexHash.
  rewrite !check_hash_hex by apply sha256_nonempty. split.
  - intros H. do 3 (case_bool_decide; [|done]). done.
  - intros (-> & -> & ->). by rewrite !bool_decide_true.
Qed.

(** C37. Client and engine hash the same way: the response for a generated proof
    together with the caller's own data is accepted exactly when the data have the
    proof's hashes, so the data submitted are accepted and others exhibit a
    SHA-256 collision. The response alone is refused, unless the input collides
    with the empty string, and so is an exported bundle, for want of an id. *)
Theorem receipt_validation e elapsed now agent pubKey input output model uc mode e' p :
  GenerateWithKey e elapsed now agent pubKey (bytes_of input) (bytes_of output) (bytes_of model) uc mode = Some (e', p) →
  is_ok (VerifyReceiptBytes (Some (with_raw (proof_response p) input output model))) = true ∧
  (∀ i o m, is_ok (VerifyReceiptBytes (Some (with_raw (proof_response p) i o m))) = true →
     (i, o, m) = (input, output, model) ∨
     is_collision (bytes_of i, bytes_of input) ∨ is_collision (bytes_of o, bytes_of output) ∨ is_collision (bytes_of m, bytes_of model)) ∧
  (input ≠ ""%string →
     VerifyReceiptBytes (Some (proof_response p)) = Err (ReceiptValidationError "input_hash" (HashField "") (IH p)) ∨
     is_collision (bytes_of "", bytes_of input)) ∧
  (∀ t contract url, VerifyReceiptBytes (Some (export_bundle p t contract url)) = Err ErrMissingID).
Proof.
  intros H. unfold GenerateWithKey in H. destruct (Merkle.Root _) as [root|]; [|done]. cbn in H. injection H as _ Hp.
  assert (PID p ≠ ""%string ∧ IH p = HexHash (bytes_of input) ∧ OH p = HexHash (bytes_of output) ∧ MH p = HexHash (bytes_of model))
    as (Hid & Hi & Ho & Hm) by (rewrite <- Hp; cbn [PID IH OH MH]; split_and!; done).
  assert (∀ x y, HashField x = HexHash (bytes_of y) → x = y ∨ is_collision (bytes_of x, bytes_of y)) as Hcol.
  { intros x y E. unfold HashField, HexHash in E. apply hex_encode_inj in E. destruct (decide (x = y)) as [|Hne]; [by left|right].
    split; [|exact E]. intros Hb. by apply bytes_of_inj in Hb. }
  split; [by apply (with_raw_accepted p _ _ _ input output model Hid Hi Ho Hm)|]. split; [|split].
  - intros i o m Hok. apply (with_raw_accepted p _ _ _ i o m Hid Hi Ho Hm) in Hok as (H1 & H2 & H3).
    destruct (Hcol _ _ H1) as [->|?]; [|auto]. destruct (Hcol _ _ H2) as [->|?]; [|auto].
    destruct (Hcol _ _ H3) as [->|?]; [by left|auto].
  - intros Hne. destruct (decide (HashField "" = IH p)) as [E|E].
    + right. rewrite Hi in E. destruct (Hcol _ _ E) as [Hx|Hx]; [destruct Hne; symmetry; exact Hx|exact Hx].
    + left. unfold VerifyReceiptBytes. cbn [mbind option_bind]. rewrite (proj2 (receipt_of_response p "" "" "")).
      cbn [r_ID r_Input r_InputHash]. rewrite bool_decide_false by done. rewrite Hi in *. unfold HashField, HexHash in *.
      rewrite check_hash_hex by apply sha256_nonempty. by rewrite bool_decide_false.
  - intros t contract url. reflexivity.
Qed.

(** ** Witnesses *)

Definition ex_client : Client := NewClient [WithBaseURL "https://prover.example"; WithAuthToken "sk"].

(** Two calls at their routes, and an anchoring that the server does not know. *)
Lemma sdk_calls_routed_witness :
  ∃ mux, start_mux true true = Some mux ∧
    (∃ r, serve mux (ex_request "GET" "/proofs/P-7/export" "" "") = Handled r ["P-7"%string] ∧ pattern r = "GET /proofs/{id}/export"%string) ∧
    (∀ r vs, serve mux (ex_request "POST" "/v1/proofs/P-7/anchor" "" "") ≠ Handled r vs).
Proof.
  destruct (sdk_calls_routed true true) as (mux & E & H). exists mux. split; [exact E|]. split.
  - destruct (H ex_client "P-7"%string (ex_request "GET" "/proofs/P-7/export" "" "")) as (H1 & _);
      [vm_compute; reflexivity|right; left|].
    apply (H1 (ExportProof "P-7")); [constructor|split; reflexivity].
  - destruct (H ex_client "P-7"%string (ex_request "POST" "/v1/proofs/P-7/anchor" "" "")) as (_ & _ & H3);
      [vm_compute; reflexivity|right; left|].
    apply H3. split; reflexivity.
Defined.

Lemma receipt_validation_witness :
  match GenerateWithKey New 3 (1000 * second) "agent" "" (bytes_of "in") (bytes_of "out") (bytes_of "model") "kyc" "local" with
  | Some (_, p) =>
      is_ok (VerifyReceiptBytes (Some (with_raw (proof_response p) "in" "out" "model"))) = true
      ∧ VerifyReceiptBytes (Some (export_bundle p 1000 "" "")) = Err ErrMissingID
  | None => False
  end.
Proof.
  destruct (GenerateWithKey _ _ _ _ _ _ _ _ _ _) as [[e' p]|] eqn:E; [|by vm_compute in E].
  destruct (receipt_validation New 3 (1000 * second) "agent" "" "in" "out" "model" "kyc" "local" e' p E) as (H1 & _ & _ & H4).
  split; [exact H1|apply H4].
Defined.

(** A response of the engine, as it comes, is refused by the client. *)
Example response_refused :
  match GenerateWithKey New 3 (1000 * second) "agent" "" (bytes_of "in") (bytes_of "out") (bytes_of "model") "kyc" "local" with
  | Some (_, p) => match VerifyReceiptBytes (Some (proof_response p)) with Err (ReceiptValidationError f _ _) => f = "input_hash"%string | _ => False end
  | None => False
  end.
Proof. vm_compute. reflexivity. Qed.

(** Identifiers go into the path as they are: one with dots names another route. *)
Example identifier_escapes :
  findHandler ex_mux "GET" (c_path (GetProof "../stats")) = Moved "/stats" "GET /stats".
Proof. vm_compute. reflexivity. Qed.
