(* ===== verification/Mcp.v ===== *)
(** * The MCP server ([sdk/mcp_server.go], [sdk/cmd/mcpserver/main.go])

    The table of tools, the calls of the client that a tool stands for, and the
    loop over the lines of the standard input. The reader of JSON texts is an
    argument; it gives the members of an object once and in the order of their
    names, as Go's maps are written. What a call is answered is an argument too
    ([Sdk.v] makes it from the network). *)

From S2P Require Import Prelude GoLib Json JsonFacts Expo Sha256 Merkle Engine Tenant Guard Routes PgStore Sdk ProofApi.

Local Open Scope Z_scope.

(** ** The tools *)

Record MCPTool := { t_Name : string; t_Description : string; t_InputSchema : json }.

Definition tool (name desc : string) (schema : json) : MCPTool :=
  {| t_Name := name; t_Description := desc; t_InputSchema := schema |}.

Definition typed (t : string) : json := gomap [("type"%string, JStr t)].
Definition described (t desc : string) : json := gomap [("type"%string, JStr t); ("description"%string, JStr desc)].

Definition mcpTools_proofs : list MCPTool :=
  [tool "generate_proof" "Generate a cryptographic proof of AI inference (input → output)." (gomap [("type", JStr
     "object"); ("properties", gomap [("agent_id", described "string" "Agent identifier"); ("input", described
     "string" "Inference input data"); ("output", described "string" "Inference output data"); ("model", described
     "string" "Model identifier"); ("use_case", described "string" "Use case tag (inference, kyc, etc.)")]);
     ("required", JArr [JStr "agent_id"; JStr "input"; JStr "output"; JStr "model"])]);
   tool "verify_proof" "Verify that a proof is valid and not revoked." (gomap [("type", JStr "object");
     ("properties", gomap [("proof_id", described "string" "Proof identifier (e.g. P-1)")]); ("required", JArr [JStr
     "proof_id"])]);
   tool "get_proof" "Fetch full details of a proof by ID." (gomap [("type", JStr "object"); ("properties", gomap
     [("proof_id", typed "string")]); ("required", JArr [JStr "proof_id"])]);
   tool "list_proofs" "List all generated proofs." (gomap [("type", JStr "object"); ("properties", gomap [])]);
   tool "revoke_proof" "Revoke a proof, marking it as invalid." (gomap [("type", JStr "object"); ("properties",
     gomap [("proof_id", typed "string"); ("reason", described "string" "Reason for revocation")]); ("required", JArr
     [JStr "proof_id"; JStr "reason"])]);
   tool "batch_proofs" "Generate multiple proofs in a single batch request." (gomap [("type", JStr "object");
     ("properties", gomap [("proofs", gomap [("type", JStr "array"); ("description", JStr "Array of proof requests");
     ("items", gomap [("type", JStr "object"); ("properties", gomap [("agent_id", typed "string"); ("input", typed
     "string"); ("output", typed "string"); ("model", typed "string")])])])]); ("required", JArr [JStr "proofs"])]);
   tool "export_proof" "Export a proof as a portable JSON bundle for external verification." (gomap [("type", JStr
     "object"); ("properties", gomap [("proof_id", typed "string")]); ("required", JArr [JStr "proof_id"])]);
   tool "get_stats" "Get aggregate proof statistics: total proofs, verified count, models." (gomap [("type", JStr
     "object"); ("properties", gomap [])]);
   tool "kyc_check" "Check whether an address passes KYC whitelist verification." (gomap [("type", JStr "object");
     ("properties", gomap [("address", described "string" "Address to verify")]); ("required", JArr [JStr
     "address"])]);
   tool "kyc_grant" "Grant KYC whitelist access to an address (admin only)." (gomap [("type", JStr "object");
     ("properties", gomap [("address", typed "string"); ("admin", described "string" "Admin account hash")]);
     ("required", JArr [JStr "address"; JStr "admin"])]);
   tool "kyc_whitelist" "Check KYC whitelist status for a specific user." (gomap [("type", JStr "object");
     ("properties", gomap [("user", typed "string")]); ("required", JArr [JStr "user"])]);
   tool "health_check" "Check API server, database, and blockchain connection health." (gomap [("type", JStr
     "object"); ("properties", gomap [])])]%string.

Definition mcpTools_aggregation : list MCPTool :=
  [tool "get_model_info" "Get information about a registered model by its hash." (gomap [("type", JStr "object");
     ("properties", gomap [("model_hash", typed "string")]); ("required", JArr [JStr "model_hash"])]);
   tool "validate_proof_chain" "Validate a proof chain DAG — checks for cycles, input continuity, and single root."
     (gomap [("type", JStr "object"); ("properties", gomap [("id", described "string" "Chain identifier"); ("steps",
     gomap [("type", JStr "array"); ("items", gomap [("type", JStr "object"); ("properties", gomap [("proof_id",
     typed "string"); ("parent_ids", gomap [("type", JStr "array"); ("items", typed "string")]); ("model_hash", typed
     "string"); ("input_hash", typed "string"); ("output_hash", typed "string"); ("step_index", typed
     "integer")])])])]); ("required", JArr [JStr "steps"])]);
   tool "inference_prove" "Generate a proof of AI inference (model + input → output)." (gomap [("type", JStr
     "object"); ("properties", gomap [("input", described "string" "Inference input data"); ("output", described
     "string" "Inference output data"); ("model", described "string" "Model identifier"); ("agent", described
     "string" "Agent identifier")]); ("required", JArr [JStr "input"; JStr "output"; JStr "model"])]);
   tool "inference_verify" "Verify an inference proof by proof ID." (gomap [("type", JStr "object"); ("properties",
     gomap [("proof_id", typed "string")]); ("required", JArr [JStr "proof_id"])]);
   tool "create_batch" "Create a new aggregation batch for STARK proof bundling." (gomap [("type", JStr "object");
     ("properties", gomap [("batch_id", described "string" "Batch identifier"); ("max_proofs", gomap [("type", JStr
     "integer"); ("description", JStr "Maximum proofs in batch"); ("default", JInt 10)])]); ("required", JArr [JStr
     "batch_id"])]);
   tool "add_proof_to_batch" "Add a proof hash to an open aggregation batch." (gomap [("type", JStr "object");
     ("properties", gomap [("batch_id", typed "string"); ("proof_hash", typed "string"); ("leaf_index", gomap
     [("type", JStr "integer"); ("default", JInt 0)])]); ("required", JArr [JStr "batch_id"; JStr "proof_hash"])]);
   tool "finalize_batch" "Finalize an aggregation batch, producing the aggregate STARK proof." (gomap [("type",
     JStr "object"); ("properties", gomap [("batch_id", typed "string")]); ("required", JArr [JStr "batch_id"])]);
   tool "get_batch" "Fetch the state of an aggregation batch by ID." (gomap [("type", JStr "object");
     ("properties", gomap [("batch_id", typed "string")]); ("required", JArr [JStr "batch_id"])]);
   tool "verify_batch" "Verify a finalized aggregation batch's aggregate STARK proof." (gomap [("type", JStr
     "object"); ("properties", gomap [("batch_id", typed "string")]); ("required", JArr [JStr "batch_id"])]);
   tool "verify_groth16" "Verify a Groth16 proof using hash-based conceptual verification." (gomap [("type", JStr
     "object"); ("properties", gomap [("proof", typed "string"); ("vk_hash", typed "string"); ("public_inputs", gomap
     [("type", JStr "array"); ("items", typed "string")])]); ("required", JArr [JStr "proof"])])]%string.

Definition mcpTools_signing : list MCPTool :=
  [tool "groth16_real_prove" "Generate a real BN254 Groth16 proof of knowledge of a MiMC preimage." (gomap
     [("type", JStr "object"); ("properties", gomap [("preimage", described "string" "Base-10 integer preimage")]);
     ("required", JArr [JStr "preimage"])]);
   tool "groth16_real_verify" "Verify a real BN254 Groth16 proof (from groth16_real_prove)." (gomap [("type", JStr
     "object"); ("properties", gomap [("hash", described "string" "MiMC hash (base-10 integer string)");
     ("proof_hex", described "string" "Hex-encoded proof bytes")]); ("required", JArr [JStr "hash"; JStr
     "proof_hex"])]);
   tool "zk_batch_verify" "Verify multiple ZK proofs in a single batch call." (gomap [("type", JStr "object");
     ("properties", gomap [("proofs", gomap [("type", JStr "array"); ("items", gomap [("type", JStr "object");
     ("properties", gomap [("proof", typed "string"); ("public_inputs", gomap [("type", JStr "array"); ("items",
     typed "string")])])])])]); ("required", JArr [JStr "proofs"])]);
   tool "zk_challenge" "Open a dispute challenge against a proof." (gomap [("type", JStr "object"); ("properties",
     gomap [("proof_id", typed "string"); ("reason", described "string" "Reason for challenge")]); ("required", JArr
     [JStr "proof_id"; JStr "reason"])]);
   tool "zk_get_challenge" "Fetch a ZK challenge by its ID." (gomap [("type", JStr "object"); ("properties", gomap
     [("id", typed "string")]); ("required", JArr [JStr "id"])]);
   tool "pq_sign_sphincs" "Sign a message with post-quantum SPHINCS+ (Lamport OTS fallback)." (gomap [("type", JStr
     "object"); ("properties", gomap [("message", typed "string")]); ("required", JArr [JStr "message"])]);
   tool "pq_verify_sphincs" "Verify a SPHINCS+ (Lamport OTS) signature." (gomap [("type", JStr "object");
     ("properties", gomap [("message", typed "string"); ("signature_hex", typed "string"); ("public_key_hex", typed
     "string")]); ("required", JArr [JStr "message"; JStr "signature_hex"; JStr "public_key_hex"])]);
   tool "pq_hybrid_sign" "Sign a message with hybrid Ed25519 + ML-DSA-65." (gomap [("type", JStr "object");
     ("properties", gomap [("message", typed "string")]); ("required", JArr [JStr "message"])]);
   tool "pq_hybrid_verify" "Verify a hybrid Ed25519 + ML-DSA-65 signature." (gomap [("type", JStr "object");
     ("properties", gomap [("message", typed "string"); ("signature_hex", typed "string"); ("classic_pub_hex", typed
     "string"); ("pq_pub_hex", typed "string")]); ("required", JArr [JStr "message"; JStr "signature_hex"; JStr
     "classic_pub_hex"; JStr "pq_pub_hex"])]);
   tool "register_model" "Register a new AI model in the on-chain registry with its metadata and hash." (gomap
     [("type", JStr "object"); ("properties", gomap [("model_name", described "string" "Human-readable model name");
     ("model_hash", described "string" "SHA-256 of model weights"); ("framework", described "string"
     "ML framework (pytorch, tensorflow, onnx)"); ("version", described "string" "Semantic version");
     ("max_input_size", described "integer" "Max input size in bytes")]); ("required", JArr [JStr "model_name"; JStr
     "model_hash"; JStr "framework"])])]%string.

Definition mcpTools : list MCPTool := mcpTools_proofs ++ mcpTools_aggregation ++ mcpTools_signing.

Definition tool_json (t : MCPTool) : json :=
  JObj [("name", JStr (t_Name t)); ("description", JStr (t_Description t)); ("inputSchema", t_InputSchema t)]%string.

Record MCPManifest := { m_Name : string; m_Version : string; m_Tools : list MCPTool }.

Definition Manifest : MCPManifest := {| m_Name := "casperprover"; m_Version := "0.3.0"; m_Tools := mcpTools |}.

(** ** Dispatch *)

Notation Args := (gmap string json).

Definition str (args : Args) (k : string) : string := match args !! k with Some (JStr s) => s | _ => ""%string end.

(** [int(v)] cuts towards zero; what is out of range gives the smallest integer, as
    the usual processors do. *)
Definition int_of (x : float64) : Z :=
  let clip z := if (int64_min <=? z) && (z <=? int64_max) then z else int64_min in
  match x with
  | S754_zero _ => 0
  | S754_finite neg m e =>
      let a := if 0 <=? e then Zpos m * 2 ^ e else Zpos m / 2 ^ (- e) in clip (if neg then - a else a)
  | _ => int64_min
  end.

Definition intArg (args : Args) (k : string) (def : Z) : Z :=
  match args !! k with
  | Some (JNum x) => int_of x
  | Some (JStr s) => default def (atoi s)
  | _ => def
  end.

(** [fmt.Sprintf] with [%v] on a parsed value. *)
Fixpoint fmt_v (v : json) : string :=
  match v with
  | JNull => "<nil>"
  | JBool b => if b then "true" else "false"
  | JInt z => itoa z
  | JNum x => fmt_g x
  | JStr s => s
  | JArr l => "[" +:+ string_join " " (map fmt_v l) +:+ "]"
  | JObj m => "map[" +:+ string_join " " (map (λ kv, match kv with (k, v) => (k +:+ ":" +:+ fmt_v v)%string end) m) +:+ "]"
  end%string.

(** The objects of an array argument, rendered; nil when there is none. *)
Definition objects (args : Args) (k : string) (render : list (string * json) → json) : option (list json) :=
  match args !! k with
  | Some (JArr l) =>
      match omap (λ v, match v with JObj m => Some (render m) | _ => None end) l with [] => None | ps => Some ps end
  | _ => None
  end.

Definition texts (m : list (string * json)) : json := JObj ((λ kv, (fst kv, JStr (fmt_v (snd kv)))) <$> m).

Definition submit_request (args : Args) : SubmitProofRequest :=
  {| sp_agent := str args "agent"; sp_input := str args "input"; sp_output := str args "output";
     sp_model := str args "model"; sp_use_case := str args "use_case"; sp_mode := "" |}.

(** The cases of [dispatch], in its order. *)
Definition cases (a : Args) : list (string * call) :=
  [("health_check", Health); ("generate_proof", SubmitProof (submit_request a));
   ("verify_proof", VerifyProof (str a "proof_id")); ("get_proof", GetProof (str a "proof_id"));
   ("list_proofs", ListProofs); ("revoke_proof", RevokeProof (str a "proof_id") (str a "reason"));
   ("export_proof", ExportProof (str a "proof_id")); ("get_stats", Stats);
   ("kyc_check", KYCCheck (str a "proof_id")); ("kyc_grant", KYCGrant (str a "user") (str a "proof_id"));
   ("kyc_whitelist", KYCWhitelist (str a "user"));
   ("inference_prove",
      InferenceProve {| ip_agent := str a "agent"; ip_model_id := str a "model"; ip_input := str a "input";
                        ip_output := str a "output"; ip_use_case := ""; ip_pub_key := "" |});
   ("inference_verify", InferenceVerify (str a "proof_id")); ("get_model_info", GetModel (str a "model_id"));
   ("register_model",
      RegisterModel {| rm_model_id := str a "model_id"; rm_model_hash := str a "model_hash";
                       rm_verifier_contract := str a "verifier_contract"; rm_metadata := [] |});
   ("create_batch", CreateAggregationBatch (str a "batch_id") (intArg a "max_proofs" 10));
   ("add_proof_to_batch", AddProofToBatch (str a "batch_id") (str a "proof_hash") (intArg a "leaf_index" 0));
   ("finalize_batch", FinalizeBatch (str a "batch_id")); ("get_batch", GetBatch (str a "batch_id"));
   ("verify_batch", VerifyBatch (str a "batch_id"));
   ("verify_groth16", VerifyGroth16Conceptual (str a "proof") (str a "vk_hash") None);
   ("groth16_real_prove", Groth16RealProve (str a "preimage"));
   ("groth16_real_verify", Groth16RealVerify (str a "hash") (str a "proof_hex"));
   ("zk_batch_verify", BatchVerifyZK (objects a "proofs" JObj));
   ("zk_challenge", ChallengeZK (str a "proof_id") (str a "reason")); ("zk_get_challenge", GetChallengeZK (str a "id"));
   ("validate_proof_chain", ValidateProofChain (JObj (by_key pair a)));
   ("batch_proofs", BatchProofs (objects a "proofs" texts) (str a "mode"));
   ("pq_sign_sphincs", SignSPHINCS (str a "message"));
   ("pq_verify_sphincs", VerifySPHINCS (str a "message") (str a "signature_hex") (str a "public_key_hex"));
   ("pq_hybrid_sign", HybridSign (str a "message"));
   ("pq_hybrid_verify", HybridVerify (str a "message") (str a "signature_hex") (str a "classic_pub_hex") (str a "pq_pub_hex"))]%string.

(** [None]: unknown tool. *)
Definition dispatch (name : string) (a : Args) : option call :=
  snd <$> List.find (λ nc, bool_decide (fst nc = name)) (cases a).

Section server.
(** What the client answers to a call, whether or not its answer is decoded. *)
Context (exec : call → bool → result ClientError (option json)).
Context (parse : string → option json).

(** The text of a tool call, [None] for an error. *)
Definition run_tool (name : string) (a : Args) : option string :=
  k ← dispatch name a;
  let revoke := bool_decide (name = "revoke_proof"%string) in
  match exec k (negb revoke) with
  | Err _ => None
  | Ok v => marshal (if revoke then gomap [("revoked"%string, JBool true)] else default JNull v)
  end.

(** ** The loop of [RunStdio] *)

Definition of_members (m : list (string * json)) : Args := list_to_map m.

Definition any_member (m : list (string * json)) (key : string) : json :=
  default JNull (snd <$> List.find (λ kv, bool_decide (to_lower (fst kv) = key)) m).

(** The request of a line: its identifier, method and parameters. *)
Definition jsonrpcRequest (line : string) : option (json * string * Args) :=
  v ← parse line;
  m ← match v with JObj m => Some m | JNull => Some [] | _ => None end;
  method ← str_member m "method";
  _ ← str_member m "jsonrpc";
  params ← match any_member m "params" with JObj p => Some (of_members p) | JNull => Some ∅ | _ => None end;
  Some (any_member m "id", method, params).

Definition text_content (text : string) : json :=
  gomap [("content", JArr [gomap [("type", JStr "text"); ("text", JStr text)]])]%string.

Definition error_text (msg : string) : string := default ""%string (marshal (JObj [("error"%string, JStr msg)])).

Definition rpc_result (method : string) (params : Args) : json :=
  if bool_decide (method = "tools/list"%string) then gomap [("tools"%string, JArr (tool_json <$> mcpTools))]
  else if bool_decide (method = "tools/call"%string) then
    let name := str params "name" in
    let args := match params !! "arguments"%string with Some (JObj m) => of_members m | _ => ∅ end in
    if bool_decide (name = ""%string) then text_content (error_text "missing tool name")
    else text_content (default (error_text "tool execution failed") (run_tool name args))
  else gomap [("error"%string, JStr "unknown method")].

Definition jsonrpcResponse (id result : json) : json :=
  JObj [("jsonrpc", JStr "2.0"); ("id", id); ("result", result)]%string.

Definition answer_line (line : string) : option string :=
  (λ q : json * string * Args, default ""%string (marshal (jsonrpcResponse (fst (fst q)) (rpc_result (snd (fst q)) (snd q)))))
  <$> jsonrpcRequest line.

(** [bufio.Scanner] stops for good at a line of 64 KiB. *)
Definition maxLine : nat := Z.to_nat 65535.

Fixpoint RunStdio (lines : list string) : list string :=
  match lines with
  | [] => []
  | line :: lines =>
      if (maxLine <? String.length line)%nat then []
      else match answer_line line with Some out => out :: RunStdio lines | None => RunStdio lines end
  end.
End server.

(** ** The table and the dispatch *)

Lemma incl_bool {A} `{EqDecision A} (l k : list A) : forallb (λ x, bool_decide (x ∈ k)) l = true → incl l k.
Proof. intros H x Hx. rewrite forallb_forall in H. apply H, bool_decide_eq_true in Hx. by apply list_elem_of_In. Qed.

Lemma case_names a : (cases a).*1 = (cases ∅).*1.
Proof. reflexivity. Qed.

(** Every tool of the manifest is dispatched, and nothing else is. *)
Theorem manifest_dispatched name a : is_Some (dispatch name a) ↔ name ∈ t_Name <$> mcpTools.
Proof.
  assert (∀ x, x ∈ (cases ∅).*1 ↔ x ∈ t_Name <$> mcpTools) as Hx.
  { intros x. rewrite !list_elem_of_In. split; intros H.
    - assert (incl (cases ∅).*1 (t_Name <$> mcpTools)) as Hi by (apply incl_bool; vm_compute; reflexivity). by apply Hi.
    - assert (incl (t_Name <$> mcpTools) (cases ∅).*1) as Hi by (apply incl_bool; vm_compute; reflexivity). by apply Hi. }
  rewrite <- Hx, <- (case_names a). unfold dispatch. rewrite fmap_is_Some. split.
  - intros [[n k] H]. apply List.find_some in H as [Hin Hn]. apply bool_decide_eq_true in Hn. cbn in Hn. subst.
    apply list_elem_of_fmap. exists (name, k). split; [done|by apply list_elem_of_In].
  - intros ([n k] & -> & Hin%list_elem_of_In)%list_elem_of_fmap. destruct (List.find _ _) eqn:E; [done|].
    apply (List.find_none _ _ E) in Hin. cbn in Hin. by rewrite bool_decide_true in Hin.
Qed.

Definition members_of (v : json) (k : string) : list string :=
  match v with
  | JObj m => match snd <$> List.find (λ kv, bool_decide (fst kv = k)) m with
              | Some (JArr l) => omap (λ v, match v with JStr s => Some s | _ => None end) l
              | _ => []
              end
  | _ => []
  end.

Definition required (t : MCPTool) : list string := members_of (t_InputSchema t) "required".

(** Required by a schema, and read by no case. *)
Definition unread : list (string * string) :=
  [("generate_proof", "agent_id"); ("kyc_check", "address"); ("kyc_grant", "address"); ("kyc_grant", "admin");
   ("get_model_info", "model_hash"); ("register_model", "model_name"); ("register_model", "framework")]%string.

Definition sample (k : string) (b : bool) : json :=
  if bool_decide (k ∈ ["proofs"; "steps"]%string) then JArr (if b then [JObj []] else [])
  else JStr (if b then "1" else "2")%string.

Definition call_text (k : option call) : string :=
  match k with
  | Some k => (c_method k +:+ c_path k +:+ default "" (c_body k ≫= marshal))%string
  | None => ""%string
  end.

Definition reads_required (t : MCPTool) (k : string) : bool :=
  bool_decide ((t_Name t, k) ∈ unread)
  || negb (bool_decide (call_text (dispatch (t_Name t) {[ k := sample k true ]})
                        = call_text (dispatch (t_Name t) {[ k := sample k false ]}))).

Lemma required_read : forallb (λ t, forallb (reads_required t) (required t)) mcpTools = true.
Proof. vm_compute. reflexivity. Qed.

Lemma str_insert_ne a k v k' : k ≠ k' → str (<[k := v]> a) k' = str a k'.
Proof. intros H. unfold str. by rewrite lookup_insert_ne. Qed.

Lemma unread_cases a :
  dispatch "generate_proof" a = Some (SubmitProof (submit_request a)) ∧
  dispatch "kyc_check" a = Some (KYCCheck (str a "proof_id")) ∧
  dispatch "kyc_grant" a = Some (KYCGrant (str a "user") (str a "proof_id")) ∧
  dispatch "get_model_info" a = Some (GetModel (str a "model_id")) ∧
  dispatch "register_model" a =
    Some (RegisterModel {| rm_model_id := str a "model_id"; rm_model_hash := str a "model_hash";
                           rm_verifier_contract := str a "verifier_contract"; rm_metadata := [] |}).
Proof. repeat split. Qed.

Lemma unread_ignored name k a v : (name, k) ∈ unread → dispatch name (<[k := v]> a) = dispatch name a.
Proof.
  destruct (unread_cases a) as (A1 & A2 & A3 & A4 & A5), (unread_cases (<[k := v]> a)) as (B1 & B2 & B3 & B4 & B5).
  unfold unread. intros H.
  repeat (apply elem_of_cons in H as [E|H];
    [injection E as -> ->; rewrite ?A1, ?A2, ?A3, ?A4, ?A5, ?B1, ?B2, ?B3, ?B4, ?B5; unfold submit_request;
     rewrite !str_insert_ne by discriminate; reflexivity|]).
  destruct (proj1 (elem_of_nil _) H).
Qed.

(** What the schemas require reaches the server, but for seven arguments of five
    tools, which the dispatch ignores. *)
Theorem required_arguments t k :
  t ∈ mcpTools → k ∈ required t →
  ((t_Name t, k) ∈ unread ∧ ∀ a v, dispatch (t_Name t) (<[k := v]> a) = dispatch (t_Name t) a) ∨
  (∃ v v', dispatch (t_Name t) {[ k := v ]} ≠ dispatch (t_Name t) {[ k := v' ]}).
Proof.
  intros Ht%list_elem_of_In Hk%list_elem_of_In. pose proof required_read as H.
  rewrite forallb_forall in H. specialize (H t Ht). rewrite forallb_forall in H. specialize (H k Hk).
  apply orb_prop in H as [H|H].
  - left. apply bool_decide_eq_true in H. split; [done|]. intros a v. by apply unread_ignored.
  - right. exists (sample k true), (sample k false). intros E. apply negb_true_iff, bool_decide_eq_false in H. exact (H (f_equal call_text E)).
Qed.

(** ** generate_proof, end to end *)

(** What the server decodes of the client's request. *)
Definition decoded_submit (q : SubmitProofRequest) : SubmitReq :=
  {| s_agent := sp_agent q; s_input := sp_input q; s_output := sp_output q; s_model := sp_model q;
     s_use_case := sp_use_case q; s_mode := sp_mode q |}.

(** A caller who follows the schema of generate_proof, which has no agent, is
    always turned down by the server. *)
Theorem generate_proof_refused `{PqDriver} a (s : ProofApi.Server) w pubKey :
  a !! "agent"%string = None →
  dispatch "generate_proof" a = Some (SubmitProof (submit_request a)) ∧
  submitProof s w pubKey (Some (decoded_submit (submit_request a))) =
    Some (s, bad 400 "agent, input, output, model are required", []).
Proof.
  intros Ha. split; [reflexivity|]. unfold submitProof, missing_data. cbn [s_agent decoded_submit submit_request sp_agent].
  unfold str. by rewrite Ha.
Qed.

(** ** Samples *)

(** A reader that knows three lines. *)
Definition ex_line (method : string) (id : Z) (params : list (string * json)) : json :=
  JObj [("jsonrpc", JStr "2.0"); ("id", JNum (f_of_Z id)); ("method", JStr method); ("params", JObj params)]%string.

Definition ex_parse (line : string) : option json :=
  if bool_decide (line = "call"%string) then
    Some (ex_line "tools/call" 1 [("arguments", JObj [("proof_id", JStr "P-1")]); ("name", JStr "get_proof")]%string)
  else if bool_decide (line = "notify"%string) then Some (JObj [("method", JStr "notifications/initialized")]%string)
  else None.

(** A call is answered under its identifier; a notification is answered too; a line
    that does not parse is skipped. *)
Example stdio_sample :
  RunStdio (λ k out, Ok (Some (JStr (c_path k)))) ex_parse ["call"; "junk"; "notify"]%string =
    [default "" (marshal (jsonrpcResponse (JNum (f_of_Z 1)) (text_content (default "" (marshal (JStr "/proofs/P-1"))))));
     default "" (marshal (jsonrpcResponse JNull (gomap [("error", JStr "unknown method")])))]%string.
Proof. vm_compute. reflexivity. Qed.

(** Numbers and nested values of a batch, as texts. *)
Example texts_sample :
  fmt_v <$> [JNum (f_of_Z 7); JArr [JStr "a"; JNull]; JObj [("k", JBool true)]%string] = ["7"; "[a <nil>]"; "map[k:true]"]%string.
Proof. vm_compute. reflexivity. Qed.
